(* ===== verification/_CoqProject ===== *)
-Q . S2P
Prelude.v
Types.v
BTreeSet.v
Mempool.v
MiniMerkleTree.v
SmallMap.v
MerkleTypes.v
MerkleHash.v
MerklePatch.v
MerkleStorage.v
MerkleView.v
MerkleInvariant.v
MerkleInsert.v
MerkleLoad.v
MerkleFinalize.v
MerkleRefine.v
MerkleProofs.v
MerklePruning.v
MerkleSerialization.v
Rocksdb.v
MerkleRocksDB.v
MerkleDrain.v
MerklePatched.v
MerkleFull.v
ZkSyncTree.v
MerkleRuns.v
Abi.v
BtcTypes.v
BitcoinToy.v
ScriptBuilder.v
Parser.v
BtcClient.v
Inscriber.v
Indexer.v
BtcWatch.v
Sql.v
SenderDal.v
BtcSender.v
SenderInvariant.v
SenderRuns.v
StateDiffs.v
Deduplicator.v
Float.v
VmLimits.v
FeeModel.v
VmErrors.v
SealCriteria.v
TxEncoding.v
VmInterface.v
KeeperUpdates.v
BatchExecutor.v
StateKeeper.v
KeeperChain.v
KeeperDal.v
MempoolIO.v
KeeperMempool.v
KeeperDb.v
MempoolFetcher.v
Persistence.v
PersistenceSpec.v
PersistenceMarks.v
PersistenceCorrect.v
PersistenceTree.v
PersistenceRuns.v
PersistenceHandler.v
PersistenceRestart.v
PersistenceResume.v
PersistenceSamples.v
PersistenceFlaws.v
