(* ===== verification/Prelude.v ===== *)
(** * Via Network core: a verification development

    Via is a validity rollup on Bitcoin. This library models the parts of its node
    that decide what is written to Bitcoin, what is read back from it, and which
    transactions are executed, as executable functions, and proves what makes them
    correct. Sources are named by their path under [src/core].

    ** The program and its parts

    Users' L2 transactions wait in the mempool ([lib/mempool]), from which the state
    keeper ([node/via_state_keeper]) takes them into L2 blocks and L1 batches: it has
    each transaction executed by the virtual machine, asks the seal criteria whether the
    batch with it is within its limits, includes it, puts it back or rejects it, and hands
    sealed blocks and batches to its output handlers, which write them to Postgres
    ([lib/dal]) so that it can be restarted after a crash. What transactions pay comes from the
    fee model ([node/via_fee_model]); what a batch publishes are its compressed state
    diffs ([lib/types/src/storage/writes]). The sender ([node/via_btc_sender]) aggregates
    batches that are ready, and later their proofs, into inscription requests in
    Postgres; its manager has an inscriber ([lib/via_btc_client/src/inscriber])
    write each request to Bitcoin as a commit and a reveal transaction, the reveal
    carrying a script made by [script_builder.rs]. In the other direction the indexer
    ([lib/via_btc_client/src/indexer]) bootstraps the system from its first
    inscriptions and parses the messages of every block, and the watcher
    ([node/via_btc_watch]) turns deposits among them into priority transactions with
    consecutive serial ids ([lib/types/src/{l1,abi}]) in the [transactions] table,
    which the mempool executes in that order. [lib/mini_merkle_tree] computes the
    roots and proofs of L2-to-L1 logs. The state after each L1 batch is a version of
    a persistent Merkle tree ([lib/merkle_tree]) in RocksDB ([lib/storage]).

    ** Files

    - [Prelude] (this file): panics ([exec]), state with early returns ([prog], the
      reading of [&mut self] methods that use [?]), machine integers with their
      wrap-around, byte strings, UTF-8; lemmas, hints and tactics on them.
    - [Types]: [lib/types], the transaction types and accessors the others use.
    - [BTreeSet], [Mempool]: Rust's ordered set as a sorted list with its laws, and
      [lib/mempool/src/{types,mempool_store}.rs]. [MempoolStore.t] is the struct, with
      maps as [gmap]; one function per method; a panic is an index, [expect] or
      [assert] that fails.
    - [MiniMerkleTree]: [lib/mini_merkle_tree/src/lib.rs], with the hash as a
      parameter; [reference_root], [ref_path] and [fold_range] are the specification.
    - The persistent Merkle tree, [lib/merkle_tree/src]. [SmallMap], [MerkleTypes],
      [MerkleHash]: nodes, keys of nibbles, hashing and verification of proofs.
      [MerklePatch]: the trait [Database] as a class with its laws, patch sets, and
      the working set of an update. [MerkleStorage], [MerkleFull]: updates without and
      with proofs, and the tree's interface. [MerklePruning], [MerkleDrain]: pruning.
      [MerkleSerialization], [Rocksdb], [MerkleRocksDB]: the byte formats, the store
      and the database over it. [MerklePatched], [ZkSyncTree]: the changes kept in
      memory and the tree of L1 batches. [MerkleView], [MerkleInvariant],
      [MerkleInsert], [MerkleLoad], [MerkleFinalize] have the proof that an update
      builds the tree of its map: [stored] says that a node and what its references
      lead to in the database are the tree of a map, [sinv] and [wok] the same of the
      working set. [MerkleRefine], [MerkleProofs] and [MerkleRuns] state it of the
      interface: a database [represents] a list of maps.
    - [Abi]: [lib/types/src/abi.rs], encoding and decoding of canonical
      transactions, priority requests and protocol upgrades as ABI tokens.
    - [BtcTypes], [BitcoinToy]: the data of [via_btc_client/src/types.rs], and
      rust-bitcoin as the class [BitcoinLib] with its documented laws
      [BitcoinLibLaws]; [BitcoinToy] is a concrete instance with Bitcoin's own push
      encoding, on which all witnesses evaluate.
    - [ScriptBuilder], [Parser]: [inscriber/script_builder.rs] and
      [indexer/parser.rs]: messages to inscription scripts and back.
    - [BtcClient]: [utils.rs], [client/{mod,rpc_client}.rs] and the traits of
      [traits.rs]: retries, and the client over an arbitrary node ([NodeRpc]).
    - [Inscriber]: [inscriber/{mod,fee,internal_type}.rs]: fees, inputs, outputs,
      signing, broadcasting and the queue of pending inscriptions.
    - [Indexer]: [indexer/mod.rs]: bootstrap vote and block processing.
    - [BtcWatch]: [node/via_btc_watch] and [dal/src/via_transactions_dal.rs].
    - [Sql]: what the models of tables share: selections, orders, unique keys.
    - [SenderDal], [BtcSender], [SenderInvariant], [SenderRuns]:
      [dal/src/{btc_sender_dal,via_blocks_dal}.rs] with the tables of their
      migration, [node/via_btc_sender], its invariant as a transition system of the
      two tasks and an arbitrary environment, and a concrete run.
    - [StateDiffs], [Deduplicator]: the compression of state diffs
      ([lib/types/src/storage/writes]) and the counting of the net writes of a batch
      ([lib/multivm/src/utils/deduplicator.rs]).
    - [Float], [VmLimits], [FeeModel]: binary floating point as the fee model uses it, the
      limits of each version of the virtual machine ([lib/multivm/src/utils/mod.rs]), and
      the fees ([lib/types/src/fee_model.rs], [node/{fee_model,via_fee_model}]).
    - [VmErrors], [VmInterface], [TxEncoding]: revert reasons and halts, the data that go
      in and out of the machine ([lib/vm_interface]), and transactions in the format of
      the bootloader ([transaction_data.rs] of the latest version).
    - The state keeper, [node/via_state_keeper/src]. [SealCriteria]: [seal_criteria] and
      [utils.rs]. [KeeperUpdates]: [updates], what an open batch has collected.
      [BatchExecutor]: [batch_executor], over the machine as the class [VmCore].
      [StateKeeper]: [keeper.rs] and [io/{mod,output_handler}.rs], the whole task over the
      class [StateKeeperIO]. [KeeperChain]: its invariant and theorems, for every I/O with
      the laws [StateKeeperIOLaws]. [KeeperDal], [MempoolIO]: the I/O of the main node
      ([io/{common,mempool}.rs], [lib/vm_utils/src/storage.rs]) over the statements of the
      database as a class, with a proof of these laws. [KeeperMempool]: the composition of
      the state keeper with that I/O and the mempool. [MempoolFetcher]: [mempool_actor.rs],
      the task that fills the mempool from the database.
    - The state keeper's database. [KeeperDb]: the tables as a record of rows and the
      statements of [dal/src/{blocks,transactions,storage_logs,storage_logs_dedup,
      factory_deps,tokens,events,protocol_versions}_dal.rs] on them, with the constraints
      of the migrations. [Persistence]: [io/persistence.rs] and [io/seal_logic]; a turn of
      the sealer's task is the order in which its subtasks take effect, up to the one that
      fails. [PersistenceSpec]: the specification, a chain of sealed blocks and batches as
      the tables it has. [PersistenceMarks], [PersistenceCorrect]: what the subtasks, their
      rollbacks and the transaction of a batch do to it. [PersistenceRuns]: the step
      relation with crashes and its invariant. [PersistenceHandler]: the handler and the
      task refine these steps. [PersistenceRestart], [PersistenceResume]: what is read at a
      restart. [PersistenceTree]: the writes of the Merkle tree. [PersistenceSamples],
      [PersistenceFlaws]: runs, and what the persistence does not survive.

    ** What the theorems show

    - Writing and reading Bitcoin: what is inscribed is parsed back to the same
      message ([reveal_transaction_parses], [sent_inscription_parses]); transactions
      conserve value and fees are exact ([inscription_conserves_value],
      [estimate_fee_exact]); the queue of pending inscriptions is synchronised from
      its front ([sync_context_spec]); outputs in use are not spent again, but for
      the head's change ([commit_inputs_not_pending]); which scripts make the parser
      panic ([parse_message_panics_only]); blocks can be read in any split
      ([process_blocks_split]); a bootstrap ends with the sequencer that a majority
      of the verifiers' votes in the transactions has elected
      ([bootstrap_elects_by_majority]); retries ([with_retry_spec]) and
      unspent outputs ([fetch_utxos_sound]).
    - Deposits: the priority operations of the table of transactions are a ledger with the
      ids [0 .. n - 1] as long as no two deposits have the same hash
      ([deposits_extend_ledger]), a batch of messages is counted once
      ([deposits_processed_once]) and a restarted watcher continues the ledger
      ([restart_recovers_ledger]).
    - The sender: what every reachable state of its tables satisfies
      ([sender_safety]), the bound on inscriptions in flight ([inflight_bounded]), and
      what the publish criteria select ([extract_ready_subrange_spec]).
    - The mempool: no panic, and none when the transaction taken last is put back unless
      its account has been collected ([mempool_never_panics]), the choice of the next
      transaction ([next_transaction_selects]), rollback ([rollback_insert_restores]) and
      garbage collection ([gc_purges_unready]).
    - The mini Merkle tree: root, inclusion proofs and range proofs are those of the
      padded reference tree, after any pushes and trims.
    - The persistent tree: updates, reverts and prunings refine operations on a list
      of maps ([run_refines]), L1 batches one on saved and pending states
      ([tree_run_refines], [readers_see_saved]), for any database with the laws of
      [Database], which patch sets, patched databases and the RocksDB wrapper are
      shown to have; entries and proofs are those of the map ([merkle_entries_refine],
      [merkle_proofs_verify]); the pruner removes every node recorded as replaced
      up to its target ([pruner_drains]); bytes are read to well-formed nodes
      ([internal_deserialize_spec]) and the prover's witness round trips
      ([witness_roundtrip]); stalled writes ([stalled_write_retried_once]).
    - The state keeper: what it seals continues the chain of blocks and batches whatever
      its surroundings do ([sealed_outputs_form_chain]), with the transactions it was
      given, in order ([sealed_transactions_received]), at increasing times
      ([sealed_times_increase]); priority operations are executed in the order of their ids
      without gaps ([priority_operations_in_order]); a transaction is included only within
      the limits of a batch ([inclusion_within_limits]), and the first of a batch is not
      put off ([first_transaction_not_excluded]); it ends when it is told to
      ([keeper_stops_on_signal]).
    - Its database: a crash after any statement, of the recovery too, leaves what has been
      sealed and nothing else, call traces apart, once the pending data are removed
      ([crash_recovers_sealed]); of what was handed over only the blocks in the channel and
      the one being sealed can be lost ([handled_outputs_durable]); a restart continues
      the chain and gives back the open batch ([restart_resumes_chain]) - all this as
      long as nobody deletes the rows of transactions that are being executed; the tree is
      given the indices of the table ([tree_writes_indexed]); what the mempool is filled with ([fetch_fills_mempool]).
    - Batches: published state diffs can be read back ([state_diffs_roundtrip]), the
      deduplicator counts net changes ([deduplicator_counts_net_change]), the size of
      transactions for the bootloader is exact ([encoding_len_exact]), and the hash of a
      deposit there is the one the watcher stored ([deposit_hash_agrees]).
    - Fees and errors: the derived fee pays for pubdata ([derived_fee_covers_pubdata]), the
      adjusted one is accepted ([adjusted_price_accepted]); revert messages are read back
      ([error_string_parsed]).
    - ABI: decoding accepts exactly what encoding produces
      ([proposed_upgrade_decode_iff]) and requests round trip.
    - Flaws, as theorems on the same definitions: [redirected_bridge_mints],
      [two_messages_mint_twice], [failed_insert_leaves_gap],
      [unauthenticated_bridge_redirect], [stale_votes_elect_sequencer],
      [proof_names_commit_transaction], [pending_head_spent_twice],
      [not_ok_vote_lost], [malformed_receiver_panics], [rollback_after_gc_panics],
      [stale_after_revert_panics], [corrupted_mask_panics],
      [via_pubdata_price_is_batch_size], [revert_reason_panics],
      [collected_account_stops_keeper], [purged_transaction_stops_restart],
      [interrupted_reset_blocks_sealing].

    ** Conventions, bounds and fuel

    Most loops are a recursion over a list, over the blocks of a range, or over the
    retries left. [BtcWatch.run] takes the number of iterations of its endless loop. The
    stop signal of the state keeper is the number of times it is looked at before it is
    set; a loop under a timeout takes its patience from the environment. Both are
    arbitrary in the theorems.
    The walks of the persistent tree have fuel for the 64 nibbles of a key and one
    more, and the decimal and LEB128 forms for the 20 and 10 digits of 64 bits; that
    this is enough is part of the theorems, which are on results and not on runs that
    return. Integers are [Z] with [wrap w] wherever the code
    can overflow, since the release profile does not check; [Amount]'s checked
    addition panics. Theorems state the ranges they need (serial ids below [2 ^ 63],
    request ids below [2 ^ 31], the [i32] of a table's column). Calls to the outside
    are functions of a world [W] that they may change; database statements fail by a
    schedule of faults, so errors occur at any statement; a statement of the state keeper's
    database takes effect as a whole, and a crash is a step between two of them.

    ** What is not modelled

    Logging and metrics, timers, connection pools and process wiring
    ([node_framework], [bin]); cryptography and serialization libraries, which are
    parameters; of the persistent tree the recovery from snapshots, the consistency
    check and the background writes; the virtual machine itself ([lib/multivm]), which is
    the class [VmCore]; what the API and other components read and write in the state
    keeper's tables, but for [others] in [PersistenceRuns]; the bloom filters of headers;
    the API server, consensus, the Ethereum sender and watcher of the
    upstream node, the prover, and the command line tools. One iteration of a sender
    task is one step: the tasks' statements are not interleaved. *)
From Stdlib Require Export ZArith Strings.Byte.
From stdpp Require Export base tactics list gmap sets fin_maps strings sorting.

Set Default Proof Using "Type".

(** ** Computations that may panic

    A Rust function that can panic ([expect], [unwrap], [panic!], an index out
    of bounds, a failed [assert!]) is a function into [exec]; its error and
    absence results stay values ([sum], [option]) inside [Ret], so that state
    changed before an early return is still there after it. *)
Inductive exec (A : Type) : Type :=
| Ret (a : A)
| Panic.
Arguments Ret {A} _.
Arguments Panic {A}.

#[export] Instance exec_ret : MRet exec := fun _ a => Ret a.
#[export] Instance exec_bind : MBind exec := fun _ _ f m =>
  match m with Ret a => f a | Panic => Panic end.

(** [let? x := e else r in k] is Rust's [?] on an [Option]: [e]'s value, or
    the early return [r]. *)
Declare Scope via_scope.
Delimit Scope via_scope with via.
Open Scope via_scope.

Notation "'let?' x ':=' e 'else' r 'in' k" :=
  (match e with Some x => k | None => r end)
  (at level 10, x pattern, e at level 200, r at level 200, k at level 200,
   format "'[v' 'let?'  x  ':='  e  'else'  r  'in' '/' k ']'") : via_scope.

(** [let! x := e else (err => r) in k] is Rust's [?] on a [Result]. *)
Notation "'let!' x ':=' e 'else' '(' err '=>' r ')' 'in' k" :=
  (match e with inr x => k | inl err => r end)
  (at level 10, x pattern, err name, e at level 200, r at level 200, k at level 200,
   format "'[v' 'let!'  x  ':='  e  'else'  '(' err  '=>'  r ')'  'in' '/' k ']'") : via_scope.

(** Rust's [Option::expect] / [unwrap]. *)
Definition expect {A} (o : option A) : exec A :=
  match o with Some a => Ret a | None => Panic end.

(** [assert!(b)] before [k]. *)
Definition assert_then {A} (b : bool) (k : exec A) : exec A :=
  if b then k else Panic.

Lemma bind_Ret_inv {A B} (m : exec A) (f : A → exec B) b :
  m ≫= f = Ret b ↔ ∃ a, m = Ret a ∧ f a = Ret b.
Proof. destruct m; cbn; [|naive_solver]. split; [eauto|]. by intros (? & [= ->] & ?). Qed.

Lemma expect_Ret_inv {A} (o : option A) a : expect o = Ret a ↔ o = Some a.
Proof. destruct o; cbn; naive_solver. Qed.

(** [Iterator::fold] over a panicking step. *)
Fixpoint foldM {A B} (f : A → B → exec A) (a : A) (l : list B) : exec A :=
  match l with
  | [] => Ret a
  | b :: l => f a b ≫= λ a, foldM f a l
  end.

Lemma foldM_app {A B} (f : A → B → exec A) a l1 l2 :
  foldM f a (l1 ++ l2) = foldM f a l1 ≫= λ a, foldM f a l2.
Proof.
  revert a. induction l1 as [|b l1 IH]; intros a; [done|]; cbn.
  destruct (f a b); cbn; [apply IH|done].
Qed.

(** An invariant of the step is an invariant of the loop; a step that returns
    on every state with the invariant makes the loop return. *)
Lemma foldM_inv {A B} (P : A → Prop) (Q : B → Prop) (f : A → B → exec A) l a :
  (∀ a b, P a → Q b → ∃ a', f a b = Ret a' ∧ P a') →
  P a → Forall Q l → ∃ a', foldM f a l = Ret a' ∧ P a'.
Proof.
  intros Hf. revert a. induction l as [|b l IH]; intros a HP HQ; cbn; [eauto|].
  apply Forall_cons in HQ as [Hb HQ].
  destruct (Hf a b HP Hb) as (a' & -> & HP'). cbn. auto.
Qed.

(** What the step preserves when it returns holds of the loop's result. *)
Lemma foldM_Ret_inv {A B} (P : A → Prop) (Q : B → Prop) (f : A → B → exec A) l a a' :
  (∀ a b a', P a → Q b → f a b = Ret a' → P a') →
  P a → Forall Q l → foldM f a l = Ret a' → P a'.
Proof.
  intros Hf. revert a. induction l as [|b l IH]; intros a HP HQ Hr; cbn in Hr; [by simplify_eq|].
  apply Forall_cons in HQ as [Hb HQ]. apply bind_Ret_inv in Hr as (a1 & H1 & Hr). eauto.
Qed.

(** Filters that agree on the elements of a list. *)
Lemma filter_ext_in {A} (P Q : A → Prop) `{!∀ x, Decision (P x), !∀ x, Decision (Q x)} (l : list A) :
  (∀ x, x ∈ l → P x ↔ Q x) → filter P l = filter Q l.
Proof.
  induction l as [|x l IH]; intros Hpq; [done|]. specialize (IH (λ y Hy, Hpq y (list_elem_of_further y x l Hy))).
  pose proof (Hpq x (list_elem_of_here x l)). rewrite !filter_cons, IH. repeat case_decide; tauto.
Qed.

(** A loop that returns on every element. *)
Lemma mapM_Ret {A B} (R : A → B → Prop) (f : A → exec B) l :
  Forall (λ a, ∃ b, f a = Ret b ∧ R a b) l → ∃ l', mapM f l = Ret l' ∧ Forall2 R l l'.
Proof.
  induction 1 as [|a l (b & Hb & HR) _ (l' & IH & HRs)]; cbn; [by exists []|]. rewrite Hb. cbn. rewrite IH. cbn.
  exists (b :: l'). split; [done|]. by constructor.
Qed.

(** [Result] alone: [?] and [Option::context]. *)
#[export] Instance sum_ret {E} : MRet (sum E) := λ A a, inr a.
#[export] Instance sum_bind {E} : MBind (sum E) := λ A B f m,
  match m with inr a => f a | inl e => inl e end.
Definition context_or {E A} (e : E) (o : option A) : E + A :=
  match o with Some a => inr a | None => inl e end.

Lemma sum_bind_inr {E A B} (m : E + A) (f : A → E + B) b :
  m ≫= f = inr b ↔ ∃ a, m = inr a ∧ f a = inr b.
Proof. destruct m; cbn; naive_solver. Qed.

Lemma context_or_inr {E A} (e : E) (o : option A) a : context_or e o = inr a ↔ o = Some a.
Proof. destruct o; cbn; naive_solver. Qed.

(** ** Stateful code with early returns

    A method of [&mut self] (or of the outside world) that returns [Result] or
    [Option] is a [prog]: it takes the state and gives back the result beside
    the state as it is when the method returns, early or not; [bind] is the [?]
    operator. [E] is [unit] for [Option]. *)
Definition prog (S E A : Type) : Type := S → exec ((E + A) * S).

#[export] Instance prog_ret {S E} : MRet (prog S E) := λ A a s, Ret (inr a, s).
#[export] Instance prog_bind {S E} : MBind (prog S E) := λ A B f m s,
  match m s with
  | Ret (inr a, s') => f a s'
  | Ret (inl e, s') => Ret (inl e, s')
  | Panic => Panic
  end.

Section prog.
Context {S E : Type}.

Definition fail {A} (e : E) : prog S E A := λ s, Ret (inl e, s).
Definition get : prog S E S := λ s, Ret (inr s, s).
Definition put (s : S) : prog S E () := λ _, Ret (inr (), s).
Definition lift_exec {A} (m : exec A) : prog S E A := λ s, a ← m; Ret (inr a, s).
Definition ok_or {A} (e : E) (o : option A) : prog S E A :=
  match o with Some a => mret a | None => fail e end.
Definition of_result {A} (r : E + A) : prog S E A := λ s, Ret (r, s).

Lemma prog_bind_inr {A B} (m : prog S E A) (f : A → prog S E B) s b s' :
  (m ≫= f) s = Ret (inr b, s') ↔
  ∃ a s1, m s = Ret (inr a, s1) ∧ f a s1 = Ret (inr b, s').
Proof.
  unfold mbind, prog_bind. destruct (m s) as [[[e|a] s1]|]; split; try naive_solver.
Qed.

Lemma prog_bind_ext {A B} (m : prog S E A) (f g : A → prog S E B) s :
  (∀ a s, f a s = g a s) → (m ≫= f) s = (m ≫= g) s.
Proof. intros Hfg. unfold mbind, prog_bind. destruct (m s) as [[[e|a] s1]|]; [done|apply Hfg|done]. Qed.

Lemma prog_bind_step {A B} (m : prog S E A) (f : A → prog S E B) s a s1 :
  m s = Ret (inr a, s1) → (m ≫= f) s = f a s1.
Proof. intros Hm. unfold mbind, prog_bind. by rewrite Hm. Qed.

Lemma prog_bind_panic {A B} (m : prog S E A) (f : A → prog S E B) s :
  (m ≫= f) s = Panic ↔ m s = Panic ∨ ∃ a s1, m s = Ret (inr a, s1) ∧ f a s1 = Panic.
Proof. unfold mbind, prog_bind. destruct (m s) as [[[e|a] s1]|]; naive_solver. Qed.

Lemma ok_or_Some {A} (e : E) (o : option A) a s :
  o = Some a → ok_or e o s = Ret (inr a, s).
Proof. by intros ->. Qed.

Lemma ok_or_panic {A} (e : E) (o : option A) s : ok_or e o s ≠ Panic.
Proof. by destruct o. Qed.

Lemma ok_or_inr {A} (e : E) (o : option A) s a s' :
  ok_or e o s = Ret (inr a, s') ↔ o = Some a ∧ s' = s.
Proof. destruct o; cbv; naive_solver. Qed.

Lemma of_result_inr {A} (r : E + A) s a s' :
  of_result r s = Ret (inr a, s') ↔ r = inr a ∧ s' = s.
Proof. unfold of_result. naive_solver. Qed.

Lemma lift_exec_inr {A} (m : exec A) s a s' :
  lift_exec m s = Ret (inr a, s') ↔ m = Ret a ∧ s' = s.
Proof. destruct m; cbv; naive_solver. Qed.

Lemma mret_inr {A} (a : A) s b s' :
  (mret a : prog S E A) s = Ret (inr b, s') ↔ b = a ∧ s' = s.
Proof. cbv. naive_solver. Qed.

(** A [for] loop whose body may return early. *)
Fixpoint foldP {A B} (f : A → B → prog S E A) (a : A) (l : list B) : prog S E A :=
  match l with
  | [] => mret a
  | b :: l => f a b ≫= λ a, foldP f a l
  end.

Lemma foldP_app {A B} (f : A → B → prog S E A) a l1 l2 s :
  foldP f a (l1 ++ l2) s = (foldP f a l1 ≫= λ a, foldP f a l2) s.
Proof.
  revert a s. induction l1 as [|b l1 IH]; intros a s; [done|].
  cbn. unfold mbind, prog_bind in *. destruct (f a b s) as [[[e|a'] s']|]; [done| |done]. apply IH.
Qed.

(** A loop that appends to its accumulator. *)
Lemma foldP_acc {A B} (f : B → prog S E (list A)) acc l s :
  foldP (λ res b, r ← f b; mret (res ++ r)) acc l s =
  (r ← foldP (λ res b, r ← f b; mret (res ++ r)) [] l; mret (acc ++ r)) s.
Proof.
  revert acc s. induction l as [|b l IH]; intros acc s; cbn [foldP];
    unfold mbind, prog_bind, mret, prog_ret in *.
  { by rewrite app_nil_r. }
  destruct (f b s) as [[[e|r] s']|]; cbn; [done| |done]. rewrite IH, (IH r).
  destruct (foldP _ [] l s') as [[[e|r'] s'']|]; cbn; [done| |done]. by rewrite app_assoc.
Qed.

(** What a body preserves on success, and on failure, the loop preserves. *)
Lemma foldP_inv {A B} (P : A → S → Prop) (Q : S → Prop) (f : A → B → prog S E A) l a s :
  (∀ a b s, P a s → match f a b s with
     | Ret (inr a', s') => P a' s' | Ret (inl _, s') => Q s' | Panic => True end) →
  P a s →
  match foldP f a l s with
  | Ret (inr a', s') => P a' s' | Ret (inl _, s') => Q s' | Panic => True end.
Proof.
  intros Hf. revert a s. induction l as [|b l IH]; intros a s HP; [done|].
  cbn. unfold mbind, prog_bind. specialize (Hf a b s HP).
  destruct (f a b s) as [[[e|a'] s']|]; [done| |done]. by apply IH.
Qed.
End prog.

(** ** Machine integers

    The workspace builds with Cargo's release profile and no
    [overflow-checks], so unchecked [+], [-], [*] wrap around. *)
Local Open Scope Z_scope.

Definition wrap (w z : Z) : Z := z mod 2 ^ w.
Definition in_width (w z : Z) : Prop := 0 ≤ z < 2 ^ w.

Definition u64_max : Z := 2 ^ 64 - 1.

(** [as i64], [as i32] of a value of the unsigned type of the same width. *)
Definition to_signed (w z : Z) : Z := if decide (z < 2 ^ (w - 1)) then z else z - 2 ^ w.

Lemma wrap_small w z : in_width w z → wrap w z = z.
Proof. intros. unfold wrap. by apply Z.mod_small. Qed.

Lemma wrap_in_width w z : 0 ≤ w → in_width w (wrap w z).
Proof. intros. apply Z.mod_pos_bound. lia. Qed.

(** [checked_sub] and [saturating_sub] of an unsigned type. *)
Definition checked_sub (a b : Z) : option Z := if decide (b ≤ a) then Some (a - b) else None.
Definition saturating_sub (a b : Z) : Z := Z.max 0 (a - b).

Lemma forallb_elem {A} (f : A → bool) l x : forallb f l = true → x ∈ l → f x = true.
Proof. intros Hf Hx. by apply (proj1 (forallb_forall f l) Hf), list_elem_of_In. Qed.

Lemma omap_id_Some {A} (l : list A) : omap id (Some <$> l) = l.
Proof. induction l as [|x l IH]; cbn; [done|]. by f_equal. Qed.

(** Distinct elements of a list: at most its length, and as many only if none
    is repeated. *)
Lemma size_list_to_set_le `{Countable A} (l : list A) :
  (size (list_to_set l : gset A) ≤ length l)%nat.
Proof.
  induction l as [|a l IH]; cbn [list_to_set length]; [by rewrite size_empty|].
  rewrite size_union_alt, size_singleton.
  pose proof (subseteq_size (list_to_set l ∖ {[a]}) (list_to_set l : gset A)). set_solver by lia.
Qed.

Lemma size_list_to_set_NoDup `{Countable A} (l : list A) :
  size (list_to_set l : gset A) = length l → NoDup l.
Proof.
  induction l as [|a l IH]; intros Hs; [apply NoDup_nil_2|].
  pose proof (size_list_to_set_le l) as Hle. cbn [list_to_set length] in Hs.
  destruct (decide (a ∈ l)) as [Ha|Ha].
  - exfalso. assert ({[a]} ∪ list_to_set l = (list_to_set l : gset A)) as Heq by set_solver.
    rewrite Heq in Hs. lia.
  - apply NoDup_cons_2; [done|]. apply IH.
    rewrite size_union, size_singleton in Hs by set_solver. lia.
Qed.

(** ** Bytes and big-endian integers *)
#[export] Instance byte_eq_dec : EqDecision byte := Byte.byte_eq_dec.
#[export] Instance byte_countable : Countable byte.
Proof.
  refine (inj_countable Byte.to_N Byte.of_N _). intros b. apply Byte.of_to_N.
Defined.

Definition byte_to_Z (b : byte) : Z := Z.of_N (Byte.to_N b).
Definition Z_to_byte (z : Z) : byte := default x00 (Byte.of_N (Z.to_N (wrap 8 z))).

Lemma byte_to_Z_bound b : 0 ≤ byte_to_Z b < 256.
Proof. unfold byte_to_Z. pose proof (Byte.to_N_bounded b). lia. Qed.

Lemma Z_to_byte_to_Z z : byte_to_Z (Z_to_byte z) = wrap 8 z.
Proof.
  unfold Z_to_byte, byte_to_Z.
  assert (0 ≤ wrap 8 z < 256) by (apply (wrap_in_width 8); lia).
  destruct (Byte.of_N (Z.to_N (wrap 8 z))) as [b|] eqn:E; cbn.
  - apply Byte.to_of_N in E. rewrite E. lia.
  - apply Byte.of_N_None_iff in E. lia.
Qed.

Lemma byte_to_Z_to_byte b : Z_to_byte (byte_to_Z b) = b.
Proof.
  unfold Z_to_byte. rewrite wrap_small by apply byte_to_Z_bound.
  unfold byte_to_Z. rewrite N2Z.id, Byte.of_to_N. done.
Qed.

(** [uN::from_be_bytes]; the accumulator runs from the most significant byte. *)
Definition from_be_bytes (bs : list byte) : Z :=
  foldl (λ acc b, acc * 256 + byte_to_Z b) 0 bs.

(** [uN::to_be_bytes] with [n] bytes. *)
Fixpoint to_be_bytes (n : nat) (z : Z) : list byte :=
  match n with
  | O => []
  | S n => to_be_bytes n (z / 256) ++ [Z_to_byte z]
  end.

Lemma length_to_be_bytes n z : length (to_be_bytes n z) = n.
Proof.
  revert z. induction n as [|n IH]; intros z; [done|].
  cbn. rewrite length_app, IH. cbn. lia.
Qed.

Lemma from_be_bytes_snoc bs b :
  from_be_bytes (bs ++ [b]) = from_be_bytes bs * 256 + byte_to_Z b.
Proof. unfold from_be_bytes. by rewrite foldl_app. Qed.

Lemma from_to_be_bytes n z :
  0 ≤ z < 256 ^ Z.of_nat n → from_be_bytes (to_be_bytes n z) = z.
Proof.
  revert z. induction n as [|n IH]; intros z Hz; cbn [to_be_bytes].
  - cbn in Hz. assert (z = 0) as -> by lia. done.
  - rewrite from_be_bytes_snoc, Z_to_byte_to_Z.
    rewrite Nat2Z.inj_succ, Z.pow_succ_r in Hz by lia.
    rewrite IH.
    + unfold wrap. change (2 ^ 8) with 256. pose proof (Z.div_mod z 256). lia.
    + split; [apply Z.div_pos; lia|]. apply Z.div_lt_upper_bound; lia.
Qed.

Lemma to_from_be_bytes bs : to_be_bytes (length bs) (from_be_bytes bs) = bs.
Proof.
  induction bs as [|b bs IH] using rev_ind; [done|].
  rewrite length_app. cbn [length]. rewrite Nat.add_1_r. cbn [to_be_bytes].
  rewrite from_be_bytes_snoc. f_equal.
  - rewrite Z.div_add_l by lia.
    rewrite (Z.div_small (byte_to_Z b)) by apply byte_to_Z_bound.
    by rewrite Z.add_0_r.
  - f_equal. unfold Z_to_byte, wrap. change (2 ^ 8) with 256.
    rewrite Z.add_comm, Z.mod_add, Z.mod_small by (lia || apply byte_to_Z_bound).
    unfold byte_to_Z. by rewrite N2Z.id, Byte.of_to_N.
Qed.

(** Byte-string literals. *)
Definition bytes (s : string) : list byte := String.list_byte_of_string s.

(** [std::str::from_utf8]: the bytes, if they are well-formed UTF-8. *)
Definition in_range (lo hi : Z) (b : byte) : bool :=
  bool_decide (lo ≤ byte_to_Z b) && bool_decide (byte_to_Z b ≤ hi).
Definition utf8_cont : byte → bool := in_range 0x80 0xBF.

Fixpoint valid_utf8 (bs : list byte) : bool :=
  match bs with
  | [] => true
  | b0 :: r0 =>
      if in_range 0 0x7F b0 then valid_utf8 r0 else
      match r0 with
      | [] => false
      | b1 :: r1 =>
          if in_range 0xC2 0xDF b0 then utf8_cont b1 && valid_utf8 r1 else
          match r1 with
          | [] => false
          | b2 :: r2 =>
              if in_range 0xE0 0xEF b0 then
                in_range (if in_range 0xE0 0xE0 b0 then 0xA0 else 0x80)
                         (if in_range 0xED 0xED b0 then 0x9F else 0xBF) b1
                && utf8_cont b2 && valid_utf8 r2
              else
              match r2 with
              | [] => false
              | b3 :: r3 =>
                  in_range 0xF0 0xF4 b0
                  && in_range (if in_range 0xF0 0xF0 b0 then 0x90 else 0x80)
                              (if in_range 0xF4 0xF4 b0 then 0x8F else 0xBF) b1
                  && utf8_cont b2 && utf8_cont b3 && valid_utf8 r3
              end
          end
      end
  end.
Definition from_utf8 (bs : list byte) : option (list byte) :=
  if valid_utf8 bs then Some bs else None.

(** ** Automation *)
Create HintDb via.
#[export] Hint Resolve wrap_in_width byte_to_Z_bound : via.

(** Case analysis on the scrutinee of an innermost [match] of the goal or of a
    hypothesis, keeping the equation. *)
Ltac case_inner t :=
  lazymatch t with
  | context [match ?x with _ => _ end] => case_inner x
  | _ => let E := fresh "E" in destruct t eqn:E
  end.
Ltac case_goal :=
  match goal with |- context [match ?x with _ => _ end] => case_inner x end.
Ltac case_hyp :=
  match goal with H : context [match ?x with _ => _ end] |- _ => case_inner x end.

(** Split every bind of a computation known to have returned. *)
Ltac inv_exec :=
  repeat match goal with
  | H : _ ≫= _ = Ret _ |- _ => apply bind_Ret_inv in H as (? & ? & ?)
  | H : expect _ = Ret _ |- _ => apply expect_Ret_inv in H
  | H : Ret _ = Ret _ |- _ => injection H as H
  | H : Panic = Ret _ |- _ => discriminate H
  end.

(** The same for a [prog] that returned a value. *)
Ltac inv_prog :=
  repeat match goal with
  | H : (_ ≫= _) _ = Ret (inr _, _) |- _ => apply prog_bind_inr in H as (? & ? & ? & ?)
  | H : ok_or _ _ _ = Ret (inr _, _) |- _ => apply ok_or_inr in H as [? ?]
  | H : of_result _ _ = Ret (inr _, _) |- _ => apply of_result_inr in H as [? ?]
  | H : lift_exec _ _ = Ret (inr _, _) |- _ => apply lift_exec_inr in H as [? ?]
  | H : mret _ _ = Ret (inr _, _) |- _ => apply mret_inr in H as [? ?]
  end; subst.

Ltac split_andb :=
  repeat match goal with
  | H : _ && _ = true |- _ => apply andb_true_iff in H as [? ?]
  end.
