(* ===== verification/Types.v ===== *)
(** * Transactions ([core/lib/types], [core/lib/basic_types])

    The transaction types shared by the mempool and the Bitcoin watcher, with
    the accessors those components use. [Address] (H160), [H256] and [U256]
    values are the integers their big-endian bytes denote, so Rust's derived
    byte order on addresses is the order of [Z]; [u8] vectors are byte lists. *)
From S2P Require Import Prelude.
Local Open Scope Z_scope.

Abbreviation Address := Z (only parsing).
Abbreviation H256 := Z (only parsing).
Abbreviation U256 := Z (only parsing).
Abbreviation Nonce := Z (only parsing).
Abbreviation PriorityOpId := Z (only parsing).
Abbreviation L1BatchNumber := Z (only parsing).
Abbreviation L1BlockNumber := Z (only parsing).

(** [basic_type!]'s [next] and [+= 1] on a [w]-bit number. *)
Definition next_id (w n : Z) : Z := wrap w (n + 1).

Module Fee.
Record t := mk {
  gas_limit : U256;
  max_fee_per_gas : U256;
  max_priority_fee_per_gas : U256;
  gas_per_pubdata_limit : U256;
}.
#[global] Instance eq_dec : EqDecision t.
Proof. solve_decision. Defined.
End Fee.

(** ** Batch fee input (fee_model.rs) *)
Module L1PeggedBatchFeeModelInput.
Record t := mk { fair_l2_gas_price : Z; l1_gas_price : Z }.
End L1PeggedBatchFeeModelInput.

Module PubdataIndependentBatchFeeModelInput.
Record t := mk { fair_l2_gas_price : Z; fair_pubdata_price : Z; l1_gas_price : Z }.
End PubdataIndependentBatchFeeModelInput.

Inductive BatchFeeInput :=
| L1Pegged (input : L1PeggedBatchFeeModelInput.t)
| PubdataIndependent (input : PubdataIndependentBatchFeeModelInput.t).

(** ** Transactions *)
Module Execute.
Record t := mk {
  contract_address : Address;
  calldata : list byte;
  value : U256;
  factory_deps : list (list byte);
}.
#[global] Instance eq_dec : EqDecision t.
Proof. solve_decision. Defined.
End Execute.

Inductive OpProcessingType := Common | OnlyRollup.
Inductive PriorityQueueType := Deque | HeapBuffer | Heap.
Inductive TransactionType :=
| LegacyTransaction
| EIP2930Transaction
| EIP1559Transaction
| EIP712Transaction
| PriorityOpTransaction
| ProtocolUpgradeTransaction.

#[export] Instance OpProcessingType_eq_dec : EqDecision OpProcessingType.
Proof. solve_decision. Defined.
#[export] Instance PriorityQueueType_eq_dec : EqDecision PriorityQueueType.
Proof. solve_decision. Defined.
#[export] Instance TransactionType_eq_dec : EqDecision TransactionType.
Proof. solve_decision. Defined.

Definition PRIORITY_OPERATION_L2_TX_TYPE : Z := 0xff.

Module L1TxCommonData.
Record t := mk {
  sender : Address;
  serial_id : PriorityOpId;
  layer_2_tip_fee : U256;
  full_fee : U256;
  max_fee_per_gas : U256;
  gas_limit : U256;
  gas_per_pubdata_limit : U256;
  op_processing_type : OpProcessingType;
  priority_queue_type : PriorityQueueType;
  canonical_tx_hash : H256;
  to_mint : U256;
  refund_recipient : Address;
  eth_block : Z;
}.
#[global] Instance eq_dec : EqDecision t.
Proof. solve_decision. Defined.

Definition hash (data : t) : H256 := canonical_tx_hash data.
End L1TxCommonData.

Module L1Tx.
Record t := mk {
  execute : Execute.t;
  common_data : L1TxCommonData.t;
  received_timestamp_ms : Z;
}.
#[global] Instance eq_dec : EqDecision t.
Proof. solve_decision. Defined.

Definition serial_id (tx : t) : PriorityOpId := L1TxCommonData.serial_id (common_data tx).
Definition eth_block (tx : t) : L1BlockNumber :=
  wrap 32 (L1TxCommonData.eth_block (common_data tx)).
Definition hash (tx : t) : H256 := L1TxCommonData.hash (common_data tx).
End L1Tx.

Module InputData.
Record t := mk { hash : H256; data : list byte }.
#[global] Instance eq_dec : EqDecision t.
Proof. solve_decision. Defined.
End InputData.

Module PaymasterParams.
Record t := mk { paymaster : Address; paymaster_input : list byte }.
#[global] Instance eq_dec : EqDecision t.
Proof. solve_decision. Defined.
End PaymasterParams.

Module L2TxCommonData.
Record t := mk {
  nonce : Nonce;
  fee : Fee.t;
  initiator_address : Address;
  signature : list byte;
  transaction_type : TransactionType;
  input : option InputData.t;
  paymaster_params : PaymasterParams.t;
}.
#[global] Instance eq_dec : EqDecision t.
Proof. solve_decision. Defined.
End L2TxCommonData.

Module L2Tx.
Record t := mk {
  execute : Execute.t;
  common_data : L2TxCommonData.t;
  received_timestamp_ms : Z;
  raw_bytes : option (list byte);
}.
#[global] Instance eq_dec : EqDecision t.
Proof. solve_decision. Defined.

Definition initiator_account (tx : t) : Address :=
  L2TxCommonData.initiator_address (common_data tx).
Definition nonce (tx : t) : Nonce := L2TxCommonData.nonce (common_data tx).
End L2Tx.

Module ProtocolUpgradeTxCommonData.
Record t := mk {
  sender : Address;
  upgrade_id : Z;
  max_fee_per_gas : U256;
  gas_limit : U256;
  gas_per_pubdata_limit : U256;
  eth_block : Z;
  canonical_tx_hash : H256;
  to_mint : U256;
  refund_recipient : Address;
}.
End ProtocolUpgradeTxCommonData.

Inductive ExecuteTransactionCommon :=
| L1 (data : L1TxCommonData.t)
| L2 (data : L2TxCommonData.t)
| ProtocolUpgrade (data : ProtocolUpgradeTxCommonData.t).

Module Transaction.
Record t := mk {
  common_data : ExecuteTransactionCommon;
  execute : Execute.t;
  received_timestamp_ms : Z;
  raw_bytes : option (list byte);
}.

Definition nonce (tx : t) : option Nonce :=
  match common_data tx with
  | L1 _ => None
  | L2 data => Some (L2TxCommonData.nonce data)
  | ProtocolUpgrade _ => None
  end.

Definition initiator_account (tx : t) : Address :=
  match common_data tx with
  | L1 data => L1TxCommonData.sender data
  | L2 data => L2TxCommonData.initiator_address data
  | ProtocolUpgrade data => ProtocolUpgradeTxCommonData.sender data
  end.

(** [impl From<L1Tx> for Transaction]. *)
Definition from_L1Tx (tx : L1Tx.t) : t := {|
  common_data := L1 (L1Tx.common_data tx);
  execute := L1Tx.execute tx;
  received_timestamp_ms := L1Tx.received_timestamp_ms tx;
  raw_bytes := None;
|}.

(** [impl From<L2Tx> for Transaction]. *)
Definition from_L2Tx (tx : L2Tx.t) : t := {|
  common_data := L2 (L2Tx.common_data tx);
  execute := L2Tx.execute tx;
  received_timestamp_ms := L2Tx.received_timestamp_ms tx;
  raw_bytes := L2Tx.raw_bytes tx;
|}.
End Transaction.
