(* ===== verification/BTreeSet.v ===== *)
(** * [std::collections::BTreeSet] with a user-written [Ord]

    The ordered set of Rust's standard library, as the sorted list of its
    elements. The order is the element type's [Ord] implementation, whose
    [Equal] may be coarser than equality (as [MempoolScore]'s is): inserting an
    element [Equal] to one already present leaves the old one in place, and
    removal matches up to [Equal]. *)
From S2P Require Import Prelude.

(** What an [Ord] implementation promises to the collection. *)
Class Ord (A : Type) := { cmp : A → A → comparison }.
Class OrdLaws (A : Type) `{Ord A} := {
  cmp_opp x y : cmp y x = CompOpp (cmp x y);
  cmp_lt_trans x y z : cmp x y = Lt → cmp y z = Lt → cmp x z = Lt;
  cmp_eq_compat x y z : cmp x y = Eq → cmp x z = cmp y z;
}.

Definition cmp_lt {A} `{Ord A} (x y : A) : Prop := cmp x y = Lt.

Module BTreeSet.
Section ops.
Context {A : Type} `{Ord A}.

Fixpoint insert (x : A) (l : list A) : list A :=
  match l with
  | [] => [x]
  | y :: l' =>
      match cmp x y with
      | Lt => x :: y :: l'
      | Eq => y :: l'
      | Gt => y :: insert x l'
      end
  end.

Fixpoint remove (x : A) (l : list A) : list A :=
  match l with
  | [] => []
  | y :: l' =>
      match cmp x y with
      | Lt => y :: l'
      | Eq => l'
      | Gt => y :: remove x l'
      end
  end.

(** [split_off(&mut self, x)]: what stays (the elements below [x]) and what is
    returned (those from [x] on). *)
Fixpoint split_off (x : A) (l : list A) : list A * list A :=
  match l with
  | [] => ([], [])
  | y :: l' =>
      match cmp y x with
      | Lt => let '(lo, hi) := split_off x l' in (y :: lo, hi)
      | _ => ([], y :: l')
      end
  end.

(** [iter().rfind(p)]: the greatest element that satisfies [p]. *)
Definition rfind (p : A → bool) (l : list A) : option A :=
  last (filter (λ x, p x = true) l).
End ops.

Section facts.
Context {A : Type} `{OrdLaws A}.

Abbreviation sorted := (StronglySorted cmp_lt).

Lemma cmp_refl (x : A) : cmp x x = Eq.
Proof. pose proof (cmp_opp x x). by destruct (cmp x x). Qed.

Lemma cmp_eq_sym (x y : A) : cmp x y = Eq → cmp y x = Eq.
Proof. intros E. by rewrite cmp_opp, E. Qed.

Lemma cmp_gt_lt (x y : A) : cmp x y = Gt ↔ cmp_lt y x.
Proof. unfold cmp_lt. rewrite (cmp_opp x y). destruct (cmp x y); cbn; naive_solver. Qed.

Lemma cmp_eq_lt_l (x y z : A) : cmp x y = Eq → cmp_lt y z → cmp_lt x z.
Proof. unfold cmp_lt. intros E ?. by rewrite (cmp_eq_compat x y z E). Qed.

Lemma cmp_eq_lt_r (x y z : A) : cmp x y = Eq → cmp_lt z y → cmp_lt z x.
Proof.
  unfold cmp_lt. intros E. rewrite (cmp_opp y z), (cmp_opp x z).
  by rewrite (cmp_eq_compat x y z E).
Qed.

#[export] Instance cmp_lt_transitive : Transitive (@cmp_lt A _).
Proof. intros x y z. apply cmp_lt_trans. Qed.

#[export] Instance cmp_lt_irreflexive : Irreflexive (@cmp_lt A _).
Proof. intros x. unfold complement, cmp_lt. by rewrite cmp_refl. Qed.

#[export] Instance cmp_lt_antisymm : AntiSymm (=) (@cmp_lt A _).
Proof. intros x y ??. destruct (irreflexivity cmp_lt x). by etrans. Qed.

Lemma sorted_NoDup (l : list A) : sorted l → NoDup l.
Proof.
  induction 1 as [|x l Hl IH Hx]; constructor; [|done].
  intros Hin. rewrite Forall_forall in Hx. by apply (irreflexivity cmp_lt x), Hx.
Qed.

(** A set is determined by its elements. *)
Lemma sorted_ext (l k : list A) :
  sorted l → sorted k → (∀ x, x ∈ l ↔ x ∈ k) → l = k.
Proof.
  intros Hl Hk Hin.
  apply (StronglySorted_unique cmp_lt); [done..|].
  apply NoDup_Permutation; auto using sorted_NoDup.
Qed.

(** At most one element is [Equal] to a given one. *)
Lemma sorted_cmp_eq (l : list A) x y :
  sorted l → x ∈ l → y ∈ l → cmp x y = Eq → x = y.
Proof.
  induction 1 as [|z l Hl IH Hz]; intros Hx Hy E; [by apply elem_of_nil in Hx|].
  rewrite Forall_forall in Hz. unfold cmp_lt in Hz.
  apply elem_of_cons in Hx as [->|Hx], Hy as [->|Hy]; auto.
  - by rewrite Hz in E.
  - apply cmp_eq_sym in E. by rewrite Hz in E.
Qed.

Lemma elem_of_insert_sub (l : list A) x z : z ∈ insert x l → z = x ∨ z ∈ l.
Proof.
  induction l as [|y l IH]; cbn; [rewrite list_elem_of_singleton; auto|].
  case_match; rewrite !elem_of_cons; naive_solver.
Qed.

Lemma elem_of_insert_old (l : list A) x z : z ∈ l → z ∈ insert x l.
Proof.
  induction l as [|y l IH]; cbn; [by intros ?%elem_of_nil|].
  case_match; rewrite !elem_of_cons; naive_solver.
Qed.

(** Inserting into a set with no [Equal] element adds exactly that element. *)
Lemma elem_of_insert (l : list A) x z :
  (∀ y, y ∈ l → cmp x y ≠ Eq) → z ∈ insert x l ↔ z = x ∨ z ∈ l.
Proof.
  intros Hne. split; [apply elem_of_insert_sub|]. intros [->|?]; [|by apply elem_of_insert_old].
  induction l as [|y l IH]; cbn; [by apply list_elem_of_singleton|].
  destruct (cmp x y) eqn:E; [by destruct (Hne y); [left|]|left|right].
  apply IH. intros w ?. apply Hne. by right.
Qed.

Lemma insert_sorted (l : list A) x : sorted l → sorted (insert x l).
Proof.
  induction 1 as [|y l Hl IH Hy]; cbn; [by repeat constructor|].
  destruct (cmp x y) eqn:E; [by constructor| |].
  - constructor; [by constructor|]. constructor; [done|].
    eapply Forall_impl; [done|]. intros z ?. by trans y.
  - constructor; [done|]. apply Forall_forall. intros z [->|Hz]%elem_of_insert_sub.
    + by apply cmp_gt_lt.
    + by eapply Forall_forall in Hy.
Qed.

(** Removal takes out exactly the [Equal] element. *)
Lemma elem_of_remove (l : list A) x z :
  sorted l → z ∈ remove x l ↔ z ∈ l ∧ cmp x z ≠ Eq.
Proof.
  induction 1 as [|y l Hl IH Hy]; cbn; [by rewrite elem_of_nil; naive_solver|].
  rewrite Forall_forall in Hy.
  destruct (cmp x y) eqn:E; rewrite ?elem_of_cons.
  - split; [|by intros [[->|?] ?]]. intros Hz. split; [by right|].
    specialize (Hy z Hz). by rewrite (cmp_eq_lt_l x y z E Hy).
  - split; [|naive_solver]. intros Hz. split; [done|].
    destruct Hz as [->|Hz]; [by rewrite E|].
    assert (cmp_lt x z) as -> by (trans y; [done|by apply Hy]). done.
  - rewrite IH. split; [|naive_solver]. intros [->|[??]]; [|tauto]. by rewrite E; auto.
Qed.

Lemma remove_sorted (l : list A) x : sorted l → sorted (remove x l).
Proof.
  induction 1 as [|y l Hl IH Hy]; cbn; [constructor|].
  case_match; [done|by constructor|]. constructor; [done|].
  apply Forall_forall. intros z [??]%elem_of_remove; [|done]. by eapply Forall_forall in Hy.
Qed.

Lemma remove_insert (l : list A) x :
  sorted l → (∀ y, y ∈ l → cmp x y ≠ Eq) → remove x (insert x l) = l.
Proof.
  intros Hl Hne. apply sorted_ext; [auto using remove_sorted, insert_sorted|done|].
  intros z. rewrite elem_of_remove, elem_of_insert by auto using insert_sorted.
  split; [|naive_solver]. intros [[->|?] Hc]; [|done]. by rewrite cmp_refl in Hc.
Qed.

Lemma insert_remove (l : list A) x :
  sorted l → x ∈ l → insert x (remove x l) = l.
Proof.
  intros Hl Hx. apply sorted_ext; [auto using remove_sorted, insert_sorted|done|].
  intros z. rewrite elem_of_insert; last first.
  { intros y [??]%elem_of_remove; done. }
  rewrite elem_of_remove by done. split; [naive_solver|]. intros Hz.
  destruct (decide (cmp x z = Eq)) as [E|]; [|auto].
  left. by apply (sorted_cmp_eq l), cmp_eq_sym.
Qed.

Lemma split_off_app (l lo hi : list A) x : split_off x l = (lo, hi) → l = lo ++ hi.
Proof.
  revert lo hi. induction l as [|y l IH]; cbn; intros lo hi; [by intros [= <- <-]|].
  case_match; try by intros [= <- <-].
  destruct (split_off x l) as [lo' hi']. intros [= <- <-]. cbn. f_equal. by apply IH.
Qed.

(** Splitting at an element: it heads the returned part, which holds exactly
    the elements from it on. *)
Lemma split_off_elem (l : list A) x :
  sorted l → x ∈ l → ∃ lo hi, split_off x l = (lo, x :: hi) ∧ l = lo ++ x :: hi.
Proof.
  induction 1 as [|y l Hl IH Hy]; intros Hx; [by apply elem_of_nil in Hx|]. cbn.
  apply elem_of_cons in Hx as [->|Hx].
  - rewrite cmp_refl. by exists [], l.
  - rewrite Forall_forall in Hy. rewrite (Hy x Hx).
    destruct (IH Hx) as (lo & hi & -> & ->). by exists (y :: lo), hi.
Qed.

Lemma rfind_Some (p : A → bool) (l : list A) x :
  rfind p l = Some x → x ∈ l ∧ p x = true.
Proof.
  intros Hl. apply last_Some in Hl as [k Hk].
  assert (Hx : x ∈ filter (λ y, p y = true) l) by (rewrite Hk; set_solver).
  by apply list_elem_of_filter in Hx as [??].
Qed.

Lemma rfind_None (p : A → bool) (l : list A) :
  rfind p l = None → ∀ x, x ∈ l → p x = false.
Proof.
  intros Hn%last_None x Hx. destruct (p x) eqn:E; [|done].
  assert (x ∈ filter (λ y, p y = true) l) as Hin by (by apply list_elem_of_filter).
  rewrite Hn in Hin. by apply elem_of_nil in Hin.
Qed.

(** Nothing after the element found satisfies the predicate. *)
Lemma rfind_max (p : A → bool) (lo hi : list A) x :
  sorted (lo ++ x :: hi) → rfind p (lo ++ x :: hi) = Some x →
  ∀ y, y ∈ hi → p y = false.
Proof.
  intros Hs Hr y Hy. destruct (p y) eqn:E; [|done]. exfalso.
  apply last_Some in Hr as [k Hk]. rewrite filter_app in Hk.
  assert (Hlt : cmp_lt x y).
  { apply StronglySorted_app in Hs as (_ & _ & Hs).
    apply StronglySorted_inv in Hs as [_ Hs]. by eapply Forall_forall in Hs. }
  assert (Hsk : sorted (filter (λ y, p y = true) lo ++ filter (λ y, p y = true) (x :: hi))).
  { rewrite <-filter_app. clear -Hs. induction Hs as [|z l Hl IH Hz]; [constructor|].
    cbn. case_decide; [|done]. constructor; [done|].
    apply Forall_forall. intros w [??]%list_elem_of_filter. by eapply Forall_forall in Hz. }
  assert (Hyk : y ∈ k ++ [x]).
  { rewrite <-Hk. apply elem_of_app. right. apply list_elem_of_filter. split; [done|by right]. }
  rewrite Hk in Hsk. apply elem_of_app in Hyk as [Hyk| ->%list_elem_of_singleton].
  - apply StronglySorted_app in Hsk as (Hsk & _ & _).
    eapply (irreflexivity cmp_lt y). trans x; [|done]. by apply Hsk, list_elem_of_singleton.
  - by apply (irreflexivity cmp_lt x).
Qed.
End facts.
End BTreeSet.
