(* ===== verification/Mempool.v ===== *)
(** * The mempool ([core/lib/mempool])

    [AccountTransactions], [MempoolScore] (types.rs) and [MempoolStore]
    (mempool_store.rs). The hash maps are [gmap]s, the priority queue is the
    sorted list of [BTreeSet]; a failed [expect] is [Panic]. The iteration order
    of a [HashMap] is not specified by Rust, so [gc]'s list of purged accounts is
    the keys in [gmap]'s order and no theorem depends on that order. *)
From S2P Require Import Prelude Types BTreeSet.
Local Open Scope Z_scope.

(** ** types.rs *)
Module MempoolScore.
Record t := mk {
  account : Address;
  received_at_ms : Z;
  fee_data : Fee.t;
}.
#[global] Instance eq_dec : EqDecision t.
Proof. solve_decision. Defined.

(** [impl Ord]: earlier transactions are greater; the fee is not compared. *)
#[global] Instance cmp : Ord t := {|
  BTreeSet.cmp self other :=
    match CompOpp (Z.compare (received_at_ms self) (received_at_ms other)) with
    | Eq => Z.compare (account self) (account other)
    | ordering => ordering
    end
|}.
End MempoolScore.

Module L2TxFilter.
Record t := mk { fee_input : BatchFeeInput; fee_per_gas : Z; gas_per_pubdata : Z }.
End L2TxFilter.

Definition matches_filter (filter : L2TxFilter.t) (el : MempoolScore.t) : bool :=
  bool_decide (L2TxFilter.fee_per_gas filter ≤ Fee.max_fee_per_gas (MempoolScore.fee_data el)) &&
  bool_decide (L2TxFilter.gas_per_pubdata filter ≤ Fee.gas_per_pubdata_limit (MempoolScore.fee_data el)).

Module InsertionMetadata.
Record t := mk {
  new_score : option MempoolScore.t;
  previous_score : option MempoolScore.t;
  is_new : bool;
}.
Definition default : t := mk None None false.
End InsertionMetadata.

Module AccountTransactions.
Record t := mk {
  transactions : gmap Nonce L2Tx.t;
  nonce : Nonce;
}.

Definition new (nonce : Nonce) : t := mk ∅ nonce.

Definition score_for_transaction (tx : L2Tx.t) : MempoolScore.t := {|
  MempoolScore.account := L2Tx.initiator_account tx;
  MempoolScore.received_at_ms := L2Tx.received_timestamp_ms tx;
  MempoolScore.fee_data := L2TxCommonData.fee (L2Tx.common_data tx);
|}.

Definition insert (self : t) (tx : L2Tx.t) : t * InsertionMetadata.t :=
  let n := L2Tx.nonce tx in
  if decide (n < nonce self) then (self, InsertionMetadata.default)
  else
    let new_score := score_for_transaction tx in
    let previous_score := score_for_transaction <$> transactions self !! n in
    let self' := mk (<[n := tx]> (transactions self)) (nonce self) in
    let is_new := bool_decide (previous_score = None) in
    (self',
     if decide (n = nonce self)
     then InsertionMetadata.mk (Some new_score) previous_score is_new
     else InsertionMetadata.mk None None is_new).

Definition next (self : t) : exec (t * L2Tx.t * option MempoolScore.t) :=
  tx ← expect (transactions self !! nonce self);
  let txs := delete (nonce self) (transactions self) in
  let n := next_id 32 (nonce self) in
  Ret (mk txs n, tx, score_for_transaction <$> txs !! n).

Definition reset (self : t) (tx : Transaction.t) : exec (t * option MempoolScore.t) :=
  tx_nonce ← expect (Transaction.nonce tx);
  let self' := mk (transactions self) (Z.min (nonce self) tx_nonce) in
  Ret (self', score_for_transaction <$> transactions self !! next_id 32 tx_nonce).

Definition len (self : t) : Z := Z.of_nat (base.size (transactions self)).
End AccountTransactions.

(** ** mempool_store.rs *)
Module MempoolInfo.
Record t := mk { stashed_accounts : list Address; purged_accounts : list Address }.
End MempoolInfo.

Module MempoolStats.
Record t := mk {
  l1_transaction_count : nat;
  l2_transaction_count : Z;
  l2_priority_queue_size : nat;
}.
End MempoolStats.

Module MempoolStore.
Record t := mk {
  l1_transactions : gmap PriorityOpId L1Tx.t;
  l2_transactions_per_account : gmap Address AccountTransactions.t;
  l2_priority_queue : list MempoolScore.t;
  next_priority_id : PriorityOpId;
  stashed_accounts : list Address;
  size : Z;
  capacity : Z;
}.

Definition new (next_priority_id : PriorityOpId) (capacity : Z) : t := {|
  l1_transactions := ∅;
  l2_transactions_per_account := ∅;
  l2_priority_queue := [];
  next_priority_id := next_priority_id;
  stashed_accounts := [];
  size := 0;
  capacity := capacity;
|}.

Definition insert_l2_transaction
    (self : t) (tx : L2Tx.t) (initial_nonces : gmap Address Nonce) : t :=
  let account := L2Tx.initiator_account tx in
  let entry :=
    match l2_transactions_per_account self !! account with
    | Some txs => txs
    | None => AccountTransactions.new (default 0 (initial_nonces !! account))
    end in
  let '(txs, metadata) := AccountTransactions.insert entry tx in
  let queue :=
    match InsertionMetadata.previous_score metadata with
    | Some score => BTreeSet.remove score (l2_priority_queue self)
    | None => l2_priority_queue self
    end in
  let queue :=
    match InsertionMetadata.new_score metadata with
    | Some score => BTreeSet.insert score queue
    | None => queue
    end in
  {| l1_transactions := l1_transactions self;
     l2_transactions_per_account := <[account := txs]> (l2_transactions_per_account self);
     l2_priority_queue := queue;
     next_priority_id := next_priority_id self;
     stashed_accounts := stashed_accounts self;
     size := if InsertionMetadata.is_new metadata then wrap 64 (size self + 1) else size self;
     capacity := capacity self |}.

Definition insert_one (initial_nonces : gmap Address Nonce)
    (self : t) (tx : Transaction.t) : exec t :=
  match Transaction.common_data tx with
  | L1 data =>
      Ret {| l1_transactions :=
               <[L1TxCommonData.serial_id data :=
                   L1Tx.mk (Transaction.execute tx) data (Transaction.received_timestamp_ms tx)]>
                 (l1_transactions self);
             l2_transactions_per_account := l2_transactions_per_account self;
             l2_priority_queue := l2_priority_queue self;
             next_priority_id := next_priority_id self;
             stashed_accounts := stashed_accounts self;
             size := size self;
             capacity := capacity self |}
  | L2 data =>
      Ret (insert_l2_transaction self
             (L2Tx.mk (Transaction.execute tx) data
                (Transaction.received_timestamp_ms tx) (Transaction.raw_bytes tx))
             initial_nonces)
  | ProtocolUpgrade _ => Panic
  end.

Definition insert (self : t) (txs : list Transaction.t)
    (initial_nonces : gmap Address Nonce) : exec t :=
  foldM (insert_one initial_nonces) self txs.

Definition has_next (self : t) (filter : L2TxFilter.t) : bool :=
  bool_decide (is_Some (l1_transactions self !! next_priority_id self)) ||
  bool_decide (is_Some (BTreeSet.rfind (matches_filter filter) (l2_priority_queue self))).

(** One turn of the stashing loop: the accumulator is the per-account map, the
    number of transactions removed and the stashed accounts. *)
Definition stash_one
    (acc : gmap Address AccountTransactions.t * Z * list Address) (stashed_pointer : MempoolScore.t)
    : exec (gmap Address AccountTransactions.t * Z * list Address) :=
  let '(accounts, removed, stashed) := acc in
  let a := MempoolScore.account stashed_pointer in
  txs ← expect (accounts !! a);
  Ret (delete a accounts, wrap 64 (removed + AccountTransactions.len txs), stashed ++ [a]).

Definition next_transaction (self : t) (filter : L2TxFilter.t)
    : exec (t * option Transaction.t) :=
  match l1_transactions self !! next_priority_id self with
  | Some tx =>
      Ret ({| l1_transactions := delete (next_priority_id self) (l1_transactions self);
              l2_transactions_per_account := l2_transactions_per_account self;
              l2_priority_queue := l2_priority_queue self;
              next_priority_id := next_id 64 (next_priority_id self);
              stashed_accounts := stashed_accounts self;
              size := size self;
              capacity := capacity self |},
           Some (Transaction.from_L1Tx tx))
  | None =>
      let? tx_pointer := BTreeSet.rfind (matches_filter filter) (l2_priority_queue self)
        else Ret (self, None) in
      let '(queue, split) := BTreeSet.split_off tx_pointer (l2_priority_queue self) in
      acc ← foldM stash_one (l2_transactions_per_account self, 0, stashed_accounts self)
              (drop 1 split);
      let '(accounts, removed, stashed) := acc in
      txs ← expect (accounts !! MempoolScore.account tx_pointer);
      r ← AccountTransactions.next txs;
      let '(txs, tx, score) := r in
      let accounts := <[MempoolScore.account tx_pointer := txs]> accounts in
      let queue := match score with Some score => BTreeSet.insert score queue | None => queue end in
      size ← expect (checked_sub (size self) (wrap 64 (removed + 1)));
      Ret ({| l1_transactions := l1_transactions self;
              l2_transactions_per_account := accounts;
              l2_priority_queue := queue;
              next_priority_id := next_priority_id self;
              stashed_accounts := stashed;
              size := size;
              capacity := capacity self |},
           Some (Transaction.from_L2Tx tx))
  end.

Definition rollback (self : t) (tx : Transaction.t) : exec t :=
  match Transaction.common_data tx with
  | L1 data =>
      Ret {| l1_transactions := l1_transactions self;
             l2_transactions_per_account := l2_transactions_per_account self;
             l2_priority_queue := l2_priority_queue self;
             next_priority_id := Z.min (next_priority_id self) (L1TxCommonData.serial_id data);
             stashed_accounts := stashed_accounts self;
             size := size self;
             capacity := capacity self |}
  | L2 _ =>
      let a := Transaction.initiator_account tx in
      txs ← expect (l2_transactions_per_account self !! a);
      r ← AccountTransactions.reset txs tx;
      let '(txs, score) := r in
      Ret {| l1_transactions := l1_transactions self;
             l2_transactions_per_account := <[a := txs]> (l2_transactions_per_account self);
             l2_priority_queue :=
               match score with
               | Some score => BTreeSet.remove score (l2_priority_queue self)
               | None => l2_priority_queue self
               end;
             next_priority_id := next_priority_id self;
             stashed_accounts := stashed_accounts self;
             size := size self;
             capacity := capacity self |}
  | ProtocolUpgrade _ => Panic
  end.

(** Number of transactions stored for all accounts (gc's [fold], wrapping as a
    [u64] sum does). *)
Definition total_len (accounts : gmap Address AccountTransactions.t) : Z :=
  map_fold (λ _ txs agg, agg + AccountTransactions.len txs) 0 accounts.

Definition gc (self : t) : t * list Address :=
  if decide (capacity self ≤ size self) then
    let index : gset Address :=
      list_to_set (MempoolScore.account <$> l2_priority_queue self) in
    let kept :=
      filter (λ kv : Address * AccountTransactions.t, kv.1 ∈ index)
        (l2_transactions_per_account self) in
    let drained :=
      filter (λ kv : Address * AccountTransactions.t, kv.1 ∉ index)
        (l2_transactions_per_account self) in
    ({| l1_transactions := l1_transactions self;
        l2_transactions_per_account := kept;
        l2_priority_queue := l2_priority_queue self;
        next_priority_id := next_priority_id self;
        stashed_accounts := stashed_accounts self;
        size := wrap 64 (total_len kept);
        capacity := capacity self |},
     (map_to_list drained).*1)
  else (self, []).

Definition get_mempool_info (self : t) : t * MempoolInfo.t :=
  let self' := {|
    l1_transactions := l1_transactions self;
    l2_transactions_per_account := l2_transactions_per_account self;
    l2_priority_queue := l2_priority_queue self;
    next_priority_id := next_priority_id self;
    stashed_accounts := [];
    size := size self;
    capacity := capacity self |} in
  let '(self'', purged) := gc self' in
  (self'', MempoolInfo.mk (stashed_accounts self) purged).

Definition stats (self : t) : MempoolStats.t :=
  MempoolStats.mk (base.size (l1_transactions self)) (size self)
    (length (l2_priority_queue self)).
End MempoolStore.

(** ** The order of the queue *)
#[export] Instance MempoolScore_ord_laws : OrdLaws MempoolScore.t.
Proof.
  split; cbn; intros.
  - rewrite (Z.compare_antisym (MempoolScore.account x)),
      (Z.compare_antisym (MempoolScore.received_at_ms x)).
    by destruct (Z.compare (MempoolScore.received_at_ms x) _), (Z.compare (MempoolScore.account x) _).
  - destruct (Z.compare_spec (MempoolScore.received_at_ms x) (MempoolScore.received_at_ms y)),
      (Z.compare_spec (MempoolScore.received_at_ms y) (MempoolScore.received_at_ms z)),
      (Z.compare_spec (MempoolScore.received_at_ms x) (MempoolScore.received_at_ms z));
      cbn in *; try lia; try done.
    rewrite Z.compare_lt_iff in *. lia.
  - destruct (Z.compare_spec (MempoolScore.received_at_ms x) (MempoolScore.received_at_ms y)) as [E| |];
      try done.
    cbn in *. apply Z.compare_eq in H. by rewrite E, H.
Qed.

Lemma score_cmp_eq_account (x y : MempoolScore.t) :
  cmp x y = Eq → MempoolScore.account x = MempoolScore.account y.
Proof. cbn. destruct (Z.compare _ _); cbn; try done. apply Z.compare_eq. Qed.

(** ** Well-formedness *)
Section invariant.
Import AccountTransactions MempoolStore.

(** The transaction an account has ready: the one at its mempool nonce. *)
Definition head (txs : AccountTransactions.t) : option L2Tx.t :=
  transactions txs !! AccountTransactions.nonce txs.

(** The queue entry of an account. *)
Definition pointer (txs : AccountTransactions.t) : option MempoolScore.t :=
  score_for_transaction <$> head txs.

(** Nonces stop short of [u32::MAX], the last value [Nonce += 1] can leave
    without wrapping. *)
Definition nonce_ok (n : Nonce) : Prop := 0 ≤ n < 2 ^ 32 - 1.

Record account_wf (a : Address) (txs : AccountTransactions.t) : Prop := {
  acc_nonce : in_width 32 (AccountTransactions.nonce txs);
  acc_txs n tx : transactions txs !! n = Some tx →
    nonce_ok n ∧ AccountTransactions.nonce txs ≤ n ∧
    L2Tx.nonce tx = n ∧ L2Tx.initiator_account tx = a;
}.

Record wf (s : MempoolStore.t) : Prop := {
  wf_l1 i tx : l1_transactions s !! i = Some tx → L1Tx.serial_id tx = i;
  wf_accounts a txs : l2_transactions_per_account s !! a = Some txs → account_wf a txs;
  wf_sorted : StronglySorted cmp_lt (l2_priority_queue s);
  (** The queue holds exactly the pointers of the accounts' ready transactions. *)
  wf_queue p : p ∈ l2_priority_queue s ↔
    ∃ txs, l2_transactions_per_account s !! MempoolScore.account p = Some txs ∧
      pointer txs = Some p;
  wf_size : MempoolStore.size s = total_len (l2_transactions_per_account s);
  wf_bound : total_len (l2_transactions_per_account s) < 2 ^ 64;
}.

(** A transaction the API lets into the mempool. *)
Definition admissible (tx : Transaction.t) : Prop :=
  match Transaction.common_data tx with
  | L1 _ => True
  | L2 data => nonce_ok (L2TxCommonData.nonce data)
  | ProtocolUpgrade _ => False
  end.

Definition nonces_ok (initial_nonces : gmap Address Nonce) : Prop :=
  ∀ a n, initial_nonces !! a = Some n → in_width 32 n.
End invariant.

(** ** Counting transactions *)
Section total_len.
Import AccountTransactions MempoolStore.
Implicit Types m : gmap Address AccountTransactions.t.

Lemma len_nonneg txs : 0 ≤ len txs.
Proof. unfold len. lia. Qed.

Lemma total_len_empty : total_len ∅ = 0.
Proof. done. Qed.

Lemma total_len_insert_new m a txs :
  m !! a = None → total_len (<[a := txs]> m) = total_len m + len txs.
Proof.
  intros Hm. unfold total_len. rewrite map_fold_insert_L; [done| |done].
  intros; lia.
Qed.

Lemma total_len_delete m a txs :
  m !! a = Some txs → total_len (delete a m) = total_len m - len txs.
Proof.
  intros Hm. unfold total_len at 2.
  rewrite (map_fold_delete_L _ _ a txs m); [fold (total_len (delete a m)); lia| |done].
  intros; lia.
Qed.

Lemma total_len_insert m a txs txs' :
  m !! a = Some txs → total_len (<[a := txs']> m) = total_len m - len txs + len txs'.
Proof.
  intros Hm. rewrite <-insert_delete_eq, total_len_insert_new by apply lookup_delete_eq.
  by rewrite (total_len_delete m a txs).
Qed.

Lemma total_len_nonneg m : 0 ≤ total_len m.
Proof.
  induction m as [|a txs m Hm IH] using map_ind; [done|].
  rewrite total_len_insert_new by done. pose proof (len_nonneg txs). lia.
Qed.

Lemma total_len_lookup m a txs : m !! a = Some txs → len txs ≤ total_len m.
Proof.
  intros Hm. pose proof (total_len_delete m a txs Hm). pose proof (total_len_nonneg (delete a m)). lia.
Qed.

Lemma total_len_filter (P : Address * AccountTransactions.t → Prop) `{!∀ x, Decision (P x)} m :
  total_len (filter P m) ≤ total_len m.
Proof.
  induction m as [|a txs m Hm IH] using map_ind; [done|].
  rewrite (total_len_insert_new m) by done. pose proof (len_nonneg txs).
  destruct (decide (P (a, txs))) as [HP|HP].
  - rewrite map_filter_insert_True by done.
    rewrite total_len_insert_new; [lia|]. apply map_lookup_filter_None. auto.
  - rewrite map_filter_insert_False by done. rewrite delete_id by done. lia.
Qed.
End total_len.

(** ** Updating one account and its queue entry *)
Section update.
Import AccountTransactions MempoolStore.

Lemma pointer_account a txs p :
  account_wf a txs → pointer txs = Some p → MempoolScore.account p = a.
Proof.
  intros Hwf Hp. apply fmap_Some in Hp as (tx & Hh & ->). cbn.
  by apply (acc_txs _ _ Hwf) in Hh as (_ & _ & _ & ?).
Qed.

Definition remove_opt (o : option MempoolScore.t) (q : list MempoolScore.t) :=
  match o with Some x => BTreeSet.remove x q | None => q end.
Definition insert_opt (o : option MempoolScore.t) (q : list MempoolScore.t) :=
  match o with Some x => BTreeSet.insert x q | None => q end.

(** Removing an account's pointer leaves the entries of the other accounts. *)
Lemma remove_pointer s a o :
  wf s → l2_transactions_per_account s !! a ≫= pointer = o →
  StronglySorted cmp_lt (remove_opt o (l2_priority_queue s)) ∧
  (∀ p, p ∈ remove_opt o (l2_priority_queue s) ↔
     p ∈ l2_priority_queue s ∧ MempoolScore.account p ≠ a).
Proof.
  intros Hwf Ho. destruct o as [x|]; cbn.
  - apply bind_Some in Ho as (txs & Hl & Hx).
    pose proof (pointer_account _ _ _ (wf_accounts _ Hwf _ _ Hl) Hx) as Ha.
    split; [by apply BTreeSet.remove_sorted, wf_sorted|].
    intros p. rewrite BTreeSet.elem_of_remove by by apply wf_sorted.
    split; intros [Hp Hc]; (split; [done|]).
    + intros Hpa. apply (wf_queue _ Hwf) in Hp as (txs' & Hl' & Hp).
      rewrite Hpa, Hl in Hl'. simplify_eq. by rewrite BTreeSet.cmp_refl in Hc.
    + intros Heq%score_cmp_eq_account. congruence.
  - split; [by apply wf_sorted|]. intros p. split; [|by intros [??]].
    intros Hp. split; [done|]. intros Hpa.
    apply (wf_queue _ Hwf) in Hp as (txs & Hl & Hp).
    rewrite Hpa in Hl. by rewrite Hl in Ho; cbn in Ho; rewrite Hp in Ho.
Qed.

Lemma insert_pointer q a o :
  StronglySorted cmp_lt q → (∀ p, p ∈ q → MempoolScore.account p ≠ a) →
  (∀ x, o = Some x → MempoolScore.account x = a) →
  StronglySorted cmp_lt (insert_opt o q) ∧
  (∀ p, p ∈ insert_opt o q ↔ p ∈ q ∨ o = Some p).
Proof.
  intros Hs Hq Ho. destruct o as [x|]; cbn; [|naive_solver].
  split; [by apply BTreeSet.insert_sorted|].
  intros p. rewrite BTreeSet.elem_of_insert; [naive_solver|].
  intros y Hy Hc%score_cmp_eq_account. apply (Hq y Hy). rewrite <-Hc. by apply Ho.
Qed.

(** Replacing the transactions of account [a] keeps the invariant when the
    queue holds the other accounts' entries and the new pointer of [a]. *)
Lemma wf_put s a txs q npi stashed sz cap :
  wf s → account_wf a txs → StronglySorted cmp_lt q →
  (∀ p, p ∈ q ↔ (p ∈ l2_priority_queue s ∧ MempoolScore.account p ≠ a) ∨ pointer txs = Some p) →
  sz = total_len (<[a := txs]> (l2_transactions_per_account s)) →
  total_len (<[a := txs]> (l2_transactions_per_account s)) < 2 ^ 64 →
  wf (mk (l1_transactions s) (<[a := txs]> (l2_transactions_per_account s)) q npi stashed sz cap).
Proof.
  intros Hwf Ha Hs Hq -> Hb. split; cbn; [by apply wf_l1| | done | | done | done].
  - intros b txs' [[-> ->]|[? Hl]]%lookup_insert_Some; [done|]. by apply (wf_accounts _ Hwf).
  - intros p. rewrite Hq. destruct (decide (MempoolScore.account p = a)) as [Hp|Hp].
    + rewrite Hp, lookup_insert_eq. naive_solver.
    + rewrite lookup_insert_ne by done. rewrite (wf_queue _ Hwf).
      split; [|naive_solver]. intros [[? _]|Hp']; [done|].
      by apply (pointer_account a) in Hp'.
Qed.

(** The entry an insertion works on: the account's, or a fresh one. *)
Definition entry_of (s : MempoolStore.t) (nonces : gmap Address Nonce) (a : Address) :=
  match l2_transactions_per_account s !! a with
  | Some txs => txs
  | None => AccountTransactions.new (default 0 (nonces !! a))
  end.

Lemma entry_of_wf s nonces a :
  wf s → nonces_ok nonces → account_wf a (entry_of s nonces a).
Proof.
  intros Hwf Hn. unfold entry_of.
  destruct (l2_transactions_per_account s !! a) eqn:E; [by apply (wf_accounts _ Hwf)|].
  split; cbn; [|by intros ?? ?%lookup_empty_Some].
  destruct (nonces !! a) as [n|] eqn:En; cbn; [by eapply Hn|].
  split; lia.
Qed.

Lemma entry_of_pointer s nonces a :
  l2_transactions_per_account s !! a ≫= pointer = pointer (entry_of s nonces a).
Proof. unfold entry_of. by destruct (l2_transactions_per_account s !! a). Qed.

Lemma entry_of_total s nonces a txs :
  total_len (<[a := txs]> (l2_transactions_per_account s)) =
  total_len (l2_transactions_per_account s) - len (entry_of s nonces a) + len txs.
Proof.
  unfold entry_of. destruct (l2_transactions_per_account s !! a) as [old|] eqn:E.
  - by apply total_len_insert.
  - rewrite total_len_insert_new by done. unfold len at 2. cbn. rewrite map_size_empty. lia.
Qed.

Lemma account_insert_wf a txs tx :
  account_wf a txs → nonce_ok (L2Tx.nonce tx) → L2Tx.initiator_account tx = a →
  account_wf a (AccountTransactions.insert txs tx).1.
Proof.
  intros Hwf Hn Ha. unfold AccountTransactions.insert. case_decide; [done|].
  assert (account_wf a (AccountTransactions.mk
    (<[L2Tx.nonce tx:=tx]> (transactions txs)) (AccountTransactions.nonce txs))).
  { split; cbn; [by apply acc_nonce in Hwf|].
    intros n tx' [[<- <-]|[? Hl]]%lookup_insert_Some; [|by apply (acc_txs _ _ Hwf)].
    split_and!; auto; lia. }
  by case_decide.
Qed.

(** The queue update of an insertion follows the account's pointer: either the
    old pointer is exchanged for the new one, or the pointer did not change. *)
Lemma account_insert_pointer txs tx txs' md :
  AccountTransactions.insert txs tx = (txs', md) →
  len txs' = len txs + Z.b2z (InsertionMetadata.is_new md) ∧
  ((InsertionMetadata.previous_score md = pointer txs ∧
    InsertionMetadata.new_score md = pointer txs') ∨
   (InsertionMetadata.previous_score md = None ∧
    InsertionMetadata.new_score md = None ∧ pointer txs' = pointer txs)).
Proof.
  unfold AccountTransactions.insert. case_decide; [intros [= <- <-]; cbn; split; [lia|auto]|].
  set (txs0 := AccountTransactions.mk _ _).
  assert (Hlen : len txs0 = len txs +
    Z.b2z (bool_decide (score_for_transaction <$> transactions txs !! L2Tx.nonce tx = None))).
  { unfold len, txs0. cbn. destruct (transactions txs !! L2Tx.nonce tx) eqn:E; cbn.
    - rewrite map_size_insert_Some by done. lia.
    - rewrite map_size_insert_None by done. lia. }
  case_decide as Heq; intros [= <- <-]; (split; [done|]); cbn.
  - left. unfold pointer, head. subst txs0. cbn. by rewrite Heq, lookup_insert_eq.
  - right. unfold pointer, head. subst txs0. cbn. by rewrite lookup_insert_ne.
Qed.

(** Insertion of an admissible L2 transaction keeps the invariant. *)
Lemma insert_l2_transaction_wf s tx nonces :
  wf s → nonces_ok nonces → nonce_ok (L2Tx.nonce tx) →
  total_len (l2_transactions_per_account s) + 1 < 2 ^ 64 →
  wf (insert_l2_transaction s tx nonces).
Proof.
  intros Hwf Hns Hn Hb. unfold insert_l2_transaction.
  set (a := L2Tx.initiator_account tx). fold (entry_of s nonces a).
  pose proof (entry_of_wf s nonces a Hwf Hns) as He.
  pose proof (account_insert_wf a _ tx He Hn eq_refl) as He'.
  pose proof (entry_of_pointer s nonces a) as Hp.
  destruct (remove_pointer s a _ Hwf Hp) as [Hs Hq].
  destruct (AccountTransactions.insert _ tx) as [txs' md] eqn:E.
  apply account_insert_pointer in E as [Hlen Hcase].
  pose proof (entry_of_total s nonces a txs') as Ht.
  pose proof (wf_size _ Hwf) as Hsz. pose proof (total_len_nonneg (l2_transactions_per_account s)).
  change (wf (mk (l1_transactions s) (<[a := txs']> (l2_transactions_per_account s))
    (insert_opt (InsertionMetadata.new_score md)
      (remove_opt (InsertionMetadata.previous_score md) (l2_priority_queue s)))
    (next_priority_id s) (stashed_accounts s)
    (if InsertionMetadata.is_new md then wrap 64 (MempoolStore.size s + 1) else MempoolStore.size s)
    (capacity s))).
  assert (Hq' : StronglySorted cmp_lt (insert_opt (InsertionMetadata.new_score md)
      (remove_opt (InsertionMetadata.previous_score md) (l2_priority_queue s))) ∧
    ∀ p, p ∈ insert_opt (InsertionMetadata.new_score md)
      (remove_opt (InsertionMetadata.previous_score md) (l2_priority_queue s)) ↔
      (p ∈ l2_priority_queue s ∧ MempoolScore.account p ≠ a) ∨ pointer txs' = Some p).
  { destruct Hcase as [[-> ->]|(-> & -> & Hp')]; cbn.
    - edestruct (insert_pointer (remove_opt (pointer (entry_of s nonces a)) (l2_priority_queue s))
        a (pointer txs')) as [? Hi]; [done| |by intros; eapply pointer_account|].
      { by intros p [??]%Hq. }
      split; [done|]. intros p. by rewrite Hi, Hq.
    - split; [by apply wf_sorted|]. intros p. rewrite Hp', <-Hp, (wf_queue _ Hwf).
      split.
      + intros (txs & Hl & Hpt). destruct (decide (MempoolScore.account p = a)) as [<-|]; [|eauto].
        right. by rewrite Hl.
      + intros [[(txs & ? & ?) _]|(txs & Hl & Hpt)%bind_Some]; [eauto|].
        exists txs. by rewrite (pointer_account a txs p) by (done || by apply (wf_accounts _ Hwf)). }
  destruct Hq' as [Hs' Hq']. apply wf_put; try done.
  - rewrite Ht, Hlen, <-Hsz. destruct (InsertionMetadata.is_new md); cbn; [|lia].
    rewrite wrap_small; [lia|]. split; [|change (2^64) with (2^64) in *]; lia.
  - rewrite Ht, Hlen. destruct (InsertionMetadata.is_new md); cbn; lia.
Qed.
End update.

(** ** Batch insertion *)
Section batch_insert.
Import AccountTransactions MempoolStore.

Lemma insert_l2_transaction_total s tx nonces :
  total_len (l2_transactions_per_account (insert_l2_transaction s tx nonces)) ≤
  total_len (l2_transactions_per_account s) + 1.
Proof.
  unfold insert_l2_transaction. fold (entry_of s nonces (L2Tx.initiator_account tx)).
  destruct (AccountTransactions.insert _ tx) as [txs' md] eqn:E. cbn.
  apply account_insert_pointer in E as [Hlen _].
  rewrite (entry_of_total s nonces), Hlen. destruct (InsertionMetadata.is_new md); cbn; lia.
Qed.

Lemma insert_one_wf s tx nonces :
  wf s → nonces_ok nonces → admissible tx →
  total_len (l2_transactions_per_account s) + 1 < 2 ^ 64 →
  ∃ s', insert_one nonces s tx = Ret s' ∧ wf s' ∧
    total_len (l2_transactions_per_account s') ≤ total_len (l2_transactions_per_account s) + 1.
Proof.
  intros Hwf Hns Ha Hb. unfold insert_one, admissible in *.
  destruct (Transaction.common_data tx) as [data|data|data]; [| |done]; eexists; (split; [done|]).
  - split; [|cbn; lia]. split; cbn; try by apply Hwf.
    intros i tx' [[<- <-]|[? ?]]%lookup_insert_Some; [done|]. by apply (wf_l1 _ Hwf).
  - split; [by apply insert_l2_transaction_wf|apply insert_l2_transaction_total].
Qed.

Lemma insert_wf s txs nonces :
  wf s → nonces_ok nonces → Forall admissible txs →
  total_len (l2_transactions_per_account s) + Z.of_nat (length txs) < 2 ^ 64 →
  ∃ s', MempoolStore.insert s txs nonces = Ret s' ∧ wf s'.
Proof.
  unfold MempoolStore.insert. revert s.
  induction txs as [|tx txs IH]; intros s Hwf Hns Ha Hb; cbn in *; [eauto|].
  apply Forall_cons in Ha as [Ha1 Ha].
  destruct (insert_one_wf s tx nonces) as (s' & -> & Hwf' & Ht); [done..|lia|].
  cbn. apply IH; [done..|lia].
Qed.
End batch_insert.

(** ** Taking the next transaction *)
Section next.
Import AccountTransactions MempoolStore.

(** The stashing loop: it returns, drops exactly the stashed accounts and
    counts their transactions. *)
Lemma stash_loop hi accs removed stashed :
  NoDup (MempoolScore.account <$> hi) →
  (∀ p, p ∈ hi → is_Some (accs !! MempoolScore.account p)) →
  0 ≤ removed → removed + total_len accs < 2 ^ 64 →
  ∃ accs' removed',
    foldM stash_one (accs, removed, stashed) hi =
      Ret (accs', removed', stashed ++ (MempoolScore.account <$> hi)) ∧
    (∀ a, accs' !! a = if decide (a ∈ MempoolScore.account <$> hi) then None else accs !! a) ∧
    0 ≤ removed' ∧ removed' + total_len accs' = removed + total_len accs.
Proof.
  revert accs removed stashed. induction hi as [|p hi IH]; intros accs removed stashed Hnd Hin Hr Hb; cbn.
  - exists accs, removed. rewrite app_nil_r. split_and!; auto.
  - apply NoDup_cons in Hnd as [Hp Hnd].
    destruct (Hin p) as [txs Htxs]; [by left|]. rewrite Htxs. cbn.
    pose proof (total_len_delete _ _ _ Htxs) as Ht.
    pose proof (total_len_lookup _ _ _ Htxs). pose proof (len_nonneg txs).
    rewrite wrap_small by (split; lia).
    destruct (IH (delete (MempoolScore.account p) accs) (removed + len txs)
      (stashed ++ [MempoolScore.account p])) as (accs' & removed' & -> & Hl & ? & Hsum); [done| |lia|lia|].
    { intros q Hq. rewrite lookup_delete_ne; [apply Hin; by right|].
      intros Heq. apply Hp. rewrite Heq. by apply list_elem_of_fmap_2. }
    exists accs', removed'. rewrite <-app_assoc. split_and!; [done| |done|lia].
    intros a. rewrite Hl. destruct (decide (a = MempoolScore.account p)) as [->|Hne].
    + rewrite lookup_delete_eq. rewrite (decide_True (P := _ ∈ _ :: _)) by by left. by case_decide.
    + rewrite lookup_delete_ne by done. apply decide_ext. rewrite elem_of_cons. naive_solver.
Qed.

(** What remains of an account after its ready transaction was taken. *)
Definition advance (txs : AccountTransactions.t) : AccountTransactions.t :=
  AccountTransactions.mk (delete (AccountTransactions.nonce txs) (transactions txs))
    (AccountTransactions.nonce txs + 1).

Lemma account_next a txs tx :
  account_wf a txs → head txs = Some tx →
  AccountTransactions.next txs = Ret (advance txs, tx, pointer (advance txs)) ∧
  account_wf a (advance txs) ∧ len (advance txs) = len txs - 1.
Proof.
  intros Hwf Hh. pose proof (acc_txs _ _ Hwf _ _ Hh) as ((? & ?) & _).
  unfold AccountTransactions.next. fold (head txs). rewrite Hh. cbn.
  assert (next_id 32 (AccountTransactions.nonce txs) = AccountTransactions.nonce txs + 1) as ->.
  { unfold next_id. apply wrap_small. split; lia. }
  split; [done|]. split; [split; cbn|].
  - split; lia.
  - intros n tx' [? Hl]%lookup_delete_Some. apply (acc_txs _ _ Hwf) in Hl as (? & ? & ? & ?).
    split_and!; auto; lia.
  - unfold len, advance. cbn. rewrite map_size_delete_Some by eauto.
    assert (base.size (transactions txs) ≠ 0%nat); [|lia].
    apply map_size_non_empty_iff. intros Hemp. unfold head in Hh. by rewrite Hemp in Hh.
Qed.

(** Entries of the queue belong to distinct accounts. *)
Lemma queue_accounts_NoDup s : wf s → NoDup (MempoolScore.account <$> l2_priority_queue s).
Proof.
  intros Hwf. apply NoDup_fmap_2_strong; [|by apply BTreeSet.sorted_NoDup, wf_sorted].
  intros p q (txs & Hl & Hp)%(wf_queue _ Hwf) (txs' & Hl' & Hq)%(wf_queue _ Hwf) Heq.
  rewrite Heq in Hl. congruence.
Qed.

(** The whole effect of [next_transaction] when it takes an L2 transaction. *)
Lemma next_transaction_l2 s f p :
  wf s → l1_transactions s !! next_priority_id s = None →
  BTreeSet.rfind (matches_filter f) (l2_priority_queue s) = Some p →
  ∃ lo hi txs tx accs,
    l2_priority_queue s = lo ++ p :: hi ∧
    l2_transactions_per_account s !! MempoolScore.account p = Some txs ∧
    head txs = Some tx ∧ score_for_transaction tx = p ∧
    (∀ a, accs !! a =
       if decide (a ∈ MempoolScore.account <$> hi) then None
       else l2_transactions_per_account s !! a) ∧
    let accs' := <[MempoolScore.account p := advance txs]> accs in
    let s' := mk (l1_transactions s) accs' (insert_opt (pointer (advance txs)) lo)
                (next_priority_id s) (stashed_accounts s ++ (MempoolScore.account <$> hi))
                (total_len accs') (capacity s) in
    next_transaction s f = Ret (s', Some (Transaction.from_L2Tx tx)) ∧ wf s'.
Proof.
  intros Hwf Hl1 Hr. pose proof (wf_sorted _ Hwf) as Hs.
  apply BTreeSet.rfind_Some in Hr as Hrp. destruct Hrp as [Hp Hm].
  destruct (BTreeSet.split_off_elem _ _ Hs Hp) as (lo & hi & Hsplit & Hq).
  apply (wf_queue _ Hwf) in Hp as (txs & Htxs & Hpt).
  apply fmap_Some in Hpt as (tx & Hh & Hpt).
  pose proof (queue_accounts_NoDup _ Hwf) as Hnd. rewrite Hq, fmap_app, fmap_cons in Hnd.
  apply NoDup_app in Hnd as (Hnlo & Hdisj & Hnhi). apply NoDup_cons in Hnhi as [Hphi Hnhi].
  pose proof (wf_size _ Hwf) as Hsz. pose proof (wf_bound _ Hwf) as Hbd.
  destruct (stash_loop hi (l2_transactions_per_account s) 0 (stashed_accounts s))
    as (accs & removed & Hloop & Hl & Hrem & Hsum); [done| |lia|lia|].
  { intros q Hin. assert (Hqq : q ∈ l2_priority_queue s) by (rewrite Hq; set_solver).
    apply (wf_queue _ Hwf) in Hqq as (? & ? & ?). eauto. }
  exists lo, hi, txs, tx, accs.
  pose proof (wf_accounts _ Hwf _ _ Htxs) as Hawf.
  destruct (account_next _ _ _ Hawf Hh) as (Hnext & Hawf' & Hlen).
  assert (Haccp : accs !! MempoolScore.account p = Some txs) by (by rewrite Hl, decide_False).
  pose proof (total_len_insert accs _ _ (advance txs) Haccp) as Htot.
  pose proof (total_len_lookup _ _ _ Haccp). pose proof (len_nonneg (advance txs)).
  pose proof (total_len_nonneg accs).
  split_and!; [done..|]. cbn zeta. split.
  - unfold next_transaction. rewrite Hl1, Hr, Hsplit. change (drop 1 (p :: hi)) with hi. rewrite Hloop. cbn.
    rewrite Haccp. cbn. rewrite Hnext. cbn.
    rewrite wrap_small by (split; lia). unfold checked_sub. rewrite decide_True by lia. cbn.
    do 4 f_equal. lia.
  - (* the store after stashing, before the transaction is taken *)
    set (s1 := mk (l1_transactions s) accs (lo ++ [p]) (next_priority_id s)
      (stashed_accounts s) (total_len accs) (capacity s)).
    assert (wf s1) as Hwf1.
    { split; subst s1; cbn; [by apply (wf_l1 _ Hwf)| | | |done|lia].
      - intros a txs'. rewrite Hl. case_decide; [done|]. by apply (wf_accounts _ Hwf).
      - rewrite Hq, cons_middle, app_assoc in Hs. by apply StronglySorted_app in Hs as (_ & ? & _).
      - intros q. rewrite Hl. case_decide as Hin.
        + split; [|naive_solver]. intros Hqin. exfalso.
          apply elem_of_app in Hqin as [Hqin| ->%list_elem_of_singleton]; [|done].
          apply (Hdisj (MempoolScore.account q)); [by apply list_elem_of_fmap_2|]. by right.
        + rewrite <-(wf_queue _ Hwf), Hq. split; [set_solver|].
          rewrite !elem_of_app, elem_of_cons. intros [?|[->|Hqhi]]; [auto|set_solver|].
          destruct Hin. by apply list_elem_of_fmap_2. }
    assert (Hlo : ∀ q, q ∈ lo ↔ q ∈ lo ++ [p] ∧ MempoolScore.account q ≠ MempoolScore.account p).
    { intros q. rewrite elem_of_app, list_elem_of_singleton. split; [|naive_solver].
      intros Hqlo. split; [by left|]. intros Heq.
      apply (Hdisj (MempoolScore.account q)); [by apply list_elem_of_fmap_2|]. rewrite Heq. by left. }
    edestruct (insert_pointer lo (MempoolScore.account p) (pointer (advance txs))) as [Hs' Hq'].
    { rewrite Hq in Hs. by apply StronglySorted_app in Hs as (_ & ? & _). }
    { by intros q [??]%Hlo. }
    { intros x Hx. by eapply pointer_account. }
    apply (wf_put s1); subst s1; cbn; try done; [|lia].
    intros q. by rewrite Hq', Hlo.
Qed.
End next.

#[local] Arguments AccountTransactions.reset : simpl never.
#[local] Arguments AccountTransactions.next : simpl never.
#[local] Arguments AccountTransactions.insert : simpl never.

(** ** Rollback and garbage collection *)
Section rollback_gc.
Import AccountTransactions MempoolStore.

(** [tx] was taken from the mempool and nothing of its account after it: what
    the state keeper rolls back. *)
Definition in_flight (s : MempoolStore.t) (tx : Transaction.t) : Prop :=
  match Transaction.common_data tx with
  | L1 _ => True
  | L2 data =>
      nonce_ok (L2TxCommonData.nonce data) ∧
      ∃ txs, l2_transactions_per_account s !! L2TxCommonData.initiator_address data = Some txs ∧
        AccountTransactions.nonce txs = L2TxCommonData.nonce data + 1
  | ProtocolUpgrade _ => False
  end.

Lemma account_reset a txs tx n :
  account_wf a txs → nonce_ok n → AccountTransactions.nonce txs = n + 1 →
  Transaction.nonce tx = Some n →
  let txs' := AccountTransactions.mk (transactions txs) n in
  AccountTransactions.reset txs tx = Ret (txs', pointer txs) ∧
  account_wf a txs' ∧ pointer txs' = None.
Proof.
  intros Hwf Hn Hnn Htx txs'. unfold AccountTransactions.reset. rewrite Htx. cbn.
  destruct Hn as [??].
  assert (next_id 32 n = n + 1) as -> by (unfold next_id; rewrite wrap_small; [done|split; lia]).
  rewrite <-Hnn. split; [|split].
  - rewrite Z.min_r by lia. done.
  - split; cbn; [split; lia|]. intros m tx' (? & ? & ? & ?)%(acc_txs _ _ Hwf).
    split_and!; auto; lia.
  - unfold pointer, head. cbn. destruct (transactions txs !! n) eqn:E; [|done].
    apply (acc_txs _ _ Hwf) in E. lia.
Qed.

Lemma rollback_wf s tx :
  wf s → in_flight s tx → ∃ s', rollback s tx = Ret s' ∧ wf s'.
Proof.
  intros Hwf Hf. unfold in_flight, rollback, Transaction.initiator_account in *.
  destruct (Transaction.common_data tx) as [data|data|data] eqn:E; [| |done].
  - eexists. split; [done|]. split; cbn; apply Hwf.
  - destruct Hf as (Hn & txs & Htxs & Hnn). set (a := L2TxCommonData.initiator_address data) in *.
    rewrite Htxs. cbn. pose proof (wf_accounts _ Hwf _ _ Htxs) as Hawf.
    edestruct (account_reset a txs tx) as (-> & Hawf' & Hp'); [done..| |].
    { unfold Transaction.nonce. by rewrite E. }
    cbn. eexists. split; [done|].
    edestruct (remove_pointer s a (pointer txs) Hwf) as [Hs Hq]; [by rewrite Htxs|].
    assert (Ht : total_len (<[a := AccountTransactions.mk (transactions txs)
      (L2TxCommonData.nonce data)]> (l2_transactions_per_account s)) =
      total_len (l2_transactions_per_account s)).
    { rewrite (total_len_insert _ _ _ _ Htxs). unfold len. cbn. lia. }
    apply wf_put; try done; [|rewrite Ht; by apply wf_size|rewrite Ht; by apply wf_bound].
    intros p. rewrite Hp'. unfold remove_opt in Hq. rewrite Hq. naive_solver.
Qed.

Lemma gc_wf s : wf s → wf (gc s).1.
Proof.
  intros Hwf. unfold gc. case_decide; [|done]. cbn.
  set (index := list_to_set (MempoolScore.account <$> l2_priority_queue s) : gset Address).
  pose proof (total_len_filter (λ kv, kv.1 ∈ index) (l2_transactions_per_account s)).
  pose proof (total_len_nonneg (filter (λ kv, kv.1 ∈ index) (l2_transactions_per_account s))).
  pose proof (wf_bound _ Hwf).
  split; cbn; [by apply wf_l1| |by apply wf_sorted| |apply wrap_small; split; lia|lia].
  - intros a txs [? _]%map_lookup_filter_Some. by apply (wf_accounts _ Hwf).
  - intros p. rewrite (wf_queue _ Hwf). split; intros (txs & Hl & Hp).
    + exists txs. split; [|done]. apply map_lookup_filter_Some. split; [done|]. cbn.
      apply elem_of_list_to_set, list_elem_of_fmap_2, (wf_queue _ Hwf). eauto.
    + apply map_lookup_filter_Some in Hl as [Hl _]. eauto.
Qed.

Lemma get_mempool_info_wf s : wf s → wf (get_mempool_info s).1.
Proof.
  intros Hwf. unfold get_mempool_info. set (s0 := mk _ _ _ _ [] _ _).
  assert (wf s0) as Hwf0 by (split; apply Hwf).
  apply gc_wf in Hwf0. by destruct (gc s0).
Qed.
End rollback_gc.

(** ** Runs of the mempool *)
Section runs.
Import AccountTransactions MempoolStore.

(** One call of the public interface. *)
Inductive mempool_step : MempoolStore.t → MempoolStore.t → Prop :=
| step_insert s txs nonces s' :
    nonces_ok nonces → Forall admissible txs →
    total_len (l2_transactions_per_account s) + Z.of_nat (length txs) < 2 ^ 64 →
    MempoolStore.insert s txs nonces = Ret s' → mempool_step s s'
| step_next s f s' o : next_transaction s f = Ret (s', o) → mempool_step s s'
| step_rollback s tx s' : in_flight s tx → rollback s tx = Ret s' → mempool_step s s'
| step_info s s' info : get_mempool_info s = (s', info) → mempool_step s s'.

Definition reachable (s : MempoolStore.t) : Prop :=
  ∃ next_priority_id capacity, rtc mempool_step (new next_priority_id capacity) s.

Lemma new_wf n c : wf (new n c).
Proof.
  split; cbn; [by intros ?? ?%lookup_empty_Some|by intros ?? ?%lookup_empty_Some|constructor| |done|done].
  intros p. rewrite elem_of_nil. split; [done|]. by intros (? & ?%lookup_empty_Some & ?).
Qed.

Lemma next_transaction_l1_wf s tx :
  wf s → l1_transactions s !! next_priority_id s = Some tx →
  ∀ f s' o, next_transaction s f = Ret (s', o) → wf s'.
Proof.
  intros Hwf Hl f s' o. unfold next_transaction. rewrite Hl. intros [= <- _].
  split; cbn; try apply Hwf. intros i tx' [_ ?]%lookup_delete_Some. by apply (wf_l1 _ Hwf).
Qed.

Lemma next_transaction_wf s f :
  wf s → ∃ s' o, next_transaction s f = Ret (s', o) ∧ wf s'.
Proof.
  intros Hwf. destruct (l1_transactions s !! next_priority_id s) as [tx|] eqn:Hl.
  - assert (∃ s' o, next_transaction s f = Ret (s', o)) as (s' & o & Hn).
    { unfold next_transaction. rewrite Hl. eauto. }
    eauto using next_transaction_l1_wf.
  - destruct (BTreeSet.rfind (matches_filter f) (l2_priority_queue s)) as [p|] eqn:Hr.
    + destruct (next_transaction_l2 s f p) as (? & ? & ? & ? & ? & _ & _ & _ & _ & _ & Hn & ?); eauto.
    + unfold next_transaction. rewrite Hl, Hr. eauto.
Qed.

Lemma mempool_step_wf s s' : mempool_step s s' → wf s → wf s'.
Proof.
  destruct 1 as [s txs nonces s' Hns Ha Hb Hi|s f s' o Hn|s tx s' Hf Hr|s s' info Hi]; intros Hwf.
  - destruct (insert_wf s txs nonces) as (? & Hi' & ?); [done..|]. rewrite Hi in Hi'. by simplify_eq.
  - destruct (next_transaction_wf s f Hwf) as (? & ? & Hn' & ?). rewrite Hn in Hn'. by simplify_eq.
  - destruct (rollback_wf s tx Hwf Hf) as (? & Hr' & ?). rewrite Hr in Hr'. by simplify_eq.
  - apply get_mempool_info_wf in Hwf. by rewrite Hi in Hwf.
Qed.

Lemma reachable_wf s : reachable s → wf s.
Proof.
  intros (n & c & Hr). pose proof (new_wf n c) as Hwf.
  induction Hr as [|x y z Hxy _ IH]; [done|]. eauto using mempool_step_wf.
Qed.

(** *** The client that holds a transaction

    The state keeper takes transactions one at a time, and puts back or rejects only
    the one it took last, while the mempool's actor inserts and collects garbage
    concurrently. [held] is that transaction, as long as garbage collection has not
    reported its account as purged. *)
Definition still_held (info : MempoolInfo.t) (held : option Transaction.t) : option Transaction.t :=
  tx ← held;
  if decide (Transaction.initiator_account tx ∈ MempoolInfo.purged_accounts info) then None else Some tx.

Inductive session_step : MempoolStore.t * option Transaction.t → MempoolStore.t * option Transaction.t → Prop :=
| session_insert s held txs nonces s' :
    nonces_ok nonces → Forall admissible txs →
    total_len (l2_transactions_per_account s) + Z.of_nat (length txs) < 2 ^ 64 →
    MempoolStore.insert s txs nonces = Ret s' → session_step (s, held) (s', held)
| session_take s held f s' tx : next_transaction s f = Ret (s', Some tx) → session_step (s, held) (s', Some tx)
| session_none s held f s' : next_transaction s f = Ret (s', None) → session_step (s, held) (s', held)
| session_rollback s tx s' : rollback s tx = Ret s' → session_step (s, Some tx) (s', None)
| session_info s held s' info : get_mempool_info s = (s', info) → session_step (s, held) (s', still_held info held).

Definition session (s : MempoolStore.t) (held : option Transaction.t) : Prop :=
  ∃ next_priority_id capacity, rtc session_step (new next_priority_id capacity, None) (s, held).

(** A transaction just taken can be rolled back. *)
Lemma taken_in_flight s f s' tx : wf s → next_transaction s f = Ret (s', Some tx) → in_flight s' tx.
Proof.
  intros Hwf Hn. destruct (l1_transactions s !! next_priority_id s) as [l1tx|] eqn:Hl.
  { unfold next_transaction in Hn. rewrite Hl in Hn. by simplify_eq. }
  destruct (BTreeSet.rfind (matches_filter f) (l2_priority_queue s)) as [p|] eqn:Hr.
  2: { unfold next_transaction in Hn. by rewrite Hl, Hr in Hn. }
  destruct (next_transaction_l2 s f p) as (lo & hi & txs & l2tx & accs & Hq & Htxs & Hh & Hsc & _ & Hn' & _); [done..|].
  rewrite Hn in Hn'. simplify_eq. cbn.
  pose proof (acc_txs _ _ (wf_accounts _ Hwf _ _ Htxs) _ _ Hh) as (Hok & _ & Hno & Hacc).
  change (L2TxCommonData.nonce (L2Tx.common_data l2tx)) with (L2Tx.nonce l2tx).
  change (L2TxCommonData.initiator_address (L2Tx.common_data l2tx)) with (L2Tx.initiator_account l2tx).
  rewrite Hno. split; [done|]. exists (advance txs). split; [apply lookup_insert_eq|done].
Qed.

(** Insertions keep an account and its nonce. *)
Lemma insert_keeps_nonce txs nonces s s' a acc :
  MempoolStore.insert s txs nonces = Ret s' → l2_transactions_per_account s !! a = Some acc →
  ∃ acc', l2_transactions_per_account s' !! a = Some acc' ∧ AccountTransactions.nonce acc' = AccountTransactions.nonce acc.
Proof.
  unfold MempoolStore.insert. revert s acc. induction txs as [|tx txs IH]; intros s acc Hi Ha; cbn [foldM] in Hi.
  { simplify_eq. by exists acc. }
  apply bind_Ret_inv in Hi as (s1 & H1 & Hi).
  assert (∃ acc', l2_transactions_per_account s1 !! a = Some acc' ∧ AccountTransactions.nonce acc' = AccountTransactions.nonce acc)
    as (acc1 & Ha1 & Hn1).
  { unfold insert_one in H1. destruct (Transaction.common_data tx); [| |done]; injection H1 as <-; [by exists acc|].
    unfold insert_l2_transaction. set (l2tx := L2Tx.mk _ _ _ _).
    destruct (AccountTransactions.insert _ l2tx) as [acc' meta] eqn:E. cbn.
    destruct (decide (L2Tx.initiator_account l2tx = a)) as [Heq|Hne]; [|rewrite lookup_insert_ne by done; by exists acc].
    rewrite Heq, lookup_insert_eq. exists acc'. split; [done|]. rewrite Heq, Ha in E.
    unfold AccountTransactions.insert in E. case_decide; simplify_eq; done. }
  destruct (IH s1 acc1 Hi Ha1) as (acc2 & Ha2 & Hn2). exists acc2. split; [done|congruence].
Qed.

Lemma insert_in_flight txs nonces s s' tx :
  MempoolStore.insert s txs nonces = Ret s' → in_flight s tx → in_flight s' tx.
Proof.
  unfold in_flight. intros Hi Hf. destruct (Transaction.common_data tx) as [data|data|data]; [done| |done].
  destruct Hf as (Hn & acc & Ha & Hnn). destruct (insert_keeps_nonce _ _ _ _ _ _ Hi Ha) as (acc' & Ha' & Hn').
  split; [done|]. exists acc'. split; [done|congruence].
Qed.

(** Garbage collection removes only the accounts it reports. *)
Lemma info_in_flight s s' info tx :
  get_mempool_info s = (s', info) → in_flight s tx →
  Transaction.initiator_account tx ∉ MempoolInfo.purged_accounts info → in_flight s' tx.
Proof.
  unfold in_flight, get_mempool_info, gc, Transaction.initiator_account. intros Hi Hf Hp.
  destruct (Transaction.common_data tx) as [data|data|data]; [done| |done].
  destruct Hf as (Hn & acc & Ha & Hnn). split; [done|]. exists acc. split; [|done].
  cbn in Hi. case_decide; simplify_eq; cbn in Hp |- *; [|done].
  apply map_lookup_filter_Some. split; [done|]. cbn.
  match goal with |- ?a ∈ ?index => destruct (decide (a ∈ index)) as [|Hni]; [done|] end.
  destruct Hp. apply list_elem_of_fmap. exists (L2TxCommonData.initiator_address data, acc). split; [done|].
  by apply elem_of_map_to_list, map_lookup_filter_Some.
Qed.

Lemma session_step_inv x y :
  session_step x y → wf x.1 ∧ (∀ tx, x.2 = Some tx → in_flight x.1 tx) → wf y.1 ∧ ∀ tx, y.2 = Some tx → in_flight y.1 tx.
Proof.
  destruct 1 as [s held txs nonces s' Hns Ha Hb Hi|s held f s' tx Hn|s held f s' Hn|s tx s' Hr|s held s' info Hi]; cbn; intros [Hwf Hf].
  - destruct (insert_wf s txs nonces) as (? & Hi' & ?); [done..|]. rewrite Hi in Hi'. simplify_eq. split; [done|].
    intros tx Htx. eapply insert_in_flight; [exact Hi|by apply Hf].
  - destruct (next_transaction_wf s f Hwf) as (? & ? & Hn' & ?). rewrite Hn in Hn'. injection Hn' as <- _. split; [done|].
    intros tx' Htx. injection Htx as <-. exact (taken_in_flight s f s' tx Hwf Hn).
  - destruct (next_transaction_wf s f Hwf) as (? & ? & Hn' & ?). rewrite Hn in Hn'. injection Hn' as <- _. split; [done|].
    assert (s' = s) as ->; [|done]. destruct (l1_transactions s !! next_priority_id s) as [l1tx|] eqn:Hl.
    { unfold next_transaction in Hn. by rewrite Hl in Hn. }
    destruct (BTreeSet.rfind (matches_filter f) (l2_priority_queue s)) as [p|] eqn:Hr.
    + destruct (next_transaction_l2 s f p) as (? & ? & ? & ? & ? & _ & _ & _ & _ & _ & Hn' & _); [done..|]. by rewrite Hn in Hn'.
    + unfold next_transaction in Hn. rewrite Hl, Hr in Hn. by injection Hn.
  - destruct (rollback_wf s tx Hwf (Hf tx eq_refl)) as (? & Hr' & ?). rewrite Hr in Hr'. by simplify_eq.
  - pose proof (get_mempool_info_wf s Hwf) as Hwf'. rewrite Hi in Hwf'. split; [done|]. intros tx Htx.
    unfold still_held in Htx. destruct held as [tx'|]; [|done]. cbn in Htx. case_decide; simplify_eq.
    by eapply info_in_flight; [|apply Hf|].
Qed.

Lemma session_inv s held : session s held → wf s ∧ ∀ tx, held = Some tx → in_flight s tx.
Proof.
  intros (n & c & Hr). change (wf (s, held).1 ∧ ∀ tx, (s, held).2 = Some tx → in_flight (s, held).1 tx).
  revert Hr. generalize (s, held). apply rtc_ind_r; [split; [apply new_wf|done]|]. intros y z _ Hs. by apply session_step_inv.
Qed.
End runs.

(** ** Properties *)
Section properties.
Import AccountTransactions MempoolStore.

(** [tx] is the next transaction of its account. *)
Definition ready (s : MempoolStore.t) (tx : L2Tx.t) : Prop :=
  ∃ txs, l2_transactions_per_account s !! L2Tx.initiator_account tx = Some txs ∧
    head txs = Some tx.

Definition eligible (f : L2TxFilter.t) (tx : L2Tx.t) : Prop :=
  matches_filter f (score_for_transaction tx) = true.

(** [tx] goes before [tx']: received earlier, or at the same time from a
    greater address. *)
Definition goes_before (tx tx' : L2Tx.t) : Prop :=
  L2Tx.received_timestamp_ms tx < L2Tx.received_timestamp_ms tx' ∨
  (L2Tx.received_timestamp_ms tx = L2Tx.received_timestamp_ms tx' ∧
   L2Tx.initiator_account tx' < L2Tx.initiator_account tx).

Lemma score_cmp_lt tx tx' :
  cmp_lt (score_for_transaction tx') (score_for_transaction tx) ↔ goes_before tx tx'.
Proof.
  unfold cmp_lt, goes_before. cbn.
  destruct (Z.compare_spec (L2Tx.received_timestamp_ms tx') (L2Tx.received_timestamp_ms tx));
    cbn; rewrite ?Z.compare_lt_iff; split; try lia; done.
Qed.

Lemma ready_in_queue s tx : wf s → ready s tx → score_for_transaction tx ∈ l2_priority_queue s.
Proof.
  intros Hwf (txs & Hl & Hh). apply (wf_queue _ Hwf). exists txs. cbn. split; [done|].
  unfold pointer. by rewrite Hh.
Qed.

Lemma ready_account_inj s tx tx' :
  ready s tx → ready s tx' → L2Tx.initiator_account tx = L2Tx.initiator_account tx' → tx = tx'.
Proof. intros (t & ? & ?) (t' & ? & ?) Heq. rewrite Heq in *. congruence. Qed.

(** C11 Whatever sequence of calls of the interface has been made, in which a client rolls
    back at most the transaction it took last, the mempool's invariant holds: the
    queue is sorted and holds exactly one pointer per account with a ready
    transaction, stored transactions sit under their own account and nonce, and
    [size] counts them. So selection does not panic, nor does insertion of
    transactions other than upgrades, nor the rollback of the transaction taken last
    unless garbage collection has reported its account as purged since
    ([rollback_after_gc_panics] is that case). *)
Theorem mempool_never_panics (s : MempoolStore.t) (held : option Transaction.t) :
  session s held →
  wf s ∧
  (∀ f, ∃ s' o, next_transaction s f = Ret (s', o)) ∧
  (∀ txs nonces, nonces_ok nonces → Forall admissible txs →
     total_len (l2_transactions_per_account s) + Z.of_nat (length txs) < 2 ^ 64 →
     ∃ s', MempoolStore.insert s txs nonces = Ret s') ∧
  (∀ tx, held = Some tx → ∃ s', rollback s tx = Ret s').
Proof.
  intros [Hwf Hf]%session_inv. split_and!; [done| | |].
  - intros f. destruct (next_transaction_wf s f Hwf) as (? & ? & ? & _). eauto.
  - intros txs nonces ???. destruct (insert_wf s txs nonces) as (? & ? & _); eauto.
  - intros tx ->. destruct (rollback_wf s tx Hwf (Hf tx eq_refl)) as (? & ? & _). eauto.
Qed.

(** C22 [next_transaction] takes the pending priority operation whose id is next, in
    id order and before any L2 transaction; with none, it takes the first
    ready L2 transaction the filter accepts, and nothing only when the filter
    accepts no ready transaction. The account then expects the next nonce. *)
Theorem next_transaction_selects (s : MempoolStore.t) (f : L2TxFilter.t) :
  reachable s →
  match l1_transactions s !! next_priority_id s with
  | Some tx => ∃ s',
      next_transaction s f = Ret (s', Some (Transaction.from_L1Tx tx)) ∧
      L1Tx.serial_id tx = next_priority_id s ∧
      next_priority_id s' = next_id 64 (next_priority_id s) ∧
      l1_transactions s' = delete (next_priority_id s) (l1_transactions s)
  | None =>
      (next_transaction s f = Ret (s, None) ∧ ∀ tx, ready s tx → ¬ eligible f tx) ∨
      ∃ s' tx txs,
        next_transaction s f = Ret (s', Some (Transaction.from_L2Tx tx)) ∧
        ready s tx ∧ eligible f tx ∧
        (∀ tx', ready s tx' → eligible f tx' → tx' = tx ∨ goes_before tx tx') ∧
        l2_transactions_per_account s' !! L2Tx.initiator_account tx = Some txs ∧
        AccountTransactions.nonce txs = L2Tx.nonce tx + 1
  end.
Proof.
  intros Hwf%reachable_wf. destruct (l1_transactions s !! next_priority_id s) as [tx|] eqn:Hl.
  - eexists. unfold next_transaction. rewrite Hl. split; [done|]. split; [|done].
    by apply (wf_l1 _ Hwf).
  - destruct (BTreeSet.rfind (matches_filter f) (l2_priority_queue s)) as [p|] eqn:Hr; [right|left].
    + destruct (next_transaction_l2 s f p) as (lo & hi & txs & tx & accs & Hq & Htxs & Hh & Hsc & Hl' & Hn & _);
        [done..|].
      apply BTreeSet.rfind_Some in Hr as Hm.
      assert (ready s tx) as Hrdy by (exists txs; by rewrite <-Hsc in Htxs).
      eexists _, tx, (advance txs). split; [done|]. subst p. split_and!; [done|apply Hm| | |].
      * intros tx' Hr' He'. destruct (decide (tx' = tx)) as [|Hne]; [by left|]. right.
        apply score_cmp_lt. pose proof (ready_in_queue s tx' Hwf Hr') as Hin.
        pose proof (wf_sorted _ Hwf) as Hs. rewrite Hq in Hin, Hr, Hs.
        apply elem_of_app in Hin as [Hin|[Heq|Hin]%elem_of_cons].
        -- apply StronglySorted_app in Hs as (Hs & _ & _). apply Hs; [done|by left].
        -- destruct Hne. apply (ready_account_inj s); [done..|].
           by apply (f_equal MempoolScore.account) in Heq.
        -- pose proof (BTreeSet.rfind_max _ _ _ _ Hs Hr _ Hin) as Hf.
           unfold eligible in He'. congruence.
      * cbn. by rewrite lookup_insert_eq.
      * cbn. by apply (acc_txs _ _ (wf_accounts _ Hwf _ _ Htxs)) in Hh as (_ & _ & -> & _).
    + split; [unfold next_transaction; by rewrite Hl, Hr|]. intros tx Hrdy He.
      pose proof (BTreeSet.rfind_None _ _ Hr _ (ready_in_queue s tx Hwf Hrdy)) as Hf.
      unfold eligible in He. congruence.
Qed.

Lemma insert_opt_remove_opt lo a o :
  StronglySorted cmp_lt lo → (∀ p, p ∈ lo → MempoolScore.account p ≠ a) →
  (∀ x, o = Some x → MempoolScore.account x = a) →
  remove_opt o (insert_opt o lo) = lo.
Proof.
  intros Hs Hlo Ho. destruct o as [x|]; cbn; [|done]. apply BTreeSet.remove_insert; [done|].
  intros y Hy Hc%score_cmp_eq_account. apply (Hlo y Hy). rewrite <-Hc. by apply Ho.
Qed.

Lemma insert_greatest (lo : list MempoolScore.t) p :
  StronglySorted cmp_lt (lo ++ [p]) → BTreeSet.insert p lo = lo ++ [p].
Proof.
  intros Hs. apply StronglySorted_app in Hs as Hlo. destruct Hlo as (Hlt & Hlo & _).
  apply BTreeSet.sorted_ext; [by apply BTreeSet.insert_sorted|done|].
  intros x. rewrite BTreeSet.elem_of_insert, elem_of_app, list_elem_of_singleton; [tauto|].
  intros y Hy Hc. specialize (Hlt y p Hy ltac:(by apply list_elem_of_singleton)).
  unfold cmp_lt in Hlt. apply BTreeSet.cmp_eq_sym in Hc. congruence.
Qed.

(** Taking the greatest entry of the queue, rolling it back and inserting it
    again is the identity on the store. *)
Lemma rollback_restores_l2 s p lo txs tx :
  wf s → l2_priority_queue s = lo ++ [p] →
  l2_transactions_per_account s !! MempoolScore.account p = Some txs →
  head txs = Some tx → score_for_transaction tx = p →
  let accs := <[MempoolScore.account p := advance txs]> (l2_transactions_per_account s) in
  let s' := mk (l1_transactions s) accs (insert_opt (pointer (advance txs)) lo)
              (next_priority_id s) (stashed_accounts s) (total_len accs) (capacity s) in
  (s'' ← rollback s' (Transaction.from_L2Tx tx);
   MempoolStore.insert s'' [Transaction.from_L2Tx tx] ∅) = Ret s.
Proof.
  intros Hwf Hq Htxs Hh Hp accs s'.
  pose proof (wf_accounts _ Hwf _ _ Htxs) as Hawf.
  destruct (account_next _ _ _ Hawf Hh) as (_ & Hawf' & Hlen).
  pose proof (acc_txs _ _ Hawf _ _ Hh) as (Hnok & _ & Hn & Ha).
  pose proof (wf_sorted _ Hwf) as Hs. rewrite Hq in Hs.
  apply StronglySorted_app in Hs as Hslo. destruct Hslo as (_ & Hslo & _).
  assert (Ha' : MempoolScore.account p = L2Tx.initiator_account tx) by by subst p.
  pose proof (queue_accounts_NoDup _ Hwf) as Hnd. rewrite Hq, fmap_app in Hnd.
  apply NoDup_app in Hnd as (_ & Hnd & _).
  assert (Hlo : ∀ q, q ∈ lo → MempoolScore.account q ≠ L2Tx.initiator_account tx).
  { intros q Hql Heq. apply (Hnd (MempoolScore.account q)); [by apply list_elem_of_fmap_2|].
    rewrite Heq, <-Ha'. by left. }
  set (a := L2Tx.initiator_account tx) in *.
  set (txs1 := AccountTransactions.mk (delete (AccountTransactions.nonce txs) (transactions txs))
    (AccountTransactions.nonce txs)).
  assert (rollback s' (Transaction.from_L2Tx tx) =
    Ret (mk (l1_transactions s) (<[a := txs1]> (l2_transactions_per_account s)) lo
      (next_priority_id s) (stashed_accounts s) (total_len accs) (capacity s))) as ->.
  { edestruct (account_reset (MempoolScore.account p) (advance txs) (Transaction.from_L2Tx tx)
      (AccountTransactions.nonce txs)) as (Hr & _ & _); [done|done|done|cbn; by rewrite <-Hn|].
    unfold rollback. subst s'. cbn. subst accs. rewrite Ha'.
    rewrite (lookup_insert_eq _ a). cbn. rewrite Hr. cbn. rewrite (insert_insert_eq _ a).
    do 2 f_equal. apply (insert_opt_remove_opt lo a); [done..|].
    intros x Hx. rewrite <-Ha'. by eapply pointer_account. }
  cbn. subst accs. rewrite Ha'.
  unfold MempoolStore.insert. cbn. unfold insert_l2_transaction. cbn.
  change (L2Tx.initiator_account (L2Tx.mk _ _ _ _)) with a.
  rewrite lookup_insert_eq. unfold AccountTransactions.insert. cbn.
  change (L2Tx.nonce (L2Tx.mk _ _ _ _)) with (L2Tx.nonce tx). rewrite Hn.
  rewrite decide_False by lia. rewrite decide_True by done. cbn.
  rewrite lookup_delete_eq. cbn.
  assert (L2Tx.mk (L2Tx.execute tx) (L2Tx.common_data tx) (L2Tx.received_timestamp_ms tx)
    (L2Tx.raw_bytes tx) = tx) as -> by by destruct tx.
  rewrite insert_delete_eq, (insert_id (transactions txs)) by done.
  rewrite insert_insert_eq, (insert_id (l2_transactions_per_account s)); last first.
  { rewrite <-Ha', Htxs. by destruct txs. }
  rewrite Hp, (insert_greatest lo p Hs), <-Hq.
  assert (wrap 64 (total_len (<[a:=advance txs]>
    (l2_transactions_per_account s)) + 1) = MempoolStore.size s) as ->.
  { rewrite Ha' in Htxs. rewrite (total_len_insert _ _ _ _ Htxs), Hlen.
    pose proof (wf_size _ Hwf). pose proof (wf_bound _ Hwf).
    pose proof (total_len_nonneg (l2_transactions_per_account s)).
    rewrite wrap_small; [lia|split; lia]. }
  by destruct s.
Qed.

(** Rolling back the transaction just taken and inserting it again (the state
    keeper's [rollback]) gives back exactly the store it was taken from, when
    the selection stashed no account. *)
Theorem rollback_insert_restores (s s' : MempoolStore.t) (f : L2TxFilter.t) (tx : Transaction.t) :
  reachable s → in_width 64 (next_priority_id s) → in_width 64 (next_priority_id s + 1) →
  next_transaction s f = Ret (s', Some tx) →
  stashed_accounts s' = stashed_accounts s →
  (s'' ← rollback s' tx; MempoolStore.insert s'' [tx] ∅) = Ret s.
Proof.
  intros Hwf%reachable_wf Hw Hw' Hn Hst.
  destruct (l1_transactions s !! next_priority_id s) as [l1tx|] eqn:Hl.
  - unfold next_transaction in Hn. rewrite Hl in Hn. simplify_eq. unfold MempoolStore.insert. cbn.
    pose proof (wf_l1 _ Hwf _ _ Hl) as Hid. unfold L1Tx.serial_id in Hid. rewrite Hid.
    unfold next_id. rewrite wrap_small by done. rewrite Z.min_r by lia.
    assert (L1Tx.mk (L1Tx.execute l1tx) (L1Tx.common_data l1tx)
      (L1Tx.received_timestamp_ms l1tx) = l1tx) as -> by by destruct l1tx.
    rewrite insert_delete_eq, insert_id by done. by destruct s.
  - destruct (BTreeSet.rfind (matches_filter f) (l2_priority_queue s)) as [p|] eqn:Hr; last first.
    { unfold next_transaction in Hn. by rewrite Hl, Hr in Hn. }
    destruct (next_transaction_l2 s f p) as (lo & hi & txs & l2tx & accs & Hq & Htxs & Hh & Hsc & Hl' & Hn' & _);
      [done..|].
    rewrite Hn in Hn'. simplify_eq. cbn in Hst.
    assert (hi = []) as ->.
    { apply (f_equal length) in Hst. rewrite length_app, length_fmap in Hst. by destruct hi; [|cbn in Hst; lia]. }
    assert (accs = l2_transactions_per_account s) as ->.
    { apply map_eq. intros a. rewrite Hl'. by rewrite decide_False by apply not_elem_of_nil. }
    rewrite fmap_nil, app_nil_r.
    by apply (rollback_restores_l2 s (score_for_transaction l2tx)).
Qed.

(** [get_mempool_info] at capacity purges exactly the accounts with no ready
    transaction, keeps the others' transactions, and leaves selection as it was. *)
Theorem gc_purges_unready (s s' : MempoolStore.t) (info : MempoolInfo.t) :
  reachable s → capacity s ≤ MempoolStore.size s → get_mempool_info s = (s', info) →
  MempoolInfo.stashed_accounts info = stashed_accounts s ∧
  NoDup (MempoolInfo.purged_accounts info) ∧
  (∀ a, a ∈ MempoolInfo.purged_accounts info ↔
     ∃ txs, l2_transactions_per_account s !! a = Some txs ∧ head txs = None) ∧
  (∀ a, l2_transactions_per_account s' !! a =
     txs ← l2_transactions_per_account s !! a; _ ← head txs; Some txs) ∧
  (∀ f, has_next s' f = has_next s f).
Proof.
  intros Hwf%reachable_wf Hcap. unfold get_mempool_info, gc. cbn. rewrite decide_True by done.
  set (index := list_to_set (MempoolScore.account <$> l2_priority_queue s) : gset Address).
  intros [= <- <-]. cbn.
  assert (Hidx : ∀ a txs, l2_transactions_per_account s !! a = Some txs →
    a ∈ index ↔ is_Some (head txs)).
  { intros a txs Htxs. subst index. rewrite elem_of_list_to_set, list_elem_of_fmap. split.
    - intros (p & -> & Hp). apply (wf_queue _ Hwf) in Hp as (txs' & Htxs' & Hp).
      apply fmap_Some in Hp as (tx & ? & _). simplify_eq. eauto.
    - intros [tx Hh]. exists (score_for_transaction tx).
      pose proof (acc_txs _ _ (wf_accounts _ Hwf _ _ Htxs) _ _ Hh) as (_ & _ & _ & Ha).
      split; [done|]. apply (wf_queue _ Hwf). exists txs. cbn. rewrite Ha. split; [done|].
      unfold pointer. by rewrite Hh. }
  split_and!; [done|apply NoDup_fst_map_to_list| | |done].
  - intros a. rewrite list_elem_of_fmap. split.
    + intros ([b txs] & -> & [Htxs Hn]%elem_of_map_to_list%map_lookup_filter_Some).
      exists txs. split; [done|]. cbn in Hn. rewrite (Hidx _ _ Htxs) in Hn. by apply eq_None_not_Some.
    + intros (txs & Htxs & Hh). exists (a, txs). split; [done|].
      apply elem_of_map_to_list, map_lookup_filter_Some. split; [done|]. cbn.
      rewrite (Hidx _ _ Htxs). by apply eq_None_not_Some.
  - intros a. destruct (l2_transactions_per_account s !! a) as [txs|] eqn:Htxs; cbn.
    + destruct (head txs) as [tx|] eqn:Hh; cbn.
      * apply map_lookup_filter_Some. split; [done|]. apply (Hidx _ _ Htxs). eauto.
      * apply map_lookup_filter_None. right. intros txs' ? Hin. simplify_eq. cbn in Hin.
        apply (Hidx _ _ Htxs) in Hin as [? ?]. congruence.
    + apply map_lookup_filter_None. by left.
Qed.

(** A transaction whose account has no ready successor cannot be rolled back
    once the mempool actor has collected garbage at capacity: the account is
    gone and [rollback] hits its [expect]. *)
Theorem rollback_after_gc_panics
    (s s' : MempoolStore.t) (f : L2TxFilter.t) (tx : L2Tx.t) :
  reachable s →
  next_transaction s f = Ret (s', Some (Transaction.from_L2Tx tx)) →
  (l2_transactions_per_account s' !! L2Tx.initiator_account tx ≫= head = None) →
  capacity s' ≤ MempoolStore.size s' →
  rollback (get_mempool_info s').1 (Transaction.from_L2Tx tx) = Panic.
Proof.
  intros Hwf%reachable_wf Hn Hh Hcap.
  destruct (next_transaction_wf s f Hwf) as (s1 & o & Hn1 & Hwf'). rewrite Hn in Hn1. simplify_eq.
  unfold rollback, get_mempool_info, gc. cbn. rewrite decide_True by done. cbn.
  change (L2TxCommonData.initiator_address (L2Tx.common_data tx)) with (L2Tx.initiator_account tx).
  rewrite (proj2 (map_lookup_filter_None _ _ _)); [done|]. right. intros txs Htxs Hin.
  rewrite Htxs in Hh. cbn in *. apply elem_of_list_to_set, list_elem_of_fmap in Hin as (p & Ha & Hp).
  apply (wf_queue _ Hwf') in Hp as (txs' & Htxs' & Hp). rewrite <-Ha in Htxs'. simplify_eq.
  unfold pointer in Hp. by rewrite Hh in Hp.
Qed.
End properties.

(** ** Witnesses *)
Module MempoolWitness.
Import AccountTransactions MempoolStore.

Definition fee : Fee.t := Fee.mk 1000000 100 0 800.
Definition exec0 : Execute.t := Execute.mk 7 [] 0 [].

Definition l2 (account nonce time : Z) : Transaction.t :=
  Transaction.mk
    (L2 (L2TxCommonData.mk nonce fee account [] EIP712Transaction None (PaymasterParams.mk 0 [])))
    exec0 time None.

Definition l1 (id time : Z) : Transaction.t :=
  Transaction.mk
    (L1 (L1TxCommonData.mk 5 id 0 0 10 1000000 800 Common Deque 99 500 5 3)) exec0 time None.

Definition filter0 : L2TxFilter.t :=
  L2TxFilter.mk (L1Pegged (L1PeggedBatchFeeModelInput.mk 1 1)) 50 400.

(** Two accounts with one transaction each, in a mempool of capacity one. *)
Definition txs0 : list Transaction.t := [l2 1 0 10; l2 2 0 20].
Definition store0 : MempoolStore.t :=
  match MempoolStore.insert (new 0 1) txs0 ∅ with Ret s => s | Panic => new 0 1 end.

Lemma txs0_admissible : Forall admissible txs0.
Proof. repeat apply Forall_cons_2; [by split|by split|constructor]. Qed.

Lemma store0_reachable : reachable store0.
Proof.
  exists 0, 1. apply rtc_once. apply (step_insert _ txs0 ∅).
  - by intros a n ?%lookup_empty_Some.
  - apply txs0_admissible.
  - vm_compute. done.
  - vm_compute. done.
Qed.

Lemma next_transaction_selects_witness :
  l1_transactions store0 !! next_priority_id store0 = None ∧
  ((next_transaction store0 filter0 = Ret (store0, None) ∧
    ∀ tx, ready store0 tx → ¬ eligible filter0 tx) ∨
   ∃ s' tx txs,
     next_transaction store0 filter0 = Ret (s', Some (Transaction.from_L2Tx tx)) ∧
     ready store0 tx ∧ eligible filter0 tx ∧
     (∀ tx', ready store0 tx' → eligible filter0 tx' → tx' = tx ∨ goes_before tx tx') ∧
     l2_transactions_per_account s' !! L2Tx.initiator_account tx = Some txs ∧
     AccountTransactions.nonce txs = L2Tx.nonce tx + 1).
Proof. split; [done|]. apply (next_transaction_selects store0 filter0 store0_reachable). Defined.

Definition store1 : MempoolStore.t :=
  match next_transaction store0 filter0 with Ret (s, _) => s | Panic => store0 end.

(** The earlier transaction (account 1) is taken first. *)
Example next_takes_first : next_transaction store0 filter0 = Ret (store1, Some (l2 1 0 10)).
Proof. vm_compute. done. Qed.

(** The transaction of account 1 is taken, then another of account 1 inserted. *)
Definition store2 : MempoolStore.t :=
  match MempoolStore.insert store1 [l2 1 1 30] ∅ with Ret s => s | Panic => store1 end.

Lemma store2_session : session store2 (Some (l2 1 0 10)).
Proof.
  exists 0, 1. eapply rtc_l; [apply (session_insert _ _ txs0 ∅ store0)|].
  - by intros a n ?%lookup_empty_Some.
  - apply txs0_admissible.
  - vm_compute. done.
  - vm_compute. done.
  - eapply rtc_l; [apply (session_take _ _ filter0 store1), next_takes_first|].
    apply rtc_once, (session_insert _ _ [l2 1 1 30] ∅).
    + by intros a n ?%lookup_empty_Some.
    + apply Forall_singleton. by split.
    + vm_compute. done.
    + vm_compute. done.
Qed.

Lemma mempool_never_panics_witness : wf store2 ∧ ∃ s', rollback store2 (l2 1 0 10) = Ret s'.
Proof.
  destruct (mempool_never_panics store2 (Some (l2 1 0 10)) store2_session) as (Hwf & _ & _ & Hr).
  split; [exact Hwf|by apply Hr].
Defined.

Lemma rollback_insert_restores_witness :
  (s'' ← rollback store1 (l2 1 0 10); MempoolStore.insert s'' [l2 1 0 10] ∅) = Ret store0.
Proof.
  apply (rollback_insert_restores store0 store1 filter0 (l2 1 0 10)).
  - apply store0_reachable.
  - vm_compute. split; [intros ?|]; done.
  - vm_compute. split; [intros ?|]; done.
  - apply next_takes_first.
  - vm_compute. done.
Defined.

Lemma gc_purges_unready_witness :
  1 ∈ MempoolInfo.purged_accounts (get_mempool_info store1).2.
Proof.
  assert (reachable store1) as Hr.
  { destruct store0_reachable as (n & c & Hr). exists n, c.
    eapply rtc_r; [exact Hr|]. eapply step_next. exact next_takes_first. }
  destruct (get_mempool_info store1) as [s' info] eqn:E.
  apply (gc_purges_unready store1 s' info Hr).
  - vm_compute. intros ?; done.
  - exact E.
  - eexists. split; [vm_compute; reflexivity|]. vm_compute. reflexivity.
Defined.

Lemma rollback_after_gc_panics_witness :
  rollback (get_mempool_info store1).1 (l2 1 0 10) = Panic.
Proof.
  apply (rollback_after_gc_panics store0 store1 filter0
    (L2Tx.mk exec0 (L2TxCommonData.mk 0 fee 1 [] EIP712Transaction None (PaymasterParams.mk 0 [])) 10 None)).
  - apply store0_reachable.
  - apply next_takes_first.
  - vm_compute. reflexivity.
  - vm_compute. intros ?; done.
Defined.
End MempoolWitness.
