(* ===== verification/MiniMerkleTree.v ===== *)
(** * The in-memory Merkle tree ([core/lib/mini_merkle_tree])

    [MiniMerkleTree] over [KeccakHasher] (the crate's default hasher and the only
    one with a [HashEmptySubtree] instance), used for the L2-to-L1 log roots and
    their proofs. Keccak-256 itself is third-party code and a parameter.
    [usize] quantities are [nat]: the depth never exceeds [MAX_TREE_DEPTH], so
    none of them comes near the width. *)
From S2P Require Import Prelude Types.

(** Used to represent subsets of a Merkle path. *)
Inductive Side := Left | Right.

Definition MAX_TREE_DEPTH : nat := 32.

(** [usize::trailing_zeros]. *)
Fixpoint pos_trailing_zeros (p : positive) : nat :=
  match p with xO p => S (pos_trailing_zeros p) | _ => 0 end.
Definition trailing_zeros (n : nat) : nat :=
  match N.of_nat n with N0 => 64 | Npos p => pos_trailing_zeros p end.

Definition tree_depth_by_size (tree_size : nat) : nat := trailing_zeros tree_size.

(** [usize::next_power_of_two], [usize::is_power_of_two]. *)
Definition next_power_of_two (n : nat) : nat := 2 ^ Nat.log2_up n.
Definition is_power_of_two (n : nat) : bool := bool_decide (n = 2 ^ Nat.log2 n).

Section tree.
Context (keccak256 : list byte → H256).

(** [KeccakHasher]. *)
Definition hash_bytes (value : list byte) : H256 := keccak256 value.
Definition compress (lhs rhs : H256) : H256 :=
  keccak256 (to_be_bytes 32 lhs ++ to_be_bytes 32 rhs).

Definition empty_leaf_hash : H256 := hash_bytes (replicate 88 x00).

(** [iter::successors(..).take(MAX_TREE_DEPTH + 1).collect()]. *)
Fixpoint empty_hashes_from (hash : H256) (n : nat) : list H256 :=
  match n with O => [] | S n => hash :: empty_hashes_from (compress hash hash) n end.
Definition compute_empty_tree_hashes (empty_leaf_hash : H256) : list H256 :=
  empty_hashes_from empty_leaf_hash (MAX_TREE_DEPTH + 1).

(** Indexing past the table panics. *)
Definition empty_subtree_hash (depth : nat) : exec H256 :=
  expect (compute_empty_tree_hashes empty_leaf_hash !! depth).

Record MiniMerkleTree := {
  hashes : list H256;
  binary_tree_size : nat;
  start_index : nat;
  cache : list (option H256);
}.

Definition from_hashes (hashes : list H256) (min_tree_size : option nat) : exec MiniMerkleTree :=
  let size := next_power_of_two (length hashes) in
  size ← match min_tree_size with
         | Some m => assert_then (is_power_of_two m) (Ret (Nat.max m size))
         | None => Ret size
         end;
  let depth := tree_depth_by_size size in
  assert_then (bool_decide (depth ≤ MAX_TREE_DEPTH))
    (Ret {| hashes := hashes; binary_tree_size := size; start_index := 0;
            cache := replicate depth None |}).

Definition with_hasher (leaves : list (list byte)) (min_tree_size : option nat)
    : exec MiniMerkleTree :=
  from_hashes (hash_bytes <$> leaves) min_tree_size.

Definition is_empty (self : MiniMerkleTree) : bool :=
  bool_decide (start_index self = 0) && bool_decide (hashes self = []).

(** The in-place pass [for i in 0..level_len { hashes[i] = compress(&hashes[2 * i],
    &hashes[2 * i + 1]) }]. *)
Fixpoint compress_in_place (idxs : list nat) (hs : list H256) : exec (list H256) :=
  match idxs with
  | [] => Ret hs
  | i :: idxs =>
      l ← expect (hs !! (2 * i));
      r ← expect (hs !! (2 * i + 1));
      compress_in_place idxs (<[i := compress l r]> hs)
  end.

(** The state of the level loop: node hashes, index of the leaf's ancestor among
    them, absolute index of the first of them, path so far. *)
Record level_state := {
  ls_hashes : list H256;
  ls_index : nat;
  ls_start : nat;
  ls_path : list (option H256);
}.

Definition path_item (side : option Side) (index : nat) (hs : list H256) : option H256 :=
  match side with
  | Some Left => if Nat.even index then None else hs !! Nat.lxor index 1
  | Some Right => if Nat.odd index then None else hs !! Nat.lxor index 1
  | None => hs !! Nat.lxor index 1
  end.

Definition level_step (self : MiniMerkleTree) (side : option Side)
    (st : level_state) (level : nat) : exec level_state :=
  '(hs, index) ←
    (if Nat.odd (ls_start st) then
       slot ← expect (cache self !! level);
       h ← expect slot;
       Ret (h :: ls_hashes st, S (ls_index st))
     else Ret (ls_hashes st, ls_index st));
  hs ← (if Nat.odd (length hs) then e ← empty_subtree_hash level; Ret (hs ++ [e]) else Ret hs);
  let path := ls_path st ++ [path_item side index hs] in
  let level_len := length hs / 2 in
  hs ← compress_in_place (seq 0 level_len) hs;
  Ret {| ls_hashes := take level_len hs; ls_index := index / 2;
         ls_start := ls_start st / 2; ls_path := path |}.

(** The root and the path to the leaf at [index]; callers that pass no [path]
    drop it, as the path does not influence the root. *)
Definition compute_merkle_root_and_path (self : MiniMerkleTree) (index : nat)
    (side : option Side) : exec (H256 * list (option H256)) :=
  let depth := tree_depth_by_size (binary_tree_size self) in
  st ← foldM (level_step self side)
         {| ls_hashes := hashes self; ls_index := index;
            ls_start := start_index self; ls_path := [] |}
         (seq 0 depth);
  root ← expect (ls_hashes st !! 0);
  Ret (root, ls_path st).

Definition merkle_root (self : MiniMerkleTree) : exec H256 :=
  let general := r ← compute_merkle_root_and_path self 0 None; Ret r.1 in
  match hashes self with
  | [] =>
      let depth := tree_depth_by_size (binary_tree_size self) in
      if decide (start_index self = 0) then empty_subtree_hash depth
      else if decide (start_index self = binary_tree_size self) then
        slot ← expect (cache self !! depth); expect slot
      else general
  | _ => general
  end.

Definition merkle_root_and_path (self : MiniMerkleTree) (index : nat)
    : exec (H256 * list H256) :=
  assert_then (bool_decide (index < length (hashes self)))
    ('(root, end_path) ← compute_merkle_root_and_path self index None;
     path ← foldM (λ acc o, h ← expect o; Ret (acc ++ [h])) [] end_path;
     Ret (root, path)).

Definition merkle_root_and_paths_for_range (self : MiniMerkleTree) (length : nat)
    : exec (H256 * list (option H256) * list (option H256)) :=
  assert_then (bool_decide (0 < length))
    (assert_then (bool_decide (length ≤ List.length (hashes self)))
      ('(root, right_path) ← compute_merkle_root_and_path self (length - 1) (Some Right);
       Ret (root, cache self, right_path))).

Definition push_hash (self : MiniMerkleTree) (leaf_hash : H256) : MiniMerkleTree :=
  let hs := hashes self ++ [leaf_hash] in
  if decide (binary_tree_size self < start_index self + length hs) then
    let size := binary_tree_size self * 2 in
    {| hashes := hs; binary_tree_size := size; start_index := start_index self;
       cache := if decide (length (cache self) < tree_depth_by_size size)
                then cache self ++ [None] else cache self |}
  else {| hashes := hs; binary_tree_size := binary_tree_size self;
          start_index := start_index self; cache := cache self |}.

Definition push (self : MiniMerkleTree) (leaf : list byte) : MiniMerkleTree :=
  push_hash self (hash_bytes leaf).

Definition trim_start (self : MiniMerkleTree) (count : nat) : exec MiniMerkleTree :=
  assert_then (bool_decide (count ≤ length (hashes self)))
    ('(root, new_cache) ← compute_merkle_root_and_path self count (Some Left);
     let start := start_index self + count in
     Ret {| hashes := drop count (hashes self);
            binary_tree_size := binary_tree_size self;
            start_index := start;
            cache := if decide (start = binary_tree_size self)
                     then new_cache ++ [Some root] else new_cache |}).

(** ** Reference tree

    Node [j] of level [k] of the tree whose leaves are [ls] padded with empty
    leaves. *)
Fixpoint node (ls : list H256) (k j : nat) : H256 :=
  match k with
  | O => default empty_leaf_hash (ls !! j)
  | S k => compress (node ls k (2 * j)) (node ls k (2 * j + 1))
  end.

(** The Merkle root of [ls] padded to [2 ^ d] leaves. *)
Definition reference_root (ls : list H256) (d : nat) : H256 := node ls d 0.

Fixpoint empty_at (k : nat) : H256 :=
  match k with O => empty_leaf_hash | S k => compress (empty_at k) (empty_at k) end.

(** ** Arithmetic of levels *)
Lemma trailing_zeros_pow2 d : trailing_zeros (2 ^ d) = d.
Proof using.
  assert (∀ p k, pos_trailing_zeros (Pos.shiftl_nat p k) = k + pos_trailing_zeros p) as H.
  { intros p. induction k as [|k IH]; cbn; [done|]. by rewrite IH. }
  unfold trailing_zeros. replace (N.of_nat (2 ^ d)) with (Npos (Pos.shiftl_nat 1 d)).
  { rewrite H. cbn. lia. }
  induction d as [|d IH]; [done|]. cbn [Nat.pow]. rewrite Nat2N.inj_mul, <-IH. done.
Qed.

Lemma tree_depth_pow2 d : tree_depth_by_size (2 ^ d) = d.
Proof using. apply trailing_zeros_pow2. Qed.

Lemma lxor_1_even n : Nat.even n = true → Nat.lxor n 1 = n + 1.
Proof using.
  intros [m ->]%Nat.even_spec. apply Nat.bits_inj. intros [|i]; rewrite Nat.lxor_spec.
  - rewrite !Nat.bit0_odd, Nat.odd_add, Nat.odd_mul. done.
  - rewrite <-!Nat.div2_bits.
    replace ((2 * m + 1) / 2) with m by (rewrite Nat.mul_comm, Nat.div_add_l; cbn; lia).
    rewrite (Nat.mul_comm 2 m), Nat.div_mul by done. cbn. rewrite Nat.bits_0. apply xorb_false_r.
Qed.

Lemma lxor_1_odd n : Nat.odd n = true → Nat.lxor n 1 = n - 1.
Proof using.
  intros [m ->]%Nat.odd_spec. replace (2 * m + 1 - 1) with (2 * m) by lia.
  rewrite <-(lxor_1_even (2 * m)) by by rewrite Nat.even_mul.
  rewrite Nat.lxor_assoc, Nat.lxor_nilpotent. apply Nat.lxor_0_r.
Qed.

Lemma empty_hashes_lookup h n k :
  k < n → empty_hashes_from h n !! k =
    Some (Nat.iter k (λ x, compress x x) h).
Proof using.
  revert h k. induction n as [|n IH]; intros h k Hk; [lia|].
  destruct k as [|k]; [done|]. cbn. rewrite IH by lia. f_equal.
  symmetry. apply (Nat.iter_succ_r k (λ x, compress x x)).
Qed.

Lemma empty_subtree_hash_Ret k : k ≤ MAX_TREE_DEPTH → empty_subtree_hash k = Ret (empty_at k).
Proof using.
  intros Hk. unfold empty_subtree_hash, compute_empty_tree_hashes.
  rewrite empty_hashes_lookup by lia. done.
Qed.

(** A node with no leaf under it is the empty subtree. *)
Lemma node_empty ls k j : length ls ≤ j * 2 ^ k → node ls k j = empty_at k.
Proof using.
  revert j. induction k as [|k IH]; intros j Hj; cbn in *.
  - rewrite lookup_ge_None_2 by lia. done.
  - rewrite !IH; [done| |]; nia.
Qed.

(** Nodes over leaves that agree are equal. *)
Lemma node_agree ls ls' k j :
  (∀ i, i < (j + 1) * 2 ^ k → ls !! i = ls' !! i) → node ls k j = node ls' k j.
Proof using.
  revert j. induction k as [|k IH]; intros j Hj; cbn [node Nat.pow] in *.
  - by rewrite Hj by lia.
  - rewrite (IH (2 * j)), (IH (2 * j + 1)); [done| |]; intros i Hi; apply Hj; nia.
Qed.

(** ** One pass over a level *)
Lemma compress_in_place_spec (g : nat → H256) n m hs :
  2 * (m + n) ≤ length hs →
  (∀ i, m ≤ i < 2 * (m + n) → hs !! i = Some (g i)) →
  ∃ hs', compress_in_place (seq m n) hs = Ret hs' ∧ length hs' = length hs ∧
    (∀ i, i < m → hs' !! i = hs !! i) ∧
    (∀ i, m ≤ i < m + n → hs' !! i = Some (compress (g (2 * i)) (g (2 * i + 1)))).
Proof using.
  revert m hs. induction n as [|n IH]; intros m hs Hlen Hg; cbn [seq compress_in_place].
  { exists hs. split_and!; [done..|]. intros; lia. }
  rewrite (Hg (2 * m)), (Hg (2 * m + 1)) by lia. cbn -[Nat.mul].
  destruct (IH (S m) (<[m := compress (g (2 * m)) (g (2 * m + 1))]> hs))
    as (hs' & -> & Hl & Hlo & Hhi).
  - rewrite length_insert. lia.
  - intros i Hi. rewrite list_lookup_insert_ne by lia. apply Hg. lia.
  - exists hs'. rewrite length_insert in Hl. split_and!; [done..| |].
    + intros i Hi. rewrite Hlo by lia. by rewrite list_lookup_insert_ne by lia.
    + intros i Hi. destruct (decide (i = m)) as [->|]; [|apply Hhi; lia].
      rewrite Hlo by lia. rewrite list_lookup_insert_eq by lia. done.
Qed.

(** The nodes [lo .. hi - 1] of level [k]. *)
Definition nodes (ls : list H256) (k lo hi : nat) : list H256 := node ls k <$> seq lo (hi - lo).

Lemma length_nodes ls k lo hi : length (nodes ls k lo hi) = hi - lo.
Proof using. unfold nodes. by rewrite length_fmap, length_seq. Qed.

Lemma lookup_nodes ls k lo hi i :
  nodes ls k lo hi !! i = if decide (i < hi - lo) then Some (node ls k (lo + i)) else None.
Proof using.
  unfold nodes. rewrite list_lookup_fmap. case_decide.
  - by rewrite lookup_seq_lt.
  - by rewrite lookup_seq_ge by lia.
Qed.

Lemma nodes_cons ls k lo hi : 0 < lo → lo ≤ hi → node ls k (lo - 1) :: nodes ls k lo hi = nodes ls k (lo - 1) hi.
Proof using.
  intros. unfold nodes. replace (hi - (lo - 1)) with (S (hi - lo)) by lia. cbn.
  by replace (S (lo - 1)) with lo by lia.
Qed.

Lemma nodes_snoc ls k lo hi : lo ≤ hi → nodes ls k lo hi ++ [node ls k hi] = nodes ls k lo (hi + 1).
Proof using.
  intros. unfold nodes. replace (hi + 1 - lo) with (S (hi - lo)) by lia.
  rewrite seq_S, fmap_app. cbn. by replace (lo + (hi - lo)) with hi by lia.
Qed.

Lemma compress_level ls k b c :
  b ≤ c →
  ∃ hs', compress_in_place (seq 0 (c - b)) (nodes ls k (2 * b) (2 * c)) = Ret hs' ∧
    take (c - b) hs' = nodes ls (S k) b c.
Proof using.
  intros Hbc.
  destruct (compress_in_place_spec (λ i, node ls k (2 * b + i)) (c - b) 0 (nodes ls k (2 * b) (2 * c)))
    as (hs' & Hr & Hlen & _ & Hhs).
  - rewrite length_nodes. lia.
  - intros i Hi. rewrite lookup_nodes. by rewrite decide_True by lia.
  - exists hs'. split; [done|]. rewrite length_nodes in Hlen.
    apply (list_eq_same_length _ _ (c - b));
      rewrite ?length_take, ?length_nodes; [lia|lia|].
    intros i x y Hi. rewrite lookup_take_lt by done. rewrite Hhs by lia.
    rewrite lookup_nodes, decide_True by lia. intros [= <-] [= <-]. cbn -[Nat.mul].
    f_equal; f_equal; lia.
Qed.

(** ** The reference path *)
Definition sibling (abs : nat) : nat := if Nat.even abs then abs + 1 else abs - 1.

Definition ref_item (ls : list H256) (side : option Side) (k abs e : nat) : option H256 :=
  let sib := if decide (sibling abs < 2 * ((e + 1) / 2)) then Some (node ls k (sibling abs)) else None in
  match side with
  | Some Left => if Nat.even abs then None else sib
  | Some Right => if Nat.odd abs then None else sib
  | None => sib
  end.

Fixpoint ref_path (ls : list H256) (side : option Side) (k abs e n : nat) : list (option H256) :=
  match n with
  | O => []
  | S n => ref_item ls side k abs e :: ref_path ls side (S k) (abs / 2) ((e + 1) / 2) n
  end.

Fixpoint halve (n a : nat) : nat := match n with O => a | S n => halve n (a / 2) end.
Fixpoint ceil_halve (n e : nat) : nat := match n with O => e | S n => ceil_halve n ((e + 1) / 2) end.

Lemma half_spec a : a = 2 * (a / 2) + Nat.b2n (Nat.odd a).
Proof using. rewrite <-Nat.div2_div. apply Nat.div2_odd. Qed.

Lemma odd_half_up e : 2 * ((e + 1) / 2) = e + Nat.b2n (Nat.odd e).
Proof using.
  pose proof (half_spec e). pose proof (half_spec (e + 1)) as H1.
  rewrite Nat.odd_add in H1. destruct (Nat.odd e); cbn in *; lia.
Qed.

Lemma half_le_up a e : a ≤ e → a / 2 ≤ (e + 1) / 2.
Proof using. intros. apply Nat.Div0.div_le_mono. lia. Qed.

Lemma path_item_nodes ls side k abs b e :
  2 * b ≤ abs → b ≤ (e + 1) / 2 →
  path_item side (abs - 2 * b) (nodes ls k (2 * b) (2 * ((e + 1) / 2))) = ref_item ls side k abs e.
Proof using.
  intros Hb Hbe.
  assert (Hev : Nat.even (abs - 2 * b) = Nat.even abs).
  { rewrite Nat.even_sub by lia. rewrite Nat.even_mul. cbn. by destruct (Nat.even abs). }
  assert (Hod : Nat.odd (abs - 2 * b) = Nat.odd abs) by (by rewrite <-!Nat.negb_even, Hev).
  assert (Hsib : nodes ls k (2 * b) (2 * ((e + 1) / 2)) !! Nat.lxor (abs - 2 * b) 1 =
    if decide (sibling abs < 2 * ((e + 1) / 2)) then Some (node ls k (sibling abs)) else None).
  { unfold sibling. destruct (Nat.even abs) eqn:E.
    - rewrite lxor_1_even by done. rewrite lookup_nodes.
      replace (2 * b + (abs - 2 * b + 1)) with (abs + 1) by lia. apply decide_ext. lia.
    - assert (Nat.odd abs = true) as Ho by by rewrite <-Nat.negb_even, E.
      assert (abs ≠ 2 * b) by (intros ->; by rewrite Nat.odd_mul in Ho).
      rewrite lxor_1_odd by (rewrite Hod; done). rewrite lookup_nodes.
      replace (2 * b + (abs - 2 * b - 1)) with (abs - 1) by lia. apply decide_ext. lia. }
  unfold path_item, ref_item. rewrite Hev, Hod, Hsib. done.
Qed.

(** One turn of the level loop computes the next level of the reference tree. *)
Lemma level_step_spec self ls side k a e abs path :
  a ≤ e → a ≤ abs → length ls ≤ e * 2 ^ k → k ≤ MAX_TREE_DEPTH →
  (Nat.odd a = true → cache self !! k = Some (Some (node ls k (a - 1)))) →
  level_step self side
    {| ls_hashes := nodes ls k a e; ls_index := abs - a; ls_start := a; ls_path := path |} k =
  Ret {| ls_hashes := nodes ls (S k) (a / 2) ((e + 1) / 2); ls_index := abs / 2 - a / 2;
         ls_start := a / 2; ls_path := path ++ [ref_item ls side k abs e] |}.
Proof using.
  intros Hae Habs Hls Hk Hc. unfold level_step. cbn [ls_start ls_hashes ls_index ls_path].
  pose proof (half_spec a) as Ha. pose proof (odd_half_up e) as He.
  pose proof (half_le_up a e Hae) as Hbc.
  assert ((if Nat.odd a then
      slot ← expect (cache self !! k); h ← expect slot;
      Ret (h :: nodes ls k a e, S (abs - a))
    else Ret (nodes ls k a e, abs - a)) =
    Ret (nodes ls k (2 * (a / 2)) e, abs - 2 * (a / 2))) as ->.
  { destruct (Nat.odd a); cbn [Nat.b2n] in Ha.
    - rewrite Hc by done. cbn [expect mbind exec_bind]. rewrite nodes_cons by lia.
      replace (2 * (a / 2)) with (a - 1) by lia. by replace (S (abs - a)) with (abs - (a - 1)) by lia.
    - by replace (2 * (a / 2)) with a by lia. }
  cbn [mbind exec_bind]. rewrite length_nodes.
  assert (Nat.odd (e - 2 * (a / 2)) = Nat.odd e) as ->.
  { rewrite Nat.odd_sub by lia. rewrite Nat.odd_mul. cbn. by destruct (Nat.odd e). }
  assert ((if Nat.odd e then h ← empty_subtree_hash k; Ret (nodes ls k (2 * (a / 2)) e ++ [h])
    else Ret (nodes ls k (2 * (a / 2)) e)) =
    Ret (nodes ls k (2 * (a / 2)) (2 * ((e + 1) / 2)))) as ->.
  { destruct (Nat.odd e); cbn [Nat.b2n] in He.
    - rewrite empty_subtree_hash_Ret by done. cbn [mbind exec_bind]. rewrite <-(node_empty ls k e) by done.
      rewrite nodes_snoc by lia. by rewrite He.
    - by rewrite He, Nat.add_0_r. }
  cbn [mbind exec_bind]. rewrite length_nodes.
  replace ((2 * ((e + 1) / 2) - 2 * (a / 2)) / 2) with ((e + 1) / 2 - a / 2)
    by (rewrite <-Nat.mul_sub_distr_l, Nat.mul_comm, Nat.div_mul; lia).
  destruct (compress_level ls k (a / 2) ((e + 1) / 2) Hbc) as (hs' & -> & Htake).
  cbn [mbind exec_bind]. rewrite Htake, path_item_nodes by lia. do 2 f_equal.
  pose proof (half_spec abs). pose proof (half_spec (abs - 2 * (a / 2))) as Hi.
  rewrite Nat.odd_sub in Hi by lia. rewrite Nat.odd_mul in Hi. cbn [Nat.odd Nat.even] in Hi.
  rewrite xorb_false_r in Hi. lia.
Qed.

(** ** The level loop *)
Lemma halve_pow n a : halve n a = a / 2 ^ n.
Proof using.
  revert a. induction n as [|n IH]; intros a; cbn [halve Nat.pow].
  - by rewrite Nat.div_1_r.
  - by rewrite IH, Nat.Div0.div_div.
Qed.

Lemma ceil_halve_pos n e : 0 < e ≤ 2 ^ n → ceil_halve n e = 1.
Proof using.
  revert e. induction n as [|n IH]; intros e He; cbn [ceil_halve Nat.pow] in *; [lia|].
  apply IH. pose proof (odd_half_up e). destruct (Nat.odd e) eqn:E; cbn [Nat.b2n] in *; [|lia].
  assert (e ≠ 2 * 2 ^ n); [|lia]. intros ->. by rewrite Nat.odd_mul in E.
Qed.

Lemma ceil_halve_le n a e : a ≤ e → halve n a ≤ ceil_halve n e.
Proof using.
  revert a e. induction n as [|n IH]; intros a e Hae; cbn; [done|]. apply IH. by apply half_le_up.
Qed.

Lemma levels_spec self ls side n k a e abs path :
  a ≤ e → a ≤ abs → length ls ≤ e * 2 ^ k → k + n ≤ S MAX_TREE_DEPTH →
  (∀ i, i < n → Nat.odd (halve i a) = true →
     cache self !! (k + i) = Some (Some (node ls (k + i) (halve i a - 1)))) →
  foldM (level_step self side)
    {| ls_hashes := nodes ls k a e; ls_index := abs - a; ls_start := a; ls_path := path |}
    (seq k n) =
  Ret {| ls_hashes := nodes ls (k + n) (halve n a) (ceil_halve n e);
         ls_index := halve n abs - halve n a; ls_start := halve n a;
         ls_path := path ++ ref_path ls side k abs e n |}.
Proof using.
  revert k a e abs path. induction n as [|n IH]; intros k a e abs path Hae Habs Hls Hk Hc; cbn [seq foldM].
  { cbn. by rewrite Nat.add_0_r, app_nil_r. }
  rewrite (level_step_spec self ls side k a e abs path); [|done|done|done|lia|]; last first.
  { intros Ho. specialize (Hc 0 ltac:(lia) Ho). by rewrite Nat.add_0_r in Hc. }
  cbn [mbind exec_bind halve ceil_halve ref_path].
  rewrite (IH (S k) (a / 2) ((e + 1) / 2) (abs / 2)).
  - rewrite <-app_assoc. cbn [app]. by replace (S k + n) with (k + S n) by lia.
  - by apply half_le_up.
  - by apply Nat.Div0.div_le_mono.
  - pose proof (odd_half_up e). cbn [Nat.pow]. nia.
  - lia.
  - intros i Hi Ho. specialize (Hc (S i) ltac:(lia) Ho). cbn [halve] in Hc.
    by replace (S k + i) with (k + S i) by lia.
Qed.

(** ** Representation

    [represents self ls d]: [self] stands for the complete tree of depth [d]
    over the leaves [ls], the first [start_index self] of them trimmed. *)
Definition cache_of (ls : list H256) (start n : nat) : list (option H256) :=
  (λ k, if Nat.odd (halve k start) then Some (node ls k (halve k start - 1)) else None) <$> seq 0 n.

Record represents (self : MiniMerkleTree) (ls : list H256) (d : nat) : Prop := {
  rep_size : binary_tree_size self = 2 ^ d;
  rep_depth : d ≤ MAX_TREE_DEPTH;
  rep_start : start_index self ≤ length ls;
  rep_len : length ls ≤ 2 ^ d;
  rep_hashes : hashes self = drop (start_index self) ls;
  rep_cache : cache self =
    cache_of ls (start_index self) (if decide (start_index self = 2 ^ d) then S d else d);
}.

Lemma lookup_cache_of ls start n k :
  k < n → cache_of ls start n !! k =
    Some (if Nat.odd (halve k start) then Some (node ls k (halve k start - 1)) else None).
Proof using. intros. unfold cache_of. by rewrite list_lookup_fmap, lookup_seq_lt. Qed.

Lemma drop_nodes ls s : s ≤ length ls → drop s ls = nodes ls 0 s (length ls).
Proof using.
  intros Hs. apply list_eq. intros i. rewrite lookup_drop, lookup_nodes. case_decide.
  - cbn. destruct (lookup_lt_is_Some_2 ls (s + i)) as [x ->]; [lia|]. done.
  - apply lookup_ge_None. lia.
Qed.

(** The loop returns the reference root and the reference path whenever some
    node is left to hash. *)
Lemma compute_spec self ls d side index :
  represents self ls d → 0 < length ls → start_index self < 2 ^ d →
  compute_merkle_root_and_path self index side =
  Ret (reference_root ls d, ref_path ls side 0 (start_index self + index) (length ls) d).
Proof using.
  intros Hr Hpos Hlt. destruct Hr as [Hsz Hd Hs Hlen Hh Hc].
  unfold compute_merkle_root_and_path. rewrite Hsz, tree_depth_pow2, Hh, drop_nodes by done.
  replace index with (start_index self + index - start_index self) at 1 by lia.
  rewrite (levels_spec self ls); [|done|lia|rewrite Nat.mul_1_r; done|lia|].
  - cbn [mbind exec_bind ls_hashes ls_path]. rewrite halve_pow, Nat.div_small by done.
    rewrite ceil_halve_pos by lia. done.
  - intros i Hi Ho. cbn [Nat.add]. rewrite Hc, lookup_cache_of by (case_decide; lia). by rewrite Ho.
Qed.

Lemma represents_cache self ls d k :
  represents self ls d → k < d → Nat.odd (halve k (start_index self)) = true →
  cache self !! k = Some (Some (node ls k (halve k (start_index self) - 1))).
Proof using.
  intros Hr Hk Ho. rewrite (rep_cache _ _ _ Hr), lookup_cache_of by (case_decide; lia). by rewrite Ho.
Qed.

(** With nothing left to hash the loop ends on an empty list and [hashes[0]]
    panics. *)
Lemma compute_panics self ls d side index :
  represents self ls d → hashes self = [] →
  start_index self = 0 ∨ start_index self = 2 ^ d →
  compute_merkle_root_and_path self index side = Panic.
Proof using.
  intros Hr Hh Hcase.
  assert (Hlen : start_index self = length ls).
  { pose proof (rep_start _ _ _ Hr). pose proof (f_equal length (rep_hashes _ _ _ Hr)) as Hl.
    rewrite Hh, length_drop in Hl. cbn in Hl. lia. }
  unfold compute_merkle_root_and_path. rewrite (rep_size _ _ _ Hr), tree_depth_pow2.
  rewrite (rep_hashes _ _ _ Hr), drop_nodes by lia.
  replace index with (start_index self + index - start_index self) at 1 by lia.
  pose proof (rep_depth _ _ _ Hr).
  rewrite (levels_spec self ls); [|lia|lia|by rewrite Nat.mul_1_r|lia|intros i ??; by apply (represents_cache _ _ d)].
  cbn [mbind exec_bind ls_hashes]. rewrite <-Hlen.
  assert (ceil_halve d (start_index self) = halve d (start_index self)) as ->; [|].
  { destruct Hcase as [->| ->].
    - clear. induction d; [done|]. done.
    - rewrite ceil_halve_pos, halve_pow, Nat.div_same; [done|apply Nat.pow_nonzero; lia|].
      split; [|done]. apply Nat.neq_0_lt_0, Nat.pow_nonzero. lia. }
  unfold nodes. by rewrite Nat.sub_diag.
Qed.

(** ** Operations on represented trees *)
Lemma pow2_pos d : 0 < 2 ^ d.
Proof using. apply Nat.neq_0_lt_0, Nat.pow_nonzero. lia. Qed.

Lemma pow2_max a b : 2 ^ Nat.max a b = Nat.max (2 ^ a) (2 ^ b).
Proof using.
  destruct (Nat.le_ge_cases a b) as [H|H].
  - rewrite !Nat.max_r; [done| |done]. apply Nat.pow_le_mono_r; lia.
  - rewrite !Nat.max_l; [done| |done]. apply Nat.pow_le_mono_r; lia.
Qed.

Lemma halve_0 n : halve n 0 = 0.
Proof using. by induction n. Qed.

Lemma halve_pow2 d : halve d (2 ^ d) = 1.
Proof using. rewrite halve_pow. apply Nat.div_same, Nat.pow_nonzero. lia. Qed.

(** The left path to a leaf at or before the end is the cache of the tree
    trimmed up to it. *)
Lemma ref_path_left ls k abs e n :
  abs ≤ e →
  ref_path ls (Some Left) k abs e n =
  (λ i, if Nat.odd (halve i abs) then Some (node ls (k + i) (halve i abs - 1)) else None) <$> seq 0 n.
Proof using.
  revert k abs e. induction n as [|n IH]; intros k abs e Hae; [done|].
  cbn [ref_path seq fmap list_fmap halve]. f_equal.
  - unfold ref_item, sibling. rewrite <-Nat.negb_even. destruct (Nat.even abs) eqn:E; [done|].
    pose proof (odd_half_up e). cbn [negb]. rewrite Nat.add_0_r. rewrite decide_True; [done|].
    destruct abs; [done|lia].
  - rewrite IH by by apply half_le_up. rewrite <-fmap_S_seq, <-list_fmap_compose.
    apply list_fmap_ext. intros i x _. unfold compose. cbn [halve Nat.add]. by replace (S (k + x)) with (k + S x) by lia.
Qed.

Lemma cache_of_S ls s d : cache_of ls s (S d) =
  cache_of ls s d ++ [if Nat.odd (halve d s) then Some (node ls d (halve d s - 1)) else None].
Proof using. unfold cache_of. rewrite seq_S, fmap_app. done. Qed.

(** The cache does not depend on the leaves that follow the trimmed ones. *)
Lemma cache_of_app ls ls' s n : s ≤ length ls → cache_of (ls ++ ls') s n = cache_of ls s n.
Proof using.
  intros Hs. unfold cache_of. apply list_fmap_ext. intros i k _.
  destruct (Nat.odd (halve k s)) eqn:Ho; [|done]. f_equal. apply node_agree. intros j Hj.
  rewrite lookup_app_l; [done|]. rewrite halve_pow in *.
  assert (s / 2 ^ k ≠ 0) by (intros E; by rewrite E in Ho).
  pose proof (Nat.Div0.mul_div_le s (2 ^ k)).
  replace (s / 2 ^ k - 1 + 1) with (s / 2 ^ k) in Hj by lia. lia.
Qed.

Lemma from_hashes_represents hs m t :
  from_hashes hs m = Ret t →
  represents t hs (Nat.max (Nat.log2 (default 1 m)) (Nat.log2_up (length hs))).
Proof using.
  intros Hf. set (d := Nat.max _ _).
  assert (Hsz : ∀ size, match m with
      | Some m => assert_then (is_power_of_two m) (Ret (Nat.max m (next_power_of_two (length hs))))
      | None => Ret (next_power_of_two (length hs)) end = Ret size → size = 2 ^ d).
  { intros size. subst d. unfold next_power_of_two, is_power_of_two. destruct m as [m|].
    - unfold assert_then. destruct (bool_decide_reflect (m = 2 ^ Nat.log2 m)) as [Hm|]; [|done].
      intros [= <-]. change (default 1 (Some m)) with m. by rewrite pow2_max, <-Hm.
    - by intros [= <-]. }
  unfold from_hashes in Hf. apply bind_Ret_inv in Hf as (size & Hs & Hf). rewrite (Hsz _ Hs) in Hf.
  rewrite tree_depth_pow2 in Hf. unfold assert_then in Hf.
  destruct (bool_decide_reflect (d ≤ MAX_TREE_DEPTH)) as [Hd|]; [|done]. injection Hf as <-.
  split; cbn; [done|done|lia| |done|].
  - transitivity (2 ^ Nat.log2_up (length hs)); [|apply Nat.pow_le_mono_r; lia].
    destruct (decide (length hs ≤ 1)) as [H1|H1]; [|apply Nat.log2_up_spec; lia].
    pose proof (pow2_pos (Nat.log2_up (length hs))). lia.
  - rewrite decide_False by (pose proof (pow2_pos d); lia). unfold cache_of.
    apply list_eq. intros i. rewrite list_lookup_fmap. destruct (decide (i < d)).
    + rewrite lookup_replicate_2, lookup_seq_lt by done. cbn. by rewrite halve_0.
    + rewrite lookup_seq_ge by lia. apply lookup_ge_None. rewrite length_replicate. lia.
Qed.

(** Pushing appends a leaf; the tree deepens exactly when it was full. *)
Lemma push_hash_represents t ls d h :
  represents t ls d →
  let d' := if decide (length ls = 2 ^ d) then S d else d in
  d' ≤ MAX_TREE_DEPTH →
  represents (push_hash t h) (ls ++ [h]) d'.
Proof using.
  intros [Hsz Hd Hs Hlen Hh Hc] d' Hd'. unfold push_hash.
  assert (Hn : start_index t + length (hashes t ++ [h]) = length ls + 1).
  { rewrite length_app, Hh, length_drop. cbn. lia. }
  rewrite Hn, Hsz. subst d'.
  assert (Hdr : hashes t ++ [h] = drop (start_index t) (ls ++ [h])).
  { rewrite drop_app_le by done. by rewrite Hh. }
  destruct (decide (length ls = 2 ^ d)) as [E|E].
  - rewrite decide_True by lia. replace (2 ^ d * 2) with (2 ^ S d) by (cbn; lia).
    rewrite tree_depth_pow2.
    split; cbn [start_index hashes cache binary_tree_size]; rewrite ?length_app; cbn [length];
      [done|done|lia|pose proof (pow2_pos d); cbn; lia|done|].
    rewrite (decide_False (P := start_index t = 2 ^ S d)) by (pose proof (pow2_pos d); cbn; lia).
    rewrite cache_of_app by done. rewrite Hc. case_decide as Hst.
    + rewrite decide_False; [done|]. unfold cache_of. rewrite length_fmap, length_seq. lia.
    + rewrite decide_True by (unfold cache_of; rewrite length_fmap, length_seq; lia).
      rewrite cache_of_S, halve_pow, Nat.div_small by lia. done.
  - rewrite decide_False by lia. split; cbn [start_index hashes cache binary_tree_size];
      rewrite ?length_app; cbn [length]; [done|done|lia|lia|done|].
    rewrite decide_False in * by lia. by rewrite cache_of_app.
Qed.

(** Trimming a tree that is neither empty nor full and trimmed returns, and the
    result represents the same leaves. *)
Lemma trim_start_represents t ls d count :
  represents t ls d → 0 < length ls → start_index t < 2 ^ d → count ≤ length (hashes t) →
  ∃ t', trim_start t count = Ret t' ∧ represents t' ls d ∧
    start_index t' = start_index t + count.
Proof using.
  intros Hr Hpos Hst Hcnt. unfold trim_start, assert_then. rewrite bool_decide_true by done.
  rewrite (compute_spec t ls d) by done. cbn [mbind exec_bind]. eexists. split; [done|].
  destruct Hr as [Hsz Hd Hs Hlen Hh Hc].
  assert (Hle : start_index t + count ≤ length ls).
  { rewrite Hh, length_drop in Hcnt. lia. }
  split; [|done].
  split; cbn [start_index hashes cache binary_tree_size]; [done..| |].
  - by rewrite Hh, drop_drop.
  - clear Hc. rewrite Hsz, ref_path_left by done. case_decide as E; [|done].
    rewrite cache_of_S, E, halve_pow2. done.
Qed.

(** A represented tree reports the reference root in every state, the empty and
    the entirely trimmed one included. *)
Lemma merkle_root_represents t ls d :
  represents t ls d → merkle_root t = Ret (reference_root ls d).
Proof using.
  intros Hr. pose proof Hr as [Hsz Hd Hs Hlen Hh Hc].
  assert (Hgen : 0 < length ls → start_index t < 2 ^ d →
    (r ← compute_merkle_root_and_path t 0 None; Ret r.1) = Ret (reference_root ls d)).
  { intros ??. by rewrite (compute_spec t ls d). }
  assert (Hl : length (hashes t) = length ls - start_index t) by by rewrite Hh, length_drop.
  unfold merkle_root. destruct (hashes t) eqn:E; cbn in Hl; [|apply Hgen; lia].
  destruct (decide (start_index t = 0)) as [H0|H0].
  { rewrite Hsz, tree_depth_pow2, empty_subtree_hash_Ret by done. f_equal. symmetry.
    apply node_empty. lia. }
  destruct (decide (start_index t = binary_tree_size t)) as [H1|H1]; [|apply Hgen; lia].
  rewrite Hc, H1, Hsz, tree_depth_pow2, decide_True by done.
  rewrite lookup_cache_of, halve_pow2 by lia. done.
Qed.

(** ** Proof checking

    The verifier of an inclusion proof: fold the path, the index telling on
    which side the running hash is. *)
Fixpoint fold_proof (index : nat) (hash : H256) (path : list H256) : H256 :=
  match path with
  | [] => hash
  | p :: path =>
      fold_proof (index / 2) (if Nat.even index then compress hash p else compress p hash) path
  end.

Lemma node_sibling ls k j :
  (if Nat.even j then compress (node ls k j) (node ls k (sibling j))
   else compress (node ls k (sibling j)) (node ls k j)) = node ls (S k) (j / 2).
Proof using.
  cbn [node]. pose proof (half_spec j) as Hj. unfold sibling. rewrite <-Nat.negb_even in Hj.
  destruct (Nat.even j); cbn [negb Nat.b2n] in Hj; f_equal; f_equal; lia.
Qed.

(** The full path to a leaf that is there has no gap and leads to the root. *)
Lemma ref_path_full ls k abs e n :
  abs < e →
  ∃ path, ref_path ls None k abs e n = Some <$> path ∧ length path = n ∧
    fold_proof abs (node ls k abs) path = node ls (k + n) (halve n abs).
Proof using.
  revert k abs e. induction n as [|n IH]; intros k abs e Habs.
  { exists []. by rewrite Nat.add_0_r. }
  pose proof (odd_half_up e). pose proof (half_spec abs) as Ha.
  assert (Hs : sibling abs < 2 * ((e + 1) / 2)).
  { unfold sibling. rewrite <-Nat.negb_even in Ha. destruct (Nat.even abs) eqn:E; cbn in Ha; [|lia].
    destruct (Nat.odd e); cbn in *; lia. }
  destruct (IH (S k) (abs / 2) ((e + 1) / 2)) as (path & Hp & Hlen & Hf).
  { destruct (Nat.odd abs), (Nat.odd e); cbn in *; lia. }
  exists (node ls k (sibling abs) :: path). split_and!.
  - cbn [ref_path fmap list_fmap]. rewrite Hp. unfold ref_item. by rewrite decide_True.
  - cbn. by rewrite Hlen.
  - cbn [fold_proof halve]. rewrite node_sibling, Hf. by replace (S k + n) with (k + S n) by lia.
Qed.

Lemma collect_Some (path : list H256) acc :
  foldM (λ acc o, h ← expect o; Ret (acc ++ [h])) acc (Some <$> path) = Ret (acc ++ path).
Proof using.
  revert acc. induction path as [|h path IH]; intros acc; cbn; [by rewrite app_nil_r|].
  rewrite IH. by rewrite <-app_assoc.
Qed.

Lemma rep_pos t ls d i : represents t ls d → i < length (hashes t) →
  start_index t + i < length ls ∧ start_index t < 2 ^ d.
Proof using.
  intros Hr Hi. destruct Hr as [_ _ Hs Hlen Hh _]. rewrite Hh, length_drop in Hi. lia.
Qed.

(** The verifier of a range proof: [hs] are the hashes of consecutive leaves
    from [start] on; each level is completed on the left with the item of the
    left path if it starts at an odd index and on the right with the item of the
    right path if its length is odd; an item must be there exactly when used. *)
Fixpoint pair_up (hs : list H256) : list H256 :=
  match hs with l :: r :: hs => compress l r :: pair_up hs | _ => [] end.

Definition complete_left (start : nat) (item : option H256) (hs : list H256) : option (list H256) :=
  match Nat.odd start, item with
  | true, Some h => Some (h :: hs) | false, None => Some hs | _, _ => None
  end.
Definition complete_right (item : option H256) (hs : list H256) : option (list H256) :=
  match Nat.odd (length hs), item with
  | true, Some h => Some (hs ++ [h]) | false, None => Some hs | _, _ => None
  end.

Fixpoint fold_range (hs : list H256) (start : nat) (left_path right_path : list (option H256))
    : option H256 :=
  match left_path, right_path with
  | [], [] => match hs with [root] => Some root | _ => None end
  | l :: left_path, r :: right_path =>
      hs ← complete_left start l hs;
      hs ← complete_right r hs;
      fold_range (pair_up hs) (start / 2) left_path right_path
  | _, _ => None
  end.

Lemma pair_up_nodes ls k b c : b ≤ c → pair_up (nodes ls k (2 * b) (2 * c)) = nodes ls (S k) b c.
Proof using.
  intros Hbc. unfold nodes. replace (2 * c - 2 * b) with (2 * (c - b)) by lia.
  generalize (c - b) as n. clear Hbc. intros n. revert b. induction n as [|n IH]; intros b; [done|].
  replace (2 * S n) with (S (S (2 * n))) by lia. cbn [seq fmap list_fmap pair_up node].
  replace (S (S (2 * b))) with (2 * S b) by lia. rewrite IH.
  by replace (2 * b + 1) with (S (2 * b)) by lia.
Qed.

Lemma fold_range_ref ls k a c e n :
  a < c → c ≤ e →
  fold_range (nodes ls k a c) a
    ((λ i, if Nat.odd (halve i a) then Some (node ls (k + i) (halve i a - 1)) else None) <$> seq 0 n)
    (ref_path ls (Some Right) k (c - 1) e n) =
  match nodes ls (k + n) (halve n a) (ceil_halve n c) with [root] => Some root | _ => None end.
Proof using.
  revert k a c e. induction n as [|n IH]; intros k a c e Hac Hce.
  { cbn. by rewrite Nat.add_0_r. }
  pose proof (half_spec a) as Ha. pose proof (odd_half_up c) as Hc. pose proof (odd_half_up e) as He.
  assert (Hlt : a / 2 < (c + 1) / 2) by (destruct (Nat.odd a), (Nat.odd c); cbn in *; lia).
  cbn [seq fmap list_fmap ref_path fold_range halve ceil_halve].
  assert (complete_left a (if Nat.odd a then Some (node ls (k + 0) (a - 1)) else None) (nodes ls k a c)
    = Some (nodes ls k (2 * (a / 2)) c)) as ->.
  { unfold complete_left. destruct (Nat.odd a); cbn [Nat.b2n] in Ha.
    - rewrite Nat.add_0_r, nodes_cons by lia. by replace (2 * (a / 2)) with (a - 1) by lia.
    - by replace (2 * (a / 2)) with a by lia. }
  cbn [mbind option_bind].
  assert (complete_right (ref_item ls (Some Right) k (c - 1) e) (nodes ls k (2 * (a / 2)) c)
    = Some (nodes ls k (2 * (a / 2)) (2 * ((c + 1) / 2)))) as ->.
  { unfold complete_right, ref_item, sibling. rewrite length_nodes.
    assert (Nat.odd (c - 2 * (a / 2)) = Nat.odd c) as ->.
    { rewrite Nat.odd_sub by lia. rewrite Nat.odd_mul. cbn. by destruct (Nat.odd c). }
    rewrite <-(Nat.negb_even (c - 1)), Nat.even_sub by lia. change (Nat.even 1) with false.
    rewrite <-(Nat.negb_even c) in *. destruct (Nat.even c) eqn:Ec; cbn [negb Nat.b2n Bool.eqb] in *.
    - by rewrite Hc, Nat.add_0_r.
    - replace (c - 1 + 1) with c by lia. rewrite decide_True by (destruct (Nat.odd e) eqn:Eo; cbn [Nat.b2n] in He; [lia|];
        assert (c ≠ e) by (intros ->; by rewrite <-Nat.negb_even, Ec in Eo); lia).
      rewrite nodes_snoc by lia. by rewrite Hc. }
  cbn [mbind option_bind]. rewrite pair_up_nodes by lia.
  replace ((c - 1) / 2) with ((c + 1) / 2 - 1)
    by (replace (c + 1) with (c - 1 + 1 * 2) by lia; rewrite Nat.div_add by done; lia).
  rewrite <-fmap_S_seq, <-list_fmap_compose. replace (k + S n) with (S k + n) by lia.
  rewrite <-(IH (S k) (a / 2) ((c + 1) / 2) ((e + 1) / 2)); [|done|apply Nat.Div0.div_le_mono; lia].
  f_equal. apply list_fmap_ext. intros i x _. unfold compose. cbn [halve].
  by replace (k + S x) with (S k + x) by lia.
Qed.

(** ** Built trees

    [built m t ls]: [t] was made by [from_hashes _ m] and then by pushes and
    trims that returned; [ls] are all leaves it ever received. *)
Inductive built (m : option nat) : MiniMerkleTree → list H256 → Prop :=
  | built_new hs t : from_hashes hs m = Ret t → built m t hs
  | built_push t ls h :
      built m t ls → length ls < 2 ^ MAX_TREE_DEPTH → built m (push_hash t h) (ls ++ [h])
  | built_trim t ls count t' : built m t ls → trim_start t count = Ret t' → built m t' ls.

(** The depth that holds [n] leaves and at least the requested ones. *)
Definition depth_for (m : option nat) (n : nat) : nat :=
  Nat.max (Nat.log2 (default 1 m)) (Nat.log2_up n).

Lemma depth_for_push m n :
  n ≤ 2 ^ depth_for m n →
  depth_for m (S n) = if decide (n = 2 ^ depth_for m n) then S (depth_for m n) else depth_for m n.
Proof using.
  unfold depth_for. set (d0 := Nat.log2 _). set (d := Nat.max d0 (Nat.log2_up n)). intros Hn.
  case_decide as E.
  - assert (Nat.log2_up (S n) = S d) as ->; [|lia]. rewrite E. apply Nat.log2_up_succ_pow2. lia.
  - pose proof (Nat.log2_up_le_mono n (S n)).
    pose proof (Nat.log2_up_le_mono (S n) (2 ^ d)) as H1. rewrite Nat.log2_up_pow2 in H1 by lia. lia.
Qed.

Lemma trim_start_inv t ls d count t' :
  represents t ls d → trim_start t count = Ret t' →
  count ≤ length (hashes t) ∧ 0 < length ls ∧ start_index t < 2 ^ d.
Proof using.
  intros Hr Ht. unfold trim_start, assert_then in Ht.
  destruct (bool_decide_reflect (count ≤ length (hashes t))) as [Hc|]; [|done].
  pose proof (rep_start _ _ _ Hr). pose proof (rep_len _ _ _ Hr).
  split; [done|]. apply bind_Ret_inv in Ht as ([root path] & Hcomp & _).
  assert (¬ (hashes t = [] ∧ (start_index t = 0 ∨ start_index t = 2 ^ d))) as Hn.
  { intros [Hh Hcase]. by rewrite (compute_panics _ _ _ _ _ Hr Hh Hcase) in Hcomp. }
  assert (Hd : start_index t = length ls → hashes t = []).
  { intros E. rewrite (rep_hashes _ _ _ Hr), E. apply drop_all. }
  pose proof (pow2_pos d).
  destruct (decide (start_index t = length ls)) as [E|E]; [|lia].
  specialize (Hd E). split.
  - destruct (decide (length ls = 0)); [|lia]. exfalso. apply Hn. split; [done|left; lia].
  - destruct (decide (start_index t = 2 ^ d)); [|lia]. exfalso. apply Hn. by split; [|right].
Qed.

Lemma built_represents m t ls : built m t ls → represents t ls (depth_for m (length ls)).
Proof using.
  induction 1 as [hs t Hf|t ls h Hb IH Hlen|t ls count t' Hb IH Ht].
  - by apply from_hashes_represents.
  - pose proof (rep_len _ _ _ IH) as Hn. pose proof (rep_depth _ _ _ IH) as Hd.
    rewrite length_app, Nat.add_1_r, (depth_for_push _ _ Hn).
    apply push_hash_represents; [done|]. case_decide as E; [|done].
    rewrite E in Hlen. apply Nat.pow_lt_mono_r_iff in Hlen; lia.
  - destruct (trim_start_inv _ _ _ _ _ IH Ht) as (?&?&?).
    destruct (trim_start_represents _ _ _ count IH) as (t'' & Ht' & Hr & _); [done..|].
    rewrite Ht in Ht'. by injection Ht' as <-.
Qed.

(** C14 The root of a tree, however it was built by pushes and cache-building
    trims, is the Merkle root of all leaves ever received, padded with empty
    leaves to the smallest power of two that holds them and the requested
    minimum; the cached and the general paths of [merkle_root] agree on it, and
    no table or cache access of the computation panics. *)
Theorem merkle_root_of_built m t ls :
  built m t ls →
  merkle_root t = Ret (reference_root ls (depth_for m (length ls))).
Proof using. intros Hb. by apply merkle_root_represents, built_represents. Qed.

(** C28 The inclusion proof of any leaf still in the tree is returned, has one
    hash per level, and folding it from the leaf's hash and its index among all
    leaves ever received gives the root it is returned with, which is the root of
    [merkle_root]. *)
Theorem merkle_proof_verifies m t ls i :
  built m t ls → i < length (hashes t) →
  ∃ leaf path,
    ls !! (start_index t + i) = Some leaf ∧ hashes t !! i = Some leaf ∧
    merkle_root_and_path t i = Ret (reference_root ls (depth_for m (length ls)), path) ∧
    length path = depth_for m (length ls) ∧
    fold_proof (start_index t + i) leaf path = reference_root ls (depth_for m (length ls)).
Proof using.
  intros Hb Hi. pose proof (built_represents _ _ _ Hb) as Hr. set (d := depth_for _ _) in *.
  destruct (rep_pos _ _ _ _ Hr Hi) as [Hlt Hst].
  destruct (lookup_lt_is_Some_2 ls _ Hlt) as [leaf Hleaf].
  destruct (ref_path_full ls 0 (start_index t + i) (length ls) d Hlt) as (path & Hp & Hlen & Hf).
  exists leaf, path. split_and!; [done| | |done|].
  - by rewrite (rep_hashes _ _ _ Hr), lookup_drop.
  - unfold merkle_root_and_path, assert_then. rewrite bool_decide_true by done.
    rewrite (compute_spec t ls d) by (done || lia). cbn [mbind exec_bind]. rewrite Hp.
    by rewrite collect_Some.
  - replace leaf with (node ls 0 (start_index t + i)) by (cbn; by rewrite Hleaf).
    rewrite Hf, halve_pow, Nat.div_small by (pose proof (rep_len _ _ _ Hr); lia). done.
Qed.

(** The range proof of the first [n] leaves still in the tree is returned, and
    the range verifier accepts it: the two paths complete every level exactly
    where the leaves do not, and lead to the root. *)
Theorem merkle_range_proof_verifies m t ls n :
  built m t ls → 0 < n ≤ length (hashes t) →
  ∃ left_path right_path,
    merkle_root_and_paths_for_range t n =
      Ret (reference_root ls (depth_for m (length ls)), left_path, right_path) ∧
    fold_range (take n (hashes t)) (start_index t) left_path right_path =
      Some (reference_root ls (depth_for m (length ls))).
Proof using.
  intros Hb [Hn Hle]. pose proof (built_represents _ _ _ Hb) as Hr. set (d := depth_for _ _) in *.
  destruct (rep_pos _ _ _ (n - 1) Hr) as [Hlt Hst]; [lia|].
  eexists _, _. split.
  - unfold merkle_root_and_paths_for_range, assert_then. rewrite !bool_decide_true by done.
    by rewrite (compute_spec t ls d) by (done || lia).
  - rewrite (rep_cache _ _ _ Hr), decide_False by lia.
    replace (take n (hashes t)) with (nodes ls 0 (start_index t) (start_index t + n)).
    2: { rewrite (rep_hashes _ _ _ Hr), drop_nodes by (apply (rep_start _ _ _ Hr)).
         apply list_eq. intros j. rewrite lookup_nodes. destruct (decide (j < n)).
         - rewrite lookup_take_lt, lookup_nodes by done. rewrite !decide_True by lia. done.
         - rewrite decide_False by lia. symmetry. apply lookup_ge_None.
           rewrite length_take, length_nodes. lia. }
    replace (start_index t + (n - 1)) with (start_index t + n - 1) by lia.
    unfold cache_of. rewrite (fold_range_ref ls 0) by lia. pose proof (rep_len _ _ _ Hr).
    rewrite halve_pow, Nat.div_small, ceil_halve_pos by lia. done.
Qed.

(** [trim_start] panics exactly when asked to trim more leaves than there are,
    or when the tree is empty, or full and trimmed entirely (then even for
    [count = 0]); otherwise it moves [start_index] and keeps the root. *)
Theorem trim_start_characterised m t ls count :
  built m t ls →
  let nothing_to_trim := length (hashes t) < count ∨
    (hashes t = [] ∧ (start_index t = 0 ∨ start_index t = binary_tree_size t)) in
  match trim_start t count with
  | Ret t' =>
      ¬ nothing_to_trim ∧
      hashes t' = drop count (hashes t) ∧ start_index t' = start_index t + count ∧
      merkle_root t' = merkle_root t
  | Panic => nothing_to_trim
  end.
Proof using.
  intros Hb. pose proof (built_represents _ _ _ Hb) as Hr. set (d := depth_for _ _) in *.
  destruct (decide (length (hashes t) < count)) as [Hc|Hc].
  { unfold trim_start, assert_then. rewrite bool_decide_false by lia. by left. }
  destruct (decide (0 < length ls ∧ start_index t < 2 ^ d)) as [[Hl Hs]|Hn].
  - destruct (trim_start_represents _ _ _ count Hr) as (t' & Ht & Hr' & Hst); [done|done|lia|].
    rewrite Ht. split_and!; [| |done|by rewrite (merkle_root_represents t' ls d), (merkle_root_represents t ls d)].
    { rewrite (rep_size _ _ _ Hr). intros [?|[Hnil ?]]; [done|].
      rewrite (rep_hashes _ _ _ Hr) in Hnil. apply (f_equal length) in Hnil. rewrite length_drop in Hnil.
      cbn in Hnil. lia. }
    by rewrite (rep_hashes _ _ _ Hr'), (rep_hashes _ _ _ Hr), Hst, drop_drop.
  - destruct (trim_start t count) as [t'|] eqn:Ht; [destruct (trim_start_inv _ _ _ _ _ Hr Ht) as (?&?&?); exfalso; by apply Hn|].
    right. pose proof (rep_start _ _ _ Hr). pose proof (rep_len _ _ _ Hr).
    rewrite (rep_size _ _ _ Hr). split; [|lia].
    rewrite (rep_hashes _ _ _ Hr). apply nil_length_inv. rewrite length_drop. lia.
Qed.
End tree.

(** ** Witnesses, with a toy hash in place of Keccak *)
Module MerkleWitness.
Definition toy_hash (bs : list byte) : H256 :=
  foldl (λ acc b, (acc * 31 + byte_to_Z b + 7) mod 65521)%Z 5%Z bs.

Definition start_tree : MiniMerkleTree :=
  match from_hashes [11; 12; 13; 14; 15]%Z (Some 2) with Ret t => t | Panic => Build_MiniMerkleTree [] 0 0 [] end.
Definition trimmed : MiniMerkleTree :=
  match trim_start toy_hash start_tree 3 with Ret t => t | Panic => start_tree end.
Definition grown : MiniMerkleTree := push_hash trimmed 16%Z.

Lemma grown_built : built toy_hash (Some 2) grown [11; 12; 13; 14; 15; 16]%Z.
Proof.
  apply (built_push _ _ _ [11; 12; 13; 14; 15]%Z).
  - apply (built_trim _ _ start_tree _ 3).
    + apply built_new. vm_compute. reflexivity.
    + vm_compute. reflexivity.
  - cbn [length]. apply Nat.le_lt_trans with (2 ^ 3); [cbn; lia|].
    apply Nat.pow_lt_mono_r; [lia|]. unfold MAX_TREE_DEPTH. lia.
Defined.

Lemma merkle_root_of_built_witness :
  merkle_root toy_hash grown = Ret (reference_root toy_hash [11; 12; 13; 14; 15; 16]%Z 3).
Proof. apply (merkle_root_of_built toy_hash (Some 2)), grown_built. Defined.

Lemma merkle_proof_verifies_witness :
  ∃ leaf path, [11; 12; 13; 14; 15; 16]%Z !! 4 = Some leaf ∧ hashes grown !! 1 = Some leaf ∧
    merkle_root_and_path toy_hash grown 1 =
      Ret (reference_root toy_hash [11; 12; 13; 14; 15; 16]%Z 3, path) ∧ length path = 3 ∧
    fold_proof toy_hash 4 leaf path = reference_root toy_hash [11; 12; 13; 14; 15; 16]%Z 3.
Proof.
  apply (merkle_proof_verifies toy_hash (Some 2) grown _ 1 grown_built). vm_compute. lia.
Defined.

Lemma merkle_range_proof_verifies_witness :
  ∃ left_path right_path,
    merkle_root_and_paths_for_range toy_hash grown 2 =
      Ret (reference_root toy_hash [11; 12; 13; 14; 15; 16]%Z 3, left_path, right_path) ∧
    fold_range toy_hash (take 2 (hashes grown)) 3 left_path right_path =
      Some (reference_root toy_hash [11; 12; 13; 14; 15; 16]%Z 3).
Proof.
  apply (merkle_range_proof_verifies toy_hash (Some 2) grown _ 2 grown_built). vm_compute. lia.
Defined.

(** Nothing trimmed from an empty tree. *)
Lemma trim_start_characterised_witness :
  trim_start toy_hash (Build_MiniMerkleTree [] 1 0 []) 0 = Panic ∧
  match trim_start toy_hash grown 2 with
  | Ret t' => ¬ (3 < 2 ∨ ([14; 15; 16]%Z = [] ∧ (3 = 0 ∨ 3 = 8))) ∧
      hashes t' = [16]%Z ∧ start_index t' = 5 ∧ merkle_root toy_hash t' = merkle_root toy_hash grown
  | Panic => 3 < 2 ∨ ([14; 15; 16]%Z = [] ∧ (3 = 0 ∨ 3 = 8))
  end.
Proof.
  split; [vm_compute; reflexivity|].
  exact (trim_start_characterised toy_hash (Some 2) grown _ 2 grown_built).
Defined.
End MerkleWitness.
