(* ===== verification/SmallMap.v ===== *)
(** * Maps with keys below 16

    [lib/merkle_tree/src/utils.rs]: [SmallMap], a bitmap of the keys present and
    the values in the order of keys, with the proof that it implements a partial
    function ([lookup]); and [find_diverging_bit]. A [&mut V] that [get_mut] gives is
    modelled by the function applied to the value it points to. *)
From S2P Require Import Prelude.
Local Open Scope Z_scope.

(** [uN::count_ones] of a [w]-bit integer. *)
Definition count_ones (w z : Z) : nat := length (filter (λ i, Z.testbit z i = true) (seqZ 0 w)).

Module SmallMap.
Section small_map.
Context {V : Type}.

Record t := mk { bitmap : Z; values : list V }.

Definition default : t := mk 0 [].
Definition CAPACITY : Z := 16.

Definition with_capacity (capacity : nat) : exec t :=
  assert_then (bool_decide (Z.of_nat capacity ≤ CAPACITY)) (Ret (mk 0 [])).

Definition len (self : t) : nat := count_ones 16 (bitmap self).

(** The number of keys below [index]: the place of its value. *)
Definition rank (bitmap index : Z) : nat := count_ones 16 (Z.land bitmap (Z.shiftl 1 index - 1)).

Definition get (self : t) (index : Z) : exec (option V) :=
  assert_then (bool_decide (index < CAPACITY))
    (let mask := Z.shiftl 1 index in
     if decide (Z.land (bitmap self) mask = 0) then Ret None
     else v ← expect (values self !! rank (bitmap self) index); Ret (Some v)).

Definition indices (bitmap : Z) : list Z :=
  filter (λ index, Z.land bitmap (Z.shiftl 1 index) ≠ 0) (seqZ 0 CAPACITY).

Definition iter (self : t) : list (Z * V) := zip (indices (bitmap self)) (values self).

(** [u16::BITS - leading_zeros] is the number of significant bits. *)
Definition last (self : t) : option (Z * V) :=
  greatest_set_bit ← checked_sub (if decide (bitmap self = 0) then 0 else Z.log2 (bitmap self) + 1) 1;
  v ← list.last (values self);
  Some (greatest_set_bit, v).

Definition get_mut (self : t) (index : Z) (f : V → V) : exec (option t) :=
  assert_then (bool_decide (index < CAPACITY))
    (let mask := Z.shiftl 1 index in
     if decide (Z.land (bitmap self) mask = 0) then Ret None
     else
       let i := rank (bitmap self) index in
       v ← expect (values self !! i);
       Ret (Some (mk (bitmap self) (<[i := f v]> (values self))))).

(** [Vec::insert] panics when the place is beyond the end. *)
Definition insert (self : t) (index : Z) (value : V) : exec t :=
  assert_then (bool_decide (index < CAPACITY))
    (let mask := Z.shiftl 1 index in
     let i := rank (bitmap self) index in
     if decide (Z.land (bitmap self) mask = 0) then
       assert_then (bool_decide (i ≤ length (values self))%nat)
         (Ret (mk (Z.lor (bitmap self) mask) (take i (values self) ++ value :: drop i (values self))))
     else
       assert_then (bool_decide (i < length (values self))%nat)
         (Ret (mk (bitmap self) (<[i := value]> (values self))))).

(** ** The partial function *)

(** One value per set bit. *)
Record wf (m : t) : Prop := {
  wf_bitmap : in_width 16 (bitmap m);
  wf_values : length (values m) = count_ones 16 (bitmap m);
}.

Definition lookup (m : t) (i : Z) : option V :=
  if Z.testbit (bitmap m) i then values m !! rank (bitmap m) i else None.

(** ** Ranks *)
Lemma testbit_mask b i : 0 ≤ i → Z.land b (Z.shiftl 1 i) = 0 ↔ Z.testbit b i = false.
Proof.
  intros Hi. split.
  - intros Hz. apply (f_equal (λ z, Z.testbit z i)) in Hz.
    rewrite Z.land_spec, Z.shiftl_1_l, Z.pow2_bits_true, andb_true_r, Z.bits_0 in Hz; done.
  - intros Hb. apply Z.bits_inj'. intros j Hj. rewrite Z.land_spec, Z.shiftl_1_l, Z.bits_0.
    rewrite Z.pow2_bits_eqb by done. destruct (Z.eqb_spec i j) as [->|]; [by rewrite Hb|apply andb_false_r].
Qed.

Lemma seqZ_snoc n : 0 ≤ n → seqZ 0 (n + 1) = seqZ 0 n ++ [n].
Proof. intros. rewrite seqZ_app by lia. done. Qed.

Definition below (b i : Z) : nat := length (filter (λ j, Z.testbit b j = true) (seqZ 0 i)).

Lemma below_succ b i : 0 ≤ i → below b (i + 1) = (below b i + if Z.testbit b i then 1 else 0)%nat.
Proof.
  intros. unfold below. rewrite seqZ_snoc, filter_app, length_app by done. f_equal.
  cbn. by destruct (Z.testbit b i).
Qed.

Lemma below_ext b b' i :
  0 ≤ i → (∀ j, 0 ≤ j < i → Z.testbit b j = Z.testbit b' j) → below b i = below b' i.
Proof.
  revert i. apply (natlike_ind (λ i, _ → _)); [done|]. intros i Hi IH Heq.
  unfold Z.succ in *. rewrite !below_succ, (Heq i), IH by (done || lia || (intros; apply Heq; lia)). done.
Qed.

Lemma below_mono b i j : 0 ≤ i ≤ j → (below b i ≤ below b j)%nat.
Proof.
  intros Hij. unfold below. replace j with (i + (j - i)) by lia.
  rewrite seqZ_app, filter_app, length_app by lia. lia.
Qed.

Lemma below_lt b i j : 0 ≤ i < j → Z.testbit b i = true → (below b i < below b j)%nat.
Proof.
  intros Hij Hb. pose proof (below_mono b (i + 1) j) as Hm. rewrite below_succ, Hb in Hm by lia. lia.
Qed.

Lemma below_land b i n : 0 ≤ i ≤ n → below (Z.land b (Z.shiftl 1 i - 1)) n = below b i.
Proof.
  intros Hi. replace (Z.shiftl 1 i - 1) with (Z.ones i) by (rewrite Z.ones_equiv, Z.shiftl_1_l; lia).
  replace n with (i + (n - i)) by lia. assert (Hk : 0 ≤ n - i) by lia. revert Hk.
  generalize (n - i). apply (natlike_ind (λ k, below _ (i + k) = _)).
  - rewrite Z.add_0_r. apply below_ext; [lia|]. intros j Hj.
    rewrite Z.land_spec, Z.ones_spec_low by lia. apply andb_true_r.
  - intros k Hk IH. replace (i + Z.succ k) with (i + k + 1) by lia. rewrite below_succ, IH by lia.
    rewrite Z.land_spec, Z.ones_spec_high, andb_false_r by lia. lia.
Qed.

Lemma rank_below b i : 0 ≤ i ≤ 16 → rank b i = below b i.
Proof. intros. unfold rank. by apply below_land. Qed.

Lemma bit_range (m : t) i : wf m → Z.testbit (bitmap m) i = true → 0 ≤ i < 16.
Proof.
  intros [[Hb1 Hb2] _] E. destruct (decide (i < 0)); [by rewrite Z.testbit_neg_r in E by done|].
  destruct (decide (i < 16)); [lia|]. exfalso.
  pose proof (proj1 (Z.bounded_iff_bits_nonneg 16 (bitmap m) ltac:(lia) Hb1) Hb2 i ltac:(lia)). congruence.
Qed.

Lemma lookup_Some_inv (m : t) i v : wf m → lookup m i = Some v → 0 ≤ i < 16.
Proof.
  intros Hwf. unfold lookup. destruct (Z.testbit (bitmap m) i) eqn:E; [|done]. intros _. by apply (bit_range m).
Qed.

(** The place of a key that is present holds a value. *)
Lemma rank_bound m i :
  wf m → 0 ≤ i < 16 → Z.testbit (bitmap m) i = true → (rank (bitmap m) i < length (values m))%nat.
Proof. intros [_ Hlen] Hi Hb. rewrite Hlen, rank_below by lia. by apply below_lt. Qed.

Lemma lookup_present m i :
  wf m → 0 ≤ i < 16 → Z.testbit (bitmap m) i = true →
  ∃ v, values m !! rank (bitmap m) i = Some v ∧ lookup m i = Some v.
Proof.
  intros Hwf Hi Hb. destruct (lookup_lt_is_Some_2 (values m) (rank (bitmap m) i)) as [v Hv].
  { by apply rank_bound. }
  exists v. unfold lookup. by rewrite Hb.
Qed.

Lemma get_ok m i : wf m → 0 ≤ i < 16 → get m i = Ret (lookup m i).
Proof.
  intros Hwf Hi. unfold get, assert_then. rewrite bool_decide_true by (unfold CAPACITY; lia). cbn.
  case_decide as Hm; [rewrite testbit_mask in Hm by lia; unfold lookup; by rewrite Hm|].
  rewrite testbit_mask in Hm by lia. apply not_false_iff_true in Hm.
  destruct (lookup_present m i Hwf Hi Hm) as (v & Hv & ->). by rewrite Hv.
Qed.

Lemma slots_wf_default : wf default.
Proof. split; [done|]. done. Qed.

Lemma lookup_default i : lookup default i = None.
Proof. unfold lookup. cbn. by rewrite Z.bits_0. Qed.

Lemma slots_insert_ok m i v :
  wf m → 0 ≤ i < 16 →
  ∃ m', insert m i v = Ret m' ∧ wf m' ∧ ∀ j, lookup m' j = if decide (j = i) then Some v else lookup m j.
Proof.
  intros Hwf Hi. pose proof Hwf as [[Hb1 Hb2] Hlen]. unfold insert, assert_then.
  rewrite bool_decide_true by (unfold CAPACITY; lia). cbn.
  assert (Hr : (rank (bitmap m) i ≤ length (values m))%nat).
  { rewrite Hlen, rank_below by lia. apply below_mono. lia. }
  case_decide as Hm; rewrite testbit_mask in Hm by lia.
  - rewrite bool_decide_true by done. eexists. split; [done|].
    set (b' := Z.lor _ _).
    assert (Hb' : ∀ j, Z.testbit b' j = bool_decide (j = i) || Z.testbit (bitmap m) j).
    { intros j. unfold b'. rewrite Z.lor_spec, Z.shiftl_1_l, Z.pow2_bits_eqb by lia.
      destruct (Z.eqb_spec i j), (decide (j = i)); subst; try done; [by rewrite bool_decide_true, orb_true_r by done|].
      rewrite bool_decide_false by done. apply orb_false_r. }
    assert (Hlow : ∀ j, 0 ≤ j ≤ i → below b' j = below (bitmap m) j).
    { intros j Hj. apply below_ext; [lia|]. intros k Hk. by rewrite Hb', bool_decide_false by lia. }
    assert (Hhigh : ∀ j, i < j → below b' j = S (below (bitmap m) j)).
    { intros j Hj. replace j with (i + 1 + (j - i - 1)) by lia. assert (Hk : 0 ≤ j - i - 1) by lia.
      revert Hk. generalize (j - i - 1). apply (natlike_ind (λ k, below _ (i + 1 + k) = _)).
      - rewrite Z.add_0_r, !below_succ, Hlow, Hb', bool_decide_true, Hm by lia. cbn. lia.
      - intros k Hk IH. replace (i + 1 + Z.succ k) with (i + 1 + k + 1) by lia.
        rewrite !below_succ, IH, Hb', bool_decide_false by lia. cbn. lia. }
    split.
    + split; cbn.
      * assert (0 ≤ b') by (apply Z.lor_nonneg; split; [done|apply Z.shiftl_nonneg; lia]).
        split; [done|]. apply Z.bounded_iff_bits_nonneg; [lia|done|]. intros j Hj.
        rewrite Hb', bool_decide_false by lia. by apply (proj1 (Z.bounded_iff_bits_nonneg 16 (bitmap m) ltac:(lia) Hb1)).
      * rewrite length_app. cbn. rewrite length_take, length_drop. fold (below b' 16).
        change (count_ones 16 b') with (below b' 16). rewrite Hhigh by lia.
        change (count_ones 16 (bitmap m)) with (below (bitmap m) 16) in Hlen. lia.
    + intros j. unfold lookup at 1. cbn. rewrite Hb'. case_decide as Hj.
      * subst j. rewrite bool_decide_true by done. cbn. rewrite rank_below, Hlow, <-rank_below by lia.
        rewrite lookup_app_r, length_take by (rewrite length_take; lia).
        by replace (rank _ i - _)%nat with 0%nat by lia.
      * rewrite bool_decide_false by done. cbn. unfold lookup.
        destruct (Z.testbit (bitmap m) j) eqn:Ej; [|done].
        pose proof (bit_range m j Hwf Ej) as Hj16. pose proof (rank_bound m j Hwf Hj16 Ej) as Hjr.
        rewrite !rank_below in * by lia. destruct (decide (j < i)).
        { rewrite Hlow by lia. pose proof (below_lt (bitmap m) j i ltac:(lia) Ej).
          rewrite lookup_app_l, lookup_take_lt by (rewrite ?length_take; lia). done. }
        rewrite Hhigh by lia. pose proof (below_mono (bitmap m) i j).
        rewrite lookup_app_r, length_take by (rewrite length_take; lia).
        rewrite lookup_cons_ne_0 by lia. rewrite lookup_drop. f_equal. lia.
  - apply not_false_iff_true in Hm. pose proof (rank_bound m i Hwf Hi Hm).
    rewrite bool_decide_true by done. eexists. split; [done|]. split.
    { split; cbn; [done|]. by rewrite length_insert. }
    intros j. unfold lookup at 1. cbn. case_decide as Hj.
    { subst j. rewrite Hm. by apply list_lookup_insert_eq. }
    unfold lookup. destruct (Z.testbit (bitmap m) j) eqn:Ej; [|done].
    apply list_lookup_insert_ne. pose proof (bit_range m j Hwf Ej). rewrite !rank_below by lia.
    pose proof (below_lt (bitmap m) j i). pose proof (below_lt (bitmap m) i j).
    destruct (decide (j < i)); naive_solver lia.
Qed.

Lemma get_mut_ok m i f :
  wf m → 0 ≤ i < 16 →
  match lookup m i with
  | None => get_mut m i f = Ret None
  | Some v => ∃ m', get_mut m i f = Ret (Some m') ∧ wf m' ∧
      ∀ j, lookup m' j = if decide (j = i) then Some (f v) else lookup m j
  end.
Proof.
  intros Hwf Hi. unfold get_mut, assert_then. rewrite bool_decide_true by (unfold CAPACITY; lia). cbn.
  case_decide as Hm; rewrite testbit_mask in Hm by lia; [unfold lookup; by rewrite Hm|].
  apply not_false_iff_true in Hm. destruct (lookup_present m i Hwf Hi Hm) as (v & Hv & Hl).
  rewrite Hl, Hv. cbn. eexists. split; [done|].
  destruct (slots_insert_ok m i (f v) Hwf Hi) as (m' & Hins & Hwf' & Hl'). unfold insert, assert_then in Hins.
  rewrite bool_decide_true in Hins by (unfold CAPACITY; lia). cbn in Hins.
  rewrite decide_False in Hins by (rewrite testbit_mask, Hm by lia; done).
  rewrite bool_decide_true in Hins by (by apply rank_bound). by injection Hins as <-.
Qed.

(** Iteration is by increasing key. *)
Lemma iter_ok m : wf m → iter m = omap (λ i, pair i <$> lookup m i) (seqZ 0 16).
Proof.
  intros Hwf. unfold iter, indices, CAPACITY.
  assert (Hfil : ∀ n, 0 ≤ n ≤ 16 →
    zip (filter (λ i, Z.land (bitmap m) (Z.shiftl 1 i) ≠ 0) (seqZ 0 n)) (take (below (bitmap m) n) (values m)) =
    omap (λ i, pair i <$> lookup m i) (seqZ 0 n) ∧
    length (filter (λ i, Z.land (bitmap m) (Z.shiftl 1 i) ≠ 0) (seqZ 0 n)) = below (bitmap m) n).
  { intros n [Hn1 Hn2]. revert n Hn1 Hn2. apply (natlike_ind (λ n, _ → _)); [done|].
    intros n Hn IH Hn16. unfold Z.succ in *. destruct IH as [IH Hlen]; [lia|].
    rewrite seqZ_snoc, filter_app, omap_app, below_succ by done.
    assert (Hb : Z.land (bitmap m) (Z.shiftl 1 n) ≠ 0 ↔ Z.testbit (bitmap m) n = true).
    { rewrite testbit_mask by done. by destruct (Z.testbit _ _). }
    destruct (Z.testbit (bitmap m) n) eqn:E.
    - rewrite (filter_cons_True _ n) by (by apply Hb).
      destruct (lookup_present m n Hwf ltac:(lia) E) as (v & Hv & Hl). rewrite rank_below in Hv by lia.
      rewrite Nat.add_1_r, (take_S_r _ _ v Hv). split; [|rewrite length_app, Hlen; cbn; lia].
      rewrite zip_with_app, IH; [cbn; by rewrite Hl|].
      rewrite Hlen, length_take. apply lookup_lt_Some in Hv. lia.
    - rewrite (filter_cons_False _ n) by (rewrite Hb; done). rewrite app_nil_r, Nat.add_0_r.
      split; [|done]. rewrite IH. cbn. assert (lookup m n = None) as -> by (unfold lookup; by rewrite E).
      cbn. by rewrite app_nil_r. }
  destruct (Hfil 16 ltac:(lia)) as [<- _]. f_equal. symmetry. apply take_ge.
  by rewrite (wf_values m Hwf).
Qed.

Lemma elem_of_iter m i v : wf m → (i, v) ∈ iter m ↔ lookup m i = Some v.
Proof.
  intros Hwf. rewrite iter_ok, list_elem_of_omap by done. split.
  - intros (j & Hj & Hl). destruct (lookup m j) eqn:E; by simplify_eq/=.
  - intros Hl. exists i. rewrite Hl. split; [|done]. apply elem_of_seqZ.
    apply lookup_Some_inv in Hl; [lia|done].
Qed.

Lemma length_mask_filter b n :
  0 ≤ n → length (filter (λ i, Z.land b (Z.shiftl 1 i) ≠ 0) (seqZ 0 n)) = below b n.
Proof.
  revert n. apply natlike_ind; [done|]. intros n Hn IH. unfold Z.succ.
  rewrite seqZ_snoc, filter_app, length_app, IH, below_succ by done. f_equal.
  pose proof (testbit_mask b n Hn) as Hb. destruct (Z.testbit b n).
  - rewrite filter_cons_True by (by intros ?%Hb). done.
  - rewrite filter_cons_False by (intros Hn'; by apply Hn', Hb). done.
Qed.

(** Two maps with the same entries are equal. *)
Lemma map_ext m1 m2 : wf m1 → wf m2 → (∀ i, lookup m1 i = lookup m2 i) → m1 = m2.
Proof.
  intros H1 H2 Heq.
  assert (Hbit : ∀ i, Z.testbit (bitmap m1) i = Z.testbit (bitmap m2) i).
  { intros i. specialize (Heq i). destruct (Z.testbit (bitmap m1) i) eqn:E1, (Z.testbit (bitmap m2) i) eqn:E2; [done| | |done].
    - destruct (lookup_present m1 i H1) as (v & _ & Hv); [by apply (bit_range m1)|done|].
      rewrite Hv in Heq. unfold lookup in Heq. by rewrite E2 in Heq.
    - destruct (lookup_present m2 i H2) as (v & _ & Hv); [by apply (bit_range m2)|done|].
      rewrite Hv in Heq. unfold lookup in Heq. by rewrite E1 in Heq. }
  assert (Hb : bitmap m1 = bitmap m2) by (apply Z.bits_inj'; intros; apply Hbit).
  assert (Hiter : iter m1 = iter m2) by (rewrite !iter_ok by done; apply list_omap_ext, Forall_Forall2_diag, Forall_true; intros i; by rewrite Heq).
  assert (Hlen : ∀ m, wf m → length (indices (bitmap m)) = length (values m)).
  { intros m Hwf. rewrite (wf_values m Hwf). by apply length_mask_filter. }
  unfold iter in Hiter. apply (f_equal (fmap snd)) in Hiter.
  rewrite !snd_zip in Hiter by (by rewrite Hlen). destruct m1, m2; cbn in *. by subst.
Qed.

Lemma len_one m i v :
  wf m → lookup m i = Some v → (∀ j w, lookup m j = Some w → j = i) → len m = 1%nat.
Proof.
  intros Hwf Hi Hu. unfold len, count_ones.
  assert (Hin : ∀ j, j ∈ filter (λ i, Z.testbit (bitmap m) i = true) (seqZ 0 16) ↔ j = i).
  { intros j. rewrite list_elem_of_filter, elem_of_seqZ. split.
    - intros [Hb Hj]. destruct (lookup_present m j Hwf ltac:(lia) Hb) as (w & _ & Hw). by eapply Hu.
    - intros ->. unfold lookup in Hi. destruct (Z.testbit (bitmap m) i) eqn:E; [|done]. pose proof (bit_range m i Hwf E). split; [done|lia]. }
  assert (Hnd : NoDup (filter (λ i, Z.testbit (bitmap m) i = true) (seqZ 0 16))) by apply NoDup_filter, NoDup_seqZ.
  destruct (filter _ _) as [|a [|b l]]; [exfalso; by apply (not_elem_of_nil i), Hin|done|].
  exfalso. assert (a = i) as -> by (apply Hin; left). assert (b = i) as -> by (apply Hin; right; left).
  apply NoDup_cons in Hnd as [Hn _]. apply Hn. left.
Qed.

Lemma below_above b i n :
  0 ≤ i ≤ n → (∀ j, i ≤ j → Z.testbit b j = false) → below b n = below b i.
Proof.
  intros Hi Hb. replace n with (i + (n - i)) by lia. assert (Hk : 0 ≤ n - i) by lia. revert Hk.
  generalize (n - i). apply (natlike_ind (λ k, below _ (i + k) = _)); [by rewrite Z.add_0_r|].
  intros k Hk IH. replace (i + Z.succ k) with (i + k + 1) by lia. rewrite below_succ, IH, Hb by lia. lia.
Qed.

Lemma last_ok m : wf m →
  match last m with
  | Some (i, v) => lookup m i = Some v ∧ ∀ j, i < j → lookup m j = None
  | None => ∀ j, lookup m j = None
  end.
Proof.
  intros Hwf. unfold last. pose proof Hwf as [[Hb1 Hb2] Hlen]. case_decide as Hz; cbn.
  { intros j. unfold lookup. by rewrite Hz, Z.bits_0. }
  assert (0 ≤ Z.log2 (bitmap m)) by apply Z.log2_nonneg. unfold checked_sub.
  rewrite decide_True by lia. cbn. replace (Z.log2 (bitmap m) + 1 - 1) with (Z.log2 (bitmap m)) by lia.
  assert (Hbit : Z.testbit (bitmap m) (Z.log2 (bitmap m)) = true) by (apply Z.bit_log2; lia).
  pose proof (bit_range m _ Hwf Hbit) as Hr. destruct (lookup_present m _ Hwf Hr Hbit) as (v & Hv & Hl).
  assert (Habove : ∀ j, Z.log2 (bitmap m) + 1 ≤ j → Z.testbit (bitmap m) j = false)
    by (intros; apply Z.bits_above_log2; lia).
  rewrite last_lookup, Hlen. change (count_ones 16 (bitmap m)) with (below (bitmap m) 16).
  rewrite (below_above _ (Z.log2 (bitmap m) + 1)), below_succ, Hbit, Nat.add_1_r by (done || lia).
  cbn [Nat.pred]. rewrite rank_below in Hv by lia. rewrite Hv. cbn. split; [done|].
  intros j Hj. unfold lookup. by rewrite Habove by lia.
Qed.
End small_map.
Arguments t : clear implicits.
End SmallMap.

(** [U256::leading_zeros] of the exclusive or: the first bit, from the most
    significant one, in which two keys differ. *)
Definition find_diverging_bit (lhs rhs : Z) : nat :=
  let diff := Z.lxor lhs rhs in
  Z.to_nat (256 - (if decide (diff = 0) then 0 else Z.log2 diff + 1)).
