(* ===== verification/MerkleTypes.v ===== *)
(** * Data of the persistent Merkle tree

    [lib/merkle_tree/src/types/{mod,internal}.rs]: keys and their nibbles, nodes,
    roots, the manifest, entries and logs, with the operations on them. A key is the
    [U256] it is, a [Z] below [2 ^ 256]; a position of the tree, a sequence of [n]
    nibbles, is read as the [n]-digit number [x] in base 16 that they spell
    ([of_pos n x]), and every operation on [Nibbles] is characterised on positions. *)
From Stdlib Require Import ZifyNat.
From S2P Require Import Prelude SmallMap.
Local Open Scope Z_scope.

Abbreviation Key := Z (only parsing).
Abbreviation ValueHash := Z (only parsing).

Definition KEY_SIZE : nat := 32.
Definition TREE_DEPTH : nat := KEY_SIZE * 8.
Definition HASH_SIZE : nat := 32.

(** [bytes[i]] with [f] applied to it; out of bounds it panics. *)
Definition update_byte (bs : list byte) (i : nat) (f : Z → Z) : exec (list byte) :=
  b ← expect (bs !! i); Ret (<[i := Z_to_byte (f (byte_to_Z b))]> bs).

Module Nibbles.
Record t := mk { nibble_count : nat; bytes : list byte }.

#[global] Instance t_eq_dec : EqDecision t.
Proof. solve_decision. Defined.
#[global] Instance t_countable : Countable t.
Proof.
  refine (inj_countable' (λ n, (nibble_count n, bytes n)) (λ p, mk p.1 p.2) _). by intros [].
Defined.

Definition EMPTY : t := mk 0 (replicate KEY_SIZE x00).

(** The four little-endian [u64] limbs of a [U256]. *)
Definition limb (key : Key) (i : nat) : Z := wrap 64 (Z.shiftr key (64 * Z.of_nat i)).

Definition nibble (key : Key) (index : nat) : exec Z :=
  assert_then (bool_decide (index < 64)%nat)
    (let u64_idx := (3 - index / 16)%nat in
     let shift_in_u64 := ((16 - 1 - index mod 16) * 4)%nat in
     Ret (Z.land (Z.shiftr (limb key u64_idx) (Z.of_nat shift_in_u64)) 0x0f)).

Definition new (key : Key) (nibble_count : nat) : exec t :=
  let bytes := to_be_bytes KEY_SIZE key in
  bytes ← (if decide (nibble_count `mod` 2 = 1)%nat then update_byte bytes (nibble_count / 2) (λ b, Z.land b 0xf0)
           else Ret bytes);
  let meaningful_bytes := ((nibble_count + 1) / 2)%nat in
  Ret (mk nibble_count (imap (λ i b, if decide (meaningful_bytes ≤ i)%nat then x00 else b) bytes)).

Definition from_parts (bytes : list byte) (nibble_count : nat) : t := mk nibble_count bytes.

Definition single (nibble : Z) : exec t :=
  assert_then (bool_decide (nibble < 16))
    (Ret (from_parts (<[0%nat := Z_to_byte (Z.shiftl nibble 4)]> (replicate KEY_SIZE x00)) 1)).

Definition split_last (self : t) : exec (option (t * Z)) :=
  if decide (nibble_count self = 0%nat) then Ret None
  else
    let last_byte_idx := ((nibble_count self - 1) / 2)%nat in
    last_byte ← expect (bytes self !! last_byte_idx);
    let last_byte := byte_to_Z last_byte in
    '(last_nibble, truncated_bytes) ←
      (if decide (nibble_count self `mod` 2 = 1)%nat then
         bs ← update_byte (bytes self) last_byte_idx (λ _, 0); Ret (Z.shiftr last_byte 4, bs)
       else
         bs ← update_byte (bytes self) last_byte_idx (λ b, Z.land b 0xf0); Ret (Z.land last_byte 15, bs));
    Ret (Some (mk (nibble_count self - 1) truncated_bytes, last_nibble)).

Definition push (self : t) (nibble : Z) : exec (option t) :=
  if decide (nibble_count self = KEY_SIZE * 2)%nat then Ret None
  else
    let count := S (nibble_count self) in
    let last_byte_idx := (nibble_count self / 2)%nat in
    bs ← (if decide (count `mod` 2 = 0)%nat then
            update_byte (bytes self) last_byte_idx (λ b, wrap 8 (b + nibble))
          else update_byte (bytes self) last_byte_idx (λ _, wrap 8 (Z.shiftl nibble 4)));
    Ret (Some (mk count bs)).

(** The loop over the bytes, from byte [i], with [fuel] bytes left. *)
Fixpoint common_prefix_from (self other : t) (i fuel : nat) : exec t :=
  match fuel with
  | O => Ret self
  | S fuel =>
      this_byte ← expect (bytes self !! i);
      other_byte ← expect (bytes other !! i);
      if decide (this_byte ≠ other_byte) then
        if decide (Z.land (byte_to_Z this_byte) 0xf0 = Z.land (byte_to_Z other_byte) 0xf0) then
          bs ← update_byte (bytes self) i (λ b, Z.land b 0xf0);
          Ret (mk (i * 2 + 1) (imap (λ j b, if decide (i + 1 ≤ j)%nat then x00 else b) bs))
        else Ret (mk (i * 2) (imap (λ j b, if decide (i ≤ j)%nat then x00 else b) (bytes self)))
      else common_prefix_from self other (S i) fuel
  end.
Definition common_prefix (self other : t) : exec t :=
  common_prefix_from self other 0 ((nibble_count self + 1) / 2).

(** ** Positions *)

(** The first [n] nibbles of a key, as a number. *)
Definition prefix (n : nat) (key : Key) : Z := key / 16 ^ (64 - Z.of_nat n).

Definition of_pos (n : nat) (x : Z) : t := mk n (to_be_bytes KEY_SIZE (x * 16 ^ (64 - Z.of_nat n))).
Definition pos_ok (n : nat) (x : Z) : Prop := (n ≤ 64)%nat ∧ 0 ≤ x < 16 ^ Z.of_nat n.
Definition key_ok (key : Key) : Prop := in_width 256 key.

(** ** Bytes of a position *)
Lemma lookup_to_be_bytes n z i :
  (i < n)%nat → to_be_bytes n z !! i = Some (Z_to_byte (z / 256 ^ (Z.of_nat n - 1 - Z.of_nat i))).
Proof.
  revert z. induction n as [|n IH]; intros z Hi; [lia|]. cbn [to_be_bytes].
  destruct (decide (i = n)) as [->|].
  - rewrite lookup_app_r, length_to_be_bytes, Nat.sub_diag by (by rewrite length_to_be_bytes). cbn.
    replace (Z.of_nat (S n) - 1 - Z.of_nat n) with 0 by lia. by rewrite Z.div_1_r.
  - rewrite lookup_app_l, IH by (rewrite ?length_to_be_bytes; lia). f_equal. f_equal.
    rewrite Z.div_div by lia. f_equal. rewrite <-Z.pow_succ_r by lia. f_equal. lia.
Qed.

#[local] Arguments to_be_bytes : simpl never.

Lemma Z_to_byte_eq a b : a mod 256 = b mod 256 → Z_to_byte a = Z_to_byte b.
Proof. intros Heq. unfold Z_to_byte, wrap. change (2 ^ 8) with 256. by rewrite Heq. Qed.

Lemma byte_of a : byte_to_Z (Z_to_byte a) = a mod 256.
Proof. apply Z_to_byte_to_Z. Qed.

Lemma land_f0 b : Z.land (byte_to_Z b) 0xf0 = byte_to_Z b / 16 * 16.
Proof. by destruct b. Qed.

Lemma byte_place i : (i < 32)%nat → 256 ^ (Z.of_nat 32 - 1 - Z.of_nat i) = 16 ^ (62 - 2 * Z.of_nat i).
Proof. intros. change 256 with (16 ^ 2). rewrite <-Z.pow_mul_r by lia. f_equal. lia. Qed.

Lemma div_mul_low z a b : 0 ≤ a ≤ b → z / 16 ^ a * 16 ^ a / 16 ^ b = z / 16 ^ b.
Proof.
  intros. replace b with (a + (b - a)) by lia. rewrite Z.pow_add_r, <-Z.div_div by lia.
  rewrite Z.div_mul, <-!Z.div_div by lia. done.
Qed.

Lemma div_mul_high q a b : 0 ≤ a ≤ b → q * 16 ^ b / 16 ^ a = q * 16 ^ (b - a).
Proof.
  intros. replace b with (b - a + a) at 1 by lia. rewrite Z.pow_add_r, Z.mul_assoc, Z.div_mul by lia. done.
Qed.

Lemma lookup_of_pos n x i :
  (i < 32)%nat →
  bytes (of_pos n x) !! i = Some (Z_to_byte (x * 16 ^ (64 - Z.of_nat n) / 16 ^ (62 - 2 * Z.of_nat i))).
Proof. intros. unfold of_pos, bytes. by rewrite lookup_to_be_bytes, byte_place by (unfold KEY_SIZE; lia). Qed.

Lemma length_bytes_of_pos n x : length (bytes (of_pos n x)) = 32%nat.
Proof. apply length_to_be_bytes. Qed.

(** The bytes of a position: whole bytes, the half byte, zeros. *)
Lemma of_pos_byte_zero n x i : (n ≤ 64)%nat → (n ≤ 2 * i < 64)%nat → bytes (of_pos n x) !! i = Some x00.
Proof.
  intros. rewrite lookup_of_pos, div_mul_high by lia. f_equal. apply (Z_to_byte_eq _ 0).
  replace (64 - Z.of_nat n - (62 - 2 * Z.of_nat i)) with (2 * Z.of_nat i - Z.of_nat n + 2) by lia.
  rewrite Z.pow_add_r, Z.mul_assoc by lia. change (16 ^ 2) with 256. apply Z.mod_mul. lia.
Qed.

Lemma of_pos_byte_full n x i :
  (n ≤ 64)%nat → (2 * i + 2 ≤ n)%nat →
  bytes (of_pos n x) !! i = Some (Z_to_byte (x / 16 ^ (Z.of_nat n - 2 - 2 * Z.of_nat i))).
Proof.
  intros. rewrite lookup_of_pos by lia. f_equal. f_equal.
  replace (62 - 2 * Z.of_nat i) with (64 - Z.of_nat n + (Z.of_nat n - 2 - 2 * Z.of_nat i)) by lia.
  rewrite Z.pow_add_r, <-Z.div_div, Z.div_mul by lia. done.
Qed.

Lemma of_pos_byte_half n x i :
  (n ≤ 64)%nat → n = (2 * i + 1)%nat → bytes (of_pos n x) !! i = Some (Z_to_byte (x * 16)).
Proof.
  intros. rewrite lookup_of_pos, div_mul_high by lia. f_equal. f_equal. f_equal.
  by replace (64 - Z.of_nat n - (62 - 2 * Z.of_nat i)) with 1 by lia.
Qed.

Lemma bytes_ext n x bs :
  length bs = 32%nat → (∀ i, (i < 32)%nat → bs !! i = bytes (of_pos n x) !! i) → mk n bs = of_pos n x.
Proof.
  intros Hlen Heq. unfold of_pos. f_equal. apply list_eq. intros i. destruct (decide (i < 32)%nat); [by apply Heq|].
  rewrite !lookup_ge_None_2; [done| |]; rewrite ?length_to_be_bytes; unfold KEY_SIZE; lia.
Qed.

Lemma new_ok key n : (n ≤ 64)%nat → new key n = Ret (of_pos n (prefix n key)).
Proof.
  intros Hn. unfold new, update_byte.
  assert (Hkey : ∀ i, (i < 32)%nat → to_be_bytes KEY_SIZE key !! i = Some (Z_to_byte (key / 16 ^ (62 - 2 * Z.of_nat i))))
    by (intros; by rewrite lookup_to_be_bytes, byte_place by (unfold KEY_SIZE; lia)).
  assert (Hfull : ∀ i, (i < 32)%nat → (2 * i + 2 ≤ n)%nat →
    bytes (of_pos n (prefix n key)) !! i = Some (Z_to_byte (key / 16 ^ (62 - 2 * Z.of_nat i)))).
  { intros i Hi Hin. rewrite lookup_of_pos by done. unfold prefix. by rewrite div_mul_low by lia. }
  destruct (decide _) as [Hodd|Heven].
  - rewrite Hkey by lia. cbn [expect mbind exec_bind]. f_equal. apply bytes_ext.
    { by rewrite length_imap, length_insert, length_to_be_bytes. }
    intros i Hi. rewrite list_lookup_imap. destruct (decide (i = n / 2)%nat) as [->|].
    + rewrite list_lookup_insert_eq by (rewrite length_to_be_bytes; unfold KEY_SIZE; lia). cbn [fmap option_fmap option_map].
      rewrite decide_False, lookup_of_pos by lia. f_equal. apply Z_to_byte_eq. rewrite land_f0, byte_of.
      unfold prefix. replace (64 - Z.of_nat n) with (62 - 2 * Z.of_nat (n / 2) + 1) by lia.
      rewrite div_mul_high, Z.pow_add_r, <-Z.div_div by lia.
      replace (_ - (62 - _)) with 1 by lia. change (16 ^ 1) with 16. set (k := key / _). lia.
    + rewrite list_lookup_insert_ne, Hkey by done. cbn [fmap option_fmap option_map]. case_decide.
      * by rewrite of_pos_byte_zero by lia.
      * by rewrite Hfull by lia.
  - cbn [mbind exec_bind]. f_equal. apply bytes_ext; [by rewrite length_imap, length_to_be_bytes|].
    intros i Hi. rewrite list_lookup_imap, Hkey by done. cbn [fmap option_fmap option_map]. case_decide.
    + by rewrite of_pos_byte_zero by lia.
    + by rewrite Hfull by lia.
Qed.

Lemma nibble_ok key i : (i < 64)%nat → nibble key i = Ret (prefix (S i) key mod 16).
Proof.
  intros Hi. unfold nibble, assert_then. rewrite bool_decide_true by done. f_equal.
  unfold limb, wrap, prefix. rewrite <-Z.land_ones by lia. change 0x0f with (Z.ones 4).
  change 16 with (2 ^ 4). rewrite <-(Z.land_ones _ 4), <-Z.pow_mul_r, <-Z.shiftr_div_pow2 by lia.
  apply Z.bits_inj'. intros j Hj. rewrite !Z.land_spec, !Z.shiftr_spec, Z.land_spec by lia.
  rewrite !Z.testbit_ones_nonneg, Z.shiftr_spec by lia.
  destruct (Z.ltb_spec j 4); [|by rewrite !andb_false_r].
  rewrite (proj2 (Z.ltb_lt _ _)), !andb_true_r by lia. f_equal. lia.
Qed.

Lemma split_last_zero x : split_last (of_pos 0 x) = Ret None.
Proof. done. Qed.

Lemma split_last_ok n x :
  (S n ≤ 64)%nat → split_last (of_pos (S n) x) = Ret (Some (of_pos n (x / 16), x mod 16)).
Proof.
  intros Hn. unfold split_last, update_byte. cbn [nibble_count of_pos]. rewrite decide_False by done.
  replace (S n - 1)%nat with n by lia. fold (of_pos (S n) x).
  assert (Hlow : ∀ j, (2 * j + 2 ≤ n)%nat → bytes (of_pos (S n) x) !! j = bytes (of_pos n (x / 16)) !! j).
  { intros j Hj. rewrite !of_pos_byte_full by lia. f_equal. f_equal.
    replace (Z.of_nat (S n) - 2 - 2 * Z.of_nat j) with (1 + (Z.of_nat n - 2 - 2 * Z.of_nat j)) by lia.
    rewrite Z.pow_add_r, <-Z.div_div by lia. done. }
  destruct (decide (S n `mod` 2 = 1)%nat) as [Hodd|Heven].
  - rewrite (of_pos_byte_half (S n) x (n / 2)) by lia. cbn [expect mbind exec_bind].
    rewrite byte_of. do 3 f_equal; [|rewrite Z.shiftr_div_pow2 by lia; change (2 ^ 4) with 16; lia].
    apply bytes_ext; [by rewrite length_insert, length_bytes_of_pos|]. intros j Hj.
    destruct (decide (j = n / 2)%nat) as [->|].
    + rewrite list_lookup_insert_eq, of_pos_byte_zero by (rewrite ?length_bytes_of_pos; lia). done.
    + rewrite list_lookup_insert_ne by done. destruct (decide (2 * j + 2 ≤ n)%nat); [by apply Hlow|].
      by rewrite !of_pos_byte_zero by lia.
  - rewrite (of_pos_byte_full (S n) x (n / 2)) by lia. cbn [expect mbind exec_bind].
    replace (_ - 2 - _) with 0 by lia. rewrite Z.pow_0_r, Z.div_1_r, byte_of.
    do 3 f_equal; [|change 15 with (Z.ones 4); rewrite Z.land_ones by lia; change (2 ^ 4) with 16; lia].
    apply bytes_ext; [by rewrite length_insert, length_bytes_of_pos|]. intros j Hj.
    destruct (decide (j = n / 2)%nat) as [->|].
    + rewrite list_lookup_insert_eq, of_pos_byte_half by (rewrite ?length_bytes_of_pos; lia).
      f_equal. apply Z_to_byte_eq. rewrite <-(byte_of x), land_f0, byte_of. lia.
    + rewrite list_lookup_insert_ne by done. destruct (decide (2 * j + 2 ≤ n)%nat); [by apply Hlow|].
      by rewrite !of_pos_byte_zero by lia.
Qed.

Lemma push_ok n x d :
  (n < 64)%nat → 0 ≤ d < 16 → push (of_pos n x) d = Ret (Some (of_pos (S n) (16 * x + d))).
Proof.
  intros Hn Hd. unfold push, update_byte. cbn [nibble_count of_pos].
  rewrite decide_False by (unfold KEY_SIZE; lia). fold (of_pos n x).
  assert (Hlow : ∀ j, (2 * j + 2 ≤ n)%nat → bytes (of_pos n x) !! j = bytes (of_pos (S n) (16 * x + d)) !! j).
  { intros j Hj. rewrite !of_pos_byte_full by lia. f_equal. f_equal.
    replace (Z.of_nat (S n) - 2 - 2 * Z.of_nat j) with (1 + (Z.of_nat n - 2 - 2 * Z.of_nat j)) by lia.
    rewrite Z.pow_add_r, <-Z.div_div by lia. f_equal. lia. }
  destruct (decide (S n `mod` 2 = 0)%nat) as [Heven|Hodd].
  - rewrite (of_pos_byte_half n x (n / 2)) by lia. cbn [expect mbind exec_bind]. do 2 f_equal.
    apply bytes_ext; [by rewrite length_insert, length_bytes_of_pos|]. intros j Hj.
    destruct (decide (j = n / 2)%nat) as [->|].
    + rewrite list_lookup_insert_eq, of_pos_byte_full by (rewrite ?length_bytes_of_pos; lia).
      f_equal. apply Z_to_byte_eq. rewrite byte_of. replace (_ - 2 - _) with 0 by lia.
      rewrite Z.pow_0_r. unfold wrap. change (2 ^ 8) with 256. lia.
    + rewrite list_lookup_insert_ne by done. destruct (decide (2 * j + 2 ≤ n)%nat); [by apply Hlow|].
      by rewrite !of_pos_byte_zero by lia.
  - rewrite (of_pos_byte_zero n x (n / 2)) by lia. cbn [expect mbind exec_bind]. do 2 f_equal.
    apply bytes_ext; [by rewrite length_insert, length_bytes_of_pos|]. intros j Hj.
    destruct (decide (j = n / 2)%nat) as [->|].
    + rewrite list_lookup_insert_eq, of_pos_byte_half by (rewrite ?length_bytes_of_pos; lia).
      f_equal. apply Z_to_byte_eq. unfold wrap. rewrite Z.shiftl_mul_pow2 by lia.
      change (2 ^ 8) with 256. change (2 ^ 4) with 16. lia.
    + rewrite list_lookup_insert_ne by done. destruct (decide (2 * j + 2 ≤ n)%nat); [by apply Hlow|].
      by rewrite !of_pos_byte_zero by lia.
Qed.

Lemma single_ok d : 0 ≤ d < 16 → single d = Ret (of_pos 1 d).
Proof.
  intros Hd. unfold single, assert_then. rewrite bool_decide_true by lia. f_equal.
  apply bytes_ext; [by rewrite length_insert|]. intros [|i] Hi.
  - rewrite (of_pos_byte_half 1 d 0) by lia. cbn. by rewrite Z.shiftl_mul_pow2 by lia.
  - rewrite of_pos_byte_zero by lia. cbn. change (replicate 31 x00 !! i = Some x00).
    by rewrite lookup_replicate_2 by lia.
Qed.

Lemma empty_ok : EMPTY = of_pos 0 0.
Proof. by apply bytes_ext. Qed.

Lemma pos_size n x : pos_ok n x → 0 ≤ x * 16 ^ (64 - Z.of_nat n) < 256 ^ Z.of_nat KEY_SIZE.
Proof.
  intros [Hn Hx]. change (256 ^ Z.of_nat KEY_SIZE) with (16 ^ 64).
  assert (16 ^ 64 = 16 ^ Z.of_nat n * 16 ^ (64 - Z.of_nat n)) as -> by (rewrite <-Z.pow_add_r by lia; f_equal; lia).
  assert (0 < 16 ^ (64 - Z.of_nat n)) by (apply Z.pow_pos_nonneg; lia). nia.
Qed.

Lemma of_pos_inj n x y : pos_ok n x → pos_ok n y → bytes (of_pos n x) = bytes (of_pos n y) → x = y.
Proof.
  intros Hx Hy Heq. apply (f_equal from_be_bytes) in Heq. unfold of_pos, bytes in Heq.
  rewrite !from_to_be_bytes in Heq by (by apply pos_size). destruct Hx.
  apply Z.mul_reg_r in Heq; [done|]. apply Z.pow_nonzero; lia.
Qed.

(** ** Prefixes of keys *)
Lemma prefix_ok key n : key_ok key → (n ≤ 64)%nat → pos_ok n (prefix n key).
Proof.
  intros [Hk1 Hk2] Hn. split; [done|]. unfold prefix.
  split; [apply Z.div_pos; [lia|]; apply Z.pow_pos_nonneg; lia|].
  apply Z.div_lt_upper_bound; [apply Z.pow_pos_nonneg; lia|]. rewrite <-Z.pow_add_r by lia.
  replace (64 - Z.of_nat n + Z.of_nat n) with 64 by lia. done.
Qed.

Lemma prefix_0 key : key_ok key → prefix 0 key = 0.
Proof. intros [Hk1 Hk2]. apply Z.div_small. split; [done|]. exact Hk2. Qed.

Lemma prefix_64 key : prefix 64 key = key.
Proof. apply Z.div_1_r. Qed.

Lemma prefix_le key m n :
  (m ≤ n ≤ 64)%nat → prefix m key = prefix n key / 16 ^ (Z.of_nat n - Z.of_nat m).
Proof.
  intros Hmn. unfold prefix. rewrite Z.div_div by (apply Z.pow_nonzero || apply Z.pow_pos_nonneg; lia).
  rewrite <-Z.pow_add_r by lia. do 2 f_equal. lia.
Qed.

Lemma prefix_S key n : (n < 64)%nat → prefix n key = prefix (S n) key / 16.
Proof. intros. rewrite (prefix_le key n (S n)) by lia. f_equal. by replace (_ - _) with 1 by lia. Qed.

Lemma prefix_digit key n :
  (n < 64)%nat → prefix (S n) key = 16 * prefix n key + prefix (S n) key mod 16.
Proof. intros. rewrite (prefix_S key n) by done. lia. Qed.

Lemma pos_ok_div n x : pos_ok (S n) x → pos_ok n (x / 16).
Proof.
  intros [Hn Hx]. split; [lia|]. rewrite Nat2Z.inj_succ, Z.pow_succ_r in Hx by lia. lia.
Qed.

Lemma pos_ok_child n x d : (n < 64)%nat → pos_ok n x → 0 ≤ d < 16 → pos_ok (S n) (16 * x + d).
Proof.
  intros Hn [_ Hx] Hd. split; [lia|]. rewrite Nat2Z.inj_succ, Z.pow_succ_r by lia. lia.
Qed.
End Nibbles.

(** ** Node keys *)
Module NodeKey.
Record t := mk { version : Z; nibbles : Nibbles.t }.

#[global] Instance t_eq_dec : EqDecision t.
Proof. solve_decision. Defined.
#[global] Instance t_countable : Countable t.
Proof.
  refine (inj_countable' (λ k, (version k, nibbles k)) (λ p, mk p.1 p.2) _). by intros [].
Defined.

Definition empty (version : Z) : t := mk version Nibbles.EMPTY.
Definition is_empty (self : t) : bool := bool_decide (Nibbles.nibble_count (nibbles self) = 0%nat).

(** Slicing beyond the array panics; a [nibble_count] of at most 64 does not. *)
Definition to_db_key (self : t) : exec (list byte) :=
  let nibbles_byte_len := ((Nibbles.nibble_count (nibbles self) + 1) / 2)%nat in
  assert_then (bool_decide (nibbles_byte_len ≤ length (Nibbles.bytes (nibbles self)))%nat)
    (Ret (to_be_bytes 8 (version self) ++
          [Z_to_byte (Z.of_nat (Nibbles.nibble_count (nibbles self)))] ++
          take nibbles_byte_len (Nibbles.bytes (nibbles self)))).

Definition from_db_key (bytes : list byte) : exec t :=
  assert_then (bool_decide (9 ≤ length bytes)%nat)
    (let version := from_be_bytes (take 8 bytes) in
     count ← expect (bytes !! 8%nat);
     let nibble_count := Z.to_nat (byte_to_Z count) in
     assert_then (bool_decide (nibble_count ≤ 2 * KEY_SIZE)%nat)
       (let nibbles_byte_len := ((nibble_count + 1) / 2)%nat in
        assert_then (bool_decide (nibbles_byte_len = length bytes - 9)%nat)
          (Ret (mk version (Nibbles.from_parts
                  (drop 9 bytes ++ replicate (KEY_SIZE - nibbles_byte_len) x00) nibble_count))))).

Lemma length_of_pos_prefix n x :
  (n ≤ 64)%nat → length (take ((n + 1) / 2) (Nibbles.bytes (Nibbles.of_pos n x))) = ((n + 1) / 2)%nat.
Proof. intros. rewrite length_take, Nibbles.length_bytes_of_pos. lia. Qed.

Lemma db_key_roundtrip_pos v n x :
  in_width 64 v → Nibbles.pos_ok n x →
  (k ← to_db_key (mk v (Nibbles.of_pos n x)); from_db_key k) = Ret (mk v (Nibbles.of_pos n x)).
Proof.
  intros Hv [Hn Hx]. unfold to_db_key. cbn [nibbles Nibbles.of_pos Nibbles.nibble_count version].
  fold (Nibbles.of_pos n x). unfold assert_then at 1.
  rewrite bool_decide_true by (rewrite Nibbles.length_bytes_of_pos; lia). cbn [mbind exec_bind].
  unfold from_db_key, assert_then.
  assert (Hlen := length_of_pos_prefix n x Hn).
  rewrite bool_decide_true by (rewrite !length_app, length_to_be_bytes; cbn [length]; lia).
  rewrite lookup_app_r, length_to_be_bytes by (by rewrite length_to_be_bytes). cbn [lookup list_lookup app Nat.sub expect mbind exec_bind].
  rewrite Z_to_byte_to_Z, wrap_small by (unfold in_width; lia). rewrite Nat2Z.id.
  rewrite bool_decide_true by (unfold KEY_SIZE; lia).
  rewrite bool_decide_true by (rewrite length_app, length_to_be_bytes; cbn [length]; lia).
  rewrite take_app_length' by (by rewrite length_to_be_bytes). rewrite from_to_be_bytes by exact Hv.
  do 2 f_equal. apply Nibbles.bytes_ext.
  - rewrite length_app, length_drop, length_app, length_to_be_bytes, length_replicate. cbn [length]. unfold KEY_SIZE. lia.
  - intros i Hi. change (_ :: ?l) with ([Z_to_byte (Z.of_nat n)] ++ l). rewrite app_assoc.
    rewrite drop_app_length' by (rewrite length_app, length_to_be_bytes; done).
    destruct (decide (i < (n + 1) / 2)%nat).
    + by rewrite lookup_app_l, lookup_take_lt by (rewrite ?Hlen; lia).
    + rewrite lookup_app_r, lookup_replicate_2 by (rewrite ?Hlen; unfold KEY_SIZE; lia).
      by rewrite Nibbles.of_pos_byte_zero by lia.
Qed.
End NodeKey.

Definition with_version (self : Nibbles.t) (version : Z) : NodeKey.t := NodeKey.mk version self.

(** ** Entries and logs *)
Module TreeEntry.
Record t := mk { key : Key; value : ValueHash; leaf_index : Z }.
Definition new (key : Key) (leaf_index : Z) (value : ValueHash) : t := mk key value leaf_index.
Definition empty (key : Key) : t := mk key 0 0.
Definition is_empty (self : t) : bool := bool_decide (leaf_index self = 0) && bool_decide (value self = 0).
Definition with_value (self : t) (value : ValueHash) : t := mk (key self) value (leaf_index self).
End TreeEntry.

Module TreeEntryWithProof.
Record t := mk { base : TreeEntry.t; merkle_path : list ValueHash }.
End TreeEntryWithProof.
Definition with_merkle_path (self : TreeEntry.t) (merkle_path : list ValueHash) : TreeEntryWithProof.t :=
  TreeEntryWithProof.mk self merkle_path.

Module TreeInstruction.
Inductive t := Read (key : Key) | Write (entry : TreeEntry.t).
Definition write (key : Key) (leaf_index : Z) (value : ValueHash) : t := Write (TreeEntry.new key leaf_index value).
Definition key (self : t) : Key :=
  match self with Read key => key | Write entry => TreeEntry.key entry end.
End TreeInstruction.

Module TreeLogEntry.
Inductive t :=
| Inserted
| Updated (leaf_index : Z) (previous_value : ValueHash)
| Read (leaf_index : Z) (value : ValueHash)
| ReadMissingKey.
Definition update (leaf_index : Z) (previous_value : ValueHash) : t := Updated leaf_index previous_value.
Definition read (leaf_index : Z) (value : ValueHash) : t := Read leaf_index value.
Definition is_read (self : t) : bool :=
  match self with Read _ _ | ReadMissingKey => true | _ => false end.
End TreeLogEntry.

Module TreeLogEntryWithProof.
Record t (P : Type) := mk { base : TreeLogEntry.t; merkle_path : P; root_hash : ValueHash }.
Arguments mk {P} _ _ _.
Arguments base {P} _.
Arguments merkle_path {P} _.
Arguments root_hash {P} _.
End TreeLogEntryWithProof.

Module BlockOutput.
Record t := mk { root_hash : ValueHash; leaf_count : Z; logs : list TreeLogEntry.t }.
End BlockOutput.

Module BlockOutputWithProofs.
Record t := mk { logs : list (TreeLogEntryWithProof.t (list ValueHash)); leaf_count : Z }.
Definition root_hash (self : t) : option ValueHash := TreeLogEntryWithProof.root_hash <$> last (logs self).
End BlockOutputWithProofs.

(** ** Nodes *)
Module LeafNode.
Record t := mk { full_key : Key; value_hash : ValueHash; leaf_index : Z }.
Definition new (entry : TreeEntry.t) : t :=
  mk (TreeEntry.key entry) (TreeEntry.value entry) (TreeEntry.leaf_index entry).
Definition update_from (self : t) (entry : TreeEntry.t) : t :=
  mk (full_key self) (TreeEntry.value entry) (TreeEntry.leaf_index entry).
End LeafNode.

(** [impl From<LeafNode> for TreeEntry] *)
Definition entry_of_leaf (leaf : LeafNode.t) : TreeEntry.t :=
  TreeEntry.mk (LeafNode.full_key leaf) (LeafNode.value_hash leaf) (LeafNode.leaf_index leaf).

Module ChildRef.
Record t := mk { hash : ValueHash; version : Z; is_leaf : bool }.
Definition leaf (version : Z) : t := mk 0 version true.
Definition internal (version : Z) : t := mk 0 version false.
Definition with_hash (self : t) (hash : ValueHash) : t := mk hash (version self) (is_leaf self).
Definition with_version (self : t) (version : Z) : t := mk (hash self) version (is_leaf self).
Definition with_is_leaf (self : t) (is_leaf : bool) : t := mk (hash self) (version self) is_leaf.
End ChildRef.

(** The hashes of the three levels between a node and its children; see
    [hasher/nodes.rs]. *)
Module InternalNodeCache.
Record t := mk { level1 : list (option ValueHash); level2 : list (option ValueHash); level3 : list (option ValueHash) }.
Definition default : t := mk (replicate 2 None) (replicate 4 None) (replicate 8 None).
End InternalNodeCache.

Module InternalNode.
Record t := mk { children : SmallMap.t ChildRef.t; cache : option InternalNodeCache.t }.

Definition default : t := mk SmallMap.default None.
Definition clone (self : t) : t := mk (children self) None.
Definition CHILD_COUNT : nat := 16.
Definition with_capacity (capacity : nat) : exec t :=
  children ← SmallMap.with_capacity capacity; Ret (mk children None).
Definition child_count (self : t) : nat := SmallMap.len (children self).
Definition set_cache (self : t) (cache : InternalNodeCache.t) : t :=
  mk (children self) (Some (match InternalNode.cache self with Some c => c | None => cache end)).
Definition child_refs (self : t) : list ChildRef.t := SmallMap.values (children self).
Definition last_child_ref (self : t) : exec (Z * ChildRef.t) := expect (SmallMap.last (children self)).
Definition child_hashes (self : t) : list (option ValueHash) :=
  foldl (λ hashes '(nibble, child_ref), <[Z.to_nat nibble := Some (ChildRef.hash child_ref)]> hashes)
    (replicate CHILD_COUNT None) (SmallMap.iter (children self)).
Definition child_ref (self : t) (nibble : Z) : exec (option ChildRef.t) := SmallMap.get (children self) nibble.
Definition child_ref_mut (self : t) (nibble : Z) (f : ChildRef.t → ChildRef.t) : exec (option t) :=
  children ← SmallMap.get_mut (children self) nibble f;
  Ret (c ← children; Some (mk c (cache self))).
Definition insert_child_ref (self : t) (nibble : Z) (child_ref : ChildRef.t) : exec t :=
  children ← SmallMap.insert (children self) nibble child_ref; Ret (mk children (cache self)).

(** *** The children as a partial function *)
Definition refs (self : t) (d : Z) : option ChildRef.t := SmallMap.lookup (children self) d.
Definition wf (self : t) : Prop := SmallMap.wf (children self).

Lemma wf_default : wf default.
Proof. apply SmallMap.slots_wf_default. Qed.

Lemma refs_default d : refs default d = None.
Proof. apply SmallMap.lookup_default. Qed.

Lemma refs_range self d r : wf self → refs self d = Some r → 0 ≤ d < 16.
Proof. apply SmallMap.lookup_Some_inv. Qed.

Lemma child_ref_ok self d : wf self → 0 ≤ d < 16 → child_ref self d = Ret (refs self d).
Proof. apply SmallMap.get_ok. Qed.

Lemma insert_child_ref_ok self d r :
  wf self → 0 ≤ d < 16 →
  ∃ self', insert_child_ref self d r = Ret self' ∧ wf self' ∧ cache self' = cache self ∧
    ∀ j, refs self' j = if decide (j = d) then Some r else refs self j.
Proof.
  intros Hwf Hd. unfold insert_child_ref.
  destruct (SmallMap.slots_insert_ok (children self) d r Hwf Hd) as (m & -> & Hwf' & Hl). cbn. by eexists.
Qed.

Lemma child_ref_mut_ok self d f :
  wf self → 0 ≤ d < 16 →
  match refs self d with
  | None => child_ref_mut self d f = Ret None
  | Some r => ∃ self', child_ref_mut self d f = Ret (Some self') ∧ wf self' ∧ cache self' = cache self ∧
      ∀ j, refs self' j = if decide (j = d) then Some (f r) else refs self j
  end.
Proof.
  intros Hwf Hd. unfold child_ref_mut, refs. pose proof (SmallMap.get_mut_ok (children self) d f Hwf Hd) as Hm.
  destruct (SmallMap.lookup (children self) d) as [r|].
  - destruct Hm as (m & -> & Hwf' & Hl). cbn. by eexists.
  - by rewrite Hm.
Qed.

Lemma elem_of_children self d r : wf self → (d, r) ∈ SmallMap.iter (children self) ↔ refs self d = Some r.
Proof. apply SmallMap.elem_of_iter. Qed.

Lemma child_hashes_ok self i :
  wf self → (i < 16)%nat → child_hashes self !! i = Some (ChildRef.hash <$> refs self (Z.of_nat i)).
Proof.
  intros Hwf Hi. unfold child_hashes, refs. rewrite SmallMap.iter_ok by done.
  assert (Hfold : ∀ n, 0 ≤ n ≤ 16 →
    let hs := foldl (λ hashes '(nibble, child_ref), <[Z.to_nat nibble := Some (ChildRef.hash child_ref)]> hashes)
      (replicate CHILD_COUNT None) (omap (λ i, pair i <$> SmallMap.lookup (children self) i) (seqZ 0 n)) in
    length hs = 16%nat ∧ ∀ j, (j < 16)%nat →
      hs !! j = Some (if decide (Z.of_nat j < n) then ChildRef.hash <$> SmallMap.lookup (children self) (Z.of_nat j) else None)).
  { intros n [Hn1 Hn2]. revert n Hn1 Hn2. apply (natlike_ind (λ n, _ → _)).
    - intros _. split; [done|]. intros j Hj. rewrite decide_False by lia.
      change (replicate 16 (@None Z) !! j = Some None). by apply lookup_replicate_2.
    - intros n Hn IH Hn16. unfold Z.succ in *. destruct IH as [Hlen IH]; [lia|].
      rewrite SmallMap.seqZ_snoc, omap_app, foldl_app by done. cbn zeta.
      set (hs := foldl _ _ (omap _ (seqZ 0 n))) in *. cbn [omap list_omap].
      destruct (SmallMap.lookup (children self) n) as [r|] eqn:E; cbn.
      + split; [by rewrite length_insert|]. intros j Hj. destruct (decide (Z.of_nat j = n)) as [<-|].
        * rewrite Nat2Z.id, list_lookup_insert_eq, decide_True, E by lia. done.
        * rewrite list_lookup_insert_ne, IH by lia. f_equal. by repeat case_decide; try lia.
      + split; [done|]. intros j Hj. rewrite IH by done. f_equal.
        destruct (decide (Z.of_nat j = n)) as [<-|]; [rewrite decide_False, decide_True, E by lia; done|].
        by repeat case_decide; try lia. }
  destruct (Hfold 16 ltac:(lia)) as [_ Hl]. rewrite Hl by done. by rewrite decide_True by lia.
Qed.
End InternalNode.

Module Node.
Inductive t := Internal (node : InternalNode.t) | Leaf (leaf : LeafNode.t).
Definition is_leaf (self : t) : bool := match self with Leaf _ => true | Internal _ => false end.
(** [#[derive(Clone)]], through [InternalNode]'s. *)
Definition clone (self : t) : t :=
  match self with Internal node => Internal (InternalNode.clone node) | Leaf leaf => Leaf leaf end.
End Node.

(** [leaf_count] is a [NonZeroU64]. *)
Module Root.
Inductive t := Empty | Filled (leaf_count : Z) (node : Node.t).
Definition new (leaf_count : Z) (node : Node.t) : exec t :=
  if decide (leaf_count = 0) then Panic else Ret (Filled leaf_count node).
Definition leaf_count (self : t) : Z := match self with Empty => 0 | Filled leaf_count _ => leaf_count end.
Definition clone (self : t) : t :=
  match self with Empty => Empty | Filled leaf_count node => Filled leaf_count (Node.clone node) end.
End Root.

(** ** The manifest; strings are their UTF-8 bytes *)
Module TreeTags.
Record t := mk {
  architecture : list byte;
  depth : Z;
  hasher : list byte;
  is_recovering : bool;
  custom : gmap (list byte) (list byte);
}.
Definition ARCHITECTURE : list byte := bytes "AR16MT".
Definition new (hasher_name : list byte) : t := mk ARCHITECTURE (Z.of_nat TREE_DEPTH) hasher_name false ∅.

(** The messages of [ensure!], by the field they are about. *)
Inductive Inconsistency := UnsupportedArchitecture | UnexpectedDepth | HasherMismatch | NotRecovering | BeingRecovered.
Definition ensure_consistency (self : t) (hasher_name : list byte) (expecting_recovery : bool)
    : Inconsistency + unit :=
  if decide (architecture self ≠ ARCHITECTURE) then inl UnsupportedArchitecture
  else if decide (depth self ≠ Z.of_nat TREE_DEPTH) then inl UnexpectedDepth
  else if decide (hasher_name ≠ hasher self) then inl HasherMismatch
  else if expecting_recovery then if is_recovering self then inr () else inl NotRecovering
  else if is_recovering self then inl BeingRecovered else inr ().
End TreeTags.

Module Manifest.
Record t := mk { version_count : Z; tags : option TreeTags.t }.
Definition default : t := mk 0 None.
Definition recovered_version (self : t) : option Z :=
  tags ← tags self;
  if TreeTags.is_recovering tags then checked_sub (version_count self) 1 else None.
End Manifest.

(** ** Errors, [errors.rs]; [leb128::read::Error] and the parsers' errors without their payload *)
Inductive DeserializeErrorKind :=
| UnexpectedEof
| Leb128
| Utf8
| EmptyInternalNode
| InvalidChildKind
| MissingTag (name : list byte)
| UnknownTag (name : list byte)
| MalformedTag (name : list byte).

Inductive ErrorContext :=
| CtxManifest
| CtxRoot (version : Z)
| CtxLeaf (key : NodeKey.t)
| CtxInternalNode (key : NodeKey.t)
| CtxChildRefHash
| CtxChildrenMask
| CtxLeafCount
| CtxLeafIndex
| CtxVersion.

Module DeserializeError.
Record t := mk { kind : DeserializeErrorKind; contexts : list ErrorContext }.
Definition from (kind : DeserializeErrorKind) : t := mk kind [].
Definition with_context (self : t) (context : ErrorContext) : t := mk (kind self) (contexts self ++ [context]).
End DeserializeError.
(** [DeserializeErrorKind::with_context] *)
Definition kind_with_context (self : DeserializeErrorKind) (context : ErrorContext) : DeserializeError.t :=
  DeserializeError.mk self [context].

Module NoVersionError.
Record t := mk { missing_version : Z; version_count : Z }.
End NoVersionError.

(** ** Data that fits its encoding

    The ranges of the integer types, and the shape that a root must have to be read
    back from its encoding: the number of leaves says which kind of node it is. *)
Definition key_storable (key : NodeKey.t) : Prop :=
  in_width 64 (NodeKey.version key) ∧
  ∃ n x, Nibbles.pos_ok n x ∧ NodeKey.nibbles key = Nibbles.of_pos n x.
Definition leaf_storable (leaf : LeafNode.t) : Prop :=
  Nibbles.key_ok (LeafNode.full_key leaf) ∧ in_width 256 (LeafNode.value_hash leaf) ∧ in_width 64 (LeafNode.leaf_index leaf).
Definition ref_storable (r : ChildRef.t) : Prop := in_width 256 (ChildRef.hash r) ∧ in_width 64 (ChildRef.version r).
Definition internal_storable (node : InternalNode.t) : Prop :=
  InternalNode.wf node ∧ (∃ d r, InternalNode.refs node d = Some r) ∧
  ∀ d r, InternalNode.refs node d = Some r → ref_storable r.
Definition node_storable (node : Node.t) : Prop :=
  match node with Node.Internal node => internal_storable node | Node.Leaf leaf => leaf_storable leaf end.
Definition root_storable (root : Root.t) : Prop :=
  match root with
  | Root.Empty => True
  | Root.Filled leaf_count node =>
      in_width 64 leaf_count ∧ leaf_count ≠ 0 ∧ node_storable node ∧
      match node with
      | Node.Leaf _ => leaf_count = 1
      | Node.Internal node => leaf_count = 1 → InternalNode.child_count node = 1%nat
      end
  end.
Definition str_ok (s : list byte) : Prop := valid_utf8 s = true ∧ Z.of_nat (length s) + 7 < 2 ^ 64.
Definition tags_storable (tags : TreeTags.t) : Prop :=
  str_ok (TreeTags.architecture tags) ∧ in_width 64 (TreeTags.depth tags) ∧ str_ok (TreeTags.hasher tags) ∧
  map_Forall (λ k v, str_ok k ∧ str_ok v) (TreeTags.custom tags) ∧ Z.of_nat (size (TreeTags.custom tags)) + 4 < 2 ^ 64.
Definition manifest_storable (manifest : Manifest.t) : Prop :=
  in_width 64 (Manifest.version_count manifest) ∧
  match Manifest.tags manifest with Some tags => tags_storable tags | None => True end.

#[global] Arguments to_be_bytes : simpl never.
#[global] Arguments Nibbles.of_pos : simpl never.
#[global] Arguments Nibbles.prefix : simpl never.
#[global] Arguments Nibbles.new : simpl never.
#[global] Arguments Nibbles.nibble : simpl never.
#[global] Arguments Nibbles.split_last : simpl never.
#[global] Arguments Nibbles.EMPTY : simpl never.
#[global] Arguments SmallMap.lookup : simpl never.
#[global] Arguments InternalNode.refs : simpl never.
