(* ===== verification/MerkleHash.v ===== *)
(** * Hashing of the persistent Merkle tree

    [lib/merkle_tree/src/hasher/{mod,nodes,proofs}.rs] and the hasher of
    [lib/crypto_primitives]: hashes of nodes, Merkle paths, their verification and
    digests of key ranges, against the hash of the whole binary tree of depth 256
    ([ref_hash]). [HasherWithStats] is its hasher: it only counts bytes. *)
From Stdlib Require Import ZifyNat.
From S2P Require Import Prelude SmallMap MerkleTypes.
Local Open Scope Z_scope.

(** ** The trait [HashTree] and its implementations *)
Class HashTree := {
  name : list byte;
  hash_leaf : ValueHash → Z → ValueHash;
  hash_branch : ValueHash → ValueHash → ValueHash;
  empty_subtree_hash : nat → ValueHash;
}.

Definition empty_tree_hash `{HashTree} : ValueHash := empty_subtree_hash TREE_DEPTH.

(** What the tree relies on: the hashes of empty subtrees are those of trees with
    the empty entry in every leaf, hashes have 256 bits, and the name is a string. *)
Class HashTreeLaws `{HashTree} : Prop := {
  empty_leaf_hash : empty_subtree_hash 0 = hash_leaf 0 0;
  empty_branch_hash d : (d < TREE_DEPTH)%nat →
    empty_subtree_hash (S d) = hash_branch (empty_subtree_hash d) (empty_subtree_hash d);
  hash_leaf_width value_hash leaf_index : in_width 256 (hash_leaf value_hash leaf_index);
  hash_branch_width lhs rhs : in_width 256 (hash_branch lhs rhs);
  name_ok : str_ok name;
}.

(** The no-op hasher, [impl HashTree for ()]. *)
Definition unit_hasher : HashTree := {|
  name := bytes "no_op256";
  hash_leaf _ _ := 0;
  hash_branch _ _ := 0;
  empty_subtree_hash _ := 0;
|}.

(** [Blake2Hasher] of [lib/crypto_primitives], over the [blake2] crate's digest of
    a byte string. *)
Module Blake2Hasher.
Section blake2.
Context (blake2s256 : list byte → ValueHash).

Definition hash_bytes (value : list byte) : ValueHash := blake2s256 value.
Definition compress (lhs rhs : ValueHash) : ValueHash := blake2s256 (to_be_bytes 32 lhs ++ to_be_bytes 32 rhs).

Definition hash_leaf (value_hash : ValueHash) (leaf_index : Z) : ValueHash :=
  hash_bytes (to_be_bytes 8 leaf_index ++ to_be_bytes 32 value_hash).

(** [iter::successors]: the first [n] values. *)
Fixpoint successors (n : nat) (hash : ValueHash) : list ValueHash :=
  match n with O => [] | S n => hash :: successors n (compress hash hash) end.
Definition compute_empty_tree_hashes : list ValueHash :=
  successors (TREE_DEPTH + 1) (hash_bytes (replicate 40 x00)).

(** Depths above [TREE_DEPTH] are never asked for. *)
Definition hasher : HashTree :=
  Build_HashTree (bytes "blake2s256") hash_leaf compress (λ depth, compute_empty_tree_hashes !!! depth).

Lemma lookup_successors n d hash :
  (S d < n)%nat →
  successors n hash !!! S d = compress (successors n hash !!! d) (successors n hash !!! d).
Proof.
  revert d hash. induction n as [|n IH]; intros d hash Hd; [lia|]. cbn. destruct d as [|d].
  - destruct n; [lia|]. done.
  - apply IH. lia.
Qed.

Lemma lookup_successors_0 n hash : successors (S n) hash !!! 0%nat = hash.
Proof. done. Qed.

(** A digest has 32 bytes. *)
Lemma laws : (∀ bs, in_width 256 (blake2s256 bs)) → @HashTreeLaws hasher.
Proof.
  intros Hwidth. split; cbn [MerkleHash.empty_subtree_hash MerkleHash.hash_leaf hash_branch hasher];
    unfold compute_empty_tree_hashes.
  - replace (TREE_DEPTH + 1)%nat with (S TREE_DEPTH) by lia. rewrite lookup_successors_0. done.
  - intros d Hd. apply lookup_successors. lia.
  - intros. apply Hwidth.
  - intros. apply Hwidth.
  - done.
Qed.
End blake2.
End Blake2Hasher.

Lemma unit_hasher_laws : @HashTreeLaws unit_hasher.
Proof. by split. Qed.

Module MerklePath.
Record t := mk { current_level : nat; hashes : list ValueHash }.
End MerklePath.

(** The conditions of [verify_proofs] and [verify], in the order of the code. *)
Inductive VerifyError :=
| LengthMismatch | PathTooLong | ReadRootMismatch | KindMismatch | PrevHashMismatch | NextHashMismatch
| InvalidMissingValue | RootHashMismatch.

Module TreeRangeDigest.
Record t := mk { current_leaf : LeafNode.t; left_contour : list ValueHash }.
End TreeRangeDigest.

Section hash_tree.
Context `{HashTree}.

(** ** Nodes, [hasher/nodes.rs] *)
Definition hash_optional_branch (subtree_depth : nat) (lhs rhs : option ValueHash) : option ValueHash :=
  match lhs, rhs with
  | None, None => None
  | Some lhs, None => Some (hash_branch lhs (empty_subtree_hash subtree_depth))
  | None, Some rhs => Some (hash_branch (empty_subtree_hash subtree_depth) rhs)
  | Some lhs, Some rhs => Some (hash_branch lhs rhs)
  end.

(** One level up from a hash, on the side that the key's bit says. *)
Definition fold_bit (key : Key) (hash : ValueHash) (depth : nat) (adjacent_hash : ValueHash) : ValueHash :=
  if Z.testbit key (Z.of_nat depth) then hash_branch adjacent_hash hash else hash_branch hash adjacent_hash.

Definition leaf_hash (self : LeafNode.t) (level : nat) : ValueHash :=
  let hashing_iterations := (TREE_DEPTH - level)%nat in
  foldl (λ hash depth, fold_bit (LeafNode.full_key self) hash depth (empty_subtree_hash depth))
    (hash_leaf (LeafNode.value_hash self) (LeafNode.leaf_index self)) (seq 0 hashing_iterations).

Definition set_level (self : InternalNodeCache.t) (level_in_tree : nat) (source : list (option ValueHash))
    : InternalNodeCache.t :=
  match level_in_tree with
  | 1%nat => InternalNodeCache.mk (take 2 source) (InternalNodeCache.level2 self) (InternalNodeCache.level3 self)
  | 2%nat => InternalNodeCache.mk (InternalNodeCache.level1 self) (take 4 source) (InternalNodeCache.level3 self)
  | 3%nat => InternalNodeCache.mk (InternalNodeCache.level1 self) (InternalNodeCache.level2 self) (take 8 source)
  | _ => self
  end.

(** The inner loop of [hash_inner], in place. *)
Definition hash_level (subtree_depth next_level_len : nat) (level_hashes : list (option ValueHash))
    : list (option ValueHash) :=
  foldl (λ hs i, <[i := hash_optional_branch subtree_depth (hs !!! (2 * i)%nat) (hs !!! (2 * i + 1)%nat)]> hs)
    level_hashes (seq 0 next_level_len).

Definition hash_inner_step (level : nat)
    (st : list (option ValueHash) * nat * option InternalNodeCache.t) (level_in_tree : nat)
    : list (option ValueHash) * nat * option InternalNodeCache.t :=
  let '(level_hashes, next_level_len, cache) := st in
  let subtree_depth := (TREE_DEPTH - (level + level_in_tree))%nat in
  let level_hashes := hash_level subtree_depth next_level_len level_hashes in
  (level_hashes, (next_level_len / 2)%nat,
   (λ c, set_level c (level_in_tree - 1) level_hashes) <$> cache).

Definition hash_inner (level_hashes : list (option ValueHash)) (level : nat) (cache : option InternalNodeCache.t)
    : ValueHash * option InternalNodeCache.t :=
  let '(level_hashes, _, cache) :=
    foldl (hash_inner_step level) (level_hashes, (length level_hashes / 2)%nat, cache) [4; 3; 2; 1]%nat in
  (default (empty_subtree_hash (TREE_DEPTH - level)) (level_hashes !!! 0%nat), cache).

Definition internal_hash (self : InternalNode.t) (level : nat) : ValueHash :=
  (hash_inner (InternalNode.child_hashes self) level None).1.

Definition node_hash (self : Node.t) (level : nat) : ValueHash :=
  match self with
  | Node.Internal node => internal_hash node level
  | Node.Leaf leaf => leaf_hash leaf level
  end.

Definition root_hash (self : Root.t) : ValueHash :=
  match self with Root.Empty => empty_tree_hash | Root.Filled _ node => node_hash node 0 end.

(** ** Merkle paths *)
Definition merkle_path_new (level : nat) : MerklePath.t := MerklePath.mk level [].

Definition merkle_path_push (self : MerklePath.t) (maybe_hash : option ValueHash) : MerklePath.t :=
  let hashes := MerklePath.hashes self in
  let hashes :=
    match maybe_hash with
    | Some hash => hashes ++ [hash]
    | None =>
        if decide (hashes ≠ []) then
          let depth := (TREE_DEPTH - MerklePath.current_level self)%nat in
          hashes ++ [empty_subtree_hash depth]
        else hashes
    end in
  MerklePath.mk (MerklePath.current_level self - 1) hashes.

Definition into_inner (self : MerklePath.t) : list ValueHash := MerklePath.hashes self.

(** One turn of the loop of [update_nibble]: the index halves, and the place of the
    next level gets the hash of the pair; an index out of bounds panics. *)
Definition update_pair (level level_in_tree : nat) (level_hashes next_level_hashes : list (option ValueHash)) (idx : nat)
    : exec (list (option ValueHash)) :=
  let subtree_depth := (TREE_DEPTH - (level + level_in_tree))%nat in
  let left_idx := (idx - idx `mod` 2)%nat in
  let right_idx := (left_idx + 1)%nat in
  lhs ← expect (level_hashes !! left_idx);
  rhs ← expect (level_hashes !! right_idx);
  let branch_hash := hash_optional_branch subtree_depth lhs rhs in
  assert_then (bool_decide (idx / 2 < length next_level_hashes)%nat)
    (Ret (<[(idx / 2)%nat := branch_hash]> next_level_hashes)).

Definition update_nibble (self : InternalNodeCache.t) (level_hashes : list (option ValueHash)) (level : nat) (nibble : Z)
    : exec (ValueHash * InternalNodeCache.t) :=
  let idx := Z.to_nat nibble in
  level3 ← update_pair level 4 level_hashes (InternalNodeCache.level3 self) idx;
  level2 ← update_pair level 3 level3 (InternalNodeCache.level2 self) (idx / 2);
  level1 ← update_pair level 2 level2 (InternalNodeCache.level1 self) (idx / 2 / 2);
  node_hash ← update_pair level 1 level1 [None] (idx / 2 / 2 / 2);
  hash ← expect (mjoin (node_hash !! 0%nat));
  Ret (hash, InternalNodeCache.mk level1 level2 level3).

(** [InternalNodeCache::extend_merkle_path] *)
Definition cache_extend_merkle_path (self : InternalNodeCache.t) (merkle_path : MerklePath.t) (nibble : Z)
    : exec MerklePath.t :=
  let idx := (Z.to_nat nibble / 2)%nat in
  h3 ← expect (InternalNodeCache.level3 self !! Nat.lxor idx 1);
  let merkle_path := merkle_path_push merkle_path h3 in
  let idx := (idx / 2)%nat in
  h2 ← expect (InternalNodeCache.level2 self !! Nat.lxor idx 1);
  let merkle_path := merkle_path_push merkle_path h2 in
  let idx := (idx / 2)%nat in
  h1 ← expect (InternalNodeCache.level1 self !! Nat.lxor idx 1);
  Ret (merkle_path_push merkle_path h1).

(** [InternalNodeUpdater], its methods as functions of the node they update. *)
Definition ensure_child_ref (node : InternalNode.t) (nibble : Z) (version : Z) (is_leaf : bool) : exec InternalNode.t :=
  updated ← InternalNode.child_ref_mut node nibble
    (λ r, ChildRef.with_is_leaf (ChildRef.with_version r version) is_leaf);
  match updated with
  | Some node => Ret node
  | None =>
      let child_ref := if is_leaf then ChildRef.leaf version else ChildRef.internal version in
      InternalNode.insert_child_ref node nibble child_ref
  end.

Definition update_child_hash (node : InternalNode.t) (level : nat) (nibble : Z) (child_hash : ValueHash)
    : exec (ValueHash * InternalNode.t) :=
  updated ← InternalNode.child_ref_mut node nibble (λ r, ChildRef.with_hash r child_hash);
  node ← expect updated;
  let child_hashes := InternalNode.child_hashes node in
  match InternalNode.cache node with
  | Some cache =>
      '(hash, cache) ← update_nibble cache child_hashes level nibble;
      Ret (hash, InternalNode.mk (InternalNode.children node) (Some cache))
  | None =>
      let '(node_hash, cache) := hash_inner child_hashes level (Some InternalNodeCache.default) in
      Ret (node_hash, InternalNode.set_cache node (default InternalNodeCache.default cache))
  end.

Definition extend_merkle_path_at (node : InternalNode.t) (level : nat) (nibble : Z) (merkle_path : MerklePath.t)
    : exec (InternalNode.t * MerklePath.t) :=
  adjacent_ref ← InternalNode.child_ref node (Z.lxor nibble 1);
  let adjacent_hash := ChildRef.hash <$> adjacent_ref in
  let merkle_path := merkle_path_push merkle_path adjacent_hash in
  let node :=
    match InternalNode.cache node with
    | Some _ => node
    | None =>
        let child_hashes := InternalNode.child_hashes node in
        let '(_, cache) := hash_inner child_hashes level (Some InternalNodeCache.default) in
        InternalNode.set_cache node (default InternalNodeCache.default cache)
    end in
  merkle_path ← cache_extend_merkle_path (default InternalNodeCache.default (InternalNode.cache node)) merkle_path nibble;
  Ret (node, merkle_path).

(** ** Verification, [hasher/{mod,proofs}.rs]

    A path longer than the tree makes the subtraction overflow: the tree never ends
    hashing, or indexes beyond the empty hashes. *)
Definition extend_merkle_path (path : list ValueHash) : exec (list ValueHash) :=
  assert_then (bool_decide (length path ≤ TREE_DEPTH)%nat)
    (let empty_hash_count := (TREE_DEPTH - length path)%nat in
     Ret ((empty_subtree_hash <$> seq 0 empty_hash_count) ++ path)).

Definition fold_merkle_path (path : list ValueHash) (entry : TreeEntry.t) : exec ValueHash :=
  full_path ← extend_merkle_path path;
  Ret (foldl (λ hash '(depth, adjacent_hash), fold_bit (TreeEntry.key entry) hash depth adjacent_hash)
         (hash_leaf (TreeEntry.value entry) (TreeEntry.leaf_index entry))
         (zip (seq 0 (length full_path)) full_path)).

Definition verify_op (root_hash : ValueHash) (op : TreeLogEntryWithProof.t (list ValueHash)) (instruction : TreeInstruction.t)
    : exec (VerifyError + ValueHash) :=
  let log := TreeLogEntryWithProof.base op in
  let path := TreeLogEntryWithProof.merkle_path op in
  let op_root := TreeLogEntryWithProof.root_hash op in
  if decide (TREE_DEPTH < length path)%nat then Ret (inl PathTooLong)
  else
    let kind_error :=
      match instruction with
      | TreeInstruction.Read _ =>
          if decide (op_root ≠ root_hash) then Some ReadRootMismatch
          else if TreeLogEntry.is_read log then None else Some KindMismatch
      | TreeInstruction.Write _ => if TreeLogEntry.is_read log then Some KindMismatch else None
      end in
    match kind_error with
    | Some err => Ret (inl err)
    | None =>
        let key := TreeInstruction.key instruction in
        let prev_entry :=
          match log with
          | TreeLogEntry.Inserted | TreeLogEntry.ReadMissingKey => TreeEntry.empty key
          | TreeLogEntry.Updated leaf_index value | TreeLogEntry.Read leaf_index value => TreeEntry.new key leaf_index value
          end in
        prev_hash ← fold_merkle_path path prev_entry;
        if decide (prev_hash ≠ root_hash) then Ret (inl PrevHashMismatch)
        else
          match instruction with
          | TreeInstruction.Write new_entry =>
              next_hash ← fold_merkle_path path new_entry;
              if decide (next_hash ≠ op_root) then Ret (inl NextHashMismatch) else Ret (inr op_root)
          | TreeInstruction.Read _ => Ret (inr op_root)
          end
    end.

Fixpoint verify_ops (root_hash : ValueHash)
    (ops : list (TreeLogEntryWithProof.t (list ValueHash) * TreeInstruction.t)) : exec (VerifyError + unit) :=
  match ops with
  | [] => Ret (inr ())
  | (op, instruction) :: ops =>
      r ← verify_op root_hash op instruction;
      match r with inl err => Ret (inl err) | inr root_hash => verify_ops root_hash ops end
  end.

Definition verify_proofs (self : BlockOutputWithProofs.t) (old_root_hash : ValueHash) (instructions : list TreeInstruction.t)
    : exec (VerifyError + unit) :=
  if decide (length instructions ≠ length (BlockOutputWithProofs.logs self)) then Ret (inl LengthMismatch)
  else verify_ops old_root_hash (zip (BlockOutputWithProofs.logs self) instructions).

(** [TreeEntryWithProof::verify] *)
Definition verify (self : TreeEntryWithProof.t) (trusted_root_hash : ValueHash) : exec (VerifyError + unit) :=
  let base := TreeEntryWithProof.base self in
  if decide (TreeEntry.leaf_index base = 0 ∧ TreeEntry.value base ≠ 0) then Ret (inl InvalidMissingValue)
  else
    root_hash ← fold_merkle_path (TreeEntryWithProof.merkle_path self) base;
    if decide (root_hash ≠ trusted_root_hash) then Ret (inl RootHashMismatch) else Ret (inr ()).

(** ** Digests of ranges *)
Definition digest_new (start_key : Key) (start_entry : TreeEntryWithProof.t) : exec TreeRangeDigest.t :=
  full_path ← extend_merkle_path (TreeEntryWithProof.merkle_path start_entry);
  let left_contour :=
    imap (λ depth adjacent_hash,
      if Z.testbit start_key (Z.of_nat depth) then adjacent_hash else empty_subtree_hash depth) full_path in
  Ret (TreeRangeDigest.mk (LeafNode.new (TreeEntryWithProof.base start_entry)) left_contour).

(** The loop that hashes the current leaf up to the diverging level. *)
Definition collapse_step (key : Key) (st : ValueHash * list ValueHash) (depth : nat) : exec (ValueHash * list ValueHash) :=
  let '(hash, left_contour) := st in
  left_hash ← expect (left_contour !! depth);
  let left_contour := <[depth := empty_subtree_hash depth]> left_contour in
  Ret (if Z.testbit key (Z.of_nat depth) then hash_branch left_hash hash
       else hash_branch hash (empty_subtree_hash depth), left_contour).

Definition digest_update (self : TreeRangeDigest.t) (entry : TreeEntry.t) : exec TreeRangeDigest.t :=
  let current_leaf := TreeRangeDigest.current_leaf self in
  let key := LeafNode.full_key current_leaf in
  assert_then (bool_decide (key < TreeEntry.key entry))
    (let diverging_level := (find_diverging_bit key (TreeEntry.key entry) + 1)%nat in
     '(hash, left_contour) ←
       foldM (collapse_step key)
         (hash_leaf (LeafNode.value_hash current_leaf) (LeafNode.leaf_index current_leaf), TreeRangeDigest.left_contour self)
         (seq 0 (TREE_DEPTH - diverging_level));
     _ ← expect (left_contour !! (TREE_DEPTH - diverging_level)%nat);
     Ret (TreeRangeDigest.mk (LeafNode.new entry) (<[(TREE_DEPTH - diverging_level)%nat := hash]> left_contour))).

Definition digest_finalize (self : TreeRangeDigest.t) (final_entry : TreeEntryWithProof.t) : exec ValueHash :=
  let base := TreeEntryWithProof.base final_entry in
  self ← digest_update self base;
  full_path ← extend_merkle_path (TreeEntryWithProof.merkle_path final_entry);
  let zipped_paths := zip (TreeRangeDigest.left_contour self) full_path in
  Ret (foldl (λ hash '(depth, (left_hash, right_hash)),
         if Z.testbit (TreeEntry.key base) (Z.of_nat depth) then hash_branch left_hash hash
         else hash_branch hash right_hash)
       (hash_leaf (TreeEntry.value base) (TreeEntry.leaf_index base))
       (zip (seq 0 (length zipped_paths)) zipped_paths)).
End hash_tree.

(** ** The binary tree

    A tree is a map from keys to values and leaf indices. [ref_hash m d x] is the
    hash of its subtree of depth [d] that holds the keys [k] with [k / 2 ^ d = x]. *)
Abbreviation treemap := (gmap Key (ValueHash * Z)).

Lemma tree_depth_256 : TREE_DEPTH = 256%nat.
Proof. done. Qed.
#[local] Opaque TREE_DEPTH.
Import Nibbles(key_ok).

Section reference.
Context `{HashTree}.

Fixpoint ref_hash (m : treemap) (depth : nat) (x : Z) : ValueHash :=
  match depth with
  | O => match m !! x with Some (value, leaf_index) => hash_leaf value leaf_index | None => empty_subtree_hash 0 end
  | S d => hash_branch (ref_hash m d (2 * x)) (ref_hash m d (2 * x + 1))
  end.

(** The hash of a whole tree. *)
Definition tree_hash (m : treemap) : ValueHash := ref_hash m TREE_DEPTH 0.

(** [m] has no key in the subtree, or only the key [k]. *)
Definition under (depth : nat) (x k : Z) : Prop := k / 2 ^ Z.of_nat depth = x.
Definition no_keys (m : treemap) (depth : nat) (x : Z) : Prop := ∀ k, under depth x k → m !! k = None.
Definition only_key (m : treemap) (depth : nat) (x k : Z) : Prop :=
  under depth x k ∧ ∀ k', under depth x k' → k' ≠ k → m !! k' = None.

Lemma under_S d x k : under (S d) x k ↔ k / 2 ^ Z.of_nat d / 2 = x.
Proof. unfold under. by rewrite Nat2Z.inj_succ, Z.pow_succ_r, (Z.mul_comm 2), <-Z.div_div by lia. Qed.

Lemma under_child d x k : under (S d) x k ↔ under d (2 * x) k ∨ under d (2 * x + 1) k.
Proof. rewrite under_S. unfold under. set (q := k / 2 ^ Z.of_nat d). lia. Qed.

Lemma under_0 x k : under 0 x k ↔ k = x.
Proof. unfold under. by rewrite Z.div_1_r. Qed.

Lemma ref_hash_ext m m' d x :
  (∀ k, under d x k → m !! k = m' !! k) → ref_hash m d x = ref_hash m' d x.
Proof.
  revert x. induction d as [|d IH]; intros x Heq; cbn.
  - by rewrite Heq by (by apply under_0).
  - rewrite (IH (2 * x)), (IH (2 * x + 1)); [done| |]; intros k Hk; apply Heq, under_child; auto.
Qed.

Context `{!HashTreeLaws}.

Lemma ref_hash_empty m d x :
  (d ≤ TREE_DEPTH)%nat → no_keys m d x → ref_hash m d x = empty_subtree_hash d.
Proof using All.
  revert x. induction d as [|d IH]; intros x Hd Hno; cbn.
  - by rewrite Hno by (by apply under_0).
  - rewrite !IH, empty_branch_hash; [done|lia|lia| |lia|]; intros k Hk; apply Hno, under_child; auto.
Qed.

(** A subtree with one key is hashed along the key's bits, the siblings empty. *)
Lemma ref_hash_only m d x k v i :
  (d ≤ TREE_DEPTH)%nat → only_key m d x k → m !! k = Some (v, i) →
  ref_hash m d x =
  foldl (λ hash depth, fold_bit k hash depth (empty_subtree_hash depth)) (hash_leaf v i) (seq 0 d).
Proof using All.
  intros Hd [Hk Honly] Hm. revert x Hk Honly. induction d as [|d IH]; intros x Hk Honly.
  - apply under_0 in Hk as ->. cbn. by rewrite Hm.
  - rewrite seq_S, foldl_app. cbn [foldl Nat.add]. set (q := k / 2 ^ Z.of_nat d).
    apply under_S in Hk. fold q in Hk. rewrite <-(IH ltac:(lia) q eq_refl).
    2: { intros k' Hk'. apply Honly, under_S. unfold under in Hk'. by rewrite Hk'. }
    assert (Hsib : ∀ y, y / 2 = x → y ≠ q → ref_hash m d y = empty_subtree_hash d).
    { intros y Hy Hne. apply ref_hash_empty; [lia|]. intros k' Hk'. unfold under in Hk'.
      apply Honly; [apply under_S; by rewrite Hk'|]. intros ->. by apply Hne. }
    unfold fold_bit. rewrite Z.testbit_odd, Z.shiftr_div_pow2 by lia. fold q. cbn [ref_hash].
    pose proof (Zmod_odd q) as Hq. destruct (Z.odd q).
    + assert (Hqx : q = 2 * x + 1) by lia. by rewrite (Hsib (2 * x)), <-Hqx by lia.
    + assert (Hqx : q = 2 * x) by lia. by rewrite (Hsib (2 * x + 1)), <-Hqx by lia.
Qed.

Lemma leaf_hash_ref m level x leaf :
  (level ≤ TREE_DEPTH)%nat → only_key m (TREE_DEPTH - level) x (LeafNode.full_key leaf) →
  m !! LeafNode.full_key leaf = Some (LeafNode.value_hash leaf, LeafNode.leaf_index leaf) →
  leaf_hash leaf level = ref_hash m (TREE_DEPTH - level) x.
Proof using All. intros. unfold leaf_hash. symmetry. apply ref_hash_only; [lia|done|done]. Qed.

(** A missing hash stands for the empty subtree. *)
Definition or_empty (d : nat) (o : option ValueHash) : ValueHash := default (empty_subtree_hash d) o.

Lemma hash_optional_branch_or_empty d l r :
  (d < TREE_DEPTH)%nat →
  or_empty (S d) (hash_optional_branch d l r) = hash_branch (or_empty d l) (or_empty d r).
Proof using All. intros Hd. destruct l, r; cbn; [done..|]. by apply empty_branch_hash. Qed.

(** The in-place loop pairs up the hashes of a level. *)
Lemma hash_level_ok d n hs :
  (2 * n ≤ length hs)%nat →
  length (hash_level d n hs) = length hs ∧
  (∀ i, (i < n)%nat → hash_level d n hs !!! i = hash_optional_branch d (hs !!! (2 * i)%nat) (hs !!! (2 * i + 1)%nat)) ∧
  (∀ i, (n ≤ i)%nat → hash_level d n hs !!! i = hs !!! i).
Proof using.
  intros Hn. unfold hash_level. induction n as [|n IH]; [cbn; split_and!; [done|lia|done]|].
  destruct IH as (Hlen & Hlow & Hhigh); [lia|]. rewrite seq_S, foldl_app. cbn [foldl Nat.add].
  set (hs' := foldl _ _ _) in *. split_and!.
  - by rewrite length_insert.
  - intros i Hi. destruct (decide (i = n)) as [->|].
    + rewrite list_lookup_total_insert_eq, !Hhigh by lia. done.
    + rewrite list_lookup_total_insert_ne by done. apply Hlow. lia.
  - intros i Hi. rewrite list_lookup_total_insert_ne by lia. apply Hhigh. lia.
Qed.

(** The hashes [hs] are those of the [n] subtrees of depth [d] under [x]. *)
Definition level_ok (m : treemap) (d n : nat) (x : Z) (hs : list (option ValueHash)) : Prop :=
  ∀ i, (i < n)%nat → or_empty d (hs !!! i) = ref_hash m d (Z.of_nat n * x + Z.of_nat i).

Lemma hash_level_ref m d n x hs :
  (d < TREE_DEPTH)%nat → (2 * n ≤ length hs)%nat → level_ok m d (2 * n) x hs →
  length (hash_level d n hs) = length hs ∧ level_ok m (S d) n x (hash_level d n hs).
Proof using All.
  intros Hd Hn Hhs. destruct (hash_level_ok d n hs Hn) as (Hlen & Hlow & _). split; [done|].
  intros i Hi. rewrite Hlow, hash_optional_branch_or_empty, !Hhs by lia. cbn [ref_hash].
  f_equal; f_equal; lia.
Qed.

Lemma level_ok_take m d n x hs : level_ok m d n x hs → level_ok m d n x (take n hs).
Proof using. intros Hhs i Hi. rewrite lookup_total_take_lt by done. by apply Hhs. Qed.

(** The cached levels of an internal node at [level] and position [x]. *)
Record cache_ok (m : treemap) (level : nat) (x : Z) (c : InternalNodeCache.t) : Prop := {
  cache_level1 : length (InternalNodeCache.level1 c) = 2%nat ∧
    level_ok m (TREE_DEPTH - (level + 1)) 2 x (InternalNodeCache.level1 c);
  cache_level2 : length (InternalNodeCache.level2 c) = 4%nat ∧
    level_ok m (TREE_DEPTH - (level + 2)) 4 x (InternalNodeCache.level2 c);
  cache_level3 : length (InternalNodeCache.level3 c) = 8%nat ∧
    level_ok m (TREE_DEPTH - (level + 3)) 8 x (InternalNodeCache.level3 c);
}.

(** An internal node is hashed like the binary tree of depth 4 over its children,
    and the cache gets the levels between. *)
Lemma hash_inner_ref m level x hs cache :
  (level + 4 ≤ TREE_DEPTH)%nat → length hs = 16%nat → level_ok m (TREE_DEPTH - (level + 4)) 16 x hs →
  (hash_inner hs level cache).1 = ref_hash m (TREE_DEPTH - level) x ∧
  ∀ c, cache = Some c → ∃ c', (hash_inner hs level cache).2 = Some c' ∧ cache_ok m level x c'.
Proof using All.
  intros Hlevel Hlen Hhs. unfold hash_inner. rewrite Hlen. cbn [foldl]. unfold hash_inner_step.
  change (16 / 2)%nat with 8%nat. change (8 / 2)%nat with 4%nat. change (4 / 2)%nat with 2%nat.
  change (2 / 2)%nat with 1%nat.
  set (h4 := hash_level _ 8 hs). destruct (hash_level_ref m (TREE_DEPTH - (level + 4)) 8 x hs) as [L4 H4]; [lia|lia|done|].
  fold h4 in L4, H4. replace (S (TREE_DEPTH - (level + 4))) with (TREE_DEPTH - (level + 3))%nat in H4 by lia.
  set (h3 := hash_level _ 4 h4). destruct (hash_level_ref m (TREE_DEPTH - (level + 3)) 4 x h4) as [L3 H3]; [lia|lia|done|].
  fold h3 in L3, H3. replace (S (TREE_DEPTH - (level + 3))) with (TREE_DEPTH - (level + 2))%nat in H3 by lia.
  set (h2 := hash_level _ 2 h3). destruct (hash_level_ref m (TREE_DEPTH - (level + 2)) 2 x h3) as [L2 H2]; [lia|lia|done|].
  fold h2 in L2, H2. replace (S (TREE_DEPTH - (level + 2))) with (TREE_DEPTH - (level + 1))%nat in H2 by lia.
  set (h1 := hash_level _ 1 h2). destruct (hash_level_ref m (TREE_DEPTH - (level + 1)) 1 x h2) as [L1 H1]; [lia|lia|done|].
  fold h1 in L1, H1. replace (S (TREE_DEPTH - (level + 1))) with (TREE_DEPTH - level)%nat in H1 by lia.
  clearbody h1 h2 h3 h4. cbn [fst snd]. split.
  - specialize (H1 0%nat ltac:(lia)). unfold or_empty in H1. rewrite H1. f_equal. lia.
  - intros c ->. eexists. split; [done|]. cbn. split; cbn.
    + split; [rewrite length_take; lia|]. by apply level_ok_take.
    + split; [rewrite length_take; lia|]. by apply level_ok_take.
    + split; [rewrite length_take; lia|]. by apply level_ok_take.
Qed.

(** The children of an internal node, each with the hash of its subtree. *)
Definition children_ok (m : treemap) (level : nat) (x : Z) (node : InternalNode.t) : Prop :=
  ∀ d, 0 ≤ d < 16 →
    or_empty (TREE_DEPTH - (level + 4)) (ChildRef.hash <$> InternalNode.refs node d) =
    ref_hash m (TREE_DEPTH - (level + 4)) (16 * x + d).

Lemma child_hashes_level_ok m level x node :
  InternalNode.wf node → children_ok m level x node →
  length (InternalNode.child_hashes node) = 16%nat ∧
  level_ok m (TREE_DEPTH - (level + 4)) 16 x (InternalNode.child_hashes node).
Proof using.
  intros Hwf Hc. split.
  - unfold InternalNode.child_hashes. generalize (SmallMap.iter (InternalNode.children node)).
    assert (Hl : length (replicate InternalNode.CHILD_COUNT (@None Z)) = 16%nat) by done. revert Hl.
    generalize (replicate InternalNode.CHILD_COUNT (@None Z)). intros hs Hl l. revert hs Hl.
    induction l as [|[d r] l IH]; intros hs Hl; cbn; [done|]. apply IH. by rewrite length_insert.
  - intros i Hi. change (Z.of_nat 16) with 16. rewrite <-(Hc (Z.of_nat i)) by lia. f_equal.
    apply list_lookup_total_correct. by apply InternalNode.child_hashes_ok.
Qed.

Lemma internal_hash_ref m level x node :
  (level + 4 ≤ TREE_DEPTH)%nat → InternalNode.wf node → children_ok m level x node →
  internal_hash node level = ref_hash m (TREE_DEPTH - level) x.
Proof using All.
  intros Hlevel Hwf Hc. destruct (child_hashes_level_ok m level x node Hwf Hc) as [Hlen Hhs].
  by destruct (hash_inner_ref m level x _ None Hlevel Hlen Hhs).
Qed.

(** ** Paths *)
Definition sibling (x : Z) : Z := Z.lxor x 1.

Lemma sibling_even x : sibling (2 * x) = 2 * x + 1.
Proof using. unfold sibling. destruct x as [|p|p]; [done..|]. by destruct p. Qed.
Lemma sibling_odd x : sibling (2 * x + 1) = 2 * x.
Proof using. unfold sibling. rewrite <-(sibling_even x). unfold sibling. by rewrite Z.lxor_assoc, Z.lxor_nilpotent, Z.lxor_0_r. Qed.

(** The hashes beside the way from the leaf of [k] to the root. *)
Definition path_at (m : treemap) (k : Key) (d : nat) : ValueHash := ref_hash m d (sibling (k / 2 ^ Z.of_nat d)).
Definition full_path (m : treemap) (k : Key) (n : nat) : list ValueHash := path_at m k <$> seq 0 n.

Definition leaf_hash_of (m : treemap) (k : Key) : ValueHash :=
  match m !! k with Some (v, i) => hash_leaf v i | None => hash_leaf 0 0 end.

Lemma fold_bit_ref m k d :
  fold_bit k (ref_hash m d (k / 2 ^ Z.of_nat d)) d (path_at m k d) = ref_hash m (S d) (k / 2 ^ Z.of_nat (S d)).
Proof using.
  rewrite (proj2 (under_S d _ k) eq_refl). unfold fold_bit, path_at.
  rewrite Z.testbit_odd, Z.shiftr_div_pow2 by lia. set (q := k / 2 ^ Z.of_nat d). cbn [ref_hash].
  pose proof (Zmod_odd q). destruct (Z.odd q).
  - replace q with (2 * (q / 2) + 1) at 1 2 by lia. by rewrite sibling_odd.
  - replace q with (2 * (q / 2)) at 1 2 by lia. by rewrite sibling_even.
Qed.

Lemma fold_full_path m k n :
  foldl (λ hash '(depth, adjacent_hash), fold_bit k hash depth adjacent_hash) (leaf_hash_of m k)
    (zip (seq 0 n) (full_path m k n)) = ref_hash m n (k / 2 ^ Z.of_nat n).
Proof using All.
  induction n as [|n IH].
  - cbn. rewrite Z.div_1_r. unfold leaf_hash_of. destruct (m !! k) as [[v i]|]; [done|]. symmetry. apply empty_leaf_hash.
  - unfold full_path in *. rewrite seq_S, fmap_app, zip_with_app, foldl_app, IH by (by rewrite length_fmap).
    cbn. apply fold_bit_ref.
Qed.

(** The path does not depend on the entry of its key. *)
Lemma path_at_insert m k e d : path_at (<[k := e]> m) k d = path_at m k d.
Proof using.
  apply ref_hash_ext. intros k' Hk'. apply lookup_insert_ne. intros ->. unfold under in Hk'.
  set (q := k' / _) in Hk'. assert (Hq : Z.lxor q 1 ≠ q); [|by apply Hq]. intros Heq.
  apply (f_equal (λ z, Z.testbit z 0)) in Heq. rewrite Z.lxor_spec in Heq. by destruct (Z.testbit q 0).
Qed.

(** A compact path: its hashes after the empty ones it skips are the full path up
    to the level it has reached. *)
Record path_ok (m : treemap) (k : Key) (p : MerklePath.t) : Prop := {
  path_level : (MerklePath.current_level p ≤ TREE_DEPTH)%nat;
  path_len : (length (MerklePath.hashes p) ≤ TREE_DEPTH - MerklePath.current_level p)%nat;
  path_hashes :
    (empty_subtree_hash <$> seq 0 (TREE_DEPTH - MerklePath.current_level p - length (MerklePath.hashes p))) ++
    MerklePath.hashes p = full_path m k (TREE_DEPTH - MerklePath.current_level p);
}.

Lemma path_ok_new m k level :
  (level ≤ TREE_DEPTH)%nat → (∀ d, (d < TREE_DEPTH - level)%nat → path_at m k d = empty_subtree_hash d) →
  path_ok m k (merkle_path_new level).
Proof using.
  intros Hl Hd. split; cbn; [done|lia|]. rewrite app_nil_r, Nat.sub_0_r. apply list_fmap_ext.
  intros i d Hi. apply lookup_seq in Hi as [-> Hi]. symmetry. by apply Hd.
Qed.

Lemma path_ok_push m k p o :
  path_ok m k p → (0 < MerklePath.current_level p)%nat →
  or_empty (TREE_DEPTH - MerklePath.current_level p) o = path_at m k (TREE_DEPTH - MerklePath.current_level p) →
  path_ok m k (merkle_path_push p o) ∧
  MerklePath.current_level (merkle_path_push p o) = (MerklePath.current_level p - 1)%nat.
Proof using.
  intros [Hl Hlen Hp] Hpos Ho. split; [|done]. destruct p as [L hs]. cbn in *.
  assert (HS : (TREE_DEPTH - (L - 1) = S (TREE_DEPTH - L))%nat) by lia.
  assert (Hfull : full_path m k (TREE_DEPTH - (L - 1)) = full_path m k (TREE_DEPTH - L) ++ [path_at m k (TREE_DEPTH - L)]).
  { unfold full_path. by rewrite HS, seq_S, fmap_app. }
  assert (Happ : ∀ h, h = path_at m k (TREE_DEPTH - L) → path_ok m k (MerklePath.mk (L - 1) (hs ++ [h]))).
  { intros h ->. split; cbn; [lia|rewrite length_app; cbn; lia|].
    rewrite length_app, app_assoc, Hfull, <-Hp. cbn [length]. do 4 f_equal. lia. }
  unfold merkle_path_push. cbn. destruct o as [h|]; [by apply Happ|]. case_decide as Hnil; [by apply Happ|].
  subst hs. split; cbn; [lia|lia|]. cbn in Hp.
  rewrite app_nil_r, Nat.sub_0_r in *. by rewrite Hfull, <-Hp, <-Ho, HS, seq_S, fmap_app.
Qed.

Lemma path_ok_extend m k p :
  path_ok m k p → MerklePath.current_level p = 0%nat →
  extend_merkle_path (into_inner p) = Ret (full_path m k TREE_DEPTH).
Proof using.
  intros [_ Hlen Hp] HL. rewrite HL, Nat.sub_0_r in *. unfold extend_merkle_path, assert_then, into_inner.
  by rewrite bool_decide_true, Hp by done.
Qed.

Lemma fold_merkle_path_ref m k p v i :
  key_ok k → extend_merkle_path p = Ret (full_path m k TREE_DEPTH) → hash_leaf v i = leaf_hash_of m k →
  fold_merkle_path p (TreeEntry.mk k v i) = Ret (tree_hash m).
Proof using All.
  intros Hk Hp Hh. unfold fold_merkle_path. rewrite Hp. cbn [mbind exec_bind]. f_equal. cbn [TreeEntry.key TreeEntry.value TreeEntry.leaf_index].
  rewrite Hh. unfold full_path at 1. rewrite length_fmap, length_seq, fold_full_path.
  unfold tree_hash. f_equal. apply Z.div_small. by rewrite tree_depth_256.
Qed.

Lemma sibling_add a d : sibling (2 * a + d) = 2 * a + sibling d.
Proof using.
  assert (∃ e, d = 2 * e ∨ d = 2 * e + 1) as (e & [-> | ->]) by (exists (d / 2); lia).
  - rewrite <-Z.mul_add_distr_l, !sibling_even. lia.
  - rewrite Z.add_assoc, <-Z.mul_add_distr_l, !sibling_odd. lia.
Qed.

Lemma of_nat_lxor_1 i : (i < 16)%nat → Z.of_nat (Nat.lxor i 1) = sibling (Z.of_nat i) ∧ (Nat.lxor i 1 < 2 * (i / 2 + 1))%nat.
Proof using. intros Hi. do 16 (destruct i as [|i]; [split; [done|cbn; lia]|]). lia. Qed.

(** One pair of levels: the sibling of the [idx]-th of [n] subtrees of depth [d]. *)
Lemma level_sibling m k d n x hs idx :
  level_ok m d (2 * n) x hs → length hs = (2 * n)%nat → (idx < 2 * n)%nat → (n ≤ 8)%nat →
  k / 2 ^ Z.of_nat d = Z.of_nat (2 * n) * x + Z.of_nat idx →
  ∃ o, hs !! Nat.lxor idx 1 = Some o ∧ or_empty d o = path_at m k d.
Proof using.
  intros Hhs Hlen Hidx Hn Hk. destruct (of_nat_lxor_1 idx) as [Hs Hb]; [lia|].
  destruct (lookup_lt_is_Some_2 hs (Nat.lxor idx 1)) as [o Ho]; [lia|]. exists o. split; [done|].
  specialize (Hhs (Nat.lxor idx 1) ltac:(lia)). rewrite (list_lookup_total_correct _ _ _ Ho) in Hhs.
  rewrite Hhs. unfold path_at. rewrite Hk, Hs. f_equal.
  replace (Z.of_nat (2 * n) * x) with (2 * (Z.of_nat n * x)) by lia. by rewrite sibling_add.
Qed.

Lemma div_up k level j q :
  (level + S j ≤ TREE_DEPTH)%nat →
  k / 2 ^ Z.of_nat (TREE_DEPTH - (level + S j)) = q → k / 2 ^ Z.of_nat (TREE_DEPTH - (level + j)) = q / 2.
Proof using.
  intros Hl <-. replace (TREE_DEPTH - (level + j))%nat with (S (TREE_DEPTH - (level + S j))) by lia.
  by rewrite (proj2 (under_S _ _ k) eq_refl).
Qed.

Lemma cache_extend_merkle_path_ok m level x c k p nibble :
  cache_ok m level x c → path_ok m k p → MerklePath.current_level p = (level + 3)%nat → (level + 4 ≤ TREE_DEPTH)%nat →
  0 ≤ nibble < 16 → k / 2 ^ Z.of_nat (TREE_DEPTH - (level + 4)) = 16 * x + nibble →
  ∃ p', cache_extend_merkle_path c p nibble = Ret p' ∧ path_ok m k p' ∧ MerklePath.current_level p' = level.
Proof using.
  intros [[L1 H1] [L2 H2] [L3 H3]] Hp HL Hlevel Hn Hk. unfold cache_extend_merkle_path.
  assert (Hk3 := div_up k level 3 _ Hlevel Hk). assert (Hk2 := div_up k level 2 _ ltac:(clear -Hlevel; lia) Hk3).
  assert (Hk1 := div_up k level 1 _ ltac:(clear -Hlevel; lia) Hk2).
  destruct (level_sibling m k (TREE_DEPTH - (level + 3)) 4 x (InternalNodeCache.level3 c) (Z.to_nat nibble / 2))
    as (o3 & -> & Ho3); [done|done|clear -Hn; lia|lia|rewrite Hk3; clear -Hn; lia|].
  destruct (level_sibling m k (TREE_DEPTH - (level + 2)) 2 x (InternalNodeCache.level2 c) (Z.to_nat nibble / 2 / 2))
    as (o2 & -> & Ho2); [done|done|clear -Hn; lia|lia|rewrite Hk2; clear -Hn; lia|].
  destruct (level_sibling m k (TREE_DEPTH - (level + 1)) 1 x (InternalNodeCache.level1 c) (Z.to_nat nibble / 2 / 2 / 2))
    as (o1 & -> & Ho1); [done|done|clear -Hn; lia|lia|rewrite Hk1; clear -Hn; lia|]. clear Hk Hk1 Hk2 Hk3.
  cbn [expect mbind exec_bind]. eexists. split; [done|].
  destruct (path_ok_push m k p o3) as [Hp3 HL3]; [done|lia|by rewrite HL|].
  destruct (path_ok_push m k _ o2 Hp3) as [Hp2 HL2]; [lia|rewrite HL3, HL; by replace (level + 3 - 1)%nat with (level + 2)%nat by lia|].
  destruct (path_ok_push m k _ o1 Hp2) as [Hp1 HL1]; [lia|rewrite HL2, HL3, HL; by replace (level + 3 - 1 - 1)%nat with (level + 1)%nat by lia|].
  split; [done|]. lia.
Qed.

Definition cache_opt_ok (m : treemap) (level : nat) (x : Z) (node : InternalNode.t) : Prop :=
  ∀ c, InternalNode.cache node = Some c → cache_ok m level x c.

Lemma extend_merkle_path_at_ok m level x node k p nibble :
  (level + 4 ≤ TREE_DEPTH)%nat → InternalNode.wf node → children_ok m level x node → cache_opt_ok m level x node →
  path_ok m k p → MerklePath.current_level p = (level + 4)%nat →
  0 ≤ nibble < 16 → k / 2 ^ Z.of_nat (TREE_DEPTH - (level + 4)) = 16 * x + nibble →
  ∃ node' p', extend_merkle_path_at node level nibble p = Ret (node', p') ∧
    path_ok m k p' ∧ MerklePath.current_level p' = level ∧
    InternalNode.children node' = InternalNode.children node ∧ cache_opt_ok m level x node'.
Proof using All.
  intros Hlevel Hwf Hc Hcache Hp HL Hn Hk. unfold extend_merkle_path_at.
  assert (Hsib : 0 ≤ Z.lxor nibble 1 < 16).
  { change (0 ≤ sibling nibble < 16). assert (∃ e, nibble = 2 * e ∨ nibble = 2 * e + 1) as (e & [-> | ->])
      by (exists (nibble / 2); clear -Hn; lia); rewrite ?sibling_even, ?sibling_odd; clear -Hn; lia. }
  rewrite InternalNode.child_ref_ok by done. cbn [mbind exec_bind].
  destruct (path_ok_push m k p (ChildRef.hash <$> InternalNode.refs node (Z.lxor nibble 1))) as [Hp' HL'];
    [done|clear -HL; lia| |].
  { rewrite HL, Hc by done. unfold path_at. rewrite Hk. f_equal. change (Z.lxor nibble 1) with (sibling nibble).
    replace (16 * x + nibble) with (2 * (8 * x) + nibble) by (clear; lia). rewrite sibling_add. clear; lia. }
  destruct (child_hashes_level_ok m level x node Hwf Hc) as [Hlen Hhs].
  set (node' := match InternalNode.cache node with Some _ => node | None => _ end).
  assert (Hnode : InternalNode.children node' = InternalNode.children node ∧
    ∃ c, InternalNode.cache node' = Some c ∧ cache_ok m level x c).
  { unfold node'. destruct (InternalNode.cache node) as [c|] eqn:E; [split; [done|]; exists c; split; [done|by apply Hcache]|].
    destruct (hash_inner_ref m level x _ (Some InternalNodeCache.default) Hlevel Hlen Hhs) as [_ Hi].
    destruct (Hi _ eq_refl) as (c' & Hc' & Hok). destruct (hash_inner _ _ _) as [h c]. cbn in Hc'. subst c.
    split; [done|]. exists c'. unfold InternalNode.set_cache. cbn. by rewrite E. }
  destruct Hnode as (Hch & c & Hcn & Hok). rewrite Hcn. cbn [from_option id].
  destruct (cache_extend_merkle_path_ok m level x c k _ nibble Hok Hp') as (p' & Hext & Hp'' & HL''); [lia|done..|].
  rewrite Hext. cbn [mbind exec_bind]. eexists _, _. split; [done|]. split_and!; [done..|].
  intros c0 Hc0. rewrite Hcn in Hc0. by injection Hc0 as <-.
Qed.
End reference.
