(* ===== verification/MerklePatch.v ===== *)
(** * Patches and databases of the persistent Merkle tree

    [lib/merkle_tree/src/storage/{database,patch}.rs]: the trait [Database] with the
    laws its clients rely on, the set of changes [PatchSet] as the database it is
    itself, and the working set [WorkingPatchSet] of the nodes that an update loads
    and changes, level by level. *)
From Stdlib Require Import ZifyNat.
From S2P Require Import Prelude SmallMap MerkleTypes MerkleHash.
Local Open Scope Z_scope.

(** [Operation] of [storage/mod.rs]. *)
Inductive Operation := Insert | Update.

Module PartialPatchSet.
Record t := mk { root : option Root.t; nodes : gmap NodeKey.t Node.t }.
Definition empty : t := mk None ∅.
Definition merge (self other : t) : t := mk (root other) (nodes other ∪ nodes self).
End PartialPatchSet.

Module PatchSet.
Record t := mk {
  manifest : Manifest.t;
  patches_by_version : gmap Z PartialPatchSet.t;
  updated_version : option Z;
  stale_keys_by_version : gmap Z (list NodeKey.t);
}.

Definition default : t := mk Manifest.default ∅ None ∅.
Definition from_manifest (manifest : Manifest.t) : t := mk manifest ∅ None ∅.

Definition new (manifest : Manifest.t) (version : Z) (root : Root.t) (nodes : gmap NodeKey.t Node.t)
    (stale_keys : list NodeKey.t) (operation : Operation) : t :=
  let partial_patch := PartialPatchSet.mk (Some root) nodes in
  let updated_version := match operation with Insert => None | Update => Some version end in
  mk manifest {[version := partial_patch]} updated_version {[version := stale_keys]}.

Definition for_empty_root (manifest : Manifest.t) (version : Z) : t :=
  let stale_keys :=
    match checked_sub version 1 with
    | Some prev_version => [with_version Nibbles.EMPTY prev_version]
    | None => []
    end in
  new manifest version Root.Empty ∅ stale_keys Insert.

Definition is_new_version (self : t) (version : Z) : bool :=
  bool_decide (Manifest.version_count (manifest self) ≤ version)
  || (bool_decide (updated_version self ≠ Some version) && bool_decide (is_Some (patches_by_version self !! version))).
End PatchSet.

(** ** The trait [Database]

    Reading gives the deserialization error if there is one; the methods without
    [try_] panic on it. [apply_patch] may fail on I/O. *)
Class Database (DB : Type) := {
  try_manifest : DB → exec (DeserializeError.t + option Manifest.t);
  try_root : DB → Z → exec (DeserializeError.t + option Root.t);
  try_tree_node : DB → NodeKey.t → bool → exec (DeserializeError.t + option Node.t);
  apply_patch : PatchSet.t → prog DB () ();
}.

Definition or_panic {E A} (r : exec (E + A)) : exec A := r ← r; match r with inr a => Ret a | inl _ => Panic end.

Section database.
Context {DB : Type} `{Database DB}.

Definition manifest (db : DB) : exec (option Manifest.t) := or_panic (try_manifest db).
Definition root (db : DB) (version : Z) : exec (option Root.t) := or_panic (try_root db version).
Definition tree_node (db : DB) (key : NodeKey.t) (is_leaf : bool) : exec (option Node.t) :=
  or_panic (try_tree_node db key is_leaf).
Definition tree_nodes (db : DB) (keys : list (NodeKey.t * bool)) : exec (list (option Node.t)) :=
  mapM (λ '(key, is_leaf), tree_node db key is_leaf) keys.
End database.

(** ** [PatchSet] as a database *)
Definition patch_try_tree_node (self : PatchSet.t) (key : NodeKey.t) : option Node.t :=
  patch ← PatchSet.patches_by_version self !! NodeKey.version key;
  Node.clone <$> PartialPatchSet.nodes patch !! key.

Definition patch_try_root (self : PatchSet.t) (version : Z) : option Root.t :=
  patch ← PatchSet.patches_by_version self !! version;
  Root.clone <$> PartialPatchSet.root patch.

(** The part of [apply_patch] about the updated version: the two patches with it
    merged into the first, or an error. *)
Definition apply_updated_version (self other : PatchSet.t) : exec (option (PatchSet.t * PatchSet.t)) :=
  match PatchSet.updated_version other with
  | None => Ret (Some (self, other))
  | Some other_updated_version =>
      match PatchSet.updated_version self with
      | Some updated_version =>
          if decide (other_updated_version = updated_version) then
            patch ← expect (PatchSet.patches_by_version self !! updated_version);
            other_patch ← expect (PatchSet.patches_by_version other !! updated_version);
            Ret (Some
              (PatchSet.mk (PatchSet.manifest self)
                 (<[updated_version := PartialPatchSet.merge patch other_patch]> (PatchSet.patches_by_version self))
                 (PatchSet.updated_version self) (PatchSet.stale_keys_by_version self),
               PatchSet.mk (PatchSet.manifest other) (delete updated_version (PatchSet.patches_by_version other))
                 (PatchSet.updated_version other) (PatchSet.stale_keys_by_version other)))
          else Ret None
      | None =>
          if decide (map_Forall (λ ver _, other_updated_version < ver) (PatchSet.patches_by_version self)) then
            Ret (Some (PatchSet.mk (PatchSet.manifest self) (PatchSet.patches_by_version self)
                         (Some other_updated_version) (PatchSet.stale_keys_by_version self), other))
          else Ret None
      end
  end.

Definition patch_apply_patch (other : PatchSet.t) : prog PatchSet.t () () := λ self,
  updated ← apply_updated_version self other;
  match updated with
  | None => Ret (inl (), self)
  | Some (self, other) =>
      let new_version_count := Manifest.version_count (PatchSet.manifest other) in
      let patches :=
        if decide (new_version_count < Manifest.version_count (PatchSet.manifest self)) then
          filter (λ '(version, _), version < new_version_count) (PatchSet.patches_by_version self)
        else PatchSet.patches_by_version self in
      let stale_keys :=
        union_with (λ keys other_keys, Some (keys ++ other_keys))
          (PatchSet.stale_keys_by_version self) (PatchSet.stale_keys_by_version other) in
      Ret (inr (), PatchSet.mk (PatchSet.manifest other) (PatchSet.patches_by_version other ∪ patches)
                     (PatchSet.updated_version self) stale_keys)
  end.

#[export] Instance patch_database : Database PatchSet.t := {
  try_manifest self := Ret (inr (Some (PatchSet.manifest self)));
  try_root self version := Ret (inr (patch_try_root self version));
  try_tree_node self key _ := Ret (inr (patch_try_tree_node self key));
  apply_patch := patch_apply_patch;
}.

(** ** What the tree relies on

    Applying a patch that updates no version fails without effect, or leaves below
    its version count the versions of the patch and, of the others, what was there. *)
Record patch_storable (p : PatchSet.t) : Prop := {
  storable_updated : PatchSet.updated_version p = None;
  storable_manifest : manifest_storable (PatchSet.manifest p);
  storable_part version part : PatchSet.patches_by_version p !! version = Some part →
    in_width 64 (version + 1) ∧ in_width 64 version ∧
    (∀ root, PartialPatchSet.root part = Some root → root_storable root) ∧
    ∀ key node, PartialPatchSet.nodes part !! key = Some node →
      NodeKey.version key = version ∧ NodeKey.is_empty key = false ∧ key_storable key ∧ node_storable node;
  storable_stale version keys : PatchSet.stale_keys_by_version p !! version = Some keys → in_width 64 version ∧ Forall key_storable keys;
}.

(** The patch has the versions that the database is to have and does not know of. *)
Definition patch_follows {DB} `{Database DB} (p : PatchSet.t) (db : DB) : Prop :=
  ∃ man, manifest db = Ret man ∧ ∀ version,
    Manifest.version_count (default Manifest.default man) ≤ version < Manifest.version_count (PatchSet.manifest p) →
    is_Some (PatchSet.patches_by_version p !! version).

Class DatabaseLaws (DB : Type) `{Database DB} := {
  (** An invariant of the database. *)
  db_ok : DB → Prop;
  patch_fits (p : PatchSet.t) (db : DB) : Prop := patch_storable p ∧ db_ok db ∧ patch_follows p db;
  apply_patch_returns p (db : DB) : patch_storable p → apply_patch p db ≠ Panic;
  apply_patch_atomic p (db db' : DB) e : apply_patch p db = Ret (inl e, db') → db' = db;
  apply_patch_ok p (db db' : DB) : patch_fits p db → apply_patch p db = Ret (inr (), db') → db_ok db';
  apply_patch_manifest p (db db' : DB) :
    patch_fits p db → apply_patch p db = Ret (inr (), db') →
    manifest db' = Ret (Some (PatchSet.manifest p));
  apply_patch_root p (db db' : DB) version :
    patch_fits p db → apply_patch p db = Ret (inr (), db') →
    0 ≤ version < Manifest.version_count (PatchSet.manifest p) →
    root db' version =
      match PatchSet.patches_by_version p !! version with
      | Some part => Ret (Root.clone <$> PartialPatchSet.root part)
      | None => root db version
      end;
  apply_patch_node p (db db' : DB) key is_leaf :
    patch_fits p db → apply_patch p db = Ret (inr (), db') →
    key_storable key → NodeKey.is_empty key = false →
    NodeKey.version key < Manifest.version_count (PatchSet.manifest p) →
    match PatchSet.patches_by_version p !! NodeKey.version key with
    | Some part =>
        match PartialPatchSet.nodes part !! key with
        | Some node => is_leaf = Node.is_leaf node → tree_node db' key is_leaf = Ret (Some (Node.clone node))
        | None => tree_node db' key is_leaf = Ret None
        end
    | None => tree_node db' key is_leaf = tree_node db key is_leaf
    end;
}.

Lemma patch_apply_None p (db db' : PatchSet.t) r :
  PatchSet.updated_version p = None → patch_apply_patch p db = Ret (r, db') →
  r = inr () ∧ PatchSet.manifest db' = PatchSet.manifest p ∧
  ∀ version, version < Manifest.version_count (PatchSet.manifest p) →
    PatchSet.patches_by_version db' !! version =
      match PatchSet.patches_by_version p !! version with
      | Some part => Some part | None => PatchSet.patches_by_version db !! version end.
Proof.
  intros Hu. unfold patch_apply_patch, apply_updated_version. rewrite Hu. cbn. intros [= <- <-].
  split; [done|]. split; [done|]. intros v Hv. cbn.
  rewrite lookup_union. destruct (PatchSet.patches_by_version p !! v); cbn; [by rewrite union_Some_l|].
  rewrite (left_id_L None _). case_decide; [|done].
  destruct (PatchSet.patches_by_version db !! v) eqn:E.
  - by apply map_lookup_filter_Some.
  - apply map_lookup_filter_None. by left.
Qed.

#[export] Instance patch_database_laws : DatabaseLaws PatchSet.t.
Proof.
  unshelve refine {| db_ok (_ : PatchSet.t) := True |}.
  - intros p db [Hu _ _ _]. cbn. unfold patch_apply_patch, apply_updated_version. by rewrite Hu.
  - intros p db db' e. cbn. unfold patch_apply_patch. destruct (apply_updated_version db p) as [[[]|]|]; cbn; naive_solver.
  - done.
  - intros p db db' [[Hu _ _ _] _] Ha. destruct (patch_apply_None p db db' _ Hu Ha) as (_ & Hm & _). cbn. by rewrite Hm.
  - intros p db db' v [[Hu _ _ _] _] Ha Hv. destruct (patch_apply_None p db db' _ Hu Ha) as (_ & _ & Hp). cbn.
    unfold root, try_root, patch_database, patch_try_root. rewrite Hp by lia.
    by destruct (PatchSet.patches_by_version p !! v).
  - intros p db db' key b [[Hu _ _ _] _] Ha _ _ Hv. destruct (patch_apply_None p db db' _ Hu Ha) as (_ & _ & Hp). cbn.
    unfold tree_node, try_tree_node, patch_database, patch_try_tree_node. rewrite Hp by done.
    destruct (PatchSet.patches_by_version p !! NodeKey.version key) as [part|]; cbn; [|done].
    by destruct (PartialPatchSet.nodes part !! key).
Defined.

(** ** The working set *)
Module WorkingNode.
Record t := mk { inner : Node.t; prev_version : option Z }.
Definition new (inner : Node.t) (prev_version : option Z) : t := mk inner prev_version.
Definition with_inner (self : t) (inner : Node.t) : t := mk inner (prev_version self).
End WorkingNode.

Abbreviation Level := (gmap (list byte) WorkingNode.t).

(** What the standard library leaves open: the order in which a [HashMap] is
    iterated over, and an unstable sort. *)
Class Unspecified := {
  into_iter : Level → list (list byte * WorkingNode.t);
  sort_unstable_by_key : list (nat * Key) → list (nat * Key);
}.
Class UnspecifiedLaws `{Unspecified} : Prop := {
  into_iter_perm level : into_iter level ≡ₚ map_to_list level;
  sort_unstable_perm l : sort_unstable_by_key l ≡ₚ l;
  sort_unstable_sorted l : Sorted (λ a b : nat * Key, a.2 ≤ b.2) (sort_unstable_by_key l);
}.

(** [SortedKeys::new] *)
Definition sorted_keys `{Unspecified} (keys : list Key) : list (nat * Key) :=
  sort_unstable_by_key (zip (seq 0 (length keys)) keys).

Module TraverseOutcome.
Inductive t :=
| LeafMatch (nibbles : Nibbles.t) (leaf : LeafNode.t)
| LeafMismatch (nibbles : Nibbles.t) (leaf : LeafNode.t)
| MissingChild (nibbles : Nibbles.t).
Definition position (self : t) : Nibbles.t :=
  match self with LeafMatch nibbles _ | LeafMismatch nibbles _ | MissingChild nibbles => nibbles end.
End TraverseOutcome.

Module LoadAncestorsResult.
Record t := mk { longest_prefixes : list Nibbles.t; db_reads : Z }.
End LoadAncestorsResult.

Module WorkingPatchSet.
Record t := mk { root_version : Z; changes_by_nibble_count : list Level }.

Definition new (root_version : Z) (root : Root.t) : t :=
  let changes_by_nibble_count :=
    match root with
    | Root.Filled _ node =>
        let root_node := WorkingNode.new node (checked_sub root_version 1) in
        [{[Nibbles.bytes Nibbles.EMPTY := root_node]}]
    | Root.Empty => []
    end in
  mk root_version changes_by_nibble_count.

Definition get_working (self : t) (nibbles : Nibbles.t) : option WorkingNode.t :=
  level ← changes_by_nibble_count self !! Nibbles.nibble_count nibbles;
  level !! Nibbles.bytes nibbles.
Definition get (self : t) (nibbles : Nibbles.t) : option Node.t := WorkingNode.inner <$> get_working self nibbles.

Definition with_changes (self : t) (changes : list Level) : t := mk (root_version self) changes.

(** [resize_with] to at least [n] levels. *)
Definition grow (changes : list Level) (n : nat) : list Level := changes ++ replicate (n - length changes) ∅.

Definition insert (self : t) (key : Nibbles.t) (node : Node.t) : t :=
  let n := Nibbles.nibble_count key in
  let changes := grow (changes_by_nibble_count self) (n + 1) in
  let level := changes !!! n in
  let working :=
    match level !! Nibbles.bytes key with
    | None => WorkingNode.new node None
    | Some entry => WorkingNode.with_inner entry node
    end in
  with_changes self (<[n := <[Nibbles.bytes key := working]> level]> changes).

(** [get_mut] with what is done to the node. *)
Definition get_mut (self : t) (key : Nibbles.t) (f : Node.t → exec Node.t) : exec (option t) :=
  match changes_by_nibble_count self !! Nibbles.nibble_count key with
  | None => Ret None
  | Some level =>
      match level !! Nibbles.bytes key with
      | None => Ret None
      | Some node =>
          inner ← f (WorkingNode.inner node);
          Ret (Some (with_changes self
            (<[Nibbles.nibble_count key := <[Nibbles.bytes key := WorkingNode.with_inner node inner]> level]>
               (changes_by_nibble_count self))))
      end
  end.

Definition child_ref (self : t) (key : Nibbles.t) (child_nibble : Z) : exec (option ChildRef.t) :=
  match get self key with
  | Some (Node.Internal parent) => InternalNode.child_ref parent child_nibble
  | _ => Ret None
  end.

(** [child_ref_mut] with what is done to the reference. *)
Definition child_ref_mut (self : t) (key : Nibbles.t) (child_nibble : Z) (f : ChildRef.t → ChildRef.t) : exec (option t) :=
  match get self key with
  | Some (Node.Internal parent) =>
      parent ← InternalNode.child_ref_mut parent child_nibble f;
      match parent with
      | None => Ret None
      | Some parent => get_mut self key (λ _, Ret (Node.Internal parent))
      end
  | _ => Ret None
  end.

Definition push_level_from_db (self : t) (level : list (NodeKey.t * Node.t)) : t :=
  let level : Level :=
    foldl (λ level '(key, node),
      <[Nibbles.bytes (NodeKey.nibbles key) := WorkingNode.new node (Some (NodeKey.version key))]> level) ∅ level in
  with_changes self (changes_by_nibble_count self ++ [level]).

Definition ensure_internal_root_node (self : t) : exec (InternalNode.t * t) :=
  match get self Nibbles.EMPTY with
  | Some (Node.Internal node) => Ret (InternalNode.clone node, self)
  | Some (Node.Leaf leaf) =>
      first_nibble ← Nibbles.nibble (LeafNode.full_key leaf) 0;
      internal_node ← InternalNode.insert_child_ref InternalNode.default first_nibble (ChildRef.leaf (root_version self));
      let self := insert self Nibbles.EMPTY (Node.Internal (InternalNode.clone internal_node)) in
      nibbles ← Nibbles.new (LeafNode.full_key leaf) 1;
      Ret (internal_node, insert self nibbles (Node.Leaf leaf))
  | None =>
      let internal_node := InternalNode.default in
      Ret (internal_node, insert self Nibbles.EMPTY (Node.Internal (InternalNode.clone internal_node)))
  end.

Definition take_root (self : t) : option Node.t * t :=
  match changes_by_nibble_count self !! 0%nat with
  | None => (None, self)
  | Some root_level =>
      let node := root_level !! Nibbles.bytes Nibbles.EMPTY in
      (WorkingNode.inner <$> node,
       with_changes self (<[0%nat := delete (Nibbles.bytes Nibbles.EMPTY) root_level]> (changes_by_nibble_count self)))
  end.

(** *** Hashing the changes, level by level from the deepest *)
Section finalize.
Context `{Unspecified}.

(** One changed node below the root: its hash and version go into, and come from,
    its parent's reference. *)
Definition finalize_node (nibble_count : nat) (operation : Operation) (hash : Node.t → option ValueHash)
    (st : Level * gmap NodeKey.t Node.t * list NodeKey.t) (entry : list byte * WorkingNode.t)
    : exec (Level * gmap NodeKey.t Node.t * list NodeKey.t) :=
  let '(upper_level_changes, patched_nodes, stale_keys) := st in
  let '(bytes, node) := entry in
  let nibbles := Nibbles.from_parts bytes nibble_count in
  let node_hash := hash (WorkingNode.inner node) in
  split ← Nibbles.split_last nibbles;
  '(parent_nibbles, last_nibble) ← expect split;
  parent ← expect (upper_level_changes !! Nibbles.bytes parent_nibbles);
  match WorkingNode.inner parent with
  | Node.Leaf _ => Panic
  | Node.Internal parent_node =>
      let set_hash self_ref := match node_hash with Some h => ChildRef.with_hash self_ref h | None => self_ref end in
      updated ← InternalNode.child_ref_mut parent_node last_nibble set_hash;
      parent_node ← expect updated;
      self_ref ← InternalNode.child_ref parent_node last_nibble;
      self_ref ← expect self_ref;
      let node_version := ChildRef.version self_ref in
      let upper_level_changes :=
        <[Nibbles.bytes parent_nibbles := WorkingNode.with_inner parent (Node.Internal parent_node)]> upper_level_changes in
      let was_replaced :=
        match WorkingNode.prev_version node with
        | None => true
        | Some prev_version => bool_decide (prev_version < node_version)
        end in
      let stale_keys :=
        match was_replaced, WorkingNode.prev_version node with
        | true, Some prev_version => stale_keys ++ [with_version nibbles prev_version]
        | _, _ => stale_keys
        end in
      let patched_nodes :=
        if was_replaced || match operation with Update => true | Insert => false end then
          <[with_version nibbles node_version := WorkingNode.inner node]> patched_nodes
        else patched_nodes in
      Ret (upper_level_changes, patched_nodes, stale_keys)
  end.

(** The current level, with the levels above it in [upper] from the nearest. *)
Fixpoint finalize_levels (root_version : Z) (manifest : Manifest.t) (leaf_count : Z) (operation : Operation)
    (hash : nat → Node.t → option ValueHash) (upper : list Level) (level : Level)
    (patched_nodes : gmap NodeKey.t Node.t) (stale_keys : list NodeKey.t) : exec (option ValueHash * PatchSet.t) :=
  let nibble_count := length upper in
  match upper with
  | [] =>
      match into_iter level with
      | [] => Panic
      | (bytes, node) :: _ =>
          let nibbles := Nibbles.from_parts bytes nibble_count in
          let stale_keys :=
            match operation, WorkingNode.prev_version node with
            | Insert, Some prev_version => stale_keys ++ [with_version nibbles prev_version]
            | _, _ => stale_keys
            end in
          root ← Root.new leaf_count (WorkingNode.inner node);
          Ret (hash nibble_count (WorkingNode.inner node),
               PatchSet.new manifest root_version root patched_nodes stale_keys operation)
      end
  | upper_level :: upper =>
      '(upper_level, patched_nodes, stale_keys) ←
        foldM (finalize_node nibble_count operation (hash nibble_count))
          (upper_level, patched_nodes, stale_keys) (into_iter level);
      finalize_levels root_version manifest leaf_count operation hash upper upper_level patched_nodes stale_keys
  end.

Definition finalize_inner (self : t) (manifest : Manifest.t) (leaf_count : Z) (operation : Operation)
    (hash : nat → Node.t → option ValueHash) : exec (option ValueHash * PatchSet.t) :=
  let len := foldr Nat.add 0%nat (size <$> changes_by_nibble_count self) in
  if decide (len = 0%nat) then Ret (None, PatchSet.for_empty_root manifest (root_version self))
  else
    match reverse (changes_by_nibble_count self) with
    | [] => Panic
    | level :: upper => finalize_levels (root_version self) manifest leaf_count operation hash upper level ∅ []
    end.

Definition finalize `{HashTree} (self : t) (manifest : Manifest.t) (leaf_count : Z) (operation : Operation)
    : exec (ValueHash * PatchSet.t) :=
  '(root_hash, patch) ← finalize_inner self manifest leaf_count operation
    (λ nibble_count node, Some (node_hash node (nibble_count * 4)));
  Ret (default empty_tree_hash root_hash, patch).

Definition finalize_without_hashing (self : t) (manifest : Manifest.t) (leaf_count : Z) : exec PatchSet.t :=
  '(_, patch) ← finalize_inner self manifest leaf_count Insert (λ _ _, None);
  Ret patch.
End finalize.

(** *** Loading *)
Section load.
Context {DB : Type} `{Database DB} `{Unspecified}.

(** The state of the loop over the sorted keys: the prefixes found, the nibbles last
    requested, and the requests. *)
Definition request_key (self : t) (nibble_count : nat)
    (st : list (option Nibbles.t) * option Nibbles.t * list (NodeKey.t * bool)) (entry : nat * Key)
    : exec (list (option Nibbles.t) * option Nibbles.t * list (NodeKey.t * bool)) :=
  let '(longest_prefixes, prev_nibbles, requested_keys) := st in
  let '(idx, key) := entry in
  longest_prefix ← expect (longest_prefixes !! idx);
  if decide (longest_prefix ≠ None) then Ret st
  else if decide (2 * KEY_SIZE < nibble_count)%nat then
    nibbles ← Nibbles.new key (2 * KEY_SIZE);
    Ret (<[idx := Some nibbles]> longest_prefixes, prev_nibbles, requested_keys)
  else
    nibbles ← Nibbles.new key nibble_count;
    split ← Nibbles.split_last nibbles;
    '(this_parent_nibbles, last_nibble) ← expect split;
    this_ref ← child_ref self this_parent_nibbles last_nibble;
    match this_ref with
    | None => Ret (<[idx := Some this_parent_nibbles]> longest_prefixes, prev_nibbles, requested_keys)
    | Some this_ref =>
        if decide (prev_nibbles = Some nibbles) then Ret st
        else Ret (longest_prefixes, Some nibbles,
                  requested_keys ++ [(with_version nibbles (ChildRef.version this_ref), ChildRef.is_leaf this_ref)])
    end.

(** The loop over nibble counts; it ends at 65 at the latest. *)
Fixpoint load_levels (fuel : nat) (db : DB) (keys : list (nat * Key)) (self : t) (nibble_count : nat)
    (longest_prefixes : list (option Nibbles.t)) (prev_nibbles : option Nibbles.t) (db_reads : Z)
    : exec (t * list (option Nibbles.t) * Z) :=
  match fuel with
  | O => Panic
  | S fuel =>
      '(longest_prefixes, prev_nibbles, requested_keys) ←
        foldM (request_key self nibble_count) (longest_prefixes, prev_nibbles, []) keys;
      if decide (requested_keys = []) then Ret (self, longest_prefixes, db_reads)
      else
        new_nodes ← tree_nodes db requested_keys;
        level ← mapM (λ '((key, _), node), node ← expect node; Ret (key, node)) (zip requested_keys new_nodes);
        load_levels fuel db keys (push_level_from_db self level) (S nibble_count) longest_prefixes prev_nibbles
          (wrap 64 (db_reads + Z.of_nat (length new_nodes)))
  end.

Definition load_ancestors (self : t) (keys : list (nat * Key)) (db : DB) : exec (LoadAncestorsResult.t * t) :=
  match get self Nibbles.EMPTY with
  | Some (Node.Internal _) =>
      '(self, longest_prefixes, db_reads) ←
        load_levels (2 * KEY_SIZE + 1) db keys self 1 (replicate (length keys) None) None 0;
      longest_prefixes ← mapM expect longest_prefixes;
      Ret (LoadAncestorsResult.mk longest_prefixes db_reads, self)
  | _ => Ret (LoadAncestorsResult.mk (replicate (length keys) Nibbles.EMPTY) 0, self)
  end.

(** The walk to the greatest key. *)
Fixpoint load_greatest_from (fuel : nat) (db : DB) (self : t) (nibbles : Nibbles.t) (db_reads : Z)
    : exec (option (LeafNode.t * Nibbles.t * Z) * t) :=
  match fuel with
  | O => Panic
  | S fuel =>
      match get self nibbles with
      | None => Ret (None, self)
      | Some (Node.Leaf leaf) => Ret (Some (leaf, nibbles, db_reads), self)
      | Some (Node.Internal node) =>
          '(next_nibble, child_ref) ← InternalNode.last_child_ref node;
          nibbles ← Nibbles.push nibbles next_nibble;
          nibbles ← expect nibbles;
          let child_key := with_version nibbles (ChildRef.version child_ref) in
          child_node ← tree_node db child_key (ChildRef.is_leaf child_ref);
          child_node ← expect child_node;
          load_greatest_from fuel db (push_level_from_db self [(child_key, child_node)]) nibbles (db_reads + 1)
      end
  end.

Definition load_greatest_key (self : t) (db : DB) : exec (option (LeafNode.t * LoadAncestorsResult.t) * t) :=
  '(found, self) ← load_greatest_from (2 * KEY_SIZE + 1) db self Nibbles.EMPTY 0;
  Ret (match found with
       | Some (leaf, nibbles, db_reads) => Some (leaf, LoadAncestorsResult.mk [nibbles] db_reads)
       | None => None
       end, self).
End load.

(** *** Walking down *)
Fixpoint traverse_from (fuel : nat) (self : t) (key : Key) (nibble_idx : nat) : exec TraverseOutcome.t :=
  match fuel with
  | O => Panic
  | S fuel =>
      nibbles ← Nibbles.new key nibble_idx;
      match get self nibbles with
      | Some (Node.Internal _) => traverse_from fuel self key (S nibble_idx)
      | Some (Node.Leaf leaf) =>
          if decide (LeafNode.full_key leaf = key) then Ret (TraverseOutcome.LeafMatch nibbles leaf)
          else Ret (TraverseOutcome.LeafMismatch nibbles leaf)
      | None => Ret (TraverseOutcome.MissingChild nibbles)
      end
  end.
Definition traverse (self : t) (key : Key) (parent_nibbles : Nibbles.t) : exec TraverseOutcome.t :=
  let n := Nibbles.nibble_count parent_nibbles in
  traverse_from (2 * KEY_SIZE + 1 - n) self key n.

(** *** Proofs *)
Section proof.
Context `{HashTree}.

(** The loop from a position up to the level of [root_nibble_count]. *)
Fixpoint extend_path_up (fuel : nat) (self : t) (nibbles : Nibbles.t) (root_nibble_count : nat) (merkle_path : MerklePath.t)
    : exec (t * MerklePath.t) :=
  match fuel with
  | O => Panic
  | S fuel =>
      split ← Nibbles.split_last nibbles;
      match split with
      | None => Ret (self, merkle_path)
      | Some (parent_nibbles, last_nibble) =>
          if decide (Nibbles.nibble_count parent_nibbles < root_nibble_count)%nat then Ret (self, merkle_path)
          else
            match get self parent_nibbles with
            | Some (Node.Internal parent) =>
                let parent_level := (Nibbles.nibble_count parent_nibbles * 4)%nat in
                '(parent, merkle_path) ← extend_merkle_path_at parent parent_level last_nibble merkle_path;
                updated ← get_mut self parent_nibbles (λ _, Ret (Node.Internal parent));
                self ← expect updated;
                extend_path_up fuel self parent_nibbles root_nibble_count merkle_path
            | _ => Panic
            end
      end
  end.

Definition create_proof (self : t) (key : Key) (parent_nibbles : Nibbles.t) (root_nibble_count : nat)
    : exec (option LeafNode.t * MerklePath.t * t) :=
  traverse_outcome ← traverse self key parent_nibbles;
  let merkle_path :=
    match traverse_outcome with
    | TraverseOutcome.MissingChild _ | TraverseOutcome.LeafMatch _ _ => None
    | TraverseOutcome.LeafMismatch nibbles leaf =>
        let diverging_level := (find_diverging_bit key (LeafNode.full_key leaf) + 1)%nat in
        let nibble_count := Nibbles.nibble_count nibbles in
        let path := merkle_path_new diverging_level in
        let adjacent_hash := leaf_hash leaf diverging_level in
        let path := merkle_path_push path (Some adjacent_hash) in
        Some (foldl (λ path _, merkle_path_push path None) path
                (seq (4 * nibble_count + 1) (diverging_level - (4 * nibble_count + 1))))
    end in
  let nibbles := TraverseOutcome.position traverse_outcome in
  let leaf_level := (Nibbles.nibble_count nibbles * 4)%nat in
  let merkle_path := default (merkle_path_new leaf_level) merkle_path in
  '(self, merkle_path) ← extend_path_up (S (Nibbles.nibble_count nibbles)) self nibbles root_nibble_count merkle_path;
  let leaf :=
    match traverse_outcome with
    | TraverseOutcome.MissingChild _ | TraverseOutcome.LeafMismatch _ _ => None
    | TraverseOutcome.LeafMatch _ leaf => Some leaf
    end in
  Ret (leaf, merkle_path, self).
End proof.
End WorkingPatchSet.
