(* ===== verification/MerkleStorage.v ===== *)
(** * Updates of the persistent Merkle tree

    [lib/merkle_tree/src/storage/mod.rs], [lib.rs] and [getters.rs]: the insertion of
    an entry into the working set, the update of a version, and the tree's
    interface. Of the updater's statistics only [new_leaves] is kept, which
    [extend_with_proofs] reads. *)
From Stdlib Require Import ZifyNat.
From S2P Require Import Prelude SmallMap MerkleTypes MerkleHash MerklePatch.
Local Open Scope Z_scope.

Module NewLeafData.
Record t := mk { nibbles : Nibbles.t; leaf : LeafNode.t; adjacent_leaf : option (Nibbles.t * LeafNode.t) }.
Definition new (nibbles : Nibbles.t) (leaf : LeafNode.t) : t := mk nibbles leaf None.
Definition with_adjacent_leaf (self : t) (nibbles' : Nibbles.t) (leaf' : LeafNode.t) : t :=
  mk (nibbles self) (leaf self) (Some (nibbles', leaf')).
End NewLeafData.

Module TreeUpdater.
Record t := mk { new_leaves : Z; patch_set : WorkingPatchSet.t }.

Definition new (version : Z) (root : Root.t) : t := mk 0 (WorkingPatchSet.new version root).
Definition with_patch_set (self : t) (patch_set : WorkingPatchSet.t) : t := mk (new_leaves self) patch_set.
Definition set_root_node (self : t) (node : Node.t) : t :=
  with_patch_set self (WorkingPatchSet.insert (patch_set self) Nibbles.EMPTY node).

Definition insert_node (self : t) (nibbles : Nibbles.t) (node : Node.t) (is_new : bool) : t :=
  let new_leaves :=
    match node, is_new with
    | Node.Leaf _, true => wrap 64 (new_leaves self + 1)
    | _, _ => new_leaves self
    end in
  mk new_leaves (WorkingPatchSet.insert (patch_set self) nibbles node).

Definition update_moved_leaf_ref (self : t) (leaf_nibbles : Nibbles.t) : exec t :=
  split ← Nibbles.split_last leaf_nibbles;
  match split with
  | None => Ret self
  | Some (parent_nibbles, last_nibble) =>
      updated ← WorkingPatchSet.child_ref_mut (patch_set self) parent_nibbles last_nibble
        (λ r, ChildRef.with_is_leaf r false);
      patch_set ← expect updated;
      Ret (with_patch_set self patch_set)
  end.

(** The loop of the mismatch case: a path of internal nodes with one child, and the
    one where the keys diverge; keys have 64 nibbles. *)
Fixpoint insert_fork (fuel : nat) (self : t) (key full_key : Key) (version : Z) (nibble_idx : nat) : exec (t * nat) :=
  match fuel with
  | O => Panic
  | S fuel =>
      moved_leaf_nibble ← Nibbles.nibble full_key nibble_idx;
      new_leaf_nibble ← Nibbles.nibble key nibble_idx;
      node ← (if decide (moved_leaf_nibble = new_leaf_nibble) then
                InternalNode.insert_child_ref InternalNode.default new_leaf_nibble (ChildRef.internal version)
              else
                node ← InternalNode.insert_child_ref InternalNode.default new_leaf_nibble (ChildRef.leaf version);
                InternalNode.insert_child_ref node moved_leaf_nibble (ChildRef.leaf version));
      node_nibbles ← Nibbles.new key nibble_idx;
      let self := insert_node self node_nibbles (Node.Internal node) true in
      if decide (moved_leaf_nibble ≠ new_leaf_nibble) then Ret (self, nibble_idx)
      else insert_fork fuel self key full_key version (S nibble_idx)
  end.

(** The versions of the references from a position to the root. *)
Fixpoint update_versions (fuel : nat) (patch_set : WorkingPatchSet.t) (version : Z) (cursor : Nibbles.t)
    : exec WorkingPatchSet.t :=
  match fuel with
  | O => Panic
  | S fuel =>
      split ← Nibbles.split_last cursor;
      match split with
      | None => Ret patch_set
      | Some (parent_nibbles, last_nibble) =>
          updated ← WorkingPatchSet.child_ref_mut patch_set parent_nibbles last_nibble
            (λ r, ChildRef.with_version r (Z.max (ChildRef.version r) version));
          patch_set ← expect updated;
          update_versions fuel patch_set version parent_nibbles
      end
  end.

Definition insert (self : t) (entry : TreeEntry.t) (parent_nibbles : Nibbles.t)
    : exec (TreeLogEntry.t * NewLeafData.t * t) :=
  let version := WorkingPatchSet.root_version (patch_set self) in
  let key := TreeEntry.key entry in
  traverse_outcome ← WorkingPatchSet.traverse (patch_set self) key parent_nibbles;
  '(log, leaf_data, self) ←
    match traverse_outcome with
    | TraverseOutcome.LeafMatch nibbles leaf =>
        let log := TreeLogEntry.update (LeafNode.leaf_index leaf) (LeafNode.value_hash leaf) in
        let leaf := LeafNode.update_from leaf entry in
        let self := with_patch_set self (WorkingPatchSet.insert (patch_set self) nibbles (Node.Leaf leaf)) in
        Ret (log, NewLeafData.new nibbles leaf, self)
    | TraverseOutcome.LeafMismatch nibbles leaf =>
        self ← update_moved_leaf_ref self nibbles;
        '(self, nibble_idx) ←
          insert_fork (2 * KEY_SIZE + 1) self key (LeafNode.full_key leaf) version (Nibbles.nibble_count nibbles);
        let new_leaf := LeafNode.new entry in
        new_leaf_nibbles ← Nibbles.new key (nibble_idx + 1);
        let leaf_data := NewLeafData.new new_leaf_nibbles new_leaf in
        moved_leaf_nibbles ← Nibbles.new (LeafNode.full_key leaf) (nibble_idx + 1);
        Ret (TreeLogEntry.Inserted, NewLeafData.with_adjacent_leaf leaf_data moved_leaf_nibbles leaf, self)
    | TraverseOutcome.MissingChild nibbles =>
        if decide (Nibbles.nibble_count nibbles = 0%nat) then
          let root_leaf := LeafNode.new entry in
          Ret (TreeLogEntry.Inserted, NewLeafData.new Nibbles.EMPTY root_leaf, set_root_node self (Node.Leaf root_leaf))
        else
          split ← Nibbles.split_last nibbles;
          '(parent_nibbles, last_nibble) ← expect split;
          match WorkingPatchSet.get (patch_set self) parent_nibbles with
          | Some (Node.Internal parent) =>
              parent ← InternalNode.insert_child_ref parent last_nibble (ChildRef.leaf version);
              updated ← WorkingPatchSet.get_mut (patch_set self) parent_nibbles (λ _, Ret (Node.Internal parent));
              patch_set ← expect updated;
              let new_leaf := LeafNode.new entry in
              Ret (TreeLogEntry.Inserted, NewLeafData.new nibbles new_leaf, with_patch_set self patch_set)
          | _ => Panic
          end
    end;
  let self :=
    match log with
    | TreeLogEntry.Inserted => insert_node self (NewLeafData.nibbles leaf_data) (Node.Leaf (NewLeafData.leaf leaf_data)) true
    | _ => self
    end in
  let self :=
    match NewLeafData.adjacent_leaf leaf_data with
    | Some (nibbles, leaf) => insert_node self nibbles (Node.Leaf leaf) false
    | None => self
    end in
  let cursor := TraverseOutcome.position traverse_outcome in
  patch_set ← update_versions (S (Nibbles.nibble_count cursor)) (patch_set self) version cursor;
  Ret (log, leaf_data, with_patch_set self patch_set).
End TreeUpdater.

(** ** [Storage]: an update of a version *)
Module Storage.
Section storage.
Context {DB : Type} `{Database DB} `{HashTree} `{Unspecified}.

Record t := mk {
  db : DB;
  manifest : Manifest.t;
  leaf_count : Z;
  operation : Operation;
  updater : TreeUpdater.t;
}.
Definition with_updater (self : t) (updater : TreeUpdater.t) : t :=
  mk (db self) (manifest self) (leaf_count self) (operation self) updater.
Definition count_leaf (self : t) : t :=
  mk (db self) (manifest self) (wrap 64 (leaf_count self + 1)) (operation self) (updater self).

Definition new (db : DB) (version : Z) (create_new_version : bool) : exec t :=
  manifest ← MerklePatch.manifest db;
  let manifest := default Manifest.default manifest in
  let tags := match Manifest.tags manifest with None => Some (TreeTags.new name) | Some tags => Some tags end in
  let manifest := Manifest.mk (wrap 64 (version + 1)) tags in
  let base_version := if create_new_version then checked_sub version 1 else Some version in
  root ← match base_version with
         | Some base_version => root ← MerklePatch.root db base_version; Ret (default Root.Empty root)
         | None => Ret Root.Empty
         end;
  Ret (mk db manifest (Root.leaf_count root) (if create_new_version then Insert else Update) (TreeUpdater.new version root)).

(** [TreeUpdater::load_ancestors] *)
Definition load_ancestors (self : t) (keys : list Key) : exec (list Nibbles.t * t) :=
  '(result, patch_set) ← WorkingPatchSet.load_ancestors (TreeUpdater.patch_set (updater self)) (sorted_keys keys) (db self);
  Ret (LoadAncestorsResult.longest_prefixes result,
       with_updater self (TreeUpdater.with_patch_set (updater self) patch_set)).

Definition finalize (self : t) : exec (ValueHash * PatchSet.t) :=
  WorkingPatchSet.finalize (TreeUpdater.patch_set (updater self)) (manifest self) (leaf_count self) (operation self).

(** One entry of [extend]. *)
Definition extend_entry (st : t * list TreeLogEntry.t) (entry : TreeEntry.t * Nibbles.t) : exec (t * list TreeLogEntry.t) :=
  let '(self, logs) := st in
  let '(entry, parent_nibbles) := entry in
  '(log, _, updater) ← TreeUpdater.insert (updater self) entry parent_nibbles;
  let self := with_updater self updater in
  let self := match log with TreeLogEntry.Inserted => count_leaf self | _ => self end in
  Ret (self, logs ++ [log]).

Definition extend (self : t) (entries : list TreeEntry.t) : exec (BlockOutput.t * PatchSet.t) :=
  '(parent_nibbles, self) ← load_ancestors self (TreeEntry.key <$> entries);
  '(self, logs) ← foldM extend_entry (self, []) (zip entries parent_nibbles);
  let leaf_count := leaf_count self in
  '(root_hash, patch) ← finalize self;
  Ret (BlockOutput.mk root_hash leaf_count logs, patch).

(** [TreeUpdater::load_greatest_key]; the assertion on the one prefix holds by construction. *)
Definition load_greatest_key (self : t) : exec (option (LeafNode.t * Nibbles.t) * t) :=
  '(found, patch_set) ← WorkingPatchSet.load_greatest_key (TreeUpdater.patch_set (updater self)) (db self);
  let self := with_updater self (TreeUpdater.with_patch_set (updater self) patch_set) in
  match found with
  | None => Ret (None, self)
  | Some (leaf, load_result) =>
      assert_then (bool_decide (length (LoadAncestorsResult.longest_prefixes load_result) = 1%nat))
        (nibbles ← expect (LoadAncestorsResult.longest_prefixes load_result !! 0%nat);
         Ret (Some (leaf, nibbles), self))
  end.

Definition greatest_key (self : t) : exec (option Key) :=
  '(found, _) ← load_greatest_key self;
  Ret (match found with Some (leaf, _) => Some (LeafNode.full_key leaf) | None => None end).

(** One entry of [extend_during_linear_recovery]. *)
Definition linear_recovery_entry (st : t * option Key * Nibbles.t) (entry : TreeEntry.t) : exec (t * option Key * Nibbles.t) :=
  let '(self, prev_key, prev_nibbles) := st in
  assert_then (match prev_key with Some prev_key => bool_decide (prev_key < TreeEntry.key entry) | None => true end)
    (key_nibbles ← Nibbles.new (TreeEntry.key entry) (Nibbles.nibble_count prev_nibbles);
     parent_nibbles ← Nibbles.common_prefix prev_nibbles key_nibbles;
     '(_, new_leaf, updater) ← TreeUpdater.insert (updater self) entry parent_nibbles;
     Ret (count_leaf (with_updater self updater), Some (TreeEntry.key entry), NewLeafData.nibbles new_leaf)).

Definition extend_during_linear_recovery (self : t) (recovery_entries : list TreeEntry.t) : exec PatchSet.t :=
  '(found, self) ← load_greatest_key self;
  let '(prev_key, prev_nibbles) :=
    match found with
    | Some (leaf, nibbles) => (Some (LeafNode.full_key leaf), nibbles)
    | None => (None, Nibbles.EMPTY)
    end in
  '(self, _, _) ← foldM linear_recovery_entry (self, prev_key, prev_nibbles) recovery_entries;
  '(_, patch) ← finalize self;
  Ret patch.

Definition random_recovery_entry (self : t) (entry : TreeEntry.t * Nibbles.t) : exec t :=
  let '(entry, parent_nibbles) := entry in
  '(_, _, updater) ← TreeUpdater.insert (updater self) entry parent_nibbles;
  Ret (count_leaf (with_updater self updater)).

Definition extend_during_random_recovery (self : t) (recovery_entries : list TreeEntry.t) : exec PatchSet.t :=
  '(parent_nibbles, self) ← load_ancestors self (TreeEntry.key <$> recovery_entries);
  self ← foldM random_recovery_entry self (zip recovery_entries parent_nibbles);
  '(_, patch) ← finalize self;
  Ret patch.
End storage.
Arguments t : clear implicits.
End Storage.

(** ** [MerkleTree]: a tree is its database *)
Module MerkleTree.
Section merkle_tree.
Context {DB : Type} `{Database DB} `{HashTree} `{Unspecified}.

Definition with_hasher (db : DB) : exec (TreeTags.Inconsistency + unit) :=
  manifest ← manifest db;
  match (manifest ≫= Manifest.tags) with
  | Some tags => Ret (TreeTags.ensure_consistency tags name false)
  | None => Ret (inr ())
  end.

Definition root_hash (db : DB) (version : Z) : exec (option ValueHash) :=
  root ← root db version;
  Ret (match root with Some root => Some (MerkleHash.root_hash root) | None => None end).

Definition latest_version (db : DB) : exec (option Z) :=
  manifest ← manifest db;
  Ret (m ← manifest; checked_sub (Manifest.version_count m) 1).

Definition latest_root_hash (db : DB) : exec ValueHash :=
  latest ← latest_version db;
  hash ← match latest with Some version => root_hash db version | None => Ret None end;
  Ret (default empty_tree_hash hash).

Definition truncate_recent_versions (retained_version_count : Z) : prog DB () () := λ db,
  manifest ← manifest db;
  let manifest := default Manifest.default manifest in
  if decide (retained_version_count < Manifest.version_count manifest) then
    let manifest := Manifest.mk retained_version_count (Manifest.tags manifest) in
    apply_patch (PatchSet.from_manifest manifest) db
  else Ret (inr (), db).

Definition extend (entries : list TreeEntry.t) : prog DB () BlockOutput.t := λ db,
  manifest ← manifest db;
  let next_version := Manifest.version_count (default Manifest.default manifest) in
  storage ← Storage.new db next_version true;
  '(output, patch) ← Storage.extend storage entries;
  '(r, db) ← apply_patch patch db;
  Ret (match r with inr _ => inr output | inl e => inl e end, db).

(** *** Getters *)
Definition load_and_transform_entries {T} (db : DB) (version : Z) (leaf_keys : list Key)
    (transform : WorkingPatchSet.t → Key → Nibbles.t → exec (T * WorkingPatchSet.t))
    : exec (NoVersionError.t + list T) :=
  root ← root db version;
  match root with
  | None =>
      manifest ← manifest db;
      let manifest := default Manifest.default manifest in
      Ret (inl (NoVersionError.mk version (Manifest.version_count manifest)))
  | Some root =>
      let patch_set := WorkingPatchSet.new version root in
      '(result, patch_set) ← WorkingPatchSet.load_ancestors patch_set (sorted_keys leaf_keys) db;
      '(entries, _) ← foldM (λ '(entries, patch_set) '(leaf_key, longest_prefix),
          '(entry, patch_set) ← transform patch_set leaf_key longest_prefix;
          Ret (entries ++ [entry], patch_set))
        ([], patch_set) (zip leaf_keys (LoadAncestorsResult.longest_prefixes result));
      Ret (inr entries)
  end.

Definition extract_entry (patch_set : WorkingPatchSet.t) (leaf_key : Key) (longest_prefix : Nibbles.t)
    : exec (TreeEntry.t * WorkingPatchSet.t) :=
  Ret (match WorkingPatchSet.get patch_set longest_prefix with
       | Some (Node.Leaf leaf) =>
           if decide (LeafNode.full_key leaf = leaf_key) then entry_of_leaf leaf else TreeEntry.empty leaf_key
       | _ => TreeEntry.empty leaf_key
       end, patch_set).

Definition entries (db : DB) (version : Z) (leaf_keys : list Key) : exec (NoVersionError.t + list TreeEntry.t) :=
  load_and_transform_entries db version leaf_keys extract_entry.

Definition prove_entry (patch_set : WorkingPatchSet.t) (leaf_key : Key) (longest_prefix : Nibbles.t)
    : exec (TreeEntryWithProof.t * WorkingPatchSet.t) :=
  '(leaf, merkle_path, patch_set) ← WorkingPatchSet.create_proof patch_set leaf_key longest_prefix 0;
  let value := match leaf with Some leaf => LeafNode.value_hash leaf | None => 0 end in
  let leaf_index := match leaf with Some leaf => LeafNode.leaf_index leaf | None => 0 end in
  Ret (with_merkle_path (TreeEntry.mk leaf_key value leaf_index) (into_inner merkle_path), patch_set).

Definition entries_with_proofs (db : DB) (version : Z) (leaf_keys : list Key)
    : exec (NoVersionError.t + list TreeEntryWithProof.t) :=
  load_and_transform_entries db version leaf_keys prove_entry.
End merkle_tree.
End MerkleTree.
