(* ===== verification/MerkleView.v ===== *)
(** * The working set as a function of positions

    [view W n x] is the node of the working set at a position; the operations of
    [WorkingPatchSet] that [TreeUpdater::insert] uses, as updates of this function. *)
From Stdlib Require Import ZifyNat.
From S2P Require Import Prelude SmallMap MerkleTypes MerkleHash MerklePatch MerkleStorage.
Local Open Scope Z_scope.
Import Nibbles(pos_ok, of_pos, prefix, key_ok).

#[export] Instance pos_ok_dec n x : Decision (pos_ok n x).
Proof. unfold pos_ok. apply _. Defined.

Abbreviation View := (nat → Z → option WorkingNode.t).

Definition view (W : WorkingPatchSet.t) : View := λ n x,
  if decide (pos_ok n x) then WorkingPatchSet.get_working W (of_pos n x) else None.

(** The node at a position, without the version it was loaded from. *)
Definition vget (f : View) (n : nat) (x : Z) : option Node.t := WorkingNode.inner <$> f n x.

Definition same_pos (n n' : nat) (x x' : Z) : Prop := n' = n ∧ x' = x.
#[export] Instance same_pos_dec n n' x x' : Decision (same_pos n n' x x').
Proof. unfold same_pos. apply _. Defined.

(** The function with a node replaced; the version is retained. *)
Definition vset (f : View) (n : nat) (x : Z) (node : Node.t) : View := λ n' x',
  if decide (same_pos n n' x x') then Some (WorkingNode.mk node (f n x ≫= WorkingNode.prev_version)) else f n' x'.

Lemma vget_vset f n x node n' x' :
  vget (vset f n x node) n' x' = if decide (same_pos n n' x x') then Some node else vget f n' x'.
Proof. unfold vget, vset. by case_decide. Qed.

Lemma view_get W n x : pos_ok n x → vget (view W) n x = WorkingPatchSet.get W (of_pos n x).
Proof. intros Hp. unfold vget, view. by rewrite decide_True. Qed.

Lemma view_pos_ok W n x w : view W n x = Some w → pos_ok n x.
Proof. unfold view. by case_decide. Qed.

Lemma lookup_grow changes n i :
  WorkingPatchSet.grow changes n !! i =
    if decide (i < length changes)%nat then changes !! i else if decide (i < n)%nat then Some ∅ else None.
Proof.
  unfold WorkingPatchSet.grow. case_decide; [by apply lookup_app_l|]. rewrite lookup_app_r by lia. case_decide.
  - apply lookup_replicate_2. lia.
  - apply lookup_ge_None. rewrite length_replicate. lia.
Qed.

Lemma view_insert W n x node :
  pos_ok n x →
  (∀ n' x', view (WorkingPatchSet.insert W (of_pos n x) node) n' x' = vset (view W) n x node n' x') ∧
  WorkingPatchSet.root_version (WorkingPatchSet.insert W (of_pos n x) node) = WorkingPatchSet.root_version W.
Proof.
  intros Hp. split; [|done]. intros n' x'. unfold vset. destruct (decide (pos_ok n' x')) as [Hp'|Hp'].
  2: { unfold view at 1. rewrite decide_False by done. rewrite decide_False; [|by intros [-> ->]].
       unfold view. by rewrite decide_False. }
  unfold view at 1. rewrite decide_True by done. unfold view. rewrite (decide_True (P := pos_ok n x)), (decide_True (P := pos_ok n' x')) by done.
  unfold WorkingPatchSet.get_working, WorkingPatchSet.insert. cbn [WorkingPatchSet.changes_by_nibble_count WorkingPatchSet.with_changes].
  set (changes := WorkingPatchSet.changes_by_nibble_count W). change (Nibbles.nibble_count (of_pos n x)) with n.
  change (Nibbles.nibble_count (of_pos n' x')) with n'. set (g := WorkingPatchSet.grow changes (n + 1)).
  assert (Hg : g !! n = Some (default ∅ (changes !! n))).
  { unfold g. rewrite lookup_grow. case_decide.
    - destruct (lookup_lt_is_Some_2 changes n) as [l ->]; done.
    - rewrite decide_True by lia. by rewrite (proj2 (lookup_ge_None changes n)) by lia. }
  rewrite (list_lookup_total_correct _ _ _ Hg).
  assert (Hbytes : n' = n → Nibbles.bytes (of_pos n' x') = Nibbles.bytes (of_pos n x) ↔ x' = x).
  { intros ->. split; [by apply Nibbles.of_pos_inj|by intros ->]. }
  destruct (decide (n' = n)) as [->|Hne].
  - rewrite list_lookup_insert_eq by (by eapply lookup_lt_Some). cbn [mbind option_bind].
    destruct (decide (x' = x)) as [->|].
    + rewrite decide_True by done. rewrite lookup_insert_eq. f_equal.
      destruct (changes !! n) as [l|]; cbn; [|by rewrite lookup_empty].
      by destruct (l !! Nibbles.bytes (of_pos n x)).
    + rewrite decide_False by (intros [_ ->]; done). rewrite lookup_insert_ne by (intros Heq; symmetry in Heq; by apply Hbytes in Heq).
      destruct (changes !! n); cbn; [done|]. by rewrite lookup_empty.
  - rewrite decide_False by (intros [-> _]; done). rewrite list_lookup_insert_ne by done.
    unfold g. rewrite lookup_grow. case_decide; [done|]. case_decide.
    + by rewrite (proj2 (lookup_ge_None changes n')) by lia.
    + by rewrite (proj2 (lookup_ge_None changes n')) by lia.
Qed.

(** Every entry of a level is at a position. *)
Definition levels_ok (W : WorkingPatchSet.t) : Prop := ∀ n level bs w,
  WorkingPatchSet.changes_by_nibble_count W !! n = Some level → level !! bs = Some w →
  ∃ x, pos_ok n x ∧ bs = Nibbles.bytes (of_pos n x).

Lemma levels_ok_insert W n x node :
  pos_ok n x → levels_ok W → levels_ok (WorkingPatchSet.insert W (of_pos n x) node).
Proof.
  intros Hp Hl n' level bs w. unfold WorkingPatchSet.insert. cbn [WorkingPatchSet.changes_by_nibble_count WorkingPatchSet.with_changes].
  change (Nibbles.nibble_count (of_pos n x)) with n. set (changes := WorkingPatchSet.changes_by_nibble_count W).
  assert (Hg : ∀ i l b w, WorkingPatchSet.grow changes (n + 1) !! i = Some l → l !! b = Some w →
    ∃ x, pos_ok i x ∧ b = Nibbles.bytes (of_pos i x)).
  { intros i l b w'. rewrite lookup_grow. repeat case_decide; [apply Hl| |done]. intros [= <-]. by rewrite lookup_empty. }
  destruct (decide (n' = n)) as [->|Hne].
  - intros Hlv Hb. apply list_lookup_insert_Some in Hlv as [(_ & <- & Hlt)|(? & _)]; [|done].
    destruct (lookup_lt_is_Some_2 _ _ Hlt) as [l Hlk]. rewrite (list_lookup_total_correct _ _ _ Hlk) in Hb.
    apply lookup_insert_Some in Hb as [[<- _]|[_ Hb]]; [by eexists|]. by eapply Hg.
  - rewrite list_lookup_insert_ne by done. apply Hg.
Qed.

Lemma view_update W n x w node :
  view W n x = Some w →
  let W' := WorkingPatchSet.with_changes W
    (<[n := <[Nibbles.bytes (of_pos n x) := WorkingNode.with_inner w node]>
        (WorkingPatchSet.changes_by_nibble_count W !!! n)]> (WorkingPatchSet.changes_by_nibble_count W)) in
  (∀ n' x', view W' n' x' = vset (view W) n x node n' x') ∧ (levels_ok W → levels_ok W').
Proof.
  intros Hw. pose proof (view_pos_ok _ _ _ _ Hw) as Hp. unfold view in Hw. rewrite decide_True in Hw by done.
  unfold WorkingPatchSet.get_working in Hw. change (Nibbles.nibble_count (of_pos n x)) with n in Hw.
  apply bind_Some in Hw as (level & Hlv & Hlx). rewrite (list_lookup_total_correct _ _ _ Hlv). split.
  - intros n' x'. unfold vset, view. destruct (decide (pos_ok n' x')) as [Hp'|Hp'].
    2: { rewrite decide_False; [done|]. intros [-> ->]. by apply Hp'. }
    rewrite (decide_True (P := pos_ok n x)) by done.
    unfold WorkingPatchSet.get_working. cbn [WorkingPatchSet.changes_by_nibble_count WorkingPatchSet.with_changes].
    change (Nibbles.nibble_count (of_pos n' x')) with n'. change (Nibbles.nibble_count (of_pos n x)) with n.
    rewrite Hlv. cbn [mbind option_bind]. rewrite Hlx. destruct (decide (n' = n)) as [->|].
    + rewrite list_lookup_insert_eq by (by eapply lookup_lt_Some). cbn [mbind option_bind].
      destruct (decide (x' = x)) as [->|].
      * rewrite decide_True by done. by rewrite lookup_insert_eq.
      * rewrite decide_False by (intros [_ ->]; done). rewrite Hlv. cbn.
        rewrite lookup_insert_ne; [done|]. intros Heq. by apply Nibbles.of_pos_inj in Heq.
    + rewrite decide_False by (intros [-> _]; done). by rewrite list_lookup_insert_ne by done.
  - intros Hl n' level' bs w'. cbn [WorkingPatchSet.changes_by_nibble_count WorkingPatchSet.with_changes].
    destruct (decide (n' = n)) as [->|]; [|rewrite list_lookup_insert_ne by done; apply Hl].
    rewrite list_lookup_insert_eq by (by eapply lookup_lt_Some). intros [= <-] Hb.
    apply lookup_insert_Some in Hb as [[<- _]|[_ Hb]]; [by eexists|]. by eapply Hl.
Qed.

Lemma view_get_mut W n x w f node :
  view W n x = Some w → f (WorkingNode.inner w) = Ret node →
  ∃ W', WorkingPatchSet.get_mut W (of_pos n x) f = Ret (Some W') ∧
    WorkingPatchSet.root_version W' = WorkingPatchSet.root_version W ∧
    (∀ n' x', view W' n' x' = vset (view W) n x node n' x') ∧ (levels_ok W → levels_ok W').
Proof.
  intros Hw Hf. pose proof (view_update W n x w node Hw) as Hup. pose proof (view_pos_ok _ _ _ _ Hw) as Hp.
  unfold view in Hw. rewrite decide_True in Hw by done. unfold WorkingPatchSet.get_working in Hw.
  change (Nibbles.nibble_count (of_pos n x)) with n in Hw. apply bind_Some in Hw as (level & Hlv & Hlx).
  rewrite (list_lookup_total_correct _ _ _ Hlv) in Hup. eexists. split; [|split; [|exact Hup]]; [|done].
  unfold WorkingPatchSet.get_mut. change (Nibbles.nibble_count (of_pos n x)) with n. rewrite Hlv, Hlx, Hf. done.
Qed.

Lemma view_child_ref W n x c d :
  vget (view W) n x = Some (Node.Internal c) → InternalNode.wf c → 0 ≤ d < 16 →
  WorkingPatchSet.child_ref W (of_pos n x) d = Ret (InternalNode.refs c d).
Proof.
  intros Hc Hwf Hd. assert (pos_ok n x).
  { unfold vget in Hc. destruct (view W n x) eqn:E; [|done]. by eapply view_pos_ok. }
  rewrite view_get in Hc by done. unfold WorkingPatchSet.child_ref. rewrite Hc. by apply InternalNode.child_ref_ok.
Qed.

Lemma view_child_ref_mut W n x c d r f :
  vget (view W) n x = Some (Node.Internal c) → InternalNode.wf c → InternalNode.refs c d = Some r →
  ∃ W' c', WorkingPatchSet.child_ref_mut W (of_pos n x) d f = Ret (Some W') ∧
    WorkingPatchSet.root_version W' = WorkingPatchSet.root_version W ∧
    InternalNode.wf c' ∧ InternalNode.cache c' = InternalNode.cache c ∧
    (∀ j, InternalNode.refs c' j = if decide (j = d) then Some (f r) else InternalNode.refs c j) ∧
    (∀ n' x', view W' n' x' = vset (view W) n x (Node.Internal c') n' x') ∧ (levels_ok W → levels_ok W').
Proof.
  intros Hc Hwf Hr. pose proof (InternalNode.refs_range _ _ _ Hwf Hr) as Hd.
  unfold vget in Hc. destruct (view W n x) as [w|] eqn:Hw; [|done]. injection Hc as Hc.
  pose proof (view_pos_ok _ _ _ _ Hw) as Hp.
  unfold WorkingPatchSet.child_ref_mut. rewrite <-view_get by done. unfold vget. rewrite Hw. cbn [fmap option_fmap option_map]. rewrite Hc.
  pose proof (InternalNode.child_ref_mut_ok c d f Hwf Hd) as Hm. rewrite Hr in Hm.
  destruct Hm as (c' & -> & Hwf' & Hcache & Hrefs). cbn [mbind exec_bind].
  destruct (view_get_mut W n x w (λ _, Ret (Node.Internal c')) (Node.Internal c') Hw eq_refl) as (W' & -> & Hv & Hview & Hl).
  exists W', c'. done.
Qed.
