(* ===== verification/MerkleInvariant.v ===== *)
(** * The invariant of the working set

    What a stored version of the tree holds ([stored]) and what the working set holds
    while entries are inserted ([sinv], [vinv], [pinv]): each node is about exactly
    the entries of the map that are under its position. *)
From Stdlib Require Import ZifyNat.
From S2P Require Import Prelude SmallMap MerkleTypes MerkleHash MerklePatch MerkleStorage MerkleView.
Local Open Scope Z_scope.
Import Nibbles(pos_ok, of_pos, prefix, key_ok).
#[local] Opaque TREE_DEPTH.

(** ** Maps and positions *)
Definition entry_ok (k : Key) (e : ValueHash * Z) : Prop := key_ok k ∧ in_width 256 e.1 ∧ in_width 64 e.2.
Definition map_ok (m : treemap) : Prop := map_Forall entry_ok m.

Definition no_keys_at (m : treemap) (n : nat) (x : Z) : Prop := ∀ k, prefix n k = x → m !! k = None.
Definition leaf_inv (m : treemap) (n : nat) (x : Z) (l : LeafNode.t) : Prop :=
  prefix n (LeafNode.full_key l) = x ∧
  m !! LeafNode.full_key l = Some (LeafNode.value_hash l, LeafNode.leaf_index l) ∧
  ∀ k, prefix n k = x → k ≠ LeafNode.full_key l → m !! k = None.

(** The digit of a key below a position of [n] nibbles. *)
Definition digit (n : nat) (k : Key) : Z := prefix (S n) k mod 16.

Lemma digit_range n k : 0 ≤ digit n k < 16.
Proof. unfold digit. lia. Qed.

Lemma prefix_child n k : (n < 64)%nat → prefix (S n) k = 16 * prefix n k + digit n k.
Proof. intros. rewrite (Nibbles.prefix_S k n) by done. unfold digit. lia. Qed.

Lemma prefix_child_iff n k x d :
  (n < 64)%nat → 0 ≤ d < 16 → prefix (S n) k = 16 * x + d ↔ prefix n k = x ∧ d = digit n k.
Proof. intros Hn Hd. pose proof (digit_range n k). rewrite prefix_child by done. lia. Qed.

Lemma under_prefix n x k : (n ≤ 64)%nat → under (TREE_DEPTH - n * 4) x k ↔ prefix n k = x.
Proof.
  intros Hn. unfold under, prefix. rewrite tree_depth_256. change 16 with (2 ^ 4).
  rewrite <-Z.pow_mul_r by lia. replace (Z.of_nat (256 - n * 4)) with (4 * (64 - Z.of_nat n)) by lia. done.
Qed.

Section stored.
Context `{HashTree}.

Definition phash (m : treemap) (n : nat) (x : Z) : ValueHash := ref_hash m (TREE_DEPTH - n * 4) x.

Lemma phash_ext m m' n x :
  (n ≤ 64)%nat → (∀ k, prefix n k = x → m !! k = m' !! k) → phash m n x = phash m' n x.
Proof. intros Hn Heq. apply ref_hash_ext. intros k Hk. apply Heq. by apply under_prefix. Qed.

Context {DB : Type} `{Database DB} (db : DB).

(** The node [node] at [x], with [h] nibbles below it, and the nodes its references
    lead to in the database, are the tree of the entries of [m] under [x]; no
    reference is to a version above [vmax]. *)
Fixpoint stored_below (h : nat) (m : treemap) (vmax : Z) (x : Z) (node : Node.t) : Prop :=
  match node, h with
  | Node.Leaf l, _ => leaf_inv m (64 - h) x l
  | Node.Internal c, O => False
  | Node.Internal c, S h =>
      InternalNode.wf c ∧ InternalNode.cache c = None ∧ (∃ d r, InternalNode.refs c d = Some r) ∧
      ∀ d, 0 ≤ d < 16 →
        match InternalNode.refs c d with
        | None => no_keys_at m (64 - h) (16 * x + d)
        | Some r =>
            0 ≤ ChildRef.version r ≤ vmax ∧ ChildRef.hash r = phash m (64 - h) (16 * x + d) ∧
            ∃ node', tree_node db (NodeKey.mk (ChildRef.version r) (of_pos (64 - h) (16 * x + d))) (ChildRef.is_leaf r)
                = Ret (Some node') ∧
              Node.is_leaf node' = ChildRef.is_leaf r ∧ stored_below h m (ChildRef.version r) (16 * x + d) node'
        end
  end.
Definition stored (n : nat) (m : treemap) (vmax : Z) (x : Z) (node : Node.t) : Prop := stored_below (64 - n) m vmax x node.

(** What a reference leads to. *)
Definition stored_ref (m : treemap) (n : nat) (x : Z) (r : ChildRef.t) : Prop :=
  0 ≤ ChildRef.version r ∧ ChildRef.hash r = phash m n x ∧
  ∃ node', tree_node db (NodeKey.mk (ChildRef.version r) (of_pos n x)) (ChildRef.is_leaf r) = Ret (Some node') ∧
    Node.is_leaf node' = ChildRef.is_leaf r ∧ stored n m (ChildRef.version r) x node'.

Lemma stored_leaf n m vmax x l : (n ≤ 64)%nat → stored n m vmax x (Node.Leaf l) ↔ leaf_inv m n x l.
Proof.
  intros. unfold stored. destruct (64 - n)%nat as [|h] eqn:E; cbn [stored_below].
  - by replace (64 - 0)%nat with n by lia.
  - by replace (64 - S h)%nat with n by lia.
Qed.

Lemma stored_internal n m vmax x c :
  (n ≤ 64)%nat →
  stored n m vmax x (Node.Internal c) ↔
  (n < 64)%nat ∧ InternalNode.wf c ∧ InternalNode.cache c = None ∧ (∃ d r, InternalNode.refs c d = Some r) ∧
  ∀ d, 0 ≤ d < 16 →
    match InternalNode.refs c d with
    | None => no_keys_at m (S n) (16 * x + d)
    | Some r => ChildRef.version r ≤ vmax ∧ stored_ref m (S n) (16 * x + d) r
    end.
Proof.
  intros Hn. unfold stored. destruct (64 - n)%nat as [|h] eqn:E; cbn [stored_below].
  - split; [done|]. intros [? _]. lia.
  - unfold stored_ref, stored. replace (64 - S n)%nat with h by lia. replace (64 - h)%nat with (S n) by lia.
    split.
    + intros (Hwf & Hc & Hne & Hd). split_and!; [lia|done|done|done|]. intros d Hr. specialize (Hd d Hr).
      destruct (InternalNode.refs c d); naive_solver.
    + intros (_ & Hwf & Hc & Hne & Hd). split_and!; [done|done|done|]. intros d Hr. specialize (Hd d Hr).
      destruct (InternalNode.refs c d); naive_solver.
Qed.
End stored.

Lemma leaf_inv_ext m m' n x l :
  (∀ k, prefix n k = x → m !! k = m' !! k) → leaf_inv m n x l → leaf_inv m' n x l.
Proof.
  intros Heq (Hp & Hl & Hu). split_and!; [done|by rewrite <-Heq|]. intros k Hk Hne. rewrite <-Heq by done. by apply Hu.
Qed.

Lemma no_keys_at_ext m m' n x :
  (∀ k, prefix n k = x → m !! k = m' !! k) → no_keys_at m n x → no_keys_at m' n x.
Proof. intros Heq Hno k Hk. rewrite <-Heq by done. by apply Hno. Qed.

(** A node whose references have the hashes of their subtrees. *)
Definition hash_ok `{HashTree} (m : treemap) (n : nat) (x : Z) (node : Node.t) : Prop :=
  match node with
  | Node.Leaf l => leaf_inv m n x l
  | Node.Internal c =>
      (n < 64)%nat ∧ InternalNode.wf c ∧
      ∀ d, 0 ≤ d < 16 →
        match InternalNode.refs c d with
        | None => no_keys_at m (S n) (16 * x + d)
        | Some r => ChildRef.hash r = phash m (S n) (16 * x + d)
        end
  end.

Section laws.
Context `{HashTree} `{!HashTreeLaws}.

Lemma phash_no_keys m n x : (n ≤ 64)%nat → no_keys_at m n x → phash m n x = empty_subtree_hash (TREE_DEPTH - n * 4).
Proof using All.
  intros Hn Hno. apply ref_hash_empty; [lia|]. intros k Hk. apply Hno. by apply under_prefix.
Qed.

Lemma hash_ok_children m n x c :
  hash_ok m n x (Node.Internal c) → children_ok m (n * 4) x c.
Proof using All.
  intros (Hn & Hwf & Hd) d Hr. replace (TREE_DEPTH - (n * 4 + 4))%nat with (TREE_DEPTH - S n * 4)%nat by lia.
  specialize (Hd d Hr). destruct (InternalNode.refs c d) as [r|]; [done|].
  symmetry. apply (phash_no_keys m (S n)); [lia|done].
Qed.

Lemma node_hash_ok m n x node : (n ≤ 64)%nat → hash_ok m n x node → node_hash node (n * 4) = phash m n x.
Proof using All.
  intros Hn Hok. destruct node as [c|l].
  - destruct Hok as (Hlt & Hwf & Hd). apply internal_hash_ref; [rewrite tree_depth_256; lia|done|by apply hash_ok_children].
  - destruct Hok as (Hp & Hl & Hu). apply leaf_hash_ref; [rewrite tree_depth_256; lia| |done]. split.
    + by apply under_prefix.
    + intros k Hk. apply Hu. by apply under_prefix.
Qed.

Context {DB : Type} `{Database DB}.

Lemma stored_hash_ok (db : DB) n m vmax x node : (n ≤ 64)%nat → stored db n m vmax x node → hash_ok m n x node.
Proof using.
  intros Hn Hs. destruct node as [c|l]; [|by apply stored_leaf in Hs].
  apply stored_internal in Hs as (Hlt & Hwf & _ & _ & Hd); [|done]. split_and!; [done|done|]. intros d Hr.
  specialize (Hd d Hr). destruct (InternalNode.refs c d); [|done]. by destruct Hd as (_ & _ & ? & _).
Qed.

(** A stored tree has entries. *)
Lemma stored_nonempty (db : DB) n m vmax x node :
  (n ≤ 64)%nat → stored db n m vmax x node → ∃ k, prefix n k = x ∧ is_Some (m !! k).
Proof using.
  intros Hn. remember (64 - n)%nat as h eqn:Eh. revert n vmax x node Eh Hn.
  induction h as [|h IH]; intros n vmax x [c|l] Eh Hn Hs;
    [apply stored_internal in Hs as [? _]; lia| | |];
    [apply stored_leaf in Hs as (? & Hl & _); [|done]; eexists; split; [done|by rewrite Hl]| |
     apply stored_leaf in Hs as (? & Hl & _); [|done]; eexists; split; [done|by rewrite Hl]].
  apply stored_internal in Hs as (Hlt & Hwf & _ & (d & r & Hr) & Hd); [|done].
  pose proof (InternalNode.refs_range _ _ _ Hwf Hr) as Hdr. specialize (Hd d Hdr). rewrite Hr in Hd.
  destruct Hd as (_ & _ & _ & node' & _ & _ & Hs). destruct (IH (S n) _ _ _ ltac:(lia) ltac:(lia) Hs) as (k & Hk & Hm).
  exists k. split; [|done]. by apply prefix_child_iff in Hk as [? _].
Qed.

(** A stored tree depends on the entries under it and on the nodes up to its version. *)
Lemma stored_transfer {DB'} `{Database DB'} (db : DB) (db' : DB') m m' n vmax x node :
  pos_ok n x → vmax < 2 ^ 64 →
  (∀ key node, key_storable key → NodeKey.is_empty key = false → NodeKey.version key ≤ vmax →
    tree_node db key (Node.is_leaf node) = Ret (Some node) → tree_node db' key (Node.is_leaf node) = Ret (Some node)) →
  (∀ k, prefix n k = x → m !! k = m' !! k) →
  stored db n m vmax x node → stored db' n m' vmax x node.
Proof using.
  intros Hp Hv Hdb. remember (64 - n)%nat as h eqn:Eh. revert n vmax x node Eh Hp Hv Hdb.
  induction h as [|h IH]; intros n vmax x node Eh [Hn Hx] Hv Hdb Heq Hs.
  - destruct node as [c|l]; [apply stored_internal in Hs as [? _]; lia|].
    apply stored_leaf; [done|]. apply stored_leaf in Hs; [|done]. by eapply leaf_inv_ext.
  - destruct node as [c|l].
    2: { apply stored_leaf; [done|]. apply stored_leaf in Hs; [|done]. by eapply leaf_inv_ext. }
    apply stored_internal in Hs as (Hlt & Hwf & Hc & Hne & Hd); [|done]. apply stored_internal; [done|].
    split_and!; [done..|]. intros d Hr. specialize (Hd d Hr).
    assert (Hunder : ∀ k, prefix (S n) k = 16 * x + d → m !! k = m' !! k).
    { intros k Hk. apply Heq. by apply prefix_child_iff in Hk as [? _]. }
    assert (Hpc : pos_ok (S n) (16 * x + d)) by (by apply Nibbles.pos_ok_child).
    destruct (InternalNode.refs c d) as [r|]; [|by eapply no_keys_at_ext].
    destruct Hd as (Hle & Hge & Hh & node' & Hnode & Hleaf & Hs). split; [done|]. split; [done|].
    split; [rewrite Hh; apply phash_ext; [lia|done]|]. exists node'. split_and!; [|done|].
    + rewrite <-Hleaf in Hnode |- *. apply Hdb; [|done..]. split; [split; cbn; lia|]. by exists (S n), (16 * x + d).
    + eapply IH; [lia|done|lia| |exact Hunder|done]. intros key b Hk He Hle'. apply Hdb; [done..|lia].
Qed.

Lemma stored_ext (db db' : DB) m m' n vmax x node :
  pos_ok n x → vmax < 2 ^ 64 →
  (∀ key is_leaf, key_storable key → NodeKey.is_empty key = false → NodeKey.version key ≤ vmax →
    tree_node db' key is_leaf = tree_node db key is_leaf) →
  (∀ k, prefix n k = x → m !! k = m' !! k) →
  stored db n m vmax x node → stored db' n m' vmax x node.
Proof using.
  intros Hp Hv Hdb. apply stored_transfer; [done|done|]. intros key b Hk He Hle. by rewrite Hdb.
Qed.
End laws.

(** ** The working set

    [P] is the set of positions on the paths of the keys that are still to be
    inserted: there, every node that is referred to is loaded. Elsewhere the loaded
    nodes are of the new version [v]. A reference that is not loaded is one of the
    old version. *)

(** The references of the version that the working set is made from. *)
Class OldRefs := old_ref : nat → Z → ChildRef.t → Prop.

Section working.
Context {DB : Type} `{Database DB} `{HashTree} `{OR : OldRefs} (db : DB) (v : Z).
Implicit Types (f g : View) (m : treemap) (P : nat → Z → Prop) (c : InternalNode.t) (k : Key).

Definition child_inv f m P (n : nat) (x : Z) c (d : Z) : Prop :=
  match InternalNode.refs c d with
  | None => vget f (S n) (16 * x + d) = None ∧ no_keys_at m (S n) (16 * x + d)
  | Some r =>
      0 ≤ ChildRef.version r ≤ v ∧
      match vget f (S n) (16 * x + d) with
      | Some node => Node.is_leaf node = ChildRef.is_leaf r ∧ (ChildRef.version r = v ∨ P (S n) (16 * x + d))
      | None => ChildRef.version r < v ∧ stored_ref db m (S n) (16 * x + d) r ∧ ¬ P (S n) (16 * x + d) ∧ old_ref (S n) (16 * x + d) r
      end
  end.

Definition node_inv f m P (n : nat) (x : Z) (node : Node.t) : Prop :=
  match node with
  | Node.Leaf l => leaf_inv m n x l
  | Node.Internal c =>
      (n < 64)%nat ∧ InternalNode.wf c ∧ (∃ d r, InternalNode.refs c d = Some r) ∧
      ∀ d, 0 ≤ d < 16 → child_inv f m P n x c d
  end.

Record sinv f m P : Prop := {
  s_width : in_width 64 v;
  s_map : map_ok m;
  s_root : vget f 0 0 = None → m = ∅;
  s_pos n x node : vget f n x = Some node → pos_ok n x;
  s_parent n x node : vget f (S n) x = Some node → ∃ c, vget f n (x / 16) = Some (Node.Internal c);
  s_node n x node : vget f n x = Some node → node_inv f m P n x node;
}.

Definition feq f g : Prop := ∀ n x, vget f n x = vget g n x.

Lemma sinv_ext f g m P : feq f g → sinv f m P → sinv g m P.
Proof using.
  intros Heq [Hw Hm Hr Hp Hpa Hn]. split; [done|done| | | |].
  - by rewrite <-Heq.
  - intros n x node. rewrite <-Heq. apply Hp.
  - intros n x node. rewrite <-!Heq. apply Hpa.
  - intros n x node. rewrite <-Heq. intros Hx. specialize (Hn _ _ _ Hx). destruct node as [c|l]; [|done].
    destruct Hn as (? & ? & ? & Hd). split_and!; [done..|]. intros d Hdr. specialize (Hd d Hdr).
    unfold child_inv in *. by rewrite <-Heq.
Qed.

Lemma child_inv_frame f f' m m' P n x c d :
  (n < 64)%nat → (∀ k, prefix (S n) k = 16 * x + d → m !! k = m' !! k) → pos_ok (S n) (16 * x + d) → v < 2 ^ 64 →
  vget f' (S n) (16 * x + d) = vget f (S n) (16 * x + d) →
  child_inv f m P n x c d → child_inv f' m' P n x c d.
Proof using.
  intros Hn Heq Hpos Hv Hf. unfold child_inv. rewrite Hf. destruct (InternalNode.refs c d) as [r|].
  - intros [Hr Hd]. split; [done|]. destruct (vget f _ _); [done|]. destruct Hd as (Hlt & Hs & HP). split; [done|]. split; [|done].
    destruct Hs as (Hge & Hh & node & Ht & Hl & Hs). split; [done|].
    split; [rewrite Hh; apply phash_ext; [lia|done]|]. exists node. split_and!; [done..|]. eapply stored_ext; [done|lia|done|done|done].
  - intros [? Hno]. split; [done|]. by eapply no_keys_at_ext.
Qed.

Lemma child_inv_loaded f f' m m' P n x c d node node' :
  vget f (S n) (16 * x + d) = Some node → vget f' (S n) (16 * x + d) = Some node' →
  Node.is_leaf node' = Node.is_leaf node → child_inv f m P n x c d → child_inv f' m' P n x c d.
Proof using.
  intros Hf Hf' Hl. unfold child_inv. rewrite Hf, Hf', Hl. by destruct (InternalNode.refs c d) as [r|]; [|intros [? _]].
Qed.

(** *** Paths to the root *)
Lemma prefix_up n k : (S n ≤ 64)%nat → prefix (S n) k / 16 = prefix n k.
Proof using. intros. rewrite prefix_child by lia. pose proof (digit_range n k). lia. Qed.

Lemma path_up f m P k n node :
  sinv f m P → vget f n (prefix n k) = Some node →
  ∀ n0, (n0 < n)%nat → ∃ c, vget f n0 (prefix n0 k) = Some (Node.Internal c).
Proof using.
  intros Hs. revert node. induction n as [|n IH]; intros node Hx n0 Hlt; [lia|].
  pose proof (s_pos _ _ _ Hs _ _ _ Hx) as [Hle _]. destruct (s_parent _ _ _ Hs _ _ _ Hx) as [c Hc].
  rewrite prefix_up in Hc by done. destruct (decide (n0 = n)) as [->|]; [by eexists|]. eapply IH; [done|lia].
Qed.

Lemma path_down f m P k n :
  sinv f m P → (∀ c, vget f n (prefix n k) ≠ Some (Node.Internal c)) →
  ∀ n', (n < n')%nat → vget f n' (prefix n' k) = None.
Proof using.
  intros Hs Hn n' Hlt. destruct (vget f n' (prefix n' k)) eqn:E; [|done].
  destruct (path_up _ _ _ _ _ _ Hs E n Hlt) as [c Hc]. by destruct (Hn c).
Qed.

Lemma root_on_path f m P n x node : sinv f m P → vget f n x = Some node → ∃ node0, vget f 0 0 = Some node0.
Proof using.
  intros Hs. revert x node. induction n as [|n IH]; intros x node Hx.
  - destruct (s_pos _ _ _ Hs _ _ _ Hx) as [_ Hr]. replace x with 0 in Hx by lia. by eexists.
  - destruct (s_parent _ _ _ Hs _ _ _ Hx) as [c Hc]. by eapply IH.
Qed.

(** A node off the path of [k] is not affected by what happens to [k]. *)
Lemma node_inv_frame f f' m m' P n x node k :
  pos_ok n x → in_width 64 v → (∀ k', k' ≠ k → m !! k' = m' !! k') → prefix n k ≠ x →
  (∀ d, (n < 64)%nat → 0 ≤ d < 16 → vget f' (S n) (16 * x + d) = vget f (S n) (16 * x + d)) →
  node_inv f m P n x node → node_inv f' m' P n x node.
Proof using.
  intros Hp [_ Hv] Hm Hoff Hf. destruct node as [c|l]; cbn.
  - intros (Hn & Hwf & Hne & Hd). split_and!; [done..|]. intros d Hdr.
    eapply child_inv_frame; [done| |by apply Nibbles.pos_ok_child|done|by apply Hf|by apply Hd].
    intros k' Hk'. apply Hm. intros ->. apply prefix_child_iff in Hk' as [? _]; done.
  - apply leaf_inv_ext. intros k' Hk'. apply Hm. by intros ->.
Qed.

(** An internal node above a loaded node of the path of [k], likewise. *)
Lemma node_inv_above f f' m m' P n k c node node' :
  key_ok k → in_width 64 v → (∀ k', k' ≠ k → m !! k' = m' !! k') →
  vget f (S n) (prefix (S n) k) = Some node → vget f' (S n) (prefix (S n) k) = Some node' →
  Node.is_leaf node' = Node.is_leaf node →
  (∀ d, 0 ≤ d < 16 → d ≠ digit n k → vget f' (S n) (16 * prefix n k + d) = vget f (S n) (16 * prefix n k + d)) →
  node_inv f m P n (prefix n k) (Node.Internal c) → node_inv f' m' P n (prefix n k) (Node.Internal c).
Proof using.
  intros Hk [_ Hv] Hm Hf Hf' Hl Hoff (Hn & Hwf & Hne & Hd). split_and!; [done..|]. intros d Hdr.
  destruct (decide (d = digit n k)) as [->|Hdk].
  - rewrite prefix_child in Hf, Hf' by done. eapply (child_inv_loaded f f' m m'); [done..|]. by apply Hd, digit_range.
  - eapply child_inv_frame; [done| | |done|by apply Hoff|by apply Hd].
    + intros k' Hk'. apply Hm. intros ->. apply prefix_child_iff in Hk' as [_ ?]; done.
    + apply Nibbles.pos_ok_child; [done| |done]. apply Nibbles.prefix_ok; [done|lia].
Qed.

Lemma entry_insert_ok m k e : map_ok m → entry_ok k e → map_ok (<[k := e]> m).
Proof using. intros Hm He. by apply map_Forall_insert_2. Qed.

Lemma on_path_le f m P k n n0 node :
  sinv f m P → (∀ c, vget f n (prefix n k) ≠ Some (Node.Internal c)) → vget f n0 (prefix n0 k) = Some node → (n0 ≤ n)%nat.
Proof using.
  intros Hs Hn Hx. destruct (decide (n0 ≤ n)%nat); [done|]. by rewrite (path_down _ _ _ _ _ Hs Hn) in Hx by lia.
Qed.

(** A node that an operation on [k] leaves as it is: it is off the path of [k], or
    above a node that stays of its kind. *)
Lemma node_inv_unchanged f f' m P k (e : ValueHash * Z) n x node :
  sinv f m P → key_ok k → (∀ n x, prefix n k ≠ x → vget f' n x = vget f n x) → vget f n x = Some node →
  (prefix n k = x → ∃ c a b, node = Node.Internal c ∧
    vget f (S n) (prefix (S n) k) = Some a ∧ vget f' (S n) (prefix (S n) k) = Some b ∧ Node.is_leaf b = Node.is_leaf a) →
  node_inv f' (<[k := e]> m) P n x node.
Proof using.
  intros Hs Hk Hoff Hx Hon. pose proof (s_node _ _ _ Hs _ _ _ Hx) as Hnode. pose proof (s_pos _ _ _ Hs _ _ _ Hx) as Hp.
  assert (Hm : ∀ k', k' ≠ k → m !! k' = <[k := e]> m !! k') by (intros k' ?; by rewrite lookup_insert_ne).
  destruct (decide (prefix n k = x)) as [<-|Hne].
  - destruct (Hon eq_refl) as (c & a & b & -> & Ha & Hb & Hl). pose proof Hnode as [Hn _].
    eapply (node_inv_above f f' m); [done|apply Hs|done..| |done].
    intros d Hd Hdk. apply Hoff. intros Heq. apply prefix_child_iff in Heq as [_ ?]; done.
  - eapply (node_inv_frame f f' m); [done|apply Hs|done..| |done].
    intros d Hn Hd. apply Hoff. intros Heq. apply prefix_child_iff in Heq as [? _]; done.
Qed.

(** *** The key's leaf is replaced *)
Lemma sinv_leaf_match f m P n k l (e : ValueHash * Z) :
  sinv f m P → vget f n (prefix n k) = Some (Node.Leaf l) → LeafNode.full_key l = k → entry_ok k e →
  sinv (vset f n (prefix n k) (Node.Leaf (LeafNode.mk k e.1 e.2))) (<[k := e]> m) P.
Proof using.
  intros Hs Hl Hkey He. pose proof (s_pos _ _ _ Hs _ _ _ Hl) as [Hn _]. pose proof He as (Hk & _).
  assert (Hni : ∀ c, vget f n (prefix n k) ≠ Some (Node.Internal c)) by (intros c; by rewrite Hl).
  split.
  - apply Hs.
  - apply entry_insert_ok; [apply Hs|done].
  - rewrite vget_vset. case_decide; [done|]. destruct (root_on_path _ _ _ _ _ _ Hs Hl) as [? ->]. done.
  - intros n0 x0 node. rewrite vget_vset. case_decide as Hd; [|by apply Hs]. destruct Hd as [-> ->]. intros _. by apply Hs in Hl.
  - intros n0 x0 node. rewrite !vget_vset. intros Hx.
    assert (∃ node, vget f (S n0) x0 = Some node) as [node' Hx'].
    { case_decide as Hd; [destruct Hd as [<- ->]|]; by eexists. }
    destruct (s_parent _ _ _ Hs _ _ _ Hx') as [c Hc]. exists c. rewrite decide_False; [done|]. intros [-> Heq].
    rewrite Heq in Hc. by destruct (Hni c).
  - intros n0 x0 node. rewrite vget_vset. case_decide as Hd.
    + destruct Hd as [-> ->]. intros [= <-]. split_and!; cbn; [done|by rewrite lookup_insert_eq; destruct e|].
      intros k' Hk' Hne. rewrite lookup_insert_ne by done. apply (s_node _ _ _ Hs) in Hl as (_ & _ & Hu). apply Hu; [done|by rewrite Hkey].
    + intros Hx. eapply (node_inv_unchanged f); [done|done| |done|].
      { intros n1 x1 Hne. rewrite vget_vset. rewrite decide_False; [done|]. by intros [-> ->]. }
      intros <-. pose proof (on_path_le _ _ _ _ _ _ _ Hs Hni Hx).
      assert (Hlt : (n0 < n)%nat) by (destruct (decide (n0 = n)); [subst; by destruct Hd|lia]).
      destruct (path_up _ _ _ _ _ _ Hs Hl n0 Hlt) as [c Hc]. rewrite Hc in Hx. injection Hx as <-. exists c. rewrite vget_vset.
      case_decide as Hd'.
      * destruct Hd' as [-> _]. rewrite Hl. by eexists _, _.
      * assert (S n0 ≠ n) by (intros <-; by apply Hd').
        destruct (path_up _ _ _ _ _ _ Hs Hl (S n0) ltac:(lia)) as [c' ->]. by eexists _, _.
Qed.

(** *** The tree is empty *)
Lemma sinv_empty_root f m P k (e : ValueHash * Z) :
  sinv f m P → vget f 0 0 = None → entry_ok k e →
  sinv (vset f 0 0 (Node.Leaf (LeafNode.mk k e.1 e.2))) (<[k := e]> m) P.
Proof using.
  intros Hs Hroot He. pose proof He as (Hk & _).
  assert (Hno : ∀ n x, vget f n x = None).
  { intros n x. destruct (vget f n x) eqn:E; [|done]. destruct (root_on_path _ _ _ _ _ _ Hs E). congruence. }
  pose proof (s_root _ _ _ Hs Hroot) as ->.
  assert (Hv : ∀ n x node', vget (vset f 0 0 (Node.Leaf (LeafNode.mk k e.1 e.2))) n x = Some node' →
    n = 0%nat ∧ x = 0 ∧ node' = Node.Leaf (LeafNode.mk k e.1 e.2)).
  { intros n x node'. rewrite vget_vset, Hno. case_decide as Hd; [destruct Hd as [-> ->]; naive_solver|done]. }
  split.
  - apply Hs.
  - apply entry_insert_ok; [apply Hs|done].
  - done.
  - intros n x node (-> & -> & _)%Hv. split; [lia|]. cbn. lia.
  - intros n x node (? & _)%Hv. lia.
  - intros n x node (-> & -> & ->)%Hv. split_and!; cbn; [by apply Nibbles.prefix_0|by rewrite lookup_insert_eq; destruct e|].
    intros k' _ Hne. by rewrite lookup_insert_ne by done.
Qed.

(** *** The path of the key ends at an internal node *)
Lemma sinv_missing_child f m P n k c c' r (e : ValueHash * Z) :
  sinv f m P → vget f n (prefix n k) = Some (Node.Internal c) → InternalNode.refs c (digit n k) = None → entry_ok k e →
  InternalNode.wf c' → (∀ d, InternalNode.refs c' d = if decide (d = digit n k) then Some r else InternalNode.refs c d) →
  ChildRef.version r = v → ChildRef.is_leaf r = true →
  sinv (vset (vset f n (prefix n k) (Node.Internal c')) (S n) (prefix (S n) k) (Node.Leaf (LeafNode.mk k e.1 e.2)))
    (<[k := e]> m) P.
Proof using.
  intros Hs Hc Hr He Hwf' Hrefs Hver Hleaf. pose proof He as (Hk & _).
  pose proof (s_node _ _ _ Hs _ _ _ Hc) as (Hn & Hwf & Hne & Hd). pose proof (s_width _ _ _ Hs) as Hv.
  pose proof (Hd _ (digit_range n k)) as Hdk. unfold child_inv in Hdk. rewrite Hr, <-prefix_child in Hdk by done. destruct Hdk as [Hnone Hno].
  assert (Hni : ∀ c, vget f (S n) (prefix (S n) k) ≠ Some (Node.Internal c)) by (intros ?; by rewrite Hnone).
  set (f1 := vset f n (prefix n k) (Node.Internal c')). set (f2 := vset f1 _ _ _).
  assert (Hf2 : ∀ n0 x0, vget f2 n0 x0 = if decide (same_pos (S n) n0 (prefix (S n) k) x0) then Some (Node.Leaf (LeafNode.mk k e.1 e.2))
    else if decide (same_pos n n0 (prefix n k) x0) then Some (Node.Internal c') else vget f n0 x0).
  { intros. unfold f2, f1. by rewrite !vget_vset. }
  clearbody f2. clear f1.
  assert (Hnew : vget f2 (S n) (prefix (S n) k) = Some (Node.Leaf (LeafNode.mk k e.1 e.2))) by (by rewrite Hf2, decide_True).
  assert (Hpar : vget f2 n (prefix n k) = Some (Node.Internal c')) by (rewrite Hf2, decide_False, decide_True; [done..|intros [? _]; lia]).
  assert (Hoff : ∀ n x, prefix n k ≠ x → vget f2 n x = vget f n x).
  { intros n0 x0 Hne0. rewrite Hf2, !decide_False; [done| |]; by intros [-> ->]. }
  split.
  - done.
  - apply entry_insert_ok; [apply Hs|done].
  - rewrite Hf2. repeat case_decide; [done..|]. destruct (root_on_path _ _ _ _ _ _ Hs Hc) as [? ->]. done.
  - intros n0 x0 node. rewrite Hf2. case_decide as Hd0; [|case_decide as Hd0'; [|by apply Hs]].
    + destruct Hd0 as [-> ->]. intros _. apply Nibbles.prefix_ok; [done|lia].
    + destruct Hd0' as [-> ->]. intros _. apply Nibbles.prefix_ok; [done|lia].
  - intros n0 x0 node Hx. rewrite Hf2 in Hx. case_decide as Hd0.
    + destruct Hd0 as [[= ->] ->]. rewrite prefix_up by lia. by eexists.
    + assert (∃ node, vget f (S n0) x0 = Some node) as [node' Hx'].
      { case_decide as Hd1; [destruct Hd1 as [<- ->]|]; by eexists. }
      destruct (s_parent _ _ _ Hs _ _ _ Hx') as [c0 Hc0]. destruct (decide (prefix n0 k = x0 / 16)) as [Heq|].
      * rewrite <-Heq in Hc0 |- *. pose proof (on_path_le _ _ _ _ _ _ _ Hs Hni Hc0).
        destruct (decide (n0 = n)) as [->|]; [by exists c'|]. exists c0. rewrite Hf2, !decide_False; [done|by intros [? _]|].
        intros [-> _]. by destruct (Hni c0).
      * rewrite Hoff by done. by eexists.
  - intros n0 x0 node Hx. rewrite Hf2 in Hx. case_decide as Hd0; [|case_decide as Hd1].
    + destruct Hd0 as [-> ->]. injection Hx as <-. split_and!; cbn; [done|by rewrite lookup_insert_eq; destruct e|].
      intros k' Hk' Hne'. rewrite lookup_insert_ne by done. by apply Hno.
    + destruct Hd1 as [-> ->]. injection Hx as <-. split; [done|]. split; [done|]. split; [exists (digit n k), r; by rewrite Hrefs, decide_True|].
      intros d Hdr. unfold child_inv. rewrite Hrefs. case_decide as Hdd.
      * subst d. rewrite <-prefix_child, Hnew by done. cbn. destruct Hv. split; [lia|]. by rewrite Hleaf; auto.
      * apply (child_inv_frame f f2 m (<[k := e]> m)); [done| | |by destruct Hv| |by apply Hd].
        -- intros k' Hk'. rewrite lookup_insert_ne; [done|]. intros <-. by apply prefix_child_iff in Hk' as [_ ?].
        -- apply Nibbles.pos_ok_child; [done| |done]. apply Nibbles.prefix_ok; [done|lia].
        -- apply Hoff. intros Heq. by apply prefix_child_iff in Heq as [_ ?].
    + apply (node_inv_unchanged f); [done..|]. intros <-. pose proof (on_path_le _ _ _ _ _ _ _ Hs Hni Hx).
      assert (Hlt : (n0 < n)%nat).
      { destruct (decide (n0 = n)) as [->|]; [by destruct Hd1|]. destruct (decide (n0 = S n)) as [->|]; [by destruct Hd0|lia]. }
      destruct (path_up _ _ _ _ _ _ Hs Hc n0 Hlt) as [c0 Hc0]. rewrite Hc0 in Hx. injection Hx as <-. exists c0.
      destruct (decide (S n0 = n)) as [->|].
      * rewrite Hc, Hpar. by eexists _, _.
      * destruct (path_up _ _ _ _ _ _ Hs Hc (S n0) ltac:(lia)) as [c1 Hc1]. rewrite Hc1, Hf2, Hc1.
        rewrite !decide_False by (intros [? _]; lia). by eexists _, _.
Qed.

(** *** Changes that keep the entries *)
Definition kind f (n : nat) (x : Z) : option bool := Node.is_leaf <$> vget f n x.

Lemma child_inv_kind f f' m P n x c d :
  kind f' (S n) (16 * x + d) = kind f (S n) (16 * x + d) → child_inv f m P n x c d → child_inv f' m P n x c d.
Proof using.
  unfold kind, child_inv. destruct (vget f _ _), (vget f' _ _); try done. cbn. intros [= ->]. by destruct (InternalNode.refs c d); [|intros [? _]].
Qed.

Lemma node_inv_kind f f' m P n x node :
  ((n < 64)%nat → ∀ d, 0 ≤ d < 16 → kind f' (S n) (16 * x + d) = kind f (S n) (16 * x + d)) →
  node_inv f m P n x node → node_inv f' m P n x node.
Proof using.
  intros Hk. destruct node as [c|l]; [|done]. intros (Hn & Hwf & Hne & Hd). split_and!; [done..|].
  intros d Hdr. eapply child_inv_kind; [by apply Hk|by apply Hd].
Qed.

(** A reference to a loaded node becomes of the new version. *)
Lemma sinv_bump f m P P' n x c c' d r r' :
  sinv f m P → vget f n x = Some (Node.Internal c) → InternalNode.refs c d = Some r →
  is_Some (vget f (S n) (16 * x + d)) → InternalNode.wf c' →
  (∀ j, InternalNode.refs c' j = if decide (j = d) then Some r' else InternalNode.refs c j) →
  ChildRef.version r' = v → ChildRef.is_leaf r' = ChildRef.is_leaf r →
  (∀ n0 x0, P' n0 x0 → P n0 x0) → (∀ n0 x0, P n0 x0 → P' n0 x0 ∨ n0 = S n ∧ x0 = 16 * x + d) →
  sinv (vset f n x (Node.Internal c')) m P'.
Proof using.
  intros Hs Hc Hr [child Hchild] Hwf' Hrefs Hver Hleaf HP HP'.
  pose proof (s_node _ _ _ Hs _ _ _ Hc) as (Hn & Hwf & Hne & Hd). pose proof (s_width _ _ _ Hs) as Hv.
  assert (Hkind : ∀ n0 x0, kind (vset f n x (Node.Internal c')) n0 x0 = kind f n0 x0).
  { intros n0 x0. unfold kind. rewrite vget_vset. case_decide as Hd0; [|done]. destruct Hd0 as [-> ->]. by rewrite Hc. }
  assert (Hother : ∀ n0 x0 c0 j, child_inv f m P n0 x0 c0 j → 0 ≤ j < 16 → ¬ (n0 = n ∧ x0 = x ∧ j = d) →
    child_inv (vset f n x (Node.Internal c')) m P' n0 x0 c0 j).
  { intros n0 x0 c0 j Hj Hjr Hneq. eapply child_inv_kind; [apply Hkind|]. unfold child_inv in *.
    destruct (InternalNode.refs c0 j) as [rj|]; [|done]. destruct Hj as [? Hj]. split; [done|].
    destruct (vget f (S n0) _); [|naive_solver]. destruct Hj as [? [?|Hj]]; [naive_solver|].
    split; [done|]. destruct (HP' _ _ Hj) as [?|[[= ->] ?]]; [naive_solver|]. destruct Hneq.
    pose proof (InternalNode.refs_range _ _ _ Hwf Hr). lia. }
  split.
  - done.
  - apply Hs.
  - rewrite vget_vset. case_decide; [done|]. apply Hs.
  - intros n0 x0 node. rewrite vget_vset. case_decide as Hd0; [|by apply Hs]. destruct Hd0 as [-> ->]. intros _. by apply Hs in Hc.
  - intros n0 x0 node Hx. assert (∃ node, vget f (S n0) x0 = Some node) as [node' Hx'].
    { rewrite vget_vset in Hx. case_decide as Hd1; [destruct Hd1 as [<- ->]|]; by eexists. }
    destruct (s_parent _ _ _ Hs _ _ _ Hx') as [c0 Hc0]. rewrite vget_vset. case_decide; by eexists.
  - intros n0 x0 node. rewrite vget_vset. case_decide as Hd0.
    + destruct Hd0 as [-> ->]. intros [= <-]. split; [done|]. split; [done|].
      split; [exists d, r'; by rewrite Hrefs, decide_True|]. intros j Hj. destruct (decide (j = d)) as [->|Hjd].
      * unfold child_inv. rewrite Hrefs, decide_True by done. rewrite vget_vset, decide_False, Hchild by (intros [? _]; lia).
        specialize (Hd _ Hj). unfold child_inv in Hd. rewrite Hr, Hchild in Hd. destruct Hd as [_ [Hk _]].
        destruct Hv. split; [lia|]. rewrite Hleaf, Hver. auto.
      * assert (Hcj : child_inv (vset f n x (Node.Internal c')) m P' n x c j) by (apply Hother; naive_solver).
        unfold child_inv in *. by rewrite Hrefs, decide_False by done.
    + intros Hx. pose proof (s_node _ _ _ Hs _ _ _ Hx) as Hnode. destruct node as [c0|l]; [|done].
      destruct Hnode as (? & ? & ? & Hd1). split_and!; [done..|]. intros j Hj. apply Hother; [by apply Hd1|done|].
      intros (-> & -> & _). by apply Hd0.
Qed.

(** [g] is [f] with the reference to the position of [n] nibbles of [k] no longer to a leaf. *)
Definition unleafed f g (n : nat) k : Prop :=
  (∀ n0 x0, ¬ (S n0 = n ∧ x0 = prefix n0 k) → vget g n0 x0 = vget f n0 x0) ∧
  ∀ n0, S n0 = n → ∃ c c' r, vget f n0 (prefix n0 k) = Some (Node.Internal c) ∧
    vget g n0 (prefix n0 k) = Some (Node.Internal c') ∧ InternalNode.wf c' ∧
    InternalNode.refs c (digit n0 k) = Some r ∧
    ∀ d, InternalNode.refs c' d = if decide (d = digit n0 k) then Some (ChildRef.with_is_leaf r false) else InternalNode.refs c d.

(** A leaf moves down by one nibble. *)
Lemma sinv_push_down f g m P n l c r :
  let k := LeafNode.full_key l in
  sinv f m P → vget f n (prefix n k) = Some (Node.Leaf l) → (n < 64)%nat → unleafed f g n k →
  InternalNode.wf c → (∀ d, InternalNode.refs c d = if decide (d = digit n k) then Some r else None) →
  ChildRef.version r = v → ChildRef.is_leaf r = true →
  sinv (vset (vset g n (prefix n k) (Node.Internal c)) (S n) (prefix (S n) k) (Node.Leaf l)) m P.
Proof using.
  intros k Hs Hl Hn [Hsame Hpar] Hwf Hrefs Hver Hleaf. pose proof (s_node _ _ _ Hs _ _ _ Hl) as (_ & Hm & Hu). fold k in Hm, Hu.
  assert (Hk : key_ok k) by (by apply (s_map _ _ _ Hs) in Hm as (? & _)).
  assert (Hni : ∀ c, vget f n (prefix n k) ≠ Some (Node.Internal c)) by (intros ?; by rewrite Hl).
  set (f2 := vset _ _ _ _).
  assert (Hf2 : ∀ n0 x0, vget f2 n0 x0 = if decide (same_pos (S n) n0 (prefix (S n) k) x0) then Some (Node.Leaf l)
    else if decide (same_pos n n0 (prefix n k) x0) then Some (Node.Internal c) else vget g n0 x0).
  { intros. unfold f2. by rewrite !vget_vset. }
  clearbody f2.
  assert (Hnew : vget f2 (S n) (prefix (S n) k) = Some (Node.Leaf l)) by (by rewrite Hf2, decide_True).
  assert (Hat : vget f2 n (prefix n k) = Some (Node.Internal c)).
  { rewrite Hf2, decide_False by (intros [? _]; lia). by rewrite decide_True. }
  assert (Hrest : ∀ n0 x0, (S n0 ≠ n ∧ n0 ≠ n ∧ n0 ≠ S n) ∨ prefix n0 k ≠ x0 → vget f2 n0 x0 = vget f n0 x0).
  { intros n0 x0 Hc. rewrite Hf2, !decide_False; [|intros [-> ->]; naive_solver..]. apply Hsame. intros [? ->]. naive_solver. }
  assert (Hkind : ∀ n0 x0, (n0 ≠ n ∧ n0 ≠ S n) ∨ prefix n0 k ≠ x0 → kind f2 n0 x0 = kind f n0 x0).
  { intros n0 x0 Hc. unfold kind. destruct (decide (S n0 = n ∧ prefix n0 k = x0)) as [[Heq <-]|]; [|rewrite Hrest; [done|destruct (decide (prefix n0 k = x0)); tauto]].
    destruct (Hpar n0 Heq) as (c0 & c0' & r0 & -> & Hg & _). rewrite Hf2, !decide_False, Hg by (intros [? _]; lia). done. }
  assert (Hparent : ∀ n0, S n0 = n → ∃ c0 c0' r0, vget f n0 (prefix n0 k) = Some (Node.Internal c0) ∧
    vget f2 n0 (prefix n0 k) = Some (Node.Internal c0') ∧ InternalNode.wf c0' ∧ InternalNode.refs c0 (digit n0 k) = Some r0 ∧
    ∀ d, InternalNode.refs c0' d = if decide (d = digit n0 k) then Some (ChildRef.with_is_leaf r0 false) else InternalNode.refs c0 d).
  { intros n0 Heq. destruct (Hpar n0 Heq) as (c0 & c0' & r0 & ? & Hg & ? & ? & ?). exists c0, c0', r0.
    rewrite (Hf2 n0), !decide_False by (intros [? _]; lia). done. }
  clear Hsame Hpar Hf2. split.
  - apply Hs.
  - apply Hs.
  - intros Hroot. exfalso. destruct (root_on_path _ _ _ _ _ _ Hs Hl) as [node0 H0']. pose proof (Nibbles.prefix_0 k Hk) as Hp0.
    destruct (decide (n = 0%nat)) as [->|]; [congruence|]. specialize (Hkind 0%nat 0 ltac:(left; lia)). unfold kind in Hkind.
    by rewrite Hroot, H0' in Hkind.
  - intros n0 x0 node Hx. destruct (decide (prefix n0 k = x0 ∧ n0 ≤ 64)%nat) as [[<- ?]|Hoff]; [by apply Nibbles.prefix_ok|].
    assert (Hk0 : kind f2 n0 x0 = kind f n0 x0) by (apply Hkind; naive_solver lia). unfold kind in Hk0. rewrite Hx in Hk0.
    destruct (vget f n0 x0) eqn:E; [|done]. by apply Hs in E.
  - intros n0 x0 node Hx. destruct (decide (prefix (S n0) k = x0)) as [<-|Hoff].
    + destruct (decide (n0 = n)) as [->|]; [rewrite prefix_up by lia; by eexists|].
      destruct (decide (S n0 = n)) as [Hn0|].
      { destruct (Hparent n0 Hn0) as (? & c0' & _ & _ & ? & _). rewrite prefix_up by lia. by exists c0'. }
      specialize (Hkind (S n0) (prefix (S n0) k) ltac:(left; lia)) as Hk0. unfold kind in Hk0. rewrite Hx in Hk0.
      destruct (vget f (S n0) _) as [node'|] eqn:E; [|done]. pose proof (on_path_le _ _ _ _ _ _ _ Hs Hni E).
      rewrite prefix_up by lia. destruct (path_up _ _ _ _ _ _ Hs E n0 ltac:(lia)) as [c0 Hc0]. exists c0. by rewrite Hrest by (left; lia).
    + specialize (Hkind (S n0) x0 ltac:(by right)) as Hk0. unfold kind in Hk0. rewrite Hx in Hk0.
      destruct (vget f (S n0) x0) as [node'|] eqn:E; [|done]. destruct (s_parent _ _ _ Hs _ _ _ E) as [c0 Hc0].
      destruct (decide (prefix n0 k = x0 / 16)) as [Heq|]; [|rewrite Hrest by (by right); by eexists]. rewrite <-Heq in Hc0 |- *.
      pose proof (on_path_le _ _ _ _ _ _ _ Hs Hni Hc0). destruct (decide (n0 = n)) as [->|]; [by eexists|].
      destruct (decide (S n0 = n)) as [Hn0|]; [|rewrite Hrest by (left; lia); by eexists].
      destruct (Hparent n0 Hn0) as (? & c0' & _ & _ & ? & _). by exists c0'.
  - intros n0 x0 node Hx. destruct (decide (prefix n0 k = x0)) as [<-|Hoff].
    2: { rewrite Hrest in Hx by (by right). apply (node_inv_kind f); [|by apply Hs]. intros ? d Hd. apply Hkind. right.
         intros Heq. by apply prefix_child_iff in Heq as [? _]. }
    destruct (decide (n0 = S n)) as [->|]; [|destruct (decide (n0 = n)) as [->|]; [|destruct (decide (S n0 = n)) as [Hn0|]]].
    + rewrite Hnew in Hx. injection Hx as <-. split_and!; [done..|]. intros k' Hk'. apply Hu.
      rewrite <-prefix_up, Hk' by lia. by apply prefix_up.
    + rewrite Hat in Hx. injection Hx as <-. split; [done|]. split; [done|].
      split; [exists (digit n k), r; by rewrite Hrefs, decide_True|]. intros d Hd. unfold child_inv. rewrite Hrefs. case_decide as Hdd.
      * subst d. rewrite <-prefix_child, Hnew by done. pose proof (s_width _ _ _ Hs) as []. split; [lia|]. by rewrite Hleaf; auto.
      * assert (Hne : prefix (S n) k ≠ 16 * prefix n k + d) by (intros Heq; by apply prefix_child_iff in Heq as [_ ?]).
        rewrite Hrest by (by right). split.
        -- destruct (vget f (S n) _) eqn:E; [|done]. destruct (s_parent _ _ _ Hs _ _ _ E) as [c0 Hc0].
           replace ((16 * prefix n k + d) / 16) with (prefix n k) in Hc0 by lia. congruence.
        -- intros k' Hk'. apply prefix_child_iff in Hk' as [Hk' Hd']; [|done..]. apply Hu; [done|]. by intros ->.
    + destruct (Hparent n0 Hn0) as (c0 & c0' & r0 & Hc0 & Hc0' & Hwf0 & Hr0 & Hrefs0). rewrite Hc0' in Hx. injection Hx as <-.
      pose proof (s_node _ _ _ Hs _ _ _ Hc0) as (? & _ & _ & Hd0). split; [done|]. split; [done|].
      split; [exists (digit n0 k); eexists; by rewrite Hrefs0, decide_True|]. intros d Hd. specialize (Hd0 d Hd).
      unfold child_inv in Hd0 |- *. rewrite Hrefs0. case_decide as Hdd.
      * subst d. rewrite Hr0, <-prefix_child, Hn0, Hl in Hd0 by done. rewrite <-prefix_child, Hn0, Hat by done. naive_solver.
      * rewrite Hrest; [done|]. right. intros Heq. by apply prefix_child_iff in Heq as [_ ?].
    + rewrite Hrest in Hx by (left; lia). pose proof (on_path_le _ _ _ _ _ _ _ Hs Hni Hx).
      apply (node_inv_kind f); [|by apply Hs]. intros ? d Hd. apply Hkind. left. lia.
Qed.

(** Only the positions of [P] where nodes are loaded matter. *)
Lemma sinv_restrict f m P P' :
  sinv f m P → (∀ n x, P' n x → P n x) → (∀ n x, is_Some (vget f n x) → P n x → P' n x) → sinv f m P'.
Proof using.
  intros Hs Hsub Hload. split; [apply Hs..|]. intros n x node Hx. pose proof (s_node _ _ _ Hs _ _ _ Hx) as Hnode.
  destruct node as [c|l]; [|done]. destruct Hnode as (? & ? & ? & Hd). split_and!; [done..|]. intros d Hdr. specialize (Hd d Hdr).
  unfold child_inv in *. destruct (InternalNode.refs c d); [|done]. destruct (vget f (S n) _) eqn:E; naive_solver.
Qed.

(** Every node of the working set has entries under it. *)
Lemma node_nonempty f m P n x node :
  sinv f m P → vget f n x = Some node → ∃ k, prefix n k = x ∧ is_Some (m !! k).
Proof using.
  intros Hs. remember (64 - n)%nat as h eqn:Eh. revert n x node Eh. induction h as [|h IH]; intros n x node Eh Hx;
    pose proof (s_pos _ _ _ Hs _ _ _ Hx) as [Hn _]; pose proof (s_node _ _ _ Hs _ _ _ Hx) as Hnode;
    (destruct node as [c|l]; [|destruct Hnode as (? & Hl & _); eexists; split; [done|by rewrite Hl]]);
    destruct Hnode as (Hlt & Hwf & (d & r & Hr) & Hd); [lia|].
  pose proof (InternalNode.refs_range _ _ _ Hwf Hr) as Hdr. specialize (Hd d Hdr). unfold child_inv in Hd. rewrite Hr in Hd.
  assert (∃ k, prefix (S n) k = 16 * x + d ∧ is_Some (m !! k)) as (k & Hk & Hm).
  { destruct (vget f (S n) _) as [node'|] eqn:E; [by eapply IH; [lia|]|]. destruct Hd as (_ & _ & (_ & _ & node' & _ & _ & Hst) & _).
    eapply stored_nonempty; [lia|done]. }
  exists k. split; [|done]. by apply prefix_child_iff in Hk as [? _].
Qed.

Lemma child_nonempty f m P n x c d r :
  sinv f m P → vget f n x = Some (Node.Internal c) → InternalNode.refs c d = Some r → ∃ k, prefix (S n) k = 16 * x + d ∧ is_Some (m !! k).
Proof using.
  intros Hs Hc Hr. pose proof (s_node _ _ _ Hs _ _ _ Hc) as (Hn & Hwf & _ & Hd).
  specialize (Hd d (InternalNode.refs_range _ _ _ Hwf Hr)). unfold child_inv in Hd. rewrite Hr in Hd.
  destruct (vget f (S n) _) as [node'|] eqn:E; [by eapply node_nonempty|]. destruct Hd as (_ & _ & (_ & _ & node' & _ & _ & Hst) & _).
  eapply stored_nonempty; [lia|done].
Qed.

(** An internal root over one entry has one child. *)
Lemma root_one_child f m P c d d' r r' :
  sinv f m P → vget f 0 0 = Some (Node.Internal c) → size m = 1%nat →
  InternalNode.refs c d = Some r → InternalNode.refs c d' = Some r' → d' = d.
Proof using.
  intros Hs Hc Hsize Hr Hr'. rewrite <-size_dom in Hsize.
  destruct (child_nonempty _ _ _ _ _ _ _ _ Hs Hc Hr) as (k1 & Hk1 & Hm1). destruct (child_nonempty _ _ _ _ _ _ _ _ Hs Hc Hr') as (k2 & Hk2 & Hm2).
  apply elem_of_dom in Hm1, Hm2. pose proof (size_singleton_inv _ _ _ Hsize Hm1 Hm2) as ->. lia.
Qed.

(** A root that is a leaf is the only entry. *)
Lemma root_leaf f m P l : sinv f m P → vget f 0 0 = Some (Node.Leaf l) → size m = 1%nat.
Proof using.
  intros Hs Hl. pose proof (s_node _ _ _ Hs _ _ _ Hl) as (_ & Hk & Hu).
  assert (m = {[LeafNode.full_key l := (LeafNode.value_hash l, LeafNode.leaf_index l)]}) as ->; [|apply map_size_singleton].
  apply map_eq. intros k. destruct (decide (k = LeafNode.full_key l)) as [->|Hne]; [by rewrite lookup_singleton_eq|].
  rewrite lookup_singleton_ne by done. destruct (m !! k) as [e|] eqn:E; [|done].
  pose proof (s_map _ _ _ Hs _ _ E) as (Hkk & _). by rewrite Hu in E by (done || by apply Nibbles.prefix_0).
Qed.
End working.
