(* ===== verification/MerkleInsert.v ===== *)
(** * The insertion of an entry

    [TreeUpdater::insert] on a working set about a map leaves one about the map with
    the entry inserted, whatever the shape of the tree on the key's path. *)
From Stdlib Require Import ZifyNat.
From S2P Require Import Prelude SmallMap MerkleTypes MerkleHash MerklePatch MerkleStorage MerkleView.
From S2P Require Import MerkleInvariant.
Local Open Scope Z_scope.
Import Nibbles(pos_ok, of_pos, prefix, key_ok).
#[local] Opaque TREE_DEPTH.

Section insert.
Context {DB : Type} `{Database DB} `{HashTree} `{OR : OldRefs} (db : DB) (v : Z).
Implicit Types (f g : View) (m : treemap) (P : nat → Z → Prop) (c : InternalNode.t) (k : Key) (W : WorkingPatchSet.t).

(** The internal nodes on the path of [k], above [n1] nibbles. *)
Definition above f k (n1 : nat) : Prop :=
  (n1 ≤ 64)%nat ∧ ∀ n, (n < n1)%nat → ∃ c, vget f n (prefix n k) = Some (Node.Internal c).

Definition ints f g : Prop := ∀ n x c, vget f n x = Some (Node.Internal c) → ∃ c', vget g n x = Some (Node.Internal c').

Lemma ints_refl f : ints f f.
Proof using. intros n x c Hc. by eexists. Qed.
Lemma ints_trans f g h : ints f g → ints g h → ints f h.
Proof using. intros Hfg Hgh n x c Hc. destruct (Hfg _ _ _ Hc) as [c' Hc']. by eapply Hgh. Qed.
Lemma ints_above f g k n1 : ints f g → above f k n1 → above g k n1.
Proof using. intros Hi [Hn Ha]. split; [done|]. intros n Hlt. destruct (Ha n Hlt) as [c Hc]. by eapply Hi. Qed.
Definition veq f g : Prop := ∀ n x, f n x = g n x.
Lemma veq_feq f g : veq f g → feq g f.
Proof using. intros Heq n x. unfold vget. by rewrite Heq. Qed.

Lemma ints_internal f g n x c : veq g (vset f n x (Node.Internal c)) → ints f g.
Proof using. intros Hg n0 x0 c0 Hc0. rewrite <-(veq_feq _ _ Hg), vget_vset. case_decide; by eexists. Qed.
Lemma ints_leaf f g n x l : veq g (vset f n x (Node.Leaf l)) → (∀ c, vget f n x ≠ Some (Node.Internal c)) → ints f g.
Proof using.
  intros Hg Hni n0 x0 c0 Hc0. rewrite <-(veq_feq _ _ Hg), vget_vset. case_decide as Hd; [|by eexists].
  destruct Hd as [-> ->]. by destruct (Hni c0).
Qed.

(** The versions the nodes were loaded from are older. *)
Definition pinv f : Prop := ∀ n x w p, f n x = Some w → WorkingNode.prev_version w = Some p → 0 ≤ p < v.

Lemma pinv_vset f g n x node : veq g (vset f n x node) → pinv f → pinv g.
Proof using.
  intros Hg Hp n0 x0 w p. rewrite Hg. unfold vset. case_decide; [|apply Hp]. intros [= <-]. cbn.
  destruct (f n x) as [w|] eqn:E; [|done]. cbn. by eapply Hp.
Qed.

(** The working set [W] is about [m]. *)
Record wok W m P : Prop := {
  w_sinv : sinv db v (view W) m P;
  w_levels : levels_ok W;
  w_prev : pinv (view W);
}.

(** ** Walking down *)
Definition outcome_at f k (n : nat) (o : TraverseOutcome.t) : Prop :=
  let nibbles := of_pos n (prefix n k) in
  match vget f n (prefix n k) with
  | Some (Node.Internal _) => False
  | Some (Node.Leaf l) =>
      o = if decide (LeafNode.full_key l = k) then TraverseOutcome.LeafMatch nibbles l else TraverseOutcome.LeafMismatch nibbles l
  | None => o = TraverseOutcome.MissingChild nibbles
  end.

Lemma traverse_from_ok W m P k n1 fuel :
  sinv db v (view W) m P → key_ok k → above (view W) k n1 → (65 ≤ n1 + fuel)%nat →
  ∃ n o, (n1 ≤ n)%nat ∧ above (view W) k n ∧ WorkingPatchSet.traverse_from fuel W k n1 = Ret o ∧ outcome_at (view W) k n o.
Proof using.
  intros Hs Hk. revert n1. induction fuel as [|fuel IH]; intros n1 Ha Hf; [destruct Ha; lia|].
  destruct Ha as [Hn Ha]. cbn [WorkingPatchSet.traverse_from]. rewrite Nibbles.new_ok by done. cbn [mbind exec_bind].
  pose proof (Nibbles.prefix_ok k n1 Hk Hn) as Hp. rewrite <-view_get by done.
  destruct (vget (view W) n1 (prefix n1 k)) as [[c|l]|] eqn:E.
  - pose proof (s_node _ _ _ _ _ Hs _ _ _ E) as [Hlt _]. destruct (IH (S n1)) as (n & o & Hle & Han & Htr & Ho).
    + split; [lia|]. intros n' Hn'. destruct (decide (n' = n1)) as [->|]; [by eexists|]. apply Ha. lia.
    + lia.
    + exists n, o. split_and!; [lia|done..].
  - eexists n1, _. split; [done|]. split; [done|]. unfold outcome_at. rewrite E. split; [|done]. by case_decide.
  - eexists n1, _. split; [done|]. split; [done|]. unfold outcome_at. by rewrite E.
Qed.

Lemma traverse_ok W m P k n1 :
  sinv db v (view W) m P → key_ok k → above (view W) k n1 →
  ∃ n o, (n1 ≤ n)%nat ∧ above (view W) k n ∧ WorkingPatchSet.traverse W k (of_pos n1 (prefix n1 k)) = Ret o ∧ outcome_at (view W) k n o.
Proof using.
  intros Hs Hk Ha. unfold WorkingPatchSet.traverse. change (Nibbles.nibble_count (of_pos n1 _)) with n1.
  eapply traverse_from_ok; [done..|]. unfold KEY_SIZE. destruct Ha. lia.
Qed.

(** ** Changes of one node *)
Definition wset W (n : nat) (x : Z) (node : Node.t) W' : Prop :=
  veq (view W') (vset (view W) n x node) ∧ WorkingPatchSet.root_version W' = WorkingPatchSet.root_version W ∧
  (levels_ok W → levels_ok W').

Lemma wset_insert W n x node : pos_ok n x → wset W n x node (WorkingPatchSet.insert W (of_pos n x) node).
Proof using. intros Hp. destruct (view_insert W n x node Hp). split_and!; [done..|]. by apply levels_ok_insert. Qed.

Lemma wset_feq W n x node W' : wset W n x node W' → feq (vset (view W) n x node) (view W').
Proof using. intros (Hv & _). by apply veq_feq. Qed.

Lemma wset_vget W n x node W' n0 x0 :
  wset W n x node W' → vget (view W') n0 x0 = if decide (same_pos n n0 x x0) then Some node else vget (view W) n0 x0.
Proof using. intros Hw. by rewrite <-(wset_feq _ _ _ _ _ Hw), vget_vset. Qed.

(** What the changes keep, whatever the nodes are about. *)
Record wkeep W W' : Prop := {
  k_levels : levels_ok W → levels_ok W';
  k_prev : pinv (view W) → pinv (view W');
  k_version : WorkingPatchSet.root_version W' = WorkingPatchSet.root_version W;
  k_ints : ints (view W) (view W');
}.
Lemma wkeep_trans W W' W'' : wkeep W W' → wkeep W' W'' → wkeep W W''.
Proof using. intros [? ? Hv ?] [? ? Hv' ?]. split; [auto..|by rewrite Hv', Hv|by eapply ints_trans]. Qed.
Lemma wkeep_refl W : wkeep W W.
Proof using. split; [done..|apply ints_refl]. Qed.
Lemma wset_keep_internal W n x c W' : wset W n x (Node.Internal c) W' → wkeep W W'.
Proof using. intros (Hv & Hr & Hl). split; [done|by eapply pinv_vset|done|by eapply ints_internal]. Qed.
Lemma wset_keep_leaf W n x l W' :
  wset W n x (Node.Leaf l) W' → (∀ c, vget (view W) n x ≠ Some (Node.Internal c)) → wkeep W W'.
Proof using. intros (Hv & Hr & Hl) Hni. split; [done|by eapply pinv_vset|done|by eapply ints_leaf]. Qed.

Lemma wok_keep W W' m P m' P' : wok W m P → wkeep W W' → sinv db v (view W') m' P' → wok W' m' P'.
Proof using. intros [? ? ?] [? ? ? ?] Hs. split; auto. Qed.

Lemma wset_child_ref_mut W n x c d r h :
  vget (view W) n x = Some (Node.Internal c) → InternalNode.wf c → InternalNode.refs c d = Some r →
  ∃ W' c', WorkingPatchSet.child_ref_mut W (of_pos n x) d h = Ret (Some W') ∧ wset W n x (Node.Internal c') W' ∧
    InternalNode.wf c' ∧ ∀ j, InternalNode.refs c' j = if decide (j = d) then Some (h r) else InternalNode.refs c j.
Proof using.
  intros Hc Hwf Hr. destruct (view_child_ref_mut W n x c d r h Hc Hwf Hr) as (W' & c' & ? & ? & ? & _ & ? & ? & ?).
  by exists W', c'.
Qed.

(** ** The versions on the path *)
Definition upto P k (i : nat) : nat → Z → Prop := λ n x, P n x ∨ (0 < n ≤ i)%nat ∧ prefix n k = x.

Lemma update_versions_ok W m P k n fuel :
  wok W m (upto P k n) → key_ok k → (n < fuel)%nat → (n = 0%nat ∨ is_Some (vget (view W) n (prefix n k))) →
  ∃ W', TreeUpdater.update_versions fuel W v (of_pos n (prefix n k)) = Ret W' ∧ wok W' m P ∧ wkeep W W'.
Proof using.
  revert W n. induction fuel as [|fuel IH]; intros W n Hw Hk Hf Hn; [lia|]. cbn [TreeUpdater.update_versions].
  pose proof (w_sinv _ _ _ Hw) as Hs. destruct n as [|n].
  - rewrite Nibbles.split_last_zero. cbn. exists W. split; [done|]. split; [|apply wkeep_refl]. eapply wok_keep; [done|apply wkeep_refl|].
    eapply sinv_restrict; [done|by left|]. intros n0 x0 _ [?|[? _]]; [done|lia].
  - destruct Hn as [?|[node Hnode]]; [lia|]. pose proof (s_pos _ _ _ _ _ Hs _ _ _ Hnode) as [Hle _].
    rewrite Nibbles.split_last_ok, prefix_up by done. cbn [mbind exec_bind]. fold (digit n k).
    destruct (path_up _ _ _ _ _ _ _ _ Hs Hnode n ltac:(lia)) as [c Hc]. pose proof (s_node _ _ _ _ _ Hs _ _ _ Hc) as (_ & Hwf & _ & Hd).
    specialize (Hd _ (digit_range n k)). unfold child_inv in Hd. rewrite <-prefix_child, Hnode in Hd by lia.
    destruct (InternalNode.refs c (digit n k)) as [r|] eqn:Hr; [|by destruct Hd].
    destruct (wset_child_ref_mut W n (prefix n k) c (digit n k) r (λ r, ChildRef.with_version r (Z.max (ChildRef.version r) v)) Hc Hwf Hr)
      as (W1 & c' & -> & Hset & Hwf' & Hrefs). cbn [mbind exec_bind expect].
    assert (Hw1 : wok W1 m (upto P k n)).
    { eapply wok_keep; [done|by eapply wset_keep_internal|]. eapply sinv_ext; [by eapply wset_feq|].
      eapply (sinv_bump db v (view W) m (upto P k (S n))); [done|done|done| |done|done|cbn; lia|done| |].
      - rewrite <-prefix_child, Hnode by lia. done.
      - intros n0 x0 [?|[? ?]]; [by left|right; split; [lia|done]].
      - intros n0 x0 [?|[? <-]]; [by left; left|]. destruct (decide (n0 = S n)) as [->|].
        + right. split; [done|]. apply prefix_child. lia.
        + left. right. split; [lia|done]. }
    destruct (IH W1 n Hw1 Hk) as (W2 & -> & Hw2 & Hk2).
    + lia.
    + right. rewrite (wset_vget _ _ _ _ _ _ _ Hset), decide_True by done. done.
    + exists W2. split; [done|]. split; [done|]. eapply wkeep_trans; [by eapply wset_keep_internal|done].
Qed.

(** ** The fork of two keys *)
Ltac same_view :=
  intros ? ?; rewrite !vget_vset; repeat case_decide; unfold same_pos in *;
  first [done | exfalso; lia | naive_solver lia].

Lemma diverge_lt n k k' : (n ≤ 64)%nat → prefix n k' = prefix n k → k' ≠ k → (n < 64)%nat.
Proof using.
  intros Hn Heq Hne. destruct (decide (n = 64%nat)) as [->|]; [|lia]. by rewrite !Nibbles.prefix_64 in Heq.
Qed.

Lemma one_child d r :
  0 ≤ d < 16 → ∃ c, InternalNode.insert_child_ref InternalNode.default d r = Ret c ∧ InternalNode.wf c ∧
    ∀ j, InternalNode.refs c j = if decide (j = d) then Some r else None.
Proof using.
  intros Hd. destruct (InternalNode.insert_child_ref_ok InternalNode.default d r InternalNode.wf_default Hd) as (c & ? & ? & _ & Hr).
  exists c. split_and!; [done..|]. intros j. rewrite Hr. by rewrite InternalNode.refs_default.
Qed.

(** The working set would be about [m] with the leaf [l] moved below [n] nibbles. *)
Definition pushed W m P (l : LeafNode.t) (n : nat) : Prop :=
  (∀ n', (n < n')%nat → vget (view W) n' (prefix n' (LeafNode.full_key l)) = None) ∧
  ∀ c r, InternalNode.wf c → (∀ d, InternalNode.refs c d = if decide (d = digit n (LeafNode.full_key l)) then Some r else None) →
    ChildRef.version r = v → ChildRef.is_leaf r = true →
    sinv db v (vset (vset (view W) n (prefix n (LeafNode.full_key l)) (Node.Internal c)) (S n)
      (prefix (S n) (LeafNode.full_key l)) (Node.Leaf l)) m P.

Lemma pushed_step W W' m P l n c :
  let k := LeafNode.full_key l in
  pushed W m P l n → (S n < 64)%nat → InternalNode.wf c →
  (∀ d, InternalNode.refs c d = if decide (d = digit n k) then Some (ChildRef.internal v) else None) →
  wset W n (prefix n k) (Node.Internal c) W' → pushed W' m P l (S n).
Proof using.
  intros k [Hbelow Hp] Hn Hwf Hrefs Hset. split.
  - intros n' Hlt. rewrite (wset_vget _ _ _ _ _ _ _ Hset), decide_False by (intros [? _]; lia). apply Hbelow. lia.
  - intros c2 r2 Hwf2 Hrefs2 Hver2 Hleaf2. fold k in Hrefs2 |- *.
    destruct (one_child (digit n k) (ChildRef.leaf v) (digit_range n k)) as (c1 & _ & Hwf1 & Hrefs1).
    specialize (Hp c1 (ChildRef.leaf v) Hwf1 Hrefs1 eq_refl eq_refl). fold k in Hp.
    set (F := vset (vset (view W) n (prefix n k) (Node.Internal c1)) (S n) (prefix (S n) k) (Node.Leaf l)) in Hp.
    eapply sinv_ext; [|eapply (sinv_push_down db v F (vset F n (prefix n k) (Node.Internal c)) m P (S n) l c2 r2); [done| |done| |done..]].
    + fold k. intros n0 x0. rewrite !vget_vset, (wset_vget _ _ _ _ _ _ _ Hset). unfold F. rewrite !vget_vset.
      repeat case_decide; unfold same_pos in *; first [done|exfalso; lia].
    + fold k. unfold F. rewrite vget_vset. by rewrite decide_True.
    + fold k. split.
      * intros n0 x0 Hne. rewrite vget_vset, decide_False; [done|]. intros [-> ->]. by destruct Hne.
      * intros n0 [= ->]. exists c1, c, (ChildRef.leaf v). split_and!; [|by rewrite vget_vset, decide_True|done|by rewrite Hrefs1, decide_True|].
        { unfold F. rewrite vget_vset, decide_False by (intros [? _]; lia). by rewrite vget_vset, decide_True. }
        intros d. rewrite Hrefs, Hrefs1. by case_decide.
Qed.

(** Where the keys diverge, the new leaf and the moved one are the two children. *)
Lemma pushed_fork W W' m P l n k (e : ValueHash * Z) c :
  let k' := LeafNode.full_key l in let leaf := Node.Leaf (LeafNode.mk k e.1 e.2) in
  pushed W m P l n → (n < 64)%nat → entry_ok k e → prefix n k' = prefix n k → digit n k' ≠ digit n k → InternalNode.wf c →
  (∀ d, InternalNode.refs c d = if decide (d = digit n k') then Some (ChildRef.leaf v) else
    if decide (d = digit n k) then Some (ChildRef.leaf v) else None) →
  wset W n (prefix n k) (Node.Internal c) W' →
  vget (view W') (S n) (prefix (S n) k') = None ∧ vget (view W') (S n) (prefix (S n) k) = None ∧
  sinv db v (vset (vset (view W') (S n) (prefix (S n) k) leaf) (S n) (prefix (S n) k') (Node.Leaf l)) (<[k := e]> m) P.
Proof using.
  intros k' leaf [Hbelow Hp] Hn He Heq Hne Hwf Hrefs Hset. fold k' in Hbelow, Hp.
  assert (Hneq : prefix (S n) k' ≠ prefix (S n) k) by (rewrite !prefix_child by done; lia).
  destruct (one_child (digit n k') (ChildRef.leaf v) (digit_range n k')) as (c1 & _ & Hwf1 & Hrefs1).
  specialize (Hp c1 (ChildRef.leaf v) Hwf1 Hrefs1 eq_refl eq_refl). rewrite Heq in Hp.
  set (F := vset (vset (view W) n (prefix n k) (Node.Internal c1)) (S n) (prefix (S n) k') (Node.Leaf l)) in Hp.
  assert (Hc1 : vget F n (prefix n k) = Some (Node.Internal c1)).
  { unfold F. rewrite vget_vset, decide_False by (intros [? _]; lia). by rewrite vget_vset, decide_True. }
  assert (Hr1 : InternalNode.refs c1 (digit n k) = None) by (by rewrite Hrefs1, decide_False).
  assert (Hnone : vget (view W) (S n) (prefix (S n) k) = None).
  { pose proof (s_node _ _ _ _ _ Hp _ _ _ Hc1) as (_ & _ & _ & Hd). specialize (Hd _ (digit_range n k)). unfold child_inv in Hd.
    rewrite Hr1, <-prefix_child in Hd by done. destruct Hd as [Hd _]. unfold F in Hd.
    rewrite vget_vset, decide_False, vget_vset, decide_False in Hd; [done|intros [? _]; lia|by intros [_ ?]]. }
  split_and!.
  - rewrite (wset_vget _ _ _ _ _ _ _ Hset), decide_False by (intros [? _]; lia). apply Hbelow. lia.
  - by rewrite (wset_vget _ _ _ _ _ _ _ Hset), decide_False by (intros [? _]; lia).
  - eapply sinv_ext; [|eapply (sinv_missing_child db v F m P n k c1 c (ChildRef.leaf v) e); [done..| |done|done]].
    + intros n0 x0. rewrite !vget_vset, (wset_vget _ _ _ _ _ _ _ Hset). unfold F. rewrite !vget_vset.
      repeat case_decide; unfold same_pos in *; first [done|exfalso; lia].
    + intros d. rewrite Hrefs, Hrefs1. by repeat case_decide.
Qed.

Lemma insert_fork_ok U m P l k (e : ValueHash * Z) n fuel :
  let k' := LeafNode.full_key l in let leaf := Node.Leaf (LeafNode.mk k e.1 e.2) in
  pushed (TreeUpdater.patch_set U) m P l n → prefix n k' = prefix n k → k' ≠ k → (n ≤ 64)%nat → (65 ≤ n + fuel)%nat →
  key_ok k' → entry_ok k e →
  ∃ U' j, TreeUpdater.insert_fork fuel U k k' v n = Ret (U', j) ∧ (n ≤ j < 64)%nat ∧
    TreeUpdater.new_leaves U' = TreeUpdater.new_leaves U ∧ let W' := TreeUpdater.patch_set U' in
    wkeep (TreeUpdater.patch_set U) W' ∧ is_Some (vget (view W') n (prefix n k)) ∧
    vget (view W') (S j) (prefix (S j) k') = None ∧ vget (view W') (S j) (prefix (S j) k) = None ∧
    prefix (S j) k' ≠ prefix (S j) k ∧
    sinv db v (vset (vset (view W') (S j) (prefix (S j) k) leaf) (S j) (prefix (S j) k') (Node.Leaf l)) (<[k := e]> m) P.
Proof using.
  intros k' leaf. revert U n. induction fuel as [|fuel IH]; intros U n Hp Heq Hne Hn Hf Hk' He; [lia|].
  pose proof (diverge_lt _ _ _ Hn Heq Hne) as Hlt. pose proof He as (Hk & _). cbn [TreeUpdater.insert_fork].
  rewrite !Nibbles.nibble_ok by done. cbn [mbind exec_bind]. fold (digit n k') (digit n k). rewrite Nibbles.new_ok by lia.
  destruct (decide (digit n k' = digit n k)) as [Hdig|Hdig].
  - destruct (one_child (digit n k) (ChildRef.internal v) (digit_range n k)) as (c & -> & Hwf & Hrefs). cbn [mbind exec_bind].
    rewrite decide_False by (by intros ?).
    set (U1 := TreeUpdater.insert_node U (of_pos n (prefix n k)) (Node.Internal c) true).
    assert (Hset : wset (TreeUpdater.patch_set U) n (prefix n k) (Node.Internal c) (TreeUpdater.patch_set U1)).
    { apply wset_insert. by apply Nibbles.prefix_ok. }
    assert (Heq' : prefix (S n) k' = prefix (S n) k) by (rewrite !prefix_child by done; lia).
    pose proof (diverge_lt (S n) _ _ ltac:(lia) Heq' Hne) as Hlt'.
    destruct (IH U1 (S n)) as (U' & j & -> & Hj & Hl & Hkeep & Hsome & Hrest); [|done|done|lia|lia|done|done|].
    + eapply pushed_step; [done|done|done| |by fold k'; rewrite Heq]. intros d. fold k'. by rewrite Hrefs, Hdig.
    + exists U', j. split; [done|]. split; [lia|]. split; [done|]. split; [|split; [|done]].
      * eapply wkeep_trans; [by eapply wset_keep_internal|done].
      * destruct (k_ints _ _ Hkeep n (prefix n k) c) as [c' ->]; [|done]. by rewrite (wset_vget _ _ _ _ _ _ _ Hset), decide_True.
  - destruct (one_child (digit n k) (ChildRef.leaf v) (digit_range n k)) as (c0 & -> & Hwf0 & Hrefs0). cbn [mbind exec_bind].
    destruct (InternalNode.insert_child_ref_ok c0 (digit n k') (ChildRef.leaf v) Hwf0 (digit_range n k')) as (c & -> & Hwf & _ & Hrefs).
    cbn [mbind exec_bind]. rewrite decide_True by done. eexists _, n. split; [done|]. split; [lia|]. split; [done|].
    assert (Hset : wset (TreeUpdater.patch_set U) n (prefix n k) (Node.Internal c)
      (TreeUpdater.patch_set (TreeUpdater.insert_node U (of_pos n (prefix n k)) (Node.Internal c) true))).
    { apply wset_insert. by apply Nibbles.prefix_ok. }
    assert (Hrefs' : ∀ d, InternalNode.refs c d = if decide (d = digit n k') then Some (ChildRef.leaf v) else
      if decide (d = digit n k) then Some (ChildRef.leaf v) else None) by (intros d; by rewrite Hrefs, Hrefs0).
    destruct (pushed_fork _ _ _ _ _ _ _ _ _ Hp Hlt He Heq Hdig Hwf Hrefs' Hset) as (? & ? & ?).
    split_and!; [by eapply wset_keep_internal| |done|done| |done].
    + by rewrite (wset_vget _ _ _ _ _ _ _ Hset), decide_True.
    + rewrite !prefix_child by done. lia.
Qed.

Lemma update_moved_leaf_ref_ok U m P l n :
  let k := LeafNode.full_key l in let W := TreeUpdater.patch_set U in
  sinv db v (view W) m P → vget (view W) n (prefix n k) = Some (Node.Leaf l) →
  ∃ U', TreeUpdater.update_moved_leaf_ref U (of_pos n (prefix n k)) = Ret U' ∧
    TreeUpdater.new_leaves U' = TreeUpdater.new_leaves U ∧ wkeep W (TreeUpdater.patch_set U') ∧
    unleafed (view W) (view (TreeUpdater.patch_set U')) n k.
Proof using.
  intros k W Hs Hl. pose proof (s_pos _ _ _ _ _ Hs _ _ _ Hl) as [Hn _]. unfold TreeUpdater.update_moved_leaf_ref. destruct n as [|n].
  - rewrite Nibbles.split_last_zero. cbn. exists U. split; [done|]. split; [done|]. split; [apply wkeep_refl|]. split; [done|]. intros; lia.
  - rewrite Nibbles.split_last_ok, prefix_up by done. cbn [mbind exec_bind]. fold (digit n k) W.
    destruct (path_up _ _ _ _ _ _ _ _ Hs Hl n ltac:(lia)) as [c Hc]. pose proof (s_node _ _ _ _ _ Hs _ _ _ Hc) as (_ & Hwf & _ & Hd).
    specialize (Hd _ (digit_range n k)). unfold child_inv in Hd. rewrite <-prefix_child, Hl in Hd by lia.
    destruct (InternalNode.refs c (digit n k)) as [r|] eqn:Hr; [|by destruct Hd].
    destruct (wset_child_ref_mut W n (prefix n k) c (digit n k) r (λ r, ChildRef.with_is_leaf r false) Hc Hwf Hr)
      as (W' & c' & -> & Hset & Hwf' & Hrefs). cbn. eexists. split; [done|]. cbn. split; [done|].
    split; [by eapply wset_keep_internal|]. split.
    + intros n0 x0 Hne. rewrite (wset_vget _ _ _ _ _ _ _ Hset), decide_False; [done|]. intros [-> ->]. by destruct Hne.
    + intros n0 [= ->]. exists c, c', r. rewrite (wset_vget _ _ _ _ _ _ _ Hset), decide_True by done. done.
Qed.

(** The entries of the tree once [entry] is inserted, and what is reported. *)
Definition entry_of (entry : TreeEntry.t) : ValueHash * Z := (TreeEntry.value entry, TreeEntry.leaf_index entry).
Definition insert_entry m (entry : TreeEntry.t) : treemap := <[TreeEntry.key entry := entry_of entry]> m.
Definition log_of m (entry : TreeEntry.t) : TreeLogEntry.t :=
  match m !! TreeEntry.key entry with
  | Some (value, leaf_index) => TreeLogEntry.update leaf_index value
  | None => TreeLogEntry.Inserted
  end.
Definition entry_valid (entry : TreeEntry.t) : Prop := entry_ok (TreeEntry.key entry) (entry_of entry).

(** The insertion up to the versions, with the position it walked down to. *)
Definition arm_ok U m P (entry : TreeEntry.t) (n : nat) (log : TreeLogEntry.t) U' : Prop :=
  let k := TreeEntry.key entry in
  let W := TreeUpdater.patch_set U in let W' := TreeUpdater.patch_set U' in
  log = log_of m entry ∧ wok W' (insert_entry m entry) P ∧ wkeep W W' ∧
  (n = 0%nat ∨ is_Some (vget (view W') n (prefix n k))) ∧
  TreeUpdater.new_leaves U' =
    match log with TreeLogEntry.Inserted => wrap 64 (TreeUpdater.new_leaves U + 1) | _ => TreeUpdater.new_leaves U end.

Lemma arm_leaf_match U m P entry n l :
  let k := TreeEntry.key entry in
  wok (TreeUpdater.patch_set U) m P → entry_valid entry →
  vget (view (TreeUpdater.patch_set U)) n (prefix n k) = Some (Node.Leaf l) → LeafNode.full_key l = k →
  arm_ok U m P entry n (TreeLogEntry.update (LeafNode.leaf_index l) (LeafNode.value_hash l))
    (TreeUpdater.with_patch_set U
       (WorkingPatchSet.insert (TreeUpdater.patch_set U) (of_pos n (prefix n k)) (Node.Leaf (LeafNode.update_from l entry)))).
Proof using.
  intros k Hw He Hl Hkey. pose proof (w_sinv _ _ _ Hw) as Hs. pose proof (s_pos _ _ _ _ _ Hs _ _ _ Hl) as Hpos.
  pose proof (wset_insert (TreeUpdater.patch_set U) n (prefix n k) (Node.Leaf (LeafNode.update_from l entry)) Hpos) as Hset.
  pose proof (s_node _ _ _ _ _ Hs _ _ _ Hl) as (_ & Hm & _).
  assert (Hkeep := wset_keep_leaf _ _ _ _ _ Hset ltac:(intros c; by rewrite Hl)). split_and!; [| |done| |done]; cbn.
  - unfold log_of. fold k. by rewrite <-Hkey, Hm.
  - eapply wok_keep; [done|done|]. eapply sinv_ext; [by eapply wset_feq|]. unfold LeafNode.update_from. rewrite Hkey.
    by apply (sinv_leaf_match db v _ m P n k l (entry_of entry)).
  - right. by rewrite (wset_vget _ _ _ _ _ _ _ Hset), decide_True.
Qed.

Lemma arm_empty_root U m P entry :
  wok (TreeUpdater.patch_set U) m P → entry_valid entry → vget (view (TreeUpdater.patch_set U)) 0 0 = None →
  arm_ok U m P entry 0 TreeLogEntry.Inserted
    (TreeUpdater.insert_node (TreeUpdater.set_root_node U (Node.Leaf (LeafNode.new entry))) Nibbles.EMPTY
       (Node.Leaf (LeafNode.new entry)) true).
Proof using.
  intros Hw He Hroot. pose proof (w_sinv _ _ _ Hw) as Hs. rewrite Nibbles.empty_ok. set (leaf := Node.Leaf (LeafNode.new entry)).
  assert (Hp0 : pos_ok 0 0) by (split; cbn; lia).
  pose proof (wset_insert (TreeUpdater.patch_set U) 0 0 leaf Hp0) as Hset. set (W1 := WorkingPatchSet.insert _ _ _) in Hset.
  pose proof (wset_insert W1 0 0 leaf Hp0) as Hset'. set (W2 := WorkingPatchSet.insert W1 _ _) in Hset'.
  assert (Hv1 : vget (view W1) 0 0 = Some leaf) by (by rewrite (wset_vget _ _ _ _ _ _ _ Hset), decide_True).
  assert (Hkeep : wkeep (TreeUpdater.patch_set U) W2).
  { eapply wkeep_trans; [eapply (wset_keep_leaf _ _ _ _ _ Hset)|eapply (wset_keep_leaf _ _ _ _ _ Hset')]; intros c; [by rewrite Hroot|by rewrite Hv1]. }
  split_and!; [| |done|by left|done]; cbn.
  - unfold log_of. by rewrite (s_root _ _ _ _ _ Hs Hroot), lookup_empty.
  - unfold TreeUpdater.set_root_node. cbn. rewrite Nibbles.empty_ok. fold W1 W2. eapply wok_keep; [done|done|].
    eapply sinv_ext; [|by apply (sinv_empty_root db v (view (TreeUpdater.patch_set U)) m P (TreeEntry.key entry) (entry_of entry))].
    intros n x. rewrite (wset_vget _ _ _ _ _ _ _ Hset'), (wset_vget _ _ _ _ _ _ _ Hset), vget_vset. by case_decide.
Qed.

Lemma arm_missing_child U m P entry n c c' W1 :
  let k := TreeEntry.key entry in
  wok (TreeUpdater.patch_set U) m P → entry_valid entry →
  vget (view (TreeUpdater.patch_set U)) n (prefix n k) = Some (Node.Internal c) → InternalNode.refs c (digit n k) = None →
  InternalNode.wf c' →
  (∀ d, InternalNode.refs c' d = if decide (d = digit n k) then Some (ChildRef.leaf v) else InternalNode.refs c d) →
  wset (TreeUpdater.patch_set U) n (prefix n k) (Node.Internal c') W1 →
  arm_ok U m P entry (S n) TreeLogEntry.Inserted
    (TreeUpdater.insert_node (TreeUpdater.with_patch_set U W1) (of_pos (S n) (prefix (S n) k)) (Node.Leaf (LeafNode.new entry)) true).
Proof using.
  intros k Hw He Hc Hr Hwf' Hrefs Hset. pose proof (w_sinv _ _ _ Hw) as Hs.
  pose proof (s_node _ _ _ _ _ Hs _ _ _ Hc) as (Hn & _ & _ & Hd). specialize (Hd _ (digit_range n k)). unfold child_inv in Hd.
  rewrite Hr, <-prefix_child in Hd by done. destruct Hd as [Hnone Hno].
  pose proof (Nibbles.prefix_ok k (S n) ltac:(by destruct He) ltac:(lia)) as Hpos.
  pose proof (wset_insert W1 (S n) (prefix (S n) k) (Node.Leaf (LeafNode.new entry)) Hpos) as Hset'.
  assert (Hkeep : wkeep (TreeUpdater.patch_set U) (WorkingPatchSet.insert W1 (of_pos (S n) (prefix (S n) k)) (Node.Leaf (LeafNode.new entry)))).
  { eapply wkeep_trans; [by eapply wset_keep_internal|]. eapply (wset_keep_leaf _ _ _ _ _ Hset').
    intros c0. rewrite (wset_vget _ _ _ _ _ _ _ Hset), decide_False by (intros [? _]; lia). by rewrite Hnone. }
  split_and!; [| |done| |done]; cbn.
  - unfold log_of. fold k. by rewrite Hno.
  - eapply wok_keep; [done|done|].
    eapply sinv_ext; [|eapply (sinv_missing_child db v (view (TreeUpdater.patch_set U)) m P n k c c' (ChildRef.leaf v) (entry_of entry)); done].
    intros n0 x0. rewrite (wset_vget _ _ _ _ _ _ _ Hset'), (wset_vget _ _ _ _ _ _ _ Hset), !vget_vset. done.
  - right. by rewrite (wset_vget _ _ _ _ _ _ _ Hset'), decide_True.
Qed.

Lemma arm_leaf_mismatch U m P entry n l :
  let k := TreeEntry.key entry in let k' := LeafNode.full_key l in
  wok (TreeUpdater.patch_set U) m P → entry_valid entry →
  vget (view (TreeUpdater.patch_set U)) n (prefix n k) = Some (Node.Leaf l) → k' ≠ k →
  ∃ U1 U2 j, TreeUpdater.update_moved_leaf_ref U (of_pos n (prefix n k)) = Ret U1 ∧
    TreeUpdater.insert_fork (2 * KEY_SIZE + 1) U1 k k' v n = Ret (U2, j) ∧ (n ≤ j < 64)%nat ∧
    arm_ok U m P entry n TreeLogEntry.Inserted
      (TreeUpdater.insert_node
         (TreeUpdater.insert_node U2 (of_pos (S j) (prefix (S j) k)) (Node.Leaf (LeafNode.new entry)) true)
         (of_pos (S j) (prefix (S j) k')) (Node.Leaf l) false).
Proof using.
  intros k k' Hw He Hl Hne. pose proof (w_sinv _ _ _ Hw) as Hs. pose proof (s_pos _ _ _ _ _ Hs _ _ _ Hl) as [Hn _].
  pose proof (s_node _ _ _ _ _ Hs _ _ _ Hl) as (Hpre & Hm & Hu). fold k' in Hpre, Hm, Hu.
  assert (Hk' : key_ok k') by (by apply (s_map _ _ _ _ _ Hs) in Hm as (? & _)). pose proof (diverge_lt _ _ _ Hn Hpre Hne) as Hlt.
  rewrite <-Hpre in Hl |- *. destruct (update_moved_leaf_ref_ok U m P l n Hs Hl) as (U1 & Hmv & Hnl1 & Hkeep1 & Hun). fold k' in Hmv.
  assert (Hp : pushed (TreeUpdater.patch_set U1) m P l n).
  { split.
    - intros n' Hn'. destruct Hun as [Hsame _]. rewrite Hsame by (intros [? _]; lia).
      eapply (path_down _ _ _ _ _ _ n Hs); [|done]. intros c. fold k'. by rewrite Hl.
    - intros c r ? ? ? ?. by eapply sinv_push_down. }
  destruct (insert_fork_ok U1 m P l k (entry_of entry) n (2 * KEY_SIZE + 1)) as (U2 & j & Hfork & Hj & Hnl2 & Hkeep2 & Hsome & Hx1 & Hx2 & Hdiv & Hs2);
    [done|done|done|done|unfold KEY_SIZE; lia|done|done|]. fold k' in Hfork, Hx1, Hdiv, Hs2.
  exists U1, U2, j. split; [done|]. split; [done|]. split; [done|]. set (leaf := Node.Leaf (LeafNode.new entry)).
  set (W2 := TreeUpdater.patch_set U2) in *.
  pose proof (wset_insert W2 (S j) (prefix (S j) k) leaf ltac:(apply Nibbles.prefix_ok; [by destruct He|lia])) as Hset.
  set (W3 := WorkingPatchSet.insert W2 _ _) in Hset.
  pose proof (wset_insert W3 (S j) (prefix (S j) k') (Node.Leaf l) ltac:(apply Nibbles.prefix_ok; [done|lia])) as Hset'.
  set (W4 := WorkingPatchSet.insert W3 _ _) in Hset'.
  assert (Hkeep34 : wkeep W2 W4).
  { eapply wkeep_trans; [eapply (wset_keep_leaf _ _ _ _ _ Hset); intros c; by rewrite Hx2|].
    eapply (wset_keep_leaf _ _ _ _ _ Hset'). intros c. rewrite (wset_vget _ _ _ _ _ _ _ Hset), decide_False by (intros [_ ?]; done). by rewrite Hx1. }
  assert (Hkeep : wkeep (TreeUpdater.patch_set U) W4) by (eapply wkeep_trans; [done|]; by eapply wkeep_trans).
  split_and!; cbn; fold k W2 W3 W4; [| |done| |by rewrite Hnl2, Hnl1].
  - unfold log_of. fold k. rewrite Hu; [done| |by intros ->]. by rewrite <-Hpre.
  - eapply wok_keep; [done|done|]. eapply sinv_ext; [|exact Hs2]. intros n0 x0.
    rewrite (wset_vget _ _ _ _ _ _ _ Hset'), (wset_vget _ _ _ _ _ _ _ Hset), !vget_vset. done.
  - right. rewrite <-Hpre. rewrite (wset_vget _ _ _ _ _ _ _ Hset'), (wset_vget _ _ _ _ _ _ _ Hset), !decide_False by (intros [? _]; lia). by rewrite Hpre.
Qed.

(** ** [TreeUpdater::insert] *)
Lemma arm_versions U m P entry n log U1 :
  let k := TreeEntry.key entry in
  entry_valid entry → arm_ok U m (upto P k n) entry n log U1 →
  ∃ W', TreeUpdater.update_versions (S n) (TreeUpdater.patch_set U1) v (of_pos n (prefix n k)) = Ret W' ∧
    log = log_of m entry ∧ wok W' (insert_entry m entry) P ∧ wkeep (TreeUpdater.patch_set U) W' ∧
    TreeUpdater.new_leaves U1 =
      match log with TreeLogEntry.Inserted => wrap 64 (TreeUpdater.new_leaves U + 1) | _ => TreeUpdater.new_leaves U end.
Proof using.
  intros k [Hk _] (Hlog & Hw & Hkeep & Hsome & Hnl).
  destruct (update_versions_ok _ _ _ k n (S n) Hw Hk ltac:(lia) Hsome) as (W' & -> & Hw' & Hkeep').
  exists W'. split_and!; [done..|by eapply wkeep_trans|done].
Qed.

Lemma insert_ok U m P entry n1 :
  let k := TreeEntry.key entry in
  wok (TreeUpdater.patch_set U) m (upto P k 64) → WorkingPatchSet.root_version (TreeUpdater.patch_set U) = v →
  entry_valid entry → above (view (TreeUpdater.patch_set U)) k n1 →
  ∃ log data U', TreeUpdater.insert U entry (of_pos n1 (prefix n1 k)) = Ret (log, data, U') ∧ log = log_of m entry ∧
    wok (TreeUpdater.patch_set U') (insert_entry m entry) P ∧ wkeep (TreeUpdater.patch_set U) (TreeUpdater.patch_set U') ∧
    TreeUpdater.new_leaves U' =
      match log with TreeLogEntry.Inserted => wrap 64 (TreeUpdater.new_leaves U + 1) | _ => TreeUpdater.new_leaves U end.
Proof using.
  intros k Hw Hver He Ha. assert (Hk : key_ok k) by (by destruct He). set (W := TreeUpdater.patch_set U) in *.
  destruct (traverse_ok W m _ k n1 (w_sinv _ _ _ Hw) Hk Ha) as (n & o & Hle & [Hn Han] & Htr & Ho).
  assert (Hni : ∀ c, vget (view W) n (prefix n k) ≠ Some (Node.Internal c)).
  { intros c Hc. unfold outcome_at in Ho. by rewrite Hc in Ho. }
  assert (Hw' : wok W m (upto P k n)).
  { eapply wok_keep; [done|apply wkeep_refl|]. eapply sinv_restrict; [apply (w_sinv _ _ _ Hw)|..].
    - intros n0 x0 [?|[? ?]]; [by left|right; split; [lia|done]].
    - intros n0 x0 [node Hx] [?|[? <-]]; [by left|]. right. split; [|done].
      pose proof (on_path_le _ _ _ _ _ _ _ _ _ (w_sinv _ _ _ Hw) Hni Hx). lia. }
  unfold TreeUpdater.insert. fold W k. rewrite Hver, Htr. cbn [mbind exec_bind]. unfold outcome_at in Ho.
  destruct (vget (view W) n (prefix n k)) as [[c|l]|] eqn:E; [by destruct (Hni c)| |].
  - case_decide as Hkey; subst o; cbn [TraverseOutcome.position].
    + pose proof (arm_leaf_match U m (upto P k n) entry n l Hw' He E Hkey) as Harm. fold k W in Harm.
      destruct (arm_versions U m P entry n _ _ He Harm) as (W' & Hup & Hlog & Hrest). cbn [mbind exec_bind TreeLogEntry.update] in *.
      change (Nibbles.nibble_count (of_pos n (prefix n k))) with n. cbn in Hup |- *. fold k in Hup. rewrite Hup. cbn.
      eexists _, _, _. split; [done|]. exact (conj Hlog Hrest).
    + destruct (arm_leaf_mismatch U m (upto P k n) entry n l Hw' He E Hkey) as (U1 & U2 & j & Hmv & Hfork & Hj & Harm).
      fold k in Hmv, Hfork. rewrite Hmv. cbn [mbind exec_bind]. change (Nibbles.nibble_count (of_pos n (prefix n k))) with n. rewrite Hfork. cbn [mbind exec_bind].
      replace (j + 1)%nat with (S j) by lia. rewrite !Nibbles.new_ok by lia.
      destruct (arm_versions U m P entry n _ _ He Harm) as (W' & Hup & Hlog & Hrest). cbn in Hup |- *. fold k in Hup. rewrite Hup. cbn.
      eexists _, _, _. split; [done|]. exact (conj Hlog Hrest).
  - subst o. cbn [TraverseOutcome.position]. change (Nibbles.nibble_count (of_pos n (prefix n k))) with n. destruct n as [|n].
    + rewrite decide_True by done. rewrite Nibbles.prefix_0 in E |- * by done.
      pose proof (arm_empty_root U m (upto P k 0) entry Hw' He E) as Harm.
      destruct (arm_versions U m P entry 0 _ _ He Harm) as (W' & Hup & Hlog & Hrest). rewrite Nibbles.prefix_0 in Hup by done.
      cbn in Hup |- *. rewrite Hup. cbn.
      eexists _, _, _. split; [done|]. exact (conj Hlog Hrest).
    + rewrite decide_False by done. rewrite Nibbles.split_last_ok, prefix_up by done. cbn [mbind exec_bind expect]. fold (digit n k).
      destruct (Han n ltac:(lia)) as [c Hc]. rewrite <-view_get, Hc by (apply Nibbles.prefix_ok; [done|lia]).
      pose proof (s_node _ _ _ _ _ (w_sinv _ _ _ Hw) _ _ _ Hc) as (Hn64 & Hwf & _ & Hd). specialize (Hd _ (digit_range n k)).
      unfold child_inv in Hd. rewrite <-prefix_child, E in Hd by done.
      destruct (InternalNode.refs c (digit n k)) as [r|] eqn:Hr; [destruct Hd as (_ & _ & _ & HP & _); destruct HP; right; split; [lia|done]|].
      destruct (InternalNode.insert_child_ref_ok c (digit n k) (ChildRef.leaf v) Hwf (digit_range n k)) as (c' & -> & Hwf' & _ & Hrefs).
      cbn [mbind exec_bind]. pose proof Hc as Hc'. unfold vget in Hc'. destruct (view W n (prefix n k)) as [w|] eqn:Ew; [|done]. clear Hc'.
      destruct (view_get_mut W n (prefix n k) w (λ _, Ret (Node.Internal c')) (Node.Internal c') Ew eq_refl) as (W1 & -> & ? & ? & ?).
      cbn [mbind exec_bind expect].
      assert (Hset : wset W n (prefix n k) (Node.Internal c') W1) by done.
      pose proof (arm_missing_child U m (upto P k (S n)) entry n c c' W1 Hw' He Hc Hr Hwf' Hrefs Hset) as Harm.
      destruct (arm_versions U m P entry (S n) _ _ He Harm) as (W' & Hup & Hlog & Hrest). cbn in Hup |- *. fold k in Hup. rewrite Hup. cbn.
      eexists _, _, _. split; [done|]. exact (conj Hlog Hrest).
Qed.
End insert.
