(* ===== verification/MerkleLoad.v ===== *)
(** * The loading of the nodes on the paths of keys

    [WorkingPatchSet::load_ancestors] loads, level by level, every stored node on the
    paths of the keys, and reports for each key how far its path goes. *)
From Stdlib Require Import ZifyNat.
From S2P Require Import Prelude SmallMap MerkleTypes MerkleHash MerklePatch MerkleStorage MerkleView.
From S2P Require Import MerkleInvariant MerkleInsert.
Local Open Scope Z_scope.
Import Nibbles(pos_ok, of_pos, prefix, key_ok).
#[local] Opaque TREE_DEPTH.

Lemma NoDup_fst_inj {A} (l : list (nat * A)) i a b : NoDup l.*1 → (i, a) ∈ l → (i, b) ∈ l → a = b.
Proof.
  intros Hnd Ha Hb. apply (elem_of_list_to_map_1 (M := gmap nat)) in Ha; [|done].
  apply (elem_of_list_to_map_1 (M := gmap nat)) in Hb; [|done]. congruence.
Qed.

Section load.
Context {DB : Type} `{Database DB} `{HashTree} `{OR : OldRefs} (db : DB) (v : Z).
Implicit Types (f g : View) (m : treemap) (P : nat → Z → Prop) (c : InternalNode.t) (k : Key) (W : WorkingPatchSet.t)
  (keys : list (nat * Key)).

(** The positions with up to [n] nibbles on the paths of the keys. *)
Definition paths keys (n : nat) : nat → Z → Prop := λ n' x, (0 < n' ≤ n)%nat ∧ ∃ i k, (i, k) ∈ keys ∧ prefix n' k = x.

(** The path of [k] ends at [n] nibbles. *)
Definition settled f k (n : nat) : Prop :=
  match vget f n (prefix n k) with
  | Some (Node.Leaf _) => True
  | Some (Node.Internal c) => InternalNode.refs c (digit n k) = None
  | None => n = 0%nat
  end.

Lemma stored_node_inv f m P n vmax x node :
  (n ≤ 64)%nat → stored db n m vmax x node → vmax < v → (∀ d, 0 ≤ d < 16 → vget f (S n) (16 * x + d) = None ∧ ¬ P (S n) (16 * x + d)) →
  (∀ c d r, node = Node.Internal c → InternalNode.refs c d = Some r → old_ref (S n) (16 * x + d) r) →
  node_inv db v f m P n x node.
Proof using.
  intros Hn Hs Hv Hf Hold. destruct node as [c|l]; [|by apply stored_leaf in Hs].
  apply stored_internal in Hs as (Hlt & Hwf & _ & Hne & Hd); [|done]. split_and!; [done..|]. intros d Hdr.
  specialize (Hd d Hdr). destruct (Hf d Hdr) as [Hnone HP]. unfold child_inv. rewrite Hnone.
  destruct (InternalNode.refs c d) as [r|] eqn:Hr; [|done]. destruct Hd as [Hle Hs]. pose proof Hs as (? & _). split_and!; [lia|lia|lia|done|done|].
  by eapply Hold.
Qed.

(** ** One level

    [f'] has, one level below the nodes of [f], the nodes that [f] refers to on the
    paths of the keys. *)
Record level_loaded f f' keys (n : nat) : Prop := {
  l_same n' x : n' ≠ S n → vget f' n' x = vget f n' x;
  l_new x node : vget f' (S n) x = Some node → ∃ c r,
    (∃ i k, (i, k) ∈ keys ∧ prefix (S n) k = x) ∧ vget f n (x / 16) = Some (Node.Internal c) ∧
    InternalNode.refs c (x mod 16) = Some r ∧
    tree_node db (NodeKey.mk (ChildRef.version r) (of_pos (S n) x)) (ChildRef.is_leaf r) = Ret (Some node);
  l_all i k c : (i, k) ∈ keys → vget f n (prefix n k) = Some (Node.Internal c) → InternalNode.refs c (digit n k) ≠ None →
    is_Some (vget f' (S n) (prefix (S n) k));
}.

(** ** The requests of a level *)
Definition closed f k (n : nat) (nibbles : Nibbles.t) : Prop :=
  ∃ n1, (n1 ≤ n)%nat ∧ nibbles = of_pos n1 (prefix n1 k) ∧ above f k n1 ∧ settled f k n1.

(** After the keys in [seen], with the nodes of up to [n] nibbles loaded. *)
Record request_inv f keys (n : nat) (seen : list (nat * Key))
    (lp : list (option Nibbles.t)) (prev : option Nibbles.t) (req : list (NodeKey.t * bool)) : Prop := {
  r_len : length lp = length keys;
  r_state i k : (i, k) ∈ keys → ∃ o, lp !! i = Some o ∧
    match o with
    | Some nibbles => closed f k n nibbles
    | None => is_Some (vget f n (prefix n k)) ∧
        ((i, k) ∈ seen → (n < 64)%nat ∧ ∃ q, q ∈ req ∧ NodeKey.nibbles q.1 = of_pos (S n) (prefix (S n) k))
    end;
  r_req q : q ∈ req → ∃ i k c r, (i, k) ∈ keys ∧ vget f n (prefix n k) = Some (Node.Internal c) ∧
    InternalNode.refs c (digit n k) = Some r ∧
    q = (NodeKey.mk (ChildRef.version r) (of_pos (S n) (prefix (S n) k)), ChildRef.is_leaf r);
  r_prev nibbles : prev = Some nibbles → (Nibbles.nibble_count nibbles ≤ n)%nat ∨ ∃ q, q ∈ req ∧ NodeKey.nibbles q.1 = nibbles;
}.

Lemma loaded_above f m P k n node : sinv db v f m P → vget f n (prefix n k) = Some node → above f k n.
Proof using. intros Hs Hx. split; [by apply (s_pos _ _ _ _ _ Hs) in Hx as [? _]|]. by eapply path_up. Qed.

(** The state once the path of [k] is known to end at [n1]. *)
Lemma request_inv_close f m P keys n seen lp prev req i k nibbles :
  sinv db v f m P → request_inv f keys n seen lp prev req → NoDup keys.*1 → (i, k) ∈ keys → closed f k n nibbles →
  request_inv f keys n (seen ++ [(i, k)]) (<[i := Some nibbles]> lp) prev req.
Proof using.
  intros Hs Hi Hnd Hk Hc. pose proof Hi as [Hlen Hst Hreq Hprev]. split; [by rewrite length_insert| |done|done].
  intros i' k' Hk'. destruct (decide (i' = i)) as [->|Hne].
  - assert (k' = k) as -> by (eapply NoDup_fst_inj; [exact Hnd|..]; done).
    exists (Some nibbles). split; [|done]. destruct (Hst i k Hk) as (o & Ho & _). apply list_lookup_insert_eq. by eapply lookup_lt_Some.
  - destruct (Hst i' k' Hk') as (o & Ho & Hstate). exists o. rewrite list_lookup_insert_ne by done. split; [done|].
    destruct o; [done|]. destruct Hstate as [? Hseen]. split; [done|]. intros [?|Hin]%elem_of_app; [by apply Hseen|].
    apply list_elem_of_singleton in Hin. congruence.
Qed.

Lemma request_key_ok W m P keys n seen lp prev req i k :
  sinv db v (view W) m P → request_inv (view W) keys n seen lp prev req → NoDup keys.*1 → (i, k) ∈ keys → key_ok k →
  ∃ lp' prev' req', WorkingPatchSet.request_key W (S n) (lp, prev, req) (i, k) = Ret (lp', prev', req') ∧
    request_inv (view W) keys n (seen ++ [(i, k)]) lp' prev' req'.
Proof using.
  intros Hs Hi Hnd Hk Hkk. pose proof Hi as [Hlen Hst Hreq Hprev]. unfold WorkingPatchSet.request_key.
  destruct (Hst i k Hk) as (o & Ho & Hstate). rewrite Ho. cbn [mbind exec_bind expect]. destruct o as [nibbles|].
  { rewrite decide_True by done. eexists _, _, _. split; [done|]. split; [done| |done|done]. intros i' k' Hk'.
    destruct (Hst i' k' Hk') as (o' & Ho' & Hstate'). exists o'. split; [done|]. destruct o'; [done|]. destruct Hstate' as [? Hseen].
    split; [done|]. intros [?|Hin]%elem_of_app; [by apply Hseen|]. apply list_elem_of_singleton in Hin. congruence. }
  destruct Hstate as [[node Hnode] _]. rewrite (decide_False (P := None ≠ None)) by (intros Hc; by apply Hc).
  pose proof (loaded_above _ _ _ _ _ _ Hs Hnode) as Ha. pose proof Ha as [Hn _].
  case_decide as Hdeep.
  - rewrite Nibbles.new_ok by (unfold KEY_SIZE; lia). cbn [mbind exec_bind]. eexists _, _, _. split; [done|].
    eapply request_inv_close; [done..|]. change (2 * KEY_SIZE)%nat with 64%nat in *. assert (n = 64%nat) as -> by lia.
    exists 64%nat. split_and!; [done|done|done|]. unfold settled. rewrite Hnode. destruct node; [|done].
    apply (s_node _ _ _ _ _ Hs) in Hnode as [? _]. lia.
  - assert (Hlt : (n < 64)%nat) by (unfold KEY_SIZE in Hdeep; lia). rewrite Nibbles.new_ok by lia. cbn [mbind exec_bind].
    rewrite Nibbles.split_last_ok, prefix_up by lia. cbn [mbind exec_bind expect]. fold (digit n k).
    assert (Hclose : settled (view W) k n → request_inv (view W) keys n (seen ++ [(i, k)]) (<[i := Some (of_pos n (prefix n k))]> lp) prev req).
    { intros Hset. eapply request_inv_close; [done..|]. by exists n. }
    destruct node as [c|l].
    2: { unfold WorkingPatchSet.child_ref. rewrite <-view_get, Hnode by (by apply (s_pos _ _ _ _ _ Hs) in Hnode). cbn.
         eexists _, _, _. split; [done|]. apply Hclose. unfold settled. by rewrite Hnode. }
    pose proof (s_node _ _ _ _ _ Hs _ _ _ Hnode) as (_ & Hwf & _ & _). rewrite (view_child_ref W n _ c) by (done || apply digit_range).
    cbn [mbind exec_bind]. destruct (InternalNode.refs c (digit n k)) as [r|] eqn:Hr.
    2: { eexists _, _, _. split; [done|]. apply Hclose. unfold settled. by rewrite Hnode. }
    assert (Hadd : ∀ prev' req', (∀ q, q ∈ req → q ∈ req') →
      (∃ q, q ∈ req' ∧ NodeKey.nibbles q.1 = of_pos (S n) (prefix (S n) k)) →
      (∀ q, q ∈ req' → q ∈ req ∨ q = (NodeKey.mk (ChildRef.version r) (of_pos (S n) (prefix (S n) k)), ChildRef.is_leaf r)) →
      (∀ nibbles, prev' = Some nibbles → (Nibbles.nibble_count nibbles ≤ n)%nat ∨ ∃ q, q ∈ req' ∧ NodeKey.nibbles q.1 = nibbles) →
      request_inv (view W) keys n (seen ++ [(i, k)]) lp prev' req').
    { intros prev' req' Hsub Hthis Hnew Hprev'. split; [done| | |done].
      - intros i' k' Hk'. destruct (Hst i' k' Hk') as (o' & Ho' & Hstate'). exists o'. split; [done|]. destruct o'; [done|].
        destruct Hstate' as [? Hseen]. split; [done|]. intros [Hin|Hin]%elem_of_app.
        + destruct (Hseen Hin) as (? & q & ? & ?). split; [done|]. exists q. auto.
        + apply list_elem_of_singleton in Hin. injection Hin as -> ->. done.
      - intros q Hq. destruct (Hnew q Hq) as [?| ->]; [by apply Hreq|]. by exists i, k, c, r. }
    case_decide as Hpn.
    + eexists _, _, _. split; [done|]. apply Hadd; [done| |auto|done]. destruct (Hprev _ Hpn) as [Hc|?]; [|done].
      change (Nibbles.nibble_count (of_pos (S n) _)) with (S n) in Hc. lia.
    + eexists _, _, _. split; [done|]. unfold with_version. apply Hadd.
      * set_solver.
      * eexists. split; [by apply elem_of_app; right; apply list_elem_of_singleton|done].
      * intros q [?|Hq]%elem_of_app; [by left|]. apply list_elem_of_singleton in Hq. by right.
      * intros ? [= <-]. right. eexists. split; [by apply elem_of_app; right; apply list_elem_of_singleton|done].
Qed.

Lemma request_keys_ok W m P keys n lp prev :
  sinv db v (view W) m P → request_inv (view W) keys n [] lp prev [] → NoDup keys.*1 → Forall (λ '(_, k), key_ok k) keys →
  ∃ lp' prev' req', foldM (WorkingPatchSet.request_key W (S n)) (lp, prev, []) keys = Ret (lp', prev', req') ∧
    request_inv (view W) keys n keys lp' prev' req'.
Proof using.
  intros Hs Hi Hnd Hkeys. generalize (@nil (NodeKey.t * bool)) as req, Hi. clear Hi.
  assert (Hall : ∀ rest seen lp prev req, keys = seen ++ rest → request_inv (view W) keys n seen lp prev req →
    ∃ lp' prev' req', foldM (WorkingPatchSet.request_key W (S n)) (lp, prev, req) rest = Ret (lp', prev', req') ∧
      request_inv (view W) keys n keys lp' prev' req').
  { induction rest as [|[i k] rest IH]; intros seen lp0 prev0 req0 Heq Hi.
    - rewrite app_nil_r in Heq. subst seen. cbn. eauto.
    - assert (Hin : (i, k) ∈ keys) by (rewrite Heq; set_solver). rewrite Forall_forall in Hkeys.
      destruct (request_key_ok W m P keys n seen lp0 prev0 req0 i k Hs Hi Hnd Hin (Hkeys (i, k) Hin)) as (? & ? & ? & Hr & Hi').
      cbn [foldM]. rewrite Hr. cbn [mbind exec_bind]. eapply IH; [|done]. by rewrite <-app_assoc. }
  intros req Hi. by eapply (Hall keys []).
Qed.

(** ** The levels *)
Lemma settled_end f m P k n1 n :
  sinv db v f m P → settled f k n1 → (n1 < n)%nat → vget f n (prefix n k) = None.
Proof using.
  intros Hs Hset Hlt. destruct (vget f n (prefix n k)) as [node|] eqn:E; [|done]. exfalso.
  destruct (path_up _ _ _ _ _ _ _ _ Hs E n1 Hlt) as [c Hc]. unfold settled in Hset. rewrite Hc in Hset.
  pose proof (s_node _ _ _ _ _ Hs _ _ _ Hc) as (Hn & _ & _ & Hd). specialize (Hd _ (digit_range n1 k)). unfold child_inv in Hd.
  rewrite Hset, <-prefix_child in Hd by done. destruct Hd as [Hnone _]. destruct (decide (n = S n1)) as [->|]; [congruence|].
  rewrite (path_down _ _ _ _ _ _ (S n1) Hs) in E; [done| |lia]. intros c'. by rewrite Hnone.
Qed.

Lemma sinv_settle f m keys n :
  sinv db v f m (paths keys n) → (n ≤ 64)%nat → (∀ i k, (i, k) ∈ keys → ∃ n1, above f k n1 ∧ settled f k n1) →
  sinv db v f m (paths keys 64).
Proof using.
  intros Hs Hn Hset. split; [apply Hs..|]. intros n0 x node Hx. pose proof (s_node _ _ _ _ _ Hs _ _ _ Hx) as Hnode.
  destruct node as [c|l]; [|done]. destruct Hnode as (Hlt & ? & ? & Hd). split_and!; [done..|]. intros d Hdr. specialize (Hd d Hdr).
  unfold child_inv in *. destruct (InternalNode.refs c d) as [r|] eqn:Hr; [|done]. destruct Hd as [? Hd]. split; [done|].
  destruct (vget f (S n0) _) eqn:E.
  - destruct Hd as [? [?|[? ?]]]; (split; [done|]); [by left|right]. split; [lia|done].
  - destruct Hd as (? & ? & _ & ?). split_and!; [done|done| |done]. intros (_ & i & k & Hk & Hpre). apply prefix_child_iff in Hpre as [<- ->]; [|done..].
    destruct (Hset i k Hk) as (n1 & [_ Ha] & Hse). rewrite <-prefix_child in E by done. destruct (decide (n0 = n1)) as [->|].
    { unfold settled in Hse. rewrite Hx in Hse. congruence. }
    destruct (decide (n1 < n0)%nat); [by rewrite (settled_end _ _ _ _ _ _ Hs Hse) in Hx|].
    destruct (decide (S n0 = n1)) as [<-|]; [unfold settled in Hse; by rewrite E in Hse|].
    destruct (Ha (S n0) ltac:(lia)) as [c' Hc']. congruence.
Qed.

Definition level_of (level : list (NodeKey.t * Node.t)) : Level :=
  foldl (λ level '(key, node), <[Nibbles.bytes (NodeKey.nibbles key) := WorkingNode.new node (Some (NodeKey.version key))]> level) ∅ level.

Lemma level_of_Some level bs w :
  level_of level !! bs = Some w → ∃ key node, (key, node) ∈ level ∧ Nibbles.bytes (NodeKey.nibbles key) = bs ∧
    w = WorkingNode.new node (Some (NodeKey.version key)).
Proof using.
  induction level as [|[key node] level IH] using rev_ind; [done|]. unfold level_of. rewrite foldl_app. cbn.
  intros [[<- <-]|[_ Hw]]%lookup_insert_Some.
  - exists key, node. split; [set_solver|done].
  - destruct (IH Hw) as (key' & node' & ? & ?). exists key', node'. split; [set_solver|done].
Qed.

Lemma level_of_is_Some level key node : (key, node) ∈ level → is_Some (level_of level !! Nibbles.bytes (NodeKey.nibbles key)).
Proof using.
  induction level as [|[key' node'] level IH] using rev_ind; [by intros ?%not_elem_of_nil|]. unfold level_of. rewrite foldl_app. cbn.
  intros [Hin|Hin]%elem_of_app.
  - rewrite lookup_insert_is_Some'. right. by apply IH.
  - apply list_elem_of_singleton in Hin. injection Hin as -> ->. rewrite lookup_insert_is_Some'. by left.
Qed.

Lemma view_push W level n x :
  let W' := WorkingPatchSet.push_level_from_db W level in
  view W' n x =
    if decide (n = length (WorkingPatchSet.changes_by_nibble_count W))
    then (if decide (pos_ok n x) then level_of level !! Nibbles.bytes (of_pos n x) else None) else view W n x.
Proof using.
  intros W'. unfold view. destruct (decide (pos_ok n x)); [|by case_decide].
  unfold WorkingPatchSet.get_working. change (Nibbles.nibble_count (of_pos n x)) with n. cbn.
  set (changes := WorkingPatchSet.changes_by_nibble_count W). case_decide as Hn.
  - subst n. rewrite lookup_app_r, Nat.sub_diag by done. done.
  - destruct (decide (n < length changes)%nat); [by rewrite lookup_app_l|].
    rewrite lookup_app_r, (proj2 (lookup_ge_None changes n)) by lia. cbn.
    destruct (n - length changes)%nat eqn:E; [lia|done].
Qed.

Lemma view_deep W n x : (length (WorkingPatchSet.changes_by_nibble_count W) ≤ n)%nat → view W n x = None.
Proof using.
  intros Hn. unfold view. case_decide; [|done]. unfold WorkingPatchSet.get_working.
  change (Nibbles.nibble_count (of_pos n x)) with n. by rewrite (proj2 (lookup_ge_None _ n)).
Qed.

(** The nodes that are loaded have the references of the old version. *)
Context (Hold : ∀ n x r c d r', old_ref n x r →
  tree_node db (NodeKey.mk (ChildRef.version r) (of_pos n x)) (ChildRef.is_leaf r) = Ret (Some (Node.Internal c)) →
  InternalNode.refs c d = Some r' → old_ref (S n) (16 * x + d) r').

Lemma sinv_level f f' m keys n :
  sinv db v f m (paths keys n) → (∀ n' x, (n < n')%nat → vget f n' x = None) → Forall (λ '(_, k), key_ok k) keys →
  level_loaded f f' keys n → sinv db v f' m (paths keys (S n)).
Proof using Hold.
  intros Hs Hdeep Hkeys Hl.
  assert (Hnew : ∀ x node, vget f' (S n) x = Some node → pos_ok (S n) x ∧ ∃ c r, vget f n (x / 16) = Some (Node.Internal c) ∧
    InternalNode.refs c (x mod 16) = Some r ∧ ChildRef.version r < v ∧ Node.is_leaf node = ChildRef.is_leaf r ∧
    stored db (S n) m (ChildRef.version r) x node ∧ paths keys (S n) (S n) x ∧
    ∀ c d r', node = Node.Internal c → InternalNode.refs c d = Some r' → old_ref (S (S n)) (16 * x + d) r').
  { intros x node Hx. destruct (l_new _ _ _ _ Hl _ _ Hx) as (c & r & (i & k & Hk & <-) & Hc & Hr & Ht).
    pose proof (s_node _ _ _ _ _ Hs _ _ _ Hc) as (Hn & _ & _ & Hd). rewrite prefix_up in Hc |- * by lia.
    assert (Hkk : key_ok k) by (rewrite Forall_forall in Hkeys; by apply (Hkeys (i, k))).
    specialize (Hd _ (digit_range n k)). unfold child_inv in Hd. fold (digit n k) in Hr |- *. rewrite prefix_up in Hd by lia.
    rewrite Hr, <-prefix_child, Hdeep in Hd by lia. destruct Hd as (Hver & Hlt & Hst & _ & Hor).
    split; [by apply Nibbles.prefix_ok|]. exists c, r. destruct Hst as (_ & _ & node' & Ht' & Hleaf & Hst).
    rewrite Ht' in Ht. injection Ht as <-. split; [done|]. split; [done|]. split; [lia|]. split; [done|]. split; [done|].
    split; [split; [lia|]; by exists i, k|]. intros c' d r' -> Hr'. by eapply Hold. }
  pose proof (l_same _ _ _ _ Hl) as Hsame. split.
  - apply Hs.
  - apply Hs.
  - rewrite Hsame by lia. apply Hs.
  - intros n0 x node Hx. destruct (decide (n0 = S n)) as [->|]; [by apply Hnew in Hx as [? _]|]. rewrite Hsame in Hx by done. by apply Hs in Hx.
  - intros n0 x node Hx. destruct (decide (n0 = n)) as [->|].
    + apply Hnew in Hx as (_ & c & r & Hc & _). exists c. by rewrite Hsame by lia.
    + rewrite Hsame in Hx by lia. destruct (decide (n0 = S n)) as [->|]; [by rewrite Hdeep in Hx by lia|].
      rewrite Hsame by done. exact (s_parent _ _ _ _ _ Hs _ _ _ Hx).
  - intros n0 x node Hx. destruct (decide (n0 = S n)) as [->|Hn0].
    { apply Hnew in Hx as ([Hle _] & c & r & _ & _ & Hver & _ & Hst & _ & Hor). eapply stored_node_inv; [done|done|done| |done].
      intros d Hd. rewrite Hsame, Hdeep by lia. split; [done|]. intros [? _]. lia. }
    rewrite Hsame in Hx by done. pose proof (s_node _ _ _ _ _ Hs _ _ _ Hx) as Hnode. destruct node as [c|l]; [|done].
    destruct Hnode as (Hlt & Hwf & Hne & Hd). split_and!; [done..|]. intros d Hdr. specialize (Hd d Hdr). unfold child_inv in *.
    destruct (decide (n0 = n)) as [->|].
    2: { rewrite Hsame by lia. destruct (InternalNode.refs c d) as [r|]; [|done]. destruct Hd as [? Hd]. split; [done|].
         destruct (vget f (S n0) _) eqn:E.
         - destruct Hd as [? [?|[? ?]]]; (split; [done|]); [by left|right]. split; [lia|done].
         - destruct Hd as (? & ? & HP & ?). split_and!; [done|done| |done]. intros [Hr Hk]. apply HP. split; [|done].
           destruct (decide (S n0 ≤ n)%nat); [lia|]. assert (n0 > n)%nat by lia. by rewrite Hdeep in Hx by lia. }
    rewrite Hdeep in Hd by lia. destruct (InternalNode.refs c d) as [r|] eqn:Hr.
    + destruct Hd as (? & ? & ? & ? & ?). split; [done|]. destruct (vget f' (S n) (16 * x + d)) as [node|] eqn:E.
      * apply Hnew in E as (_ & c' & r' & Hc' & Hr' & _ & Hleaf & _ & HP & _).
        replace ((16 * x + d) / 16) with x in Hc' by lia. replace ((16 * x + d) mod 16) with d in Hr' by lia.
        rewrite Hx in Hc'. injection Hc' as <-. rewrite Hr in Hr'. injection Hr' as <-. split; [done|by right].
      * split_and!; [done|done| |done]. intros (_ & i & k & Hk & Hpre). apply prefix_child_iff in Hpre as [<- ->]; [|done..].
        destruct (l_all _ _ _ _ Hl i k c Hk Hx) as [? Hsome]; [by rewrite Hr|]. rewrite prefix_child in Hsome by done. congruence.
    + destruct Hd as [_ Hno]. split; [|done]. destruct (vget f' (S n) (16 * x + d)) as [node|] eqn:E; [|done].
      apply Hnew in E as (_ & c' & r' & Hc' & Hr' & _). replace ((16 * x + d) / 16) with x in Hc' by lia.
      replace ((16 * x + d) mod 16) with d in Hr' by lia. rewrite Hx in Hc'. injection Hc' as <-. congruence.
Qed.

(** A property of the nodes that all stored nodes have. *)
Context (Q : treemap → nat → Z → Node.t → Prop).
Context (HQ : ∀ m n vmax x node, (n ≤ 64)%nat → stored db n m vmax x node → Q m n x node).
Definition all_nodes m W : Prop := ∀ n x node, vget (view W) n x = Some node → Q m n x node.

Record load_inv W m keys (n : nat) (lp : list (option Nibbles.t)) (prev : option Nibbles.t) : Prop := {
  li_wok : wok db v W m (paths keys n);
  li_len : length (WorkingPatchSet.changes_by_nibble_count W) = S n;
  li_req : request_inv (view W) keys n [] lp prev [];
  li_nodes : all_nodes m W;
}.

Lemma mapM_expect (req : list (NodeKey.t * bool)) nodes :
  Forall2 (λ q o, ∃ node, o = Some node ∧ tree_node db q.1 q.2 = Ret (Some node)) req nodes →
  ∃ level : list (NodeKey.t * Node.t),
    mapM (λ '((key, _), node), node ← expect node; Ret (key, node)) (zip req nodes) = Ret level ∧
    Forall2 (λ q kn, kn.1 = q.1 ∧ tree_node db q.1 q.2 = Ret (Some kn.2)) req level.
Proof using.
  induction 1 as [|[key is_leaf] o req nodes (node & -> & Ht) _ (level & IH & Hl)]; [by exists []|].
  cbn. rewrite IH. cbn. exists ((key, node) :: level). split; [done|]. constructor; [done|done].
Qed.

(** What a request finds. *)
Lemma request_found f m keys n q lp prev req :
  sinv db v f m (paths keys n) → (∀ n' x, (n < n')%nat → vget f n' x = None) → request_inv f keys n keys lp prev req → q ∈ req →
  ∃ i k c r node, (i, k) ∈ keys ∧ vget f n (prefix n k) = Some (Node.Internal c) ∧ InternalNode.refs c (digit n k) = Some r ∧
    q = (NodeKey.mk (ChildRef.version r) (of_pos (S n) (prefix (S n) k)), ChildRef.is_leaf r) ∧ (n < 64)%nat ∧
    0 ≤ ChildRef.version r < v ∧ tree_node db q.1 q.2 = Ret (Some node) ∧ stored db (S n) m (ChildRef.version r) (prefix (S n) k) node.
Proof using.
  intros Hs Hdeep Hi Hq. destruct (r_req _ _ _ _ _ _ _ Hi q Hq) as (i & k & c & r & Hk & Hc & Hr & ->).
  pose proof (s_node _ _ _ _ _ Hs _ _ _ Hc) as (Hn & _ & _ & Hd). specialize (Hd _ (digit_range n k)). unfold child_inv in Hd.
  rewrite Hr, <-prefix_child, Hdeep in Hd by lia. destruct Hd as (Hv & Hlt & (_ & _ & node & Ht & _ & Hst) & _).
  exists i, k, c, r, node. split_and!; [done..|lia|done|done|done].
Qed.

Lemma load_step W m keys n lp0 prev0 lp prev req :
  load_inv W m keys n lp0 prev0 → Forall (λ '(_, k), key_ok k) keys → request_inv (view W) keys n keys lp prev req →
  ∃ nodes level, tree_nodes db req = Ret nodes ∧
    mapM (λ '((key, _), node), node ← expect node; Ret (key, node)) (zip req nodes) = Ret level ∧
    load_inv (WorkingPatchSet.push_level_from_db W level) m keys (S n) lp prev.
Proof using HQ Hold.
  intros [Hw Hlen _ Hnodes0] Hkeys Hi. pose proof (w_sinv _ _ _ _ _ Hw) as Hs.
  assert (Hdeep : ∀ n' x, (n < n')%nat → vget (view W) n' x = None) by (intros n' x ?; unfold vget; by rewrite view_deep by lia).
  assert (Hfound := λ q, request_found _ _ _ _ q _ _ _ Hs Hdeep Hi).
  destruct (mapM_Ret (λ q o, ∃ node, o = Some node ∧ tree_node db q.1 q.2 = Ret (Some node))
    (λ '(key, is_leaf), tree_node db key is_leaf) req) as (nodes & Hnodes & HR).
  { apply Forall_forall. intros [key is_leaf] Hq. destruct (Hfound _ Hq) as (_ & _ & _ & _ & node & _ & _ & _ & _ & _ & _ & Ht & _). cbn in Ht. eauto. }
  destruct (mapM_expect _ _ HR) as (level & Hlevel & HL). exists nodes, level. split; [done|]. split; [done|]. clear nodes Hnodes HR Hlevel.
  assert (Hin : ∀ key node, (key, node) ∈ level → ∃ q, q ∈ req ∧ q.1 = key ∧ tree_node db q.1 q.2 = Ret (Some node)).
  { intros key node Hkn. apply list_elem_of_lookup in Hkn as [j Hj]. destruct (Forall2_lookup_r _ _ _ _ _ HL Hj) as (q & Hq & ? & ?).
    exists q. split; [by eapply list_elem_of_lookup_2|done]. }
  set (W' := WorkingPatchSet.push_level_from_db W level). pose proof (view_push W level) as Hview. fold W' in Hview. rewrite Hlen in Hview.
  assert (Hsame : ∀ n' x, n' ≠ S n → view W' n' x = view W n' x) by (intros n' x ?; by rewrite Hview, decide_False).
  assert (Hlevel : ∀ x w, view W' (S n) x = Some w → ∃ i k c r, (i, k) ∈ keys ∧ prefix (S n) k = x ∧
    vget (view W) n (prefix n k) = Some (Node.Internal c) ∧ InternalNode.refs c (digit n k) = Some r ∧ (n < 64)%nat ∧
    0 ≤ ChildRef.version r < v ∧ WorkingNode.prev_version w = Some (ChildRef.version r) ∧
    tree_node db (NodeKey.mk (ChildRef.version r) (of_pos (S n) x)) (ChildRef.is_leaf r) = Ret (Some (WorkingNode.inner w)) ∧
    stored db (S n) m (ChildRef.version r) x (WorkingNode.inner w)).
  { intros x w. rewrite Hview, decide_True by done. case_decide as Hpos; [|done]. intros (key & node & Hkn & Hbs & ->)%level_of_Some.
    destruct (Hin _ _ Hkn) as (q & Hq & <- & Ht). destruct (Hfound q Hq) as (i & k & c & r & node0 & Hk & Hc & Hr & -> & Hn & Hv & Ht0 & Hst).
    rewrite Ht in Ht0. injection Ht0 as <-. cbn in Hbs, Ht |- *. apply Nibbles.of_pos_inj in Hbs; [|apply Nibbles.prefix_ok; [|lia]; rewrite Forall_forall in Hkeys; by apply (Hkeys (i, k))|done].
    subst x. by exists i, k, c, r. }
  assert (Hll : level_loaded (view W) (view W') keys n).
  { split.
    - intros n' x Hne. unfold vget. by rewrite Hsame.
    - intros x node Hx. unfold vget in Hx. destruct (view W' (S n) x) as [w|] eqn:E; [|done]. injection Hx as <-.
      destruct (Hlevel x w E) as (i & k & c & r & Hk & <- & Hc & Hr & Hn & _ & _ & Ht & _). exists c, r. rewrite prefix_up by lia.
      split; [by exists i, k|]. by fold (digit n k).
    - intros i k c Hk Hc Hr. destruct (r_state _ _ _ _ _ _ _ Hi i k Hk) as ([nibbles|] & _ & Hst).
      + destruct Hst as (n1 & Hle & _ & _ & Hset). destruct (decide (n1 = n)) as [->|].
        * unfold settled in Hset. rewrite Hc in Hset. congruence.
        * by rewrite (settled_end _ _ _ _ _ n Hs Hset) in Hc by lia.
      + destruct Hst as [_ Hst]. destruct (Hst Hk) as (Hn & q & Hq & Hnib). apply list_elem_of_lookup in Hq as [j Hj].
        destruct (Forall2_lookup_l _ _ _ _ _ HL Hj) as ([key node] & Hkn & Heq & _). cbn in Heq. subst key.
        apply list_elem_of_lookup_2 in Hkn. apply level_of_is_Some in Hkn as [w Hw']. rewrite Hnib in Hw'.
        unfold vget. rewrite Hview, decide_True by done. rewrite decide_True, Hw'; [done|].
        apply Nibbles.prefix_ok; [|lia]. rewrite Forall_forall in Hkeys. by apply (Hkeys (i, k)). }
  split.
  - split.
    + eapply sinv_level; [done|done|done|exact Hll].
    + intros n' lv bs w. cbn. intros [Hlv|[Hge Hlv]]%lookup_app_Some Hbs; [by eapply (w_levels _ _ _ _ _ Hw)|].
      rewrite Hlen in Hlv, Hge. apply list_lookup_singleton_Some in Hlv as [Heq <-]. assert (n' = S n) as -> by lia. fold (level_of level) in Hbs.
      apply level_of_Some in Hbs as (key & node & Hkn & <- & _). destruct (Hin _ _ Hkn) as (q & Hq & <- & _).
      destruct (Hfound q Hq) as (i & k & c & r & _ & Hk & _ & _ & -> & Hn & _). exists (prefix (S n) k). split; [|done].
      apply Nibbles.prefix_ok; [|lia]. rewrite Forall_forall in Hkeys. by apply (Hkeys (i, k)).
    + intros n' x w p Hx Hp. destruct (decide (n' = S n)) as [->|]; [|rewrite Hsame in Hx by done; by eapply (w_prev _ _ _ _ _ Hw)].
      destruct (Hlevel x w Hx) as (_ & _ & _ & r & _ & _ & _ & _ & _ & Hv & Hpv & _). rewrite Hpv in Hp. by injection Hp as <-.
  - cbn. rewrite length_app, Hlen. cbn. lia.
  - destruct Hi as [Hl Hst Hreq Hprev]. split; [done| |by intros q ?%not_elem_of_nil|].
    + intros i k Hk. destruct (Hst i k Hk) as (o & Ho & Hstate). exists o. split; [done|]. destruct o as [nibbles|].
      * destruct Hstate as (n1 & Hle & -> & [Hn1 Ha] & Hset). exists n1. split; [lia|]. split; [done|]. split.
        -- split; [done|]. intros n' Hn'. rewrite (l_same _ _ _ _ Hll) by lia. by apply Ha.
        -- unfold settled. rewrite (l_same _ _ _ _ Hll) by lia. done.
      * destruct Hstate as [[node Hnode] Hseen]. split; [|by intros ?%not_elem_of_nil]. destruct (Hseen Hk) as (Hn & q & Hq & Hnib).
        destruct (Hfound q Hq) as (i' & k' & c & r & _ & Hk' & Hc & Hr & -> & _). apply (f_equal Nibbles.bytes) in Hnib. cbn [NodeKey.nibbles fst] in Hnib.
        rewrite Forall_forall in Hkeys. apply Nibbles.of_pos_inj in Hnib; [|apply Nibbles.prefix_ok; [by apply (Hkeys (i', k'))|lia]|apply Nibbles.prefix_ok; [by apply (Hkeys (i, k))|lia]].
        rewrite <-Hnib. eapply (l_all _ _ _ _ Hll); [done|done|by rewrite Hr].
    + intros nibbles Hp. left. destruct (Hprev nibbles Hp) as [?|(q & Hq & <-)]; [lia|].
      destruct (Hfound q Hq) as (? & ? & ? & ? & ? & _ & _ & _ & -> & _). done.
  - intros n' x node Hx. destruct (decide (n' = S n)) as [->|].
    + unfold vget in Hx. destruct (view W' (S n) x) as [w|] eqn:E; [|done]. injection Hx as <-.
      destruct (Hlevel x w E) as (_ & _ & _ & r & _ & _ & _ & _ & Hn & _ & _ & _ & Hst). eapply HQ; [|exact Hst]. lia.
    + rewrite (l_same _ _ _ _ Hll) in Hx by done. by apply Hnodes0.
Qed.

Lemma load_levels_ok W m keys n lp prev reads fuel :
  load_inv W m keys n lp prev → NoDup keys.*1 → Forall (λ '(_, k), key_ok k) keys → (65 ≤ n + fuel)%nat → (n ≤ 64)%nat →
  ∃ W' lp' reads' n', WorkingPatchSet.load_levels fuel db keys W (S n) lp prev reads = Ret (W', lp', reads') ∧
    wok db v W' m (paths keys 64) ∧ all_nodes m W' ∧ WorkingPatchSet.root_version W' = WorkingPatchSet.root_version W ∧ length lp' = length keys ∧
    ∀ i k, (i, k) ∈ keys → ∃ nibbles, lp' !! i = Some (Some nibbles) ∧ closed (view W') k n' nibbles.
Proof using HQ Hold.
  revert W n lp prev reads. induction fuel as [|fuel IH]; intros W n lp prev reads Hli Hnd Hkeys Hf Hn; [lia|].
  pose proof Hli as [Hw Hlen Hreq Hnodes]. cbn [WorkingPatchSet.load_levels].
  destruct (request_keys_ok W m _ keys n lp prev (w_sinv _ _ _ _ _ Hw) Hreq Hnd Hkeys) as (lp' & prev' & req & -> & Hi).
  cbn [mbind exec_bind]. case_decide as Hempty.
  - subst req. eexists W, lp', reads, n. split; [done|].
    assert (Hcl : ∀ i k, (i, k) ∈ keys → ∃ nibbles, lp' !! i = Some (Some nibbles) ∧ closed (view W) k n nibbles).
    { intros i k Hk. destruct (r_state _ _ _ _ _ _ _ Hi i k Hk) as ([nibbles|] & Ho & Hst); [by exists nibbles|].
      destruct Hst as [_ Hst]. destruct (Hst Hk) as (_ & q & Hq & _). by apply not_elem_of_nil in Hq. }
    split; [|split; [done|split; [done|split; [by apply Hi|done]]]]. eapply wok_keep; [done|apply wkeep_refl|].
    eapply sinv_settle; [apply Hw|done|]. intros i k Hk. destruct (Hcl i k Hk) as (_ & _ & n1 & _ & _ & ? & ?). by exists n1.
  - destruct (load_step W m keys n lp prev lp' prev' req Hli Hkeys Hi) as (nodes & level & -> & Hlevel & Hli').
    cbn [mbind exec_bind]. rewrite Hlevel. cbn [mbind exec_bind].
    assert (n < 64)%nat.
    { destruct req as [|q req]; [done|]. destruct (r_req _ _ _ _ _ _ _ Hi q ltac:(set_solver)) as (_ & k & c & _ & _ & Hc & _).
      by apply (s_node _ _ _ _ _ (w_sinv _ _ _ _ _ Hw)) in Hc as [? _]. }
    destruct (IH _ (S n) lp' prev' (wrap 64 (reads + Z.of_nat (length nodes))) Hli' Hnd Hkeys ltac:(lia) ltac:(lia)) as (W' & lp'' & reads' & n' & ? & ? & ? & ? & ?).
    by exists W', lp'', reads', n'.
Qed.

(** ** [WorkingPatchSet::load_ancestors] *)
Lemma load_ancestors_ok W m keys :
  wok db v W m (λ _ _, False) → all_nodes m W → (length (WorkingPatchSet.changes_by_nibble_count W) ≤ 1)%nat →
  keys.*1 ≡ₚ seq 0 (length keys) → Forall (λ '(_, k), key_ok k) keys →
  ∃ lp reads W', WorkingPatchSet.load_ancestors W keys db = Ret (LoadAncestorsResult.mk lp reads, W') ∧
    wok db v W' m (paths keys 64) ∧ all_nodes m W' ∧ WorkingPatchSet.root_version W' = WorkingPatchSet.root_version W ∧ length lp = length keys ∧
    ∀ i k, (i, k) ∈ keys → ∃ n1, lp !! i = Some (of_pos n1 (prefix n1 k)) ∧ above (view W') k n1 ∧ settled (view W') k n1.
Proof using HQ Hold.
  intros Hw Hnodes Hlen Hperm Hkeys. pose proof (w_sinv _ _ _ _ _ Hw) as Hs. assert (Hp0 : pos_ok 0 0) by (split; cbn; lia).
  assert (Hnd : NoDup keys.*1) by (rewrite Hperm; apply NoDup_seq). rewrite Forall_forall in Hkeys.
  unfold WorkingPatchSet.load_ancestors. rewrite Nibbles.empty_ok, <-view_get by done.
  assert (Hdeep : ∀ n x, (0 < n)%nat → vget (view W) n x = None) by (intros n x ?; unfold vget; by rewrite view_deep by lia).
  assert (Hleaf : (∀ c, vget (view W) 0 0 ≠ Some (Node.Internal c)) →
    ∃ lp reads W', Ret (LoadAncestorsResult.mk (replicate (length keys) (of_pos 0 0)) 0, W) = Ret (LoadAncestorsResult.mk lp reads, W') ∧
    wok db v W' m (paths keys 64) ∧ all_nodes m W' ∧ WorkingPatchSet.root_version W' = WorkingPatchSet.root_version W ∧ length lp = length keys ∧
    ∀ i k, (i, k) ∈ keys → ∃ n1, lp !! i = Some (of_pos n1 (prefix n1 k)) ∧ above (view W') k n1 ∧ settled (view W') k n1).
  { intros Hni. eexists _, _, _. split; [done|].
    assert (Hset : ∀ i k, (i, k) ∈ keys → above (view W) k 0 ∧ settled (view W) k 0).
    { intros i k Hk. split; [split; [lia|]; intros; lia|]. unfold settled. rewrite Nibbles.prefix_0 by (by apply (Hkeys (i, k))).
      destruct (vget (view W) 0 0) as [[c|]|]; [by destruct (Hni c)|done|done]. }
    split; [|split; [done|split; [done|split; [apply length_replicate|]]]].
    - eapply wok_keep; [done|apply wkeep_refl|]. eapply (sinv_settle _ _ _ 0); [|lia|intros i k Hk; exists 0%nat; by eapply Hset].
      eapply sinv_restrict; [done|intros n x [? _]; lia|done].
    - intros i k Hk. exists 0%nat. rewrite Nibbles.prefix_0 by (by apply (Hkeys (i, k))). split; [|by eapply Hset].
      apply lookup_replicate_2. apply (list_elem_of_fmap_2 fst) in Hk. rewrite Hperm in Hk. apply elem_of_seq in Hk. cbn in Hk. lia. }
  destruct (vget (view W) 0 0) as [[c|l]|] eqn:Hroot; [|by apply Hleaf..]. clear Hleaf.
  destruct (load_levels_ok W m keys 0 (replicate (length keys) None) None 0 (2 * KEY_SIZE + 1)) as (W' & lp & reads & n' & -> & Hw' & Hnodes' & Hver & Hl & Hcl);
    [|done|by apply Forall_forall|unfold KEY_SIZE; lia|lia|].
  - split.
    + eapply wok_keep; [done|apply wkeep_refl|]. eapply sinv_restrict; [done|intros n x [? _]; lia|done].
    + destruct (WorkingPatchSet.changes_by_nibble_count W) as [|? [|]] eqn:E; [|done|cbn in Hlen; lia].
      unfold vget in Hroot. by rewrite view_deep in Hroot by (by rewrite E).
    + split; [apply length_replicate| |by intros q ?%not_elem_of_nil|done]. intros i k Hk. exists None. split.
      * apply lookup_replicate_2. apply (list_elem_of_fmap_2 fst) in Hk. rewrite Hperm in Hk. apply elem_of_seq in Hk. cbn in Hk. lia.
      * rewrite Nibbles.prefix_0, Hroot by (by apply (Hkeys (i, k))). split; [done|]. by intros ?%not_elem_of_nil.
    + done.
  - cbn [mbind exec_bind].
    assert (Hmap : ∃ lp', mapM expect lp = Ret lp' ∧ Forall2 (λ o nibbles, o = Some nibbles) lp lp').
    { apply mapM_Ret, Forall_lookup. intros i o Hi. assert (Hin : i ∈ keys.*1).
      { rewrite Hperm. apply elem_of_seq. apply lookup_lt_Some in Hi. lia. }
      apply list_elem_of_fmap in Hin as ([i' k] & -> & Hk). destruct (Hcl _ _ Hk) as (nibbles & Hlk & _). cbn in Hi. rewrite Hlk in Hi.
      injection Hi as <-. by exists nibbles. }
    destruct Hmap as (lp' & -> & Hmap). cbn. eexists lp', _, W'. split; [done|]. split; [done|]. split; [done|]. split; [done|].
    split; [by rewrite <-(Forall2_length _ _ _ Hmap)|]. intros i k Hk. destruct (Hcl i k Hk) as (nibbles & Hlk & n1 & _ & -> & Ha & Hset).
    destruct (Forall2_lookup_l _ _ _ _ _ Hmap Hlk) as (nibbles & Hlk' & [= <-]). by exists n1.
Qed.
End load.
