(* ===== verification/MerkleFinalize.v ===== *)
(** * The hashing of the changes

    [WorkingPatchSet::finalize] computes the root hash of the map that the working
    set is about, and a patch with every node of the working set at the new version. *)
From Stdlib Require Import ZifyNat.
From S2P Require Import Prelude SmallMap MerkleTypes MerkleHash MerklePatch MerkleStorage MerkleView.
From S2P Require Import MerkleInvariant MerkleInsert MerkleLoad.
Local Open Scope Z_scope.
Import Nibbles(pos_ok, of_pos, prefix, key_ok).
#[local] Opaque TREE_DEPTH.

Section finalize.
Context {DB : Type} `{Database DB} `{HashTree} `{!HashTreeLaws} `{Unspecified} `{!UnspecifiedLaws} `{OR : OldRefs} (db : DB) (v : Z).
Context (W : WorkingPatchSet.t) (m : treemap) (Hw : wok db v W m (λ _ _, False)).
Implicit Types (S : Z → Prop) (c : InternalNode.t).

(** [node'] is [node] with the hashes set in the references to the positions of [S]. *)
Definition hashed S (n : nat) (x : Z) (node node' : Node.t) : Prop :=
  match node, node' with
  | Node.Leaf l, Node.Leaf l' => l' = l
  | Node.Internal c, Node.Internal c' =>
      InternalNode.wf c' ∧
      (∀ d, S (16 * x + d) → InternalNode.refs c' d =
        (λ r, ChildRef.with_hash r (phash m (Datatypes.S n) (16 * x + d))) <$> InternalNode.refs c d) ∧
      ∀ d, ¬ S (16 * x + d) → InternalNode.refs c' d = InternalNode.refs c d
  | _, _ => False
  end.

Definition loaded (n : nat) : Z → Prop := λ x, is_Some (view W n x).
#[local] Instance loaded_dec n x : Decision (loaded n x) := _.

(** [level] has the nodes of the working set with [n] nibbles, hashed in [S]. *)
Record level_rel S (n : nat) (level : Level) : Prop := {
  lr_sound bs w' : level !! bs = Some w' → ∃ x w, pos_ok n x ∧ bs = Nibbles.bytes (of_pos n x) ∧ view W n x = Some w ∧
    WorkingNode.prev_version w' = WorkingNode.prev_version w ∧ hashed S n x (WorkingNode.inner w) (WorkingNode.inner w');
  lr_complete x : loaded n x → is_Some (level !! Nibbles.bytes (of_pos n x));
}.

Lemma hashed_refl n x w : view W n x = Some w → hashed (λ _, False) n x (WorkingNode.inner w) (WorkingNode.inner w).
Proof using Hw.
  intros Hx. assert (Hg : vget (view W) n x = Some (WorkingNode.inner w)) by (unfold vget; by rewrite Hx).
  apply (s_node _ _ _ _ _ (w_sinv _ _ _ _ _ Hw)) in Hg. unfold hashed. destruct (WorkingNode.inner w); [|done].
  destruct Hg as (_ & ? & _). split_and!; [done..|]. done.
Qed.

Lemma hashed_iff S S' n x node node' : (∀ y, S y ↔ S' y) → hashed S n x node node' → hashed S' n x node node'.
Proof using.
  intros Heq. unfold hashed. destruct node, node'; try done. intros (? & Hin & Hout). split_and!; [done| |]; intros d Hd.
  - apply Hin. by apply Heq.
  - apply Hout. by rewrite Heq.
Qed.

Lemma level_rel_iff S S' n level : (∀ y, S y ↔ S' y) → level_rel S n level → level_rel S' n level.
Proof using.
  intros Heq [Hs Hc]. split; [|done]. intros bs w' Hb. destruct (Hs bs w' Hb) as (x & w & ? & ? & ? & ? & ?).
  exists x, w. split_and!; [done..|]. by eapply hashed_iff.
Qed.

Lemma level_rel_init n level :
  WorkingPatchSet.changes_by_nibble_count W !! n = Some level → level_rel (λ _, False) n level.
Proof using Hw.
  intros Hl. assert (Hview : ∀ x, pos_ok n x → view W n x = level !! Nibbles.bytes (of_pos n x)).
  { intros x Hp. unfold view. rewrite decide_True by done. unfold WorkingPatchSet.get_working.
    change (Nibbles.nibble_count (of_pos n x)) with n. by rewrite Hl. }
  split.
  - intros bs w Hb. destruct (w_levels _ _ _ _ _ Hw n level bs w Hl Hb) as (x & Hp & ->). exists x, w.
    rewrite Hview by done. split_and!; [done..|]. apply hashed_refl. by rewrite Hview.
  - intros x [w Hx]. rewrite <-Hview; [by eexists|]. by eapply view_pos_ok.
Qed.

(** Nodes whose loaded children are hashed have the hashes of their subtrees. *)
Lemma hashed_ok n x w node' :
  view W n x = Some w → hashed (loaded (S n)) n x (WorkingNode.inner w) node' → hash_ok m n x node'.
Proof using Hw.
  intros Hx Hh. assert (Hg : vget (view W) n x = Some (WorkingNode.inner w)) by (unfold vget; by rewrite Hx).
  apply (s_node _ _ _ _ _ (w_sinv _ _ _ _ _ Hw)) in Hg. unfold hashed in Hh.
  destruct (WorkingNode.inner w) as [c|l], node' as [c'|l']; try done; [|by subst].
  destruct Hh as (Hwf' & Hin & Hout). destruct Hg as (Hn & Hwf & _ & Hd). split_and!; [done..|]. intros d Hdr. specialize (Hd d Hdr).
  unfold child_inv in Hd. destruct (decide (loaded (S n) (16 * x + d))) as [Hl|Hl].
  - rewrite Hin by done. destruct (InternalNode.refs c d); cbn; [done|]. by destruct Hd.
  - rewrite Hout by done. destruct (InternalNode.refs c d) as [r|]; [|by destruct Hd]. destruct Hd as [_ Hd].
    unfold vget in Hd. unfold loaded in Hl. destruct (view W (S n) (16 * x + d)); [by destruct Hl|]. by destruct Hd as (_ & (_ & ? & _) & _).
Qed.

(** The nodes of the patch: those below [n] nibbles, and of those with [n] the ones of [S]. *)
Record patched_ok (n : nat) S (patched : gmap NodeKey.t Node.t) : Prop := {
  pt_sound key node' : patched !! key = Some node' → ∃ n' x w, (n < n' ∨ n' = n ∧ S x)%nat ∧ (0 < n')%nat ∧ pos_ok n' x ∧
    key = NodeKey.mk v (of_pos n' x) ∧ view W n' x = Some w ∧ hashed (loaded (Datatypes.S n')) n' x (WorkingNode.inner w) node';
  pt_complete n' x : (n < n' ∨ n' = n ∧ S x)%nat → loaded n' x → is_Some (patched !! NodeKey.mk v (of_pos n' x));
}.

(** The stale keys are of the nodes that were loaded. *)
Definition stale_from_loaded (stale : list NodeKey.t) : Prop := ∀ key, key ∈ stale →
  ∃ n x w p, view W n x = Some w ∧ WorkingNode.prev_version w = Some p ∧ key = NodeKey.mk p (of_pos n x).

Lemma stale_add n x w stale :
  view W n x = Some w → stale_from_loaded stale →
  stale_from_loaded (match WorkingNode.prev_version w with Some p => stale ++ [with_version (of_pos n x) p] | None => stale end).
Proof using.
  intros Hx Hst. destruct (WorkingNode.prev_version w) as [p|] eqn:E; [|done]. intros key [?|Hin]%elem_of_app; [by apply Hst|].
  apply list_elem_of_singleton in Hin. by exists n, x, w, p.
Qed.

Lemma hashed_add S n x c c' c'' :
  let y := x / 16 in
  hashed S n y (Node.Internal c) (Node.Internal c') → InternalNode.wf c'' → ¬ S x →
  (∀ d, InternalNode.refs c'' d = if decide (d = x mod 16)
    then (λ r, ChildRef.with_hash r (phash m (Datatypes.S n) x)) <$> InternalNode.refs c' d else InternalNode.refs c' d) →
  hashed (λ z, S z ∨ z = x) n y (Node.Internal c) (Node.Internal c'').
Proof using.
  intros y (Hwf & Hin & Hout) Hwf'' HS Hrefs. assert (Hx : 16 * y + x mod 16 = x) by (unfold y; lia). split_and!; [done| |].
  - intros d [Hd|Hd]; rewrite Hrefs; case_decide as Hdd.
    + subst d. by rewrite Hx in Hd.
    + by apply Hin.
    + subst d. rewrite Hout; rewrite Hx; done.
    + exfalso. lia.
  - intros d Hd. rewrite Hrefs, decide_False; [apply Hout; tauto|]. intros ->. apply Hd. by right.
Qed.

Lemma hashed_off S n x y node node' :
  y ≠ x / 16 → hashed S n y node node' → (∀ d r, match node with Node.Internal c => InternalNode.refs c d = Some r → 0 ≤ d < 16 | _ => True end) →
  hashed (λ z, S z ∨ z = x) n y node node'.
Proof using.
  intros Hne. unfold hashed. destruct node as [c|], node' as [c'|]; try done. intros (Hwf & Hin & Hout) Hr. split_and!; [done| |].
  - intros d [Hd|Hd]; [by apply Hin|]. destruct (InternalNode.refs c d) as [r|] eqn:E; [specialize (Hr d r E); lia|].
    destruct (InternalNode.refs c' d) as [r'|] eqn:E'; [|done]. pose proof (InternalNode.refs_range _ _ _ Hwf E'). lia.
  - intros d Hd. apply Hout. tauto.
Qed.

Lemma node_at n x w : view W n x = Some w → node_inv db v (view W) m (λ _ _, False) n x (WorkingNode.inner w).
Proof using Hw. intros Hx. apply (s_node _ _ _ _ _ (w_sinv _ _ _ _ _ Hw)). unfold vget. by rewrite Hx. Qed.

(** A loaded node below the root has a loaded parent with a reference to it of the new version. *)
Lemma parent_at n x w :
  view W (S n) x = Some w → ∃ wp c r, view W n (x / 16) = Some wp ∧ WorkingNode.inner wp = Node.Internal c ∧
    InternalNode.wf c ∧ InternalNode.refs c (x mod 16) = Some r ∧ ChildRef.version r = v.
Proof using Hw.
  intros Hx. assert (Hg : vget (view W) (S n) x = Some (WorkingNode.inner w)) by (unfold vget; by rewrite Hx).
  destruct (s_parent _ _ _ _ _ (w_sinv _ _ _ _ _ Hw) _ _ _ Hg) as [c Hc]. unfold vget in Hc.
  destruct (view W n (x / 16)) as [wp|] eqn:E; [|done]. injection Hc as Hc. exists wp, c. pose proof (node_at _ _ _ E) as Hn.
  rewrite Hc in Hn. destruct Hn as (_ & Hwf & _ & Hd). specialize (Hd (x mod 16) ltac:(lia)). unfold child_inv in Hd.
  replace (16 * (x / 16) + x mod 16) with x in Hd by lia. rewrite Hg in Hd.
  destruct (InternalNode.refs c (x mod 16)) as [r|]; [|by destruct Hd]. exists r. destruct Hd as (_ & _ & [?|[]]). done.
Qed.

(** The parent's level once the reference to [x] is hashed. *)
Lemma level_rel_add S n x c c'' upper wp wp' :
  level_rel S n upper → ¬ S x → pos_ok (Datatypes.S n) x →
  view W n (x / 16) = Some wp → WorkingNode.inner wp = Node.Internal c →
  upper !! Nibbles.bytes (of_pos n (x / 16)) = Some wp' → InternalNode.wf c'' →
  (∀ c', WorkingNode.inner wp' = Node.Internal c' → ∀ d, InternalNode.refs c'' d = if decide (d = x mod 16)
    then (λ r, ChildRef.with_hash r (phash m (Datatypes.S n) x)) <$> InternalNode.refs c' d else InternalNode.refs c' d) →
  level_rel (λ z, S z ∨ z = x) n
    (<[Nibbles.bytes (of_pos n (x / 16)) := WorkingNode.with_inner wp' (Node.Internal c'')]> upper).
Proof using Hw.
  intros [Hs Hc] HS Hpos Hwp Hinner Hup Hwf Hrefs. pose proof (Nibbles.pos_ok_div _ _ Hpos) as Hpos'. split.
  - intros bs w' [[<- <-]|[Hne Hb]]%lookup_insert_Some.
    + destruct (Hs _ _ Hup) as (y & w & Hy & Hbs & Hv & Hprev & Hh). apply Nibbles.of_pos_inj in Hbs; [|done..]. subst y.
      rewrite Hwp in Hv. injection Hv as <-. exists (x / 16), wp. split_and!; [done..|]. cbn. rewrite Hinner in Hh |- *.
      unfold hashed in Hh. destruct (WorkingNode.inner wp') as [c'|] eqn:Ec'; [|done].
      apply (hashed_add S n x c c'); [exact Hh|done|done|by apply Hrefs].
    + destruct (Hs _ _ Hb) as (y & w & Hy & -> & Hv & Hprev & Hh). exists y, w. split_and!; [done..|].
      apply hashed_off; [intros ->; by apply Hne|done|]. pose proof (node_at _ _ _ Hv) as Hn. intros d r.
      destruct (WorkingNode.inner w); [|done]. destruct Hn as (_ & Hwfn & _). by apply InternalNode.refs_range.
  - intros y Hy. rewrite lookup_insert_is_Some'. right. by apply Hc.
Qed.

Lemma finalize_node_ok n S upper patched stale x w w' :
  level_rel S n upper → patched_ok (Datatypes.S n) S patched → stale_from_loaded stale → ¬ S x →
  view W (Datatypes.S n) x = Some w → WorkingNode.prev_version w' = WorkingNode.prev_version w →
  hashed (loaded (Datatypes.S (Datatypes.S n))) (Datatypes.S n) x (WorkingNode.inner w) (WorkingNode.inner w') →
  ∃ upper' patched' stale',
    WorkingPatchSet.finalize_node (Datatypes.S n) Insert (λ node, Some (node_hash node (Datatypes.S n * 4)))
      (upper, patched, stale) (Nibbles.bytes (of_pos (Datatypes.S n) x), w') = Ret (upper', patched', stale') ∧
    level_rel (λ z, S z ∨ z = x) n upper' ∧ patched_ok (Datatypes.S n) (λ z, S z ∨ z = x) patched' ∧ stale_from_loaded stale'.
Proof using All.
  intros Hlr [Hps Hpc] Hstale HS Hx Hprev Hh. pose proof (view_pos_ok _ _ _ _ Hx) as Hpos. pose proof Hpos as [Hn _].
  pose proof (hashed_ok _ _ _ _ Hx Hh) as Hok. apply node_hash_ok in Hok; [|done].
  destruct (parent_at _ _ _ Hx) as (wp & c & r & Hwp & Hc & Hwf & Hr & Hver).
  assert (Hpl : loaded n (x / 16)) by (by eexists). destruct (lr_complete _ _ _ Hlr _ Hpl) as [wp' Hup].
  destruct (lr_sound _ _ _ Hlr _ _ Hup) as (y & wp0 & Hy & Hbs & Hv & _ & Hhp). apply Nibbles.of_pos_inj in Hbs; [|by apply Nibbles.pos_ok_div|done].
  subst y. rewrite Hwp in Hv. injection Hv as <-. rewrite Hc in Hhp.
  unfold WorkingPatchSet.finalize_node. change (Nibbles.from_parts (Nibbles.bytes (of_pos (Datatypes.S n) x)) (Datatypes.S n)) with (of_pos (Datatypes.S n) x).
  rewrite Hok, Nibbles.split_last_ok by done. cbn [mbind exec_bind expect]. rewrite Hup. cbn [mbind exec_bind expect].
  destruct (WorkingNode.inner wp') as [c'|] eqn:Hc'; [|done]. destruct Hhp as (Hwf' & _ & Hout).
  assert (Hr' : InternalNode.refs c' (x mod 16) = Some r).
  { rewrite Hout; [done|]. by replace (16 * (x / 16) + x mod 16) with x by lia. }
  pose proof (InternalNode.child_ref_mut_ok c' (x mod 16) (λ self_ref, ChildRef.with_hash self_ref (phash m (Datatypes.S n) x)) Hwf' ltac:(lia)) as Hm.
  rewrite Hr' in Hm. destruct Hm as (c'' & -> & Hwf'' & _ & Hrefs). cbn [mbind exec_bind expect].
  rewrite InternalNode.child_ref_ok, Hrefs, decide_True by (done || lia). cbn [mbind exec_bind expect ChildRef.version ChildRef.with_hash].
  rewrite Hver. assert (Hrep : match WorkingNode.prev_version w' with None => true | Some prev_version => bool_decide (prev_version < v) end = true).
  { destruct (WorkingNode.prev_version w') as [p|] eqn:E; [|done]. apply bool_decide_true. symmetry in Hprev.
    destruct (w_prev _ _ _ _ _ Hw _ _ _ _ Hx Hprev). done. }
  rewrite Hrep. cbn [orb]. eexists _, _, _. split; [done|]. split.
  - eapply (level_rel_add S n x c c'' upper wp wp'); [done..|]. intros c0 Hc0 d. rewrite Hc' in Hc0. injection Hc0 as <-. rewrite Hrefs.
    case_decide as Hd; [|done]. subst d. by rewrite Hr'.
  - split; [|rewrite Hprev; by apply stale_add]. unfold with_version. split.
    + intros key node' [[<- <-]|[_ Hk]]%lookup_insert_Some.
      * exists (Datatypes.S n), x, w. split; [right; auto|]. split; [lia|]. done.
      * destruct (Hps _ _ Hk) as (n' & y & w0 & Hn' & ?). exists n', y, w0. split; [|done]. destruct Hn' as [?|[? ?]]; [by left|right; auto].
    + intros n' y Hn' Hl. rewrite lookup_insert_is_Some'. destruct Hn' as [?|[-> [?| ->]]]; [right; apply Hpc; auto..|by left].
Qed.

Lemma patched_ok_iff n S S' patched : (∀ y, S y ↔ S' y) → patched_ok n S patched → patched_ok n S' patched.
Proof using.
  intros Heq [Hs Hc]. split.
  - intros key node' Hk. destruct (Hs _ _ Hk) as (n' & x & w & Hn & ?). exists n', x, w. rewrite <-Heq. done.
  - intros n' x Hn. apply Hc. by rewrite Heq.
Qed.

Lemma patched_ok_up n patched : patched_ok (S n) (loaded (S n)) patched → patched_ok n (λ _, False) patched.
Proof using.
  intros [Hs Hc]. split.
  - intros key node' Hk. destruct (Hs _ _ Hk) as (n' & x & w & Hn & ?). exists n', x, w. split; [left; lia|done].
  - intros n' x [Hn|[_ []]] Hl. apply Hc; [|done]. destruct (decide (n' = S n)) as [->|]; [by right|left; lia].
Qed.

Lemma finalize_level_ok n upper level patched stale :
  level_rel (λ _, False) n upper → level_rel (loaded (S (S n))) (S n) level → patched_ok (S n) (λ _, False) patched →
  stale_from_loaded stale →
  ∃ upper' patched' stale',
    foldM (WorkingPatchSet.finalize_node (S n) Insert (λ node, Some (node_hash node (S n * 4)))) (upper, patched, stale) (into_iter level)
      = Ret (upper', patched', stale') ∧ level_rel (loaded (S n)) n upper' ∧ patched_ok n (λ _, False) patched' ∧ stale_from_loaded stale'.
Proof using All.
  intros Hlr Hlevel Hp Hstale. pose proof (into_iter_perm level) as Hperm.
  assert (Hnd : NoDup (into_iter level).*1) by (rewrite Hperm; apply NoDup_fst_map_to_list).
  assert (Hin : ∀ bs w, (bs, w) ∈ into_iter level ↔ level !! bs = Some w) by (intros bs w; by rewrite Hperm, elem_of_map_to_list).
  set (done_in := λ (seen : list (list byte * WorkingNode.t)) (z : Z), pos_ok (S n) z ∧ Nibbles.bytes (of_pos (S n) z) ∈ seen.*1).
  assert (Hall : ∀ rest seen upper patched stale, into_iter level = seen ++ rest →
    level_rel (done_in seen) n upper → patched_ok (S n) (done_in seen) patched → stale_from_loaded stale →
    ∃ upper' patched' stale', foldM (WorkingPatchSet.finalize_node (S n) Insert (λ node, Some (node_hash node (S n * 4)))) (upper, patched, stale) rest
      = Ret (upper', patched', stale') ∧ level_rel (done_in (into_iter level)) n upper' ∧ patched_ok (S n) (done_in (into_iter level)) patched' ∧ stale_from_loaded stale').
  { induction rest as [|[bs w'] rest IH]; intros seen upper0 patched0 stale0 Heq Hl0 Hp0 Hst0.
    - rewrite app_nil_r in Heq. rewrite Heq. cbn. eauto 7.
    - assert (Hb : level !! bs = Some w') by (apply Hin; rewrite Heq; set_solver).
      destruct (lr_sound _ _ _ Hlevel _ _ Hb) as (x & w & Hpos & -> & Hx & Hprev & Hh).
      assert (Hnot : ¬ done_in seen x).
      { intros [_ Hs]. rewrite Heq, fmap_app in Hnd. apply NoDup_app in Hnd as (_ & Hnd & _). apply (Hnd _ Hs). cbn. left. }
      destruct (finalize_node_ok n (done_in seen) upper0 patched0 stale0 x w w' Hl0 Hp0 Hst0 Hnot Hx Hprev Hh) as (u & p & s & Hf & Hl1 & Hp1 & Hst1).
      cbn [foldM]. rewrite Hf. cbn [mbind exec_bind].
      assert (Hiff : ∀ z, (done_in seen z ∨ z = x) ↔ done_in (seen ++ [(Nibbles.bytes (of_pos (S n) x), w')]) z).
      { intros z. unfold done_in. rewrite fmap_app, elem_of_app. cbn. rewrite list_elem_of_singleton. split.
        - intros [[? ?]| ->]; [by split; [|left]|by split; [|right]].
        - intros [Hz [?|Heqz]]; [by left|]. right. by apply Nibbles.of_pos_inj in Heqz. }
      apply (IH (seen ++ [(Nibbles.bytes (of_pos (S n) x), w')])); [by rewrite <-app_assoc|exact (level_rel_iff _ _ _ _ Hiff Hl1)|exact (patched_ok_iff _ _ _ _ Hiff Hp1)|done]. }
  assert (Hnil : ∀ z, False ↔ done_in [] z) by (intros z; split; [done|intros [_ Hz]; by apply not_elem_of_nil in Hz]).
  destruct (Hall (into_iter level) [] upper patched stale eq_refl) as (u & p & s & Hf & Hl & Hpt & Hst);
    [exact (level_rel_iff _ _ _ _ Hnil Hlr)|exact (patched_ok_iff _ _ _ _ Hnil Hp)|done|].
  assert (Hfull : ∀ z, done_in (into_iter level) z ↔ loaded (S n) z).
  { intros z. split.
    - intros [Hz ([bs w'] & Hbs & Hi)%list_elem_of_fmap]. cbn in Hbs. subst bs. apply Hin in Hi.
      destruct (lr_sound _ _ _ Hlevel _ _ Hi) as (x & w & Hx & Heq & Hv & _). apply Nibbles.of_pos_inj in Heq; [|done..]. subst x. by eexists.
    - intros Hz. destruct (lr_complete _ _ _ Hlevel _ Hz) as [w' Hw']. split; [destruct Hz as [? Hz]; by eapply view_pos_ok|].
      apply Hin in Hw'. by apply (list_elem_of_fmap_2 fst) in Hw'. }
  exists u, p, s. split; [done|]. split; [exact (level_rel_iff _ _ _ _ Hfull Hl)|]. split; [|done]. apply patched_ok_up. exact (patched_ok_iff _ _ _ _ Hfull Hpt).
Qed.

(** A finished patch: the root and the nodes below it. *)
Definition finalized (manifest : Manifest.t) (leaf_count : Z) (patch : PatchSet.t) : Prop :=
  ∃ w root_node nodes stale, view W 0 0 = Some w ∧ hashed (loaded 1) 0 0 (WorkingNode.inner w) root_node ∧
    patched_ok 0 (λ _, False) nodes ∧ stale_from_loaded stale ∧ patch = PatchSet.new manifest v (Root.Filled leaf_count root_node) nodes stale Insert.

Lemma finalize_levels_ok manifest leaf_count upper level patched stale :
  leaf_count ≠ 0 → loaded 0 0 → (∀ i up, upper !! i = Some up → level_rel (λ _, False) (length upper - 1 - i) up) →
  level_rel (loaded (S (length upper))) (length upper) level → patched_ok (length upper) (λ _, False) patched →
  stale_from_loaded stale →
  ∃ patch, WorkingPatchSet.finalize_levels v manifest leaf_count Insert (λ nibble_count node, Some (node_hash node (nibble_count * 4)))
      upper level patched stale = Ret (Some (phash m 0 0), patch) ∧ finalized manifest leaf_count patch.
Proof using All.
  intros Hlc Hroot. revert level patched stale. induction upper as [|up upper IH]; intros level patched stale Hup Hlevel Hp Hstale.
  - cbn [WorkingPatchSet.finalize_levels length] in *. pose proof (into_iter_perm level) as Hperm.
    destruct (into_iter level) as [|[bs w'] rest].
    { destruct (lr_complete _ _ _ Hlevel _ Hroot) as [w Hw']. apply elem_of_map_to_list in Hw'. rewrite <-Hperm in Hw'. by apply not_elem_of_nil in Hw'. }
    assert (Hb : level !! bs = Some w') by (apply elem_of_map_to_list; rewrite <-Hperm; left).
    destruct (lr_sound _ _ _ Hlevel _ _ Hb) as (x & w & Hpos & -> & Hx & Hprev & Hh).
    assert (x = 0) as -> by (destruct Hpos as [_ Hpos]; cbn in Hpos; lia).
    unfold Root.new. rewrite decide_False by done. cbn [mbind exec_bind]. eexists. split.
    + do 2 f_equal. f_equal. exact (node_hash_ok m 0 0 _ ltac:(lia) (hashed_ok _ _ _ _ Hx Hh)).
    + eexists w, _, patched, _. split; [done|]. split; [done|]. split; [done|]. split; [|done]. rewrite Hprev. by apply stale_add.
  - cbn [WorkingPatchSet.finalize_levels length] in *.
    destruct (finalize_level_ok (length upper) up level patched stale) as (u & p & s & -> & Hl & Hpt & Hst); [|done|done|done|].
    { specialize (Hup 0%nat up eq_refl). by replace (S (length upper) - 1 - 0)%nat with (length upper) in Hup by lia. }
    cbn [mbind exec_bind]. apply IH; [|done|done|done]. intros i up' Hi. specialize (Hup (S i) up' Hi).
    by replace (S (length upper) - 1 - S i)%nat with (length upper - 1 - i)%nat in Hup by lia.
Qed.

(** ** [WorkingPatchSet::finalize] *)
Lemma no_nodes : foldr Nat.add 0%nat (size <$> WorkingPatchSet.changes_by_nibble_count W) = 0%nat ↔ view W 0 0 = None.
Proof using Hw.
  pose proof (w_sinv _ _ _ _ _ Hw) as Hs. set (changes := WorkingPatchSet.changes_by_nibble_count W).
  assert (Hsum : ∀ l : list Level, foldr Nat.add 0%nat (size <$> l) = 0%nat ↔ Forall (λ level, level = ∅) l).
  { induction l as [|level l IH]; cbn; [done|]. rewrite Forall_cons, <-IH, <-map_size_empty_iff. lia. }
  rewrite Hsum, Forall_lookup. split.
  - intros Hall. unfold view. case_decide; [|done]. unfold WorkingPatchSet.get_working. change (Nibbles.nibble_count (of_pos 0 0)) with 0%nat.
    fold changes. destruct (changes !! 0%nat) as [level|] eqn:E; [|done]. cbn. by rewrite (Hall _ _ E), lookup_empty.
  - intros Hroot n level Hl. apply map_empty. intros bs. destruct (level !! bs) as [w|] eqn:E; [|done].
    destruct (lr_sound _ _ _ (level_rel_init n level Hl) _ _ E) as (x & w' & _ & _ & Hx & _).
    assert (Hg : vget (view W) n x = Some (WorkingNode.inner w')) by (unfold vget; by rewrite Hx).
    destruct (root_on_path _ _ _ _ _ _ _ _ Hs Hg) as [node0 Hnode0]. unfold vget in Hnode0. by rewrite Hroot in Hnode0.
Qed.

Lemma finalize_ok manifest leaf_count :
  WorkingPatchSet.root_version W = v → leaf_count = Z.of_nat (size m) →
  ∃ patch, WorkingPatchSet.finalize W manifest leaf_count Insert = Ret (tree_hash m, patch) ∧
    (m = ∅ ∧ patch = PatchSet.for_empty_root manifest v ∨ m ≠ ∅ ∧ finalized manifest leaf_count patch).
Proof using All.
  intros Hver Hlc. pose proof (w_sinv _ _ _ _ _ Hw) as Hs. unfold WorkingPatchSet.finalize, WorkingPatchSet.finalize_inner.
  assert (Hphash : phash m 0 0 = tree_hash m) by (unfold phash, tree_hash; f_equal).
  rewrite Hver. case_decide as Hlen.
  - apply no_nodes in Hlen. assert (m = ∅) as -> by (apply (s_root _ _ _ _ _ Hs); unfold vget; by rewrite Hlen).
    cbn [mbind exec_bind default]. eexists. split; [|by left]. rewrite <-Hphash. do 2 f_equal. symmetry. apply phash_no_keys; [lia|]. intros k _. apply lookup_empty.
  - rewrite no_nodes in Hlen. destruct (view W 0 0) as [w|] eqn:Hroot; [|done]. clear Hlen.
    assert (Hm : m ≠ ∅).
    { intros ->. assert (Hg : vget (view W) 0 0 = Some (WorkingNode.inner w)) by (unfold vget; by rewrite Hroot).
      destruct (node_nonempty _ _ _ _ _ _ _ _ Hs Hg) as (k & _ & [? Hk]). by rewrite lookup_empty in Hk. }
    destruct (reverse (WorkingPatchSet.changes_by_nibble_count W)) as [|level upper] eqn:Hrev.
    { apply (f_equal reverse) in Hrev. rewrite reverse_involutive in Hrev. cbn in Hrev. unfold view in Hroot. case_decide; [|done].
      unfold WorkingPatchSet.get_working in Hroot. by rewrite Hrev in Hroot. }
    apply (f_equal reverse) in Hrev. rewrite reverse_involutive, reverse_cons in Hrev.
    assert (Hlevel : level_rel (λ _, False) (length upper) level).
    { apply level_rel_init. rewrite Hrev, lookup_app_r, length_reverse, Nat.sub_diag by (rewrite length_reverse; lia). done. }
    destruct (finalize_levels_ok manifest leaf_count upper level ∅ []) as (patch & -> & Hf).
    + rewrite Hlc. intros Hz. apply Hm, map_size_empty_inv. lia.
    + by eexists.
    + intros i up Hi. apply level_rel_init. pose proof (lookup_lt_Some _ _ _ Hi).
      rewrite Hrev, lookup_app_l by (rewrite length_reverse; lia). rewrite reverse_lookup by lia. rewrite <-Hi. f_equal. lia.
    + eapply level_rel_iff; [|exact Hlevel]. intros y. split; [done|]. intros [w' Hy]. rewrite view_deep in Hy; [done|].
      rewrite Hrev, length_app, length_reverse. cbn. lia.
    + split; [done|]. intros n' x [Hn|[_ []]] [w' Hx]. rewrite view_deep in Hx; [done|]. rewrite Hrev, length_app, length_reverse. cbn. lia.
    + by intros key ?%not_elem_of_nil.
    + cbn. eexists. split; [by rewrite Hphash|]. by right.
Qed.
End finalize.
