(* ===== verification/MerkleRefine.v ===== *)
(** * The tree as a list of maps

    A database [represents] a list of maps, one per version, if the root of each
    version that is kept leads to the tree of its map. [MerkleTree::extend] adds the
    version with the entries inserted, [truncate_recent_versions] keeps the first
    versions. *)
From Stdlib Require Import ZifyNat.
From S2P Require Import Prelude SmallMap MerkleTypes MerkleHash MerklePatch MerkleStorage MerkleView.
From S2P Require Import MerkleInvariant MerkleInsert MerkleLoad MerkleFinalize.
Local Open Scope Z_scope.
Import Nibbles(pos_ok, of_pos, prefix, key_ok).
#[local] Opaque TREE_DEPTH.

Section represents.
Context {DB : Type} `{Database DB} `{!DatabaseLaws DB} `{HashTree}.
Implicit Types (db : DB) (m : treemap) (vs : list treemap).

Definition version_stored db (version : Z) m : Prop :=
  (m = ∅ ∧ root db version = Ret (Some Root.Empty)) ∨
  (m ≠ ∅ ∧ ∃ node, root db version = Ret (Some (Root.Filled (Z.of_nat (size m)) node)) ∧ stored db 0 m version 0 node).

(** The versions from [lo] on are kept. *)
Record represents db (lo : nat) vs : Prop := {
  rp_ok : db_ok db;
  rp_lo : (lo ≤ Nat.pred (length vs))%nat;
  rp_manifest : ∃ man, manifest db = Ret man ∧
    Manifest.version_count (default Manifest.default man) = Z.of_nat (length vs) ∧ manifest_storable (default Manifest.default man);
  rp_version i m : (lo ≤ i)%nat → vs !! i = Some m → map_ok m ∧ Z.of_nat (size m) < 2 ^ 64 ∧ version_stored db (Z.of_nat i) m;
}.

Definition insert_entries (m : treemap) (entries : list TreeEntry.t) : treemap := foldl insert_entry m entries.

(** What is reported of the entries: each by the map it meets. *)
Fixpoint logs_of (m : treemap) (entries : list TreeEntry.t) : list TreeLogEntry.t :=
  match entries with
  | [] => []
  | entry :: entries => log_of m entry :: logs_of (insert_entry m entry) entries
  end.

(** The map of the latest version. *)
Definition latest vs : treemap := default ∅ (last vs).
End represents.

Section patch.
Context {DB : Type} `{Database DB} `{!DatabaseLaws DB} `{HashTree} `{!HashTreeLaws} `{Unspecified} `{!UnspecifiedLaws}.
Implicit Types (db : DB) (m : treemap) (vs : list treemap).

Lemma ref_hash_width m depth x : in_width 256 (ref_hash m depth x).
Proof using All.
  destruct depth as [|d]; cbn [ref_hash]; [|apply hash_branch_width].
  destruct (m !! x) as [[value index]|]; [apply hash_leaf_width|]. rewrite empty_leaf_hash. apply hash_leaf_width.
Qed.

(** ** What is below the versions of a patch stays *)
Section kept.
Context db db' (v : Z) (man : Manifest.t) (patch : PatchSet.t).
Context (Hcount : v ≤ Manifest.version_count man).
Context (Hpatch : patch_fits patch db) (Happ : apply_patch patch db = Ret (inr (), db')) (Hpman : PatchSet.manifest patch = man)
  (Hv : v ≤ 2 ^ 64) (Honly : ∀ version, version < v → PatchSet.patches_by_version patch !! version = None).

Lemma node_kept key is_leaf :
  key_storable key → NodeKey.is_empty key = false → NodeKey.version key < v → tree_node db' key is_leaf = tree_node db key is_leaf.
Proof using All.
  intros Hk He Hlt. pose proof (apply_patch_node patch db db' key is_leaf Hpatch Happ Hk He) as Hn.
  rewrite Hpman, Honly in Hn by lia. apply Hn. lia.
Qed.

Lemma version_kept version m' : 0 ≤ version < v → version_stored db version m' → version_stored db' version m'.
Proof using All.
  intros Hver Hst. assert (Hroot : root db' version = root db version).
  { pose proof (apply_patch_root patch db db' version Hpatch Happ) as Hr. rewrite Hpman, Honly in Hr by lia. apply Hr. lia. }
  unfold version_stored. rewrite Hroot. destruct Hst as [?|(? & node & ? & Hst)]; [by left|]. right. split; [done|]. exists node. split; [done|].
  eapply (stored_ext db db' m' m'); [split; cbn; lia|lia| |done|exact Hst]. intros key is_leaf Hk He Hle. apply node_kept; [done..|lia].
Qed.
End kept.

(** ** A finished patch is the tree of the working set's map *)
Section apply.
Context `{OR : OldRefs} db (v : Z) (W : WorkingPatchSet.t) m (man : Manifest.t).
Context (Hw : wok db v W m (λ _ _, False)).
Context (Hman : manifest_storable man) (Hcount : Manifest.version_count man = v + 1) (Hlc : Z.of_nat (size m) < 2 ^ 64).

Lemma hashed_storable n x w node' :
  view W n x = Some w → hashed m (loaded W (S n)) n x (WorkingNode.inner w) node' → node_storable node'.
Proof using All.
  intros Hx Hh. pose proof (hashed_ok _ _ _ _ Hw _ _ _ _ Hx Hh) as Hok. pose proof (w_sinv _ _ _ _ _ Hw) as Hs.
  assert (Hn : node_inv db v (view W) m (λ _ _, False) n x (WorkingNode.inner w)).
  { apply (s_node _ _ _ _ _ Hs). unfold vget. by rewrite Hx. }
  unfold hashed in Hh. destruct (WorkingNode.inner w) as [c|l], node' as [c'|l']; try done.
  - destruct Hn as (Hlt & _ & (d0 & r0 & Hr0) & Hd). destruct Hh as (Hwf & Hin & Hout).
    assert (Hrefs : ∀ d r', InternalNode.refs c' d = Some r' → ∃ r, InternalNode.refs c d = Some r ∧ ChildRef.version r' = ChildRef.version r).
    { intros d r' Hr'. destruct (decide (loaded W (S n) (16 * x + d))).
      - rewrite Hin in Hr' by done. destruct (InternalNode.refs c d) as [r|]; [|done]. injection Hr' as <-. by exists r.
      - rewrite Hout in Hr' by done. by exists r'. }
    split; [done|]. split.
    + exists d0. destruct (decide (loaded W (S n) (16 * x + d0))); [rewrite Hin, Hr0 by done|rewrite Hout, Hr0 by done]; by eexists.
    + intros d r' Hr'. pose proof (InternalNode.refs_range _ _ _ Hwf Hr') as Hdr. destruct (Hrefs d r' Hr') as (r & Hr & Hver). split.
      * destruct Hok as (_ & _ & Hhash). specialize (Hhash d Hdr). rewrite Hr' in Hhash. rewrite Hhash. apply ref_hash_width.
      * specialize (Hd d Hdr). unfold child_inv in Hd. rewrite Hr in Hd. destruct Hd as [Hb _]. rewrite Hver.
        pose proof (s_width _ _ _ _ _ Hs) as [? ?]. split; lia.
  - subst l'. destruct Hn as (_ & Hm & _). by apply (s_map _ _ _ _ _ Hs) in Hm.
Qed.

Lemma stale_storable stale root nodes : stale_from_loaded W stale → in_width 64 v →
  ∀ version keys, PatchSet.stale_keys_by_version (PatchSet.new man v root nodes stale Insert) !! version = Some keys →
    in_width 64 version ∧ Forall key_storable keys.
Proof using Hw.
  intros Hstale Hv version keys Hk. cbn in Hk. apply lookup_singleton_Some in Hk as [<- <-]. split; [done|]. apply Forall_forall.
  intros key Hin. destruct (Hstale key Hin) as (n & x & w & p & Hx & Hp & ->). pose proof (w_prev _ _ _ _ _ Hw n x w p Hx Hp). destruct Hv.
  split; [split; cbn; lia|]. exists n, x. split; [by eapply view_pos_ok|done].
Qed.

Lemma finalized_storable patch : m ≠ ∅ → in_width 64 v → finalized v W m man (Z.of_nat (size m)) patch → patch_storable patch.
Proof using All.
  intros Hm Hv (w & root_node & nodes & stale & Hroot & Hh & Hp & Hstale & ->). pose proof (w_sinv _ _ _ _ _ Hw) as Hs.
  assert (Hn0 : vget (view W) 0 0 = Some (WorkingNode.inner w)) by (unfold vget; by rewrite Hroot).
  assert (Hsize : size m ≠ 0%nat) by (intros Hz; by apply Hm, map_size_empty_inv).
  split; [done|done| |by eapply stale_storable]. intros version part Hpart. cbn in Hpart. apply lookup_singleton_Some in Hpart as [<- <-]. split_and!.
  - rewrite <-Hcount. apply Hman.
  - done.
  - intros ? [= <-]. split; [split; lia|]. split; [lia|]. split; [by eapply hashed_storable|].
    unfold hashed in Hh. destruct (WorkingNode.inner w) as [c|l] eqn:Ew, root_node as [c'|l']; try done.
    + intros Hone. destruct Hh as (Hwf' & Hin & Hout). pose proof (s_node _ _ _ _ _ Hs _ _ _ Hn0) as (_ & _ & (d & r & Hr) & _).
      assert (Hrefs : ∀ d, is_Some (InternalNode.refs c' d) ↔ is_Some (InternalNode.refs c d)).
      { intros d'. destruct (decide (loaded W 1 (16 * 0 + d'))); [by rewrite Hin, fmap_is_Some by done|by rewrite Hout by done]. }
      destruct (proj2 (Hrefs d)) as [r' Hr']; [by eexists|]. apply (SmallMap.len_one _ d r' Hwf' Hr'). intros d2 r2 Hr2.
      destruct (proj1 (Hrefs d2)) as [r2' Hr2']; [by eexists|].
      eapply (root_one_child db v (view W) m (λ _ _, False)); [done|done|lia|done|done].
    + pose proof (root_leaf _ _ _ _ _ _ Hs Hn0). lia.
  - intros key node Hk. destruct (pt_sound _ _ _ _ _ _ Hp _ _ Hk) as (n' & x & w' & _ & Hpos & Hpok & -> & Hx & Hh').
    split; [done|]. split; [apply bool_decide_false; change (n' ≠ 0%nat); lia|]. split; [|by eapply hashed_storable].
    split; [done|]. by exists n', x.
Qed.

Context (db' : DB) (patch : PatchSet.t).
Context (Hpatch : patch_fits patch db) (Happ : apply_patch patch db = Ret (inr (), db')) (Hpman : PatchSet.manifest patch = man)
  (Hv : in_width 64 v) (Honly : ∀ version, version ≠ v → PatchSet.patches_by_version patch !! version = None).

Context (nodes : gmap NodeKey.t Node.t) (root_node : option Root.t).
Context (Hpart : PatchSet.patches_by_version patch !! v = Some (PartialPatchSet.mk root_node nodes))
  (Hnodes : patched_ok v W m 0 (λ _, False) nodes).

Lemma node_new n x : pos_ok (S n) x → loaded W (S n) x → ∃ w node, view W (S n) x = Some w ∧
  hashed m (loaded W (S (S n))) (S n) x (WorkingNode.inner w) node ∧
  tree_node db' (NodeKey.mk v (of_pos (S n) x)) (Node.is_leaf node) = Ret (Some (Node.clone node)).
Proof using All.
  intros Hpos Hl. destruct (pt_complete _ _ _ _ _ _ Hnodes (S n) x ltac:(left; lia) Hl) as [node Hnode].
  destruct (pt_sound _ _ _ _ _ _ Hnodes _ _ Hnode) as (n' & x' & w & _ & _ & Hpos' & Hkey & Hx & Hh).
  apply (f_equal NodeKey.nibbles) in Hkey. cbn [NodeKey.nibbles] in Hkey. pose proof (f_equal Nibbles.nibble_count Hkey) as Hn.
  change (S n = n') in Hn. subst n'. apply (f_equal Nibbles.bytes), Nibbles.of_pos_inj in Hkey; [|done..]. subst x'.
  exists w, node. split; [done|]. split; [done|].
  pose proof (apply_patch_node patch db db' (NodeKey.mk v (of_pos (S n) x)) (Node.is_leaf node) Hpatch Happ) as Hlaw.
  cbn [NodeKey.version] in Hlaw. rewrite Hpart in Hlaw. cbn [PartialPatchSet.nodes] in Hlaw. rewrite Hnode in Hlaw. apply Hlaw; [|done| |done].
  - split; [done|]. by exists (S n), x.
  - rewrite Hpman, Hcount. lia.
Qed.

Lemma hashed_kind S n x node node' : hashed m S n x node node' → Node.is_leaf node' = Node.is_leaf node.
Proof using. by destruct node, node'. Qed.

Lemma hashed_stored n x w node' :
  view W n x = Some w → hashed m (loaded W (S n)) n x (WorkingNode.inner w) node' → stored db' n m v x (Node.clone node').
Proof using All.
  remember (64 - n)%nat as h eqn:Eh. revert n x w node' Eh. induction h as [h IH] using lt_wf_ind. intros n x w node' Eh Hx Hh.
  pose proof (w_sinv _ _ _ _ _ Hw) as Hs. pose proof (view_pos_ok _ _ _ _ Hx) as Hpos. pose proof Hpos as [Hn _].
  pose proof (hashed_ok _ _ _ _ Hw _ _ _ _ Hx Hh) as Hok.
  assert (Hni : node_inv db v (view W) m (λ _ _, False) n x (WorkingNode.inner w)).
  { apply (s_node _ _ _ _ _ Hs). unfold vget. by rewrite Hx. }
  pose proof (hashed_storable _ _ _ _ Hx Hh) as Hsto.
  unfold hashed in Hh. destruct (WorkingNode.inner w) as [c|l], node' as [c'|l']; try done; cbn [Node.clone]; [|by apply stored_leaf].
  destruct Hni as (Hlt & _ & _ & Hd). destruct Hh as (Hwf & Hin & Hout). destruct Hok as (_ & _ & Hhash). destruct Hsto as (_ & Hne & _).
  apply stored_internal; [done|]. split; [done|]. split; [done|]. split; [done|]. split; [done|]. intros d Hdr.
  specialize (Hd d Hdr). specialize (Hhash d Hdr). change (InternalNode.refs (InternalNode.clone c') d) with (InternalNode.refs c' d).
  destruct (InternalNode.refs c' d) as [r'|] eqn:Hr'; [|done].
  assert (Hposc : pos_ok (S n) (16 * x + d)) by (by apply Nibbles.pos_ok_child).
  unfold child_inv in Hd. destruct (decide (loaded W (S n) (16 * x + d))) as [Hl|Hl].
  - rewrite Hin in Hr' by done. destruct (InternalNode.refs c d) as [r|]; [|done]. injection Hr' as <-.
    destruct (node_new n (16 * x + d) Hposc Hl) as (wc & node & Hwc & Hhc & Ht). unfold vget in Hd. rewrite Hwc in Hd. cbn in Hd.
    destruct Hd as (_ & Hkind & [Hver|[]]). rewrite <-(hashed_kind _ _ _ _ _ Hhc) in Hkind. cbn. split; [lia|].
    destruct Hv. split; cbn; [lia|]. split; [done|]. exists (Node.clone node). rewrite Hver, <-Hkind. split; [done|].
    split; [by destruct node|]. exact (IH (64 - S n)%nat ltac:(lia) (S n) _ wc node eq_refl Hwc Hhc).
  - rewrite Hout in Hr' by done. rewrite Hr' in Hd. destruct Hd as [_ Hd]. unfold vget, loaded in Hd, Hl.
    destruct (view W (S n) (16 * x + d)); [by destruct Hl|]. destruct Hd as (Hlt' & (Hge & Hh' & node & Ht & Hkind & Hst) & _).
    split; [lia|]. destruct Hv. split; [done|]. split; [done|]. exists node. split_and!; [|done|].
    + rewrite (node_kept db db' v man patch); [done|lia|done|done|done|lia| | |done|done]; [intros ? ?; apply Honly; lia|]. split; [split; cbn; lia|]. by exists (S n), (16 * x + d).
    + eapply stored_ext; [done|lia| |done|exact Hst]. intros key is_leaf Hk He Hle. apply (node_kept db db' v man patch); [lia|done|done|done|lia| |done|done|lia]. intros ? ?. apply Honly. lia.
Qed.
End apply.

(** ** The working set at the start *)
Definition root_of db (version : Z) m (root0 : Root.t) : Prop :=
  Root.leaf_count root0 = Z.of_nat (size m) ∧
  match root0 with
  | Root.Empty => m = ∅
  | Root.Filled _ node => stored db 0 m version 0 node
  end.

Lemma version_root db version m :
  version_stored db version m → ∃ root0, root db version = Ret (Some root0) ∧ root_of db version m root0.
Proof using.
  intros [[-> Hr]|(_ & node & Hr & Hst)]; eexists; (split; [exact Hr|]); split; [by rewrite map_size_empty|done|done|done].
Qed.

Lemma wok_new `{OR : OldRefs} db v m root0 rv version :
  map_ok m → in_width 64 v → root_of db version m root0 → version < v → rv ≤ v →
  (∀ lc c d r, root0 = Root.Filled lc (Node.Internal c) → InternalNode.refs c d = Some r → old_ref 1 (16 * 0 + d) r) →
  let W := WorkingPatchSet.new rv root0 in
  wok db v W m (λ _ _, False) ∧ (length (WorkingPatchSet.changes_by_nibble_count W) ≤ 1)%nat.
Proof using.
  intros Hm Hv [_ Hroot] Hlt Hrv Hold W. destruct root0 as [|lc node].
  - subst m. assert (Hview : ∀ n x, view W n x = None) by (intros n x; apply view_deep; cbn; lia).
    assert (Hvget : ∀ n x, vget (view W) n x = None) by (intros n x; unfold vget; by rewrite Hview).
    split; [|cbn; lia]. split.
    + split; [done|done|done| | |]; intros n x node; by rewrite Hvget.
    + intros n level bs w. cbn. done.
    + intros n x w p. by rewrite Hview.
  - set (w0 := WorkingNode.new node (checked_sub rv 1)).
    assert (Hview : ∀ n x, view W n x = if decide (same_pos 0 n 0 x) then Some w0 else None).
    { intros n x. destruct (decide (n = 0%nat)) as [->|Hn].
      - unfold view. case_decide as Hpos; [|rewrite decide_False; [done|]; intros [_ ->]; apply Hpos; split; cbn; lia].
        destruct Hpos as [_ Hpos]. assert (x = 0) as -> by (cbn in Hpos; lia). rewrite decide_True by done.
        unfold W, WorkingPatchSet.new, WorkingPatchSet.get_working. change (Nibbles.nibble_count (of_pos 0 0)) with 0%nat.
        cbn [WorkingPatchSet.changes_by_nibble_count lookup list_lookup mbind option_bind]. by rewrite Nibbles.empty_ok, lookup_singleton_eq.
      - rewrite decide_False by (by intros [? _]). apply view_deep. cbn. lia. }
    assert (Hvget : ∀ n x node', vget (view W) n x = Some node' → n = 0%nat ∧ x = 0 ∧ node' = node).
    { intros n x node'. unfold vget. rewrite Hview. case_decide as Hd; [|done]. destruct Hd as [-> ->]. by intros [= <-]. }
    assert (Hchild : ∀ d, 0 ≤ d < 16 → vget (view W) 1 (16 * 0 + d) = None).
    { intros d Hd. destruct (vget (view W) 1 _) eqn:E; [|done]. apply Hvget in E as [? _]. lia. }
    split; [|cbn; lia]. split.
    + split; [done|done| | | |].
      * unfold vget. by rewrite Hview.
      * intros n x node' (-> & -> & _)%Hvget. split; cbn; lia.
      * intros n x node' (? & _)%Hvget. lia.
      * intros n x node' (-> & -> & ->)%Hvget. eapply stored_node_inv; [lia|done|done| |].
        -- intros d Hd. split; [by apply Hchild|by intros []].
        -- intros c d r -> Hr. by eapply Hold.
    + intros n level bs w Hl Hb. cbn in Hl. apply list_lookup_singleton_Some in Hl as [-> <-]. apply lookup_singleton_Some in Hb as [<- _].
      exists 0. rewrite Nibbles.empty_ok. split; [split; cbn; lia|done].
    + intros n x w p. rewrite Hview. case_decide; [|done]. intros [= <-]. cbn. unfold checked_sub. case_decide; [|done].
      intros [= <-]. lia.
Qed.

(** ** The entries of a block *)
Definition pending (entries : list TreeEntry.t) : nat → Z → Prop := λ n x,
  (0 < n ≤ 64)%nat ∧ ∃ entry, entry ∈ entries ∧ prefix n (TreeEntry.key entry) = x.

Lemma size_insert_entry m entry :
  Z.of_nat (size (insert_entry m entry)) =
    match log_of m entry with TreeLogEntry.Inserted => Z.of_nat (size m) + 1 | _ => Z.of_nat (size m) end.
Proof using.
  unfold insert_entry, log_of. rewrite map_size_insert. destruct (m !! TreeEntry.key entry) as [[value index]|]; cbn; [done|lia].
Qed.

Lemma extend_entries_ok `{OR : OldRefs} db v (self : Storage.t DB) logs m entries parents :
  let W := TreeUpdater.patch_set (Storage.updater self) in
  wok db v W m (pending entries) → WorkingPatchSet.root_version W = v → Forall entry_valid entries →
  Forall2 (λ entry nibbles, ∃ n1, nibbles = of_pos n1 (prefix n1 (TreeEntry.key entry)) ∧ above (view W) (TreeEntry.key entry) n1) entries parents →
  Storage.leaf_count self = Z.of_nat (size m) → Z.of_nat (size m) + Z.of_nat (length entries) < 2 ^ 64 →
  ∃ self', foldM Storage.extend_entry (self, logs) (zip entries parents) = Ret (self', logs ++ logs_of m entries) ∧
    let W' := TreeUpdater.patch_set (Storage.updater self') in
    wok db v W' (insert_entries m entries) (λ _ _, False) ∧ WorkingPatchSet.root_version W' = v ∧
    Storage.leaf_count self' = Z.of_nat (size (insert_entries m entries)) ∧ Storage.manifest self' = Storage.manifest self ∧
    Storage.operation self' = Storage.operation self.
Proof using.
  revert self logs m parents. induction entries as [|entry entries IH]; intros self logs m parents W Hw Hver Hval Hpar Hlc Hsize.
  - apply Forall2_nil_inv_l in Hpar as ->. cbn. exists self. rewrite app_nil_r. split; [done|]. split_and!; [|done..].
    eapply wok_keep; [done|apply wkeep_refl|]. eapply sinv_restrict; [apply Hw|by intros n x []|]. intros n x _ (_ & ? & Hin & _). by apply not_elem_of_nil in Hin.
  - apply Forall2_cons_inv_l in Hpar as (nibbles & parents' & (n1 & -> & Ha) & Hpar & ->). apply Forall_cons in Hval as [He Hval].
    assert (Hw' : wok db v W m (upto (pending entries) (TreeEntry.key entry) 64)).
    { eapply wok_keep; [done|apply wkeep_refl|]. eapply sinv_restrict; [apply Hw| |].
      - intros n x [(? & e & ? & ?)|[? ?]]; (split; [done|]); [exists e; split; [by right|done]|exists entry; split; [by left|done]].
      - intros n x _ (? & e & [->|Hin]%elem_of_cons & ?); [by right|]. left. split; [done|]. by exists e. }
    destruct (insert_ok db v (Storage.updater self) m (pending entries) entry n1 Hw' Hver He Ha) as (log & data & U' & Hins & Hlog & Hw1 & Hkeep & _).
    set (self0 := Storage.with_updater self U').
    set (self1 := match log with TreeLogEntry.Inserted => Storage.count_leaf self0 | _ => self0 end).
    assert (Hstep : Storage.extend_entry (self, logs) (entry, of_pos n1 (prefix n1 (TreeEntry.key entry))) = Ret (self1, logs ++ [log])).
    { unfold Storage.extend_entry. by rewrite Hins. }
    cbn [zip_with foldM]. rewrite Hstep. cbn [mbind exec_bind].
    assert (Hself1 : Storage.updater self1 = U' ∧ Storage.manifest self1 = Storage.manifest self ∧ Storage.operation self1 = Storage.operation self ∧
      Storage.leaf_count self1 = Z.of_nat (size (insert_entry m entry))).
    { pose proof (size_insert_entry m entry) as Hs. rewrite <-Hlog in Hs. rewrite length_cons in Hsize.
      unfold self1; destruct log; cbn; rewrite Hs, Hlc; try done. split_and!; [done..|]. unfold wrap. apply Z.mod_small. lia. }
    destruct Hself1 as (HU & Hman & Hop & Hlc1).
    destruct (IH self1 (logs ++ [log]) (insert_entry m entry) parents') as (self' & Hf & Hrest).
    + by rewrite HU.
    + rewrite HU. rewrite (k_version _ _ _ Hkeep). done.
    + done.
    + eapply Forall2_impl; [exact Hpar|]. intros e nb (n2 & -> & Ha2). exists n2. split; [done|]. rewrite HU. eapply ints_above; [|done]. apply Hkeep.
    + done.
    + pose proof (size_insert_entry m entry) as Hs. rewrite length_cons in Hsize. destruct (log_of m entry); lia.
    + exists self'. rewrite Hf. cbn [logs_of]. rewrite <-app_assoc, Hlog. split; [done|]. by rewrite <-Hman, <-Hop.
Qed.

Definition old_closed `{OR : OldRefs} db : Prop := ∀ n x r c d r', old_ref n x r →
  tree_node db (NodeKey.mk (ChildRef.version r) (of_pos n x)) (ChildRef.is_leaf r) = Ret (Some (Node.Internal c)) →
  InternalNode.refs c d = Some r' → old_ref (S n) (16 * x + d) r'.

Lemma load_sorted_ok `{OR : OldRefs} db v W m (keys : list Key) (Q : treemap → nat → Z → Node.t → Prop) :
  old_closed db →
  (∀ m n vmax x node, (n ≤ 64)%nat → stored db n m vmax x node → Q m n x node) →
  wok db v W m (λ _ _, False) → all_nodes Q m W → (length (WorkingPatchSet.changes_by_nibble_count W) ≤ 1)%nat → Forall key_ok keys →
  ∃ lp reads W', WorkingPatchSet.load_ancestors W (sorted_keys keys) db = Ret (LoadAncestorsResult.mk lp reads, W') ∧
    wok db v W' m (λ n x, (0 < n ≤ 64)%nat ∧ ∃ k, k ∈ keys ∧ prefix n k = x) ∧ all_nodes Q m W' ∧
    WorkingPatchSet.root_version W' = WorkingPatchSet.root_version W ∧
    Forall2 (λ k nibbles, ∃ n1, nibbles = of_pos n1 (prefix n1 k) ∧ above (view W') k n1 ∧ settled (view W') k n1) keys lp.
Proof using All.
  intros Hold HQ Hw Hnodes Hlen Hkeys. set (indexed := zip (seq 0 (length keys)) keys).
  assert (Hperm : sorted_keys keys ≡ₚ indexed) by apply sort_unstable_perm.
  assert (Hin : ∀ i k, (i, k) ∈ sorted_keys keys ↔ keys !! i = Some k).
  { intros i k. rewrite Hperm. unfold indexed. rewrite elem_of_lookup_zip_with. split.
    - intros (j & a & b & [= -> ->] & Ha & Hb). apply lookup_seq in Ha as [-> _]. done.
    - intros Hk. exists i, i, k. split_and!; [done| |done]. apply lookup_seq. split; [done|]. by eapply lookup_lt_Some. }
  assert (Hlk : length (sorted_keys keys) = length keys).
  { rewrite Hperm. unfold indexed. rewrite length_zip_with, length_seq. lia. }
  destruct (load_ancestors_ok db v Hold Q HQ W m (sorted_keys keys) Hw Hnodes Hlen) as (lp & reads & W' & Hl & Hw' & Hnodes' & Hver & Hll & Hst).
  - rewrite Hlk, Hperm. unfold indexed. rewrite fst_zip by (rewrite length_seq; lia). done.
  - apply Forall_forall. intros [i k] Hik. apply Hin in Hik. by eapply Forall_lookup_1.
  - exists lp, reads, W'. split; [done|]. split; [|split; [done|split; [done|]]].
    + eapply wok_keep; [done|apply wkeep_refl|]. eapply sinv_restrict; [apply Hw'| |].
      * intros n x (? & k & Hk & ?). apply list_elem_of_lookup in Hk as [i Hi]. split; [done|]. exists i, k. by rewrite Hin.
      * intros n x _ (? & i & k & Hk & ?). split; [done|]. exists k. apply Hin in Hk. split; [by eapply list_elem_of_lookup_2|done].
    + apply Forall2_same_length_lookup. split; [lia|]. intros i k nibbles Hk Hn. apply Hin in Hk.
      destruct (Hst i k Hk) as (n1 & Hn1 & ?). exists n1. split; [congruence|done].
Qed.

(** ** [MerkleTree::extend] *)
Lemma latest_lookup vs i : Z.of_nat (length vs) - 1 = Z.of_nat i → vs !! i = Some (latest vs).
Proof using.
  intros Hi. unfold latest. rewrite last_lookup. replace (Nat.pred (length vs)) with i by lia.
  destruct (lookup_lt_is_Some_2 vs i) as [m ->]; [lia|]. done.
Qed.

Lemma tags_new_storable : tags_storable (TreeTags.new name).
Proof using All. split_and!; [done| |apply name_ok|done|done]. split; cbn; rewrite ?tree_depth_256; lia. Qed.

(** The references of the root of the latest version are old ones. *)
Definition old_root `{OR : OldRefs} db vs : Prop := ∀ lc c d r,
  root db (Z.of_nat (length vs) - 1) = Ret (Some (Root.Filled lc (Node.Internal c))) → InternalNode.refs c d = Some r →
  old_ref 1 (16 * 0 + d) r.

Lemma storage_new_ok `{OR : OldRefs} db lo vs :
  represents db lo vs → old_root db vs → in_width 64 (Z.of_nat (length vs) + 1) →
  let v := Z.of_nat (length vs) in
  ∃ self, Storage.new db v true = Ret self ∧ Storage.db self = db ∧ Storage.operation self = Insert ∧
    Storage.leaf_count self = Z.of_nat (size (latest vs)) ∧ Manifest.version_count (Storage.manifest self) = v + 1 ∧
    manifest_storable (Storage.manifest self) ∧ let W := TreeUpdater.patch_set (Storage.updater self) in
    wok db v W (latest vs) (λ _ _, False) ∧ (length (WorkingPatchSet.changes_by_nibble_count W) ≤ 1)%nat ∧
    WorkingPatchSet.root_version W = v.
Proof using All.
  intros [_ Hlo (man & Hman & Hcount & Hsto) Hvs] Hold Hwidth v. unfold Storage.new. rewrite Hman. cbn [mbind exec_bind].
  assert (Hv : in_width 64 v) by (destruct Hwidth; split; unfold v; lia).
  assert (Hwrap : wrap 64 (v + 1) = v + 1) by (apply Z.mod_small; apply Hwidth).
  assert (Hms : manifest_storable (Manifest.mk (wrap 64 (v + 1))
    (match Manifest.tags (default Manifest.default man) with None => Some (TreeTags.new name) | Some tags => Some tags end))).
  { split; cbn [Manifest.version_count Manifest.tags]; [by rewrite Hwrap|]. destruct Hsto as [_ Ht].
    destruct (Manifest.tags (default Manifest.default man)); [done|apply tags_new_storable]. }
  assert (Hroot : ∃ root0, match checked_sub v 1 with
      | Some base_version => root ← MerklePatch.root db base_version; Ret (default Root.Empty root)
      | None => Ret Root.Empty end = Ret root0 ∧ map_ok (latest vs) ∧
    (∃ version, root_of db version (latest vs) root0 ∧ version < v) ∧
    ∀ lc c d r, root0 = Root.Filled lc (Node.Internal c) → InternalNode.refs c d = Some r → old_ref 1 (16 * 0 + d) r).
  { unfold checked_sub. case_decide.
    - destruct (Hvs (Z.to_nat (v - 1)) (latest vs)) as (Hm & _ & Hst); [lia|apply latest_lookup; lia|].
      rewrite Z2Nat.id in Hst by lia. destruct (version_root _ _ _ Hst) as (root0 & Hr & Ho). rewrite Hr. cbn.
      exists root0. split; [done|]. split; [done|]. split; [exists (v - 1); split; [done|lia]|].
      intros lc c d r -> Hrd. by eapply Hold.
    - exists Root.Empty. split; [done|]. assert (vs = []) as -> by (apply length_zero_iff_nil; unfold v in *; lia).
      split; [apply map_Forall_empty|]. split; [exists (-1); split; [done|cbn; lia]|done]. }
  destruct Hroot as (root0 & -> & Hm & (version & Ho & Hlt) & Hrefs). cbn [mbind exec_bind]. eexists. split; [done|].
  split; [done|]. split; [done|]. split; [apply Ho|]. split; [done|]. split; [done|].
  cbn [Storage.updater TreeUpdater.new TreeUpdater.patch_set]. destruct (wok_new db v (latest vs) root0 v version Hm Hv Ho Hlt ltac:(lia) Hrefs).
  done.
Qed.

Lemma map_ok_insert_entries m entries : map_ok m → Forall entry_valid entries → map_ok (insert_entries m entries).
Proof using.
  revert m. induction entries as [|entry entries IH]; intros m Hm He; [done|]. apply Forall_cons in He as [? ?]. cbn.
  apply IH; [|done]. by apply entry_insert_ok.
Qed.

Lemma size_insert_entries m entries :
  Z.of_nat (size (insert_entries m entries)) ≤ Z.of_nat (size m) + Z.of_nat (length entries).
Proof using.
  revert m. induction entries as [|entry entries IH]; intros m; [cbn; lia|]. cbn [insert_entries foldl length]. specialize (IH (insert_entry m entry)).
  pose proof (size_insert_entry m entry) as Hs. unfold insert_entries in IH. destruct (log_of m entry); lia.
Qed.

(** The update of a version, as a patch. *)
Lemma storage_extend_ok `{OR : OldRefs} db lo vs entries self :
  represents db lo vs → old_root db vs → old_closed db → Forall entry_valid entries → in_width 64 (Z.of_nat (length vs) + 1) →
  Z.of_nat (size (latest vs)) + Z.of_nat (length entries) < 2 ^ 64 → Storage.new db (Z.of_nat (length vs)) true = Ret self →
  let v := Z.of_nat (length vs) in let m' := insert_entries (latest vs) entries in
  ∃ W' man patch, Storage.extend self entries = Ret (BlockOutput.mk (tree_hash m') (Z.of_nat (size m')) (logs_of (latest vs) entries), patch) ∧
    wok db v W' m' (λ _ _, False) ∧ manifest_storable man ∧ Manifest.version_count man = v + 1 ∧
    (m' = ∅ ∧ patch = PatchSet.for_empty_root man v ∨ m' ≠ ∅ ∧ finalized v W' m' man (Z.of_nat (size m')) patch).
Proof using All.
  intros Hrep Hold Hclosed Hval Hwidth Hsize Hnew v m'. destruct (storage_new_ok db lo vs Hrep Hold Hwidth) as (self0 & Hnew' & Hdb & Hop & Hlc & Hcount & Hms & Hw & Hlen & Hver).
  rewrite Hnew in Hnew'. injection Hnew' as <-. unfold Storage.extend, Storage.load_ancestors. rewrite Hdb.
  destruct (load_sorted_ok db v _ _ (TreeEntry.key <$> entries) (λ _ _ _ _, True) Hclosed ltac:(done) Hw ltac:(done) Hlen) as (lp & reads & W1 & -> & Hw1 & _ & Hver1 & Hlp).
  { apply Forall_fmap. eapply Forall_impl; [exact Hval|]. by intros e [? _]. }
  cbn [mbind exec_bind LoadAncestorsResult.longest_prefixes].
  set (self1 := Storage.with_updater self (TreeUpdater.with_patch_set (Storage.updater self) W1)).
  destruct (extend_entries_ok db v self1 [] (latest vs) entries lp) as (self2 & Hf & Hw2 & Hver2 & Hlc2 & Hman2 & Hop2).
  - eapply wok_keep; [exact Hw1|apply wkeep_refl|]. eapply sinv_restrict; [apply Hw1| |].
    + intros n x (? & e & He & <-). split; [done|]. exists (TreeEntry.key e). split; [by apply list_elem_of_fmap_2|done].
    + intros n x _ (? & k & Hk & <-). apply list_elem_of_fmap in Hk as (e & -> & He). split; [done|]. by exists e.
  - cbn. by rewrite Hver1.
  - done.
  - apply Forall2_fmap_l in Hlp. eapply Forall2_impl; [exact Hlp|]. intros e nb (n1 & ? & ? & _). by exists n1.
  - done.
  - done.
  - rewrite Hf. cbn [mbind exec_bind app]. unfold Storage.finalize. rewrite Hlc2, Hman2, Hop2. cbn [self1 Storage.with_updater Storage.manifest Storage.operation].
    rewrite Hop.
    destruct (finalize_ok db v _ _ Hw2 (Storage.manifest self) (Z.of_nat (size (insert_entries (latest vs) entries))) Hver2 eq_refl) as (patch & -> & Hp).
    cbn [mbind exec_bind]. eexists _, _, _. split; [done|]. split; [exact Hw2|]. split; [exact Hms|]. split; [done|]. exact Hp.
Qed.

Lemma empty_root_storable man v : manifest_storable man → in_width 64 v → in_width 64 (v + 1) → patch_storable (PatchSet.for_empty_root man v).
Proof using.
  intros Hm Hv Hv'. split; [done|done| |].
  2: { intros version keys Hk. cbn in Hk. apply lookup_singleton_Some in Hk as [<- <-]. split; [done|]. unfold checked_sub. case_decide; [|done].
       constructor; [|done]. destruct Hv. split; [split; cbn; lia|]. exists 0%nat, 0. split; [split; cbn; lia|done]. }
  intros version part Hp. cbn in Hp. apply lookup_singleton_Some in Hp as [<- <-].
  split_and!; [done|done|by intros ? [= <-]|]. intros key node. cbn. by rewrite lookup_empty.
Qed.

Lemma next_version_fits db lo vs patch part :
  represents db lo vs → patch_storable patch → Manifest.version_count (PatchSet.manifest patch) = Z.of_nat (length vs) + 1 →
  PatchSet.patches_by_version patch = {[Z.of_nat (length vs) := part]} → patch_fits patch db.
Proof using.
  intros Hrep Hsto Hcount Hparts. split; [done|]. split; [apply Hrep|]. destruct (rp_manifest _ _ _ Hrep) as (man & Hman & Hc & _).
  exists man. split; [done|]. intros version Hv. exists part. rewrite Hparts. replace version with (Z.of_nat (length vs)) by lia. apply lookup_singleton_eq.
Qed.

(** The new version, and that the versions before it stay. *)
Lemma extended_represents `{OR : OldRefs} db db' lo vs m' W' man patch :
  let v := Z.of_nat (length vs) in
  represents db lo vs → in_width 64 (v + 1) → map_ok m' → Z.of_nat (size m') < 2 ^ 64 →
  wok db v W' m' (λ _ _, False) → manifest_storable man → Manifest.version_count man = v + 1 →
  (m' = ∅ ∧ patch = PatchSet.for_empty_root man v ∨ m' ≠ ∅ ∧ finalized v W' m' man (Z.of_nat (size m')) patch) →
  patch_storable patch ∧ (apply_patch patch db = Ret (inr (), db') → represents db' lo (vs ++ [m'])).
Proof using All.
  intros v Hrep Hwidth Hm Hsize Hw Hms Hcount Hp. assert (Hv : in_width 64 v) by (destruct Hwidth; split; unfold v; lia).
  assert (Hsto : patch_storable patch).
  { destruct Hp as [[_ ->]|[Hne Hf]]; [by apply empty_root_storable|]. eapply finalized_storable; [exact Hw|done..]. }
  split; [done|]. intros Happ.
  assert (Hparts : PatchSet.manifest patch = man ∧ ∃ part, PatchSet.patches_by_version patch = {[v := part]}).
  { destruct Hp as [[_ ->]|(_ & ? & ? & ? & ? & _ & _ & _ & _ & ->)]; by split; [|eexists]. }
  destruct Hparts as (Hpman & part & Hparts).
  assert (Honly : ∀ version, version ≠ v → PatchSet.patches_by_version patch !! version = None).
  { intros version Hne. by rewrite Hparts, lookup_singleton_ne. }
  assert (Hfits : patch_fits patch db) by (eapply next_version_fits; [done|done|by rewrite Hpman|done]).
  split; [by eapply apply_patch_ok| | |].
  - pose proof (rp_lo _ _ _ Hrep). rewrite length_app. cbn. lia.
  - exists (Some man). split; [by rewrite (apply_patch_manifest _ _ _ Hfits Happ), Hpman|]. split; [|done]. cbn. rewrite Hcount, length_app. cbn. lia.
  - intros i m0 Hlo Hi. apply lookup_app_Some in Hi as [Hi|[Hge Hi]].
    + destruct (rp_version _ _ _ Hrep i m0 Hlo Hi) as (? & ? & Hst). split_and!; [done..|]. pose proof (lookup_lt_Some _ _ _ Hi).
      eapply (version_kept db db' v man patch); [lia|done|done|done|by destruct Hv; lia| |lia|done]. intros ? ?. apply Honly. lia.
    + apply list_lookup_singleton_Some in Hi as [Hi <-]. split_and!; [done..|]. replace (Z.of_nat i) with v by (unfold v; lia).
      assert (Hroot : root db' v = Ret (Root.clone <$> PartialPatchSet.root part)).
      { pose proof (apply_patch_root patch db db' v Hfits Happ) as Hr. rewrite Hpman, Hcount, Hparts, lookup_singleton_eq in Hr. apply Hr. lia. }
      destruct Hp as [[-> ->]|(Hne & w & root_node & nodes & stale & Hx & Hh & Hpt & _ & ->)].
      * left. split; [done|]. rewrite Hroot. cbn in Hparts. apply (f_equal (.!! v)) in Hparts. rewrite !lookup_singleton_eq in Hparts. by injection Hparts as <-.
      * right. split; [done|]. exists (Node.clone root_node). cbn in Hparts. apply (f_equal (.!! v)) in Hparts. rewrite !lookup_singleton_eq in Hparts.
        injection Hparts as <-. split; [by rewrite Hroot|]. eapply (hashed_stored db v W' m' man Hw Hms Hcount Hsize db'); [exact Hfits|done..| |exact Hpt|done|done].
        cbn. by rewrite lookup_singleton_eq.
Qed.

Lemma latest_map_ok db lo vs : represents db lo vs → map_ok (latest vs).
Proof using.
  intros Hrep. destruct (last vs) as [m|] eqn:E; unfold latest; rewrite E; [|apply map_Forall_empty].
  rewrite last_lookup in E. by apply (rp_version _ _ _ Hrep _ _ (rp_lo _ _ _ Hrep)) in E as [? _].
Qed.

Lemma apply_patch_failed patch db db' e :
  patch_storable patch → apply_patch patch db = Ret (inl e, db') → db' = db ∧ ∃ patch, patch_storable patch ∧ apply_patch patch db = Ret (inl e, db).
Proof using DatabaseLaws0. intros Hp Happ. pose proof (apply_patch_atomic _ _ _ _ Happ) as ->. split; [done|]. by exists patch. Qed.

(** The update as a whole, for any notion of old references. *)
Lemma extend_step `{OR : OldRefs} db lo vs entries :
  let v := Z.of_nat (length vs) in let m' := insert_entries (latest vs) entries in
  represents db lo vs → old_root db vs → old_closed db → Forall entry_valid entries → in_width 64 (v + 1) →
  Z.of_nat (size (latest vs)) + Z.of_nat (length entries) < 2 ^ 64 →
  ∃ r db', MerkleTree.extend entries db = Ret (r, db') ∧
    match r with
    | inl e => db' = db ∧ ∃ patch, patch_storable patch ∧ apply_patch patch db = Ret (inl e, db)
    | inr output =>
        represents db' lo (vs ++ [m']) ∧
        output = BlockOutput.mk (tree_hash m') (Z.of_nat (size m')) (logs_of (latest vs) entries) ∧
        ∃ W' man patch, wok db v W' m' (λ _ _, False) ∧ Manifest.version_count man = v + 1 ∧
          apply_patch patch db = Ret (inr (), db') ∧ patch_storable patch ∧
          (m' = ∅ ∧ patch = PatchSet.for_empty_root man v ∨ m' ≠ ∅ ∧ finalized v W' m' man (Z.of_nat (size m')) patch)
    end.
Proof using All.
  intros v m' Hrep Hold Hclosed Hval Hwidth Hsize. destruct (storage_new_ok db lo vs Hrep Hold Hwidth) as (self & Hnew & _).
  destruct (storage_extend_ok db lo vs entries self Hrep Hold Hclosed Hval Hwidth Hsize Hnew) as (W' & man' & patch & Hext & Hw & Hms & Hcount & Hp).
  pose proof Hrep as [_ _ (man & Hman & Hc & _) _]. unfold MerkleTree.extend. rewrite Hman. cbn [mbind exec_bind]. rewrite Hc, Hnew. cbn [mbind exec_bind].
  rewrite Hext. cbn [mbind exec_bind]. fold m' in Hw, Hp |- *.
  assert (Hsize' : Z.of_nat (size m') < 2 ^ 64) by (pose proof (size_insert_entries (latest vs) entries) as Hsz; fold m' in Hsz; lia).
  assert (Hm' : map_ok m') by (apply map_ok_insert_entries; [by eapply latest_map_ok|done]).
  assert (Hext' := λ db', extended_represents db db' lo vs m' W' man' patch Hrep Hwidth Hm' Hsize' Hw Hms Hcount Hp).
  destruct (Hext' db) as [Hsto _]. destruct (apply_patch patch db) as [[r db']|] eqn:Happ; [|by apply apply_patch_returns in Happ].
  cbn [mbind exec_bind]. eexists _, _. split; [done|]. destruct r as [e|[]].
  - by eapply apply_patch_failed.
  - split; [by apply Hext'|]. split; [done|]. by exists W', man', patch.
Qed.

(** [MerkleTree::extend] on a tree with the maps [vs] returns, and either leaves the
    database as it was, when it fails to write a patch, or one with the maps [vs] and
    the latest with the entries inserted, in their order; the output has the hash and
    the size of that map, and for each entry what it replaced. *)
Lemma extend_ok db lo vs entries :
  represents db lo vs → Forall entry_valid entries → in_width 64 (Z.of_nat (length vs) + 1) →
  Z.of_nat (size (latest vs)) + Z.of_nat (length entries) < 2 ^ 64 →
  ∃ r db', MerkleTree.extend entries db = Ret (r, db') ∧
    match r with
    | inl e => db' = db ∧ ∃ patch, patch_storable patch ∧ apply_patch patch db = Ret (inl e, db)
    | inr output =>
        let m' := insert_entries (latest vs) entries in
        represents db' lo (vs ++ [m']) ∧
        output = BlockOutput.mk (tree_hash m') (Z.of_nat (size m')) (logs_of (latest vs) entries)
    end.
Proof using All.
  intros Hrep Hval Hwidth Hsize.
  destruct (extend_step (OR := λ _ _ _, True) db lo vs entries) as (r & db' & Hr & Hres); [done..|]. exists r, db'. split; [done|].
  destruct r; [done|]. by destruct Hres as (? & ? & _).
Qed.

(** [truncate_recent_versions] keeps the first maps, or fails without effect. *)
Lemma truncate_ok db lo vs (retained : Z) :
  represents db lo vs → Z.of_nat lo < retained →
  ∃ r db', MerkleTree.truncate_recent_versions retained db = Ret (r, db') ∧
    match r with
    | inl e => db' = db ∧ ∃ patch, patch_storable patch ∧ apply_patch patch db = Ret (inl e, db)
    | inr _ => represents db' lo (take (Z.to_nat retained) vs)
    end.
Proof using All.
  intros Hrep Hret. pose proof Hrep as [Hok Hlo (man & Hman & Hc & Hsto) Hvs]. unfold MerkleTree.truncate_recent_versions. rewrite Hman. cbn [mbind exec_bind].
  rewrite Hc. case_decide as Hlt; [|eexists _, _; split; [done|]; by rewrite take_ge by lia].
  set (man' := Manifest.mk retained (Manifest.tags (default Manifest.default man))).
  assert (Hms : manifest_storable man').
  { destruct Hsto as [Hw Ht]. split; [|exact Ht]. rewrite Hc in Hw. destruct Hw. split; cbn; lia. }
  assert (Hps : patch_storable (PatchSet.from_manifest man')) by (by split; [done|done|intros version part; cbn; rewrite lookup_empty..]).
  assert (Hfits : patch_fits (PatchSet.from_manifest man') db).
  { split; [done|]. split; [done|]. exists man. split; [done|]. intros version Hv. rewrite Hc in Hv. cbn in Hv. lia. }
  destruct (apply_patch (PatchSet.from_manifest man') db) as [[r db']|] eqn:Happ; [|by apply apply_patch_returns in Happ].
  eexists _, _. split; [done|]. destruct r as [e|[]]; [by eapply apply_patch_failed|]. split; [by eapply apply_patch_ok| | |].
  - rewrite length_take. lia.
  - exists (Some man'). split; [by apply (apply_patch_manifest _ _ _ Hfits Happ)|]. split; [|done]. cbn. rewrite length_take. lia.
  - intros i m Hli Hi. apply lookup_take_Some in Hi as [Hi Hir]. destruct (Hvs i m Hli Hi) as (? & ? & Hst). split_and!; [done..|].
    destruct Hms as [[_ Hw] _]. cbn in Hw. eapply (version_kept db db' retained man' (PatchSet.from_manifest man')); [done|done|done|done|lia| |lia|done].
    intros version _. cbn. apply lookup_empty.
Qed.

Lemma root_ok db lo vs i m :
  represents db lo vs → (lo ≤ i)%nat → vs !! i = Some m →
  ∃ r, root db (Z.of_nat i) = Ret (Some r) ∧ MerkleHash.root_hash r = tree_hash m ∧ Root.leaf_count r = Z.of_nat (size m).
Proof using All.
  intros Hrep Hlo Hi. destruct (rp_version _ _ _ Hrep i m Hlo Hi) as (Hm & _ & Hst).
  assert (Hphash : phash m 0 0 = tree_hash m) by (unfold phash, tree_hash; f_equal).
  destruct Hst as [[-> ->]|(_ & node & -> & Hst)]; (eexists; split; [done|]); rewrite <-Hphash.
  - split; [|done]. cbn. symmetry. apply phash_no_keys; [lia|]. intros k _. apply lookup_empty.
  - split; [|done]. cbn [MerkleHash.root_hash]. apply (node_hash_ok m 0 0 node ltac:(lia)). eapply stored_hash_ok; [lia|exact Hst].
Qed.

(** The root hash of each version is the hash of its map. *)
Theorem merkle_root_hash_refines db lo vs i m :
  represents db lo vs → (lo ≤ i)%nat → vs !! i = Some m → MerkleTree.root_hash db (Z.of_nat i) = Ret (Some (tree_hash m)).
Proof using All.
  intros Hrep Hlo Hi. destruct (root_ok db lo vs i m Hrep Hlo Hi) as (r & Hr & <- & _). unfold MerkleTree.root_hash. by rewrite Hr.
Qed.
End patch.
