(* ===== verification/MerkleProofs.v ===== *)
(** * Reading a version, and the proofs of what is read

    [getters.rs] and [WorkingPatchSet::create_proof]: [entries] gives the entries of
    the version's map, and each proof of [entries_with_proofs] verifies against its
    root hash, for present and for missing keys. *)
From Stdlib Require Import ZifyNat.
From S2P Require Import Prelude SmallMap MerkleTypes MerkleHash MerklePatch MerkleStorage MerkleView.
From S2P Require Import MerkleInvariant MerkleInsert MerkleLoad MerkleRefine.
Local Open Scope Z_scope.
Import Nibbles(pos_ok, of_pos, prefix, key_ok).
#[local] Opaque TREE_DEPTH.

(** ** Where two keys diverge *)
Lemma diverging_depth k k' :
  key_ok k → key_ok k' → k ≠ k' →
  ∃ D, (find_diverging_bit k k' + 1 = 256 - D)%nat ∧ (D < 256)%nat ∧
    k' / 2 ^ Z.of_nat D = sibling (k / 2 ^ Z.of_nat D) ∧
    ∀ d, (D < d)%nat → k / 2 ^ Z.of_nat d = k' / 2 ^ Z.of_nat d.
Proof.
  intros [Hk1 Hk2] [Hk1' Hk2'] Hne.  set (diff := Z.lxor k k').
  assert (Hd0 : diff ≠ 0) by (intros Hz; by apply Hne, Z.lxor_eq).
  assert (Hd : 0 < diff) by (assert (0 ≤ diff) by (apply Z.lxor_nonneg; lia); lia).
  assert (Hlog : 0 ≤ Z.log2 diff < 256).
  { split; [apply Z.log2_nonneg|]. pose proof (Z.log2_lxor k k' Hk1 Hk1') as Hl. fold diff in Hl.
    assert (∀ z, 0 ≤ z < 2 ^ 256 → Z.log2 z < 256) as Hb; [|pose proof (Hb k ltac:(lia)); pose proof (Hb k' ltac:(lia)); lia].
    intros z Hz. destruct (decide (z = 0)) as [->|]; [done|]. apply Z.log2_lt_pow2; lia. }
  assert (Hdiv : ∀ d, 0 ≤ d → diff / 2 ^ d = Z.lxor (k / 2 ^ d) (k' / 2 ^ d)).
  { intros d Hd'. rewrite <-!Z.shiftr_div_pow2 by done. apply Z.shiftr_lxor. }
  exists (Z.to_nat (Z.log2 diff)). split_and!.
  - unfold find_diverging_bit. fold diff. rewrite decide_False by done. lia.
  - lia.
  - rewrite Z2Nat.id by lia. assert (Hone : diff / 2 ^ Z.log2 diff = 1).
    { pose proof (Z.log2_spec diff Hd) as Hs. rewrite Z.pow_succ_r in Hs by lia. symmetry. apply Z.div_unique with (r := diff - 2 ^ Z.log2 diff); lia. }
    rewrite Hdiv in Hone by lia. unfold sibling. rewrite <-Hone. by rewrite <-Z.lxor_assoc, Z.lxor_nilpotent, Z.lxor_0_l.
  - intros d Hdd. apply Z.lxor_eq. rewrite <-Hdiv by lia. apply Z.div_small. split; [lia|].
    pose proof (Z.log2_spec diff Hd) as [_ Hs]. eapply Z.lt_le_trans; [exact Hs|]. apply Z.pow_le_mono_r; lia.
Qed.

Lemma sibling_ne x : sibling x ≠ x.
Proof.
  unfold sibling. intros Heq. apply (f_equal (λ z, Z.testbit z 0)) in Heq. rewrite Z.lxor_spec in Heq. by destruct (Z.testbit x 0).
Qed.

Lemma sibling_half x : sibling x / 2 = x / 2.
Proof. pose proof (sibling_add (x / 2) (x mod 2)) as Hs. replace (2 * (x / 2) + x mod 2) with x in Hs by lia.
  assert (Hm : x mod 2 = 0 ∨ x mod 2 = 1) by lia. rewrite Hs. destruct Hm as [-> | ->]; [change (sibling 0) with 1|change (sibling 1) with 0]; lia.
Qed.

(** A key beside the path of [k] at depth [d] is on it above. *)
Lemma beside_above k k' d e :
  (d < e)%nat → k' / 2 ^ Z.of_nat d = sibling (k / 2 ^ Z.of_nat d) → k' / 2 ^ Z.of_nat e = k / 2 ^ Z.of_nat e.
Proof.
  intros Hlt Hs. replace (Z.of_nat e) with (Z.of_nat d + (1 + (Z.of_nat e - Z.of_nat d - 1))) by lia.
  rewrite Z.pow_add_r, <-!Z.div_div by lia. rewrite Hs. rewrite (Z.pow_add_r 2 1), <-!Z.div_div by lia. by rewrite sibling_half.
Qed.

Lemma equal_above k k' d e :
  (d ≤ e)%nat → k' / 2 ^ Z.of_nat d = k / 2 ^ Z.of_nat d → k' / 2 ^ Z.of_nat e = k / 2 ^ Z.of_nat e.
Proof.
  intros Hle Heq. replace (Z.of_nat e) with (Z.of_nat d + (Z.of_nat e - Z.of_nat d)) by lia.
  rewrite Z.pow_add_r, <-!Z.div_div by lia. by rewrite Heq.
Qed.

Lemma prefix_pow n k : (n ≤ 64)%nat → prefix n k = k / 2 ^ Z.of_nat (TREE_DEPTH - n * 4).
Proof. intros Hn. symmetry. by apply under_prefix. Qed.

Section paths.
Context `{HashTree} `{!HashTreeLaws}.
Implicit Types (m : treemap) (k : Key).

(** Below a position where [k] is alone, the path of [k] is empty. *)
Lemma path_alone m k n d :
  (n ≤ 64)%nat → (∀ k', prefix n k' = prefix n k → k' ≠ k → m !! k' = None) → (d < TREE_DEPTH - n * 4)%nat →
  path_at m k d = empty_subtree_hash d.
Proof using All.
  intros Hn Halone Hd. apply ref_hash_empty; [rewrite tree_depth_256 in *; lia|]. intros k' Hk'. unfold under in Hk'. apply Halone.
  - rewrite !prefix_pow by done. by eapply beside_above.
  - intros ->. symmetry in Hk'. by apply sibling_ne in Hk'.
Qed.

Lemma path_ok_alone m k n :
  (n ≤ 64)%nat → (∀ k', prefix n k' = prefix n k → k' ≠ k → m !! k' = None) → path_ok m k (merkle_path_new (n * 4)).
Proof using All. intros Hn Halone. apply path_ok_new; [rewrite tree_depth_256; lia|]. intros d Hd. by apply (path_alone m k n). Qed.

(** The hashes that are skipped, down to a level. *)
Lemma path_push_empty m k p start count :
  path_ok m k p → MerklePath.current_level p = (start + count)%nat →
  (∀ level, (start < level ≤ start + count)%nat → path_at m k (TREE_DEPTH - level) = empty_subtree_hash (TREE_DEPTH - level)) →
  ∀ l : list nat, length l = count →
  let p' := foldl (λ path _, merkle_path_push path None) p l in path_ok m k p' ∧ MerklePath.current_level p' = start.
Proof using.
  intros Hp Hl Hempty l. revert p count Hp Hl Hempty. induction l as [|? l IH]; intros p count Hp Hl Hempty Hlen; cbn in Hlen |- *.
  - split; [done|lia].
  - destruct count as [|count]; [lia|]. destruct (path_ok_push m k p None Hp) as [Hp' Hl']; [lia|rewrite Hl, Hempty by lia; done|].
    apply (IH _ count); [done|lia| |lia]. intros level Hlevel. apply Hempty. lia.
Qed.

(** The path beside a leaf of another key. *)
Lemma path_ok_mismatch m k n l :
  (n ≤ 64)%nat → key_ok k → key_ok (LeafNode.full_key l) → leaf_inv m n (prefix n k) l → LeafNode.full_key l ≠ k →
  let diverging_level := (find_diverging_bit k (LeafNode.full_key l) + 1)%nat in
  let path := merkle_path_push (merkle_path_new diverging_level) (Some (leaf_hash l diverging_level)) in
  let p := foldl (λ path _, merkle_path_push path None) path (seq (4 * n + 1) (diverging_level - (4 * n + 1))) in
  path_ok m k p ∧ MerklePath.current_level p = (n * 4)%nat.
Proof using All.
  intros Hn Hk Hkl (Hpre & Hm & Hu) Hne diverging_level path p.
  destruct (diverging_depth k (LeafNode.full_key l) Hk Hkl ltac:(done)) as (D & HD & HD256 & Hsib & Habove). fold diverging_level in HD.
  assert (HDn : (D < TREE_DEPTH - n * 4)%nat).
  { destruct (decide (D < TREE_DEPTH - n * 4)%nat); [done|]. exfalso. rewrite !prefix_pow in Hpre by done.
    apply (sibling_ne (k / 2 ^ Z.of_nat D)). rewrite <-Hsib. eapply equal_above; [|exact Hpre]. lia. }
  assert (Hlevel : diverging_level = (TREE_DEPTH - D)%nat) by (rewrite tree_depth_256; lia).
  rewrite tree_depth_256 in HDn.
  assert (Hempty : ∀ d, (d < 256 - n * 4)%nat → d ≠ D → path_at m k d = empty_subtree_hash d).
  { intros d Hd HdD. apply ref_hash_empty; [rewrite tree_depth_256; lia|]. intros k' Hk'. unfold under in Hk'. apply Hu.
    - rewrite !prefix_pow by done. rewrite tree_depth_256. by eapply beside_above.
    - intros ->. destruct (decide (D < d)%nat).
      + rewrite <-Habove in Hk' by done. symmetry in Hk'. by apply sibling_ne in Hk'.
      + assert (Heq : LeafNode.full_key l / 2 ^ Z.of_nat D = k / 2 ^ Z.of_nat D) by (eapply beside_above; [|exact Hk']; lia).
        rewrite Hsib in Heq. by apply sibling_ne in Heq. }
  assert (Hp0 : path_ok m k (merkle_path_new diverging_level)).
  { apply path_ok_new; [lia|]. intros d Hd. apply Hempty; rewrite Hlevel, tree_depth_256 in Hd; lia. }
  assert (Hdepth : (TREE_DEPTH - diverging_level = D)%nat) by (rewrite Hlevel, tree_depth_256; lia).
  destruct (path_ok_push m k _ (Some (leaf_hash l diverging_level)) Hp0) as [Hp1 Hl1]; [cbn; lia| |].
  { cbn [MerklePath.current_level merkle_path_new or_empty default]. rewrite (leaf_hash_ref m diverging_level (sibling (k / 2 ^ Z.of_nat D)) l); [by rewrite Hdepth|rewrite tree_depth_256 in *; lia| |done].
    rewrite Hdepth. split; [done|]. intros k' Hk' Hne'. unfold under in Hk'. apply Hu; [|done]. rewrite !prefix_pow, tree_depth_256 by done. by eapply beside_above. }
  apply (path_push_empty m k path (n * 4) (diverging_level - (4 * n + 1))); [done| | |by rewrite length_seq].
  - fold path in Hl1. rewrite Hl1. cbn. rewrite tree_depth_256 in *. lia.
  - intros level Hlv. rewrite tree_depth_256 in *. apply Hempty; lia.
Qed.
End paths.

(** ** The working set of a reader *)
Section reader.
Context {DB : Type} `{Database DB} `{HashTree} `{!HashTreeLaws} `{OR : OldRefs} (db : DB) (v : Z).
Implicit Types (f g : View) (m : treemap) (P : nat → Z → Prop) (c : InternalNode.t) (k : Key) (W : WorkingPatchSet.t).

(** Hashes and caches are those of the subtrees. *)
Definition hinv m (n : nat) (x : Z) (node : Node.t) : Prop :=
  hash_ok m n x node ∧ match node with Node.Internal c => cache_opt_ok m (n * 4) x c | Node.Leaf _ => True end.

Lemma stored_hinv m n vmax x node : (n ≤ 64)%nat → stored db n m vmax x node → hinv m n x node.
Proof using.
  intros Hn Hs. split; [by eapply stored_hash_ok|]. destruct node as [c|]; [|done].
  apply stored_internal in Hs as (_ & _ & Hc & _); [|done]. intros c0. by rewrite Hc.
Qed.

(** The same nodes, but for their caches. *)
Definition same_node (node node' : option Node.t) : Prop :=
  match node, node' with
  | None, None => True
  | Some (Node.Leaf l), Some (Node.Leaf l') => l' = l
  | Some (Node.Internal c), Some (Node.Internal c') => InternalNode.children c' = InternalNode.children c
  | _, _ => False
  end.
Definition same_nodes f g : Prop := ∀ n x, same_node (vget f n x) (vget g n x).

#[local] Instance same_node_refl : Reflexive same_node.
Proof. by intros [[]|]. Qed.
#[local] Instance same_node_trans : Transitive same_node.
Proof. intros [[]|] [[]|] [[]|]; cbn; try done; by intros ->. Qed.
#[local] Instance same_nodes_refl : Reflexive same_nodes.
Proof. by intros f n x. Qed.
#[local] Instance same_nodes_trans : Transitive same_nodes.
Proof. intros f g h Hfg Hgh n x. etrans; [apply Hfg|apply Hgh]. Qed.

Lemma same_refs c c' d : InternalNode.children c' = InternalNode.children c → InternalNode.refs c' d = InternalNode.refs c d.
Proof using. unfold InternalNode.refs. by intros ->. Qed.

Lemma same_kind f g n x : same_nodes f g → kind g n x = kind f n x.
Proof using. intros Hs. specialize (Hs n x). unfold kind. by destruct (vget f n x) as [[]|], (vget g n x) as [[]|]. Qed.

Lemma same_internal f g n x c :
  same_nodes f g → vget g n x = Some (Node.Internal c) → ∃ c0, vget f n x = Some (Node.Internal c0) ∧ InternalNode.children c = InternalNode.children c0.
Proof using. intros Hs Hc. specialize (Hs n x). rewrite Hc in Hs. destruct (vget f n x) as [[c0|]|]; [|done..]. by exists c0. Qed.

Lemma same_internal' f g n x c :
  same_nodes f g → vget f n x = Some (Node.Internal c) → ∃ c0, vget g n x = Some (Node.Internal c0) ∧ InternalNode.children c0 = InternalNode.children c.
Proof using. intros Hs Hc. specialize (Hs n x). rewrite Hc in Hs. destruct (vget g n x) as [[c0|]|]; [|done..]. by exists c0. Qed.

Lemma sinv_same f g m P : same_nodes f g → sinv db v f m P → sinv db v g m P.
Proof using.
  intros Hsame Hs. split.
  - apply Hs.
  - apply Hs.
  - intros Hr. apply (s_root _ _ _ _ _ Hs). specialize (Hsame 0%nat 0). rewrite Hr in Hsame. by destruct (vget f 0 0) as [[]|].
  - intros n x node Hx. pose proof (same_kind f g n x Hsame) as Hk. unfold kind in Hk. rewrite Hx in Hk.
    destruct (vget f n x) eqn:E; [|done]. by apply Hs in E.
  - intros n x node Hx. pose proof (same_kind f g (S n) x Hsame) as Hk. unfold kind in Hk. rewrite Hx in Hk.
    destruct (vget f (S n) x) eqn:E; [|done]. destruct (s_parent _ _ _ _ _ Hs _ _ _ E) as [c Hc].
    destruct (same_internal' _ _ _ _ _ Hsame Hc) as (c0 & ? & _). by exists c0.
  - intros n x node Hx. apply (node_inv_kind db v f); [intros _ d _; by apply same_kind|]. destruct node as [c|l].
    + destruct (same_internal _ _ _ _ _ Hsame Hx) as (c0 & Hc0 & Hch). pose proof (s_node _ _ _ _ _ Hs _ _ _ Hc0) as (Hn & Hwf & Hne & Hd).
      split; [done|]. split; [unfold InternalNode.wf in *; by rewrite Hch|]. split.
      * destruct Hne as (d & r & Hr). exists d, r. by rewrite (same_refs _ _ _ Hch).
      * intros d Hdr. specialize (Hd d Hdr). unfold child_inv in *. by rewrite (same_refs _ _ _ Hch).
    + specialize (Hsame n x). rewrite Hx in Hsame. destruct (vget f n x) as [[|l0]|] eqn:E; [done| |done]. cbn in Hsame. subst l.
      by apply (s_node _ _ _ _ _ Hs) in E.
Qed.

Lemma above_same f g k n : same_nodes f g → above f k n → above g k n.
Proof using.
  intros Hsame [Hn Ha]. split; [done|]. intros n0 Hlt. destruct (Ha n0 Hlt) as [c Hc].
  destruct (same_internal' _ _ _ _ _ Hsame Hc) as (c0 & ? & _). by exists c0.
Qed.

Lemma settled_same f g k n : same_nodes f g → settled f k n → settled g k n.
Proof using.
  intros Hsame. unfold settled. specialize (Hsame n (prefix n k)).
  destruct (vget f n (prefix n k)) as [[c|]|], (vget g n (prefix n k)) as [[c'|]|]; try done. intros Hr. by rewrite (same_refs _ _ _ Hsame).
Qed.

Lemma extend_path_up_ok W m P k n p fuel :
  sinv db v (view W) m P → all_nodes hinv m W → above (view W) k n → key_ok k →
  path_ok m k p → MerklePath.current_level p = (n * 4)%nat → (n < fuel)%nat →
  ∃ W' p', WorkingPatchSet.extend_path_up fuel W (of_pos n (prefix n k)) 0 p = Ret (W', p') ∧
    path_ok m k p' ∧ MerklePath.current_level p' = 0%nat ∧ same_nodes (view W) (view W') ∧ all_nodes hinv m W'.
Proof using All.
  revert W n p. induction fuel as [|fuel IH]; intros W n p Hs Hh [Hn Ha] Hk Hp Hl Hf; [lia|]. cbn [WorkingPatchSet.extend_path_up].
  destruct n as [|n]; [rewrite Nibbles.split_last_zero; cbn; by eexists _, _|].
  rewrite Nibbles.split_last_ok, prefix_up by done. cbn [mbind exec_bind]. change (Nibbles.nibble_count (of_pos n (prefix n k))) with n.
  rewrite decide_False by lia. fold (digit n k). destruct (Ha n ltac:(lia)) as [c Hc]. rewrite <-view_get, Hc by (apply Nibbles.prefix_ok; [done|lia]).
  pose proof (s_node _ _ _ _ _ Hs _ _ _ Hc) as (_ & Hwf & _ & _). destruct (Hh _ _ _ Hc) as [Hok Hcache].
  destruct (extend_merkle_path_at_ok m (n * 4) (prefix n k) c k p (digit n k)) as (c' & p' & -> & Hp' & Hl' & Hch & Hcache');
    [rewrite tree_depth_256; lia|done|by apply hash_ok_children|done|done|lia|apply digit_range| |].
  { rewrite <-prefix_child, prefix_pow by lia. by replace (n * 4 + 4)%nat with (S n * 4)%nat by lia. }
  cbn [mbind exec_bind]. pose proof Hc as Hc'. unfold vget in Hc'. destruct (view W n (prefix n k)) as [w|] eqn:Ew; [|done]. clear Hc'.
  destruct (view_get_mut W n (prefix n k) w (λ _, Ret (Node.Internal c')) (Node.Internal c') Ew eq_refl) as (W1 & -> & _ & Hv1 & _).
  cbn [mbind exec_bind expect].
  assert (Hvget : ∀ n0 x0, vget (view W1) n0 x0 = if decide (same_pos n n0 (prefix n k) x0) then Some (Node.Internal c') else vget (view W) n0 x0).
  { intros n0 x0. unfold vget at 1. rewrite Hv1. apply vget_vset. }
  assert (Hsame : same_nodes (view W) (view W1)).
  { intros n0 x0. rewrite Hvget. case_decide as Hd; [|done]. destruct Hd as [-> ->]. by rewrite Hc. }
  assert (Hh1 : all_nodes hinv m W1).
  { intros n0 x0 node. rewrite Hvget. case_decide as Hd; [|apply Hh]. destruct Hd as [-> ->]. intros [= <-]. split; [|done].
    destruct Hok as (? & ? & Hrefs). split; [done|]. split; [unfold InternalNode.wf in *; by rewrite Hch|].
    intros d Hdr. rewrite (same_refs _ _ _ Hch). by apply Hrefs. }
  destruct (IH W1 n p') as (W' & p'' & -> & ? & ? & ? & ?); [by eapply sinv_same| |eapply above_same; [done|]|done..|lia|].
  - done.
  - split; [lia|]. intros n0 ?. apply Ha. lia.
  - eexists _, _. split; [done|]. split_and!; [done..|by etrans|done].
Qed.

Definition leaf_of m k : option LeafNode.t := (λ '(value, leaf_index), LeafNode.mk k value leaf_index) <$> m !! k.

(** A key whose path ends without a node has no entry, nor any key below. *)
Lemma settled_missing f m P k n1 n :
  sinv db v f m P → key_ok k → settled f k n1 → above f k n → (n1 ≤ n)%nat → vget f n (prefix n k) = None → no_keys_at m n (prefix n k).
Proof using.
  intros Hs Hk Hset [Hn Ha] Hle Hnone. destruct (decide (n = n1)) as [->|].
  - unfold settled in Hset. rewrite Hnone in Hset. subst n1. rewrite Nibbles.prefix_0 in Hnone by done.
    rewrite (s_root _ _ _ _ _ Hs Hnone). intros k' _. apply lookup_empty.
  - destruct (Ha n1 ltac:(lia)) as [c Hc]. unfold settled in Hset. rewrite Hc in Hset.
    pose proof (s_node _ _ _ _ _ Hs _ _ _ Hc) as (Hlt & _ & _ & Hd). specialize (Hd _ (digit_range n1 k)). unfold child_inv in Hd.
    rewrite Hset, <-prefix_child in Hd by done. destruct Hd as [Hnone1 Hno]. destruct (decide (n = S n1)) as [->|]; [done|].
    destruct (Ha (S n1) ltac:(lia)) as [c' Hc']. congruence.
Qed.

Lemma create_proof_ok W m P k n1 :
  sinv db v (view W) m P → all_nodes hinv m W → above (view W) k n1 → settled (view W) k n1 → key_ok k →
  ∃ p W', WorkingPatchSet.create_proof W k (of_pos n1 (prefix n1 k)) 0 = Ret (leaf_of m k, p, W') ∧
    path_ok m k p ∧ MerklePath.current_level p = 0%nat ∧ same_nodes (view W) (view W') ∧ all_nodes hinv m W'.
Proof using All.
  intros Hs Hh Ha Hset Hk. destruct (traverse_ok db v W m P k n1 Hs Hk Ha) as (n & o & Hle & Han & Htr & Ho). pose proof Han as [Hn _].
  unfold WorkingPatchSet.create_proof. rewrite Htr. cbn [mbind exec_bind]. unfold outcome_at in Ho.
  assert (Hup : ∀ p, path_ok m k p → MerklePath.current_level p = (n * 4)%nat →
    ∃ W' p', WorkingPatchSet.extend_path_up (S n) W (of_pos n (prefix n k)) 0 p = Ret (W', p') ∧
      path_ok m k p' ∧ MerklePath.current_level p' = 0%nat ∧ same_nodes (view W) (view W') ∧ all_nodes hinv m W').
  { intros p Hp Hl. eapply extend_path_up_ok; [done..|lia]. }
  destruct (vget (view W) n (prefix n k)) as [[c|l]|] eqn:E; [done| |].
  - pose proof (s_node _ _ _ _ _ Hs _ _ _ E) as Hl. pose proof Hl as (Hpre & Hm & Hu). case_decide as Hkey; subst o;
      cbn [TraverseOutcome.position]; change (Nibbles.nibble_count (of_pos n (prefix n k))) with n; cbn [default].
    + destruct (Hup (merkle_path_new (n * 4))) as (W' & p' & -> & ?); [|done|].
      { apply path_ok_alone; [done|]. intros k' Hk' Hne. apply Hu; [done|by rewrite Hkey]. }
      cbn [mbind exec_bind]. exists p', W'. split; [|done]. unfold leaf_of. rewrite Hkey in Hm. rewrite Hm. cbn. do 3 f_equal. destruct l. by cbn in *; subst.
    + assert (Hkl : key_ok (LeafNode.full_key l)) by (by apply (s_map _ _ _ _ _ Hs) in Hm as (? & _)).
      destruct (path_ok_mismatch m k n l Hn Hk Hkl Hl Hkey) as [Hp Hlv].
      destruct (Hup _ Hp Hlv) as (W' & p' & Hext & ?). cbn [from_option id default]. rewrite Hext.
      cbn [mbind exec_bind]. exists p', W'. split; [|done]. unfold leaf_of. rewrite (Hu k); [done..|]. by intros ->.
  - subst o. cbn [TraverseOutcome.position]. change (Nibbles.nibble_count (of_pos n (prefix n k))) with n. cbn [default].
    pose proof (settled_missing _ _ _ _ _ _ Hs Hk Hset Han Hle E) as Hno.
    destruct (Hup (merkle_path_new (n * 4))) as (W' & p' & -> & ?); [|done|].
    { apply path_ok_alone; [done|]. intros k' Hk' _. by apply Hno. }
    cbn [mbind exec_bind]. exists p', W'. split; [|done]. unfold leaf_of. by rewrite Hno.
Qed.

(** ** [extract_entry] *)
Definition lookup_entry m k : TreeEntry.t :=
  match m !! k with Some (value, leaf_index) => TreeEntry.mk k value leaf_index | None => TreeEntry.empty k end.

Lemma extract_entry_ok W m P k n1 :
  sinv db v (view W) m P → above (view W) k n1 → settled (view W) k n1 → key_ok k →
  MerkleTree.extract_entry W k (of_pos n1 (prefix n1 k)) = Ret (lookup_entry m k, W).
Proof using.
  intros Hs Ha Hset Hk. unfold MerkleTree.extract_entry. pose proof Ha as [Hn _].
  rewrite <-view_get by (by apply Nibbles.prefix_ok). do 2 f_equal. unfold lookup_entry.
  destruct (vget (view W) n1 (prefix n1 k)) as [[c|l]|] eqn:E.
  - pose proof Hset as Hset'. unfold settled in Hset'. rewrite E in Hset'.
    pose proof (s_node _ _ _ _ _ Hs _ _ _ E) as (Hlt & _ & _ & Hd). specialize (Hd _ (digit_range n1 k)). unfold child_inv in Hd.
    rewrite Hset', <-prefix_child in Hd by done. destruct Hd as [_ Hno]. by rewrite Hno.
  - pose proof (s_node _ _ _ _ _ Hs _ _ _ E) as (_ & Hm & Hu). case_decide as Hkey; [rewrite <-Hkey, Hm; by destruct l|].
    rewrite (Hu k); [done..|]. by intros ->.
  - by rewrite (settled_missing _ _ _ _ _ _ Hs Hk Hset Ha ltac:(lia) E).
Qed.
End reader.

(** ** The getters *)
Section getters.
Context {DB : Type} `{Database DB} `{!DatabaseLaws DB} `{HashTree} `{!HashTreeLaws} `{Unspecified} `{!UnspecifiedLaws}.
Implicit Types (db : DB) (m : treemap) (vs : list treemap).

Lemma represents_width db lo vs i m : represents db lo vs → vs !! i = Some m → in_width 64 (Z.of_nat i + 1).
Proof using.
  intros [_ _ (man & _ & Hc & [[_ Hw] _]) _] Hi. apply lookup_lt_Some in Hi. split; lia.
Qed.

#[local] Instance any_old : OldRefs := λ _ _ _, True.

Lemma transform_ok {T} db lo vs i m keys (transform : WorkingPatchSet.t → Key → Nibbles.t → exec (T * WorkingPatchSet.t)) (R : Key → T → Prop) :
  represents db lo vs → (lo ≤ i)%nat → vs !! i = Some m → Forall key_ok keys →
  (∀ W P k n1, sinv db (Z.of_nat i + 1) (view W) m P → all_nodes hinv m W → above (view W) k n1 → settled (view W) k n1 → key_ok k →
    ∃ r W', transform W k (of_pos n1 (prefix n1 k)) = Ret (r, W') ∧ R k r ∧ same_nodes (view W) (view W') ∧ all_nodes hinv m W') →
  ∃ rs, MerkleTree.load_and_transform_entries db (Z.of_nat i) keys transform = Ret (inr rs) ∧ Forall2 R keys rs.
Proof using All.
  intros Hrep Hlo Hi Hkeys Ht. pose proof (represents_width _ _ _ _ _ Hrep Hi) as Hwidth.
  destruct (rp_version _ _ _ Hrep i m Hlo Hi) as (Hm & _ & Hst). destruct (version_root _ _ _ Hst) as (root0 & Hroot & Ho).
  unfold MerkleTree.load_and_transform_entries. rewrite Hroot. cbn [mbind exec_bind].
  destruct (wok_new (OR := any_old) db (Z.of_nat i + 1) m root0 (Z.of_nat i) (Z.of_nat i) Hm Hwidth Ho ltac:(lia) ltac:(lia) ltac:(intros; exact I)) as [Hw Hlen].
  destruct (load_sorted_ok (OR := any_old) db _ _ m keys hinv ltac:(intros ? ? ? ? ? ? _ _ _; exact I) (stored_hinv db) Hw) as (lp & reads & W1 & -> & Hw1 & Hh1 & _ & Hlp); [|done|done|].
  { intros n x node Hx. pose proof (s_pos _ _ _ _ _ (w_sinv _ _ _ _ _ Hw) _ _ _ Hx) as [Hn Hxr].
    destruct (decide (n = 0%nat)) as [->|]; [|unfold vget in Hx; by rewrite view_deep in Hx by lia].
    destruct root0 as [|lc node0]; [unfold vget in Hx; by rewrite view_deep in Hx by (cbn; lia)|].
    assert (x = 0) as -> by (cbn in Hxr; lia). rewrite view_get in Hx by (split; cbn; lia). rewrite <-Nibbles.empty_ok in Hx.
    unfold WorkingPatchSet.get, WorkingPatchSet.get_working, WorkingPatchSet.new in Hx. change (Nibbles.nibble_count Nibbles.EMPTY) with 0%nat in Hx.
    cbn [WorkingPatchSet.changes_by_nibble_count lookup list_lookup mbind option_bind] in Hx. rewrite lookup_singleton_eq in Hx. injection Hx as <-.
    eapply stored_hinv; [lia|]. by destruct Ho as [_ Ho]. }
  cbn [mbind exec_bind LoadAncestorsResult.longest_prefixes].
  assert (Hfold : ∀ P W done keys lp, sinv db (Z.of_nat i + 1) (view W) m P → all_nodes hinv m W → Forall key_ok keys →
    Forall2 (λ k nibbles, ∃ n1, nibbles = of_pos n1 (prefix n1 k) ∧ above (view W) k n1 ∧ settled (view W) k n1) keys lp →
    ∃ rs W', foldM (λ '(entries, patch_set) '(leaf_key, longest_prefix),
        '(entry, patch_set) ← transform patch_set leaf_key longest_prefix; Ret (entries ++ [entry], patch_set)) (done, W) (zip keys lp)
      = Ret (done ++ rs, W') ∧ Forall2 R keys rs).
  { clear -Ht. intros P W done keys. revert W done. induction keys as [|k keys IH]; intros W done lp Hs Hh Hk Hlp.
    - apply Forall2_nil_inv_l in Hlp as ->. cbn. exists [], W. by rewrite app_nil_r.
    - apply Forall2_cons_inv_l in Hlp as (? & lp' & (n1 & -> & Ha & Hset) & Hlp & ->). apply Forall_cons in Hk as [Hk Hks].
      destruct (Ht W P k n1 Hs Hh Ha Hset Hk) as (r & W' & Hr & HR & Hsame & Hh'). cbn [zip_with foldM]. rewrite Hr. cbn [mbind exec_bind].
      destruct (IH W' (done ++ [r]) lp') as (rs & W'' & Hf & HRs); [by eapply sinv_same|done|done| |].
      + eapply Forall2_impl; [exact Hlp|]. intros k' nb (n2 & -> & ? & ?). exists n2.
        split; [done|]. split; [by eapply above_same|by eapply settled_same].
      + exists (r :: rs), W''. rewrite Hf, <-app_assoc. split; [done|]. by constructor. }
  destruct (Hfold _ W1 [] keys lp (w_sinv _ _ _ _ _ Hw1) Hh1 Hkeys Hlp) as (rs & W' & -> & HR). cbn. by exists rs.
Qed.

(** [MerkleTree::entries] of a version gives the entries of its map, missing keys as
    empty entries. *)
Theorem merkle_entries_refine db lo vs i m keys :
  represents db lo vs → (lo ≤ i)%nat → vs !! i = Some m → Forall key_ok keys →
  MerkleTree.entries db (Z.of_nat i) keys = Ret (inr (lookup_entry m <$> keys)).
Proof using All.
  intros Hrep Hlo Hi Hkeys. destruct (transform_ok db lo vs i m keys MerkleTree.extract_entry (λ k r, r = lookup_entry m k) Hrep Hlo Hi Hkeys) as (rs & Hrs & HR).
  - intros W P k n1 Hs Hh Ha Hset Hk. eexists _, W. split; [by eapply extract_entry_ok|]. split; [done|]. split; [intros ? ?|done].
    by destruct (vget (view W) _ _) as [[]|].
  - unfold MerkleTree.entries. rewrite Hrs. do 2 f_equal. clear -HR. induction HR; cbn; [done|]. by f_equal.
Qed.

(** C16 Each proof of [MerkleTree::entries_with_proofs] has the map's entry and verifies
    against the version's root hash; leaf indices are non-zero, since an entry with
    index 0 says that the key is missing. *)
Theorem merkle_proofs_verify db lo vs i m keys :
  represents db lo vs → (lo ≤ i)%nat → vs !! i = Some m → Forall key_ok keys → map_Forall (λ _ e, e.2 ≠ 0) m →
  ∃ proofs, MerkleTree.entries_with_proofs db (Z.of_nat i) keys = Ret (inr proofs) ∧
    Forall2 (λ k proof, TreeEntryWithProof.base proof = lookup_entry m k ∧ verify proof (tree_hash m) = Ret (inr ())) keys proofs.
Proof using All.
  intros Hrep Hlo Hi Hkeys Hidx. apply (transform_ok db lo vs i m keys); [done..|]. intros W P k n1 Hs Hh Ha Hset Hk.
  destruct (create_proof_ok db _ W m P k n1 Hs Hh Ha Hset Hk) as (p & W' & Hc & Hp & Hl & Hsame & Hh').
  unfold MerkleTree.prove_entry. rewrite Hc. cbn [mbind exec_bind]. eexists _, W'. split; [done|]. split; [|done].
  pose proof (path_ok_extend m k p Hp Hl) as Hext. unfold verify, leaf_of, lookup_entry. cbn.
  assert (Hfold : ∀ value index, hash_leaf value index = leaf_hash_of m k → fold_merkle_path (into_inner p) (TreeEntry.mk k value index) = Ret (tree_hash m)).
  { intros value index Hv. by apply (fold_merkle_path_ref m k). }
  unfold leaf_hash_of in Hfold. destruct (m !! k) as [[value index]|] eqn:E; cbn.
  - split; [done|]. rewrite decide_False by (intros [? _]; by apply (Hidx _ _ E)). rewrite Hfold by done. cbn. by rewrite decide_False by (intros Hx; by apply Hx).
  - split; [done|]. rewrite decide_False by (by intros [_ ?]). rewrite Hfold by done. cbn. by rewrite decide_False by (intros Hx; by apply Hx).
Qed.
End getters.
