(* ===== verification/MerklePruning.v ===== *)
(** * Pruning

    [lib/merkle_tree/src/pruning.rs] and [PruneDatabase] of [storage/database.rs]: an
    update records the keys of the nodes it replaces, and the pruner removes those
    that were replaced up to a version. What it removes is not reachable from the
    versions it keeps, as long as no version was reverted; [stale_after_revert_panics]
    shows what happens otherwise. *)
From Stdlib Require Import ZifyNat.
From S2P Require Import Prelude SmallMap MerkleTypes MerkleHash MerklePatch MerkleStorage MerkleView.
From S2P Require Import MerkleInvariant MerkleInsert MerkleLoad MerkleFinalize MerkleRefine.
Local Open Scope Z_scope.
Import Nibbles(pos_ok, of_pos, prefix, key_ok).
#[local] Opaque TREE_DEPTH.

Module PrunePatchSet.
(** The range of versions without its end. *)
Record t := mk { pruned_node_keys : list NodeKey.t; deleted_stale_key_versions : Z * Z }.
Definition new (pruned_node_keys : list NodeKey.t) (deleted_stale_key_versions : Z * Z) : t :=
  mk pruned_node_keys deleted_stale_key_versions.
End PrunePatchSet.

Class PruneDatabase (DB : Type) `{Database DB} := {
  min_stale_key_version : DB → exec (option Z);
  stale_keys : DB → Z → exec (list NodeKey.t);
  prune : PrunePatchSet.t → prog DB () ();
}.

(** ** [PatchSet] *)
Definition patch_min_stale_key_version (self : PatchSet.t) : option Z :=
  let versions := (filter (λ '(_, keys), keys ≠ []) (map_to_list (PatchSet.stale_keys_by_version self))).*1 in
  foldr (λ version least, Some (match least with None => version | Some least => Z.min version least end)) None versions.

Definition patch_stale_keys (self : PatchSet.t) (version : Z) : list NodeKey.t :=
  default [] (PatchSet.stale_keys_by_version self !! version).

Definition prune_key (patches : gmap Z PartialPatchSet.t) (key : NodeKey.t) : gmap Z PartialPatchSet.t :=
  match patches !! NodeKey.version key with
  | None => patches
  | Some patch =>
      <[NodeKey.version key :=
          if NodeKey.is_empty key then PartialPatchSet.mk None (PartialPatchSet.nodes patch)
          else PartialPatchSet.mk (PartialPatchSet.root patch) (delete key (PartialPatchSet.nodes patch))]> patches
  end.

Definition patch_prune (patch : PrunePatchSet.t) : prog PatchSet.t () () := λ self,
  let patches := foldl prune_key (PatchSet.patches_by_version self) (PrunePatchSet.pruned_node_keys patch) in
  let '(first, last) := PrunePatchSet.deleted_stale_key_versions patch in
  let stale_keys := filter (λ '(version, _), ¬ (first ≤ version < last)) (PatchSet.stale_keys_by_version self) in
  Ret (inr (), PatchSet.mk (PatchSet.manifest self) patches (PatchSet.updated_version self) stale_keys).

#[export] Instance patch_prune_database : PruneDatabase PatchSet.t := {
  min_stale_key_version self := Ret (patch_min_stale_key_version self);
  stale_keys self version := Ret (patch_stale_keys self version);
  prune := patch_prune;
}.

Module PruningStats.
Record t := mk { target_retained_version : Z; pruned_key_count : nat; deleted_stale_key_versions : Z * Z }.
Definition has_more_work (self : t) : bool :=
  bool_decide (snd (deleted_stale_key_versions self) < target_retained_version self + 1).
End PruningStats.

(** ** The pruner *)
Module MerkleTreePruner.
Section pruner.
Context {DB : Type} `{PruneDatabase DB} (target_pruned_key_count : nat).

Definition last_prunable_version (db : DB) : exec (option Z) :=
  manifest ← manifest db;
  Ret (m ← manifest; checked_sub (Manifest.version_count m) 1).

(** The loop over the versions; the last version seen and the keys. *)
Fixpoint collect (db : DB) (versions : list Z) (max_stale_key_version : Z) (pruned_keys : list NodeKey.t)
    : exec (Z * list NodeKey.t) :=
  match versions with
  | [] => Ret (max_stale_key_version, pruned_keys)
  | version :: versions =>
      keys ← stale_keys db version;
      let pruned_keys := pruned_keys ++ keys in
      if decide (target_pruned_key_count ≤ length pruned_keys)%nat then Ret (version, pruned_keys)
      else collect db versions version pruned_keys
  end.

Definition prune_up_to (target_retained_version : Z) : prog DB () (option PruningStats.t) := λ db,
  min_version ← min_stale_key_version db;
  match min_version with
  | None => Ret (inr None, db)
  | Some min_stale_key_version =>
      last_version ← last_prunable_version db;
      match last_version with
      | None => Ret (inr None, db)
      | Some last_prunable_version =>
          let target_retained_version := Z.min last_prunable_version target_retained_version in
          if decide (target_retained_version < min_stale_key_version) then Ret (inr None, db)
          else
            '(max_stale_key_version, pruned_keys) ←
              collect db (seqZ min_stale_key_version (target_retained_version + 1 - min_stale_key_version)) min_stale_key_version [];
            if decide (pruned_keys = []) then Ret (inr None, db)
            else
              let deleted := (min_stale_key_version, wrap 64 (max_stale_key_version + 1)) in
              let stats := PruningStats.mk target_retained_version (length pruned_keys) deleted in
              '(r, db) ← prune (PrunePatchSet.new pruned_keys deleted) db;
              Ret (match r with inr _ => inr (Some stats) | inl e => inl e end, db)
      end
  end.

(** The pruner's loop until it is aborted, over the targets it reads. *)
Fixpoint run (targets : list Z) : prog DB () () := λ db,
  match targets with
  | [] => Ret (inr (), db)
  | retained_version :: targets =>
      '(r, db) ← prune_up_to retained_version db;
      match r with inl e => Ret (inl e, db) | inr _ => run targets db end
  end.
End pruner.

(** The handle; the pruner that it was for may have stopped. *)
Definition set_target_retained_version (target : option Z) (new_version : Z) : (unit + Z) * option Z :=
  match target with
  | Some version => (inr version, Some (Z.max version new_version))
  | None => (inl (), None)
  end.
End MerkleTreePruner.

(** ** What pruning and updates do to the stale keys *)
Definition prune_storable (p : PrunePatchSet.t) : Prop := Forall key_storable (PrunePatchSet.pruned_node_keys p).

Class PruneDatabaseLaws (DB : Type) `{PruneDatabase DB} `{!DatabaseLaws DB} := {
  (** The versions of the stale keys are numbers of 64 bits. *)
  stale_bounded : DB → Prop;
  prune_returns p (db : DB) : prune_storable p → prune p db ≠ Panic;
  prune_atomic p (db db' : DB) e : prune p db = Ret (inl e, db') → db' = db;
  prune_ok p (db db' : DB) : prune_storable p → prune p db = Ret (inr (), db') → db_ok db → db_ok db';
  prune_manifest p (db db' : DB) : prune_storable p → prune p db = Ret (inr (), db') → manifest db' = manifest db;
  prune_root p (db db' : DB) version :
    prune_storable p → prune p db = Ret (inr (), db') → in_width 64 version →
    root db' version = root db version ∨
    root db' version = Ret None ∧ ∃ key, key ∈ PrunePatchSet.pruned_node_keys p ∧ NodeKey.version key = version ∧ NodeKey.is_empty key = true;
  prune_node p (db db' : DB) key is_leaf :
    prune_storable p → prune p db = Ret (inr (), db') → key_storable key → NodeKey.is_empty key = false →
    tree_node db' key is_leaf = tree_node db key is_leaf ∨
    tree_node db' key is_leaf = Ret None ∧ key ∈ PrunePatchSet.pruned_node_keys p;
  prune_stale p (db db' : DB) version keys :
    prune_storable p → prune p db = Ret (inr (), db') → in_width 64 version → stale_keys db version = Ret keys →
    ∃ keys', stale_keys db' version = Ret keys' ∧ keys' ⊆ keys;
  prune_bounded p (db db' : DB) : prune_storable p → prune p db = Ret (inr (), db') → stale_bounded db → stale_bounded db';
  apply_patch_stale p (db db' : DB) version keys :
    patch_storable p → apply_patch p db = Ret (inr (), db') → in_width 64 version → stale_keys db version = Ret keys →
    ∃ keys', stale_keys db' version = Ret keys' ∧
      keys' ⊆ keys ++ default [] (PatchSet.stale_keys_by_version p !! version);
  apply_patch_bounded p (db db' : DB) : patch_storable p → apply_patch p db = Ret (inr (), db') → stale_bounded db → stale_bounded db';
  min_stale_ok (db : DB) : stale_bounded db → ∃ o, min_stale_key_version db = Ret o ∧ ∀ version, o = Some version → in_width 64 version;
}.

Lemma prune_keys_lookup patches keys version :
  match patches !! version with
  | None => foldl prune_key patches keys !! version = None
  | Some part => ∃ part', foldl prune_key patches keys !! version = Some part' ∧
      (PartialPatchSet.root part' = PartialPatchSet.root part ∨
       PartialPatchSet.root part' = None ∧ ∃ key, key ∈ keys ∧ NodeKey.version key = version ∧ NodeKey.is_empty key = true) ∧
      ∀ key, PartialPatchSet.nodes part' !! key = PartialPatchSet.nodes part !! key ∨
        PartialPatchSet.nodes part' !! key = None ∧ key ∈ keys
  end.
Proof.
  induction keys as [|key keys IH] using rev_ind.
  - cbn. destruct (patches !! version) as [part|]; [|done]. exists part. split; [done|]. split; [by left|]. intros key. by left.
  - rewrite foldl_app. cbn. unfold prune_key at 1 3. destruct (patches !! version) as [part|] eqn:E.
    + destruct IH as (part' & Hp & Hr & Hn). destruct (decide (NodeKey.version key = version)) as [Hv|Hv].
      * rewrite Hv, Hp, lookup_insert_eq. eexists. split; [done|]. destruct (NodeKey.is_empty key) eqn:He; cbn; split.
        -- right. split; [done|]. exists key. split; [set_solver|done].
        -- intros k. destruct (Hn k) as [?|[? ?]]; [by left|right]. split; [done|set_solver].
        -- destruct Hr as [?|(? & k & ? & ?)]; [by left|right]. split; [done|]. exists k. split; [set_solver|done].
        -- intros k. destruct (decide (k = key)) as [->|Hne]; [right; rewrite lookup_delete_eq; split; [done|set_solver]|].
           rewrite lookup_delete_ne by done. destruct (Hn k) as [?|[? ?]]; [by left|right]. split; [done|set_solver].
      * exists part'. assert (Hlk : match foldl prune_key patches keys !! NodeKey.version key with None => foldl prune_key patches keys | Some patch =>
          <[NodeKey.version key := if NodeKey.is_empty key then PartialPatchSet.mk None (PartialPatchSet.nodes patch)
            else PartialPatchSet.mk (PartialPatchSet.root patch) (delete key (PartialPatchSet.nodes patch))]> (foldl prune_key patches keys) end !! version = Some part').
        { destruct (foldl prune_key patches keys !! NodeKey.version key); [by rewrite lookup_insert_ne|done]. }
        split; [exact Hlk|]. split.
        -- destruct Hr as [?|(? & k & ? & ?)]; [by left|right]. split; [done|]. exists k. split; [set_solver|done].
        -- intros k. destruct (Hn k) as [?|[? ?]]; [by left|right]. split; [done|set_solver].
    + destruct (foldl prune_key patches keys !! NodeKey.version key) as [patch|] eqn:Ek; [|done].
      rewrite lookup_insert_ne; [done|]. intros Hv. rewrite Hv in Ek. congruence.
Qed.

Lemma least_found (l : list Z) :
  match foldr (λ version least, Some (match least with None => version | Some least => Z.min version least end)) None l with
  | None => l = []
  | Some v => v ∈ l
  end.
Proof.
  induction l as [|a l IH]; cbn; [done|]. destruct (foldr _ _ l) as [least|]; [|subst; left].
  destruct (decide (a ≤ least)); [rewrite Z.min_l by lia; left|rewrite Z.min_r by lia; by right].
Qed.

#[export] Instance patch_prune_laws : PruneDatabaseLaws PatchSet.t.
Proof.
  unshelve refine {| stale_bounded (db : PatchSet.t) := ∀ version keys, PatchSet.stale_keys_by_version db !! version = Some keys → in_width 64 version |}.
  - intros p db _. cbn. unfold patch_prune. by destruct (PrunePatchSet.deleted_stale_key_versions p).
  - intros p db db' e. cbn. unfold patch_prune. by destruct (PrunePatchSet.deleted_stale_key_versions p).
  - done.
  - intros p db db' _. cbn. unfold patch_prune. destruct (PrunePatchSet.deleted_stale_key_versions p). by intros [= <-].
  - intros p db db' version _. cbn. unfold patch_prune. destruct (PrunePatchSet.deleted_stale_key_versions p). intros [= <-] _.
    unfold root, try_root, patch_database, patch_try_root. cbn.
    pose proof (prune_keys_lookup (PatchSet.patches_by_version db) (PrunePatchSet.pruned_node_keys p) version) as Hp.
    destruct (PatchSet.patches_by_version db !! version) as [part|]; [|rewrite Hp; by left].
    destruct Hp as (part' & -> & Hr & _). cbn. destruct Hr as [-> |(-> & ?)]; [by left|by right].
  - intros p db db' key is_leaf _. cbn. unfold patch_prune. destruct (PrunePatchSet.deleted_stale_key_versions p). intros [= <-] _ _.
    unfold tree_node, try_tree_node, patch_database, patch_try_tree_node. cbn.
    pose proof (prune_keys_lookup (PatchSet.patches_by_version db) (PrunePatchSet.pruned_node_keys p) (NodeKey.version key)) as Hp.
    destruct (PatchSet.patches_by_version db !! NodeKey.version key) as [part|]; [|rewrite Hp; by left].
    destruct Hp as (part' & -> & _ & Hn). cbn. destruct (Hn key) as [-> |(-> & ?)]; [by left|by right].
  - intros p db db' version keys _. cbn. unfold patch_prune. destruct (PrunePatchSet.deleted_stale_key_versions p) as [a b]. intros [= <-] _ [= <-].
    eexists. split; [done|]. unfold patch_stale_keys. cbn.
    destruct (filter (λ '(version, _), ¬ a ≤ version < b) (PatchSet.stale_keys_by_version db) !! version) as [keys|] eqn:E; cbn; [|set_solver].
    apply map_lookup_filter_Some in E as [-> _]. done.
  - intros p db db' _. cbn. unfold patch_prune. destruct (PrunePatchSet.deleted_stale_key_versions p) as [a b]. intros [= <-] Hb version keys Hk.
    cbn in Hk. apply map_lookup_filter_Some in Hk as [Hk _]. by eapply Hb.
  - intros p db db' version keys [Hu _ _ _] Happ _. cbn. intros [= <-]. eexists. split; [done|].
    cbn in Happ. unfold patch_apply_patch, apply_updated_version in Happ. rewrite Hu in Happ. cbn in Happ. injection Happ as <-.
    unfold patch_stale_keys. cbn. rewrite lookup_union_with.
    destruct (PatchSet.stale_keys_by_version db !! version), (PatchSet.stale_keys_by_version p !! version); cbn; set_solver.
  - intros p db db' [Hu _ _ Hst] Happ Hb version keys Hk. cbn in Happ. unfold patch_apply_patch, apply_updated_version in Happ. rewrite Hu in Happ. cbn in Happ. injection Happ as <-.
    cbn in Hk. rewrite lookup_union_with in Hk. destruct (PatchSet.stale_keys_by_version db !! version) eqn:E1; [by eapply Hb|].
    destruct (PatchSet.stale_keys_by_version p !! version) eqn:E2; [by eapply Hst|done].
  - intros db Hb. cbn. eexists. split; [done|]. intros version Hmin. unfold patch_min_stale_key_version in Hmin.
    pose proof (least_found (filter (λ '(_, keys), keys ≠ []) (map_to_list (PatchSet.stale_keys_by_version db))).*1) as Hl. rewrite Hmin in Hl.
    apply list_elem_of_fmap in Hl as ([v keys] & -> & [Hne Hin]%list_elem_of_filter). apply elem_of_map_to_list in Hin. by eapply Hb.
Defined.

(** ** Reachability *)
Section reach.
Context {DB : Type} `{Database DB} `{HashTree}.
Implicit Types (db : DB) (m : treemap).

(** The references below a root, with the positions they lead to. *)
Inductive reach db (root_node : Node.t) : nat → Z → ChildRef.t → Prop :=
| reach_root c d r :
    root_node = Node.Internal c → InternalNode.refs c d = Some r → reach db root_node 1 (16 * 0 + d) r
| reach_step n x r c d r' :
    reach db root_node n x r →
    tree_node db (NodeKey.mk (ChildRef.version r) (of_pos n x)) (ChildRef.is_leaf r) = Ret (Some (Node.Internal c)) →
    InternalNode.refs c d = Some r' → reach db root_node (S n) (16 * x + d) r'.

Lemma reach_pos db root_node n x r : reach db root_node n x r → (0 < n)%nat.
Proof using. induction 1; lia. Qed.

(** In a stored tree, each reference leads to a stored node of its version. *)
Lemma reach_stored db m i root_node n x r :
  stored db 0 m i 0 root_node → reach db root_node n x r →
  pos_ok n x ∧ ChildRef.version r ≤ i ∧ stored_ref db m n x r.
Proof using.
  intros Hst. induction 1 as [c d r -> Hr|n x r c d r' _ (Hpos & Hle & Hge & Hh & node & Ht & Hk & Hs) Ht' Hr'].
  - apply stored_internal in Hst as (_ & Hwf & _ & _ & Hd); [|lia]. pose proof (InternalNode.refs_range _ _ _ Hwf Hr) as Hdr.
    specialize (Hd d Hdr). rewrite Hr in Hd. destruct Hd as [Hle Hs]. split; [|done]. apply Nibbles.pos_ok_child; [lia| |done]. split; cbn; lia.
  - rewrite Ht in Ht'. injection Ht' as ->. pose proof Hpos as [Hn _].
    apply stored_internal in Hs as (Hlt & Hwf & _ & _ & Hd); [|done]. pose proof (InternalNode.refs_range _ _ _ Hwf Hr') as Hdr.
    specialize (Hd d Hdr). rewrite Hr' in Hd. destruct Hd as [Hle' Hs']. split; [by apply Nibbles.pos_ok_child|]. split; [lia|done].
Qed.

(** A tree depends on the nodes that are reachable. *)
Lemma stored_reach db db' m root_node n vmax x node :
  (n ≤ 64)%nat → stored db n m vmax x node →
  (∀ c d r, node = Node.Internal c → InternalNode.refs c d = Some r → reach db root_node (S n) (16 * x + d) r) →
  (∀ n x r, reach db root_node n x r →
    tree_node db' (NodeKey.mk (ChildRef.version r) (of_pos n x)) (ChildRef.is_leaf r) =
    tree_node db (NodeKey.mk (ChildRef.version r) (of_pos n x)) (ChildRef.is_leaf r)) →
  stored db' n m vmax x node.
Proof using.
  intros Hn Hs Hr Hsame. remember (64 - n)%nat as h eqn:Eh. revert n vmax x node Eh Hn Hs Hr.
  induction h as [h IH] using lt_wf_ind. intros n vmax x [c|l] Eh Hn Hs Hr.
  2: { apply stored_leaf; [done|]. by apply stored_leaf in Hs. }
  apply stored_internal in Hs as (Hlt & Hwf & Hc & Hne & Hd); [|done]. apply stored_internal; [done|].
  split_and!; [done..|]. intros d Hdr. specialize (Hd d Hdr). destruct (InternalNode.refs c d) as [r|] eqn:E; [|done].
  destruct Hd as (Hle & Hge & Hh & node' & Ht & Hk & Hs). pose proof (Hr c d r eq_refl E) as Hreach. split; [done|]. split; [done|]. split; [done|].
  exists node'. split; [by rewrite Hsame|]. split; [done|]. refine (IH (64 - S n)%nat _ (S n) _ _ _ eq_refl _ Hs _); [lia|lia|].
  intros c' d' r' -> Hr'. by eapply reach_step.
Qed.
End reach.

Section pruning.
Context {DB : Type} `{PruneDatabase DB} `{!DatabaseLaws DB} `{!PruneDatabaseLaws DB}.
Context `{HashTree} `{!HashTreeLaws} `{Unspecified} `{!UnspecifiedLaws}.
Implicit Types (db : DB) (m : treemap) (vs : list treemap).

(** A key that was replaced in version [u] is of an older version, and the trees from
    [u] on that are kept do not refer to it. *)
Definition stale_key_ok db (lo : nat) vs (u : Z) (key : NodeKey.t) : Prop :=
  0 ≤ NodeKey.version key < u ∧ u < Z.of_nat (length vs) ∧
  ∃ n x, pos_ok n x ∧ NodeKey.nibbles key = of_pos n x ∧
    ∀ i lc root_node r, u ≤ Z.of_nat i → (lo ≤ i < length vs)%nat →
      root db (Z.of_nat i) = Ret (Some (Root.Filled lc root_node)) → reach db root_node n x r →
      ChildRef.version r ≠ NodeKey.version key.

Definition stale_ok db (lo : nat) vs : Prop :=
  stale_bounded db ∧ ∀ u, in_width 64 u → ∃ keys, stale_keys db u = Ret keys ∧ ∀ key, key ∈ keys → stale_key_ok db lo vs u key.

Lemma stale_key_ok_mono db lo lo' vs u key : (lo ≤ lo')%nat → stale_key_ok db lo vs u key → stale_key_ok db lo' vs u key.
Proof using.
  intros Hlo (Hv & Hu & n & x & Hp & Hn & Hr). split; [done|]. split; [done|]. exists n, x. split; [done|]. split; [done|].
  intros i lc rn r Hi Hir. apply Hr; [done|lia].
Qed.

(** *** What the pruner removes *)
Lemma collect_ok (count : nat) db lo vs versions max pruned :
  stale_ok db lo vs → Forall (in_width 64) versions →
  ∃ max' pruned', MerkleTreePruner.collect count db versions max pruned = Ret (max', pruned') ∧
    ∀ key, key ∈ pruned' → key ∈ pruned ∨ ∃ u, u ∈ versions ∧ stale_key_ok db lo vs u key.
Proof using.
  intros Hst Hw. revert max pruned. induction Hw as [|u versions Hu _ IH]; intros max pruned; cbn.
  - eexists _, _. split; [done|]. auto.
  - destruct (proj2 Hst u Hu) as (keys & -> & Hkeys). cbn. case_decide.
    + eexists _, _. split; [done|]. intros key [?|Hin]%elem_of_app; [by left|right]. exists u. split; [left|by apply Hkeys].
    + destruct (IH u (pruned ++ keys)) as (max' & pruned' & -> & Hp). eexists _, _. split; [done|]. intros key Hk.
      destruct (Hp key Hk) as [[?|Hin]%elem_of_app|(u' & Hu' & ?)]; [by left|right; exists u; split; [left|by apply Hkeys]|right].
      exists u'. split; [by right|done].
Qed.

Lemma represents_mono db lo lo' vs : (lo ≤ lo' ≤ Nat.pred (length vs))%nat → represents db lo vs → represents db lo' vs.
Proof using. intros Hlo [Hok _ Hman Hvs]. split; [done|lia|done|]. intros i m Hi. apply Hvs. lia. Qed.

Lemma version_filled db i m lc node :
  version_stored db i m → root db i = Ret (Some (Root.Filled lc node)) → stored db 0 m i 0 node.
Proof using. intros [[_ Hr]|(_ & node' & Hr & Hst)] Hr'; rewrite Hr in Hr'; [done|]. injection Hr' as _ <-. done. Qed.

Section pruned.
Context db db' (lo : nat) vs (t : Z) (p : PrunePatchSet.t).
Context (Hrep : represents db lo vs) (Hprune : prune p db = Ret (inr (), db')).
Context (Hkeys : ∀ key, key ∈ PrunePatchSet.pruned_node_keys p → ∃ u, u ≤ t ∧ stale_key_ok db lo vs u key).

Lemma pruned_storable : prune_storable p.
Proof using Hrep Hkeys.
  apply Forall_forall. intros key Hk. destruct (Hkeys key Hk) as (u & _ & Hv & Hu & n & x & Hpos & Hnib & _).
  pose proof (rp_manifest _ _ _ Hrep) as (man & _ & Hc & [[_ Hw] _]). split; [split; lia|]. by exists n, x.
Qed.

(** A tree that is kept is not affected. *)
Lemma pruned_root i m : (lo ≤ i)%nat → t ≤ Z.of_nat i → vs !! i = Some m → root db' (Z.of_nat i) = root db (Z.of_nat i).
Proof using All.
  intros Hlo Ht Hi. pose proof (rp_manifest _ _ _ Hrep) as (man & _ & Hc & [[_ Hw] _]). pose proof (lookup_lt_Some _ _ _ Hi).
  destruct (prune_root p db db' (Z.of_nat i) pruned_storable Hprune) as [?|(_ & key & Hk & Hv & _)]; [split; lia|done|].
  destruct (Hkeys key Hk) as (u & Hu & [_ Hver] & _). lia.
Qed.

Lemma pruned_node i m lc root_node n x r :
  (lo ≤ i)%nat → t ≤ Z.of_nat i → vs !! i = Some m → root db (Z.of_nat i) = Ret (Some (Root.Filled lc root_node)) →
  reach db root_node n x r →
  tree_node db' (NodeKey.mk (ChildRef.version r) (of_pos n x)) (ChildRef.is_leaf r) =
  tree_node db (NodeKey.mk (ChildRef.version r) (of_pos n x)) (ChildRef.is_leaf r).
Proof using All.
  intros Hlo Ht Hi Hroot Hreach. pose proof (rp_manifest _ _ _ Hrep) as (man & _ & Hc & [[_ Hw] _]). pose proof (lookup_lt_Some _ _ _ Hi).
  destruct (rp_version _ _ _ Hrep i m Hlo Hi) as (_ & _ & Hst). pose proof (version_filled _ _ _ _ _ Hst Hroot) as Hs.
  destruct (reach_stored _ _ _ _ _ _ _ Hs Hreach) as (Hpos & Hle & Hge & _). pose proof (reach_pos _ _ _ _ _ Hreach).
  destruct (prune_node p db db' (NodeKey.mk (ChildRef.version r) (of_pos n x)) (ChildRef.is_leaf r) pruned_storable Hprune) as [?|(_ & Hk)]; [| |done|].
  - split; [split; cbn; lia|]. by exists n, x.
  - apply bool_decide_false. change (n ≠ 0%nat). lia.
  - destruct (Hkeys _ Hk) as (u & Hu & _ & _ & n' & x' & Hpos' & Hnib & Hnr). cbn in Hnib. exfalso.
    pose proof (f_equal Nibbles.nibble_count Hnib) as Hn. change (n = n') in Hn. subst n'.
    apply (f_equal Nibbles.bytes), Nibbles.of_pos_inj in Hnib; [|done..]. subst x'.
    by apply (Hnr i lc root_node r); [lia|lia|done|done|].
Qed.

Lemma pruned_represents : 0 ≤ t < Z.of_nat (length vs) → represents db' (Nat.max lo (Z.to_nat t)) vs.
Proof using All.
  intros Ht. pose proof Hrep as [Hok Hlo (man & Hman & Hc & Hsto) Hvs]. split; [by eapply prune_ok; [apply pruned_storable|..]| | |].
  - lia.
  - exists man. split; [|done]. by rewrite (prune_manifest _ _ _ pruned_storable Hprune).
  - intros i m Hi Him. destruct (Hvs i m ltac:(lia) Him) as (? & ? & Hst). split_and!; [done..|].
    unfold version_stored. rewrite (pruned_root i m) by (done || lia). destruct Hst as [?|(? & node & Hr & Hs)]; [by left|right].
    split; [done|]. exists node. split; [done|]. eapply (stored_reach db db' m node); [lia|done| |].
    + intros c d r -> Hrf. by apply (reach_root _ _ c).
    + intros n x r Hreach. eapply (pruned_node i m); [lia|lia|done|done|done].
Qed.

Lemma pruned_reach i m lc root_node n x r :
  (lo ≤ i)%nat → t ≤ Z.of_nat i → vs !! i = Some m → root db (Z.of_nat i) = Ret (Some (Root.Filled lc root_node)) →
  reach db' root_node n x r → reach db root_node n x r.
Proof using All.
  intros Hlo Ht Hi Hroot. induction 1 as [c d r -> Hr|n x r c d r' _ IH Htn Hr'].
  - by apply (reach_root _ _ c).
  - rewrite (pruned_node i m lc root_node n x r Hlo Ht Hi Hroot IH) in Htn. by eapply reach_step.
Qed.

Lemma pruned_stale : 0 ≤ t → stale_ok db lo vs → stale_ok db' (Nat.max lo (Z.to_nat t)) vs.
Proof using All.
  intros Ht [Hb Hst]. split; [by eapply prune_bounded; [apply pruned_storable|..]|]. intros u Hw.
  destruct (Hst u Hw) as (keys & Hk & Hok). destruct (prune_stale p db db' u keys pruned_storable Hprune Hw Hk) as (keys' & Hk' & Hsub).
  exists keys'. split; [done|]. intros key Hin. destruct (Hok key (Hsub _ Hin)) as (Hv & Hu & n & x & Hpos & Hnib & Hnr).
  split; [done|]. split; [done|]. exists n, x. split; [done|]. split; [done|]. intros i lc rn r Hui Hir Hroot Hreach.
  destruct (lookup_lt_is_Some_2 vs i ltac:(lia)) as [m Hi].
  rewrite (pruned_root i m) in Hroot by (done || lia). eapply (Hnr i lc rn r); [done|lia|done|]. eapply (pruned_reach i m); [lia|lia|done..].
Qed.
End pruned.

(** Pruning up to a version keeps the trees from that version on, as long as no
    version was reverted; at least the latest version is kept. *)
Lemma prune_up_to_ok (count : nat) db lo vs (target : Z) :
  represents db lo vs → stale_ok db lo vs →
  ∃ r db', MerkleTreePruner.prune_up_to count target db = Ret (r, db') ∧
    match r with
    | inl e => db' = db ∧ ∃ patch, prune_storable patch ∧ prune patch db = Ret (inl e, db)
    | inr _ =>
        let lo' := Nat.max lo (Z.to_nat (Z.min (Z.of_nat (length vs) - 1) target)) in
        represents db' lo' vs ∧ stale_ok db' lo' vs
    end.
Proof using All.
  intros Hrep Hst. set (lo' := Nat.max lo _). pose proof Hrep as [_ Hlo (man & Hman & Hc & _) _].
  assert (Hsame : represents db lo' vs ∧ stale_ok db lo' vs).
  { split; [eapply represents_mono; [|done]; unfold lo'; lia|]. split; [apply Hst|].
    intros u Hu. destruct (proj2 Hst u Hu) as (keys & ? & Hk). exists keys. split; [done|]. intros key Hin. eapply stale_key_ok_mono; [|by apply Hk]. lia. }
  unfold MerkleTreePruner.prune_up_to. destruct (min_stale_ok db (proj1 Hst)) as (o & -> & Hmin).
  cbn [mbind exec_bind]. destruct o as [u0|]; [|by eexists _, _]. unfold MerkleTreePruner.last_prunable_version. rewrite Hman. cbn [mbind exec_bind].
  destruct (man ≫= λ m0 : Manifest.t, checked_sub (Manifest.version_count m0) 1) as [last|] eqn:Elast; [|by eexists _, _].
  assert (Hlast : last = Z.of_nat (length vs) - 1 ∧ 0 ≤ last).
  { destruct man as [man|]; [|done]. cbn in Elast, Hc. unfold checked_sub in Elast. case_decide; [|done]. injection Elast as <-. lia. }
  destruct Hlast as [-> Hlast]. case_decide as Hrange; [by eexists _, _|]. set (t := Z.min _ target) in *.
  assert (Hw : Forall (in_width 64) (seqZ u0 (t + 1 - u0))).
  { apply Forall_forall. intros u Hu%elem_of_seqZ. destruct (Hmin u0 eq_refl). destruct (rp_manifest _ _ _ Hrep) as (man' & Hman' & Hc' & [[_ Hw] _]).
    rewrite Hc' in Hw. unfold t in *. split; lia. }
  destruct (collect_ok count db lo vs (seqZ u0 (t + 1 - u0)) u0 [] Hst Hw) as (max & pruned & -> & Hp). cbn [mbind exec_bind].
  case_decide as Hnil; [by eexists _, _|]. set (p := PrunePatchSet.new _ _).
  assert (Hkeys : ∀ key, key ∈ PrunePatchSet.pruned_node_keys p → ∃ u, u ≤ t ∧ stale_key_ok db lo vs u key).
  { intros key Hk. destruct (Hp key Hk) as [Hn|(u & Hu & ?)]; [by apply not_elem_of_nil in Hn|]. exists u. apply elem_of_seqZ in Hu. split; [lia|done]. }
  assert (Ht : 0 ≤ t < Z.of_nat (length vs)).
  { destruct pruned as [|key pruned]; [done|]. destruct (Hkeys key ltac:(left)) as (u & Hu & Hv0 & _). unfold t in *. lia. }
  destruct (prune p db) as [[r db']|] eqn:Hprune; [|by apply prune_returns in Hprune; [|eapply pruned_storable]]. cbn [mbind exec_bind].
  eexists _, _. split; [done|]. destruct r as [e|[]].
  { pose proof (prune_atomic _ _ _ _ Hprune) as ->. split; [done|]. exists p. split; [by eapply pruned_storable|done]. }
  split.
  - by eapply (pruned_represents db db' lo vs t p).
  - eapply (pruned_stale db db' lo vs t p); [done|done|done|lia|done].
Qed.

(** *** Updates *)
(** The references of the latest version. *)
Definition latest_refs db vs : OldRefs := λ n x r,
  ∃ lc root_node, root db (Z.of_nat (length vs) - 1) = Ret (Some (Root.Filled lc root_node)) ∧ reach db root_node n x r.

Lemma latest_refs_root db vs : old_root (OR := latest_refs db vs) db vs.
Proof using. intros lc c d r Hr Hd. exists lc, (Node.Internal c). split; [done|]. by apply (reach_root _ _ c). Qed.

Lemma latest_refs_closed db vs : old_closed (OR := latest_refs db vs) db.
Proof using. intros n x r c d r' (lc & rn & Hr & Hreach) Ht Hd. exists lc, rn. split; [done|]. by eapply reach_step. Qed.

Section extended.
Context db db' vs (W : WorkingPatchSet.t) m (man : Manifest.t) (patch : PatchSet.t) (nodes : gmap NodeKey.t Node.t) (root_node : option Root.t).
Let v := Z.of_nat (length vs).
#[local] Existing Instance latest_refs.
Context (Hw : wok (OR := latest_refs db vs) db v W m (λ _ _, False)).
Context (Hman : manifest_storable man) (Hcount : Manifest.version_count man = v + 1) (Hlc : Z.of_nat (size m) < 2 ^ 64).
Context (Hpatch : patch_fits patch db) (Happ : apply_patch patch db = Ret (inr (), db')) (Hpman : PatchSet.manifest patch = man)
  (Hv : in_width 64 v) (Honly : ∀ version, version ≠ v → PatchSet.patches_by_version patch !! version = None).
Context (Hpart : PatchSet.patches_by_version patch !! v = Some (PartialPatchSet.mk root_node nodes))
  (Hnodes : patched_ok v W m 0 (λ _, False) nodes).

(** A reference of the new version leads to a node of the working set, or to one of the
    version before that was not loaded. *)
Definition new_ref (n : nat) (x : Z) (r : ChildRef.t) : Prop :=
  (ChildRef.version r = v ∧ ∃ w, view W n x = Some w ∧ Node.is_leaf (WorkingNode.inner w) = ChildRef.is_leaf r) ∨
  (ChildRef.version r < v ∧ view W n x = None ∧ stored_ref db m n x r ∧ latest_refs db vs n x r).

Lemma new_ref_child n x w c' d r :
  view W n x = Some w → hashed m (loaded W (S n)) n x (WorkingNode.inner w) (Node.Internal c') → InternalNode.refs c' d = Some r →
  new_ref (S n) (16 * x + d) r.
Proof using Hw.
  intros Hx Hh Hr. pose proof (w_sinv _ _ _ _ _ Hw) as Hs.
  assert (Hni : node_inv db v (view W) m (λ _ _, False) n x (WorkingNode.inner w)) by (apply (s_node _ _ _ _ _ Hs); unfold vget; by rewrite Hx).
  unfold hashed in Hh. destruct (WorkingNode.inner w) as [c|]; [|done]. destruct Hni as (_ & _ & _ & Hd), Hh as (Hwf & Hin & Hout).
  specialize (Hd d (InternalNode.refs_range _ _ _ Hwf Hr)). unfold child_inv, vget in Hd. unfold loaded in Hin, Hout. unfold new_ref.
  destruct (view W (S n) (16 * x + d)) as [wc|] eqn:E; cbn [fmap option_fmap option_map] in Hd.
  - rewrite Hin in Hr by (rewrite E; by eexists). destruct (InternalNode.refs c d) as [r0|]; [|done]. injection Hr as <-.
    left. destruct Hd as (_ & Hk & [Hver|[]]). split; [done|]. by exists wc.
  - rewrite Hout in Hr by (rewrite E; by intros [? ?]). rewrite Hr in Hd. right. by destruct Hd as (_ & ? & ? & _ & ?).
Qed.

Lemma new_reach w root' n x r :
  view W 0 0 = Some w → hashed m (loaded W 1) 0 0 (WorkingNode.inner w) root' → reach db' (Node.clone root') n x r →
  pos_ok n x ∧ new_ref n x r.
Proof using All.
  intros Hx Hh. pose proof (w_sinv _ _ _ _ _ Hw) as Hs. induction 1 as [c d r Hroot Hr|n x r c d r' Hreach [Hpos IH] Ht Hr].
  - destruct root' as [c'|]; [|done]. injection Hroot as <-. change (InternalNode.refs c' d = Some r) in Hr. split; [|by eapply new_ref_child].
    unfold hashed in Hh. destruct (WorkingNode.inner w); [|done]. apply Nibbles.pos_ok_child; [lia|split; cbn; lia|].
    eapply InternalNode.refs_range; [apply Hh|done].
  - pose proof (reach_pos _ _ _ _ _ Hreach). destruct n as [|n]; [lia|]. destruct IH as [(Hver & w' & Hx' & Hk)|(Hver & Hx' & Hst & Hold)].
    + destruct (node_new db v W m man Hw Hman Hcount Hlc db' patch Hpatch Happ Hpman Hv Honly nodes root_node Hpart Hnodes n x Hpos ltac:(by exists w'))
        as (w2 & node & Hx2 & Hh2 & Ht2).
      rewrite Hx2 in Hx'. injection Hx' as ->. rewrite Hver, <-Hk, <-(hashed_kind _ _ _ _ _ _ Hh2), Ht2 in Ht.
      destruct node as [c'|]; [|done]. injection Ht as <-. change (InternalNode.refs c' d = Some r') in Hr. split; [|by eapply new_ref_child].
      assert (Hni : node_inv db v (view W) m (λ _ _, False) (S n) x (WorkingNode.inner w')) by (apply (s_node _ _ _ _ _ Hs); unfold vget; by rewrite Hx2).
      unfold hashed in Hh2. destruct (WorkingNode.inner w'); [|done]. destruct Hni as (? & _).
      apply Nibbles.pos_ok_child; [lia|done|]. eapply InternalNode.refs_range; [apply Hh2|done].
    + pose proof Hst as (Hge & _ & node & Ht0 & _ & Hs0). destruct Hv.
      rewrite (node_kept db db' v man patch) in Ht; [|lia|done|done|done|lia|intros ? ?; apply Honly; lia|split; [split; cbn; lia|by exists (S n), x]|done|done].
      rewrite Ht in Ht0. injection Ht0 as <-. pose proof Hpos as [Hn _].
      apply stored_internal in Hs0 as (Hlt & Hwf & _ & _ & Hd); [|done]. pose proof (InternalNode.refs_range _ _ _ Hwf Hr) as Hdr.
      specialize (Hd d Hdr). rewrite Hr in Hd. destruct Hd as [Hle Hst']. split; [by apply Nibbles.pos_ok_child|]. right. split; [lia|]. split; [|split].
      * destruct (view W (S (S n)) (16 * x + d)) as [wc|] eqn:E; [|done]. destruct (s_parent _ _ _ _ _ Hs (S n) (16 * x + d) (WorkingNode.inner wc)) as [c0 Hc0].
        { unfold vget. by rewrite E. }
        rewrite <-(Z.div_unique_pos _ 16 x d Hdr eq_refl) in Hc0. unfold vget in Hc0. by rewrite Hx' in Hc0.
      * done.
      * by eapply latest_refs_closed.
Qed.
End extended.

(** The versions before keep their references. *)
Lemma old_reach db db' (v : Z) man patch (i : Z) m root_node n x r :
  v ≤ Manifest.version_count man → patch_fits patch db → apply_patch patch db = Ret (inr (), db') → PatchSet.manifest patch = man → v ≤ 2 ^ 64 →
  (∀ version, version < v → PatchSet.patches_by_version patch !! version = None) →
  i < v → stored db 0 m i 0 root_node → reach db' root_node n x r → reach db root_node n x r.
Proof using All.
  intros Hcount Hpatch Happ Hpman Hv Honly Hi Hst. induction 1 as [c d r -> Hr|n x r c d r' _ IH Htn Hr'].
  - by apply (reach_root _ _ c).
  - pose proof (reach_pos _ _ _ _ _ IH). destruct (reach_stored _ _ _ _ _ _ _ Hst IH) as (Hpos & Hle & Hge & _).
    rewrite (node_kept db db' v man patch) in Htn; [by eapply reach_step|done..| | |cbn; lia].
    + split; [split; cbn; lia|]. by exists n, x.
    + apply bool_decide_false. change (n ≠ 0%nat). lia.
Qed.

Lemma extended_stale db db' lo vs m' W' man patch :
  let v := Z.of_nat (length vs) in
  represents db lo vs → stale_ok db lo vs → in_width 64 v → represents db' lo (vs ++ [m']) →
  wok (OR := latest_refs db vs) db v W' m' (λ _ _, False) → Manifest.version_count man = v + 1 →
  apply_patch patch db = Ret (inr (), db') → patch_storable patch →
  (m' = ∅ ∧ patch = PatchSet.for_empty_root man v ∨ m' ≠ ∅ ∧ finalized v W' m' man (Z.of_nat (size m')) patch) →
  stale_ok db' lo (vs ++ [m']).
Proof using All.
  intros v Hrep Hst Hv Hrep' Hw Hcount Happ Hsto Hp.
  assert (Hparts : PatchSet.manifest patch = man ∧ ∃ part, PatchSet.patches_by_version patch = {[v := part]}).
  { destruct Hp as [[_ ->]|(_ & ? & ? & ? & ? & _ & _ & _ & _ & ->)]; by split; [|eexists]. }
  destruct Hparts as (Hpman & part & Hparts). pose proof (storable_manifest _ Hsto) as Hms. rewrite Hpman in Hms.
  assert (Honly : ∀ version, version ≠ v → PatchSet.patches_by_version patch !! version = None).
  { intros version Hne. by rewrite Hparts, lookup_singleton_ne. }
  assert (Hfits : patch_fits patch db) by (eapply next_version_fits; [done|done|by rewrite Hpman|done]).
  assert (Hlen : length (vs ++ [m']) = S (length vs)) by (rewrite length_app; cbn; lia).
  (* the new version *)
  assert (Hnew : ∀ lc rn n x r, root db' v = Ret (Some (Root.Filled lc rn)) → reach db' rn n x r →
    new_ref db vs W' m' n x r).
  { destruct (rp_version _ _ _ Hrep' (length vs) m') as (_ & Hsize & _); [pose proof (rp_lo _ _ _ Hrep); lia|by rewrite lookup_app_r, Nat.sub_diag by lia|].
    intros lc rn n x r Hroot Hreach. pose proof (apply_patch_root patch db db' v Hfits Happ) as Hr. rewrite Hpman, Hcount, Hparts, lookup_singleton_eq in Hr.
    rewrite Hr in Hroot by lia. destruct Hp as [[_ ->]|(_ & w & root_node & nodes & stale & Hx & Hh & Hpt & _ & ->)];
      cbn in Hparts; apply (f_equal (.!! v)) in Hparts; rewrite !lookup_singleton_eq in Hparts; injection Hparts as <-; [done|].
    injection Hroot as _ <-. eapply (new_reach db db' vs W' m' man); [exact Hw|done..|cbn; by rewrite lookup_singleton_eq|done|done|done|done]. }
  (* the versions before *)
  assert (Hold : ∀ i lc rn n x r, (lo ≤ i < length vs)%nat → root db' (Z.of_nat i) = Ret (Some (Root.Filled lc rn)) → reach db' rn n x r →
    root db (Z.of_nat i) = Ret (Some (Root.Filled lc rn)) ∧ reach db rn n x r).
  { intros i lc rn n x r Hi Hroot Hreach. destruct (lookup_lt_is_Some_2 vs i ltac:(lia)) as [m Hm].
    pose proof (apply_patch_root patch db db' (Z.of_nat i) Hfits Happ) as Hr. rewrite Hpman, Hcount, Honly in Hr by lia. rewrite Hr in Hroot by lia.
    split; [done|]. destruct (rp_version _ _ _ Hrep i m ltac:(lia) Hm) as (_ & _ & Hs). destruct Hv.
    eapply (old_reach db db' v man patch (Z.of_nat i) m); [lia|done..|lia| |lia|by eapply version_filled|done]. intros ? ?. apply Honly. lia. }
  split; [by eapply apply_patch_bounded; [..|apply Hst]|]. intros u Hwu.
  destruct (proj2 Hst u Hwu) as (keys & Hk & Hok). destruct (apply_patch_stale patch db db' u keys Hsto Happ Hwu Hk) as (keys' & Hk' & Hsub).
  exists keys'. split; [done|]. intros key Hin. apply Hsub, elem_of_app in Hin as [Hin|Hin].
  - destruct (Hok key Hin) as (Hver & Hu & n & x & Hpos & Hnib & Hnr). split; [done|]. split; [lia|]. exists n, x. split; [done|]. split; [done|].
    intros i lc rn r Hui Hi Hroot Hreach. destruct (decide (i < length vs)%nat) as [Hlt|Hge].
    + destruct (Hold i lc rn n x r ltac:(lia) Hroot Hreach). by eapply (Hnr i); [|lia|..].
    + replace (Z.of_nat i) with v in Hroot by (unfold v; lia). destruct (Hnew lc rn n x r Hroot Hreach) as [[-> _]|(_ & _ & _ & lc0 & rn0 & Hr0 & Hreach0)]; [unfold v; lia|].
      replace (Z.of_nat (length vs) - 1) with (Z.of_nat (length vs - 1)) in Hr0 by lia. pose proof (rp_lo _ _ _ Hrep).
      by eapply (Hnr (length vs - 1)%nat); [lia|lia|..].
  - assert (Hkey : u = v ∧ ∃ n x, pos_ok n x ∧ NodeKey.nibbles key = of_pos n x ∧ 0 ≤ NodeKey.version key < v ∧
      (n = 0%nat ∨ is_Some (view W' n x))).
    { destruct Hp as [[_ ->]|(_ & w & root_node & nodes & stale & _ & _ & _ & Hstale & ->)]; cbn in Hin;
        (destruct (decide (u = v)) as [->|Hne]; [rewrite lookup_singleton_eq in Hin|rewrite lookup_singleton_ne in Hin by done; by apply not_elem_of_nil in Hin]);
        (split; [done|]); cbn [default] in Hin.
      - unfold checked_sub in Hin. case_decide; [|by apply not_elem_of_nil in Hin]. apply list_elem_of_singleton in Hin as ->.
        exists 0%nat, 0. split; [split; cbn; lia|]. split; [done|]. split; [cbn; lia|by left].
      - destruct (Hstale key Hin) as (n & x & w' & p & Hx & Hprev & ->). exists n, x. split; [by eapply view_pos_ok|]. split; [done|].
        split; [by eapply (w_prev _ _ _ _ _ Hw)|]. right. by exists w'. }
    destruct Hkey as (-> & n & x & Hpos & Hnib & Hver & Hx). split; [done|]. split; [unfold v; lia|]. exists n, x. split; [done|]. split; [done|].
    intros i lc rn r Hui Hi Hroot Hreach. replace (Z.of_nat i) with v in Hroot by (unfold v in *; lia). pose proof (reach_pos _ _ _ _ _ Hreach).
    destruct (Hnew lc rn n x r Hroot Hreach) as [[-> _]|(_ & Hnone & _)]; [unfold v in *; lia|]. destruct Hx as [->|[? Hx]]; [lia|congruence].
Qed.

(** An update keeps the stale keys as the pruner needs them. *)
Lemma extend_stale_ok db lo vs entries :
  let m' := insert_entries (latest vs) entries in
  represents db lo vs → Forall entry_valid entries → in_width 64 (Z.of_nat (length vs) + 1) →
  Z.of_nat (size (latest vs)) + Z.of_nat (length entries) < 2 ^ 64 →
  ∃ r db', MerkleTree.extend entries db = Ret (r, db') ∧
    match r with
    | inl e => db' = db ∧ ∃ patch, patch_storable patch ∧ apply_patch patch db = Ret (inl e, db)
    | inr output =>
        represents db' lo (vs ++ [m']) ∧ output = BlockOutput.mk (tree_hash m') (Z.of_nat (size m')) (logs_of (latest vs) entries) ∧
        (stale_ok db lo vs → stale_ok db' lo (vs ++ [m']))
    end.
Proof using All.
  intros m' Hrep Hval Hwidth Hsize.
  destruct (extend_step (OR := latest_refs db vs) db lo vs entries) as (r & db' & Hr & Hres); [done|apply latest_refs_root|apply latest_refs_closed|done..|].
  exists r, db'. split; [done|]. destruct r as [|output]; [done|]. destruct Hres as (Hrep' & Hout & W' & man & patch & Hw & Hcount & Happ & Hsto & Hp).
  split; [done|]. split; [done|]. intros Hst. eapply extended_stale; [exact Hrep|done| |done|exact Hw|done..]. destruct Hwidth. split; lia.
Qed.
End pruning.
