(* ===== verification/MerkleSerialization.v ===== *)
(** * Serialization of the tree's nodes

    [lib/merkle_tree/src/storage/serialization.rs]. A [serialize] is the bytes that it
    appends to its buffer; a [deserialize] that advances its slice is a [prog] over
    the bytes that are left. What is storable is read back as it was written, and
    what is read from any bytes is well-formed. LEB128 is the crate [leb128]. *)
From Stdlib Require Import ZifyNat.
From S2P Require Import Prelude SmallMap MerkleTypes.
Local Open Scope Z_scope.

(** ** The crate [leb128] *)
Class Leb128Crate := {
  leb128_write : Z → list byte;
  leb128_read : list byte → option (Z * list byte);
}.
Class Leb128Laws `{Leb128Crate} : Prop := {
  leb128_roundtrip n rest : in_width 64 n → leb128_read (leb128_write n ++ rest) = Some (n, rest);
  leb128_length n : in_width 64 n → (1 ≤ length (leb128_write n) ≤ 10)%nat;
  leb128_range bs n rest : leb128_read bs = Some (n, rest) → in_width 64 n;
}.

(** The order in which the standard library iterates over the [HashMap] of tags. *)
Class TagsOrder := custom_iter : gmap (list byte) (list byte) → list (list byte * list byte).
Class TagsOrderLaws `{TagsOrder} : Prop := custom_iter_perm tags : custom_iter tags ≡ₚ map_to_list tags.

(** ** Numbers in tags *)
Definition digit_byte (d : Z) : byte := Z_to_byte (48 + d).
Definition byte_digit (b : byte) : option Z :=
  if decide (48 ≤ byte_to_Z b ≤ 57) then Some (byte_to_Z b - 48) else None.

(** [usize::to_string]; 20 digits are enough. *)
Fixpoint decimal (fuel : nat) (z : Z) : list byte :=
  match fuel with
  | O => []
  | S fuel => if decide (z < 10) then [digit_byte z] else decimal fuel (z / 10) ++ [digit_byte (z mod 10)]
  end.
Definition usize_to_string (z : Z) : list byte := decimal 20 z.

(** [str::parse::<usize>] *)
Definition parse_digit (acc : option Z) (b : byte) : option Z :=
  a ← acc; d ← byte_digit b;
  let r := a * 10 + d in if decide (r < 2 ^ 64) then Some r else None.
Definition parse_usize (s : list byte) : option Z :=
  let digits := match s with b :: (_ :: _) as s' => if decide (b = "+"%byte) then s' else s | _ => s end in
  if decide (digits = []) then None else foldl parse_digit (Some 0) digits.
Definition parse_bool (s : list byte) : option bool :=
  if decide (s = bytes "true") then Some true else if decide (s = bytes "false") then Some false else None.

Section serialization.
Context `{Leb128Crate} `{TagsOrder}.

(** [leb128::read::unsigned] on the slice, with the error as the caller maps it. *)
Definition read_unsigned (err : DeserializeError.t) : prog (list byte) DeserializeError.t Z := λ bytes,
  match leb128_read bytes with Some (n, rest) => Ret (inr n, rest) | None => Ret (inl err, bytes) end.

(** ** Leaves *)
Definition leaf_deserialize (bytes : list byte) : exec (DeserializeError.t + LeafNode.t) :=
  if decide (length bytes < KEY_SIZE + HASH_SIZE)%nat then Ret (inl (DeserializeError.from UnexpectedEof))
  else
    let full_key := from_be_bytes (take KEY_SIZE bytes) in
    let value_hash := from_be_bytes (take HASH_SIZE (drop KEY_SIZE bytes)) in
    '(r, _) ← (leaf_index ← read_unsigned (kind_with_context Leb128 CtxLeafIndex);
               mret (LeafNode.mk full_key value_hash leaf_index)) (drop (KEY_SIZE + HASH_SIZE) bytes);
    Ret r.

Definition leaf_serialize (self : LeafNode.t) : list byte :=
  to_be_bytes KEY_SIZE (LeafNode.full_key self) ++ to_be_bytes HASH_SIZE (LeafNode.value_hash self) ++
  leb128_write (LeafNode.leaf_index self).

(** ** Internal nodes *)
Inductive ChildKind := KindNone | KindInternal | KindLeaf.
Definition ChildKind_MASK : Z := 3.
Definition ChildKind_repr (self : ChildKind) : Z := match self with KindNone => 0 | KindInternal => 1 | KindLeaf => 2 end.

Definition ChildKind_deserialize (bitmap_chunk : Z) : DeserializeError.t + ChildKind :=
  if decide (bitmap_chunk = 0) then inr KindNone
  else if decide (bitmap_chunk = 1) then inr KindInternal
  else if decide (bitmap_chunk = 2) then inr KindLeaf
  else inl (DeserializeError.from InvalidChildKind).

Definition ref_deserialize (is_leaf : bool) : prog (list byte) DeserializeError.t ChildRef.t := λ buffer,
  if decide (length buffer < HASH_SIZE)%nat then Ret (inl (kind_with_context UnexpectedEof CtxChildRefHash), buffer)
  else
    let hash := from_be_bytes (take HASH_SIZE buffer) in
    (version ← read_unsigned (kind_with_context Leb128 CtxVersion); mret (ChildRef.mk hash version is_leaf)) (drop HASH_SIZE buffer).

Definition ref_serialize (self : ChildRef.t) : list byte :=
  to_be_bytes HASH_SIZE (ChildRef.hash self) ++ leb128_write (ChildRef.version self).

Definition ref_kind (self : ChildRef.t) : ChildKind := if ChildRef.is_leaf self then KindLeaf else KindInternal.

(** The body of the loop over the 16 nibbles. *)
Definition deserialize_child (st : InternalNode.t * Z) (i : Z) : prog (list byte) DeserializeError.t (InternalNode.t * Z) :=
  let '(this, bitmap) := st in
  kind ← of_result (ChildKind_deserialize (Z.land bitmap ChildKind_MASK));
  this ← match kind with
         | KindNone => mret this
         | KindInternal => child_ref ← ref_deserialize false; lift_exec (InternalNode.insert_child_ref this i child_ref)
         | KindLeaf => child_ref ← ref_deserialize true; lift_exec (InternalNode.insert_child_ref this i child_ref)
         end;
  mret (this, Z.shiftr bitmap 2).

Definition internal_deserialize (bytes : list byte) : exec (DeserializeError.t + InternalNode.t) :=
  if decide (length bytes < 4)%nat then Ret (inl (kind_with_context UnexpectedEof CtxChildrenMask))
  else
    let bitmap := from_be_bytes (reverse (take 4 bytes)) in
    if decide (bitmap = 0) then Ret (inl (DeserializeError.from EmptyInternalNode))
    else
      let child_count := count_ones 32 bitmap in
      this ← InternalNode.with_capacity child_count;
      '(r, _) ← (st ← foldP deserialize_child (this, bitmap) (seqZ 0 (Z.of_nat InternalNode.CHILD_COUNT)); mret st.1) (drop 4 bytes);
      Ret r.

Definition children_bitmap (self : InternalNode.t) : Z :=
  foldl (λ bitmap '(i, child_ref), Z.lor bitmap (Z.shiftl (ChildKind_repr (ref_kind child_ref)) (2 * i)))
    0 (SmallMap.iter (InternalNode.children self)).

Definition internal_serialize (self : InternalNode.t) : list byte :=
  reverse (to_be_bytes 4 (children_bitmap self)) ++ concat (ref_serialize <$> InternalNode.child_refs self).

(** ** Roots *)
Definition node_serialize (self : Node.t) : list byte :=
  match self with Node.Internal node => internal_serialize node | Node.Leaf leaf => leaf_serialize leaf end.

Definition root_deserialize (bytes : list byte) : exec (DeserializeError.t + Root.t) :=
  match leb128_read bytes with
  | None => Ret (inl (kind_with_context Leb128 CtxLeafCount))
  | Some (leaf_count, bytes) =>
      if decide (leaf_count = 0) then Ret (inr Root.Empty)
      else
        node ← if decide (leaf_count = 1) then
                 leaf ← leaf_deserialize bytes;
                 match leaf with
                 | inr leaf => Ret (inr (Node.Leaf leaf))
                 | inl _ => node ← internal_deserialize bytes; Ret (node ← node; inr (Node.Internal node))
                 end
               else node ← internal_deserialize bytes; Ret (node ← node; inr (Node.Internal node));
        match node with
        | inl e => Ret (inl e)
        | inr node => root ← Root.new leaf_count node; Ret (inr root)
        end
  end.

Definition root_serialize (self : Root.t) : list byte :=
  match self with
  | Root.Empty => leb128_write 0
  | Root.Filled leaf_count node => leb128_write leaf_count ++ node_serialize node
  end.

(** ** Tags and manifests *)
Definition deserialize_str : prog (list byte) DeserializeError.t (list byte) :=
  str_len ← read_unsigned (DeserializeError.from Leb128);
  bytes ← get;
  if decide (Z.of_nat (length bytes) < str_len) then fail (DeserializeError.from UnexpectedEof)
  else
    _ ← put (drop (Z.to_nat str_len) bytes);
    ok_or (DeserializeError.from Utf8) (from_utf8 (take (Z.to_nat str_len) bytes)).

Definition serialize_str (s : list byte) : list byte := leb128_write (Z.of_nat (length s)) ++ s.

Record PartialTags := mk_partial {
  p_architecture : option (list byte);
  p_hasher : option (list byte);
  p_depth : option Z;
  p_is_recovering : bool;
  p_custom : gmap (list byte) (list byte);
}.

Definition strip_prefix (prefix s : list byte) : option (list byte) :=
  if decide (take (length prefix) s = prefix) then Some (drop (length prefix) s) else None.

Definition apply_tag (st : PartialTags) (key value : list byte) : DeserializeError.t + PartialTags :=
  let '(mk_partial architecture hasher depth is_recovering custom) := st in
  if decide (key = bytes "architecture") then inr (mk_partial (Some value) hasher depth is_recovering custom)
  else if decide (key = bytes "hasher") then inr (mk_partial architecture (Some value) depth is_recovering custom)
  else if decide (key = bytes "depth") then
    parsed ← context_or (DeserializeError.from (MalformedTag (bytes "depth"))) (parse_usize value);
    inr (mk_partial architecture hasher (Some parsed) is_recovering custom)
  else if decide (key = bytes "is_recovering") then
    parsed ← context_or (DeserializeError.from (MalformedTag (bytes "is_recovering"))) (parse_bool value);
    inr (mk_partial architecture hasher depth parsed custom)
  else
    match strip_prefix (bytes "custom.") key with
    | Some custom_key => inr (mk_partial architecture hasher depth is_recovering (<[custom_key := value]> custom))
    | None => inl (DeserializeError.from (UnknownTag key))
    end.

Definition deserialize_tag (st : PartialTags) : prog (list byte) DeserializeError.t PartialTags :=
  key ← deserialize_str;
  value ← deserialize_str;
  of_result (apply_tag st key value).

Fixpoint deserialize_tags (tag_count : nat) (st : PartialTags) : prog (list byte) DeserializeError.t PartialTags :=
  match tag_count with O => mret st | S tag_count => st ← deserialize_tag st; deserialize_tags tag_count st end.

Definition tags_deserialize : prog (list byte) DeserializeError.t TreeTags.t :=
  tag_count ← read_unsigned (DeserializeError.from Leb128);
  st ← deserialize_tags (Z.to_nat tag_count) (mk_partial None None None false ∅);
  architecture ← ok_or (DeserializeError.from (MissingTag (bytes "architecture"))) (p_architecture st);
  hasher ← ok_or (DeserializeError.from (MissingTag (bytes "hasher"))) (p_hasher st);
  depth ← ok_or (DeserializeError.from (MissingTag (bytes "depth"))) (p_depth st);
  mret (TreeTags.mk architecture depth hasher (p_is_recovering st) (p_custom st)).

Definition tags_serialize (self : TreeTags.t) : list byte :=
  let entry_count := wrap 64 (3 + (if TreeTags.is_recovering self then 1 else 0) + Z.of_nat (size (TreeTags.custom self))) in
  leb128_write entry_count ++
  serialize_str (bytes "architecture") ++ serialize_str (TreeTags.architecture self) ++
  serialize_str (bytes "depth") ++ serialize_str (usize_to_string (TreeTags.depth self)) ++
  serialize_str (bytes "hasher") ++ serialize_str (TreeTags.hasher self) ++
  (if TreeTags.is_recovering self then serialize_str (bytes "is_recovering") ++ serialize_str (bytes "true") else []) ++
  concat ((λ '(custom_key, value), serialize_str (bytes "custom." ++ custom_key) ++ serialize_str value)
    <$> custom_iter (TreeTags.custom self)).

Definition manifest_deserialize (bytes : list byte) : exec (DeserializeError.t + Manifest.t) :=
  '(r, _) ← (version_count ← read_unsigned (DeserializeError.from Leb128);
             rest ← get;
             tags ← if decide (rest = []) then mret None else tags ← tags_deserialize; mret (Some tags);
             mret (Manifest.mk version_count tags)) bytes;
  Ret r.

Definition manifest_serialize (self : Manifest.t) : list byte :=
  leb128_write (Manifest.version_count self) ++ match Manifest.tags self with Some tags => tags_serialize tags | None => [] end.
End serialization.

Section roundtrip.
Context `{Leb128Crate} `{!Leb128Laws} `{TagsOrder} `{!TagsOrderLaws}.

Lemma read_unsigned_ok err n rest : in_width 64 n → read_unsigned err (leb128_write n ++ rest) = Ret (inr n, rest).
Proof using All. intros Hn. unfold read_unsigned. by rewrite leb128_roundtrip. Qed.

Lemma be_bytes_roundtrip (n : nat) z w : w = 8 * Z.of_nat n → in_width w z → from_be_bytes (to_be_bytes n z) = z.
Proof using. intros -> Hz. apply from_to_be_bytes. unfold in_width in Hz. rewrite Z.pow_mul_r in Hz by lia. exact Hz. Qed.

Lemma take_be_bytes n z rest : take n (to_be_bytes n z ++ rest) = to_be_bytes n z.
Proof using. by rewrite take_app_length' by (by rewrite length_to_be_bytes). Qed.

Lemma drop_be_bytes n z rest : drop n (to_be_bytes n z ++ rest) = rest.
Proof using. by rewrite drop_app_length' by (by rewrite length_to_be_bytes). Qed.

(** ** Leaves *)
Lemma leaf_roundtrip leaf : leaf_storable leaf → leaf_deserialize (leaf_serialize leaf) = Ret (inr leaf).
Proof using All.
  destruct leaf as [k h i]. intros (Hk & Hh & Hi). cbn in Hk, Hh, Hi. unfold leaf_deserialize, leaf_serialize. cbn [LeafNode.full_key LeafNode.value_hash LeafNode.leaf_index].
  rewrite decide_False by (rewrite !length_app, !length_to_be_bytes; unfold KEY_SIZE, HASH_SIZE; lia).
  rewrite <-drop_drop, !take_be_bytes, !drop_be_bytes, take_be_bytes.
  rewrite (be_bytes_roundtrip KEY_SIZE _ 256), (be_bytes_roundtrip HASH_SIZE _ 256) by done.
  rewrite <-(app_nil_r (leb128_write i)), (prog_bind_step _ _ _ i []) by (by apply read_unsigned_ok). done.
Qed.

Lemma ref_roundtrip r rest : ref_storable r → ref_deserialize (ChildRef.is_leaf r) (ref_serialize r ++ rest) = Ret (inr r, rest).
Proof using All.
  destruct r as [h v b]. intros [Hh Hv]. cbn in Hh, Hv. unfold ref_deserialize, ref_serialize. cbn [ChildRef.hash ChildRef.version ChildRef.is_leaf].
  rewrite decide_False by (rewrite !length_app, !length_to_be_bytes; unfold HASH_SIZE; lia).
  rewrite <-app_assoc, take_be_bytes, drop_be_bytes, (be_bytes_roundtrip HASH_SIZE _ 256) by done.
  by rewrite (prog_bind_step _ _ _ v rest) by (by apply read_unsigned_ok).
Qed.

(** ** The bitmap of the children *)
Definition kind_at (node : InternalNode.t) (d : Z) : Z :=
  match InternalNode.refs node d with Some r => ChildKind_repr (ref_kind r) | None => 0 end.

Lemma kind_at_range node d : 0 ≤ kind_at node d < 3.
Proof using. unfold kind_at, ref_kind. destruct (InternalNode.refs node d) as [[? ? []]|]; cbn; lia. Qed.

Lemma kind_bit_high node d j : 2 ≤ j → Z.testbit (kind_at node d) j = false.
Proof using.
  intros Hj. unfold kind_at, ref_kind. destruct (InternalNode.refs node d) as [[? ? []]|]; cbn [ChildRef.is_leaf ChildKind_repr];
    (apply Z.bits_above_log2; [lia|cbn; lia]).
Qed.

Lemma children_bitmap_bits node j :
  InternalNode.wf node → 0 ≤ j → Z.testbit (children_bitmap node) j = Z.testbit (kind_at node (j / 2)) (j mod 2).
Proof using.
  intros Hwf Hj. unfold children_bitmap. rewrite SmallMap.iter_ok by done.
  set (f := λ (bitmap : Z) '(i, child_ref), Z.lor bitmap (Z.shiftl (ChildKind_repr (ref_kind child_ref)) (2 * i))).
  assert (Hn : ∀ n, 0 ≤ n → Z.testbit (foldl f 0 (omap (λ i, pair i <$> SmallMap.lookup (InternalNode.children node) i) (seqZ 0 n))) j =
    if decide (j / 2 < n) then Z.testbit (kind_at node (j / 2)) (j mod 2) else false).
  { apply natlike_ind; [rewrite decide_False by (pose proof (Z.div_pos j 2); lia); apply Z.bits_0|].
    intros n Hn IH. unfold Z.succ. rewrite SmallMap.seqZ_snoc, omap_app, foldl_app by done.
    assert (Hstep : ∀ bm, Z.testbit (foldl f bm (omap (λ i, pair i <$> SmallMap.lookup (InternalNode.children node) i) [n])) j =
      Z.testbit bm j || Z.testbit (Z.shiftl (kind_at node n) (2 * n)) j).
    { intros bm. unfold kind_at, InternalNode.refs. cbn. destruct (SmallMap.lookup (InternalNode.children node) n); cbn; [apply Z.lor_spec|].
      by rewrite Z.shiftl_0_l, Z.bits_0, orb_false_r. }
    rewrite Hstep, IH, Z.shiftl_spec by done. pose proof (Z.div_mod j 2 ltac:(lia)). pose proof (Z.mod_pos_bound j 2 ltac:(lia)).
    destruct (decide (j / 2 < n)); [rewrite decide_True, (Z.testbit_neg_r _ (j - 2 * n)) by lia; apply orb_false_r|]. cbn [orb].
    destruct (decide (j / 2 < n + 1)).
    - replace n with (j / 2) by lia. f_equal. lia.
    - destruct (decide (j - 2 * n < 2)); [lia|]. by rewrite kind_bit_high by lia. }
  rewrite (Hn 16) by lia. case_decide; [done|]. unfold kind_at. destruct (InternalNode.refs node (j / 2)) as [r|] eqn:E; [|by rewrite Z.bits_0].
  apply InternalNode.refs_range in E; [lia|done].
Qed.

Lemma children_bitmap_width node : InternalNode.wf node → in_width 32 (children_bitmap node).
Proof using.
  intros Hwf. set (b := children_bitmap node). replace b with (Z.land b (Z.ones 32)).
  - rewrite Z.land_ones by lia. apply Z.mod_pos_bound. lia.
  - apply Z.bits_inj'. intros j Hj. rewrite Z.land_spec. destruct (decide (j < 32)); [rewrite Z.ones_spec_low by lia; apply andb_true_r|].
    rewrite Z.ones_spec_high, andb_false_r by lia. unfold b. rewrite children_bitmap_bits by done. unfold kind_at.
    destruct (InternalNode.refs node (j / 2)) as [r|] eqn:E; [|by rewrite Z.bits_0]. apply InternalNode.refs_range in E; [|done].
    pose proof (Z.div_mod j 2). pose proof (Z.mod_pos_bound j 2). lia.
Qed.

Lemma bitmap_chunk node i : InternalNode.wf node → 0 ≤ i → Z.land (Z.shiftr (children_bitmap node) (2 * i)) 3 = kind_at node i.
Proof using.
  intros Hwf Hi. apply Z.bits_inj'. intros j Hj. rewrite Z.land_spec, Z.shiftr_spec by done. change 3 with (Z.ones 2).
  destruct (decide (j < 2)); [|by rewrite Z.ones_spec_high, andb_false_r, kind_bit_high by lia].
  rewrite Z.ones_spec_low, andb_true_r, children_bitmap_bits by (done || lia).
  by rewrite <-(Z.div_unique_pos (j + 2 * i) 2 i j), <-(Z.mod_unique_pos (j + 2 * i) 2 i j) by lia.
Qed.

(** Each child sets one bit. *)
Lemma children_bitmap_count node : InternalNode.wf node → (count_ones 32 (children_bitmap node) ≤ 16)%nat.
Proof using.
  intros Hwf. set (b := children_bitmap node).
  assert (Hn : ∀ i, 0 ≤ i → Z.of_nat (SmallMap.below b (2 * i)) ≤ i).
  { apply natlike_ind; [done|]. intros i Hi IH. replace (2 * Z.succ i) with (2 * i + 1 + 1) by lia. rewrite !SmallMap.below_succ by lia.
    unfold b. rewrite !children_bitmap_bits by (done || lia). fold b.
    rewrite <-(Z.div_unique_pos (2 * i) 2 i 0), <-(Z.mod_unique_pos (2 * i) 2 i 0) by lia.
    rewrite <-(Z.div_unique_pos (2 * i + 1) 2 i 1), <-(Z.mod_unique_pos (2 * i + 1) 2 i 1) by lia.
    unfold kind_at, ref_kind. destruct (InternalNode.refs node i) as [[? ? []]|]; cbn; lia. }
  specialize (Hn 16 ltac:(lia)). change (count_ones 32 b) with (SmallMap.below b 32). change (2 * 16) with 32 in Hn. lia.
Qed.

Lemma children_bitmap_nonzero node : InternalNode.wf node → (∃ d r, InternalNode.refs node d = Some r) → children_bitmap node ≠ 0.
Proof using.
  intros Hwf (d & r & Hr) Hz. pose proof (InternalNode.refs_range _ _ _ Hwf Hr). pose proof (bitmap_chunk node d Hwf ltac:(lia)) as Hc.
  rewrite Hz, Z.shiftr_0_l in Hc. cbn in Hc. unfold kind_at, ref_kind in Hc. rewrite Hr in Hc. by destruct (ChildRef.is_leaf r).
Qed.

(** ** Internal nodes *)
Lemma child_refs_ok node : InternalNode.wf node → InternalNode.child_refs node = omap (InternalNode.refs node) (seqZ 0 16).
Proof using.
  intros Hwf. unfold InternalNode.child_refs. pose proof (SmallMap.iter_ok (InternalNode.children node) Hwf) as Hit.
  apply (f_equal (fmap snd)) in Hit. unfold SmallMap.iter in Hit at 1. rewrite snd_zip in Hit.
  - rewrite Hit, list_fmap_omap. apply list_omap_ext, Forall_Forall2_diag, Forall_true. intros d. unfold InternalNode.refs.
    by destruct (SmallMap.lookup (InternalNode.children node) d).
  - rewrite (SmallMap.wf_values _ Hwf). unfold SmallMap.indices. by rewrite SmallMap.length_mask_filter.
Qed.

Lemma deserialize_child_ok node this i rest :
  InternalNode.wf node → (∀ d r, InternalNode.refs node d = Some r → ref_storable r) →
  0 ≤ i < 16 → InternalNode.wf this → InternalNode.cache this = None →
  ∃ this', deserialize_child (this, Z.shiftr (children_bitmap node) (2 * i)) i
      (match InternalNode.refs node i with Some r => ref_serialize r | None => [] end ++ rest) =
      Ret (inr (this', Z.shiftr (children_bitmap node) (2 * (i + 1))), rest) ∧
    InternalNode.wf this' ∧ InternalNode.cache this' = None ∧
    ∀ d, InternalNode.refs this' d = if decide (d = i) then match InternalNode.refs node i with Some r => Some r | None => InternalNode.refs this d end else InternalNode.refs this d.
Proof using All.
  intros Hwf Hsto Hi Hthis Hcache. unfold deserialize_child, ChildKind_MASK. rewrite bitmap_chunk by (done || lia).
  replace (2 * (i + 1)) with (2 * i + 2) by lia. rewrite <-Z.shiftr_shiftr by lia. unfold kind_at, ref_kind.
  destruct (InternalNode.refs node i) as [r|] eqn:Er.
  - destruct (InternalNode.insert_child_ref_ok this i r Hthis Hi) as (this' & Hins & Hwf' & Hc' & Hrefs). exists this'. split; [|by rewrite Hc'].
    pose proof (ref_roundtrip r rest (Hsto i r Er)) as Hr. destruct (ChildRef.is_leaf r); cbn [ChildKind_repr].
    all: rewrite (prog_bind_step _ _ _ _ (ref_serialize r ++ rest)) by reflexivity.
    all: erewrite (prog_bind_step _ _ _ this' rest); [done|].
    all: rewrite (prog_bind_step _ _ _ _ _ Hr). all: unfold lift_exec. all: by rewrite Hins.
  - exists this. split; [done|]. split; [done|]. split; [done|]. intros d. by destruct (decide (d = i)).
Qed.

Lemma deserialize_loop_ok node (k : nat) this :
  InternalNode.wf node → (∀ d r, InternalNode.refs node d = Some r → ref_storable r) → (k ≤ 16)%nat →
  InternalNode.wf this → InternalNode.cache this = None →
  let i := 16 - Z.of_nat k in
  (∀ d, InternalNode.refs this d = if decide (d < i) then InternalNode.refs node d else None) →
  ∃ bm, foldP deserialize_child (this, Z.shiftr (children_bitmap node) (2 * i)) (seqZ i (Z.of_nat k))
    (concat (ref_serialize <$> omap (InternalNode.refs node) (seqZ i (Z.of_nat k)))) = Ret (inr (InternalNode.clone node, bm), []).
Proof using All.
  intros Hwf Hsto. revert this. induction k as [|k IH]; intros this Hk Hthis Hcache i Hrefs.
  - assert (this = InternalNode.clone node) as ->; [|by eexists].
    destruct this as [c o]. cbn in Hcache. subst o. unfold InternalNode.clone. f_equal.
    apply SmallMap.map_ext; [done|done|]. intros d. specialize (Hrefs d). unfold InternalNode.refs in Hrefs. cbn [InternalNode.children] in Hrefs. rewrite Hrefs.
    case_decide; [done|]. destruct (SmallMap.lookup (InternalNode.children node) d) eqn:E; [|done].
    apply SmallMap.lookup_Some_inv in E; [lia|done].
  - rewrite seqZ_cons by lia. replace (Z.pred (Z.of_nat (S k))) with (Z.of_nat k) by lia. cbn [foldP].
    destruct (deserialize_child_ok node this i (concat (ref_serialize <$> omap (InternalNode.refs node) (seqZ (Z.succ i) (Z.of_nat k)))) Hwf Hsto
      ltac:(lia) Hthis Hcache) as (this' & Hd & Hwf' & Hc' & Hrefs').
    replace (concat (ref_serialize <$> omap (InternalNode.refs node) (i :: seqZ (Z.succ i) (Z.of_nat k)))) with
      (match InternalNode.refs node i with Some r => ref_serialize r | None => [] end ++
       concat (ref_serialize <$> omap (InternalNode.refs node) (seqZ (Z.succ i) (Z.of_nat k)))) by (cbn; by destruct (InternalNode.refs node i)).
    rewrite (prog_bind_step _ _ _ _ _ Hd). replace (Z.succ i) with (16 - Z.of_nat k) by lia. replace (i + 1) with (16 - Z.of_nat k) by lia.
    apply IH; [lia|done|done|]. intros d. rewrite Hrefs', !Hrefs. repeat case_decide; try lia; subst; try done.
    by destruct (InternalNode.refs node i).
Qed.

Lemma internal_roundtrip node : internal_storable node → internal_deserialize (internal_serialize node) = Ret (inr (InternalNode.clone node)).
Proof using All.
  intros (Hwf & Hne & Hsto). unfold internal_deserialize, internal_serialize.
  rewrite decide_False by (rewrite length_app, length_reverse, length_to_be_bytes; lia).
  rewrite take_app_length', drop_app_length' by (by rewrite length_reverse, length_to_be_bytes). rewrite reverse_involutive.
  rewrite (be_bytes_roundtrip 4 _ 32) by (done || by apply children_bitmap_width).
  rewrite decide_False by (by apply children_bitmap_nonzero). unfold InternalNode.with_capacity, SmallMap.with_capacity, assert_then.
  pose proof (children_bitmap_count node Hwf). rewrite bool_decide_true by (unfold SmallMap.CAPACITY; lia). cbn [mbind exec_bind].
  set (this := InternalNode.mk _ None). rewrite child_refs_ok by done.
  destruct (deserialize_loop_ok node 16%nat this Hwf Hsto ltac:(lia)) as [bm Hl]; [apply SmallMap.slots_wf_default|done| |].
  { intros d. change (SmallMap.lookup SmallMap.default d = if decide (d < 0) then InternalNode.refs node d else None). rewrite SmallMap.lookup_default.
    case_decide; [|done]. destruct (InternalNode.refs node d) eqn:E; [|done]. apply InternalNode.refs_range in E; [lia|done]. }
  change (16 - Z.of_nat 16) with 0 in Hl. rewrite Z.mul_0_r, Z.shiftr_0_r in Hl. by rewrite (prog_bind_step _ _ _ _ _ Hl).
Qed.

(** ** Roots *)
Lemma internal_one_child_short node :
  internal_storable node → InternalNode.child_count node = 1%nat → (length (internal_serialize node) < KEY_SIZE + HASH_SIZE)%nat.
Proof using All.
  intros (Hwf & _ & Hsto) Hone. unfold internal_serialize. rewrite length_app, length_reverse, length_to_be_bytes.
  assert (Hlen : length (InternalNode.child_refs node) = 1%nat) by (unfold InternalNode.child_refs; by rewrite (SmallMap.wf_values _ Hwf)).
  pose proof (child_refs_ok node Hwf) as Hrefs. destruct (InternalNode.child_refs node) as [|r [|]]; try done.
  assert (Hr : r ∈ omap (InternalNode.refs node) (seqZ 0 16)) by (rewrite <-Hrefs; left). apply list_elem_of_omap in Hr as (d & _ & Hr).
  destruct (Hsto d r Hr) as [_ Hv]. cbn. rewrite app_nil_r. unfold ref_serialize. rewrite length_app, length_to_be_bytes.
  pose proof (leb128_length _ Hv). unfold KEY_SIZE, HASH_SIZE. lia.
Qed.

Lemma root_roundtrip root : root_storable root → root_deserialize (root_serialize root) = Ret (inr (Root.clone root)).
Proof using All.
  unfold root_deserialize. destruct root as [|leaf_count node]; cbn [root_serialize root_storable].
  - intros _. by rewrite <-(app_nil_r (leb128_write 0)), leb128_roundtrip.
  - intros (Hw & Hne & Hnode & Hshape). rewrite leb128_roundtrip, decide_False by done. destruct node as [node|leaf]; cbn [node_serialize node_storable] in *.
    + assert (Hi : (node ← internal_deserialize (internal_serialize node); Ret (node ← node; inr (Node.Internal node))) =
        Ret (inr (Node.Internal (InternalNode.clone node)))) by (by rewrite internal_roundtrip).
      case_decide as Hone.
      * unfold leaf_deserialize. rewrite decide_True by (by apply internal_one_child_short; auto). cbn [mbind exec_bind].
        rewrite internal_roundtrip by done. cbn. unfold Root.new. by rewrite decide_False.
      * rewrite Hi. cbn [mbind exec_bind]. unfold Root.new. by rewrite decide_False.
    + subst leaf_count. rewrite decide_True, leaf_roundtrip by done. cbn. done.
Qed.

Lemma node_roundtrip node :
  node_storable node →
  match node with
  | Node.Internal _ => r ← internal_deserialize (node_serialize node); Ret (r ← r; inr (Node.Internal r))
  | Node.Leaf _ => r ← leaf_deserialize (node_serialize node); Ret (r ← r; inr (Node.Leaf r))
  end = Ret (inr (Node.clone node)).
Proof using All. destruct node; cbn; intros ?; [by rewrite internal_roundtrip|by rewrite leaf_roundtrip]. Qed.

(** ** Strings and numbers *)
Lemma deserialize_str_ok s rest : valid_utf8 s = true → Z.of_nat (length s) < 2 ^ 64 → deserialize_str (serialize_str s ++ rest) = Ret (inr s, rest).
Proof using All.
  intros Hs Hlen. unfold deserialize_str, serialize_str. rewrite <-app_assoc, (prog_bind_step _ _ _ (Z.of_nat (length s)) (s ++ rest)) by (apply read_unsigned_ok; split; lia).
  rewrite (prog_bind_step _ _ _ (s ++ rest) (s ++ rest)) by done. rewrite decide_False by (rewrite length_app; lia).
  rewrite Nat2Z.id, (prog_bind_step _ _ _ () rest) by (unfold put; by rewrite drop_app_length). rewrite take_app_length. unfold from_utf8. by rewrite Hs.
Qed.

Lemma parse_digit_ok a d : 0 ≤ a → 0 ≤ d < 10 → a * 10 + d < 2 ^ 64 → parse_digit (Some a) (digit_byte d) = Some (a * 10 + d).
Proof using.
  intros Ha Hd Hlt. unfold parse_digit, byte_digit, digit_byte. cbn [mbind option_bind]. rewrite Z_to_byte_to_Z, wrap_small by (split; lia).
  rewrite decide_True by lia. cbn. replace (48 + d - 48) with d by lia. by rewrite decide_True.
Qed.

Lemma decimal_ok fuel z :
  0 ≤ z < 2 ^ 64 → z < 10 ^ Z.of_nat fuel → foldl parse_digit (Some 0) (decimal fuel z) = Some z ∧ (0 < fuel → decimal fuel z ≠ [])%nat ∧
  ∀ b, b ∈ decimal fuel z → ∃ d, 0 ≤ d < 10 ∧ b = digit_byte d.
Proof using.
  revert z. induction fuel as [|fuel IH]; intros z Hz Hf.
  { assert (z = 0) as -> by (cbn in Hf; lia). split; [done|]. split; [intros; lia|]. intros b []%not_elem_of_nil. }
  cbn [decimal]. rewrite Nat2Z.inj_succ, Z.pow_succ_r in Hf by lia. case_decide.
  - cbn [foldl]. rewrite parse_digit_ok by lia. split; [done|]. split; [done|]. intros b ->%list_elem_of_singleton. exists z. split; [lia|done].
  - pose proof (Z.div_mod z 10 ltac:(lia)). pose proof (Z.mod_pos_bound z 10 ltac:(lia)).
    destruct (IH (z / 10)) as (Hp & _ & Hd); [lia|apply Z.div_lt_upper_bound; lia|]. rewrite foldl_app, Hp. split; [|split].
    + cbn [foldl]. rewrite parse_digit_ok by lia. f_equal. lia.
    + intros _ Hn. by apply app_nil in Hn as [_ ?].
    + intros b [?|Hb]%elem_of_app; [auto|]. apply list_elem_of_singleton in Hb as ->. exists (z mod 10). split; [lia|done].
Qed.

Lemma usize_roundtrip z : in_width 64 z → parse_usize (usize_to_string z) = Some z ∧ valid_utf8 (usize_to_string z) = true.
Proof using.
  intros [Hz1 Hz2]. destruct (decimal_ok 20 z) as (Hp & Hne & Hd); [done|cbn; lia|]. specialize (Hne ltac:(lia)). unfold usize_to_string.
  split.
  - unfold parse_usize. assert (Hs : match decimal 20 z with b :: (_ :: _) as s' => if decide (b = "+"%byte) then s' else decimal 20 z | _ => decimal 20 z end = decimal 20 z).
    { destruct (decimal 20 z) as [|b [|b' s]] eqn:E; [done..|]. rewrite decide_False; [done|]. destruct (Hd b ltac:(left)) as (d & Hdr & ->).
      intros Heq. apply (f_equal byte_to_Z) in Heq. unfold digit_byte in Heq. rewrite Z_to_byte_to_Z, wrap_small in Heq by (split; lia).
      change (byte_to_Z "+"%byte) with 43 in Heq. lia. }
    rewrite Hs. by rewrite decide_False.
  - clear Hp Hne. induction (decimal 20 z) as [|b s IH]; [done|]. cbn. destruct (Hd b ltac:(left)) as (d & Hdr & ->).
    assert (in_range 0 0x7F (digit_byte d) = true) as ->.
    { unfold in_range, digit_byte. rewrite Z_to_byte_to_Z, wrap_small by (split; lia). by rewrite !bool_decide_true by lia. }
    apply IH. intros b Hb. apply Hd. by right.
Qed.

Lemma usize_string_length z : (length (usize_to_string z) ≤ 20)%nat.
Proof using.
  unfold usize_to_string. generalize 20%nat as fuel. intros fuel. revert z. induction fuel as [|fuel IH]; intros z; cbn; [lia|].
  case_decide; cbn; [lia|]. rewrite length_app. cbn. specialize (IH (z / 10)). lia.
Qed.

(** ** Tags *)
Definition set_custom (st : PartialTags) (custom : gmap (list byte) (list byte)) : PartialTags :=
  mk_partial (p_architecture st) (p_hasher st) (p_depth st) (p_is_recovering st) custom.

Lemma deserialize_tag_ok st key value rest :
  valid_utf8 key = true → Z.of_nat (length key) < 2 ^ 64 → str_ok value →
  deserialize_tag st (serialize_str key ++ serialize_str value ++ rest) = Ret (apply_tag st key value, rest).
Proof using All.
  intros Hk Hkl [Hv Hvl]. unfold deserialize_tag. rewrite (prog_bind_step _ _ _ key (serialize_str value ++ rest)) by (by apply deserialize_str_ok).
  by rewrite (prog_bind_step _ _ _ value rest) by (apply deserialize_str_ok; [done|lia]).
Qed.

Definition custom_tag (tag : list byte * list byte) : list byte := serialize_str (bytes "custom." ++ tag.1) ++ serialize_str tag.2.

Lemma apply_custom st key value : apply_tag st (bytes "custom." ++ key) value = inr (set_custom st (<[key := value]> (p_custom st))).
Proof using. destruct st. unfold apply_tag. rewrite !decide_False by (by destruct key). done. Qed.

Lemma custom_tags_ok (tags : list (list byte * list byte)) st rest :
  Forall (λ '(k, v), str_ok k ∧ str_ok v) tags →
  deserialize_tags (length tags) st (concat (custom_tag <$> tags) ++ rest) =
  Ret (inr (set_custom st (foldl (λ m '(k, v), <[k := v]> m) (p_custom st) tags)), rest).
Proof using All.
  revert st. induction tags as [|[k v] tags IH]; intros st Hok; [by destruct st|]. apply Forall_cons in Hok as [[[Hk Hkl] Hv] Hok].
  cbn [length deserialize_tags fmap list_fmap concat foldl]. unfold custom_tag at 1. cbn [fst snd]. rewrite <-!app_assoc.
  erewrite prog_bind_step; [|rewrite deserialize_tag_ok, apply_custom; [done|done| |done]]; [by rewrite IH|].
  rewrite length_app. change (length (bytes "custom.")) with 7%nat. lia.
Qed.

Lemma foldl_insert_map (custom : gmap (list byte) (list byte)) l :
  l ≡ₚ map_to_list custom → foldl (λ m '(k, v), <[k := v]> m) ∅ l = custom.
Proof using.
  intros Hperm. assert (Hfold : ∀ m : gmap (list byte) (list byte), foldl (λ m '(k, v), <[k := v]> m) m l = foldr (λ p : list byte * list byte, <[p.1 := p.2]>) m (reverse l)).
  { clear Hperm. induction l as [|[k v] l IH]; intros m; [done|]. rewrite reverse_cons, foldr_app. cbn [foldl]. by rewrite IH. }
  rewrite Hfold. change (list_to_map (reverse l) = custom). rewrite <-(list_to_map_to_list custom). apply list_to_map_proper.
  - rewrite fmap_reverse, reverse_Permutation, Hperm. apply NoDup_fst_map_to_list.
  - by rewrite reverse_Permutation, Hperm.
Qed.

Lemma apply_depth a h d r c value z : parse_usize value = Some z → apply_tag (mk_partial a h d r c) (bytes "depth") value = inr (mk_partial a h (Some z) r c).
Proof using. intros Hz. unfold apply_tag. rewrite decide_False, decide_False, decide_True, Hz by done. done. Qed.

Lemma tags_roundtrip tags rest : tags_storable tags → tags_deserialize (tags_serialize tags ++ rest) = Ret (inr tags, rest).
Proof using All.
  destruct tags as [architecture depth hasher is_recovering custom]. intros (Ha & Hd & Hh & Hc & Hsize).
  cbn [TreeTags.architecture TreeTags.depth TreeTags.hasher TreeTags.custom] in Ha, Hd, Hh, Hc, Hsize.
  unfold tags_deserialize, tags_serialize. cbn [TreeTags.architecture TreeTags.depth TreeTags.hasher TreeTags.is_recovering TreeTags.custom].
  rewrite wrap_small by (split; destruct is_recovering; lia). rewrite <-!app_assoc.
  erewrite prog_bind_step by (apply read_unsigned_ok; split; destruct is_recovering; lia).
  replace (Z.to_nat (3 + (if is_recovering then 1 else 0) + Z.of_nat (size custom))) with
    (3 + ((if is_recovering then 1 else 0) + size custom))%nat by (destruct is_recovering; lia).
  destruct (usize_roundtrip depth Hd) as [Hparse Hutf]. pose proof (usize_string_length depth).
  assert (Hds : str_ok (usize_to_string depth)) by (split; [done|lia]).
  assert (Hstep : ∀ n st key value rest st', valid_utf8 key = true → Z.of_nat (length key) < 2 ^ 64 → str_ok value → apply_tag st key value = inr st' →
    deserialize_tags (S n) st (serialize_str key ++ serialize_str value ++ rest) = deserialize_tags n st' rest).
  { intros n st key value rest' st' Hk Hkl Hv Ht. cbn [deserialize_tags]. by erewrite prog_bind_step by (by rewrite deserialize_tag_ok, Ht). }
  assert (Hcustom : ∀ st, p_custom st = ∅ →
    deserialize_tags (size custom) st (concat ((λ '(k, v), serialize_str (bytes "custom." ++ k) ++ serialize_str v) <$> custom_iter custom) ++ rest) =
    Ret (inr (set_custom st custom), rest)).
  { intros st Hst. pose proof (custom_iter_perm custom) as Hperm.
    assert (Hlen : size custom = length (custom_iter custom)) by (by rewrite Hperm, length_map_to_list).
    rewrite Hlen. erewrite list_fmap_ext; [rewrite (custom_tags_ok (custom_iter custom))|by intros ? [? ?]].
    - by rewrite Hst, (foldl_insert_map custom).
    - apply Forall_forall. intros [k v] Hin. rewrite Hperm in Hin. apply elem_of_map_to_list in Hin. exact (Hc k v Hin). }
  erewrite prog_bind_step.
  2: { cbn [Nat.add]. rewrite (Hstep _ _ _ _ _ (mk_partial (Some architecture) None None false ∅)) by done.
       rewrite (Hstep _ _ _ _ _ (mk_partial (Some architecture) None (Some depth) false ∅)) by (done || by apply apply_depth).
       rewrite (Hstep _ _ _ _ _ (mk_partial (Some architecture) (Some hasher) (Some depth) false ∅)) by done.
       destruct is_recovering; [|by apply Hcustom]. rewrite <-!app_assoc. cbn [Nat.add].
       rewrite (Hstep _ _ _ _ _ (mk_partial (Some architecture) (Some hasher) (Some depth) true ∅)) by done. by apply Hcustom. }
  by destruct is_recovering.
Qed.

Lemma manifest_roundtrip manifest : manifest_storable manifest → manifest_deserialize (manifest_serialize manifest) = Ret (inr manifest).
Proof using All.
  destruct manifest as [count tags]. intros [Hc Ht]. cbn in Hc, Ht. unfold manifest_deserialize, manifest_serialize. cbn [Manifest.version_count Manifest.tags].
  erewrite prog_bind_step by (by apply read_unsigned_ok). erewrite prog_bind_step by reflexivity. destruct tags as [tags|]; [|done].
  rewrite decide_False.
  - pose proof (tags_roundtrip tags [] Ht) as Hr. rewrite app_nil_r in Hr. erewrite prog_bind_step; [|etrans; [apply (prog_bind_step _ _ _ _ _ Hr)|reflexivity]]. done.
  - unfold tags_serialize. intros Hn. apply app_nil in Hn as [Hn _]. destruct Ht as (_ & _ & _ & _ & Hsize).
    assert (Hw : in_width 64 (wrap 64 (3 + (if TreeTags.is_recovering tags then 1 else 0) + Z.of_nat (size (TreeTags.custom tags))))) by (apply wrap_in_width; lia).
    pose proof (leb128_length _ Hw) as Hl. rewrite Hn in Hl. cbn in Hl. lia.
Qed.

(** ** What is read from any bytes *)
Lemma from_be_bytes_width n bs : (length bs ≤ n)%nat → in_width (8 * Z.of_nat n) (from_be_bytes bs).
Proof using.
  intros Hlen. assert (Hb : 0 ≤ from_be_bytes bs < 256 ^ Z.of_nat (length bs)).
  { clear Hlen. induction bs as [|b bs IH] using rev_ind; [done|]. rewrite from_be_bytes_snoc, length_app. cbn [length].
    rewrite Nat.add_1_r, Nat2Z.inj_succ, Z.pow_succ_r by lia. pose proof (byte_to_Z_bound b) as Hbb. unfold in_width in Hbb. lia. }
  unfold in_width. rewrite Z.pow_mul_r by lia. change (2 ^ 8) with 256.
  assert (256 ^ Z.of_nat (length bs) ≤ 256 ^ Z.of_nat n) by (apply Z.pow_le_mono_r; lia). lia.
Qed.

Lemma read_unsigned_inv err bs n rest : read_unsigned err bs = Ret (inr n, rest) → in_width 64 n.
Proof using H0. unfold read_unsigned. destruct (leb128_read bs) as [[m r]|] eqn:E; [|done]. intros [= -> ->]. by eapply leb128_range. Qed.

Lemma leaf_deserialize_ok bs leaf : leaf_deserialize bs = Ret (inr leaf) → leaf_storable leaf.
Proof using H0.
  unfold leaf_deserialize. case_decide; [done|]. intros Hr. inv_exec. destruct x as [[e|l] rest]; simplify_eq/=. inv_prog.
  split; [apply (from_be_bytes_width 32); rewrite length_take; unfold KEY_SIZE; lia|].
  split; [apply (from_be_bytes_width 32); rewrite length_take; unfold HASH_SIZE; lia|]. by eapply read_unsigned_inv.
Qed.

Lemma ref_deserialize_inv b bs r rest : ref_deserialize b bs = Ret (inr r, rest) → ref_storable r.
Proof using H0.
  unfold ref_deserialize. case_decide; [done|]. intros Hr. inv_prog.
  split; [apply (from_be_bytes_width 32); rewrite length_take; unfold HASH_SIZE; lia|]. by eapply read_unsigned_inv.
Qed.

(** The children read so far. *)
Definition reading_ok (st : InternalNode.t * Z) : Prop :=
  InternalNode.wf st.1 ∧ ∀ d r, InternalNode.refs st.1 d = Some r → ref_storable r.

Lemma insert_read_ok this i r this' :
  reading_ok (this, 0) → 0 ≤ i < 16 → ref_storable r → InternalNode.insert_child_ref this i r = Ret this' → reading_ok (this', 0) ∧ InternalNode.refs this' i = Some r.
Proof using.
  intros [Hwf Hsto] Hi Hr Hins. destruct (InternalNode.insert_child_ref_ok this i r Hwf Hi) as (t & Ht & Hwf' & _ & Hrefs).
  rewrite Hins in Ht. injection Ht as <-. split; [split; [done|]|by rewrite Hrefs, decide_True]. cbn. intros d r'. rewrite Hrefs. case_decide; [by intros [= <-]|apply Hsto].
Qed.

(** Reading never panics in the loop, keeps what was read, and a set bit gives a child. *)
Lemma deserialize_child_inv this bitmap i bs :
  reading_ok (this, 0) → 0 ≤ i < 16 →
  match deserialize_child (this, bitmap) i bs with
  | Panic => False
  | Ret (inl _, _) => True
  | Ret (inr (this', bitmap'), _) => reading_ok (this', 0) ∧ bitmap' = Z.shiftr bitmap 2 ∧
      (∀ d, is_Some (InternalNode.refs this d) → is_Some (InternalNode.refs this' d)) ∧
      (Z.land bitmap 3 ≠ 0 → is_Some (InternalNode.refs this' i))
  end.
Proof using H0.
  intros Hthis Hi. unfold deserialize_child, ChildKind_MASK.
  assert (Hadd : ∀ r, ref_storable r → ∃ this', InternalNode.insert_child_ref this i r = Ret this' ∧ reading_ok (this', 0) ∧
    (∀ d, is_Some (InternalNode.refs this d) → is_Some (InternalNode.refs this' d)) ∧ is_Some (InternalNode.refs this' i)).
  { intros r Hr. destruct (InternalNode.insert_child_ref_ok this i r (proj1 Hthis) Hi) as (this' & Hins & _ & _ & Hrefs). exists this'.
    destruct (insert_read_ok this i r this' Hthis Hi Hr Hins) as [Hok Hsome]. split; [done|]. split; [done|].
    split; [|by rewrite Hsome; eexists]. intros d Hd. rewrite Hrefs. case_decide; [by eexists|done]. }
  unfold ChildKind_deserialize. destruct (decide (Z.land bitmap 3 = 0)).
  { cbn. split; [done|]. split; [done|]. split; [done|]. done. }
  destruct (decide (Z.land bitmap 3 = 1)); [|destruct (decide (Z.land bitmap 3 = 2)); [|done]].
  all: erewrite prog_bind_step by reflexivity; unfold mbind, prog_bind.
  1: destruct (ref_deserialize false bs) as [[[err|r] rest]|] eqn:Er; [done| |].
  3: destruct (ref_deserialize true bs) as [[[err|r] rest]|] eqn:Er; [done| |].
  2, 4: exfalso; revert Er; unfold ref_deserialize; case_decide; [done|]; unfold mbind, prog_bind, read_unsigned; by destruct (leb128_read _) as [[]|].
  all: destruct (Hadd r (ref_deserialize_inv _ _ _ _ Er)) as (this' & Hins & Hok & Hkeep & Hsome); unfold lift_exec; rewrite Hins; cbn; done.
Qed.

Lemma deserialize_loop_inv (k : nat) this bm i bs :
  reading_ok (this, 0) → 0 ≤ i → i + Z.of_nat k ≤ 16 →
  match foldP deserialize_child (this, bm) (seqZ i (Z.of_nat k)) bs with
  | Panic => False
  | Ret (inl _, _) => True
  | Ret (inr (this', _), _) => reading_ok (this', 0) ∧ (∀ d, is_Some (InternalNode.refs this d) → is_Some (InternalNode.refs this' d)) ∧
      (0 < bm < 4 ^ Z.of_nat k → ∃ d, is_Some (InternalNode.refs this' d))
  end.
Proof using H0.
  revert this bm i bs. induction k as [|k IH]; intros this bm i bs Hthis Hi Hk.
  - change (seqZ i (Z.of_nat 0)) with (@nil Z). cbn. split; [done|]. split; [done|lia].
  - rewrite seqZ_cons by lia. replace (Z.pred (Z.of_nat (S k))) with (Z.of_nat k) by lia. cbn [foldP].
    pose proof (deserialize_child_inv this bm i bs Hthis ltac:(lia)) as Hstep. unfold mbind, prog_bind.
    destruct (deserialize_child (this, bm) i bs) as [[[e|[this1 bm1]] bs1]|]; [done| |done].
    destruct Hstep as (Hok1 & -> & Hkeep1 & Hsome1). specialize (IH this1 (Z.shiftr bm 2) (Z.succ i) bs1 Hok1 ltac:(lia) ltac:(lia)).
    destruct (foldP _ _ _ bs1) as [[[e|[this2 bm2]] bs2]|]; [done| |done]. destruct IH as (Hok2 & Hkeep2 & Hex). split; [done|]. split; [auto|].
    intros Hbm. destruct (decide (Z.land bm 3 = 0)) as [Hz|Hnz]; [|exists i; auto]. apply Hex.
    change 3 with (Z.ones 2) in Hz. rewrite Z.land_ones in Hz by lia. rewrite Z.shiftr_div_pow2 by lia. change (2 ^ 2) with 4 in *.
    rewrite Nat2Z.inj_succ, Z.pow_succ_r in Hbm by lia. pose proof (Z.div_mod bm 4 ltac:(lia)). lia.
Qed.

(** C36 Reading an internal node from any bytes gives an error or a well-formed node,
    except that it panics when the bitmap has more than 16 bits set. *)
Theorem internal_deserialize_spec bs :
  let bitmap := from_be_bytes (reverse (take 4 bs)) in
  match internal_deserialize bs with
  | Panic => (4 ≤ length bs)%nat ∧ (16 < count_ones 32 bitmap)%nat
  | Ret (inl _) => (length bs < 4)%nat ∨ (count_ones 32 bitmap ≤ 16)%nat
  | Ret (inr node) => internal_storable node ∧ (4 ≤ length bs)%nat ∧ (count_ones 32 bitmap ≤ 16)%nat
  end.
Proof using H0.
  cbn zeta. unfold internal_deserialize. case_decide as Hlen; [by left|]. set (bitmap := from_be_bytes _).
  case_decide as Hz; [right; rewrite Hz; vm_compute; lia|]. unfold InternalNode.with_capacity, SmallMap.with_capacity, assert_then.
  case_bool_decide as Hcap; unfold SmallMap.CAPACITY in Hcap; cbn [mbind exec_bind]; [|lia].
  set (this := InternalNode.mk _ None). assert (Hthis : reading_ok (this, 0)).
  { split; [apply SmallMap.slots_wf_default|]. intros d r Hr. change (SmallMap.lookup SmallMap.default d = Some r) in Hr. by rewrite SmallMap.lookup_default in Hr. }
  assert (Hw : in_width 32 bitmap) by (apply (from_be_bytes_width 4); rewrite length_reverse, length_take; lia).
  pose proof (deserialize_loop_inv 16 this bitmap 0 (drop 4 bs) Hthis ltac:(lia) ltac:(lia)) as Hloop.
  unfold mbind, prog_bind. change (Z.of_nat InternalNode.CHILD_COUNT) with (Z.of_nat 16).
  destruct (foldP _ _ _ _) as [[[e|[node bm]] rest]|]; [right; lia| |done]. destruct Hloop as ([Hwf Hsto] & _ & Hex). cbn.
  split; [|lia]. split; [done|]. split; [|done]. destruct Hex as [d [r Hr]]; [destruct Hw; change (4 ^ Z.of_nat 16) with (2 ^ 32); lia|]. by exists d, r.
Qed.
End roundtrip.

(** ** LEB128 *)
Module Leb128Format.
(** Groups of 7 bits from the least significant one, with the eighth bit set on all but
    the last. *)
Fixpoint write (fuel : nat) (n : Z) : list byte :=
  match fuel with
  | O => []
  | S fuel => if decide (n < 128) then [Z_to_byte n] else Z_to_byte (128 + n mod 128) :: write fuel (n / 128)
  end.
Fixpoint read (fuel : nat) (bs : list byte) : option (Z * list byte) :=
  match fuel, bs with
  | S fuel, b :: rest =>
      if decide (byte_to_Z b < 128) then Some (byte_to_Z b, rest)
      else '(n, rest) ← read fuel rest; Some (byte_to_Z b - 128 + 128 * n, rest)
  | _, _ => None
  end.
Definition read_u64 (bs : list byte) : option (Z * list byte) :=
  '(n, rest) ← read 10 bs; if decide (n < 2 ^ 64) then Some (n, rest) else None.
Definition crate : Leb128Crate := {| leb128_write := write 10; leb128_read := read_u64 |}.

Lemma read_write fuel n rest : (0 < fuel)%nat → 0 ≤ n < 128 ^ Z.of_nat fuel → read fuel (write fuel n ++ rest) = Some (n, rest).
Proof.
  revert n. induction fuel as [|fuel IH]; intros n Hf Hn; [lia|]. cbn [write read]. rewrite Nat2Z.inj_succ, Z.pow_succ_r in Hn by lia.
  pose proof (Z.div_mod n 128 ltac:(lia)). pose proof (Z.mod_pos_bound n 128 ltac:(lia)).
  destruct (decide (n < 128)); cbn [app]; rewrite Z_to_byte_to_Z, wrap_small by (split; lia); [by rewrite decide_True|].
  assert (0 < fuel)%nat by (destruct fuel; [cbn in Hn; lia|lia]). rewrite decide_False, IH by lia. cbn. do 2 f_equal. lia.
Qed.

Lemma write_length fuel n : (length (write fuel n) ≤ fuel)%nat.
Proof. revert n. induction fuel as [|fuel IH]; intros n; [done|]. cbn [write]. case_decide; cbn [length]; [lia|]. specialize (IH (n / 128)). lia. Qed.

Lemma read_nonneg fuel bs n rest : read fuel bs = Some (n, rest) → 0 ≤ n.
Proof.
  revert bs n rest. induction fuel as [|fuel IH]; intros [|b bs] n rest; [done..|]. cbn [read]. pose proof (byte_to_Z_bound b) as [? _].
  case_decide; [by intros [= <- _]|]. destruct (read fuel bs) as [[m r]|] eqn:E; [|done]. cbn. intros [= <- _]. apply IH in E. lia.
Qed.

Lemma crate_laws : @Leb128Laws crate.
Proof.
  split; cbn [leb128_read leb128_write crate].
  - intros n rest [Hn1 Hn2]. unfold read_u64. rewrite read_write by (lia || (cbn; lia)). cbn. by rewrite decide_True.
  - intros n _. split; [|apply write_length]. cbn [write]. case_decide; cbn [length]; lia.
  - intros bs n rest. unfold read_u64. destruct (read 10 bs) as [[m r]|] eqn:E; [|done]. cbn. case_decide; [|done]. intros [= <- _].
    split; [by eapply read_nonneg|done].
Qed.
End Leb128Format.

(** A node with one internal child at nibble 0, of version 3 and hash 0. *)
Definition sample_node : list byte := [x01; x00; x00; x00] ++ to_be_bytes 32 0 ++ [x03].

Lemma internal_deserialize_spec_witness :
  let bitmap := from_be_bytes (reverse (take 4 sample_node)) in
  match internal_deserialize (H := Leb128Format.crate) sample_node with
  | Panic => (4 ≤ length sample_node)%nat ∧ (16 < count_ones 32 bitmap)%nat
  | Ret (inl _) => (length sample_node < 4)%nat ∨ (count_ones 32 bitmap ≤ 16)%nat
  | Ret (inr node) => internal_storable node ∧ (4 ≤ length sample_node)%nat ∧ (count_ones 32 bitmap ≤ 16)%nat
  end.
Proof. apply (internal_deserialize_spec (H := Leb128Format.crate) (H0 := Leb128Format.crate_laws) sample_node). Defined.

(** A corrupted node with all bits of the mask set is not reported as one with an invalid
    kind of child. *)
Theorem corrupted_mask_panics `{Leb128Crate} rest : internal_deserialize ([xff; xff; xff; xff] ++ rest) = Panic.
Proof. unfold internal_deserialize. rewrite decide_False by (cbn; lia). reflexivity. Qed.
