(* ===== verification/Rocksdb.v ===== *)
(** * The key-value store

    [lib/storage/src/db.rs]: the wrapper of RocksDB and its retries of stalled writes.
    The crate [rocksdb] is the class [Rocksdb]: column families with keys in the
    lexical order of bytes, and batches of writes that are applied entirely or not at
    all. Opening, tuning and metrics of the database are left out. *)
From Stdlib Require Import ZifyNat.
From stdpp Require Import sorting.
From S2P Require Import Prelude.
Local Open Scope Z_scope.

(** ** The order of keys *)
Fixpoint lex_lt (a b : list byte) : bool :=
  match a, b with
  | _, [] => false
  | [], _ :: _ => true
  | x :: a, y :: b => bool_decide (byte_to_Z x < byte_to_Z y) || (bool_decide (x = y) && lex_lt a b)
  end.
Definition lex_le (a b : list byte) : bool := negb (lex_lt b a).
Definition starts_with (prefix key : list byte) : bool := bool_decide (take (length prefix) key = prefix).

Lemma byte_to_Z_inj x y : byte_to_Z x = byte_to_Z y → x = y.
Proof. intros Heq. by rewrite <-(byte_to_Z_to_byte x), <-(byte_to_Z_to_byte y), Heq. Qed.

Lemma lex_lt_irrefl a : lex_lt a a = false.
Proof. induction a as [|x a IH]; [done|]. cbn. rewrite IH, andb_false_r, orb_false_r. apply bool_decide_false. lia. Qed.

Lemma lex_lt_asym a b : lex_lt a b = true → lex_lt b a = false.
Proof.
  revert b. induction a as [|x a IH]; intros [|y b] Hab; [done..|]. cbn [lex_lt] in *. apply orb_true_iff in Hab as [Hlt|[->%bool_decide_eq_true Hab]%andb_true_iff].
  - apply bool_decide_eq_true in Hlt. rewrite !bool_decide_false; [done|intros ->; lia|lia].
  - rewrite IH, andb_false_r, orb_false_r by done. apply bool_decide_false. lia.
Qed.

Lemma lex_lt_cotrans a b c : lex_lt c a = true → lex_lt c b = true ∨ lex_lt b a = true.
Proof.
  revert b c. induction a as [|x a IH]; intros [|y b] [|z c] Hca; [done|done|done|done|by right|by right|by left|]. cbn [lex_lt] in *.
  apply orb_true_iff in Hca as [Hlt%bool_decide_eq_true|[->%bool_decide_eq_true Hca]%andb_true_iff].
  - destruct (decide (byte_to_Z z < byte_to_Z y)); [left|right]; rewrite bool_decide_true by lia; done.
  - destruct (Z.lt_trichotomy (byte_to_Z x) (byte_to_Z y)) as [?|[->%byte_to_Z_inj|?]];
      [left; by rewrite bool_decide_true by lia| |right; by rewrite bool_decide_true by lia].
    rewrite !(bool_decide_true (y = y)) by done. destruct (IH b c Hca) as [->| ->]; [left|right]; by rewrite orb_true_r.
Qed.

Lemma lex_le_trans a b c : lex_le a b = true → lex_le b c = true → lex_le a c = true.
Proof.
  unfold lex_le. rewrite !negb_true_iff. intros Hba Hcb. apply not_true_iff_false. intros [?|?]%(lex_lt_cotrans a b c); congruence.
Qed.

(** Numbers of a fixed width are ordered as their big-endian bytes. *)
Lemma lex_be_bytes n u w a b :
  0 ≤ u < 256 ^ Z.of_nat n → 0 ≤ w < 256 ^ Z.of_nat n →
  lex_lt (to_be_bytes n u ++ a) (to_be_bytes n w ++ b) = bool_decide (u < w) || (bool_decide (u = w) && lex_lt a b).
Proof.
  revert u w a b. induction n as [|n IH]; intros u w a b Hu Hw.
  - cbn in Hu, Hw. assert (u = 0) as -> by lia. assert (w = 0) as -> by lia. by rewrite bool_decide_false, bool_decide_true.
  - cbn [to_be_bytes]. rewrite <-!app_assoc. rewrite Nat2Z.inj_succ, Z.pow_succ_r in Hu, Hw by lia.
    assert (Hdiv : ∀ z, 0 ≤ z < 256 * 256 ^ Z.of_nat n → 0 ≤ z / 256 < 256 ^ Z.of_nat n).
    { intros z Hz. split; [apply Z.div_pos; lia|apply Z.div_lt_upper_bound; lia]. }
    rewrite IH by auto. cbn [app lex_lt]. rewrite !Z_to_byte_to_Z. unfold wrap. change (2 ^ 8) with 256.
    pose proof (Z.div_mod u 256 ltac:(lia)). pose proof (Z.div_mod w 256 ltac:(lia)).
    pose proof (Z.mod_pos_bound u 256 ltac:(lia)). pose proof (Z.mod_pos_bound w 256 ltac:(lia)).
    assert (Heq : bool_decide (Z_to_byte u = Z_to_byte w) = bool_decide (u mod 256 = w mod 256)).
    { apply bool_decide_ext. split; intros Hb; [|unfold Z_to_byte, wrap; change (2 ^ 8) with 256; by rewrite Hb].
      apply (f_equal byte_to_Z) in Hb. rewrite !Z_to_byte_to_Z in Hb. exact Hb. }
    rewrite Heq. repeat case_bool_decide; cbn; try lia; done.
Qed.

(** ** The crate [rocksdb] *)
Section crate.
Context {CF : Type} `{EqDecision CF}.

Inductive BatchOp :=
| Put (cf : CF) (key value : list byte)
| Delete (cf : CF) (key : list byte)
| DeleteRange (cf : CF) (first last : list byte).

(** A write that the database stalled, by its kind and message, or another error. *)
Inductive Error := StalledWrite | OtherError.

Definition apply_op (cf : CF) (m : gmap (list byte) (list byte)) (op : BatchOp) : gmap (list byte) (list byte) :=
  match op with
  | Put cf' key value => if decide (cf' = cf) then <[key := value]> m else m
  | Delete cf' key => if decide (cf' = cf) then delete key m else m
  | DeleteRange cf' first last =>
      if decide (cf' = cf) then filter (λ '(key, _), (lex_le first key && lex_lt key last) = false) m else m
  end.

Class Rocksdb (R : Type) := {
  raw_write : list BatchOp → R → (Error + ()) * R;
  raw_get : R → CF → list byte → Error + option (list byte);
  raw_iter : R → CF → list byte → list (Error + list byte * list byte);
  size_in_bytes : list BatchOp → Z;
  (** The intervals that the clock allows before the timeout. *)
  intervals : R → list Z;
}.

Class RocksdbLaws (R : Type) `{Rocksdb R} := {
  contents : R → CF → gmap (list byte) (list byte);
  raw_write_ok ops (db db' : R) : raw_write ops db = (inr (), db') → ∀ cf, contents db' cf = foldl (apply_op cf) (contents db cf) ops;
  raw_write_err ops (db db' : R) e : raw_write ops db = (inl e, db') → db' = db;
  raw_get_ok (db : R) cf key : raw_get db cf key = inr (contents db cf !! key);
  raw_iter_ok (db : R) cf prefix : ∃ l, raw_iter db cf prefix = inr <$> l ∧
    Sorted (λ a b, lex_le a.1 b.1 = true) l ∧ ∀ kv, kv ∈ l ↔ contents db cf !! kv.1 = Some kv.2 ∧ starts_with prefix kv.1 = true;
}.
End crate.
#[global] Arguments BatchOp : clear implicits.
#[global] Arguments Rocksdb CF R : clear implicits.
#[global] Arguments RocksdbLaws CF {_} R {_}.

(** ** [RocksDB] *)
Section rocksdb.
Context {CF R : Type} `{EqDecision CF} `{Rocksdb CF R}.

Definition max_batch_size : Z := Z.shiftl 128 20.

Definition is_write_stall_error (error : Error) : bool := match error with StalledWrite => true | OtherError => false end.

(** [rocksdb::WriteBatch::from_data] gives back the batch. *)
Fixpoint write_loop (retries : list Z) (stalled_write_reported : bool) (batch : list (BatchOp CF)) (db : R) : (Error + ()) * R :=
  match raw_write batch db with
  | (inr (), db) => (inr (), db)
  | (inl err, db) =>
      if is_write_stall_error err && negb stalled_write_reported then
        match retries with
        | _ :: retries => write_loop retries true batch db
        | [] => (inl err, db)
        end
      else (inl err, db)
  end.

Definition write (batch : list (BatchOp CF)) (db : R) : (Error + ()) * R :=
  if decide (max_batch_size < size_in_bytes batch) then raw_write batch db
  else write_loop (intervals db) false batch db.

Definition get_cf (db : R) (cf : CF) (key : list byte) : Error + option (list byte) := raw_get db cf key.
Definition multi_get_cf (db : R) (cf : CF) (keys : list (list byte)) : list (Error + option (list byte)) := raw_get db cf <$> keys.

(** [Result::unwrap] on each item. *)
Definition prefix_iterator_cf (db : R) (cf : CF) (prefix : list byte) : exec (list (list byte * list byte)) :=
  mapM (λ item, match item with inr kv => Ret kv | inl _ => Panic end) (raw_iter db cf prefix).

(** A stalled write is retried once, whatever the timeout allows. *)
Theorem stalled_write_retried_once batch (db : R) interval retries :
  intervals db = interval :: retries → size_in_bytes batch ≤ max_batch_size →
  write batch db =
    match raw_write batch db with
    | (inl StalledWrite, db') => raw_write batch db'
    | r => r
    end.
Proof.
  intros Hi Hs. unfold write. rewrite decide_False, Hi by lia. cbn [write_loop].
  destruct (raw_write batch db) as [[[]|[]] db']; [|done..]. cbn. destruct retries; cbn [write_loop];
    destruct (raw_write batch db') as [[[]|[]] db'']; done.
Qed.

Context `{!RocksdbLaws CF R}.

Lemma write_ok batch (db db' : R) : write batch db = (inr (), db') → ∀ cf, contents db' cf = foldl (apply_op cf) (contents db cf) batch.
Proof.
  unfold write. case_decide; [by apply raw_write_ok|]. generalize (intervals db), false. intros retries. revert db.
  induction retries as [|i retries IH]; intros db b; cbn [write_loop]; destruct (raw_write batch db) as [[e|[]] db1] eqn:E; try (by intros [= ->]; apply raw_write_ok).
  - by destruct (_ && _).
  - destruct (_ && _); [|done]. apply raw_write_err in E as ->. apply IH.
Qed.

Lemma write_err batch (db db' : R) e : write batch db = (inl e, db') → db' = db.
Proof.
  unfold write. case_decide; [by apply raw_write_err|]. generalize (intervals db), false. intros retries. revert db.
  induction retries as [|i retries IH]; intros db b; cbn [write_loop]; destruct (raw_write batch db) as [[e1|[]] db1] eqn:E; try done.
  - apply raw_write_err in E as ->. destruct (_ && _); by intros [= _ ->].
  - apply raw_write_err in E as ->. destruct (_ && _); [apply IH|by intros [= _ ->]].
Qed.

Lemma prefix_iterator_ok (db : R) cf prefix : ∃ l, prefix_iterator_cf db cf prefix = Ret l ∧
  Sorted (λ a b, lex_le a.1 b.1 = true) l ∧ ∀ kv, kv ∈ l ↔ contents db cf !! kv.1 = Some kv.2 ∧ starts_with prefix kv.1 = true.
Proof.
  destruct (raw_iter_ok db cf prefix) as (l & Hl & Hs & Hin). exists l. split; [|done]. unfold prefix_iterator_cf. rewrite Hl. clear.
  induction l as [|kv l IH]; [done|]. cbn in *. by rewrite IH.
Qed.
End rocksdb.

(** ** A store that stalls for a while *)
Module StallingStore.
(** The number of writes that are still to stall. *)
#[export] Instance store : Rocksdb () nat := {
  raw_write _ n := match n with O => (inr (), O) | S n => (inl StalledWrite, n) end;
  raw_get _ _ _ := inr None;
  raw_iter _ _ _ := [];
  size_in_bytes _ := 0;
  intervals _ := [50; 75; 112];
}.

Lemma stalled_write_retried_once_witness :
  write [] 2%nat =
    match raw_write (CF := ()) [] 2%nat with
    | (inl StalledWrite, db') => raw_write (CF := ()) [] db'
    | r => r
    end.
Proof. apply (stalled_write_retried_once (CF := ()) [] 2%nat 50 [75; 112]); [reflexivity|vm_compute; discriminate]. Defined.
End StallingStore.
