(* ===== verification/MerkleRocksDB.v ===== *)
(** * The tree in RocksDB

    [lib/merkle_tree/src/storage/rocksdb.rs]: the nodes of the tree and the stale keys
    in two column families, as a [Database] and a [PruneDatabase]. The wrapper keeps
    what the tree relies on ([rocks_database_laws], [rocks_prune_laws]), so that the
    theorems on the tree hold of it. Profiling and the pool of threads that reads
    nodes in chunks are left out; [rocks_tree_nodes_ok] is that chunks do not matter. *)
From Stdlib Require Import ZifyNat.
From stdpp Require Import sorting.
From S2P Require Import Prelude SmallMap MerkleTypes MerklePatch MerklePruning MerkleSerialization Rocksdb.
Local Open Scope Z_scope.

Inductive MerkleTreeColumnFamily := Tree | StaleKeys.
#[export] Instance cf_eq_dec : EqDecision MerkleTreeColumnFamily.
Proof. solve_decision. Defined.
Abbreviation cf := MerkleTreeColumnFamily.

Module StaleNodeKey.
Record t := mk { key : NodeKey.t; replaced_in_version : Z }.
Definition new (key : NodeKey.t) (replaced_in_version : Z) : t := mk key replaced_in_version.
Definition to_db_key (self : t) : exec (list byte) :=
  key ← NodeKey.to_db_key (key self); Ret (to_be_bytes 8 (replaced_in_version self) ++ key).
End StaleNodeKey.

(** The orders in which the [HashMap]s of a patch are iterated over. *)
Class PatchOrder := {
  iter_patches : gmap Z PartialPatchSet.t → list (Z * PartialPatchSet.t);
  iter_nodes : gmap NodeKey.t Node.t → list (NodeKey.t * Node.t);
  iter_stale : gmap Z (list NodeKey.t) → list (Z * list NodeKey.t);
}.
Class PatchOrderLaws `{PatchOrder} : Prop := {
  iter_patches_perm m : iter_patches m ≡ₚ map_to_list m;
  iter_nodes_perm m : iter_nodes m ≡ₚ map_to_list m;
  iter_stale_perm m : iter_stale m ≡ₚ map_to_list m;
}.

Definition MANIFEST_KEY : list byte := [x00].

Section wrapper.
Context {R : Type} `{Rocksdb cf R} `{Leb128Crate} `{TagsOrder} `{PatchOrder}.

Definition raw_node (self : R) (key : list byte) : exec (option (list byte)) :=
  match get_cf self Tree key with inr value => Ret value | inl _ => Panic end.

(** [rayon]'s [par_chunks] panics on an empty chunk size. *)
Fixpoint chunks {A} (fuel size : nat) (l : list A) : list (list A) :=
  match fuel, l with
  | S fuel, _ :: _ => take size l :: chunks fuel size (drop size l)
  | _, _ => []
  end.

Definition raw_nodes (multi_get_chunk_size : nat) (self : R) (keys : list (NodeKey.t * bool)) : exec (list (option (list byte))) :=
  assert_then (bool_decide (multi_get_chunk_size ≠ 0%nat))
    (results ← mapM (λ chunk,
        db_keys ← mapM (λ '(key, _), NodeKey.to_db_key key) chunk;
        mapM (λ result, match result with inr value => Ret value | inl _ => Panic end) (multi_get_cf self Tree db_keys))
      (chunks (length keys) multi_get_chunk_size keys);
     Ret (concat results)).

Definition deserialize_node (raw_node : list byte) (key : NodeKey.t) (is_leaf : bool) : exec (DeserializeError.t + Node.t) :=
  node ← if is_leaf then node ← leaf_deserialize raw_node; Ret (node ← node; inr (Node.Leaf node))
         else node ← internal_deserialize raw_node; Ret (node ← node; inr (Node.Internal node));
  Ret (match node with
       | inr node => inr node
       | inl err => inl (DeserializeError.with_context err (if is_leaf then CtxLeaf key else CtxInternalNode key))
       end).

Definition rocks_try_manifest (self : R) : exec (DeserializeError.t + option Manifest.t) :=
  raw_manifest ← raw_node self MANIFEST_KEY;
  match raw_manifest with
  | None => Ret (inr None)
  | Some raw_manifest =>
      manifest ← manifest_deserialize raw_manifest;
      Ret (match manifest with
           | inr manifest => inr (Some manifest)
           | inl err => inl (DeserializeError.with_context err CtxManifest)
           end)
  end.

Definition rocks_try_root (self : R) (version : Z) : exec (DeserializeError.t + option Root.t) :=
  key ← NodeKey.to_db_key (NodeKey.empty version);
  raw_root ← raw_node self key;
  match raw_root with
  | None => Ret (inr None)
  | Some raw_root =>
      root ← root_deserialize raw_root;
      Ret (match root with
           | inr root => inr (Some root)
           | inl err => inl (DeserializeError.with_context err (CtxRoot version))
           end)
  end.

Definition rocks_try_tree_node (self : R) (key : NodeKey.t) (is_leaf : bool) : exec (DeserializeError.t + option Node.t) :=
  db_key ← NodeKey.to_db_key key;
  raw_node ← raw_node self db_key;
  match raw_node with
  | None => Ret (inr None)
  | Some raw_node => node ← deserialize_node raw_node key is_leaf; Ret (node ← node; inr (Some node))
  end.

Definition rocks_tree_nodes (multi_get_chunk_size : nat) (self : R) (keys : list (NodeKey.t * bool)) : exec (list (option Node.t)) :=
  raw_nodes ← raw_nodes multi_get_chunk_size self keys;
  mapM (λ '(maybe_node, (key, is_leaf)),
      match maybe_node with
      | None => Ret None
      | Some raw_node => node ← deserialize_node raw_node key is_leaf; match node with inr node => Ret (Some node) | inl _ => Panic end
      end)
    (zip raw_nodes keys).

(** *** [apply_patch] *)
Definition put_node (acc : list (BatchOp cf)) (node : NodeKey.t * Node.t) : exec (list (BatchOp cf)) :=
  key ← NodeKey.to_db_key node.1; Ret (acc ++ [Put Tree key (node_serialize node.2)]).

(** The operations of one version, in the order they are added to the batch. *)
Definition version_ops (updated_version : option Z) (version : Z) (sub_patch : PartialPatchSet.t) : exec (list (BatchOp cf)) :=
  root_key ← NodeKey.to_db_key (NodeKey.empty version);
  deletion ← if decide (updated_version = Some version) then Ret []
             else next_root_key ← NodeKey.to_db_key (NodeKey.empty (wrap 64 (version + 1))); Ret [DeleteRange Tree root_key next_root_key];
  let root := match PartialPatchSet.root sub_patch with Some root => [Put Tree root_key (root_serialize root)] | None => [] end in
  nodes ← foldM put_node [] (iter_nodes (PartialPatchSet.nodes sub_patch));
  Ret (deletion ++ root ++ nodes).

Definition stale_op (acc : list (BatchOp cf)) (replaced_key : StaleNodeKey.t) : exec (list (BatchOp cf)) :=
  key ← StaleNodeKey.to_db_key replaced_key; Ret (acc ++ [Put StaleKeys key []]).

Definition patch_ops (patch : PatchSet.t) : exec (list (BatchOp cf)) :=
  versions ← foldM (λ acc '(version, sub_patch), ops ← version_ops (PatchSet.updated_version patch) version sub_patch; Ret (acc ++ ops))
    [] (iter_patches (PatchSet.patches_by_version patch));
  let all_stale_keys :=
    '(version, keys) ← iter_stale (PatchSet.stale_keys_by_version patch); (λ key, StaleNodeKey.new key version) <$> keys in
  stale ← foldM stale_op [] all_stale_keys;
  Ret (Put Tree MANIFEST_KEY (manifest_serialize (PatchSet.manifest patch)) :: versions ++ stale).

Definition rocks_write (ops : list (BatchOp cf)) : prog R () () := λ self,
  let '(r, self) := write ops self in
  Ret (match r with inr _ => inr () | inl _ => inl () end, self).

Definition rocks_apply_patch (patch : PatchSet.t) : prog R () () := λ self,
  ops ← patch_ops patch; rocks_write ops self.

#[export] Instance rocks_database : Database R := {
  try_manifest := rocks_try_manifest;
  try_root := rocks_try_root;
  try_tree_node := rocks_try_tree_node;
  apply_patch := rocks_apply_patch;
}.

(** *** Pruning *)
Definition rocks_min_stale_key_version (self : R) : exec (option Z) :=
  kvs ← prefix_iterator_cf self StaleKeys [];
  match kvs with
  | [] => Ret None
  | (key, _) :: _ => assert_then (bool_decide (8 ≤ length key)%nat) (Ret (Some (from_be_bytes (take 8 key))))
  end.

Definition rocks_stale_keys (self : R) (version : Z) : exec (list NodeKey.t) :=
  kvs ← prefix_iterator_cf self StaleKeys (to_be_bytes 8 version);
  mapM (λ '(key, _), NodeKey.from_db_key (drop 8 key)) kvs.

Definition prune_op (acc : list (BatchOp cf)) (pruned_key : NodeKey.t) : exec (list (BatchOp cf)) :=
  key ← NodeKey.to_db_key pruned_key; Ret (acc ++ [Delete Tree key]).

Definition rocks_prune (patch : PrunePatchSet.t) : prog R () () := λ self,
  deletions ← foldM prune_op [] (PrunePatchSet.pruned_node_keys patch);
  let '(first, last) := PrunePatchSet.deleted_stale_key_versions patch in
  rocks_write (deletions ++ [DeleteRange StaleKeys (to_be_bytes 8 first) (to_be_bytes 8 last)]) self.

#[export] Instance rocks_prune_database : PruneDatabase R := {
  min_stale_key_version := rocks_min_stale_key_version;
  stale_keys := rocks_stale_keys;
  prune := rocks_prune;
}.
End wrapper.

(** ** Keys in the database *)
Definition db_key (key : NodeKey.t) : list byte :=
  let n := Nibbles.nibble_count (NodeKey.nibbles key) in
  to_be_bytes 8 (NodeKey.version key) ++ Z_to_byte (Z.of_nat n) :: take ((n + 1) / 2) (Nibbles.bytes (NodeKey.nibbles key)).

Lemma to_db_key_ok key : key_storable key → NodeKey.to_db_key key = Ret (db_key key).
Proof.
  destruct key as [v nib]. intros [Hv (n & x & Hpos & Hnib)]. cbn in Hv, Hnib. subst nib. unfold NodeKey.to_db_key, assert_then. cbn [NodeKey.nibbles].
  rewrite bool_decide_true; [done|]. rewrite Nibbles.length_bytes_of_pos. change (Nibbles.nibble_count (Nibbles.of_pos n x)) with n. destruct Hpos. lia.
Qed.

Lemma from_db_key_ok key : key_storable key → NodeKey.from_db_key (db_key key) = Ret key.
Proof.
  intros Hk. pose proof (to_db_key_ok key Hk) as Hto. destruct key as [v nib]. destruct Hk as [Hv (n & x & Hpos & Hnib)]. cbn in Hv, Hnib. subst nib.
  pose proof (NodeKey.db_key_roundtrip_pos v n x Hv Hpos) as Hr. rewrite Hto in Hr. exact Hr.
Qed.

Lemma db_key_inj k1 k2 : key_storable k1 → key_storable k2 → db_key k1 = db_key k2 → k1 = k2.
Proof. intros H1 H2 Heq. apply from_db_key_ok in H1, H2. rewrite Heq in H1. congruence. Qed.

Lemma empty_storable v : in_width 64 v → key_storable (NodeKey.empty v).
Proof. intros Hv. split; [done|]. exists 0%nat, 0. split; [split; cbn; lia|done]. Qed.

Lemma storable_empty key : key_storable key → NodeKey.is_empty key = true → key = NodeKey.empty (NodeKey.version key).
Proof.
  destruct key as [v nib]. intros [_ (n & x & Hpos & Hnib)] He. cbn in Hnib. subst nib. unfold NodeKey.is_empty in He. apply bool_decide_eq_true in He.
  change (n = 0%nat) in He. subst n. destruct Hpos as [_ Hx]. cbn in Hx. by assert (x = 0) as -> by lia.
Qed.

Lemma db_key_manifest key : db_key key ≠ MANIFEST_KEY.
Proof. unfold db_key, MANIFEST_KEY. intros Heq. apply (f_equal length) in Heq. rewrite length_app, length_to_be_bytes in Heq. cbn in Heq. lia. Qed.

(** The range of keys that is deleted for a version holds exactly its keys. *)
Definition in_version (v : Z) (k : list byte) : bool := lex_le (db_key (NodeKey.empty v)) k && lex_lt k (db_key (NodeKey.empty (v + 1))).

Lemma db_key_empty v : db_key (NodeKey.empty v) = to_be_bytes 8 v ++ [x00].
Proof. reflexivity. Qed.

Lemma in_version_key v key : in_width 64 v → in_width 64 (v + 1) → key_storable key → in_version v (db_key key) = bool_decide (NodeKey.version key = v).
Proof.
  intros [Hv1 Hv2] [_ Hv3] [[Hk1 Hk2] _]. unfold in_version, lex_le. rewrite !db_key_empty. unfold db_key.
  rewrite !lex_be_bytes by (cbn; lia). cbn [lex_lt].
  set (b := Z_to_byte _). assert (Hlt : bool_decide (byte_to_Z b < byte_to_Z x00) = false).
  { apply bool_decide_false. pose proof (byte_to_Z_bound b). change (byte_to_Z x00) with 0. lia. }
  rewrite Hlt. destruct (take _ _); cbn; rewrite andb_false_r; repeat case_bool_decide; cbn; try lia; done.
Qed.

Lemma in_version_manifest v : in_width 64 v → in_version v MANIFEST_KEY = false.
Proof.
  intros _. unfold in_version, lex_le, MANIFEST_KEY. rewrite db_key_empty.
  destruct (to_be_bytes 8 v) as [|b bs] eqn:E; [by apply (f_equal length) in E; rewrite length_to_be_bytes in E|].
  cbn. pose proof (byte_to_Z_bound b). destruct (decide (b = x00)) as [->|Hne].
  - destruct bs; [by apply (f_equal length) in E; rewrite length_to_be_bytes in E|done].
  - rewrite (bool_decide_true (byte_to_Z x00 < byte_to_Z b)); [done|]. change (byte_to_Z x00) with 0 in *.
    assert (byte_to_Z b ≠ 0); [|lia]. intros Hz. apply Hne, byte_to_Z_inj. by rewrite Hz.
Qed.

#[local] Arguments NodeKey.to_db_key : simpl never.
#[local] Arguments NodeKey.from_db_key : simpl never.
#[local] Arguments db_key : simpl never.
#[local] Arguments lex_lt : simpl never.
#[local] Arguments lex_le : simpl never.

(** ** The effect of a batch *)
Section effects.
Context `{Leb128Crate} `{TagsOrder} `{PatchOrder} `{!PatchOrderLaws}.
Implicit Types (m : gmap (list byte) (list byte)).

Definition tree_only (ops : list (BatchOp cf)) : Prop :=
  Forall (λ op, match op with Put cf _ _ | Delete cf _ | DeleteRange cf _ _ => cf = Tree end) ops.

Lemma tree_only_stale ops m : tree_only ops → foldl (apply_op StaleKeys) m ops = m.
Proof using. revert m. induction ops as [|op ops IH]; intros m; [done|]. intros [Hop Hops]%Forall_cons. cbn. rewrite IH by done. by destruct op; subst. Qed.

Lemma apply_put (c : cf) k v m : apply_op c m (Put c k v) = <[k := v]> m.
Proof using. cbn. by rewrite decide_True. Qed.
Lemma apply_delete_range (c : cf) a b m : apply_op c m (DeleteRange c a b) = filter (λ '(key, _), (lex_le a key && lex_lt key b) = false) m.
Proof using. cbn. by rewrite decide_True. Qed.

Definition put_ops (nodes : list (NodeKey.t * Node.t)) : list (BatchOp cf) := (λ '(key, node), Put Tree (db_key key) (node_serialize node)) <$> nodes.

Lemma put_nodes_ok nodes acc :
  Forall (λ kv, key_storable kv.1) nodes → foldM put_node acc nodes = Ret (acc ++ put_ops nodes).
Proof using.
  intros Hn. revert acc. induction Hn as [|[key node] nodes Hk _ IH]; intros acc; [cbn; by rewrite app_nil_r|].
  cbn [foldM]. assert (put_node acc (key, node) = Ret (acc ++ [Put Tree (db_key key) (node_serialize node)])) as ->.
  { unfold put_node. cbn [fst snd]. by rewrite to_db_key_ok. }
  cbn [mbind exec_bind]. by rewrite IH, <-app_assoc.
Qed.

Lemma put_ops_other nodes m k : (∀ key node, (key, node) ∈ nodes → db_key key ≠ k) → foldl (apply_op Tree) m (put_ops nodes) !! k = m !! k.
Proof using.
  revert m. induction nodes as [|[key node] nodes IH]; intros m Hne; [done|]. cbn [put_ops fmap list_fmap foldl].
  fold (put_ops nodes). rewrite IH by (intros ? ? ?; eapply Hne; by right). rewrite apply_put, lookup_insert_ne; [done|]. eapply Hne. left.
Qed.

Lemma put_ops_key (nodes : gmap NodeKey.t Node.t) l m key :
  l ≡ₚ map_to_list nodes → (∀ key node, nodes !! key = Some node → key_storable key) → key_storable key →
  foldl (apply_op Tree) m (put_ops l) !! db_key key = match nodes !! key with Some node => Some (node_serialize node) | None => m !! db_key key end.
Proof using.
  intros Hperm Hsto Hk. assert (Hin : ∀ k n, (k, n) ∈ l ↔ nodes !! k = Some n) by (intros; by rewrite Hperm, elem_of_map_to_list).
  assert (Hnd : NoDup l.*1) by (rewrite Hperm; apply NoDup_fst_map_to_list).
  destruct (nodes !! key) as [node|] eqn:E.
  - apply Hin in E. apply list_elem_of_split in E as (l1 & l2 & ->). unfold put_ops. rewrite fmap_app, foldl_app. cbn [fmap list_fmap foldl].
    fold (put_ops l2). rewrite put_ops_other; [by rewrite apply_put, lookup_insert_eq|]. intros k n Hn Heq.
    assert (Hkn : key_storable k) by (apply (Hsto k n), Hin, elem_of_app; right; by right).
    apply db_key_inj in Heq as ->; [|done..].
    rewrite fmap_app in Hnd. apply NoDup_app in Hnd as (_ & _ & Hnd). cbn in Hnd. apply NoDup_cons in Hnd as [Hnd _].
    apply Hnd. apply list_elem_of_fmap. by exists (key, n).
  - apply put_ops_other. intros k n Hn Heq. apply Hin in Hn. pose proof (Hsto _ _ Hn). by rewrite (db_key_inj k key) in Hn by done; rewrite E in Hn.
Qed.

(** What a part has for a key. *)
Definition part_value (part : PartialPatchSet.t) (key : NodeKey.t) : option (list byte) :=
  if NodeKey.is_empty key then root_serialize <$> PartialPatchSet.root part else node_serialize <$> PartialPatchSet.nodes part !! key.

Definition part_storable (version : Z) (part : PartialPatchSet.t) : Prop :=
  in_width 64 (version + 1) ∧ in_width 64 version ∧
  ∀ key node, PartialPatchSet.nodes part !! key = Some node → NodeKey.version key = version ∧ NodeKey.is_empty key = false ∧ key_storable key.

Lemma version_ops_ok version part :
  part_storable version part → ∃ ops, version_ops None version part = Ret ops ∧ tree_only ops ∧
    (∀ m, foldl (apply_op Tree) m ops !! MANIFEST_KEY = m !! MANIFEST_KEY) ∧
    ∀ m key, key_storable key → foldl (apply_op Tree) m ops !! db_key key =
      if decide (NodeKey.version key = version) then part_value part key else m !! db_key key.
Proof using All.
  intros (Hv1 & Hv & Hnodes). unfold version_ops. rewrite (to_db_key_ok (NodeKey.empty version)) by (by apply empty_storable). cbn [mbind exec_bind].
  rewrite decide_False by done. unfold wrap. rewrite Z.mod_small by apply Hv1. rewrite to_db_key_ok by (by apply empty_storable). cbn [mbind exec_bind].
  rewrite put_nodes_ok.
  2: { apply Forall_forall. intros [key node] Hin. rewrite iter_nodes_perm, elem_of_map_to_list in Hin. cbn. by apply Hnodes in Hin as (_ & _ & ?). }
  cbn [mbind exec_bind app]. eexists. split; [done|]. split; [|split].
  - constructor; [done|]. destruct (PartialPatchSet.root part); cbn [app]; [constructor; [done|]|]; apply Forall_fmap, Forall_true; by intros [].
  - intros m. cbn [app foldl]. rewrite foldl_app. rewrite put_ops_other by (intros ? ? _; apply db_key_manifest).
    assert (Hdel : apply_op Tree m (DeleteRange Tree (db_key (NodeKey.empty version)) (db_key (NodeKey.empty (version + 1)))) !! MANIFEST_KEY = m !! MANIFEST_KEY).
    { rewrite apply_delete_range. destruct (m !! MANIFEST_KEY) eqn:E; [apply map_lookup_filter_Some; split; [done|by apply in_version_manifest]|apply map_lookup_filter_None; by left]. }
    destruct (PartialPatchSet.root part); [|exact Hdel]. cbn [foldl]. rewrite apply_put, lookup_insert_ne by apply db_key_manifest. exact Hdel.
  - intros m key Hk. cbn [app foldl]. rewrite foldl_app.
    set (m1 := apply_op Tree m _). assert (Hm1 : m1 !! db_key key = if decide (NodeKey.version key = version) then None else m !! db_key key).
    { unfold m1. rewrite apply_delete_range. pose proof (in_version_key version key Hv Hv1 Hk) as Hin. unfold in_version in Hin. case_decide as Hd.
      - apply map_lookup_filter_None. right. intros x _. rewrite Hin, bool_decide_true by done. done.
      - destruct (m !! db_key key) eqn:E; [apply map_lookup_filter_Some; split; [done|]; by rewrite Hin, bool_decide_false|apply map_lookup_filter_None; by left]. }
    rewrite (put_ops_key (PartialPatchSet.nodes part)); [|apply iter_nodes_perm|by intros ? ? (_ & _ & ?)%Hnodes|done].
    unfold part_value. destruct (PartialPatchSet.nodes part !! key) as [node|] eqn:En.
    { destruct (Hnodes key node En) as (-> & -> & _). by rewrite decide_True. }
    destruct (NodeKey.is_empty key) eqn:Ee.
    + pose proof (storable_empty key Hk Ee) as Hkey. destruct (PartialPatchSet.root part) as [root|]; cbn [foldl]; [|rewrite Hm1; by case_decide].
      rewrite apply_put. case_decide as Hd; [rewrite Hkey, Hd; by rewrite lookup_insert_eq|]. rewrite lookup_insert_ne, Hm1; [done|].
      intros Heq. apply db_key_inj in Heq; [|by apply empty_storable|done]. by rewrite <-Heq in Hd.
    + destruct (PartialPatchSet.root part) as [root|]; cbn [foldl]; [|rewrite Hm1; by case_decide].
      rewrite apply_put, lookup_insert_ne, Hm1; [by case_decide|]. intros Heq. apply db_key_inj in Heq; [|by apply empty_storable|done].
      rewrite <-Heq in Ee. done.
Qed.

Lemma versions_ops_ok (l : list (Z * PartialPatchSet.t)) acc :
  NoDup l.*1 → Forall (λ '(version, part), part_storable version part) l →
  ∃ ops, foldM (λ acc '(version, sub_patch), ops ← version_ops None version sub_patch; Ret (acc ++ ops)) acc l = Ret (acc ++ ops) ∧ tree_only ops ∧
    (∀ m, foldl (apply_op Tree) m ops !! MANIFEST_KEY = m !! MANIFEST_KEY) ∧
    ∀ m key, key_storable key → foldl (apply_op Tree) m ops !! db_key key =
      match (list_to_map l : gmap Z PartialPatchSet.t) !! NodeKey.version key with Some part => part_value part key | None => m !! db_key key end.
Proof using All.
  revert acc. induction l as [|[v part] l IH]; intros acc Hnd Hl.
  { exists []. cbn. rewrite app_nil_r. split; [done|]. split; [constructor|]. split; [done|]. intros. by rewrite lookup_empty. }
  apply Forall_cons in Hl as [Hpart Hl]. apply NoDup_cons in Hnd as [Hnin Hnd].
  destruct (version_ops_ok v part Hpart) as (ops1 & Hops1 & Ht1 & Hm1 & Hk1). destruct (IH (acc ++ ops1) Hnd Hl) as (ops2 & Hops2 & Ht2 & Hm2 & Hk2).
  exists (ops1 ++ ops2). cbn [foldM]. rewrite Hops1. cbn [mbind exec_bind]. rewrite Hops2, app_assoc. split; [done|].
  split; [by apply Forall_app|]. split; [intros m; by rewrite foldl_app, Hm2|]. intros m key Hk. rewrite foldl_app, Hk2, Hk1 by done. cbn [list_to_map foldr fst snd].
  destruct (decide (NodeKey.version key = v)) as [<-|Hne]; [|by rewrite lookup_insert_ne].
  rewrite lookup_insert_eq. by rewrite not_elem_of_list_to_map_1.
Qed.

Definition stale_db_key (key : StaleNodeKey.t) : list byte := to_be_bytes 8 (StaleNodeKey.replaced_in_version key) ++ db_key (StaleNodeKey.key key).
Definition stale_ops (keys : list StaleNodeKey.t) : list (BatchOp cf) := (λ key, Put StaleKeys (stale_db_key key) []) <$> keys.

Lemma stale_ops_ok keys acc : Forall (λ key, key_storable (StaleNodeKey.key key)) keys → foldM stale_op acc keys = Ret (acc ++ stale_ops keys).
Proof using.
  intros Hk. revert acc. induction Hk as [|key keys Hk _ IH]; intros acc; [cbn; by rewrite app_nil_r|].
  cbn [foldM]. assert (stale_op acc key = Ret (acc ++ [Put StaleKeys (stale_db_key key) []])) as ->.
  { unfold stale_op, StaleNodeKey.to_db_key. by rewrite to_db_key_ok. }
  cbn [mbind exec_bind]. by rewrite IH, <-app_assoc.
Qed.

Lemma stale_ops_tree keys m : foldl (apply_op Tree) m (stale_ops keys) = m.
Proof using. by induction keys. Qed.

Lemma stale_ops_stale keys m k :
  is_Some (foldl (apply_op StaleKeys) m (stale_ops keys) !! k) ↔ is_Some (m !! k) ∨ ∃ key, key ∈ keys ∧ k = stale_db_key key.
Proof using.
  revert m. induction keys as [|key keys IH]; intros m.
  { cbn. split; [by left|]. intros [?|(? & []%not_elem_of_nil & _)]; done. }
  cbn [stale_ops fmap list_fmap foldl]. fold (stale_ops keys). rewrite IH, apply_put. destruct (decide (k = stale_db_key key)) as [->|Hne].
  - rewrite lookup_insert_eq. split; [intros _; right; exists key; split; [left|done]|intros _; left; by eexists].
  - rewrite lookup_insert_ne by done. split.
    + intros [?|(key' & Hin & ->)]; [by left|right]. exists key'. split; [by right|done].
    + intros [?|(key' & Hin & ->)]; [by left|right]. apply elem_of_cons in Hin as [->|Hin]; [done|]. by exists key'.
Qed.

(** ** A patch *)
Definition patch_stale (patch : PatchSet.t) : list StaleNodeKey.t :=
  '(version, keys) ← iter_stale (PatchSet.stale_keys_by_version patch); (λ key, StaleNodeKey.new key version) <$> keys.

Lemma elem_of_patch_stale patch key v :
  StaleNodeKey.mk key v ∈ patch_stale patch ↔ ∃ keys, PatchSet.stale_keys_by_version patch !! v = Some keys ∧ key ∈ keys.
Proof using All.
  unfold patch_stale. rewrite list_elem_of_bind. split.
  - intros ([v' keys] & Hin & Hl). rewrite iter_stale_perm, elem_of_map_to_list in Hl. apply list_elem_of_fmap in Hin as (key' & [= -> ->] & ?). by exists keys.
  - intros (keys & Hl & Hin). exists (v, keys). split; [apply list_elem_of_fmap; by exists key|]. by rewrite iter_stale_perm, elem_of_map_to_list.
Qed.

Lemma patch_ops_ok patch :
  patch_storable patch → ∃ ops, patch_ops patch = Ret ops ∧
    (∀ m, foldl (apply_op Tree) m ops !! MANIFEST_KEY = Some (manifest_serialize (PatchSet.manifest patch))) ∧
    (∀ m key, key_storable key → foldl (apply_op Tree) m ops !! db_key key =
      match PatchSet.patches_by_version patch !! NodeKey.version key with Some part => part_value part key | None => m !! db_key key end) ∧
    ∀ m k, is_Some (foldl (apply_op StaleKeys) m ops !! k) ↔ is_Some (m !! k) ∨ ∃ key, key ∈ patch_stale patch ∧ k = stale_db_key key.
Proof using All.
  intros [Hu Hman Hparts Hstale]. set (l := iter_patches (PatchSet.patches_by_version patch)).
  assert (Hperm : l ≡ₚ map_to_list (PatchSet.patches_by_version patch)) by apply iter_patches_perm.
  destruct (versions_ops_ok l []) as (ops & Hops & Htree & Hm & Hk).
  { rewrite Hperm. apply NoDup_fst_map_to_list. }
  { apply Forall_forall. intros [v part] Hin. rewrite Hperm, elem_of_map_to_list in Hin. destruct (Hparts v part Hin) as (? & ? & _ & Hn).
    split; [done|]. split; [done|]. intros key node Hkn. by destruct (Hn key node Hkn) as (? & ? & ? & _). }
  unfold patch_ops. rewrite Hu. fold l. rewrite Hops. cbn [mbind exec_bind app]. fold (patch_stale patch).
  rewrite stale_ops_ok.
  2: { apply Forall_forall. intros [key v] Hin. apply elem_of_patch_stale in Hin as (keys & Hl & Hin). destruct (Hstale v keys Hl) as [_ Hf].
       by eapply Forall_forall in Hf. }
  cbn [mbind exec_bind app]. eexists. split; [done|]. split; [|split].
  - intros m. cbn [foldl]. rewrite foldl_app, stale_ops_tree, Hm, apply_put. apply lookup_insert_eq.
  - intros m key Hkey. cbn [foldl]. rewrite foldl_app, stale_ops_tree, Hk, apply_put by done.
    assert ((list_to_map l : gmap Z PartialPatchSet.t) = PatchSet.patches_by_version patch) as ->.
    { rewrite <-(list_to_map_to_list (PatchSet.patches_by_version patch)). apply list_to_map_proper; [rewrite Hperm; apply NoDup_fst_map_to_list|done]. }
    destruct (PatchSet.patches_by_version patch !! NodeKey.version key); [done|]. apply lookup_insert_ne. intros Heq. by apply (db_key_manifest key).
  - intros m k. cbn [foldl]. rewrite foldl_app, (tree_only_stale ops) by done. apply stale_ops_stale.
Qed.
End effects.

(** ** The laws *)
Section laws.
Context {R : Type} `{Rocksdb cf R} `{!RocksdbLaws cf R}.
Context `{Leb128Crate} `{!Leb128Laws} `{TagsOrder} `{!TagsOrderLaws} `{PatchOrder} `{!PatchOrderLaws}.
Implicit Types (db : R).

Lemma raw_node_ok db key : raw_node db key = Ret (contents db Tree !! key).
Proof using. unfold raw_node, get_cf. by rewrite raw_get_ok. Qed.

(** The values of the keys determine what is read. *)
Lemma manifest_read db : manifest db = or_panic (match contents db Tree !! MANIFEST_KEY with
  | None => Ret (inr None)
  | Some raw => m ← manifest_deserialize raw; Ret (match m with inr m => inr (Some m) | inl err => inl (DeserializeError.with_context err CtxManifest) end)
  end).
Proof using. unfold manifest. cbn. unfold rocks_try_manifest. rewrite raw_node_ok. done. Qed.

Lemma root_read db version : in_width 64 version → root db version = or_panic (match contents db Tree !! db_key (NodeKey.empty version) with
  | None => Ret (inr None)
  | Some raw => r ← root_deserialize raw; Ret (match r with inr r => inr (Some r) | inl err => inl (DeserializeError.with_context err (CtxRoot version)) end)
  end).
Proof using. intros Hv. unfold root. cbn. unfold rocks_try_root. rewrite to_db_key_ok by (by apply empty_storable). cbn. by rewrite raw_node_ok. Qed.

Lemma tree_node_read db key is_leaf : key_storable key → tree_node db key is_leaf = or_panic (match contents db Tree !! db_key key with
  | None => Ret (inr None)
  | Some raw => node ← deserialize_node raw key is_leaf; Ret (node ← node; inr (Some node))
  end).
Proof using. intros Hk. unfold tree_node. cbn. unfold rocks_try_tree_node. rewrite to_db_key_ok by done. cbn. by rewrite raw_node_ok. Qed.

Lemma rocks_write_ok ops db db' : rocks_write ops db = Ret (inr (), db') → ∀ cf, contents db' cf = foldl (apply_op cf) (contents db cf) ops.
Proof using. unfold rocks_write. destruct (write ops db) as [[e|[]] db1] eqn:E; [done|]. intros [= <-]. by apply write_ok. Qed.

Lemma rocks_write_err ops db db' e : rocks_write ops db = Ret (inl e, db') → db' = db.
Proof using RocksdbLaws0. unfold rocks_write. destruct (write ops db) as [[e'|[]] db1] eqn:E; [|done]. intros [= _ <-]. by eapply write_err. Qed.

Lemma rocks_apply_ok patch db db' :
  patch_storable patch → apply_patch patch db = Ret (inr (), db') →
  contents db' Tree !! MANIFEST_KEY = Some (manifest_serialize (PatchSet.manifest patch)) ∧
  (∀ key, key_storable key → contents db' Tree !! db_key key =
    match PatchSet.patches_by_version patch !! NodeKey.version key with Some part => part_value part key | None => contents db Tree !! db_key key end) ∧
  ∀ k, is_Some (contents db' StaleKeys !! k) ↔ is_Some (contents db StaleKeys !! k) ∨ ∃ key, key ∈ patch_stale patch ∧ k = stale_db_key key.
Proof using All.
  intros Hp. cbn. unfold rocks_apply_patch. destruct (patch_ops_ok patch Hp) as (ops & -> & Hm & Hk & Hs). cbn [mbind exec_bind].
  intros Hw. pose proof (rocks_write_ok _ _ _ Hw) as Hc. rewrite !Hc. split; [apply Hm|]. split; [intros; by apply Hk|]. intros k. apply Hs.
Qed.

#[export] Instance rocks_database_laws : DatabaseLaws R.
Proof using All.
  unshelve refine {| db_ok (_ : R) := True |}.
  - intros p db Hp. cbn. unfold rocks_apply_patch. destruct (patch_ops_ok p Hp) as (ops & -> & _). cbn. unfold rocks_write. by destruct (write ops db).
  - intros p db db' e. cbn. unfold rocks_apply_patch. destruct (patch_ops p) as [ops|]; [|done]. cbn. apply rocks_write_err.
  - done.
  - intros p db db' [Hp _] Ha. destruct (rocks_apply_ok p db db' Hp Ha) as (Hm & _). rewrite manifest_read, Hm.
    rewrite manifest_roundtrip by apply Hp. done.
  - intros p db db' version [Hp _] Ha Hv. assert (Hw : in_width 64 version) by (destruct (storable_manifest _ Hp) as [[_ ?] _]; split; lia).
    destruct (rocks_apply_ok p db db' Hp Ha) as (_ & Hk & _). rewrite !root_read by done. rewrite Hk by (by apply empty_storable). cbn [NodeKey.version NodeKey.empty].
    destruct (PatchSet.patches_by_version p !! version) as [part|] eqn:E; [|done]. unfold part_value.
    change (NodeKey.is_empty (NodeKey.empty version)) with true. cbn iota. destruct (PartialPatchSet.root part) as [r|] eqn:Er; [|done]. cbn [fmap option_fmap option_map].
    destruct (storable_part _ Hp version part E) as (_ & _ & Hr & _). by rewrite root_roundtrip by (by apply Hr).
  - intros p db db' key is_leaf [Hp _] Ha Hkey He Hlt. destruct (rocks_apply_ok p db db' Hp Ha) as (_ & Hk & _). rewrite !tree_node_read, Hk by done.
    destruct (PatchSet.patches_by_version p !! NodeKey.version key) as [part|] eqn:E; [|done]. unfold part_value. rewrite He.
    destruct (PartialPatchSet.nodes part !! key) as [node|] eqn:En; [|done]. cbn [fmap option_fmap option_map]. intros ->.
    destruct (storable_part _ Hp _ part E) as (_ & _ & _ & Hn). destruct (Hn key node En) as (_ & _ & _ & Hnode).
    pose proof (node_roundtrip node Hnode) as Hr. unfold deserialize_node. destruct node; cbn [Node.is_leaf]; by rewrite Hr.
Defined.

(** *** The stale keys *)
Lemma rocks_stale_keys_inv db version keys :
  rocks_stale_keys db version = Ret keys →
  (∀ k, is_Some (contents db StaleKeys !! k) → starts_with (to_be_bytes 8 version) k = true → ∃ key, NodeKey.from_db_key (drop 8 k) = Ret key) ∧
  ∀ key, key ∈ keys ↔ ∃ k, is_Some (contents db StaleKeys !! k) ∧ starts_with (to_be_bytes 8 version) k = true ∧ NodeKey.from_db_key (drop 8 k) = Ret key.
Proof using.
  unfold rocks_stale_keys. destruct (prefix_iterator_ok db StaleKeys (to_be_bytes 8 version)) as (l & -> & _ & Hl). cbn [mbind exec_bind]. intros Hm.
  assert (Hf : Forall2 (λ kv key, NodeKey.from_db_key (drop 8 kv.1) = Ret key) l keys).
  { clear Hl. revert keys Hm. induction l as [|[k v] l IH]; intros keys Hm; cbn in Hm; [injection Hm as <-; constructor|].
    destruct (NodeKey.from_db_key (drop 8 k)) as [key|] eqn:E; [|done]. cbn in Hm. destruct (mapM _ l) as [keys'|]; [|done]. injection Hm as <-.
    constructor; [done|by apply IH]. }
  split.
  - intros k [v Hv] Hs. assert (Hin : (k, v) ∈ l) by (by apply Hl). apply list_elem_of_lookup in Hin as [i Hi].
    destruct (Forall2_lookup_l _ _ _ _ _ Hf Hi) as (key & _ & Hkey). by exists key.
  - intros key. split.
    + intros [i Hi]%list_elem_of_lookup. destruct (Forall2_lookup_r _ _ _ _ _ Hf Hi) as ([k v] & Hk & Hfrom). apply list_elem_of_lookup_2, Hl in Hk as [Hk Hs].
      exists k. split; [by exists v|done].
    + intros (k & [v Hv] & Hs & Hfrom). assert (Hin : (k, v) ∈ l) by (by apply Hl). apply list_elem_of_lookup in Hin as [i Hi].
      destruct (Forall2_lookup_l _ _ _ _ _ Hf Hi) as (key' & Hkey' & Hfrom'). cbn in Hfrom'. rewrite Hfrom in Hfrom'. injection Hfrom' as <-.
      by eapply list_elem_of_lookup_2.
Qed.

Lemma rocks_stale_keys_ret db version :
  (∀ k, is_Some (contents db StaleKeys !! k) → starts_with (to_be_bytes 8 version) k = true → ∃ key, NodeKey.from_db_key (drop 8 k) = Ret key) →
  ∃ keys, rocks_stale_keys db version = Ret keys.
Proof using.
  intros Hk. unfold rocks_stale_keys. destruct (prefix_iterator_ok db StaleKeys (to_be_bytes 8 version)) as (l & -> & _ & Hl). cbn [mbind exec_bind].
  destruct (mapM_Ret (λ _ _, True) (λ '(key, _), NodeKey.from_db_key (drop 8 key)) l) as (keys & -> & _); [|by exists keys].
  apply Forall_forall. intros [k v] Hin. apply Hl in Hin as [Hv Hs]. destruct (Hk k) as [key Hkey]; [by exists v|done|]. by exists key.
Qed.

Definition del_ops (keys : list NodeKey.t) : list (BatchOp cf) := (λ key, Delete Tree (db_key key)) <$> keys.

Lemma del_ops_ok keys acc : Forall key_storable keys → foldM prune_op acc keys = Ret (acc ++ del_ops keys).
Proof using.
  intros Hk. revert acc. induction Hk as [|key keys Hk _ IH]; intros acc; [cbn; by rewrite app_nil_r|].
  cbn [foldM]. assert (prune_op acc key = Ret (acc ++ [Delete Tree (db_key key)])) as -> by (unfold prune_op; by rewrite to_db_key_ok).
  cbn [mbind exec_bind]. by rewrite IH, <-app_assoc.
Qed.

Lemma del_ops_tree (keys : list NodeKey.t) (m : gmap (list byte) (list byte)) k :
  foldl (apply_op Tree) m (del_ops keys) !! k = m !! k ∨
  foldl (apply_op Tree) m (del_ops keys) !! k = None ∧ ∃ key, key ∈ keys ∧ k = db_key key.
Proof using.
  induction keys as [|key keys IH] using rev_ind; [by left|]. unfold del_ops in *. rewrite fmap_app, foldl_app. cbn [fmap list_fmap foldl apply_op].
  rewrite decide_True by done. destruct (decide (k = db_key key)) as [->|Hne].
  - right. rewrite lookup_delete_eq. split; [done|]. exists key. split; [apply elem_of_app; right; left|done].
  - rewrite lookup_delete_ne by done. destruct IH as [?|(? & key' & ? & ?)]; [by left|right]. split; [done|]. exists key'. split; [apply elem_of_app; by left|done].
Qed.

Lemma del_ops_stale (keys : list NodeKey.t) (m : gmap (list byte) (list byte)) : foldl (apply_op StaleKeys) m (del_ops keys) = m.
Proof using. by induction keys. Qed.

Lemma rocks_prune_ok p db db' :
  prune_storable p → prune p db = Ret (inr (), db') →
  (∀ k, contents db' Tree !! k = contents db Tree !! k ∨
    contents db' Tree !! k = None ∧ ∃ key, key ∈ PrunePatchSet.pruned_node_keys p ∧ k = db_key key) ∧
  ∀ k, is_Some (contents db' StaleKeys !! k) → is_Some (contents db StaleKeys !! k).
Proof using.
  intros Hp. cbn. unfold rocks_prune. rewrite del_ops_ok by done. cbn [mbind exec_bind app]. destruct (PrunePatchSet.deleted_stale_key_versions p) as [a b].
  intros Hw. pose proof (rocks_write_ok _ _ _ Hw) as Hc. split; intros k; rewrite Hc, foldl_app; cbn [foldl].
  - change (apply_op Tree ?m _) with m. apply del_ops_tree.
  - rewrite del_ops_stale, apply_delete_range. intros [v Hv]. apply map_lookup_filter_Some in Hv as [Hv _]. by exists v.
Qed.

Lemma rocks_stale_subset db db' version keys new :
  (∀ k, is_Some (contents db' StaleKeys !! k) → is_Some (contents db StaleKeys !! k) ∨ ∃ key, key ∈ new ∧ k = stale_db_key key) →
  Forall (λ key, key_storable (StaleNodeKey.key key) ∧ in_width 64 (StaleNodeKey.replaced_in_version key)) new →
  in_width 64 version → rocks_stale_keys db version = Ret keys →
  ∃ keys', rocks_stale_keys db' version = Ret keys' ∧
    ∀ key, key ∈ keys' → key ∈ keys ∨ StaleNodeKey.mk key version ∈ new.
Proof using.
  intros Hsub Hnew Hw Hkeys. destruct (rocks_stale_keys_inv db version keys Hkeys) as [Hfrom Hin].
  assert (Hnk : ∀ key, key ∈ new → starts_with (to_be_bytes 8 version) (stale_db_key key) = true →
    StaleNodeKey.replaced_in_version key = version ∧ NodeKey.from_db_key (drop 8 (stale_db_key key)) = Ret (StaleNodeKey.key key)).
  { intros [key u] Hk Hs. apply (proj1 (Forall_forall _ _) Hnew) in Hk as [Hk Hu]. cbn in Hk, Hu |- *. unfold stale_db_key in *.
    cbn [StaleNodeKey.key StaleNodeKey.replaced_in_version] in *. rewrite drop_be_bytes. split; [|by apply from_db_key_ok].
    unfold starts_with in Hs. apply bool_decide_eq_true in Hs. rewrite length_to_be_bytes, take_be_bytes in Hs.
    apply (f_equal from_be_bytes) in Hs. by rewrite !(be_bytes_roundtrip 8 _ 64) in Hs. }
  destruct (rocks_stale_keys_ret db' version) as [keys' Hkeys'].
  { intros k Hk Hs. destruct (Hsub k Hk) as [Hold|(key & Hk' & ->)]; [by apply Hfrom|]. exists (StaleNodeKey.key key). by apply Hnk. }
  exists keys'. split; [done|]. intros key Hk. apply (rocks_stale_keys_inv db' version keys' Hkeys') in Hk as (k & Hk & Hs & Hkey).
  destruct (Hsub k Hk) as [Hold|(sk & Hsk & ->)]; [left; apply Hin; by exists k|]. right. destruct (Hnk sk Hsk Hs) as [Hv Hkey']. rewrite Hkey in Hkey'.
  injection Hkey' as ->. destruct sk as [key u]. cbn in *. by subst u.
Qed.

#[export] Instance rocks_prune_laws : PruneDatabaseLaws R.
Proof using All.
  unshelve refine {| stale_bounded db := ∀ k, is_Some (contents db StaleKeys !! k) → (8 ≤ length k)%nat |}.
  - intros p db Hp. cbn. unfold rocks_prune. rewrite del_ops_ok by done. cbn. destruct (PrunePatchSet.deleted_stale_key_versions p).
    unfold rocks_write. by destruct (write _ db).
  - intros p db db' e. cbn. unfold rocks_prune. destruct (foldM prune_op _ _) as [ops|]; [|done]. cbn. destruct (PrunePatchSet.deleted_stale_key_versions p).
    apply rocks_write_err.
  - done.
  - intros p db db' Hp Hw. destruct (rocks_prune_ok p db db' Hp Hw) as [Ht _]. rewrite !manifest_read.
    destruct (Ht MANIFEST_KEY) as [-> |(_ & key & _ & Heq)]; [done|]. by apply eq_sym, db_key_manifest in Heq.
  - intros p db db' version Hp Hw Hv. destruct (rocks_prune_ok p db db' Hp Hw) as [Ht _]. rewrite !root_read by done.
    destruct (Ht (db_key (NodeKey.empty version))) as [-> |(-> & key & Hk & Heq)]; [by left|right]. split; [done|].
    apply db_key_inj in Heq as <-; [|by apply empty_storable|by eapply Forall_forall in Hp]. by exists (NodeKey.empty version).
  - intros p db db' key is_leaf Hp Hw Hk He. destruct (rocks_prune_ok p db db' Hp Hw) as [Ht _]. rewrite !tree_node_read by done.
    destruct (Ht (db_key key)) as [-> |(-> & key' & Hk' & Heq)]; [by left|right]. split; [done|].
    apply db_key_inj in Heq as <-; [done|done|by eapply Forall_forall in Hp].
  - intros p db db' version keys Hp Hw Hv Hk. destruct (rocks_prune_ok p db db' Hp Hw) as [_ Hs].
    destruct (rocks_stale_subset db db' version keys [] ltac:(by left; apply Hs) ltac:(done) Hv Hk) as (keys' & Hk' & Hsub). exists keys'. split; [done|].
    intros key Hin. by destruct (Hsub key Hin) as [?|[]%not_elem_of_nil].
  - intros p db db' Hp Hw Hb k Hk. destruct (rocks_prune_ok p db db' Hp Hw) as [_ Hs]. by apply Hb, Hs.
  - intros p db db' version keys Hp Ha Hv Hk. destruct (rocks_apply_ok p db db' Hp Ha) as (_ & _ & Hs).
    destruct (rocks_stale_subset db db' version keys (patch_stale p)) as (keys' & Hk' & Hsub); [by intros k ?%Hs| |done|done|].
    + apply Forall_forall. intros [key u] (keys0 & Hl & Hin)%elem_of_patch_stale. destruct (storable_stale _ Hp u keys0 Hl) as [? Hf]. split; [by eapply Forall_forall in Hf|done].
    + exists keys'. split; [done|]. intros key Hin. apply elem_of_app. destruct (Hsub key Hin) as [?|Hnew]; [by left|right].
      apply elem_of_patch_stale in Hnew as (keys0 & -> & ?). done.
  - intros p db db' Hp Ha Hb k Hk. destruct (rocks_apply_ok p db db' Hp Ha) as (_ & _ & Hs). apply Hs in Hk as [?|(key & _ & ->)]; [by apply Hb|].
    unfold stale_db_key. rewrite length_app, length_to_be_bytes. lia.
  - intros db Hb. cbn. unfold rocks_min_stale_key_version. destruct (prefix_iterator_ok db StaleKeys []) as (l & -> & _ & Hl). cbn [mbind exec_bind].
    destruct l as [|[k v] l]; [by eexists|]. unfold assert_then. assert (Hk : (8 ≤ length k)%nat). { apply Hb. exists v. by apply (Hl (k, v)); left. }
    rewrite bool_decide_true by done. eexists. split; [done|]. intros version [= <-]. apply (from_be_bytes_width 8). rewrite length_take. lia.
Defined.

Lemma rocks_apply_failed patch db db' e : apply_patch patch db = Ret (inl e, db') → ∃ ops, rocks_write ops db = Ret (inl e, db').
Proof using. cbn. unfold rocks_apply_patch. destruct (patch_ops patch) as [ops|]; [|done]. by exists ops. Qed.

Lemma rocks_prune_failed patch db db' e : prune patch db = Ret (inl e, db') → ∃ ops, rocks_write ops db = Ret (inl e, db').
Proof using.
  cbn. unfold rocks_prune. destruct (foldM prune_op _ _) as [ops|]; [|done]. cbn. destruct (PrunePatchSet.deleted_stale_key_versions patch). by eexists.
Qed.

(** *** Reading many nodes *)
Lemma concat_chunks {A} (fuel size : nat) (l : list A) : size ≠ 0%nat → (length l ≤ fuel)%nat → concat (chunks fuel size l) = l.
Proof using.
  intros Hs. revert l. induction fuel as [|fuel IH]; intros [|a l] Hl; [done|cbn in Hl; lia|done|]. cbn [chunks concat].
  rewrite IH by (rewrite length_drop; cbn [length] in *; lia). apply take_drop.
Qed.

Lemma chunks_subset {A} (P : A → Prop) (fuel size : nat) (l : list A) : Forall P l → Forall (Forall P) (chunks fuel size l).
Proof using.
  revert l. induction fuel as [|fuel IH]; intros [|a l] Hl; [constructor..|]. cbn [chunks]. constructor; [by apply Forall_take|]. by apply IH, Forall_drop.
Qed.

Lemma raw_nodes_ok db chunk_size keys :
  chunk_size ≠ 0%nat → Forall (λ k, key_storable k.1) keys →
  raw_nodes chunk_size db keys = Ret ((λ k : NodeKey.t * bool, contents db Tree !! db_key k.1) <$> keys).
Proof using.
  intros Hc Hk. unfold raw_nodes, assert_then. rewrite bool_decide_true by done.
  assert (Hchunk : ∀ chunk, Forall (λ k : NodeKey.t * bool, key_storable k.1) chunk →
    (db_keys ← mapM (λ '(key, _), NodeKey.to_db_key key) chunk;
     mapM (λ result, match result with inr value => Ret value | inl _ => Panic end) (multi_get_cf db Tree db_keys)) =
    Ret ((λ k : NodeKey.t * bool, contents db Tree !! db_key k.1) <$> chunk)).
  { induction 1 as [|[key b] chunk Hkey _ IH]; [done|]. cbn in Hkey. cbn [mapM]. rewrite to_db_key_ok by done. cbn [mbind exec_bind].
    destruct (mapM (λ '(key, _), NodeKey.to_db_key key) chunk) as [ks|]; [|done]. cbn [mbind exec_bind mret exec_ret] in *.
    unfold multi_get_cf in *. cbn [fmap list_fmap mapM]. rewrite raw_get_ok. cbn [mbind exec_bind]. rewrite IH. done. }
  assert (Hall : ∀ cs, Forall (Forall (λ k : NodeKey.t * bool, key_storable k.1)) cs →
    mapM (λ chunk, db_keys ← mapM (λ '(key, _), NodeKey.to_db_key key) chunk;
      mapM (λ result, match result with inr value => Ret value | inl _ => Panic end) (multi_get_cf db Tree db_keys)) cs =
    Ret ((λ c : list (NodeKey.t * bool), (λ k : NodeKey.t * bool, contents db Tree !! db_key k.1) <$> c) <$> cs)).
  { induction 1 as [|c cs Hc0 _ IH]; [done|]. cbn [mapM]. rewrite Hchunk by done. cbn [mbind exec_bind]. by rewrite IH. }
  rewrite Hall by (by apply chunks_subset). cbn [mbind exec_bind]. f_equal.
  rewrite <-(concat_chunks (length keys) chunk_size keys) at 3 by (done || lia). generalize (chunks (length keys) chunk_size keys). clear.
  induction l as [|c cs IH]; [done|]. cbn. by rewrite fmap_app, IH.
Qed.

(** Reading nodes in chunks is reading them one by one. *)
Theorem rocks_tree_nodes_ok db chunk_size keys :
  chunk_size ≠ 0%nat → Forall (λ k, key_storable k.1) keys → rocks_tree_nodes chunk_size db keys = tree_nodes db keys.
Proof using RocksdbLaws0.
  intros Hc Hk. unfold rocks_tree_nodes. rewrite raw_nodes_ok by done. cbn [mbind exec_bind]. unfold tree_nodes.
  induction Hk as [|[key is_leaf] keys Hkey _ IH]; [done|]. cbn in Hkey. cbn [fmap list_fmap zip zip_with mapM fst]. rewrite tree_node_read by done.
  assert (Hone : match contents db Tree !! db_key key with
    | None => Ret None
    | Some raw => node ← deserialize_node raw key is_leaf; match node with inr node => Ret (Some node) | inl _ => Panic end
    end = or_panic match contents db Tree !! db_key key with
    | None => Ret (inr None)
    | Some raw => node ← deserialize_node raw key is_leaf; Ret (node ← node; inr (Some node))
    end) by (destruct (contents db Tree !! db_key key); [|done]; by destruct (deserialize_node _ _ _) as [[]|]).
  rewrite Hone. destruct (or_panic _) as [o|]; [|done]. cbn [mbind exec_bind]. by rewrite IH.
Qed.
End laws.

(** ** A store in memory *)
Module MapStore.
Record t := mk { tree : gmap (list byte) (list byte); stale : gmap (list byte) (list byte) }.
Definition family (db : t) (c : cf) : gmap (list byte) (list byte) := match c with Tree => tree db | StaleKeys => stale db end.
Definition kv_le (a b : list byte * list byte) : Prop := lex_le a.1 b.1 = true.
#[local] Instance kv_le_dec : RelDecision kv_le := λ a b, decide (lex_le a.1 b.1 = true).

#[local] Instance kv_le_total : Total kv_le.
Proof. intros [a u] [b w]. unfold kv_le, lex_le. cbn [fst]. destruct (lex_lt b a) eqn:E; [right; by rewrite (lex_lt_asym b a)|by left]. Qed.

Definition listing (m : gmap (list byte) (list byte)) (prefix : list byte) : list (list byte * list byte) :=
  merge_sort kv_le (filter (λ kv, starts_with prefix kv.1 = true) (map_to_list m)).

#[export] Instance rocksdb : Rocksdb cf t := {
  raw_write ops db := (inr (), mk (foldl (apply_op Tree) (tree db) ops) (foldl (apply_op StaleKeys) (stale db) ops));
  raw_get db c key := inr (family db c !! key);
  raw_iter db c prefix := inr <$> listing (family db c) prefix;
  size_in_bytes _ := 0;
  intervals _ := [];
}.

#[export] Instance rocksdb_laws : RocksdbLaws cf t.
Proof.
  unshelve refine {| contents := family |}.
  - intros ops db db' [= <-] []; done.
  - done.
  - done.
  - intros db c prefix. exists (listing (family db c) prefix). split; [done|]. split; [apply (Sorted_merge_sort kv_le)|].
    intros [k v]. unfold listing. rewrite merge_sort_Permutation, list_elem_of_filter, elem_of_map_to_list. cbn. naive_solver.
Defined.

Definition empty : t := mk ∅ ∅.

#[export] Instance order : PatchOrder := {| iter_patches := map_to_list; iter_nodes := map_to_list; iter_stale := map_to_list |}.
Lemma order_laws : PatchOrderLaws.
Proof. by split. Qed.
#[export] Instance tags_order : TagsOrder := map_to_list.
Lemma tags_order_laws : TagsOrderLaws.
Proof. by intros tags. Qed.
End MapStore.
