(* ===== verification/MerkleDrain.v ===== *)
(** * Progress of the pruner

    The pruner removes a bounded number of nodes at a time. Here: each call either
    finds nothing to remove or removes all keys replaced in the least version that has
    any, so that the pruner's loop of [lib/merkle_tree/src/pruning.rs] gets rid of all
    that was replaced up to its target. *)
From Stdlib Require Import ZifyNat.
From stdpp Require Import sorting.
From S2P Require Import Prelude SmallMap MerkleTypes MerkleHash MerklePatch MerkleStorage MerkleView.
From S2P Require Import MerkleInvariant MerkleRefine MerklePruning MerkleSerialization Rocksdb MerkleRocksDB.
Local Open Scope Z_scope.

(** ** What is removed *)

(** The database has no node at [key]; the key of a root has no nibbles. *)
Definition absent {DB : Type} `{Database DB} (db : DB) (key : NodeKey.t) : Prop :=
  if NodeKey.is_empty key then root db (NodeKey.version key) = Ret None else ∀ is_leaf, tree_node db key is_leaf = Ret None.

Class PruneProgressLaws (DB : Type) `{PruneDatabaseLaws DB} : Prop := {
  prune_deletes p (db db' : DB) version keys :
    prune_storable p → prune p db = Ret (inr (), db') →
    let '(first, last) := PrunePatchSet.deleted_stale_key_versions p in
    in_width 64 first → in_width 64 last → first ≤ version < last → stale_keys db' version = Ret keys → keys = [];
  prune_removes p (db db' : DB) key :
    prune_storable p → prune p db = Ret (inr (), db') → key ∈ PrunePatchSet.pruned_node_keys p → absent db' key;
  prune_keeps p (db db' : DB) version keys :
    prune_storable p → prune p db = Ret (inr (), db') →
    let '(first, last) := PrunePatchSet.deleted_stale_key_versions p in
    in_width 64 first → in_width 64 last → in_width 64 version → ¬ first ≤ version < last → stale_keys db version = Ret keys →
    ∃ keys', stale_keys db' version = Ret keys' ∧ keys ⊆ keys';
  min_stale_none (db : DB) version keys :
    min_stale_key_version db = Ret None → in_width 64 version → stale_keys db version = Ret keys → keys = [];
  min_stale_least (db : DB) least version keys :
    stale_bounded db → min_stale_key_version db = Ret (Some least) → in_width 64 version → version < least →
    stale_keys db version = Ret keys → keys = [];
  min_stale_some (db : DB) least keys :
    stale_bounded db → min_stale_key_version db = Ret (Some least) → stale_keys db least = Ret keys → keys ≠ [];
}.

Lemma least_le (l : list Z) v a :
  foldr (λ version least, Some (match least with None => version | Some least => Z.min version least end)) None l = Some v → a ∈ l → v ≤ a.
Proof.
  revert v. induction l as [|b l IH]; intros v Hv Ha; [by apply not_elem_of_nil in Ha|]. cbn in Hv. injection Hv as <-.
  destruct (foldr _ _ l) as [least|] eqn:E.
  - apply elem_of_cons in Ha as [->|Ha]; [lia|]. specialize (IH least eq_refl Ha). lia.
  - pose proof (least_found l) as Hl. rewrite E in Hl. subst l. by apply list_elem_of_singleton in Ha as ->.
Qed.

(** A pruned key stays without a node in a patch. *)
Definition part_absent (patches : gmap Z PartialPatchSet.t) (key : NodeKey.t) : Prop :=
  ∀ part, patches !! NodeKey.version key = Some part →
    if NodeKey.is_empty key then PartialPatchSet.root part = None else PartialPatchSet.nodes part !! key = None.

Lemma prune_key_own patches key : part_absent (prune_key patches key) key.
Proof.
  unfold part_absent, prune_key. intros part. destruct (patches !! NodeKey.version key) as [patch|] eqn:E; [|congruence].
  rewrite lookup_insert_eq. intros [= <-]. destruct (NodeKey.is_empty key); [done|]. cbn. apply lookup_delete_eq.
Qed.

Lemma prune_key_absent patches key other : part_absent patches key → part_absent (prune_key patches other) key.
Proof.
  unfold part_absent, prune_key. intros Hk part. destruct (patches !! NodeKey.version other) as [patch|] eqn:E; [|apply Hk].
  destruct (decide (NodeKey.version other = NodeKey.version key)) as [He|Hne]; [|rewrite lookup_insert_ne by done; apply Hk].
  rewrite He, lookup_insert_eq. rewrite He in E. intros [= <-]. specialize (Hk patch E).
  destruct (NodeKey.is_empty key), (NodeKey.is_empty other); cbn; try done.
  destruct (decide (other = key)) as [->|]; [apply lookup_delete_eq|by rewrite lookup_delete_ne].
Qed.

Lemma prune_keys_absent patches keys key : key ∈ keys → part_absent (foldl prune_key patches keys) key.
Proof.
  induction keys as [|other keys IH] using rev_ind; [by intros ?%not_elem_of_nil|]. rewrite foldl_app. cbn [foldl].
  intros [Hin|Hin%list_elem_of_singleton]%elem_of_app; [by apply prune_key_absent, IH|subst key; apply prune_key_own].
Qed.

#[export] Instance patch_progress : PruneProgressLaws PatchSet.t.
Proof.
  assert (Hin : ∀ (db : PatchSet.t) version, patch_stale_keys db version ≠ [] →
    version ∈ (filter (λ '(_, keys), keys ≠ []) (map_to_list (PatchSet.stale_keys_by_version db))).*1).
  { intros db version Hne. unfold patch_stale_keys in Hne. destruct (PatchSet.stale_keys_by_version db !! version) as [keys|] eqn:E; [|done].
    apply list_elem_of_fmap. exists (version, keys). split; [done|]. apply list_elem_of_filter. split; [done|]. by apply elem_of_map_to_list. }
  split.
  - intros p db db' version keys _. cbn. unfold patch_prune. destruct (PrunePatchSet.deleted_stale_key_versions p) as [a b].
    intros [= <-] _ _ Hr. cbn. intros [= <-]. unfold patch_stale_keys. cbn.
    destruct (filter (λ '(version, _), ¬ a ≤ version < b) (PatchSet.stale_keys_by_version db) !! version) as [keys|] eqn:E; [|done].
    by apply map_lookup_filter_Some in E as [_ ?].
  - intros p db db' key _. cbn. unfold patch_prune. destruct (PrunePatchSet.deleted_stale_key_versions p) as [a b].
    intros [= <-] Hkey. pose proof (prune_keys_absent (PatchSet.patches_by_version db) _ _ Hkey) as Hk. unfold part_absent in Hk.
    unfold absent, root, try_root, tree_node, try_tree_node, patch_database, patch_try_root, patch_try_tree_node. cbn.
    destruct (foldl prune_key _ _ !! NodeKey.version key) as [part|]; [|by destruct (NodeKey.is_empty key)].
    specialize (Hk part eq_refl). destruct (NodeKey.is_empty key); cbn; by rewrite Hk.
  - intros p db db' version keys _. cbn. unfold patch_prune. destruct (PrunePatchSet.deleted_stale_key_versions p) as [a b].
    intros [= <-] _ _ _ Hr [= <-]. eexists. split; [done|]. unfold patch_stale_keys. cbn.
    destruct (PatchSet.stale_keys_by_version db !! version) as [keys|] eqn:E; [|cbn; apply list_subseteq_nil].
    by rewrite (proj2 (map_lookup_filter_Some _ _ _ _) (conj E Hr)).
  - intros db version keys. cbn. unfold patch_min_stale_key_version. intros [= Hn] _ [= <-]. destruct (decide (patch_stale_keys db version = [])) as [|Hne]; [done|].
    specialize (Hin db version Hne). pose proof (least_found (filter (λ '(_, keys), keys ≠ []) (map_to_list (PatchSet.stale_keys_by_version db))).*1) as Hl.
    rewrite Hn in Hl. rewrite Hl in Hin. by apply not_elem_of_nil in Hin.
  - intros db least version keys _. cbn. unfold patch_min_stale_key_version. intros [= Hn] _ Hlt [= <-].
    destruct (decide (patch_stale_keys db version = [])) as [|Hne]; [done|]. specialize (Hin db version Hne). apply (least_le _ _ version) in Hn; [lia|done].
  - intros db least keys _. cbn. unfold patch_min_stale_key_version. intros [= Hn] [= <-].
    pose proof (least_found (filter (λ '(_, keys), keys ≠ []) (map_to_list (PatchSet.stale_keys_by_version db))).*1) as Hl. rewrite Hn in Hl.
    apply list_elem_of_fmap in Hl as ([v keys] & -> & [Hne Hin']%list_elem_of_filter). apply elem_of_map_to_list in Hin'.
    unfold patch_stale_keys. cbn. by rewrite Hin'.
Qed.

Section rocksdb.
Context {R : Type} `{Rocksdb cf R} `{!RocksdbLaws cf R}.
Context `{Leb128Crate} `{!Leb128Laws} `{TagsOrder} `{!TagsOrderLaws} `{PatchOrder} `{!PatchOrderLaws}.
Implicit Types (db : R).

(** A stale key has the bytes of a version first. *)
Lemma version_prefix k : (8 ≤ length k)%nat →
  k = to_be_bytes 8 (from_be_bytes (take 8 k)) ++ drop 8 k ∧ in_width 64 (from_be_bytes (take 8 k)).
Proof using.
  intros Hk. assert (Hl : length (take 8 k) = 8%nat) by (rewrite length_take; lia). split; [|apply (from_be_bytes_width 8); lia].
  pose proof (to_from_be_bytes (take 8 k)) as Hb. rewrite Hl in Hb. by rewrite Hb, take_drop.
Qed.

Lemma starts_with_version version k : starts_with (to_be_bytes 8 version) k = true → ∃ rest, k = to_be_bytes 8 version ++ rest.
Proof using.
  unfold starts_with. rewrite bool_decide_eq_true, length_to_be_bytes. intros Ht. exists (drop 8 k). by rewrite <-Ht, take_drop.
Qed.

Lemma starts_with_own version rest : starts_with (to_be_bytes 8 version) (to_be_bytes 8 version ++ rest) = true.
Proof using. unfold starts_with. rewrite bool_decide_eq_true, take_app_length. done. Qed.

Lemma width_be version : in_width 64 version → 0 ≤ version < 256 ^ Z.of_nat 8.
Proof using. intros [? ?]. change (256 ^ Z.of_nat 8) with (2 ^ 64). lia. Qed.

Lemma del_ops_gone (keys : list NodeKey.t) (m : gmap (list byte) (list byte)) key :
  key ∈ keys → foldl (apply_op Tree) m (del_ops keys) !! db_key key = None.
Proof using.
  induction keys as [|other keys IH] using rev_ind; [by intros ?%not_elem_of_nil|]. unfold del_ops in *. rewrite fmap_app, foldl_app.
  cbn [fmap list_fmap foldl apply_op]. rewrite decide_True by done.
  destruct (decide (db_key other = db_key key)) as [->|Hne]; [intros _; apply lookup_delete_eq|]. rewrite lookup_delete_ne by done.
  intros [Hin|Hin%list_elem_of_singleton]%elem_of_app; [by apply IH|by subst key].
Qed.

#[export] Instance rocks_progress : PruneProgressLaws R.
Proof using All.
  split.
  - intros p db db' version keys Hp. cbn. unfold rocks_prune. rewrite del_ops_ok by done. cbn [mbind exec_bind app].
    destruct (PrunePatchSet.deleted_stale_key_versions p) as [a b]. intros Hw Ha Hb Hr Hk. pose proof (rocks_write_ok _ _ _ Hw StaleKeys) as Hc.
    rewrite foldl_app, del_ops_stale in Hc. cbn [foldl] in Hc. rewrite apply_delete_range in Hc.
    destruct keys as [|key keys]; [done|]. exfalso. destruct (proj1 (proj2 (rocks_stale_keys_inv db' version _ Hk) key)) as (k & [v Hv] & Hs & _); [left|].
    rewrite Hc in Hv. apply map_lookup_filter_Some in Hv as [_ Hv]. apply starts_with_version in Hs as [rest ->].
    assert (Hver : in_width 64 version) by (destruct Ha, Hb; split; lia).
    rewrite <-(app_nil_r (to_be_bytes 8 a)), <-(app_nil_r (to_be_bytes 8 b)) in Hv. unfold lex_le in Hv. rewrite !lex_be_bytes in Hv by (by apply width_be).
    assert (Hnil : lex_lt rest [] = false) by (by destruct rest). rewrite Hnil, !andb_false_r, !orb_false_r in Hv.
    rewrite bool_decide_false, bool_decide_true in Hv by lia. done.
  - intros p db db' key Hp Hw Hin. pose proof (proj1 (Forall_forall _ _) Hp key Hin) as Hk.
    assert (Hgone : contents db' Tree !! db_key key = None).
    { cbn in Hw. unfold rocks_prune in Hw. rewrite del_ops_ok in Hw by done. cbn [mbind exec_bind app] in Hw.
      destruct (PrunePatchSet.deleted_stale_key_versions p) as [a b]. rewrite (rocks_write_ok _ _ _ Hw), foldl_app. cbn [foldl].
      change (apply_op Tree ?m (DeleteRange _ _ _)) with m. by apply del_ops_gone. }
    unfold absent. destruct (NodeKey.is_empty key) eqn:He.
    + rewrite root_read by apply Hk. rewrite <-(storable_empty key Hk He), Hgone. done.
    + intros is_leaf. by rewrite tree_node_read, Hgone.
  - intros p db db' version keys Hp Hw. pose proof (prune_stale p db db' version keys Hp Hw) as Hsub. revert Hw. cbn. unfold rocks_prune.
    rewrite del_ops_ok by done. cbn [mbind exec_bind app]. destruct (PrunePatchSet.deleted_stale_key_versions p) as [a b].
    intros Hw Ha Hb Hv Hr Hk. pose proof (rocks_write_ok _ _ _ Hw StaleKeys) as Hc. rewrite foldl_app, del_ops_stale in Hc. cbn [foldl] in Hc.
    rewrite apply_delete_range in Hc. destruct (Hsub Hv Hk) as (keys' & Hk' & _). exists keys'. split; [done|]. intros key Hin.
    apply (rocks_stale_keys_inv db version keys Hk) in Hin as (k & [v Hkv] & Hs & Hkey). apply (rocks_stale_keys_inv db' version keys' Hk').
    exists k. split; [|done]. exists v. rewrite Hc. apply map_lookup_filter_Some. split; [done|]. apply starts_with_version in Hs as [rest ->].
    rewrite <-(app_nil_r (to_be_bytes 8 a)), <-(app_nil_r (to_be_bytes 8 b)). unfold lex_le. rewrite !lex_be_bytes by (by apply width_be).
    assert (Hnil : lex_lt rest [] = false) by (by destruct rest). rewrite Hnil, !andb_false_r, !orb_false_r.
    destruct (decide (version < a)); [rewrite bool_decide_true by done; done|]. rewrite (bool_decide_false (version < b)) by lia. apply andb_false_r.
  - intros db version keys. cbn. unfold rocks_min_stale_key_version. destruct (prefix_iterator_ok db StaleKeys []) as (l & -> & _ & Hl). cbn [mbind exec_bind].
    destruct l as [|[k v] l]; [|unfold assert_then; by case_bool_decide]. intros _ Hw Hk. destruct keys as [|key keys]; [done|]. exfalso.
    destruct (proj1 (proj2 (rocks_stale_keys_inv db version _ Hk) key)) as (k & [v Hv] & Hs & _); [left|].
    by apply (not_elem_of_nil (k, v)), Hl.
  - intros db least version keys Hb. cbn. unfold rocks_min_stale_key_version. destruct (prefix_iterator_ok db StaleKeys []) as (l & -> & Hsorted & Hl). cbn [mbind exec_bind].
    destruct l as [|[k0 v0] l]; [done|]. unfold assert_then. case_bool_decide as Hk0; [|done]. intros [= <-] Hw Hlt Hk.
    destruct keys as [|key keys]; [done|]. exfalso. destruct (proj1 (proj2 (rocks_stale_keys_inv db version _ Hk) key)) as (k & [v Hv] & Hs & _); [left|].
    assert (Hin : (k, v) ∈ (k0, v0) :: l) by (by apply Hl). apply starts_with_version in Hs as [rest ->].
    destruct (version_prefix k0 Hk0) as [Hk0' Hw0].
    apply elem_of_cons in Hin as [[Heq _]%pair_equal_spec|Hin].
    + rewrite <-Heq, take_be_bytes, (be_bytes_roundtrip 8 _ 64) in Hlt by done. lia.
    + apply Sorted_StronglySorted in Hsorted; [|intros x y z; apply lex_le_trans]. apply StronglySorted_inv in Hsorted as [_ Hall].
      eapply Forall_forall in Hall; [|exact Hin]. cbn in Hall. rewrite Hk0' in Hall. unfold lex_le in Hall. rewrite lex_be_bytes in Hall by (by apply width_be).
      rewrite bool_decide_true in Hall by done. done.
  - intros db least keys Hb. cbn. unfold rocks_min_stale_key_version. destruct (prefix_iterator_ok db StaleKeys []) as (l & -> & _ & Hl). cbn [mbind exec_bind].
    destruct l as [|[k0 v0] l]; [done|]. unfold assert_then. case_bool_decide as Hk0; [|done]. intros [= <-] Hk ->.
    destruct (version_prefix k0 Hk0) as [Hk0' Hw0]. destruct (rocks_stale_keys_inv db _ [] Hk) as [Hfrom Hin].
    assert (Hc : is_Some (contents db StaleKeys !! k0)) by (exists v0; by apply (Hl (k0, v0)); left).
    assert (Hs : starts_with (to_be_bytes 8 (from_be_bytes (take 8 k0))) k0 = true) by (rewrite Hk0' at 2; apply starts_with_own).
    destruct (Hfrom k0 Hc Hs) as [key Hkey]. apply (not_elem_of_nil key), Hin. by exists k0.
Qed.
End rocksdb.

(** ** The loop *)
Section drain.
Context {DB : Type} `{PruneDatabase DB}.
Implicit Types (db : DB) (vs : list treemap).

(** The keys of all versions up to the last one seen are collected. *)
Lemma collect_all (count n : nat) db (first : Z) max pruned max' pruned' :
  MerkleTreePruner.collect count db (seqZ first (Z.of_nat n)) max pruned = Ret (max', pruned') →
  pruned ⊆ pruned' ∧ (n = 0%nat ∧ max' = max ∨ first ≤ max' < first + Z.of_nat n) ∧
  ∀ version keys, first ≤ version ≤ max' → version < first + Z.of_nat n → stale_keys db version = Ret keys → keys ⊆ pruned'.
Proof using.
  revert first max pruned. induction n as [|n IH]; intros first max pruned.
  { cbn. intros [= <- <-]. split; [done|]. split; [by left|]. intros. lia. }
  rewrite seqZ_cons by lia. replace (Z.pred (Z.of_nat (S n))) with (Z.of_nat n) by lia. cbn [MerkleTreePruner.collect].
  destruct (stale_keys db first) as [keys0|] eqn:E0; [|done]. cbn [mbind exec_bind]. case_decide.
  - intros [= <- <-]. split; [set_solver|]. split; [right; lia|]. intros version keys ? _ Hk.
    replace version with first in Hk by lia. rewrite E0 in Hk. injection Hk as <-. set_solver.
  - intros (Hsub & Hmax & Hall)%IH. split; [set_solver|]. split; [right; lia|]. intros version keys ? ? Hk.
    destruct (decide (version = first)) as [->|]; [|by apply (Hall version); [lia|lia|]].
    rewrite E0 in Hk. injection Hk as <-. set_solver.
Qed.

Context `{!DatabaseLaws DB} `{!PruneDatabaseLaws DB} `{!PruneProgressLaws DB}.
Context `{HashTree} `{!HashTreeLaws} `{Unspecified} `{!UnspecifiedLaws}.

(** What was replaced before [u] is gone. *)
Definition drained db (u : Z) : Prop := ∀ version, in_width 64 version → version < u → stale_keys db version = Ret [].

(** Nothing is left to remove up to [t], and the call does nothing; or it removes what
    was replaced from the least version that has anything on. *)
Lemma prune_up_to_inv (count : nat) db lo vs (target : Z) stats db' :
  let t := Z.min (Z.of_nat (length vs) - 1) target in
  represents db lo vs → stale_ok db lo vs → 0 ≤ t → MerkleTreePruner.prune_up_to count target db = Ret (inr stats, db') →
  db' = db ∧ drained db (t + 1) ∨
  ∃ first max pruned, in_width 64 first ∧ in_width 64 (max + 1) ∧ first ≤ max ≤ t ∧
    drained db first ∧ stale_keys db first ≠ Ret [] ∧
    (∀ version keys, first ≤ version ≤ max → stale_keys db version = Ret keys → keys ⊆ pruned) ∧
    let p := PrunePatchSet.new pruned (first, max + 1) in prune_storable p ∧ prune p db = Ret (inr (), db').
Proof using All.
  intros t Hrep Hst Ht Hp.
  assert (Hret : ∀ version, in_width 64 version → (∀ keys, stale_keys db version = Ret keys → keys = []) → stale_keys db version = Ret []).
  { intros version Hw Hk. destruct (proj2 Hst version Hw) as (keys & Hkeys & _). rewrite Hkeys. f_equal. by apply Hk. }
  pose proof (rp_manifest _ _ _ Hrep) as (man & Hman & Hc & [[_ Hm] _]).
  unfold MerkleTreePruner.prune_up_to in Hp. destruct (min_stale_ok db (proj1 Hst)) as (o & Hmin & Hmw). rewrite Hmin in Hp. cbn [mbind exec_bind] in Hp.
  destruct o as [first|]; [|injection Hp as _ <-; left; split; [done|]; intros version Hw _; apply Hret; [done|]; intros keys; by apply min_stale_none].
  specialize (Hmw first eq_refl). unfold MerkleTreePruner.last_prunable_version in Hp. rewrite Hman in Hp. cbn [mbind exec_bind] in Hp.
  assert (Hlast : (man ≫= λ m0 : Manifest.t, checked_sub (Manifest.version_count m0) 1) = Some (Z.of_nat (length vs) - 1)).
  { destruct man as [man|]; cbn in Hc |- *; [|unfold t in *; lia]. unfold checked_sub. rewrite Hc, decide_True by (unfold t in *; lia). done. }
  rewrite Hlast in Hp. fold t in Hp.
  assert (Hlow : ∀ version, in_width 64 version → version < first → stale_keys db version = Ret []).
  { intros version Hw Hlt. apply Hret; [done|]. intros keys. by eapply (min_stale_least db first version); [apply Hst|..]. }
  case_decide as Hrange; [injection Hp as _ <-; left; split; [done|]; intros version Hw ?; apply Hlow; [done|lia]|].
  assert (Hws : Forall (in_width 64) (seqZ first (t + 1 - first))).
  { apply Forall_forall. intros w Hin%elem_of_seqZ. destruct Hmw. unfold t in *. split; lia. }
  destruct (collect_ok count db lo vs (seqZ first (t + 1 - first)) first [] Hst Hws) as (max & pruned & Hcol & Hpruned). rewrite Hcol in Hp. cbn [mbind exec_bind] in Hp.
  destruct (proj2 Hst first Hmw) as (keys0 & Hkeys0 & _). pose proof (min_stale_some db first keys0 (proj1 Hst) Hmin Hkeys0) as Hne.
  replace (t + 1 - first) with (Z.of_nat (Z.to_nat (t + 1 - first))) in Hcol by lia.
  destruct (collect_all _ _ _ _ _ _ _ _ Hcol) as (_ & Hmax & Hall).
  case_decide as Hnil.
  { subst pruned. destruct keys0 as [|k0 ?]; [done|]. exfalso. apply (not_elem_of_nil k0), (Hall first (k0 :: keys0)); [lia|lia|done|left]. }
  rewrite wrap_small in Hp by (unfold t in *; destruct Hmw; split; lia).
  set (p := PrunePatchSet.new _ _) in Hp. destruct (prune p db) as [[[e|[]] db1]|] eqn:Hprune; [done| |done]. cbn in Hp. injection Hp as _ <-.
  right. exists first, max, pruned. split_and!; [done|destruct Hmw; unfold t in *; split; lia|lia|lia|exact Hlow|congruence| |cbn; split; [|done]].
  - intros version keys Hv. apply Hall; lia.
  - eapply (pruned_storable db lo vs t p Hrep). intros key Hk. destruct (Hpruned key Hk) as [[]%not_elem_of_nil|(w & Hin%elem_of_seqZ & Hok)]. exists w. split; [lia|done].
Qed.

(** A key replaced in [version] that has been removed, or is still to be removed. *)
Definition removed_or_listed db (version : Z) (key : NodeKey.t) : Prop :=
  absent db key ∨ ∃ keys, stale_keys db version = Ret keys ∧ key ∈ keys.

Lemma prune_absent p db db' key :
  prune_storable p → prune p db = Ret (inr (), db') → key_storable key → absent db key → absent db' key.
Proof using All.
  intros Hp Hprune Hk. unfold absent. destruct (NodeKey.is_empty key) eqn:He.
  - intros Hr. destruct (prune_root p db db' (NodeKey.version key) Hp Hprune (proj1 Hk)) as [-> |[-> _]]; done.
  - intros Hn is_leaf. destruct (prune_node p db db' key is_leaf Hp Hprune Hk He) as [-> |[-> _]]; done.
Qed.

Lemma prune_up_to_progress (count : nat) db lo vs (target u : Z) :
  let t := Z.min (Z.of_nat (length vs) - 1) target in
  represents db lo vs → stale_ok db lo vs → (∀ patch e, prune_storable patch → prune patch db ≠ Ret (inl e, db)) → 0 ≤ u ≤ t → drained db u →
  ∃ stats db', MerkleTreePruner.prune_up_to count target db = Ret (inr stats, db') ∧
    represents db' (Nat.max lo (Z.to_nat t)) vs ∧ stale_ok db' (Nat.max lo (Z.to_nat t)) vs ∧ drained db' (u + 1) ∧
    ∀ version key, in_width 64 version → key_storable key → removed_or_listed db version key → removed_or_listed db' version key.
Proof using All.
  intros t Hrep Hst Hrel Hu Hd. destruct (prune_up_to_ok count db lo vs target Hrep Hst) as (r & db' & Hp & Hr).
  destruct r as [e|stats]; [destruct Hr as (_ & p & Hps & Hf); by destruct (Hrel p e)|]. exists stats, db'. split; [done|].
  destruct Hr as [Hrep' Hst']. split; [done|]. split; [done|]. fold t in Hst'.
  destruct (prune_up_to_inv count db lo vs target stats db' Hrep Hst) as [[-> Hd']|Hpr]; [fold t; lia|done| |].
  { split; [|done]. intros version Hw ?. apply Hd'; [done|]. fold t. lia. }
  fold t in Hpr. destruct Hpr as (first & max & pruned & Hf & Hm & Hfm & Hlow & Hne & Hall & Hps & Hprune).
  assert (Huf : u ≤ first) by (destruct (decide (first < u)); [by destruct Hne; apply Hd|lia]). split.
  - intros version Hw Hlt. destruct (proj2 Hst' version Hw) as (keys' & Hk' & _). rewrite Hk'. f_equal.
    destruct (decide (version < first)) as [Hl|Hl].
    + destruct (prune_stale _ db db' version [] Hps Hprune Hw (Hlow version Hw Hl)) as (keys & Hk & Hsub). rewrite Hk in Hk'. injection Hk' as ->.
      by apply list_nil_subseteq in Hsub.
    + pose proof (prune_deletes _ db db' version keys' Hps Hprune) as Hdel. cbn in Hdel. apply Hdel; [done|done|lia|done].
  - intros version key Hw Hks [Ha|(keys & Hk & Hin)]; [left; by eapply prune_absent|].
    destruct (decide (first ≤ version ≤ max)) as [Hv|Hv].
    + left. eapply prune_removes; [exact Hps|exact Hprune|]. cbn. by apply (Hall version keys).
    + right. pose proof (prune_keeps _ db db' version keys Hps Hprune) as Hkeep. cbn in Hkeep.
      destruct Hkeep as (keys' & Hk' & Hsub); [done|done|done|lia|done|]. exists keys'. split; [done|]. by apply Hsub.
Qed.

Lemma pruner_drains_from (count n : nat) db lo vs (target : Z) :
  let t := Z.min (Z.of_nat (length vs) - 1) target in
  represents db lo vs → stale_ok db lo vs → (∀ db patch e, prune_storable patch → prune patch db ≠ Ret (inl e, db)) → Z.of_nat n ≤ t + 1 → drained db (t + 1 - Z.of_nat n) →
  ∃ lo' db', MerkleTreePruner.run count (replicate n target) db = Ret (inr (), db') ∧
    (lo ≤ lo' ≤ Nat.max lo (Z.to_nat t))%nat ∧ represents db' lo' vs ∧ drained db' (t + 1) ∧
    ∀ version key, in_width 64 version → key_storable key → removed_or_listed db version key → removed_or_listed db' version key.
Proof using All.
  intros t Hrep Hst Hrel. revert db lo Hrep Hst. induction n as [|n IH]; intros db lo Hrep Hst Hn Hd.
  - exists lo, db. split; [done|]. split; [lia|]. replace (t + 1 - Z.of_nat 0) with (t + 1) in Hd by lia. done.
  - destruct (prune_up_to_progress count db lo vs target (t + 1 - Z.of_nat (S n)) Hrep Hst (Hrel db)) as (stats & db1 & Hp & Hrep1 & Hst1 & Hd1 & Hk1); [lia|done|].
    fold t in Hrep1, Hst1. replace (t + 1 - Z.of_nat (S n) + 1) with (t + 1 - Z.of_nat n) in Hd1 by lia.
    destruct (IH db1 _ Hrep1 Hst1 ltac:(lia) Hd1) as (lo' & db' & Hrun & Hlo' & Hrep' & Hd' & Hk'). exists lo', db'. split; [|split; [lia|]].
    + cbn [replicate MerkleTreePruner.run]. rewrite Hp. cbn [mbind exec_bind]. done.
    + split_and!; [done|done|]. intros version key Hw Hks Hr. by apply Hk', Hk1.
Qed.

(** C24 When no write fails, the pruner's loop with the target [target] removes from the
    database every node that was recorded as replaced in a version up to it, or up to
    the latest version, and the records of them, after at most one round per version,
    however few keys it removes at a time; and the versions from there on are kept. *)
Theorem pruner_drains (count : nat) db lo vs (target : Z) :
  let t := Z.min (Z.of_nat (length vs) - 1) target in
  represents db lo vs → stale_ok db lo vs → (∀ db patch e, prune_storable patch → prune patch db ≠ Ret (inl e, db)) → 0 ≤ target →
  ∃ lo' db', MerkleTreePruner.run count (replicate (Z.to_nat (t + 1)) target) db = Ret (inr (), db') ∧
    (lo ≤ lo' ≤ Nat.max lo (Z.to_nat t))%nat ∧ represents db' lo' vs ∧ drained db' (t + 1) ∧
    ∀ version keys key, 0 ≤ version ≤ t → stale_keys db version = Ret keys → key ∈ keys → absent db' key.
Proof using All.
  intros t Hrep Hst Hrel Htarget.
  destruct (pruner_drains_from count (Z.to_nat (t + 1)) db lo vs target Hrep Hst Hrel) as (lo' & db' & Hrun & Hlo & Hrep' & Hd & Hk).
  - fold t. unfold t. lia.
  - intros version [? _] Hlt. unfold t in Hlt. lia.
  - exists lo', db'. split_and!; [done|lia|lia|done|exact Hd|]. intros version keys key Hv Hkeys Hin.
    pose proof (rp_manifest _ _ _ Hrep) as (man & _ & Hc & [[_ Hm] _]).
    assert (Hw : in_width 64 version) by (unfold t in *; split; lia).
    destruct (proj2 Hst version Hw) as (keys0 & Hk0 & Hok). rewrite Hkeys in Hk0. injection Hk0 as <-.
    destruct (Hok key Hin) as (Hver & Hu & n & x & Hpos & Hnib & _).
    destruct (Hk version key Hw) as [?|(keys' & Hk' & Hin')]; [split; [split; lia|by exists n, x]|right; by exists keys|done|].
    rewrite (Hd version Hw) in Hk' by lia. injection Hk' as <-. by apply not_elem_of_nil in Hin'.
Qed.
End drain.
