(* ===== verification/MerklePatched.v ===== *)
(** * A database with a patch on top of it

    [Patched] of [lib/merkle_tree/src/storage/database.rs]: the changes to a database
    are kept in memory until they are flushed. Patched databases keep the laws of
    databases ([patched_laws]), and flushing a patch does not change what is read
    ([flush_ok]). *)
From Stdlib Require Import ZifyNat.
From S2P Require Import Prelude SmallMap MerkleTypes MerkleHash MerklePatch MerkleStorage MerkleView.
From S2P Require Import MerkleInvariant MerkleRefine.
Local Open Scope Z_scope.
Import Nibbles(pos_ok, of_pos, prefix, key_ok).

Module Patched.
Record t (DB : Type) := mk { inner : DB; patch : option PatchSet.t }.
Arguments mk {_}. Arguments inner {_}. Arguments patch {_}.

Section patched.
Context {DB : Type} `{Database DB}.
Implicit Types (self : t DB).

Definition new (inner : DB) : t DB := mk inner None.

Definition patched_versions self : list Z :=
  match patch self with None => [] | Some patch => (map_to_list (PatchSet.patches_by_version patch)).*1 end.

(** The value from the patch, and whether it is final. *)
Definition lookup_patch self (key : NodeKey.t) : option Node.t * bool :=
  match patch self with
  | None => (None, false)
  | Some patch =>
      if PatchSet.is_new_version patch (NodeKey.version key) then (patch_try_tree_node patch key, true)
      else
        let could_be_in_updated_patch := bool_decide (PatchSet.updated_version patch = Some (NodeKey.version key)) in
        match (if could_be_in_updated_patch then patch_try_tree_node patch key else None) with
        | Some node => (Some node, true)
        | None => (None, false)
        end
  end.

(** The patch is taken before it is applied: it is lost if the database fails. *)
Definition flush : prog (t DB) () () := λ self,
  match patch self with
  | None => Ret (inr (), self)
  | Some patch => '(r, inner) ← apply_patch patch (inner self); Ret (r, mk inner None)
  end.

Definition reset self : t DB := mk (inner self) None.

Definition into_inner self : exec DB := match patch self with None => Ret (inner self) | Some _ => Panic end.

Definition try_manifest self : exec (DeserializeError.t + option Manifest.t) :=
  match patch self with
  | Some patch => Ret (inr (Some (PatchSet.manifest patch)))
  | None => MerklePatch.try_manifest (inner self)
  end.

Definition try_root self (version : Z) : exec (DeserializeError.t + option Root.t) :=
  match patch self with
  | Some patch =>
      let has_root := PatchSet.is_new_version patch version || bool_decide (PatchSet.updated_version patch = Some version) in
      if has_root then Ret (inr (patch_try_root patch version)) else MerklePatch.try_root (inner self) version
  | None => MerklePatch.try_root (inner self) version
  end.

Definition try_tree_node self (key : NodeKey.t) (is_leaf : bool) : exec (DeserializeError.t + option Node.t) :=
  let '(patch_node, is_final) := lookup_patch self key in
  if is_final then Ret (inr patch_node)
  else match patch_node with
       | Some node => Ret (inr (Some node))
       | None => MerklePatch.try_tree_node (inner self) key is_leaf
       end.

(** The loop that looks the keys up in the patch. *)
Definition scan_key self (st : list bool * list (option Node.t)) (entry : nat * (NodeKey.t * bool)) : list bool * list (option Node.t) :=
  let '(is_in_patch, patch_values) := st in
  let '(i, (key, is_leaf)) := entry in
  let '(patch_node, is_final) := lookup_patch self key in
  if is_final then (<[i := true]> is_in_patch, patch_values ++ [patch_node])
  else match patch_node with
       | Some node => (<[i := true]> is_in_patch, patch_values ++ [Some node])
       | None => (is_in_patch, patch_values)
       end.

(** The values of the patch and of the database, each in their order. *)
Fixpoint merge_values (is_in_patch : list bool) (patch_values db_values : list (option Node.t)) : exec (list (option Node.t)) :=
  match is_in_patch with
  | [] => Ret []
  | true :: is_in_patch =>
      match patch_values with
      | [] => Panic
      | value :: patch_values => values ← merge_values is_in_patch patch_values db_values; Ret (value :: values)
      end
  | false :: is_in_patch =>
      match db_values with
      | [] => Panic
      | value :: db_values => values ← merge_values is_in_patch patch_values db_values; Ret (value :: values)
      end
  end.

Definition tree_nodes self (keys : list (NodeKey.t * bool)) : exec (list (option Node.t)) :=
  match patch self with
  | None => MerklePatch.tree_nodes (inner self) keys
  | Some _ =>
      let '(is_in_patch, patch_values) :=
        foldl (scan_key self) (replicate (length keys) false, []) (zip (seq 0 (length keys)) keys) in
      let db_keys := omap (λ '(key, is_in_patch), if is_in_patch : bool then None else Some key) (zip keys is_in_patch) in
      db_values ← MerklePatch.tree_nodes (inner self) db_keys;
      merge_values is_in_patch patch_values db_values
  end.

Definition apply_patch (other : PatchSet.t) : prog (t DB) () () := λ self,
  match patch self with
  | Some existing_patch =>
      '(r, existing_patch) ← patch_apply_patch other existing_patch;
      Ret (r, mk (inner self) (Some existing_patch))
  | None => Ret (inr (), mk (inner self) (Some other))
  end.
End patched.
End Patched.

#[export] Instance patched_database {DB} `{Database DB} : Database (Patched.t DB) := {
  try_manifest := Patched.try_manifest;
  try_root := Patched.try_root;
  try_tree_node := Patched.try_tree_node;
  apply_patch := Patched.apply_patch;
}.

Section laws.
Context {DB : Type} `{Database DB}.
Implicit Types (db : DB) (self : Patched.t DB).

(** ** Reading nodes together is reading them one by one *)
Definition in_patch self (key : NodeKey.t * bool) : option (option Node.t) :=
  let '(node, is_final) := Patched.lookup_patch self key.1 in
  if is_final then Some node else Some <$> node.
Definition found {A} (o : option A) : bool := match o with Some _ => true | None => false end.

Lemma scan_keys_ok self keys flags values :
  foldl (Patched.scan_key self) (flags ++ replicate (length keys) false, values) (zip (seq (length flags) (length keys)) keys) =
  (flags ++ (found ∘ in_patch self <$> keys), values ++ omap (in_patch self) keys).
Proof using.
  revert flags values. induction keys as [|[key is_leaf] keys IH]; intros flags values; cbn; [by rewrite !app_nil_r|].
  unfold compose, in_patch at 1 3. cbn [fst].
  assert (Hset : <[length flags := true]> (flags ++ false :: replicate (length keys) false) = (flags ++ [true]) ++ replicate (length keys) false).
  { rewrite <-(app_assoc flags). by rewrite insert_app_r_alt, Nat.sub_diag by lia. }
  assert (Hkeep : flags ++ false :: replicate (length keys) false = (flags ++ [false]) ++ replicate (length keys) false).
  { by rewrite <-(app_assoc flags). }
  destruct (Patched.lookup_patch self key) as [node []]; [|destruct node as [node|]]; cbn;
    [rewrite Hset; specialize (IH (flags ++ [true]))|rewrite Hset; specialize (IH (flags ++ [true]))|rewrite Hkeep; specialize (IH (flags ++ [false]))];
    rewrite length_app in IH; cbn in IH; rewrite Nat.add_1_r in IH; rewrite IH; by rewrite <-!app_assoc.
Qed.

Lemma merge_values_ok self keys :
  (db_values ← tree_nodes (Patched.inner self)
     (omap (λ '(key, is_in_patch), if is_in_patch : bool then None else Some key) (zip keys (found ∘ in_patch self <$> keys)));
   Patched.merge_values (found ∘ in_patch self <$> keys) (omap (in_patch self) keys) db_values) = tree_nodes self keys.
Proof using.
  induction keys as [|[key is_leaf] keys IH]; [done|]. cbn [zip zip_with fmap list_fmap omap list_omap tree_nodes mapM]. unfold compose.
  assert (Hnode : tree_node self key is_leaf =
    match in_patch self (key, is_leaf) with Some v => Ret v | None => tree_node (Patched.inner self) key is_leaf end).
  { unfold tree_node, in_patch. cbn. unfold Patched.try_tree_node. destruct (Patched.lookup_patch self key) as [node []]; [done|]. by destruct node. }
  rewrite Hnode. unfold tree_nodes in IH |- *. cbn in IH |- *. destruct (in_patch self (key, is_leaf)) as [v|]; cbn.
  - rewrite <-IH. by destruct (mapM _ (omap _ _)).
  - destruct (tree_node (Patched.inner self) key is_leaf) as [v|]; [|done]. cbn. rewrite <-IH. by destruct (mapM _ (omap _ _)).
Qed.

Theorem patched_tree_nodes_ok self keys : Patched.tree_nodes self keys = tree_nodes self keys.
Proof using.
  unfold Patched.tree_nodes. destruct (Patched.patch self) as [p|] eqn:Hp.
  - pose proof (scan_keys_ok self keys [] []) as Hs. cbn [app length] in Hs. rewrite Hs. apply merge_values_ok.
  - unfold tree_nodes. induction keys as [|[key is_leaf] keys IH]; [done|]. cbn [mapM].
    assert (Hnode : tree_node self key is_leaf = tree_node (Patched.inner self) key is_leaf).
    { unfold tree_node. cbn. unfold Patched.try_tree_node, Patched.lookup_patch. by rewrite Hp. }
    by rewrite Hnode, IH.
Qed.

(** ** What is read through a patch *)
Lemma patched_root db p version :
  PatchSet.updated_version p = None → version < Manifest.version_count (PatchSet.manifest p) →
  root (Patched.mk db (Some p)) version =
    match PatchSet.patches_by_version p !! version with
    | Some part => Ret (Root.clone <$> PartialPatchSet.root part)
    | None => root db version
    end.
Proof using.
  intros Hu Hv. unfold root. cbn. unfold Patched.try_root, PatchSet.is_new_version, patch_try_root. cbn [Patched.patch Patched.inner].
  rewrite Hu, (bool_decide_false (_ ≤ version)), (bool_decide_true (None ≠ _)), (bool_decide_false (None = _)) by (done || lia). cbn.
  by destruct (PatchSet.patches_by_version p !! version).
Qed.

Lemma patched_node db p key is_leaf :
  PatchSet.updated_version p = None → NodeKey.version key < Manifest.version_count (PatchSet.manifest p) →
  tree_node (Patched.mk db (Some p)) key is_leaf =
    match PatchSet.patches_by_version p !! NodeKey.version key with
    | Some part => Ret (Node.clone <$> PartialPatchSet.nodes part !! key)
    | None => tree_node db key is_leaf
    end.
Proof using.
  intros Hu Hv. unfold tree_node. cbn. unfold Patched.try_tree_node, Patched.lookup_patch, PatchSet.is_new_version, patch_try_tree_node.
  cbn [Patched.patch Patched.inner].
  rewrite Hu, (bool_decide_false (_ ≤ NodeKey.version key)), (bool_decide_true (None ≠ _)), (bool_decide_false (None = _)) by (done || lia). cbn.
  by destruct (PatchSet.patches_by_version p !! NodeKey.version key).
Qed.

Lemma patch_apply_storable p q q' r :
  patch_storable p → patch_storable q → patch_apply_patch p q = Ret (r, q') → patch_storable q'.
Proof using.
  intros Hp Hq. unfold patch_apply_patch, apply_updated_version. rewrite (storable_updated p Hp). cbn. intros [= <- <-]. split; cbn.
  - apply Hq.
  - apply Hp.
  - intros version part [Hl|[_ Hl]]%lookup_union_Some_raw; [by apply (storable_part p Hp)|]. apply (storable_part q Hq version part).
    case_decide; [|done]. by apply map_lookup_filter_Some in Hl as [? _].
  - intros version keys. rewrite lookup_union_with.
    destruct (PatchSet.stale_keys_by_version q !! version) as [k|] eqn:Ek, (PatchSet.stale_keys_by_version p !! version) as [k'|] eqn:Ek';
      cbn; intros [= <-]; [|by apply (storable_stale q Hq)|by apply (storable_stale p Hp)].
    apply (storable_stale q Hq) in Ek as [? ?]. apply (storable_stale p Hp) in Ek' as [_ ?]. split; [done|]. by apply Forall_app.
Qed.

Context `{!DatabaseLaws DB}.

(** The patch can be flushed. *)
Definition patched_ok self : Prop :=
  db_ok (Patched.inner self) ∧ match Patched.patch self with None => True | Some p => patch_fits p (Patched.inner self) end.

Lemma follows_applied p q q' db :
  patch_storable p → patch_follows q db → patch_follows p (Patched.mk db (Some q)) →
  patch_apply_patch p q = Ret (inr (), q') → patch_follows q' db.
Proof using.
  intros Hp (man & Hman & Hq) (man' & Hman' & Hf) Ha. destruct (patch_apply_None p q q' _ (storable_updated p Hp) Ha) as (_ & Hm & Hl).
  injection Hman' as <-. cbn in Hf. exists man. split; [done|]. intros version [Hlo Hhi]. rewrite Hm in Hhi. rewrite Hl by done.
  destruct (PatchSet.patches_by_version p !! version) eqn:E; [done|]. apply Hq. split; [done|].
  destruct (decide (version < Manifest.version_count (PatchSet.manifest q))); [done|].
  destruct (Hf version ltac:(lia)) as [? ?]. congruence.
Qed.

#[export] Instance patched_laws : DatabaseLaws (Patched.t DB).
Proof.
  unshelve refine {| db_ok := patched_ok |}.
  - intros p [db [q|]] Hp; cbn [apply_patch patched_database]; unfold Patched.apply_patch; cbn [Patched.patch Patched.inner]; [|done].
    pose proof (apply_patch_returns p q Hp) as Hr. cbn in Hr. by destruct (patch_apply_patch p q) as [[]|].
  - intros p [db [q|]] self' e; cbn [apply_patch patched_database]; unfold Patched.apply_patch; cbn [Patched.patch Patched.inner]; [|done].
    destruct (patch_apply_patch p q) as [[[[]|] q']|] eqn:E; cbn [mbind exec_bind]; try done. intros [= _ <-].
    change (MerklePatch.apply_patch p q = Ret (inl (), q')) in E. by apply apply_patch_atomic in E as ->.
  - intros p [db [q|]] self' (Hp & [Hok Hq] & Hf); cbn [apply_patch patched_database]; unfold Patched.apply_patch; cbn [Patched.patch Patched.inner].
    + destruct (patch_apply_patch p q) as [[[[]|[]] q']|] eqn:E; cbn [mbind exec_bind]; try done. intros [= <-]. split; [done|]. destruct Hq as (Hq & _ & Hqf).
      split; [exact (patch_apply_storable p q q' _ Hp Hq E)|]. split; [done|]. exact (follows_applied p q q' db Hp Hqf Hf E).
    + intros [= <-]. split; [done|]. split; [done|]. split; [done|exact Hf].
  - intros p [db [q|]] self' (Hp & _); cbn [apply_patch patched_database]; unfold Patched.apply_patch; cbn [Patched.patch Patched.inner]; [|by intros [= <-]].
    destruct (patch_apply_patch p q) as [[[[]|[]] q']|] eqn:E; cbn [mbind exec_bind]; try done. intros [= <-].
    destruct (patch_apply_None p q q' _ (storable_updated p Hp) E) as (_ & Hm & _). unfold manifest. cbn. by rewrite Hm.
  - intros p [db [q|]] self' version (Hp & [_ Hq] & Hf); cbn [apply_patch patched_database]; unfold Patched.apply_patch; cbn [Patched.patch Patched.inner].
    + destruct (patch_apply_patch p q) as [[[[]|[]] q']|] eqn:E; cbn [mbind exec_bind]; try done. intros [= <-] Hv. destruct Hq as (Hq & _).
      destruct (patch_apply_None p q q' _ (storable_updated p Hp) E) as (_ & Hm & Hl).
      rewrite patched_root, Hl; [|lia|eapply storable_updated, (patch_apply_storable p q); eassumption|rewrite Hm; lia].
      destruct (PatchSet.patches_by_version p !! version) eqn:Ep; [done|]. rewrite patched_root; [done|apply Hq|].
      destruct Hf as (man & [= <-] & Hf). cbn in Hf. destruct (decide (version < Manifest.version_count (PatchSet.manifest q))); [done|].
      destruct (Hf version ltac:(lia)). congruence.
    + intros [= <-] Hv. by rewrite patched_root by (apply Hp || lia).
  - intros p [db [q|]] self' key is_leaf (Hp & [_ Hq] & Hf); cbn [apply_patch patched_database]; unfold Patched.apply_patch; cbn [Patched.patch Patched.inner].
    + destruct (patch_apply_patch p q) as [[[[]|[]] q']|] eqn:E; cbn [mbind exec_bind]; try done. intros [= <-] [Hk _] He Hv. destruct Hq as (Hq & _).
      destruct (patch_apply_None p q q' _ (storable_updated p Hp) E) as (_ & Hm & Hl).
      rewrite patched_node, Hl; [|lia|eapply storable_updated, (patch_apply_storable p q); eassumption|rewrite Hm; lia].
      destruct (PatchSet.patches_by_version p !! NodeKey.version key) as [part|] eqn:Ep.
      { by destruct (PartialPatchSet.nodes part !! key). }
      rewrite patched_node; [done|apply Hq|].
      destruct Hf as (man & [= <-] & Hf). cbn in Hf. destruct (decide (NodeKey.version key < Manifest.version_count (PatchSet.manifest q))); [done|].
      destruct (Hf (NodeKey.version key) ltac:(lia)). congruence.
    + intros [= <-] _ _ Hv. rewrite patched_node by (apply Hp || lia).
      destruct (PatchSet.patches_by_version p !! NodeKey.version key) as [part|]; [|done]. by destruct (PartialPatchSet.nodes part !! key).
Defined.
End laws.

(** ** Flushing *)
Section flush.
Context {DB : Type} `{Database DB} `{!DatabaseLaws DB} `{HashTree}.
Implicit Types (db : DB) (self : Patched.t DB).

(** The tree of one version, in another database. *)
Lemma version_transfer {DB1 DB2} `{Database DB1} `{Database DB2} (db : DB1) (db' : DB2) version m :
  0 ≤ version < 2 ^ 64 → root db' version = root db version →
  (∀ key node, key_storable key → NodeKey.is_empty key = false → NodeKey.version key ≤ version →
    tree_node db key (Node.is_leaf node) = Ret (Some node) → tree_node db' key (Node.is_leaf node) = Ret (Some node)) →
  version_stored db version m → version_stored db' version m.
Proof using.
  intros Hv Hroot Hnode. unfold version_stored. rewrite Hroot. intros [?|(? & node & ? & Hst)]; [by left|]. right. split; [done|].
  exists node. split; [done|]. eapply (stored_transfer db db' m m); [split; cbn; lia|lia|exact Hnode|done|exact Hst].
Qed.

Lemma flush_ok self lo vs :
  represents self lo vs →
  ∃ r self', Patched.flush self = Ret (r, self') ∧ Patched.patch self' = None ∧
    match r with
    | inl e => Patched.inner self' = Patched.inner self ∧ ∃ patch, patch_storable patch ∧ apply_patch patch (Patched.inner self) = Ret (inl e, Patched.inner self)
    | inr _ => represents (Patched.inner self') lo vs
    end.
Proof using.
  intros [[Hok Hfit] Hlo (man & Hman & Hc & Hsto) Hvs]. destruct self as [db [p|]]; unfold Patched.flush; cbn [Patched.patch Patched.inner] in Hok, Hfit |- *.
  2: { eexists _, _. split; [done|]. split; [done|]. split; [done|done|by exists man|]. intros i m Hi Hm.
       destruct (Hvs i m Hi Hm) as (? & ? & Hst). split_and!; [done..|]. exact Hst. }
  destruct Hfit as (Hp & _ & Hf). destruct (apply_patch p db) as [[[e|[]] db']|] eqn:E; [| |by apply apply_patch_returns in E].
  - eexists _, _. cbn. split; [done|]. split; [done|]. pose proof (apply_patch_atomic _ _ _ _ E) as ->. split; [done|]. by exists p.
  - assert (Hfits : patch_fits p db) by done. injection Hman as <-. cbn in Hc, Hsto. eexists _, _. cbn. split; [done|]. split; [done|].
    split; [by eapply apply_patch_ok|done| |].
    { exists (Some (PatchSet.manifest p)). by split_and!; [eapply apply_patch_manifest|..]. }
    intros i m Hi Hm. destruct (Hvs i m Hi Hm) as (? & ? & Hst). split_and!; [done..|].
    pose proof (lookup_lt_Some _ _ _ Hm) as Hlt. destruct Hsto as [[_ Hw] _].
    apply (version_transfer (Patched.mk db (Some p)) db'); [|..|exact Hst]; [lia| |].
    + rewrite patched_root by (apply Hp || lia). apply (apply_patch_root p db db' _ Hfits E). lia.
    + intros key node Hk He Hle. rewrite patched_node by (apply Hp || lia).
      pose proof (apply_patch_node p db db' key (Node.is_leaf node) Hfits E Hk He ltac:(lia)) as Hn.
      destruct (PatchSet.patches_by_version p !! NodeKey.version key) as [part|]; [|by rewrite Hn].
      destruct (PartialPatchSet.nodes part !! key) as [node0|]; [|done]. cbn. intros [= <-]. apply Hn. by destruct node0.
Qed.

(** A database without a patch represents what it is on top of. *)
Lemma patched_represents db lo vs : represents (Patched.mk db None) lo vs ↔ represents db lo vs.
Proof using.
  assert (Heq : ∀ i m, version_stored db (Z.of_nat i) m ↔ version_stored (Patched.mk db None) (Z.of_nat i) m) by done.
  split; intros [Hok Hlo Hman Hvs]; (split; [|done|exact Hman|]);
    [apply Hok| |by split|]; intros i m Hi Hm; destruct (Hvs i m Hi Hm) as (? & ? & Hst); split_and!; [done|done|exact Hst|done|done|exact Hst].
Qed.
End flush.
