(* ===== verification/MerkleFull.v ===== *)
(** * Updates with proofs

    [lib/merkle_tree/src/storage/proofs.rs] with [split] and [merge] of
    [storage/patch.rs] and [merge_by_index] of [utils.rs]: the update that gives a
    Merkle proof for each instruction. The instructions are applied in groups by the
    first nibble of their keys, each group to its own part of the working set; the
    groups run in parallel and share nothing, so that their order does not matter. *)
From Stdlib Require Import ZifyNat.
From S2P Require Import Prelude SmallMap MerkleTypes MerkleHash MerklePatch MerkleStorage.
Local Open Scope Z_scope.

Definition SUBTREE_COUNT : nat := 16.
Definition SUBTREE_ROOT_LEVEL : nat := 4.

(** ** The parts of a working set *)
(** [nibbles[0] >> 4] *)
Definition first_nibble (bytes : list byte) : Z := Z.shiftr (byte_to_Z (default x00 (bytes !! 0%nat))) 4.

Definition patch_split (self : WorkingPatchSet.t) : list WorkingPatchSet.t :=
  (λ part : Z,
    WorkingPatchSet.with_changes self
      (imap (λ nibble_count level,
         if decide (nibble_count = 0%nat) then level else filter (λ '(bytes, _), first_nibble bytes = part) level)
       (WorkingPatchSet.changes_by_nibble_count self)))
  <$> seqZ 0 (Z.of_nat SUBTREE_COUNT).

Definition patch_merge (self other : WorkingPatchSet.t) : WorkingPatchSet.t :=
  let changes := WorkingPatchSet.grow (WorkingPatchSet.changes_by_nibble_count self) (length (WorkingPatchSet.changes_by_nibble_count other)) in
  WorkingPatchSet.with_changes self
    (imap (λ nibble_count target_level,
       if decide (nibble_count = 0%nat) then target_level
       else default ∅ (WorkingPatchSet.changes_by_nibble_count other !! nibble_count) ∪ target_level) changes).

(** ** Merging by index *)
Section merge_by_index.
Context {A : Type}.

(** The first of the iterators with the least next index. *)
Definition least_next (iterators : list (list (nat * A))) : option nat :=
  let items := omap (λ '(iter_idx, it), match it with (idx, _) :: _ => Some (iter_idx, idx) | [] => None end)
                 (zip (seq 0 (length iterators)) iterators) in
  fst <$> foldl (λ least item, match least with Some l => if decide (item.2 < l.2)%nat then Some item else Some l | None => Some item end)
            None items.

Fixpoint merging_iter (total_len : nat) (iterators : list (list (nat * A))) : list (nat * A) :=
  match total_len with
  | O => []
  | S total_len =>
      match least_next iterators with
      | None => []
      | Some min_iter_idx =>
          match iterators !! min_iter_idx with
          | Some ((_, item) :: rest) => (min_iter_idx, item) :: merging_iter total_len (<[min_iter_idx := rest]> iterators)
          | _ => []
          end
      end
  end.

Definition merge_by_index (parts : list (list (nat * A))) : list (nat * A) :=
  merging_iter (foldr Nat.add 0%nat (length <$> parts)) parts.
End merge_by_index.

Module InstructionWithPrecomputes.
Record t := mk { index : nat; instruction : TreeInstruction.t; parent_nibbles : Nibbles.t }.

Definition push (parts : list (list t)) (item : nat * (TreeInstruction.t * Nibbles.t)) : exec (list (list t)) :=
  let '(index, (instruction, parent_nibbles)) := item in
  first_nibble ← Nibbles.nibble (TreeInstruction.key instruction) 0;
  part ← expect (parts !! Z.to_nat first_nibble);
  Ret (<[Z.to_nat first_nibble := part ++ [mk index instruction parent_nibbles]]> parts).

Definition split (instructions : list TreeInstruction.t) (parent_nibbles : list Nibbles.t) : exec (list (list t)) :=
  foldM push (replicate SUBTREE_COUNT []) (zip (seq 0 (length instructions)) (zip instructions parent_nibbles)).
End InstructionWithPrecomputes.

(** ** One group *)
Section group.
Context `{HashTree}.
Abbreviation Log := (TreeLogEntryWithProof.t MerklePath.t).

(** The loop from a new leaf up to the root of the part. *)
Fixpoint update_hashes_up (fuel : nat) (self : WorkingPatchSet.t) (nibbles : Nibbles.t) (node_hash : ValueHash) (merkle_path : MerklePath.t)
    : exec (ValueHash * MerklePath.t * WorkingPatchSet.t) :=
  match fuel with
  | O => Panic
  | S fuel =>
      split ← Nibbles.split_last nibbles;
      match split with
      | None => Ret (node_hash, merkle_path, self)
      | Some (parent_nibbles, last_nibble) =>
          if decide (Nibbles.nibble_count parent_nibbles = 0%nat) then Ret (node_hash, merkle_path, self)
          else
            match WorkingPatchSet.get self parent_nibbles with
            | Some (Node.Internal parent) =>
                let parent_level := (Nibbles.nibble_count parent_nibbles * 4)%nat in
                '(node_hash, parent) ← update_child_hash parent parent_level last_nibble node_hash;
                '(parent, merkle_path) ← extend_merkle_path_at parent parent_level last_nibble merkle_path;
                updated ← WorkingPatchSet.get_mut self parent_nibbles (λ _, Ret (Node.Internal parent));
                self ← expect updated;
                update_hashes_up fuel self parent_nibbles node_hash merkle_path
            | _ => Panic
            end
      end
  end.

Definition update_node_hashes (self : TreeUpdater.t) (leaf_data : NewLeafData.t) : exec (ValueHash * MerklePath.t * TreeUpdater.t) :=
  patch_set ←
    match NewLeafData.adjacent_leaf leaf_data with
    | Some (nibbles, leaf) =>
        split ← Nibbles.split_last nibbles;
        '(parent_nibbles, last_nibble) ← expect split;
        let leaf_level := (Nibbles.nibble_count nibbles * 4)%nat in
        let node_hash := leaf_hash leaf leaf_level in
        updated ← WorkingPatchSet.child_ref_mut (TreeUpdater.patch_set self) parent_nibbles last_nibble
          (λ r, ChildRef.with_hash r node_hash);
        expect updated
    | None => Ret (TreeUpdater.patch_set self)
    end;
  let nibbles := NewLeafData.nibbles leaf_data in
  let leaf_level := (Nibbles.nibble_count nibbles * 4)%nat in
  let node_hash := leaf_hash (NewLeafData.leaf leaf_data) leaf_level in
  let merkle_path := merkle_path_new leaf_level in
  '(node_hash, merkle_path, patch_set) ← update_hashes_up (S (Nibbles.nibble_count nibbles)) patch_set nibbles node_hash merkle_path;
  Ret (node_hash, merkle_path, TreeUpdater.with_patch_set self patch_set).

Definition prove (self : TreeUpdater.t) (key : Key) (parent_nibbles : Nibbles.t) : exec (TreeLogEntry.t * MerklePath.t * TreeUpdater.t) :=
  '(leaf, merkle_path, patch_set) ←
    WorkingPatchSet.create_proof (TreeUpdater.patch_set self) key parent_nibbles (SUBTREE_ROOT_LEVEL / 4);
  let operation :=
    match leaf with
    | None => TreeLogEntry.ReadMissingKey
    | Some leaf => TreeLogEntry.Read (LeafNode.leaf_index leaf) (LeafNode.value_hash leaf)
    end in
  Ret (operation, merkle_path, TreeUpdater.with_patch_set self patch_set).

Definition extend_instruction (st : TreeUpdater.t * ValueHash * list (nat * Log)) (instruction : InstructionWithPrecomputes.t)
    : exec (TreeUpdater.t * ValueHash * list (nat * Log)) :=
  let '(self, root_hash, logs) := st in
  let index := InstructionWithPrecomputes.index instruction in
  let parent_nibbles := InstructionWithPrecomputes.parent_nibbles instruction in
  match InstructionWithPrecomputes.instruction instruction with
  | TreeInstruction.Write entry =>
      '(log, leaf_data, self) ← TreeUpdater.insert self entry parent_nibbles;
      '(root_hash, merkle_path, self) ← update_node_hashes self leaf_data;
      Ret (self, root_hash, logs ++ [(index, TreeLogEntryWithProof.mk log merkle_path root_hash)])
  | TreeInstruction.Read key =>
      '(log, merkle_path, self) ← prove self key parent_nibbles;
      Ret (self, root_hash, logs ++ [(index, TreeLogEntryWithProof.mk log merkle_path root_hash)])
  end.

Definition extend_precomputed (self : TreeUpdater.t) (first_nibble : Z) (instructions : list InstructionWithPrecomputes.t)
    : exec (list (nat * Log) * TreeUpdater.t) :=
  root_nibbles ← Nibbles.single first_nibble;
  let root_hash :=
    match WorkingPatchSet.get (TreeUpdater.patch_set self) root_nibbles with
    | Some node => node_hash node SUBTREE_ROOT_LEVEL
    | None => empty_subtree_hash SUBTREE_ROOT_LEVEL
    end in
  '(self, _, logs) ← foldM extend_instruction (self, root_hash, []) instructions;
  Ret (logs, self).

(** ** The groups together *)
Definition updater_split (self : TreeUpdater.t) : list TreeUpdater.t := TreeUpdater.mk 0 <$> patch_split (TreeUpdater.patch_set self).
Definition updater_merge (self other : TreeUpdater.t) : TreeUpdater.t :=
  TreeUpdater.mk (wrap 64 (TreeUpdater.new_leaves self + TreeUpdater.new_leaves other))
    (patch_merge (TreeUpdater.patch_set self) (TreeUpdater.patch_set other)).

Definition finalize_log (version : Z) (is_leaf_by_subtree : list bool)
    (st : InternalNode.t * ValueHash * list (TreeLogEntryWithProof.t (list ValueHash))) (item : nat * Log)
    : exec (InternalNode.t * ValueHash * list (TreeLogEntryWithProof.t (list ValueHash))) :=
  let '(root, root_hash, logs) := st in
  let '(subtree_idx, log) := item in
  let nibble := Z.of_nat subtree_idx in
  '(root, root_hash) ←
    (if TreeLogEntry.is_read (TreeLogEntryWithProof.base log) then Ret (root, root_hash)
     else
       is_leaf ← expect (is_leaf_by_subtree !! subtree_idx);
       root ← ensure_child_ref root nibble version is_leaf;
       '(root_hash, root) ← update_child_hash root 0 nibble (TreeLogEntryWithProof.root_hash log);
       Ret (root, root_hash));
  '(root, merkle_path) ← extend_merkle_path_at root 0 nibble (TreeLogEntryWithProof.merkle_path log);
  Ret (root, root_hash, logs ++ [TreeLogEntryWithProof.mk (TreeLogEntryWithProof.base log) (into_inner merkle_path) root_hash]).

Definition finalize_logs (self : TreeUpdater.t) (root : InternalNode.t) (logs : list (nat * Log))
    : exec (list (TreeLogEntryWithProof.t (list ValueHash)) * TreeUpdater.t) :=
  let version := WorkingPatchSet.root_version (TreeUpdater.patch_set self) in
  let root_hash := internal_hash root 0 in
  is_leaf_by_subtree ←
    mapM (λ nibble,
        nibbles ← Nibbles.single nibble;
        Ret (match WorkingPatchSet.get (TreeUpdater.patch_set self) nibbles with Some (Node.Leaf _) => true | _ => false end))
      (seqZ 0 (Z.of_nat SUBTREE_COUNT));
  '(root, _, logs) ← foldM (finalize_log version is_leaf_by_subtree) (root, root_hash, []) logs;
  let self :=
    if decide (InternalNode.child_count root = 0%nat) then
      TreeUpdater.with_patch_set self (WorkingPatchSet.take_root (TreeUpdater.patch_set self)).2
    else TreeUpdater.set_root_node self (Node.Internal root) in
  Ret (logs, self).
End group.

(** ** The update *)
Section extend.
Context {DB : Type} `{Database DB} `{HashTree} `{Unspecified}.

Definition finalize_with_proofs (self : Storage.t DB) (root : InternalNode.t) (logs : list (nat * TreeLogEntryWithProof.t MerklePath.t))
    : exec (BlockOutputWithProofs.t * PatchSet.t) :=
  let leaf_count := wrap 64 (Storage.leaf_count self + TreeUpdater.new_leaves (Storage.updater self)) in
  '(logs, updater) ← finalize_logs (Storage.updater self) root logs;
  patch ← WorkingPatchSet.finalize_without_hashing (TreeUpdater.patch_set updater) (Storage.manifest self) leaf_count;
  Ret (BlockOutputWithProofs.mk logs leaf_count, patch).

Definition storage_extend_with_proofs (self : Storage.t DB) (instructions : list TreeInstruction.t)
    : exec (BlockOutputWithProofs.t * PatchSet.t) :=
  '(parent_nibbles, self) ← Storage.load_ancestors self (TreeInstruction.key <$> instructions);
  instruction_parts ← InstructionWithPrecomputes.split instructions parent_nibbles;
  '(initial_root, patch_set) ← WorkingPatchSet.ensure_internal_root_node (TreeUpdater.patch_set (Storage.updater self));
  let updater := TreeUpdater.with_patch_set (Storage.updater self) patch_set in
  let initial_new_leaves := TreeUpdater.new_leaves updater in
  parts ← mapM (λ '(i, (storage, instructions)), extend_precomputed storage i instructions)
            (zip (seqZ 0 (Z.of_nat SUBTREE_COUNT)) (zip (updater_split updater) instruction_parts));
  match parts.*2 with
  | [] => Panic
  | first :: rest =>
      let updater := foldl updater_merge first rest in
      let updater := TreeUpdater.mk (wrap 64 (TreeUpdater.new_leaves updater + initial_new_leaves)) (TreeUpdater.patch_set updater) in
      finalize_with_proofs (Storage.with_updater self updater) initial_root (merge_by_index parts.*1)
  end.

(** [MerkleTree::extend_with_proofs] *)
Definition extend_with_proofs (instructions : list TreeInstruction.t) : prog DB () BlockOutputWithProofs.t := λ db,
  manifest ← manifest db;
  let next_version := Manifest.version_count (default Manifest.default manifest) in
  storage ← Storage.new db next_version true;
  '(output, patch) ← storage_extend_with_proofs storage instructions;
  '(r, db) ← apply_patch patch db;
  Ret (match r with inr _ => inr output | inl e => inl e end, db).
End extend.
