(* ===== verification/ZkSyncTree.v ===== *)
(** * The tree of L1 batches

    [lib/merkle_tree/src/domain.rs]: the Merkle tree over a patched database whose
    version is the number of an L1 batch, with the witness of
    [lib/prover_interface/src/inputs.rs] that the full mode gives to the prover. The
    changes of batches are kept in memory until they are saved or reset. The pool of
    threads and the checks of consistency are left out. *)
From Stdlib Require Import ZifyNat.
From S2P Require Import Prelude SmallMap MerkleTypes MerkleHash MerklePatch MerkleStorage MerkleView.
From S2P Require Import MerkleInvariant MerkleInsert MerkleLoad MerkleFinalize MerkleRefine MerkleProofs.
From S2P Require Import MerklePruning MerklePatched MerkleFull.
Local Open Scope Z_scope.

(** ** The witness *)
Module StorageLogMetadata.
Record t := mk {
  root_hash : ValueHash;
  is_write : bool;
  first_write : bool;
  merkle_paths : list ValueHash;
  leaf_hashed_key : Key;
  leaf_enumeration_index : Z;
  value_written : ValueHash;
  value_read : ValueHash;
}.
Definition with_merkle_paths (self : t) (paths : list ValueHash) : t :=
  mk (root_hash self) (is_write self) (first_write self) paths (leaf_hashed_key self) (leaf_enumeration_index self)
    (value_written self) (value_read self).

Definition into_merkle_paths_array (path_len : nat) (self : t) : exec (list ValueHash) :=
  assert_then (bool_decide (length (merkle_paths self) = path_len)) (Ret (merkle_paths self)).
End StorageLogMetadata.

Module WitnessInputMerklePaths.
Record t := mk { merkle_paths : list StorageLogMetadata.t; next_enumeration_index : Z }.
Definition new (next_enumeration_index : Z) : t := mk [] next_enumeration_index.

(** The position of the first pair of different hashes. *)
Fixpoint first_unique_idx (path first_path : list ValueHash) : option nat :=
  match path, first_path with
  | hash :: path, first_path_hash :: first_path =>
      if decide (hash ≠ first_path_hash) then Some 0%nat else S <$> first_unique_idx path first_path
  | _, _ => None
  end.

Definition push_merkle_path (self : t) (path : StorageLogMetadata.t) : exec t :=
  match merkle_paths self with
  | [] => Ret (mk [path] (next_enumeration_index self))
  | first_path :: _ =>
      let hashes := StorageLogMetadata.merkle_paths path in
      assert_then (bool_decide (length (StorageLogMetadata.merkle_paths first_path) = length hashes))
        (let first_unique_idx := default (length hashes) (first_unique_idx hashes (StorageLogMetadata.merkle_paths first_path)) in
         let path := StorageLogMetadata.with_merkle_paths path (drop first_unique_idx hashes) in
         Ret (mk (merkle_paths self ++ [path]) (next_enumeration_index self)))
  end.

(** The loop's body: the hashes that are skipped are those of the first path. *)
Definition splice (first path : StorageLogMetadata.t) : exec StorageLogMetadata.t :=
  let hashes := StorageLogMetadata.merkle_paths path in
  assert_then (bool_decide (length hashes ≤ length (StorageLogMetadata.merkle_paths first))%nat)
    (let spliced_len := (length (StorageLogMetadata.merkle_paths first) - length hashes)%nat in
     let spliced_hashes := take spliced_len (StorageLogMetadata.merkle_paths first) in
     Ret (StorageLogMetadata.with_merkle_paths path (spliced_hashes ++ hashes))).

Definition into_merkle_paths (self : t) : exec (list StorageLogMetadata.t) :=
  match merkle_paths self with
  | [] => Ret []
  | first :: rest => rest ← mapM (splice first) rest; Ret (first :: rest)
  end.
End WitnessInputMerklePaths.

Module TreeMetadata.
Record t := mk { root_hash : ValueHash; rollup_last_leaf_index : Z; witness : option WitnessInputMerklePaths.t }.
End TreeMetadata.

Inductive TreeMode := Lightweight | Full.

(** ** The tree *)
Module ZkSyncTree.
Record t (DB : Type) := mk { tree : Patched.t DB; mode : TreeMode; pruning_enabled : bool }.
Arguments mk {_}. Arguments tree {_}. Arguments mode {_}. Arguments pruning_enabled {_}.

Definition filter_write_instructions (instructions : list TreeInstruction.t) : list TreeEntry.t :=
  omap (λ instruction, match instruction with TreeInstruction.Write entry => Some entry | TreeInstruction.Read _ => None end) instructions.

(** [MerkleTree::latest_root] and [u32::try_from] with [expect]. *)
Definition latest_root {DB} `{Database DB} (db : DB) : exec Root.t :=
  latest ← MerkleTree.latest_version db;
  root ← match latest with Some version => root db version | None => Ret None end;
  Ret (default Root.Empty root).
Definition batch_number (version : Z) : exec Z := assert_then (bool_decide (version < 2 ^ 32)) (Ret version).

Section tree.
Context {DB : Type} `{Database DB} `{HashTree} `{Unspecified}.
Implicit Types (self : t DB).
Definition with_tree self (tree : Patched.t DB) : t DB := mk tree (mode self) (pruning_enabled self).

(** A database in memory does not fail. *)
Definition process_genesis_batch (storage_logs : list TreeInstruction.t) : exec BlockOutput.t :=
  let kvs := filter_write_instructions storage_logs in
  checked ← MerkleTree.with_hasher PatchSet.default;
  match checked with
  | inl _ => Panic
  | inr _ =>
      '(r, _) ← MerkleTree.extend kvs PatchSet.default;
      match r with inl _ => Panic | inr output => Ret output end
  end.

Definition new_with_mode (db : DB) (mode : TreeMode) : exec (TreeTags.Inconsistency + t DB) :=
  let tree := Patched.new db in
  checked ← MerkleTree.with_hasher tree;
  Ret (match checked with inl err => inl err | inr _ => inr (mk tree mode false) end).
Definition new (db : DB) : exec (TreeTags.Inconsistency + t DB) := new_with_mode db Full.
Definition new_lightweight (db : DB) : exec (TreeTags.Inconsistency + t DB) := new_with_mode db Lightweight.

(** The pruner works on the inner database. *)
Definition pruner self : exec (DB * t DB) :=
  assert_then (negb (pruning_enabled self)) (Ret (Patched.inner (tree self), mk (tree self) (mode self) true)).

Definition root_hash self : exec ValueHash := MerkleTree.latest_root_hash (tree self).

Definition root_info self (l1_batch_number : Z) : exec (option (ValueHash * Z)) :=
  root ← root (tree self) l1_batch_number;
  Ret (match root with Some root => Some (MerkleHash.root_hash root, Root.leaf_count root) | None => None end).

Definition is_empty self : exec bool :=
  latest ← MerkleTree.latest_version (tree self);
  match latest with
  | None => Ret true
  | Some version =>
      root ← MerklePatch.root (tree self) version;
      Ret (match root with Some Root.Empty | None => true | Some _ => false end)
  end.

Definition next_l1_batch_number self : exec Z :=
  latest ← MerkleTree.latest_version (tree self);
  match latest with None => Ret 0 | Some version => batch_number (wrap 64 (version + 1)) end.

(** One log of the full mode; a no-op update has none. *)
Definition log_metadata (log : TreeLogEntryWithProof.t (list ValueHash)) (instruction : TreeInstruction.t) : exec (option StorageLogMetadata.t) :=
  let path := TreeLogEntryWithProof.merkle_path log in
  merkle_paths ← extend_merkle_path path;
  let value_written := match instruction with TreeInstruction.Write entry => TreeEntry.value entry | TreeInstruction.Read _ => 0 end in
  leaf_enumeration_index ←
    match instruction with
    | TreeInstruction.Write entry => Ret (TreeEntry.leaf_index entry)
    | TreeInstruction.Read _ =>
        match TreeLogEntryWithProof.base log with
        | TreeLogEntry.Read leaf_index _ => Ret leaf_index
        | TreeLogEntry.ReadMissingKey => Ret 0
        | _ => Panic
        end
    end;
  let value_read :=
    match TreeLogEntryWithProof.base log with
    | TreeLogEntry.Updated _ previous_value => if decide (previous_value = value_written) then None else Some previous_value
    | TreeLogEntry.Read _ value => Some value
    | TreeLogEntry.Inserted | TreeLogEntry.ReadMissingKey => Some 0
    end in
  Ret (value_read ← value_read;
       Some (StorageLogMetadata.mk (TreeLogEntryWithProof.root_hash log)
               (negb (TreeLogEntry.is_read (TreeLogEntryWithProof.base log)))
               (match TreeLogEntryWithProof.base log with TreeLogEntry.Inserted => true | _ => false end)
               merkle_paths (TreeInstruction.key instruction) leaf_enumeration_index value_written value_read)).

Definition push_log (witness : WitnessInputMerklePaths.t) (item : TreeLogEntryWithProof.t (list ValueHash) * TreeInstruction.t)
    : exec WitnessInputMerklePaths.t :=
  log ← log_metadata item.1 item.2;
  match log with None => Ret witness | Some log => WitnessInputMerklePaths.push_merkle_path witness log end.

Definition process_l1_batch_full (instructions : list TreeInstruction.t) : prog (t DB) () TreeMetadata.t := λ self,
  _ ← next_l1_batch_number self;
  root ← latest_root (tree self);
  let starting_leaf_count := Root.leaf_count root in
  starting_root_hash ← root_hash self;
  '(r, tree) ← extend_with_proofs instructions (tree self);
  let self := with_tree self tree in
  match r with
  | inl e => Ret (inl e, self)
  | inr output =>
      witness ← foldM push_log (WitnessInputMerklePaths.new (wrap 64 (starting_leaf_count + 1)))
        (zip (BlockOutputWithProofs.logs output) instructions);
      let root_hash := default starting_root_hash (BlockOutputWithProofs.root_hash output) in
      Ret (inr (TreeMetadata.mk root_hash (wrap 64 (BlockOutputWithProofs.leaf_count output + 1)) (Some witness)), self)
  end.

Definition process_l1_batch_lightweight (instructions : list TreeInstruction.t) : prog (t DB) () TreeMetadata.t := λ self,
  let kvs := filter_write_instructions instructions in
  _ ← next_l1_batch_number self;
  '(r, tree) ← MerkleTree.extend kvs (tree self);
  Ret (match r with
       | inl e => inl e
       | inr output => inr (TreeMetadata.mk (BlockOutput.root_hash output) (wrap 64 (BlockOutput.leaf_count output + 1)) None)
       end, with_tree self tree).

Definition process_l1_batch (storage_logs : list TreeInstruction.t) : prog (t DB) () TreeMetadata.t := λ self,
  match mode self with
  | Full => process_l1_batch_full storage_logs self
  | Lightweight => process_l1_batch_lightweight storage_logs self
  end.

Definition roll_back_logs (last_l1_batch_to_keep : Z) : prog (t DB) () () := λ self,
  let tree := Patched.reset (tree self) in
  let retained_version_count := wrap 32 (last_l1_batch_to_keep + 1) in
  '(r, tree) ← MerkleTree.truncate_recent_versions retained_version_count tree;
  Ret (r, with_tree self tree).

Definition save : prog (t DB) () () := λ self,
  '(r, tree) ← Patched.flush (tree self); Ret (r, with_tree self tree).

Definition reset self : t DB := with_tree self (Patched.reset (tree self)).
End tree.
End ZkSyncTree.

(** ** The readers *)
Module ZkSyncTreeReader.
Section reader.
Context {DB : Type} `{PruneDatabase DB} `{HashTree} `{Unspecified}.
Implicit Types (self : DB).

(** [MerkleTree::first_retained_version] *)
Definition first_retained_version self : exec (option Z) :=
  min ← min_stale_key_version self;
  match min with Some version => Ret (checked_sub version 1) | None => MerkleTree.latest_version self end.

Definition reader (tree : ZkSyncTree.t DB) : DB := Patched.inner (ZkSyncTree.tree tree).

Definition root_info self (l1_batch_number : Z) : exec (option (ValueHash * Z)) :=
  root ← root self l1_batch_number;
  Ret (match root with Some root => Some (MerkleHash.root_hash root, Root.leaf_count root) | None => None end).

Definition next_l1_batch_number self : exec Z :=
  latest ← MerkleTree.latest_version self;
  match latest with None => Ret 0 | Some version => ZkSyncTree.batch_number (wrap 64 (version + 1)) end.

Definition min_l1_batch_number self : exec (option Z) :=
  first ← first_retained_version self;
  match first with None => Ret None | Some version => number ← ZkSyncTree.batch_number version; Ret (Some number) end.

Definition entries_with_proofs self (l1_batch_number : Z) (keys : list Key) : exec (NoVersionError.t + list TreeEntryWithProof.t) :=
  MerkleTree.entries_with_proofs self l1_batch_number keys.
End reader.
End ZkSyncTreeReader.

(** ** The compact form of the witness *)
Module Witness.
Import WitnessInputMerklePaths.

Definition compact (first path : StorageLogMetadata.t) : StorageLogMetadata.t :=
  let hashes := StorageLogMetadata.merkle_paths path in
  StorageLogMetadata.with_merkle_paths path
    (drop (default (length hashes) (first_unique_idx hashes (StorageLogMetadata.merkle_paths first))) hashes).

Lemma first_unique_common path first :
  length path = length first →
  let n := default (length path) (first_unique_idx path first) in (n ≤ length path)%nat ∧ take n path = take n first.
Proof.
  revert first. induction path as [|h path IH]; intros [|f first] Hl; try done. cbn in Hl. cbn [first_unique_idx]. case_decide as Hd.
  - cbn. split; [lia|done].
  - subst f. destruct (IH first ltac:(lia)) as [Hle Ht]. destruct (first_unique_idx path first) as [n|]; cbn in *; (split; [lia|by f_equal]).
Qed.

Lemma push_rest first done rest i :
  Forall (λ path, length (StorageLogMetadata.merkle_paths path) = length (StorageLogMetadata.merkle_paths first)) rest →
  foldM push_merkle_path (mk (first :: done) i) rest = Ret (mk (first :: done ++ (compact first <$> rest)) i).
Proof.
  intros Hr. revert done. induction Hr as [|path rest Hp _ IH]; intros done; [by rewrite app_nil_r|]. cbn [foldM fmap list_fmap].
  assert (Hpush : push_merkle_path (mk (first :: done) i) path = Ret (mk (first :: done ++ [compact first path]) i)).
  { unfold push_merkle_path. cbn [merkle_paths]. unfold assert_then. by rewrite bool_decide_true. }
  rewrite Hpush. cbn [mbind exec_bind]. by rewrite IH, <-app_assoc.
Qed.

Lemma splice_compact first path :
  length (StorageLogMetadata.merkle_paths path) = length (StorageLogMetadata.merkle_paths first) → splice first (compact first path) = Ret path.
Proof.
  intros Hlen. unfold splice, compact. cbn [StorageLogMetadata.merkle_paths StorageLogMetadata.with_merkle_paths].
  destruct (first_unique_common (StorageLogMetadata.merkle_paths path) (StorageLogMetadata.merkle_paths first) Hlen) as [Hle Ht].
  set (k := default _ _) in *. rewrite length_drop. unfold assert_then. rewrite bool_decide_true by lia.
  replace (length (StorageLogMetadata.merkle_paths first) - (length (StorageLogMetadata.merkle_paths path) - k))%nat with k by lia.
  rewrite <-Ht, take_drop. by destruct path.
Qed.

(** C37 Every path of the witness is read back as it was pushed. *)
Theorem witness_roundtrip (i : Z) (n : nat) paths :
  Forall (λ path, length (StorageLogMetadata.merkle_paths path) = n) paths →
  ∃ w, foldM push_merkle_path (new i) paths = Ret w ∧ into_merkle_paths w = Ret paths ∧ next_enumeration_index w = i.
Proof.
  intros Hp. destruct paths as [|first rest]; [by eexists|]. apply Forall_cons in Hp as [Hf Hr]. rewrite <-Hf in Hr.
  eexists. split; [by apply (push_rest first [] rest i)|]. split; [|done]. unfold into_merkle_paths. cbn [merkle_paths app].
  assert (Hm : mapM (splice first) (compact first <$> rest) = Ret rest); [|by rewrite Hm].
  induction Hr as [|path rest Hlen _ IH]; [done|]. cbn [fmap list_fmap mapM]. rewrite splice_compact by done. cbn [mbind exec_bind]. by rewrite IH.
Qed.

Definition sample_log (merkle_paths : list ValueHash) : StorageLogMetadata.t := StorageLogMetadata.mk 7 false false merkle_paths 1 1 0 0.
Definition sample_logs : list StorageLogMetadata.t := sample_log <$> [[1; 2; 3]; [1; 2; 4]; [1; 2; 3]; [5; 2; 3]].

Lemma witness_roundtrip_witness :
  ∃ w, foldM push_merkle_path (new 4) sample_logs = Ret w ∧ into_merkle_paths w = Ret sample_logs ∧ next_enumeration_index w = 4.
Proof. apply (witness_roundtrip 4 3 sample_logs). by repeat constructor. Defined.
End Witness.

(** ** The batches that are saved and those that are pending *)
Lemma patched_apply_never_fails {DB} `{Database DB} (self self' : Patched.t DB) patch e :
  patch_storable patch → apply_patch patch self ≠ Ret (inl e, self').
Proof.
  intros Hp. cbn. unfold Patched.apply_patch. destruct (Patched.patch self) as [q|]; [|done].
  unfold patch_apply_patch, apply_updated_version. rewrite (storable_updated _ Hp). by cbn.
Qed.

Lemma patched_apply_inner {DB} `{Database DB} (self self' : Patched.t DB) patch r :
  apply_patch patch self = Ret (r, self') → Patched.inner self' = Patched.inner self.
Proof.
  cbn. unfold Patched.apply_patch. destruct (Patched.patch self) as [q|]; [|by intros [= _ <-]].
  destruct (patch_apply_patch patch q) as [[r' q']|]; [|done]. cbn. by intros [= _ <-].
Qed.

Lemma extend_inner {DB} `{Database DB} `{HashTree} `{Unspecified} (self self' : Patched.t DB) entries r :
  MerkleTree.extend entries self = Ret (r, self') → Patched.inner self' = Patched.inner self.
Proof.
  unfold MerkleTree.extend. intros Hx. apply bind_Ret_inv in Hx as (man & _ & Hx). apply bind_Ret_inv in Hx as (st & _ & Hx).
  apply bind_Ret_inv in Hx as ([output patch] & _ & Hx). apply bind_Ret_inv in Hx as ([r' db'] & Ha & [= _ <-]). by eapply patched_apply_inner.
Qed.

Lemma truncate_inner {DB} `{Database DB} (self self' : Patched.t DB) retained r :
  MerkleTree.truncate_recent_versions retained self = Ret (r, self') → Patched.inner self' = Patched.inner self.
Proof.
  unfold MerkleTree.truncate_recent_versions. intros Hx. apply bind_Ret_inv in Hx as (man & _ & Hx). case_decide; [by eapply patched_apply_inner|].
  by injection Hx as _ <-.
Qed.

Module Batches.
Record t := mk {
  (** The first batch that is not pruned. *)
  first : nat;
  (** The state after each batch, as it is in the database, and with the changes in memory. *)
  saved : list treemap;
  pending : list treemap;
}.
Definition new : t := mk 0 [] [].

Inductive op := Process (storage_logs : list TreeInstruction.t) | Save | Reset | RollBack (last_l1_batch_to_keep : Z).
Inductive reply := Processed (metadata : TreeMetadata.t) | Done | Failed.

Definition allowed (o : op) (s : t) : Prop :=
  match o with
  | Process storage_logs =>
      let kvs := ZkSyncTree.filter_write_instructions storage_logs in
      Forall entry_valid kvs ∧ Z.of_nat (length (pending s)) < 2 ^ 32 ∧ Z.of_nat (size (latest (pending s))) + Z.of_nat (length kvs) + 1 < 2 ^ 64
  | RollBack last => Z.of_nat (first s) ≤ last < 2 ^ 32 - 1
  | Save | Reset => True
  end.

Section step.
Context `{HashTree}.

Inductive step : op → t → reply → t → Prop :=
| step_process storage_logs lo saved pending :
    let m := insert_entries (latest pending) (ZkSyncTree.filter_write_instructions storage_logs) in
    step (Process storage_logs) (mk lo saved pending)
      (Processed (TreeMetadata.mk (tree_hash m) (Z.of_nat (size m) + 1) None)) (mk lo saved (pending ++ [m]))
| step_save lo saved pending : step Save (mk lo saved pending) Done (mk lo pending pending)
| step_save_failed lo saved pending : step Save (mk lo saved pending) Failed (mk lo saved saved)
| step_reset lo saved pending : step Reset (mk lo saved pending) Done (mk lo saved saved)
| step_roll_back last lo saved pending :
    step (RollBack last) (mk lo saved pending) Done (mk lo saved (take (Z.to_nat (last + 1)) saved)).

Inductive steps : list op → t → list reply → t → Prop :=
| steps_nil s : steps [] s [] s
| steps_cons o ops s r s' rs s'' : step o s r s' → steps ops s' rs s'' → steps (o :: ops) s (r :: rs) s''.

Fixpoint all_allowed (ops : list op) (s : t) : Prop :=
  match ops with [] => True | o :: ops => allowed o s ∧ ∀ r s', step o s r s' → all_allowed ops s' end.
End step.

Section run.
Context {DB : Type} `{Database DB} `{HashTree} `{Unspecified}.

Definition to_reply {A} (f : A → reply) (r : exec ((() + A) * ZkSyncTree.t DB)) : exec (reply * ZkSyncTree.t DB) :=
  '(r, self) ← r; Ret (match r with inl _ => Failed | inr a => f a end, self).

Definition exec_op (o : op) (self : ZkSyncTree.t DB) : exec (reply * ZkSyncTree.t DB) :=
  match o with
  | Process storage_logs => to_reply Processed (ZkSyncTree.process_l1_batch storage_logs self)
  | Save => to_reply (λ _, Done) (ZkSyncTree.save self)
  | Reset => Ret (Done, ZkSyncTree.reset self)
  | RollBack last => to_reply (λ _, Done) (ZkSyncTree.roll_back_logs last self)
  end.

Fixpoint run (ops : list op) (self : ZkSyncTree.t DB) : exec (list reply * ZkSyncTree.t DB) :=
  match ops with
  | [] => Ret ([], self)
  | o :: ops => '(r, self) ← exec_op o self; '(rs, self) ← run ops self; Ret (r :: rs, self)
  end.
End run.

Section refinement.
Context {DB : Type} `{Database DB} `{!DatabaseLaws DB} `{HashTree} `{!HashTreeLaws} `{Unspecified} `{!UnspecifiedLaws}.
Implicit Types (self : ZkSyncTree.t DB) (s : t).

Record implements self s : Prop := {
  im_mode : ZkSyncTree.mode self = Lightweight;
  im_saved : represents (Patched.inner (ZkSyncTree.tree self)) (first s) (saved s);
  im_pending : represents (ZkSyncTree.tree self) (first s) (pending s);
}.

(** No write to the database fails. *)
Definition reliable : Prop := ∀ (db : DB) patch e, patch_storable patch → ∀ db', apply_patch patch db ≠ Ret (inl e, db').

Lemma latest_version_ok {DB'} `{Database DB'} `{!DatabaseLaws DB'} (db : DB') lo vs :
  represents db lo vs → MerkleTree.latest_version db = Ret (if decide (vs = []) then None else Some (Z.of_nat (length vs) - 1)).
Proof using.
  intros Hrep. destruct (rp_manifest _ _ _ Hrep) as (man & Hman & Hc & _). unfold MerkleTree.latest_version. rewrite Hman. cbn [mbind exec_bind].
  f_equal. destruct man as [man|]; cbn in Hc |- *; [|by destruct vs]. unfold checked_sub. rewrite Hc. destruct vs as [|m vs]; [done|].
  rewrite decide_True, decide_False by (done || (cbn [length]; lia)). done.
Qed.

Lemma next_number_ok self lo vs : represents (ZkSyncTree.tree self) lo vs → Z.of_nat (length vs) < 2 ^ 32 →
  ZkSyncTree.next_l1_batch_number self = Ret (Z.of_nat (length vs)).
Proof using.
  intros Hrep Hlen. unfold ZkSyncTree.next_l1_batch_number. rewrite (latest_version_ok _ _ _ Hrep). cbn [mbind exec_bind].
  case_decide as Hvs; [by subst|]. rewrite wrap_small by (split; lia). unfold ZkSyncTree.batch_number, assert_then.
  rewrite bool_decide_true by lia. f_equal. lia.
Qed.

Lemma batch_op_ok o self s :
  implements self s → allowed o s →
  ∃ r self' s', exec_op o self = Ret (r, self') ∧ step o s r s' ∧ implements self' s' ∧ (reliable → r ≠ Failed).
Proof using All.
  destruct s as [lo sv pd]. intros [Hmode Hsaved Hpending] Ha. cbn [first saved pending] in *. destruct o as [logs| | |last]; cbn [allowed first pending] in Ha; cbn [exec_op].
  - destruct Ha as (Hval & Hlen & Hsize). unfold ZkSyncTree.process_l1_batch. rewrite Hmode. unfold ZkSyncTree.process_l1_batch_lightweight.
    rewrite (next_number_ok self lo pd) by done. cbn [mbind exec_bind].
    destruct (extend_ok (ZkSyncTree.tree self) lo pd (ZkSyncTree.filter_write_instructions logs) Hpending Hval) as (r & tree' & Hext & Hr); [split; lia|lia|]. rewrite Hext.
    cbn [mbind exec_bind to_reply]. destruct r as [e|output]; [destruct Hr as (_ & p & Hp & Hf); by apply patched_apply_never_fails in Hf|].
    destruct Hr as [Hrep ->]. set (m := insert_entries _ _) in *. cbn [BlockOutput.root_hash BlockOutput.leaf_count].
    assert (Hm : Z.of_nat (size m) + 1 < 2 ^ 64) by (pose proof (size_insert_entries (latest pd) (ZkSyncTree.filter_write_instructions logs)) as Hs; fold m in Hs; lia).
    rewrite wrap_small by (split; lia). eexists _, _, _. split; [done|]. split; [constructor|]. split; [|done]. split; cbn; [done| |done].
    by rewrite (extend_inner _ _ _ _ Hext).
  - destruct (flush_ok (ZkSyncTree.tree self) lo pd Hpending) as (r & tree' & Hf & Hnone & Hr). unfold ZkSyncTree.save. rewrite Hf. cbn [mbind exec_bind to_reply].
    destruct tree' as [db' patch']. cbn in Hnone, Hr. subst patch'. destruct r as [e|[]].
    + destruct Hr as (Heq & p & Hps & Hfail). eexists _, _, _. split; [done|]. split; [constructor|]. split; [split; cbn; [done| |]|].
      * by rewrite Heq.
      * apply patched_represents. by rewrite Heq.
      * intros Hrel. by apply (Hrel _ _ _ Hps) in Hfail.
    + eexists _, _, _. split; [done|]. split; [constructor|]. split; [|done]. split; cbn; [done|done|]. by apply patched_represents.
  - eexists _, _, _. split; [done|]. split; [constructor|]. split; [|done]. split; cbn; [done|done|]. by apply patched_represents.
  - assert (Hrep : represents (Patched.reset (ZkSyncTree.tree self)) lo sv) by (by apply patched_represents).
    unfold ZkSyncTree.roll_back_logs. rewrite wrap_small by (split; lia).
    destruct (truncate_ok _ lo sv (last + 1) Hrep) as (r & tree' & Htr & Hr); [lia|]. rewrite Htr. cbn [mbind exec_bind to_reply].
    destruct r as [e|[]]; [destruct Hr as (_ & p & Hp & Hf); by apply patched_apply_never_fails in Hf|].
    eexists _, _, _. split; [done|]. split; [constructor|]. split; [|done]. split; cbn; [done| |done]. by rewrite (truncate_inner _ _ _ _ Htr).
Qed.

(** C8 Batches processed, saved, dropped and rolled back in any order: nothing panics, what
    is answered is the hash and size of the state after the batch, a failed save loses
    the pending batches and nothing else, and only a save whose write fails does. *)
Theorem tree_run_refines ops self s :
  implements self s → all_allowed ops s →
  ∃ rs self' s', run ops self = Ret (rs, self') ∧ steps ops s rs s' ∧ implements self' s' ∧ (reliable → Failed ∉ rs).
Proof using All.
  revert self s. induction ops as [|o ops IH]; intros self s Hi Ha.
  - exists [], self, s. split; [done|]. split; [constructor|]. split; [done|]. intros _. apply not_elem_of_nil.
  - destruct Ha as [Ha Hnext]. destruct (batch_op_ok o self s Hi Ha) as (r & self1 & s1 & Ho & Hs1 & Hi1 & Hr1).
    destruct (IH self1 s1 Hi1 (Hnext r s1 Hs1)) as (rs & self2 & s2 & Hrun & Hs2 & Hi2 & Hr2). exists (r :: rs), self2, s2. cbn [run]. rewrite Ho. cbn [mbind exec_bind].
    rewrite Hrun. split; [done|]. split; [by econstructor|]. split; [done|]. intros Hrel. apply not_elem_of_cons. split; [|auto]. intros <-. by apply Hr1.
Qed.

(** The tree's readers see the saved batches, the tree itself the pending ones: of each
    batch that is not pruned the hash and the number of leaves are those of its state. *)
Theorem readers_see_saved self s i m :
  implements self s → (first s ≤ i)%nat →
  (saved s !! i = Some m →
    ZkSyncTreeReader.root_info (ZkSyncTreeReader.reader self) (Z.of_nat i) = Ret (Some (tree_hash m, Z.of_nat (size m)))) ∧
  (pending s !! i = Some m → ZkSyncTree.root_info self (Z.of_nat i) = Ret (Some (tree_hash m, Z.of_nat (size m)))).
Proof using All.
  intros [_ Hsaved Hpending] Hlo. split; intros Hi.
  - destruct (root_ok _ _ _ i m Hsaved Hlo Hi) as (r & Hr & <- & <-). unfold ZkSyncTreeReader.root_info, ZkSyncTreeReader.reader. by rewrite Hr.
  - destruct (root_ok _ _ _ i m Hpending Hlo Hi) as (r & Hr & <- & <-). unfold ZkSyncTree.root_info. by rewrite Hr.
Qed.
End refinement.
End Batches.
