(* ===== verification/MerkleRuns.v ===== *)
(** * Histories of the tree

    The tree under a sequence of updates, reverts and prunings. [run_refines] is the
    safety of updates and pruning in any order, from the empty database;
    [stale_after_revert_panics] is what a revert before them does. The rest are the
    concrete trees that the theorems on the tree are applied to. *)
From Stdlib Require Import ZifyNat.
From stdpp Require Import sorting.
From S2P Require Import Prelude SmallMap MerkleTypes MerkleHash MerklePatch MerkleStorage MerkleView.
From S2P Require Import MerkleInvariant MerkleInsert MerkleLoad MerkleFinalize MerkleRefine MerkleProofs.
From S2P Require Import MerklePruning MerkleSerialization Rocksdb MerkleRocksDB MerkleDrain MerklePatched.
From S2P Require Import MerkleFull ZkSyncTree.
Local Open Scope Z_scope.

(** ** The tree as a list of maps *)
Module History.
Record t := mk {
  (** The first version that is kept. *)
  first : nat;
  (** The versions, as the maps they are. *)
  versions : list treemap;
  reverted : bool;
}.
Definition new : t := mk 0 [] false.

Inductive op :=
| Extend (entries : list TreeEntry.t)
| Truncate (retained_version_count : Z)
| Prune (target_pruned_key_count : nat) (target_retained_version : Z).

Inductive reply := Failed | Extended (output : BlockOutput.t) | Done.

(** What may be asked for: a tree that was reverted is not pruned. *)
Definition allowed (o : op) (s : t) : Prop :=
  match o with
  | Extend entries =>
      Forall entry_valid entries ∧ in_width 64 (Z.of_nat (length (versions s)) + 1) ∧
      Z.of_nat (size (latest (versions s))) + Z.of_nat (length entries) < 2 ^ 64
  | Truncate retained => Z.of_nat (first s) < retained
  | Prune _ _ => reverted s = false
  end.

Inductive step `{HashTree} : op → t → reply → t → Prop :=
| step_failed o s : step o s Failed s
| step_extend entries lo vs b :
    let m := insert_entries (latest vs) entries in
    step (Extend entries) (mk lo vs b)
      (Extended (BlockOutput.mk (tree_hash m) (Z.of_nat (size m)) (logs_of (latest vs) entries))) (mk lo (vs ++ [m]) b)
| step_truncate retained lo vs b :
    step (Truncate retained) (mk lo vs b) Done (mk lo (take (Z.to_nat retained) vs) (b || bool_decide (retained < Z.of_nat (length vs))))
| step_prune count target lo vs b :
    step (Prune count target) (mk lo vs b) Done (mk (Nat.max lo (Z.to_nat (Z.min (Z.of_nat (length vs) - 1) target))) vs b).

Inductive steps `{HashTree} : list op → t → list reply → t → Prop :=
| steps_nil s : steps [] s [] s
| steps_cons o ops s r s' rs s'' : step o s r s' → steps ops s' rs s'' → steps (o :: ops) s (r :: rs) s''.

Fixpoint all_allowed `{HashTree} (ops : list op) (s : t) : Prop :=
  match ops with [] => True | o :: ops => allowed o s ∧ ∀ r s', step o s r s' → all_allowed ops s' end.

(** *** The operations on a database *)
Section run.
Context {DB : Type} `{PruneDatabase DB} `{HashTree} `{Unspecified}.

Definition exec_op (o : op) (db : DB) : exec (reply * DB) :=
  match o with
  | Extend entries =>
      '(r, db) ← MerkleTree.extend entries db;
      Ret (match r with inl _ => Failed | inr output => Extended output end, db)
  | Truncate retained =>
      '(r, db) ← MerkleTree.truncate_recent_versions retained db;
      Ret (match r with inl _ => Failed | inr _ => Done end, db)
  | Prune count target =>
      '(r, db) ← MerkleTreePruner.prune_up_to count target db;
      Ret (match r with inl _ => Failed | inr _ => Done end, db)
  end.

Fixpoint run (ops : list op) (db : DB) : exec (list reply * DB) :=
  match ops with
  | [] => Ret ([], db)
  | o :: ops => '(r, db) ← exec_op o db; '(rs, db) ← run ops db; Ret (r :: rs, db)
  end.
End run.

Section refinement.
Context {DB : Type} `{PruneDatabase DB} `{!DatabaseLaws DB} `{!PruneDatabaseLaws DB}.
Context `{HashTree} `{!HashTreeLaws} `{Unspecified} `{!UnspecifiedLaws}.
Implicit Types (db : DB) (s : t).

(** The simulation. *)
Definition implements db s : Prop :=
  represents db (first s) (versions s) ∧ (reverted s = false → stale_ok db (first s) (versions s)).

(** No write to the database fails. *)
Definition reliable : Prop := ∀ db,
  (∀ patch e, patch_storable patch → apply_patch patch db ≠ Ret (inl e, db)) ∧ (∀ patch e, prune_storable patch → prune patch db ≠ Ret (inl e, db)).

Lemma exec_op_ok o db s :
  implements db s → allowed o s →
  ∃ r db' s', exec_op o db = Ret (r, db') ∧ step o s r s' ∧ implements db' s' ∧ (reliable → r ≠ Failed).
Proof using All.
  destruct s as [lo vs b]. intros [Hrep Hst] Ha. cbn in Hrep, Hst. destruct o as [entries|retained|count target]; cbn in Ha |- *.
  - destruct Ha as (Hval & Hwidth & Hsize). destruct (extend_stale_ok db lo vs entries Hrep Hval Hwidth Hsize) as (r & db' & -> & Hr).
    cbn [mbind exec_bind]. destruct r as [e|output]; eexists _, db'.
    + destruct Hr as (-> & patch & Hps & Hp). eexists. split; [done|]. split; [constructor|]. split; [done|]. intros Hrel. by destruct (proj1 (Hrel db) patch e).
    + destruct Hr as (Hrep' & -> & Hst'). eexists. split; [done|]. split; [constructor|]. split; [|done]. split; [done|]. cbn. auto.
  - destruct (truncate_ok db lo vs retained Hrep Ha) as (r & db' & Htr & Hr). rewrite Htr.
    cbn [mbind exec_bind]. destruct r as [e|[]]; eexists _, db'.
    + destruct Hr as (-> & patch & Hps & Hp). eexists. split; [done|]. split; [constructor|]. split; [done|]. intros Hrel. by destruct (proj1 (Hrel db) patch e).
    + eexists. split; [done|]. split; [constructor|]. split; [|done]. split; [done|]. cbn. intros [-> Hlt%bool_decide_eq_false]%orb_false_iff.
      rewrite take_ge by lia. unfold MerkleTree.truncate_recent_versions in Htr. destruct (rp_manifest _ _ _ Hrep) as (man & Hman & Hc & _).
      rewrite Hman in Htr. cbn [mbind exec_bind] in Htr. rewrite Hc, decide_False in Htr by lia. injection Htr as <-. by apply Hst.
  - destruct (prune_up_to_ok count db lo vs target Hrep (Hst Ha)) as (r & db' & -> & Hr).
    cbn [mbind exec_bind]. destruct r as [e|o]; eexists _, db'.
    + destruct Hr as (-> & patch & Hps & Hp). eexists. split; [done|]. split; [constructor|]. split; [done|]. intros Hrel. by destruct (proj2 (Hrel db) patch e).
    + eexists. split; [done|]. split; [constructor|]. split; [|done]. split; [apply Hr|]. intros _. apply Hr.
Qed.

(** C4 Updates, reverts and prunings in any order, where a tree that was reverted is not
    pruned afterwards: none of them panics, and what they answer and leave is what the
    list of maps says, up to operations that fail to be written and have no effect;
    none fails when no write does. *)
Theorem run_refines ops db s :
  implements db s → all_allowed ops s →
  ∃ rs db' s', run ops db = Ret (rs, db') ∧ steps ops s rs s' ∧ implements db' s' ∧ (reliable → Failed ∉ rs).
Proof using All.
  revert db s. induction ops as [|o ops IH]; intros db s Hi Ha.
  - exists [], db, s. split; [done|]. split; [constructor|]. split; [done|]. intros _. apply not_elem_of_nil.
  - destruct Ha as [Ha Hnext]. destruct (exec_op_ok o db s Hi Ha) as (r & db1 & s1 & Ho & Hs1 & Hi1 & Hr1).
    destruct (IH db1 s1 Hi1 (Hnext r s1 Hs1)) as (rs & db2 & s2 & Hrun & Hs2 & Hi2 & Hr2). exists (r :: rs), db2, s2. cbn. rewrite Ho. cbn. rewrite Hrun.
    split; [done|]. split; [by econstructor|]. split; [done|]. intros Hrel. apply not_elem_of_cons. split; [|auto]. intros <-. by apply Hr1.
Qed.
End refinement.
End History.

(** ** A choice for what is unspecified *)
Definition key_le (a b : nat * Key) : Prop := a.2 ≤ b.2.
#[local] Instance key_le_dec : RelDecision key_le := λ a b, decide (a.2 ≤ b.2).
#[local] Instance key_le_total : Total key_le.
Proof. intros a b. unfold key_le. lia. Qed.

Definition ordered : Unspecified := {| into_iter := map_to_list; sort_unstable_by_key := merge_sort key_le |}.

Lemma ordered_laws : @UnspecifiedLaws ordered.
Proof. split; cbn; [done|apply merge_sort_Permutation|]. intros l. apply (Sorted_merge_sort key_le). Qed.

(** ** A hasher that is cheap to evaluate *)
Definition linear_branch (lhs rhs : ValueHash) : ValueHash := (3 * lhs + 5 * rhs + 1) mod 251.
Definition linear_leaf (value : ValueHash) (leaf_index : Z) : ValueHash := (7 * value + 11 * leaf_index + 2) mod 251.
Definition linear : HashTree := {|
  name := bytes "linear";
  hash_leaf := linear_leaf;
  hash_branch := linear_branch;
  empty_subtree_hash d := Nat.iter d (λ h, linear_branch h h) (linear_leaf 0 0);
|}.

Lemma linear_laws : @HashTreeLaws linear.
Proof.
  split; cbn; [done|done| | |].
  - intros value index. unfold linear_leaf, in_width. pose proof (Z.mod_pos_bound (7 * value + 11 * index + 2) 251). lia.
  - intros lhs rhs. unfold linear_branch, in_width. pose proof (Z.mod_pos_bound (3 * lhs + 5 * rhs + 1) 251). lia.
  - by split; [|cbn; lia].
Qed.

Definition entry (key value leaf_index : Z) : TreeEntry.t := TreeEntry.mk key value leaf_index.

(** ** A revert before pruning *)
Section revert.
#[local] Existing Instance linear.
#[local] Existing Instance ordered.

Definition key_a : Key := 0.
Definition key_b : Key := 2 ^ 255.
Definition ignore {E A} (p : prog PatchSet.t E A) : PatchSet.t → exec PatchSet.t := λ db, '(_, db) ← p db; Ret db.

Definition reverted : exec PatchSet.t :=
  db ← ignore (MerkleTree.extend [entry key_a 1 1; entry key_b 2 2]) PatchSet.default;
  db ← ignore (MerkleTree.extend [entry key_a 3 1]) db;
  db ← ignore (MerkleTree.truncate_recent_versions 1) db;
  ignore (MerkleTree.extend [entry key_b 4 2]) db.

(** A version is written and reverted, another one is written instead, and the tree is
    pruned up to it: a key that was not changed since cannot be read any more, as
    the keys that the reverted version had replaced were still listed as stale. *)
Theorem stale_after_revert_panics :
  (db ← reverted; MerkleTree.entries db 1 [key_a]) = Ret (inr [entry key_a 1 1]) ∧
  (db ← reverted; db ← ignore (MerkleTreePruner.prune_up_to 100 1) db; MerkleTree.entries db 1 [key_b]) = Ret (inr [entry key_b 4 2]) ∧
  (db ← reverted; db ← ignore (MerkleTreePruner.prune_up_to 100 1) db; MerkleTree.entries db 1 [key_a]) = Panic.
Proof. split_and!; vm_compute; reflexivity. Qed.
End revert.

(** ** Concrete histories *)
Section witnesses.
#[local] Existing Instance linear.
#[local] Existing Instance linear_laws.
#[local] Existing Instance ordered.
#[local] Existing Instance ordered_laws.

Lemma default_implements : History.implements PatchSet.default History.new.
Proof.
  split; cbn.
  - split; [done|done| |by intros i m _ Hi; rewrite lookup_nil in Hi]. exists (Some Manifest.default). split; [done|]. by split; [|split; [split|]].
  - intros _. split; [intros version keys Hk; cbn in Hk; by rewrite lookup_empty in Hk|]. intros u _. exists []. split; [done|]. intros key []%not_elem_of_nil.
Qed.

Definition batch_0 : list TreeEntry.t := [entry key_a 1 1; entry key_b 2 2].
Definition batch_1 : list TreeEntry.t := [entry key_a 3 1; entry 16 4 3].

Lemma batch_0_valid : Forall entry_valid batch_0.
Proof. by repeat constructor. Qed.
Lemma batch_1_valid : Forall entry_valid batch_1.
Proof. by repeat constructor. Qed.

Definition result_db {A} (r : exec (A * PatchSet.t)) : PatchSet.t := match r with Ret (_, db) => db | Panic => PatchSet.default end.
Definition sample_db : PatchSet.t := result_db (MerkleTree.extend batch_0 PatchSet.default).
Definition sample_map : treemap := insert_entries ∅ batch_0.

Definition sample_next : PatchSet.t := result_db (MerkleTree.extend batch_1 sample_db).

Lemma extended_implements db vs batch :
  History.implements db (History.mk 0 vs false) → Forall entry_valid batch → in_width 64 (Z.of_nat (length vs) + 1) →
  Z.of_nat (size (latest vs)) + Z.of_nat (length batch) < 2 ^ 64 →
  match MerkleTree.extend batch db with Ret (inr _, _) => true | _ => false end = true →
  History.implements (result_db (MerkleTree.extend batch db)) (History.mk 0 (vs ++ [insert_entries (latest vs) batch]) false).
Proof.
  intros [Hrep Hst] Hval Hw Hs Hok. destruct (extend_stale_ok db 0 vs batch Hrep Hval Hw Hs) as (r & db' & Hr & Hres). rewrite Hr in Hok |- *.
  destruct r as [e|output]; [done|]. destruct Hres as (Hrep' & _ & Hst'). split; [exact Hrep'|]. intros _. by apply Hst', Hst.
Qed.

Lemma sample_implements : History.implements sample_db (History.mk 0 [sample_map] false).
Proof.
  apply (extended_implements PatchSet.default [] batch_0); [apply default_implements|apply batch_0_valid|done|done|vm_compute; reflexivity].
Qed.

Lemma sample_represents : represents sample_db 0 [sample_map].
Proof. apply sample_implements. Qed.

Lemma sample_next_implements : History.implements sample_next (History.mk 0 [sample_map; insert_entries sample_map batch_1] false).
Proof.
  apply (extended_implements sample_db [sample_map] batch_1); [apply sample_implements|apply batch_1_valid|done|done|vm_compute; reflexivity].
Qed.

(** The same over RocksDB. *)
Section rocksdb.
#[local] Existing Instance Leb128Format.crate.
#[local] Existing Instance Leb128Format.crate_laws.
#[local] Existing Instance MapStore.rocksdb.
#[local] Existing Instance MapStore.rocksdb_laws.
#[local] Existing Instance MapStore.order.
#[local] Existing Instance MapStore.order_laws.
#[local] Existing Instance MapStore.tags_order.
#[local] Existing Instance MapStore.tags_order_laws.

Lemma rocks_empty_implements : History.implements MapStore.empty History.new.
Proof.
  split; cbn [History.first History.versions History.new].
  - split; [done|done| |by intros i m _ Hi; rewrite lookup_nil in Hi]. exists None. split; [done|]. by split; [|split; [split|]].
  - intros _. split; [intros k [v Hk]; cbn in Hk; by rewrite lookup_empty in Hk|]. intros u _. exists []. split; [done|]. intros key []%not_elem_of_nil.
Qed.

Lemma map_store_reliable : History.reliable (DB := MapStore.t).
Proof.
  assert (Hw : ∀ ops e (db : MapStore.t), rocks_write ops db ≠ Ret (inl e, db)).
  { intros ops e db. unfold rocks_write, write. case_decide; [done|]. by destruct (intervals db). }
  intros db. split; intros patch e _ Hp; [apply rocks_apply_failed in Hp as [ops Ho]|apply rocks_prune_failed in Hp as [ops Ho]]; by apply Hw in Ho.
Qed.

Definition sample_ops : list History.op :=
  [History.Extend batch_0; History.Prune 10 5; History.Extend batch_1; History.Prune 10 1; History.Truncate 2].

Lemma run_refines_witness :
  ∃ rs db' s', History.run sample_ops MapStore.empty = Ret (rs, db') ∧ History.steps sample_ops History.new rs s' ∧
    History.implements db' s' ∧ (History.reliable (DB := MapStore.t) → History.Failed ∉ rs).
Proof.
  apply (History.run_refines _ MapStore.empty History.new rocks_empty_implements).
  split; [split; [apply batch_0_valid|done]|]. intros r0 s0 Hs0. inversion Hs0; subst; (split; [done|]); intros r1 s1 Hs1; inversion Hs1; subst;
    (split; [split; [apply batch_1_valid|done]|]); intros r2 s2 Hs2; inversion Hs2; subst; (split; [done|]); intros r3 s3 Hs3; inversion Hs3; subst;
    (split; [cbn; lia|done]).
Defined.

(** *** The tree of L1 batches *)
Definition empty_tree : ZkSyncTree.t MapStore.t := ZkSyncTree.mk (Patched.new MapStore.empty) Lightweight false.

Lemma empty_tree_new : ZkSyncTree.new_lightweight MapStore.empty = Ret (inr empty_tree).
Proof. vm_compute. reflexivity. Qed.

Lemma empty_tree_implements : Batches.implements empty_tree Batches.new.
Proof.
  destruct rocks_empty_implements as [Hrep _]. split; [done|exact Hrep|]. by apply patched_represents.
Qed.

Definition writes (batch : list TreeEntry.t) : list TreeInstruction.t := TreeInstruction.Write <$> batch.
Definition sample_batches : list Batches.op :=
  [Batches.Process (writes batch_0); Batches.Save; Batches.Process (writes batch_1); Batches.RollBack 0; Batches.Process []; Batches.Reset].

Lemma tree_run_refines_witness :
  ∃ rs self' s', Batches.run sample_batches empty_tree = Ret (rs, self') ∧ Batches.steps sample_batches Batches.new rs s' ∧
    Batches.implements self' s' ∧ (Batches.reliable (DB := MapStore.t) → Batches.Failed ∉ rs).
Proof.
  apply (Batches.tree_run_refines sample_batches empty_tree Batches.new empty_tree_implements).
  split; [split; [apply batch_0_valid|done]|]. intros r0 s0 Hs0. inversion Hs0; subst. split; [done|]. intros r1 s1 Hs1.
  inversion Hs1; subst; (split; [split; [apply batch_1_valid|done]|]); intros r2 s2 Hs2; inversion Hs2; subst; (split; [cbn; lia|]);
    intros r3 s3 Hs3; inversion Hs3; subst; (split; [split; [constructor|done]|]); intros r4 s4 Hs4; inversion Hs4; subst; (split; [done|]); done.
Defined.

Definition sample_tree : ZkSyncTree.t MapStore.t :=
  match Batches.run [Batches.Process (writes batch_0); Batches.Save; Batches.Process (writes batch_1)] empty_tree with
  | Ret (_, self) => self
  | Panic => empty_tree
  end.

Lemma sample_tree_implements :
  Batches.implements sample_tree (Batches.mk 0 [sample_map] [sample_map; insert_entries sample_map batch_1]).
Proof.
  destruct (Batches.batch_op_ok (Batches.Process (writes batch_0)) empty_tree Batches.new empty_tree_implements) as (r0 & t0 & s0 & He0 & Hs0 & Hi0 & _).
  { split; [apply batch_0_valid|done]. }
  inversion Hs0; subst. destruct (Batches.batch_op_ok Batches.Save t0 _ Hi0 I) as (r1 & t1 & s1 & He1 & Hs1 & Hi1 & _).
  destruct (Batches.batch_op_ok (Batches.Process (writes batch_1)) t1 s1 Hi1) as (r2 & t2 & s2 & He2 & Hs2 & Hi2 & _).
  { inversion Hs1; subst; (split; [apply batch_1_valid|split; vm_compute; reflexivity]). }
  unfold sample_tree. cbn [Batches.run]. rewrite He0. cbn [mbind exec_bind]. rewrite He1. cbn [mbind exec_bind]. rewrite He2. cbn [mbind exec_bind].
  inversion Hs1; subst; [by inversion Hs2; subst|]. exfalso.
  assert (Hok : match '(_, t) ← Batches.exec_op (Batches.Process (writes batch_0)) empty_tree; '(r, _) ← Batches.exec_op Batches.Save t; Ret r with
    | Ret Batches.Failed => false | _ => true end = true) by (vm_compute; reflexivity).
  rewrite He0 in Hok. cbn [mbind exec_bind] in Hok. by rewrite He1 in Hok.
Qed.

Lemma readers_see_saved_witness :
  ([sample_map] !! 0%nat = Some sample_map →
    ZkSyncTreeReader.root_info (ZkSyncTreeReader.reader sample_tree) (Z.of_nat 0) = Ret (Some (tree_hash sample_map, Z.of_nat (size sample_map)))) ∧
  ([sample_map; insert_entries sample_map batch_1] !! 0%nat = Some sample_map →
    ZkSyncTree.root_info sample_tree (Z.of_nat 0) = Ret (Some (tree_hash sample_map, Z.of_nat (size sample_map)))).
Proof.
  apply (Batches.readers_see_saved sample_tree (Batches.mk 0 [sample_map] [sample_map; insert_entries sample_map batch_1]) 0 sample_map sample_tree_implements).
  done.
Defined.
End rocksdb.

(** With one key removed at a time. *)
Lemma pruner_drains_witness :
  let vs := [sample_map; insert_entries sample_map batch_1] in
  let t := Z.min (Z.of_nat (length vs) - 1) 5 in
  ∃ lo' db', MerkleTreePruner.run 1 (replicate (Z.to_nat (t + 1)) 5) sample_next = Ret (inr (), db') ∧
    (0 ≤ lo' ≤ Nat.max 0 (Z.to_nat t))%nat ∧ represents db' lo' vs ∧ drained db' (t + 1) ∧
    ∀ version keys key, 0 ≤ version ≤ t → stale_keys sample_next version = Ret keys → key ∈ keys → absent db' key.
Proof.
  apply (pruner_drains 1 sample_next 0 [sample_map; insert_entries sample_map batch_1] 5);
    [apply sample_next_implements|by apply sample_next_implements| |done].
  intros db patch e _. cbn. unfold patch_prune. destruct (PrunePatchSet.deleted_stale_key_versions patch). discriminate.
Defined.

Lemma merkle_root_hash_refines_witness : MerkleTree.root_hash sample_db 0 = Ret (Some (tree_hash sample_map)).
Proof. apply (merkle_root_hash_refines sample_db 0 [sample_map] 0 sample_map sample_represents); done. Defined.

Lemma merkle_entries_refine_witness :
  MerkleTree.entries sample_db 0 [key_b; 5] = Ret (inr (lookup_entry sample_map <$> [key_b; 5])).
Proof. apply (merkle_entries_refine sample_db 0 [sample_map] 0 sample_map [key_b; 5] sample_represents); [done|done|]. by repeat constructor. Defined.

Lemma merkle_proofs_verify_witness :
  ∃ proofs, MerkleTree.entries_with_proofs sample_db 0 [key_b; 5] = Ret (inr proofs) ∧
    Forall2 (λ k proof, TreeEntryWithProof.base proof = lookup_entry sample_map k ∧ verify proof (tree_hash sample_map) = Ret (inr ())) [key_b; 5] proofs.
Proof.
  apply (merkle_proofs_verify sample_db 0 [sample_map] 0 sample_map [key_b; 5] sample_represents); [done|done|by repeat constructor|].
  apply map_Forall_insert_2; [done|]. apply map_Forall_insert_2; [done|]. apply map_Forall_empty.
Defined.
End witnesses.
