(* ===== verification/Abi.v ===== *)
(** * ABI encodings ([core/lib/types/src/abi.rs])

    The canonical L1-to-L2 transaction and the upgrade messages as ABI tokens.
    [ethabi]'s byte format and Keccak are third-party: the parameters of the
    hash and of the byte-level decoder. An error is the context it carries. *)
From S2P Require Import Prelude Types.
Local Open Scope Z_scope.

(** [ethabi::Token]. *)
Inductive Token :=
| TAddress (a : Address)
| TFixedBytes (bs : list byte)
| TBytes (bs : list byte)
| TInt (i : U256)
| TUint (i : U256)
| TBool (b : bool)
| TString (s : list byte)
| TFixedArray (l : list Token)
| TArray (l : list Token)
| TTuple (l : list Token).

Definition into_address (t : Token) : option Address := match t with TAddress a => Some a | _ => None end.
Definition into_fixed_bytes (t : Token) : option (list byte) :=
  match t with TFixedBytes bs => Some bs | _ => None end.
Definition into_bytes (t : Token) : option (list byte) := match t with TBytes bs => Some bs | _ => None end.
Definition into_uint (t : Token) : option U256 := match t with TUint i => Some i | _ => None end.
Definition into_fixed_array (t : Token) : option (list Token) :=
  match t with TFixedArray l => Some l | _ => None end.
Definition into_array (t : Token) : option (list Token) := match t with TArray l => Some l | _ => None end.
Definition into_tuple (t : Token) : option (list Token) := match t with TTuple l => Some l | _ => None end.

(** [try_into] of a vector to an array of [n]. *)
Definition try_array {A} (n : nat) (l : list A) : option (list A) :=
  if decide (length l = n) then Some l else None.

(** [.into_iter().map(into_x).collect::<Result<Vec<_>, _>>()]. *)
Definition collect {A} (f : Token → option A) (l : list Token) : option (list A) := mapM f l.

Module L2CanonicalTransaction.
Record t := mk {
  tx_type : U256;
  from : U256;
  to : U256;
  gas_limit : U256;
  gas_per_pubdata_byte_limit : U256;
  max_fee_per_gas : U256;
  max_priority_fee_per_gas : U256;
  paymaster : U256;
  nonce : U256;
  value : U256;
  reserved : list U256;
  data : list byte;
  signature : list byte;
  factory_deps : list U256;
  paymaster_input : list byte;
  reserved_dynamic : list byte;
}.

(** [reserved : [U256; 4]]. *)
Definition wf (self : t) : Prop := length (reserved self) = 4%nat.

Definition encode (self : t) : Token :=
  TTuple [TUint (tx_type self); TUint (from self); TUint (to self); TUint (gas_limit self);
    TUint (gas_per_pubdata_byte_limit self); TUint (max_fee_per_gas self);
    TUint (max_priority_fee_per_gas self); TUint (paymaster self); TUint (nonce self);
    TUint (value self); TFixedArray (TUint <$> reserved self); TBytes (data self);
    TBytes (signature self); TArray (TUint <$> factory_deps self);
    TBytes (paymaster_input self); TBytes (reserved_dynamic self)].

Definition decode (token : Token) : string + t :=
  tokens ← context_or "not a tuple"%string (into_tuple token);
  match tokens with
  | [t0; t1; t2; t3; t4; t5; t6; t7; t8; t9; t10; t11; t12; t13; t14; t15] =>
      tx_type ← context_or "tx_type"%string (into_uint t0);
      from ← context_or "from"%string (into_uint t1);
      to ← context_or "to"%string (into_uint t2);
      gas_limit ← context_or "gas_limit"%string (into_uint t3);
      gas_per_pubdata_byte_limit ← context_or "gas_per_pubdata_byte_limit"%string (into_uint t4);
      max_fee_per_gas ← context_or "max_fee_per_gas"%string (into_uint t5);
      max_priority_fee_per_gas ← context_or "max_priority_fee_per_gas"%string (into_uint t6);
      paymaster ← context_or "paymaster"%string (into_uint t7);
      nonce ← context_or "nonce"%string (into_uint t8);
      value ← context_or "value"%string (into_uint t9);
      reserved ← context_or "reserved"%string
        (l ← into_fixed_array t10; l ← collect into_uint l; try_array 4 l);
      data ← context_or "data"%string (into_bytes t11);
      signature ← context_or "signature"%string (into_bytes t12);
      factory_deps ← context_or "factory_deps"%string (l ← into_array t13; collect into_uint l);
      paymaster_input ← context_or "paymaster_input"%string (into_bytes t14);
      reserved_dynamic ← context_or "reserved_dynamic"%string (into_bytes t15);
      inr (mk tx_type from to gas_limit gas_per_pubdata_byte_limit max_fee_per_gas
             max_priority_fee_per_gas paymaster nonce value reserved data signature factory_deps
             paymaster_input reserved_dynamic)
  | _ => inl "tokens.len() == 16"%string
  end.

(** [keccak256(ethabi::encode(&[self.encode()]))]. *)
Definition hash (keccak256 : list byte → H256) (abi_encode : list Token → list byte) (self : t) : H256 :=
  keccak256 (abi_encode [encode self]).
End L2CanonicalTransaction.

Module VerifierParams.
Record t := mk {
  recursion_node_level_vk_hash : list byte;
  recursion_leaf_level_vk_hash : list byte;
  recursion_circuits_set_vks_hash : list byte;
}.

Definition wf (self : t) : Prop :=
  length (recursion_node_level_vk_hash self) = 32%nat ∧
  length (recursion_leaf_level_vk_hash self) = 32%nat ∧
  length (recursion_circuits_set_vks_hash self) = 32%nat.

Definition encode (self : t) : Token :=
  TTuple [TFixedBytes (recursion_node_level_vk_hash self);
    TFixedBytes (recursion_leaf_level_vk_hash self);
    TFixedBytes (recursion_circuits_set_vks_hash self)].

Definition decode (token : Token) : string + t :=
  tokens ← context_or "not a tuple"%string (into_tuple token);
  match tokens with
  | [t0; t1; t2] =>
      a ← context_or "recursion_node_level_vk_hash"%string (into_fixed_bytes t0 ≫= try_array 32);
      b ← context_or "recursion_leaf_level_vk_hash"%string (into_fixed_bytes t1 ≫= try_array 32);
      c ← context_or "recursion_circuits_set_vks_hash"%string (into_fixed_bytes t2 ≫= try_array 32);
      inr (mk a b c)
  | _ => inl "tokens.len() == 3"%string
  end.
End VerifierParams.

Module ProposedUpgrade.
Record t := mk {
  l2_protocol_upgrade_tx : L2CanonicalTransaction.t;
  factory_deps : list (list byte);
  bootloader_hash : list byte;
  default_account_hash : list byte;
  verifier : Address;
  verifier_params : VerifierParams.t;
  l1_contracts_upgrade_calldata : list byte;
  post_upgrade_calldata : list byte;
  upgrade_timestamp : U256;
  new_protocol_version : U256;
}.

Definition wf (self : t) : Prop :=
  L2CanonicalTransaction.wf (l2_protocol_upgrade_tx self) ∧ VerifierParams.wf (verifier_params self) ∧
  length (bootloader_hash self) = 32%nat ∧ length (default_account_hash self) = 32%nat.

Definition encode (self : t) : Token :=
  TTuple [L2CanonicalTransaction.encode (l2_protocol_upgrade_tx self);
    TArray (TBytes <$> factory_deps self);
    TFixedBytes (bootloader_hash self); TFixedBytes (default_account_hash self);
    TAddress (verifier self); VerifierParams.encode (verifier_params self);
    TBytes (l1_contracts_upgrade_calldata self); TBytes (post_upgrade_calldata self);
    TUint (upgrade_timestamp self); TUint (new_protocol_version self)].

(** [.context(..)] on a [Result]. *)
Definition in_context {A} (s : string) (r : string + A) : string + A :=
  match r with inl _ => inl s | inr a => inr a end.

Definition decode (token : Token) : string + t :=
  tokens ← context_or "not a tuple"%string (into_tuple token);
  match tokens with
  | [t0; t1; t2; t3; t4; t5; t6; t7; t8; t9] =>
      l2_protocol_upgrade_tx ←
        in_context "l2_protocol_upgrade_tx"%string (L2CanonicalTransaction.decode t0);
      factory_deps ← context_or "factory_deps"%string (l ← into_array t1; collect into_bytes l);
      bootloader_hash ← context_or "bootloader_hash"%string (into_fixed_bytes t2 ≫= try_array 32);
      default_account_hash ←
        context_or "default_account_hash"%string (into_fixed_bytes t3 ≫= try_array 32);
      verifier ← context_or "verifier"%string (into_address t4);
      verifier_params ← in_context "verifier_params"%string (VerifierParams.decode t5);
      l1_contracts_upgrade_calldata ←
        context_or "l1_contracts_upgrade_calldata"%string (into_bytes t6);
      post_upgrade_calldata ← context_or "post_upgrade_calldata"%string (into_bytes t7);
      upgrade_timestamp ← context_or "upgrade_timestamp"%string (into_uint t8);
      new_protocol_version ← context_or "new_protocol_version"%string (into_uint t9);
      inr (mk l2_protocol_upgrade_tx factory_deps bootloader_hash default_account_hash verifier
             verifier_params l1_contracts_upgrade_calldata post_upgrade_calldata upgrade_timestamp
             new_protocol_version)
  | _ => inl "tokens.len() == 10"%string
  end.
End ProposedUpgrade.

(** [NewPriorityRequest]: encoded to tokens, decoded from bytes. *)
Module NewPriorityRequest.
Record t := mk {
  tx_id : U256;
  tx_hash : list byte;
  expiration_timestamp : Z;
  transaction : L2CanonicalTransaction.t;
  factory_deps : list (list byte);
}.

Definition wf (self : t) : Prop :=
  length (tx_hash self) = 32%nat ∧ 0 ≤ expiration_timestamp self < 2 ^ 64 ∧
  L2CanonicalTransaction.wf (transaction self).

Definition encode (self : t) : list Token :=
  [TUint (tx_id self); TFixedBytes (tx_hash self); TUint (expiration_timestamp self);
   L2CanonicalTransaction.encode (transaction self); TArray (TBytes <$> factory_deps self)].

(** [U256::try_into::<u64>]. *)
Definition try_u64 (z : U256) : option Z := if decide (z < 2 ^ 64) then Some z else None.
Definition unwrap {E A} (r : E + A) : exec A := match r with inr a => Ret a | inl _ => Panic end.

(** [abi_decode] is [ethabi::decode] with the schema of the five fields; the
    [unwrap]s panic. *)
Definition decode (abi_decode : list byte → option (list Token)) (bs : list byte) : exec (option t) :=
  match abi_decode bs with
  | None => Ret None
  | Some tokens =>
      t0 ← expect (tokens !! 0%nat);
      tx_id ← expect (into_uint t0);
      t1 ← expect (tokens !! 1%nat);
      tx_hash ← expect (into_fixed_bytes t1 ≫= try_array 32);
      t2 ← expect (tokens !! 2%nat);
      expiration_timestamp ← expect (into_uint t2 ≫= try_u64);
      t3 ← expect (tokens !! 3%nat);
      transaction ← unwrap (L2CanonicalTransaction.decode t3);
      t4 ← expect (tokens !! 4%nat);
      factory_deps ← expect (l ← into_array t4; collect into_bytes l);
      Ret (Some (mk tx_id tx_hash expiration_timestamp transaction factory_deps))
  end.
End NewPriorityRequest.

(** ** Decoding is the inverse of encoding *)
Lemma collect_iff {A} (f : Token → option A) (c : A → Token) l us :
  (∀ t u, f t = Some u ↔ t = c u) → collect f l = Some us ↔ l = c <$> us.
Proof.
  intros Hf. unfold collect. rewrite mapM_Some. split.
  - induction 1 as [|t u l us Ht _ IH]; [done|]. cbn. apply Hf in Ht as ->. by f_equal.
  - intros ->. induction us as [|u us IH]; cbn; [constructor|]. constructor; [by apply Hf|done].
Qed.

Lemma into_uint_iff t u : into_uint t = Some u ↔ t = TUint u.
Proof. destruct t; cbn; naive_solver. Qed.
Lemma into_bytes_iff t u : into_bytes t = Some u ↔ t = TBytes u.
Proof. destruct t; cbn; naive_solver. Qed.
Lemma into_fixed_bytes_iff t u : into_fixed_bytes t = Some u ↔ t = TFixedBytes u.
Proof. destruct t; cbn; naive_solver. Qed.
Lemma into_address_iff t u : into_address t = Some u ↔ t = TAddress u.
Proof. destruct t; cbn; naive_solver. Qed.
Lemma try_array_iff {A} n (l l' : list A) : try_array n l = Some l' ↔ l' = l ∧ length l = n.
Proof. unfold try_array. case_decide; naive_solver. Qed.

Lemma fixed_bytes_iff n t bs :
  into_fixed_bytes t ≫= try_array n = Some bs ↔ t = TFixedBytes bs ∧ length bs = n.
Proof.
  rewrite bind_Some. setoid_rewrite into_fixed_bytes_iff. setoid_rewrite try_array_iff. naive_solver.
Qed.
Lemma uint_array_iff t us : (l ← into_array t; collect into_uint l) = Some us ↔ t = TArray (TUint <$> us).
Proof.
  rewrite bind_Some. setoid_rewrite (collect_iff into_uint TUint); [|apply into_uint_iff].
  destruct t; cbn; naive_solver.
Qed.
Lemma bytes_array_iff t us : (l ← into_array t; collect into_bytes l) = Some us ↔ t = TArray (TBytes <$> us).
Proof.
  rewrite bind_Some. setoid_rewrite (collect_iff into_bytes TBytes); [|apply into_bytes_iff].
  destruct t; cbn; naive_solver.
Qed.
Lemma uint_fixed_array_iff t n us :
  (l ← into_fixed_array t; l ← collect into_uint l; try_array n l) = Some us ↔
  t = TFixedArray (TUint <$> us) ∧ length us = n.
Proof.
  rewrite bind_Some. setoid_rewrite bind_Some.
  setoid_rewrite (collect_iff into_uint TUint); [|apply into_uint_iff]. setoid_rewrite try_array_iff.
  destruct t; cbn; naive_solver.
Qed.

(** Invert the steps of a decoder that succeeded. *)
Ltac inv_decode :=
  repeat match goal with
  | H : _ ≫= _ = inr _ |- _ => apply sum_bind_inr in H as (? & ? & ?)
  | H : context_or _ _ = inr _ |- _ => apply context_or_inr in H
  | H : into_uint _ = Some _ |- _ => apply into_uint_iff in H
  | H : into_bytes _ = Some _ |- _ => apply into_bytes_iff in H
  | H : into_address _ = Some _ |- _ => apply into_address_iff in H
  | H : into_fixed_bytes _ ≫= _ = Some _ |- _ => apply fixed_bytes_iff in H as [? ?]
  | H : into_array _ ≫= _ = Some _ |- _ =>
      first [apply uint_array_iff in H | apply bytes_array_iff in H]
  | H : into_fixed_array _ ≫= _ = Some _ |- _ => apply uint_fixed_array_iff in H as [? ?]
  | H : inr _ = inr _ |- _ => injection H as H
  end; subst.

Lemma canonical_decode_iff token tx :
  L2CanonicalTransaction.decode token = inr tx ↔
  token = L2CanonicalTransaction.encode tx ∧ L2CanonicalTransaction.wf tx.
Proof.
  split.
  - unfold L2CanonicalTransaction.decode. intros Hd. apply sum_bind_inr in Hd as (tokens & Ht & Hd).
    destruct token; cbn in Ht; simplify_eq.
    do 17 (destruct tokens as [|? tokens]; try done). inv_decode. done.
  - intros [-> Hwf]. unfold L2CanonicalTransaction.decode, L2CanonicalTransaction.encode. cbn [into_tuple context_or mbind sum_bind].
    cbn [into_uint into_bytes context_or mbind sum_bind].
    rewrite (proj2 (uint_fixed_array_iff _ 4 _)) by done. cbn [mbind sum_bind context_or].
    rewrite (proj2 (uint_array_iff _ _)) by done. by destruct tx.
Qed.

Lemma verifier_decode_iff token p :
  VerifierParams.decode token = inr p ↔ token = VerifierParams.encode p ∧ VerifierParams.wf p.
Proof.
  split.
  - unfold VerifierParams.decode. intros Hd. apply sum_bind_inr in Hd as (tokens & Ht & Hd).
    destruct token; cbn in Ht; simplify_eq.
    do 4 (destruct tokens as [|? tokens]; try done). inv_decode. done.
  - intros [-> (Ha & Hb & Hc)]. unfold VerifierParams.decode, VerifierParams.encode. cbn [into_tuple context_or mbind sum_bind].
    do 3 (rewrite (proj2 (fixed_bytes_iff 32 _ _)) by done; cbn [mbind sum_bind context_or]). by destruct p.
Qed.

Lemma in_context_inr {A} s (r : string + A) a : ProposedUpgrade.in_context s r = inr a ↔ r = inr a.
Proof. destruct r; cbn; naive_solver. Qed.

(** C38 Decoding a token to a protocol upgrade is the exact inverse of encoding: it
    succeeds on a token if and only if the token is the encoding of a well-formed
    upgrade (fixed-size hashes of 32 bytes, four reserved words), and returns that
    one; every other token is an error. *)
Theorem proposed_upgrade_decode_iff token upgrade :
  ProposedUpgrade.decode token = inr upgrade ↔
  token = ProposedUpgrade.encode upgrade ∧ ProposedUpgrade.wf upgrade.
Proof.
  split.
  - unfold ProposedUpgrade.decode. intros Hd. apply sum_bind_inr in Hd as (tokens & Ht & Hd).
    destruct token; cbn in Ht; simplify_eq.
    do 11 (destruct tokens as [|? tokens]; try done). inv_decode.
    repeat match goal with Hc : ProposedUpgrade.in_context _ _ = inr _ |- _ => apply in_context_inr in Hc end.
    match goal with Hc : L2CanonicalTransaction.decode _ = _ |- _ => apply canonical_decode_iff in Hc as [-> ?] end.
    match goal with Hc : VerifierParams.decode _ = _ |- _ => apply verifier_decode_iff in Hc as [-> ?] end.
    done.
  - intros [-> (Htx & Hp & Hb & Ha)]. unfold ProposedUpgrade.decode, ProposedUpgrade.encode.
    cbn [into_tuple context_or mbind sum_bind].
    rewrite (proj2 (canonical_decode_iff _ _) (conj eq_refl Htx)). cbn [ProposedUpgrade.in_context mbind sum_bind].
    rewrite (proj2 (bytes_array_iff _ _)) by done. cbn [mbind sum_bind context_or].
    do 2 (rewrite (proj2 (fixed_bytes_iff 32 _ _)) by done; cbn [mbind sum_bind context_or]).
    cbn [into_address context_or mbind sum_bind].
    rewrite (proj2 (verifier_decode_iff _ _) (conj eq_refl Hp)). by destruct upgrade.
Qed.

(** A priority request that was encoded to bytes decodes to itself, and none
    of the decoder's unwraps panics, given that [ethabi]'s decoder inverts its
    encoder on it. *)
Theorem new_priority_request_roundtrip
    (abi_encode : list Token → list byte) (abi_decode : list byte → option (list Token)) req :
  abi_decode (abi_encode (NewPriorityRequest.encode req)) = Some (NewPriorityRequest.encode req) →
  NewPriorityRequest.wf req →
  NewPriorityRequest.decode abi_decode (abi_encode (NewPriorityRequest.encode req)) = Ret (Some req).
Proof.
  intros Habi (Hh & Ht & Htx). unfold NewPriorityRequest.decode. rewrite Habi.
  unfold NewPriorityRequest.encode. cbn [lookup list_lookup expect mbind exec_bind into_uint].
  rewrite (proj2 (fixed_bytes_iff 32 _ _)) by done. cbn [lookup list_lookup expect mbind exec_bind into_uint option_bind].
  unfold NewPriorityRequest.try_u64. rewrite decide_True by lia. cbn [expect mbind exec_bind lookup list_lookup].
  rewrite (proj2 (canonical_decode_iff _ _) (conj eq_refl Htx)). cbn [NewPriorityRequest.unwrap expect mbind exec_bind lookup list_lookup].
  rewrite (proj2 (bytes_array_iff _ _)) by done. cbn. by destruct req.
Qed.

Module AbiWitness.
Definition tx : L2CanonicalTransaction.t :=
  L2CanonicalTransaction.mk 255 1 2 3 4 5 0 0 7 0 [9; 2; 0; 0] [x01; x02] [] [8] [] [].
Definition request : NewPriorityRequest.t :=
  NewPriorityRequest.mk 7 (replicate 32 x05) 1700000000 tx [[x01]; []].

(** A one-message codec. *)
Definition toy_encode (tokens : list Token) : list byte := [x2a].
Definition toy_decode (bs : list byte) : option (list Token) := Some (NewPriorityRequest.encode request).

Lemma new_priority_request_roundtrip_witness :
  NewPriorityRequest.decode toy_decode (toy_encode (NewPriorityRequest.encode request)) = Ret (Some request).
Proof.
  apply (new_priority_request_roundtrip toy_encode toy_decode request); [reflexivity|].
  split; [reflexivity|]. split; [cbn; lia|reflexivity].
Defined.
End AbiWitness.
