(* ===== verification/BtcTypes.v ===== *)
(** * Bitcoin-side data ([core/lib/via_btc_client/src/types.rs])

    The messages Via writes to and reads from Bitcoin as inscriptions, the
    context of the inscriber, and the interface of the Bitcoin library.

    [rust-bitcoin] and [secp256k1] are third-party code: what the sources call
    of them is the class [BitcoinLib], and what they rely on is [BitcoinLibLaws].
    Values these libraries keep opaque (addresses, keys, signatures, control
    blocks, spend infos) are numbers of no further meaning; a [ScriptBuf] is its
    bytes and a [Witness] its list of items. *)
From S2P Require Import Prelude Types.
Local Open Scope Z_scope.

Abbreviation BitcoinAddress := Z (only parsing).
Abbreviation Txid := Z (only parsing).
Abbreviation BlockHash := Z (only parsing).
Abbreviation Amount := Z (only parsing).
Abbreviation ScriptBuf := (list byte) (only parsing).
Abbreviation Witness := (list (list byte)) (only parsing).
Abbreviation PublicKey := Z (only parsing).
Abbreviation CompressedPublicKey := Z (only parsing).
Abbreviation XOnlyPublicKey := Z (only parsing).
Abbreviation TaprootSignature := Z (only parsing).
Abbreviation EcdsaSignature := Z (only parsing).
Abbreviation ControlBlock := Z (only parsing).
Abbreviation TaprootSpendInfo := Z (only parsing).

Inductive Network := Bitcoin | Testnet | Signet | Regtest.
#[global] Instance Network_eq_dec : EqDecision Network.
Proof. solve_decision. Defined.

(** ** Transactions ([bitcoin::Transaction] and its parts) *)
Module OutPoint.
Record t := mk { txid : Txid; vout : Z }.
#[global] Instance eq_dec : EqDecision t.
Proof. solve_decision. Defined.
#[global] Instance countable : Countable t.
Proof.
  refine (inj_countable' (λ o, (txid o, vout o)) (λ '(a, b), mk a b) _). by intros [].
Defined.
End OutPoint.

Module TxIn.
Record t := mk {
  previous_output : OutPoint.t;
  script_sig : ScriptBuf;
  sequence : Z;
  witness : Witness;
}.
#[global] Instance eq_dec : EqDecision t.
Proof. solve_decision. Defined.
End TxIn.

Module TxOut.
Record t := mk { value : Amount; script_pubkey : ScriptBuf }.
#[global] Instance eq_dec : EqDecision t.
Proof. solve_decision. Defined.
End TxOut.

Module BtcTransaction.
Record t := mk {
  version : Z;
  lock_time : Z;
  input : list TxIn.t;
  output : list TxOut.t;
}.
#[global] Instance eq_dec : EqDecision t.
Proof. solve_decision. Defined.
End BtcTransaction.

(** ** Scripts

    A [script::Builder] is the sequence of what was pushed to it; the iterator
    of [Script::instructions] gives data pushes and opcodes. *)
Inductive ScriptItem :=
| PushSlice (bs : list byte)
| PushOpcode (op : Z).

Inductive Instruction :=
| PushBytes (bs : list byte)
| Op (op : Z).

Definition OP_0 : Z := 0x00.
Definition OP_FALSE : Z := 0x00.
Definition OP_PUSHNUM_1 : Z := 0x51.
Definition OP_IF : Z := 0x63.
Definition OP_ENDIF : Z := 0x68.
Definition OP_CHECKSIG : Z := 0xac.

(** ** The library interface *)
Class BitcoinLib := {
  (** [Address]: [Display], [FromStr], [is_valid_for_network] behind
      [require_network], [script_pubkey], [p2wpkh], [p2tr_tweaked]. *)
  address_to_string : BitcoinAddress → list byte;
  address_from_str : list byte → option BitcoinAddress;
  is_valid_for_network : BitcoinAddress → Network → bool;
  address_script_pubkey : BitcoinAddress → ScriptBuf;
  address_p2wpkh : CompressedPublicKey → Network → BitcoinAddress;
  address_p2tr_tweaked : XOnlyPublicKey → Network → BitcoinAddress;
  (** Keys and signatures. *)
  public_key_from_slice : list byte → option PublicKey;
  compressed_try_from : PublicKey → option CompressedPublicKey;
  xonly_serialize : XOnlyPublicKey → list byte;
  xonly_from_slice : list byte → option XOnlyPublicKey;
  taproot_signature_from_slice : list byte → option TaprootSignature;
  taproot_signature_to_vec : TaprootSignature → list byte;
  (** [Witness::p2wpkh]. *)
  witness_p2wpkh : EcdsaSignature → PublicKey → Witness;
  (** Taproot: [TaprootBuilder::add_leaf] then [finalize], [TaprootSpendInfo]'s
      [output_key] and [control_block], [ControlBlock]'s [decode], [serialize]
      and [internal_key]. *)
  taproot_finalize : ScriptBuf → XOnlyPublicKey → option TaprootSpendInfo;
  output_key : TaprootSpendInfo → XOnlyPublicKey;
  spend_control_block : TaprootSpendInfo → ScriptBuf → option ControlBlock;
  control_block_decode : list byte → option ControlBlock;
  control_block_serialize : ControlBlock → list byte;
  internal_key : ControlBlock → XOnlyPublicKey;
  (** Scripts. *)
  into_script : list ScriptItem → ScriptBuf;
  instructions : ScriptBuf → list (option Instruction);
  is_p2wpkh : ScriptBuf → bool;
  (** [Txid]'s bytes, transaction ids, and the hex form. *)
  txid_from_slice : list byte → option Txid;
  txid_to_byte_array : Txid → list byte;
  compute_txid : BtcTransaction.t → Txid;
  compute_ntxid : BtcTransaction.t → Txid;
  raw_hex : BtcTransaction.t → list byte;
  (** [SighashCache]: messages to sign for an input. *)
  p2wpkh_signature_hash : BtcTransaction.t → nat → ScriptBuf → Amount → option Z;
  taproot_script_spend_signature_hash :
    BtcTransaction.t → nat → list TxOut.t → ScriptBuf → option Z;
}.

(** [Address::require_network]. *)
Definition require_network `{BitcoinLib} (a : BitcoinAddress) (n : Network) : option BitcoinAddress :=
  if is_valid_for_network a n then Some a else None.

(** What [instructions] yields for what was pushed: [OP_0] is the push of no
    bytes. *)
Definition item_instruction (i : ScriptItem) : Instruction :=
  match i with
  | PushSlice bs => PushBytes bs
  | PushOpcode op => if decide (op = OP_0) then PushBytes [] else Op op
  end.

(** Slices of a length a push can have; opcodes that push no data of their own,
    or [OP_0]. *)
Definition item_ok (i : ScriptItem) : Prop :=
  match i with
  | PushSlice bs => Z.of_nat (length bs) < 2 ^ 32
  | PushOpcode op => op = OP_0 ∨ 0x4f ≤ op ≤ 0xff
  end.

(** Documented behaviour of the libraries that the sources rely on. *)
Class BitcoinLibLaws `{BitcoinLib} : Prop := {
  address_roundtrip a : address_from_str (address_to_string a) = Some a;
  address_string_utf8 a : valid_utf8 (address_to_string a) = true;
  xonly_length k : length (xonly_serialize k) = 32%nat;
  txid_roundtrip t : in_width 256 t → txid_from_slice (txid_to_byte_array t) = Some t;
  txid_length t : length (txid_to_byte_array t) = 32%nat;
  signature_roundtrip s : taproot_signature_from_slice (taproot_signature_to_vec s) = Some s;
  control_block_roundtrip c : control_block_decode (control_block_serialize c) = Some c;
  control_block_key script key info cb :
    taproot_finalize script key = Some info → spend_control_block info script = Some cb →
    internal_key cb = key;
  instructions_into_script items :
    Forall item_ok items →
    instructions (into_script items) = (λ i, Some (item_instruction i)) <$> items;
  witness_p2wpkh_items sig pk :
    ∃ sig_bytes pk_bytes, witness_p2wpkh sig pk = [sig_bytes; pk_bytes] ∧
      public_key_from_slice pk_bytes = Some pk;
}.

(** ** Messages *)
Inductive Vote := VoteOk | VoteNotOk.
#[global] Instance Vote_eq_dec : EqDecision Vote.
Proof. solve_decision. Defined.

Module L1BatchDAReferenceInput.
Record t := mk {
  l1_batch_hash : H256;
  l1_batch_index : L1BatchNumber;
  da_identifier : list byte;
  blob_id : list byte;
}.
#[global] Instance eq_dec : EqDecision t.
Proof. solve_decision. Defined.
End L1BatchDAReferenceInput.

Module ProofDAReferenceInput.
Record t := mk {
  l1_batch_reveal_txid : Txid;
  da_identifier : list byte;
  blob_id : list byte;
}.
#[global] Instance eq_dec : EqDecision t.
Proof. solve_decision. Defined.
End ProofDAReferenceInput.

Module ValidatorAttestationInput.
Record t := mk { reference_txid : Txid; attestation : Vote }.
#[global] Instance eq_dec : EqDecision t.
Proof. solve_decision. Defined.
End ValidatorAttestationInput.

Module SystemBootstrappingInput.
Record t := mk {
  start_block_height : Z;
  verifier_p2wpkh_addresses : list BitcoinAddress;
  bridge_p2wpkh_mpc_address : BitcoinAddress;
  bootloader_hash : H256;
  abstract_account_hash : H256;
}.
#[global] Instance eq_dec : EqDecision t.
Proof. solve_decision. Defined.
End SystemBootstrappingInput.

Module ProposeSequencerInput.
Record t := mk { sequencer_new_p2wpkh_address : BitcoinAddress }.
#[global] Instance eq_dec : EqDecision t.
Proof. solve_decision. Defined.
End ProposeSequencerInput.

Module L1ToL2MessageInput.
Record t := mk {
  receiver_l2_address : Address;
  l2_contract_address : Address;
  call_data : list byte;
}.
#[global] Instance eq_dec : EqDecision t.
Proof. solve_decision. Defined.
End L1ToL2MessageInput.

Module CommonFields.
Record t := mk {
  schnorr_signature : TaprootSignature;
  encoded_public_key : list byte;
  block_height : Z;
  tx_id : Txid;
  p2wpkh_address : BitcoinAddress;
}.
#[global] Instance eq_dec : EqDecision t.
Proof. solve_decision. Defined.
End CommonFields.

(** What an inscriber is asked to write. *)
Module InscriptionMessage.
Inductive t :=
| L1BatchDAReference (input : L1BatchDAReferenceInput.t)
| ProofDAReference (input : ProofDAReferenceInput.t)
| ValidatorAttestation (input : ValidatorAttestationInput.t)
| SystemBootstrapping (input : SystemBootstrappingInput.t)
| ProposeSequencer (input : ProposeSequencerInput.t)
| L1ToL2Message (input : L1ToL2MessageInput.t).
#[global] Instance eq_dec : EqDecision t.
Proof. solve_decision. Defined.
End InscriptionMessage.

(** What the indexer reads: the structs [L1BatchDAReference { common, input }],
    ..., [L1ToL2Message { common, amount, input, tx_outputs }]. *)
Module FullInscriptionMessage.
Inductive t :=
| L1BatchDAReference (common : CommonFields.t) (input : L1BatchDAReferenceInput.t)
| ProofDAReference (common : CommonFields.t) (input : ProofDAReferenceInput.t)
| ValidatorAttestation (common : CommonFields.t) (input : ValidatorAttestationInput.t)
| SystemBootstrapping (common : CommonFields.t) (input : SystemBootstrappingInput.t)
| ProposeSequencer (common : CommonFields.t) (input : ProposeSequencerInput.t)
| L1ToL2Message (common : CommonFields.t) (amount : Amount) (input : L1ToL2MessageInput.t)
    (tx_outputs : list TxOut.t).
#[global] Instance eq_dec : EqDecision t.
Proof. solve_decision. Defined.
End FullInscriptionMessage.

Definition SYSTEM_BOOTSTRAPPING_MSG := bytes "SystemBootstrappingMessage".
Definition PROPOSE_SEQUENCER_MSG := bytes "ProposeSequencerMessage".
Definition VALIDATOR_ATTESTATION_MSG := bytes "ValidatorAttestationMessage".
Definition L1_BATCH_DA_REFERENCE_MSG := bytes "L1BatchDAReferenceMessage".
Definition PROOF_DA_REFERENCE_MSG := bytes "ProofDAReferenceMessage".
Definition L1_TO_L2_MSG := bytes "L1ToL2Message".
Definition VIA_INSCRIPTION_PROTOCOL := bytes "via_inscription_protocol".

(** ** The inscriber's context *)
Module InscriptionConfig.
Record t := mk { fee_multiplier : Z }.
Definition default : t := mk 1.
End InscriptionConfig.

Module Recipient.
Record t := mk { address : BitcoinAddress; amount : Amount }.
End Recipient.

Module FeePayerCtx.
Record t := mk {
  fee_payer_utxo_txid : Txid;
  fee_payer_utxo_vout : Z;
  fee_payer_utxo_value : Amount;
}.
End FeePayerCtx.

Module CommitTxInput.
Record t := mk { spent_utxo : list TxIn.t }.
End CommitTxInput.

Module InscriberOutput.
Record t := mk {
  commit_txid : Txid;
  commit_raw_tx : list byte;
  commit_tx_fee_rate : Z;
  reveal_txid : Txid;
  reveal_raw_tx : list byte;
  reveal_tx_fee_rate : Z;
  is_broadcasted : bool;
}.
End InscriberOutput.

Module InscriptionRequest.
Record t := mk {
  message : InscriptionMessage.t;
  inscriber_output : InscriberOutput.t;
  fee_payer_ctx : FeePayerCtx.t;
  commit_tx_input : CommitTxInput.t;
}.
End InscriptionRequest.

(** [VecDeque]: front first. *)
Module InscriberContext.
Record t := mk { fifo_queue : list InscriptionRequest.t }.
Definition new : t := mk [].
End InscriberContext.

(** ** Errors; payloads built with [format!] from library errors are dropped. *)
Inductive BitcoinError :=
| Rpc
| InvalidAddress
| InvalidTransaction
| SigningError
| InscriptionError
| IndexingError
| TransactionBuildingError
| FeeEstimationFailed (s : string)
| InvalidNetwork
| InvalidOutpoint (o : OutPoint.t)
| InvalidPrivateKey
| CompressedPublicKeyError
| UncompressedPublicKeyError (s : string)
| OtherError.

Inductive IndexerError :=
| IncompleteBootstrap (s : string)
| InvalidBlockHeight (height : Z)
| BitcoinClientError (e : BitcoinError).

(** [anyhow::Error]: its source, or a message. *)
Inductive AnyhowError :=
| AnyhowMsg (s : string)
| AnyhowBitcoin (e : BitcoinError)
| AnyhowNetwork (a : BitcoinAddress).
