(* ===== verification/BitcoinToy.v ===== *)
(** * A concrete Bitcoin library

    An instance of [BitcoinLib] on which the theorems stated against the
    interface are evaluated, with a proof of [BitcoinLibLaws]: the laws can hold.
    Scripts have Bitcoin's own encoding of pushes and opcodes; keys, signatures
    and hashes are toy encodings. *)
From S2P Require Import Prelude Types BtcTypes.
Local Open Scope Z_scope.

(** ** Scripts: [OP_PUSHBYTES_n], [OP_PUSHDATA1/2/4], opcodes. *)
Definition to_le_bytes (n : nat) (z : Z) : list byte := reverse (to_be_bytes n z).
Definition from_le_bytes (bs : list byte) : Z := from_be_bytes (reverse bs).

Definition encode_item (i : ScriptItem) : list byte :=
  match i with
  | PushOpcode op => [Z_to_byte op]
  | PushSlice bs =>
      let n := Z.of_nat (length bs) in
      if decide (n ≤ 75) then Z_to_byte n :: bs
      else if decide (n < 2 ^ 8) then x4c :: to_le_bytes 1 n ++ bs
      else if decide (n < 2 ^ 16) then x4d :: to_le_bytes 2 n ++ bs
      else x4e :: to_le_bytes 4 n ++ bs
  end.

Definition toy_into_script (items : list ScriptItem) : list byte := items ≫= encode_item.

(** A length on [k] bytes and that many bytes. *)
Definition take_data (n : nat) (bs : list byte) : option (list byte * list byte) :=
  if decide (n ≤ length bs)%nat then Some (take n bs, drop n bs) else None.
Definition take_sized (k : nat) (bs : list byte) : option (list byte * list byte) :=
  '(len, bs) ← take_data k bs; take_data (Z.to_nat (from_le_bytes len)) bs.

Definition next_instruction (b : byte) (bs : list byte) : option (Instruction * list byte) :=
  let op := byte_to_Z b in
  let push := option_map (λ '(data, rest), (PushBytes data, rest)) in
  if decide (op ≤ 75) then push (take_data (Z.to_nat op) bs)
  else if decide (op = 0x4c) then push (take_sized 1 bs)
  else if decide (op = 0x4d) then push (take_sized 2 bs)
  else if decide (op = 0x4e) then push (take_sized 4 bs)
  else Some (Op op, bs).

(** [fuel]: every instruction takes a byte, so the script's length is enough. *)
Fixpoint decode (fuel : nat) (bs : list byte) : list (option Instruction) :=
  match fuel, bs with
  | S fuel, b :: bs =>
      match next_instruction b bs with
      | Some (i, rest) => Some i :: decode fuel rest
      | None => [None]
      end
  | _, _ => []
  end.
Definition toy_instructions (script : list byte) : list (option Instruction) :=
  decode (length script) script.

Lemma take_data_app n bs rest : length bs = n → take_data n (bs ++ rest) = Some (bs, rest).
Proof.
  intros <-. unfold take_data. rewrite decide_True by (rewrite length_app; lia).
  by rewrite take_app_length, drop_app_length.
Qed.

Lemma take_sized_app k n bs rest :
  0 ≤ n < 256 ^ Z.of_nat k → n = Z.of_nat (length bs) →
  take_sized k (to_le_bytes k n ++ bs ++ rest) = Some (bs, rest).
Proof.
  intros Hn ->. unfold take_sized, to_le_bytes.
  rewrite take_data_app by (by rewrite length_reverse, length_to_be_bytes). cbn [mbind option_bind].
  unfold from_le_bytes. rewrite reverse_involutive, from_to_be_bytes by done.
  by rewrite Nat2Z.id, take_data_app.
Qed.

Lemma next_instruction_encode i rest :
  item_ok i → ∃ b bs, encode_item i ++ rest = b :: bs ∧
    next_instruction b bs = Some (item_instruction i, rest).
Proof.
  destruct i as [bs|op]; cbn [item_ok encode_item]; intros Hok.
  - unfold next_instruction. set (n := Z.of_nat (length bs)) in *. cbv zeta. assert (0 ≤ n) by lia.
    repeat case_decide; eexists _, _; (split; [rewrite <-?app_comm_cons, <-?app_assoc; reflexivity|]).
    + rewrite Z_to_byte_to_Z, wrap_small by (split; lia). rewrite decide_True by done.
      unfold n. by rewrite Nat2Z.id, take_data_app.
    + change (byte_to_Z x4c) with 0x4c. cbn [decide]. rewrite decide_False, decide_True by lia.
      rewrite (take_sized_app 1); [done|cbn; lia|done].
    + change (byte_to_Z x4d) with 0x4d. do 2 rewrite decide_False by lia. rewrite decide_True by lia.
      rewrite (take_sized_app 2); [done|cbn; lia|done].
    + change (byte_to_Z x4e) with 0x4e. do 3 rewrite decide_False by lia. rewrite decide_True by lia.
      rewrite (take_sized_app 4); [done|cbn; lia|done].
  - eexists _, _. split; [reflexivity|]. unfold next_instruction, item_instruction, OP_0 in *.
    rewrite Z_to_byte_to_Z, wrap_small by (split; lia). cbv zeta.
    destruct Hok as [->|Hop]; [done|]. by repeat rewrite decide_False by lia.
Qed.

Lemma decode_encode items fuel :
  Forall item_ok items → (length (toy_into_script items) ≤ fuel)%nat →
  decode fuel (toy_into_script items) = (λ i, Some (item_instruction i)) <$> items.
Proof.
  intros Hok. revert fuel. induction Hok as [|i items Hi Hok IH]; intros fuel Hf.
  { by destruct fuel. }
  unfold toy_into_script in *. cbn [mbind list_bind] in *.
  destruct (next_instruction_encode i (items ≫= encode_item) Hi) as (b & bs & Henc & Hnext).
  rewrite Henc in *. destruct fuel as [|fuel]; [cbn in Hf; lia|]. cbn [decode]. rewrite Hnext.
  cbn [fmap list_fmap]. f_equal. apply IH.
  assert (Hl : (length (items ≫= encode_item) < length (b :: bs))%nat); [|cbn in *; lia].
  rewrite <-Henc, length_app. assert (0 < length (encode_item i))%nat; [|lia].
  destruct i; cbn [encode_item]; cbv zeta; [repeat case_decide|]; cbn; lia.
Qed.

(** ** A codec of numbers *)
Fixpoint pos_bits (p : positive) : list byte :=
  match p with xH => [] | xO p => x30 :: pos_bits p | xI p => x31 :: pos_bits p end.
Fixpoint bits_pos (bs : list byte) : option positive :=
  match bs with
  | [] => Some xH
  | x30 :: bs => xO <$> bits_pos bs
  | x31 :: bs => xI <$> bits_pos bs
  | _ => None
  end.
Definition encode_Z (z : Z) : list byte :=
  match z with Z0 => [x30] | Zpos p => x2b :: pos_bits p | Zneg p => x2d :: pos_bits p end.
Definition decode_Z (bs : list byte) : option Z :=
  match bs with
  | [x30] => Some 0
  | x2b :: bs => Zpos <$> bits_pos bs
  | x2d :: bs => Zneg <$> bits_pos bs
  | _ => None
  end.

Lemma decode_encode_Z z : decode_Z (encode_Z z) = Some z.
Proof.
  assert (∀ p, bits_pos (pos_bits p) = Some p) as Hp.
  { intros p. induction p as [p IH|p IH|]; cbn; [by rewrite IH..|done]. }
  destruct z; cbn; [done|by rewrite Hp..].
Qed.

Lemma encode_Z_utf8 z : valid_utf8 (encode_Z z) = true.
Proof.
  assert (∀ p, valid_utf8 (pos_bits p) = true) as Hp.
  { intros p. by induction p. }
  destruct z; cbn; [done|apply Hp..].
Qed.

(** ** The instance *)
Definition network_code (n : Network) : Z :=
  match n with Bitcoin => 0 | Testnet => 1 | Signet => 2 | Regtest => 3 end.

Definition toy_txid (tx : BtcTransaction.t) : Txid :=
  foldl (λ acc i, (acc * 31 + OutPoint.txid (TxIn.previous_output i) * 7
                   + OutPoint.vout (TxIn.previous_output i) + 1) mod 2 ^ 256) 1 (BtcTransaction.input tx)
  + Z.of_nat (length (BtcTransaction.output tx)).

#[export] Instance ToyBitcoin : BitcoinLib := {
  address_to_string := encode_Z;
  address_from_str := decode_Z;
  is_valid_for_network a n := bool_decide (a mod 4 = network_code n);
  address_script_pubkey a := x00 :: x14 :: encode_Z a;
  address_p2wpkh k n := 4 * k + network_code n;
  address_p2tr_tweaked k n := 4 * k + network_code n;
  public_key_from_slice := decode_Z;
  compressed_try_from := Some;
  xonly_serialize := to_be_bytes 32;
  xonly_from_slice bs := if decide (length bs = 32%nat) then Some (from_be_bytes bs) else None;
  taproot_signature_from_slice := decode_Z;
  taproot_signature_to_vec := encode_Z;
  witness_p2wpkh sig pk := [encode_Z sig; encode_Z pk];
  taproot_finalize _ key := Some key;
  output_key info := info;
  spend_control_block info _ := Some info;
  control_block_decode := decode_Z;
  control_block_serialize := encode_Z;
  internal_key cb := cb;
  into_script := toy_into_script;
  instructions := toy_instructions;
  is_p2wpkh script := bool_decide (take 2 script = [x00; x14]);
  txid_from_slice bs := if decide (length bs = 32%nat) then Some (from_be_bytes bs) else None;
  txid_to_byte_array := to_be_bytes 32;
  compute_txid := toy_txid;
  compute_ntxid := toy_txid;
  raw_hex tx := encode_Z (toy_txid tx);
  p2wpkh_signature_hash tx i _ v := Some (toy_txid tx + Z.of_nat i + v);
  taproot_script_spend_signature_hash tx i _ _ := Some (toy_txid tx + Z.of_nat i);
}.

Lemma be_bytes_256 t : in_width 256 t → from_be_bytes (to_be_bytes 32 t) = t.
Proof.
  intros Ht. apply from_to_be_bytes.
  replace (256 ^ Z.of_nat 32) with (2 ^ 256) by (vm_compute; reflexivity). exact Ht.
Qed.

Lemma toy_xonly_length k : length (xonly_serialize k) = 32%nat.
Proof. exact (length_to_be_bytes 32 k). Qed.

Lemma toy_txid_length t : length (txid_to_byte_array t) = 32%nat.
Proof. exact (length_to_be_bytes 32 t). Qed.

Lemma toy_txid_roundtrip t : in_width 256 t → txid_from_slice (txid_to_byte_array t) = Some t.
Proof.
  intros Ht.
  change (txid_from_slice (txid_to_byte_array t)) with
    (if decide (length (to_be_bytes 32 t) = 32%nat) then Some (from_be_bytes (to_be_bytes 32 t)) else None).
  rewrite length_to_be_bytes, decide_True by done. by rewrite be_bytes_256.
Qed.

Lemma toy_instructions_into_script items :
  Forall item_ok items →
  instructions (into_script items) = (λ i, Some (item_instruction i)) <$> items.
Proof. intros Hok. by apply decode_encode. Qed.

Lemma toy_control_block_key script key info cb :
  taproot_finalize script key = Some info → spend_control_block info script = Some cb →
  internal_key cb = key.
Proof. by intros [= <-] [= <-]. Qed.

Lemma toy_witness_p2wpkh sig pk :
  ∃ sig_bytes pk_bytes, witness_p2wpkh sig pk = [sig_bytes; pk_bytes] ∧
    public_key_from_slice pk_bytes = Some pk.
Proof. exists (encode_Z sig), (encode_Z pk). split; [done|]. apply decode_encode_Z. Qed.

#[export] Instance ToyBitcoin_laws : BitcoinLibLaws := {
  address_roundtrip := decode_encode_Z;
  address_string_utf8 := encode_Z_utf8;
  xonly_length := toy_xonly_length;
  txid_roundtrip := toy_txid_roundtrip;
  txid_length := toy_txid_length;
  signature_roundtrip := decode_encode_Z;
  control_block_roundtrip := decode_encode_Z;
  control_block_key := toy_control_block_key;
  instructions_into_script := toy_instructions_into_script;
  witness_p2wpkh_items := toy_witness_p2wpkh;
}.
