(* ===== verification/ScriptBuilder.v ===== *)
(** * Inscription scripts ([via_btc_client/src/inscriber/script_builder.rs])

    The tapscript an inscription message is written as: the signer's key and
    [OP_CHECKSIG], then, in a branch that is never executed, the protocol tag,
    the message tag and the fields. *)
From S2P Require Import Prelude Types BtcTypes.
Local Open Scope Z_scope.

Section script_builder.
Context `{BitcoinLib}.

(** [script::Builder]. *)
Definition push_slice (b : list ScriptItem) (bs : list byte) : list ScriptItem := b ++ [PushSlice bs].
Definition push_opcode (b : list ScriptItem) (op : Z) : list ScriptItem := b ++ [PushOpcode op].

(** [PushBytesBuf::extend_from_slice] refuses data of [2 ^ 32] bytes and more,
    and [.ok()] ignores that: the buffer stays empty. *)
Definition encode_push_bytes (data : list byte) : list byte :=
  if decide (Z.of_nat (length data) < 2 ^ 32) then data else [].

Definition H256_as_bytes (h : H256) : list byte := to_be_bytes 32 h.
Definition Address_as_bytes (a : Address) : list byte := to_be_bytes 20 a.

Definition build_basic_inscription_script (encoded_pubkey : list byte) : list ScriptItem :=
  let via_prefix_encoded := encode_push_bytes VIA_INSCRIPTION_PROTOCOL in
  let script := push_slice [] encoded_pubkey in
  let script := push_opcode script OP_CHECKSIG in
  let script := push_opcode script OP_FALSE in
  let script := push_opcode script OP_IF in
  push_slice script via_prefix_encoded.

Definition build_l1_batch_da_reference_script (basic_script : list ScriptItem)
    (input : L1BatchDAReferenceInput.t) : list ScriptItem :=
  let l1_batch_hash_encoded :=
    encode_push_bytes (H256_as_bytes (L1BatchDAReferenceInput.l1_batch_hash input)) in
  let l1_batch_index_encoded :=
    encode_push_bytes (to_be_bytes 4 (L1BatchDAReferenceInput.l1_batch_index input)) in
  let da_identifier_encoded := encode_push_bytes (L1BatchDAReferenceInput.da_identifier input) in
  let da_reference_encoded := encode_push_bytes (L1BatchDAReferenceInput.blob_id input) in
  let script := push_slice basic_script L1_BATCH_DA_REFERENCE_MSG in
  let script := push_slice script l1_batch_hash_encoded in
  let script := push_slice script l1_batch_index_encoded in
  let script := push_slice script da_identifier_encoded in
  push_slice script da_reference_encoded.

Definition build_proof_da_reference_script (basic_script : list ScriptItem)
    (input : ProofDAReferenceInput.t) : list ScriptItem :=
  let l1_batch_reveal_txid_encoded :=
    encode_push_bytes (txid_to_byte_array (ProofDAReferenceInput.l1_batch_reveal_txid input)) in
  let da_identifier_encoded := encode_push_bytes (ProofDAReferenceInput.da_identifier input) in
  let da_reference_encoded := encode_push_bytes (ProofDAReferenceInput.blob_id input) in
  let script := push_slice basic_script PROOF_DA_REFERENCE_MSG in
  let script := push_slice script l1_batch_reveal_txid_encoded in
  let script := push_slice script da_identifier_encoded in
  push_slice script da_reference_encoded.

Definition build_validator_attestation_script (basic_script : list ScriptItem)
    (input : ValidatorAttestationInput.t) : list ScriptItem :=
  let reference_txid_encoded :=
    encode_push_bytes (txid_to_byte_array (ValidatorAttestationInput.reference_txid input)) in
  let script := push_slice basic_script VALIDATOR_ATTESTATION_MSG in
  let script := push_slice script reference_txid_encoded in
  match ValidatorAttestationInput.attestation input with
  | VoteOk => push_opcode script OP_PUSHNUM_1
  | VoteNotOk => push_opcode script OP_0
  end.

(** [a.require_network(network)?]. *)
Definition checked_address (a : BitcoinAddress) (network : Network) : AnyhowError + BitcoinAddress :=
  match require_network a network with Some a => inr a | None => inl (AnyhowNetwork a) end.

(** The loop over [input.verifier_p2wpkh_addresses]. *)
Fixpoint push_verifiers (script : list ScriptItem) (verifiers : list BitcoinAddress)
    (network : Network) : AnyhowError + list ScriptItem :=
  match verifiers with
  | [] => inr script
  | verifier_p2wpkh_address :: verifiers =>
      let! network_checked_address := checked_address verifier_p2wpkh_address network
        else (e => inl e) in
      let address_encoded := encode_push_bytes (address_to_string network_checked_address) in
      push_verifiers (push_slice script address_encoded) verifiers network
  end.

Definition build_system_bootstrapping_script (basic_script : list ScriptItem)
    (input : SystemBootstrappingInput.t) (network : Network) : AnyhowError + list ScriptItem :=
  let start_block_height_encoded :=
    encode_push_bytes (to_be_bytes 4 (SystemBootstrappingInput.start_block_height input)) in
  let script := push_slice basic_script SYSTEM_BOOTSTRAPPING_MSG in
  let script := push_slice script start_block_height_encoded in
  let! script :=
    push_verifiers script (SystemBootstrappingInput.verifier_p2wpkh_addresses input) network
    else (e => inl e) in
  let! bridge_address :=
    checked_address (SystemBootstrappingInput.bridge_p2wpkh_mpc_address input) network
    else (e => inl e) in
  let bridge_address_encoded := encode_push_bytes (address_to_string bridge_address) in
  let boostloader_hash :=
    encode_push_bytes (H256_as_bytes (SystemBootstrappingInput.bootloader_hash input)) in
  let abstract_account_hash :=
    encode_push_bytes (H256_as_bytes (SystemBootstrappingInput.abstract_account_hash input)) in
  inr (push_slice (push_slice (push_slice script bridge_address_encoded) boostloader_hash)
         abstract_account_hash).

Definition build_propose_sequencer_script (basic_script : list ScriptItem)
    (input : ProposeSequencerInput.t) (network : Network) : AnyhowError + list ScriptItem :=
  let! address := checked_address (ProposeSequencerInput.sequencer_new_p2wpkh_address input) network
    else (e => inl e) in
  let address_encoded := encode_push_bytes (address_to_string address) in
  inr (push_slice (push_slice basic_script PROPOSE_SEQUENCER_MSG) address_encoded).

Definition build_l1_to_l2_message_script (basic_script : list ScriptItem)
    (input : L1ToL2MessageInput.t) : list ScriptItem :=
  let receiver_l2_address_encoded :=
    encode_push_bytes (Address_as_bytes (L1ToL2MessageInput.receiver_l2_address input)) in
  let l2_contract_address_encoded :=
    encode_push_bytes (Address_as_bytes (L1ToL2MessageInput.l2_contract_address input)) in
  let call_data_encoded := encode_push_bytes (L1ToL2MessageInput.call_data input) in
  let script := push_slice basic_script L1_TO_L2_MSG in
  let script := push_slice script receiver_l2_address_encoded in
  let script := push_slice script l2_contract_address_encoded in
  push_slice script call_data_encoded.

(** The dispatch of [complete_inscription] up to [OP_ENDIF]. *)
Definition inscription_items (basic_script : list ScriptItem) (message : InscriptionMessage.t)
    (network : Network) : AnyhowError + list ScriptItem :=
  match message with
  | InscriptionMessage.L1BatchDAReference input =>
      inr (build_l1_batch_da_reference_script basic_script input)
  | InscriptionMessage.ProofDAReference input =>
      inr (build_proof_da_reference_script basic_script input)
  | InscriptionMessage.ValidatorAttestation input =>
      inr (build_validator_attestation_script basic_script input)
  | InscriptionMessage.SystemBootstrapping input =>
      build_system_bootstrapping_script basic_script input network
  | InscriptionMessage.ProposeSequencer input =>
      build_propose_sequencer_script basic_script input network
  | InscriptionMessage.L1ToL2Message input =>
      inr (build_l1_to_l2_message_script basic_script input)
  end.

Definition complete_inscription (basic_script : list ScriptItem) (message : InscriptionMessage.t)
    (network : Network) : AnyhowError + (ScriptBuf * nat) :=
  let! final_script_result := inscription_items basic_script message network else (e => inl e) in
  let final_script := into_script (push_opcode final_script_result OP_ENDIF) in
  let script_size := length final_script in
  inr (final_script, script_size).

Definition construct_inscription_commitment_data (inscription_script : ScriptBuf)
    (internal_key : XOnlyPublicKey) (network : Network)
    : AnyhowError + (ScriptBuf * TaprootSpendInfo) :=
  match taproot_finalize inscription_script internal_key with
  | None => inl (AnyhowMsg "Failed to finalize taproot spend info")
  | Some taproot_spend_info =>
      let taproot_address := address_p2tr_tweaked (output_key taproot_spend_info) network in
      inr (address_script_pubkey taproot_address, taproot_spend_info)
  end.

Record InscriptionData := {
  inscription_script : ScriptBuf;
  script_size : nat;
  script_pubkey : ScriptBuf;
  taproot_spend_info : TaprootSpendInfo;
}.

Definition InscriptionData_new (inscription_message : InscriptionMessage.t)
    (internal_key : XOnlyPublicKey) (network : Network) : AnyhowError + InscriptionData :=
  let encoded_pubkey := encode_push_bytes (xonly_serialize internal_key) in
  let basic_script := build_basic_inscription_script encoded_pubkey in
  let! (script, size) := complete_inscription basic_script inscription_message network
    else (e => inl e) in
  let! (pubkey, spend_info) := construct_inscription_commitment_data script internal_key network
    else (e => inl e) in
  inr {| inscription_script := script; script_size := size;
         script_pubkey := pubkey; taproot_spend_info := spend_info |}.

(** ** The instructions a reader sees *)

(** Messages the script format can carry: integers in their width, strings that
    are UTF-8, pushes below the limit, addresses of the network. *)
Definition short (bs : list byte) : bool := bool_decide (Z.of_nat (length bs) < 2 ^ 32).
Definition address_ok (network : Network) (a : BitcoinAddress) : bool :=
  is_valid_for_network a network && short (address_to_string a).
Definition width_ok (w z : Z) : bool := bool_decide (0 ≤ z < 2 ^ w).

Definition message_ok (network : Network) (m : InscriptionMessage.t) : bool :=
  match m with
  | InscriptionMessage.L1BatchDAReference i =>
      width_ok 256 (L1BatchDAReferenceInput.l1_batch_hash i)
      && width_ok 32 (L1BatchDAReferenceInput.l1_batch_index i)
      && valid_utf8 (L1BatchDAReferenceInput.da_identifier i)
      && valid_utf8 (L1BatchDAReferenceInput.blob_id i)
      && short (L1BatchDAReferenceInput.da_identifier i)
      && short (L1BatchDAReferenceInput.blob_id i)
  | InscriptionMessage.ProofDAReference i =>
      width_ok 256 (ProofDAReferenceInput.l1_batch_reveal_txid i)
      && valid_utf8 (ProofDAReferenceInput.da_identifier i)
      && valid_utf8 (ProofDAReferenceInput.blob_id i)
      && short (ProofDAReferenceInput.da_identifier i)
      && short (ProofDAReferenceInput.blob_id i)
  | InscriptionMessage.ValidatorAttestation i =>
      width_ok 256 (ValidatorAttestationInput.reference_txid i)
  | InscriptionMessage.SystemBootstrapping i =>
      width_ok 32 (SystemBootstrappingInput.start_block_height i)
      && forallb (address_ok network) (SystemBootstrappingInput.verifier_p2wpkh_addresses i)
      && address_ok network (SystemBootstrappingInput.bridge_p2wpkh_mpc_address i)
      && width_ok 256 (SystemBootstrappingInput.bootloader_hash i)
      && width_ok 256 (SystemBootstrappingInput.abstract_account_hash i)
  | InscriptionMessage.ProposeSequencer i =>
      address_ok network (ProposeSequencerInput.sequencer_new_p2wpkh_address i)
  | InscriptionMessage.L1ToL2Message i =>
      width_ok 160 (L1ToL2MessageInput.receiver_l2_address i)
      && width_ok 160 (L1ToL2MessageInput.l2_contract_address i)
      && short (L1ToL2MessageInput.call_data i)
  end.

(** The data pushes of a message, its tag first. *)
Definition message_fields (m : InscriptionMessage.t) : list ScriptItem :=
  match m with
  | InscriptionMessage.L1BatchDAReference i =>
      [PushSlice L1_BATCH_DA_REFERENCE_MSG;
       PushSlice (H256_as_bytes (L1BatchDAReferenceInput.l1_batch_hash i));
       PushSlice (to_be_bytes 4 (L1BatchDAReferenceInput.l1_batch_index i));
       PushSlice (L1BatchDAReferenceInput.da_identifier i);
       PushSlice (L1BatchDAReferenceInput.blob_id i)]
  | InscriptionMessage.ProofDAReference i =>
      [PushSlice PROOF_DA_REFERENCE_MSG;
       PushSlice (txid_to_byte_array (ProofDAReferenceInput.l1_batch_reveal_txid i));
       PushSlice (ProofDAReferenceInput.da_identifier i);
       PushSlice (ProofDAReferenceInput.blob_id i)]
  | InscriptionMessage.ValidatorAttestation i =>
      [PushSlice VALIDATOR_ATTESTATION_MSG;
       PushSlice (txid_to_byte_array (ValidatorAttestationInput.reference_txid i));
       PushOpcode (match ValidatorAttestationInput.attestation i with
                   | VoteOk => OP_PUSHNUM_1 | VoteNotOk => OP_0 end)]
  | InscriptionMessage.SystemBootstrapping i =>
      [PushSlice SYSTEM_BOOTSTRAPPING_MSG;
       PushSlice (to_be_bytes 4 (SystemBootstrappingInput.start_block_height i))]
      ++ ((λ a, PushSlice (address_to_string a))
            <$> SystemBootstrappingInput.verifier_p2wpkh_addresses i)
      ++ [PushSlice (address_to_string (SystemBootstrappingInput.bridge_p2wpkh_mpc_address i));
          PushSlice (H256_as_bytes (SystemBootstrappingInput.bootloader_hash i));
          PushSlice (H256_as_bytes (SystemBootstrappingInput.abstract_account_hash i))]
  | InscriptionMessage.ProposeSequencer i =>
      [PushSlice PROPOSE_SEQUENCER_MSG;
       PushSlice (address_to_string (ProposeSequencerInput.sequencer_new_p2wpkh_address i))]
  | InscriptionMessage.L1ToL2Message i =>
      [PushSlice L1_TO_L2_MSG;
       PushSlice (Address_as_bytes (L1ToL2MessageInput.receiver_l2_address i));
       PushSlice (Address_as_bytes (L1ToL2MessageInput.l2_contract_address i));
       PushSlice (L1ToL2MessageInput.call_data i)]
  end.

Lemma encode_short bs : short bs = true → encode_push_bytes bs = bs.
Proof using.
  intros Hs. unfold encode_push_bytes, short in *. apply bool_decide_eq_true_1 in Hs. by rewrite decide_True.
Qed.

Lemma short_be n z : (Z.of_nat n < 2 ^ 32) → short (to_be_bytes n z) = true.
Proof using. intros. apply bool_decide_eq_true. by rewrite length_to_be_bytes. Qed.

Lemma push_verifiers_spec network vs script :
  forallb (address_ok network) vs = true →
  push_verifiers script vs network = inr (script ++ ((λ a, PushSlice (address_to_string a)) <$> vs)).
Proof using.
  revert script. induction vs as [|v vs IH]; intros script Hok; cbn.
  { by rewrite app_nil_r. }
  cbn in Hok. apply andb_true_iff in Hok as [Hv Hvs]. apply andb_true_iff in Hv as [Hv Hs].
  unfold checked_address, require_network. rewrite Hv, encode_short by done.
  rewrite IH by done. unfold push_slice. by rewrite <-app_assoc.
Qed.

Context `{!BitcoinLibLaws}.

Lemma short_txid t : short (txid_to_byte_array t) = true.
Proof using All. apply bool_decide_eq_true. rewrite txid_length. lia. Qed.

(** What is written for a message is its tag and fields. *)
Lemma inscription_items_spec basic m network :
  message_ok network m = true →
  inscription_items basic m network = inr (basic ++ message_fields m).
Proof using All.
  intros Hok. destruct m as [i|i|i|i|i|i]; cbn in Hok; split_andb; cbn [inscription_items].
  - unfold build_l1_batch_da_reference_script, push_slice, H256_as_bytes.
    rewrite !encode_short by (done || by apply short_be). by rewrite <-!app_assoc.
  - unfold build_proof_da_reference_script, push_slice.
    rewrite !encode_short by (done || apply short_txid). by rewrite <-!app_assoc.
  - unfold build_validator_attestation_script, push_slice, push_opcode.
    rewrite !encode_short by apply short_txid. cbn [message_fields].
    by destruct (ValidatorAttestationInput.attestation i); rewrite <-!app_assoc.
  - unfold build_system_bootstrapping_script. rewrite push_verifiers_spec by done.
    match goal with H : address_ok _ _ = true |- _ => unfold address_ok in H end. split_andb.
    unfold checked_address, require_network.
    match goal with Hv : is_valid_for_network _ _ = true |- _ => rewrite Hv end.
    unfold H256_as_bytes. rewrite !encode_short by (done || by apply short_be).
    unfold push_slice. by rewrite <-!app_assoc.
  - unfold build_propose_sequencer_script, checked_address, require_network.
    unfold address_ok in Hok. split_andb.
    match goal with Hv : is_valid_for_network _ _ = true |- _ => rewrite Hv end.
    rewrite !encode_short by done. unfold push_slice. by rewrite <-!app_assoc.
  - unfold build_l1_to_l2_message_script, push_slice, Address_as_bytes.
    rewrite !encode_short by (done || by apply short_be). by rewrite <-!app_assoc.
Qed.

Lemma short_lt bs : short bs = true → Z.of_nat (length bs) < 2 ^ 32.
Proof using. apply bool_decide_eq_true_1. Qed.

Lemma message_fields_ok m network : message_ok network m = true → Forall item_ok (message_fields m).
Proof using All.
  intros Hok. destruct m as [i|i|i|i|i|i]; cbn in Hok; split_andb; cbn [message_fields].
  all: repeat first [apply Forall_app_2 | apply Forall_cons_2 | apply Forall_nil_2 | done
    | (cbn [item_ok]; first [by apply short_lt, short_be | apply short_lt; apply short_txid | by apply short_lt | done])].
  - cbn [item_ok]. destruct (ValidatorAttestationInput.attestation i); [right|left]; done.
  - apply Forall_fmap, Forall_forall. intros a Ha. cbn.
    eapply forallb_elem in Ha; [|eassumption]. unfold address_ok in Ha. split_andb. by apply short_lt.
  - unfold address_ok in *. split_andb. by apply short_lt.
  - unfold address_ok in *. split_andb. by apply short_lt.
Qed.

(** The reader's view of a complete inscription. *)
Lemma complete_inscription_instructions key m network script size :
  message_ok network m = true →
  complete_inscription (build_basic_inscription_script (encode_push_bytes (xonly_serialize key)))
    m network = inr (script, size) →
  instructions script =
    Some <$> ([PushBytes (xonly_serialize key); Op OP_CHECKSIG; PushBytes []; Op OP_IF;
               PushBytes VIA_INSCRIPTION_PROTOCOL]
              ++ (item_instruction <$> message_fields m) ++ [Op OP_ENDIF]).
Proof using All.
  intros Hok. unfold complete_inscription. rewrite inscription_items_spec by done.
  intros [= <- _]. unfold push_opcode.
  assert (Hk : short (xonly_serialize key) = true).
  { apply bool_decide_eq_true. rewrite xonly_length. lia. }
  rewrite encode_short by done.
  rewrite instructions_into_script.
  - rewrite !fmap_app. cbn. rewrite <-list_fmap_compose. done.
  - apply Forall_app; split; [|apply Forall_singleton; by right].
    unfold build_basic_inscription_script, push_slice, push_opcode. cbn [app].
    repeat apply Forall_cons_2; [by apply short_lt|by right|by left|by right|done|].
    by eapply message_fields_ok.
Qed.
End script_builder.
