(* ===== verification/Parser.v ===== *)
(** * The inscription parser ([via_btc_client/src/indexer/parser.rs])

    [MessageParser] reads the messages of a Bitcoin transaction. Its methods are
    [prog]s over the parser's state with [unit] as error, Rust's [None];
    [from_slice] of a fixed-size hash panics on another length. *)
From S2P Require Import Prelude Types BtcTypes BitcoinToy ScriptBuilder.
Local Open Scope Z_scope.

Definition MIN_WITNESS_LENGTH : nat := 3.
Definition MIN_SYSTEM_BOOTSTRAPPING_INSTRUCTIONS : nat := 7.
Definition MIN_PROPOSE_SEQUENCER_INSTRUCTIONS : nat := 3.
Definition MIN_VALIDATOR_ATTESTATION_INSTRUCTIONS : nat := 4.
Definition MIN_L1_BATCH_DA_REFERENCE_INSTRUCTIONS : nat := 6.
Definition MIN_PROOF_DA_REFERENCE_INSTRUCTIONS : nat := 5.
Definition MIN_L1_TO_L2_MESSAGE_INSTRUCTIONS : nat := 5.

Module MessageParser.
Record t := mk { network : Network; bridge_address : option BitcoinAddress }.
Definition new (network : Network) : t := mk network None.
End MessageParser.

(** [Instruction::push_bytes]. *)
Definition push_bytes (i : Instruction) : option (list byte) :=
  match i with PushBytes bs => Some bs | Op _ => None end.

(** [H256::from_slice], [H160::from_slice]. *)
Definition from_slice (n : nat) (bs : list byte) : exec Z :=
  assert_then (bool_decide (length bs = n)) (Ret (from_be_bytes bs)).

(** [<[u8; 4]>::try_from(bs).ok()] then [u32::from_be_bytes]. *)
Definition u32_try_from (bs : list byte) : option Z :=
  if decide (length bs = 4%nat) then Some (from_be_bytes bs) else None.

(** [Iterator::position] of the protocol tag. *)
Definition is_via_tag (i : Instruction) : bool :=
  match i with PushBytes bs => bool_decide (bs = VIA_INSCRIPTION_PROTOCOL) | Op _ => false end.
Definition find_via_inscription_protocol (instrs : list Instruction) : option nat :=
  fst <$> list_find (λ i, is_via_tag i = true) instrs.

Section parser.
Context `{BitcoinLib}.

Abbreviation parse A := (prog MessageParser.t unit A).

(** [instructions.get(i)?.push_bytes()?.as_bytes()]. *)
Definition bytes_at (instrs : list Instruction) (i : nat) : parse (list byte) :=
  instr ← ok_or tt (instrs !! i); ok_or tt (push_bytes instr).

(** The closure that reads an address of any network. *)
Definition unchecked_address (instr : Instruction) : option BitcoinAddress :=
  match instr with
  | PushBytes bs => from_utf8 bs ≫= address_from_str
  | Op _ => None
  end.

Definition parse_system_bootstrapping (instrs : list Instruction) (common_fields : CommonFields.t)
    : parse FullInscriptionMessage.t :=
  if decide (length instrs < MIN_SYSTEM_BOOTSTRAPPING_INSTRUCTIONS)%nat then fail tt else
  height_bytes ← bytes_at instrs 2;
  start_block_height ← ok_or tt (u32_try_from height_bytes);
  let n := length instrs in
  let network_unchecked_verifier_addresses :=
    omap unchecked_address (take (n - 4 - 3) (drop 3 instrs)) in
  network_unchecked_bridge_address ← ok_or tt ((instrs !! (n - 4)%nat) ≫= unchecked_address);
  self ← get;
  bridge_address ←
    ok_or tt (require_network network_unchecked_bridge_address (MessageParser.network self));
  _ ← put (MessageParser.mk (MessageParser.network self) (Some bridge_address));
  bootloader_bytes ← bytes_at instrs (n - 3);
  bootloader_hash ← lift_exec (from_slice 32 bootloader_bytes);
  account_bytes ← bytes_at instrs (n - 2);
  abstract_account_hash ← lift_exec (from_slice 32 account_bytes);
  mret (FullInscriptionMessage.SystemBootstrapping common_fields
    {| SystemBootstrappingInput.start_block_height := start_block_height;
       SystemBootstrappingInput.bridge_p2wpkh_mpc_address := network_unchecked_bridge_address;
       SystemBootstrappingInput.verifier_p2wpkh_addresses := network_unchecked_verifier_addresses;
       SystemBootstrappingInput.bootloader_hash := bootloader_hash;
       SystemBootstrappingInput.abstract_account_hash := abstract_account_hash |}).

Definition parse_propose_sequencer (instrs : list Instruction) (common_fields : CommonFields.t)
    : parse FullInscriptionMessage.t :=
  if decide (length instrs < MIN_PROPOSE_SEQUENCER_INSTRUCTIONS)%nat then fail tt else
  self ← get;
  sequencer_address ←
    ok_or tt (instr ← instrs !! 2%nat;
              a ← unchecked_address instr;
              require_network a (MessageParser.network self));
  mret (FullInscriptionMessage.ProposeSequencer common_fields
    {| ProposeSequencerInput.sequencer_new_p2wpkh_address := sequencer_address |}).

Definition parse_vote (instr : Instruction) : option Vote :=
  match instr with
  | PushBytes bs =>
      if decide (bs = bytes "OP_1") then Some VoteOk
      else if decide (bs = bytes "OP_0") then Some VoteNotOk
      else None
  | Op op =>
      if decide (op = 0x51) then Some VoteOk
      else if decide (op = 0x50) then Some VoteNotOk
      else None
  end.

Definition parse_validator_attestation (instrs : list Instruction) (common_fields : CommonFields.t)
    : parse FullInscriptionMessage.t :=
  if decide (length instrs < MIN_VALIDATOR_ATTESTATION_INSTRUCTIONS)%nat then fail tt else
  txid_bytes ← bytes_at instrs 2;
  reference_txid ← ok_or tt (txid_from_slice txid_bytes);
  instr ← ok_or tt (instrs !! 3%nat);
  attestation ← ok_or tt (parse_vote instr);
  mret (FullInscriptionMessage.ValidatorAttestation common_fields
    {| ValidatorAttestationInput.reference_txid := reference_txid;
       ValidatorAttestationInput.attestation := attestation |}).

Definition parse_l1_batch_da_reference (instrs : list Instruction) (common_fields : CommonFields.t)
    : parse FullInscriptionMessage.t :=
  if decide (length instrs < MIN_L1_BATCH_DA_REFERENCE_INSTRUCTIONS)%nat then fail tt else
  hash_bytes ← bytes_at instrs 2;
  l1_batch_hash ← lift_exec (from_slice 32 hash_bytes);
  index_bytes ← bytes_at instrs 3;
  l1_batch_index ← ok_or tt (u32_try_from index_bytes);
  identifier_bytes ← bytes_at instrs 4;
  da_identifier ← ok_or tt (from_utf8 identifier_bytes);
  blob_bytes ← bytes_at instrs 5;
  blob_id ← ok_or tt (from_utf8 blob_bytes);
  mret (FullInscriptionMessage.L1BatchDAReference common_fields
    {| L1BatchDAReferenceInput.l1_batch_hash := l1_batch_hash;
       L1BatchDAReferenceInput.l1_batch_index := l1_batch_index;
       L1BatchDAReferenceInput.da_identifier := da_identifier;
       L1BatchDAReferenceInput.blob_id := blob_id |}).

Definition parse_proof_da_reference (instrs : list Instruction) (common_fields : CommonFields.t)
    : parse FullInscriptionMessage.t :=
  if decide (length instrs < MIN_PROOF_DA_REFERENCE_INSTRUCTIONS)%nat then fail tt else
  txid_bytes ← bytes_at instrs 2;
  l1_batch_reveal_txid ← ok_or tt (txid_from_slice txid_bytes);
  identifier_bytes ← bytes_at instrs 3;
  da_identifier ← ok_or tt (from_utf8 identifier_bytes);
  blob_bytes ← bytes_at instrs 4;
  blob_id ← ok_or tt (from_utf8 blob_bytes);
  mret (FullInscriptionMessage.ProofDAReference common_fields
    {| ProofDAReferenceInput.l1_batch_reveal_txid := l1_batch_reveal_txid;
       ProofDAReferenceInput.da_identifier := da_identifier;
       ProofDAReferenceInput.blob_id := blob_id |}).

(** The value of the first output that pays the bridge, or zero. *)
Definition pays_bridge (self : MessageParser.t) (output : TxOut.t) : bool :=
  match MessageParser.bridge_address self with
  | Some address =>
      is_p2wpkh (TxOut.script_pubkey output) &&
      bool_decide (TxOut.script_pubkey output = address_script_pubkey address)
  | None => false
  end.
Definition bridge_amount (self : MessageParser.t) (outputs : list TxOut.t) : Amount :=
  match list_find (λ output, pays_bridge self output = true) outputs with
  | Some (_, output) => TxOut.value output
  | None => 0
  end.

Definition parse_l1_to_l2_message (tx : BtcTransaction.t) (instrs : list Instruction)
    (common_fields : CommonFields.t) : parse FullInscriptionMessage.t :=
  if decide (length instrs < MIN_L1_TO_L2_MESSAGE_INSTRUCTIONS)%nat then fail tt else
  receiver_bytes ← bytes_at instrs 2;
  receiver_l2_address ← lift_exec (from_slice 20 receiver_bytes);
  contract_bytes ← bytes_at instrs 3;
  l2_contract_address ← lift_exec (from_slice 20 contract_bytes);
  call_data ← bytes_at instrs 4;
  self ← get;
  let amount := bridge_amount self (BtcTransaction.output tx) in
  mret (FullInscriptionMessage.L1ToL2Message common_fields amount
    {| L1ToL2MessageInput.receiver_l2_address := receiver_l2_address;
       L1ToL2MessageInput.l2_contract_address := l2_contract_address;
       L1ToL2MessageInput.call_data := call_data |}
    (BtcTransaction.output tx)).

Definition parse_message (tx : BtcTransaction.t) (instrs : list Instruction)
    (common_fields : CommonFields.t) : parse FullInscriptionMessage.t :=
  message_type ← ok_or tt (instrs !! 1%nat);
  match message_type with
  | PushBytes bs =>
      if decide (bs = SYSTEM_BOOTSTRAPPING_MSG) then parse_system_bootstrapping instrs common_fields
      else if decide (bs = PROPOSE_SEQUENCER_MSG) then parse_propose_sequencer instrs common_fields
      else if decide (bs = VALIDATOR_ATTESTATION_MSG) then
        parse_validator_attestation instrs common_fields
      else if decide (bs = L1_BATCH_DA_REFERENCE_MSG) then
        parse_l1_batch_da_reference instrs common_fields
      else if decide (bs = PROOF_DA_REFERENCE_MSG) then parse_proof_da_reference instrs common_fields
      else if decide (bs = L1_TO_L2_MSG) then parse_l1_to_l2_message tx instrs common_fields
      else fail tt
  | Op _ => fail tt
  end.

Definition parse_p2wpkh (self : MessageParser.t) (witness : Witness) : option BitcoinAddress :=
  if decide (length witness = 2%nat) then
    bs ← witness !! 1%nat;
    public_key ← public_key_from_slice bs;
    cm_pk ← compressed_try_from public_key;
    Some (address_p2wpkh cm_pk (MessageParser.network self))
  else None.

Definition parse_input (input : TxIn.t) (tx : BtcTransaction.t) (block_height : Z)
    (address : BitcoinAddress) : parse FullInscriptionMessage.t :=
  let witness := TxIn.witness input in
  if decide (length witness < MIN_WITNESS_LENGTH)%nat then fail tt else
  match witness with
  | w0 :: w1 :: w2 :: _ =>
      signature ← ok_or tt (taproot_signature_from_slice w0);
      let script := w1 in
      control_block ← ok_or tt (control_block_decode w2);
      let instrs := omap id (instructions script) in
      via_index ← ok_or tt (find_via_inscription_protocol instrs);
      let public_key := internal_key control_block in
      let common_fields :=
        {| CommonFields.schnorr_signature := signature;
           CommonFields.encoded_public_key := xonly_serialize public_key;
           CommonFields.block_height := block_height;
           CommonFields.tx_id := compute_ntxid tx;
           CommonFields.p2wpkh_address := address |} in
      parse_message tx (drop via_index instrs) common_fields
  | _ => fail tt
  end.

(** The last input with a P2WPKH witness names the sender. *)
Definition find_sender (self : MessageParser.t) (inputs : list TxIn.t) : option BitcoinAddress :=
  foldl (λ sender_addresses input,
    match parse_p2wpkh self (TxIn.witness input) with
    | Some btc_address => Some btc_address
    | None => sender_addresses
    end) None inputs.

(** [filter_map(|input| self.parse_input(..)).collect()]. *)
Fixpoint parse_inputs (inputs : list TxIn.t) (tx : BtcTransaction.t) (block_height : Z)
    (address : BitcoinAddress) (self : MessageParser.t)
    : exec (list FullInscriptionMessage.t * MessageParser.t) :=
  match inputs with
  | [] => Ret ([], self)
  | input :: inputs =>
      '(r, self) ← parse_input input tx block_height address self;
      '(messages, self) ← parse_inputs inputs tx block_height address self;
      Ret (match r with inr message => message :: messages | inl _ => messages end, self)
  end.

Definition parse_transaction (tx : BtcTransaction.t) (block_height : Z) (self : MessageParser.t)
    : exec (list FullInscriptionMessage.t * MessageParser.t) :=
  match find_sender self (BtcTransaction.input tx) with
  | Some address => parse_inputs (BtcTransaction.input tx) tx block_height address self
  | None => Ret ([], self)
  end.

(** The first 20 bytes of the serialized key. *)
Definition get_eth_address (common_fields : CommonFields.t) : option Address :=
  (λ public_key, from_be_bytes (take 20 (xonly_serialize public_key)))
    <$> xonly_from_slice (CommonFields.encoded_public_key common_fields).

(** ** What is parsed of what was written *)
Definition full_message (common : CommonFields.t) (self : MessageParser.t) (tx : BtcTransaction.t)
    (m : InscriptionMessage.t) : FullInscriptionMessage.t :=
  match m with
  | InscriptionMessage.L1BatchDAReference i => FullInscriptionMessage.L1BatchDAReference common i
  | InscriptionMessage.ProofDAReference i => FullInscriptionMessage.ProofDAReference common i
  | InscriptionMessage.ValidatorAttestation i => FullInscriptionMessage.ValidatorAttestation common i
  | InscriptionMessage.SystemBootstrapping i => FullInscriptionMessage.SystemBootstrapping common i
  | InscriptionMessage.ProposeSequencer i => FullInscriptionMessage.ProposeSequencer common i
  | InscriptionMessage.L1ToL2Message i =>
      FullInscriptionMessage.L1ToL2Message common
        (bridge_amount self (BtcTransaction.output tx)) i (BtcTransaction.output tx)
  end.

(** The parser after a message: a bootstrapping message sets the bridge. *)
Definition after_message (self : MessageParser.t) (m : InscriptionMessage.t) : MessageParser.t :=
  match m with
  | InscriptionMessage.SystemBootstrapping i =>
      MessageParser.mk (MessageParser.network self)
        (Some (SystemBootstrappingInput.bridge_p2wpkh_mpc_address i))
  | _ => self
  end.

Definition is_not_ok_vote (m : InscriptionMessage.t) : bool :=
  match m with
  | InscriptionMessage.ValidatorAttestation i =>
      bool_decide (ValidatorAttestationInput.attestation i = VoteNotOk)
  | _ => false
  end.

Lemma bytes_at_push instrs i bs self :
  instrs !! i = Some (PushBytes bs) → bytes_at instrs i self = Ret (inr bs, self).
Proof using. intros Hi. unfold bytes_at. by rewrite Hi. Qed.

Lemma from_slice_be n z (self : MessageParser.t) :
  0 ≤ z < 256 ^ Z.of_nat n →
  (lift_exec (from_slice n (to_be_bytes n z)) : parse Z) self = Ret (inr z, self).
Proof using.
  intros Hz. unfold lift_exec, from_slice, assert_then.
  rewrite length_to_be_bytes, bool_decide_true by done. cbn. by rewrite from_to_be_bytes.
Qed.

Lemma u32_try_from_be z : 0 ≤ z < 2 ^ 32 → u32_try_from (to_be_bytes 4 z) = Some z.
Proof using.
  intros Hz. unfold u32_try_from. rewrite length_to_be_bytes, decide_True by done.
  by rewrite from_to_be_bytes.
Qed.

Lemma width_ok_iff w z : width_ok w z = true → 0 ≤ z < 2 ^ w.
Proof using. apply bool_decide_eq_true_1. Qed.

Lemma from_utf8_valid bs : valid_utf8 bs = true → from_utf8 bs = Some bs.
Proof using. unfold from_utf8. by intros ->. Qed.

Context `{!BitcoinLibLaws}.

Lemma unchecked_address_roundtrip a :
  unchecked_address (PushBytes (address_to_string a)) = Some a.
Proof using All.
  cbn. rewrite from_utf8_valid by apply address_string_utf8. apply address_roundtrip.
Qed.

Lemma unchecked_addresses_roundtrip (vs : list BitcoinAddress) :
  omap unchecked_address ((item_instruction ∘ λ a, PushSlice (address_to_string a)) <$> vs) = vs.
Proof using All.
  induction vs as [|v vs IH]; [done|]. cbn [fmap list_fmap omap list_omap compose item_instruction].
  rewrite unchecked_address_roundtrip. by f_equal.
Qed.

(** Steps of a parsing function whose next action is known to succeed. *)
Ltac parse_step :=
  first
    [ erewrite prog_bind_step; [|apply bytes_at_push; reflexivity]
    | erewrite prog_bind_step; [|apply from_slice_be; assumption]
    | erewrite prog_bind_step; [|apply ok_or_Some; first
        [ apply u32_try_from_be; assumption | apply from_utf8_valid; assumption
        | apply txid_roundtrip; assumption | reflexivity ]] ].

Lemma parse_system_bootstrapping_roundtrip tx common self i :
  message_ok (MessageParser.network self) (InscriptionMessage.SystemBootstrapping i) = true →
  parse_system_bootstrapping
    (PushBytes VIA_INSCRIPTION_PROTOCOL ::
      (item_instruction <$> message_fields (InscriptionMessage.SystemBootstrapping i)) ++ [Op OP_ENDIF])
    common self =
  Ret (inr (full_message common self tx (InscriptionMessage.SystemBootstrapping i)),
       after_message self (InscriptionMessage.SystemBootstrapping i)).
Proof using All.
  intros Hok. cbn in Hok. split_andb.
  repeat match goal with Hw : width_ok _ _ = true |- _ => apply width_ok_iff in Hw end.
  match goal with Ha : address_ok _ _ = true |- _ => unfold address_ok in Ha end. split_andb.
  unfold message_fields. rewrite !fmap_app. cbn [fmap list_fmap app]. rewrite <-list_fmap_compose, <-app_assoc.
  cbn [app]. set (vs := _ <$> _). set (tail := [_; _; _; _]).
  set (instrs := _ :: _ :: _ :: (vs ++ tail)).
  assert (Hlen : length instrs = (length vs + 7)%nat) by (unfold instrs; cbn; rewrite length_app; cbn; lia).
  assert (Htail : ∀ k, instrs !! (3 + length vs + k)%nat = tail !! k).
  { intros k. change (instrs !! (3 + length vs + k)%nat) with ((vs ++ tail) !! (length vs + k)%nat).
    rewrite lookup_app_r by lia. by replace (length vs + k - length vs)%nat with k by lia. }
  unfold parse_system_bootstrapping. rewrite decide_False by (unfold MIN_SYSTEM_BOOTSTRAPPING_INSTRUCTIONS; lia).
  assert (Hdrop : drop 3 instrs = vs ++ tail) by done.
  do 2 parse_step. cbv zeta. rewrite Hlen, Hdrop.
  replace (length vs + 7 - 4 - 3)%nat with (length vs) by lia. rewrite take_app_length.
  erewrite prog_bind_step; [|apply ok_or_Some; replace (length vs + 7 - 4)%nat with (3 + length vs + 0)%nat by lia;
    rewrite Htail; apply unchecked_address_roundtrip].
  erewrite prog_bind_step; [|reflexivity].
  erewrite prog_bind_step; [|apply ok_or_Some; unfold require_network;
    match goal with Hv : is_valid_for_network _ _ = true |- _ => rewrite Hv end; reflexivity].
  erewrite prog_bind_step; [|reflexivity].
  erewrite prog_bind_step; [|apply bytes_at_push; replace (length vs + 7 - 3)%nat with (3 + length vs + 1)%nat by lia;
    rewrite Htail; reflexivity].
  parse_step.
  erewrite prog_bind_step; [|apply bytes_at_push; replace (length vs + 7 - 2)%nat with (3 + length vs + 2)%nat by lia;
    rewrite Htail; reflexivity].
  parse_step. unfold vs. rewrite unchecked_addresses_roundtrip. by destruct i.
Qed.

(** Every message but a negative vote is parsed as it was written. *)
Lemma parse_message_roundtrip tx common self m :
  message_ok (MessageParser.network self) m = true → is_not_ok_vote m = false →
  parse_message tx
    (PushBytes VIA_INSCRIPTION_PROTOCOL :: (item_instruction <$> message_fields m) ++ [Op OP_ENDIF])
    common self =
  Ret (inr (full_message common self tx m), after_message self m).
Proof using All.
  intros Hok Hvote. unfold parse_message.
  set (instrs := _ :: _).
  destruct m as [i|i|i|i|i|i]; (erewrite prog_bind_step; [|reflexivity]).
  4: { by apply (parse_system_bootstrapping_roundtrip tx). }
  all: cbn in Hok; split_andb;
    repeat match goal with Hw : width_ok _ _ = true |- _ => apply width_ok_iff in Hw end.
  - change (parse_l1_batch_da_reference instrs common self =
      Ret (inr (FullInscriptionMessage.L1BatchDAReference common i), self)).
    unfold parse_l1_batch_da_reference.
    rewrite decide_False by (cbn; unfold MIN_L1_BATCH_DA_REFERENCE_INSTRUCTIONS; lia).
    repeat parse_step. by destruct i.
  - change (parse_proof_da_reference instrs common self =
      Ret (inr (FullInscriptionMessage.ProofDAReference common i), self)).
    unfold parse_proof_da_reference.
    rewrite decide_False by (cbn; unfold MIN_PROOF_DA_REFERENCE_INSTRUCTIONS; lia).
    repeat parse_step. by destruct i.
  - change (parse_validator_attestation instrs common self =
      Ret (inr (FullInscriptionMessage.ValidatorAttestation common i), self)).
    unfold parse_validator_attestation.
    rewrite decide_False by (cbn; unfold MIN_VALIDATOR_ATTESTATION_INSTRUCTIONS; lia).
    do 3 parse_step. destruct i as [txid [|]]; [done|by apply bool_decide_eq_false in Hvote].
  - change (parse_propose_sequencer instrs common self =
      Ret (inr (FullInscriptionMessage.ProposeSequencer common i), self)).
    unfold parse_propose_sequencer.
    rewrite decide_False by (cbn; unfold MIN_PROPOSE_SEQUENCER_INSTRUCTIONS; lia).
    erewrite prog_bind_step; [|reflexivity].
    rewrite (prog_bind_step _ _ _ (ProposeSequencerInput.sequencer_new_p2wpkh_address i) self); [by destruct i|].
    apply ok_or_Some. unfold address_ok in Hok. split_andb.
    change (instrs !! 2%nat) with (Some (PushBytes (address_to_string (ProposeSequencerInput.sequencer_new_p2wpkh_address i)))).
    cbn [mbind option_bind]. rewrite unchecked_address_roundtrip. cbn [mbind option_bind].
    unfold require_network.
    match goal with Hv : is_valid_for_network _ _ = true |- _ => by rewrite Hv end.
  - change (parse_l1_to_l2_message tx instrs common self =
      Ret (inr (FullInscriptionMessage.L1ToL2Message common
        (bridge_amount self (BtcTransaction.output tx)) i (BtcTransaction.output tx)), self)).
    unfold parse_l1_to_l2_message.
    rewrite decide_False by (cbn; unfold MIN_L1_TO_L2_MESSAGE_INSTRUCTIONS; lia).
    repeat parse_step. erewrite prog_bind_step; [|reflexivity]. by destruct i.
Qed.

(** A negative vote is written as [OP_0], which is read back as a push of no
    bytes, and dropped. *)
Lemma parse_message_not_ok tx common self m :
  message_ok (MessageParser.network self) m = true → is_not_ok_vote m = true →
  parse_message tx
    (PushBytes VIA_INSCRIPTION_PROTOCOL :: (item_instruction <$> message_fields m) ++ [Op OP_ENDIF])
    common self = Ret (inl tt, self).
Proof using All.
  destruct m as [i|i|i|i|i|i]; try done. intros Hok Hv%bool_decide_eq_true_1.
  cbn in Hok. apply width_ok_iff in Hok. unfold parse_message. set (instrs := _ :: _).
  erewrite prog_bind_step; [|reflexivity].
  change (parse_validator_attestation instrs common self = Ret (inl tt, self)).
  unfold parse_validator_attestation.
  rewrite decide_False by (cbn; unfold MIN_VALIDATOR_ATTESTATION_INSTRUCTIONS; lia).
  do 3 parse_step. by rewrite Hv.
Qed.

(** ** The reader of an input *)
Lemma find_via_in_inscription key rest :
  find_via_inscription_protocol
    ([PushBytes (xonly_serialize key); Op OP_CHECKSIG; PushBytes []; Op OP_IF;
      PushBytes VIA_INSCRIPTION_PROTOCOL] ++ rest) = Some 4%nat.
Proof using All.
  unfold find_via_inscription_protocol. cbn [app list_find].
  rewrite decide_False; [done|]. cbn. rewrite bool_decide_false; [done|].
  intros Heq%(f_equal length). by rewrite xonly_length in Heq.
Qed.

(** The witness of an inscription is parsed by [parse_message] on its fields. *)
Lemma parse_input_inscription input tx height address key m network script size sig cb self :
  TxIn.witness input = [taproot_signature_to_vec sig; script; control_block_serialize cb] →
  message_ok network m = true →
  complete_inscription (build_basic_inscription_script (encode_push_bytes (xonly_serialize key)))
    m network = inr (script, size) →
  internal_key cb = key →
  parse_input input tx height address self =
  parse_message tx
    (PushBytes VIA_INSCRIPTION_PROTOCOL :: (item_instruction <$> message_fields m) ++ [Op OP_ENDIF])
    (CommonFields.mk sig (xonly_serialize key) height (compute_ntxid tx) address) self.
Proof using All.
  intros Hw Hok Hscript Hkey. unfold parse_input. rewrite Hw. rewrite decide_False by (cbn; unfold MIN_WITNESS_LENGTH; lia).
  erewrite prog_bind_step; [|apply ok_or_Some, signature_roundtrip].
  erewrite prog_bind_step; [|apply ok_or_Some, control_block_roundtrip].
  erewrite complete_inscription_instructions by done.
  rewrite omap_id_Some. cbv zeta.
  erewrite prog_bind_step; [|apply ok_or_Some, find_via_in_inscription].
  by rewrite Hkey.
Qed.

Lemma parse_input_short input tx height address self :
  (length (TxIn.witness input) < MIN_WITNESS_LENGTH)%nat →
  parse_input input tx height address self = Ret (inl tt, self).
Proof using. intros Hl. unfold parse_input. cbv zeta. by rewrite decide_True. Qed.

(** ** Panics *)
Lemma bytes_at_inr instrs i self bs self' :
  bytes_at instrs i self = Ret (inr bs, self') → instrs !! i = Some (PushBytes bs) ∧ self' = self.
Proof using.
  unfold bytes_at. intros Hb. inv_prog. destruct x as [?|?]; naive_solver.
Qed.

Lemma bytes_at_panic instrs i self : bytes_at instrs i self ≠ Panic.
Proof using.
  unfold bytes_at. intros [Hp|(?&?&_&Hp)]%prog_bind_panic; by eapply ok_or_panic.
Qed.

Lemma from_slice_panic n bs (self : MessageParser.t) :
  (lift_exec (from_slice n bs) : parse Z) self = Panic → length bs ≠ n.
Proof using.
  unfold lift_exec, from_slice, assert_then. destruct (bool_decide_reflect (length bs = n)); done.
Qed.

(** Follow a panic to the step that raised it. *)
Ltac panic_step :=
  match goal with
  | Hp : (_ ≫= _) _ = Panic |- _ => apply prog_bind_panic in Hp as [Hp|(?&?&?&Hp)]
  | Hp : ok_or _ _ _ = Panic |- _ => exfalso; exact (ok_or_panic _ _ _ Hp)
  | Hp : bytes_at _ _ _ = Panic |- _ => exfalso; exact (bytes_at_panic _ _ _ Hp)
  | Hp : fail _ _ = Panic |- _ => discriminate Hp
  | Hp : get _ = Panic |- _ => discriminate Hp
  | Hp : put _ _ = Panic |- _ => discriminate Hp
  | Hp : mret _ _ = Panic |- _ => discriminate Hp
  | Hb : bytes_at _ _ _ = Ret (inr _, _) |- _ => apply bytes_at_inr in Hb as [? ->]
  | Hp : context [decide ?P] |- _ = Panic → _ => destruct (decide P)
  end.

(** The fields that [from_slice] reads. *)
Definition hash_field (instrs : list Instruction) (i n : nat) : Prop :=
  (instrs !! 1%nat = Some (PushBytes L1_TO_L2_MSG) ∧ n = 20%nat ∧ (i = 2%nat ∨ i = 3%nat)) ∨
  (instrs !! 1%nat = Some (PushBytes L1_BATCH_DA_REFERENCE_MSG) ∧ n = 32%nat ∧ i = 2%nat) ∨
  (instrs !! 1%nat = Some (PushBytes SYSTEM_BOOTSTRAPPING_MSG) ∧ n = 32%nat ∧
     (i = (length instrs - 3)%nat ∨ i = (length instrs - 2)%nat)).

(** The parser panics on a script only if a hash or address field of an
    [L1ToL2], [L1BatchDAReference] or [SystemBootstrapping] message is a push of
    the wrong length; every other malformed message is answered with [None]. *)
Theorem parse_message_panics_only tx instrs common self :
  parse_message tx instrs common self = Panic →
  ∃ i n bs, hash_field instrs i n ∧ instrs !! i = Some (PushBytes bs) ∧ length bs ≠ n.
Proof using.
  unfold parse_message. intros Hp. panic_step; [panic_step|].
  match goal with Ht : ok_or _ _ _ = _ |- _ => apply ok_or_inr in Ht as [Ht ->] end.
  destruct x as [bs|]; [|done].
  unfold hash_field.
  repeat match type of Hp with context [decide (?a = ?b)] =>
    destruct (decide (a = b)) as [->|?]; cbn in Hp end.
  - unfold parse_system_bootstrapping in Hp. case_decide; [done|].
    cbv zeta in Hp. repeat panic_step;
      apply from_slice_panic in Hp; eexists _, _, _; (split; [right; right; split; [done|]; split; [done|]|by split]); auto.
  - unfold parse_propose_sequencer in Hp. case_decide; [done|]. by repeat panic_step.
  - unfold parse_validator_attestation in Hp. case_decide; [done|]. by repeat panic_step.
  - unfold parse_l1_batch_da_reference in Hp. case_decide; [done|]. repeat panic_step.
    apply from_slice_panic in Hp; eexists _, _, _; (split; [right; left; split; [done|]; split; [done|]|by split]); auto.
  - unfold parse_proof_da_reference in Hp. case_decide; [done|]. by repeat panic_step.
  - unfold parse_l1_to_l2_message in Hp. case_decide; [done|]. repeat panic_step;
      apply from_slice_panic in Hp; eexists _, _, _; (split; [left; split; [done|]; split; [done|]|by split]); auto.
  - done.
Qed.

(** Any Bitcoin transaction with a P2WPKH input, a valid Taproot signature and
    a control block can carry an inscription whose receiver is not 20 bytes
    long; parsing it panics, whatever the parser's state. *)
Theorem malformed_receiver_panics self tx height sender in0 sig cb receiver rest :
  BtcTransaction.input tx =
    [in0; TxIn.mk (OutPoint.mk 0 0) [] 0
       [taproot_signature_to_vec sig;
        into_script (PushSlice VIA_INSCRIPTION_PROTOCOL :: PushSlice L1_TO_L2_MSG ::
                     PushSlice receiver :: rest);
        control_block_serialize cb]] →
  parse_p2wpkh self (TxIn.witness in0) = Some sender → (length (TxIn.witness in0) = 2)%nat →
  Forall item_ok (PushSlice receiver :: rest) → (2 ≤ length rest)%nat → length receiver ≠ 20%nat →
  parse_transaction tx height self = Panic.
Proof using All.
  intros Hin Hs Hlen0 Hitems Hrest Hr. unfold parse_transaction, find_sender. rewrite Hin.
  cbn [foldl TxIn.witness]. rewrite Hs. unfold parse_p2wpkh at 1. cbn [length]. rewrite decide_False by done.
  cbn [parse_inputs]. rewrite parse_input_short by (unfold MIN_WITNESS_LENGTH; lia).
  cbn [mbind exec_bind]. set (in1 := TxIn.mk _ _ _ _).
  cut (parse_input in1 tx height sender self = Panic); [by intros ->|].
  unfold parse_input. cbn [TxIn.witness in1 length].
  rewrite decide_False by (unfold MIN_WITNESS_LENGTH; lia).
  erewrite prog_bind_step; [|apply ok_or_Some, signature_roundtrip].
  erewrite prog_bind_step; [|apply ok_or_Some, control_block_roundtrip].
  rewrite instructions_into_script; [|apply Forall_cons_2; [done|]; by apply Forall_cons_2].
  rewrite (list_fmap_compose item_instruction Some), omap_id_Some. cbv zeta.
  erewrite prog_bind_step; [|apply ok_or_Some; reflexivity].
  unfold parse_message. erewrite prog_bind_step; [|apply ok_or_Some; reflexivity].
  set (instrs := drop _ _). set (common := CommonFields.mk _ _ _ _ _).
  change (parse_l1_to_l2_message tx instrs common self = Panic). unfold parse_l1_to_l2_message.
  rewrite decide_False by (unfold instrs; cbn; rewrite length_fmap; unfold MIN_L1_TO_L2_MESSAGE_INSTRUCTIONS; lia).
  erewrite prog_bind_step; [|apply bytes_at_push; reflexivity].
  apply prog_bind_panic. left. unfold lift_exec, from_slice, assert_then. by rewrite bool_decide_false.
Qed.
End parser.

(** ** Witnesses, on the concrete library *)
Module ParserWitness.
Definition empty_common : CommonFields.t := CommonFields.mk 0 [] 0 0 0.
Definition empty_tx : BtcTransaction.t := BtcTransaction.mk 2 0 [] [].
Definition short_receiver : list Instruction :=
  [PushBytes VIA_INSCRIPTION_PROTOCOL; PushBytes L1_TO_L2_MSG; PushBytes [x01]; PushBytes []; PushBytes []].

Lemma parse_message_panics_only_witness :
  ∃ i n bs, hash_field short_receiver i n ∧ short_receiver !! i = Some (PushBytes bs) ∧ length bs ≠ n.
Proof.
  apply (parse_message_panics_only empty_tx short_receiver empty_common (MessageParser.new Regtest)).
  reflexivity.
Defined.

Definition payer : TxIn.t := TxIn.mk (OutPoint.mk 5 0) [] 0 [encode_Z 8; encode_Z 9].
Definition bad_items : list ScriptItem := [PushSlice [x02]; PushSlice [x03]].
Definition bad_tx : BtcTransaction.t :=
  BtcTransaction.mk 2 0
    [payer; TxIn.mk (OutPoint.mk 0 0) [] 0
       [taproot_signature_to_vec 4;
        into_script (PushSlice VIA_INSCRIPTION_PROTOCOL :: PushSlice L1_TO_L2_MSG ::
                     PushSlice [x01] :: bad_items);
        control_block_serialize 3]] [].

Lemma malformed_receiver_panics_witness :
  parse_transaction bad_tx 100 (MessageParser.new Regtest) = Panic.
Proof.
  apply (malformed_receiver_panics (MessageParser.new Regtest) bad_tx 100 39 payer 4 3 [x01] bad_items).
  - reflexivity.
  - reflexivity.
  - reflexivity.
  - repeat constructor.
  - cbn. lia.
  - cbn. lia.
Defined.
End ParserWitness.
