(* ===== verification/BtcClient.v ===== *)
(** * The Bitcoin client ([via_btc_client/src/{client,utils,traits,signer}])

    [BitcoinRpcClient] calls the node with retries, [BitcoinClient] implements
    the trait [BitcoinOps] on it. The node behind [bitcoincore_rpc] is outside
    the code: the class [NodeRpc] of its answers over a world [W], which a call
    may change, so two calls need not agree. *)
From S2P Require Import Prelude Types BtcTypes.
Local Open Scope Z_scope.

Module BtcBlock.
Record t := mk { prev_blockhash : BlockHash; txdata : list BtcTransaction.t }.
End BtcBlock.

(** One entry of [listunspent] or [scantxoutset]. *)
Module Unspent.
Record t := mk { txid : Txid; vout : Z; amount : Amount }.
End Unspent.

Module GetRawTransactionResult.
Record t := mk { confirmations : option Z }.
End GetRawTransactionResult.

Module EstimateSmartFeeResult.
Record t := mk { fee_rate : option Amount; errors : option (list string) }.
End EstimateSmartFeeResult.

(** [bitcoincore_rpc::RpcApi]: [list_unspent] with one confirmation for an
    address, [scan_tx_out_set_blocking] of the descriptor of an address, and the
    calls of the same names. *)
Class NodeRpc (W : Type) := {
  node_list_unspent : BitcoinAddress → W → (unit + list Unspent.t) * W;
  node_scan_tx_out_set : BitcoinAddress → W → (unit + list Unspent.t) * W;
  node_send_raw_transaction : list byte → W → (unit + Txid) * W;
  node_get_raw_transaction : Txid → W → (unit + BtcTransaction.t) * W;
  node_get_raw_transaction_info : Txid → W → (unit + GetRawTransactionResult.t) * W;
  node_get_block_count : W → (unit + Z) * W;
  node_get_block_hash : Z → W → (unit + BlockHash) * W;
  node_get_block : BlockHash → W → (unit + BtcBlock.t) * W;
  node_get_best_block_hash : W → (unit + BlockHash) * W;
  node_estimate_smart_fee : Z → W → (unit + EstimateSmartFeeResult.t) * W;
}.

(** The trait [BitcoinOps]. *)
Class BitcoinOps (W : Type) := {
  get_balance : BitcoinAddress → prog W BitcoinError Z;
  broadcast_signed_transaction : list byte → prog W BitcoinError Txid;
  fetch_utxos : BitcoinAddress → prog W BitcoinError (list (OutPoint.t * TxOut.t));
  check_tx_confirmation : Txid → Z → prog W BitcoinError bool;
  fetch_block_height : prog W BitcoinError Z;
  get_fee_rate : Z → prog W BitcoinError Z;
  get_network : Network;
  fetch_block : Z → prog W BitcoinError BtcBlock.t;
  get_transaction : Txid → prog W BitcoinError BtcTransaction.t;
  fetch_block_by_hash : BlockHash → prog W BitcoinError BtcBlock.t;
}.

(** The trait [BitcoinSigner]. *)
Module BitcoinSigner.
Record t := mk {
  sign_ecdsa : Z → BitcoinError + EcdsaSignature;
  sign_schnorr : Z → BitcoinError + TaprootSignature;
  get_p2wpkh_address : BitcoinError + BitcoinAddress;
  get_p2wpkh_script_pubkey : ScriptBuf;
  get_internal_key : BitcoinError + XOnlyPublicKey;
  get_public_key : PublicKey;
}.
End BitcoinSigner.

(** [with_retry]: the loop of [retries] from [0] to [max_retries], by the
    retries left; the sleep between two calls is not observable. *)
Fixpoint with_retry {W E T} (f : prog W E T) (retries_left : nat) : prog W E T := λ w,
  match f w with
  | Ret (inl e, w') =>
      match retries_left with
      | O => Ret (inl e, w')
      | S n => with_retry f n w'
      end
  | r => r
  end.

(** ** [BitcoinRpcClient] *)
Definition RPC_MAX_RETRIES : nat := 3.

Module RpcClient.
Section rpc_client.
Context {W : Type} `{NodeRpc W}.

(** [?] on a node call: [From<bitcoincore_rpc::Error>] gives [BitcoinError::Rpc]. *)
Definition call {A} (op : W → (unit + A) * W) : prog W BitcoinError A := λ w,
  match op w with
  | (inl _, w') => Ret (inl Rpc, w')
  | (inr a, w') => Ret (inr a, w')
  end.

Definition retry_rpc {A} (f : prog W BitcoinError A) : prog W BitcoinError A :=
  with_retry f RPC_MAX_RETRIES.

Definition get_balance (address : BitcoinAddress) : prog W BitcoinError Z :=
  retry_rpc (
    result ← call (node_list_unspent address);
    let total_amount := foldl (λ sum u, wrap 64 (sum + Unspent.amount u)) 0 result in
    mret total_amount).

Definition list_unspent (address : BitcoinAddress) : prog W BitcoinError (list OutPoint.t) :=
  retry_rpc (
    result ← call (node_scan_tx_out_set address);
    mret ((λ u, OutPoint.mk (Unspent.txid u) (Unspent.vout u)) <$> result)).

Definition list_unspent_based_on_node_wallet (address : BitcoinAddress)
    : prog W BitcoinError (list OutPoint.t) :=
  retry_rpc (
    result ← call (node_list_unspent address);
    mret ((λ u, OutPoint.mk (Unspent.txid u) (Unspent.vout u)) <$> result)).

Definition get_transaction (txid : Txid) : prog W BitcoinError BtcTransaction.t :=
  retry_rpc (call (node_get_raw_transaction txid)).

(** The output index panics out of range. *)
Definition get_balance_scan (address : BitcoinAddress) : prog W BitcoinError Z :=
  result ← list_unspent address;
  foldP (λ sum unspent,
    tx ← get_transaction (OutPoint.txid unspent);
    txout ← lift_exec (expect (BtcTransaction.output tx !! Z.to_nat (OutPoint.vout unspent)));
    mret (wrap 64 (sum + TxOut.value txout))) 0 result.

Definition send_raw_transaction (tx_hex : list byte) : prog W BitcoinError Txid :=
  retry_rpc (call (node_send_raw_transaction tx_hex)).

Definition get_block_count : prog W BitcoinError Z := retry_rpc (call node_get_block_count).

Definition get_block_by_height (block_height : Z) : prog W BitcoinError BtcBlock.t :=
  retry_rpc (
    block_hash ← call (node_get_block_hash (wrap 64 block_height));
    call (node_get_block block_hash)).

Definition get_block_by_hash (block_hash : BlockHash) : prog W BitcoinError BtcBlock.t :=
  retry_rpc (call (node_get_block block_hash)).

Definition get_best_block_hash : prog W BitcoinError BlockHash :=
  retry_rpc (call node_get_best_block_hash).

Definition get_raw_transaction_info (txid : Txid)
    : prog W BitcoinError GetRawTransactionResult.t :=
  retry_rpc (call (node_get_raw_transaction_info txid)).

Definition estimate_smart_fee (conf_target : Z) : prog W BitcoinError EstimateSmartFeeResult.t :=
  retry_rpc (call (node_estimate_smart_fee conf_target)).
End rpc_client.
End RpcClient.

(** ** [BitcoinClient] *)
Module BitcoinClient.
Section client.
Context {W : Type} `{NodeRpc W} (network : Network).

Definition get_balance (address : BitcoinAddress) : prog W BitcoinError Z :=
  match network with
  | Regtest => RpcClient.get_balance_scan address
  | _ => RpcClient.get_balance address
  end.

Definition broadcast_signed_transaction (signed_transaction : list byte)
    : prog W BitcoinError Txid :=
  RpcClient.send_raw_transaction signed_transaction.

Definition fetch_utxos (address : BitcoinAddress)
    : prog W BitcoinError (list (OutPoint.t * TxOut.t)) :=
  outpoints ← match network with
              | Regtest => RpcClient.list_unspent address
              | _ => RpcClient.list_unspent_based_on_node_wallet address
              end;
  foldP (λ utxos outpoint,
    tx ← RpcClient.get_transaction (OutPoint.txid outpoint);
    txout ← ok_or (InvalidOutpoint outpoint)
              (BtcTransaction.output tx !! Z.to_nat (OutPoint.vout outpoint));
    mret (utxos ++ [(outpoint, txout)])) [] outpoints.

Definition check_tx_confirmation (txid : Txid) (conf_num : Z) : prog W BitcoinError bool :=
  tx_info ← RpcClient.get_raw_transaction_info txid;
  match GetRawTransactionResult.confirmations tx_info with
  | Some confirmations => mret (bool_decide (conf_num ≤ confirmations))
  | None => mret false
  end.

Definition fetch_block_height : prog W BitcoinError Z := RpcClient.get_block_count.

(** [errors.join(", ")]. *)
Definition join_errors (errors : list string) : string :=
  match errors with
  | [] => EmptyString
  | e :: errors => foldl (λ acc s, (acc +:+ ", " +:+ s)%string) e errors
  end.

Definition get_fee_rate (conf_target : Z) : prog W BitcoinError Z :=
  estimation ← RpcClient.estimate_smart_fee conf_target;
  match EstimateSmartFeeResult.fee_rate estimation with
  | Some fee_rate_sat_kb => mret (fee_rate_sat_kb / 1000)
  | None =>
      fail (FeeEstimationFailed (default "Unknown error during fee estimation"%string
        (join_errors <$> EstimateSmartFeeResult.errors estimation)))
  end.

Definition fetch_block (block_height : Z) : prog W BitcoinError BtcBlock.t :=
  RpcClient.get_block_by_height block_height.
Definition get_transaction (txid : Txid) : prog W BitcoinError BtcTransaction.t :=
  RpcClient.get_transaction txid.
Definition fetch_block_by_hash (block_hash : BlockHash) : prog W BitcoinError BtcBlock.t :=
  RpcClient.get_block_by_hash block_hash.

(** [impl BitcoinOps for BitcoinClient]. *)
#[export] Instance ops : BitcoinOps W := {
  BtcClient.get_balance := get_balance;
  BtcClient.broadcast_signed_transaction := broadcast_signed_transaction;
  BtcClient.fetch_utxos := fetch_utxos;
  BtcClient.check_tx_confirmation := check_tx_confirmation;
  BtcClient.fetch_block_height := fetch_block_height;
  BtcClient.get_fee_rate := get_fee_rate;
  BtcClient.get_network := network;
  BtcClient.fetch_block := fetch_block;
  BtcClient.get_transaction := get_transaction;
  BtcClient.fetch_block_by_hash := fetch_block_by_hash;
}.
End client.
End BitcoinClient.

(** ** Retries *)

(** [k] calls of [f] in a row failed, from world [w] to world [w']. *)
Inductive failed {W E T} (f : prog W E T) : nat → W → W → Prop :=
| failed_none w : failed f 0 w w
| failed_more k w e w1 w' : f w = Ret (inl e, w1) → failed f k w1 w' → failed f (S k) w w'.

(** C40 [with_retry] makes at most [max_retries + 1] calls: its outcome is that of
    the call after [k] failed ones, [k] at most [max_retries], and if [k] is less
    that call did not fail. *)
Theorem with_retry_spec {W E T} (f : prog W E T) max_retries w :
  ∃ k w', (k ≤ max_retries)%nat ∧ failed f k w w' ∧ with_retry f max_retries w = f w' ∧
    ((k < max_retries)%nat → ∀ e w'', f w' ≠ Ret (inl e, w'')).
Proof.
  revert w. induction max_retries as [|n IH]; intros w.
  { exists 0%nat, w. split_and!; [lia|constructor| |lia]. cbn. by destruct (f w) as [[[|] ?]|]. }
  destruct (f w) as [[[e|a] w1]|] eqn:Ef.
  - destruct (IH w1) as (k & w' & Hk & Hf & Hr & Hn). exists (S k), w'. split_and!; [lia| | |].
    + econstructor; eassumption.
    + cbn. by rewrite Ef.
    + intros. apply Hn. lia.
  - exists 0%nat, w. split_and!; [lia|constructor|cbn; by rewrite Ef|by rewrite Ef].
  - exists 0%nat, w. split_and!; [lia|constructor|cbn; by rewrite Ef|by rewrite Ef].
Qed.

(** ** Unspent outputs *)
Section utxos.
Context {W : Type} `{NodeRpc W} (network : Network).

(** The node gave, for the transaction of [o], one with the output [t] at the
    index of [o]. *)
Definition attested (o : OutPoint.t) (t : TxOut.t) : Prop :=
  ∃ (w w' : W) tx, RpcClient.get_transaction (OutPoint.txid o) w = Ret (inr tx, w') ∧
    BtcTransaction.output tx !! Z.to_nat (OutPoint.vout o) = Some t.

Lemma fetch_outputs_spec l acc (w : W) r w' :
  foldP (λ utxos outpoint,
    tx ← RpcClient.get_transaction (OutPoint.txid outpoint);
    txout ← ok_or (InvalidOutpoint outpoint)
              (BtcTransaction.output tx !! Z.to_nat (OutPoint.vout outpoint));
    mret (utxos ++ [(outpoint, txout)])) acc l w = Ret (inr r, w') →
  ∃ new, r = acc ++ new ∧ fst <$> new = l ∧ Forall (λ u, attested u.1 u.2) new.
Proof.
  revert acc w. induction l as [|o l IH]; intros acc w Hr; cbn [foldP] in Hr.
  { inv_prog. exists []. by rewrite app_nil_r. }
  inv_prog. match goal with Hf : foldP _ _ _ _ = _ |- _ => apply IH in Hf as (new & -> & Hl & Hf) end.
  eexists ((o, _) :: new). rewrite <-app_assoc. split_and!; [done|cbn; by rewrite Hl|].
  apply Forall_cons_2; [|done]. cbn. eexists _, _, _. split; eassumption.
Qed.
End utxos.

(** [fetch_utxos] answers the outpoints the node lists, in order, each with
    the output that the transaction the node gives for it has at that index; an
    outpoint with no such output makes it fail. *)
Theorem fetch_utxos_sound {W} `{NodeRpc W} network address (w : W) utxos w' :
  BitcoinClient.fetch_utxos network address w = Ret (inr utxos, w') →
  (∃ w1, match network with
         | Regtest => RpcClient.list_unspent address
         | _ => RpcClient.list_unspent_based_on_node_wallet address
         end w = Ret (inr (fst <$> utxos), w1)) ∧
  Forall (λ u, attested (W := W) u.1 u.2) utxos.
Proof.
  unfold BitcoinClient.fetch_utxos. intros Hf. inv_prog.
  match goal with Hf : foldP _ _ _ _ = _ |- _ => apply fetch_outputs_spec in Hf as (new & -> & <- & Hn) end.
  cbn. split; [|done]. eauto.
Qed.

(** ** Witness: a node with one output *)
Module ClientWitness.
Definition tx : BtcTransaction.t := BtcTransaction.mk 2 0 [] [TxOut.mk 10 [x01]; TxOut.mk 20 [x02]].

#[export] Instance node : NodeRpc () := {
  node_list_unspent _ w := (inr [Unspent.mk 7 1 20], w);
  node_scan_tx_out_set _ w := (inr [Unspent.mk 7 1 20], w);
  node_send_raw_transaction _ w := (inl (), w);
  node_get_raw_transaction txid w := (if decide (txid = 7) then inr tx else inl (), w);
  node_get_raw_transaction_info _ w := (inr (GetRawTransactionResult.mk (Some 2)), w);
  node_get_block_count w := (inr 5, w);
  node_get_block_hash h w := (inr h, w);
  node_get_block _ w := (inl (), w);
  node_get_best_block_hash w := (inr 0, w);
  node_estimate_smart_fee _ w := (inr (EstimateSmartFeeResult.mk None None), w);
}.

Lemma fetch_utxos_sound_witness :
  (∃ w1, RpcClient.list_unspent 3 () = Ret (inr [OutPoint.mk 7 1], w1)) ∧
  Forall (λ u, attested (W := ()) u.1 u.2) [(OutPoint.mk 7 1, TxOut.mk 20 [x02])].
Proof. apply (fetch_utxos_sound Regtest 3 () [(OutPoint.mk 7 1, TxOut.mk 20 [x02])] ()). reflexivity. Defined.
End ClientWitness.
