(* ===== verification/Inscriber.v ===== *)
(** * The inscriber ([via_btc_client/src/inscriber])

    [Inscriber] writes a message as a commit and a reveal transaction and keeps
    the inscriptions whose reveal is not confirmed in a FIFO context. A method is
    a [prog] over the context and the world of the client; sums of [Amount]
    panic on overflow. *)
From S2P Require Import Prelude Types BtcTypes BitcoinToy BtcClient ScriptBuilder Parser.
Local Open Scope Z_scope.

(** ** Fees (fee.rs) *)
Module Fees.
Definition GENERAL_BASE_SIZE : Z := 11.
Definition P2WPKH_INPUT_BASE_SIZE : Z := 69.
Definition P2TR_INPUT_BASE_SIZE : Z := 61.
Definition P2WPKH_OUTPUT_BASE_SIZE : Z := 34.
Definition P2TR_OUTPUT_BASE_SIZE : Z := 43.
Definition VIRTUAL_SIZE_DIVIDER : Z := 4.

Definition u64 (z : Z) : Z := wrap 64 z.

(** [checked_div] by a divisor that is not zero. *)
Definition estimate_transaction_size (p2wpkh_inputs_count p2tr_inputs_count
    p2wpkh_outputs_count p2tr_outputs_count : Z) (p2tr_witness_sizes : list Z) : BitcoinError + Z :=
  if decide (p2tr_inputs_count ≠ wrap 32 (Z.of_nat (length p2tr_witness_sizes))) then
    inl (FeeEstimationFailed "Invalid witness sizes count")
  else
    let p2wpkh_input_size := u64 (P2WPKH_INPUT_BASE_SIZE * p2wpkh_inputs_count) in
    let p2tr_input_size :=
      foldl (λ acc witness_size,
        let witness_virtual_size := witness_size / VIRTUAL_SIZE_DIVIDER in
        u64 (acc + u64 (u64 (P2TR_INPUT_BASE_SIZE + witness_virtual_size) + 1))) 0 p2tr_witness_sizes in
    let p2wpkh_output_size := u64 (P2WPKH_OUTPUT_BASE_SIZE * p2wpkh_outputs_count) in
    let p2tr_output_size := u64 (P2TR_OUTPUT_BASE_SIZE * p2tr_outputs_count) in
    inr (u64 (u64 (u64 (u64 (GENERAL_BASE_SIZE + p2wpkh_input_size) + p2tr_input_size)
           + p2wpkh_output_size) + p2tr_output_size)).

Definition estimate_fee (p2wpkh_inputs_count p2tr_inputs_count
    p2wpkh_outputs_count p2tr_outputs_count : Z) (p2tr_witness_sizes : list Z) (fee_rate : Z)
    : BitcoinError + Amount :=
  let! transaction_size :=
    estimate_transaction_size p2wpkh_inputs_count p2tr_inputs_count
      p2wpkh_outputs_count p2tr_outputs_count p2tr_witness_sizes
    else (e => inl e) in
  inr (u64 (transaction_size * fee_rate)).

(** The size in virtual bytes that the constants describe. *)
Definition virtual_size (i o t : Z) (ws : list Z) : Z :=
  11 + 69 * i + foldr (λ w acc, 62 + w / 4 + acc) 0 ws + 34 * o + 43 * t.

Lemma u64_small z : 0 ≤ z < 2 ^ 64 → u64 z = z.
Proof. apply wrap_small. Qed.

Lemma witness_sizes_exact ws acc :
  Forall (λ w, 0 ≤ w) ws → 0 ≤ acc → acc + foldr (λ w a, 62 + w / 4 + a) 0 ws < 2 ^ 64 →
  foldl (λ acc w, u64 (acc + u64 (u64 (P2TR_INPUT_BASE_SIZE + w / VIRTUAL_SIZE_DIVIDER) + 1))) acc ws
  = acc + foldr (λ w a, 62 + w / 4 + a) 0 ws.
Proof.
  unfold P2TR_INPUT_BASE_SIZE, VIRTUAL_SIZE_DIVIDER. revert acc.
  induction ws as [|w ws IH]; intros acc Hws Hacc Hlt; cbn [foldl foldr] in *; [lia|].
  apply Forall_cons in Hws as [Hw Hws]. pose proof (Z.div_pos w 4 Hw ltac:(lia)).
  assert (0 ≤ foldr (λ w a, 62 + w / 4 + a) 0 ws).
  { clear -Hws. induction Hws as [|w ws Hw _ IH]; cbn; [lia|]. pose proof (Z.div_pos w 4 Hw ltac:(lia)). lia. }
  rewrite (u64_small (61 + w / 4)), (u64_small (61 + w / 4 + 1)), u64_small by lia.
  rewrite IH; [lia|done|lia|lia].
Qed.

(** The fee is the virtual size of the transaction shape times the rate,
    rounding each witness down to whole virtual bytes, with no wrap-around for
    counts of 32 bits while the result fits in 64 bits; it is an error exactly
    when the number of witnesses is not the number of Taproot inputs. *)
Theorem estimate_fee_exact i p o t ws rate :
  in_width 32 i → in_width 32 o → in_width 32 t → Forall (λ w, 0 ≤ w) ws → 0 ≤ rate →
  Z.of_nat (length ws) < 2 ^ 32 →
  virtual_size i o t ws < 2 ^ 64 → virtual_size i o t ws * rate < 2 ^ 64 →
  estimate_fee i p o t ws rate =
    if decide (p = Z.of_nat (length ws)) then inr (virtual_size i o t ws * rate)
    else inl (FeeEstimationFailed "Invalid witness sizes count").
Proof.
  unfold in_width. intros Hi Ho Ht Hws Hrate Hl Hsize Hfee. unfold estimate_fee, estimate_transaction_size.
  rewrite (wrap_small 32) by (split; lia). destruct (decide (p = _)) as [->|Hp].
  2: { by rewrite decide_True. }
  rewrite decide_False by lia. unfold virtual_size in *.
  assert (0 ≤ foldr (λ w acc, 62 + w / 4 + acc) 0 ws).
  { clear -Hws. induction Hws as [|w ws Hw _ IH]; cbn; [lia|]. pose proof (Z.div_pos w 4 Hw ltac:(lia)). lia. }
  rewrite witness_sizes_exact by (done || lia).
  unfold GENERAL_BASE_SIZE, P2WPKH_INPUT_BASE_SIZE, P2WPKH_OUTPUT_BASE_SIZE, P2TR_OUTPUT_BASE_SIZE.
  rewrite !(u64_small (69 * i)), !(u64_small (34 * o)), !(u64_small (43 * t)) by lia.
  set (size := foldr _ 0 ws) in *.
  rewrite (u64_small (11 + 69 * i)) by lia.
  rewrite (u64_small (11 + 69 * i + (0 + size))), (u64_small (11 + 69 * i + (0 + size) + 34 * o)) by lia.
  rewrite (u64_small (11 + 69 * i + (0 + size) + 34 * o + 43 * t)) by lia.
  rewrite u64_small by nia. done.
Qed.

Lemma estimate_fee_exact_witness : estimate_fee 2 1 1 0 [400] 5 = inr ((11 + 138 + 162 + 34) * 5).
Proof.
  apply (estimate_fee_exact 2 1 1 0 [400] 5); try (split; lia); try lia; try done.
  repeat constructor; lia.
Defined.
End Fees.

(** ** Results of the preparation steps (internal_type.rs) *)
Module CommitTxInputRes.
Record t := mk {
  commit_tx_inputs : list TxIn.t;
  unlocked_value : Amount;
  inputs_count : Z;
  utxo_amounts : list Amount;
}.
End CommitTxInputRes.

Module CommitTxOutputRes.
Record t := mk {
  commit_tx_change_output : TxOut.t;
  commit_tx_tapscript_output : TxOut.t;
  commit_tx_fee_rate : Z;
  _commit_tx_fee : Amount;
}.
End CommitTxOutputRes.

Module RevealTxInputRes.
Record t := mk {
  reveal_tx_input : list TxIn.t;
  prev_outs : list TxOut.t;
  unlock_value : Amount;
  control_block : ControlBlock;
}.
End RevealTxInputRes.

Module RevealTxOutputRes.
Record t := mk {
  reveal_tx_change_output : TxOut.t;
  recipient_tx_output : option TxOut.t;
  reveal_fee_rate : Z;
  _reveal_fee : Amount;
}.
End RevealTxOutputRes.

Module FinalTx.
Record t := mk { tx : BtcTransaction.t; txid : Txid }.
End FinalTx.

Module InscriberInfo.
Record t := mk {
  final_commit_tx : FinalTx.t;
  final_reveal_tx : FinalTx.t;
  commit_tx_output_info : CommitTxOutputRes.t;
  reveal_tx_output_info : RevealTxOutputRes.t;
  commit_tx_input_info : CommitTxInputRes.t;
}.
End InscriberInfo.

Definition CTX_REQUIRED_CONFIRMATIONS : Z := 1.
Definition FEE_RATE_CONF_TARGET : Z := 1.
Definition COMMIT_TX_CHANGE_OUTPUT_INDEX : Z := 0.
Definition COMMIT_TX_TAPSCRIPT_OUTPUT_INDEX : Z := 1.
Definition REVEAL_TX_CHANGE_OUTPUT_INDEX : Z := 0.
Definition REVEAL_TX_FEE_INPUT_INDEX : Z := 0.
Definition REVEAL_TX_TAPSCRIPT_REVEAL_INDEX : Z := 1.
Definition FEE_RATE_INCREASE_PER_PENDING_TX : Z := 5.
Definition COMMIT_TX_P2TR_OUTPUT_COUNT : Z := 1.
Definition COMMIT_TX_P2WPKH_OUTPUT_COUNT : Z := 1.
Definition COMMIT_TX_P2TR_INPUT_COUNT : Z := 0.
Definition REVEAL_TX_P2TR_OUTPUT_COUNT : Z := 0.
Definition REVEAL_TX_P2WPKH_OUTPUT_COUNT : Z := 1.
Definition REVEAL_TX_P2TR_INPUT_COUNT : Z := 1.
Definition REVEAL_TX_P2WPKH_INPUT_COUNT : Z := 1.
Definition ENABLE_RBF_NO_LOCKTIME : Z := 0xFFFFFFFD.

(** [Amount]'s [Add]: panics on overflow. *)
Definition amount_add (a b : Amount) : exec Amount :=
  assert_then (bool_decide (a + b < 2 ^ 64)) (Ret (a + b)).

Section inscriber.
Context `{BitcoinLib} {W : Type} `{BitcoinOps W} (signer : BitcoinSigner.t).

(** The [Inscriber] and the world its client talks to. *)
Record state := mk_state { context : InscriberContext.t; world : W }.
Abbreviation M A := (prog state AnyhowError A).

Definition queue (st : state) : list InscriptionRequest.t := InscriberContext.fifo_queue (context st).
Definition set_queue (q : list InscriptionRequest.t) : M () :=
  st ← get; put (mk_state (InscriberContext.mk q) (world st)).

(** [self.client.op(..).await?]. *)
Definition client_call {A} (op : prog W BitcoinError A) : M A := λ st,
  match op (world st) with
  | Ret (inl e, w) => Ret (inl (AnyhowBitcoin e), mk_state (context st) w)
  | Ret (inr a, w) => Ret (inr a, mk_state (context st) w)
  | Panic => Panic
  end.
(** [?] on a [Result<_, BitcoinError>] and on a [Result<_, anyhow::Error>]. *)
Definition of_bitcoin {A} (r : BitcoinError + A) : M A :=
  of_result (match r with inl e => inl (AnyhowBitcoin e) | inr a => inr a end).

Definition get_balance : M Z :=
  address ← of_bitcoin (BitcoinSigner.get_p2wpkh_address signer);
  client_call (BtcClient.get_balance address).

(** The [while let Some(inscription) = fifo_queue.pop_front()] loop: the entry is
    out of the queue while its confirmation is looked up. *)
Fixpoint sync_loop (q : list InscriptionRequest.t) : M () :=
  match q with
  | [] => mret ()
  | inscription :: q =>
      _ ← set_queue q;
      let txid_ref := FeePayerCtx.fee_payer_utxo_txid (InscriptionRequest.fee_payer_ctx inscription) in
      res ← client_call (check_tx_confirmation txid_ref CTX_REQUIRED_CONFIRMATIONS);
      if negb res then set_queue (inscription :: q) else sync_loop q
  end.

Definition sync_context_with_blockchain : M () :=
  st ← get;
  match queue st with
  | [] => mret ()
  | q => sync_loop q
  end.

(** Outpoints that a pending inscription spends or, unless it is the last one,
    that its successor is taken to spend. *)
Definition spent_by (is_last : bool) (req : InscriptionRequest.t) : list OutPoint.t :=
  (TxIn.previous_output <$> CommitTxInput.spent_utxo (InscriptionRequest.commit_tx_input req))
  ++ [OutPoint.mk (InscriberOutput.commit_txid (InscriptionRequest.inscriber_output req))
        REVEAL_TX_FEE_INPUT_INDEX]
  ++ (if is_last then []
      else [OutPoint.mk (InscriberOutput.reveal_txid (InscriptionRequest.inscriber_output req))
              REVEAL_TX_CHANGE_OUTPUT_INDEX]).

(** The keys of [spent_utxos]. *)
Fixpoint spent_utxos (q : list InscriptionRequest.t) : gset OutPoint.t :=
  match q with
  | [] => ∅
  | [req] => list_to_set (spent_by true req)
  | req :: q => list_to_set (spent_by false req) ∪ spent_utxos q
  end.

Definition is_signer_p2wpkh (script_pubkey : ScriptBuf) : bool :=
  bool_decide (script_pubkey = BitcoinSigner.get_p2wpkh_script_pubkey signer).

(** The head of the queue and the output it offers. *)
Definition head_change (q : list InscriptionRequest.t) : list (OutPoint.t * TxOut.t) :=
  match q with
  | [] => []
  | head_inscription :: _ =>
      let ctx := InscriptionRequest.fee_payer_ctx head_inscription in
      [(OutPoint.mk (InscriberOutput.reveal_txid (InscriptionRequest.inscriber_output head_inscription))
          (FeePayerCtx.fee_payer_utxo_vout ctx),
        TxOut.mk (FeePayerCtx.fee_payer_utxo_value ctx)
          (BitcoinSigner.get_p2wpkh_script_pubkey signer))]
  end.

Definition unsigned_input (outpoint : OutPoint.t) : TxIn.t :=
  TxIn.mk outpoint [] ENABLE_RBF_NO_LOCKTIME [].

Definition add_utxo (res : CommitTxInputRes.t) (utxo : OutPoint.t * TxOut.t)
    : exec CommitTxInputRes.t :=
  let '(outpoint, txout) := utxo in
  unlocked_value ← amount_add (CommitTxInputRes.unlocked_value res) (TxOut.value txout);
  Ret {| CommitTxInputRes.commit_tx_inputs :=
           CommitTxInputRes.commit_tx_inputs res ++ [unsigned_input outpoint];
         CommitTxInputRes.unlocked_value := unlocked_value;
         CommitTxInputRes.inputs_count := wrap 32 (CommitTxInputRes.inputs_count res + 1);
         CommitTxInputRes.utxo_amounts :=
           CommitTxInputRes.utxo_amounts res ++ [TxOut.value txout] |}.

(** What the commit transaction spends: the node's outputs that are the signer's
    and not spent by a pending inscription, then the head's change. *)
Definition spendable (q : list InscriptionRequest.t) (utxos : list (OutPoint.t * TxOut.t))
    : list (OutPoint.t * TxOut.t) :=
  filter (λ utxo, (utxo.1 ∉ spent_utxos q) ∧
                  is_signer_p2wpkh (TxOut.script_pubkey utxo.2) = true) utxos
  ++ head_change q.

Definition prepare_commit_tx_input : M CommitTxInputRes.t :=
  address_ref ← of_bitcoin (BitcoinSigner.get_p2wpkh_address signer);
  utxos ← client_call (fetch_utxos address_ref);
  st ← get;
  lift_exec (foldM add_utxo (CommitTxInputRes.mk [] 0 0 []) (spendable (queue st) utxos)).

Definition get_fee_rate : M Z := client_call (BtcClient.get_fee_rate FEE_RATE_CONF_TARGET).

Definition prepare_commit_tx_output (tx_input_data : CommitTxInputRes.t)
    (inscription_pubkey : ScriptBuf) (config : InscriptionConfig.t) : M CommitTxOutputRes.t :=
  let inscription_commitment_output := TxOut.mk 0 inscription_pubkey in
  fee_rate ← get_fee_rate;
  st ← get;
  let pending_tx_in_context := Z.of_nat (length (queue st)) in
  let increase_factor :=
    wrap 64 (wrap 64 (FEE_RATE_INCREASE_PER_PENDING_TX * InscriptionConfig.fee_multiplier config)
             * pending_tx_in_context) in
  let fee_rate := wrap 64 (fee_rate + wrap 64 (fee_rate * increase_factor) / 100) in
  fee_amount ← of_bitcoin (Fees.estimate_fee (CommitTxInputRes.inputs_count tx_input_data)
    COMMIT_TX_P2TR_INPUT_COUNT COMMIT_TX_P2WPKH_OUTPUT_COUNT COMMIT_TX_P2TR_OUTPUT_COUNT [] fee_rate);
  commit_tx_change_output_value ←
    ok_or (AnyhowMsg "Required Amount, Spendable Amount")
      (checked_sub (CommitTxInputRes.unlocked_value tx_input_data) fee_amount);
  mret {| CommitTxOutputRes.commit_tx_change_output :=
            TxOut.mk commit_tx_change_output_value (BitcoinSigner.get_p2wpkh_script_pubkey signer);
          CommitTxOutputRes.commit_tx_tapscript_output := inscription_commitment_output;
          CommitTxOutputRes.commit_tx_fee_rate := fee_rate;
          CommitTxOutputRes._commit_tx_fee := fee_amount |}.

(** [*sighasher.witness_mut(index).ok_or(..)? = witness]. *)
Definition set_witness (tx : BtcTransaction.t) (index : nat) (witness : Witness)
    : AnyhowError + BtcTransaction.t :=
  match BtcTransaction.input tx !! index with
  | None => inl (AnyhowMsg "Failed to get witness")
  | Some i =>
      inr (BtcTransaction.mk (BtcTransaction.version tx) (BtcTransaction.lock_time tx)
        (<[index := TxIn.mk (TxIn.previous_output i) (TxIn.script_sig i) (TxIn.sequence i) witness]>
           (BtcTransaction.input tx))
        (BtcTransaction.output tx))
  end.

(** Sign input [index] as the signer's P2WPKH output of value [amount]. *)
Definition sign_p2wpkh_input (tx : BtcTransaction.t) (index : nat) (amount : Amount)
    : M BtcTransaction.t :=
  let script_pubkey := BitcoinSigner.get_p2wpkh_script_pubkey signer in
  sighash ← ok_or (AnyhowMsg "Failed to create sighash")
              (p2wpkh_signature_hash tx index script_pubkey amount);
  signature ← of_bitcoin (BitcoinSigner.sign_ecdsa signer sighash);
  let pk := BitcoinSigner.get_public_key signer in
  of_result (set_witness tx index (witness_p2wpkh signature pk)).

Definition sign_commit_tx (input : CommitTxInputRes.t) (output : CommitTxOutputRes.t)
    : M FinalTx.t :=
  let commit_outputs := [CommitTxOutputRes.commit_tx_change_output output;
                         CommitTxOutputRes.commit_tx_tapscript_output output] in
  let unsigned_commit_tx :=
    BtcTransaction.mk 2 0 (CommitTxInputRes.commit_tx_inputs input) commit_outputs in
  commit_tx ← foldP (λ tx index,
      amount ← lift_exec (expect (CommitTxInputRes.utxo_amounts input !! index));
      sign_p2wpkh_input tx index amount)
    unsigned_commit_tx (seq 0 (length (CommitTxInputRes.commit_tx_inputs input)));
  mret (FinalTx.mk commit_tx (compute_txid commit_tx)).

Definition prepare_reveal_tx_input (commit_output : CommitTxOutputRes.t) (commit_tx : FinalTx.t)
    (inscription_data : InscriptionData) : M RevealTxInputRes.t :=
  let fee_payer_outpoint := OutPoint.mk (FinalTx.txid commit_tx) COMMIT_TX_CHANGE_OUTPUT_INDEX in
  let fee_payer_txout :=
    TxOut.mk (TxOut.value (CommitTxOutputRes.commit_tx_change_output commit_output))
      (BitcoinSigner.get_p2wpkh_script_pubkey signer) in
  control_block ← ok_or (AnyhowMsg "Failed to get control block")
    (spend_control_block (taproot_spend_info inscription_data) (inscription_script inscription_data));
  let taproot_address :=
    address_p2tr_tweaked (output_key (taproot_spend_info inscription_data)) get_network in
  let reveal_p2tr_outpoint := OutPoint.mk (FinalTx.txid commit_tx) COMMIT_TX_TAPSCRIPT_OUTPUT_INDEX in
  let reveal_p2tr_txout :=
    TxOut.mk (TxOut.value (CommitTxOutputRes.commit_tx_tapscript_output commit_output))
      (address_script_pubkey taproot_address) in
  unlock_value ← lift_exec (amount_add (TxOut.value fee_payer_txout) (TxOut.value reveal_p2tr_txout));
  mret {| RevealTxInputRes.reveal_tx_input :=
            [unsigned_input fee_payer_outpoint; unsigned_input reveal_p2tr_outpoint];
          RevealTxInputRes.prev_outs := [fee_payer_txout; reveal_p2tr_txout];
          RevealTxInputRes.unlock_value := unlock_value;
          RevealTxInputRes.control_block := control_block |}.

Definition prepare_reveal_tx_output (tx_input_data : RevealTxInputRes.t)
    (inscription_data : InscriptionData) (recipient : option Recipient.t) : M RevealTxOutputRes.t :=
  fee_rate ← get_fee_rate;
  fee_amount ← of_bitcoin (Fees.estimate_fee REVEAL_TX_P2WPKH_INPUT_COUNT REVEAL_TX_P2TR_INPUT_COUNT
    (REVEAL_TX_P2WPKH_OUTPUT_COUNT + match recipient with Some _ => 1 | None => 0 end)
    REVEAL_TX_P2TR_OUTPUT_COUNT [Z.of_nat (script_size inscription_data)] fee_rate);
  let recipient_amount := match recipient with Some r => Recipient.amount r | None => 0 end in
  required ← lift_exec (amount_add fee_amount recipient_amount);
  reveal_change_amount ←
    ok_or (AnyhowMsg "Required Amount, Spendable Amount")
      (checked_sub (RevealTxInputRes.unlock_value tx_input_data) required);
  let reveal_tx_change_output :=
    TxOut.mk reveal_change_amount (BitcoinSigner.get_p2wpkh_script_pubkey signer) in
  let recipient_tx_output :=
    (λ r, TxOut.mk (Recipient.amount r) (address_script_pubkey (Recipient.address r))) <$> recipient in
  mret {| RevealTxOutputRes.reveal_tx_change_output := reveal_tx_change_output;
          RevealTxOutputRes.recipient_tx_output := recipient_tx_output;
          RevealTxOutputRes.reveal_fee_rate := fee_rate;
          RevealTxOutputRes._reveal_fee := fee_amount |}.

Definition sign_reveal_tx (input : RevealTxInputRes.t) (output : RevealTxOutputRes.t)
    (inscription_data : InscriptionData) : M FinalTx.t :=
  let outputs := RevealTxOutputRes.reveal_tx_change_output output ::
    match RevealTxOutputRes.recipient_tx_output output with Some o => [o] | None => [] end in
  let unsigned_reveal_tx :=
    BtcTransaction.mk 2 0 (RevealTxInputRes.reveal_tx_input input) outputs in
  tx ← sign_p2wpkh_input unsigned_reveal_tx (Z.to_nat REVEAL_TX_FEE_INPUT_INDEX)
         (RevealTxInputRes.unlock_value input);
  reveal_input_sighash ← ok_or (AnyhowMsg "Failed to create sighash")
    (taproot_script_spend_signature_hash tx (Z.to_nat REVEAL_TX_TAPSCRIPT_REVEAL_INDEX)
       (RevealTxInputRes.prev_outs input) (inscription_script inscription_data));
  reveal_input_signature ← of_bitcoin (BitcoinSigner.sign_schnorr signer reveal_input_sighash);
  let witness_data := [taproot_signature_to_vec reveal_input_signature;
                       inscription_script inscription_data;
                       control_block_serialize (RevealTxInputRes.control_block input)] in
  reveal_tx ← of_result (set_witness tx (Z.to_nat REVEAL_TX_TAPSCRIPT_REVEAL_INDEX) witness_data);
  mret (FinalTx.mk reveal_tx (compute_txid reveal_tx)).

Definition broadcast_inscription (commit reveal : FinalTx.t) : M Txid :=
  let commit_tx_hex := raw_hex (FinalTx.tx commit) in
  let reveal_tx_hex := raw_hex (FinalTx.tx reveal) in
  commit_tx_id ← client_call (broadcast_signed_transaction commit_tx_hex);
  reveal_tx_id ← client_call (broadcast_signed_transaction reveal_tx_hex);
  mret reveal_tx_id.

Definition context_request (req : InscriptionMessage.t) (info : InscriberInfo.t)
    : InscriptionRequest.t :=
  let commit := InscriberInfo.final_commit_tx info in
  let reveal := InscriberInfo.final_reveal_tx info in
  {| InscriptionRequest.message := req;
     InscriptionRequest.inscriber_output :=
       {| InscriberOutput.commit_txid := FinalTx.txid commit;
          InscriberOutput.commit_raw_tx := raw_hex (FinalTx.tx commit);
          InscriberOutput.commit_tx_fee_rate :=
            CommitTxOutputRes.commit_tx_fee_rate (InscriberInfo.commit_tx_output_info info);
          InscriberOutput.reveal_txid := FinalTx.txid reveal;
          InscriberOutput.reveal_raw_tx := raw_hex (FinalTx.tx reveal);
          InscriberOutput.reveal_tx_fee_rate :=
            RevealTxOutputRes.reveal_fee_rate (InscriberInfo.reveal_tx_output_info info);
          InscriberOutput.is_broadcasted := true |};
     InscriptionRequest.fee_payer_ctx :=
       {| FeePayerCtx.fee_payer_utxo_txid := FinalTx.txid reveal;
          FeePayerCtx.fee_payer_utxo_vout := REVEAL_TX_CHANGE_OUTPUT_INDEX;
          FeePayerCtx.fee_payer_utxo_value :=
            TxOut.value (RevealTxOutputRes.reveal_tx_change_output
                           (InscriberInfo.reveal_tx_output_info info)) |};
     InscriptionRequest.commit_tx_input :=
       CommitTxInput.mk (CommitTxInputRes.commit_tx_inputs (InscriberInfo.commit_tx_input_info info)) |}.

Definition insert_inscription_to_context (req : InscriptionMessage.t) (info : InscriberInfo.t) : M () :=
  st ← get; set_queue (queue st ++ [context_request req info]).

Definition prepare_inscribe (input : InscriptionMessage.t) (config : InscriptionConfig.t)
    (recipient : option Recipient.t) : M InscriberInfo.t :=
  _ ← sync_context_with_blockchain;
  key ← of_bitcoin (BitcoinSigner.get_internal_key signer);
  inscription_data ← of_result (InscriptionData_new input key get_network);
  commit_tx_input_info ← prepare_commit_tx_input;
  commit_tx_output_info ←
    prepare_commit_tx_output commit_tx_input_info (script_pubkey inscription_data) config;
  final_commit_tx ← sign_commit_tx commit_tx_input_info commit_tx_output_info;
  reveal_tx_input_info ← prepare_reveal_tx_input commit_tx_output_info final_commit_tx inscription_data;
  reveal_tx_output_info ← prepare_reveal_tx_output reveal_tx_input_info inscription_data recipient;
  final_reveal_tx ← sign_reveal_tx reveal_tx_input_info reveal_tx_output_info inscription_data;
  mret (InscriberInfo.mk final_commit_tx final_reveal_tx commit_tx_output_info
          reveal_tx_output_info commit_tx_input_info).

Definition inscribe_with_recipient (input : InscriptionMessage.t) (config : InscriptionConfig.t)
    (recipient : option Recipient.t) : M InscriberInfo.t :=
  inscriber_info ← prepare_inscribe input config recipient;
  _ ← broadcast_inscription (InscriberInfo.final_commit_tx inscriber_info)
        (InscriberInfo.final_reveal_tx inscriber_info);
  _ ← insert_inscription_to_context input inscriber_info;
  mret inscriber_info.

Definition inscribe (input : InscriptionMessage.t) (config : InscriptionConfig.t)
    : M InscriberInfo.t :=
  inscribe_with_recipient input config None.

Definition get_context_snapshot : M InscriberContext.t := st ← get; mret (context st).
Definition recreate_context_from_snapshot (snapshot : InscriberContext.t) : M () :=
  st ← get; put (mk_state snapshot (world st)).

(** ** Steps that leave the context alone *)
Definition keeps_context {A} (m : M A) : Prop :=
  ∀ st r st', m st = Ret (r, st') → context st' = context st.

Lemma keeps_bind {A B} (m : M A) (f : A → M B) :
  keeps_context m → (∀ a, keeps_context (f a)) → keeps_context (m ≫= f).
Proof using.
  intros Hm Hf st r st' Hr. unfold mbind, prog_bind in Hr.
  destruct (m st) as [[[e|a] st1]|] eqn:E; [|..]; simplify_eq.
  - by eapply Hm.
  - rewrite (Hf _ _ _ _ Hr). by eapply Hm.
Qed.
Lemma keeps_client {A} (op : prog W BitcoinError A) : keeps_context (client_call op).
Proof using.
  intros st r st'. unfold client_call. destruct (op (world st)) as [[[|] ?]|]; intros; by simplify_eq.
Qed.
Lemma keeps_of_result {A} (r : AnyhowError + A) : keeps_context (of_result r).
Proof using. intros st r' st' [= _ <-]. done. Qed.
Lemma keeps_of_bitcoin {A} (r : BitcoinError + A) : keeps_context (of_bitcoin r).
Proof using. apply keeps_of_result. Qed.
Lemma keeps_ok_or {A} e (o : option A) : keeps_context (ok_or e o).
Proof using. intros st r st'. by destruct o; intros [= _ <-]. Qed.
Lemma keeps_lift {A} (m : exec A) : keeps_context (lift_exec m).
Proof using. intros st r st'. destruct m; cbn; [|done]. by intros [= _ <-]. Qed.
Lemma keeps_get : keeps_context get.
Proof using. by intros st r st' [= _ <-]. Qed.
Lemma keeps_mret {A} (a : A) : keeps_context (mret a).
Proof using. by intros st r st' [= _ <-]. Qed.
Lemma keeps_foldP {A B} (f : A → B → M A) l a :
  (∀ a b, keeps_context (f a b)) → keeps_context (foldP f a l).
Proof using.
  intros Hf. revert a. induction l as [|b l IH]; intros a; cbn; [apply keeps_mret|].
  by apply keeps_bind.
Qed.
End inscriber.

(** Leave the context alone, by the structure of the program. *)
Ltac keeps := repeat first [match goal with |- ∀ _, _ => intros ? end | apply keeps_bind | apply keeps_client | apply keeps_of_result
  | apply keeps_of_bitcoin | apply keeps_ok_or | apply keeps_lift | apply keeps_get
  | apply keeps_mret | apply keeps_foldP].

Section facts.
Context `{BitcoinLib} {W : Type} `{BitcoinOps W} (signer : BitcoinSigner.t).
Abbreviation st := (@state W).

(** ** What the commit transaction spends *)
Definition sum_values (l : list Amount) : Z := foldr Z.add 0 l.

Lemma sum_values_app l1 l2 : sum_values (l1 ++ l2) = sum_values l1 + sum_values l2.
Proof using. induction l1 as [|x l1 IH]; cbn; [done|]. unfold sum_values in *. lia. Qed.

Lemma add_utxos_spec l res res' :
  foldM add_utxo res l = Ret res' →
  CommitTxInputRes.commit_tx_inputs res' =
    CommitTxInputRes.commit_tx_inputs res ++ ((λ u, unsigned_input u.1) <$> l) ∧
  CommitTxInputRes.utxo_amounts res' =
    CommitTxInputRes.utxo_amounts res ++ ((λ u, TxOut.value u.2) <$> l) ∧
  CommitTxInputRes.unlocked_value res' =
    CommitTxInputRes.unlocked_value res + sum_values ((λ u, TxOut.value u.2) <$> l).
Proof using.
  revert res. induction l as [|[o t] l IH]; intros res Hf; cbn [foldM] in Hf.
  { injection Hf as <-. cbn. rewrite !app_nil_r. split_and!; [done..|lia]. }
  apply bind_Ret_inv in Hf as (res1 & Hadd & Hf). apply IH in Hf as (-> & -> & ->).
  cbn in Hadd. unfold amount_add, assert_then in Hadd. case_match; [|done]. injection Hadd as <-. cbn.
  rewrite <-!app_assoc. cbn. split_and!; [done..|unfold sum_values; lia].
Qed.

Lemma of_bitcoin_inr {A} (r : BitcoinError + A) (s : st) a s' :
  of_bitcoin r s = Ret (inr a, s') → r = inr a ∧ s' = s.
Proof using. unfold of_bitcoin. intros Ho. inv_prog. destruct r; naive_solver. Qed.

(** [utxos] is what the node answers when asked for the outputs of the signer's address. *)
Definition fetched (w : W) (utxos : list (OutPoint.t * TxOut.t)) : Prop :=
  ∃ address w', BitcoinSigner.get_p2wpkh_address signer = inr address ∧ fetch_utxos address w = Ret (inr utxos, w').

Lemma prepare_commit_tx_input_inv s res s' :
  prepare_commit_tx_input signer s = Ret (inr res, s') →
  context s' = context s ∧ ∃ utxos, fetched (world s) utxos ∧
    CommitTxInputRes.commit_tx_inputs res =
      (λ u, unsigned_input u.1) <$> spendable signer (queue s) utxos ∧
    CommitTxInputRes.utxo_amounts res =
      (λ u, TxOut.value u.2) <$> spendable signer (queue s) utxos ∧
    CommitTxInputRes.unlocked_value res = sum_values (CommitTxInputRes.utxo_amounts res).
Proof using.
  intros Hp. assert (Hk : keeps_context (prepare_commit_tx_input signer)) by (unfold prepare_commit_tx_input; keeps).
  split; [by eapply Hk|]. unfold prepare_commit_tx_input in Hp. inv_prog.
  match goal with Hb : of_bitcoin _ _ = _ |- _ => apply of_bitcoin_inr in Hb as [Haddr ->] end.
  match goal with Hu : client_call _ _ = _ |- _ => pose proof (keeps_client _ _ _ _ Hu) as Hc; rename Hu into Hfetch end.
  match goal with Hg : get _ = _ |- _ => injection Hg as <- <- end.
  match goal with Hf : foldM _ _ _ = _ |- _ => apply add_utxos_spec in Hf as (Hi & Ha & Hu) end.
  cbn in Hi, Ha, Hu. unfold queue in *. rewrite Hc in *. eexists.
  split_and!; [|exact Hi|exact Ha|by rewrite Hu, Ha].
  unfold client_call in Hfetch. destruct (fetch_utxos _ (world s)) as [[[?|?] w]|] eqn:E; simplify_eq. by eexists _, _.
Qed.

(** ** Synchronisation *)
Definition confirmation_call (r : InscriptionRequest.t) : prog W BitcoinError bool :=
  check_tx_confirmation (FeePayerCtx.fee_payer_utxo_txid (InscriptionRequest.fee_payer_ctx r))
    CTX_REQUIRED_CONFIRMATIONS.

Lemma sync_loop_step i q s :
  sync_loop (i :: q) s =
  match confirmation_call i (world s) with
  | Ret (inl e, w) => Ret (inl (AnyhowBitcoin e), mk_state (InscriberContext.mk q) w)
  | Ret (inr true, w) => sync_loop q (mk_state (InscriberContext.mk q) w)
  | Ret (inr false, w) => Ret (inr (), mk_state (InscriberContext.mk (i :: q)) w)
  | Panic => Panic
  end.
Proof using.
  cbn [sync_loop]. erewrite prog_bind_step; [|reflexivity]. unfold mbind at 1, prog_bind at 1, client_call.
  unfold confirmation_call. cbn [world context].
  by destruct (check_tx_confirmation _ _ (world s)) as [[[be|[|]] w1]|].
Qed.

(** The node confirmed the entries of [q] one after the other, from world [w] to
    world [w']. *)
Inductive confirmed : list InscriptionRequest.t → W → W → Prop :=
| confirmed_nil w : confirmed [] w w
| confirmed_cons r q w w1 w' :
    confirmation_call r w = Ret (inr true, w1) → confirmed q w1 w' → confirmed (r :: q) w w'.

(** The outcome of a synchronisation. *)
Definition synced (s : st) (r : AnyhowError + ()) (s' : st) : Prop :=
  match r with
  | inr _ => ∃ done_, queue s = done_ ++ queue s' ∧
      ∃ w, confirmed done_ (world s) w ∧
      match queue s' with
      | [] => world s' = w
      | first :: _ => confirmation_call first w = Ret (inr false, world s')
      end
  | inl e => ∃ done_ lost, queue s = done_ ++ lost :: queue s' ∧
      ∃ w be, confirmed done_ (world s) w ∧ e = AnyhowBitcoin be ∧
      confirmation_call lost w = Ret (inl be, world s')
  end.

Lemma sync_context_synced s r s' : sync_context_with_blockchain s = Ret (r, s') → synced s r s'.
Proof using.
  assert (Hloop : ∀ q s, queue s = q → sync_loop q s = Ret (r, s') →
    match r with
    | inr _ => ∃ done_, q = done_ ++ queue s' ∧
        ∃ w, confirmed done_ (world s) w ∧
        match queue s' with
        | [] => world s' = w
        | first :: _ => confirmation_call first w = Ret (inr false, world s')
        end
    | inl e => ∃ done_ lost, q = done_ ++ lost :: queue s' ∧
        ∃ w be, confirmed done_ (world s) w ∧ e = AnyhowBitcoin be ∧
        confirmation_call lost w = Ret (inl be, world s')
    end).
  { intros q. induction q as [|i q IH]; intros s0 Hq Hs; cbn [sync_loop] in Hs.
    { injection Hs as <- <-. exists []. rewrite Hq. split; [done|]. eexists. split; [constructor|done]. }
    change (sync_loop (i :: q) s0 = Ret (r, s')) in Hs. rewrite sync_loop_step in Hs.
    destruct (confirmation_call i (world s0)) as [[[be|[|]] w1]|] eqn:E; [| | |done].
    - injection Hs as <- <-. exists [], i. split; [done|]. eexists _, _.
      split_and!; [constructor|done|exact E].
    - apply IH in Hs; [|done]. destruct r as [e|[]].
      + destruct Hs as (d & lost & -> & w & be & Hc & -> & Hl). exists (i :: d), lost. split; [done|].
        eexists _, _. split_and!; [econstructor; [exact E|exact Hc]|done|done].
      + destruct Hs as (d & -> & w & Hc & Hl). exists (i :: d). split; [done|].
        eexists. split; [econstructor; [exact E|exact Hc]|done].
    - injection Hs as <- <-. exists []. split; [done|]. eexists. split; [constructor|exact E]. }
  unfold sync_context_with_blockchain, synced. intros Hs. unfold mbind, prog_bind, get in Hs.
  destruct (queue s) as [|i q] eqn:Hq.
  - injection Hs as <- <-. exists []. rewrite Hq. split; [done|]. eexists. split; [constructor|done].
  - by eapply Hloop.
Qed.

(** ** Signing *)
Definition outpoints (tx : BtcTransaction.t) : list OutPoint.t :=
  TxIn.previous_output <$> BtcTransaction.input tx.

(** [tx'] is [tx] up to witnesses. *)
Definition same_but_witness (tx tx' : BtcTransaction.t) : Prop :=
  BtcTransaction.output tx' = BtcTransaction.output tx ∧ outpoints tx' = outpoints tx.

Lemma set_witness_inv tx i w tx' :
  set_witness tx i w = inr tx' → same_but_witness tx tx' ∧
  TxIn.witness <$> BtcTransaction.input tx' = <[i := w]> (TxIn.witness <$> BtcTransaction.input tx).
Proof using.
  unfold set_witness. destruct (_ !! i) as [x|] eqn:E; [|done]. intros [= <-]. cbn.
  split; [split; [done|]|].
  - unfold outpoints. cbn. rewrite list_fmap_insert. cbn. apply list_insert_id.
    by rewrite list_lookup_fmap, E.
  - by rewrite list_fmap_insert.
Qed.

Lemma sign_p2wpkh_input_inv tx i amount (s : st) tx' s' :
  sign_p2wpkh_input signer tx i amount s = Ret (inr tx', s') →
  s' = s ∧ same_but_witness tx tx' ∧ ∃ sig,
  TxIn.witness <$> BtcTransaction.input tx' =
    <[i := witness_p2wpkh sig (BitcoinSigner.get_public_key signer)]>
      (TxIn.witness <$> BtcTransaction.input tx).
Proof using.
  unfold sign_p2wpkh_input. intros Hs. inv_prog.
  match goal with Hb : of_bitcoin _ _ = _ |- _ => apply of_bitcoin_inr in Hb as [? ->] end.
  match goal with Hw : set_witness _ _ _ = _ |- _ => apply set_witness_inv in Hw as [? ?] end.
  split_and!; [done|done|]. eauto.
Qed.

Lemma sign_commit_tx_inv input output (s : st) f s' :
  sign_commit_tx signer input output s = Ret (inr f, s') →
  s' = s ∧ FinalTx.txid f = compute_txid (FinalTx.tx f) ∧
  BtcTransaction.output (FinalTx.tx f) =
    [CommitTxOutputRes.commit_tx_change_output output; CommitTxOutputRes.commit_tx_tapscript_output output] ∧
  outpoints (FinalTx.tx f) = TxIn.previous_output <$> CommitTxInputRes.commit_tx_inputs input.
Proof using.
  unfold sign_commit_tx. intros Hs. inv_prog. cbn.
  match goal with Hf : foldP ?g ?a ?l s = Ret (inr ?tx, ?s1) |- _ =>
    pose proof (foldP_inv (λ tx s', s' = s ∧ same_but_witness a tx) (λ _, True) g l a s) as Hinv;
    rewrite Hf in Hinv; destruct Hinv as (-> & Ho & Hi) end.
  - intros tx i s0 (-> & Ho & Hi). destruct (((_ ≫= _) : prog st AnyhowError _) s) as [[[e|tx'] s1]|] eqn:E; [done| |done].
    inv_prog. match goal with Hp : sign_p2wpkh_input _ _ _ _ _ = _ |- _ =>
      apply sign_p2wpkh_input_inv in Hp as (-> & [Ho' Hi'] & _) end.
    split; [done|]. split; congruence.
  - done.
  - split_and!; [done|done|by rewrite Ho|by rewrite Hi].
Qed.

Lemma prepare_commit_tx_output_inv data script config (s : st) res s' :
  prepare_commit_tx_output signer data script config s = Ret (inr res, s') →
  context s' = context s ∧
  CommitTxOutputRes.commit_tx_tapscript_output res = TxOut.mk 0 script ∧
  TxOut.value (CommitTxOutputRes.commit_tx_change_output res) + CommitTxOutputRes._commit_tx_fee res =
    CommitTxInputRes.unlocked_value data ∧
  0 ≤ TxOut.value (CommitTxOutputRes.commit_tx_change_output res) ∧
  Fees.estimate_fee (CommitTxInputRes.inputs_count data) COMMIT_TX_P2TR_INPUT_COUNT
    COMMIT_TX_P2WPKH_OUTPUT_COUNT COMMIT_TX_P2TR_OUTPUT_COUNT []
    (CommitTxOutputRes.commit_tx_fee_rate res) = inr (CommitTxOutputRes._commit_tx_fee res).
Proof using.
  intros Hp. split.
  { assert (Hk : keeps_context (prepare_commit_tx_output signer data script config))
      by (unfold prepare_commit_tx_output, get_fee_rate; keeps). by eapply Hk. }
  unfold prepare_commit_tx_output in Hp. inv_prog.
  match goal with Hb : of_bitcoin _ _ = _ |- _ => apply of_bitcoin_inr in Hb as [? ->] end.
  unfold checked_sub in *. case_decide; [|done]. simplify_eq. cbn. split_and!; [done|lia|lia|done].
Qed.

Lemma prepare_reveal_tx_input_inv output commit data (s : st) res s' :
  prepare_reveal_tx_input signer output commit data s = Ret (inr res, s') →
  s' = s ∧
  TxIn.previous_output <$> RevealTxInputRes.reveal_tx_input res =
    [OutPoint.mk (FinalTx.txid commit) 0; OutPoint.mk (FinalTx.txid commit) 1] ∧
  (TxIn.witness <$> RevealTxInputRes.reveal_tx_input res = [[]; []]) ∧
  spend_control_block (taproot_spend_info data) (inscription_script data) =
    Some (RevealTxInputRes.control_block res) ∧
  RevealTxInputRes.unlock_value res =
    TxOut.value (CommitTxOutputRes.commit_tx_change_output output) +
    TxOut.value (CommitTxOutputRes.commit_tx_tapscript_output output).
Proof using.
  unfold prepare_reveal_tx_input. intros Hp. inv_prog. unfold amount_add, assert_then in *.
  case_match; [|done]. inv_exec. subst. done.
Qed.

Definition recipient_amount (r : option Recipient.t) : Z :=
  match r with Some r => Recipient.amount r | None => 0 end.

Lemma prepare_reveal_tx_output_inv input data recipient (s : st) res s' :
  prepare_reveal_tx_output signer input data recipient s = Ret (inr res, s') →
  context s' = context s ∧
  TxOut.value (RevealTxOutputRes.reveal_tx_change_output res) + recipient_amount recipient
    + RevealTxOutputRes._reveal_fee res = RevealTxInputRes.unlock_value input ∧
  0 ≤ TxOut.value (RevealTxOutputRes.reveal_tx_change_output res) ∧
  RevealTxOutputRes.recipient_tx_output res =
    (λ r, TxOut.mk (Recipient.amount r) (address_script_pubkey (Recipient.address r))) <$> recipient.
Proof using.
  intros Hp. split.
  { assert (Hk : keeps_context (prepare_reveal_tx_output signer input data recipient))
      by (unfold prepare_reveal_tx_output, get_fee_rate; keeps). by eapply Hk. }
  unfold prepare_reveal_tx_output in Hp. inv_prog.
  match goal with Hb : of_bitcoin _ _ = _ |- _ => apply of_bitcoin_inr in Hb as [? ->] end.
  unfold checked_sub, amount_add, assert_then in *. case_decide; [|done]. case_match; [|done].
  inv_exec. simplify_eq. unfold recipient_amount. cbn. split_and!; [lia|lia|done].
Qed.

Lemma sign_reveal_tx_inv input output data (s : st) f s' :
  sign_reveal_tx signer input output data s = Ret (inr f, s') →
  s' = s ∧ FinalTx.txid f = compute_txid (FinalTx.tx f) ∧
  BtcTransaction.output (FinalTx.tx f) =
    RevealTxOutputRes.reveal_tx_change_output output ::
      match RevealTxOutputRes.recipient_tx_output output with Some o => [o] | None => [] end ∧
  outpoints (FinalTx.tx f) = TxIn.previous_output <$> RevealTxInputRes.reveal_tx_input input ∧
  ∃ sig tsig, TxIn.witness <$> BtcTransaction.input (FinalTx.tx f) =
    <[1%nat := [taproot_signature_to_vec tsig; inscription_script data;
             control_block_serialize (RevealTxInputRes.control_block input)]]>
    (<[0%nat := witness_p2wpkh sig (BitcoinSigner.get_public_key signer)]>
      (TxIn.witness <$> RevealTxInputRes.reveal_tx_input input)).
Proof using.
  unfold sign_reveal_tx. intros Hs. inv_prog. cbn.
  match goal with Hp : sign_p2wpkh_input _ _ _ _ _ = _ |- _ =>
    apply sign_p2wpkh_input_inv in Hp as (-> & [Ho Hi] & sig & Hw) end.
  match goal with Hb : of_bitcoin _ _ = _ |- _ => apply of_bitcoin_inr in Hb as [? ->] end.
  match goal with Hb : set_witness _ _ _ = _ |- _ => apply set_witness_inv in Hb as [[Ho' Hi'] Hw'] end.
  split_and!; [done|done|by rewrite Ho', Ho|by rewrite Hi', Hi|].
  eexists sig, _. rewrite Hw', Hw. done.
Qed.

(** What is known of the result of [prepare_inscribe]. *)
Record prepared (m : InscriptionMessage.t) (recipient : option Recipient.t)
    (s : st) (info : InscriberInfo.t) (s' : st) : Prop := {
  prep_state : ∃ s1, sync_context_with_blockchain s = Ret (inr (), s1) ∧ context s' = context s1;
  prep_commit_in : ∃ s1 utxos, sync_context_with_blockchain s = Ret (inr (), s1) ∧ fetched (world s1) utxos ∧
    outpoints (FinalTx.tx (InscriberInfo.final_commit_tx info)) =
      fst <$> spendable signer (queue s') utxos ∧
    CommitTxInputRes.commit_tx_inputs (InscriberInfo.commit_tx_input_info info) =
      (λ u, unsigned_input u.1) <$> spendable signer (queue s') utxos ∧
    CommitTxInputRes.utxo_amounts (InscriberInfo.commit_tx_input_info info) =
      (λ u, TxOut.value u.2) <$> spendable signer (queue s') utxos;
  prep_commit_value :
    sum_values (CommitTxInputRes.utxo_amounts (InscriberInfo.commit_tx_input_info info)) =
    sum_values (TxOut.value <$> BtcTransaction.output (FinalTx.tx (InscriberInfo.final_commit_tx info)))
    + CommitTxOutputRes._commit_tx_fee (InscriberInfo.commit_tx_output_info info);
  prep_commit_txid : FinalTx.txid (InscriberInfo.final_commit_tx info) =
    compute_txid (FinalTx.tx (InscriberInfo.final_commit_tx info));
  prep_reveal_in :
    outpoints (FinalTx.tx (InscriberInfo.final_reveal_tx info)) =
    [OutPoint.mk (FinalTx.txid (InscriberInfo.final_commit_tx info)) 0;
     OutPoint.mk (FinalTx.txid (InscriberInfo.final_commit_tx info)) 1];
  prep_outputs :
    length (BtcTransaction.output (FinalTx.tx (InscriberInfo.final_commit_tx info))) = 2%nat;
  prep_reveal_value :
    sum_values (TxOut.value <$> BtcTransaction.output (FinalTx.tx (InscriberInfo.final_commit_tx info))) =
    sum_values (TxOut.value <$> BtcTransaction.output (FinalTx.tx (InscriberInfo.final_reveal_tx info)))
    + RevealTxOutputRes._reveal_fee (InscriberInfo.reveal_tx_output_info info);
  prep_reveal_out :
    BtcTransaction.output (FinalTx.tx (InscriberInfo.final_reveal_tx info)) =
    RevealTxOutputRes.reveal_tx_change_output (InscriberInfo.reveal_tx_output_info info) ::
    match recipient with
    | Some r => [TxOut.mk (Recipient.amount r) (address_script_pubkey (Recipient.address r))]
    | None => []
    end;
  prep_witness : ∃ key data sig tsig cb,
    InscriptionData_new m key get_network = inr data ∧
    spend_control_block (taproot_spend_info data) (inscription_script data) = Some cb ∧
    TxIn.witness <$> BtcTransaction.input (FinalTx.tx (InscriberInfo.final_reveal_tx info)) =
      [witness_p2wpkh sig (BitcoinSigner.get_public_key signer);
       [taproot_signature_to_vec tsig; inscription_script data; control_block_serialize cb]];
  prep_txid : FinalTx.txid (InscriberInfo.final_reveal_tx info) =
    compute_txid (FinalTx.tx (InscriberInfo.final_reveal_tx info));
}.

Lemma prepare_inscribe_inv m config recipient s info s' :
  prepare_inscribe signer m config recipient s = Ret (inr info, s') → prepared m recipient s info s'.
Proof using.
  unfold prepare_inscribe. intros Hp. inv_prog.
  match goal with Hb : of_bitcoin _ _ = _ |- _ => apply of_bitcoin_inr in Hb as [? ->] end.
  match goal with Hb : prepare_commit_tx_input _ _ = _ |- _ =>
    apply prepare_commit_tx_input_inv in Hb as (Hc1 & utxos & Hfetch & Hin & Ham & Hunl) end.
  match goal with Hb : prepare_commit_tx_output _ _ _ _ _ = _ |- _ =>
    apply prepare_commit_tx_output_inv in Hb as (Hc2 & Htap & Hval & Hpos & _) end.
  match goal with Hb : sign_commit_tx _ _ _ _ = _ |- _ =>
    apply sign_commit_tx_inv in Hb as (-> & Htxid & Hout & Hops) end.
  match goal with Hb : prepare_reveal_tx_input _ _ _ _ _ = _ |- _ =>
    apply prepare_reveal_tx_input_inv in Hb as (-> & Hrin & Hrw & Hcb & Hrval) end.
  match goal with Hb : prepare_reveal_tx_output _ _ _ _ _ = _ |- _ =>
    apply prepare_reveal_tx_output_inv in Hb as (Hc3 & Hrv & Hrpos & Hrec) end.
  match goal with Hb : sign_reveal_tx _ _ _ _ _ = _ |- _ =>
    apply sign_reveal_tx_inv in Hb as (-> & Hrtxid & Hrout & Hrops & sig & tsig & Hwit) end.
  match goal with Hs : sync_context_with_blockchain _ = Ret (inr ?u, ?s1) |- prepared _ _ _ _ ?s2 =>
    destruct u; assert (Hctx : context s2 = context s1) by congruence end.
  split; cbn.
  - eauto.
  - eexists _, utxos. split; [eassumption|]. split; [done|]. unfold queue. rewrite Hctx, Hops, Hin, <-list_fmap_compose. done.
  - rewrite Hout. cbn. rewrite <-Hunl, <-Hval, Htap. cbn. lia.
  - exact Htxid.
  - by rewrite Hrops.
  - by rewrite Hout.
  - rewrite Hout, Hrout, Hrec. cbn. rewrite Htap in *. cbn in *.
    destruct recipient; cbn in *; lia.
  - rewrite Hrout, Hrec. by destruct recipient.
  - eexists _, _, _, _, _. split; [eassumption|]. split; [exact Hcb|]. by rewrite Hwit, Hrw.
  - exact Hrtxid.
Qed.

Lemma sync_suffix s s1 : sync_context_with_blockchain s = Ret (inr (), s1) →
  ∃ done_, queue s = done_ ++ queue s1.
Proof using. intros Hs. apply sync_context_synced in Hs as (d & ? & _). eauto. Qed.

Lemma inscribe_inv m config recipient s info s' :
  inscribe_with_recipient signer m config recipient s = Ret (inr info, s') →
  ∃ s1, prepared m recipient s info s1 ∧ queue s' = queue s1 ++ [context_request m info].
Proof using.
  unfold inscribe_with_recipient. intros Hp. inv_prog.
  match goal with Hb : prepare_inscribe _ _ _ _ _ = _ |- _ => apply prepare_inscribe_inv in Hb end.
  match goal with Hb : broadcast_inscription _ _ ?a = Ret (_, ?b) |- _ =>
    assert (Hctx : context b = context a)
      by (assert (Hk : ∀ c r, keeps_context (broadcast_inscription (W := W) c r))
            by (intros; unfold broadcast_inscription; keeps); by eapply Hk) end.
  unfold insert_inscription_to_context, set_queue in *. inv_prog.
  repeat match goal with Hg : get _ = _ |- _ => injection Hg as <- <- end.
  match goal with Hg : put _ _ = _ |- _ => injection Hg as <- <- end.
  eexists. split; [eassumption|]. unfold queue in *. cbn. by rewrite Hctx.
Qed.

(** Every step of a queue the inscriber extends keeps the pending entries. *)
Lemma inscribe_queue m config recipient s info s' :
  inscribe_with_recipient signer m config recipient s = Ret (inr info, s') →
  ∃ done_ q, queue s = done_ ++ q ∧ queue s' = q ++ [context_request m info] ∧
    ∃ utxos, outpoints (FinalTx.tx (InscriberInfo.final_commit_tx info)) = fst <$> spendable signer q utxos.
Proof using.
  intros Hi. apply inscribe_inv in Hi as (s1 & Hp & Hq).
  destruct (prep_state _ _ _ _ _ Hp) as (s2 & Hs & Hc). apply sync_suffix in Hs as (d & Hd).
  destruct (prep_commit_in _ _ _ _ _ Hp) as (_ & utxos & _ & _ & Ho & _).
  exists d, (queue s1). unfold queue in *. rewrite Hc in *. eauto.
Qed.

(** ** Properties *)

(** Synchronising the context drops from the front exactly the entries the
    node confirmed, stops at the first unconfirmed one and keeps it and the rest
    in order. If the node fails to answer for an entry, that entry is dropped
    although nothing is known about it, and the error is returned. *)
Theorem sync_context_spec s r s' :
  sync_context_with_blockchain s = Ret (r, s') →
  match r with
  | inr _ => ∃ done_, queue s = done_ ++ queue s' ∧
      ∃ w, confirmed done_ (world s) w ∧
      match queue s' with
      | [] => world s' = w
      | first :: _ => confirmation_call first w = Ret (inr false, world s')
      end
  | inl e => ∃ done_ lost, queue s = done_ ++ lost :: queue s' ∧
      ∃ w be, confirmed done_ (world s) w ∧ e = AnyhowBitcoin be ∧
      confirmation_call lost w = Ret (inl be, world s')
  end.
Proof using. apply sync_context_synced. Qed.

(** Of coins with distinct outpoints those that a sublist names are the sublist. *)
Lemma filter_named (l' l : list (OutPoint.t * TxOut.t)) :
  l' `sublist_of` l → NoDup l.*1 → NoDup l'.*1 ∧ filter (λ c, c.1 ∈ l'.*1) l = l'.
Proof using.
  assert (Hsub : ∀ l1 l2 : list (OutPoint.t * TxOut.t), l1 `sublist_of` l2 → ∀ o, o ∈ l1.*1 → o ∈ l2.*1).
  { intros l1 l2 Hs o. rewrite !list_elem_of_fmap. intros (c & -> & Hc). exists c. split; [done|]. by eapply elem_of_sublist. }
  induction 1 as [|c l1 l2 Hs IH|c l1 l2 Hs IH]; cbn [fmap list_fmap].
  - done.
  - intros [Hn Hnd]%NoDup_cons. destruct (IH Hnd) as [Hnd1 Hf]. split; [apply NoDup_cons; split; [intros Hin; by apply Hn, (Hsub l1 l2)|done]|].
    rewrite filter_cons_True by (left). f_equal. etrans; [|exact Hf]. apply filter_ext_in.
    intros x Hx. split; [|by right]. intros [Heq|?]%elem_of_cons; [|done]. destruct Hn. rewrite <-Heq. apply list_elem_of_fmap. by exists x.
  - intros [Hn Hnd]%NoDup_cons. destruct (IH Hnd) as [Hnd1 Hf]. split; [done|].
    rewrite filter_cons_False; [done|]. intros Hin. by apply Hn, (Hsub l1 l2).
Qed.

(** C23 A prepared inscription conserves value. [coins] are the outputs that the node
    lists as the signer's and the change of the pending inscription at the head of the
    queue; every input of the commit transaction is one of them, and if they are
    distinct (the node does not list the unconfirmed change), so are the inputs, and
    the coins they name are worth what the commit transaction pays plus its fee. The
    reveal transaction spends both outputs of the commit transaction and pays their
    value minus its fee, so every satoshi spent is in the reveal's outputs or in one of
    the two fees; the recipient gets its amount, the rest is the signer's change. *)
Theorem inscription_conserves_value m config recipient s info s' :
  prepare_inscribe signer m config recipient s = Ret (inr info, s') →
  let commit := FinalTx.tx (InscriberInfo.final_commit_tx info) in
  let reveal := FinalTx.tx (InscriberInfo.final_reveal_tx info) in
  let commit_fee := CommitTxOutputRes._commit_tx_fee (InscriberInfo.commit_tx_output_info info) in
  let reveal_fee := RevealTxOutputRes._reveal_fee (InscriberInfo.reveal_tx_output_info info) in
  ∃ s1 utxos, sync_context_with_blockchain s = Ret (inr (), s1) ∧ fetched (world s1) utxos ∧
    let coins := utxos ++ head_change signer (queue s1) in
    let spent := filter (λ c, c.1 ∈ outpoints commit) coins in
    outpoints commit ⊆ coins.*1 ∧
    (NoDup coins.*1 → NoDup (outpoints commit) ∧
      sum_values ((λ c, TxOut.value c.2) <$> spent) = sum_values (TxOut.value <$> BtcTransaction.output commit) + commit_fee ∧
      sum_values ((λ c, TxOut.value c.2) <$> spent) =
        sum_values (TxOut.value <$> BtcTransaction.output reveal) + commit_fee + reveal_fee) ∧
    (length (BtcTransaction.output commit) = 2)%nat ∧
    outpoints reveal = [OutPoint.mk (compute_txid commit) 0; OutPoint.mk (compute_txid commit) 1] ∧
    sum_values (TxOut.value <$> BtcTransaction.output commit) =
      sum_values (TxOut.value <$> BtcTransaction.output reveal) + reveal_fee ∧
    drop 1 (BtcTransaction.output reveal) =
      match recipient with
      | Some r => [TxOut.mk (Recipient.amount r) (address_script_pubkey (Recipient.address r))]
      | None => []
      end.
Proof using.
  intros Hp. apply prepare_inscribe_inv in Hp as [(s0 & Hsync0 & Hctx) (s1 & utxos & Hsync & Hf & Hops & _ & Ham) Hcv Htx Hri Hco Hrv Hro _ _].
  cbv zeta. exists s1, utxos. rewrite Hsync0 in Hsync. injection Hsync as ->.
  assert (Hq : queue s' = queue s1) by (unfold queue; by rewrite Hctx). rewrite Hq in *.
  assert (Hsl : spendable signer (queue s1) utxos `sublist_of` utxos ++ head_change signer (queue s1)).
  { unfold spendable. apply sublist_app; [apply sublist_filter|done]. }
  split; [done|]. split; [done|]. split; [|split; [|split; [done|split; [by rewrite <-Htx|split; [exact Hrv|by rewrite Hro]]]]].
  - intros o. rewrite Hops, !list_elem_of_fmap. intros (c & -> & Hc). exists c. split; [done|]. by eapply elem_of_sublist.
  - intros Hnd. destruct (filter_named _ _ Hsl Hnd) as [Hnd' Hfil]. rewrite Hops, Hfil, <-Ham, Hcv. split_and!; [done|done|]. lia.
Qed.

(** A commit transaction spends no output that a pending inscription spends,
    apart from the change of the inscription at the head of the queue. *)
Theorem commit_inputs_not_pending m config recipient s info s' o :
  prepare_inscribe signer m config recipient s = Ret (inr info, s') →
  o ∈ outpoints (FinalTx.tx (InscriberInfo.final_commit_tx info)) →
  (o ∉ spent_utxos (queue s')) ∨ o ∈ fst <$> head_change signer (queue s').
Proof using.
  intros Hp Ho. apply prepare_inscribe_inv in Hp as [_ (_ & utxos & _ & _ & Hops & _) _ _ _ _ _ _ _ _].
  rewrite Hops in Ho. unfold spendable in Ho. rewrite fmap_app, elem_of_app in Ho.
  destruct Ho as [([o' t] & -> & Hf)%list_elem_of_fmap|]; [left|by right].
  by apply list_elem_of_filter in Hf as [[? _] _].
Qed.

(** Two inscriptions made in a row while the same inscription is pending at
    the head of the queue spend the same output, the head's change: the second
    commit transaction double-spends the first. *)
Theorem pending_head_spent_twice m1 c1 m2 c2 s1 i1 s2 i2 s3 r0 q :
  inscribe signer m1 c1 s1 = Ret (inr i1, s2) →
  inscribe signer m2 c2 s2 = Ret (inr i2, s3) →
  queue s1 = r0 :: q →
  length (queue s3) = (length (queue s1) + 2)%nat →
  let change := OutPoint.mk (InscriberOutput.reveal_txid (InscriptionRequest.inscriber_output r0))
                  (FeePayerCtx.fee_payer_utxo_vout (InscriptionRequest.fee_payer_ctx r0)) in
  change ∈ outpoints (FinalTx.tx (InscriberInfo.final_commit_tx i1)) ∧
  change ∈ outpoints (FinalTx.tx (InscriberInfo.final_commit_tx i2)).
Proof using.
  intros H1 H2 Hq Hlen. apply inscribe_queue in H1 as (d1 & q1 & Hd1 & Hq1 & u1 & Ho1).
  apply inscribe_queue in H2 as (d2 & q2 & Hd2 & Hq2 & u2 & Ho2).
  pose proof (f_equal length Hd1) as L1. pose proof (f_equal length Hd2) as L2.
  rewrite Hq2, length_app in Hlen. rewrite Hq1, !length_app in L2. rewrite length_app in L1. cbn in *.
  assert (d1 = []) as -> by (apply nil_length_inv; lia).
  assert (d2 = []) as -> by (apply nil_length_inv; lia). cbn in Hd1, Hd2. subst q2.
  rewrite Hq1, <-Hd1, Hq in Ho2. rewrite <-Hd1, Hq in Ho1. cbv zeta. rewrite Ho1, Ho2.
  unfold spendable. rewrite !fmap_app. split; apply elem_of_app; right; cbn; left.
Qed.

Context `{!BitcoinLibLaws}.

(** The reveal transaction is parsed by [parse_message] on the fields written. *)
Lemma reveal_parse m recipient s info s' self height cpk :
  prepared m recipient s info s' →
  message_ok get_network m = true → MessageParser.network self = get_network →
  compressed_try_from (BitcoinSigner.get_public_key signer) = Some cpk →
  let tx := FinalTx.tx (InscriberInfo.final_reveal_tx info) in
  ∃ sig key,
    parse_transaction tx height self =
    match parse_message tx
      (PushBytes VIA_INSCRIPTION_PROTOCOL :: (item_instruction <$> message_fields m) ++ [Op OP_ENDIF])
      (CommonFields.mk sig (xonly_serialize key) height (compute_ntxid tx)
         (address_p2wpkh cpk get_network)) self with
    | Ret (inr message, self) => Ret ([message], self)
    | Ret (inl _, self) => Ret ([], self)
    | Panic => Panic
    end.
Proof using All.
  intros [_ _ _ _ _ _ _ _ (key & data & sig & tsig & cb & Hdata & Hcb & Hw) _] Hok Hnet Hpk. cbv zeta.
  set (tx := FinalTx.tx _) in *. exists tsig, key.
  destruct (BtcTransaction.input tx) as [|in0 [|in1 [|]]] eqn:Hin; cbn in Hw; simplify_eq.
  destruct (witness_p2wpkh_items sig (BitcoinSigner.get_public_key signer)) as (sb & pb & Hw0 & Hpkb).
  assert (Hsender : find_sender self [in0; in1] = Some (address_p2wpkh cpk get_network)).
  { unfold find_sender. cbn [foldl]. unfold parse_p2wpkh.
    replace (TxIn.witness in0) with [sb; pb] by congruence.
    replace (TxIn.witness in1) with [taproot_signature_to_vec tsig; inscription_script data; control_block_serialize cb] by congruence.
    cbn. rewrite Hpkb. cbn. rewrite Hpk. cbn. by rewrite Hnet. }
  unfold parse_transaction. rewrite Hin, Hsender. cbn [parse_inputs].
  rewrite parse_input_short by (unfold MIN_WITNESS_LENGTH; replace (TxIn.witness in0) with [sb; pb] by congruence; cbn; lia).
  cbn [mbind exec_bind]. unfold InscriptionData_new in Hdata.
  destruct (complete_inscription _ _ _) as [|[script size]] eqn:Hscript; [done|].
  destruct (construct_inscription_commitment_data _ _ _) as [|[pub spend]] eqn:Hcommit; [done|].
  unfold construct_inscription_commitment_data in Hcommit. destruct (taproot_finalize _ _) eqn:Hfin; [|done].
  simplify_eq. cbn [inscription_script taproot_spend_info] in *.
  rewrite (parse_input_inscription in1 tx height _ key m get_network script size tsig cb self);
    [|done|done|exact Hscript|by eapply control_block_key].
  by destruct (parse_message _ _ _ _) as [[[|] ?]|].
Qed.

(** C1 What the inscriber writes the indexer reads: the reveal transaction of a
    prepared message, other than a negative vote, parses to exactly that message,
    attributed to the signer's P2WPKH address and key. *)
Theorem reveal_transaction_parses m config recipient s info s' self height cpk :
  prepare_inscribe signer m config recipient s = Ret (inr info, s') →
  message_ok get_network m = true → is_not_ok_vote m = false →
  MessageParser.network self = get_network →
  compressed_try_from (BitcoinSigner.get_public_key signer) = Some cpk →
  let tx := FinalTx.tx (InscriberInfo.final_reveal_tx info) in
  ∃ sig key,
    parse_transaction tx height self =
    Ret ([full_message
            (CommonFields.mk sig (xonly_serialize key) height (compute_ntxid tx)
               (address_p2wpkh cpk get_network)) self tx m],
         after_message self m).
Proof using All.
  intros Hp Hok Hvote Hnet Hpk. apply prepare_inscribe_inv in Hp.
  destruct (reveal_parse _ _ _ _ _ self height cpk Hp) as (sig & key & Hparse); [done..|].
  exists sig, key. cbv zeta in *. rewrite Hparse, parse_message_roundtrip by (by rewrite ?Hnet). done.
Qed.

(** A negative vote is lost: the reveal transaction of an attestation with
    [Vote::NotOk] parses to no message at all. *)
Theorem not_ok_vote_lost m config recipient s info s' self height cpk :
  prepare_inscribe signer m config recipient s = Ret (inr info, s') →
  message_ok get_network m = true → is_not_ok_vote m = true →
  MessageParser.network self = get_network →
  compressed_try_from (BitcoinSigner.get_public_key signer) = Some cpk →
  parse_transaction (FinalTx.tx (InscriberInfo.final_reveal_tx info)) height self = Ret ([], self).
Proof using All.
  intros Hp Hok Hvote Hnet Hpk. apply prepare_inscribe_inv in Hp.
  destruct (reveal_parse _ _ _ _ _ self height cpk Hp) as (sig & key & Hparse); [done..|].
  cbv zeta in Hparse. rewrite Hparse, parse_message_not_ok by (by rewrite ?Hnet). done.
Qed.
End facts.

(** ** Witnesses: a node that confirms nothing and a toy signer *)
Module InscriberWitness.
#[export] Instance node : BitcoinOps () := {
  BtcClient.get_balance _ := mret 0;
  BtcClient.broadcast_signed_transaction _ := mret 1;
  BtcClient.fetch_utxos _ := mret [(OutPoint.mk 77 3, TxOut.mk 1000000 [x51])];
  BtcClient.check_tx_confirmation txid _ := if decide (txid = 99) then fail Rpc else mret false;
  BtcClient.fetch_block_height := mret 0;
  BtcClient.get_fee_rate _ := mret 2;
  BtcClient.get_network := Regtest;
  BtcClient.fetch_block _ := fail Rpc;
  BtcClient.get_transaction _ := fail Rpc;
  BtcClient.fetch_block_by_hash _ := fail Rpc;
}.

Definition signer : BitcoinSigner.t :=
  BitcoinSigner.mk (λ m, inr (m + 1)) (λ m, inr (m + 2)) (inr 27) [x51] (inr 5) 6.

Definition attestation (v : Vote) : InscriptionMessage.t :=
  InscriptionMessage.ValidatorAttestation (ValidatorAttestationInput.mk 12345 v).
Definition pay : option Recipient.t := Some (Recipient.mk 31 5000).

Definition start : @state () := mk_state InscriberContext.new ().
Definition run {A} (m : prog (@state ()) AnyhowError A) (s : @state ()) (d : A) : A * @state () :=
  match m s with Ret (inr a, s') => (a, s') | Ret (inl _, s') => (d, s') | Panic => (d, s) end.

Definition no_tx : BtcTransaction.t := BtcTransaction.mk 0 0 [] [].
Definition no_info : InscriberInfo.t :=
  InscriberInfo.mk (FinalTx.mk no_tx 0) (FinalTx.mk no_tx 0)
    (CommitTxOutputRes.mk (TxOut.mk 0 []) (TxOut.mk 0 []) 0 0)
    (RevealTxOutputRes.mk (TxOut.mk 0 []) None 0 0) (CommitTxInputRes.mk [] 0 0 []).

Definition inscribe_ok (v : Vote) (s : @state ()) : InscriberInfo.t * @state () :=
  run (inscribe signer (attestation v) InscriptionConfig.default) s no_info.
Definition prepare_ok (v : Vote) : InscriberInfo.t * @state () :=
  run (prepare_inscribe signer (attestation v) InscriptionConfig.default pay) start no_info.

Definition first := inscribe_ok VoteOk start.
Definition second := inscribe_ok VoteOk first.2.
Definition third := inscribe_ok VoteNotOk second.2.

Definition stuck_request : InscriptionRequest.t :=
  InscriptionRequest.mk (attestation VoteOk) (InscriberOutput.mk 1 [] 0 99 [] 0 true)
    (FeePayerCtx.mk 99 0 10) (CommitTxInput.mk []).

(** An entry whose confirmation cannot be looked up. *)
Lemma sync_context_spec_witness :
  ∃ done_ lost, [stuck_request] = done_ ++ lost :: [] ∧
    ∃ w be, confirmed done_ () w ∧ AnyhowBitcoin Rpc = AnyhowBitcoin be ∧
    confirmation_call lost w = Ret (inl be, ()).
Proof.
  apply (sync_context_spec (mk_state (InscriberContext.mk [stuck_request]) ())
    (inl (AnyhowBitcoin Rpc)) (mk_state (InscriberContext.mk []) ())).
  reflexivity.
Defined.

(** One coin of 1000000, listed by the node. *)
Lemma inscription_conserves_value_witness :
  1000000 = sum_values (TxOut.value <$> BtcTransaction.output
    (FinalTx.tx (InscriberInfo.final_commit_tx (prepare_ok VoteOk).1))) + 314.
Proof.
  destruct (inscription_conserves_value signer (attestation VoteOk) InscriptionConfig.default pay
    start (prepare_ok VoteOk).1 (prepare_ok VoteOk).2) as (s1 & utxos & Hs & (a & w & Ha & Hf) & _ & Hc & _); [vm_compute; reflexivity|].
  vm_compute in Hs. injection Hs as <-. cbn in Ha, Hf. injection Ha as <-. injection Hf as <- _.
  destruct Hc as (_ & Hv & _); [by apply NoDup_singleton|exact Hv].
Defined.

Lemma commit_inputs_not_pending_witness :
  (OutPoint.mk 77 3 ∉ spent_utxos (queue (prepare_ok VoteOk).2)) ∨
  OutPoint.mk 77 3 ∈ fst <$> head_change signer (queue (prepare_ok VoteOk).2).
Proof.
  apply (commit_inputs_not_pending signer (attestation VoteOk) InscriptionConfig.default pay
    start (prepare_ok VoteOk).1 (prepare_ok VoteOk).2); [vm_compute; reflexivity|].
  vm_compute. left.
Defined.

Lemma pending_head_spent_twice_witness :
  ∃ o, o ∈ outpoints (FinalTx.tx (InscriberInfo.final_commit_tx second.1)) ∧
       o ∈ outpoints (FinalTx.tx (InscriberInfo.final_commit_tx third.1)).
Proof.
  assert (H1 : inscribe signer (attestation VoteOk) InscriptionConfig.default first.2 =
    Ret (inr second.1, second.2)) by (vm_compute; reflexivity).
  assert (H2 : inscribe signer (attestation VoteNotOk) InscriptionConfig.default second.2 =
    Ret (inr third.1, third.2)) by (vm_compute; reflexivity).
  assert (Hq : queue first.2 = [context_request (attestation VoteOk) first.1])
    by (vm_compute; reflexivity).
  assert (Hl : length (queue third.2) = (length (queue first.2) + 2)%nat) by (vm_compute; reflexivity).
  destruct (pending_head_spent_twice signer _ _ _ _ _ _ _ _ _ _ _ H1 H2 Hq Hl) as [Ha Hb].
  eexists. split; [exact Ha|exact Hb].
Defined.

Lemma reveal_transaction_parses_witness :
  let tx := FinalTx.tx (InscriberInfo.final_reveal_tx (prepare_ok VoteOk).1) in
  ∃ sig key,
    parse_transaction tx 100 (MessageParser.new Regtest) =
    Ret ([full_message (CommonFields.mk sig (xonly_serialize key) 100 (compute_ntxid tx) (address_p2wpkh 6 Regtest))
            (MessageParser.new Regtest) tx (attestation VoteOk)], MessageParser.new Regtest).
Proof.
  pose proof (@reveal_transaction_parses _ _ node signer _ (attestation VoteOk)
    InscriptionConfig.default pay start (prepare_ok VoteOk).1 (prepare_ok VoteOk).2
    (MessageParser.new Regtest) 100 6) as Hp.
  apply Hp; vm_compute; reflexivity.
Defined.

Lemma not_ok_vote_lost_witness :
  parse_transaction (FinalTx.tx (InscriberInfo.final_reveal_tx (prepare_ok VoteNotOk).1)) 100
    (MessageParser.new Regtest) = Ret ([], MessageParser.new Regtest).
Proof.
  apply (@not_ok_vote_lost _ _ node signer _ (attestation VoteNotOk) InscriptionConfig.default pay
    start (prepare_ok VoteNotOk).1 (prepare_ok VoteNotOk).2 (MessageParser.new Regtest) 100 6);
    vm_compute; reflexivity.
Defined.
End InscriberWitness.
