(* ===== verification/Indexer.v ===== *)
(** * The indexer ([via_btc_client/src/indexer/mod.rs])

    [BitcoinInscriptionIndexer] is bootstrapped from given transactions (the
    verifiers propose and vote a sequencer) and then reads the messages of
    blocks. A [HashMap<Address, Vote>] is a [gmap]; a method is a [prog] over the
    indexer and the world of its client. *)
From S2P Require Import Prelude Types BtcTypes BitcoinToy ScriptBuilder Parser BtcClient.
Local Open Scope Z_scope.

Module BootstrapState.
Record t := mk {
  verifier_addresses : list BitcoinAddress;
  proposed_sequencer : option BitcoinAddress;
  proposed_sequencer_txid : option Txid;
  sequencer_votes : gmap BitcoinAddress Vote;
  bridge_address : option BitcoinAddress;
  starting_block_number : Z;
  bootloader_hash : option H256;
  abstract_account_hash : option H256;
}.

Definition new : t := mk [] None None ∅ None 0 None None.

Definition has_majority_votes (self : t) : bool :=
  let total_votes := size (sequencer_votes self) in
  let positive_votes := size (filter (λ kv, kv.2 = VoteOk) (sequencer_votes self)) in
  bool_decide (total_votes < positive_votes * 2)%nat
  && bool_decide (total_votes = length (verifier_addresses self)).

Definition is_complete (self : t) : bool :=
  negb (bool_decide (verifier_addresses self = []))
  && bool_decide (is_Some (proposed_sequencer self))
  && bool_decide (is_Some (bridge_address self))
  && bool_decide (0 < starting_block_number self)
  && has_majority_votes self
  && bool_decide (is_Some (bootloader_hash self))
  && bool_decide (is_Some (abstract_account_hash self)).
End BootstrapState.

Module IndexerState.
Record t := mk {
  parser : MessageParser.t;
  bridge_address : BitcoinAddress;
  sequencer_address : BitcoinAddress;
  verifier_addresses : list BitcoinAddress;
  starting_block_number : Z;
}.
End IndexerState.

(** [create_indexer]; the inner [else] cannot be reached, as [is_complete] asks
    for both addresses. *)
Definition create_indexer (bootstrap_state : BootstrapState.t) (parser : MessageParser.t)
    : IndexerError + IndexerState.t :=
  if BootstrapState.is_complete bootstrap_state then
    match BootstrapState.bridge_address bootstrap_state,
          BootstrapState.proposed_sequencer bootstrap_state with
    | Some bridge, Some sequencer =>
        inr {| IndexerState.parser := parser;
               IndexerState.bridge_address := bridge;
               IndexerState.sequencer_address := sequencer;
               IndexerState.verifier_addresses := BootstrapState.verifier_addresses bootstrap_state;
               IndexerState.starting_block_number :=
                 BootstrapState.starting_block_number bootstrap_state |}
    | _, _ =>
        inl (IncompleteBootstrap
          "Incomplete bootstrap process despite state being marked as complete")
    end
  else inl (IncompleteBootstrap "Bootstrap process did not complete with provided transactions").

Section indexer.
Context `{BitcoinLib}.

(** [process_bootstrap_message]; [unwrap]s panic. *)
Definition process_bootstrap_message (state : BootstrapState.t) (message : FullInscriptionMessage.t)
    (txid : Txid) (network : Network) : exec BootstrapState.t :=
  match message with
  | FullInscriptionMessage.SystemBootstrapping _ input =>
      verifier_addresses ← foldM (λ acc addr,
          a ← expect (require_network addr network); Ret (acc ++ [a]))
        [] (SystemBootstrappingInput.verifier_p2wpkh_addresses input);
      bridge_address ←
        expect (require_network (SystemBootstrappingInput.bridge_p2wpkh_mpc_address input) network);
      Ret {| BootstrapState.verifier_addresses := verifier_addresses;
             BootstrapState.proposed_sequencer := BootstrapState.proposed_sequencer state;
             BootstrapState.proposed_sequencer_txid := BootstrapState.proposed_sequencer_txid state;
             BootstrapState.sequencer_votes := BootstrapState.sequencer_votes state;
             BootstrapState.bridge_address := Some bridge_address;
             BootstrapState.starting_block_number := SystemBootstrappingInput.start_block_height input;
             BootstrapState.bootloader_hash := Some (SystemBootstrappingInput.bootloader_hash input);
             BootstrapState.abstract_account_hash :=
               Some (SystemBootstrappingInput.abstract_account_hash input) |}
  | FullInscriptionMessage.ProposeSequencer common input =>
      if decide (CommonFields.p2wpkh_address common ∈ BootstrapState.verifier_addresses state) then
        sequencer_address ←
          expect (require_network (ProposeSequencerInput.sequencer_new_p2wpkh_address input) network);
        Ret {| BootstrapState.verifier_addresses := BootstrapState.verifier_addresses state;
               BootstrapState.proposed_sequencer := Some sequencer_address;
               BootstrapState.proposed_sequencer_txid := Some txid;
               BootstrapState.sequencer_votes := BootstrapState.sequencer_votes state;
               BootstrapState.bridge_address := BootstrapState.bridge_address state;
               BootstrapState.starting_block_number := BootstrapState.starting_block_number state;
               BootstrapState.bootloader_hash := BootstrapState.bootloader_hash state;
               BootstrapState.abstract_account_hash := BootstrapState.abstract_account_hash state |}
      else Ret state
  | FullInscriptionMessage.ValidatorAttestation common input =>
      if decide (CommonFields.p2wpkh_address common ∈ BootstrapState.verifier_addresses state ∧
                 is_Some (BootstrapState.proposed_sequencer state)) then
        match BootstrapState.proposed_sequencer_txid state with
        | Some proposed_txid =>
            if decide (ValidatorAttestationInput.reference_txid input = proposed_txid) then
              Ret {| BootstrapState.verifier_addresses := BootstrapState.verifier_addresses state;
                     BootstrapState.proposed_sequencer := BootstrapState.proposed_sequencer state;
                     BootstrapState.proposed_sequencer_txid :=
                       BootstrapState.proposed_sequencer_txid state;
                     BootstrapState.sequencer_votes :=
                       <[CommonFields.p2wpkh_address common :=
                           ValidatorAttestationInput.attestation input]>
                         (BootstrapState.sequencer_votes state);
                     BootstrapState.bridge_address := BootstrapState.bridge_address state;
                     BootstrapState.starting_block_number :=
                       BootstrapState.starting_block_number state;
                     BootstrapState.bootloader_hash := BootstrapState.bootloader_hash state;
                     BootstrapState.abstract_account_hash :=
                       BootstrapState.abstract_account_hash state |}
            else Ret state
        | None => Ret state
        end
      else Ret state
  | _ => Ret state
  end.

(** [is_valid_l1_to_l2_transfer], [is_valid_message]: no caller. *)
Definition is_valid_l1_to_l2_transfer (self : IndexerState.t) (tx_outputs : list TxOut.t) : bool :=
  existsb (λ output, bool_decide
    (TxOut.script_pubkey output = address_script_pubkey (IndexerState.bridge_address self))) tx_outputs.

Definition is_valid_message (self : IndexerState.t) (message : FullInscriptionMessage.t) : bool :=
  match message with
  | FullInscriptionMessage.ProposeSequencer common _ =>
      bool_decide (CommonFields.p2wpkh_address common ∈ IndexerState.verifier_addresses self)
  | FullInscriptionMessage.ValidatorAttestation common _ =>
      bool_decide (CommonFields.p2wpkh_address common ∈ IndexerState.verifier_addresses self)
  | FullInscriptionMessage.L1BatchDAReference common _ =>
      bool_decide (CommonFields.p2wpkh_address common = IndexerState.sequencer_address self)
  | FullInscriptionMessage.ProofDAReference common _ =>
      bool_decide (CommonFields.p2wpkh_address common = IndexerState.sequencer_address self)
  | FullInscriptionMessage.L1ToL2Message _ amount _ tx_outputs =>
      bool_decide (0 < amount) && is_valid_l1_to_l2_transfer self tx_outputs
  | FullInscriptionMessage.SystemBootstrapping _ _ => true
  end.

(** [flat_map(|tx| self.parser.parse_transaction(tx, block_height))]. *)
Fixpoint parse_transactions (txs : list BtcTransaction.t) (block_height : Z) (parser : MessageParser.t)
    : exec (list FullInscriptionMessage.t * MessageParser.t) :=
  match txs with
  | [] => Ret ([], parser)
  | tx :: txs =>
      '(messages, parser) ← parse_transaction tx block_height parser;
      '(rest, parser) ← parse_transactions txs block_height parser;
      Ret (messages ++ rest, parser)
  end.

Context {W : Type} `{BitcoinOps W}.

(** The transactions of [new]'s loop over [bootstrap_txids]. *)
Fixpoint bootstrap_loop (bootstrap_txids : list Txid) (network : Network)
    (parser : MessageParser.t) (bootstrap_state : BootstrapState.t)
    : prog W IndexerError (BootstrapState.t * MessageParser.t) := λ w,
  match bootstrap_txids with
  | [] => Ret (inr (bootstrap_state, parser), w)
  | txid :: bootstrap_txids =>
      '(r, w) ← get_transaction txid w;
      match r with
      | inl e => Ret (inl (BitcoinClientError e), w)
      | inr tx =>
          '(messages, parser) ← parse_transaction tx 0 parser;
          bootstrap_state ← foldM (λ state message,
              process_bootstrap_message state message txid network) bootstrap_state messages;
          if BootstrapState.is_complete bootstrap_state
          then Ret (inr (bootstrap_state, parser), w)
          else bootstrap_loop bootstrap_txids network parser bootstrap_state w
      end
  end.

(** [new], with the client already made. *)
Definition new (network : Network) (bootstrap_txids : list Txid) : prog W IndexerError IndexerState.t :=
  '(bootstrap_state, parser) ←
    bootstrap_loop bootstrap_txids network (MessageParser.new network) BootstrapState.new;
  of_result (create_indexer bootstrap_state parser).

(** [self.client.op(..).await?]. *)
Definition client_op {A} (op : prog W BitcoinError A) : prog (IndexerState.t * W) IndexerError A :=
  λ '(self, w),
  '(r, w) ← op w;
  Ret (match r with inl e => inl (BitcoinClientError e) | inr a => inr a end, (self, w)).

Definition set_parser (self : IndexerState.t) (parser : MessageParser.t) : IndexerState.t :=
  IndexerState.mk parser (IndexerState.bridge_address self) (IndexerState.sequencer_address self)
    (IndexerState.verifier_addresses self) (IndexerState.starting_block_number self).

(** The filter with [is_valid_message] is commented out in the source. *)
Definition process_block (block_height : Z)
    : prog (IndexerState.t * W) IndexerError (list FullInscriptionMessage.t) :=
  s ← get;
  if decide (block_height < IndexerState.starting_block_number s.1) then
    fail (InvalidBlockHeight block_height)
  else
    block ← client_op (fetch_block block_height);
    s ← get;
    '(messages, parser) ←
      lift_exec (parse_transactions (BtcBlock.txdata block) block_height (IndexerState.parser s.1));
    _ ← put (set_parser s.1 parser, s.2);
    mret messages.

(** [for block in starting_block..=ending_block]. *)
Definition process_blocks (starting_block ending_block : Z)
    : prog (IndexerState.t * W) IndexerError (list FullInscriptionMessage.t) :=
  foldP (λ res block,
    messages ← process_block block;
    mret (res ++ messages)) [] (seqZ starting_block (ending_block - starting_block + 1)).

Definition are_blocks_connected (parent_hash child_hash : BlockHash)
    : prog (IndexerState.t * W) IndexerError bool :=
  child_block ← client_op (fetch_block_by_hash child_hash);
  mret (bool_decide (BtcBlock.prev_blockhash child_block = parent_hash)).

Definition fetch_height : prog (IndexerState.t * W) IndexerError Z := client_op fetch_block_height.

Definition get_state (self : IndexerState.t)
    : BitcoinAddress * BitcoinAddress * list BitcoinAddress * Z :=
  (IndexerState.bridge_address self, IndexerState.sequencer_address self,
   IndexerState.verifier_addresses self, IndexerState.starting_block_number self).
End indexer.

(** ** Blocks in ranges *)
Section blocks.
Context `{BitcoinLib} {W : Type} `{BitcoinOps W}.

(** Processing a range of blocks in two parts gives the messages of both in
    order, and the same indexer, world and error, as processing it at once. *)
Theorem process_blocks_split (a b c : Z) (s : IndexerState.t * W) :
  a ≤ b + 1 → b ≤ c →
  process_blocks a c s =
  (m1 ← process_blocks a b; m2 ← process_blocks (b + 1) c; mret (m1 ++ m2)) s.
Proof using.
  intros Hab Hbc. unfold process_blocks.
  replace (c - a + 1) with ((b - a + 1) + (c - (b + 1) + 1)) by lia.
  rewrite seqZ_app by lia. replace (a + (b - a + 1)) with (b + 1) by lia.
  rewrite foldP_app. apply prog_bind_ext. intros m1 s1. apply foldP_acc.
Qed.
End blocks.

(** ** The bootstrap vote *)
Section bootstrap.
Context `{BitcoinLib}.

(** A sequence of messages with the transactions they came in. *)
Definition bootstrap_run (network : Network) (events : list (FullInscriptionMessage.t * Txid))
    : exec BootstrapState.t :=
  foldM (λ state e, process_bootstrap_message state e.1 e.2 network) BootstrapState.new events.

(** Every bootstrapping message of the run names the verifiers [vs]. *)
Definition names_verifiers (vs : list BitcoinAddress) (e : FullInscriptionMessage.t * Txid) : Prop :=
  match e.1 with
  | FullInscriptionMessage.SystemBootstrapping _ input =>
      SystemBootstrappingInput.verifier_p2wpkh_addresses input = vs
  | _ => True
  end.

Lemma require_network_same a network b : require_network a network = Some b → b = a.
Proof using. unfold require_network. case_match; [|done]. by intros [= <-]. Qed.

Lemma checked_verifiers network l acc vs :
  foldM (λ acc addr, a ← expect (require_network addr network); Ret (acc ++ [a])) acc l = Ret vs →
  vs = acc ++ l.
Proof using.
  revert acc. induction l as [|a l IH]; intros acc Hf; cbn [foldM] in Hf.
  { injection Hf as <-. by rewrite app_nil_r. }
  apply bind_Ret_inv in Hf as (acc1 & Hc & Hf). apply bind_Ret_inv in Hc as (a' & Ha & [= <-]).
  apply expect_Ret_inv, require_network_same in Ha as ->. apply IH in Hf as ->. by rewrite <-app_assoc.
Qed.

(** *** What the messages say

    [evs] are messages in order. The verifiers at a point are those of the last
    bootstrapping message before it; a proposal counts if it is made by one of them, and
    a vote if it is one of theirs for the proposal in force, the last that counts. The
    vote of an address is its last that counts. *)
Definition last_of {A} (P : nat → A → Prop) (k : nat) (x : A) : Prop :=
  ∃ j, (j < k)%nat ∧ P j x ∧ ∀ j' x', (j < j' < k)%nat → ¬ P j' x'.

Section says.
Context (evs : list (FullInscriptionMessage.t * Txid)).

Definition bootstraps (k : nat) (input : SystemBootstrappingInput.t) : Prop :=
  ∃ c txid, evs !! k = Some (FullInscriptionMessage.SystemBootstrapping c input, txid).

Definition verifier_at (k : nat) (a : BitcoinAddress) : Prop :=
  ∃ input, last_of bootstraps k input ∧ a ∈ SystemBootstrappingInput.verifier_p2wpkh_addresses input.

Definition proposes (k : nat) (proposal : BitcoinAddress * Txid) : Prop :=
  ∃ c, evs !! k = Some (FullInscriptionMessage.ProposeSequencer c (ProposeSequencerInput.mk proposal.1), proposal.2) ∧
    verifier_at k (CommonFields.p2wpkh_address c).

Definition in_force : nat → BitcoinAddress * Txid → Prop := last_of proposes.

Definition votes (a : BitcoinAddress) (k : nat) (vote : Vote) : Prop :=
  ∃ c reference txid sequencer,
    evs !! k = Some (FullInscriptionMessage.ValidatorAttestation c (ValidatorAttestationInput.mk reference vote), txid) ∧
    CommonFields.p2wpkh_address c = a ∧ verifier_at k a ∧ in_force k (sequencer, reference).

Definition voted (a : BitcoinAddress) : nat → Vote → Prop := last_of (votes a).

Lemma last_of_here {A} (P : nat → A → Prop) k x :
  P k x → (∀ y, P k y → y = x) → ∀ y, last_of P (S k) y ↔ y = x.
Proof using.
  intros HP Hu y. split.
  - intros (j & Hj & Hy & Hn). destruct (decide (j = k)) as [->|]; [by apply Hu|]. destruct (Hn k x); [lia|done].
  - intros ->. exists k. split_and!; [lia|done|]. intros. lia.
Qed.

Lemma last_of_skip {A} (P : nat → A → Prop) k :
  (∀ y, ¬ P k y) → ∀ y, last_of P (S k) y ↔ last_of P k y.
Proof using.
  intros Hk y. split; intros (j & Hj & Hy & Hn).
  - destruct (decide (j = k)) as [->|]; [by destruct (Hk y)|].
    exists j. split_and!; [lia|done|]. intros j' x' ?. apply Hn. lia.
  - exists j. split_and!; [lia|done|]. intros j' x' ?. destruct (decide (j' = k)) as [->|]; [apply Hk|apply Hn; lia].
Qed.

Lemma last_of_zero {A} (P : nat → A → Prop) y : ¬ last_of P 0 y.
Proof using. intros (j & Hj & _). lia. Qed.

(** The state after the first [k] messages. *)
Record bootstrap_inv (k : nat) (st : BootstrapState.t) : Prop := {
  inv_named input : last_of bootstraps k input →
    BootstrapState.verifier_addresses st = SystemBootstrappingInput.verifier_p2wpkh_addresses input ∧
    BootstrapState.bridge_address st = Some (SystemBootstrappingInput.bridge_p2wpkh_mpc_address input) ∧
    BootstrapState.starting_block_number st = SystemBootstrappingInput.start_block_height input;
  inv_unnamed : BootstrapState.bridge_address st = None ∧ BootstrapState.verifier_addresses st = [] ∨
    ∃ input, last_of bootstraps k input;
  inv_proposal sequencer txid : in_force k (sequencer, txid) ↔
    BootstrapState.proposed_sequencer st = Some sequencer ∧ BootstrapState.proposed_sequencer_txid st = Some txid;
  inv_proposed : is_Some (BootstrapState.proposed_sequencer st) ↔ is_Some (BootstrapState.proposed_sequencer_txid st);
  inv_votes a vote : voted a k vote ↔ BootstrapState.sequencer_votes st !! a = Some vote;
}.

Lemma inv_verifiers k st a : bootstrap_inv k st → a ∈ BootstrapState.verifier_addresses st ↔ verifier_at k a.
Proof using.
  intros Hi. unfold verifier_at. split.
  - intros Ha. destruct (inv_unnamed _ _ Hi) as [[_ Hv]|[input Hin]].
    + rewrite Hv in Ha. by apply not_elem_of_nil in Ha.
    + exists input. split; [done|]. by destruct (inv_named _ _ Hi input Hin) as [<- _].
  - intros (input & Hin & Ha). by destruct (inv_named _ _ Hi input Hin) as [-> _].
Qed.

(** A message that does not count changes nothing. *)
Lemma inv_skip k st :
  bootstrap_inv k st → (∀ y, ¬ bootstraps k y) → (∀ y, ¬ proposes k y) → (∀ a y, ¬ votes a k y) →
  bootstrap_inv (S k) st.
Proof using.
  intros Hi Hb Hp Hv. split.
  - intros input Hin. apply (inv_named _ _ Hi). by rewrite <-(last_of_skip _ _ Hb).
  - destruct (inv_unnamed _ _ Hi) as [?|[input Hin]]; [by left|right]. exists input. by rewrite (last_of_skip _ _ Hb).
  - intros q t. unfold in_force. rewrite (last_of_skip _ _ Hp). apply (inv_proposal _ _ Hi).
  - apply (inv_proposed _ _ Hi).
  - intros a v. unfold voted. rewrite (last_of_skip _ _ (Hv a)). apply (inv_votes _ _ Hi).
Qed.

Ltac not_said := let He := fresh in
  intros; intros (? & He);
  repeat match goal with E : ∃ _, _ |- _ => destruct E as [? E] end;
  repeat match goal with E : _ ∧ _ |- _ => destruct E end; simplify_eq/=.

Lemma inv_bootstrap k st c input txid vs :
  bootstrap_inv k st → evs !! k = Some (FullInscriptionMessage.SystemBootstrapping c input, txid) →
  vs = SystemBootstrappingInput.verifier_p2wpkh_addresses input →
  bootstrap_inv (S k) (BootstrapState.mk vs (BootstrapState.proposed_sequencer st) (BootstrapState.proposed_sequencer_txid st)
    (BootstrapState.sequencer_votes st) (Some (SystemBootstrappingInput.bridge_p2wpkh_mpc_address input))
    (SystemBootstrappingInput.start_block_height input) (Some (SystemBootstrappingInput.bootloader_hash input))
    (Some (SystemBootstrappingInput.abstract_account_hash input))).
Proof using.
  intros Hi Hk ->.
  assert (Hl : ∀ y, last_of bootstraps (S k) y ↔ y = input).
  { apply last_of_here; [by exists c, txid|]. intros y (c' & t & He). by simplify_eq. }
  split; cbn.
  - by intros y ->%Hl.
  - right. exists input. by apply Hl.
  - intros q t. unfold in_force. rewrite last_of_skip by not_said. apply (inv_proposal _ _ Hi).
  - apply (inv_proposed _ _ Hi).
  - intros a v. unfold voted. rewrite last_of_skip by not_said. apply (inv_votes _ _ Hi).
Qed.

Lemma inv_propose k st c sequencer txid :
  bootstrap_inv k st → evs !! k = Some (FullInscriptionMessage.ProposeSequencer c (ProposeSequencerInput.mk sequencer), txid) →
  CommonFields.p2wpkh_address c ∈ BootstrapState.verifier_addresses st →
  bootstrap_inv (S k) (BootstrapState.mk (BootstrapState.verifier_addresses st) (Some sequencer) (Some txid)
    (BootstrapState.sequencer_votes st) (BootstrapState.bridge_address st) (BootstrapState.starting_block_number st)
    (BootstrapState.bootloader_hash st) (BootstrapState.abstract_account_hash st)).
Proof using.
  intros Hi Hk Hc. rewrite (inv_verifiers k st _ Hi) in Hc.
  assert (Hl : ∀ y, in_force (S k) y ↔ y = (sequencer, txid)).
  { apply last_of_here; [by exists c|]. intros [q t] (c' & He & _). by simplify_eq/=. }
  assert (Hb : ∀ y, ¬ bootstraps k y) by not_said.
  split; cbn.
  - intros y Hy. apply (inv_named _ _ Hi). by rewrite <-(last_of_skip _ _ Hb).
  - destruct (inv_unnamed _ _ Hi) as [?|[input Hin]]; [by left|right]. exists input. by rewrite (last_of_skip _ _ Hb).
  - intros q t. rewrite Hl. split; [by intros [= -> ->]|by intros [[= ->] [= ->]]].
  - split; intros _; by eexists.
  - intros a v. unfold voted. rewrite last_of_skip by not_said. apply (inv_votes _ _ Hi).
Qed.

Lemma inv_attest k st c vote reference txid sequencer :
  bootstrap_inv k st →
  evs !! k = Some (FullInscriptionMessage.ValidatorAttestation c (ValidatorAttestationInput.mk reference vote), txid) →
  CommonFields.p2wpkh_address c ∈ BootstrapState.verifier_addresses st →
  BootstrapState.proposed_sequencer st = Some sequencer → BootstrapState.proposed_sequencer_txid st = Some reference →
  bootstrap_inv (S k) (BootstrapState.mk (BootstrapState.verifier_addresses st) (BootstrapState.proposed_sequencer st)
    (BootstrapState.proposed_sequencer_txid st) (<[CommonFields.p2wpkh_address c := vote]> (BootstrapState.sequencer_votes st))
    (BootstrapState.bridge_address st) (BootstrapState.starting_block_number st)
    (BootstrapState.bootloader_hash st) (BootstrapState.abstract_account_hash st)).
Proof using.
  intros Hi Hk Hc Hs Ht. rewrite (inv_verifiers k st _ Hi) in Hc.
  assert (Hb : ∀ y, ¬ bootstraps k y) by not_said.
  assert (Hp : ∀ y, ¬ proposes k y) by not_said.
  split; cbn.
  - intros y Hy. apply (inv_named _ _ Hi). by rewrite <-(last_of_skip _ _ Hb).
  - destruct (inv_unnamed _ _ Hi) as [?|[input Hin]]; [by left|right]. exists input. by rewrite (last_of_skip _ _ Hb).
  - intros q t. unfold in_force. rewrite (last_of_skip _ _ Hp). apply (inv_proposal _ _ Hi).
  - apply (inv_proposed _ _ Hi).
  - intros a v. destruct (decide (CommonFields.p2wpkh_address c = a)) as [<-|Hne].
    + rewrite lookup_insert_eq. unfold voted. rewrite (last_of_here _ _ vote); [naive_solver| |].
      * exists c, reference, txid, sequencer. split_and!; [done..|]. by apply (inv_proposal _ _ Hi).
      * intros y (c' & r & t & q & He & _). by simplify_eq.
    + rewrite lookup_insert_ne by done. unfold voted. rewrite last_of_skip; [apply (inv_votes _ _ Hi)|].
      intros y (c' & r & t & q & He & Ha & _). by simplify_eq.
Qed.

Lemma bootstrap_inv_step k st m txid network st' :
  bootstrap_inv k st → evs !! k = Some (m, txid) →
  process_bootstrap_message st m txid network = Ret st' → bootstrap_inv (S k) st'.
Proof using.
  intros Hi Hk Hp. pose proof (λ a, inv_verifiers k st a Hi) as Hver.
  destruct m as [c i|c i|c i|c i|c i|c am i o]; cbn in Hp.
  1,2,6: injection Hp as <-; apply inv_skip; [done|not_said..].
  - destruct i as [reference vote]. cbn in Hp. case_decide as Hc.
    + destruct Hc as [Hc [sequencer Hs]]. destruct (BootstrapState.proposed_sequencer_txid st) as [proposed|] eqn:Ht.
      * case_decide as Hr.
        -- subst. injection Hp as <-. rewrite <-Ht. by apply (inv_attest k st c vote proposed txid sequencer).
        -- injection Hp as <-. apply inv_skip; [done|not_said|not_said|].
           intros a y (c' & r & t & q & He & _ & _ & Hf). simplify_eq. apply (inv_proposal _ _ Hi) in Hf as [_ Hf]. congruence.
      * assert (is_Some (BootstrapState.proposed_sequencer_txid st)) as [? ?]; [|congruence]. apply (inv_proposed _ _ Hi). by eexists.
    + injection Hp as <-. apply inv_skip; [done|not_said|not_said|].
      intros a y (c' & r & t & q & He & <- & Ha & Hf). simplify_eq. apply (inv_proposal _ _ Hi) in Hf as [Hf _].
      apply Hc. split; [by apply Hver|by eexists].
  - inv_exec. subst. match goal with Hf : foldM _ _ _ = _ |- _ => apply checked_verifiers in Hf as -> end.
    match goal with Hf : require_network _ _ = Some _ |- _ => apply require_network_same in Hf as -> end.
    by apply (inv_bootstrap k st c i txid).
  - destruct i as [sequencer]. case_decide as Hc.
    + inv_exec. subst. match goal with Hf : require_network _ _ = Some _ |- _ => apply require_network_same in Hf as -> end.
      by apply (inv_propose k st c sequencer txid).
    + injection Hp as <-. apply inv_skip; [done|not_said| |not_said].
      intros y (c' & He & Ha). simplify_eq. by apply Hc, Hver.
Qed.

Lemma bootstrap_run_inv network st : bootstrap_run network evs = Ret st → bootstrap_inv (length evs) st.
Proof using.
  unfold bootstrap_run.
  enough (Hg : ∀ k l st0, evs = take k evs ++ l → (k ≤ length evs)%nat → bootstrap_inv k st0 →
    foldM (λ state e, process_bootstrap_message state e.1 e.2 network) st0 l = Ret st → bootstrap_inv (length evs) st).
  { intros Hr. apply (Hg 0%nat evs BootstrapState.new); [done|lia| |done].
    split; cbn; [by intros ? ?%last_of_zero|by left| | |].
    - intros q t. split; [by intros ?%last_of_zero|by intros [? _]].
    - done.
    - intros a v. rewrite lookup_empty. split; [by intros ?%last_of_zero|done]. }
  intros k l. revert k. induction l as [|[m txid] l IH]; intros k st0 He Hk Hi Hf; cbn in Hf.
  - simplify_eq. rewrite app_nil_r in He. assert (length evs = k) as ->; [|done].
    apply (f_equal length) in He. rewrite length_take in He. lia.
  - apply bind_Ret_inv in Hf as (st1 & Hp & Hf).
    assert (Hm : evs !! k = Some (m, txid)).
    { rewrite He, lookup_app_r; rewrite length_take, Nat.min_l by lia; [|lia]. by rewrite Nat.sub_diag. }
    apply (IH (S k) st1); [|apply lookup_lt_Some in Hm; lia|by eapply bootstrap_inv_step|done].
    rewrite (take_S_r _ _ _ Hm), <-app_assoc. done.
Qed.
End says.

(** As many distinct votes as there are verifiers, all of them verifiers':
    everybody voted once. *)
Lemma votes_cover (vs : list BitcoinAddress) (votes : gmap BitcoinAddress Vote) :
  (∀ a, a ∈ dom votes → a ∈ vs) → size votes = length vs →
  NoDup vs ∧ dom votes = list_to_set vs.
Proof using.
  intros Hsub Hsize.
  assert (Hd : dom votes ⊆ list_to_set vs).
  { intros a Ha. apply elem_of_list_to_set. by apply Hsub. }
  assert (Hle : (size (list_to_set vs : gset BitcoinAddress) ≤ length vs)%nat) by apply size_list_to_set_le.
  rewrite <-size_dom in Hsize.
  assert (Heq : dom votes = list_to_set vs).
  { apply set_subseteq_size_eq; [done|]. lia. }
  split; [|done]. apply size_list_to_set_NoDup. rewrite <-Heq. lia.
Qed.

Lemma is_complete_inv st :
  BootstrapState.is_complete st = true →
  BootstrapState.verifier_addresses st ≠ [] ∧
  size (BootstrapState.sequencer_votes st) = length (BootstrapState.verifier_addresses st) ∧
  (length (BootstrapState.verifier_addresses st) <
     size (filter (λ kv, kv.2 = VoteOk) (BootstrapState.sequencer_votes st)) * 2)%nat.
Proof using.
  unfold BootstrapState.is_complete, BootstrapState.has_majority_votes. intros Hc. split_andb.
  repeat match goal with Hb : bool_decide _ = true |- _ => apply bool_decide_eq_true_1 in Hb end.
  match goal with Hb : negb _ = true |- _ => apply negb_true_iff, bool_decide_eq_false in Hb end.
  split_and!; [done|done|lia].
Qed.

Context {W : Type} `{BitcoinOps W}.

(** The messages of transactions, as the node gives them and the parser reads them. *)
Inductive transactions_read :
    list Txid → MessageParser.t → W → list (FullInscriptionMessage.t * Txid) → MessageParser.t → W → Prop :=
| read_none parser w : transactions_read [] parser w [] parser w
| read_some txid txids parser w tx w1 messages parser1 evs parser2 w2 :
    get_transaction txid w = Ret (inr tx, w1) → parse_transaction tx 0 parser = Ret (messages, parser1) →
    transactions_read txids parser1 w1 evs parser2 w2 →
    transactions_read (txid :: txids) parser w (((λ m, (m, txid)) <$> messages) ++ evs) parser2 w2.

Lemma bootstrap_loop_run txids network parser st (w : W) st' parser' w' :
  bootstrap_loop txids network parser st w = Ret (inr (st', parser'), w') →
  ∃ n evs, transactions_read (take n txids) parser w evs parser' w' ∧
    foldM (λ state e, process_bootstrap_message state e.1 e.2 network) st evs = Ret st'.
Proof using.
  revert parser st w. induction txids as [|txid txids IH]; intros parser st w Hl; cbn [bootstrap_loop] in Hl.
  { simplify_eq. exists 0%nat, []. split; [constructor|done]. }
  apply bind_Ret_inv in Hl as ([r w1] & Hg & Hl). destruct r as [e|tx]; [done|].
  apply bind_Ret_inv in Hl as ([messages parser1] & Hpt & Hl).
  apply bind_Ret_inv in Hl as (st1 & Hm & Hl).
  assert (He : foldM (λ state e, process_bootstrap_message state e.1 e.2 network) st
    ((λ m, (m, txid)) <$> messages) = Ret st1).
  { clear -Hm. revert st Hm. induction messages as [|m ms IHm]; intros st Hm; cbn in *; [done|].
    destruct (process_bootstrap_message st m txid network); cbn in *; [|done]. by apply IHm. }
  destruct (BootstrapState.is_complete st1).
  - simplify_eq. exists 1%nat, (((λ m, (m, txid)) <$> messages) ++ []). split; [|by rewrite app_nil_r].
    cbn. econstructor; [done..|]. rewrite take_0. constructor.
  - apply IH in Hl as (n & evs & Hr & Hev). exists (S n), (((λ m, (m, txid)) <$> messages) ++ evs).
    split; [by econstructor|]. by rewrite foldM_app, He.
Qed.

(** C32 An indexer is only made from a completed bootstrap. Its addresses are those that
    the messages of the transactions it has read, the first of those it was given, say:
    the bridge, the verifiers and the first block are those of the last bootstrapping
    message, the sequencer that of the proposal in force at the end. As many addresses
    have voted as there are verifiers, and the last vote of more than half of them is
    [Ok]. If all bootstrapping messages name the same verifiers, these are pairwise
    distinct and the voters are exactly they. *)
Theorem bootstrap_elects_by_majority network txids (w : W) idx w' :
  new network txids w = Ret (inr idx, w') →
  ∃ n evs input txid (voters oks : gset BitcoinAddress),
    transactions_read (take n txids) (MessageParser.new network) w evs (IndexerState.parser idx) w' ∧
    last_of (bootstraps evs) (length evs) input ∧
    IndexerState.bridge_address idx = SystemBootstrappingInput.bridge_p2wpkh_mpc_address input ∧
    IndexerState.verifier_addresses idx = SystemBootstrappingInput.verifier_p2wpkh_addresses input ∧
    IndexerState.starting_block_number idx = SystemBootstrappingInput.start_block_height input ∧
    in_force evs (length evs) (IndexerState.sequencer_address idx, txid) ∧
    (∀ a, a ∈ voters ↔ ∃ vote, voted evs a (length evs) vote) ∧
    (∀ a, a ∈ oks ↔ voted evs a (length evs) VoteOk) ∧
    size voters = length (IndexerState.verifier_addresses idx) ∧ (size voters < size oks * 2)%nat ∧
    ∀ vs, Forall (names_verifiers vs) evs →
      IndexerState.verifier_addresses idx = vs ∧ NoDup vs ∧ voters = list_to_set vs.
Proof using.
  unfold new. intros Hn. apply prog_bind_inr in Hn as ([st parser] & w1 & Hl & Hc).
  apply of_result_inr in Hc as [Hc ->]. apply bootstrap_loop_run in Hl as (n & evs & Hr & Hrun).
  pose proof (bootstrap_run_inv evs network st Hrun) as Hi.
  unfold create_indexer in Hc. destruct (BootstrapState.is_complete st) eqn:Hcomp; [|done].
  destruct (BootstrapState.bridge_address st) as [bridge|] eqn:Hb; [|done].
  destruct (BootstrapState.proposed_sequencer st) as [sequencer|] eqn:Hs; [|done].
  injection Hc as <-. cbn. destruct (is_complete_inv st Hcomp) as (Hne & Hsize & Hmaj).
  destruct (inv_unnamed _ _ _ Hi) as [[? _]|[input Hin]]; [congruence|].
  destruct (inv_named _ _ _ Hi input Hin) as (Hv & Hbr & Hst).
  assert (is_Some (BootstrapState.proposed_sequencer_txid st)) as [txid Ht] by (apply (inv_proposed _ _ _ Hi); by eexists).
  exists n, evs, input, txid, (dom (BootstrapState.sequencer_votes st)),
    (dom (filter (λ kv, kv.2 = VoteOk) (BootstrapState.sequencer_votes st))).
  rewrite !size_dom. split_and!; [done|done|congruence|done|done|by apply (inv_proposal _ _ _ Hi)| | |done|lia|].
  - intros a. rewrite elem_of_dom. unfold is_Some. by setoid_rewrite (inv_votes _ _ _ Hi).
  - intros a. rewrite elem_of_dom, (inv_votes _ _ _ Hi). unfold is_Some. setoid_rewrite map_lookup_filter_Some. naive_solver.
  - intros vs Hvs. assert (Hvs' : ∀ k y, last_of (bootstraps evs) k y → SystemBootstrappingInput.verifier_p2wpkh_addresses y = vs).
    { intros k y (j & _ & (c & t & Hj) & _). rewrite Forall_lookup in Hvs. by apply (Hvs _ _ Hj). }
    rewrite Hv, (Hvs' _ _ Hin) in *. split; [done|]. apply votes_cover; [|done].
    intros a Ha. rewrite elem_of_dom in Ha. destruct Ha as [v Ha%(inv_votes _ _ _ Hi)].
    destruct Ha as (j & _ & (c & r & t & q & _ & _ & (y & Hy & Ha) & _) & _). by rewrite <-(Hvs' _ _ Hy).
Qed.
End bootstrap.

(** ** Witnesses and runs on the concrete library *)
Module IndexerWitness.
Definition from_sender (a : BitcoinAddress) : CommonFields.t := CommonFields.mk 0 [] 0 0 a.

Definition bootstrapping (vs : list BitcoinAddress) (bridge : BitcoinAddress) : SystemBootstrappingInput.t :=
  SystemBootstrappingInput.mk 10 vs bridge 1 2.

(** Three verifiers; two vote for the proposal of transaction 100, then the third
    proposes another sequencer in transaction 200 and votes for it. *)
Definition stale_events : list (FullInscriptionMessage.t * Txid) :=
  [(FullInscriptionMessage.SystemBootstrapping (from_sender 0) (bootstrapping [3; 7; 11] 23), 50);
   (FullInscriptionMessage.ProposeSequencer (from_sender 3) (ProposeSequencerInput.mk 15), 100);
   (FullInscriptionMessage.ValidatorAttestation (from_sender 3) (ValidatorAttestationInput.mk 100 VoteOk), 101);
   (FullInscriptionMessage.ValidatorAttestation (from_sender 7) (ValidatorAttestationInput.mk 100 VoteOk), 102);
   (FullInscriptionMessage.ProposeSequencer (from_sender 11) (ProposeSequencerInput.mk 19), 200);
   (FullInscriptionMessage.ValidatorAttestation (from_sender 11) (ValidatorAttestationInput.mk 200 VoteOk), 201)].

Definition attests (txid : Txid) (e : FullInscriptionMessage.t * Txid) : bool :=
  match e.1 with
  | FullInscriptionMessage.ValidatorAttestation _ i =>
      bool_decide (ValidatorAttestationInput.reference_txid i = txid)
  | _ => false
  end.

(** Votes survive a new proposal: a run completes with a sequencer whose
    proposal only one of the three verifiers attested, the two others having
    voted for the earlier proposal. *)
Theorem stale_votes_elect_sequencer :
  ∃ st, bootstrap_run Regtest stale_events = Ret st ∧ BootstrapState.is_complete st = true ∧
    BootstrapState.proposed_sequencer st = Some 19 ∧
    BootstrapState.proposed_sequencer_txid st = Some 200 ∧
    length (BootstrapState.verifier_addresses st) = 3%nat ∧
    List.filter (attests 200) stale_events =
      [(FullInscriptionMessage.ValidatorAttestation (from_sender 11)
          (ValidatorAttestationInput.mk 200 VoteOk), 201)].
Proof.
  eexists. split; [vm_compute; reflexivity|]. by repeat split; vm_compute.
Qed.

(** A transaction that carries a message, from the holder of key [k]. *)
Definition message_tx (k : Z) (m : InscriptionMessage.t) (outputs : list TxOut.t) : BtcTransaction.t :=
  BtcTransaction.mk 2 0
    [TxIn.mk (OutPoint.mk 5 0) [] 0 (witness_p2wpkh 8 k);
     TxIn.mk (OutPoint.mk 5 1) [] 0
       [taproot_signature_to_vec 4;
        into_script (PushSlice VIA_INSCRIPTION_PROTOCOL :: message_fields m ++ [PushOpcode OP_ENDIF]);
        control_block_serialize 3]] outputs.

(** The attacker names its own address as the bridge, then deposits to itself. *)
Definition attacker_bridge : BitcoinAddress := 43.
Definition deposit_outputs : list TxOut.t := [TxOut.mk 500 (address_script_pubkey attacker_bridge)].
Definition attack_block : BtcBlock.t :=
  BtcBlock.mk 0
    [message_tx 10 (InscriptionMessage.SystemBootstrapping (bootstrapping [] attacker_bridge)) [];
     message_tx 10 (InscriptionMessage.L1ToL2Message (L1ToL2MessageInput.mk 1 2 [])) deposit_outputs].
(** Transactions of an honest bootstrap. *)
Definition honest_tx (txid : Txid) : option BtcTransaction.t :=
  if decide (txid = 50) then
    Some (message_tx 0 (InscriptionMessage.SystemBootstrapping (bootstrapping [3; 7] 23)) [])
  else if decide (txid = 51) then
    Some (message_tx 0 (InscriptionMessage.ProposeSequencer (ProposeSequencerInput.mk 15)) [])
  else if decide (txid = 52) then
    Some (message_tx 0 (InscriptionMessage.ValidatorAttestation (ValidatorAttestationInput.mk 51 VoteOk)) [])
  else if decide (txid = 53) then
    Some (message_tx 1 (InscriptionMessage.ValidatorAttestation (ValidatorAttestationInput.mk 51 VoteOk)) [])
  else None.

#[export] Instance node : BitcoinOps () := {
  BtcClient.get_balance _ := mret 0;
  BtcClient.broadcast_signed_transaction _ := fail Rpc;
  BtcClient.fetch_utxos _ := fail Rpc;
  BtcClient.check_tx_confirmation _ _ := mret false;
  BtcClient.fetch_block_height := mret 20;
  BtcClient.get_fee_rate _ := mret 2;
  BtcClient.get_network := Regtest;
  BtcClient.fetch_block _ := mret attack_block;
  BtcClient.get_transaction txid := ok_or Rpc (honest_tx txid);
  BtcClient.fetch_block_by_hash _ := fail Rpc;
}.

Definition honest_indexer : IndexerState.t :=
  match new (W := ()) Regtest [50; 51; 52; 53] () with
  | Ret (inr idx, _) => idx
  | _ => IndexerState.mk (MessageParser.new Regtest) 0 0 [] 0
  end.

Lemma bootstrap_elects_by_majority_witness :
  new (W := ()) Regtest [50; 51; 52; 53] () = Ret (inr honest_indexer, ()) ∧
  ∃ n evs input txid (voters oks : gset BitcoinAddress),
    transactions_read (W := ()) (take n [50; 51; 52; 53]) (MessageParser.new Regtest) () evs
      (IndexerState.parser honest_indexer) () ∧
    last_of (bootstraps evs) (length evs) input ∧
    23 = SystemBootstrappingInput.bridge_p2wpkh_mpc_address input ∧
    [3; 7] = SystemBootstrappingInput.verifier_p2wpkh_addresses input ∧
    10 = SystemBootstrappingInput.start_block_height input ∧
    in_force evs (length evs) (15, txid) ∧
    (∀ a, a ∈ voters ↔ ∃ vote, voted evs a (length evs) vote) ∧
    (∀ a, a ∈ oks ↔ voted evs a (length evs) VoteOk) ∧
    size voters = 2%nat ∧ (size voters < size oks * 2)%nat ∧
    ∀ vs, Forall (names_verifiers vs) evs → [3; 7] = vs ∧ NoDup vs ∧ voters = list_to_set vs.
Proof.
  split; [vm_compute; reflexivity|].
  pose proof (bootstrap_elects_by_majority (W := ()) Regtest [50; 51; 52; 53] () honest_indexer ()) as Hb.
  apply Hb. vm_compute. reflexivity.
Defined.

(** Blocks are read without checking who wrote a message: on an indexer made
    by an honest bootstrap, anybody's [SystemBootstrapping] inscription replaces
    the bridge address the parser uses, and a deposit paid to that address, none
    of it to the real bridge, is then reported with its full amount, although
    [is_valid_message] rejects it. *)
Theorem unauthenticated_bridge_redirect :
  ∃ messages idx common input,
    process_block (W := ()) 20 (honest_indexer, ()) = Ret (inr messages, (idx, ())) ∧
    IndexerState.bridge_address honest_indexer = 23 ∧
    MessageParser.bridge_address (IndexerState.parser idx) = Some attacker_bridge ∧
    let deposit := FullInscriptionMessage.L1ToL2Message common 500 input deposit_outputs in
    deposit ∈ messages ∧ is_valid_message honest_indexer deposit = false.
Proof.
  eexists _, _, _, _. split; [vm_compute; reflexivity|].
  split; [vm_compute; reflexivity|]. split; [vm_compute; reflexivity|].
  split; [apply list_elem_of_here || (right; left)|vm_compute; reflexivity].
Qed.

Lemma process_blocks_split_witness :
  process_blocks (W := ()) 20 22 (honest_indexer, ()) =
  (m1 ← process_blocks 20 20; m2 ← process_blocks 21 22; mret (m1 ++ m2)) (honest_indexer, ()).
Proof. apply (process_blocks_split (W := ()) 20 20 22); lia. Defined.
End IndexerWitness.
