(* ===== verification/BtcWatch.v ===== *)
(** * The Bitcoin watcher ([core/node/via_btc_watch], [dal/src/via_transactions_dal.rs])

    [BtcWatch] polls Bitcoin, and [L1ToL2MessageProcessor] turns deposits into
    priority transactions with consecutive serial ids in the [transactions]
    table. The table is the list of its rows ([data] as the value its JSON
    serializes, [created_at] and [updated_at] left out); a query may fail, which
    the database's schedule of faults decides. *)
From S2P Require Import Prelude Types Abi BtcTypes BitcoinToy BtcClient ScriptBuilder Parser Indexer.
Local Open Scope Z_scope.

(** ** The [transactions] table *)
Module TxRow.
Record t := mk {
  hash : H256;
  is_priority : bool;
  initiator_address : Address;
  gas_limit : U256;
  max_fee_per_gas : U256;
  gas_per_pubdata_limit : U256;
  data : Execute.t;
  priority_op_id : option Z;
  full_fee : U256;
  layer_2_tip_fee : U256;
  contract_address : Address;
  l1_block_number : option Z;
  value : U256;
  paymaster : Address;
  paymaster_input : list byte;
  tx_format : Z;
  l1_tx_mint : U256;
  l1_tx_refund_recipient : Address;
  received_at : Z * Z;
  signature : H256;
}.
End TxRow.

(** The rows and, for each query to come, whether it fails. *)
Module Db.
Record t := mk { rows : list TxRow.t; faults : list bool }.
End Db.

(** A query: an error, or an answer and the new rows. *)
Definition query {A} (f : list TxRow.t → A * list TxRow.t) : prog Db.t unit A := λ db,
  match Db.faults db with
  | true :: faults => Ret (inl tt, Db.mk (Db.rows db) faults)
  | _ =>
      let '(a, rows) := f (Db.rows db) in
      Ret (inr a, Db.mk rows (tail (Db.faults db)))
  end.

(** The values of [insert_transaction_l1]'s [INSERT]; [received_at] is in seconds
    and nanoseconds. *)
Definition row_of (tx : L1Tx.t) (l1_block_number : L1BlockNumber) (tx_id : H256) : TxRow.t :=
  let common_data := L1Tx.common_data tx in
  {| TxRow.hash := L1Tx.hash tx;
     TxRow.is_priority := true;
     TxRow.initiator_address := L1TxCommonData.sender common_data;
     TxRow.gas_limit := L1TxCommonData.gas_limit common_data;
     TxRow.max_fee_per_gas := L1TxCommonData.max_fee_per_gas common_data;
     TxRow.gas_per_pubdata_limit := L1TxCommonData.gas_per_pubdata_limit common_data;
     TxRow.data := L1Tx.execute tx;
     TxRow.priority_op_id := Some (to_signed 64 (L1Tx.serial_id tx));
     TxRow.full_fee := L1TxCommonData.full_fee common_data;
     TxRow.layer_2_tip_fee := L1TxCommonData.layer_2_tip_fee common_data;
     TxRow.contract_address := Execute.contract_address (L1Tx.execute tx);
     TxRow.l1_block_number := Some (to_signed 32 l1_block_number);
     TxRow.value := Execute.value (L1Tx.execute tx);
     TxRow.paymaster := 0;
     TxRow.paymaster_input := [];
     TxRow.tx_format := PRIORITY_OPERATION_L2_TX_TYPE;
     TxRow.l1_tx_mint := L1TxCommonData.to_mint common_data;
     TxRow.l1_tx_refund_recipient := L1TxCommonData.refund_recipient common_data;
     TxRow.received_at :=
       (L1Tx.received_timestamp_ms tx / 1000, L1Tx.received_timestamp_ms tx mod 1000 * 1000000);
     TxRow.signature := tx_id |}.

(** [INSERT .. ON CONFLICT (hash) DO NOTHING]. *)
Definition insert_row (rows : list TxRow.t) (row : TxRow.t) : list TxRow.t :=
  if decide (TxRow.hash row ∈ (TxRow.hash <$> rows)) then rows else rows ++ [row].
Definition insert_transaction_l1 (tx : L1Tx.t) (l1_block_number : L1BlockNumber) (tx_id : H256)
    : prog Db.t unit () :=
  query (λ rows, (tt, insert_row rows (row_of tx l1_block_number tx_id))).

(** The first row with the greatest id under [ORDER BY priority_op_id DESC]. *)
Definition max_row (rows : list TxRow.t) : option (Z * TxRow.t) :=
  foldl (λ acc row,
    match TxRow.priority_op_id row, acc with
    | None, _ => acc
    | Some id, None => Some (id, row)
    | Some id, Some (m, _) => if decide (m < id) then Some (id, row) else acc
    end) None rows.

Definition get_last_processed_l1_block : prog Db.t unit (option L1BlockNumber) :=
  query (λ rows,
    (('(_, row) ← max_row rows; wrap 32 <$> TxRow.l1_block_number row), rows)).

(** [MAX(priority_op_id)] over the priority rows. *)
Definition last_priority_id : prog Db.t unit (option PriorityOpId) :=
  query (λ rows, (wrap 64 ∘ fst <$> max_row (filter (λ r, TxRow.is_priority r = true) rows), rows)).

Definition transaction_exists_with_txid (tx_id : H256) : prog Db.t unit bool :=
  query (λ rows, (bool_decide (tx_id ∈ (TxRow.signature <$> rows)), rows)).

(** ** [L1ToL2MessageProcessor] *)
Inductive MessageProcessorError :=
| Internal (e : IndexerError)
| DatabaseError.

Module L1ToL2MessageProcessor.
Record t := mk { bridge_address : BitcoinAddress; next_expected_priority_id : PriorityOpId }.
Definition new := mk.
End L1ToL2MessageProcessor.

Section processor.
Context `{BitcoinLib} (keccak256 : list byte → H256) (abi_encode : list Token → list byte)
  (unix_timestamp_ms : Z).

Definition address_to_u256 (address : Address) : U256 := address.

Definition create_l1_tx_from_message (common : CommonFields.t) (amount : Amount)
    (input : L1ToL2MessageInput.t) (serial_id : PriorityOpId) : L1Tx.t :=
  let eth_address_l2 := L1ToL2MessageInput.receiver_l2_address input in
  let calldata := L1ToL2MessageInput.call_data input in
  let value := amount in
  let mantissa := 10000000000 in
  let max_fee_per_gas := 100000000000 / mantissa in
  let gas_limit := 1000000 in
  let gas_per_pubdata_limit := 800 in
  let execute := Execute.mk eth_address_l2 calldata 0 [] in
  let common_data hash :=
    L1TxCommonData.mk eth_address_l2 serial_id 0 0 max_fee_per_gas gas_limit gas_per_pubdata_limit
      Common Deque hash value eth_address_l2 (CommonFields.block_height common) in
  let l2_transaction :=
    L2CanonicalTransaction.mk PRIORITY_OPERATION_L2_TX_TYPE (address_to_u256 eth_address_l2)
      (address_to_u256 eth_address_l2) gas_limit gas_per_pubdata_limit max_fee_per_gas 0 0
      serial_id 0 [value; address_to_u256 eth_address_l2; 0; 0] calldata [] [] [] [] in
  let canonical_tx_hash := L2CanonicalTransaction.hash keccak256 abi_encode l2_transaction in
  L1Tx.mk execute (common_data canonical_tx_hash) unix_timestamp_ms.

(** The transaction id's raw hash, reversed. *)
Definition tx_id_of (common : CommonFields.t) : H256 :=
  from_be_bytes (reverse (txid_to_byte_array (CommonFields.tx_id common))).

Abbreviation PS := (L1ToL2MessageProcessor.t * Db.t)%type.
Abbreviation P A := (prog PS MessageProcessorError A).

(** [storage.via_transactions_dal().op(..).await.map_err(DatabaseError)?]. *)
Definition dal {A} (op : prog Db.t unit A) : P A := λ '(self, db),
  '(r, db) ← op db;
  Ret (match r with inl _ => inl DatabaseError | inr a => inr a end, (self, db)).

(** The body of the loop over the messages. *)
Definition collect_message (priority_ops : list (L1Tx.t * H256)) (msg : FullInscriptionMessage.t)
    : P (list (L1Tx.t * H256)) :=
  match msg with
  | FullInscriptionMessage.L1ToL2Message common amount input tx_outputs =>
      s ← get;
      if existsb (λ output, bool_decide (TxOut.script_pubkey output =
           address_script_pubkey (L1ToL2MessageProcessor.bridge_address s.1))) tx_outputs
      then
        let tx_id := tx_id_of common in
        present ← dal (transaction_exists_with_txid tx_id);
        if (present : bool) then mret priority_ops
        else
          s ← get;
          let self := s.1 in
          let serial_id := L1ToL2MessageProcessor.next_expected_priority_id self in
          let l1_tx := create_l1_tx_from_message common amount input serial_id in
          _ ← put (L1ToL2MessageProcessor.mk (L1ToL2MessageProcessor.bridge_address self)
                     (next_id 64 serial_id), s.2);
          mret (priority_ops ++ [(l1_tx, tx_id)])
      else mret priority_ops
  | _ => mret priority_ops
  end.

Definition insert_op (_ : ()) (op : L1Tx.t * H256) : P () :=
  dal (insert_transaction_l1 op.1 (L1Tx.eth_block op.1) op.2).

Definition process_messages (msgs : list FullInscriptionMessage.t) : P () :=
  priority_ops ← foldP collect_message [] msgs;
  match priority_ops with
  | [] => mret ()
  | _ => foldP insert_op () priority_ops
  end.

(** ** [BtcWatch] *)
Context {W : Type} `{BitcoinOps W}.

Record watch := mk_watch {
  indexer : IndexerState.t;
  confirmations_for_btc_msg : Z;
  last_processed_bitcoin_block : Z;
  processor : L1ToL2MessageProcessor.t;
  btc_blocks_lag : Z;
  storage : Db.t;
  world : W;
}.

Definition with_indexer (s : watch) (i : IndexerState.t) (w : W) : watch :=
  mk_watch i (confirmations_for_btc_msg s) (last_processed_bitcoin_block s) (processor s)
    (btc_blocks_lag s) (storage s) w.
Definition with_processor (s : watch) (p : L1ToL2MessageProcessor.t) (db : Db.t) : watch :=
  mk_watch (indexer s) (confirmations_for_btc_msg s) (last_processed_bitcoin_block s) p
    (btc_blocks_lag s) db (world s).
Definition with_last (s : watch) (n : Z) : watch :=
  mk_watch (indexer s) (confirmations_for_btc_msg s) n (processor s) (btc_blocks_lag s) (storage s) (world s).

Abbreviation M A := (prog watch MessageProcessorError A).

(** Calls of the indexer, of its client and of the message processor. *)
Definition indexer_call {A} (op : prog (IndexerState.t * W) IndexerError A) : M A := λ s,
  '(r, (i, w)) ← op (indexer s, world s);
  Ret (match r with inl e => inl (Internal e) | inr a => inr a end, with_indexer s i w).
Definition processor_call {A} (op : P A) : M A := λ s,
  '(r, (p, db)) ← op (processor s, storage s);
  Ret (r, with_processor s p db).

Definition loop_iteration : M () :=
  height ← indexer_call fetch_height;
  s ← get;
  let to_block := wrap 32 (saturating_sub height (confirmations_for_btc_msg s)) in
  if decide (to_block ≤ last_processed_bitcoin_block s) then mret ()
  else
    messages ← indexer_call (process_blocks (wrap 32 (last_processed_bitcoin_block s + 1)) to_block);
    _ ← processor_call (process_messages messages);
    s ← get;
    put (with_last s to_block).


Inductive WatchError :=
| WatchIndexer (e : IndexerError)
| WatchDal
| WatchConfig (s : string).

(** The database and the world, for [initialize_state]. *)
Abbreviation I A := (prog (Db.t * W) WatchError A).
Definition db_call {A} (op : prog Db.t unit A) : I A := λ '(db, w),
  '(r, db) ← op db; Ret (match r with inl _ => inl WatchDal | inr a => inr a end, (db, w)).
Definition client_height : I Z := λ '(db, w),
  '(r, w) ← fetch_block_height w;
  Ret (match r with inl e => inl (WatchIndexer (BitcoinClientError e)) | inr h => inr h end, (db, w)).

(** The last processed block, the bridge and the next serial id. *)
Definition initialize_state (idx : IndexerState.t) (lag : Z) : I (Z * BitcoinAddress * PriorityOpId) :=
  block ← db_call get_last_processed_l1_block;
  last ← match block with
         | Some block => mret (saturating_sub block 1)
         | None => height ← client_height; mret (wrap 32 (saturating_sub height lag))
         end;
  let bridge_address := IndexerState.bridge_address idx in
  id ← db_call last_priority_id;
  let next_expected_priority_id := match id with Some id => wrap 64 (id + 1) | None => 0 end in
  mret (last, bridge_address, next_expected_priority_id).

(** [BtcWatch::new]; the connection pool is the database. *)
Definition watch_new (network : Network) (confirmations : option Z) (bootstrap_txids : list Txid)
    (lag : Z) (db : Db.t) (w : W) : exec (WatchError + watch) :=
  '(idx, w) ← Indexer.new network bootstrap_txids w;
  match idx with
  | inl e => Ret (inl (WatchIndexer e))
  | inr idx =>
      '(r, (db, w)) ← initialize_state idx lag (db, w);
      match r with
      | inl e => Ret (inl e)
      | inr (last, bridge_address, next_expected_priority_id) =>
          let confirmations_for_btc_msg := default 0 confirmations in
          if decide (network = Bitcoin ∧ confirmations_for_btc_msg = 0) then
            Ret (inl (WatchConfig "confirmations_for_btc_msg cannot be 0 for mainnet"))
          else
            Ret (inr (mk_watch idx confirmations_for_btc_msg last
                        (L1ToL2MessageProcessor.new bridge_address next_expected_priority_id) lag db w))
      end
  end.

(** One turn of [run]'s loop: [Some e] ends the watcher with [e]. *)
Definition run_step (s : watch) : exec (option WatchError * watch) :=
  '(r, s) ← loop_iteration s;
  match r with
  | inr _ => Ret (None, s)
  | inl (Internal e) => Ret (Some (WatchIndexer e), s)
  | inl DatabaseError =>
      '(r, (db, w)) ← initialize_state (indexer s) (btc_blocks_lag s) (storage s, world s);
      let s := with_indexer (with_processor s (processor s) db) (indexer s) w in
      match r with
      | inl e => Ret (Some e, s)
      | inr (last, _, _) => Ret (None, with_last s last)
      end
  end.

(** [n] turns, or until the watcher ends. *)
Fixpoint run (n : nat) (s : watch) : exec (option WatchError * watch) :=
  match n with
  | O => Ret (None, s)
  | S n => '(r, s) ← run_step s; match r with Some e => Ret (Some e, s) | None => run n s end
  end.
End processor.

(** ** What a batch of messages adds to the table *)
Section facts.
Context `{BitcoinLib} (keccak256 : list byte → H256) (abi_encode : list Token → list byte) (now : Z).

Abbreviation PS := (L1ToL2MessageProcessor.t * Db.t)%type.
Abbreviation create := (create_l1_tx_from_message keccak256 abi_encode now).

Definition deposit : Type := CommonFields.t * Amount * L1ToL2MessageInput.t.

(** The messages that become priority operations: deposits of transactions with
    an output to the bridge that the table does not have yet. *)
Definition accepted1 (bridge : BitcoinAddress) (rows : list TxRow.t) (m : FullInscriptionMessage.t)
    : option deposit :=
  match m with
  | FullInscriptionMessage.L1ToL2Message common amount input tx_outputs =>
      if existsb (λ output, bool_decide (TxOut.script_pubkey output = address_script_pubkey bridge)) tx_outputs
         && negb (bool_decide (tx_id_of common ∈ (TxRow.signature <$> rows)))
      then Some (common, amount, input) else None
  | _ => None
  end.
Definition accepted (bridge : BitcoinAddress) (rows : list TxRow.t) (msgs : list FullInscriptionMessage.t)
    : list deposit := omap (accepted1 bridge rows) msgs.

(** Their operations, with ids from [n] on. *)
Definition op_of (n : Z) (d : deposit) : L1Tx.t * H256 :=
  (create d.1.1 d.1.2 d.2 n, tx_id_of d.1.1).
Fixpoint number_ops (n : Z) (l : list deposit) : list (L1Tx.t * H256) :=
  match l with [] => [] | d :: l => op_of n d :: number_ops (next_id 64 n) l end.
Definition op_row (op : L1Tx.t * H256) : TxRow.t := row_of op.1 (L1Tx.eth_block op.1) op.2.

Definition ids_from (n : Z) (k : nat) : Z := Nat.iter k (next_id 64) n.

Lemma query_inr {A} (f : list TxRow.t → A * list TxRow.t) db a db' :
  query f db = Ret (inr a, db') → f (Db.rows db) = (a, Db.rows db') ∧ Db.faults db' = tail (Db.faults db).
Proof using.
  unfold query. destruct (Db.faults db) as [|[|] fs]; [|done|]; destruct (f (Db.rows db)); intros; by simplify_eq.
Qed.

Lemma dal_inr {A} (op : prog Db.t unit A) (p : L1ToL2MessageProcessor.t) db a s :
  dal op (p, db) = Ret (inr a, s) → ∃ db', s = (p, db') ∧ op db = Ret (inr a, db').
Proof using.
  unfold dal. destruct (op db) as [[[|] db']|]; cbn; intros; simplify_eq. eauto.
Qed.

Lemma collect_message_inr acc m p db ops s :
  collect_message keccak256 abi_encode now acc m (p, db) = Ret (inr ops, s) →
  ∃ p' db', s = (p', db') ∧ Db.rows db' = Db.rows db ∧
    L1ToL2MessageProcessor.bridge_address p' = L1ToL2MessageProcessor.bridge_address p ∧
    match accepted1 (L1ToL2MessageProcessor.bridge_address p) (Db.rows db) m with
    | Some d => ops = acc ++ [op_of (L1ToL2MessageProcessor.next_expected_priority_id p) d] ∧
        L1ToL2MessageProcessor.next_expected_priority_id p' =
          next_id 64 (L1ToL2MessageProcessor.next_expected_priority_id p)
    | None => ops = acc ∧ p' = p
    end.
Proof using.
  intros Hc. destruct m; cbn [collect_message accepted1] in *;
    try (inv_prog; by exists p, db).
  apply prog_bind_inr in Hc as (s1 & s2 & [= <- <-] & Hc). cbn [fst] in Hc.
  destruct (existsb _ _); [|inv_prog; by exists p, db].
  apply prog_bind_inr in Hc as (present & s1 & Hp & Hc).
  apply dal_inr in Hp as (db1 & -> & Hq). apply query_inr in Hq as [Hq _]. injection Hq as Hpres Hrows.
  rewrite Hpres. destruct present; cbn [negb andb].
  - inv_prog. by exists p, db1.
  - apply prog_bind_inr in Hc as (s1 & s2 & [= <- <-] & Hc).
    apply prog_bind_inr in Hc as (u & s3 & [= <- <-] & Hc). inv_prog. by eexists _, db1.
Qed.

Lemma collect_spec msgs acc p db ops s :
  foldP (collect_message keccak256 abi_encode now) acc msgs (p, db) = Ret (inr ops, s) →
  let l := accepted (L1ToL2MessageProcessor.bridge_address p) (Db.rows db) msgs in
  let n := L1ToL2MessageProcessor.next_expected_priority_id p in
  ∃ p' db', s = (p', db') ∧ Db.rows db' = Db.rows db ∧
    L1ToL2MessageProcessor.bridge_address p' = L1ToL2MessageProcessor.bridge_address p ∧
    ops = acc ++ number_ops n l ∧
    L1ToL2MessageProcessor.next_expected_priority_id p' = ids_from n (length l).
Proof using.
  revert acc p db. induction msgs as [|m msgs IH]; intros acc p db Hf; cbn [foldP] in Hf.
  { inv_prog. cbn. rewrite app_nil_r. eauto 10. }
  apply prog_bind_inr in Hf as (acc1 & s1 & Hm & Hf).
  apply collect_message_inr in Hm as (p1 & db1 & -> & Hrows & Hb & Hacc).
  apply IH in Hf as (p2 & db2 & -> & Hrows2 & Hb2 & -> & Hn). cbv zeta in *. rewrite Hrows, Hb in *.
  exists p2, db2. split_and!; [done|congruence|congruence| |];
    unfold accepted in *; cbn [omap list_omap];
    destruct (accepted1 _ _ m) as [d|]; destruct Hacc as [-> Hn1].
  - rewrite Hn1. cbn [number_ops]. by rewrite <-app_assoc.
  - by subst p1.
  - rewrite Hn, Hn1. unfold ids_from. cbn [length]. by rewrite Nat.iter_succ_r.
  - by subst p1.
Qed.

Lemma insert_ops_spec ops p db u s :
  foldP insert_op u ops (p, db) = Ret (inr (), s) →
  ∃ db', s = (p, db') ∧ Db.rows db' = foldl insert_row (Db.rows db) (op_row <$> ops).
Proof using.
  revert u db. induction ops as [|op ops IH]; intros u db Hf; cbn [foldP] in Hf.
  { inv_prog. eauto. }
  apply prog_bind_inr in Hf as (u1 & s1 & Hm & Hf). apply dal_inr in Hm as (db1 & -> & Hq).
  destruct u1. apply query_inr in Hq as [Hq _]. injection Hq as Hr. apply IH in Hf as (db2 & -> & Hrows).
  exists db2. split; [done|]. rewrite Hrows. cbn. by rewrite <-Hr.
Qed.

Lemma process_messages_inr msgs p db s :
  process_messages keccak256 abi_encode now msgs (p, db) = Ret (inr (), s) →
  let l := accepted (L1ToL2MessageProcessor.bridge_address p) (Db.rows db) msgs in
  let n := L1ToL2MessageProcessor.next_expected_priority_id p in
  ∃ db', s = (L1ToL2MessageProcessor.mk (L1ToL2MessageProcessor.bridge_address p) (ids_from n (length l)), db') ∧
    Db.rows db' = foldl insert_row (Db.rows db) (op_row <$> number_ops n l).
Proof using.
  unfold process_messages. intros Hp. apply prog_bind_inr in Hp as (ops & s1 & Hc & Hi).
  apply collect_spec in Hc as ([b' n'] & db1 & -> & Hrows & Hb & -> & Hn). cbn in Hb, Hn. subst b' n'. cbv zeta.
  cbn [app] in Hi.
  assert (Hnil : ∀ ops (st : PS), (match ops with [] => mret () | _ => foldP insert_op () ops end) st
    = foldP insert_op () ops st) by (by intros [|]).
  rewrite Hnil in Hi.
  apply insert_ops_spec in Hi as (db2 & -> & Hr). exists db2. split; [done|]. by rewrite Hr, Hrows.
Qed.

(** ** The ledger of serial ids *)

(** The rows of priority operations; the table also has L2 transactions and upgrades,
    whose [priority_op_id] is null. *)
Definition deposit_rows (rows : list TxRow.t) : list TxRow.t :=
  filter (λ r, is_Some (TxRow.priority_op_id r)) rows.

(** The ids of the priority operations are [0 .. n - 1] in order. *)
Record ledger (n : Z) (rows : list TxRow.t) : Prop := {
  ledger_ids : TxRow.priority_op_id <$> deposit_rows rows = Some <$> seqZ 0 n;
  ledger_priority : Forall (λ r, TxRow.is_priority r = true) (deposit_rows rows);
}.

(** No collision of the hash among [rows]: two of them with the same hash are the same
    operation. *)
Definition no_collision (rows : list TxRow.t) : Prop := ∀ r1 r2, r1 ∈ rows → r2 ∈ rows →
  TxRow.hash r1 = TxRow.hash r2 → TxRow.priority_op_id r1 = TxRow.priority_op_id r2.

Lemma op_row_facts n d :
  TxRow.priority_op_id (op_row (op_of n d)) = Some (to_signed 64 n) ∧ TxRow.signature (op_row (op_of n d)) = tx_id_of d.1.1.
Proof using. done. Qed.

Lemma ledger_bound n rows r id : ledger n rows → r ∈ rows → TxRow.priority_op_id r = Some id → 0 ≤ id < n.
Proof using.
  intros [Hids _] Hr Hid. assert (Hin : Some id ∈ TxRow.priority_op_id <$> deposit_rows rows).
  { rewrite <-Hid. apply list_elem_of_fmap_2, list_elem_of_filter. split; [by eexists|done]. }
  rewrite Hids in Hin. apply list_elem_of_fmap in Hin as (id' & [= ->] & Hid'). apply elem_of_seqZ in Hid'. lia.
Qed.

Lemma deposit_rows_snoc rows r : is_Some (TxRow.priority_op_id r) → deposit_rows (rows ++ [r]) = deposit_rows rows ++ [r].
Proof using. intros Hr. unfold deposit_rows. by rewrite filter_app, filter_cons, decide_True. Qed.

Lemma ledger_insert n rows d :
  no_collision (rows ++ [op_row (op_of n d)]) → ledger n rows → 0 ≤ n < 2 ^ 63 →
  insert_row rows (op_row (op_of n d)) = rows ++ [op_row (op_of n d)] ∧
  ledger (n + 1) (rows ++ [op_row (op_of n d)]).
Proof using.
  intros Hnb Hl Hn. destruct (op_row_facts n d) as (Hid & _).
  assert (Hsig : to_signed 64 n = n) by (unfold to_signed; by rewrite decide_True by lia). rewrite Hsig in Hid.
  split.
  - unfold insert_row. rewrite decide_False; [done|]. intros Hin.
    apply list_elem_of_fmap in Hin as (r & Hr & Hrow).
    assert (Heq : TxRow.priority_op_id r = Some n).
    { rewrite <-Hid. apply Hnb; [apply elem_of_app; by left|apply elem_of_app; right; left|done]. }
    pose proof (ledger_bound n rows r n Hl Hrow Heq). lia.
  - split; rewrite deposit_rows_snoc by (rewrite Hid; by eexists).
    + rewrite fmap_app, (ledger_ids _ _ Hl). cbn [fmap list_fmap]. rewrite Hid.
      rewrite seqZ_app, fmap_app by lia. done.
    + apply Forall_app. split; [apply (ledger_priority _ _ Hl)|]. by apply Forall_singleton.
Qed.

Lemma next_id_small n : 0 ≤ n < 2 ^ 63 → next_id 64 n = n + 1.
Proof using. intros. unfold next_id. apply wrap_small. split; lia. Qed.

Lemma ledger_inserts l n rows :
  no_collision (rows ++ (op_row <$> number_ops n l)) → ledger n rows → 0 ≤ n → n + Z.of_nat (length l) < 2 ^ 63 →
  foldl insert_row rows (op_row <$> number_ops n l) = rows ++ (op_row <$> number_ops n l) ∧
  ledger (n + Z.of_nat (length l)) (rows ++ (op_row <$> number_ops n l)) ∧
  ids_from n (length l) = n + Z.of_nat (length l).
Proof using.
  revert n rows. induction l as [|d l IH]; intros n rows Hnb Hl Hn Hlt.
  { cbn. rewrite app_nil_r, Z.add_0_r. done. }
  cbn [length number_ops fmap list_fmap foldl] in *. rewrite next_id_small in * by lia.
  assert (Happ : rows ++ op_row (op_of n d) :: (op_row <$> number_ops (n + 1) l) = (rows ++ [op_row (op_of n d)]) ++ (op_row <$> number_ops (n + 1) l))
    by by rewrite <-app_assoc.
  rewrite Happ in Hnb. destruct (ledger_insert n rows d) as [Hi Hl1]; [|done|lia|].
  { intros r1 r2 H1 H2. apply Hnb; apply elem_of_app; by left. }
  rewrite Hi. destruct (IH (n + 1) (rows ++ [op_row (op_of n d)]) Hnb Hl1) as (Hf & Hl2 & Hids); [lia|lia|].
  rewrite Hf, <-app_assoc in *. cbn [app] in *.
  replace (n + Z.of_nat (S (length l))) with (n + 1 + Z.of_nat (length l)) by lia.
  split_and!; [done|done|]. unfold ids_from in *. rewrite Nat.iter_succ_r, next_id_small by lia. done.
Qed.

Lemma length_accepted b rows msgs : (length (accepted b rows msgs) ≤ length msgs)%nat.
Proof using.
  unfold accepted. induction msgs as [|m msgs IH]; cbn; [lia|]. destruct (accepted1 b rows m); cbn; lia.
Qed.

Lemma accepted_nil b rows msgs : (∀ m, m ∈ msgs → accepted1 b rows m = None) → accepted b rows msgs = [].
Proof using.
  intros Hm. unfold accepted. induction msgs as [|m msgs IH]; [done|]. cbn.
  rewrite Hm by left. apply IH. intros m' Hm'. apply Hm. by right.
Qed.

Lemma number_ops_signature l n d :
  d ∈ l → tx_id_of d.1.1 ∈ (TxRow.signature <$> (op_row <$> number_ops n l)).
Proof using.
  revert n. induction l as [|d' l IH]; intros n Hd; [by apply not_elem_of_nil in Hd|].
  cbn. apply elem_of_cons. apply elem_of_cons in Hd as [<-|Hd]; [by left|right]. by apply IH.
Qed.

(** With nothing to accept and no fault, a batch changes nothing. *)
Lemma process_nothing msgs p db :
  accepted (L1ToL2MessageProcessor.bridge_address p) (Db.rows db) msgs = [] → Db.faults db = [] →
  process_messages keccak256 abi_encode now msgs (p, db) = Ret (inr (), (p, db)).
Proof using.
  destruct db as [rows faults]. cbn [Db.rows Db.faults]. intros Ha ->. set (db := Db.mk rows []).
  unfold process_messages. rewrite (prog_bind_step _ _ _ [] (p, db)); [done|].
  induction msgs as [|m msgs IH]; [done|]. cbn [foldP]. unfold accepted in *. cbn [omap list_omap] in Ha.
  destruct (accepted1 _ _ m) eqn:Hm; [done|]. rewrite (prog_bind_step _ _ _ [] (p, db)); [exact (IH Ha)|].
  destruct m; try done. cbn [collect_message]. erewrite prog_bind_step; [|reflexivity].
  cbn [accepted1 fst] in *. destruct (existsb _ _); [|done].
  erewrite prog_bind_step; [|reflexivity].
  cbn [andb] in Hm. by destruct (bool_decide _).
Qed.

(** Without database faults every step of a batch succeeds. *)
Lemma collect_message_total acc m p db :
  Db.faults db = [] → ∃ ops p', collect_message keccak256 abi_encode now acc m (p, db) = Ret (inr ops, (p', db)).
Proof using.
  destruct db as [rows faults]. cbn [Db.faults]. intros ->. destruct m; try by eexists _, _.
  cbn [collect_message]. erewrite prog_bind_step; [|reflexivity]. cbn [fst].
  destruct (existsb _ _); [|by eexists _, _].
  erewrite prog_bind_step; [|reflexivity]. destruct (bool_decide _); by eexists _, _.
Qed.

Lemma process_messages_total msgs p db :
  Db.faults db = [] → ∃ s, process_messages keccak256 abi_encode now msgs (p, db) = Ret (inr (), s).
Proof using.
  intros Hf. unfold process_messages.
  assert (Hc : ∃ ops p', foldP (collect_message keccak256 abi_encode now) [] msgs (p, db)
    = Ret (inr ops, (p', db))).
  { generalize (@nil (L1Tx.t * Z)). revert p. induction msgs as [|m msgs IH]; intros p acc; [by eexists _, _|].
    destruct (collect_message_total acc m p db Hf) as (acc' & p' & Hm). cbn [foldP].
    erewrite prog_bind_step by exact Hm. apply IH. }
  destruct Hc as (ops & p' & Hc). erewrite prog_bind_step by exact Hc.
  assert (Hnil : ∀ ops (st : PS), (match ops with [] => mret () | _ => foldP insert_op () ops end) st
    = foldP insert_op () ops st) by (by intros [|]).
  rewrite Hnil. clear Hc Hnil. revert db Hf. induction ops as [|op ops IH]; intros [rows faults] Hf; [by eexists|].
  cbn [Db.faults] in Hf. subst faults. cbn [foldP]. erewrite prog_bind_step by reflexivity. by apply IH.
Qed.

(** The row with the greatest id of a ledger is the last deposit's. *)
Lemma max_row_ledger n rows :
  TxRow.priority_op_id <$> deposit_rows rows = Some <$> seqZ 0 n → 0 ≤ n →
  max_row rows = (λ r, (n - 1, r)) <$> last (deposit_rows rows).
Proof using.
  revert n. induction rows as [|r rows IH] using rev_ind; intros n Hids Hn; [done|].
  unfold max_row. rewrite foldl_app. change (foldl _ None rows) with (max_row rows). cbn [foldl].
  destruct (TxRow.priority_op_id r) as [id|] eqn:Hr.
  - rewrite deposit_rows_snoc in * by (rewrite Hr; by eexists). rewrite last_snoc.
    assert (Hlen : length (deposit_rows rows) = Z.to_nat (n - 1) ∧ 0 < n).
    { apply (f_equal length) in Hids. rewrite !length_fmap, length_app, length_seqZ in Hids. cbn in Hids. lia. }
    destruct Hlen as [Hlen Hpos]. replace n with (n - 1 + 1) in Hids by lia.
    rewrite seqZ_app, !fmap_app in Hids by lia. apply app_inj_1 in Hids as [Hids Hr'];
      [|by rewrite !length_fmap, length_seqZ].
    replace (seqZ (0 + (n - 1)) 1) with [n - 1] in Hr' by (cbn; f_equal; lia). cbn in Hr'. rewrite Hr in Hr'. injection Hr' as ->.
    rewrite (IH _ Hids) by lia. destruct (last (deposit_rows rows)); cbn; [|done]. by rewrite decide_True by lia.
  - assert (Hsame : deposit_rows (rows ++ [r]) = deposit_rows rows).
    { unfold deposit_rows. rewrite filter_app, filter_cons, decide_False, app_nil_r; [done|]. rewrite Hr. by intros [? ?]. }
    rewrite Hsame in *. by apply IH.
Qed.

(** C9 Without database faults a batch of messages is processed; and a batch that is
    processed appends to the table one row for each deposit that pays the bridge
    in a transaction the table does not know, in the order of the messages, with
    consecutive serial ids that continue the ledger; so the ids of the priority
    operations stay exactly [0 .. n - 1], whatever else is in the table, and the
    processor's next id stays [n]. The hashes of the table and of the new operations
    are assumed not to collide, and the ids to be below [2 ^ 63]. *)
Theorem deposits_extend_ledger msgs p db :
  let n := L1ToL2MessageProcessor.next_expected_priority_id p in
  let l := accepted (L1ToL2MessageProcessor.bridge_address p) (Db.rows db) msgs in
  no_collision (Db.rows db ++ (op_row <$> number_ops n l)) →
  ledger n (Db.rows db) → 0 ≤ n → n + Z.of_nat (length msgs) < 2 ^ 63 →
  (Db.faults db = [] → ∃ s, process_messages keccak256 abi_encode now msgs (p, db) = Ret (inr (), s)) ∧
  ∀ p' db', process_messages keccak256 abi_encode now msgs (p, db) = Ret (inr (), (p', db')) →
    Db.rows db' = Db.rows db ++ (op_row <$> number_ops n l) ∧
    L1ToL2MessageProcessor.next_expected_priority_id p' = n + Z.of_nat (length l) ∧
    ledger (L1ToL2MessageProcessor.next_expected_priority_id p') (Db.rows db').
Proof using.
  intros n l Hnb Hl Hn Hlt. split; [apply process_messages_total|]. intros p' db' Hp.
  apply process_messages_inr in Hp as (db1 & Heq & Hrows).
  injection Heq as -> ->. cbn. fold n in Hrows |- *. fold l in Hrows |- *.
  destruct (ledger_inserts l n (Db.rows db) Hnb Hl Hn) as (Hf & Hl' & Hids).
  { pose proof (length_accepted (L1ToL2MessageProcessor.bridge_address p) (Db.rows db) msgs) as Hle.
    fold l in Hle. lia. }
  rewrite Hrows, Hf, Hids. done.
Qed.

(** C29 Deposits are processed once: after a batch succeeded, the same batch
    leaves table and processor as they are, so blocks may be read again after a
    restart. As before the hashes are assumed not to collide, and the ids to be below
    [2 ^ 63]. *)
Theorem deposits_processed_once msgs p db p' db' db2 :
  let n := L1ToL2MessageProcessor.next_expected_priority_id p in
  let l := accepted (L1ToL2MessageProcessor.bridge_address p) (Db.rows db) msgs in
  no_collision (Db.rows db ++ (op_row <$> number_ops n l)) →
  ledger n (Db.rows db) → 0 ≤ n → n + Z.of_nat (length msgs) < 2 ^ 63 →
  process_messages keccak256 abi_encode now msgs (p, db) = Ret (inr (), (p', db')) →
  Db.rows db2 = Db.rows db' → Db.faults db2 = [] →
  process_messages keccak256 abi_encode now msgs (p', db2) = Ret (inr (), (p', db2)).
Proof using.
  intros n l Hnb Hl Hn Hlt Hp Hr2 Hf2. apply process_messages_inr in Hp as (db1 & Heq & Hrows).
  injection Heq as -> ->. fold n in Hrows |- *. fold l in Hrows |- *.
  destruct (ledger_inserts l n (Db.rows db) Hnb Hl Hn) as (Hf & _ & _).
  { pose proof (length_accepted (L1ToL2MessageProcessor.bridge_address p) (Db.rows db) msgs) as Hle.
    fold l in Hle. lia. }
  apply process_nothing; [|done]. cbn. rewrite Hr2, Hrows, Hf.
  apply accepted_nil. intros m Hm. unfold accepted1 in *.
  destruct m; [done..|]. destruct (existsb _ _) eqn:He; [|done]. cbn [andb].
  rewrite bool_decide_true; [done|]. rewrite fmap_app, elem_of_app.
  destruct (decide (tx_id_of common ∈ (TxRow.signature <$> Db.rows db))) as [|Hnot]; [by left|right].
  assert (Hd : (common, amount, input) ∈ l).
  { unfold l, accepted. apply list_elem_of_omap. eexists. split; [exact Hm|]. cbn.
    by rewrite He, bool_decide_false. }
  exact (number_ops_signature l n _ Hd).
Qed.

Context {W : Type} `{BitcoinOps W}.
#[local] Arguments max_row : simpl never.
#[local] Arguments wrap : simpl never.

(** C30 Restarting continues the ledger: on a table whose priority operations have the
    ids [0 .. n - 1], whatever L2 transactions and upgrades it has besides, the
    watcher's initial next id is [n] and it reads again from the block of the last
    deposit; on a table without deposits it starts at id [0], [btc_blocks_lag] blocks
    behind the tip. *)
Theorem restart_recovers_ledger idx lag n db (w : W) :
  ledger n (Db.rows db) → 0 ≤ n < 2 ^ 63 → Db.faults db = [] →
  let bridge := IndexerState.bridge_address idx in
  (∀ row b, last (deposit_rows (Db.rows db)) = Some row → TxRow.l1_block_number row = Some b →
    initialize_state idx lag (db, w) =
    Ret (inr (saturating_sub (wrap 32 b) 1, bridge, n), (db, w))) ∧
  (deposit_rows (Db.rows db) = [] → ∀ h w', fetch_block_height w = Ret (inr h, w') →
    initialize_state idx lag (db, w) =
    Ret (inr (wrap 32 (saturating_sub h lag), bridge, n), (db, w'))).
Proof using.
  intros Hl Hn Hf bridge. destruct db as [rows faults]. cbn [Db.rows Db.faults] in Hl, Hf |- *. subst faults.
  pose proof (max_row_ledger n rows (ledger_ids _ _ Hl) ltac:(lia)) as Hmax.
  assert (Hall : deposit_rows (filter (λ r, TxRow.is_priority r = true) rows) = deposit_rows rows).
  { pose proof (ledger_priority _ _ Hl) as Hp. rewrite Forall_forall in Hp. unfold deposit_rows in *. clear -Hp.
    rewrite list_filter_filter. apply filter_ext_in. intros r Hr. split; [by intros [? _]|]. intros Hs. split; [done|].
    apply Hp, list_elem_of_filter. done. }
  assert (Hlen : length (deposit_rows rows) = Z.to_nat n).
  { pose proof (f_equal length (ledger_ids _ _ Hl)) as Hlen. by rewrite !length_fmap, length_seqZ in Hlen. }
  assert (Hid : ∀ w : W, db_call (W:=W) last_priority_id (Db.mk rows [], w) =
    Ret (inr ((λ _, n - 1) <$> last (deposit_rows rows)), (Db.mk rows [], w))).
  { intros w0. unfold db_call, last_priority_id, query. cbn.
    rewrite (max_row_ledger n); rewrite ?Hall; [|apply (ledger_ids _ _ Hl)|lia].
    destruct (last (deposit_rows rows)) eqn:Hlast; [|done]. cbn. rewrite wrap_small; [done|].
    destruct (deposit_rows rows); [done|]. cbn in Hlen. unfold in_width. lia. }
  unfold initialize_state. split.
  - intros row b Hlast Hb. rewrite Hlast in Hmax, Hid. cbn in Hmax.
    rewrite (prog_bind_step _ _ _ (Some (wrap 32 b)) (Db.mk rows [], w)).
    2: { unfold db_call, get_last_processed_l1_block, query. cbn. rewrite Hmax. cbn. by rewrite Hb. }
    cbv beta iota. rewrite (prog_bind_step _ _ _ (saturating_sub (wrap 32 b) 1) (Db.mk rows [], w)) by done.
    cbv zeta. rewrite (prog_bind_step _ _ _ _ _ (Hid w)). cbn.
    rewrite (wrap_small 64) by (unfold in_width; lia). by replace (n - 1 + 1) with n by lia.
  - intros Hnone h w' Hh. rewrite Hnone in *.
    rewrite (prog_bind_step _ _ _ None (Db.mk rows [], w)).
    2: { unfold db_call, get_last_processed_l1_block, query. cbn. by rewrite Hmax. }
    cbv beta iota.
    rewrite (prog_bind_step _ _ _ (wrap 32 (saturating_sub h lag)) (Db.mk rows [], w')).
    2: { unfold mbind, prog_bind, client_height. by rewrite Hh. }
    cbv zeta. rewrite (prog_bind_step _ _ _ _ _ (Hid w')). cbn.
    cbn in Hlen. by replace n with 0 by lia.
Qed.
End facts.

(** ** Runs of the watcher on the concrete library *)
Module WatchRuns.
(** A hash that is the nonce. *)
Definition toy_keccak (bs : list byte) : H256 := default 0 (decode_Z bs).
Definition toy_abi (tokens : list Token) : list byte :=
  match tokens with
  | [TTuple l] => match l !! 8%nat with Some (TUint n) => encode_Z n | _ => [] end
  | _ => []
  end.

Definition bridge : BitcoinAddress := 23.
Definition to_l2 (receiver : Address) : InscriptionMessage.t :=
  InscriptionMessage.L1ToL2Message (L1ToL2MessageInput.mk receiver 2 []).
Definition pays (a : BitcoinAddress) (v : Amount) : TxOut.t := TxOut.mk v (address_script_pubkey a).

(** A deposit of 500; two messages in one transaction that pays 500 once; a
    bridge redirect by anybody, then a deposit of 1 with 500 paid to another
    address. *)
Definition single : BtcBlock.t := BtcBlock.mk 0 [IndexerWitness.message_tx 10 (to_l2 1) [pays bridge 500]].
Definition twice_tx : BtcTransaction.t :=
  let tx := IndexerWitness.message_tx 10 (to_l2 1) [pays bridge 500] in
  BtcTransaction.mk 2 0 (BtcTransaction.input tx ++ drop 1 (BtcTransaction.input tx)) [pays bridge 500].
Definition twice : BtcBlock.t := BtcBlock.mk 0 [twice_tx].
Definition redirect_txs : list BtcTransaction.t :=
  [IndexerWitness.message_tx 10
     (InscriptionMessage.SystemBootstrapping (IndexerWitness.bootstrapping [] 43)) [];
   IndexerWitness.message_tx 10 (to_l2 1) [pays 43 500; pays bridge 1]].
Definition redirect : BtcBlock.t := BtcBlock.mk 0 redirect_txs.

(** The world is the block at height 20. *)
#[export] Instance node : BitcoinOps BtcBlock.t := {
  BtcClient.get_balance _ := mret 0;
  BtcClient.broadcast_signed_transaction _ := fail Rpc;
  BtcClient.fetch_utxos _ := fail Rpc;
  BtcClient.check_tx_confirmation _ _ := mret false;
  BtcClient.fetch_block_height := mret 20;
  BtcClient.get_fee_rate _ := mret 2;
  BtcClient.get_network := Regtest;
  BtcClient.fetch_block _ := get;
  BtcClient.get_transaction _ := fail Rpc;
  BtcClient.fetch_block_by_hash _ := fail Rpc;
}.

Definition start (faults : list bool) (block : BtcBlock.t) : watch :=
  mk_watch (IndexerState.mk (MessageParser.mk Regtest (Some bridge)) bridge 15 [3; 7] 10)
    0 19 (L1ToL2MessageProcessor.new bridge 0) 1 (Db.mk [] faults) block.

Definition run_watch (n : nat) (s : watch) : exec (option WatchError * watch) :=
  run toy_keccak toy_abi 0 n s.

Definition bridge_value (txs : list BtcTransaction.t) : Z :=
  foldr Z.add 0 (TxOut.value <$> filter (λ o, TxOut.script_pubkey o = address_script_pubkey bridge)
    (txs ≫= BtcTransaction.output)).

(** A failed insert loses a serial id: when the database fails on the insert of
    the first deposit and the watcher reads the block again, the deposit is stored
    with id 1 and id 0 is never used, so the ledger has a gap. *)
Theorem failed_insert_leaves_gap :
  ∃ s, run_watch 2 (start [false; true] single) = Ret (None, s) ∧
    (TxRow.priority_op_id <$> Db.rows (storage s)) = [Some 1] ∧
    L1ToL2MessageProcessor.next_expected_priority_id (processor s) = 2 ∧
    ¬ ledger 2 (Db.rows (storage s)).
Proof.
  eexists. split; [vm_compute; reflexivity|].
  split; [reflexivity|]. split; [reflexivity|]. intros [Hids _]. vm_compute in Hids. discriminate Hids.
Qed.

(** Two messages in one Bitcoin transaction both mint the whole payment: one
    transaction pays the bridge 500 and the table gets two rows minting 500. *)
Theorem two_messages_mint_twice :
  ∃ s, run_watch 1 (start [] twice) = Ret (None, s) ∧
    TxRow.l1_tx_mint <$> Db.rows (storage s) = [500; 500] ∧
    bridge_value (BtcBlock.txdata twice) = 500.
Proof. eexists. split; [vm_compute; reflexivity|]. by split. Qed.

(** After a bootstrapping inscription by anybody names another bridge address, a
    deposit mints what it pays to that address: the block pays the bridge 1 and
    the table mints 500. *)
Theorem redirected_bridge_mints :
  ∃ s, run_watch 1 (start [] redirect) = Ret (None, s) ∧
    TxRow.l1_tx_mint <$> Db.rows (storage s) = [500] ∧
    bridge_value (BtcBlock.txdata redirect) = 1.
Proof. eexists. split; [vm_compute; reflexivity|]. by split. Qed.

(** ** Witnesses *)
Definition message : FullInscriptionMessage.t :=
  FullInscriptionMessage.L1ToL2Message (CommonFields.mk 0 [] 20 77 43) 500
    (L1ToL2MessageInput.mk 1 2 []) [pays bridge 500].
Definition processor0 : L1ToL2MessageProcessor.t := L1ToL2MessageProcessor.new bridge 0.
(** A table that has an L2 transaction and an upgrade already. *)
Definition l2_row (hash : H256) (is_priority : bool) : TxRow.t :=
  TxRow.mk hash is_priority 5 0 0 0 (Execute.mk 5 [] 0 []) None 0 0 5 None 0 0 [] 2 0 0 (0, 0) 6.
Definition others : list TxRow.t := [l2_row 1001 false; l2_row 1002 true].
Definition db0 : Db.t := Db.mk others [].
Definition deposit0 : TxRow.t :=
  op_row (op_of toy_keccak toy_abi 0 0 (CommonFields.mk 0 [] 20 77 43, 500, L1ToL2MessageInput.mk 1 2 [])).
Definition db1 : Db.t := Db.mk (others ++ [deposit0]) [].

Lemma empty_ledger : ledger 0 others.
Proof. split; [done|constructor]. Qed.

Lemma others_no_collision :
  no_collision (others ++ (op_row <$> number_ops toy_keccak toy_abi 0 0 (accepted bridge others [message]))).
Proof.
  assert (Hl : op_row <$> number_ops toy_keccak toy_abi 0 0 (accepted bridge others [message]) = [deposit0]) by (vm_compute; reflexivity).
  rewrite Hl. intros r1 r2 H1 H2. unfold others in *. cbn [app] in *. rewrite !elem_of_cons, elem_of_nil in *.
  destruct H1 as [->|[->|[->|[]]]], H2 as [->|[->|[->|[]]]]; vm_compute; congruence.
Qed.

Lemma deposits_extend_ledger_witness :
  (∃ s, process_messages toy_keccak toy_abi 0 [message] (processor0, db0) = Ret (inr (), s)) ∧
  ∀ p' db', process_messages toy_keccak toy_abi 0 [message] (processor0, db0) = Ret (inr (), (p', db')) →
    Db.rows db' = Db.rows db1 ∧ ledger 1 (Db.rows db').
Proof.
  destruct (deposits_extend_ledger toy_keccak toy_abi 0 [message] processor0 db0
    others_no_collision empty_ledger) as [Htotal Hspec]; [cbn; lia|cbn; lia|].
  split; [by apply Htotal|]. intros p' db' Hp. destruct (Hspec p' db' Hp) as (Hr & Hn & Hl).
  rewrite Hn in Hl. split; [exact Hr|exact Hl].
Defined.

Lemma deposits_processed_once_witness :
  process_messages toy_keccak toy_abi 0 [message] (L1ToL2MessageProcessor.new bridge 1, db1) =
  Ret (inr (), (L1ToL2MessageProcessor.new bridge 1, db1)).
Proof.
  apply (deposits_processed_once toy_keccak toy_abi 0 [message] processor0 db0
    (L1ToL2MessageProcessor.new bridge 1) db1 db1).
  - exact others_no_collision.
  - exact empty_ledger.
  - cbn. lia.
  - cbn. lia.
  - vm_compute. reflexivity.
  - reflexivity.
  - reflexivity.
Defined.

Lemma restart_recovers_ledger_witness :
  initialize_state (indexer (start [] single)) 1 (db1, single) = Ret (inr (19, bridge, 1), (db1, single)) ∧
  initialize_state (indexer (start [] single)) 1 (db0, single) = Ret (inr (19, bridge, 0), (db0, single)).
Proof.
  split.
  - destruct (restart_recovers_ledger (indexer (start [] single)) 1 1 db1 single)
      as [Hlast _]; [|lia|done|].
    + split; [reflexivity|]. by repeat constructor.
    + by apply (Hlast deposit0 20).
  - destruct (restart_recovers_ledger (indexer (start [] single)) 1 0 db0 single)
      as [_ Hempty]; [exact empty_ledger|lia|done|].
    by apply (Hempty eq_refl 20 single).
Defined.
End WatchRuns.
