(* ===== verification/Sql.v ===== *)
(** * Tables as lists of rows

    What the models of the database share: [ORDER BY], [MIN] and [MAX], [INSERT] under a
    unique key, [UPDATE] and [DELETE]. A table is the list of its rows in insertion order. *)
From S2P Require Import Prelude.
Local Open Scope Z_scope.

(** [ORDER BY key]. *)
Definition key_le {A} (key : A → Z) (x y : A) : Prop := key x ≤ key y.
#[export] Instance key_le_dec {A} (key : A → Z) (x y : A) : Decision (key_le key x y) :=
  Z_le_dec (key x) (key y).
Definition order_by {A} (key : A → Z) (l : list A) : list A := merge_sort (key_le key) l.

(** [ORDER BY key1, key2]. *)
Definition lex_le {A} (key1 key2 : A → Z) (x y : A) : Prop := key1 x < key1 y ∨ key1 x = key1 y ∧ key2 x ≤ key2 y.
#[export] Instance lex_le_dec {A} (key1 key2 : A → Z) : RelDecision (lex_le key1 key2).
Proof. intros x y. unfold lex_le. apply _. Defined.
#[export] Instance lex_le_trans {A} (key1 key2 : A → Z) : Transitive (lex_le key1 key2).
Proof. intros x y z. unfold lex_le. lia. Qed.
#[export] Instance lex_le_total {A} (key1 key2 : A → Z) : Total (lex_le key1 key2).
Proof. intros x y. unfold lex_le. lia. Qed.
Definition order_by2 {A} (key1 key2 : A → Z) (l : list A) : list A := merge_sort (lex_le key1 key2) l.

(** [MAX(column)] and [MIN(column)], [NULL] without a row. *)
Definition sql_max (l : list Z) : option Z :=
  match l with [] => None | x :: l => Some (foldr Z.max x l) end.
Definition sql_min (l : list Z) : option Z :=
  match l with [] => None | x :: l => Some (foldr Z.min x l) end.

(** [INSERT] into a table with a unique key. *)
Definition unique_violation : string := "duplicate key value violates unique constraint".
Definition insert_unique {A K} `{EqDecision K} (key : A → K) (rows table : list A) : string + list A :=
  if decide (NoDup (key <$> rows) ∧ Forall (λ r, key r ∉ (key <$> table)) rows) then inr (table ++ rows) else inl unique_violation.

(** [UPDATE .. WHERE p] and [DELETE .. WHERE p]. *)
Definition update_where {A} (p : A → bool) (f : A → A) (table : list A) : list A :=
  (λ r, if p r then f r else r) <$> table.
Definition delete_where {A} (p : A → bool) (table : list A) : list A := filter (λ r, p r = false) table.

(** ** Lemmas *)
Lemma list_filter_all_false {A} (P : A → Prop) `{∀ x, Decision (P x)} l : Forall (λ x, ¬ P x) l → filter P l = [].
Proof. induction 1 as [|x l Hx Hl IH]; [done|]. by rewrite filter_cons, decide_False. Qed.
Lemma list_filter_all_true {A} (P : A → Prop) `{∀ x, Decision (P x)} l : Forall P l → filter P l = l.
Proof. induction 1 as [|x l Hx Hl IH]; [done|]. rewrite filter_cons, decide_True by done. by f_equal. Qed.

Lemma insert_unique_inr {A K} `{EqDecision K} (key : A → K) rows table table' :
  insert_unique key rows table = inr table' → table' = table ++ rows.
Proof. unfold insert_unique. case_decide; [by intros [= <-]|done]. Qed.

Lemma sql_max_app l x : Forall (λ y, y ≤ x) l → sql_max (l ++ [x]) = Some x.
Proof.
  destruct l as [|y l]; [done|]. intros Hl. apply Forall_cons in Hl as [Hy Hl]. cbn. f_equal.
  induction l as [|z l IH]; cbn; [lia|]. apply Forall_cons in Hl as [Hz Hl]. rewrite IH by done. lia.
Qed.

Lemma delete_where_app {A} (p : A → bool) l1 l2 : delete_where p (l1 ++ l2) = delete_where p l1 ++ delete_where p l2.
Proof. apply filter_app. Qed.
Lemma delete_where_none {A} (p : A → bool) l : Forall (λ r, p r = false) l → delete_where p l = l.
Proof. induction 1 as [|r l Hr Hl IH]; [done|]. unfold delete_where in *. rewrite filter_cons, decide_True by done. by f_equal. Qed.
Lemma delete_where_all {A} (p : A → bool) l : Forall (λ r, p r = true) l → delete_where p l = [].
Proof. induction 1 as [|r l Hr Hl IH]; [done|]. unfold delete_where in *. rewrite filter_cons, decide_False by congruence. done. Qed.

(** Rows that differ in their keys have one order. *)
Lemma sorted_unique_in {A} (R : relation A) (l1 l2 : list A) :
  (∀ x y, x ∈ l2 → y ∈ l2 → R x y → R y x → x = y) → StronglySorted R l1 → StronglySorted R l2 → l1 ≡ₚ l2 → l1 = l2.
Proof.
  revert l2. induction l1 as [|x l1 IH]; intros l2 Hnd Hs1 Hs2 Hp; [by apply Permutation_nil_l|].
  destruct l2 as [|y l2]; [by apply Permutation_nil_r in Hp|].
  apply StronglySorted_inv in Hs1 as [Hs1 Hx]. apply StronglySorted_inv in Hs2 as [Hs2 Hy].
  assert (x = y) as ->.
  { assert (Hxin : x ∈ y :: l2) by (rewrite <-Hp; left). assert (Hyin : y ∈ x :: l1) by (rewrite Hp; left).
    rewrite Forall_forall in Hx, Hy. pose proof Hxin as [|Hxl]%elem_of_cons; [done|]. pose proof Hyin as [|Hyl]%elem_of_cons; [done|].
    apply Hnd; [done|left|by apply Hx|by apply Hy]. }
  f_equal. apply Permutation_cons_inv in Hp. apply IH; [|done..]. intros x y' Hx' Hy'. apply Hnd; by right.
Qed.
Lemma order_by2_unique {A} (key1 key2 : A → Z) (l1 l2 : list A) :
  StronglySorted (λ x y, lex_le key1 key2 x y ∧ ¬ lex_le key1 key2 y x) l2 → l1 ≡ₚ l2 → order_by2 key1 key2 l1 = l2.
Proof.
  intros Hs Hp. apply (sorted_unique_in (lex_le key1 key2)); [|apply (StronglySorted_merge_sort _)| |unfold order_by2; by rewrite merge_sort_Permutation].
  - clear Hp. induction Hs as [|x l Hs IH Hx]; intros a b; [by intros ?%elem_of_nil|]. rewrite Forall_forall in Hx.
    intros [->|Ha]%elem_of_cons [->|Hb]%elem_of_cons Hab Hba; [done| | |by apply IH]; by destruct (Hx _ ltac:(eassumption)).
  - clear Hp. induction Hs as [|x l Hs IH Hx]; constructor; [done|]. eapply Forall_impl; [done|]. naive_solver.
Qed.
Lemma order_by_sorted {A} (key : A → Z) l : StronglySorted (λ x y, key x < key y) l → order_by key l = l.
Proof.
  intros Hs. assert (Trans : Transitive (key_le key)) by (intros x y z; unfold key_le; lia).
  assert (Tot : Total (key_le key)) by (intros x y; unfold key_le; lia).
  apply (sorted_unique_in (key_le key)); [|apply (StronglySorted_merge_sort _)| |unfold order_by; by rewrite merge_sort_Permutation].
  - induction Hs as [|x l Hs IH Hx]; intros a b; [by intros ?%elem_of_nil|]. rewrite Forall_forall in Hx.
    intros [->|Ha]%elem_of_cons [->|Hb]%elem_of_cons Hab Hba; [done| | |by apply IH]; unfold key_le in *;
      by pose proof (Hx _ ltac:(eassumption)); lia.
  - induction Hs as [|x l Hs IH Hx]; constructor; [done|]. eapply Forall_impl; [done|]. unfold key_le. intros. cbn in *. lia.
Qed.

Lemma delete_where_ext_in {A} (p q : A → bool) l : (∀ r, r ∈ l → p r = q r) → delete_where p l = delete_where q l.
Proof.
  unfold delete_where. induction l as [|x l IH]; intros Hpq; [done|]. rewrite !filter_cons, (Hpq x) by left.
  rewrite IH; [done|]. intros r Hr. apply Hpq. by right.
Qed.
Lemma elem_of_delete_where {A} (p : A → bool) l r : r ∈ delete_where p l ↔ p r = false ∧ r ∈ l.
Proof. unfold delete_where. by rewrite list_elem_of_filter. Qed.
Lemma elem_of_update_where {A} (p : A → bool) f l r' : r' ∈ update_where p f l ↔ ∃ r, r ∈ l ∧ r' = if p r then f r else r.
Proof. unfold update_where. rewrite list_elem_of_fmap. naive_solver. Qed.

(** A unique key determines its row. *)
Lemma unique_key_inj {A K} (key : A → K) l x y : NoDup (key <$> l) → x ∈ l → y ∈ l → key x = key y → x = y.
Proof.
  intros Hnd (i & Hi)%list_elem_of_lookup (j & Hj)%list_elem_of_lookup Hk.
  assert (i = j) as ->; [|congruence]. apply (NoDup_lookup _ _ _ (key x) Hnd); rewrite list_lookup_fmap; [by rewrite Hi|by rewrite Hj, Hk].
Qed.
Lemma unique_some_key_inj {A K} (key : A → option K) l x y k :
  NoDup (omap key l) → x ∈ l → y ∈ l → key x = Some k → key y = Some k → x = y.
Proof.
  induction l as [|z l IH]; intros Hnd Hx Hy Ekx Eky; [by apply elem_of_nil in Hx|]. cbn in Hnd.
  apply elem_of_cons in Hx as [->|Hx]; apply elem_of_cons in Hy as [Ey|Hy]; [done| | |].
  - rewrite Ekx in Hnd. apply NoDup_cons in Hnd as [Hn _]. exfalso. apply Hn, list_elem_of_omap. eauto.
  - subst. rewrite Eky in Hnd. apply NoDup_cons in Hnd as [Hn _]. exfalso. apply Hn, list_elem_of_omap. eauto.
  - apply IH; try done. destruct (key z); [by apply NoDup_cons in Hnd as [_ ?]|done].
Qed.
Lemma omap_fmap_same {A B} (f : A → option B) (g : A → A) (l : list A) : (∀ x, x ∈ l → f (g x) = f x) → omap f (g <$> l) = omap f l.
Proof.
  induction l as [|x l IH]; intros Hf; [done|]. cbn. rewrite (Hf x) by left. destruct (f x); rewrite IH; try done; intros y Hy; apply Hf; by right.
Qed.
