(* ===== verification/SenderDal.v ===== *)
(** * The tables of the Bitcoin sender ([dal/src/{btc_sender_dal,via_blocks_dal}.rs])

    The tables of the migration [add_via_btc_inscription_requests] and the columns
    of the core tables their queries join with, each as the list of its rows in
    insertion order, with the [UNIQUE] and foreign key constraints the sender's
    statements can violate. The columns [created_at] and [updated_at] are kept
    where a query reads them. A statement may fail, which the schedule of faults
    decides; a transaction that ends in an error restores the rows, but not the
    identity sequences. *)
From S2P Require Import Prelude Types BtcTypes Sql.
Local Open Scope Z_scope.

(** [Txid]'s [Display] and [FromStr], and [Txid::all_zeros]. *)
Class TxidText := {
  txid_to_string : Txid → string;
  txid_from_str : string → option Txid;
  txid_all_zeros : Txid;
}.
Class TxidTextLaws `{TxidText} : Prop := {
  txid_text_roundtrip t : txid_from_str (txid_to_string t) = Some t;
  txid_text_empty : txid_from_str EmptyString = None;
}.

(** ** Records *)
Module ViaBtcL1BlockDetails.
Record t := mk {
  number : L1BatchNumber;
  timestamp : Z;
  hash : option (list byte);
  commit_tx_id : Txid;
  reveal_tx_id : Txid;
  blob_id : list byte;
}.
End ViaBtcL1BlockDetails.

Inductive ViaBtcInscriptionRequestType := CommitL1BatchOnchain | CommitProofOnchain.
#[export] Instance request_type_eq_dec : EqDecision ViaBtcInscriptionRequestType.
Proof. solve_decision. Defined.

Definition as_str (self : ViaBtcInscriptionRequestType) : string :=
  match self with
  | CommitL1BatchOnchain => "CommitL1BatchOnchain"
  | CommitProofOnchain => "CommitProofOnchain"
  end.
Definition request_type_from_str (s : string) : option ViaBtcInscriptionRequestType :=
  if decide (s = "CommitL1BatchOnchain") then Some CommitL1BatchOnchain
  else if decide (s = "CommitProofOnchain") then Some CommitProofOnchain
  else None.
Definition request_type_from_string (s : string) : exec ViaBtcInscriptionRequestType :=
  expect (request_type_from_str s).

Module ViaBtcInscriptionRequest.
Record t := mk {
  id : Z;
  request_type : ViaBtcInscriptionRequestType;
  inscription_message : option (list byte);
  predicted_fee : option Z;
  confirmed_inscriptions_request_history_id : option Z;
}.
End ViaBtcInscriptionRequest.

Module ViaBtcInscriptionRequestHistory.
Record t := mk {
  id : Z;
  commit_tx_id : Txid;
  reveal_tx_id : Txid;
  inscription_request_id : Z;
  signed_commit_tx : option (list byte);
  signed_reveal_tx : option (list byte);
  actual_fees : Z;
  sent_at_block : Z;
  confirmed_at : option Z;
}.
End ViaBtcInscriptionRequestHistory.

(** ** Rows *)
Module L1BatchRow.
Record t := mk {
  number : Z;
  timestamp : Z;
  hash : option (list byte);
  commitment : option (list byte);
  protocol_version : option Z;
}.
End L1BatchRow.

Module CommitmentRow.
Record t := mk {
  l1_batch_number : Z;
  events_queue_commitment : option (list byte);
  bootloader_initial_content_commitment : option (list byte);
}.
End CommitmentRow.

Module ProtocolVersionRow.
Record t := mk {
  id : Z;
  bootloader_code_hash : H256;
  default_account_code_hash : H256;
  upgrade_tx_hash : option H256;
}.
End ProtocolVersionRow.

Module DataAvailabilityRow.
Record t := mk {
  l1_batch_number : Z;
  is_proof : bool;
  blob_id : list byte;
  inclusion_data : option (list byte);
}.
End DataAvailabilityRow.

(** [via_btc_inscriptions_request] and [ViaStorageBtcInscriptionRequest]. *)
Module RequestRow.
Record t := mk {
  id : Z;
  request_type : string;
  inscription_message : option (list byte);
  predicted_fee : option Z;
  confirmed_inscriptions_request_history_id : option Z;
}.
End RequestRow.

(** [via_btc_inscriptions_request_history] and
    [ViaStorageBtcInscriptionRequestHistory]. *)
Module HistoryRow.
Record t := mk {
  id : Z;
  commit_tx_id : string;
  reveal_tx_id : string;
  inscription_request_id : Z;
  signed_commit_tx : list byte;
  signed_reveal_tx : list byte;
  actual_fees : Z;
  confirmed_at : option Z;
  sent_at_block : Z;
  created_at : Z;
}.
End HistoryRow.

(** [via_l1_batch_inscription_request]. *)
Module BatchRequestRow.
Record t := mk {
  l1_batch_number : Z;
  commit_l1_batch_inscription_id : Z;
  commit_proof_inscription_id : option Z;
}.
End BatchRequestRow.

Module SenderDb.
Record t := mk {
  l1_batches : list L1BatchRow.t;
  commitments : list CommitmentRow.t;
  protocol_versions : list ProtocolVersionRow.t;
  data_availability : list DataAvailabilityRow.t;
  requests : list RequestRow.t;
  history : list HistoryRow.t;
  batch_requests : list BatchRequestRow.t;
  next_request_id : Z;
  next_history_id : Z;
  clock : Z;
  faults : list bool;
}.

Definition set_faults (db : t) (fs : list bool) : t :=
  mk (l1_batches db) (commitments db) (protocol_versions db) (data_availability db)
    (requests db) (history db) (batch_requests db) (next_request_id db) (next_history_id db)
    (clock db) fs.
Definition set_requests (db : t) (rs : list RequestRow.t) (next : Z) : t :=
  mk (l1_batches db) (commitments db) (protocol_versions db) (data_availability db)
    rs (history db) (batch_requests db) next (next_history_id db) (clock db) (faults db).
Definition set_history (db : t) (hs : list HistoryRow.t) (next : Z) : t :=
  mk (l1_batches db) (commitments db) (protocol_versions db) (data_availability db)
    (requests db) hs (batch_requests db) (next_request_id db) next (clock db) (faults db).
Definition set_batch_requests (db : t) (brs : list BatchRequestRow.t) : t :=
  mk (l1_batches db) (commitments db) (protocol_versions db) (data_availability db)
    (requests db) (history db) brs (next_request_id db) (next_history_id db) (clock db) (faults db).
(** The rows of [db] with the sequences and the faults left of [db']. *)
Definition rollback (db db' : t) : t :=
  mk (l1_batches db) (commitments db) (protocol_versions db) (data_availability db)
    (requests db) (history db) (batch_requests db) (next_request_id db') (next_history_id db')
    (clock db) (faults db').
End SenderDb.

Inductive SqlError :=
| ConnectionFault
| UniqueViolation
| ForeignKeyViolation
| NegativeLimit
| ConstraintError (message : string).

Abbreviation Q A := (prog SenderDb.t SqlError A).

(** ** Statements *)

(** One statement: a fault, an error beside what it has done to the sequences, or
    its answer and the new tables. *)
Definition statement {A} (f : SenderDb.t → (SqlError + A) * SenderDb.t) : Q A := λ db,
  match SenderDb.faults db with
  | true :: fs => Ret (inl ConnectionFault, SenderDb.set_faults db fs)
  | fs => Ret (f (SenderDb.set_faults db (tail fs)))
  end.

Definition start_transaction : Q () := statement (λ db, (inr (), db)).
Definition commit : Q () := statement (λ db, (inr (), db)).

(** A transaction: begun, and dropped unless it is committed. *)
Definition atomically {A} (body : Q A) : Q A := λ db,
  match (a ← body; _ ← commit; mret a) db with
  | Ret (inl e, db') => Ret (inl e, SenderDb.rollback db db')
  | r => r
  end.
Definition in_transaction {A} (body : Q A) : Q A := _ ← start_transaction; atomically body.

(** [LEFT JOIN l ON p]: the matching rows, or one row of [NULL]s. *)
Definition left_join {A} (p : A → bool) (l : list A) : list (option A) :=
  match filter p l with [] => [None] | l' => Some <$> l' end.

(** [LIMIT]. *)
Definition limited {A} (limit : Z) (l : list A) : SqlError + list A :=
  if decide (limit < 0) then inl NegativeLimit else inr (take (Z.to_nat limit) l).

(** ** [ViaBtcSenderDal] *)
Section btc_sender_dal.
Context `{TxidText}.

(** [From<ViaStorageBtcInscriptionRequest>] and [query_as!]'s conversion of the
    returned row: an unknown type panics. *)
Definition request_from (row : RequestRow.t) : exec ViaBtcInscriptionRequest.t :=
  request_type ← request_type_from_string (RequestRow.request_type row);
  Ret {| ViaBtcInscriptionRequest.id := RequestRow.id row;
         ViaBtcInscriptionRequest.request_type := request_type;
         ViaBtcInscriptionRequest.inscription_message := RequestRow.inscription_message row;
         ViaBtcInscriptionRequest.predicted_fee := RequestRow.predicted_fee row;
         ViaBtcInscriptionRequest.confirmed_inscriptions_request_history_id :=
           RequestRow.confirmed_inscriptions_request_history_id row |}.

(** [From<ViaStorageBtcInscriptionRequestHistory>]. *)
Definition history_from (row : HistoryRow.t) : exec ViaBtcInscriptionRequestHistory.t :=
  commit_tx_id ← expect (txid_from_str (HistoryRow.commit_tx_id row));
  reveal_tx_id ← expect (txid_from_str (HistoryRow.reveal_tx_id row));
  Ret {| ViaBtcInscriptionRequestHistory.id := HistoryRow.id row;
         ViaBtcInscriptionRequestHistory.commit_tx_id := commit_tx_id;
         ViaBtcInscriptionRequestHistory.reveal_tx_id := reveal_tx_id;
         ViaBtcInscriptionRequestHistory.inscription_request_id := HistoryRow.inscription_request_id row;
         ViaBtcInscriptionRequestHistory.signed_commit_tx := Some (HistoryRow.signed_commit_tx row);
         ViaBtcInscriptionRequestHistory.signed_reveal_tx := Some (HistoryRow.signed_reveal_tx row);
         ViaBtcInscriptionRequestHistory.actual_fees := HistoryRow.actual_fees row;
         ViaBtcInscriptionRequestHistory.sent_at_block := HistoryRow.sent_at_block row;
         ViaBtcInscriptionRequestHistory.confirmed_at := HistoryRow.confirmed_at row |}.

Definition via_save_btc_inscriptions_request (inscription_request_type : ViaBtcInscriptionRequestType)
    (inscription_message : list byte) (predicted_fee : Z) : Q ViaBtcInscriptionRequest.t :=
  row ← statement (λ db,
    let row :=
      {| RequestRow.id := SenderDb.next_request_id db;
         RequestRow.request_type := as_str inscription_request_type;
         RequestRow.inscription_message := Some inscription_message;
         RequestRow.predicted_fee := Some (to_signed 64 predicted_fee);
         RequestRow.confirmed_inscriptions_request_history_id := None |} in
    (inr row,
     SenderDb.set_requests db (SenderDb.requests db ++ [row]) (SenderDb.next_request_id db + 1)));
  lift_exec (request_from row).

(** The history rows of a request. *)
Definition history_of (db : SenderDb.t) (request_id : Z) : list HistoryRow.t :=
  filter (λ h, HistoryRow.inscription_request_id h = request_id) (SenderDb.history db).

(** [ORDER BY created_at DESC LIMIT 1]; of rows of one time, which the query leaves
    open, the one inserted last. *)
Definition latest_created (hs : list HistoryRow.t) : option HistoryRow.t :=
  foldl (λ acc h,
    match acc with
    | Some m => if decide (HistoryRow.created_at m ≤ HistoryRow.created_at h) then Some h else acc
    | None => Some h
    end) None hs.

Definition is_inflight (db : SenderDb.t) (r : RequestRow.t) (h : HistoryRow.t) : bool :=
  bool_decide (RequestRow.id r = HistoryRow.inscription_request_id h) &&
  bool_decide (RequestRow.confirmed_inscriptions_request_history_id r = None) &&
  bool_decide (Some (HistoryRow.id h) =
    (HistoryRow.id <$> latest_created (history_of db (RequestRow.id r)))).

Definition inflight_rows (db : SenderDb.t) : list RequestRow.t :=
  order_by RequestRow.id (SenderDb.requests db ≫= λ r,
    (λ _, r) <$> filter (is_inflight db r) (SenderDb.history db)).

Definition get_inflight_inscriptions : Q (list ViaBtcInscriptionRequest.t) :=
  txs ← statement (λ db, (inr (inflight_rows db), db));
  lift_exec (mapM request_from txs).

Definition new_rows (db : SenderDb.t) : list RequestRow.t :=
  order_by RequestRow.id (filter (λ r, history_of db (RequestRow.id r) = []) (SenderDb.requests db)).

Definition list_new_inscription_request (limit : Z) : Q (list ViaBtcInscriptionRequest.t) :=
  txs ← statement (λ db, (limited limit (new_rows db), db));
  lift_exec (mapM request_from txs).

(** The sequence advances before the constraints are checked. *)
Definition insert_inscription_request_history (commit_tx_id reveal_tx_id : Txid)
    (inscription_request_id : Z) (signed_commit_tx signed_reveal_tx : list byte)
    (actual_fees sent_at_block : Z) : Q (option Z) :=
  statement (λ db,
    let row :=
      {| HistoryRow.id := SenderDb.next_history_id db;
         HistoryRow.commit_tx_id := txid_to_string commit_tx_id;
         HistoryRow.reveal_tx_id := txid_to_string reveal_tx_id;
         HistoryRow.inscription_request_id := inscription_request_id;
         HistoryRow.signed_commit_tx := signed_commit_tx;
         HistoryRow.signed_reveal_tx := signed_reveal_tx;
         HistoryRow.actual_fees := actual_fees;
         HistoryRow.confirmed_at := None;
         HistoryRow.sent_at_block := to_signed 32 (wrap 32 sent_at_block);
         HistoryRow.created_at := SenderDb.clock db |} in
    let db' hs := SenderDb.set_history db hs (SenderDb.next_history_id db + 1) in
    if decide (HistoryRow.commit_tx_id row ∈ (HistoryRow.commit_tx_id <$> SenderDb.history db) ∨
               HistoryRow.reveal_tx_id row ∈ (HistoryRow.reveal_tx_id <$> SenderDb.history db))
    then (inl UniqueViolation, db' (SenderDb.history db))
    else if decide (inscription_request_id ∈ (RequestRow.id <$> SenderDb.requests db))
    then (inr (Some (wrap 32 (HistoryRow.id row))), db' (SenderDb.history db ++ [row]))
    else (inl ForeignKeyViolation, db' (SenderDb.history db))).

(** [ORDER BY id DESC LIMIT 1]. *)
Definition last_by_id (hs : list HistoryRow.t) : option HistoryRow.t :=
  foldl (λ acc h,
    match acc with
    | Some m => if decide (HistoryRow.id m < HistoryRow.id h) then Some h else acc
    | None => Some h
    end) None hs.

Definition get_last_inscription_request_history (inscription_request_id : Z)
    : Q (option ViaBtcInscriptionRequestHistory.t) :=
  row ← statement (λ db, (inr (last_by_id (history_of db inscription_request_id)), db));
  match row with
  | None => mret None
  | Some row => h ← lift_exec (history_from row); mret (Some h)
  end.

Definition get_total_inscription_request_history (inscription_request_id : Z) : Q Z :=
  statement (λ db, (inr (Z.of_nat (length (history_of db inscription_request_id))), db)).

(** The two updates of [confirm_inscription]. *)
Definition set_confirmed_at (history_id : Z) : Q () :=
  statement (λ db,
    (inr (), SenderDb.set_history db
      ((λ h, if decide (HistoryRow.id h = history_id)
        then HistoryRow.mk (HistoryRow.id h) (HistoryRow.commit_tx_id h) (HistoryRow.reveal_tx_id h)
               (HistoryRow.inscription_request_id h) (HistoryRow.signed_commit_tx h)
               (HistoryRow.signed_reveal_tx h) (HistoryRow.actual_fees h) (Some (SenderDb.clock db))
               (HistoryRow.sent_at_block h) (HistoryRow.created_at h)
        else h) <$> SenderDb.history db)
      (SenderDb.next_history_id db))).

Definition confirm_row (request_id history_id : Z) (r : RequestRow.t) : RequestRow.t :=
  if decide (RequestRow.id r = request_id)
  then RequestRow.mk (RequestRow.id r) (RequestRow.request_type r) (RequestRow.inscription_message r)
         (RequestRow.predicted_fee r) (Some history_id)
  else r.

Definition set_confirmed_history (request_id history_id : Z) : Q () :=
  statement (λ db,
    let others := filter (λ r, RequestRow.id r ≠ request_id) (SenderDb.requests db) in
    if decide (request_id ∉ (RequestRow.id <$> SenderDb.requests db)) then (inr (), db)
    else if decide (Some history_id ∈
        (RequestRow.confirmed_inscriptions_request_history_id <$> others))
    then (inl UniqueViolation, db)
    else if decide (history_id ∈ (HistoryRow.id <$> SenderDb.history db))
    then (inr (), SenderDb.set_requests db
                    (confirm_row request_id history_id <$> SenderDb.requests db)
                    (SenderDb.next_request_id db))
    else (inl ForeignKeyViolation, db)).

Definition confirm_inscription (inscriptions_request_id inscriptions_request_history_id : Z) : Q () :=
  in_transaction (
    _ ← set_confirmed_at inscriptions_request_history_id;
    set_confirmed_history inscriptions_request_id inscriptions_request_history_id).

(** ** [ViaBlocksDal] *)

(** [i64 as i32]. *)
Definition as_i32 (z : Z) : Z := to_signed 32 (wrap 32 z).

(** [INSERT .. ON CONFLICT DO NOTHING]; no row inserted is an error. *)
Definition insert_commit_request_id (batch_number inscription_request_id : Z) : Q () :=
  statement (λ db,
    let id := as_i32 inscription_request_id in
    let brs := SenderDb.batch_requests db in
    if decide (batch_number ∈ (BatchRequestRow.l1_batch_number <$> brs) ∨
               id ∈ (BatchRequestRow.commit_l1_batch_inscription_id <$> brs))
    then (inl (ConstraintError
            "Update commit_l1_batch_inscription_id that is is not null is not allowed"), db)
    else if decide (batch_number ∈ (L1BatchRow.number <$> SenderDb.l1_batches db) ∧
                    id ∈ (RequestRow.id <$> SenderDb.requests db))
    then (inr (), SenderDb.set_batch_requests db (brs ++ [BatchRequestRow.mk batch_number id None]))
    else (inl ForeignKeyViolation, db)).

Definition proof_pending (batch_number : Z) (br : BatchRequestRow.t) : bool :=
  bool_decide (BatchRequestRow.l1_batch_number br = batch_number) &&
  bool_decide (BatchRequestRow.commit_proof_inscription_id br = None).

Definition update_proof_request_id (batch_number inscription_request_id : Z) : Q () :=
  statement (λ db,
    let id := as_i32 inscription_request_id in
    let brs := SenderDb.batch_requests db in
    if decide (filter (proof_pending batch_number) brs = []) then
      (inl (ConstraintError
        "Update commit_proof_inscription_id that is is not null is not allowed"), db)
    else if decide (Some id ∈ (BatchRequestRow.commit_proof_inscription_id <$> brs))
    then (inl UniqueViolation, db)
    else if decide (id ∈ (RequestRow.id <$> SenderDb.requests db))
    then (inr (), SenderDb.set_batch_requests db
           ((λ br, if proof_pending batch_number br
             then BatchRequestRow.mk (BatchRequestRow.l1_batch_number br)
                    (BatchRequestRow.commit_l1_batch_inscription_id br) (Some id)
             else br) <$> brs))
    else (inl ForeignKeyViolation, db)).

Definition insert_l1_batch_inscription_request_id (batch_number : L1BatchNumber)
    (inscription_request_id : Z) (inscription_request : ViaBtcInscriptionRequestType) : Q () :=
  match inscription_request with
  | CommitL1BatchOnchain => insert_commit_request_id batch_number inscription_request_id
  | CommitProofOnchain => update_proof_request_id batch_number inscription_request_id
  end.

(** [From<ViaBtcStorageL1BlockDetails>]: both ids are read from [commit_tx_id]. *)
Definition details_from (number timestamp : Z) (hash : option (list byte))
    (commit_tx_id reveal_tx_id : string) (blob_id : list byte) : ViaBtcL1BlockDetails.t :=
  {| ViaBtcL1BlockDetails.number := wrap 32 number;
     ViaBtcL1BlockDetails.timestamp := timestamp;
     ViaBtcL1BlockDetails.hash := hash;
     ViaBtcL1BlockDetails.commit_tx_id := default txid_all_zeros (txid_from_str commit_tx_id);
     ViaBtcL1BlockDetails.reveal_tx_id := default txid_all_zeros (txid_from_str commit_tx_id);
     ViaBtcL1BlockDetails.blob_id := blob_id |}.

Section joins.
Context (db : SenderDb.t).

Definition join_batch_request (b : L1BatchRow.t) : list (option BatchRequestRow.t) :=
  left_join (λ br, bool_decide (BatchRequestRow.l1_batch_number br = L1BatchRow.number b))
    (SenderDb.batch_requests db).
Definition join_commitment (b : L1BatchRow.t) : list (option CommitmentRow.t) :=
  left_join (λ c, bool_decide (CommitmentRow.l1_batch_number c = L1BatchRow.number b))
    (SenderDb.commitments db).
Definition join_availability (b : L1BatchRow.t) : list (option DataAvailabilityRow.t) :=
  left_join (λ d, bool_decide (DataAvailabilityRow.l1_batch_number d = L1BatchRow.number b))
    (SenderDb.data_availability db).
Definition join_version (b : L1BatchRow.t) : list ProtocolVersionRow.t :=
  filter (λ v, Some (ProtocolVersionRow.id v) = L1BatchRow.protocol_version b)
    (SenderDb.protocol_versions db).
Definition join_request (br : option BatchRequestRow.t) : list (option RequestRow.t) :=
  left_join (λ r, bool_decide (Some (RequestRow.id r) =
                    (BatchRequestRow.commit_l1_batch_inscription_id <$> br)))
    (SenderDb.requests db).
(** [latest_history] with [rn = 1]: one row for a request that has history. *)
Definition join_latest_history (r : option RequestRow.t) : option HistoryRow.t :=
  r ← r; latest_created (history_of db (RequestRow.id r)).

(** The [WHERE] of [get_ready_for_commit_l1_batches]. *)
Definition commit_ready (bootloader_hash default_aa_hash : H256) (protocol_version_id : Z)
    (b : L1BatchRow.t) (br : option BatchRequestRow.t) (c : option CommitmentRow.t)
    (d : DataAvailabilityRow.t) (v : ProtocolVersionRow.t) : bool :=
  bool_decide (br = None) &&
  bool_decide (L1BatchRow.number b ≠ 0) &&
  bool_decide (ProtocolVersionRow.bootloader_code_hash v = bootloader_hash) &&
  bool_decide (ProtocolVersionRow.default_account_code_hash v = default_aa_hash) &&
  negb (DataAvailabilityRow.is_proof d) &&
  bool_decide (L1BatchRow.commitment b ≠ None) &&
  (bool_decide (ProtocolVersionRow.id v = protocol_version_id) ||
   bool_decide (ProtocolVersionRow.upgrade_tx_hash v = None)) &&
  bool_decide ((c ≫= CommitmentRow.events_queue_commitment) ≠ None) &&
  bool_decide ((c ≫= CommitmentRow.bootloader_initial_content_commitment) ≠ None) &&
  bool_decide (DataAvailabilityRow.inclusion_data d ≠ None).

Definition commit_ready_rows (bootloader_hash default_aa_hash : H256) (protocol_version_id : Z)
    : list (L1BatchRow.t * DataAvailabilityRow.t) :=
  order_by (L1BatchRow.number ∘ fst) (
    b ← SenderDb.l1_batches db;
    br ← join_batch_request b;
    c ← join_commitment b;
    d ← join_availability b;
    v ← join_version b;
    match d with
    | Some d =>
        if commit_ready bootloader_hash default_aa_hash protocol_version_id b br c d v
        then [(b, d)] else []
    | None => []
    end).

(** The [WHERE] of [get_ready_for_commit_proof_l1_batches]. *)
Definition proof_ready (br : option BatchRequestRow.t) (d : DataAvailabilityRow.t)
    (r : option RequestRow.t) : bool :=
  match br with
  | Some br => bool_decide (BatchRequestRow.commit_proof_inscription_id br = None)
  | None => false
  end &&
  bool_decide ((r ≫= RequestRow.confirmed_inscriptions_request_history_id) ≠ None) &&
  DataAvailabilityRow.is_proof d.

Definition proof_ready_rows
    : list (L1BatchRow.t * DataAvailabilityRow.t * option HistoryRow.t) :=
  order_by (λ '(b, _, _), L1BatchRow.number b) (
    b ← SenderDb.l1_batches db;
    br ← join_batch_request b;
    d ← join_availability b;
    r ← join_request br;
    match d with
    | Some d => if proof_ready br d r then [(b, d, join_latest_history r)] else []
    | None => []
    end).
End joins.

Definition get_ready_for_commit_l1_batches (limit : Z) (bootloader_hash default_aa_hash : H256)
    (protocol_version_id : Z) : Q (list ViaBtcL1BlockDetails.t) :=
  batches ← statement (λ db,
    (limited limit (commit_ready_rows db bootloader_hash default_aa_hash protocol_version_id), db));
  mret ((λ '(b, d),
    details_from (L1BatchRow.number b) (L1BatchRow.timestamp b) (L1BatchRow.hash b)
      EmptyString EmptyString (DataAvailabilityRow.blob_id d)) <$> batches).

Definition get_ready_for_commit_proof_l1_batches (limit : Z) : Q (list ViaBtcL1BlockDetails.t) :=
  batches ← statement (λ db, (limited limit (proof_ready_rows db), db));
  mret ((λ '(b, d, lh),
    details_from (L1BatchRow.number b) (L1BatchRow.timestamp b) (L1BatchRow.hash b)
      (default EmptyString (HistoryRow.commit_tx_id <$> lh))
      (default EmptyString (HistoryRow.reveal_tx_id <$> lh))
      (DataAvailabilityRow.blob_id d)) <$> batches).
End btc_sender_dal.
