(* ===== verification/BtcSender.v ===== *)
(** * The Bitcoin sender ([core/node/via_btc_sender])

    [ViaBtcInscriptionAggregator] turns L1 batches that are ready, or whose proof
    is, into inscription requests; [ViaBtcInscriptionManager] inscribes the
    requests, sends them again with a higher fee when they are stuck and marks them
    confirmed. Each has an inscriber of its own, and they share the tables of
    [SenderDal] and the Bitcoin node. [bincode] is outside the code: the class
    [Bincode]. *)
From S2P Require Import Prelude Types BtcTypes BitcoinToy BtcClient ScriptBuilder Parser Inscriber Sql SenderDal.
Local Open Scope Z_scope.

(** [bincode::serialize] and [deserialize] at the types the sender uses. *)
Class Bincode := {
  serialize_message : InscriptionMessage.t → option (list byte);
  deserialize_message : list byte → option InscriptionMessage.t;
  serialize_tx : BtcTransaction.t → option (list byte);
}.
Class BincodeLaws `{Bincode} : Prop := {
  bincode_roundtrip m bs : serialize_message m = Some bs → deserialize_message bs = Some m;
}.

Definition BLOCK_RESEND : Z := 6.
Definition BLOCK_TIME_TO_COMMIT : Z := 3600.
Definition BLOCK_TIME_TO_PROOF : Z := 7200.

(** The fields of [ViaBtcSenderConfig] that the sender reads. *)
Module ViaBtcSenderConfig.
Record t := mk {
  max_aggregated_blocks_to_commit : Z;
  max_aggregated_proofs_to_commit : Z;
  max_txs_in_flight : Z;
  da_identifier : list byte;
  block_confirmations : Z;
}.
End ViaBtcSenderConfig.

(** ** Publish criteria *)

(** The implementations of the trait [ViaBtcL1BatchCommitCriterion]. *)
Inductive Criterion :=
| ViaNumberCriterion (limit : Z)
| TimestampDeadlineCriterion (deadline_seconds : Z).

Definition number_criterion (limit : Z) (batches : list ViaBtcL1BlockDetails.t) : option L1BatchNumber :=
  match ViaBtcL1BlockDetails.number <$> batches with
  | [] => None
  | first :: rest =>
      let last_batch_number := List.last rest first in
      let batch_count := wrap 32 (wrap 32 (last_batch_number - first) + 1) in
      if decide (limit ≤ batch_count) then Some (wrap 32 (wrap 32 (first + limit) - 1)) else None
  end.

Fixpoint deadline_criterion (deadline_seconds current_timestamp : Z)
    (block_number : option L1BatchNumber) (batches : list ViaBtcL1BlockDetails.t)
    : option L1BatchNumber :=
  match batches with
  | [] => block_number
  | block :: batches =>
      if decide (wrap 64 (wrap 64 (ViaBtcL1BlockDetails.timestamp block) + deadline_seconds)
                 ≤ current_timestamp)
      then deadline_criterion deadline_seconds current_timestamp
             (Some (ViaBtcL1BlockDetails.number block)) batches
      else block_number
  end.

Definition last_l1_batch_to_publish (current_timestamp : Z) (self : Criterion)
    (consecutive_l1_batches : list ViaBtcL1BlockDetails.t) : option L1BatchNumber :=
  match self with
  | ViaNumberCriterion limit => number_criterion limit consecutive_l1_batches
  | TimestampDeadlineCriterion deadline_seconds =>
      deadline_criterion deadline_seconds current_timestamp None consecutive_l1_batches
  end.

(** ** [ViaAggregator] *)
Inductive ViaAggregatedOperation :=
| OpCommitL1BatchOnchain (batches : list ViaBtcL1BlockDetails.t)
| OpCommitProofOnchain (batches : list ViaBtcL1BlockDetails.t).

Definition get_l1_batches_detail (self : ViaAggregatedOperation) : list ViaBtcL1BlockDetails.t :=
  match self with
  | OpCommitL1BatchOnchain l1_batch => l1_batch
  | OpCommitProofOnchain l1_batch => l1_batch
  end.
Definition get_inscription_request_type (self : ViaAggregatedOperation) : ViaBtcInscriptionRequestType :=
  match self with
  | OpCommitL1BatchOnchain _ => CommitL1BatchOnchain
  | OpCommitProofOnchain _ => CommitProofOnchain
  end.

Module ViaAggregator.
Record t := mk {
  commit_l1_block_criteria : list Criterion;
  commit_proof_criteria : list Criterion;
  config : ViaBtcSenderConfig.t;
}.
Definition new (config : ViaBtcSenderConfig.t) : t :=
  {| commit_l1_block_criteria :=
       [ViaNumberCriterion (wrap 32 (ViaBtcSenderConfig.max_aggregated_blocks_to_commit config));
        TimestampDeadlineCriterion BLOCK_TIME_TO_COMMIT];
     commit_proof_criteria :=
       [ViaNumberCriterion (wrap 32 (ViaBtcSenderConfig.max_aggregated_proofs_to_commit config));
        TimestampDeadlineCriterion BLOCK_TIME_TO_PROOF];
     config := config |}.
End ViaAggregator.

(** [Iterator::take_while]. *)
Fixpoint take_while {A} (p : A → bool) (l : list A) : list A :=
  match l with
  | [] => []
  | x :: l => if p x then x :: take_while p l else []
  end.

Definition extract_ready_subrange (current_timestamp : Z) (publish_criteria : list Criterion)
    (uncommited_l1_batches : list ViaBtcL1BlockDetails.t) : option (list ViaBtcL1BlockDetails.t) :=
  let last_l1_batch :=
    foldl (λ last_l1_batch criterion,
      match last_l1_batch_to_publish current_timestamp criterion uncommited_l1_batches with
      | Some l1_batch =>
          Some (match last_l1_batch with Some number => Z.min number l1_batch | None => l1_batch end)
      | None => last_l1_batch
      end) None publish_criteria in
  last_l1_batch ← last_l1_batch;
  Some (take_while (λ b, bool_decide (ViaBtcL1BlockDetails.number b ≤ last_l1_batch))
          uncommited_l1_batches).

(** [Iterator::reduce] with a panic. *)
Definition validate_l1_batch_sequence (batches : list ViaBtcL1BlockDetails.t) : exec () :=
  match batches with
  | [] => Ret ()
  | first :: rest =>
      _ ← foldM (λ last_batch next_batch,
            assert_then (bool_decide (wrap 32 (ViaBtcL1BlockDetails.number last_batch + 1)
                                      = ViaBtcL1BlockDetails.number next_batch))
              (Ret next_batch)) first rest;
      Ret ()
  end.

Inductive SenderError :=
| SenderSql (e : SqlError)
| SenderInscriber (e : AnyhowError)
| SenderBitcoin (e : BitcoinError)
| SenderMsg (s : string).

(** [ProtocolVersionId::latest()] and the hashes the aggregator is compiled with. *)
Definition protocol_version_latest : Z := 24.
Definition bootloader_code_hash : H256 :=
  0x010008e742608b21bf7eb23c1a9d0602047e3618b464c9b59c0fba3b3d7ab66e.
Definition aa_code_hash : H256 :=
  0x01000563374c277a2c1e34659a2a1e87371bb6d852ce142022d497bfb50b9e32.

Section sender.
Context `{BitcoinLib} `{TxidText} `{Bincode} {W : Type} `{BitcoinOps W} (signer : BitcoinSigner.t).

(** A task's inscriber, beside the tables. *)
Abbreviation ST := (SenderDb.t * state (W := W))%type.
Abbreviation T A := (prog ST SenderError A).

Definition sql {A} (op : Q A) : T A := λ '(db, ins),
  match op db with
  | Ret (inl e, db) => Ret (inl (SenderSql e), (db, ins))
  | Ret (inr a, db) => Ret (inr a, (db, ins))
  | Panic => Panic
  end.
Definition inscriber_call {A} (op : prog (state (W := W)) AnyhowError A) : T A := λ '(db, ins),
  match op ins with
  | Ret (inl e, ins) => Ret (inl (SenderInscriber e), (db, ins))
  | Ret (inr a, ins) => Ret (inr a, (db, ins))
  | Panic => Panic
  end.
(** [self.inscriber.get_client().await.op(..)]. *)
Definition node_call {A} (op : prog W BitcoinError A) : T A := λ '(db, ins),
  match op (world ins) with
  | Ret (inl e, w) => Ret (inl (SenderBitcoin e), (db, mk_state (context ins) w))
  | Ret (inr a, w) => Ret (inr a, (db, mk_state (context ins) w))
  | Panic => Panic
  end.

Definition get_commit_l1_batch_operation (now : Z) (self : ViaAggregator.t)
    (bootloader default_aa : H256) (protocol_version_id : Z) : T (option ViaAggregatedOperation) :=
  ready ← sql (get_ready_for_commit_l1_batches
    (ViaBtcSenderConfig.max_aggregated_blocks_to_commit (ViaAggregator.config self))
    bootloader default_aa protocol_version_id);
  _ ← lift_exec (validate_l1_batch_sequence ready);
  mret (OpCommitL1BatchOnchain <$>
    extract_ready_subrange now (ViaAggregator.commit_l1_block_criteria self) ready).

Definition get_commit_proof_operation (now : Z) (self : ViaAggregator.t)
    : T (option ViaAggregatedOperation) :=
  ready ← sql (get_ready_for_commit_proof_l1_batches
    (ViaBtcSenderConfig.max_aggregated_proofs_to_commit (ViaAggregator.config self)));
  _ ← lift_exec (validate_l1_batch_sequence ready);
  mret (OpCommitProofOnchain <$>
    extract_ready_subrange now (ViaAggregator.commit_proof_criteria self) ready).

(** [now_proof] and [now_commit] are what [Utc::now()] gives to the two deadline
    criteria. *)
Definition get_next_ready_operation (now_proof now_commit : Z) (self : ViaAggregator.t)
    (bootloader default_aa : H256) (protocol_version_id : Z) : T (option ViaAggregatedOperation) :=
  op ← get_commit_proof_operation now_proof self;
  match op with
  | Some op => mret (Some op)
  | None => get_commit_l1_batch_operation now_commit self bootloader default_aa protocol_version_id
  end.

Definition construct_inscription_message (self : ViaAggregator.t)
    (inscription_request_type : ViaBtcInscriptionRequestType) (batch : ViaBtcL1BlockDetails.t)
    : T InscriptionMessage.t :=
  let da_identifier := ViaBtcSenderConfig.da_identifier (ViaAggregator.config self) in
  match inscription_request_type with
  | CommitL1BatchOnchain =>
      hash ← ok_or (SenderMsg "Via l1 batch hash is None") (ViaBtcL1BlockDetails.hash batch);
      l1_batch_hash ← lift_exec (from_slice 32 hash);
      mret (InscriptionMessage.L1BatchDAReference
        {| L1BatchDAReferenceInput.l1_batch_hash := l1_batch_hash;
           L1BatchDAReferenceInput.l1_batch_index := ViaBtcL1BlockDetails.number batch;
           L1BatchDAReferenceInput.da_identifier := da_identifier;
           L1BatchDAReferenceInput.blob_id := ViaBtcL1BlockDetails.blob_id batch |})
  | CommitProofOnchain =>
      mret (InscriptionMessage.ProofDAReference
        {| ProofDAReferenceInput.l1_batch_reveal_txid := ViaBtcL1BlockDetails.reveal_tx_id batch;
           ProofDAReferenceInput.da_identifier := da_identifier;
           ProofDAReferenceInput.blob_id := ViaBtcL1BlockDetails.blob_id batch |})
  end.

(** ** [ViaBtcInscriptionAggregator] *)

(** The body of the loop over the batches. *)
Definition aggregate_batch (self : ViaAggregator.t) (operation : ViaAggregatedOperation)
    (_ : ()) (batch : ViaBtcL1BlockDetails.t) : T () :=
  inscription_message ←
    construct_inscription_message self (get_inscription_request_type operation) batch;
  inscribe_info ←
    inscriber_call (prepare_inscribe signer inscription_message InscriptionConfig.default None);
  prediction_fee ← lift_exec (amount_add
    (RevealTxOutputRes._reveal_fee (InscriberInfo.reveal_tx_output_info inscribe_info))
    (CommitTxOutputRes._commit_tx_fee (InscriberInfo.commit_tx_output_info inscribe_info)));
  message_bytes ← lift_exec (expect (serialize_message inscription_message));
  inscription_request ← sql (via_save_btc_inscriptions_request
    (get_inscription_request_type operation) message_bytes prediction_fee);
  sql (insert_l1_batch_inscription_request_id (ViaBtcL1BlockDetails.number batch)
    (ViaBtcInscriptionRequest.id inscription_request) (get_inscription_request_type operation)).

(** The transaction around the loop: dropped on an early return. *)
Definition aggregate_batches (self : ViaAggregator.t) (operation : ViaAggregatedOperation) : T () :=
  _ ← foldP (aggregate_batch self operation) () (get_l1_batches_detail operation);
  sql commit.
Definition aggregate_transaction (self : ViaAggregator.t) (operation : ViaAggregatedOperation)
    : T () := λ '(db, ins),
  match aggregate_batches self operation (db, ins) with
  | Ret (inl e, (db', ins')) => Ret (inl e, (SenderDb.rollback db db', ins'))
  | r => r
  end.

Definition aggregator_iteration (now_proof now_commit : Z) (self : ViaAggregator.t) : T () :=
  operation ← get_next_ready_operation now_proof now_commit self
    bootloader_code_hash aa_code_hash protocol_version_latest;
  match operation with
  | Some operation =>
      _ ← sql start_transaction;
      aggregate_transaction self operation
  | None => mret ()
  end.

(** ** [ViaBtcInscriptionManager] *)
Definition send_inscription_tx (tx : ViaBtcInscriptionRequest.t) (config : InscriptionConfig.t) : T () :=
  height ← node_call fetch_block_height;
  let sent_at_block := to_signed 64 (wrap 64 height) in
  input ← lift_exec (expect (deserialize_message
    (default [] (ViaBtcInscriptionRequest.inscription_message tx))));
  inscribe_info ← inscriber_call (inscribe signer input config);
  let commit := InscriberInfo.final_commit_tx inscribe_info in
  let reveal := InscriberInfo.final_reveal_tx inscribe_info in
  signed_commit_tx ← ok_or (SenderMsg "Serilize the commit tx") (serialize_tx (FinalTx.tx commit));
  signed_reveal_tx ← ok_or (SenderMsg "Serilize the reveal tx") (serialize_tx (FinalTx.tx reveal));
  actual_fees ← lift_exec (amount_add
    (RevealTxOutputRes._reveal_fee (InscriberInfo.reveal_tx_output_info inscribe_info))
    (CommitTxOutputRes._commit_tx_fee (InscriberInfo.commit_tx_output_info inscribe_info)));
  _ ← sql (insert_inscription_request_history (FinalTx.txid commit) (FinalTx.txid reveal)
    (ViaBtcInscriptionRequest.id tx) signed_commit_tx signed_reveal_tx (to_signed 64 actual_fees)
    sent_at_block);
  mret ().

(** The body of [update_inscription_status_or_resend]'s loop. *)
Definition update_or_resend (config : ViaBtcSenderConfig.t) (_ : ())
    (inscription : ViaBtcInscriptionRequest.t) : T () :=
  let id := ViaBtcInscriptionRequest.id inscription in
  last ← sql (get_last_inscription_request_history id);
  match last with
  | None => mret ()
  | Some last_inscription_history =>
      is_confirmed ← node_call (check_tx_confirmation
        (ViaBtcInscriptionRequestHistory.reveal_tx_id last_inscription_history)
        (ViaBtcSenderConfig.block_confirmations config));
      if (is_confirmed : bool) then
        sql (confirm_inscription id (ViaBtcInscriptionRequestHistory.id last_inscription_history))
      else
        current_block ← node_call fetch_block_height;
        if decide (to_signed 64 (wrap 64 current_block) <
             to_signed 64 (wrap 64
               (ViaBtcInscriptionRequestHistory.sent_at_block last_inscription_history + BLOCK_RESEND)))
        then mret ()
        else
          number_inscription_request_history ← sql (get_total_inscription_request_history id);
          send_inscription_tx inscription
            (InscriptionConfig.mk (wrap 64 (wrap 64 number_inscription_request_history + 1)))
  end.

Definition update_inscription_status_or_resend (config : ViaBtcSenderConfig.t) : T () :=
  inflight_inscriptions ← sql get_inflight_inscriptions;
  foldP (update_or_resend config) () inflight_inscriptions.

(** [i64::saturating_sub]. *)
Definition saturating_sub_i64 (a b : Z) : Z := Z.max (- 2 ^ 63) (Z.min (2 ^ 63 - 1) (a - b)).

Definition send_new_inscription_txs (config : ViaBtcSenderConfig.t) : T () :=
  inflight ← sql get_inflight_inscriptions;
  let number_inflight_txs := Z.of_nat (length inflight) in
  let slots := saturating_sub_i64 (ViaBtcSenderConfig.max_txs_in_flight config) number_inflight_txs in
  if decide (0 < slots) then
    new ← sql (list_new_inscription_request slots);
    foldP (λ _ inscription, send_inscription_tx inscription InscriptionConfig.default) () new
  else mret ().

Definition manager_iteration (config : ViaBtcSenderConfig.t) : T () :=
  _ ← update_inscription_status_or_resend config;
  send_new_inscription_txs config.
End sender.

(** ** What the criteria select *)
Section criteria.
Abbreviation batch := ViaBtcL1BlockDetails.t.
Abbreviation number := ViaBtcL1BlockDetails.number.
Abbreviation timestamp := ViaBtcL1BlockDetails.timestamp.

(** Batches numbered consecutively from [n]. *)
Definition numbered (n : Z) (l : list batch) : Prop := number <$> l = seqZ n (Z.of_nat (length l)).

(** A batch whose age has reached the deadline. *)
Definition expired (now deadline_seconds : Z) (b : batch) : bool :=
  bool_decide (timestamp b + deadline_seconds ≤ now).

Lemma numbered_cons n b l : numbered n (b :: l) ↔ number b = n ∧ numbered (n + 1) l.
Proof.
  unfold numbered. cbn [fmap list_fmap length]. rewrite seqZ_cons by lia.
  replace (Z.pred (Z.of_nat (Datatypes.S (length l)))) with (Z.of_nat (length l)) by lia.
  rewrite (Z.add_1_r n). split; [intros [= ? ?]; done|by intros [-> ->]].
Qed.

Lemma validate_numbered b l :
  validate_l1_batch_sequence (b :: l) = Ret () →
  0 ≤ number b → number b + Z.of_nat (length (b :: l)) ≤ 2 ^ 32 → numbered (number b) (b :: l).
Proof.
  cbn [validate_l1_batch_sequence]. intros Hv. apply bind_Ret_inv in Hv as (last & Hv & _).
  revert b Hv. induction l as [|b' l IH]; intros b Hv Hb Hl; apply numbered_cons; (split; [done|]).
  { done. }
  cbn [foldM length] in *. apply bind_Ret_inv in Hv as (b1 & Hb1 & Hv).
  unfold assert_then in Hb1. destruct (bool_decide_reflect
    (wrap 32 (number b + 1) = number b')) as [Hn|]; [|done]. injection Hb1 as <-.
  rewrite wrap_small in Hn by (split; lia). rewrite Hn. apply IH; [done|lia|lia].
Qed.

Lemma take_while_numbered n k l :
  numbered n l → (k ≤ length l)%nat →
  take_while (λ b, bool_decide (number b ≤ n + Z.of_nat k - 1)) l = take k l.
Proof.
  revert n k. induction l as [|b l IH]; intros n k Hn Hk; [by destruct k|].
  apply numbered_cons in Hn as [<- Hn]. cbn [take_while length] in *. destruct k as [|k].
  - by rewrite bool_decide_false by lia.
  - rewrite bool_decide_true by lia. cbn [take]. f_equal.
    rewrite <-(IH (number b + 1) k) by (done || lia).
    f_equal. by replace (number b + Z.of_nat (Datatypes.S k) - 1)
      with (number b + 1 + Z.of_nat k - 1) by lia.
Qed.

Lemma take_while_prefix {A} (p : A → bool) l : take (length (take_while p l)) l = take_while p l.
Proof. induction l as [|x l IH]; [done|]. cbn. destruct (p x); cbn; [by f_equal|done]. Qed.

Lemma take_while_length {A} (p : A → bool) l : (length (take_while p l) ≤ length l)%nat.
Proof. induction l as [|x l IH]; cbn; [lia|]. destruct (p x); cbn; lia. Qed.

(** The deadline criterion gives the number of the last batch of the expired
    prefix. *)
Lemma deadline_criterion_spec d now acc n l :
  numbered n l → Forall (λ b, 0 ≤ timestamp b ∧ 0 ≤ timestamp b + d < 2 ^ 64) l → 0 ≤ d →
  deadline_criterion d now acc l =
  match take_while (expired now d) l with
  | [] => acc
  | l' => Some (n + Z.of_nat (length l') - 1)
  end.
Proof.
  intros Hn Ht Hd. revert acc n Hn. induction Ht as [|b l [Hb0 Hb] _ IH]; intros acc n Hn; [done|].
  apply numbered_cons in Hn as [<- Hn]. cbn [deadline_criterion take_while]. unfold expired at 1.
  rewrite (wrap_small 64 (timestamp b)), wrap_small by (split; lia).
  destruct (decide _) as [Hle|Hgt]; [rewrite bool_decide_true by done|by rewrite bool_decide_false].
  rewrite (IH _ _ Hn). destruct (take_while _ l); cbn [length]; f_equal; lia.
Qed.

Lemma number_criterion_spec limit n l :
  numbered n l → 0 ≤ n → n + Z.of_nat (length l) ≤ 2 ^ 32 →
  0 < limit < 2 ^ 32 → Z.of_nat (length l) ≤ limit → n + limit ≤ 2 ^ 32 →
  number_criterion limit l =
  if decide (Z.of_nat (length l) = limit) then Some (n + Z.of_nat (length l) - 1) else None.
Proof.
  intros Hn H0 Hlt Hpos Hle Hlim. destruct l as [|b l]; [by rewrite decide_False by (cbn; lia)|].
  pose proof Hn as [<- Hn']%numbered_cons. unfold number_criterion. cbn [fmap list_fmap].
  assert (Hlast : List.last (number <$> l) (number b) = number b + Z.of_nat (length l)).
  { unfold numbered in Hn'. change (list_fmap _ _ number l) with (number <$> l). rewrite Hn'. clear.
    generalize (number b) as n. induction l as [|b' l IH] using rev_ind; intros n; [by rewrite Z.add_0_r|].
    rewrite length_app. cbn [length]. rewrite Nat2Z.inj_add, seqZ_app by lia. cbn [seqZ].
    replace (seqZ (n + 1 + Z.of_nat (length l)) (Z.of_nat 1))
      with [n + 1 + Z.of_nat (length l)] by (cbn; f_equal; lia).
    rewrite List.last_last. lia. }
  change (list_fmap _ _ number l) with (number <$> l). rewrite Hlast. cbn [length] in *.
  replace (number b + Z.of_nat (length l) - number b) with (Z.of_nat (length l)) by lia.
  rewrite (wrap_small 32 (Z.of_nat (length l))), wrap_small by (split; lia).
  destruct (decide (limit ≤ _)) as [Hge|Hlt'].
  - rewrite decide_True by lia. f_equal. destruct (decide (number b + limit = 2 ^ 32)) as [Heq|Hne].
    + rewrite Heq. replace (wrap 32 (2 ^ 32)) with 0 by reflexivity.
      replace (wrap 32 (0 - 1)) with (2 ^ 32 - 1) by reflexivity. lia.
    + rewrite (wrap_small 32 (number b + limit)) by (split; lia). rewrite wrap_small by (split; lia). lia.
  - by rewrite decide_False by lia.
Qed.

(** Aggregation: of at most [limit] consecutive batches, the longest prefix of
    expired batches is published, if there is one; otherwise all batches when
    there are [limit] of them, and otherwise none. In particular the deadline
    publishes the expired batches only, not "all the available L1 batches", even
    when [limit] is reached. *)
Theorem extract_ready_subrange_spec now limit deadline batches :
  validate_l1_batch_sequence batches = Ret () →
  Forall (λ b, 0 ≤ number b ∧ number b + limit ≤ 2 ^ 32) batches →
  Forall (λ b, 0 ≤ timestamp b ∧ 0 ≤ timestamp b + deadline < 2 ^ 64) batches →
  0 ≤ deadline → 0 < limit < 2 ^ 32 → Z.of_nat (length batches) ≤ limit →
  extract_ready_subrange now [ViaNumberCriterion limit; TimestampDeadlineCriterion deadline] batches =
  match take_while (expired now deadline) batches with
  | [] => if decide (Z.of_nat (length batches) = limit) then Some batches else None
  | l => Some l
  end.
Proof.
  intros Hv Hn Ht Hd Hl Hlen. destruct batches as [|b l]; [by rewrite decide_False by (cbn; lia)|].
  apply Forall_cons in Hn as [[Hb0 Hb] _].
  pose proof (validate_numbered b l Hv Hb0 ltac:(lia)) as Hnum. clear Hv.
  set (bs := b :: l) in *. set (n := number b) in *.
  unfold extract_ready_subrange. cbn [foldl last_l1_batch_to_publish].
  rewrite (number_criterion_spec limit n bs) by (done || lia).
  rewrite (deadline_criterion_spec deadline now None n bs) by done.
  pose proof (take_while_prefix (expired now deadline) bs) as Hpre.
  pose proof (take_while_length (expired now deadline) bs) as Hle.
  destruct (take_while _ bs) as [|b' l'] eqn:Hw.
  - destruct (decide _) as [Heq|]; [|done]. cbn [mbind option_bind].
    by rewrite (take_while_numbered n (length bs) bs), firstn_all by done.
  - transitivity (Some (take (length (b' :: l')) bs)); [|by rewrite Hpre].
    rewrite <-(take_while_numbered n _ bs Hnum Hle).
    destruct (decide _); cbn [mbind option_bind]; [|done]. by rewrite Z.min_r by lia.
Qed.
End criteria.

(** ** Witness: two batches, of which one is expired *)
Module CriteriaWitness.
Definition details (n t : Z) : ViaBtcL1BlockDetails.t := ViaBtcL1BlockDetails.mk n t None 0 0 [].

Lemma extract_ready_subrange_spec_witness :
  extract_ready_subrange 5000 [ViaNumberCriterion 2; TimestampDeadlineCriterion 3600]
    [details 4 100; details 5 4000] = Some [details 4 100].
Proof.
  rewrite (extract_ready_subrange_spec 5000 2 3600 [details 4 100; details 5 4000]).
  - vm_compute. reflexivity.
  - reflexivity.
  - repeat constructor; cbn; lia.
  - repeat constructor; cbn; lia.
  - lia.
  - lia.
  - cbn. lia.
Defined.
End CriteriaWitness.
