(* ===== verification/SenderInvariant.v ===== *)
(** * Invariant of the Bitcoin sender

    The aggregator and the manager as a transition system over the tables they
    share, what every reachable state of the tables satisfies, and what one
    iteration of each task does. *)
From S2P Require Import Prelude Types BtcTypes BitcoinToy BtcClient ScriptBuilder Parser Inscriber Sql SenderDal.
From S2P Require Import BtcSender.
Local Open Scope Z_scope.

(** ** Effects on the tables *)

(** The sender's own tables, the sequences and the faults replaced. *)
Definition with_rows (db : SenderDb.t) rs hs brs nr nh fs : SenderDb.t :=
  SenderDb.mk (SenderDb.l1_batches db) (SenderDb.commitments db) (SenderDb.protocol_versions db)
    (SenderDb.data_availability db) rs hs brs nr nh (SenderDb.clock db) fs.

(** Only sequences and faults moved. *)
Definition unchanged (db db' : SenderDb.t) : Prop := ∃ nr nh fs,
  SenderDb.next_request_id db ≤ nr ∧ SenderDb.next_history_id db ≤ nh ∧
  db' = with_rows db (SenderDb.requests db) (SenderDb.history db) (SenderDb.batch_requests db) nr nh fs.

#[export] Instance unchanged_preorder : PreOrder unchanged.
Proof.
  split.
  - intros []. by eexists _, _, _.
  - intros db ? ? (nr & nh & fs & ? & ? & ->) (nr' & nh' & fs' & ? & ? & ->). cbn in *.
    eexists _, _, _. split_and!; [| |reflexivity]; lia.
Qed.

Lemma unchanged_faults db fs : unchanged db (SenderDb.set_faults db fs).
Proof. by eexists _, _, _. Qed.

(** A row appended to the history of request [id]. *)
Definition sent (id : Z) (db db' : SenderDb.t) : Prop := ∃ row nh fs,
  HistoryRow.inscription_request_id row = id ∧
  SenderDb.next_history_id db ≤ HistoryRow.id row < nh ∧
  (HistoryRow.commit_tx_id row ∉ (HistoryRow.commit_tx_id <$> SenderDb.history db)) ∧
  (HistoryRow.reveal_tx_id row ∉ (HistoryRow.reveal_tx_id <$> SenderDb.history db)) ∧
  id ∈ (RequestRow.id <$> SenderDb.requests db) ∧
  db' = with_rows db (SenderDb.requests db) (SenderDb.history db ++ [row]) (SenderDb.batch_requests db)
          (SenderDb.next_request_id db) nh fs.

(** Request [id] confirmed by its history row [hid]. *)
Definition mark (hid at_ : Z) (h : HistoryRow.t) : HistoryRow.t :=
  if decide (HistoryRow.id h = hid)
  then HistoryRow.mk (HistoryRow.id h) (HistoryRow.commit_tx_id h) (HistoryRow.reveal_tx_id h)
         (HistoryRow.inscription_request_id h) (HistoryRow.signed_commit_tx h)
         (HistoryRow.signed_reveal_tx h) (HistoryRow.actual_fees h) (Some at_)
         (HistoryRow.sent_at_block h) (HistoryRow.created_at h)
  else h.

Definition confirmed_by (id hid : Z) (db db' : SenderDb.t) : Prop := ∃ fs,
  db' = with_rows db (confirm_row id hid <$> SenderDb.requests db)
          (mark hid (SenderDb.clock db) <$> SenderDb.history db) (SenderDb.batch_requests db)
          (SenderDb.next_request_id db) (SenderDb.next_history_id db) fs.

(** One statement: a fault, or what it does. *)
Lemma statement_inv {A} (f : SenderDb.t → (SqlError + A) * SenderDb.t) db r db' :
  statement f db = Ret (r, db') →
  (r = inl ConnectionFault ∧ ∃ fs, db' = SenderDb.set_faults db fs) ∨
  ∃ fs, f (SenderDb.set_faults db fs) = (r, db').
Proof.
  unfold statement. destruct (SenderDb.faults db) as [|[|] fs]; intros [= Hr];
    [by right; eexists|left; simplify_eq; eauto|by right; eexists].
Qed.

(** A statement that reads. *)
Lemma reader_inv {A} (f : SenderDb.t → SqlError + A) db r db' :
  (∀ db fs, f (SenderDb.set_faults db fs) = f db) →
  statement (λ db, (f db, db)) db = Ret (r, db') →
  (r = inl ConnectionFault ∨ r = f db) ∧ ∃ fs, db' = SenderDb.set_faults db fs.
Proof.
  intros Hf [[-> Hfs]|[fs [= <- <-]]]%statement_inv; [eauto|]. rewrite Hf. eauto.
Qed.

(** ** Reasoning about the tasks: all results of a run satisfy [Φ] *)
Section post.
Context {W : Type}.
Abbreviation ST := (SenderDb.t * state (W := W))%type.

Definition post {A} (m : prog ST SenderError A) (db : SenderDb.t)
    (Φ : SenderError + A → SenderDb.t → Prop) : Prop :=
  ∀ ins r db' ins', m (db, ins) = Ret (r, (db', ins')) → Φ r db'.

Lemma post_bind {A B} (m : prog ST SenderError A) (f : A → prog ST SenderError B) db Φ :
  post m db (λ r db1, match r with inl e => Φ (inl e) db1 | inr a => post (f a) db1 Φ end) →
  post (m ≫= f) db Φ.
Proof.
  intros Hm ins r db' ins' Hr. unfold mbind, prog_bind in Hr.
  destruct (m (db, ins)) as [[[e|a] [db1 ins1]]|] eqn:E; [|..]; [|apply Hm in E|done].
  - simplify_eq. by apply Hm in E.
  - by eapply E.
Qed.

Lemma post_mono {A} (m : prog ST SenderError A) db (Φ Ψ : SenderError + A → SenderDb.t → Prop) :
  (∀ r db', Φ r db' → Ψ r db') → post m db Φ → post m db Ψ.
Proof. intros HΦ Hm ins r db' ins' Hr. eauto. Qed.

Lemma post_mret {A} (a : A) db (Φ : SenderError + A → SenderDb.t → Prop) :
  Φ (inr a) db → post (mret a) db Φ.
Proof. intros HΦ ins r db' ins' [= <- <- <-]. done. Qed.

Lemma post_sql {A} (op : prog SenderDb.t SqlError A) db (Φ : SenderError + A → SenderDb.t → Prop) :
  (∀ r db', op db = Ret (r, db') → Φ (match r with inl e => inl (SenderSql e) | inr a => inr a end) db') →
  post (sql (W := W) op) db Φ.
Proof.
  intros Hop ins r db' ins'. unfold sql. destruct (op db) as [[[e|a] db1]|] eqn:E; [| |done];
    intros [= <- <- <-]; exact (Hop _ _ eq_refl).
Qed.

Lemma post_inscriber {A} (op : prog (state (W := W)) AnyhowError A) db Φ :
  (∀ r, Φ r db) → post (inscriber_call op) db Φ.
Proof.
  intros HΦ ins r db' ins'. unfold inscriber_call.
  destruct (op ins) as [[[e|a] ins1]|]; intros [= <- <- <-]; apply HΦ.
Qed.

Lemma post_node {A} (op : prog W BitcoinError A) db Φ : (∀ r, Φ r db) → post (node_call op) db Φ.
Proof.
  intros HΦ ins r db' ins'. unfold node_call.
  destruct (op (world ins)) as [[[e|a] w]|]; intros [= <- <- <-]; apply HΦ.
Qed.

Lemma post_lift {A} (m : exec A) db (Φ : SenderError + A → SenderDb.t → Prop) :
  (∀ a, m = Ret a → Φ (inr a) db) → post (lift_exec m) db Φ.
Proof. intros HΦ ins r db' ins'. destruct m; [|done]. intros [= <- <- <-]. by apply HΦ. Qed.

Lemma post_ok_or {A} (e : SenderError) (o : option A) db (Φ : SenderError + A → SenderDb.t → Prop) :
  (∀ a, o = Some a → Φ (inr a) db) → Φ (inl e) db → post (ok_or e o) db Φ.
Proof. intros Ha He ins r db' ins'. destruct o; intros [= <- <- <-]; [by apply Ha|done]. Qed.
End post.

(** Run through the steps that leave the tables alone. *)
Ltac post_step := first
  [ apply post_bind | apply post_mret | apply post_inscriber; intros [?|?]
  | apply post_node; intros [?|?] | apply post_lift; intros ? ? | apply post_ok_or; [intros ? ?|] ].

(** ** What the statements do *)
Section statements.
Context `{TxidText}.

Lemma get_inflight_inv db r db' :
  get_inflight_inscriptions db = Ret (r, db') →
  unchanged db db' ∧ ∀ l, r = inr l → mapM request_from (inflight_rows db) = Ret l.
Proof using.
  unfold get_inflight_inscriptions, mbind, prog_bind.
  destruct (statement _ db) as [[r1 db1]|] eqn:E; [|done].
  apply (reader_inv (λ db, inr (inflight_rows db))) in E as [Hr [fs ->]]; [|done].
  pose proof (unchanged_faults db fs).
  destruct Hr as [-> | ->]; [by intros [= <- <-]|]. unfold lift_exec.
  destruct (mapM _ _) as [l|]; [|done]. intros [= <- <-]. split; [done|]. by intros l' [= ->].
Qed.

Lemma list_new_inv limit db r db' :
  list_new_inscription_request limit db = Ret (r, db') →
  unchanged db db' ∧ ∀ l, r = inr l →
    0 ≤ limit ∧ mapM request_from (take (Z.to_nat limit) (new_rows db)) = Ret l.
Proof using.
  unfold list_new_inscription_request, mbind, prog_bind.
  destruct (statement _ db) as [[r1 db1]|] eqn:E; [|done].
  apply (reader_inv (λ db, limited limit (new_rows db))) in E as [Hr [fs ->]]; [|done].
  pose proof (unchanged_faults db fs). unfold limited in Hr. destruct Hr as [-> | ->]; [by intros [= <- <-]|].
  destruct (decide _); [by intros [= <- <-]|]. unfold lift_exec.
  destruct (mapM _ _) as [l|]; [|done]. intros [= <- <-]. split; [done|]. intros l' [= ->]. split; [lia|done].
Qed.

Lemma get_last_inv id db r db' :
  get_last_inscription_request_history id db = Ret (r, db') →
  unchanged db db' ∧ ∀ h, r = inr (Some h) → ∃ row, last_by_id (history_of db id) = Some row ∧
    history_from row = Ret h.
Proof using.
  unfold get_last_inscription_request_history, mbind, prog_bind.
  destruct (statement _ db) as [[r1 db1]|] eqn:E; [|done].
  apply (reader_inv (λ db, inr (last_by_id (history_of db id)))) in E as [Hr [fs ->]]; [|done].
  pose proof (unchanged_faults db fs). destruct Hr as [-> | ->]; [by intros [= <- <-]|].
  destruct (last_by_id _) as [row|]; [|by intros [= <- <-]]. unfold lift_exec, mbind, exec_bind.
  destruct (history_from row) eqn:Hh; [|done]. intros [= <- <-]. split; [done|]. intros h' [= <-]. eauto.
Qed.

Lemma get_total_inv id db r db' :
  get_total_inscription_request_history id db = Ret (r, db') → unchanged db db'.
Proof using.
  intros E. apply (reader_inv (λ db, inr (Z.of_nat (length (history_of db id))))) in E as [_ [fs ->]]; [|done].
  apply unchanged_faults.
Qed.

Lemma insert_history_inv c rv id sc sr fees blk db r db' :
  insert_inscription_request_history c rv id sc sr fees blk db = Ret (r, db') →
  unchanged db db' ∨ (∃ n, r = inr n) ∧ sent id db db'.
Proof using.
  unfold insert_inscription_request_history. intros [[_ [fs ->]]|[fs Hr]]%statement_inv.
  { left. apply unchanged_faults. }
  cbv zeta in Hr. destruct (decide (_ ∨ _)) as [|Hu]; [|destruct (decide _) as [Hid|]]; simplify_eq.
  - left. eexists _, _, _. split_and!; [| |reflexivity]; cbn; lia.
  - right. split; [eauto|]. eexists _, _, _. split_and!. 7: reflexivity.
    1,4-6: cbn in *; naive_solver. all: cbn; lia.
  - left. eexists _, _, _. split_and!; [| |reflexivity]; cbn; lia.
Qed.

(** A transaction commits what its body did, or rolls it back. *)
Lemma atomically_inv {A} (body : prog SenderDb.t SqlError A) db r db' :
  atomically body db = Ret (r, db') →
  (∃ r1 db1 fs, body db = Ret (r1, db1) ∧ db' = SenderDb.rollback db (SenderDb.set_faults db1 fs)) ∨
  (∃ a db1 fs, r = inr a ∧ body db = Ret (inr a, db1) ∧ db' = SenderDb.set_faults db1 fs).
Proof using.
  unfold atomically, mbind, prog_bind. destruct (body db) as [[[e|a] db1]|] eqn:E; [| |done].
  { intros [= <- <-]. left. exists (inl e), db1, (SenderDb.faults db1). split; [done|]. by destruct db1. }
  destruct (commit db1) as [[r2 db2]|] eqn:Ec; [|done].
  apply (reader_inv (λ _, inr ())) in Ec as [Hr [fs ->]]; [|done].
  destruct Hr as [-> | ->]; intros [= <- <-]; [left|right]; eauto 10.
Qed.

Lemma set_confirmed_history_inv id hid db r db' :
  id ∈ (RequestRow.id <$> SenderDb.requests db) →
  set_confirmed_history id hid db = Ret (r, db') →
  ∃ fs, (∃ e, r = inl e) ∧ db' = SenderDb.set_faults db fs ∨
    db' = SenderDb.set_faults (SenderDb.set_requests db (confirm_row id hid <$> SenderDb.requests db)
            (SenderDb.next_request_id db)) fs ∧ hid ∈ (HistoryRow.id <$> SenderDb.history db).
Proof using.
  intros Hid. unfold set_confirmed_history. intros [[-> [fs ->]]|[fs Hr]]%statement_inv.
  { exists fs. left. split; [by eexists|done]. }
  cbv zeta in Hr. rewrite (decide_False (P := id ∉ _)) in Hr by (cbn; naive_solver).
  destruct (decide _); [|destruct (decide _)]; simplify_eq; exists fs;
    [left; split; [by eexists|done]|right|left; split; [by eexists|done]].
  split; [reflexivity|done].
Qed.

Lemma confirm_inv id hid db r db' :
  id ∈ (RequestRow.id <$> SenderDb.requests db) →
  confirm_inscription id hid db = Ret (r, db') → unchanged db db' ∨ confirmed_by id hid db db'.
Proof using.
  intros Hid. unfold confirm_inscription, in_transaction, mbind at 1, prog_bind at 1.
  destruct (start_transaction db) as [[r1 db1]|] eqn:E; [|done].
  apply (reader_inv (λ _, inr ())) in E as [Hr [fs ->]]; [|done].
  destruct Hr as [-> | ->]; [intros [= <- <-]; left; apply unchanged_faults|].
  assert (Hbody : ∀ r db', (set_confirmed_at hid ≫= λ _, set_confirmed_history id hid)
      (SenderDb.set_faults db fs) = Ret (r, db') →
    SenderDb.next_request_id db' = SenderDb.next_request_id db ∧
    SenderDb.next_history_id db' = SenderDb.next_history_id db ∧
    (∀ a, r = inr a → unchanged db db' ∨ confirmed_by id hid db db')).
  { clear -Hid. intros r db' Hr. unfold mbind, prog_bind in Hr.
    destruct (set_confirmed_at hid _) as [[r1 db1]|] eqn:E; [|done].
    apply statement_inv in E as [[-> [fs1 ->]]|[fs1 [= <- <-]]]; [by simplify_eq|].
    apply set_confirmed_history_inv in Hr as [fs2 [[[e ->] ->] | [-> _]]]; [..|done]; (split; [done|split; [done|]]).
    - by intros.
    - intros _ _. right. by exists fs2. }
  intros [(r1 & db1 & fs1 & Hb & ->)|(a & db1 & fs1 & -> & Hb & ->)]%atomically_inv;
    apply Hbody in Hb as (Hn1 & Hn2 & Hb).
  - left. eexists _, _, _. split_and!. 3: reflexivity. all: cbn; lia.
  - destruct (Hb a eq_refl) as [Hu|[fs2 ->]]; [left|right; by eexists].
    etrans; [exact Hu|apply unchanged_faults].
Qed.
End statements.

(** ** The invariant *)
Section invariant.
Context `{TxidText} `{Bincode}.

(** The request [r] of [db] carries the message [m] and has type [t]. *)
Definition request_for (db : SenderDb.t) (id : Z) (t : ViaBtcInscriptionRequestType)
    (P : InscriptionMessage.t → Prop) (r : RequestRow.t) : Prop :=
  r ∈ SenderDb.requests db ∧ RequestRow.id r = id ∧ RequestRow.request_type r = as_str t ∧
  ∃ bs m, RequestRow.inscription_message r = Some bs ∧ deserialize_message bs = Some m ∧ P m.

Definition commits_batch (n : Z) (m : InscriptionMessage.t) : Prop :=
  ∃ i, m = InscriptionMessage.L1BatchDAReference i ∧ L1BatchDAReferenceInput.l1_batch_index i = n.
Definition references_proof (m : InscriptionMessage.t) : Prop :=
  ∃ i, m = InscriptionMessage.ProofDAReference i.

(** [h] is the last history row of request [id]. *)
Definition last_history (db : SenderDb.t) (id hid : Z) : Prop :=
  (∃ h, h ∈ SenderDb.history db ∧ HistoryRow.inscription_request_id h = id ∧ HistoryRow.id h = hid) ∧
  ∀ h, h ∈ SenderDb.history db → HistoryRow.inscription_request_id h = id → HistoryRow.id h ≤ hid.

Record db_inv (db : SenderDb.t) : Prop := {
  inv_width : Forall (λ b, in_width 32 (L1BatchRow.number b)) (SenderDb.l1_batches db);
  inv_request_ids : NoDup (RequestRow.id <$> SenderDb.requests db);
  inv_request_range : Forall (λ r, 0 ≤ RequestRow.id r < SenderDb.next_request_id db) (SenderDb.requests db);
  inv_request_start : 0 ≤ SenderDb.next_request_id db;
  inv_history_ids : NoDup (HistoryRow.id <$> SenderDb.history db);
  inv_history_range : Forall (λ h, HistoryRow.id h < SenderDb.next_history_id db) (SenderDb.history db);
  inv_history_request :
    Forall (λ h, HistoryRow.inscription_request_id h ∈ (RequestRow.id <$> SenderDb.requests db))
      (SenderDb.history db);
  inv_commit_txids : NoDup (HistoryRow.commit_tx_id <$> SenderDb.history db);
  inv_reveal_txids : NoDup (HistoryRow.reveal_tx_id <$> SenderDb.history db);
  inv_batch_numbers : NoDup (BatchRequestRow.l1_batch_number <$> SenderDb.batch_requests db);
  inv_commit_ids :
    NoDup (BatchRequestRow.commit_l1_batch_inscription_id <$> SenderDb.batch_requests db);
  (* a committed batch has a request with its own reference *)
  inv_committed : Forall (λ br, ∃ r,
    request_for db (BatchRequestRow.commit_l1_batch_inscription_id br) CommitL1BatchOnchain
      (commits_batch (BatchRequestRow.l1_batch_number br)) r ∧
    (* and a proof is requested only when that request is confirmed *)
    ∀ p, BatchRequestRow.commit_proof_inscription_id br = Some p →
      RequestRow.confirmed_inscriptions_request_history_id r ≠ None ∧
      ∃ r', request_for db p CommitProofOnchain references_proof r') (SenderDb.batch_requests db);
  (* a confirmed request is not sent again *)
  inv_confirmed : Forall (λ r, ∀ hid,
    RequestRow.confirmed_inscriptions_request_history_id r = Some hid →
    last_history db (RequestRow.id r) hid) (SenderDb.requests db);
}.

Definition unconfirmed (db : SenderDb.t) (id : Z) : Prop :=
  ∀ r, r ∈ SenderDb.requests db → RequestRow.id r = id →
    RequestRow.confirmed_inscriptions_request_history_id r = None.

Lemma unchanged_inv db db' : unchanged db db' → db_inv db → db_inv db'.
Proof using.
  intros (nr & nh & fs & Hnr & Hnh & ->) []. split; cbn; try done; try lia.
  - eapply Forall_impl; [exact inv_request_range0|]. cbn. intros. lia.
  - eapply Forall_impl; [exact inv_history_range0|]. cbn. intros. lia.
Qed.

Lemma sent_inv id db db' : sent id db db' → unconfirmed db id → db_inv db → db_inv db'.
Proof using.
  intros (row & nh & fs & Hid & Hrow & Hc & Hr & Hreq & ->) Hun [].
  assert (Hnot : HistoryRow.id row ∉ (HistoryRow.id <$> SenderDb.history db)).
  { intros (h & Heq & Hh)%list_elem_of_fmap. eapply Forall_forall in inv_history_range0; [|done]. cbn in *. lia. }
  assert (Happ : ∀ {B} (f : HistoryRow.t → B), f row ∉ (f <$> SenderDb.history db) →
    NoDup (f <$> SenderDb.history db) → NoDup (f <$> (SenderDb.history db ++ [row]))).
  { intros B f Hf Hnd. rewrite fmap_app. apply NoDup_app. split_and!; [done| |apply NoDup_singleton].
    cbn. intros x Hx ->%list_elem_of_singleton. done. }
  split; cbn; try done; try by apply Happ.
  - apply Forall_app. split; [|apply Forall_singleton; lia].
    eapply Forall_impl; [exact inv_history_range0|]. cbn. intros. lia.
  - apply Forall_app. split; [done|]. apply Forall_singleton. by rewrite Hid.
  - rewrite Forall_forall in *. intros r Hin hid Hconf.
    destruct (inv_confirmed0 r Hin hid Hconf) as [(h & Hh & Hhr & Hhid) Hmax]. split; cbn.
    + exists h. split_and!; [|done..]. apply elem_of_app. by left.
    + intros h' Hh' Hid'. apply elem_of_app in Hh' as [Hh'| ->%list_elem_of_singleton]; [by apply Hmax|].
      assert (RequestRow.confirmed_inscriptions_request_history_id r = None) by (apply Hun; congruence).
      congruence.
Qed.

Lemma confirm_row_fields id hid r :
  RequestRow.id (confirm_row id hid r) = RequestRow.id r ∧
  RequestRow.request_type (confirm_row id hid r) = RequestRow.request_type r ∧
  RequestRow.inscription_message (confirm_row id hid r) = RequestRow.inscription_message r.
Proof using. unfold confirm_row. by destruct (decide _). Qed.

Lemma mark_fields hid c h :
  HistoryRow.id (mark hid c h) = HistoryRow.id h ∧
  HistoryRow.inscription_request_id (mark hid c h) = HistoryRow.inscription_request_id h ∧
  HistoryRow.commit_tx_id (mark hid c h) = HistoryRow.commit_tx_id h ∧
  HistoryRow.reveal_tx_id (mark hid c h) = HistoryRow.reveal_tx_id h.
Proof using. unfold mark. by destruct (decide _). Qed.

Lemma fmap_fields {A B} (f : A → A) (g : A → B) (l : list A) : (∀ x, g (f x) = g x) → g <$> (f <$> l) = g <$> l.
Proof using. intros Hf. rewrite <-list_fmap_compose. apply list_fmap_ext. intros ? ? _. apply Hf. Qed.

Lemma last_history_marked db db' hid c id x :
  SenderDb.history db' = mark hid c <$> SenderDb.history db →
  last_history db id x → last_history db' id x.
Proof using.
  intros Heq [(h & Hh & Hid & Hx) Hmax]. rewrite <-Hx in *. unfold last_history. rewrite Heq. split.
  - exists (mark hid c h). destruct (mark_fields hid c h) as (-> & -> & _). split_and!; [|done..].
    by apply list_elem_of_fmap_2.
  - intros h' (h1 & -> & Hh1)%list_elem_of_fmap. destruct (mark_fields hid c h1) as (-> & -> & _). by apply Hmax.
Qed.

Lemma request_for_confirmed id hid db db' i t P r :
  SenderDb.requests db' = confirm_row id hid <$> SenderDb.requests db →
  request_for db i t P r → request_for db' i t P (confirm_row id hid r).
Proof using.
  intros Heq (Hin & Hid & Ht & Hm). destruct (confirm_row_fields id hid r) as (Hi & Hty & Hmsg).
  unfold request_for. rewrite Heq, Hi, Hty, Hmsg. split_and!; [|done..]. by apply list_elem_of_fmap_2.
Qed.

Lemma confirm_row_confirmed id hid r :
  RequestRow.confirmed_inscriptions_request_history_id r ≠ None →
  RequestRow.confirmed_inscriptions_request_history_id (confirm_row id hid r) ≠ None.
Proof using. unfold confirm_row. by destruct (decide _). Qed.

Lemma confirmed_inv id hid db db' :
  confirmed_by id hid db db' → last_history db id hid → db_inv db → db_inv db'.
Proof using.
  intros [fs Hdb] Hlast []. 
  assert (Hr : SenderDb.requests db' = confirm_row id hid <$> SenderDb.requests db) by by rewrite Hdb.
  assert (Hh : SenderDb.history db' = mark hid (SenderDb.clock db) <$> SenderDb.history db) by by rewrite Hdb.
  assert (Hids : RequestRow.id <$> SenderDb.requests db' = RequestRow.id <$> SenderDb.requests db)
    by (rewrite Hr; apply fmap_fields; intros; apply confirm_row_fields).
  assert (Hf : ∀ {B} (g : HistoryRow.t → B), (∀ h, g (mark hid (SenderDb.clock db) h) = g h) →
    g <$> SenderDb.history db' = g <$> SenderDb.history db) by (intros; rewrite Hh; by apply fmap_fields).
  split; rewrite ?Hids; try done; try (by rewrite Hdb);
    try (rewrite Hf by (intros; apply mark_fields); done).
  - rewrite Hr, Forall_fmap. eapply Forall_impl; [exact inv_request_range0|]. intros r. cbn.
    destruct (confirm_row_fields id hid r) as (-> & _). by rewrite Hdb.
  - rewrite Hh, Forall_fmap. eapply Forall_impl; [exact inv_history_range0|]. intros h. cbn.
    destruct (mark_fields hid (SenderDb.clock db) h) as (-> & _). by rewrite Hdb.
  - rewrite Hh, Forall_fmap. eapply Forall_impl; [exact inv_history_request0|]. intros h. cbn.
    by destruct (mark_fields hid (SenderDb.clock db) h) as (_ & -> & _).
  - rewrite Hdb. cbn. eapply Forall_impl; [exact inv_committed0|]. intros br (r & Hreq & Hp). cbv beta.
    rewrite <-Hdb. exists (confirm_row id hid r). split; [by eapply request_for_confirmed|].
    intros p (Hc & r' & Hr')%Hp. split; [by apply confirm_row_confirmed|].
    eexists. by eapply request_for_confirmed.
  - rewrite Hr, Forall_fmap. eapply Forall_impl; [exact inv_confirmed0|]. intros r Hold x. cbn.
    destruct (confirm_row_fields id hid r) as (-> & _). unfold confirm_row.
    destruct (decide (RequestRow.id r = id)) as [->|]; cbn.
    + intros [= <-]. by eapply last_history_marked.
    + intros Hx. eapply last_history_marked; [done|]. by apply Hold.
Qed.

(** ** One request handled by the manager *)
Definition managed (id : Z) (db db' : SenderDb.t) : Prop := ∃ db1, unchanged db db1 ∧
  (unchanged db1 db' ∨ sent id db1 db' ∨ ∃ hid, last_history db1 id hid ∧ confirmed_by id hid db1 db').

Lemma unchanged_rows db db' : unchanged db db' →
  SenderDb.requests db' = SenderDb.requests db ∧ SenderDb.history db' = SenderDb.history db ∧
  SenderDb.batch_requests db' = SenderDb.batch_requests db.
Proof using. by intros (nr & nh & fs & _ & _ & ->). Qed.

Lemma unchanged_unconfirmed db db' id : unchanged db db' → unconfirmed db id → unconfirmed db' id.
Proof using. intros (Hr & _)%unchanged_rows. unfold unconfirmed. by rewrite Hr. Qed.

Lemma managed_inv id db db' : managed id db db' → unconfirmed db id → db_inv db → db_inv db'.
Proof using.
  intros (db1 & Hu & Hm) Hun Hinv. apply (unchanged_inv _ _ Hu) in Hinv.
  apply (unchanged_unconfirmed _ _ _ Hu) in Hun.
  destruct Hm as [Hm|[Hm|(hid & Hl & Hm)]]; [by eapply unchanged_inv|by eapply sent_inv|by eapply confirmed_inv].
Qed.

Lemma managed_unconfirmed id id' db db' :
  managed id db db' → id' ≠ id → unconfirmed db id' → unconfirmed db' id'.
Proof using.
  intros (db1 & Hu & Hm) Hne Hun. apply (unchanged_unconfirmed _ _ _ Hu) in Hun.
  destruct Hm as [Hm|[(row & nh & fs & _ & _ & _ & _ & _ & ->)|(hid & _ & fs & ->)]].
  - by eapply unchanged_unconfirmed.
  - done.
  - intros r (r1 & -> & Hr1)%list_elem_of_fmap. unfold confirm_row.
    destruct (decide _) as [Heq|]; cbn; [congruence|]. by apply Hun.
Qed.

(** History only grows. *)
Lemma history_of_unchanged db db' id : unchanged db db' → history_of db' id = history_of db id.
Proof using. intros (_ & Hh & _)%unchanged_rows. unfold history_of. by rewrite Hh. Qed.

Lemma history_of_sent id id' db db' : sent id db db' →
  ∃ row, HistoryRow.inscription_request_id row = id ∧
    history_of db' id' = history_of db id' ++ (if decide (id = id') then [row] else []).
Proof using.
  intros (row & nh & fs & Hid & _ & _ & _ & _ & ->). exists row. split; [done|].
  unfold history_of. cbn. rewrite filter_app. f_equal. rewrite filter_cons, Hid. by destruct (decide _).
Qed.

Lemma history_of_confirmed id hid id' db db' : confirmed_by id hid db db' →
  history_of db' id' = mark hid (SenderDb.clock db) <$> history_of db id'.
Proof using.
  intros [fs ->]. unfold history_of. cbn. induction (SenderDb.history db) as [|h l IH]; [done|].
  cbn [fmap list_fmap]. rewrite !filter_cons.
  destruct (mark_fields hid (SenderDb.clock db) h) as (_ & -> & _).
  destruct (decide _); cbn [fmap list_fmap]; by f_equal.
Qed.

Lemma managed_history id id' db db' :
  managed id db db' → history_of db id' ≠ [] → history_of db' id' ≠ [].
Proof using.
  intros (db1 & Hu & Hm) Hne. rewrite <-(history_of_unchanged _ _ _ Hu) in Hne.
  destruct Hm as [Hm|[Hm|(hid & _ & Hm)]].
  - by rewrite (history_of_unchanged _ _ _ Hm).
  - destruct (history_of_sent _ id' _ _ Hm) as (row & _ & ->). by destruct (history_of db1 id').
  - rewrite (history_of_confirmed _ _ _ _ _ Hm). by destruct (history_of db1 id').
Qed.

(** ** Requests in flight *)
Definition inflight (db : SenderDb.t) (r : RequestRow.t) : Prop :=
  RequestRow.confirmed_inscriptions_request_history_id r = None ∧ history_of db (RequestRow.id r) ≠ [].
#[global] Instance inflight_dec db r : Decision (inflight db r).
Proof using. unfold inflight. apply _. Defined.
Definition inflight_count (db : SenderDb.t) : nat := length (filter (inflight db) (SenderDb.requests db)).

Lemma filter_fmap_length {A} (P P' : A → Prop) `{∀ x, Decision (P x)} `{∀ x, Decision (P' x)} (f : A → A) l :
  (∀ x, P' (f x) → P x) → (length (filter P' (f <$> l)) ≤ length (filter P l))%nat.
Proof using.
  intros Hf. induction l as [|x l IH]; [done|]. cbn [fmap list_fmap]. rewrite !filter_cons.
  destruct (decide (P' (f x))) as [Hp%Hf|]; [rewrite decide_True by done; cbn; lia|].
  destruct (decide (P x)); cbn; lia.
Qed.

Lemma count_unchanged db db' : unchanged db db' → inflight_count db' = inflight_count db.
Proof using.
  intros Hu. destruct (unchanged_rows _ _ Hu) as (Hr & _). unfold inflight_count. rewrite Hr. f_equal.
  apply list_filter_iff. intros r. unfold inflight. by rewrite (history_of_unchanged _ _ _ Hu).
Qed.

Lemma count_confirmed id hid db db' : confirmed_by id hid db db' → (inflight_count db' ≤ inflight_count db)%nat.
Proof using.
  intros Hc. pose proof Hc as [fs Hdb]. unfold inflight_count. 
  replace (SenderDb.requests db') with (confirm_row id hid <$> SenderDb.requests db) by by rewrite Hdb.
  apply filter_fmap_length. intros r [Hnone Hne].
  destruct (confirm_row_fields id hid r) as (Hid & _). rewrite Hid in Hne. split.
  - unfold confirm_row in Hnone. by destruct (decide _).
  - rewrite (history_of_confirmed _ _ _ _ _ Hc) in Hne. by destruct (history_of db _).
Qed.

Lemma count_sent id db db' : sent id db db' → db_inv db →
  (inflight_count db' ≤ inflight_count db + (if decide (history_of db id = []) then 1 else 0))%nat.
Proof using.
  intros Hs Hinv. pose proof Hs as (row & nh & fs & _ & _ & _ & _ & _ & Hdb).
  pose proof (inv_request_ids _ Hinv) as Hnd. unfold inflight_count.
  replace (SenderDb.requests db') with (SenderDb.requests db) by by rewrite Hdb. clear Hdb Hinv.
  assert (Hiff : ∀ r, inflight db' r → inflight db r ∨ RequestRow.id r = id ∧ history_of db id = []).
  { intros r [Hn Hne]. destruct (history_of_sent _ (RequestRow.id r) _ _ Hs) as (row' & _ & Heq).
    rewrite Heq in Hne. unfold inflight. destruct (history_of db (RequestRow.id r)) eqn:E; [|left; split; congruence].
    right. destruct (decide (id = _)) as [->|]; [done|by rewrite app_nil_r in Hne]. }
  induction (SenderDb.requests db) as [|r l IH]; [cbn; lia|].
  cbn [fmap list_fmap] in Hnd. apply NoDup_cons in Hnd as [Hnot Hnd]. specialize (IH Hnd).
  rewrite !filter_cons. destruct (decide (inflight db' r)) as [Hp%Hiff|];
    [|destruct (decide (inflight db r)); cbn [length]; lia].
  destruct (decide (inflight db r)) as [|Hno]; [cbn [length]; lia|].
  destruct Hp as [|[Hid Hnil]]; [done|]. rewrite (decide_True _ _ Hnil). cbn [length].
  enough (length (filter (inflight db') l) ≤ length (filter (inflight db) l))%nat by lia.
  clear IH. assert (Hl : ∀ r', r' ∈ l → inflight db' r' → inflight db r').
  { intros r' Hr' [?|[Heq _]]%Hiff; [done|]. destruct Hnot. rewrite Hid, <-Heq. by apply list_elem_of_fmap_2. }
  clear -Hl. induction l as [|x l IH]; [done|]. rewrite !filter_cons.
  destruct (decide (inflight db' x)) as [Hx|]; [rewrite decide_True by (apply Hl; [left|done]); cbn|destruct (decide _); cbn];
    pose proof (IH (λ r' Hr', Hl r' ltac:(right; exact Hr'))); lia.
Qed.

Lemma count_managed id db db' : managed id db db' → db_inv db → history_of db id ≠ [] →
  (inflight_count db' ≤ inflight_count db)%nat.
Proof using.
  intros (db1 & Hu & Hm) Hinv Hne. rewrite <-(count_unchanged _ _ Hu).
  apply (unchanged_inv _ _ Hu) in Hinv. rewrite <-(history_of_unchanged _ _ _ Hu) in Hne.
  destruct Hm as [Hm|[Hm|(hid & _ & Hm)]].
  - by rewrite (count_unchanged _ _ Hm).
  - pose proof (count_sent _ _ _ Hm Hinv) as Hc. by rewrite decide_False, Nat.add_0_r in Hc.
  - by eapply count_confirmed.
Qed.

(** The rows that [get_inflight_inscriptions] selects are the requests in flight. *)
Lemma latest_created_elem l h : latest_created l = Some h → h ∈ l.
Proof using.
  unfold latest_created. assert (Hgen : ∀ acc, foldl (λ acc h, match acc with
    | Some m => if decide (HistoryRow.created_at m ≤ HistoryRow.created_at h) then Some h else acc
    | None => Some h end) acc l = Some h → acc = Some h ∨ h ∈ l).
  { induction l as [|x l IH]; intros acc Hf; [by left|]. cbn in Hf. apply IH in Hf as [Hf|]; [|by right; right].
    destruct acc as [m|]; [destruct (decide _)|]; simplify_eq; [right; left|by left|right; left]. }
  intros [?|?]%Hgen; done.
Qed.

Lemma latest_created_None l : latest_created l = None → l = [].
Proof using.
  destruct l as [|x l]; [done|]. unfold latest_created. cbn.
  assert (Hgen : ∀ m, ∃ h, foldl (λ acc h, match acc with
    | Some m => if decide (HistoryRow.created_at m ≤ HistoryRow.created_at h) then Some h else acc
    | None => Some h end) (Some m) l = Some h).
  { induction l as [|y l IH]; intros m; [by eexists|]. cbn. destruct (decide _); apply IH. }
  destruct (Hgen x) as [h ->]. done.
Qed.

Lemma NoDup_filter_unique {A} (P : A → Prop) `{∀ x, Decision (P x)} l h :
  NoDup l → h ∈ l → (∀ x, x ∈ l → P x ↔ x = h) → filter P l = [h].
Proof using.
  induction l as [|x l IH]; intros Hnd Hin HP; [by apply not_elem_of_nil in Hin|].
  apply NoDup_cons in Hnd as [Hnot Hnd]. rewrite filter_cons.
  destruct (decide (P x)) as [->%HP|Hno]; [|left|].
  - f_equal. destruct (filter P l) as [|y l'] eqn:E; [done|].
    assert (Hy : y ∈ filter P l) by (rewrite E; left).
    apply list_elem_of_filter in Hy as [Hy Hyl]. apply HP in Hy; [|by right]. by subst y.
  - apply elem_of_cons in Hin as [<-|Hin]; [by destruct Hno; apply HP; [left|]|].
    apply IH; [done..|]. intros y Hy. apply HP. by right.
Qed.

Lemma NoDup_fmap_eq {A B} (f : A → B) l x y :
  NoDup (f <$> l) → x ∈ l → y ∈ l → f x = f y → x = y.
Proof using.
  intros Hnd (i & Hi)%list_elem_of_lookup (j & Hj)%list_elem_of_lookup Heq.
  assert (i = j) as ->; [|congruence].
  eapply NoDup_lookup; [exact Hnd| |]; rewrite list_lookup_fmap, ?Hi, ?Hj; cbn; [done|by rewrite Heq].
Qed.

Lemma inflight_rows_perm db : db_inv db → inflight_rows db ≡ₚ filter (inflight db) (SenderDb.requests db).
Proof using.
  intros Hinv. unfold inflight_rows, order_by. rewrite merge_sort_Permutation.
  assert (Hr : ∀ r, (λ _, r) <$> filter (is_inflight db r) (SenderDb.history db)
    = if decide (inflight db r) then [r] else []).
  { intros r. destruct (decide (inflight db r)) as [[Hnone Hne]|Hno].
    - destruct (latest_created (history_of db (RequestRow.id r))) as [h|] eqn:Hl;
        [|by apply latest_created_None in Hl].
      pose proof (latest_created_elem _ _ Hl) as [Hh Hin]%list_elem_of_filter.
      rewrite (NoDup_filter_unique _ _ h); [done| |done|].
      + eapply NoDup_fmap_1, inv_history_ids, Hinv.
      + intros h' Hh'. unfold is_inflight. rewrite Hl, Hnone. cbn. rewrite !andb_True, !bool_decide_spec.
        split; [|by intros ->]. intros [_ [= Hid]]. eapply (NoDup_fmap_eq HistoryRow.id); eauto.
        apply inv_history_ids, Hinv.
    - destruct (filter _ _) as [|h l] eqn:E; [done|]. destruct Hno.
      assert (Hh : h ∈ filter (is_inflight db r) (SenderDb.history db)) by (rewrite E; left).
      apply list_elem_of_filter in Hh as [Hp Hh]. unfold is_inflight in Hp.
      rewrite !andb_True, !bool_decide_spec in Hp. destruct Hp as [[Hid Hnone] _]. split; [done|].
      intros Hnil. assert (Hin : h ∈ history_of db (RequestRow.id r)) by by apply list_elem_of_filter.
      rewrite Hnil in Hin. by apply not_elem_of_nil in Hin. }
  clear Hinv. induction (SenderDb.requests db) as [|r l IH]; [done|].
  cbn [mbind list_bind]. rewrite Hr, filter_cons. destruct (decide (inflight db r)); cbn [app]; [by f_equiv|done].
Qed.

Lemma mapM_request_ids rows l :
  mapM request_from rows = Ret l →
  ViaBtcInscriptionRequest.id <$> l = RequestRow.id <$> rows.
Proof using.
  revert l. induction rows as [|r rows IH]; intros l Hm; cbn [mapM] in Hm; [by injection Hm as <-|].
  apply bind_Ret_inv in Hm as (x & Hx & Hm). apply bind_Ret_inv in Hm as (xs & Hxs & Hm). injection Hm as <-.
  apply IH in Hxs. cbn. rewrite Hxs. unfold request_from in Hx. apply bind_Ret_inv in Hx as (t & _ & [= <-]). done.
Qed.

Lemma last_by_id_spec l h : last_by_id l = Some h → h ∈ l ∧ ∀ h', h' ∈ l → HistoryRow.id h' ≤ HistoryRow.id h.
Proof using.
  unfold last_by_id. assert (Hgen : ∀ acc, foldl (λ acc h, match acc with
    | Some m => if decide (HistoryRow.id m < HistoryRow.id h) then Some h else acc
    | None => Some h end) acc l = Some h →
    (acc = Some h ∨ h ∈ l) ∧ (∀ m, acc = Some m → HistoryRow.id m ≤ HistoryRow.id h) ∧
    ∀ h', h' ∈ l → HistoryRow.id h' ≤ HistoryRow.id h).
  { induction l as [|x l IH]; intros acc Hf; cbn in Hf.
    { split_and!; [by left|intros m ->; simplify_eq; lia|by intros h' []%not_elem_of_nil]. }
    apply IH in Hf as (Hin & Hacc & Hall). destruct acc as [m|]; [destruct (decide _) as [Hlt|Hge]|].
    - split_and!; [right; destruct Hin as [[= ->]|]; [left|by right]| |].
      + intros m' [= <-]. specialize (Hacc x eq_refl). lia.
      + intros h' [->|Hh']%elem_of_cons; [by apply Hacc|by apply Hall].
    - split_and!; [destruct Hin; [by left|by right; right]| |].
      + intros m' [= <-]. by apply Hacc.
      + intros h' [->|Hh']%elem_of_cons; [specialize (Hacc m eq_refl); lia|by apply Hall].
    - split_and!; [right; destruct Hin as [[= ->]|]; [left|by right]|done|].
      intros h' [->|Hh']%elem_of_cons; [by apply Hacc|by apply Hall]. }
  intros Hf%Hgen. destruct Hf as ([?|?] & _ & ?); done.
Qed.

Lemma last_by_id_history db id row :
  last_by_id (history_of db id) = Some row → last_history db id (HistoryRow.id row).
Proof using.
  intros [[Hid Hin]%list_elem_of_filter Hmax]%last_by_id_spec. split; [by exists row|].
  intros h Hh Hhid. apply Hmax. by apply list_elem_of_filter.
Qed.
End invariant.

(** ** The manager *)
Section manager.
Context `{BitcoinLib} `{TxidText} `{Bincode} {W : Type} `{BitcoinOps W} (signer : BitcoinSigner.t).
Abbreviation ST := (SenderDb.t * state (W := W))%type.

Lemma send_post tx cfg db :
  post (W := W) (send_inscription_tx signer tx cfg) db
    (λ _ db', unchanged db db' ∨ sent (ViaBtcInscriptionRequest.id tx) db db').
Proof using.
  unfold send_inscription_tx. repeat (post_step; try by left).
  apply post_sql. intros r db' Hr. apply insert_history_inv in Hr as [Hu|[[n ->] Hs]].
  - destruct r; [by left|]. apply post_mret. by left.
  - apply post_mret. by right.
Qed.

Lemma update_post cfg u insc db :
  db_inv db →
  post (W := W) (update_or_resend signer cfg u insc) db
    (λ _ db', managed (ViaBtcInscriptionRequest.id insc) db db').
Proof using.
  intros Hinv. set (id := ViaBtcInscriptionRequest.id insc).
  assert (Hu0 : ∀ db1, unchanged db db1 → managed id db db1).
  { intros db1 Hu. exists db1. split; [done|]. by left. }
  unfold update_or_resend. post_step. apply post_sql. intros r db1 Hr.
  apply get_last_inv in Hr as [Hu Hlast]. destruct r as [e|[h|]]; [by apply Hu0| |apply post_mret; by apply Hu0].
  destruct (Hlast h eq_refl) as (row & Hrow & Hfrom). clear Hlast.
  repeat (post_step; try by apply Hu0). destruct b.
  - apply post_sql. intros r db2 Hc. fold id in Hc.
    rewrite <-(history_of_unchanged _ _ _ Hu) in Hrow. apply last_by_id_history in Hrow.
    assert (Hid : ViaBtcInscriptionRequestHistory.id h = HistoryRow.id row).
    { unfold history_from in Hfrom. apply bind_Ret_inv in Hfrom as (? & _ & Hfrom).
      apply bind_Ret_inv in Hfrom as (? & _ & [= <-]). done. }
    rewrite Hid in Hc. apply confirm_inv in Hc.
    + exists db1. split; [done|]. destruct Hc as [Hc|Hc]; [by left|right; right; eauto].
    + apply (unchanged_inv _ _ Hu) in Hinv. destruct Hrow as [(h' & Hh' & Heq & _) _].
      unfold id; rewrite <-Heq.
      exact (proj1 (Forall_forall _ _) (inv_history_request _ Hinv) _ Hh').
  - repeat (post_step; try by apply Hu0). destruct (decide _); [apply post_mret; by apply Hu0|].
    post_step. apply post_sql. intros r db2 Ht%get_total_inv. destruct r as [e|total]; [apply Hu0; by etrans|].
    eapply post_mono; [|apply send_post]. cbn. fold id. intros _ db3 [Hs|Hs].
    + apply Hu0. etrans; [exact Hu|]. by etrans.
    + exists db2. split; [by etrans|]. by right; left.
Qed.

(** The loop over the inscriptions in flight. *)
Lemma update_loop cfg l u db :
  db_inv db → NoDup (ViaBtcInscriptionRequest.id <$> l) →
  (∀ x, x ∈ l → unconfirmed db (ViaBtcInscriptionRequest.id x) ∧
                history_of db (ViaBtcInscriptionRequest.id x) ≠ []) →
  post (W := W) (foldP (update_or_resend signer cfg) u l) db
    (λ _ db', db_inv db' ∧ (inflight_count db' ≤ inflight_count db)%nat).
Proof using.
  revert u db. induction l as [|x l IH]; intros u db Hinv Hnd Hl; cbn [foldP].
  { by apply post_mret. }
  cbn [fmap list_fmap] in Hnd. apply NoDup_cons in Hnd as [Hnot Hnd].
  destruct (Hl x ltac:(left)) as [Hun Hne].
  apply post_bind. eapply post_mono; [|by apply update_post]. cbn. intros r db1 Hm.
  pose proof (managed_inv _ _ _ Hm Hun Hinv) as Hinv1.
  pose proof (count_managed _ _ _ Hm Hinv Hne) as Hc. destruct r as [e|u1]; [done|].
  eapply post_mono; [|apply IH; [done..|]].
  - cbn. intros _ db2 [??]. split; [done|lia].
  - intros y Hy. destruct (Hl y ltac:(by right)) as [Huny Hney]. split.
    + eapply managed_unconfirmed; [done| |done]. intros Heq. apply Hnot. rewrite <-Heq. by apply list_elem_of_fmap_2.
    + by eapply managed_history.
Qed.

(** The loop over new requests. *)
Lemma send_loop l u db :
  db_inv db → (∀ x, x ∈ l → unconfirmed db (ViaBtcInscriptionRequest.id x)) →
  post (W := W) (foldP (λ _ x, send_inscription_tx signer x InscriptionConfig.default) u l) db
    (λ _ db', db_inv db' ∧ (inflight_count db' ≤ inflight_count db + length l)%nat).
Proof using.
  revert u db. induction l as [|x l IH]; intros u db Hinv Hl; cbn [foldP].
  { apply post_mret. split; [done|lia]. }
  apply post_bind. eapply post_mono; [|by apply send_post]. cbn. intros r db1 Hs.
  assert (Hunx : unconfirmed db (ViaBtcInscriptionRequest.id x)) by (apply Hl; left).
  assert (Hinv1 : db_inv db1 ∧ (inflight_count db1 ≤ inflight_count db + 1)%nat).
  { destruct Hs as [Hu|Hs].
    - split; [by eapply unchanged_inv|]. rewrite (count_unchanged _ _ Hu). lia.
    - split; [by eapply sent_inv|]. pose proof (count_sent _ _ _ Hs Hinv). by destruct (decide _); lia. }
  destruct Hinv1 as [Hinv1 Hc]. destruct r as [e|u1]; [split; [done|lia]|].
  eapply post_mono; [|apply IH; [done|]].
  - cbn. intros _ db2 [??]. split; [done|lia].
  - intros y Hy. assert (Hun : unconfirmed db (ViaBtcInscriptionRequest.id y)) by (apply Hl; by right).
    destruct Hs as [Hu|(row & nh & fs & _ & _ & _ & _ & _ & ->)]; [by eapply unchanged_unconfirmed|done].
Qed.

Lemma request_by_id db r r' : db_inv db → r ∈ SenderDb.requests db → r' ∈ SenderDb.requests db →
  RequestRow.id r = RequestRow.id r' → r = r'.
Proof using. intros Hinv. apply NoDup_fmap_eq, inv_request_ids, Hinv. Qed.

Lemma inflight_facts db l : db_inv db → mapM request_from (inflight_rows db) = Ret l →
  NoDup (ViaBtcInscriptionRequest.id <$> l) ∧ length l = inflight_count db ∧
  ∀ x, x ∈ l → unconfirmed db (ViaBtcInscriptionRequest.id x) ∧
               history_of db (ViaBtcInscriptionRequest.id x) ≠ [].
Proof using.
  intros Hinv Hm%mapM_request_ids. pose proof (inflight_rows_perm db Hinv) as Hp.
  assert (Hids : ViaBtcInscriptionRequest.id <$> l ≡ₚ
    RequestRow.id <$> filter (inflight db) (SenderDb.requests db)) by by rewrite Hm, Hp.
  split_and!.
  - rewrite Hids. eapply sublist_NoDup; [apply (inv_request_ids _ Hinv)|].
    apply fmap_sublist, sublist_filter.
  - unfold inflight_count. rewrite <-(length_fmap ViaBtcInscriptionRequest.id l).
    by rewrite Hids, length_fmap.
  - intros x Hx. apply (list_elem_of_fmap_2 ViaBtcInscriptionRequest.id) in Hx. rewrite Hids in Hx.
    apply list_elem_of_fmap in Hx as (r & -> & [[Hnone Hne] Hr]%list_elem_of_filter).
    split; [|done]. intros r' Hr' Heq. by rewrite (request_by_id db r' r Hinv Hr' Hr Heq).
Qed.

Lemma new_unconfirmed db r : db_inv db → r ∈ new_rows db → unconfirmed db (RequestRow.id r).
Proof using.
  intros Hinv Hr. unfold new_rows, order_by in Hr. rewrite merge_sort_Permutation in Hr.
  apply list_elem_of_filter in Hr as [Hnil Hr]. intros r' Hr' Heq.
  rewrite (request_by_id db r' r Hinv Hr' Hr Heq).
  destruct (RequestRow.confirmed_inscriptions_request_history_id r) as [hid|] eqn:Hc; [|done].
  destruct (proj1 (Forall_forall _ _) (inv_confirmed _ Hinv) r Hr hid Hc) as [(h & Hh & Hid & _) _].
  assert (Hin : h ∈ history_of db (RequestRow.id r)) by by apply list_elem_of_filter.
  rewrite Hnil in Hin. by apply not_elem_of_nil in Hin.
Qed.

Lemma update_status_post cfg db : db_inv db →
  post (W := W) (update_inscription_status_or_resend signer cfg) db
    (λ _ db', db_inv db' ∧ (inflight_count db' ≤ inflight_count db)%nat).
Proof using.
  intros Hinv. unfold update_inscription_status_or_resend. post_step. apply post_sql.
  intros r db1 [Hu Hl]%get_inflight_inv. rewrite <-(count_unchanged _ _ Hu).
  assert (Hinv1 : db_inv db1) by by eapply unchanged_inv.
  destruct r as [e|l]; [done|]. destruct (inflight_facts db l Hinv (Hl l eq_refl)) as (Hnd & _ & Hx).
  apply update_loop; [done..|]. intros x [Hun Hne]%Hx. split; [by eapply unchanged_unconfirmed|].
  by rewrite (history_of_unchanged _ _ _ Hu).
Qed.

Lemma send_new_post cfg db : db_inv db →
  post (W := W) (send_new_inscription_txs signer cfg) db
    (λ _ db', db_inv db' ∧ Z.of_nat (inflight_count db') ≤
       Z.max (Z.of_nat (inflight_count db)) (ViaBtcSenderConfig.max_txs_in_flight cfg)).
Proof using.
  intros Hinv. unfold send_new_inscription_txs. post_step. apply post_sql.
  intros r db1 [Hu Hl]%get_inflight_inv. rewrite <-(count_unchanged _ _ Hu).
  assert (Hinv1 : db_inv db1) by by eapply unchanged_inv.
  destruct r as [e|l]; [split; [done|lia]|].
  destruct (inflight_facts db l Hinv (Hl l eq_refl)) as (_ & Hlen & _).
  rewrite <-(count_unchanged _ _ Hu) in Hlen. rewrite Hlen. clear Hl Hlen.
  destruct (decide _) as [Hslots|]; [|apply post_mret; split; [done|lia]].
  post_step. apply post_sql. intros r db2 [Hu2 Hl]%list_new_inv. rewrite <-(count_unchanged _ _ Hu2) in *.
  assert (Hinv2 : db_inv db2) by by eapply unchanged_inv.
  destruct r as [e|new]; [split; [done|lia]|]. destruct (Hl new eq_refl) as [Hpos Hm%mapM_request_ids].
  eapply post_mono; [|apply send_loop; [done|]]; cbn.
  - intros _ db3 [Hinv3 Hc]. split; [done|]. 
    assert (Hln : (length new ≤ Z.to_nat (saturating_sub_i64 (ViaBtcSenderConfig.max_txs_in_flight cfg)
      (Z.of_nat (inflight_count db2))))%nat).
    { rewrite <-(length_fmap ViaBtcInscriptionRequest.id new), Hm, length_fmap, length_take. lia. }
    unfold saturating_sub_i64 in *. lia.
  - intros x Hx. apply (list_elem_of_fmap_2 ViaBtcInscriptionRequest.id) in Hx. rewrite Hm in Hx.
    apply list_elem_of_fmap in Hx as (r & -> & Hr%elem_of_take). destruct Hr as (i & Hr & _).
    apply list_elem_of_lookup_2 in Hr. eapply unchanged_unconfirmed; [done|]. by apply new_unconfirmed.
Qed.

Lemma manager_post cfg db : db_inv db →
  post (W := W) (manager_iteration signer cfg) db
    (λ _ db', db_inv db' ∧ Z.of_nat (inflight_count db') ≤
       Z.max (Z.of_nat (inflight_count db)) (ViaBtcSenderConfig.max_txs_in_flight cfg)).
Proof using.
  intros Hinv. unfold manager_iteration. post_step.
  eapply post_mono; [|by apply update_status_post]. cbn. intros [e|u] db1 [Hinv1 Hc]; [split; [done|lia]|].
  eapply post_mono; [|by apply send_new_post]. cbn. intros _ db2 [??]. split; [done|lia].
Qed.
End manager.

(** ** The aggregator *)
Section aggregator.
Context `{BitcoinLib} `{TxidText} `{Bincode} `{!BincodeLaws} {W : Type} `{BitcoinOps W}
  (signer : BitcoinSigner.t).

(** Request ids are stored as [i32] in [via_l1_batch_inscription_request]. *)
Definition id_bound : Z := 2 ^ 31.

Definition seq_le (db db' : SenderDb.t) : Prop :=
  SenderDb.next_request_id db ≤ SenderDb.next_request_id db' ∧
  SenderDb.next_history_id db ≤ SenderDb.next_history_id db'.

(** Requests and links added by the aggregator. *)
Record extends (db db' : SenderDb.t) : Prop := {
  ext_batches : SenderDb.l1_batches db' = SenderDb.l1_batches db;
  ext_history : SenderDb.history db' = SenderDb.history db;
  ext_requests : ∃ rs, SenderDb.requests db' = SenderDb.requests db ++ rs ∧
    Forall (λ r, SenderDb.next_request_id db ≤ RequestRow.id r) rs;
  ext_links : ∀ br, br ∈ SenderDb.batch_requests db → ∃ br', br' ∈ SenderDb.batch_requests db' ∧
    BatchRequestRow.l1_batch_number br' = BatchRequestRow.l1_batch_number br ∧
    BatchRequestRow.commit_l1_batch_inscription_id br' =
      BatchRequestRow.commit_l1_batch_inscription_id br;
  ext_seq : seq_le db db';
  ext_inv : db_inv db → SenderDb.next_request_id db' ≤ id_bound → db_inv db';
}.

Lemma unchanged_extends db db' : unchanged db db' → extends db db'.
Proof using.
  intros Hu. pose proof Hu as (nr & nh & fs & ? & ? & ->). split; cbn; try done.
  - exists []. by rewrite app_nil_r.
  - intros br Hbr. by exists br.
  - intros Hinv _. by eapply unchanged_inv.
Qed.

#[local] Instance extends_preorder : PreOrder extends.
Proof using.
  split; [intros db; by apply unchanged_extends|]. intros db1 db2 db3 [] [].
  destruct ext_seq0 as [??], ext_seq1 as [??]. split; try congruence.
  - destruct ext_requests0 as (rs & Hrs & Hf), ext_requests1 as (rs' & Hrs' & Hf').
    exists (rs ++ rs'). rewrite Hrs', Hrs, app_assoc. split; [done|].
    apply Forall_app. split; [done|]. eapply Forall_impl; [exact Hf'|]. cbn. intros. lia.
  - intros br (br1 & Hbr1 & Hn1 & Hc1)%ext_links0. apply ext_links1 in Hbr1 as (br2 & Hbr2 & Hn2 & Hc2).
    exists br2. split; [done|]. split; congruence.
  - split; lia.
  - intros Hinv Hb. apply ext_inv1; [|done]. apply ext_inv0; [done|lia].
Qed.

(** A proof may be requested for batch [n]: its commit request is confirmed. *)
Definition proof_batch_ok (db : SenderDb.t) (n : Z) : Prop := ∃ br r,
  br ∈ SenderDb.batch_requests db ∧ BatchRequestRow.l1_batch_number br = n ∧
  r ∈ SenderDb.requests db ∧ RequestRow.id r = BatchRequestRow.commit_l1_batch_inscription_id br ∧
  RequestRow.confirmed_inscriptions_request_history_id r ≠ None.

Lemma extends_proof_ok db db' n : extends db db' → proof_batch_ok db n → proof_batch_ok db' n.
Proof using.
  intros [_ _ (rs & Hrs & _) Hl _ _] (br & r & Hbr & Hn & Hr & Hid & Hc).
  destruct (Hl br Hbr) as (br' & Hbr' & Hn' & Hc'). exists br', r. rewrite Hrs, elem_of_app, Hn', Hc'. auto.
Qed.

Lemma request_for_app db db' i t P r rs :
  SenderDb.requests db' = SenderDb.requests db ++ rs → request_for db i t P r → request_for db' i t P r.
Proof using. intros Heq (Hin & Hrest). split; [|done]. rewrite Heq, elem_of_app. by left. Qed.

(** Saving a request keeps the part of the invariant about requests and history. *)
Lemma save_inv db db' row :
  db_inv db → RequestRow.id row = SenderDb.next_request_id db →
  RequestRow.confirmed_inscriptions_request_history_id row = None →
  SenderDb.l1_batches db' = SenderDb.l1_batches db → SenderDb.history db' = SenderDb.history db →
  SenderDb.requests db' = SenderDb.requests db ++ [row] →
  SenderDb.next_request_id db' = SenderDb.next_request_id db + 1 →
  SenderDb.next_history_id db' = SenderDb.next_history_id db →
  NoDup (BatchRequestRow.l1_batch_number <$> SenderDb.batch_requests db') →
  NoDup (BatchRequestRow.commit_l1_batch_inscription_id <$> SenderDb.batch_requests db') →
  Forall (λ br, ∃ r,
    request_for db' (BatchRequestRow.commit_l1_batch_inscription_id br) CommitL1BatchOnchain
      (commits_batch (BatchRequestRow.l1_batch_number br)) r ∧
    ∀ p, BatchRequestRow.commit_proof_inscription_id br = Some p →
      RequestRow.confirmed_inscriptions_request_history_id r ≠ None ∧
      ∃ r', request_for db' p CommitProofOnchain references_proof r') (SenderDb.batch_requests db') →
  db_inv db'.
Proof using.
  intros [] Hid Hconf Hb Hh Hr Hnr Hnh Hnd1 Hnd2 Hlinks.
  assert (Hnew : RequestRow.id row ∉ (RequestRow.id <$> SenderDb.requests db)).
  { intros (r & Heq & Hin)%list_elem_of_fmap. eapply Forall_forall in inv_request_range0; [|exact Hin].
    cbn in *. lia. }
  split; rewrite ?Hb, ?Hh, ?Hnh; try done.
  - rewrite Hr, fmap_app. apply NoDup_app. split_and!; [done| |apply NoDup_singleton].
    cbn. by intros x Hx ->%list_elem_of_singleton.
  - rewrite Hr, Forall_app, Forall_singleton, Hnr. split; [|lia].
    eapply Forall_impl; [exact inv_request_range0|]. cbn. intros. lia.
  - lia.
  - eapply Forall_impl; [exact inv_history_request0|]. intros h Hin. cbn.
    rewrite Hr, fmap_app, elem_of_app. by left.
  - rewrite Hr, Forall_app, Forall_singleton, Hconf. split; [|done].
    eapply Forall_impl; [exact inv_confirmed0|]. intros r Hc hid Hx. unfold last_history. rewrite Hh. by apply Hc.
Qed.

(** The row that [via_save_btc_inscriptions_request] inserts. *)
Definition saved_row (db : SenderDb.t) (t : ViaBtcInscriptionRequestType) (bs : list byte) (fee : Z)
    : RequestRow.t :=
  RequestRow.mk (SenderDb.next_request_id db) (as_str t) (Some bs) (Some (to_signed 64 fee)) None.
Definition saved (db : SenderDb.t) (row : RequestRow.t) (fs : list bool) : SenderDb.t :=
  with_rows db (SenderDb.requests db ++ [row]) (SenderDb.history db) (SenderDb.batch_requests db)
    (SenderDb.next_request_id db + 1) (SenderDb.next_history_id db) fs.

Lemma save_request_inv t bs fee db r db' :
  via_save_btc_inscriptions_request t bs fee db = Ret (r, db') →
  unchanged db db' ∧ (∃ e, r = inl e) ∨
  ∃ x fs, r = inr x ∧ ViaBtcInscriptionRequest.id x = SenderDb.next_request_id db ∧
    db' = saved db (saved_row db t bs fee) fs.
Proof using.
  unfold via_save_btc_inscriptions_request, mbind, prog_bind.
  destruct (statement _ db) as [[r1 db1]|] eqn:E; [|done].
  apply statement_inv in E as [[-> [fs ->]]|[fs [= <- <-]]].
  { intros [= <- <-]. left. split; [apply unchanged_faults|by eexists]. }
  unfold lift_exec. destruct (request_from _) as [x|] eqn:Hx; [|done]. intros [= <- <-].
  right. exists x, fs. split; [done|]. unfold request_from in Hx.
  apply bind_Ret_inv in Hx as (? & _ & [= <-]). done.
Qed.

Lemma as_i32_small z : 0 ≤ z < id_bound → as_i32 z = z.
Proof using.
  unfold id_bound. intros Hz. unfold as_i32. rewrite wrap_small by (split; lia).
  unfold to_signed. by rewrite decide_True by lia.
Qed.

Lemma saved_extends_seq db row fs db' :
  seq_le (saved db row fs) db' → seq_le db db'.
Proof using. intros []. split; cbn in *; lia. Qed.

(** The link of a batch to its commit request. *)
Lemma link_commit_post db bs fee fs n m r db' :
  deserialize_message bs = Some m → commits_batch n m →
  insert_commit_request_id n (SenderDb.next_request_id db)
    (saved db (saved_row db CommitL1BatchOnchain bs fee) fs) = Ret (r, db') →
  match r with inl _ => seq_le db db' | inr _ => extends db db' end.
Proof using.
  intros Hbs Hm. set (row := saved_row _ _ _ _).
  intros [[-> [fs1 ->]]|[fs1 Hr]]%statement_inv; [split; cbn; lia|].
  cbv zeta in Hr. destruct (decide (_ ∨ _)) as [|Hu]; [simplify_eq; split; cbn; lia|].
  destruct (decide (_ ∧ _)) as [[_ Hid]|]; simplify_eq; [|split; cbn; lia]. cbn in Hu, Hid.
  set (br := BatchRequestRow.mk n (as_i32 (SenderDb.next_request_id db)) None).
  split; try done; cbn.
  - exists [row]. split; [done|]. apply Forall_singleton. cbn. lia.
  - intros br' Hbr'. exists br'. rewrite elem_of_app. auto.
  - split; cbn; lia.
  - intros Hinv Hb. pose proof (inv_request_start _ Hinv) as Hst.
    assert (Hi32 : as_i32 (SenderDb.next_request_id db) = SenderDb.next_request_id db)
      by (apply as_i32_small; lia).
    eapply (save_inv db _ row Hinv); try done; cbn.
    1,2: rewrite fmap_app; apply NoDup_app; split_and!;
      [apply Hinv|cbn; intros x Hx ->%list_elem_of_singleton; by destruct Hu; auto|apply NoDup_singleton].
    apply Forall_app. split.
    + eapply Forall_impl; [apply (inv_committed _ Hinv)|]. intros br' (r1 & Hr1 & Hp). cbv beta.
      exists r1. split; [by eapply request_for_app|]. intros p (? & r2 & Hr2)%Hp. split; [done|].
      exists r2. by eapply request_for_app.
    + apply Forall_singleton. exists row. split; [|done].
      split; cbn; [apply elem_of_app; right; left|]. split; [by rewrite Hi32|]. split; [done|]. eauto.
Qed.

(** The update of a batch's row by its proof request. *)
Definition set_proof (n id : Z) (br : BatchRequestRow.t) : BatchRequestRow.t :=
  if proof_pending n br
  then BatchRequestRow.mk (BatchRequestRow.l1_batch_number br)
         (BatchRequestRow.commit_l1_batch_inscription_id br) (Some id)
  else br.

Lemma set_proof_fields n id br :
  BatchRequestRow.l1_batch_number (set_proof n id br) = BatchRequestRow.l1_batch_number br ∧
  BatchRequestRow.commit_l1_batch_inscription_id (set_proof n id br) =
    BatchRequestRow.commit_l1_batch_inscription_id br ∧
  ∀ p, BatchRequestRow.commit_proof_inscription_id (set_proof n id br) = Some p →
    BatchRequestRow.commit_proof_inscription_id br = Some p ∨
    p = id ∧ BatchRequestRow.l1_batch_number br = n.
Proof using.
  unfold set_proof, proof_pending. destruct (bool_decide_reflect (BatchRequestRow.l1_batch_number br = n)),
    (bool_decide_reflect (BatchRequestRow.commit_proof_inscription_id br = None)); cbn; naive_solver.
Qed.

(** The commit request of a batch whose proof may be requested is confirmed. *)
Lemma proof_ok_confirmed db n br r t P :
  db_inv db → proof_batch_ok db n → br ∈ SenderDb.batch_requests db →
  BatchRequestRow.l1_batch_number br = n →
  request_for db (BatchRequestRow.commit_l1_batch_inscription_id br) t P r →
  RequestRow.confirmed_inscriptions_request_history_id r ≠ None.
Proof using.
  intros Hinv (br' & r' & Hbr' & Hn' & Hr' & Hid' & Hc) Hbr Hn (Hr & Hid & _).
  assert (br' = br) as -> by (eapply (NoDup_fmap_eq BatchRequestRow.l1_batch_number);
    [apply (inv_batch_numbers _ Hinv)|done..|congruence]).
  by assert (r' = r) as -> by (eapply request_by_id; [done..|congruence]).
Qed.

Lemma link_proof_post db bs fee fs n m r db' :
  deserialize_message bs = Some m → references_proof m → proof_batch_ok db n →
  update_proof_request_id n (SenderDb.next_request_id db)
    (saved db (saved_row db CommitProofOnchain bs fee) fs) = Ret (r, db') →
  match r with inl _ => seq_le db db' | inr _ => extends db db' end.
Proof using.
  intros Hbs Hm Hok. set (row := saved_row _ _ _ _).
  intros [[-> [fs1 ->]]|[fs1 Hr]]%statement_inv; [split; cbn; lia|].
  cbv zeta in Hr. destruct (decide (_ = [])); [simplify_eq; split; cbn; lia|].
  destruct (decide (_ ∈ _)); [simplify_eq; split; cbn; lia|].
  destruct (decide (_ ∈ _)); simplify_eq; [|split; cbn; lia].
  change (λ br, if proof_pending n br then _ else br)
    with (set_proof n (as_i32 (SenderDb.next_request_id db))).
  set (id := as_i32 _). split; try done; cbn.
  - exists [row]. split; [done|]. apply Forall_singleton. cbn. lia.
  - intros br Hbr. exists (set_proof n id br). split; [by apply list_elem_of_fmap_2|].
    split; apply set_proof_fields.
  - split; cbn; lia.
  - intros Hinv Hb. pose proof (inv_request_start _ Hinv) as Hst.
    assert (Hi32 : id = SenderDb.next_request_id db) by (apply as_i32_small; lia).
    eapply (save_inv db _ row Hinv); try done; cbn.
    1,2: rewrite fmap_fields by (intros; apply set_proof_fields); apply Hinv.
    apply Forall_fmap, Forall_forall. intros br Hbr. cbn.
    destruct (set_proof_fields n id br) as (-> & -> & Hp).
    destruct (proj1 (Forall_forall _ _) (inv_committed _ Hinv) br Hbr) as (r1 & Hr1 & Hold).
    exists r1. split; [by eapply request_for_app|]. intros p [(Hc & r2 & Hr2)%Hold|[-> Hn]]%Hp.
    + split; [done|]. exists r2. by eapply request_for_app.
    + split; [by eapply proof_ok_confirmed|]. exists row.
      split; cbn; [apply elem_of_app; right; left|]. split; [done|]. split; [done|]. eauto.
Qed.

Definition batch_ok (db : SenderDb.t) (t : ViaBtcInscriptionRequestType) (n : Z) : Prop :=
  match t with CommitL1BatchOnchain => True | CommitProofOnchain => proof_batch_ok db n end.

Definition message_for (t : ViaBtcInscriptionRequestType) (n : Z) (m : InscriptionMessage.t) : Prop :=
  match t with CommitL1BatchOnchain => commits_batch n m | CommitProofOnchain => references_proof m end.

Lemma construct_post self t batch db :
  post (W := W) (construct_inscription_message self t batch) db
    (λ r db', db' = db ∧ ∀ m, r = inr m → message_for t (ViaBtcL1BlockDetails.number batch) m).
Proof using.
  unfold construct_inscription_message. destruct t; repeat (post_step; try done);
    (split; [done|]); intros m [= <-]; by eexists.
Qed.

(** One batch of an operation. *)
Lemma aggregate_batch_post self op u batch db :
  let t := get_inscription_request_type op in
  batch_ok db t (ViaBtcL1BlockDetails.number batch) →
  post (W := W) (aggregate_batch signer self op u batch) db
    (λ r db', match r with inl _ => seq_le db db' | inr _ => extends db db' end).
Proof using All.
  intros t Hok. assert (Hrefl : seq_le db db) by (split; lia).
  unfold aggregate_batch. fold t. post_step. eapply post_mono; [|apply construct_post]. cbn.
  intros [e|m] db0 [-> Hm]; [done|]. specialize (Hm m eq_refl).
  repeat (post_step; try done). 
  match goal with Hs : expect _ = Ret ?bs |- _ => apply expect_Ret_inv, bincode_roundtrip in Hs as Hbs end.
  apply post_sql. intros r db1 [[(nr & nh & fs & ? & ? & ->) [e ->]]|(x & fs & -> & Hx & ->)]%save_request_inv;
    [split; cbn; lia|].
  apply post_sql. rewrite Hx. intros r db2 Hr.
  assert (Hres : match r with inl _ => seq_le db db2 | inr _ => extends db db2 end);
    [|by destruct r].
  unfold insert_l1_batch_inscription_request_id in Hr. revert Hr. destruct t; intros Hr.
  - by eapply link_commit_post.
  - by eapply link_proof_post.
Qed.

Lemma aggregate_loop self op u l db :
  let t := get_inscription_request_type op in
  (∀ b, b ∈ l → batch_ok db t (ViaBtcL1BlockDetails.number b)) →
  post (W := W) (foldP (aggregate_batch signer self op) u l) db
    (λ r db', match r with inl _ => seq_le db db' | inr _ => extends db db' end).
Proof using All.
  intros t. revert u db. induction l as [|b l IH]; intros u db Hok; cbn [foldP]; [by apply post_mret|].
  apply post_bind. eapply post_mono; [|apply aggregate_batch_post, Hok; left]. cbn.
  intros [e|u1] db1 Hext; [done|]. eapply post_mono; [|apply IH].
  - cbn. intros [e|u2] db2 Hr; [|by etrans]. destruct Hext, ext_seq0, Hr. split; lia.
  - intros b' Hb'. specialize (Hok b' ltac:(by right)). unfold batch_ok in *.
    destruct t; [done|]. by eapply extends_proof_ok.
Qed.

Lemma aggregate_transaction_post self op db :
  (∀ b, b ∈ get_l1_batches_detail op →
     batch_ok db (get_inscription_request_type op) (ViaBtcL1BlockDetails.number b)) →
  post (W := W) (aggregate_transaction signer self op) db (λ _ db', extends db db').
Proof using All.
  intros Hok.
  assert (Hp : post (W := W) (aggregate_batches signer self op) db
    (λ r db', match r with inl _ => seq_le db db' | inr _ => extends db db' end)).
  { unfold aggregate_batches. post_step. eapply post_mono; [|by apply aggregate_loop]. cbn.
    intros [e1|u1] db2 Hext; [done|]. apply post_sql. intros r1 db3 Hc.
    apply (reader_inv (λ _, inr ())) in Hc as [_ [fs ->]]; [|done].
    destruct r1; [by destruct Hext, ext_seq0; split|].
    etrans; [exact Hext|]. apply unchanged_extends, unchanged_faults. }
  intros ins r db' ins' Hr. unfold aggregate_transaction in Hr.
  destruct (aggregate_batches _ _ _ _) as [[[e|u] [db1 ins1]]|] eqn:E; [| |done];
    apply Hp in E; injection Hr as <- <- <-; [|done].
  apply unchanged_extends. destruct E. eexists _, _, _. split_and!. 3: reflexivity. all: done.
Qed.

(** ** What is ready *)
Lemma left_join_elem {A} (p : A → bool) l x : Some x ∈ left_join p l → x ∈ l ∧ p x.
Proof using.
  unfold left_join. destruct (filter p l) as [|y l'] eqn:E.
  - intros Hx. by apply list_elem_of_singleton in Hx.
  - intros Hx. apply list_elem_of_fmap in Hx as (z & [= ->] & Hz). rewrite <-E in Hz.
    apply list_elem_of_filter in Hz as [??]. done.
Qed.

Lemma proof_ready_ok db b d lh :
  db_inv db → (b, d, lh) ∈ proof_ready_rows db → proof_batch_ok db (wrap 32 (L1BatchRow.number b)).
Proof using.
  intros Hinv Hin. unfold proof_ready_rows, order_by in Hin. rewrite merge_sort_Permutation in Hin.
  apply list_elem_of_bind in Hin as (b' & Hin & Hb'). apply list_elem_of_bind in Hin as (br & Hin & Hbr).
  apply list_elem_of_bind in Hin as (d' & Hin & _). apply list_elem_of_bind in Hin as (r & Hin & Hr).
  destruct d' as [d'|]; [|by apply not_elem_of_nil in Hin].
  destruct (proof_ready br d' r) eqn:Hp; [|by apply not_elem_of_nil in Hin].
  apply list_elem_of_singleton in Hin. injection Hin as -> -> _.
  unfold proof_ready in Hp. apply andb_prop in Hp as [Hp _]. apply andb_prop in Hp as [Hbr0 Hconf].
  apply bool_decide_eq_true in Hconf. destruct br as [br|]; [|done]. destruct r as [r|]; [|done].
  apply left_join_elem in Hbr as [Hbr Hn%bool_decide_unpack].
  apply left_join_elem in Hr as [Hr Hid%bool_decide_unpack]. injection Hid as Hid.
  exists br, r. rewrite wrap_small; [done|].
  exact (proj1 (Forall_forall _ _) (inv_width _ Hinv) b' Hb').
Qed.

Lemma take_while_elem {A} (p : A → bool) l x : x ∈ take_while p l → x ∈ l.
Proof using.
  induction l as [|y l IH]; [done|]. cbn. destruct (p y); [|by intros ?%not_elem_of_nil].
  rewrite !elem_of_cons. intros [->|?]; auto.
Qed.

Lemma extract_elem now crit bs l b : extract_ready_subrange now crit bs = Some l → b ∈ l → b ∈ bs.
Proof using.
  unfold extract_ready_subrange. destruct (foldl _ _ _); [|done]. cbn. intros [= <-]. apply take_while_elem.
Qed.

Lemma get_proof_post now self db : db_inv db →
  post (W := W) (get_commit_proof_operation now self) db (λ r db', unchanged db db' ∧
    ∀ op, r = inr (Some op) → ∀ b, b ∈ get_l1_batches_detail op →
      batch_ok db (get_inscription_request_type op) (ViaBtcL1BlockDetails.number b)).
Proof using.
  intros Hinv. unfold get_commit_proof_operation. post_step. apply post_sql. intros r db' Hr.
  unfold get_ready_for_commit_proof_l1_batches, mbind, prog_bind in Hr.
  destruct (statement _ db) as [[r1 db1]|] eqn:E; [|done].
  apply (reader_inv (λ db, limited _ (proof_ready_rows db))) in E as [Hr1 [fs ->]]; [|done].
  pose proof (unchanged_faults db fs) as Hu.
  destruct r1 as [e|rows]; [by injection Hr as <- <-|]. injection Hr as <- <-. cbn.
  destruct Hr1 as [|Hr1]; [done|]. unfold limited in Hr1. destruct (decide _); [done|]. injection Hr1 as ->.
  repeat (post_step; try done). split; [done|]. intros op [= Hop].
  destruct (extract_ready_subrange _ _ _) as [l|] eqn:He; [|done]. injection Hop as <-. cbn.
  intros b Hb. eapply extract_elem in Hb; [|exact He].
  apply list_elem_of_fmap in Hb as ([[b0 d] lh] & -> & Hb). cbn.
  apply elem_of_take in Hb as (i & Hb%list_elem_of_lookup_2 & _). by eapply proof_ready_ok.
Qed.

Lemma get_commit_post now self bl aa pv db :
  post (W := W) (get_commit_l1_batch_operation now self bl aa pv) db (λ r db', unchanged db db' ∧
    ∀ op, r = inr (Some op) → get_inscription_request_type op = CommitL1BatchOnchain).
Proof using.
  unfold get_commit_l1_batch_operation. post_step. apply post_sql. intros r db' Hr.
  unfold get_ready_for_commit_l1_batches, mbind, prog_bind in Hr.
  destruct (statement _ db) as [[r1 db1]|] eqn:E; [|done].
  apply (reader_inv (λ db, limited _ (commit_ready_rows db bl aa pv))) in E as [_ [fs ->]]; [|done].
  pose proof (unchanged_faults db fs) as Hu.
  destruct r1 as [e|rows]; [by injection Hr as <- <-|]. injection Hr as <- <-.
  repeat (post_step; try done). split; [done|]. intros op [= Hop].
  destruct (extract_ready_subrange _ _ _); [|done]. by injection Hop as <-.
Qed.

Lemma aggregator_post now1 now2 self db : db_inv db →
  post (W := W) (aggregator_iteration signer now1 now2 self) db (λ _ db', extends db db').
Proof using All.
  intros Hinv. unfold aggregator_iteration, get_next_ready_operation. post_step. post_step.
  eapply post_mono; [|by apply get_proof_post]. cbn. intros [e|o] db1 [Hu Hok]; [by apply unchanged_extends|].
  assert (Hinner : ∀ op db2, unchanged db db2 →
    (∀ b, b ∈ get_l1_batches_detail op →
      batch_ok db (get_inscription_request_type op) (ViaBtcL1BlockDetails.number b)) →
    post (W := W) (_ ← sql start_transaction; aggregate_transaction signer self op) db2
      (λ _ db', extends db db')).
  { intros op db2 Hu2 Hb. post_step. apply post_sql. intros r db3 Hs.
    apply (reader_inv (λ _, inr ())) in Hs as [_ [fs ->]]; [|done].
    assert (Hu3 : unchanged db (SenderDb.set_faults db2 fs)) by (etrans; [exact Hu2|apply unchanged_faults]).
    destruct r; [by apply unchanged_extends|]. eapply post_mono; [|apply aggregate_transaction_post].
    - cbn. intros _ db4 Hext. etrans; [by apply unchanged_extends|done].
    - intros b Hbin. specialize (Hb b Hbin). unfold batch_ok in *.
      destruct (get_inscription_request_type op); [done|]. eapply extends_proof_ok; [|done].
      by apply unchanged_extends. }
  destruct o as [op|].
  - apply post_mret. apply Hinner; [done|]. by apply Hok.
  - eapply post_mono; [|apply get_commit_post]. cbn. intros [e|[op|]] db2 [Hu2 Ht].
    + apply unchanged_extends. by etrans.
    + apply Hinner; [by etrans|]. intros b _. by rewrite (Ht op eq_refl).
    + apply post_mret, unchanged_extends. by etrans.
Qed.

Lemma count_extends db db' : extends db db' → db_inv db → inflight_count db' = inflight_count db.
Proof using.
  intros [_ Hh (rs & Hrs & Hf) _ _ _] Hinv. unfold inflight_count.
  assert (Hho : ∀ id, history_of db' id = history_of db id) by (intros; unfold history_of; by rewrite Hh).
  rewrite Hrs, filter_app, length_app. rewrite (list_filter_iff (inflight db') (inflight db))
    by (intros r; unfold inflight; by rewrite Hho).
  enough (filter (inflight db') rs = []) as -> by (cbn; lia).
  destruct (filter (inflight db') rs) as [|r l] eqn:E; [done|].
  assert (Hr : r ∈ filter (inflight db') rs) by (rewrite E; left).
  apply list_elem_of_filter in Hr as [[_ Hne] Hr]. destruct Hne. rewrite Hho.
  destruct (history_of db (RequestRow.id r)) as [|h l'] eqn:Ehist; [done|].
  assert (Hin : h ∈ history_of db (RequestRow.id r)) by (rewrite Ehist; left).
  apply list_elem_of_filter in Hin as [Hid Hin].
  pose proof (proj1 (Forall_forall _ _) (inv_history_request _ Hinv) h Hin) as Hreq. cbn in Hreq.
  rewrite Hid in Hreq. apply list_elem_of_fmap in Hreq as (r0 & Heq & Hr0).
  pose proof (proj1 (Forall_forall _ _) (inv_request_range _ Hinv) r0 Hr0) as Hrange.
  pose proof (proj1 (Forall_forall _ _) Hf r Hr) as Hge. cbn in *. lia.
Qed.
End aggregator.

(** ** Sequences only advance *)
Section sequences.
Context `{BitcoinLib} `{TxidText} `{Bincode} {W : Type} `{BitcoinOps W} (signer : BitcoinSigner.t).

#[export] Instance seq_le_preorder : PreOrder seq_le.
Proof using. split; [intros ?; split; lia|]. intros ??? [] []. split; lia. Qed.

Definition q_mono {A} (op : prog SenderDb.t SqlError A) : Prop :=
  ∀ db r db', op db = Ret (r, db') → seq_le db db'.
Definition t_mono {A} (m : prog (SenderDb.t * state (W := W)) SenderError A) : Prop :=
  ∀ db, post m db (λ _ db', seq_le db db').

Lemma q_mono_statement {A} (f : SenderDb.t → (SqlError + A) * SenderDb.t) :
  (∀ db, seq_le db (f db).2) → q_mono (statement f).
Proof using.
  intros Hf db r db' [[_ [fs ->]]|[fs Hr]]%statement_inv; [split; cbn; lia|].
  specialize (Hf (SenderDb.set_faults db fs)). rewrite Hr in Hf. destruct Hf. by split.
Qed.
Lemma q_mono_bind {A B} (m : prog SenderDb.t SqlError A) (f : A → prog SenderDb.t SqlError B) :
  q_mono m → (∀ a, q_mono (f a)) → q_mono (m ≫= f).
Proof using.
  intros Hm Hf db r db' Hr. unfold mbind, prog_bind in Hr.
  destruct (m db) as [[[e|a] db1]|] eqn:E; [| |done]; apply Hm in E; simplify_eq; [done|].
  apply Hf in Hr. by etrans.
Qed.
Lemma q_mono_lift {A} (m : exec A) : q_mono (lift_exec m).
Proof using. intros db r db'. destruct m; [|done]. by intros [= _ <-]. Qed.
Lemma q_mono_mret {A} (a : A) : q_mono (mret a).
Proof using. by intros db r db' [= _ <-]. Qed.
Lemma q_mono_atomically {A} (m : prog SenderDb.t SqlError A) : q_mono m → q_mono (atomically m).
Proof using.
  intros Hm db r db' [(r1 & db1 & fs & Hb & ->)|(a & db1 & fs & _ & Hb & ->)]%atomically_inv;
    apply Hm in Hb as []; by split.
Qed.

Lemma t_mono_bind {A B} (m : prog _ SenderError A) (f : A → prog _ SenderError B) :
  t_mono m → (∀ a, t_mono (f a)) → t_mono (m ≫= f).
Proof using.
  intros Hm Hf db. apply post_bind. eapply post_mono; [|apply Hm]. cbn. intros [e|a] db1 Hle; [done|].
  eapply post_mono; [|apply Hf]. cbn. intros _ db2 ?. by etrans.
Qed.
Lemma t_mono_sql {A} (op : prog SenderDb.t SqlError A) : q_mono op → t_mono (sql op).
Proof using. intros Hop db. apply post_sql. intros r db' Hr. by eapply Hop. Qed.
Lemma t_mono_mret {A} (a : A) : t_mono (mret a).
Proof using. intros db. by apply post_mret. Qed.
Lemma t_mono_inscriber {A} (op : prog (state (W := W)) AnyhowError A) : t_mono (inscriber_call op).
Proof using. intros db. by apply post_inscriber. Qed.
Lemma t_mono_node {A} (op : prog W BitcoinError A) : t_mono (node_call op).
Proof using. intros db. by apply post_node. Qed.
Lemma t_mono_lift {A} (m : exec A) : t_mono (lift_exec m).
Proof using. intros db. by apply post_lift. Qed.
Lemma t_mono_ok_or {A} e (o : option A) : t_mono (ok_or e o).
Proof using. intros db. by apply post_ok_or. Qed.
Lemma t_mono_foldP {A B} (f : A → B → prog _ SenderError A) l a :
  (∀ a b, t_mono (f a b)) → t_mono (foldP f a l).
Proof using.
  intros Hf. revert a. induction l as [|b l IH]; intros a; cbn; [apply t_mono_mret|]. by apply t_mono_bind.
Qed.
End sequences.

(** Advance the sequences, by the structure of the program. *)
Ltac mono_statement :=
  apply q_mono_statement; intros ?; cbv beta zeta; repeat case_decide; split; cbn; lia.
Ltac mono := repeat first
  [ match goal with |- ∀ _, _ => intros ? end
  | apply t_mono_bind | apply t_mono_mret | apply t_mono_inscriber | apply t_mono_node
  | apply t_mono_lift | apply t_mono_ok_or | apply t_mono_foldP | apply t_mono_sql
  | apply q_mono_bind | apply q_mono_lift | apply q_mono_mret | apply q_mono_atomically
  | mono_statement | case_match ].

Section iterations.
Context `{BitcoinLib} `{TxidText} `{Bincode} {W : Type} `{BitcoinOps W} (signer : BitcoinSigner.t).

Lemma manager_mono cfg : t_mono (W := W) (manager_iteration signer cfg).
Proof using.
  unfold manager_iteration, update_inscription_status_or_resend, send_new_inscription_txs,
    update_or_resend, send_inscription_tx, get_inflight_inscriptions, list_new_inscription_request,
    get_last_inscription_request_history, get_total_inscription_request_history,
    insert_inscription_request_history, confirm_inscription, in_transaction, start_transaction,
    set_confirmed_at, set_confirmed_history.
  mono.
Qed.

Lemma aggregator_mono now1 now2 self : t_mono (W := W) (aggregator_iteration signer now1 now2 self).
Proof using.
  assert (Ht : ∀ op, t_mono (W := W) (aggregate_transaction signer self op)).
  { intros op db ins r db' ins'. unfold aggregate_transaction.
    assert (Hb : t_mono (W := W) (aggregate_batches signer self op)).
    { unfold aggregate_batches, aggregate_batch, construct_inscription_message, commit,
        via_save_btc_inscriptions_request, insert_l1_batch_inscription_request_id,
        insert_commit_request_id, update_proof_request_id. mono. }
    destruct (aggregate_batches _ _ _ _) as [[[e|u] [db1 ins1]]|] eqn:E; [| |done];
      apply Hb in E as []; intros [= <- <- <-]; by split. }
  unfold aggregator_iteration, get_next_ready_operation, get_commit_proof_operation,
    get_commit_l1_batch_operation, get_ready_for_commit_proof_l1_batches,
    get_ready_for_commit_l1_batches, start_transaction.
  mono; apply Ht.
Qed.
End iterations.

(** ** The sender as a transition system *)
Section system.
Context `{BitcoinLib} `{TxidText} `{Bincode} {W : Type} `{BitcoinOps W}
  (aggregator_signer manager_signer : BitcoinSigner.t) (config : ViaBtcSenderConfig.t).

Record sender_system := mk_system {
  tables : SenderDb.t;
  aggregator_context : InscriberContext.t;
  manager_context : InscriberContext.t;
  node_world : W;
}.

(** The bodies of the two [run] loops: an error is logged. *)
Definition aggregator_run (now_proof now_commit : Z) (s : sender_system) : exec sender_system :=
  '(_, (db, ins)) ← aggregator_iteration aggregator_signer now_proof now_commit (ViaAggregator.new config)
    (tables s, mk_state (aggregator_context s) (node_world s));
  Ret (mk_system db (context ins) (manager_context s) (world ins)).
Definition manager_run (s : sender_system) : exec sender_system :=
  '(_, (db, ins)) ← manager_iteration manager_signer config
    (tables s, mk_state (manager_context s) (node_world s));
  Ret (mk_system db (aggregator_context s) (context ins) (world ins)).

(** An iteration of a task, or what the rest of the node does: new batches and what
    is known about them, time, faults to come, and the world of the Bitcoin node. *)
Inductive sender_step : sender_system → sender_system → Prop :=
| aggregator_steps now_proof now_commit s s' :
    aggregator_run now_proof now_commit s = Ret s' → sender_step s s'
| manager_steps s s' : manager_run s = Ret s' → sender_step s s'
| environment_steps s batches commitments versions availability clock faults w :
    Forall (λ b, in_width 32 (L1BatchRow.number b)) batches →
    SenderDb.l1_batches (tables s) `prefix_of` batches →
    sender_step s (mk_system
      (SenderDb.mk batches commitments versions availability (SenderDb.requests (tables s))
         (SenderDb.history (tables s)) (SenderDb.batch_requests (tables s))
         (SenderDb.next_request_id (tables s)) (SenderDb.next_history_id (tables s)) clock faults)
      (aggregator_context s) (manager_context s) w).

(** Empty tables of the sender. *)
Definition sender_start (s : sender_system) : Prop :=
  SenderDb.requests (tables s) = [] ∧ SenderDb.history (tables s) = [] ∧
  SenderDb.batch_requests (tables s) = [] ∧ 0 ≤ SenderDb.next_request_id (tables s) ∧
  Forall (λ b, in_width 32 (L1BatchRow.number b)) (SenderDb.l1_batches (tables s)).

Definition system_inv (s : sender_system) : Prop :=
  SenderDb.next_request_id (tables s) ≤ id_bound →
  db_inv (tables s) ∧
  Z.of_nat (inflight_count (tables s)) ≤ Z.max 0 (ViaBtcSenderConfig.max_txs_in_flight config).

Lemma start_inv s : sender_start s → system_inv s.
Proof using.
  intros (Hr & Hh & Hb & Hn & Hw) _. unfold inflight_count. rewrite Hr. cbn. split; [|lia].
  by split; rewrite ?Hr, ?Hh, ?Hb; try constructor.
Qed.

Context `{!BincodeLaws}.

Lemma step_inv s s' : sender_step s s' → system_inv s → system_inv s'.
Proof using All.
  intros Hstep Hs. destruct Hstep as [n1 n2 s s' Hrun|s s' Hrun|s bs cs vs das ck fs w Hw _].
  - apply bind_Ret_inv in Hrun as ([r [db ins]] & Hi & [= <-]). unfold system_inv in *. cbn.
    pose proof (aggregator_mono _ _ _ _ _ _ _ _ _ Hi) as [Hm _]. cbn in Hm. intros Hb.
    destruct Hs as [Hinv Hc]; [lia|].
    apply (aggregator_post _ _ _ _ _ Hinv) in Hi as Hext. rewrite (count_extends _ _ Hext Hinv).
    split; [|done]. by apply Hext.
  - apply bind_Ret_inv in Hrun as ([r [db ins]] & Hi & [= <-]). unfold system_inv in *. cbn.
    pose proof (manager_mono _ _ _ _ _ _ _ Hi) as [Hm _]. cbn in Hm. intros Hb.
    destruct Hs as [Hinv Hc]; [lia|].
    apply (manager_post _ _ _ Hinv) in Hi as [Hinv' Hc']. split; [done|]. lia.
  - intros Hb. destruct (Hs Hb) as [[] Hc]. split; [|exact Hc]. by split.
Qed.

Lemma reachable_inv s0 s : sender_start s0 → rtc sender_step s0 s → system_inv s.
Proof using All.
  intros Hst Hs. apply start_inv in Hst. induction Hs as [|s1 s2 s3 Hstep _ IH]; [done|].
  apply IH. by eapply step_inv.
Qed.

(** C2 Safety of the sender: in every reachable state with request ids that fit
    [i32], a batch has one link, to a commit request of its own that carries the
    reference of this batch; a proof request of a batch exists only once that
    commit request is confirmed; and the transaction that confirmed a request is
    the last one sent for it, so a confirmed request is never sent again. *)
Theorem sender_safety s0 s :
  sender_start s0 → rtc sender_step s0 s → SenderDb.next_request_id (tables s) ≤ id_bound →
  let db := tables s in
  NoDup (BatchRequestRow.l1_batch_number <$> SenderDb.batch_requests db) ∧
  NoDup (BatchRequestRow.commit_l1_batch_inscription_id <$> SenderDb.batch_requests db) ∧
  (∀ br, br ∈ SenderDb.batch_requests db → ∃ r,
    request_for db (BatchRequestRow.commit_l1_batch_inscription_id br) CommitL1BatchOnchain
      (commits_batch (BatchRequestRow.l1_batch_number br)) r ∧
    ∀ p, BatchRequestRow.commit_proof_inscription_id br = Some p →
      (∃ hid, RequestRow.confirmed_inscriptions_request_history_id r = Some hid) ∧
      ∃ r', request_for db p CommitProofOnchain references_proof r') ∧
  (∀ r hid, r ∈ SenderDb.requests db →
    RequestRow.confirmed_inscriptions_request_history_id r = Some hid →
    last_history db (RequestRow.id r) hid).
Proof using All.
  intros Hst Hs Hb. destruct (reachable_inv _ _ Hst Hs Hb) as [Hinv _]. cbv zeta.
  split_and!; [apply Hinv|apply Hinv| |].
  - intros br Hbr. destruct (proj1 (Forall_forall _ _) (inv_committed _ Hinv) br Hbr) as (r & Hr & Hp).
    exists r. split; [done|]. intros p (Hc & Hr')%Hp. split; [|done].
    destruct (RequestRow.confirmed_inscriptions_request_history_id r); [by eexists|done].
  - intros r hid Hr. exact (proj1 (Forall_forall _ _) (inv_confirmed _ Hinv) r Hr hid).
Qed.

(** C31 The sender keeps its bound: in every reachable state at most
    [max_txs_in_flight] requests have been sent and are not confirmed. *)
Theorem inflight_bounded s0 s :
  sender_start s0 → rtc sender_step s0 s → SenderDb.next_request_id (tables s) ≤ id_bound →
  Z.of_nat (inflight_count (tables s)) ≤ Z.max 0 (ViaBtcSenderConfig.max_txs_in_flight config).
Proof using All. intros Hst Hs Hb. by destruct (reachable_inv _ _ Hst Hs Hb). Qed.
End system.

(** ** What is sent *)
Section sending.
Context `{BitcoinLib} `{!BitcoinLibLaws} `{TxidText} `{Bincode} `{!BincodeLaws} {W : Type} `{BitcoinOps W}
  (signer : BitcoinSigner.t).

Lemma node_call_inr {A} (op : prog W BitcoinError A) db (ins : state (W := W)) a s :
  node_call op (db, ins) = Ret (inr a, s) → ∃ ins', s = (db, ins').
Proof using. unfold node_call. destruct (op (world ins)) as [[[|] w]|]; intros [= <- <-]; eauto. Qed.

Lemma inscriber_call_inr {A} (op : prog (state (W := W)) AnyhowError A) db ins a s :
  inscriber_call op (db, ins) = Ret (inr a, s) → ∃ ins', op ins = Ret (inr a, ins') ∧ s = (db, ins').
Proof using. unfold inscriber_call. destruct (op ins) as [[[|] i]|]; intros [= <- <-]; eauto. Qed.

Lemma sql_inr {A} (op : prog SenderDb.t SqlError A) db (ins : state (W := W)) a s :
  sql op (db, ins) = Ret (inr a, s) → ∃ db', op db = Ret (inr a, db') ∧ s = (db', ins).
Proof using. unfold sql. destruct (op db) as [[[|] d]|]; intros [= <- <-]; eauto. Qed.

Lemma insert_history_inr c rv id sc sr fees blk db n db' :
  insert_inscription_request_history c rv id sc sr fees blk db = Ret (inr n, db') →
  ∃ row, SenderDb.history db' = SenderDb.history db ++ [row] ∧
    HistoryRow.inscription_request_id row = id ∧
    HistoryRow.reveal_tx_id row = txid_to_string rv ∧ HistoryRow.signed_reveal_tx row = sr.
Proof using.
  unfold insert_inscription_request_history. intros [[? _]|[fs Hr]]%statement_inv; [done|].
  cbv zeta in Hr. destruct (decide _); [done|]. destruct (decide _); simplify_eq. by eexists.
Qed.

(** The indexer reads exactly the message [m] in [tx], from the sender's address. *)
Definition read_as (self : MessageParser.t) (height : Z) (cpk : CompressedPublicKey)
    (tx : BtcTransaction.t) (m : InscriptionMessage.t) : Prop := ∃ sig key,
  parse_transaction tx height self =
  Ret ([full_message (CommonFields.mk sig (xonly_serialize key) height (compute_ntxid tx)
          (address_p2wpkh cpk get_network)) self tx m],
       after_message self m).

(** C17 What the aggregator stores is what the indexer reads: when a request with the
    stored bytes of a message is sent without error, one history row of the request
    is appended, and the reveal transaction whose id and bytes it holds parses to
    exactly that message. *)
Theorem sent_inscription_parses tx config m bs db (ins : state (W := W)) db' ins' self height cpk :
  serialize_message m = Some bs → ViaBtcInscriptionRequest.inscription_message tx = Some bs →
  send_inscription_tx signer tx config (db, ins) = Ret (inr (), (db', ins')) →
  message_ok get_network m = true → is_not_ok_vote m = false →
  MessageParser.network self = get_network →
  compressed_try_from (BitcoinSigner.get_public_key signer) = Some cpk →
  ∃ row reveal,
    SenderDb.history db' = SenderDb.history db ++ [row] ∧
    HistoryRow.inscription_request_id row = ViaBtcInscriptionRequest.id tx ∧
    HistoryRow.reveal_tx_id row = txid_to_string (compute_txid reveal) ∧
    serialize_tx reveal = Some (HistoryRow.signed_reveal_tx row) ∧
    read_as self height cpk reveal m.
Proof using All.
  intros Hbs%bincode_roundtrip Htx Hs Hok Hvote Hnet Hpk. unfold send_inscription_tx in Hs.
  rewrite Htx in Hs. change (default [] (Some bs)) with bs in Hs.
  apply prog_bind_inr in Hs as (h & s1 & Hn & Hs). apply node_call_inr in Hn as [ins1 ->].
  rewrite Hbs in Hs. erewrite prog_bind_step in Hs by reflexivity.
  apply prog_bind_inr in Hs as (info & s2 & Hi & Hs). apply inscriber_call_inr in Hi as (ins2 & Hi & ->).
  apply inscribe_inv in Hi as (ins3 & Hprep & _). inv_prog.
  match goal with Hq : sql _ _ = Ret _ |- _ => apply sql_inr in Hq as (db2 & Hq & [= -> ->]) end.
  match goal with Hq : insert_inscription_request_history _ _ _ _ _ _ _ _ = _ |- _ =>
    apply insert_history_inr in Hq as (row & Hh & Hid & Hr & Hsr) end.
  destruct (reveal_parse _ _ _ _ _ _ self height cpk Hprep) as (sig & key & Hparse); [done..|].
  eexists row, _. split_and!; [exact Hh|exact Hid| | |].
  - by rewrite Hr, (prep_txid _ _ _ _ _ _ Hprep).
  - by rewrite Hsr.
  - exists sig, key. cbv zeta in Hparse. rewrite Hparse, parse_message_roundtrip by (by rewrite ?Hnet). done.
Qed.
End sending.
