(* ===== verification/SenderRuns.v ===== *)
(** * Runs of the Bitcoin sender

    The sender on the concrete library of [BitcoinToy], with concrete instances of
    the remaining parameters: a batch is committed, confirmed, and its proof is
    requested. *)
From S2P Require Import Prelude Types BtcTypes BitcoinToy BtcClient ScriptBuilder Parser Inscriber Sql SenderDal.
From S2P Require Import BtcSender SenderInvariant.
Local Open Scope Z_scope.

Module SenderRuns.
(** ** Instances *)
#[export] Instance toy_text : TxidText := {
  txid_to_string t := String.string_of_list_byte (encode_Z t);
  txid_from_str s := decode_Z (String.list_byte_of_string s);
  txid_all_zeros := 0;
}.

Abbreviation code :=
  ((Z * Z * list Z * list Z) + (Z * list Z * list Z))%type.

Definition to_code (m : InscriptionMessage.t) : option code :=
  match m with
  | InscriptionMessage.L1BatchDAReference i =>
      Some (inl (L1BatchDAReferenceInput.l1_batch_hash i, L1BatchDAReferenceInput.l1_batch_index i,
        byte_to_Z <$> L1BatchDAReferenceInput.da_identifier i,
        byte_to_Z <$> L1BatchDAReferenceInput.blob_id i))
  | InscriptionMessage.ProofDAReference i =>
      Some (inr (ProofDAReferenceInput.l1_batch_reveal_txid i,
        byte_to_Z <$> ProofDAReferenceInput.da_identifier i,
        byte_to_Z <$> ProofDAReferenceInput.blob_id i))
  | _ => None
  end.
Definition of_code (c : code) : InscriptionMessage.t :=
  match c with
  | inl (h, n, da, blob) =>
      InscriptionMessage.L1BatchDAReference
        (L1BatchDAReferenceInput.mk h n (Z_to_byte <$> da) (Z_to_byte <$> blob))
  | inr (t, da, blob) =>
      InscriptionMessage.ProofDAReference
        (ProofDAReferenceInput.mk t (Z_to_byte <$> da) (Z_to_byte <$> blob))
  end.

#[export] Instance toy_bincode : Bincode := {
  serialize_message m := (λ c, encode_Z (Zpos (countable.encode c))) <$> to_code m;
  deserialize_message bs :=
    z ← decode_Z bs;
    match z with Zpos p => of_code <$> countable.decode p | _ => None end;
  serialize_tx tx := Some (encode_Z (compute_txid tx));
}.

Lemma bytes_roundtrip (bs : list byte) : Z_to_byte <$> (byte_to_Z <$> bs) = bs.
Proof.
  rewrite <-list_fmap_compose. rewrite <-(list_fmap_id bs) at 2. apply list_fmap_ext.
  intros _ b _. apply byte_to_Z_to_byte.
Qed.

#[export] Instance toy_bincode_laws : BincodeLaws.
Proof.
  split. intros m bs. cbn [serialize_message deserialize_message toy_bincode].
  destruct (to_code m) as [c|] eqn:Hc; [|done]. intros Hbs%(inj Some). subst bs.
  rewrite decode_encode_Z. cbn [mbind option_bind]. rewrite countable.decode_encode.
  cbn [fmap option_fmap option_map]. f_equal.
  destruct m as [[]|[]| | | |]; cbn in Hc; simplify_eq; cbn; by rewrite !bytes_roundtrip.
Qed.

(** A node that confirms everything. *)
#[export] Instance node : BitcoinOps () := {
  BtcClient.get_balance _ := mret 0;
  BtcClient.broadcast_signed_transaction _ := mret 1;
  BtcClient.fetch_utxos _ := mret [(OutPoint.mk 77 3, TxOut.mk 1000000 [x51])];
  BtcClient.check_tx_confirmation _ _ := mret true;
  BtcClient.fetch_block_height := mret 100;
  BtcClient.get_fee_rate _ := mret 2;
  BtcClient.get_network := Regtest;
  BtcClient.fetch_block _ := fail Rpc;
  BtcClient.get_transaction _ := fail Rpc;
  BtcClient.fetch_block_by_hash _ := fail Rpc;
}.

Definition config : ViaBtcSenderConfig.t := ViaBtcSenderConfig.mk 1 1 1 (bytes "celestia") 0.
Definition signer : BitcoinSigner.t := InscriberWitness.signer.

(** ** A run *)
Definition batch : L1BatchRow.t :=
  L1BatchRow.mk 1 0 (Some (to_be_bytes 32 7)) (Some []) (Some 24).
Definition blob : DataAvailabilityRow.t := DataAvailabilityRow.mk 1 false (bytes "blob") (Some []).
Definition proof_blob : DataAvailabilityRow.t := DataAvailabilityRow.mk 1 true (bytes "proof") None.
Definition versions : list ProtocolVersionRow.t :=
  [ProtocolVersionRow.mk 24 bootloader_code_hash aa_code_hash None].
Definition commitments : list CommitmentRow.t := [CommitmentRow.mk 1 (Some []) (Some [])].

Definition start : sender_system (W := ()) :=
  mk_system (SenderDb.mk [batch] commitments versions [blob] [] [] [] 1 1 0 [])
    InscriberContext.new InscriberContext.new ().

Definition or_start (m : exec (sender_system (W := ()))) : sender_system (W := ()) :=
  match m with Ret s => s | Panic => start end.
Definition aggregate (s : sender_system (W := ())) : exec (sender_system (W := ())) :=
  aggregator_run signer config 10000 10000 s.
Definition manage (s : sender_system (W := ())) : exec (sender_system (W := ())) :=
  manager_run signer config s.

Definition requested := or_start (aggregate start).
Definition inscribed := or_start (manage requested).
Definition confirmed := or_start (manage inscribed).
(** The data availability layer has the proof. *)
Definition proved : sender_system (W := ()) :=
  let db := tables confirmed in
  mk_system (SenderDb.mk [batch] commitments versions [blob; proof_blob] (SenderDb.requests db)
      (SenderDb.history db) (SenderDb.batch_requests db) (SenderDb.next_request_id db)
      (SenderDb.next_history_id db) 0 [])
    (aggregator_context confirmed) (manager_context confirmed) ().
Definition proof_requested := or_start (aggregate proved).

(** The run is a run of the system. *)
Lemma run_steps : rtc (sender_step signer signer config) start proof_requested.
Proof.
  eapply rtc_l; [apply (aggregator_steps _ _ _ 10000 10000 start requested); vm_compute; reflexivity|].
  eapply rtc_l; [apply (manager_steps _ _ _ requested inscribed); vm_compute; reflexivity|].
  eapply rtc_l; [apply (manager_steps _ _ _ inscribed confirmed); vm_compute; reflexivity|].
  eapply rtc_l; [apply (environment_steps _ _ _ confirmed [batch] commitments versions [blob; proof_blob] 0 [] ())|].
  - repeat constructor; done.
  - vm_compute. by exists [].
  - eapply rtc_l; [apply (aggregator_steps _ _ _ 10000 10000 proved proof_requested); vm_compute; reflexivity|].
    apply rtc_refl.
Qed.

Lemma start_start : sender_start start.
Proof. split_and!; try done. repeat constructor; done. Qed.

(** ** What the run shows *)

(** The proof reference names the wrong transaction: after the commit request of a
    batch is confirmed by its reveal transaction, the proof request the aggregator
    stores for the batch has the id of the commit transaction in
    [l1_batch_reveal_txid], and not that of the reveal transaction the indexer
    reads. *)
Theorem proof_names_commit_transaction :
  rtc (sender_step signer signer config) start proof_requested ∧
  ∃ h r bs i,
    SenderDb.history (tables proof_requested) = [h] ∧ HistoryRow.confirmed_at h ≠ None ∧
    r ∈ SenderDb.requests (tables proof_requested) ∧
    RequestRow.inscription_message r = Some bs ∧
    deserialize_message bs = Some (InscriptionMessage.ProofDAReference i) ∧
    txid_to_string (ProofDAReferenceInput.l1_batch_reveal_txid i) = HistoryRow.commit_tx_id h ∧
    HistoryRow.commit_tx_id h ≠ HistoryRow.reveal_tx_id h.
Proof.
  split; [exact run_steps|].
  assert (Hr : ∃ r0 r, SenderDb.requests (tables proof_requested) = [r0; r])
    by (vm_compute; eauto).
  destruct Hr as (r0 & r & Hr).
  assert (Hh : ∃ h, SenderDb.history (tables proof_requested) = [h]) by (vm_compute; eauto).
  destruct Hh as (h & Hh). exists h, r.
  eexists _, _. rewrite Hr. split_and!; [done| |right; left| | | |].
  - vm_compute in Hh. injection Hh as <-. done.
  - vm_compute in Hr. injection Hr as _ <-. reflexivity.
  - vm_compute. reflexivity.
  - vm_compute in Hh. injection Hh as <-. vm_compute. reflexivity.
  - vm_compute in Hh. injection Hh as <-. vm_compute. discriminate.
Qed.

(** ** Witnesses *)
Lemma sender_safety_witness :
  ∃ br r, br ∈ SenderDb.batch_requests (tables proof_requested) ∧
    (∃ hid, RequestRow.confirmed_inscriptions_request_history_id r = Some hid) ∧
    request_for (tables proof_requested) 1 CommitL1BatchOnchain (commits_batch 1) r.
Proof.
  destruct (sender_safety signer signer config start proof_requested start_start run_steps)
    as (_ & _ & Hbr & _); [vm_compute; discriminate|].
  destruct (Hbr (BatchRequestRow.mk 1 1 (Some 2))) as (r & Hr & Hp); [vm_compute; left|].
  exists (BatchRequestRow.mk 1 1 (Some 2)), r. split; [vm_compute; left|].
  destruct (Hp 2 eq_refl) as [Hc _]. split; [exact Hc|exact Hr].
Defined.

Lemma inflight_bounded_witness :
  inflight_count (tables inscribed) = 1%nat ∧ Z.of_nat (inflight_count (tables inscribed)) ≤ 1.
Proof.
  split; [vm_compute; reflexivity|].
  apply (inflight_bounded signer signer config start inscribed start_start).
  - eapply rtc_l; [apply (aggregator_steps _ _ _ 10000 10000 start requested); vm_compute; reflexivity|].
    eapply rtc_l; [apply (manager_steps _ _ _ requested inscribed); vm_compute; reflexivity|].
    apply rtc_refl.
  - vm_compute. discriminate.
Defined.

(** The commit request of the run and the message it holds. *)
Definition message : InscriptionMessage.t :=
  InscriptionMessage.L1BatchDAReference
    (L1BatchDAReferenceInput.mk 7 1 (bytes "celestia") (bytes "blob")).
Definition request : ViaBtcInscriptionRequest.t :=
  ViaBtcInscriptionRequest.mk 1 CommitL1BatchOnchain (serialize_message message) None None.
Definition sending : SenderDb.t * state (W := ()) :=
  match send_inscription_tx signer request InscriptionConfig.default
          (tables requested, mk_state InscriberContext.new ()) with
  | Ret (_, s) => s
  | Panic => (tables start, mk_state InscriberContext.new ())
  end.

Lemma sent_inscription_parses_witness :
  ∃ row reveal,
    SenderDb.history sending.1 = [row] ∧
    HistoryRow.reveal_tx_id row = txid_to_string (compute_txid reveal) ∧
    read_as (MessageParser.new Regtest) 100 6 reveal message.
Proof.
  assert (Hs : send_inscription_tx signer request InscriptionConfig.default
      (tables requested, mk_state InscriberContext.new ()) = Ret (inr (), (sending.1, sending.2)))
    by (vm_compute; reflexivity).
  destruct (serialize_message message) as [bs|] eqn:Hbs; [|vm_compute in Hbs; discriminate Hbs].
  assert (Hm : ViaBtcInscriptionRequest.inscription_message request = Some bs) by exact Hbs.
  destruct (@sent_inscription_parses _ _ _ _ _ _ node signer request InscriptionConfig.default message bs
    (tables requested) (mk_state InscriberContext.new ()) sending.1 sending.2 (MessageParser.new Regtest)
    100 6 Hbs Hm Hs) as (row & reveal & Hh & _ & Hr & _ & Hp);
    [vm_compute; reflexivity..|].
  exists row, reveal. split; [|split; [exact Hr|exact Hp]].
  rewrite Hh. vm_compute (SenderDb.history (tables requested)). reflexivity.
Defined.
End SenderRuns.
