(* ===== verification/StateDiffs.v ===== *)
(** * State diffs ([lib/types/src/storage/writes])

    The records a batch publishes of the slots it changes, their fixed and their
    compressed encodings ([mod.rs], [compression.rs]), and a reader of the
    compressed form. [U256] and [H256] values are integers below [2 ^ 256]. *)
From Stdlib Require Import ZifyNat.
From S2P Require Import Prelude Types.
Local Open Scope Z_scope.

Definition COMPRESSION_VERSION_NUMBER : Z := 1.
Definition BYTES_PER_ENUMERATION_INDEX : Z := 4.
Definition BYTES_PER_DERIVED_KEY : Z := 32.
Definition PADDED_ENCODED_STORAGE_DIFF_LEN_BYTES : nat := 272.

(** [U256::bits]: the bits that are needed for a value. *)
Definition bits (z : U256) : Z := if decide (z = 0) then 0 else Z.log2 z + 1.

(** [U256::overflowing_sub]'s value. *)
Definition overflowing_sub (a b : U256) : U256 := wrap 256 (a - b).

(** ** Compression of one value *)
Inductive CompressionMode :=
| CompressionByteAdd (prev_value new_value : U256)
| CompressionByteSub (prev_value new_value : U256)
| CompressionByteTransform (new_value : U256)
| CompressionByteNone (new_value : U256).

Definition operation_id (self : CompressionMode) : Z :=
  match self with
  | CompressionByteAdd _ _ => 1
  | CompressionByteSub _ _ => 2
  | CompressionByteTransform _ => 3
  | CompressionByteNone _ => 0
  end.

Definition get_diff_and_size (self : CompressionMode) : option (U256 * Z) :=
  match self with
  | CompressionByteAdd prev_value new_value =>
      let diff := overflowing_sub new_value prev_value in
      let size := (bits diff + 7) / 8 in
      if decide (31 ≤ size) then None else Some (diff, size)
  | CompressionByteSub prev_value new_value =>
      let diff := overflowing_sub prev_value new_value in
      let size := (bits diff + 7) / 8 in
      if decide (31 ≤ size) then None else Some (diff, size)
  | CompressionByteTransform new_value =>
      let size := (bits new_value + 7) / 8 in
      if decide (31 ≤ size) then None else Some (new_value, size)
  | CompressionByteNone _ => None
  end.

Definition output_size (self : CompressionMode) : option Z :=
  match self with
  | CompressionByteNone _ => Some 32
  | _ => snd <$> get_diff_and_size self
  end.

Definition compress_value_only (self : CompressionMode) : option (list byte) :=
  match self with
  | CompressionByteNone new_value => Some (to_be_bytes 32 new_value)
  | _ =>
      let? (diff, size) := get_diff_and_size self else None in
      Some (drop (Z.to_nat (32 - size)) (to_be_bytes 32 diff))
  end.

Definition metadata_byte (output_size operation_id : Z) : byte :=
  Z_to_byte (Z.lor (Z.shiftl output_size 3) operation_id).

Definition compress_extended (self : CompressionMode) : option (list byte) :=
  match self with
  | CompressionByteNone new_value => Some (x00 :: to_be_bytes 32 new_value)
  | _ =>
      let? compressed_value := compress_value_only self else None in
      let? size := output_size self else None in
      Some (metadata_byte size (operation_id self) :: compressed_value)
  end.

Definition default_passes (prev_value new_value : U256) : list CompressionMode :=
  [CompressionByteAdd prev_value new_value;
   CompressionByteSub prev_value new_value;
   CompressionByteTransform new_value].

(** [Iterator::min_by_key] with the length as the key: the first of the least. *)
Fixpoint min_by_len (l : list (list byte)) : option (list byte) :=
  match l with
  | [] => None
  | x :: l =>
      match min_by_len l with
      | None => Some x
      | Some y => if decide (length x ≤ length y)%nat then Some x else Some y
      end
  end.

Definition compress_with_best_strategy (prev_value new_value : U256) : list byte :=
  match min_by_len (omap compress_extended (default_passes prev_value new_value)) with
  | Some bytes => bytes
  | None => x00 :: to_be_bytes 32 new_value
  end.

(** ** Records *)
Module StateDiffRecord.
Record t := mk {
  address : Address;
  key : U256;
  derived_key : list byte;
  enumeration_index : Z;
  initial_value : U256;
  final_value : U256;
}.

Definition encode (self : t) : list byte :=
  to_be_bytes 20 (address self) ++ to_be_bytes 32 (key self) ++ derived_key self ++
  to_be_bytes 8 (enumeration_index self) ++ to_be_bytes 32 (initial_value self) ++
  to_be_bytes 32 (final_value self).

Definition encode_padded (self : t) : list byte :=
  let packed_encoding := encode self in
  packed_encoding ++ replicate (PADDED_ENCODED_STORAGE_DIFF_LEN_BYTES - length packed_encoding) x00.

Definition slice (a b : nat) (data : list byte) : list byte := take (b - a) (drop a data).

Definition try_from_slice (data : list byte) : option t :=
  if decide (length data = 156%nat) then
    Some {|
      address := from_be_bytes (slice 0 20 data);
      key := from_be_bytes (slice 20 52 data);
      derived_key := slice 52 84 data;
      enumeration_index := from_be_bytes (slice 84 92 data);
      initial_value := from_be_bytes (slice 92 124 data);
      final_value := from_be_bytes (slice 124 156 data);
    |}
  else None.

Definition compress (self : t) : exec (list byte) :=
  comp_state_diff ←
    (if decide (enumeration_index self = 0) then Ret (derived_key self)
     else if decide (enumeration_index self ≤ 2 ^ 32 - 1)
     then Ret (to_be_bytes 4 (wrap 32 (enumeration_index self)))
     else Panic);
  Ret (comp_state_diff ++ compress_with_best_strategy (initial_value self) (final_value self)).

Definition is_write_initial (self : t) : bool := bool_decide (enumeration_index self = 0).

(** The order of [sort_by_key]. *)
Definition le (a b : t) : Prop :=
  address a < address b ∨ (address a = address b ∧ key a ≤ key b).
#[global] Instance le_dec : RelDecision le.
Proof. intros a b. unfold le. apply _. Defined.
End StateDiffRecord.

Definition prepend_header (compressed_state_diffs : list byte) : list byte :=
  Z_to_byte COMPRESSION_VERSION_NUMBER ::
  drop 1 (to_be_bytes 4 (wrap 32 (Z.of_nat (length compressed_state_diffs)))) ++
  Z_to_byte BYTES_PER_ENUMERATION_INDEX :: compressed_state_diffs.

Definition compress_state_diffs (state_diffs : list StateDiffRecord.t) : exec (list byte) :=
  let state_diffs := merge_sort StateDiffRecord.le state_diffs in
  let initial_writes := filter StateDiffRecord.is_write_initial state_diffs in
  let repeated_writes := filter (λ rec, negb (StateDiffRecord.is_write_initial rec)) state_diffs in
  initial ← mapM StateDiffRecord.compress initial_writes;
  repeated ← mapM StateDiffRecord.compress repeated_writes;
  Ret (prepend_header (to_be_bytes 2 (wrap 16 (Z.of_nat (length initial_writes))) ++ concat initial ++ concat repeated)).

(** ** Reading the compressed form

    What a reader of the published bytes does with the values before the batch:
    the operation and the length from the metadata byte, as the repository's own
    test of the compression ([verify_value]). *)
Definition take_exactly (n : nat) (bs : list byte) : option (list byte * list byte) :=
  if decide (n ≤ length bs)%nat then Some (take n bs, drop n bs) else None.

Definition decompress_value (prev : U256) (bs : list byte) : option (U256 * list byte) :=
  match bs with
  | [] => None
  | metadata :: bs =>
      let operation := Z.land (byte_to_Z metadata) 7 in
      let len := Z.shiftr (byte_to_Z metadata) 3 in
      let? (value, rest) := take_exactly (if decide (operation = 0) then 32%nat else Z.to_nat len) bs else None in
      let value := from_be_bytes value in
      if decide (operation = 0) then Some (value, rest)
      else if decide (operation = 1) then Some (wrap 256 (prev + value), rest)
      else if decide (operation = 2) then Some (wrap 256 (prev - value), rest)
      else if decide (operation = 3) then Some (value, rest)
      else None
  end.

(** A slot is named by its derived key when it is new, and by its index in the
    tree afterwards. *)
Inductive slot := New (derived_key : list byte) | Known (enumeration_index : Z).

Definition slot_of (rec : StateDiffRecord.t) : slot :=
  if StateDiffRecord.is_write_initial rec then New (StateDiffRecord.derived_key rec)
  else Known (StateDiffRecord.enumeration_index rec).

Section reader.
Context (before : slot → U256).

Definition read_entry (initial : bool) (bs : list byte) : option (slot * U256 * list byte) :=
  let? (name, bs) := take_exactly (if initial then 32%nat else 4%nat) bs else None in
  let slot := if initial then New name else Known (from_be_bytes name) in
  let? (value, bs) := decompress_value (before slot) bs else None in
  Some (slot, value, bs).

Fixpoint read_initial (n : nat) (bs : list byte) : option (list (slot * U256) * list byte) :=
  match n with
  | O => Some ([], bs)
  | S n =>
      let? (s, v, bs) := read_entry true bs else None in
      let? (l, bs) := read_initial n bs else None in
      Some ((s, v) :: l, bs)
  end.

(** The repeated writes go on to the end; every entry takes some bytes. *)
Fixpoint read_repeated (fuel : nat) (bs : list byte) : option (list (slot * U256)) :=
  match bs, fuel with
  | [], _ => Some []
  | _, O => None
  | _, S fuel =>
      let? (s, v, bs) := read_entry false bs else None in
      let? l := read_repeated fuel bs else None in
      Some ((s, v) :: l)
  end.

Definition read_state_diffs (bs : list byte) : option (list (slot * U256)) :=
  let? (header, body) := take_exactly 5 bs else None in
  if decide (header = Z_to_byte 1 :: to_be_bytes 3 (Z.of_nat (length body)) ++ [Z_to_byte 4]) then
    let? (count, bs) := take_exactly 2 body else None in
    let? (initial, bs) := read_initial (Z.to_nat (from_be_bytes count)) bs else None in
    let? repeated := read_repeated (length bs) bs else None in
    Some (initial ++ repeated)
  else None.
End reader.

(** ** The compressed value is read back *)
Lemma take_exactly_app n (l rest : list byte) : length l = n → take_exactly n (l ++ rest) = Some (l, rest).
Proof.
  intros <-. unfold take_exactly. rewrite decide_True by (rewrite length_app; lia).
  by rewrite take_app_length, drop_app_length.
Qed.

Lemma drop_to_be_bytes n k z : (k ≤ n)%nat → drop (n - k) (to_be_bytes n z) = to_be_bytes k z.
Proof.
  revert k z. induction n as [|n IH]; intros [|k] z Hk; cbn [to_be_bytes]; [done|lia| |].
  - apply drop_ge. rewrite length_app, length_to_be_bytes. cbn. lia.
  - replace (S n - S k)%nat with (n - k)%nat by lia. rewrite drop_app_le by (rewrite length_to_be_bytes; lia). by rewrite IH by lia.
Qed.

Lemma bits_bound z : 0 ≤ z → 0 ≤ bits z ∧ z < 256 ^ ((bits z + 7) / 8).
Proof.
  intros Hz. unfold bits. case_decide as Hz0; [subst; cbn; lia|]. pose proof (Z.log2_nonneg z). split; [lia|].
  change 256 with (2 ^ 8). rewrite <- Z.pow_mul_r by lia.
  apply (Z.lt_le_trans _ (2 ^ (Z.log2 z + 1))); [apply Z.log2_spec; lia|]. apply Z.pow_le_mono_r; lia.
Qed.

Lemma metadata_byte_fields size op :
  0 ≤ size ≤ 31 → 0 ≤ op < 8 →
  Z.land (byte_to_Z (metadata_byte size op)) 7 = op ∧ Z.shiftr (byte_to_Z (metadata_byte size op)) 3 = size.
Proof.
  intros Hs Ho. unfold metadata_byte. rewrite Z_to_byte_to_Z.
  assert (Hd : Z.land (Z.shiftl size 3) op = 0).
  { apply Z.bits_inj_0. intros i. rewrite Z.land_spec. destruct (decide (i < 3)); [by rewrite Z.shiftl_spec_low|].
    rewrite (Z.bits_above_log2 op i); [apply andb_false_r|lia|]. destruct (decide (op = 0)) as [->|]; [cbn; lia|].
    apply (Z.lt_le_trans _ 3); [apply Z.log2_lt_pow2; cbn; lia|lia]. }
  assert (Hl : Z.lor (Z.shiftl size 3) op = size * 8 + op).
  { rewrite <- Z.lxor_lor, <- Z.add_nocarry_lxor by done. by rewrite Z.shiftl_mul_pow2 by lia. }
  rewrite Hl. rewrite wrap_small by (split; cbn; lia). split.
  - change 7 with (Z.ones 3). rewrite Z.land_ones by lia. change (2 ^ 3) with 8. rewrite Z.add_comm, Z.mod_add, Z.mod_small; lia.
  - rewrite Z.shiftr_div_pow2 by lia. change (2 ^ 3) with 8. rewrite Z.add_comm, Z.div_add, Z.div_small; lia.
Qed.

Lemma overflowing_sub_bound a b : 0 ≤ overflowing_sub a b < 2 ^ 256.
Proof. apply (wrap_in_width 256). lia. Qed.

(** A mode's diff and size, and what a reader makes of the diff. *)
Lemma mode_diff m prev new diff size :
  m ∈ default_passes prev new → in_width 256 prev → in_width 256 new → get_diff_and_size m = Some (diff, size) →
  0 ≤ size ≤ 30 ∧ 0 ≤ diff < 256 ^ size ∧
  match operation_id m with 1 => wrap 256 (prev + diff) = new | 2 => wrap 256 (prev - diff) = new | 3 => diff = new | _ => False end.
Proof.
  intros Hm Hprev Hnew Hd. unfold default_passes in Hm.
  assert (Hsize : ∀ d, 0 ≤ d → ¬ 31 ≤ (bits d + 7) / 8 → 0 ≤ (bits d + 7) / 8 ≤ 30 ∧ 0 ≤ d < 256 ^ ((bits d + 7) / 8)).
  { intros d Hd0 Hs. pose proof (bits_bound d Hd0). split; [|lia]. split; [apply Z.div_pos; lia|lia]. }
  rewrite !elem_of_cons, elem_of_nil in Hm. unfold in_width in *.
  destruct Hm as [->|[->|[->|[]]]]; cbn [get_diff_and_size operation_id] in *; case_decide as Hs; try done; injection Hd as <- <-.
  - pose proof (overflowing_sub_bound new prev) as [Hlo _]. destruct (Hsize _ Hlo Hs). do 2 (split; [done|]). unfold overflowing_sub, wrap.
    rewrite Z.add_mod_idemp_r by lia. replace (prev + (new - prev)) with new by lia. by apply Z.mod_small.
  - pose proof (overflowing_sub_bound prev new) as [Hlo _]. destruct (Hsize _ Hlo Hs). do 2 (split; [done|]). unfold overflowing_sub, wrap.
    rewrite Zminus_mod_idemp_r. replace (prev - (prev - new)) with new by lia. by apply Z.mod_small.
  - destruct (Hsize new); [lia|done|]. done.
Qed.

Lemma mode_extended m prev new bs :
  m ∈ default_passes prev new → compress_extended m = Some bs →
  ∃ diff size, get_diff_and_size m = Some (diff, size) ∧ output_size m = Some size ∧
    bs = metadata_byte size (operation_id m) :: drop (Z.to_nat (32 - size)) (to_be_bytes 32 diff).
Proof.
  unfold default_passes. rewrite !elem_of_cons, elem_of_nil.
  intros [->|[->|[->|[]]]] Hc; cbn [compress_extended compress_value_only output_size] in *;
    destruct (get_diff_and_size _) as [[diff size]|]; try done; cbn in Hc; injection Hc as <-; eauto.
Qed.

Lemma decompress_extended m prev new bs rest :
  m ∈ default_passes prev new → in_width 256 prev → in_width 256 new → compress_extended m = Some bs →
  decompress_value prev (bs ++ rest) = Some (new, rest) ∧ (length bs ≤ 31)%nat.
Proof.
  intros Hm Hprev Hnew Hc. destruct (mode_extended m prev new bs Hm Hc) as (diff & size & Hd & _ & ->).
  destruct (mode_diff m prev new diff size Hm Hprev Hnew Hd) as (Hs & Hdiff & Hop).
  replace (Z.to_nat (32 - size)) with (32 - Z.to_nat size)%nat by lia. rewrite drop_to_be_bytes by lia.
  split; [|cbn; rewrite length_to_be_bytes; lia].
  assert (Hid : operation_id m = 1 ∨ operation_id m = 2 ∨ operation_id m = 3) by (destruct m; cbn in *; tauto).
  cbn [decompress_value app]. destruct (metadata_byte_fields size (operation_id m)) as [-> ->]; [lia|lia|].
  rewrite (decide_False (P := operation_id m = 0)) by lia. rewrite take_exactly_app by apply length_to_be_bytes. cbv beta iota zeta.
  rewrite from_to_be_bytes by (rewrite Z2Nat.id by lia; lia).
  destruct Hid as [Hid|[Hid|Hid]]; rewrite Hid in *; cbn; by subst.
Qed.

Lemma min_by_len_elem l bs : min_by_len l = Some bs → bs ∈ l ∧ ∀ bs', bs' ∈ l → (length bs ≤ length bs')%nat.
Proof.
  revert bs. induction l as [|x l IH]; cbn; [done|]. intros bs Hm.
  destruct (min_by_len l) as [y|] eqn:E.
  - destruct (IH y eq_refl) as [Hy Hle]. case_decide; injection Hm as <-.
    + split; [by left|]. intros bs' [->|Hin]%elem_of_cons; [done|]. specialize (Hle bs' Hin). lia.
    + split; [by right|]. intros bs' [->|Hin]%elem_of_cons; [lia|auto].
  - injection Hm as <-. split; [by left|]. intros bs' [->|Hin]%elem_of_cons; [done|].
    destruct l as [|z l]; [by apply not_elem_of_nil in Hin|]. cbn in E. destruct (min_by_len l); [case_decide|]; done.
Qed.

Lemma decompress_best prev new rest :
  in_width 256 prev → in_width 256 new →
  decompress_value prev (compress_with_best_strategy prev new ++ rest) = Some (new, rest).
Proof.
  intros Hprev Hnew. unfold compress_with_best_strategy. destruct (min_by_len _) as [bs|] eqn:E.
  - apply min_by_len_elem in E as [(m & Hm & Hc)%list_elem_of_omap _]. by eapply decompress_extended.
  - cbn [app decompress_value]. change (Z.land (byte_to_Z x00) 7) with 0. cbn [decide].
    rewrite decide_True by done. rewrite take_exactly_app by apply length_to_be_bytes. cbv beta iota zeta.
    rewrite decide_True by done. rewrite from_to_be_bytes; [done|]. exact Hnew.
Qed.

Lemma compress_best_length prev new :
  in_width 256 prev → in_width 256 new → (1 ≤ length (compress_with_best_strategy prev new) ≤ 33)%nat.
Proof.
  intros Hprev Hnew. unfold compress_with_best_strategy. destruct (min_by_len _) as [bs|] eqn:E.
  - apply min_by_len_elem in E as [(m & Hm & Hc)%list_elem_of_omap _].
    destruct (decompress_extended m prev new bs [] Hm Hprev Hnew Hc). destruct bs; [done|]. cbn in *. lia.
  - cbn [length]. rewrite length_to_be_bytes. lia.
Qed.

(** ** The published bytes are read back *)
Module StateDiffsCorrect.
Import StateDiffRecord.

Record wf (rec : t) : Prop := {
  wf_address : in_width 160 (address rec);
  wf_key : in_width 256 (key rec);
  wf_derived : length (derived_key rec) = 32%nat;
  wf_index : in_width 64 (enumeration_index rec);
  wf_initial : in_width 256 (initial_value rec);
  wf_final : in_width 256 (final_value rec);
}.

Definition entry (rec : t) : slot * U256 := (slot_of rec, final_value rec).

(** An initial write takes at most 65 bytes and a repeated one at most 37. *)
Lemma compress_ok before rec :
  wf rec → enumeration_index rec < 2 ^ 32 → before (slot_of rec) = initial_value rec →
  ∃ bs, compress rec = Ret bs ∧ bs ≠ [] ∧ (length bs ≤ if is_write_initial rec then 65 else 37)%nat ∧
    ∀ rest, read_entry before (is_write_initial rec) (bs ++ rest) = Some (slot_of rec, final_value rec, rest).
Proof.
  intros [_ _ Hk Hi Hv Hf] Hi32 Hb.
  pose proof (compress_best_length _ _ Hv Hf) as Hlen. pose proof (λ rest, decompress_best (initial_value rec) (final_value rec) rest Hv Hf) as Hread.
  unfold compress, slot_of, is_write_initial, in_width in *. case_bool_decide as H0.
  - rewrite decide_True by done. eexists. split; [done|].
    split; [intros ?%(f_equal length); rewrite length_app in *; cbn in *; lia|].
    split; [rewrite length_app; lia|]. intros rest. rewrite <- app_assoc. unfold read_entry.
    rewrite take_exactly_app by done. cbn [negb]. cbv beta iota zeta. by rewrite Hb, Hread.
  - rewrite decide_False, decide_True by lia. eexists. split; [done|].
    split; [intros ?%(f_equal length); rewrite length_app in *; cbn in *; lia|].
    split; [rewrite length_app, length_to_be_bytes; lia|]. intros rest. rewrite <- app_assoc. unfold read_entry.
    rewrite take_exactly_app by apply length_to_be_bytes. cbv beta iota zeta.
    rewrite wrap_small, from_to_be_bytes by (split; cbn; lia). by rewrite Hb, Hread.
Qed.

Section reading.
Context (before : slot → U256).

Definition fits (rec : t) : Prop :=
  wf rec ∧ enumeration_index rec < 2 ^ 32 ∧ before (slot_of rec) = initial_value rec.

Lemma compress_all initial recs :
  Forall (λ rec, fits rec ∧ is_write_initial rec = initial) recs →
  ∃ bss, mapM compress recs = Ret bss ∧
    Forall2 (λ rec bs, bs ≠ [] ∧ (length bs ≤ 65)%nat ∧
      ∀ rest, read_entry before initial (bs ++ rest) = Some (slot_of rec, final_value rec, rest)) recs bss.
Proof.
  intros Hrecs. apply mapM_Ret. eapply Forall_impl; [exact Hrecs|]. cbn. intros rec [(Hwf & Hi & Hb) Hinit].
  destruct (compress_ok before rec Hwf Hi Hb) as (bs & Hc & Hne & Hlen & Hr). rewrite Hinit in *.
  exists bs. split; [done|]. split; [done|]. split; [by destruct initial; lia|done].
Qed.

Lemma read_initial_all recs bss rest :
  Forall2 (λ rec bs, bs ≠ [] ∧ (length bs ≤ 65)%nat ∧
      ∀ rest, read_entry before true (bs ++ rest) = Some (slot_of rec, final_value rec, rest)) recs bss →
  read_initial before (length recs) (concat bss ++ rest) = Some (entry <$> recs, rest).
Proof.
  intros Hall. induction Hall as [|rec bs recs bss (_ & _ & Hr) _ IH]; [done|].
  cbn [read_initial length concat]. by rewrite <- app_assoc, Hr, IH.
Qed.

Lemma read_repeated_all recs bss fuel :
  Forall2 (λ rec bs, bs ≠ [] ∧ (length bs ≤ 65)%nat ∧
      ∀ rest, read_entry before false (bs ++ rest) = Some (slot_of rec, final_value rec, rest)) recs bss →
  (length recs ≤ fuel)%nat → read_repeated before fuel (concat bss) = Some (entry <$> recs).
Proof.
  intros Hall. revert fuel. induction Hall as [|rec bs recs bss (Hne & _ & Hr) _ IH]; intros fuel Hf; [by destruct fuel|].
  destruct fuel as [|fuel]; [cbn in Hf; lia|]. cbn [concat]. cbn [read_repeated].
  destruct (bs ++ concat bss) as [|b l] eqn:E; [by apply app_eq_nil in E as [-> _]|].
  rewrite <- E, Hr, IH by (cbn in Hf; lia). done.
Qed.

Lemma concat_lengths {A} (R : A → list byte → Prop) recs bss :
  Forall2 R recs bss → (∀ rec bs, R rec bs → bs ≠ [] ∧ (length bs ≤ 65)%nat) →
  (length recs ≤ length (concat bss) ≤ 65 * length recs)%nat.
Proof.
  intros Hall HR. induction Hall as [|rec bs recs bss H _ IH]; cbn; [lia|]. rewrite length_app.
  apply HR in H as [Hne ?]. destruct bs; [done|]. cbn in *. lia.
Qed.
End reading.

(** C12 A reader with the values before the batch recovers from the published bytes
    every changed slot with its new value, each once, and nothing else. The bytes are
    at most 65 per slot; the bound on the number of slots is that of the three-byte
    length in the header. *)
Theorem state_diffs_roundtrip (before : slot → U256) (state_diffs : list t) :
  Forall (fits before) state_diffs → Z.of_nat (length state_diffs) < 2 ^ 16 →
  ∃ bs es, compress_state_diffs state_diffs = Ret bs ∧ read_state_diffs before bs = Some es ∧
    es ≡ₚ entry <$> state_diffs ∧ (length bs ≤ 7 + 65 * length state_diffs)%nat.
Proof.
  intros Hfits Hlen. change (2 ^ 16) with 65536 in Hlen. set (sorted := merge_sort le state_diffs).
  assert (Hperm : sorted ≡ₚ state_diffs) by apply merge_sort_Permutation.
  assert (Hs : Forall (fits before) sorted) by by rewrite Hperm.
  set (ini := filter is_write_initial sorted). set (rep := filter (λ rec, negb (is_write_initial rec)) sorted).
  assert (Hsplit : sorted ≡ₚ ini ++ rep).
  { subst ini rep. clear. induction sorted as [|rec l IH]; [done|]. rewrite !filter_cons.
    destruct (is_write_initial rec); cbn; [by rewrite IH at 1|]. rewrite IH at 1. apply Permutation_middle. }
  destruct (compress_all before true ini) as (bss1 & Hc1 & Hr1).
  { apply Forall_forall. intros rec [Hi Hin]%list_elem_of_filter. split; [by eapply Forall_forall|by apply Is_true_true]. }
  destruct (compress_all before false rep) as (bss2 & Hc2 & Hr2).
  { apply Forall_forall. intros rec [Hi Hin]%list_elem_of_filter. split; [by eapply Forall_forall|]. by destruct (is_write_initial rec). }
  pose proof (concat_lengths _ ini bss1 Hr1 ltac:(naive_solver)) as Hl1.
  pose proof (concat_lengths _ rep bss2 Hr2 ltac:(naive_solver)) as Hl2.
  assert (Hn : (length ini + length rep = length state_diffs)%nat) by (rewrite <- length_app, <- Hsplit, Hperm; done).
  unfold compress_state_diffs. fold sorted. fold ini. fold rep. rewrite Hc1. cbn [mbind exec_bind]. rewrite Hc2. cbn [mbind exec_bind].
  set (body := to_be_bytes 2 _ ++ concat bss1 ++ concat bss2).
  assert (Hbody : (length body ≤ 2 + 65 * length state_diffs)%nat) by (subst body; rewrite !length_app, length_to_be_bytes; lia).
  exists (prepend_header body), (entry <$> ini ++ rep). split; [done|]. split; [|split].
  - unfold read_state_diffs, prepend_header. rewrite wrap_small by (split; [lia|change (2 ^ 32) with 4294967296; lia]).
    change (drop 1 ?l) with (drop (4 - 3) l). rewrite drop_to_be_bytes by lia.
    change (Z_to_byte ?a :: ?l ++ Z_to_byte ?b :: body) with ((Z_to_byte a :: l) ++ [Z_to_byte b] ++ body). rewrite app_assoc.
    rewrite take_exactly_app by done. rewrite decide_True by done.
    unfold body. rewrite take_exactly_app by apply length_to_be_bytes. rewrite wrap_small, from_to_be_bytes by (split; cbn; lia).
    rewrite Nat2Z.id, (read_initial_all before ini bss1) by done. rewrite (read_repeated_all before rep bss2) by (done || lia).
    by rewrite fmap_app.
  - by rewrite <- Hsplit, Hperm.
  - unfold prepend_header. cbn [length]. rewrite length_app, length_drop, length_to_be_bytes. cbn [length]. lia.
Qed.

(** The fixed encoding is read back; it is 156 bytes, and 272 when padded. *)
Lemma encode_roundtrip rec :
  wf rec → try_from_slice (encode rec) = Some rec ∧ length (encode_padded rec) = PADDED_ENCODED_STORAGE_DIFF_LEN_BYTES.
Proof.
  intros [Ha Hk Hd Hi Hv Hf]. assert (Hlen : length (encode rec) = 156%nat).
  { unfold encode. rewrite !length_app, !length_to_be_bytes. lia. }
  split; [|unfold encode_padded; rewrite length_app, length_replicate, Hlen; done].
  unfold try_from_slice. rewrite decide_True by done. unfold encode, slice.
  repeat match goal with |- context [drop ?n (?l ++ ?r)] =>
    first [ rewrite (drop_app_ge l r n) by (rewrite ?length_to_be_bytes; lia) | change (drop 0 (l ++ r)) with (l ++ r) ];
    rewrite ?length_to_be_bytes, ?Hd; cbn [Nat.sub] end.
  rewrite ?drop_0. cbn [Nat.sub].
  rewrite !take_app_length' by (rewrite ?length_to_be_bytes; lia).
  rewrite (take_ge (to_be_bytes 32 (final_value rec))) by (rewrite length_to_be_bytes; lia).
  rewrite !from_to_be_bytes by assumption. by destruct rec.
Qed.

Definition sample_diffs : list t :=
  [mk 5 2 (replicate 32 x07) 9 (2 ^ 256 - 1) 255; mk 5 1 (replicate 32 x01) 0 0 64; mk 3 7 (replicate 32 x02) 0 (2 ^ 255 - 1) (2 ^ 256 - 1)].
Definition sample_before (s : slot) : U256 :=
  match s with
  | Known 9 => 2 ^ 256 - 1
  | New (x02 :: _) => 2 ^ 255 - 1
  | _ => 0
  end.

Lemma state_diffs_roundtrip_witness :
  ∃ bs es, compress_state_diffs sample_diffs = Ret bs ∧ read_state_diffs sample_before bs = Some es ∧
    es ≡ₚ entry <$> sample_diffs ∧ (length bs ≤ 7 + 65 * length sample_diffs)%nat.
Proof.
  apply state_diffs_roundtrip; [|done].
  repeat constructor; done.
Defined.
End StateDiffsCorrect.
