(* ===== verification/Deduplicator.v ===== *)
(** * Deduplication of storage writes ([lib/multivm/src/utils/deduplicator.rs])

    The state keeper counts the slots a batch changes and the bytes their new values
    take, as transactions are added to it and as they are tried and rolled back. The
    counts are kept incrementally; the theorem of this file is that they are those of
    the net change since the batch began. Storage logs are those of
    [lib/types/src/storage/log.rs]. *)
From S2P Require Import Prelude Types StateDiffs.
Local Open Scope Z_scope.

(** [StorageKey]: an account's address and a slot. *)
Abbreviation StorageKey := (Address * H256)%type (only parsing).

Inductive StorageLogKind := Read | InitialWrite | RepeatedWrite.
#[export] Instance StorageLogKind_eq_dec : EqDecision StorageLogKind.
Proof. solve_decision. Defined.

Module StorageLog.
Record t := mk { kind : StorageLogKind; key : StorageKey; value : H256 }.
Definition is_write (self : t) : bool := match kind self with Read => false | _ => true end.
End StorageLog.

Module StorageLogWithPreviousValue.
Record t := mk { log : StorageLog.t; previous_value : H256 }.
End StorageLogWithPreviousValue.
Abbreviation PrevLog := StorageLogWithPreviousValue.t.

(** [vm_interface/src/types/outputs/statistic.rs] *)
Module DeduplicatedWritesMetrics.
Record t := mk {
  initial_storage_writes : Z;
  repeated_storage_writes : Z;
  total_updated_values_size : Z;
}.
Definition default : t := mk 0 0 0.
Definition INITIAL_SERIALIZED_SIZE : Z := 64.
Definition REPEATED_SERIALIZED_SIZE : Z := 40.

Definition size (self : t) (is_pre_boojum : bool) : Z :=
  if is_pre_boojum then
    wrap 64 (initial_storage_writes self * INITIAL_SERIALIZED_SIZE + repeated_storage_writes self * REPEATED_SERIALIZED_SIZE)
  else
    wrap 64 (total_updated_values_size self + BYTES_PER_DERIVED_KEY * initial_storage_writes self
             + BYTES_PER_ENUMERATION_INDEX * repeated_storage_writes self).
End DeduplicatedWritesMetrics.
Abbreviation WritesMetrics := DeduplicatedWritesMetrics.t.

Module ModifiedSlot.
Record t := mk { value : H256; size : Z }.
End ModifiedSlot.

Inductive UpdateType :=
| Remove (slot : ModifiedSlot.t)
| Update (slot : ModifiedSlot.t)
| Insert.

Module UpdateItem.
Record t := mk { key : StorageKey; update_type : UpdateType; is_write_initial : bool }.
End UpdateItem.

Module StorageWritesDeduplicator.
Import DeduplicatedWritesMetrics.
Record t := mk {
  initial_values : gmap StorageKey H256;
  modified_key_values : gmap StorageKey ModifiedSlot.t;
  metrics : DeduplicatedWritesMetrics.t;
}.
Definition new : t := mk ∅ ∅ default.

(** [*field_to_change += count] and [*total_size += size]; a subtraction adds a
    negative number. *)
Definition change (is_write_initial : bool) (count size : Z) (m : DeduplicatedWritesMetrics.t) : DeduplicatedWritesMetrics.t := {|
  initial_storage_writes := if is_write_initial then wrap 64 (initial_storage_writes m + count) else initial_storage_writes m;
  repeated_storage_writes := if is_write_initial then repeated_storage_writes m else wrap 64 (repeated_storage_writes m + count);
  total_updated_values_size := wrap 64 (total_updated_values_size m + size);
|}.

(** The body of the loop of [process_storage_logs]. *)
Definition process_storage_log (acc : t * list UpdateItem.t) (log : PrevLog) : exec (t * list UpdateItem.t) :=
  let '(self, updates) := acc in
  let entry := StorageLogWithPreviousValue.log log in
  let key := StorageLog.key entry in
  let initial_values := match initial_values self !! key with
    | Some _ => initial_values self
    | None => <[key := StorageLogWithPreviousValue.previous_value log]> (initial_values self) end in
  initial_value ← expect (initial_values !! key);
  let was_key_modified := bool_decide (is_Some (modified_key_values self !! key)) in
  let modified_value := if decide (initial_value = StorageLog.value entry) then None else Some (StorageLog.value entry) in
  let is_write_initial := bool_decide (StorageLog.kind entry = InitialWrite) in
  match was_key_modified, modified_value with
  | true, None =>
      value ← expect (modified_key_values self !! key);
      Ret (mk initial_values (delete key (modified_key_values self))
              (change is_write_initial (-1) (- ModifiedSlot.size value) (metrics self)),
           updates ++ [UpdateItem.mk key (Remove value) is_write_initial])
  | true, Some new_value =>
      let value_size := Z.of_nat (length (compress_with_best_strategy initial_value new_value)) in
      old_value ← expect (modified_key_values self !! key);
      Ret (mk initial_values (<[key := ModifiedSlot.mk new_value value_size]> (modified_key_values self))
              (change is_write_initial 0 (- ModifiedSlot.size old_value + value_size) (metrics self)),
           updates ++ [UpdateItem.mk key (Update old_value) is_write_initial])
  | false, Some new_value =>
      let value_size := Z.of_nat (length (compress_with_best_strategy initial_value new_value)) in
      Ret (mk initial_values (<[key := ModifiedSlot.mk new_value value_size]> (modified_key_values self))
              (change is_write_initial 1 value_size (metrics self)),
           updates ++ [UpdateItem.mk key Insert is_write_initial])
  | false, None => Ret (mk initial_values (modified_key_values self) (metrics self), updates)
  end.

Definition process_storage_logs (self : t) (logs : list PrevLog) : exec (t * list UpdateItem.t) :=
  foldM process_storage_log (self, []) (filter (λ log, StorageLog.is_write (StorageLogWithPreviousValue.log log)) logs).

Definition apply (self : t) (logs : list PrevLog) : exec t :=
  '(self, _) ← process_storage_logs self logs; Ret self.

(** The body of the loop of [rollback]. *)
Definition rollback_item (self : t) (item : UpdateItem.t) : exec t :=
  let key := UpdateItem.key item in
  let is_write_initial := UpdateItem.is_write_initial item in
  match UpdateItem.update_type item with
  | Insert =>
      value ← expect (modified_key_values self !! key);
      Ret (mk (initial_values self) (delete key (modified_key_values self))
              (change is_write_initial (-1) (- ModifiedSlot.size value) (metrics self)))
  | Update value =>
      old_value ← expect (modified_key_values self !! key);
      Ret (mk (initial_values self) (<[key := value]> (modified_key_values self))
              (change is_write_initial 0 (ModifiedSlot.size value - ModifiedSlot.size old_value) (metrics self)))
  | Remove value =>
      Ret (mk (initial_values self) (<[key := value]> (modified_key_values self))
              (change is_write_initial 1 (ModifiedSlot.size value) (metrics self)))
  end.

Definition rollback (self : t) (updates : list UpdateItem.t) : exec t := foldM rollback_item self (reverse updates).

Definition apply_and_rollback (self : t) (logs : list PrevLog) : exec (t * DeduplicatedWritesMetrics.t) :=
  '(self, updates) ← process_storage_logs self logs;
  let metrics := metrics self in
  self ← rollback self updates;
  Ret (self, metrics).

Definition apply_on_empty_state (logs : list PrevLog) : exec DeduplicatedWritesMetrics.t :=
  deduplicator ← apply new logs; Ret (metrics deduplicator).
End StorageWritesDeduplicator.

(** ** Counting the net change *)
Section counting.
Import DeduplicatedWritesMetrics StorageWritesDeduplicator.

Definition metrics_ok (m : WritesMetrics) : Prop :=
  in_width 64 (initial_storage_writes m) ∧ in_width 64 (repeated_storage_writes m) ∧ in_width 64 (total_updated_values_size m).

Lemma wrap_wrap_add w a b : wrap w (wrap w a + b) = wrap w (a + b).
Proof. unfold wrap. apply Zplus_mod_idemp_l. Qed.

Lemma change_change b c1 z1 c2 z2 m : change b c1 z1 (change b c2 z2 m) = change b (c2 + c1) (z2 + z1) m.
Proof. unfold change; cbn. destruct b; by rewrite !wrap_wrap_add, !Z.add_assoc. Qed.

Lemma change_zero b m : metrics_ok m → change b 0 0 m = m.
Proof. intros (? & ? & ?). unfold change. destruct m; cbn in *. rewrite !Z.add_0_r, !wrap_small by done. by destruct b. Qed.

Lemma change_ok b c z m : metrics_ok m → metrics_ok (change b c z m).
Proof. intros (? & ? & ?). unfold change. split_and!; destruct b; cbn; auto with via; apply wrap_in_width; lia. Qed.

(** Undoing an update gives back the counts. *)
Lemma change_undo b c z c' z' m : metrics_ok m → c + c' = 0 → z + z' = 0 → change b c' z' (change b c z m) = m.
Proof. intros Hm Hc Hz. rewrite change_change, Hc, Hz. by apply change_zero. Qed.

(** [base] has the values before the batch and [initial] says which slots are new
    in it. *)
Context (base : StorageKey → H256) (initial : StorageKey → bool).
Implicit Types (m : gmap StorageKey ModifiedSlot.t) (cur : gmap StorageKey H256).

Definition total m : Z := map_fold (λ _ slot acc, ModifiedSlot.size slot + acc) 0 m.
Definition count (b : bool) m : Z := Z.of_nat (stdpp.base.size (filter (λ kv, initial kv.1 = b) m)).
Definition count_metrics m : WritesMetrics := {|
  initial_storage_writes := wrap 64 (count true m);
  repeated_storage_writes := wrap 64 (count false m);
  total_updated_values_size := wrap 64 (total m);
|}.

Lemma total_insert m k slot : m !! k = None → total (<[k:=slot]> m) = ModifiedSlot.size slot + total m.
Proof. intros Hk. unfold total. by rewrite map_fold_insert_L by (done || (intros; lia)). Qed.

Lemma count_insert b m k slot :
  m !! k = None → count b (<[k:=slot]> m) = (if decide (initial k = b) then 1 else 0) + count b m.
Proof.
  intros Hk. unfold count. rewrite map_filter_insert. cbn [fst]. case_decide as Hi.
  - rewrite map_size_insert_None; [lia|]. by apply map_lookup_filter_None_2; left.
  - by rewrite delete_id.
Qed.

Lemma count_metrics_ok m : metrics_ok (count_metrics m).
Proof. unfold metrics_ok. cbn. split_and!; apply wrap_in_width; lia. Qed.

Lemma count_metrics_insert m k slot :
  m !! k = None → count_metrics (<[k:=slot]> m) = change (initial k) 1 (ModifiedSlot.size slot) (count_metrics m).
Proof.
  intros Hk. unfold count_metrics, change. rewrite total_insert, !count_insert by done.
  destruct (initial k); rewrite ?decide_True, ?decide_False by done; cbn [initial_storage_writes repeated_storage_writes total_updated_values_size];
    rewrite !wrap_wrap_add, ?Z.add_0_l; f_equal; f_equal; repeat case_decide; done || lia.
Qed.

Lemma count_metrics_delete m k slot :
  m !! k = Some slot → count_metrics (delete k m) = change (initial k) (-1) (- ModifiedSlot.size slot) (count_metrics m).
Proof.
  intros Hk. rewrite <- (insert_delete_id m k slot) at 2 by done. rewrite count_metrics_insert by apply lookup_delete_eq.
  symmetry. apply change_undo; [apply count_metrics_ok|lia|lia].
Qed.

Lemma count_metrics_update m k old slot :
  m !! k = Some old →
  count_metrics (<[k:=slot]> m) = change (initial k) 0 (- ModifiedSlot.size old + ModifiedSlot.size slot) (count_metrics m).
Proof.
  intros Hk. rewrite <- insert_delete_eq, count_metrics_insert by apply lookup_delete_eq.
  by rewrite (count_metrics_delete m k old), change_change.
Qed.

(** The slots written so far with their values, and the net change they make. *)
Definition value_of cur (k : StorageKey) : H256 := from_option id (base k) (cur !! k).
Definition slot_size (k : StorageKey) (v : H256) : Z := Z.of_nat (length (compress_with_best_strategy (base k) v)).
Definition net cur : gmap StorageKey ModifiedSlot.t :=
  map_imap (λ k v, if decide (base k = v) then None else Some (ModifiedSlot.mk v (slot_size k v))) cur.

Definition write cur (log : PrevLog) : gmap StorageKey H256 :=
  let entry := StorageLogWithPreviousValue.log log in
  if StorageLog.is_write entry then <[StorageLog.key entry := StorageLog.value entry]> cur else cur.

(** A log as the virtual machine produces it: a write has the slot's value before it,
    and is initial when the slot is new in the batch. *)
Definition log_ok cur (log : PrevLog) : Prop :=
  let entry := StorageLogWithPreviousValue.log log in
  StorageLog.is_write entry = true →
  StorageLogWithPreviousValue.previous_value log = value_of cur (StorageLog.key entry) ∧
  StorageLog.kind entry = (if initial (StorageLog.key entry) then InitialWrite else RepeatedWrite).
Fixpoint logs_ok cur (logs : list PrevLog) : Prop :=
  match logs with [] => True | log :: logs => log_ok cur log ∧ logs_ok (write cur log) logs end.

(** The deduplicator's state after the writes in [cur]. *)
Record counted (self : t) cur : Prop := {
  co_initial : ∀ k v, initial_values self !! k = Some v → v = base k;
  co_written : ∀ k, initial_values self !! k = None → cur !! k = None;
  co_modified : modified_key_values self = net cur;
  co_metrics : metrics self = count_metrics (net cur);
}.

Lemma lookup_net cur k :
  net cur !! k = (v ← cur !! k; if decide (base k = v) then None else Some (ModifiedSlot.mk v (slot_size k v))).
Proof. unfold net. by rewrite map_lookup_imap. Qed.

Lemma net_insert cur k v :
  net (<[k:=v]> cur) =
  if decide (base k = v) then delete k (net cur) else <[k := ModifiedSlot.mk v (slot_size k v)]> (net cur).
Proof.
  apply map_eq. intros j. rewrite lookup_net. destruct (decide (k = j)) as [<-|Hne].
  - rewrite lookup_insert_eq. cbn. case_decide; [by rewrite lookup_delete_eq|by rewrite lookup_insert_eq].
  - rewrite lookup_insert_ne by done. rewrite <- lookup_net. case_decide; [by rewrite lookup_delete_ne|by rewrite lookup_insert_ne].
Qed.

Lemma change_net_insert cur k v old : net cur !! k = old → base k ≠ v →
  count_metrics (<[k := ModifiedSlot.mk v (slot_size k v)]> (net cur)) =
  match old with
  | Some old => change (initial k) 0 (- ModifiedSlot.size old + slot_size k v) (count_metrics (net cur))
  | None => change (initial k) 1 (slot_size k v) (count_metrics (net cur))
  end.
Proof. intros Hk Hv. destruct old as [old|]; [by apply (count_metrics_update _ _ old)|by apply count_metrics_insert]. Qed.

(** One write. *)
Lemma process_log_counted self cur log updates :
  counted self cur → log_ok cur log → StorageLog.is_write (StorageLogWithPreviousValue.log log) = true →
  ∃ self' items, process_storage_log (self, updates) log = Ret (self', updates ++ items) ∧ counted self' (write cur log).
Proof.
  intros [Hi Hw Hm Hc] Hlog Hwrite. destruct (Hlog Hwrite) as [Hprev Hkind].
  destruct log as [[kind key value] prev]. unfold process_storage_log. cbn in *. 
  set (iv := match (initial_values self !! key : option H256) with Some _ => initial_values self | None => <[key := prev]> (initial_values self) end).
  assert (Hiv : iv !! key = Some (base key)).
  { subst iv. destruct (initial_values self !! key) as [v|] eqn:E; [by rewrite E, (Hi _ _ E)|].
    rewrite lookup_insert_eq, Hprev. unfold value_of. by rewrite (Hw _ E). }
  assert (Hiv1 : ∀ k v, iv !! k = Some v → v = base k).
  { intros k v. destruct (decide (key = k)) as [<-|Hne]; [rewrite Hiv; congruence|]. subst iv.
    destruct (initial_values self !! key); [auto|]. rewrite lookup_insert_ne by done. auto. }
  assert (Hiv2 : ∀ k, iv !! k = None → <[key:=value]> cur !! k = None).
  { intros k Hk. destruct (decide (key = k)) as [<-|Hne]; [congruence|]. rewrite lookup_insert_ne by done. apply Hw.
    subst iv. destruct (initial_values self !! key); [done|]. by rewrite lookup_insert_ne in Hk. }
  assert (Hb : bool_decide (kind = InitialWrite) = initial key) by (rewrite Hkind; by destruct (initial key)).
  rewrite Hiv. cbn [expect mbind exec_bind]. rewrite Hb, Hm. clear Hb. unfold write. cbn. rewrite Hwrite.
  pose proof (net_insert cur key value) as Hnet.
  destruct (decide (base key = value)) as [He|He]; case_bool_decide as Hmod.
  - destruct Hmod as [slot Hslot]. rewrite Hslot. cbn [expect mbind exec_bind]. eexists _, [_]. split; [done|].
    split; cbn; [exact Hiv1|exact Hiv2|done|]. by rewrite Hnet, (count_metrics_delete _ _ slot), Hc.
  - apply eq_None_not_Some in Hmod. eexists _, []. split; [by rewrite app_nil_r|].
    split; cbn; [exact Hiv1|exact Hiv2|..]; by rewrite Hnet, delete_id.
  - destruct Hmod as [slot Hslot]. rewrite Hslot. cbn [expect mbind exec_bind]. eexists _, [_]. split; [done|].
    split; cbn; [exact Hiv1|exact Hiv2|done|]. by rewrite Hnet, (change_net_insert _ _ _ _ Hslot He), Hc.
  - apply eq_None_not_Some in Hmod. eexists _, [_]. split; [done|].
    split; cbn; [exact Hiv1|exact Hiv2|done|]. by rewrite Hnet, (change_net_insert _ _ _ _ Hmod He), Hc.
Qed.

Lemma process_logs_counted logs self cur updates :
  counted self cur → logs_ok cur logs →
  ∃ self' items, foldM process_storage_log (self, updates) (filter (λ log, StorageLog.is_write (StorageLogWithPreviousValue.log log)) logs)
      = Ret (self', updates ++ items) ∧ counted self' (foldl write cur logs).
Proof.
  revert self cur updates. induction logs as [|log logs IH]; intros self cur updates Hco Hlogs; cbn [foldl].
  { exists self, []. by rewrite app_nil_r. }
  destruct Hlogs as [Hlog Hlogs]. rewrite filter_cons.
  destruct (StorageLog.is_write (StorageLogWithPreviousValue.log log)) eqn:Hw; cbn [decide foldM].
  - rewrite decide_True by done. cbn [foldM]. destruct (process_log_counted self cur log updates Hco Hlog Hw) as (self1 & items1 & -> & Hco1). cbn [mbind exec_bind].
    destruct (IH self1 (write cur log) (updates ++ items1) Hco1 Hlogs) as (self' & items & -> & Hco').
    exists self', (items1 ++ items). by rewrite app_assoc.
  - rewrite decide_False by (by intros []). assert (Hsame : write cur log = cur) by (unfold write; by rewrite Hw).
    rewrite Hsame in *. apply (IH self cur updates Hco Hlogs).
Qed.

(** Rolling back a write restores the changed slots and the counts, whatever the
    recorded initial values. *)
Lemma process_log_undo self log updates self' updates' :
  metrics_ok (metrics self) → process_storage_log (self, updates) log = Ret (self', updates') →
  metrics_ok (metrics self') ∧ ∃ items, updates' = updates ++ items ∧ ∀ iv,
    foldM rollback_item (mk iv (modified_key_values self') (metrics self')) (reverse items) =
    Ret (mk iv (modified_key_values self) (metrics self)).
Proof.
  intros Hm Hp. destruct log as [[kind key value] prev]. unfold process_storage_log in Hp. cbn in Hp.
  apply bind_Ret_inv in Hp as (init & _ & Hp). set (b := bool_decide (kind = InitialWrite)) in Hp.
  case_bool_decide as Hmod; case_decide.
  - destruct Hmod as [slot Hslot]. rewrite Hslot in Hp. injection Hp as <- <-. cbn. split; [by apply change_ok|].
    eexists [_]. split; [done|]. intros iv. cbn. rewrite change_undo by (done || lia). by rewrite insert_delete_id.
  - destruct Hmod as [slot Hslot]. rewrite Hslot in Hp. injection Hp as <- <-. cbn. split; [by apply change_ok|].
    eexists [_]. split; [done|]. intros iv. cbn. rewrite lookup_insert_eq. cbn. rewrite change_undo by (done || lia). by rewrite insert_insert_eq, insert_id.
  - injection Hp as <- <-. split; [done|]. exists []. split; [by rewrite app_nil_r|done].
  - apply eq_None_not_Some in Hmod. injection Hp as <- <-. cbn. split; [by apply change_ok|].
    eexists [_]. split; [done|]. intros iv. cbn. rewrite lookup_insert_eq. cbn. rewrite change_undo by (done || lia). by rewrite delete_insert_id.
Qed.

Lemma process_logs_undo logs self updates self' updates' :
  metrics_ok (metrics self) → foldM process_storage_log (self, updates) logs = Ret (self', updates') →
  ∃ items, updates' = updates ++ items ∧ ∀ iv,
    foldM rollback_item (mk iv (modified_key_values self') (metrics self')) (reverse items) =
    Ret (mk iv (modified_key_values self) (metrics self)).
Proof.
  revert self updates. induction logs as [|log logs IH]; intros self updates Hm Hp; cbn in Hp.
  { injection Hp as <- <-. exists []. by rewrite app_nil_r. }
  apply bind_Ret_inv in Hp as ([self1 updates1] & H1 & Hp). destruct (process_log_undo _ _ _ _ _ Hm H1) as (Hm1 & items1 & -> & Hun1).
  destruct (IH self1 _ Hm1 Hp) as (items & -> & Hun). exists (items1 ++ items). split; [by rewrite app_assoc|].
  intros iv. rewrite reverse_app, foldM_app, Hun. cbn [mbind exec_bind]. apply Hun1.
Qed.

Lemma apply_counted self cur logs :
  counted self cur → logs_ok cur logs →
  ∃ self', apply self logs = Ret self' ∧ counted self' (foldl write cur logs).
Proof.
  intros Hco Hlogs. unfold apply, process_storage_logs.
  destruct (process_logs_counted logs self cur [] Hco Hlogs) as (self' & items & -> & Hco'). cbn. eauto.
Qed.

Lemma apply_and_rollback_counted self cur logs :
  counted self cur → logs_ok cur logs →
  ∃ self', apply_and_rollback self logs = Ret (self', count_metrics (net (foldl write cur logs))) ∧ counted self' cur.
Proof.
  intros Hco Hlogs. unfold apply_and_rollback, process_storage_logs.
  destruct (process_logs_counted logs self cur [] Hco Hlogs) as (self1 & items & Hp & Hco1).
  assert (Hm : metrics_ok (metrics self)) by (rewrite (co_metrics _ _ Hco); apply count_metrics_ok).
  destruct (process_logs_undo _ _ _ _ _ Hm Hp) as (items' & Heq & Hun). cbn in Heq. subst items'.
  rewrite Hp. cbn [mbind exec_bind app]. unfold rollback. destruct self1 as [iv1 mod1 met1]. cbn in Hun. rewrite (Hun iv1). cbn.
  rewrite (co_metrics _ _ Hco1 : met1 = _). eexists. split; [done|]. destruct Hco as [_ _ Hmod Hmet], Hco1 as [Hi1 Hw1 _ _].
  split; cbn; [exact Hi1| |exact Hmod|exact Hmet]. intros k Hk. specialize (Hw1 k Hk). clear -Hw1.
  revert cur Hw1. induction logs as [|log logs IH]; intros cur Hk; [done|]. apply IH in Hk. unfold write in Hk.
  case_match; [|done]. destruct (decide (StorageLog.key (StorageLogWithPreviousValue.log log) = k)) as [<-|Hne]; [by rewrite lookup_insert_eq in Hk|by rewrite lookup_insert_ne in Hk].
Qed.

(** A batch: transactions that are added to it, and ones that are only tried. *)
Inductive dedup_op := Apply (logs : list PrevLog) | Try (logs : list PrevLog).

Definition exec_op (self : t) (op : dedup_op) : exec (t * WritesMetrics) :=
  match op with
  | Apply logs => self ← apply self logs; Ret (self, metrics self)
  | Try logs => apply_and_rollback self logs
  end.
Fixpoint exec_ops (self : t) (ops : list dedup_op) : exec (t * list WritesMetrics) :=
  match ops with
  | [] => Ret (self, [])
  | op :: ops =>
      '(self, m) ← exec_op self op;
      '(self, ms) ← exec_ops self ops;
      Ret (self, m :: ms)
  end.

Fixpoint ops_ok cur (ops : list dedup_op) : Prop :=
  match ops with
  | [] => True
  | Apply logs :: ops => logs_ok cur logs ∧ ops_ok (foldl write cur logs) ops
  | Try logs :: ops => logs_ok cur logs ∧ ops_ok cur ops
  end.

(** What should be counted, from the values alone. *)
Fixpoint spec_ops cur (ops : list dedup_op) : gmap StorageKey H256 * list WritesMetrics :=
  match ops with
  | [] => (cur, [])
  | Apply logs :: ops =>
      let cur := foldl write cur logs in
      let '(cur', ms) := spec_ops cur ops in (cur', count_metrics (net cur) :: ms)
  | Try logs :: ops =>
      let '(cur', ms) := spec_ops cur ops in (cur', count_metrics (net (foldl write cur logs)) :: ms)
  end.

Lemma counted_new : counted new ∅.
Proof. by split. Qed.

Lemma exec_ops_counted self cur ops :
  counted self cur → ops_ok cur ops →
  ∃ self', exec_ops self ops = Ret (self', (spec_ops cur ops).2) ∧ counted self' (spec_ops cur ops).1.
Proof.
  revert self cur. induction ops as [|[logs|logs] ops IH]; intros self cur Hco Hok; [by exists self|..]; destruct Hok as [Hlogs Hok].
  - destruct (apply_counted self cur logs Hco Hlogs) as (self1 & Ha & Hco1).
    destruct (IH self1 _ Hco1 Hok) as (self' & Hr & Hco'). exists self'. cbn. rewrite Ha. cbn. rewrite Hr. cbn.
    destruct (spec_ops (foldl write cur logs) ops) as [cur' ms]. by rewrite (co_metrics _ _ Hco1).
  - destruct (apply_and_rollback_counted self cur logs Hco Hlogs) as (self1 & Ha & Hco1).
    destruct (IH self1 _ Hco1 Hok) as (self' & Hr & Hco'). exists self'. cbn. rewrite Ha. cbn. rewrite Hr. cbn.
    by destruct (spec_ops cur ops) as [cur' ms].
Qed.

(** C13 However transactions are added and tried, the deduplicator does not panic, its
    counts after each of them are those of the slots whose value differs from the one
    before the batch, split into new and known ones, with the size of their compressed
    values; and in the end it holds exactly those slots. Trying a transaction leaves no
    trace in them. *)
Theorem deduplicator_counts_net_change (ops : list dedup_op) :
  ops_ok ∅ ops →
  ∃ self, exec_ops new ops = Ret (self, (spec_ops ∅ ops).2) ∧
    modified_key_values self = net (spec_ops ∅ ops).1 ∧ metrics self = count_metrics (net (spec_ops ∅ ops).1).
Proof.
  intros Hok. destruct (exec_ops_counted new ∅ ops counted_new Hok) as (self & Hr & [_ _ Hm Hc]). eauto.
Qed.

(** A transaction tried on a batch without one has the counts it has on its own. *)
Lemma first_counts_alone self logs :
  counted self ∅ → logs_ok ∅ logs →
  ∃ self' (m : WritesMetrics), apply_and_rollback self logs = Ret (self', m) ∧ counted self' ∅ ∧ apply_on_empty_state logs = Ret m.
Proof.
  intros Hco Hlogs. destruct (apply_and_rollback_counted self ∅ logs Hco Hlogs) as (self' & Ha & Hco').
  exists self', (count_metrics (net (foldl write ∅ logs))). split; [done|]. split; [done|]. unfold apply_on_empty_state.
  destruct (apply_counted new ∅ logs counted_new Hlogs) as (self1 & -> & Hco1). cbn. by rewrite (co_metrics _ _ Hco1).
Qed.
End counting.

(** A slot written and put back, one changed twice, and a transaction tried between. *)
Definition sample_base (k : StorageKey) : H256 := if decide (k = (1, 1)) then 10 else 0.
Definition sample_initial (k : StorageKey) : bool := bool_decide (k ≠ (1, 1)).
Definition sample_log (k : StorageKey) (prev value : Z) : PrevLog :=
  StorageLogWithPreviousValue.mk (StorageLog.mk (if sample_initial k then InitialWrite else RepeatedWrite) k value) prev.
Definition sample_dedup_ops : list dedup_op :=
  [Apply [sample_log (1, 1) 10 11; sample_log (2, 5) 0 7];
   Try [sample_log (1, 1) 11 10; sample_log (3, 3) 0 1];
   Apply [sample_log (2, 5) 7 0; sample_log (3, 3) 0 (2 ^ 250)]].

Lemma deduplicator_counts_net_change_witness :
  ∃ self, exec_ops StorageWritesDeduplicator.new sample_dedup_ops = Ret (self, (spec_ops sample_base sample_initial ∅ sample_dedup_ops).2) ∧
    StorageWritesDeduplicator.modified_key_values self = net sample_base (spec_ops sample_base sample_initial ∅ sample_dedup_ops).1 ∧
    StorageWritesDeduplicator.metrics self = count_metrics sample_initial (net sample_base (spec_ops sample_base sample_initial ∅ sample_dedup_ops).1).
Proof. apply deduplicator_counts_net_change. repeat split. Defined.
