(* ===== verification/Float.v ===== *)
(** * Floating point

    [f64] and [f32] as IEEE 754 binary64 and binary32 with the standard library's
    executable specification of their rounded operations, and Rust's conversions to
    and from unsigned integers, which saturate. *)
From Stdlib Require Import Floats.SpecFloat.
From S2P Require Import Prelude.
Local Open Scope Z_scope.

Definition float := spec_float.

Definition f64_of_int (n : Z) : float := binary_normalize 53 1024 n 0 false.
Definition f64_mul : float → float → float := SFmul 53 1024.
Definition f64_add : float → float → float := SFadd 53 1024.
Definition f64_div : float → float → float := SFdiv 53 1024.
Definition f32_add : float → float → float := SFadd 24 128.

(** A decimal literal [n / 10 ^ k], correctly rounded for [n < 2 ^ 53] and
    [k <= 22], when both are exact. *)
Definition f64_lit (n k : Z) : float := f64_div (f64_of_int n) (f64_of_int (10 ^ k)).

(** [x as uN]: towards zero, saturating; [NaN] is zero. *)
Definition saturate (w z : Z) : Z := Z.max 0 (Z.min z (2 ^ w - 1)).
Definition signed (s : bool) (z : Z) : Z := if s then - z else z.

Definition float_to_uint (w : Z) (x : float) : Z :=
  match x with
  | S754_zero _ | S754_nan => 0
  | S754_infinity s => if s then 0 else 2 ^ w - 1
  | S754_finite s m e => saturate w (signed s (Z.shiftl (Zpos m) e))
  end.

(** [x.round() as uN]: to the nearest integer, halves away from zero. *)
Definition round_to_uint (w : Z) (x : float) : Z :=
  match x with
  | S754_finite s m e =>
      if decide (0 ≤ e) then saturate w (signed s (Z.shiftl (Zpos m) e))
      else saturate w (signed s ((Z.shiftl (Zpos m) (e + 1) + 1) / 2))
  | _ => float_to_uint w x
  end.

(** [x.ceil() as uN]. *)
Definition ceil_to_uint (w : Z) (x : float) : Z :=
  match x with
  | S754_finite s m e =>
      if decide (0 ≤ e) then saturate w (signed s (Z.shiftl (Zpos m) e))
      else saturate w (- (signed (negb s) (Zpos m) / 2 ^ (- e)))
  | _ => float_to_uint w x
  end.

Lemma saturate_width w z : 0 ≤ w → in_width w (saturate w z).
Proof. intros Hw. unfold saturate, in_width. pose proof (Z.pow_pos_nonneg 2 w). lia. Qed.

Lemma round_to_uint_width w x : 0 ≤ w → in_width w (round_to_uint w x).
Proof.
  intros Hw. pose proof (Z.pow_pos_nonneg 2 w). destruct x as [|[]| |s m e]; cbn; try (split; lia); case_decide; by apply saturate_width.
Qed.

Lemma ceil_to_uint_width w x : 0 ≤ w → in_width w (ceil_to_uint w x).
Proof.
  intros Hw. pose proof (Z.pow_pos_nonneg 2 w). destruct x as [|[]| |s m e]; cbn; try (split; lia); case_decide; by apply saturate_width.
Qed.
