(* ===== verification/VmLimits.v ===== *)
(** * Protocol versions and the limits of their virtual machines

    [lib/basic_types/src/{protocol_version,vm}.rs] and the constants that
    [lib/multivm/src/utils/mod.rs] selects by version, from the [constants.rs] of
    each version. Two of the oldest versions take the size of their heap from the
    [zk_evm] library, which is the class [ZkEvmParams]. *)
From S2P Require Import Prelude Types.
Local Open Scope Z_scope.

(** ** Protocol versions

    [ProtocolVersionId] is the number of the version; the enum has those below 26. *)
Abbreviation ProtocolVersionId := Z (only parsing).
Definition latest : ProtocolVersionId := 24.

Inductive VmVersion :=
| M5WithoutRefunds
| M5WithRefunds
| M6Initial
| M6BugWithCompressionFixed
| Vm1_3_2
| VmVirtualBlocks
| VmVirtualBlocksRefundsEnhancement
| VmBoojumIntegration
| Vm1_4_1
| Vm1_4_2
| Vm1_5_0SmallBootloaderMemory
| Vm1_5_0IncreasedBootloaderMemory.

Definition is_pre_boojum (v : ProtocolVersionId) : bool := bool_decide (v ≤ 17).
Definition is_pre_shared_bridge (v : ProtocolVersionId) : bool := bool_decide (v ≤ 22).
Definition is_post_1_4_1 (v : ProtocolVersionId) : bool := bool_decide (20 ≤ v).

(** [impl From<ProtocolVersionId> for VmVersion] *)
Definition vm_version (v : ProtocolVersionId) : VmVersion :=
  if decide (v ≤ 1) then M5WithoutRefunds
  else if decide (v ≤ 3) then M5WithRefunds
  else if decide (v = 4) then M6Initial
  else if decide (v ≤ 6) then M6BugWithCompressionFixed
  else if decide (v ≤ 12) then Vm1_3_2
  else if decide (v ≤ 15) then VmVirtualBlocks
  else if decide (v ≤ 17) then VmVirtualBlocksRefundsEnhancement
  else if decide (v ≤ 19) then VmBoojumIntegration
  else if decide (v = 20) then Vm1_4_1
  else if decide (v ≤ 22) then Vm1_4_2
  else if decide (v = 23) then Vm1_5_0SmallBootloaderMemory
  else Vm1_5_0IncreasedBootloaderMemory.

(** ** The bootloader's memory

    Every version lays out its memory as a sequence of regions, in words, of which
    transaction encodings take what is left at the end. *)
Class ZkEvmParams := { max_heap_page_size_in_words : VmVersion → Z }.

Definition MAX_NEW_FACTORY_DEPS : Z := 32.
Definition MAX_L2_TX_GAS_LIMIT : Z := 80000000.

Section limits.
Context `{ZkEvmParams}.

Definition get_bootloader_max_txs_in_batch (version : VmVersion) : Z :=
  match version with
  | M5WithRefunds | M5WithoutRefunds | M6Initial | M6BugWithCompressionFixed | Vm1_3_2
  | VmVirtualBlocks | VmVirtualBlocksRefundsEnhancement | VmBoojumIntegration => 1024
  | Vm1_4_1 | Vm1_4_2 | Vm1_5_0SmallBootloaderMemory | Vm1_5_0IncreasedBootloaderMemory => 10000
  end.

Definition get_used_bootloader_memory_bytes (version : VmVersion) : Z :=
  match version with
  | Vm1_4_1 => 24000000
  | Vm1_4_2 => 30000000
  | Vm1_5_0SmallBootloaderMemory => 59000000
  | Vm1_5_0IncreasedBootloaderMemory => 63800000
  | _ => Z.shiftl 1 24
  end.

(** For versions 1.5.0 the function of [utils/mod.rs] selects the number of bytes. *)
Definition get_used_bootloader_memory_words (version : VmVersion) : Z :=
  match version with
  | Vm1_5_0SmallBootloaderMemory | Vm1_5_0IncreasedBootloaderMemory => get_used_bootloader_memory_bytes version
  | _ => get_used_bootloader_memory_bytes version / 32
  end.

(** [OPERATOR_REFUNDS_OFFSET]: debug slots, the paymaster's context, the hashes of the
    current transaction and the factory dependencies. *)
Definition OPERATOR_REFUNDS_OFFSET : Z := 8 + 32 + (32 + 1) + 2 + (MAX_NEW_FACTORY_DEPS + 4).
Definition MAX_POSTOP_SLOTS : Z := (32 + 1) + 7.
Definition BOOTLOADER_TX_DESCRIPTION_SIZE : Z := 2.

(** Refunds and overheads, and from version M6 on trusted gas limits: a slot for each
    transaction. *)
Definition COMPRESSED_BYTECODES_OFFSET (version : VmVersion) : Z :=
  let max_txs := get_bootloader_max_txs_in_batch version in
  match version with
  | M5WithRefunds | M5WithoutRefunds => OPERATOR_REFUNDS_OFFSET + 2 * max_txs
  | M6Initial | M6BugWithCompressionFixed | Vm1_3_2 => OPERATOR_REFUNDS_OFFSET + 3 * max_txs
  | _ => OPERATOR_REFUNDS_OFFSET + 3 * max_txs + (max_txs + 1) * 4
  end.
Definition COMPRESSED_BYTECODES_SLOTS (version : VmVersion) : Z :=
  match version with
  | M5WithRefunds | M5WithoutRefunds => 0
  | Vm1_4_2 => 65536
  | Vm1_5_0SmallBootloaderMemory | Vm1_5_0IncreasedBootloaderMemory => 196608
  | _ => 32768
  end.

(** [PRIORITY_TXS_L1_DATA_SLOTS] and [OPERATOR_PROVIDED_L1_MESSENGER_PUBDATA_SLOTS]. *)
Definition MESSENGER_PUBDATA_SLOTS (version : VmVersion) : Z :=
  match version with
  | VmBoojumIntegration | Vm1_4_1 => 2 + 208000
  | Vm1_4_2 => 2 + 451000
  | Vm1_5_0SmallBootloaderMemory | Vm1_5_0IncreasedBootloaderMemory => 2 + 1360000
  | _ => 0
  end.

Definition TX_DESCRIPTION_OFFSET (version : VmVersion) : Z :=
  COMPRESSED_BYTECODES_OFFSET version + COMPRESSED_BYTECODES_SLOTS version + MESSENGER_PUBDATA_SLOTS version
  + BOOTLOADER_TX_DESCRIPTION_SIZE * get_bootloader_max_txs_in_batch version + MAX_POSTOP_SLOTS.

Definition get_bootloader_encoding_space (version : VmVersion) : Z :=
  let words := match version with
    | M5WithRefunds | M5WithoutRefunds | M6Initial | M6BugWithCompressionFixed => max_heap_page_size_in_words version
    | _ => get_used_bootloader_memory_bytes version / 32
    end in
  wrap 32 (wrap 64 (words - TX_DESCRIPTION_OFFSET version - get_bootloader_max_txs_in_batch version)).

(** ** Reserves for the end of a batch *)
Definition gas_bootloader_batch_tip_overhead (version : VmVersion) : Z :=
  match version with
  | VmBoojumIntegration | Vm1_4_1 => 80000000
  | Vm1_4_2 => 170000000
  | Vm1_5_0SmallBootloaderMemory | Vm1_5_0IncreasedBootloaderMemory => 400000000
  | _ => 0
  end.

Definition circuit_statistics_bootloader_batch_tip_overhead (version : VmVersion) : Z :=
  match version with
  | Vm1_4_2 => 5000
  | Vm1_5_0SmallBootloaderMemory | Vm1_5_0IncreasedBootloaderMemory => 12000
  | _ => 0
  end.

Definition execution_metrics_bootloader_batch_tip_overhead (version : VmVersion) : Z :=
  match version with
  | Vm1_4_2 => 1500
  | Vm1_5_0SmallBootloaderMemory | Vm1_5_0IncreasedBootloaderMemory => 2000
  | _ => 0
  end.

Definition get_max_batch_base_layer_circuits (version : VmVersion) : Z :=
  match version with
  | Vm1_5_0SmallBootloaderMemory | Vm1_5_0IncreasedBootloaderMemory => 34100
  | _ => 24100
  end.

(** [MAX_L2_TX_GAS_LIMIT / GUARANTEED_PUBDATA_PER_L1_BATCH], but for 1.5.0. *)
Definition get_max_gas_per_pubdata_byte (version : VmVersion) : Z :=
  match version with
  | Vm1_4_1 | Vm1_4_2 => MAX_L2_TX_GAS_LIMIT / 2500
  | Vm1_5_0SmallBootloaderMemory | Vm1_5_0IncreasedBootloaderMemory => 50000
  | _ => MAX_L2_TX_GAS_LIMIT / 4000
  end.
End limits.
