(* ===== verification/FeeModel.v ===== *)
(** * The fee model

    Base fee and gas per pubdata byte of a batch from its fee input, for every version
    of the virtual machine ([lib/multivm/src/utils/mod.rs] and the [fee.rs] of the
    versions), fee inputs ([lib/types/src/fee_model.rs]) and the providers of fee
    inputs ([node/fee_model], [node/via_fee_model]). [U256] arithmetic panics on
    overflow, as does [as_u64]; [u64] arithmetic wraps. The [bigdecimal] library is
    the class [BigDecimalLib]. *)
From S2P Require Import Prelude Types VmLimits Float.
Local Open Scope Z_scope.

Definition L1_GAS_PER_PUBDATA_BYTE : Z := 17.

(** [zksync_utils::ceil_div]; division by zero panics. *)
Definition ceil_div (a b : Z) : exec Z :=
  if decide (a = 0) then Ret a
  else if decide (b = 0) then Panic
  else Ret ((a - 1) / b + 1).

Definition ceil_div_u256 (a b : U256) : exec U256 :=
  if decide (2 ^ 256 ≤ a + b) then Panic
  else if decide (a + b < 1) then Panic
  else if decide (b = 0) then Panic
  else Ret ((a + b - 1) / b).

Definition as_u64 (z : U256) : exec Z := if decide (z < 2 ^ 64) then Ret z else Panic.

(** ** Fee inputs *)
Module BatchFeeInput.
Definition l1_pegged (l1_gas_price fair_l2_gas_price : Z) : BatchFeeInput :=
  L1Pegged (L1PeggedBatchFeeModelInput.mk fair_l2_gas_price l1_gas_price).
Definition pubdata_independent (l1_gas_price fair_l2_gas_price fair_pubdata_price : Z) : BatchFeeInput :=
  PubdataIndependent (PubdataIndependentBatchFeeModelInput.mk fair_l2_gas_price fair_pubdata_price l1_gas_price).

Definition into_l1_pegged (self : BatchFeeInput) : exec L1PeggedBatchFeeModelInput.t :=
  match self with
  | L1Pegged input => Ret input
  | PubdataIndependent _ => Panic
  end.

Definition into_pubdata_independent (self : BatchFeeInput) : PubdataIndependentBatchFeeModelInput.t :=
  match self with
  | PubdataIndependent input => input
  | L1Pegged input => {|
      PubdataIndependentBatchFeeModelInput.fair_l2_gas_price := L1PeggedBatchFeeModelInput.fair_l2_gas_price input;
      PubdataIndependentBatchFeeModelInput.fair_pubdata_price := wrap 64 (L1PeggedBatchFeeModelInput.l1_gas_price input * L1_GAS_PER_PUBDATA_BYTE);
      PubdataIndependentBatchFeeModelInput.l1_gas_price := L1PeggedBatchFeeModelInput.l1_gas_price input;
    |}
  end.

Definition fair_pubdata_price (self : BatchFeeInput) : Z :=
  match self with
  | L1Pegged input => wrap 64 (L1PeggedBatchFeeModelInput.l1_gas_price input * L1_GAS_PER_PUBDATA_BYTE)
  | PubdataIndependent input => PubdataIndependentBatchFeeModelInput.fair_pubdata_price input
  end.
Definition fair_l2_gas_price (self : BatchFeeInput) : Z :=
  match self with
  | L1Pegged input => L1PeggedBatchFeeModelInput.fair_l2_gas_price input
  | PubdataIndependent input => PubdataIndependentBatchFeeModelInput.fair_l2_gas_price input
  end.
Definition l1_gas_price (self : BatchFeeInput) : Z :=
  match self with
  | L1Pegged input => L1PeggedBatchFeeModelInput.l1_gas_price input
  | PubdataIndependent input => PubdataIndependentBatchFeeModelInput.l1_gas_price input
  end.

Definition for_protocol_version (protocol_version : ProtocolVersionId) (fair_l2_gas_price : Z)
    (fair_pubdata_price : option Z) (l1_gas_price : Z) : exec BatchFeeInput :=
  if is_post_1_4_1 protocol_version then
    price ← expect fair_pubdata_price;
    Ret (PubdataIndependent (PubdataIndependentBatchFeeModelInput.mk fair_l2_gas_price price l1_gas_price))
  else Ret (L1Pegged (L1PeggedBatchFeeModelInput.mk fair_l2_gas_price l1_gas_price)).

Definition stricter (self other : BatchFeeInput) : BatchFeeInput :=
  match self, other with
  | L1Pegged first, L1Pegged second =>
      l1_pegged (Z.max (L1PeggedBatchFeeModelInput.l1_gas_price first) (L1PeggedBatchFeeModelInput.l1_gas_price second))
                (Z.max (L1PeggedBatchFeeModelInput.fair_l2_gas_price first) (L1PeggedBatchFeeModelInput.fair_l2_gas_price second))
  | _, _ =>
      let first := into_pubdata_independent self in
      let second := into_pubdata_independent other in
      pubdata_independent
        (Z.max (PubdataIndependentBatchFeeModelInput.l1_gas_price first) (PubdataIndependentBatchFeeModelInput.l1_gas_price second))
        (Z.max (PubdataIndependentBatchFeeModelInput.fair_l2_gas_price first) (PubdataIndependentBatchFeeModelInput.fair_l2_gas_price second))
        (Z.max (PubdataIndependentBatchFeeModelInput.fair_pubdata_price first) (PubdataIndependentBatchFeeModelInput.fair_pubdata_price second))
  end.
End BatchFeeInput.

(** ** Base fee and gas per pubdata byte

    Versions before 1.4.1 derive the price of a byte from the L1 gas price. *)
Definition derive_l1_pegged (max_gas_per_pubdata_byte : Z) (input : L1PeggedBatchFeeModelInput.t) : exec (Z * Z) :=
  let eth_price_per_pubdata_byte := wrap 64 (L1PeggedBatchFeeModelInput.l1_gas_price input * L1_GAS_PER_PUBDATA_BYTE) in
  least ← ceil_div eth_price_per_pubdata_byte max_gas_per_pubdata_byte;
  let base_fee := Z.max (L1PeggedBatchFeeModelInput.fair_l2_gas_price input) least in
  gas_per_pubdata ← ceil_div eth_price_per_pubdata_byte base_fee;
  Ret (base_fee, gas_per_pubdata).

Definition derive_pubdata_independent (max_gas_per_pubdata_byte : Z) (input : PubdataIndependentBatchFeeModelInput.t) : exec (Z * Z) :=
  let fair_pubdata_price := PubdataIndependentBatchFeeModelInput.fair_pubdata_price input in
  least ← ceil_div fair_pubdata_price max_gas_per_pubdata_byte;
  let base_fee := Z.max (PubdataIndependentBatchFeeModelInput.fair_l2_gas_price input) least in
  gas_per_pubdata ← ceil_div fair_pubdata_price base_fee;
  Ret (base_fee, gas_per_pubdata).

Definition is_pubdata_independent (version : VmVersion) : bool :=
  match version with
  | Vm1_4_1 | Vm1_4_2 | Vm1_5_0SmallBootloaderMemory | Vm1_5_0IncreasedBootloaderMemory => true
  | _ => false
  end.

Definition derive_base_fee_and_gas_per_pubdata (batch_fee_input : BatchFeeInput) (version : VmVersion) : exec (Z * Z) :=
  if is_pubdata_independent version then
    derive_pubdata_independent (get_max_gas_per_pubdata_byte version) (BatchFeeInput.into_pubdata_independent batch_fee_input)
  else
    input ← BatchFeeInput.into_l1_pegged batch_fee_input;
    derive_l1_pegged (get_max_gas_per_pubdata_byte version) input.

Definition adjust_pubdata_price_for_tx (batch_fee_input : BatchFeeInput) (tx_gas_per_pubdata_limit : U256)
    (max_base_fee : option U256) (version : VmVersion) : exec BatchFeeInput :=
  let max_base_fee := default (2 ^ 256 - 1) max_base_fee in
  let desired_gas_per_pubdata := Z.min tx_gas_per_pubdata_limit (get_max_gas_per_pubdata_byte version) in
  '(current_base_fee, current_gas_per_pubdata) ← derive_base_fee_and_gas_per_pubdata batch_fee_input version;
  if decide (current_gas_per_pubdata ≤ desired_gas_per_pubdata ∧ current_base_fee ≤ max_base_fee) then Ret batch_fee_input
  else
    let current_l2_fair_gas_price := BatchFeeInput.fair_l2_gas_price batch_fee_input in
    let fair_l2_gas_price := if decide (max_base_fee < current_l2_fair_gas_price) then max_base_fee else current_l2_fair_gas_price in
    if decide (desired_gas_per_pubdata < 1) then Panic else
    match batch_fee_input with
    | L1Pegged _ =>
        l1_gas_price ← as_u64 (fair_l2_gas_price * (desired_gas_per_pubdata - 1) / 17);
        fair_l2_gas_price ← as_u64 fair_l2_gas_price;
        Ret (L1Pegged (L1PeggedBatchFeeModelInput.mk fair_l2_gas_price l1_gas_price))
    | PubdataIndependent fee_input =>
        fair_pubdata_price ← as_u64 (fair_l2_gas_price * (desired_gas_per_pubdata - 1));
        fair_l2_gas_price ← as_u64 fair_l2_gas_price;
        Ret (PubdataIndependent (PubdataIndependentBatchFeeModelInput.mk fair_l2_gas_price fair_pubdata_price
               (PubdataIndependentBatchFeeModelInput.l1_gas_price fee_input)))
    end.

(** ** Fee parameters and providers *)
Module FeeModelConfigV2.
Record t := mk {
  minimal_l2_gas_price : Z;
  compute_overhead_part : float;
  pubdata_overhead_part : float;
  batch_overhead_l1_gas : Z;
  max_gas_per_batch : Z;
  max_pubdata_per_batch : Z;
}.
End FeeModelConfigV2.

(** [FeeModelConfigV1] has the minimal L2 gas price alone. *)
Inductive FeeModelConfig := ConfigV1 (minimal_l2_gas_price : Z) | ConfigV2 (config : FeeModelConfigV2.t).

Module BaseTokenConversionRatio.
Record t := mk { numerator : Z; denominator : Z }.
Definition default : t := mk 1 1.
End BaseTokenConversionRatio.

Module FeeParamsV2.
Record t := mk {
  config : FeeModelConfigV2.t;
  l1_gas_price : Z;
  l1_pubdata_price : Z;
  conversion_ratio : BaseTokenConversionRatio.t;
}.
End FeeParamsV2.

(** [FeeParamsV1]: the minimal L2 gas price and the L1 gas price. *)
Inductive FeeParams := ParamsV1 (minimal_l2_gas_price l1_gas_price : Z) | ParamsV2 (params : FeeParamsV2.t).

(** [BigDecimal::from(price) * (BigDecimal::from(numerator) / BigDecimal::from(denominator))],
    as [to_u64] and as its comparison with [u64::MAX]. *)
Class BigDecimalLib := {
  scaled_to_u64 : Z → Z → Z → option Z;
  scaled_too_large : Z → Z → Z → bool;
}.
(** The decimal one is exact. *)
Class BigDecimalLaws `{BigDecimalLib} : Prop := {
  scaled_by_one : ∀ price, in_width 64 price → scaled_to_u64 1 1 price = Some price;
}.

Section providers.
Context `{BigDecimalLib}.

Definition convert_to_base_token (self : FeeParamsV2.t) (price_in_wei : Z) : exec Z :=
  let ratio := FeeParamsV2.conversion_ratio self in
  let numerator := BaseTokenConversionRatio.numerator ratio in
  let denominator := BaseTokenConversionRatio.denominator ratio in
  match scaled_to_u64 numerator denominator price_in_wei with
  | Some converted_price => Ret converted_price
  | None => if scaled_too_large numerator denominator price_in_wei then Ret u64_max else Panic
  end.

Definition l1_gas_price (self : FeeParamsV2.t) : exec Z := convert_to_base_token self (FeeParamsV2.l1_gas_price self).
Definition l1_pubdata_price (self : FeeParamsV2.t) : exec Z := convert_to_base_token self (FeeParamsV2.l1_pubdata_price self).

(** [node/fee_model]: the upstream node's computation. *)
Definition compute_batch_fee_model_input_v1 (minimal_l2_gas_price l1_gas_price : Z) (l1_gas_price_scale_factor : float) : L1PeggedBatchFeeModelInput.t :=
  L1PeggedBatchFeeModelInput.mk minimal_l2_gas_price (float_to_uint 64 (f64_mul (f64_of_int l1_gas_price) l1_gas_price_scale_factor)).

Definition compute_batch_fee_model_input_v2 (params : FeeParamsV2.t)
    (l1_gas_price_scale_factor l1_pubdata_price_scale_factor : float) : exec PubdataIndependentBatchFeeModelInput.t :=
  let config := FeeParamsV2.config params in
  minimal_l2_gas_price ← convert_to_base_token params (FeeModelConfigV2.minimal_l2_gas_price config);
  l1_gas_price ← l1_gas_price params;
  l1_pubdata_price ← l1_pubdata_price params;
  let l1_gas_price := float_to_uint 64 (f64_mul (f64_of_int l1_gas_price) l1_gas_price_scale_factor) in
  let l1_pubdata_price := float_to_uint 64 (f64_mul (f64_of_int l1_pubdata_price) l1_pubdata_price_scale_factor) in
  let l1_batch_overhead_wei := l1_gas_price * FeeModelConfigV2.batch_overhead_l1_gas config in
  per_gas ← ceil_div_u256 l1_batch_overhead_wei (FeeModelConfigV2.max_gas_per_batch config);
  per_gas ← as_u64 per_gas;
  let gas_overhead_wei := float_to_uint 64 (f64_mul (f64_of_int per_gas) (FeeModelConfigV2.compute_overhead_part config)) in
  let fair_l2_gas_price := wrap 64 (minimal_l2_gas_price + gas_overhead_wei) in
  per_pubdata ← ceil_div_u256 l1_batch_overhead_wei (FeeModelConfigV2.max_pubdata_per_batch config);
  per_pubdata ← as_u64 per_pubdata;
  let pubdata_overhead_wei := float_to_uint 64 (f64_mul (f64_of_int per_pubdata) (FeeModelConfigV2.pubdata_overhead_part config)) in
  let fair_pubdata_price := wrap 64 (l1_pubdata_price + pubdata_overhead_wei) in
  Ret (PubdataIndependentBatchFeeModelInput.mk fair_l2_gas_price fair_pubdata_price l1_gas_price).

Definition MAXIMUM_L2_GAS_PRICE : Z := 10000000000000.
Definition MAXIMUM_PUBDATA_PRICE : Z := 1000000000000000.

Definition clip_batch_fee_model_input_v2 (fee_model : PubdataIndependentBatchFeeModelInput.t) : PubdataIndependentBatchFeeModelInput.t :=
  let gas := PubdataIndependentBatchFeeModelInput.fair_l2_gas_price fee_model in
  let pubdata := PubdataIndependentBatchFeeModelInput.fair_pubdata_price fee_model in
  {| PubdataIndependentBatchFeeModelInput.l1_gas_price := PubdataIndependentBatchFeeModelInput.l1_gas_price fee_model;
     PubdataIndependentBatchFeeModelInput.fair_l2_gas_price := if decide (gas < MAXIMUM_L2_GAS_PRICE) then gas else MAXIMUM_L2_GAS_PRICE;
     PubdataIndependentBatchFeeModelInput.fair_pubdata_price := if decide (pubdata < MAXIMUM_PUBDATA_PRICE) then pubdata else MAXIMUM_PUBDATA_PRICE |}.

(** The provided method of the trait [BatchFeeModelInputProvider]. *)
Definition default_batch_fee_input_scaled (params : FeeParams) (l1_gas_price_scale_factor l1_pubdata_price_scale_factor : float) : exec BatchFeeInput :=
  match params with
  | ParamsV1 minimal l1 => Ret (L1Pegged (compute_batch_fee_model_input_v1 minimal l1 l1_gas_price_scale_factor))
  | ParamsV2 params =>
      input ← compute_batch_fee_model_input_v2 params l1_gas_price_scale_factor l1_pubdata_price_scale_factor;
      Ret (PubdataIndependent (clip_batch_fee_model_input_v2 input))
  end.

End providers.

(** [node/via_fee_model]: the provider of the sequencer and the one of the API. *)
Module ViaMainNodeFeeInputProvider.
Definition new (config : FeeModelConfig) : string + FeeModelConfigV2.t :=
  match config with
  | ConfigV2 fee_model_config => inr fee_model_config
  | ConfigV1 _ => inl "Via fee model must be inited using V2"%string
  end.

Definition get_batch_fee_input_scaled (self : FeeModelConfigV2.t) (_ _ : float) : string + BatchFeeInput :=
  inr (BatchFeeInput.pubdata_independent
         (FeeModelConfigV2.minimal_l2_gas_price self)
         (FeeModelConfigV2.minimal_l2_gas_price self)
         (FeeModelConfigV2.max_pubdata_per_batch self)).

Definition get_fee_model_params (self : FeeModelConfigV2.t) : FeeParams :=
  ParamsV2 {|
    FeeParamsV2.config := self;
    FeeParamsV2.l1_gas_price := FeeModelConfigV2.minimal_l2_gas_price self;
    FeeParamsV2.l1_pubdata_price := FeeModelConfigV2.max_pubdata_per_batch self;
    FeeParamsV2.conversion_ratio := BaseTokenConversionRatio.default;
  |}.
End ViaMainNodeFeeInputProvider.

Module ViaApiFeeInputProvider.
(** [inner] is the result of the inner provider's [get_fee_model_params]. *)
Definition get_batch_fee_input_scaled `{BigDecimalLib} (inner : FeeParams) (_ _ : float) : exec (string + BatchFeeInput) :=
  match inner with
  | ParamsV2 params_v2 =>
      gas ← l1_gas_price params_v2;
      pubdata ← l1_pubdata_price params_v2;
      Ret (inr (BatchFeeInput.pubdata_independent gas gas pubdata))
  | ParamsV1 _ _ => Ret (inl "Via batch fee must be v2"%string)
  end.
End ViaApiFeeInputProvider.

(** ** The derived fee *)
Lemma ceil_div_spec a b :
  0 ≤ a → 0 < b → ∃ q, ceil_div a b = Ret q ∧ 0 ≤ q ∧ a ≤ q * b ∧ (a = 0 ∧ q = 0 ∨ (q - 1) * b < a).
Proof.
  intros Ha Hb. unfold ceil_div. case_decide as H0; [exists a; subst; split; [done|]; lia|]. rewrite decide_False by lia.
  eexists. split; [done|]. pose proof (Z.div_mod (a - 1) b). pose proof (Z.mod_pos_bound (a - 1) b).
  pose proof (Z.div_pos (a - 1) b). nia.
Qed.

(** The price of a byte a batch's fee input stands for. *)
Definition prices_ok (input : BatchFeeInput) : Prop :=
  in_width 64 (BatchFeeInput.fair_l2_gas_price input) ∧ in_width 64 (BatchFeeInput.l1_gas_price input) ∧
  in_width 64 (BatchFeeInput.fair_pubdata_price input).

(** A version accepts a fee input that it does not have to convert to an older kind. *)
Definition accepts (version : VmVersion) (input : BatchFeeInput) : bool :=
  match input with L1Pegged _ => true | PubdataIndependent _ => is_pubdata_independent version end.

Definition derive (max fair price : Z) : exec (Z * Z) :=
  least ← ceil_div price max; gas_per_pubdata ← ceil_div price (Z.max fair least); Ret (Z.max fair least, gas_per_pubdata).

Lemma derive_eq input version :
  accepts version input = true →
  derive_base_fee_and_gas_per_pubdata input version =
  derive (get_max_gas_per_pubdata_byte version) (BatchFeeInput.fair_l2_gas_price input) (BatchFeeInput.fair_pubdata_price input).
Proof. unfold derive_base_fee_and_gas_per_pubdata, accepts. destruct input; intros Ha; destruct (is_pubdata_independent version); done. Qed.

Lemma max_gas_per_pubdata_byte_pos version : 20000 ≤ get_max_gas_per_pubdata_byte version ≤ 50000.
Proof. destruct version; vm_compute; split; discriminate. Qed.

Lemma derive_spec max fair price :
  0 < max → 0 ≤ fair → 0 ≤ price →
  ∃ base_fee gas_per_pubdata, derive max fair price = Ret (base_fee, gas_per_pubdata) ∧
    fair ≤ base_fee ∧ 0 ≤ gas_per_pubdata ≤ max ∧ price ≤ gas_per_pubdata * base_fee ∧
    (price = 0 ∧ gas_per_pubdata = 0 ∨ (gas_per_pubdata - 1) * base_fee < price) ∧ (price ≤ fair * max → base_fee = fair).
Proof.
  intros Hmax Hfair Hprice. unfold derive. destruct (ceil_div_spec price max) as (least & -> & Hl & Hle & Hlt); [lia..|]. cbn [mbind exec_bind].
  destruct (decide (price = 0)) as [->|Hp0].
  - assert (least = 0) as -> by nia. exists (Z.max fair 0), 0. unfold ceil_div. rewrite decide_True by done. cbn. split; [done|]. lia.
  - assert (Hl1 : 1 ≤ least) by nia. destruct Hlt as [[]|Hlt]; [done|].
    destruct (ceil_div_spec price (Z.max fair least)) as (g & -> & Hg & Hge & Hgt); [lia..|]. destruct Hgt as [[]|Hgt]; [done|]. cbn [mbind exec_bind].
    exists (Z.max fair least), g. split; [done|]. split; [lia|].
    assert (Hb : least ≤ Z.max fair least) by lia. split; [|split; [done|split; [by right|]]].
    + split; [lia|]. generalize dependent (Z.max fair least). intros base Hge Hgt Hb. nia.
    + intros Hle'. assert (least ≤ fair); [nia|lia].
Qed.

(** C34 For every version of the virtual machine: the base fee is at least the fair gas
    price, the gas charged for a byte of pubdata stays below the version's maximum and
    pays the byte's price, and no smaller amount of gas would. *)
Theorem derived_fee_covers_pubdata (input : BatchFeeInput) (version : VmVersion) :
  prices_ok input → accepts version input = true →
  ∃ base_fee gas_per_pubdata, derive_base_fee_and_gas_per_pubdata input version = Ret (base_fee, gas_per_pubdata) ∧
    BatchFeeInput.fair_l2_gas_price input ≤ base_fee ∧ 0 ≤ gas_per_pubdata ≤ get_max_gas_per_pubdata_byte version ∧
    BatchFeeInput.fair_pubdata_price input ≤ gas_per_pubdata * base_fee ∧
    ∀ gas, 0 ≤ gas < gas_per_pubdata → gas * base_fee < BatchFeeInput.fair_pubdata_price input.
Proof.
  intros (Hf & _ & Hp) Ha. rewrite (derive_eq _ _ Ha). pose proof (max_gas_per_pubdata_byte_pos version). unfold in_width in *.
  destruct (derive_spec (get_max_gas_per_pubdata_byte version) (BatchFeeInput.fair_l2_gas_price input) (BatchFeeInput.fair_pubdata_price input))
    as (b & g & Hd & Hb & Hg & Hpay & Hleast & _); [lia..|].
  exists b, g. split; [done|]. split; [done|]. split; [done|]. split; [done|]. intros gas Hgas. destruct Hleast as [[]|]; [lia|nia].
Qed.

(** C33 The adjusted fee input is one for which the transaction is accepted: the gas per
    pubdata byte derived from it is within the transaction's limit and the base fee is
    within the maximum; and the adjustment does not panic for a limit above zero and
    fair gas prices below [2 ^ 64 / 50000]. *)
Theorem adjusted_price_accepted (input : BatchFeeInput) (limit : U256) (max_base_fee : option U256) (version : VmVersion) :
  prices_ok input → accepts version input = true → 1 ≤ limit → (∀ m, max_base_fee = Some m → 0 ≤ m) →
  BatchFeeInput.fair_l2_gas_price input * 50000 < 2 ^ 64 →
  ∃ input' base_fee gas_per_pubdata, adjust_pubdata_price_for_tx input limit max_base_fee version = Ret input' ∧
    derive_base_fee_and_gas_per_pubdata input' version = Ret (base_fee, gas_per_pubdata) ∧
    gas_per_pubdata ≤ limit ∧ (∀ m, max_base_fee = Some m → base_fee ≤ m) ∧
    BatchFeeInput.fair_l2_gas_price input' ≤ BatchFeeInput.fair_l2_gas_price input.
Proof.
  intros (Hf & _ & Hp) Ha Hlim Hm Hbound. pose proof (max_gas_per_pubdata_byte_pos version) as Hmax. unfold in_width in *.
  destruct (derive_spec (get_max_gas_per_pubdata_byte version) (BatchFeeInput.fair_l2_gas_price input) (BatchFeeInput.fair_pubdata_price input))
    as (b & g & Hd & Hb & Hg & _); [lia..|].
  unfold adjust_pubdata_price_for_tx. rewrite (derive_eq _ _ Ha), Hd. cbn [mbind exec_bind].
  set (top := default (2 ^ 256 - 1) max_base_fee). set (desired := Z.min limit _).
  assert (Htop : 0 ≤ top ∧ ∀ m, max_base_fee = Some m → top = m).
  { subst top. destruct max_base_fee as [m|]; cbn; [split; [by apply Hm|congruence]|done]. }
  case_decide as Hok.
  { exists input, b, g. rewrite (derive_eq _ _ Ha). split; [done|]. split; [done|]. split; [lia|]. split; [|lia].
    intros m E. rewrite <- (proj2 Htop m E). lia. }
  set (fair := if decide (top < _) then top else _).
  assert (Hfair : 0 ≤ fair ≤ BatchFeeInput.fair_l2_gas_price input ∧ fair ≤ top) by (subst fair; case_decide; lia).
  assert (Hdes : 1 ≤ desired ≤ get_max_gas_per_pubdata_byte version ∧ desired ≤ limit) by (subst desired; lia).
  rewrite decide_False by lia.
  assert (Hprice : ∀ price, 0 ≤ price ≤ fair * (desired - 1) →
    ∃ g', derive (get_max_gas_per_pubdata_byte version) fair price = Ret (fair, g') ∧ g' ≤ desired).
  { intros price Hpr. destruct (derive_spec (get_max_gas_per_pubdata_byte version) fair price) as (b' & g' & Hd' & Hb' & Hg' & _ & Hle & Heq); [lia..|].
    assert (b' = fair) as -> by (apply Heq; nia). exists g'. split; [done|]. destruct Hle as [[_ ->]|Hle]; [lia|]. nia. }
  assert (Hx : 0 ≤ fair * (desired - 1) < 2 ^ 64) by nia. set (x := fair * (desired - 1)) in *.
  assert (Hdone : ∀ m, max_base_fee = Some m → fair ≤ m) by (intros m E; rewrite <- (proj2 Htop m E); lia).
  destruct input as [inp|inp]; cbn [BatchFeeInput.fair_l2_gas_price] in *; unfold as_u64.
  - pose proof (Z.mul_div_le x 17). pose proof (Z.div_pos x 17). destruct (Hprice (x / 17 * 17)) as (g' & Hd' & Hg'); [lia|].
    rewrite !decide_True by lia. cbn [mbind exec_bind]. eexists _, fair, g'. split; [done|]. rewrite derive_eq by done. cbn.
    rewrite wrap_small by (unfold in_width, L1_GAS_PER_PUBDATA_BYTE; lia). unfold L1_GAS_PER_PUBDATA_BYTE. rewrite Hd'.
    split; [done|]. split; [lia|]. split; [done|lia].
  - destruct (Hprice x) as (g' & Hd' & Hg'); [lia|].
    rewrite !decide_True by lia. cbn [mbind exec_bind]. eexists _, fair, g'. split; [done|]. rewrite derive_eq by done. cbn. rewrite Hd'.
    split; [done|]. split; [lia|]. split; [done|lia].
Qed.

(** The price of a byte of pubdata in Via's fee input is the number of bytes a batch
    may have, whatever a byte costs; and the API's provider gives the same input as the
    sequencer's. *)
Theorem via_pubdata_price_is_batch_size `{BigDecimalLaws} (config : FeeModelConfigV2.t) (s1 s2 s3 s4 : float) :
  in_width 64 (FeeModelConfigV2.minimal_l2_gas_price config) → in_width 64 (FeeModelConfigV2.max_pubdata_per_batch config) →
  ∃ input, ViaMainNodeFeeInputProvider.get_batch_fee_input_scaled config s1 s2 = inr input ∧
    ViaApiFeeInputProvider.get_batch_fee_input_scaled (ViaMainNodeFeeInputProvider.get_fee_model_params config) s3 s4 = Ret (inr input) ∧
    BatchFeeInput.fair_pubdata_price input = FeeModelConfigV2.max_pubdata_per_batch config.
Proof.
  intros Hg Hp. eexists. split; [done|]. split; [|done].
  unfold ViaApiFeeInputProvider.get_batch_fee_input_scaled, l1_gas_price, l1_pubdata_price, convert_to_base_token. cbn.
  by rewrite !scaled_by_one by done.
Qed.

(** Fee inputs of the upstream node stay within what the bootloader accepts. *)
Lemma clipped_prices fee_model :
  let input := PubdataIndependent (clip_batch_fee_model_input_v2 fee_model) in
  BatchFeeInput.fair_l2_gas_price input ≤ MAXIMUM_L2_GAS_PRICE ∧ BatchFeeInput.fair_pubdata_price input ≤ MAXIMUM_PUBDATA_PRICE.
Proof. cbn. split; case_decide; lia. Qed.

(** *** Concrete inputs *)
Definition sample_fee_input : BatchFeeInput := BatchFeeInput.pubdata_independent 1000000000 100000000 17000000000.

Lemma derived_fee_covers_pubdata_witness :
  ∃ base_fee gas_per_pubdata, derive_base_fee_and_gas_per_pubdata sample_fee_input (vm_version latest) = Ret (base_fee, gas_per_pubdata) ∧
    100000000 ≤ base_fee ∧ 0 ≤ gas_per_pubdata ≤ 50000 ∧ 17000000000 ≤ gas_per_pubdata * base_fee ∧
    ∀ gas, 0 ≤ gas < gas_per_pubdata → gas * base_fee < 17000000000.
Proof. apply (derived_fee_covers_pubdata sample_fee_input (vm_version latest)); [|done]. repeat split; done. Defined.

Lemma adjusted_price_accepted_witness :
  ∃ input' base_fee gas_per_pubdata, adjust_pubdata_price_for_tx sample_fee_input 100 (Some 50000000) (vm_version latest) = Ret input' ∧
    derive_base_fee_and_gas_per_pubdata input' (vm_version latest) = Ret (base_fee, gas_per_pubdata) ∧
    gas_per_pubdata ≤ 100 ∧ (∀ m, Some 50000000 = Some m → base_fee ≤ m) ∧ BatchFeeInput.fair_l2_gas_price input' ≤ 100000000.
Proof.
  apply (adjusted_price_accepted sample_fee_input 100 (Some 50000000) (vm_version latest)); [repeat split; done|done|done| |done].
  intros m [= <-]. done.
Defined.

#[local] Instance exact_ratio : BigDecimalLib := {|
  scaled_to_u64 numerator denominator price :=
    let p := price * numerator / denominator in if decide (p < 2 ^ 64) then Some p else None;
  scaled_too_large numerator denominator price := bool_decide (2 ^ 64 ≤ price * numerator / denominator);
|}.
#[local] Instance exact_ratio_laws : BigDecimalLaws.
Proof. split. intros price [_ Hp]. cbn. rewrite Z.mul_1_r, Z.div_1_r. by rewrite decide_True. Qed.

Definition sample_fee_config : FeeModelConfigV2.t :=
  FeeModelConfigV2.mk 120000000 (f64_of_int 0) (f64_of_int 1) 800000 200000000 120000.

Lemma via_pubdata_price_is_batch_size_witness :
  ∃ input, ViaMainNodeFeeInputProvider.get_batch_fee_input_scaled sample_fee_config (f64_of_int 1) (f64_of_int 1) = inr input ∧
    ViaApiFeeInputProvider.get_batch_fee_input_scaled (ViaMainNodeFeeInputProvider.get_fee_model_params sample_fee_config) (f64_of_int 1) (f64_of_int 1) = Ret (inr input) ∧
    BatchFeeInput.fair_pubdata_price input = 120000.
Proof. apply via_pubdata_price_is_batch_size; done. Defined.
