(* ===== verification/VmErrors.v ===== *)
(** * Errors of the virtual machine ([lib/vm_interface/src/types/errors])

    The reason a transaction reverted with, read from the data the contract returned, and
    the bootloader's error codes. [hex::encode] is third-party. *)
From stdpp Require Import pretty.
From S2P Require Import Prelude Types.
Local Open Scope Z_scope.

(** ** [String::from_utf8_lossy]

    The longest prefix of a character that cannot be completed becomes one U+FFFD. *)
Definition replacement : list byte := ["239"%byte; "191"%byte; "189"%byte].

Definition second_of_three (b0 b1 : byte) : bool :=
  in_range (if in_range 0xE0 0xE0 b0 then 0xA0 else 0x80) (if in_range 0xED 0xED b0 then 0x9F else 0xBF) b1.
Definition second_of_four (b0 b1 : byte) : bool :=
  in_range (if in_range 0xF0 0xF0 b0 then 0x90 else 0x80) (if in_range 0xF4 0xF4 b0 then 0x8F else 0xBF) b1.

Fixpoint utf8_lossy (bs : list byte) : list byte :=
  match bs with
  | [] => []
  | b0 :: r0 =>
      if in_range 0 0x7F b0 then b0 :: utf8_lossy r0 else
      match r0 with
      | [] => replacement
      | b1 :: r1 =>
          if in_range 0xC2 0xDF b0 then
            if utf8_cont b1 then b0 :: b1 :: utf8_lossy r1 else replacement ++ utf8_lossy r0
          else if in_range 0xE0 0xEF b0 && second_of_three b0 b1 then
            match r1 with
            | [] => replacement
            | b2 :: r2 => if utf8_cont b2 then b0 :: b1 :: b2 :: utf8_lossy r2 else replacement ++ utf8_lossy r1
            end
          else if in_range 0xF0 0xF4 b0 && second_of_four b0 b1 then
            match r1 with
            | [] => replacement
            | b2 :: r2 =>
                if utf8_cont b2 then
                  match r2 with
                  | [] => replacement
                  | b3 :: r3 => if utf8_cont b3 then b0 :: b1 :: b2 :: b3 :: utf8_lossy r3 else replacement ++ utf8_lossy r2
                  end
                else replacement ++ utf8_lossy r1
            end
          else replacement ++ utf8_lossy r0
      end
  end.
Definition from_utf8_lossy (bs : list byte) : string := String.string_of_list_byte (utf8_lossy bs).

(** ** Revert reasons ([vm_revert_reason.rs]) *)
Inductive VmRevertReasonParsingError :=
| IncorrectDataOffset (data : list byte)
| InputIsTooShort (data : list byte)
| IncorrectStringLength (data : list byte).

Module VmRevertReason.
Inductive t :=
| General (msg : string) (data : list byte)
| InnerTxError
| VmError
| Unknown (function_selector data : list byte).

Definition GENERAL_ERROR_SELECTOR : list byte := ["008"%byte; "195"%byte; "121"%byte; "160"%byte].

(** [U256::as_usize] panics on what does not fit. *)
Definition as_usize (z : U256) : exec Z := if decide (z < 2 ^ 64) then Ret z else Panic.
Definition len (bs : list byte) : Z := Z.of_nat (length bs).

(** The sum [string_length + 32] wraps; the slice up to it panics when it ends before it starts. *)
Definition parse_general_error (raw_bytes : list byte) : exec (VmRevertReasonParsingError + t) :=
  let bytes := drop 4 raw_bytes in
  if decide (len bytes < 32) then Ret (inl (InputIsTooShort bytes))
  else
    data_offset ← as_usize (from_be_bytes (take 32 bytes));
    if decide (len bytes < data_offset ∨ data_offset < 32) then Ret (inl (IncorrectDataOffset bytes))
    else
      let data := drop (Z.to_nat data_offset) bytes in
      if decide (len data < 32) then Ret (inl (InputIsTooShort bytes))
      else
        string_length ← as_usize (from_be_bytes (take 32 data));
        if decide (len data < wrap 64 (string_length + 32)) then Ret (inl (IncorrectStringLength bytes))
        else if decide (wrap 64 (32 + string_length) < 32) then Panic
        else Ret (inr (General (from_utf8_lossy (take (Z.to_nat string_length) (drop 32 data))) raw_bytes)).

Definition try_from_bytes (bytes : list byte) : exec (VmRevertReasonParsingError + t) :=
  if decide (len bytes < 4) then
    match bytes with
    | [] => Ret (inr (Unknown [] bytes))
    | _ => Ret (inl (IncorrectStringLength bytes))
    end
  else
    let function_selector := take 4 bytes in
    if decide (function_selector = GENERAL_ERROR_SELECTOR) then parse_general_error bytes
    else Ret (inr (Unknown function_selector bytes)).

(** [impl From<&[u8]> for VmRevertReason] *)
Definition from_bytes (error_msg : list byte) : exec t :=
  r ← try_from_bytes error_msg;
  Ret (match r with
       | inr reason => reason
       | inl _ =>
           let function_selector := if decide (4 ≤ len error_msg) then take 4 error_msg else error_msg in
           let data := if decide (4 < len error_msg) then drop 4 error_msg else [] in
           Unknown function_selector data
       end).

Definition encoded_data (self : t) : list byte :=
  match self with Unknown _ data => data | General _ data => data | _ => [] end.

Section display.
Context (hex_encode : list byte → string).
Local Infix "+:+" := String.append (at level 60, right associativity).
Definition to_string (self : t) : string :=
  match self with
  | General msg _ => msg
  | VmError => "VM Error"
  | InnerTxError => "Bootloader-based tx failed"
  | Unknown function_selector data =>
      "Error function_selector = 0x" +:+ hex_encode function_selector +:+ ", data = 0x" +:+ hex_encode data
  end.
Definition to_user_friendly_string (self : t) : string :=
  match self with Unknown _ _ => "" | _ => to_string self end.
End display.
End VmRevertReason.

(** ** [halt.rs] *)
Inductive Halt :=
| ValidationFailed (reason : VmRevertReason.t)
| PaymasterValidationFailed (reason : VmRevertReason.t)
| PrePaymasterPreparationFailed (reason : VmRevertReason.t)
| PayForTxFailed (reason : VmRevertReason.t)
| FailedToMarkFactoryDependencies (reason : VmRevertReason.t)
| FailedToChargeFee (reason : VmRevertReason.t)
| FromIsNotAnAccount
| InnerTxError
| Unknown (reason : VmRevertReason.t)
| UnexpectedVMBehavior (problem : string)
| BootloaderOutOfGas
| ValidationOutOfGas
| TooBigGasLimit
| NotEnoughGasProvided
| MissingInvocationLimitReached
| FailedToSetL2Block (reason : string)
| FailedToAppendTransactionToL2Block (reason : string)
| VMPanic
| TracerCustom (reason : string)
| FailedToPublishCompressedBytecodes.

Section display.
Context (hex_encode : list byte → string).
Local Infix "+:+" := String.append (at level 60, right associativity).
Local Abbreviation text := (VmRevertReason.to_string hex_encode).

Definition halt_to_string (self : Halt) : string :=
  match self with
  | ValidationFailed reason => "Account validation error: " +:+ text reason
  | FailedToChargeFee reason => "Failed to charge fee: " +:+ text reason
  | FromIsNotAnAccount => "Sender is not an account"
  | InnerTxError => "Bootloader-based tx failed"
  | PaymasterValidationFailed reason => "Paymaster validation error: " +:+ text reason
  | PrePaymasterPreparationFailed reason => "Pre-paymaster preparation error: " +:+ text reason
  | Unknown reason => "Unknown reason: " +:+ text reason
  | UnexpectedVMBehavior problem =>
      "virtual machine entered unexpected state. Please contact developers and provide transaction details that caused this error. Error description: "
      +:+ problem
  | BootloaderOutOfGas => "Bootloader out of gas"
  | NotEnoughGasProvided => "Bootloader did not have enough gas to start the transaction"
  | FailedToMarkFactoryDependencies reason => "Failed to mark factory dependencies: " +:+ text reason
  | PayForTxFailed reason => "Failed to pay for the transaction: " +:+ text reason
  | TooBigGasLimit => "Transaction has a too big ergs limit and will not be executed by the server"
  | MissingInvocationLimitReached => "Tx produced too much cold storage accesses"
  | VMPanic => "VM panicked"
  | FailedToSetL2Block reason => "Failed to set information about the L2 block: " +:+ reason
  | FailedToAppendTransactionToL2Block reason => "Failed to append the transaction to the current L2 block: " +:+ reason
  | TracerCustom reason => "Tracer aborted execution: " +:+ reason
  | ValidationOutOfGas => "Validation run out of gas"
  | FailedToPublishCompressedBytecodes => "Failed to publish compressed bytecodes"
  end.
End display.

(** ** [bootloader_error.rs] *)
Module BootloaderErrorCode.
Inductive t :=
| EthCall
| AccountTxValidationFailed
| FailedToChargeFee
| FromIsNotAnAccount
| FailedToCheckAccount
| UnacceptableGasPrice
| PayForTxFailed
| PrePaymasterPreparationFailed
| PaymasterValidationFailed
| FailedToSendFeesToTheOperator
| FailedToSetPrevBlockHash
| UnacceptablePubdataPrice
| TxValidationError
| MaxPriorityFeeGreaterThanMaxFee
| BaseFeeGreaterThanMaxFeePerGas
| PaymasterReturnedInvalidContext
| PaymasterContextIsTooLong
| AssertionError
| FailedToMarkFactoryDeps
| TxValidationOutOfGas
| NotEnoughGasProvided
| AccountReturnedInvalidMagic
| PaymasterReturnedInvalidMagic
| MintEtherFailed
| FailedToAppendTransactionToL2Block
| FailedToSetL2Block
| FailedToPublishTimestampDataToL1
| L1MessengerPublishingFailed
| L1MessengerLogSendingFailed
| FailedToCallSystemContext
| Unknown.

(** [impl From<u8>]: the codes from 0 on. *)
Definition codes : list t :=
  [EthCall; AccountTxValidationFailed; FailedToChargeFee; FromIsNotAnAccount; FailedToCheckAccount; UnacceptableGasPrice;
   FailedToSetPrevBlockHash; PayForTxFailed; PrePaymasterPreparationFailed; PaymasterValidationFailed;
   FailedToSendFeesToTheOperator; UnacceptablePubdataPrice; TxValidationError; MaxPriorityFeeGreaterThanMaxFee;
   BaseFeeGreaterThanMaxFeePerGas; PaymasterReturnedInvalidContext; PaymasterContextIsTooLong; AssertionError;
   FailedToMarkFactoryDeps; TxValidationOutOfGas; NotEnoughGasProvided; AccountReturnedInvalidMagic;
   PaymasterReturnedInvalidMagic; MintEtherFailed; FailedToAppendTransactionToL2Block; FailedToSetL2Block;
   FailedToPublishTimestampDataToL1; L1MessengerPublishingFailed; L1MessengerLogSendingFailed; FailedToCallSystemContext].
Definition from_u8 (code : byte) : t := default Unknown (codes !! Z.to_nat (byte_to_Z code)).
End BootloaderErrorCode.

(** ** [tx_revert_reason.rs] *)
Module TxRevertReason.
Inductive t :=
| TxReverted (reason : VmRevertReason.t)
| Halted (halt : Halt).

Section parse.
Context (hex_encode : list byte → string).
Local Infix "+:+" := String.append (at level 60, right associativity).
Local Abbreviation text := (VmRevertReason.to_string hex_encode).
Local Abbreviation unexpected s := (Halted (UnexpectedVMBehavior s)).
Local Abbreviation general s := (VmRevertReason.General s []).

Definition parse_error (bytes : list byte) : exec t :=
  match bytes with
  | [] => Ret (unexpected "Bootloader returned an empty error")
  | error_code :: error_msg =>
      revert_reason ← VmRevertReason.from_bytes error_msg;
      match BootloaderErrorCode.from_u8 error_code with
      | BootloaderErrorCode.EthCall => Ret (TxReverted revert_reason)
      | BootloaderErrorCode.AccountTxValidationFailed => Ret (Halted (ValidationFailed revert_reason))
      | BootloaderErrorCode.FailedToChargeFee => Ret (Halted (FailedToChargeFee revert_reason))
      | BootloaderErrorCode.FromIsNotAnAccount => Ret (Halted FromIsNotAnAccount)
      | BootloaderErrorCode.FailedToCheckAccount =>
          Ret (Halted (ValidationFailed (general "Failed to check if `from` is an account. Most likely not enough gas provided")))
      | BootloaderErrorCode.UnacceptableGasPrice => Ret (unexpected "The operator included transaction with an unacceptable gas price")
      | BootloaderErrorCode.PrePaymasterPreparationFailed => Ret (Halted (PrePaymasterPreparationFailed revert_reason))
      | BootloaderErrorCode.PaymasterValidationFailed => Ret (Halted (PaymasterValidationFailed revert_reason))
      | BootloaderErrorCode.FailedToSendFeesToTheOperator => Ret (unexpected "FailedToSendFeesToTheOperator")
      | BootloaderErrorCode.FailedToSetPrevBlockHash => Panic
      | BootloaderErrorCode.UnacceptablePubdataPrice => Ret (unexpected "UnacceptablePubdataPrice")
      | BootloaderErrorCode.TxValidationError => Ret (Halted (ValidationFailed revert_reason))
      | BootloaderErrorCode.MaxPriorityFeeGreaterThanMaxFee => Ret (unexpected "Max priority fee greater than max fee")
      | BootloaderErrorCode.PaymasterReturnedInvalidContext =>
          Ret (Halted (PaymasterValidationFailed (general "Paymaster returned invalid context")))
      | BootloaderErrorCode.PaymasterContextIsTooLong =>
          Ret (Halted (PaymasterValidationFailed (general "Paymaster returned context that is too long")))
      | BootloaderErrorCode.AssertionError => Ret (unexpected ("Assertion error: " +:+ text revert_reason))
      | BootloaderErrorCode.BaseFeeGreaterThanMaxFeePerGas => Ret (unexpected "Block.basefee is greater than max fee per gas")
      | BootloaderErrorCode.PayForTxFailed => Ret (Halted (PayForTxFailed revert_reason))
      | BootloaderErrorCode.FailedToMarkFactoryDeps =>
          let '(msg, data) := match revert_reason with
            | VmRevertReason.General msg data => (msg, data)
            | _ => ("Most likely not enough gas provided"%string, [])
            end in
          Ret (Halted (FailedToMarkFactoryDependencies (VmRevertReason.General msg data)))
      | BootloaderErrorCode.TxValidationOutOfGas => Ret (Halted (ValidationFailed (general "Not enough gas for transaction validation")))
      | BootloaderErrorCode.NotEnoughGasProvided => Ret (Halted NotEnoughGasProvided)
      | BootloaderErrorCode.AccountReturnedInvalidMagic =>
          Ret (Halted (ValidationFailed (general "Account validation returned invalid magic value. Most often this means that the signature is incorrect")))
      | BootloaderErrorCode.PaymasterReturnedInvalidMagic =>
          Ret (Halted (ValidationFailed (general "Paymaster validation returned invalid magic value. Please refer to the documentation of the paymaster for more details")))
      | BootloaderErrorCode.L1MessengerLogSendingFailed => Ret (unexpected ("Failed to send log via L1Messenger for: " +:+ text revert_reason))
      | BootloaderErrorCode.L1MessengerPublishingFailed => Ret (unexpected ("Failed to publish pubdata via L1Messenger for: " +:+ text revert_reason))
      | BootloaderErrorCode.FailedToCallSystemContext => Ret (unexpected ("Failed to call system context contract: " +:+ text revert_reason))
      | BootloaderErrorCode.Unknown =>
          Ret (unexpected ("Unsupported error code: " +:+ pretty (Byte.to_N error_code) +:+ ". Revert reason: " +:+ text revert_reason))
      | BootloaderErrorCode.MintEtherFailed => Ret (unexpected ("Failed to mint ether: " +:+ text revert_reason))
      | BootloaderErrorCode.FailedToAppendTransactionToL2Block =>
          Ret (Halted (FailedToAppendTransactionToL2Block ("Failed to append transaction to L2 block: " +:+ text revert_reason)))
      | BootloaderErrorCode.FailedToSetL2Block => Ret (Halted (FailedToSetL2Block (text revert_reason)))
      | BootloaderErrorCode.FailedToPublishTimestampDataToL1 => Ret (unexpected ("Failed to publish timestamp data to L1: " +:+ text revert_reason))
      end
  end.
End parse.
End TxRevertReason.

(** ** Correctness *)
Module RevertReasons.
Import VmRevertReason.

(** What is well-formed stays as it is. *)
Lemma utf8_lossy_valid bs : valid_utf8 bs = true → utf8_lossy bs = bs.
Proof.
  induction bs as [bs IH] using (induction_ltof1 _ (@length byte)). unfold ltof in IH.
  destruct bs as [|b0 r0]; [done|]. cbn [valid_utf8 utf8_lossy]. destruct (in_range 0 127 b0).
  { intros H. f_equal. apply IH; [cbn; lia|done]. }
  destruct r0 as [|b1 r1]; [done|]. destruct (in_range 194 223 b0).
  { destruct (utf8_cont b1); [|done]. intros H. do 2 f_equal. apply IH; [cbn; lia|done]. }
  destruct r1 as [|b2 r2]; [done|]. destruct (in_range 224 239 b0).
  { change (in_range _ _ b1) with (second_of_three b0 b1). destruct (second_of_three b0 b1); [|done]. cbn [andb].
    destruct (utf8_cont b2); [|done]. intros H. do 3 f_equal. apply IH; [cbn; lia|done]. }
  destruct r2 as [|b3 r3]; [done|]. change (in_range (if in_range 240 240 b0 then 144 else 128) _ b1) with (second_of_four b0 b1).
  destruct (in_range 240 244 b0); [|done]. destruct (second_of_four b0 b1); [|done]. cbn [andb].
  destruct (utf8_cont b2); [|done]. destruct (utf8_cont b3); [|done]. intros H. do 4 f_equal. apply IH; [cbn; lia|done].
Qed.

(** The data of a Solidity [Error(string)]: the selector, the offset of the string, its
    length, and its bytes padded with zeroes. *)
Definition solidity_error (msg : list byte) (padding : nat) : list byte :=
  GENERAL_ERROR_SELECTOR ++ to_be_bytes 32 32 ++ to_be_bytes 32 (len msg) ++ msg ++ replicate padding "000"%byte.

Lemma take_word z (r : list byte) : take 32 (to_be_bytes 32 z ++ r) = to_be_bytes 32 z.
Proof. by rewrite take_app_length'. Qed.
Lemma drop_word z (r : list byte) : drop 32 (to_be_bytes 32 z ++ r) = r.
Proof. by rewrite drop_app_length'. Qed.
Lemma word_value z : 0 ≤ z < 2 ^ 64 → from_be_bytes (to_be_bytes 32 z) = z.
Proof. intros ?. apply from_to_be_bytes. change (256 ^ Z.of_nat 32) with (2 ^ 256). lia. Qed.

Lemma len_app (a b : list byte) : len (a ++ b) = len a + len b.
Proof. unfold len. rewrite length_app. lia. Qed.
Lemma len_word z : len (to_be_bytes 32 z) = 32.
Proof. unfold len. by rewrite length_to_be_bytes. Qed.
Lemma len_solidity_error msg padding : len (solidity_error msg padding) = 68 + len msg + Z.of_nat padding.
Proof. unfold solidity_error. rewrite !len_app, !len_word. unfold len. rewrite length_replicate. cbn [length GENERAL_ERROR_SELECTOR]. lia. Qed.
Lemma drop_solidity_error msg padding :
  drop 4 (solidity_error msg padding) = to_be_bytes 32 32 ++ to_be_bytes 32 (len msg) ++ msg ++ replicate padding "000"%byte.
Proof. done. Qed.

(** C39 A transaction that reverts with a Solidity error message is reported with that
    message: the data a contract returns for [revert("msg")] are read back to the
    message, however they are padded. *)
Theorem error_string_parsed msg padding :
  valid_utf8 msg = true → len msg + 32 < 2 ^ 64 →
  from_bytes (solidity_error msg padding) = Ret (General (String.string_of_list_byte msg) (solidity_error msg padding)).
Proof.
  intros Hu Hl. unfold from_bytes, try_from_bytes. rewrite (decide_False (P := _ < 4)) by (rewrite len_solidity_error; unfold len; lia).
  rewrite (decide_True (P := take 4 _ = _)) by done. unfold parse_general_error. rewrite drop_solidity_error.
  rewrite take_word, word_value by lia. unfold as_usize. rewrite (decide_True (P := 32 < 2 ^ 64)) by done. cbn [mbind exec_bind].
  change (Z.to_nat 32) with 32%nat. rewrite drop_word, take_word, word_value, drop_word by (unfold len in *; lia).
  rewrite (decide_True (P := len msg < 2 ^ 64)) by lia. cbn [mbind exec_bind].
  rewrite (decide_False (P := _ < 32)) by (rewrite !len_app, !len_word; unfold len; lia).
  rewrite (decide_False (P := _ ∨ _)) by (rewrite !len_app, !len_word; unfold len; lia).
  rewrite (decide_False (P := _ < 32)) by (rewrite !len_app, !len_word; unfold len; lia).
  rewrite !wrap_small by (unfold in_width, len in *; lia).
  rewrite (decide_False (P := len (_ ++ _) < _)) by (rewrite !len_app, !len_word; unfold len; lia).
  rewrite (decide_False (P := 32 + _ < 32)) by (unfold len; lia).
  unfold len. rewrite Nat2Z.id, take_app_length. unfold from_utf8_lossy. by rewrite utf8_lossy_valid.
Qed.

Lemma from_be_bytes_nonneg bs : 0 ≤ from_be_bytes bs.
Proof.
  induction bs as [|b bs IH] using rev_ind; [done|]. rewrite from_be_bytes_snoc. pose proof (byte_to_Z_bound b). lia.
Qed.

(** Data with the selector of [Error(string)] whose offset does not fit 64 bits, or whose
    string's length is so large that the end of the string does not. *)
Definition oversized (msg : list byte) : Prop :=
  let bytes := drop 4 msg in
  let offset := from_be_bytes (take 32 bytes) in
  take 4 msg = GENERAL_ERROR_SELECTOR ∧ 36 ≤ len msg ∧
  (2 ^ 64 ≤ offset ∨
   32 ≤ offset ∧ offset + 32 ≤ len bytes ∧ 2 ^ 64 - 32 ≤ from_be_bytes (take 32 (drop (Z.to_nat offset) bytes))).

Lemma len_drop n (bs : list byte) : 0 ≤ n ≤ len bs → len (drop (Z.to_nat n) bs) = len bs - n.
Proof. unfold len. rewrite length_drop. lia. Qed.

Lemma parse_general_error_panics msg :
  take 4 msg = GENERAL_ERROR_SELECTOR → 4 ≤ len msg → parse_general_error msg = Panic ↔ oversized msg.
Proof.
  intros Hs Hl. unfold parse_general_error, oversized, as_usize.
  assert (Hd : len (drop 4 msg) = len msg - 4) by (unfold len in *; rewrite length_drop; lia).
  generalize dependent (drop 4 msg). intros bs Hd. case_decide as H1; [split; [done|intros (_ & ? & _); lia]|].
  case_decide as H2; cbn [mbind exec_bind]; [|split; [|done]; intros _; split; [done|split; [lia|left; lia]]].
  case_decide as H3; [split; [done|]; intros (_ & _ & [?|(? & ? & _)]); lia|].
  rewrite len_drop by (unfold len in *; lia).
  case_decide as H4; [split; [done|]; intros (_ & _ & [?|(? & ? & _)]); lia|].
  set (string_length := from_be_bytes (take 32 (drop _ bs))).
  assert (0 ≤ string_length) by apply from_be_bytes_nonneg.
  case_decide as H5; cbn [mbind exec_bind]; [|split; [|done]; intros _; split; [done|split; [lia|right; lia]]].
  rewrite (Z.add_comm 32). destruct (decide (string_length + 32 < 2 ^ 64)) as [Hn|Hn].
  - rewrite wrap_small by (unfold in_width; lia).
    case_decide; [|rewrite decide_False by lia]; (split; [done|intros (_ & _ & [?|(_ & _ & ?)]); lia]).
  - assert (Hw : wrap 64 (string_length + 32) = string_length + 32 - 2 ^ 64) by (unfold wrap; rewrite <-(Z.mod_add _ (-1)), Z.mod_small by lia; lia).
    rewrite Hw, decide_False, decide_True by lia. split; [|done]. intros _. split; [done|split; [lia|right; lia]].
Qed.

(** Reading a revert reason fails only on oversized data - and it does panic there: a
    contract chooses what it reverts with, so that a transaction that reverts with the
    selector of [Error(string)] and an offset or a length near [2^64] or above stops the
    node that executes it, instead of having its reason reported as unknown. *)
Theorem revert_reason_panics msg : from_bytes msg = Panic ↔ oversized msg.
Proof.
  unfold from_bytes, try_from_bytes. destruct (decide (len msg < 4)) as [Hl|Hl].
  { split; [by destruct msg|]. intros (_ & ? & _). lia. }
  destruct (decide (take 4 msg = _)) as [Hs|Hs].
  - rewrite <-parse_general_error_panics by (done || lia). by destruct parse_general_error.
  - split; [done|]. intros (? & _). done.
Qed.
End RevertReasons.

Module RevertSamples.
Import VmRevertReason RevertReasons.

Definition message : list byte := bytes "ERC20: transfer amount exceeds balance".
Lemma error_string_parsed_witness :
  from_bytes (solidity_error message 26) = Ret (General "ERC20: transfer amount exceeds balance" (solidity_error message 26)).
Proof. apply (error_string_parsed message 26); [vm_compute; reflexivity|vm_compute; reflexivity]. Defined.

(** The selector followed by 32 bytes of ones. *)
Example oversized_offset_panics : from_bytes (GENERAL_ERROR_SELECTOR ++ replicate 32 "255"%byte) = Panic.
Proof. vm_compute. reflexivity. Qed.
(** The same through the bootloader's error code of a failed validation. *)
Example oversized_validation_error_panics hex :
  TxRevertReason.parse_error hex ("001"%byte :: GENERAL_ERROR_SELECTOR ++ replicate 32 "255"%byte) = Panic.
Proof. vm_compute. reflexivity. Qed.
End RevertSamples.
