(* ===== verification/SealCriteria.v ===== *)
(** * Seal criteria ([node/via_state_keeper/src/seal_criteria])

    What the state keeper measures of a transaction and of the open batch
    ([vm_interface/src/types/outputs/statistic.rs], [lib/types/src/block.rs],
    [utils.rs]), and the criteria by which it includes, excludes or rejects the
    transaction and seals the batch. *)
From S2P Require Import Prelude Types VmLimits Float Deduplicator VmErrors.
Local Open Scope Z_scope.

(** ** Metrics *)
Module CircuitStatistic.
Record t := mk {
  main_vm : float;
  ram_permutation : float;
  storage_application : float;
  storage_sorter : float;
  code_decommitter : float;
  code_decommitter_sorter : float;
  log_demuxer : float;
  events_sorter : float;
  keccak256 : float;
  ecrecover : float;
  sha256 : float;
  secp256k1_verify : float;
  transient_storage_checker : float;
}.
Definition zero : float := f64_of_int 0.
Definition default : t := mk zero zero zero zero zero zero zero zero zero zero zero zero zero.

Definition total (self : t) : Z :=
  foldl (λ acc x, wrap 64 (acc + ceil_to_uint 64 x)) 0
    [main_vm self; ram_permutation self; storage_application self; storage_sorter self; code_decommitter self;
     code_decommitter_sorter self; log_demuxer self; events_sorter self; keccak256 self; ecrecover self; sha256 self;
     secp256k1_verify self; transient_storage_checker self].

Definition add (self other : t) : t := {|
  main_vm := f32_add (main_vm self) (main_vm other);
  ram_permutation := f32_add (ram_permutation self) (ram_permutation other);
  storage_application := f32_add (storage_application self) (storage_application other);
  storage_sorter := f32_add (storage_sorter self) (storage_sorter other);
  code_decommitter := f32_add (code_decommitter self) (code_decommitter other);
  code_decommitter_sorter := f32_add (code_decommitter_sorter self) (code_decommitter_sorter other);
  log_demuxer := f32_add (log_demuxer self) (log_demuxer other);
  events_sorter := f32_add (events_sorter self) (events_sorter other);
  keccak256 := f32_add (keccak256 self) (keccak256 other);
  ecrecover := f32_add (ecrecover self) (ecrecover other);
  sha256 := f32_add (sha256 self) (sha256 other);
  secp256k1_verify := f32_add (secp256k1_verify self) (secp256k1_verify other);
  transient_storage_checker := f32_add (transient_storage_checker self) (transient_storage_checker other);
|}.
End CircuitStatistic.

Definition L2_TO_L1_LOG_SERIALIZED_SIZE : Z := 88.

Module VmExecutionMetrics.
Record t := mk {
  gas_used : Z;
  published_bytecode_bytes : Z;
  l2_l1_long_messages : Z;
  l2_to_l1_logs : Z;
  contracts_used : Z;
  contracts_deployed : Z;
  vm_events : Z;
  storage_logs : Z;
  total_log_queries : Z;
  cycles_used : Z;
  computational_gas_used : Z;
  pubdata_published : Z;
  circuit_statistic : CircuitStatistic.t;
}.
Definition default : t := mk 0 0 0 0 0 0 0 0 0 0 0 0 CircuitStatistic.default.

Definition size (self : t) : Z :=
  wrap 64 (l2_to_l1_logs self * L2_TO_L1_LOG_SERIALIZED_SIZE + l2_l1_long_messages self
           + published_bytecode_bytes self + l2_to_l1_logs self * 4).

Definition add (self other : t) : t := {|
  published_bytecode_bytes := wrap 64 (published_bytecode_bytes self + published_bytecode_bytes other);
  contracts_deployed := wrap 16 (contracts_deployed self + contracts_deployed other);
  contracts_used := wrap 64 (contracts_used self + contracts_used other);
  l2_l1_long_messages := wrap 64 (l2_l1_long_messages self + l2_l1_long_messages other);
  l2_to_l1_logs := wrap 64 (l2_to_l1_logs self + l2_to_l1_logs other);
  gas_used := wrap 64 (gas_used self + gas_used other);
  vm_events := wrap 64 (vm_events self + vm_events other);
  storage_logs := wrap 64 (storage_logs self + storage_logs other);
  total_log_queries := wrap 64 (total_log_queries self + total_log_queries other);
  cycles_used := wrap 32 (cycles_used self + cycles_used other);
  computational_gas_used := wrap 32 (computational_gas_used self + computational_gas_used other);
  pubdata_published := wrap 32 (pubdata_published self + pubdata_published other);
  circuit_statistic := CircuitStatistic.add (circuit_statistic self) (circuit_statistic other);
|}.
End VmExecutionMetrics.

Module BlockGasCount.
Record t := mk { commit : Z; prove : Z; execute : Z }.
Definition default : t := mk 0 0 0.
Definition add (self rhs : t) : t :=
  mk (wrap 32 (commit self + commit rhs)) (wrap 32 (prove self + prove rhs)) (wrap 32 (execute self + execute rhs)).
Definition any_field_greater_than (self : t) (bound : Z) : bool :=
  bool_decide (bound < commit self) || bool_decide (bound < prove self) || bool_decide (bound < execute self).
End BlockGasCount.

(** ** L1 gas ([utils.rs]) *)
Inductive AggregatedActionType := Commit | PublishProofOnchain | ExecuteAction.

Definition l1_batch_base_cost (op : AggregatedActionType) : Z :=
  match op with Commit => 31000 | PublishProofOnchain => 7000 | ExecuteAction => 30000 end.

Definition base_tx_cost (tx : Transaction.t) (op : AggregatedActionType) : Z :=
  match op with
  | Commit => 0
  | PublishProofOnchain => 0
  | ExecuteAction => match Transaction.common_data tx with L1 _ => 12500 | L2 _ => 0 | ProtocolUpgrade _ => 0 end
  end.

Definition GAS_PER_BYTE : Z := 18.
Definition additional_pubdata_commit_cost (execution_metrics : VmExecutionMetrics.t) : Z :=
  wrap 32 (wrap 32 (VmExecutionMetrics.size execution_metrics) * GAS_PER_BYTE).
Definition additional_writes_commit_cost (writes_metrics : WritesMetrics) (protocol_version : ProtocolVersionId) : Z :=
  wrap 32 (wrap 32 (DeduplicatedWritesMetrics.size writes_metrics (is_pre_boojum protocol_version)) * GAS_PER_BYTE).

Definition new_block_gas_count : BlockGasCount.t :=
  BlockGasCount.mk (l1_batch_base_cost Commit) (l1_batch_base_cost PublishProofOnchain) (l1_batch_base_cost ExecuteAction).

Definition gas_count_from_tx_and_metrics (tx : Transaction.t) (execution_metrics : VmExecutionMetrics.t) : BlockGasCount.t :=
  BlockGasCount.mk (wrap 32 (base_tx_cost tx Commit + additional_pubdata_commit_cost execution_metrics))
                   (base_tx_cost tx PublishProofOnchain) (base_tx_cost tx ExecuteAction).
Definition gas_count_from_metrics (execution_metrics : VmExecutionMetrics.t) : BlockGasCount.t :=
  BlockGasCount.mk (additional_pubdata_commit_cost execution_metrics) 0 0.
Definition gas_count_from_writes (writes_metrics : WritesMetrics) (protocol_version : ProtocolVersionId) : BlockGasCount.t :=
  BlockGasCount.mk (additional_writes_commit_cost writes_metrics protocol_version) 0 0.

(** ** Resolutions *)
Inductive UnexecutableReason :=
| HaltReason (halt : Halt)
| TxEncodingSize
| LargeEncodingSize
| PubdataLimit
| ProofWillFail
| TooMuchGas
| OutOfGasForBatchTip
| BootloaderOutOfGasReason
| NotEnoughGasProvidedReason.

Inductive SealResolution :=
| NoSeal
| IncludeAndSeal
| ExcludeAndSeal
| Unexecutable (reason : UnexecutableReason).

Definition stricter (self other : SealResolution) : SealResolution :=
  match self, other with
  | Unexecutable reason, _ | _, Unexecutable reason => Unexecutable reason
  | ExcludeAndSeal, _ | _, ExcludeAndSeal => ExcludeAndSeal
  | IncludeAndSeal, _ | _, IncludeAndSeal => IncludeAndSeal
  | _, _ => NoSeal
  end.

Definition should_seal (self : SealResolution) : bool :=
  match self with IncludeAndSeal | ExcludeAndSeal => true | _ => false end.

Module SealData.
Record t := mk {
  execution_metrics : VmExecutionMetrics.t;
  gas_count : BlockGasCount.t;
  cumulative_size : Z;
  writes_metrics : WritesMetrics;
  gas_remaining : Z;
}.
End SealData.

(** The fields of [StateKeeperConfig] that the state keeper's modules use. *)
Module StateKeeperConfig.
Record t := mk {
  transaction_slots : Z;
  block_commit_deadline_ms : Z;
  l2_block_commit_deadline_ms : Z;
  l2_block_max_payload_size : Z;
  max_single_tx_gas : Z;
  max_allowed_l2_tx_gas_limit : Z;
  reject_tx_at_geometry_percentage : float;
  reject_tx_at_eth_params_percentage : float;
  reject_tx_at_gas_percentage : float;
  close_block_at_geometry_percentage : float;
  close_block_at_eth_params_percentage : float;
  close_block_at_gas_percentage : float;
  max_pubdata_per_batch : Z;
  validation_computational_gas_limit : Z;
  max_circuits_per_batch : Z;
}.

(** [for_tests]: "mostly the values used in the localhost environment". *)
Definition for_tests : t := {|
  transaction_slots := 250;
  block_commit_deadline_ms := 2500;
  l2_block_commit_deadline_ms := 1000;
  l2_block_max_payload_size := 1000000;
  max_single_tx_gas := 6000000;
  max_allowed_l2_tx_gas_limit := 4000000000;
  reject_tx_at_geometry_percentage := f64_lit 95 2;
  reject_tx_at_eth_params_percentage := f64_lit 95 2;
  reject_tx_at_gas_percentage := f64_lit 95 2;
  close_block_at_geometry_percentage := f64_lit 95 2;
  close_block_at_eth_params_percentage := f64_lit 95 2;
  close_block_at_gas_percentage := f64_lit 95 2;
  max_pubdata_per_batch := 100000;
  validation_computational_gas_limit := 300000;
  max_circuits_per_batch := 24100;
|}.
End StateKeeperConfig.

(** ** Criteria *)
Section criteria.
Context `{ZkEvmParams}.
Import StateKeeperConfig.

(** [(n as f64 * percentage).round() as uN]. *)
Definition bound_of (w n : Z) (percentage : float) : Z := round_to_uint w (f64_mul (f64_of_int n) percentage).

Inductive SealCriterion :=
| SlotsCriterion
| GasCriterion
| PubDataBytesCriterion (max_pubdata_per_batch : Z)
| CircuitsCriterion
| TxEncodingSizeCriterion
| GasForBatchTipCriterion.

Definition slots_should_seal (config : StateKeeperConfig.t) (tx_count : Z) (protocol_version : ProtocolVersionId) : exec SealResolution :=
  let max_txs_in_batch := get_bootloader_max_txs_in_batch (vm_version protocol_version) in
  assert_then (bool_decide (transaction_slots config ≤ max_txs_in_batch))
    (Ret (if decide (transaction_slots config ≤ tx_count) then IncludeAndSeal else NoSeal)).

Definition gas_should_seal (config : StateKeeperConfig.t) (block_data tx_data : SealData.t) : SealResolution :=
  let tx_bound := bound_of 32 (max_single_tx_gas config) (reject_tx_at_gas_percentage config) in
  let block_bound := bound_of 32 (max_single_tx_gas config) (close_block_at_gas_percentage config) in
  if BlockGasCount.any_field_greater_than (BlockGasCount.add (SealData.gas_count tx_data) new_block_gas_count) tx_bound then
    Unexecutable TooMuchGas
  else if BlockGasCount.any_field_greater_than (SealData.gas_count block_data) (max_single_tx_gas config) then ExcludeAndSeal
  else if BlockGasCount.any_field_greater_than (SealData.gas_count block_data) block_bound then IncludeAndSeal
  else NoSeal.

Definition pubdata_should_seal (max_pubdata_per_batch : Z) (config : StateKeeperConfig.t) (block_data tx_data : SealData.t)
    (protocol_version : ProtocolVersionId) : SealResolution :=
  let max_pubdata_per_l1_batch := max_pubdata_per_batch in
  let reject_bound := bound_of 64 max_pubdata_per_l1_batch (reject_tx_at_eth_params_percentage config) in
  let include_and_seal_bound := bound_of 64 max_pubdata_per_l1_batch (close_block_at_eth_params_percentage config) in
  let size data := wrap 64 (VmExecutionMetrics.size (SealData.execution_metrics data)
      + DeduplicatedWritesMetrics.size (SealData.writes_metrics data) (is_pre_boojum protocol_version)) in
  let block_size := size block_data in
  let tx_size := if decide (VmExecutionMetrics.pubdata_published (SealData.execution_metrics tx_data) = 0)
    then size tx_data
    else VmExecutionMetrics.pubdata_published (SealData.execution_metrics tx_data) in
  let overhead := execution_metrics_bootloader_batch_tip_overhead (vm_version protocol_version) in
  if decide (reject_bound < wrap 64 (tx_size + overhead)) then Unexecutable PubdataLimit
  else if decide (max_pubdata_per_l1_batch < wrap 64 (block_size + overhead)) then ExcludeAndSeal
  else if decide (include_and_seal_bound < wrap 64 (block_size + overhead)) then IncludeAndSeal
  else NoSeal.

Definition circuits_should_seal (config : StateKeeperConfig.t) (block_data tx_data : SealData.t)
    (protocol_version : ProtocolVersionId) : exec SealResolution :=
  let max_allowed_base_layer_circuits := get_max_batch_base_layer_circuits (vm_version protocol_version) in
  let max_circuits := max_circuits_per_batch config in
  assert_then (bool_decide (max_circuits ≤ max_allowed_base_layer_circuits))
  (let overhead := circuit_statistics_bootloader_batch_tip_overhead (vm_version protocol_version) in
   assert_then (bool_decide (overhead < max_circuits))
   (let reject_bound := bound_of 64 max_circuits (reject_tx_at_geometry_percentage config) in
    let include_and_seal_bound := bound_of 64 max_circuits (close_block_at_geometry_percentage config) in
    let used data := CircuitStatistic.total (VmExecutionMetrics.circuit_statistic (SealData.execution_metrics data)) in
    Ret (if decide (reject_bound ≤ wrap 64 (used tx_data + overhead)) then Unexecutable ProofWillFail
         else if decide (max_circuits ≤ wrap 64 (used block_data + overhead)) then ExcludeAndSeal
         else if decide (include_and_seal_bound ≤ wrap 64 (used block_data + overhead)) then IncludeAndSeal
         else NoSeal))).

Definition encoding_should_seal (config : StateKeeperConfig.t) (block_data tx_data : SealData.t)
    (protocol_version : ProtocolVersionId) : SealResolution :=
  let bootloader_tx_encoding_space := get_bootloader_encoding_space (vm_version protocol_version) in
  let reject_bound := bound_of 64 bootloader_tx_encoding_space (reject_tx_at_geometry_percentage config) in
  let include_and_seal_bound := bound_of 64 bootloader_tx_encoding_space (close_block_at_geometry_percentage config) in
  if decide (reject_bound < SealData.cumulative_size tx_data) then Unexecutable LargeEncodingSize
  else if decide (bootloader_tx_encoding_space < SealData.cumulative_size block_data) then ExcludeAndSeal
  else if decide (include_and_seal_bound < SealData.cumulative_size block_data) then IncludeAndSeal
  else NoSeal.

Definition batch_tip_should_seal (tx_count : Z) (tx_data : SealData.t) (protocol_version : ProtocolVersionId) : SealResolution :=
  let batch_tip_overhead := gas_bootloader_batch_tip_overhead (vm_version protocol_version) in
  if decide (SealData.gas_remaining tx_data < batch_tip_overhead) then
    if decide (tx_count = 1) then Unexecutable OutOfGasForBatchTip else ExcludeAndSeal
  else NoSeal.

Definition criterion_should_seal (self : SealCriterion) (config : StateKeeperConfig.t) (tx_count : Z)
    (block_data tx_data : SealData.t) (protocol_version : ProtocolVersionId) : exec SealResolution :=
  match self with
  | SlotsCriterion => slots_should_seal config tx_count protocol_version
  | GasCriterion => Ret (gas_should_seal config block_data tx_data)
  | PubDataBytesCriterion max => Ret (pubdata_should_seal max config block_data tx_data protocol_version)
  | CircuitsCriterion => circuits_should_seal config block_data tx_data protocol_version
  | TxEncodingSizeCriterion => Ret (encoding_should_seal config block_data tx_data protocol_version)
  | GasForBatchTipCriterion => Ret (batch_tip_should_seal tx_count tx_data protocol_version)
  end.

(** ** The sequencer's sealer ([conditional_sealer.rs]) *)
Definition default_sealers (config : StateKeeperConfig.t) : list SealCriterion :=
  [SlotsCriterion; GasCriterion; PubDataBytesCriterion (max_pubdata_per_batch config); CircuitsCriterion;
   TxEncodingSizeCriterion; GasForBatchTipCriterion].

Definition should_seal_l1_batch (config : StateKeeperConfig.t) (sealers : list SealCriterion) (tx_count : Z)
    (block_data tx_data : SealData.t) (protocol_version : ProtocolVersionId) : exec SealResolution :=
  foldM (λ final_seal_resolution sealer,
      seal_resolution ← criterion_should_seal sealer config tx_count block_data tx_data protocol_version;
      Ret (stricter final_seal_resolution seal_resolution))
    NoSeal sealers.

Fixpoint find_unexecutable_reason (config : StateKeeperConfig.t) (sealers : list SealCriterion) (data : SealData.t)
    (protocol_version : ProtocolVersionId) : exec (option SealCriterion) :=
  match sealers with
  | [] => Ret None
  | sealer :: sealers =>
      resolution ← criterion_should_seal sealer config 1 data data protocol_version;
      match resolution with
      | Unexecutable _ => Ret (Some sealer)
      | _ => find_unexecutable_reason config sealers data protocol_version
      end
  end.
End criteria.

(** ** What a resolution says *)
Definition included (r : SealResolution) : Prop := r = NoSeal ∨ r = IncludeAndSeal.

Lemma included_stricter r1 r2 : included (stricter r1 r2) ↔ included r1 ∧ included r2.
Proof. unfold included. destruct r1, r2; cbn; naive_solver. Qed.

Lemma stricter_NoSeal r1 r2 : stricter r1 r2 = NoSeal ↔ r1 = NoSeal ∧ r2 = NoSeal.
Proof. destruct r1, r2; cbn; naive_solver. Qed.

Lemma stricter_Exclude r1 r2 : stricter r1 r2 = ExcludeAndSeal → r1 = ExcludeAndSeal ∨ r2 = ExcludeAndSeal.
Proof. destruct r1, r2; cbn; naive_solver. Qed.

Section sealing.
Context `{ZkEvmParams}.
Import StateKeeperConfig.

(** What the batch may be at most with the transaction in it: what the bootloader, the
    prover and the publication of its data allow. *)
Record batch_fits (config : StateKeeperConfig.t) (block_data : SealData.t) (v : ProtocolVersionId) : Prop := {
  fits_gas : BlockGasCount.commit (SealData.gas_count block_data) ≤ max_single_tx_gas config ∧
    BlockGasCount.prove (SealData.gas_count block_data) ≤ max_single_tx_gas config ∧
    BlockGasCount.execute (SealData.gas_count block_data) ≤ max_single_tx_gas config;
  fits_pubdata : wrap 64 (wrap 64 (VmExecutionMetrics.size (SealData.execution_metrics block_data)
      + DeduplicatedWritesMetrics.size (SealData.writes_metrics block_data) (is_pre_boojum v))
      + execution_metrics_bootloader_batch_tip_overhead (vm_version v)) ≤ max_pubdata_per_batch config;
  fits_circuits : wrap 64 (CircuitStatistic.total (VmExecutionMetrics.circuit_statistic (SealData.execution_metrics block_data))
      + circuit_statistics_bootloader_batch_tip_overhead (vm_version v)) < max_circuits_per_batch config;
  fits_proof : max_circuits_per_batch config ≤ get_max_batch_base_layer_circuits (vm_version v);
  fits_encoding : SealData.cumulative_size block_data ≤ get_bootloader_encoding_space (vm_version v);
}.

Lemma any_field_greater_than_false g bound :
  BlockGasCount.any_field_greater_than g bound = false ↔
  BlockGasCount.commit g ≤ bound ∧ BlockGasCount.prove g ≤ bound ∧ BlockGasCount.execute g ≤ bound.
Proof. unfold BlockGasCount.any_field_greater_than. rewrite !orb_false_iff, !bool_decide_eq_false. lia. Qed.

(** The sealer's result from those of the criteria. *)
Lemma should_seal_l1_batch_inv config n block tx v r :
  should_seal_l1_batch config (default_sealers config) n block tx v = Ret r →
  ∃ slots circuits, slots_should_seal config n v = Ret slots ∧ circuits_should_seal config block tx v = Ret circuits ∧
    r = foldl stricter NoSeal [slots; gas_should_seal config block tx; pubdata_should_seal (max_pubdata_per_batch config) config block tx v;
                               circuits; encoding_should_seal config block tx v; batch_tip_should_seal n tx v].
Proof.
  unfold should_seal_l1_batch, default_sealers. cbn [foldM criterion_should_seal]. intros Hr. inv_exec. subst.
  repeat match goal with E : Ret _ = Ret _ |- _ => injection E as E end. subst. eauto.
Qed.

(** A transaction that is included leaves the batch within every limit, with the
    gas for its last steps in reserve, and below the number of transaction slots
    unless the batch is sealed. *)
Lemma included_batch_fits config (n : Z) (block tx : SealData.t) (v : ProtocolVersionId) r :
  should_seal_l1_batch config (default_sealers config) n block tx v = Ret r → included r →
  batch_fits config block v ∧ transaction_slots config ≤ get_bootloader_max_txs_in_batch (vm_version v) ∧
  gas_bootloader_batch_tip_overhead (vm_version v) ≤ SealData.gas_remaining tx ∧
  (r = NoSeal → n < transaction_slots config).
Proof.
  intros Hr Hinc. destruct (should_seal_l1_batch_inv _ _ _ _ _ _ Hr) as (slots & circuits & Hslots & Hcirc & ->).
  cbn [foldl] in *. rewrite !included_stricter in Hinc. destruct Hinc as [[[[[[_ Hs] Hg] Hp] Hc] He] Ht].
  unfold slots_should_seal in Hslots. unfold circuits_should_seal in Hcirc. unfold assert_then in *. repeat case_bool_decide; try done.
  injection Hslots as <-. injection Hcirc as <-.
  split; [split|split; [done|split]].
  - clear -Hg. unfold gas_should_seal in Hg. do 2 (case_match; [by destruct Hg|]). by apply any_field_greater_than_false.
  - clear -Hp. unfold pubdata_should_seal in Hp. do 2 (case_decide; [by destruct Hp|]). lia.
  - clear -Hc. do 2 (case_decide; [by destruct Hc|]). lia.
  - done.
  - clear -He. unfold encoding_should_seal in He. do 2 (case_decide; [by destruct He|]). lia.
  - clear -Ht. unfold batch_tip_should_seal in Ht. case_decide; [by case_decide; destruct Ht|]. lia.
  - rewrite !stricter_NoSeal. intros [[[[[[_ Hs'] _] _] _] _] _]. clear -Hs'. case_decide; [done|lia].
Qed.

(** The first transaction of a batch is never put off to the next one: when the
    batch's data are the transaction's own, and the bounds for rejecting a transaction
    do not exceed the limits, it is included or rejected. *)
Theorem first_transaction_not_excluded config (block tx : SealData.t) (v : ProtocolVersionId) r :
  should_seal_l1_batch config (default_sealers config) 1 block tx v = Ret r →
  SealData.execution_metrics block = SealData.execution_metrics tx →
  SealData.writes_metrics block = SealData.writes_metrics tx →
  SealData.cumulative_size block = SealData.cumulative_size tx →
  SealData.gas_count block = BlockGasCount.add (SealData.gas_count tx) new_block_gas_count →
  VmExecutionMetrics.pubdata_published (SealData.execution_metrics tx) = 0 →
  bound_of 32 (max_single_tx_gas config) (reject_tx_at_gas_percentage config) ≤ max_single_tx_gas config →
  bound_of 64 (max_pubdata_per_batch config) (reject_tx_at_eth_params_percentage config) ≤ max_pubdata_per_batch config →
  bound_of 64 (max_circuits_per_batch config) (reject_tx_at_geometry_percentage config) ≤ max_circuits_per_batch config →
  bound_of 64 (get_bootloader_encoding_space (vm_version v)) (reject_tx_at_geometry_percentage config)
    ≤ get_bootloader_encoding_space (vm_version v) →
  r ≠ ExcludeAndSeal.
Proof.
  intros Hr Hm Hw Hs Hg Hpub Bgas Bpub Bcirc Benc. destruct (should_seal_l1_batch_inv _ _ _ _ _ _ Hr) as (slots & circuits & Hslots & Hcirc & ->).
  unfold slots_should_seal in Hslots. unfold circuits_should_seal in Hcirc. unfold assert_then in *. repeat case_bool_decide; try done.
  injection Hslots as <-. injection Hcirc as <-. cbn [foldl]. intros E.
  repeat (apply stricter_Exclude in E as [E|E]); try done.
  - clear -E. by case_decide.
  - clear -E Hg Bgas. unfold gas_should_seal in E. rewrite Hg in E. case_match eqn:H1; [done|]. apply any_field_greater_than_false in H1.
    assert (H2 : BlockGasCount.any_field_greater_than (BlockGasCount.add (SealData.gas_count tx) new_block_gas_count) (max_single_tx_gas config) = false)
      by (apply any_field_greater_than_false; lia).
    rewrite H2 in E. by case_match.
  - clear -E Hm Hw Hpub Bpub. unfold pubdata_should_seal in E. rewrite Hm, Hw, (decide_True _ _ Hpub) in E. repeat case_decide; done || lia.
  - clear -E Hm Bcirc. rewrite Hm in E. repeat case_decide; done || lia.
  - clear -E Hs Benc. unfold encoding_should_seal in E. rewrite Hs in E. repeat case_decide; done || lia.
  - clear -E. unfold batch_tip_should_seal in E. case_decide; done.
Qed.
End sealing.

(** ** A batch of the current version with its first transaction *)
Module SealSamples.
Import StateKeeperConfig.
#[local] Instance params : ZkEvmParams := {| max_heap_page_size_in_words := λ _, 4096 |}.

Definition metrics : VmExecutionMetrics.t :=
  VmExecutionMetrics.mk 70000 0 0 1 10 0 8 60 90 400 60000 0 CircuitStatistic.default.
Definition tx_data : SealData.t :=
  SealData.mk metrics (BlockGasCount.mk 2000 0 12500) 40 (DeduplicatedWritesMetrics.mk 2 3 60) 3000000000.
Definition block_data : SealData.t :=
  SealData.mk metrics (BlockGasCount.add (BlockGasCount.mk 2000 0 12500) new_block_gas_count) 40
    (DeduplicatedWritesMetrics.mk 2 3 60) 0.

Lemma first_transaction_not_excluded_witness : NoSeal ≠ ExcludeAndSeal.
Proof.
  apply (first_transaction_not_excluded for_tests block_data tx_data latest NoSeal);
    first [reflexivity | vm_compute; reflexivity | vm_compute; discriminate].
Defined.
End SealSamples.
