(* ===== verification/TxEncoding.v ===== *)
(** * Transactions as the bootloader sees them

    [lib/multivm/src/versions/vm_latest/types/internals/transaction_data.rs]: a
    transaction's ABI encoding in the memory of the bootloader, the length of which
    [lib/types/src/fee.rs] computes without encoding, and the hash of a priority
    transaction. [ethabi]'s byte format, Keccak, [zk_evm]'s bytecode hash and the RLP
    library are third-party: the class [TxLib] with what is documented of them. *)
From Stdlib Require Import ZifyNat.
From S2P Require Import Prelude Types Abi BtcTypes BtcWatch VmLimits FeeModel.
Local Open Scope Z_scope.

Module TransactionData.
Record t := mk {
  tx_type : Z;
  from : Address;
  to : Address;
  gas_limit : U256;
  pubdata_price_limit : U256;
  max_fee_per_gas : U256;
  max_priority_fee_per_gas : U256;
  paymaster : Address;
  nonce : U256;
  value : U256;
  reserved : list U256;
  data : list byte;
  signature : list byte;
  factory_deps : list (list byte);
  paymaster_input : list byte;
  reserved_dynamic : list byte;
  raw_bytes : option (list byte);
}.
End TransactionData.

Class TxLib := {
  keccak256 : list byte → H256;
  abi_encode_tokens : list Token → list byte;
  (** [hash_bytecode]; it panics on bytecode of a wrong length. *)
  hash_bytecode : list byte → exec H256;
  (** Whether a legacy transaction's RLP has a chain id ([extract_chain_id]). *)
  has_chain_id : L2TxCommonData.t → bool;
}.

Definition transaction_type_id (t : TransactionType) : Z :=
  match t with
  | LegacyTransaction => 0
  | EIP2930Transaction => 1
  | EIP1559Transaction => 2
  | EIP712Transaction => 0x71
  | PriorityOpTransaction => 0xff
  | ProtocolUpgradeTransaction => 0xfe
  end.
Definition is_ethereum_type (t : TransactionType) : bool :=
  match t with LegacyTransaction | EIP2930Transaction | EIP1559Transaction => true | _ => false end.
Definition is_l1_tx_type (tx_type : Z) : bool := bool_decide (tx_type = 0xff) || bool_decide (tx_type = 0xfe).

(** ** Length of the encoding ([lib/types/src/{fee,lib}.rs]) *)
Definition words_of (len : Z) : exec Z := ceil_div len 32.

Definition encoding_len (data_len signature_len factory_deps_len paymaster_input_len reserved_dynamic_len : Z) : exec Z :=
  d ← words_of data_len;
  s ← words_of signature_len;
  p ← words_of paymaster_input_len;
  r ← words_of reserved_dynamic_len;
  Ret (wrap 64 ((1 + 19 + 5) + wrap 64 (d + s + p + r + factory_deps_len))).

Definition byte_len {A} (l : list A) : Z := Z.of_nat (length l).

(** [Transaction::encoding_len] *)
Definition tx_encoding_len (self : Transaction.t) : exec Z :=
  let data_len := byte_len (Execute.calldata (Transaction.execute self)) in
  let factory_deps_len := byte_len (Execute.factory_deps (Transaction.execute self)) in
  let '(signature_len, paymaster_input_len) := match Transaction.common_data self with
    | L1 _ => (0, 0)
    | L2 data => (byte_len (L2TxCommonData.signature data), byte_len (PaymasterParams.paymaster_input (L2TxCommonData.paymaster_params data)))
    | ProtocolUpgrade _ => (0, 0)
    end in
  encoding_len data_len signature_len factory_deps_len paymaster_input_len 0.

Section encoding.
Context `{TxLib}.
Import TransactionData.

(** [impl From<Transaction> for TransactionData] *)
Definition from_transaction (execute_tx : Transaction.t) : t :=
  let execute := Transaction.execute execute_tx in
  match Transaction.common_data execute_tx with
  | L2 data =>
      let should_check_chain_id :=
        if bool_decide (L2TxCommonData.transaction_type data = LegacyTransaction) && has_chain_id data then 1 else 0 in
      let gas_per_pubdata_limit :=
        if is_ethereum_type (L2TxCommonData.transaction_type data)
        then get_max_gas_per_pubdata_byte Vm1_5_0IncreasedBootloaderMemory
        else Fee.gas_per_pubdata_limit (L2TxCommonData.fee data) in
      {| tx_type := wrap 8 (transaction_type_id (L2TxCommonData.transaction_type data));
         from := L2TxCommonData.initiator_address data;
         to := Execute.contract_address execute;
         gas_limit := Fee.gas_limit (L2TxCommonData.fee data);
         pubdata_price_limit := gas_per_pubdata_limit;
         max_fee_per_gas := Fee.max_fee_per_gas (L2TxCommonData.fee data);
         max_priority_fee_per_gas := Fee.max_priority_fee_per_gas (L2TxCommonData.fee data);
         paymaster := PaymasterParams.paymaster (L2TxCommonData.paymaster_params data);
         nonce := L2TxCommonData.nonce data;
         value := Execute.value execute;
         reserved := [should_check_chain_id; 0; 0; 0];
         TransactionData.data := Execute.calldata execute;
         signature := L2TxCommonData.signature data;
         factory_deps := Execute.factory_deps execute;
         paymaster_input := PaymasterParams.paymaster_input (L2TxCommonData.paymaster_params data);
         reserved_dynamic := [];
         raw_bytes := Transaction.raw_bytes execute_tx |}
  | L1 data =>
      {| tx_type := transaction_type_id PriorityOpTransaction;
         from := L1TxCommonData.sender data;
         to := Execute.contract_address execute;
         gas_limit := L1TxCommonData.gas_limit data;
         pubdata_price_limit := L1TxCommonData.gas_per_pubdata_limit data;
         max_fee_per_gas := L1TxCommonData.max_fee_per_gas data;
         max_priority_fee_per_gas := 0;
         paymaster := 0;
         nonce := L1TxCommonData.serial_id data;
         value := Execute.value execute;
         reserved := [L1TxCommonData.to_mint data; L1TxCommonData.refund_recipient data; 0; 0];
         TransactionData.data := Execute.calldata execute;
         signature := [];
         factory_deps := Execute.factory_deps execute;
         paymaster_input := [];
         reserved_dynamic := [];
         raw_bytes := None |}
  | ProtocolUpgrade data =>
      {| tx_type := transaction_type_id ProtocolUpgradeTransaction;
         from := ProtocolUpgradeTxCommonData.sender data;
         to := Execute.contract_address execute;
         gas_limit := ProtocolUpgradeTxCommonData.gas_limit data;
         pubdata_price_limit := ProtocolUpgradeTxCommonData.gas_per_pubdata_limit data;
         max_fee_per_gas := ProtocolUpgradeTxCommonData.max_fee_per_gas data;
         max_priority_fee_per_gas := 0;
         paymaster := 0;
         nonce := wrap 16 (ProtocolUpgradeTxCommonData.upgrade_id data);
         value := Execute.value execute;
         reserved := [ProtocolUpgradeTxCommonData.to_mint data; ProtocolUpgradeTxCommonData.refund_recipient data; 0; 0];
         TransactionData.data := Execute.calldata execute;
         signature := [];
         factory_deps := Execute.factory_deps execute;
         paymaster_input := [];
         reserved_dynamic := [];
         raw_bytes := None |}
  end.

Definition abi_encode_with_custom_factory_deps (self : t) (factory_deps_hashes : list U256) : list byte :=
  abi_encode_tokens [TTuple
    [TUint (tx_type self); TAddress (from self); TAddress (to self); TUint (gas_limit self); TUint (pubdata_price_limit self);
     TUint (max_fee_per_gas self); TUint (max_priority_fee_per_gas self); TAddress (paymaster self); TUint (nonce self);
     TUint (value self); TFixedArray (TUint <$> reserved self); TBytes (data self); TBytes (signature self);
     TArray (TUint <$> factory_deps_hashes); TBytes (paymaster_input self); TBytes (reserved_dynamic self)]].

Definition abi_encode (self : t) : exec (list byte) :=
  factory_deps_hashes ← mapM hash_bytecode (factory_deps self);
  Ret (abi_encode_with_custom_factory_deps self factory_deps_hashes).

(** [bytes_to_be_words]: chunks of 32 bytes; the fuel is the number of bytes. *)
Fixpoint chunks (fuel : nat) (bytes : list byte) : list (list byte) :=
  match fuel, bytes with
  | O, _ | _, [] => []
  | S fuel, _ => take 32 bytes :: chunks fuel (drop 32 bytes)
  end.
Definition bytes_to_be_words (bytes : list byte) : list U256 := from_be_bytes <$> chunks (length bytes) bytes.

Definition into_tokens (self : t) : exec (list U256) :=
  bytes ← abi_encode self;
  assert_then (bool_decide (byte_len bytes mod 32 = 0)) (Ret (bytes_to_be_words bytes)).

(** [TransactionVmExt::bootloader_encoding_size] *)
Definition bootloader_encoding_size (tx : Transaction.t) : exec Z :=
  tokens ← into_tokens (from_transaction tx); Ret (byte_len tokens).

Definition canonical_l1_tx_hash (self : t) : exec (option H256) :=
  if is_l1_tx_type (tx_type self) then
    encoded_bytes ← abi_encode self; Ret (Some (keccak256 encoded_bytes))
  else Ret None.

(** [tx_hash] of a priority or upgrade transaction. *)
Definition tx_hash_l1 (self : t) : exec H256 :=
  if is_l1_tx_type (tx_type self) then h ← canonical_l1_tx_hash self; expect h else Panic.
End encoding.

(** ** Overhead *)
Definition TX_SLOT_OVERHEAD_GAS : Z := 10000.
Definition TX_MEMORY_OVERHEAD_GAS : Z := 10.
Definition TX_MAX_COMPUTE_GAS_LIMIT : Z := 80000000.
Definition derive_overhead (encoded_len : Z) : Z :=
  Z.max TX_SLOT_OVERHEAD_GAS (wrap 32 (TX_MEMORY_OVERHEAD_GAS * wrap 32 encoded_len)).

Definition overhead_gas (self : TransactionData.t) : exec Z :=
  encoded_len ← encoding_len (byte_len (TransactionData.data self)) (byte_len (TransactionData.signature self))
    (byte_len (TransactionData.factory_deps self)) (byte_len (TransactionData.paymaster_input self))
    (byte_len (TransactionData.reserved_dynamic self));
  Ret (derive_overhead encoded_len).
Definition trusted_ergs_limit (self : TransactionData.t) : U256 :=
  Z.min TX_MAX_COMPUTE_GAS_LIMIT (TransactionData.gas_limit self).

(** ** Back to an L2 transaction *)
Inductive TxHashCalculationError := CannotCalculateL1HashForL2Tx | CannotCalculateL2HashForL1Tx.

Definition transaction_type_of_id (n : Z) : option TransactionType :=
  if decide (n = 0) then Some LegacyTransaction
  else if decide (n = 1) then Some EIP2930Transaction
  else if decide (n = 2) then Some EIP1559Transaction
  else if decide (n = 0x71) then Some EIP712Transaction
  else if decide (n = 0xff) then Some PriorityOpTransaction
  else if decide (n = 0xfe) then Some ProtocolUpgradeTransaction
  else None.

Definition as_u32 (z : U256) : exec Z := if decide (z < 2 ^ 32) then Ret z else Panic.

Definition try_into_l2 (self : TransactionData.t) : exec (TxHashCalculationError + L2Tx.t) :=
  if is_l1_tx_type (TransactionData.tx_type self) then Ret (inl CannotCalculateL2HashForL1Tx)
  else
    transaction_type ← expect (transaction_type_of_id (TransactionData.tx_type self));
    nonce ← as_u32 (TransactionData.nonce self);
    let common_data := {|
      L2TxCommonData.nonce := nonce;
      L2TxCommonData.fee := {|
        Fee.gas_limit := TransactionData.gas_limit self;
        Fee.max_fee_per_gas := TransactionData.max_fee_per_gas self;
        Fee.max_priority_fee_per_gas := TransactionData.max_priority_fee_per_gas self;
        Fee.gas_per_pubdata_limit := TransactionData.pubdata_price_limit self |};
      L2TxCommonData.initiator_address := TransactionData.from self;
      L2TxCommonData.signature := TransactionData.signature self;
      L2TxCommonData.transaction_type := transaction_type;
      L2TxCommonData.input := None;
      L2TxCommonData.paymaster_params := PaymasterParams.mk (TransactionData.paymaster self) (TransactionData.paymaster_input self) |} in
    let execute := Execute.mk (TransactionData.to self) (TransactionData.data self) (TransactionData.value self)
      (TransactionData.factory_deps self) in
    Ret (inr (L2Tx.mk execute common_data 0 (TransactionData.raw_bytes self))).

(** ** The ABI format, as far as its users rely on it

    A dynamic value is in the tail of the encoding with its offset in the head; an
    array starts with its length; every value fills whole words. *)
Fixpoint is_dynamic (t : Token) : bool :=
  match t with
  | TBytes _ | TString _ | TArray _ => true
  | TFixedArray l | TTuple l => existsb is_dynamic l
  | _ => false
  end.

Definition sum_list (l : list nat) : nat := foldr Nat.add O l.
Definition padded_words (bs : list byte) : nat := ((length bs + 31) / 32)%nat.

Fixpoint token_words (t : Token) : nat :=
  let in_sequence t := ((if is_dynamic t then 1 else 0) + token_words t)%nat in
  match t with
  | TAddress _ | TInt _ | TUint _ | TBool _ => 1
  | TFixedBytes bs => padded_words bs
  | TBytes bs | TString bs => 1 + padded_words bs
  | TArray l => 1 + sum_list (map in_sequence l)
  | TFixedArray l | TTuple l => sum_list (map in_sequence l)
  end.
Definition tokens_words (l : list Token) : nat :=
  sum_list (map (λ t, (if is_dynamic t then 1 else 0) + token_words t)%nat l).

(** An address is encoded as the integer it is. *)
Fixpoint address_as_uint (t : Token) : Token :=
  match t with
  | TAddress a => TUint a
  | TFixedArray l => TFixedArray (map address_as_uint l)
  | TArray l => TArray (map address_as_uint l)
  | TTuple l => TTuple (map address_as_uint l)
  | t => t
  end.

Class TxLibLaws `{TxLib} : Prop := {
  abi_encode_length ts : length (abi_encode_tokens ts) = (32 * tokens_words ts)%nat;
  abi_encode_addresses ts : abi_encode_tokens ts = abi_encode_tokens (map address_as_uint ts);
}.

(** An encoder with these laws. *)
Module AbiEncoder.
Definition word (z : Z) : list byte := to_be_bytes 32 z.
Definition pad (bs : list byte) : list byte := bs ++ replicate (32 * padded_words bs - length bs) "000"%byte.

(** Heads and tails of a sequence, the tails from [offset] on. *)
Fixpoint sequence (offset : nat) (l : list (bool * list byte)) : list byte * list byte :=
  match l with
  | [] => ([], [])
  | (true, bs) :: l =>
      let '(heads, tails) := sequence (offset + length bs) l in (word (Z.of_nat offset) ++ heads, bs ++ tails)
  | (false, bs) :: l => let '(heads, tails) := sequence offset l in (bs ++ heads, tails)
  end.
Definition head_size (l : list (bool * list byte)) : nat :=
  sum_list (map (λ '(d, bs), if (d : bool) then 32%nat else length bs) l).
Definition join (l : list (bool * list byte)) : list byte :=
  let '(heads, tails) := sequence (head_size l) l in heads ++ tails.

Fixpoint encode (t : Token) : list byte :=
  let each t := (is_dynamic t, encode t) in
  match t with
  | TAddress a => word a
  | TInt i | TUint i => word i
  | TBool b => word (if b then 1 else 0)
  | TFixedBytes bs => pad bs
  | TBytes bs | TString bs => word (byte_len bs) ++ pad bs
  | TArray l => word (byte_len l) ++ join (map each l)
  | TFixedArray l | TTuple l => join (map each l)
  end.
Definition encode_tokens (l : list Token) : list byte := join (map (λ t, (is_dynamic t, encode t)) l).

Lemma padded_words_covers (bs : list byte) : (length bs ≤ 32 * padded_words bs)%nat.
Proof. unfold padded_words. pose proof (Nat.div_mod_eq (length bs + 31) 32). pose proof (Nat.mod_upper_bound (length bs + 31) 32). lia. Qed.
Lemma length_pad bs : length (pad bs) = (32 * padded_words bs)%nat.
Proof. unfold pad. rewrite length_app, length_replicate. pose proof (padded_words_covers bs). lia. Qed.
Lemma length_word z : length (word z) = 32%nat.
Proof. reflexivity. Qed.

Lemma length_sequence offset l :
  (length (sequence offset l).1 + length (sequence offset l).2 =
   sum_list (map (λ '(d, bs), (if (d : bool) then 32 else 0) + length bs) l))%nat.
Proof.
  revert offset. induction l as [|[[] bs] l IH]; intros offset; [done| |]; cbn [sequence map sum_list foldr].
  - specialize (IH (offset + length bs)%nat). destruct sequence. cbn [fst snd] in *. rewrite !length_app, length_word. unfold sum_list in IH. lia.
  - specialize (IH offset). destruct sequence. cbn [fst snd] in *. rewrite !length_app. unfold sum_list in IH. lia.
Qed.
Lemma length_join l :
  length (join l) = sum_list (map (λ '(d, bs), (if (d : bool) then 32 else 0) + length bs)%nat l).
Proof. unfold join. pose proof (length_sequence (head_size l) l) as H. destruct sequence. rewrite length_app. done. Qed.
Lemma length_join_tokens l :
  Forall (λ t, length (encode t) = 32 * token_words t)%nat l →
  length (join (map (λ t, (is_dynamic t, encode t)) l)) = (32 * tokens_words l)%nat.
Proof.
  intros HF. rewrite length_join, map_map. unfold tokens_words. induction HF as [|t l Ht _ IH]; [done|].
  cbn [map sum_list foldr]. unfold sum_list in IH. rewrite IH, Ht. destruct (is_dynamic t); lia.
Qed.
End AbiEncoder.

Section token_ind.
Context (P : Token → Prop).
Hypothesis (Haddress : ∀ a, P (TAddress a)) (Hfixed : ∀ bs, P (TFixedBytes bs)) (Hbytes : ∀ bs, P (TBytes bs)).
Hypothesis (Hint : ∀ i, P (TInt i)) (Huint : ∀ i, P (TUint i)) (Hbool : ∀ b, P (TBool b)) (Hstring : ∀ s, P (TString s)).
Hypothesis (Hfixed_array : ∀ l, Forall P l → P (TFixedArray l)) (Harray : ∀ l, Forall P l → P (TArray l)).
Hypothesis (Htuple : ∀ l, Forall P l → P (TTuple l)).
Fixpoint token_ind (t : Token) : P t :=
  let all := fix all (l : list Token) : Forall P l :=
    match l with [] => Forall_nil_2 P | t :: l => Forall_cons_2 P t l (token_ind t) (all l) end in
  match t with
  | TAddress a => Haddress a
  | TFixedBytes bs => Hfixed bs
  | TBytes bs => Hbytes bs
  | TInt i => Hint i
  | TUint i => Huint i
  | TBool b => Hbool b
  | TString s => Hstring s
  | TFixedArray l => Hfixed_array l (all l)
  | TArray l => Harray l (all l)
  | TTuple l => Htuple l (all l)
  end.
End token_ind.

Module AbiEncoderCorrect.
Import AbiEncoder.

Lemma length_encode t : length (encode t) = (32 * token_words t)%nat.
Proof.
  induction t as [a|bs|bs|i|i|b|bs|l IH|l IH|l IH] using token_ind; try reflexivity; cbn [encode token_words].
  - apply length_pad.
  - rewrite length_app, length_pad, length_word. lia.
  - rewrite length_app, length_pad, length_word. lia.
  - by rewrite (length_join_tokens l IH).
  - rewrite length_app, (length_join_tokens l IH), length_word. unfold tokens_words. lia.
  - by rewrite (length_join_tokens l IH).
Qed.

Lemma is_dynamic_address t : is_dynamic (address_as_uint t) = is_dynamic t.
Proof.
  induction t as [| | | | | | |l IH|l IH|l IH] using token_ind; try reflexivity; cbn [address_as_uint is_dynamic];
    induction IH as [|t l Ht _ IHl]; cbn [map existsb]; congruence.
Qed.
Lemma each_address l :
  Forall (λ t, encode (address_as_uint t) = encode t) l →
  map (λ t, (is_dynamic t, encode t)) (map address_as_uint l) = map (λ t, (is_dynamic t, encode t)) l.
Proof. induction 1 as [|t l Ht _ IH]; cbn [map]; [done|]. by rewrite IH, Ht, is_dynamic_address. Qed.
Lemma encode_address t : encode (address_as_uint t) = encode t.
Proof.
  induction t as [| | | | | | |l IH|l IH|l IH] using token_ind; try reflexivity; cbn [address_as_uint encode].
  - by rewrite each_address.
  - unfold byte_len. by rewrite each_address, length_map.
  - by rewrite each_address.
Qed.

(** Keccak and the bytecode hash as parameters of the instance. *)
#[export] Instance lib (k : list byte → H256) (h : list byte → exec H256) (c : L2TxCommonData.t → bool) : TxLib :=
  {| keccak256 := k; abi_encode_tokens := encode_tokens; hash_bytecode := h; has_chain_id := c |}.
#[export] Instance lib_laws k h c : @TxLibLaws (lib k h c).
Proof.
  split; intros ts; cbn; unfold encode_tokens.
  - apply length_join_tokens, Forall_true. intros t. apply length_encode.
  - rewrite each_address; [done|]. apply Forall_true, encode_address.
Qed.
End AbiEncoderCorrect.

Module TxEncodingCorrect.
Section correct.
Context `{TxLibLaws}.
Import TransactionData.

(** ** The computed length is the length of the encoding *)
Lemma length_chunks fuel bs k :
  length bs = (32 * k)%nat → (k ≤ fuel)%nat → length (chunks fuel bs) = k.
Proof.
  revert fuel bs. induction k as [|k IH]; intros fuel bs Hl Hf.
  - destruct bs; [|done]. by destruct fuel.
  - destruct fuel as [|fuel]; [lia|]. destruct bs as [|b bs]; [done|]. cbn [chunks length]. f_equal.
    apply IH; [rewrite length_drop|]; lia.
Qed.

Lemma padded_words_ceil (bs : list byte) : words_of (byte_len bs) = Ret (Z.of_nat (padded_words bs)).
Proof.
  unfold words_of, ceil_div, byte_len, padded_words. destruct bs as [|b bs]; [done|]. cbn [length].
  repeat (case_decide; [lia|]). f_equal. rewrite Nat2Z.inj_div. change (Z.of_nat 32) with 32.
  replace (Z.of_nat (S (length bs) + 31)) with (Z.of_nat (S (length bs)) - 1 + 1 * 32) by lia.
  by rewrite Z.div_add by lia.
Qed.

Lemma sum_list_uints (l : list U256) : sum_list (map (λ t, (if is_dynamic t then 1 else 0) + token_words t)%nat (TUint <$> l)) = length l.
Proof. unfold sum_list. induction l as [|z l IH]; [done|]. cbn. by rewrite IH. Qed.

Lemma abi_encode_words self hashes :
  length (reserved self) = 4%nat →
  length (abi_encode_with_custom_factory_deps self hashes) =
    (32 * (25 + (padded_words (data self) + padded_words (signature self) + padded_words (paymaster_input self)
      + padded_words (reserved_dynamic self)) + length hashes))%nat.
Proof.
  intros Hr. unfold abi_encode_with_custom_factory_deps. rewrite abi_encode_length. f_equal.
  unfold tokens_words. cbn [map sum_list foldr is_dynamic token_words existsb orb].
  rewrite orb_true_r, !sum_list_uints, Hr.
  replace (existsb is_dynamic (TUint <$> reserved self)) with false
    by (clear; induction (reserved self); done).
  lia.
Qed.

Lemma mapM_Ret_length {A B} (f : A → exec B) l k : mapM f l = Ret k → length k = length l.
Proof.
  revert k. induction l as [|a l IH]; intros k Hk; cbn in Hk; [by injection Hk as <-|].
  apply bind_Ret_inv in Hk as (b & _ & Hk). apply bind_Ret_inv in Hk as (k' & Hk' & [= <-]). cbn. by rewrite (IH k').
Qed.

Lemma into_tokens_length self hashes :
  length (reserved self) = 4%nat → mapM hash_bytecode (factory_deps self) = Ret hashes →
  ∃ tokens, into_tokens self = Ret tokens ∧
    length tokens = (25 + (padded_words (data self) + padded_words (signature self) + padded_words (paymaster_input self)
      + padded_words (reserved_dynamic self)) + length (factory_deps self))%nat.
Proof.
  intros Hr Hh. unfold into_tokens, abi_encode. rewrite Hh. cbn [mbind exec_bind].
  pose proof (abi_encode_words self hashes Hr) as Hl. apply mapM_Ret_length in Hh. rewrite Hh in Hl.
  rewrite bool_decide_true. 2: { unfold byte_len. rewrite Hl, Nat2Z.inj_mul. change (Z.of_nat 32) with 32. rewrite Z.mul_comm. apply Z.mod_mul; lia. }
  cbn [assert_then]. eexists. split; [done|]. unfold bytes_to_be_words. rewrite length_fmap.
  apply length_chunks; lia.
Qed.

Lemma encoding_len_words (d s p r : list byte) n :
  encoding_len (byte_len d) (byte_len s) n (byte_len p) (byte_len r) =
    Ret (wrap 64 (Z.of_nat (25 + (padded_words d + padded_words s + padded_words p + padded_words r)) + n)).
Proof.
  unfold encoding_len. rewrite !padded_words_ceil. cbn [mbind exec_bind]. f_equal. unfold wrap.
  rewrite Zplus_mod_idemp_r. f_equal. lia.
Qed.

(** C18 The number of words a transaction takes in the memory of the bootloader, which
    [Transaction::encoding_len] computes from the lengths of its parts and the batch's
    encoding limit is checked against, is the number of words of its ABI encoding, for
    transactions of each kind. *)
Theorem encoding_len_exact tx hashes :
  mapM hash_bytecode (Execute.factory_deps (Transaction.execute tx)) = Ret hashes →
  ∃ n, bootloader_encoding_size tx = Ret n ∧ tx_encoding_len tx = Ret (wrap 64 n).
Proof.
  intros Hh. unfold bootloader_encoding_size.
  destruct (into_tokens_length (from_transaction tx) hashes) as (tokens & -> & Hl).
  { by destruct tx as [[] ? ? ?]. } { by destruct tx as [[] ? ? ?]. }
  exists (byte_len tokens). split; [done|].
  replace (byte_len tokens) with (Z.of_nat (25 + (padded_words (data (from_transaction tx)) + padded_words (signature (from_transaction tx))
    + padded_words (paymaster_input (from_transaction tx)) + padded_words (reserved_dynamic (from_transaction tx))))
    + byte_len (factory_deps (from_transaction tx))) by (unfold byte_len; lia).
  rewrite <-encoding_len_words. by destruct tx as [[] ? ? ?].
Qed.

(** ** Hashes and conversions *)
Lemma mapM_nil {A B} (f : A → exec B) : mapM f [] = Ret [].
Proof. done. Qed.

(** C20 The hash that the VM computes for a deposit - the Keccak hash of the ABI encoding of
    the transaction data made of it - is the canonical hash the Bitcoin watcher stored with
    it, although one encodes its addresses as addresses and the other as integers. *)
Theorem deposit_hash_agrees now common amount input serial_id :
  let tx := create_l1_tx_from_message keccak256 abi_encode_tokens now common amount input serial_id in
  tx_hash_l1 (from_transaction (Transaction.from_L1Tx tx)) = Ret (L1Tx.hash tx).
Proof.
  cbn. unfold tx_hash_l1, canonical_l1_tx_hash, abi_encode. cbn.
  unfold L2CanonicalTransaction.hash, abi_encode_with_custom_factory_deps. cbn. repeat f_equal.
  by rewrite abi_encode_addresses.
Qed.

(** What survives the way of an L2 transaction through the bootloader's format: all but the
    input, the time it was received, and the pubdata limit of an Ethereum transaction. *)
Definition normalised (tx : L2Tx.t) : L2Tx.t :=
  let data := L2Tx.common_data tx in
  let fee := L2TxCommonData.fee data in
  let limit := if is_ethereum_type (L2TxCommonData.transaction_type data)
    then get_max_gas_per_pubdata_byte Vm1_5_0IncreasedBootloaderMemory else Fee.gas_per_pubdata_limit fee in
  L2Tx.mk (L2Tx.execute tx)
    (L2TxCommonData.mk (L2TxCommonData.nonce data)
      (Fee.mk (Fee.gas_limit fee) (Fee.max_fee_per_gas fee) (Fee.max_priority_fee_per_gas fee) limit)
      (L2TxCommonData.initiator_address data) (L2TxCommonData.signature data) (L2TxCommonData.transaction_type data) None
      (L2TxCommonData.paymaster_params data))
    0 (L2Tx.raw_bytes tx).

Theorem l2_transaction_roundtrip data execute received raw :
  let tx := Transaction.mk (L2 data) execute received raw in
  in_width 32 (L2TxCommonData.nonce data) →
  try_into_l2 (from_transaction tx) =
    Ret (if bool_decide (L2TxCommonData.transaction_type data ∈ [PriorityOpTransaction; ProtocolUpgradeTransaction])
         then inl CannotCalculateL2HashForL1Tx
         else inr (normalised (L2Tx.mk execute data received raw))).
Proof.
  intros tx [_ Hn]. unfold try_into_l2, as_u32. cbn.
  destruct data as [n [] a s [] i []], execute; cbn in *; try done; by rewrite decide_True.
Qed.
End correct.
End TxEncodingCorrect.

(** ** Sample transactions *)
Module TxEncodingSamples.
Import AbiEncoderCorrect TxEncodingCorrect.

(** Bytecode has whole words. *)
#[export] Instance sample_lib : TxLib :=
  AbiEncoderCorrect.lib (λ bs, from_be_bytes (take 32 bs))
    (λ dep, if decide (length dep mod 32 = 0)%nat then Ret (from_be_bytes (take 32 dep)) else Panic) (λ _, true).
#[export] Instance sample_laws : @TxLibLaws sample_lib := AbiEncoderCorrect.lib_laws _ _ _.

Definition transfer : Transaction.t :=
  Transaction.mk (L2 (L2TxCommonData.mk 3 (Fee.mk 70000 250000000 0 50000) 0xaa (replicate 65 "001"%byte) EIP712Transaction None
    (PaymasterParams.mk 0xbb (replicate 40 "002"%byte)))) (Execute.mk 0xcc (replicate 36 "003"%byte) 17 [replicate 64 "004"%byte]) 1 None.

Lemma encoding_len_exact_witness :
  bootloader_encoding_size transfer = Ret 33 ∧
  ∃ n, bootloader_encoding_size transfer = Ret n ∧ tx_encoding_len transfer = Ret (wrap 64 n).
Proof. split; [vm_compute; reflexivity|]. eapply encoding_len_exact. vm_compute. reflexivity. Defined.

Definition deposit : L1Tx.t :=
  create_l1_tx_from_message keccak256 abi_encode_tokens 5 (CommonFields.mk 0 [] 20 77 43) 500
    (L1ToL2MessageInput.mk 0xdd 2 ["007"%byte]) 4.
Lemma deposit_hash_agrees_witness :
  tx_hash_l1 (from_transaction (Transaction.from_L1Tx deposit)) = Ret (L1Tx.hash deposit).
Proof. apply (deposit_hash_agrees 5 (CommonFields.mk 0 [] 20 77 43) 500 (L1ToL2MessageInput.mk 0xdd 2 ["007"%byte]) 4). Defined.
End TxEncodingSamples.
