(* ===== verification/VmInterface.v ===== *)
(** * What goes into the virtual machine and comes out of it
    ([lib/vm_interface/src/types/{inputs,outputs}])

    The environments of batches and blocks, logs, results and metrics. Decoding of ABI data,
    the protobuf length of a transaction and [hex::encode] are third-party: [KeeperLib]. *)
From S2P Require Import Prelude Types Abi VmLimits Float StateDiffs Deduplicator FeeModel TxEncoding VmErrors SealCriteria.
Local Open Scope Z_scope.

Abbreviation L2BlockNumber := Z (only parsing).

Class KeeperLib := {
  (** [ethabi::decode(&[ParamType::Bytes], ..)] *)
  abi_decode_bytes : list byte → option (list byte);
  (** [zksync_protobuf::repr::encode::<proto::Transaction>(&tx).len()] *)
  payload_len : Transaction.t → Z;
  hex_encode : list byte → string;
}.

(** ** Transactions *)
(** [L2TxCommonData::hash]: "Transaction must have input data". *)
Definition transaction_hash (tx : Transaction.t) : exec H256 :=
  match Transaction.common_data tx with
  | L1 data => Ret (L1TxCommonData.hash data)
  | L2 data => expect (InputData.hash <$> L2TxCommonData.input data)
  | ProtocolUpgrade data => Ret (ProtocolUpgradeTxCommonData.canonical_tx_hash data)
  end.
Definition is_l1 (tx : Transaction.t) : bool :=
  match Transaction.common_data tx with L1 _ => true | _ => false end.
Definition tx_gas_limit (tx : Transaction.t) : U256 :=
  match Transaction.common_data tx with
  | L1 data => L1TxCommonData.gas_limit data
  | L2 data => Fee.gas_limit (L2TxCommonData.fee data)
  | ProtocolUpgrade data => ProtocolUpgradeTxCommonData.gas_limit data
  end.
Definition tx_format (tx : Transaction.t) : TransactionType :=
  match Transaction.common_data tx with
  | L1 _ => PriorityOpTransaction
  | L2 data => L2TxCommonData.transaction_type data
  | ProtocolUpgrade _ => ProtocolUpgradeTransaction
  end.

Module PriorityOpOnchainData.
Record t := mk { layer_2_tip_fee : U256; onchain_data_hash : H256 }.
(** [L1TxCommonData::onchain_data] *)
Definition of_l1 (data : L1TxCommonData.t) : t := mk (L1TxCommonData.layer_2_tip_fee data) (L1TxCommonData.hash data).
End PriorityOpOnchainData.

(** ** Logs *)
Module L2ToL1Log.
Record t := mk {
  shard_id : Z;
  is_service : bool;
  tx_number_in_block : Z;
  sender : Address;
  key : H256;
  value : H256;
}.
End L2ToL1Log.
Inductive UserL2ToL1Log := UserLog (log : L2ToL1Log.t).
Inductive SystemL2ToL1Log := SystemLog (log : L2ToL1Log.t).

Definition KNOWN_CODES_STORAGE_ADDRESS : Address := 0x8004.
Definition L1_MESSENGER_ADDRESS : Address := 0x8008.
Definition PUBLISH_BYTECODE_OVERHEAD : Z := 100.
Definition L1_MESSAGE_EVENT_SIGNATURE : H256 :=
  0x3a36e47291f4201faf137fab081d92295bce2d53be2c6ca68ba82c7faa9ce241.
Definition PUBLISHED_BYTECODE_SIGNATURE : H256 :=
  0xc94722ff13eacf53547c4741dab5228353a05938ffcdd5d4a2d533ae0e618287.

Definition bytecode_len_in_bytes (bytecodehash : H256) : Z :=
  from_be_bytes (take 2 (drop 2 (to_be_bytes 32 bytecodehash))) * 32.

Module VmEvent.
Record t := mk {
  location : L1BatchNumber * Z;
  address : Address;
  indexed_topics : list H256;
  value : list byte;
}.

Section lib.
Context `{KeeperLib}.

Definition is_l1_message (event : t) : bool :=
  bool_decide (address event = L1_MESSENGER_ADDRESS) && bool_decide (length (indexed_topics event) = 3%nat)
  && bool_decide (indexed_topics event !! 0%nat = Some L1_MESSAGE_EVENT_SIGNATURE).
Definition extract_long_l2_to_l1_messages (events : list t) : exec (list (list byte)) :=
  mapM (λ event, expect (abi_decode_bytes (value event))) (filter (λ event, is_l1_message event = true) events).

Definition is_publication (event : t) : bool :=
  bool_decide (address event = KNOWN_CODES_STORAGE_ADDRESS) && bool_decide (length (indexed_topics event) = 3%nat)
  && bool_decide (indexed_topics event !! 0%nat = Some PUBLISHED_BYTECODE_SIGNATURE)
  && negb (bool_decide (indexed_topics event !! 2%nat = Some 0)).
(** The events have three topics: the index is in range. *)
Definition extract_published_bytecodes (events : list t) : list H256 :=
  omap (λ event, indexed_topics event !! 1%nat) (filter (λ event, is_publication event = true) events).
End lib.
End VmEvent.

Module Refunds.
Record t := mk { gas_refunded : Z; operator_suggested_refund : Z }.
End Refunds.

Module VmExecutionLogs.
Record t := mk {
  storage_logs : list PrevLog;
  events : list VmEvent.t;
  user_l2_to_l1_logs : list UserL2ToL1Log;
  system_l2_to_l1_logs : list SystemL2ToL1Log;
  total_log_queries_count : Z;
}.
Definition total_l2_to_l1_logs_count (self : t) : Z :=
  byte_len (user_l2_to_l1_logs self) + byte_len (system_l2_to_l1_logs self).
End VmExecutionLogs.

Module VmExecutionStatistics.
Record t := mk {
  contracts_used : Z;
  cycles_used : Z;
  gas_used : Z;
  gas_remaining : Z;
  computational_gas_used : Z;
  total_log_queries : Z;
  pubdata_published : Z;
  circuit_statistic : CircuitStatistic.t;
}.
End VmExecutionStatistics.

(** ** Results *)
Module ExecutionResult.
Inductive t :=
| Success (output : list byte)
| Revert (output : VmRevertReason.t)
| Halted (reason : Halt).
Definition is_failed (self : t) : bool := match self with Success _ => false | _ => true end.
End ExecutionResult.

Module VmExecutionResultAndLogs.
Record t := mk {
  result : ExecutionResult.t;
  logs : VmExecutionLogs.t;
  statistics : VmExecutionStatistics.t;
  refunds : Refunds.t;
}.

Section metrics.
Context `{KeeperLib}.
Definition sum (l : list Z) : Z := foldl (λ acc x, wrap 64 (acc + x)) 0 l.
Definition get_execution_metrics (self : t) (tx : option Transaction.t) : exec VmExecutionMetrics.t :=
  let events := VmExecutionLogs.events (logs self) in
  let contracts_deployed := match tx with
    | Some tx => wrap 16 (byte_len (Execute.factory_deps (Transaction.execute tx))) | None => 0 end in
  messages ← VmEvent.extract_long_l2_to_l1_messages events;
  let l2_l1_long_messages := sum ((λ event, (byte_len event + 31) / 32 * 32 + 64) <$> messages) in
  let published_bytecode_bytes := sum ((λ hash, bytecode_len_in_bytes hash + PUBLISH_BYTECODE_OVERHEAD)
      <$> VmEvent.extract_published_bytecodes events) in
  Ret {| VmExecutionMetrics.gas_used := VmExecutionStatistics.gas_used (statistics self);
         VmExecutionMetrics.published_bytecode_bytes := published_bytecode_bytes;
         VmExecutionMetrics.l2_l1_long_messages := l2_l1_long_messages;
         VmExecutionMetrics.l2_to_l1_logs := VmExecutionLogs.total_l2_to_l1_logs_count (logs self);
         VmExecutionMetrics.contracts_used := VmExecutionStatistics.contracts_used (statistics self);
         VmExecutionMetrics.contracts_deployed := contracts_deployed;
         VmExecutionMetrics.vm_events := byte_len events;
         VmExecutionMetrics.storage_logs := byte_len (VmExecutionLogs.storage_logs (logs self));
         VmExecutionMetrics.total_log_queries := VmExecutionStatistics.total_log_queries (statistics self);
         VmExecutionMetrics.cycles_used := VmExecutionStatistics.cycles_used (statistics self);
         VmExecutionMetrics.computational_gas_used := VmExecutionStatistics.computational_gas_used (statistics self);
         VmExecutionMetrics.pubdata_published := VmExecutionStatistics.pubdata_published (statistics self);
         VmExecutionMetrics.circuit_statistic := VmExecutionStatistics.circuit_statistic (statistics self) |}.
End metrics.
End VmExecutionResultAndLogs.
Abbreviation VmResult := VmExecutionResultAndLogs.t.

Inductive TxExecutionStatus := StatusSuccess | StatusFailure.

Inductive FarCallOpcode := Normal | Delegate | Mimic.
Inductive CallType := CallTypeCall (opcode : FarCallOpcode) | Create | NearCall.

Module CallTrace.
Inductive t := mk
  (type : CallType) (from to : Address) (parent_gas gas gas_used : Z) (value : U256) (input output : list byte)
  (error revert_reason : option string) (calls : list t).
End CallTrace.

Module CompressedBytecodeInfo.
Record t := mk { original : list byte; compressed : list byte }.
End CompressedBytecodeInfo.

Module TransactionExecutionResult.
Record t := mk {
  transaction : Transaction.t;
  hash : H256;
  execution_info : VmExecutionMetrics.t;
  execution_status : TxExecutionStatus;
  refunded_gas : Z;
  operator_suggested_refund : Z;
  compressed_bytecodes : list CompressedBytecodeInfo.t;
  call_traces : list CallTrace.t;
  revert_reason : option string;
}.
End TransactionExecutionResult.
Abbreviation TxResult := TransactionExecutionResult.t.

Module CurrentExecutionState.
Record t := mk {
  events : list VmEvent.t;
  deduplicated_storage_logs : list StorageLog.t;
  used_contract_hashes : list U256;
  system_logs : list SystemL2ToL1Log;
  user_l2_to_l1_logs : list UserL2ToL1Log;
  storage_refunds : list Z;
  pubdata_costs : list Z;
}.
End CurrentExecutionState.

Module FinishedL1Batch.
Record t := mk {
  block_tip_execution_result : VmResult;
  final_execution_state : CurrentExecutionState.t;
  final_bootloader_memory : option (list (Z * U256));
  pubdata_input : option (list byte);
  state_diffs : option (list StateDiffRecord.t);
}.
End FinishedL1Batch.

(** ** Environments *)
Module L2BlockEnv.
Record t := mk {
  number : L2BlockNumber;
  timestamp : Z;
  prev_block_hash : H256;
  max_virtual_blocks_to_create : Z;
}.
End L2BlockEnv.

Module L1BatchEnv.
Record t := mk {
  previous_batch_hash : option H256;
  number : L1BatchNumber;
  timestamp : Z;
  fee_input : Types.BatchFeeInput;
  fee_account : Address;
  enforced_base_fee : option Z;
  first_l2_block : L2BlockEnv.t;
}.
End L1BatchEnv.

(** [lib/contracts/src/lib.rs] *)
Module SystemContractCode.
Record t := mk { code : list U256; hash : H256 }.
End SystemContractCode.
Module BaseSystemContractsHashes.
Record t := mk { bootloader : H256; default_aa : H256 }.
End BaseSystemContractsHashes.
Module BaseSystemContracts.
Record t := mk { bootloader : SystemContractCode.t; default_aa : SystemContractCode.t }.
Definition hashes (self : t) : BaseSystemContractsHashes.t :=
  BaseSystemContractsHashes.mk (SystemContractCode.hash (bootloader self)) (SystemContractCode.hash (default_aa self)).
End BaseSystemContracts.

Inductive TxExecutionMode := VerifyExecute | EstimateFee | EthCall.

Module SystemEnv.
Record t := mk {
  zk_porter_available : bool;
  version : ProtocolVersionId;
  base_system_smart_contracts : BaseSystemContracts.t;
  bootloader_gas_limit : Z;
  execution_mode : TxExecutionMode;
  default_validation_computational_gas_limit : Z;
  chain_id : Z;
}.
End SystemEnv.

Definition ZKPORTER_IS_AVAILABLE : bool := false.
Definition BATCH_COMPUTATIONAL_GAS_LIMIT : Z := 2 ^ 32 - 1.

(** [lib/vm_utils/src/storage.rs] *)
Definition l1_batch_params (current_l1_batch_number : L1BatchNumber) (fee_account : Address) (l1_batch_timestamp : Z)
    (previous_batch_hash : H256) (fee_input : Types.BatchFeeInput) (first_l2_block_number : L2BlockNumber)
    (prev_l2_block_hash : H256) (base_system_contracts : BaseSystemContracts.t)
    (validation_computational_gas_limit : Z) (protocol_version : ProtocolVersionId) (virtual_blocks : Z)
    (chain_id : Z) : SystemEnv.t * L1BatchEnv.t :=
  ({| SystemEnv.zk_porter_available := ZKPORTER_IS_AVAILABLE;
      SystemEnv.version := protocol_version;
      SystemEnv.base_system_smart_contracts := base_system_contracts;
      SystemEnv.bootloader_gas_limit := BATCH_COMPUTATIONAL_GAS_LIMIT;
      SystemEnv.execution_mode := VerifyExecute;
      SystemEnv.default_validation_computational_gas_limit := validation_computational_gas_limit;
      SystemEnv.chain_id := chain_id |},
   {| L1BatchEnv.previous_batch_hash := Some previous_batch_hash;
      L1BatchEnv.number := current_l1_batch_number;
      L1BatchEnv.timestamp := l1_batch_timestamp;
      L1BatchEnv.fee_input := fee_input;
      L1BatchEnv.fee_account := fee_account;
      L1BatchEnv.enforced_base_fee := None;
      L1BatchEnv.first_l2_block :=
        L2BlockEnv.mk first_l2_block_number l1_batch_timestamp prev_l2_block_hash virtual_blocks |}).

(** [multivm/src/utils/mod.rs]: [get_batch_base_fee] *)
Definition get_batch_base_fee (l1_batch_env : L1BatchEnv.t) (version : VmVersion) : exec Z :=
  match L1BatchEnv.enforced_base_fee l1_batch_env with
  | Some base_fee => Ret base_fee
  | None => '(base_fee, _) ← derive_base_fee_and_gas_per_pubdata (L1BatchEnv.fee_input l1_batch_env) version; Ret base_fee
  end.

(** [node/via_state_keeper/src/types.rs] *)
Module ExecutionMetricsForCriteria.
Record t := mk { l1_gas : BlockGasCount.t; execution_metrics : VmExecutionMetrics.t }.
Definition new `{KeeperLib} (tx : option Transaction.t) (execution_result : VmResult) : exec t :=
  execution_metrics ← VmExecutionResultAndLogs.get_execution_metrics execution_result tx;
  let l1_gas := match tx with
    | Some tx => gas_count_from_tx_and_metrics tx execution_metrics
    | None => gas_count_from_metrics execution_metrics
    end in
  Ret (mk l1_gas execution_metrics).
End ExecutionMetricsForCriteria.
