(* ===== verification/KeeperUpdates.v ===== *)
(** * The open batch ([node/via_state_keeper/src/updates])

    What the state keeper accumulates of the open L2 block and of the sealed blocks of
    the open L1 batch, and the hash of an L2 block ([lib/types/src/block.rs]). *)
From S2P Require Import Prelude Types Abi VmLimits Float Deduplicator FeeModel TxEncoding VmErrors SealCriteria VmInterface.
Local Open Scope Z_scope.

Section hashes.
Context `{TxLib}.

Definition h256_bytes (h : H256) : list byte := to_be_bytes 32 h.
Definition concat_and_hash (hash1 hash2 : H256) : H256 := keccak256 (h256_bytes hash1 ++ h256_bytes hash2).
End hashes.

Module L2BlockHasher.
Record t := mk {
  number : L2BlockNumber;
  timestamp : Z;
  prev_l2_block_hash : H256;
  txs_rolling_hash : H256;
}.

Section hasher.
Context `{TxLib}.

Definition legacy_hash (l2_block_number : L2BlockNumber) : H256 := keccak256 (to_be_bytes 4 l2_block_number).

Definition new (number : L2BlockNumber) (timestamp : Z) (prev_l2_block_hash : H256) : t :=
  mk number timestamp prev_l2_block_hash 0.

Definition push_tx_hash (self : t) (tx_hash : H256) : t :=
  mk (number self) (timestamp self) (prev_l2_block_hash self) (concat_and_hash (txs_rolling_hash self) tx_hash).

Definition finalize (self : t) (protocol_version : ProtocolVersionId) : H256 :=
  if decide (13 ≤ protocol_version) then
    keccak256 (to_be_bytes 32 (number self) ++ to_be_bytes 32 (timestamp self)
               ++ h256_bytes (prev_l2_block_hash self) ++ h256_bytes (txs_rolling_hash self))
  else legacy_hash (number self).

Definition hash (number : L2BlockNumber) (timestamp : Z) (prev_l2_block_hash txs_rolling_hash : H256)
    (protocol_version : ProtocolVersionId) : H256 :=
  finalize (mk number timestamp prev_l2_block_hash txs_rolling_hash) protocol_version.
End hasher.
End L2BlockHasher.

(** ** The open L2 block *)
Section known.
Context `{TxLib}.

(** [ethabi::long_signature]: the hash of the event's signature. *)
Definition MARKED_AS_KNOWN_SIGNATURE : H256 := keccak256 (bytes "MarkedAsKnown(bytes32,bool)").

Definition is_marked_as_known (event : VmEvent.t) : bool :=
  bool_decide (VmEvent.address event = KNOWN_CODES_STORAGE_ADDRESS)
  && bool_decide (length (VmEvent.indexed_topics event) = 3%nat)
  && bool_decide (VmEvent.indexed_topics event !! 0%nat = Some MARKED_AS_KNOWN_SIGNATURE).
Definition extract_bytecodes_marked_as_known (all_generated_events : list VmEvent.t) : list H256 :=
  omap (λ event, VmEvent.indexed_topics event !! 1%nat) (filter (λ event, is_marked_as_known event = true) all_generated_events).
End known.

Module L2BlockUpdates.
Record t := mk {
  executed_transactions : list TxResult;
  events : list VmEvent.t;
  storage_logs : list PrevLog;
  user_l2_to_l1_logs : list UserL2ToL1Log;
  system_l2_to_l1_logs : list SystemL2ToL1Log;
  new_factory_deps : gmap H256 (list byte);
  l1_gas_count : BlockGasCount.t;
  block_execution_metrics : VmExecutionMetrics.t;
  txs_encoding_size : Z;
  payload_encoding_size : Z;
  timestamp : Z;
  number : L2BlockNumber;
  prev_block_hash : H256;
  virtual_blocks : Z;
  protocol_version : ProtocolVersionId;
}.

Definition new (timestamp : Z) (number : L2BlockNumber) (prev_block_hash : H256) (virtual_blocks : Z)
    (protocol_version : ProtocolVersionId) : t :=
  {| executed_transactions := [];
     events := [];
     storage_logs := [];
     user_l2_to_l1_logs := [];
     system_l2_to_l1_logs := [];
     new_factory_deps := ∅;
     l1_gas_count := BlockGasCount.default;
     block_execution_metrics := VmExecutionMetrics.default;
     txs_encoding_size := 0;
     payload_encoding_size := 0;
     timestamp := timestamp;
     number := number;
     prev_block_hash := prev_block_hash;
     virtual_blocks := virtual_blocks;
     protocol_version := protocol_version |}.

Definition extend_from_fictive_transaction (self : t) (result : VmResult) (gas : BlockGasCount.t)
    (execution_metrics : VmExecutionMetrics.t) : t :=
  let logs := VmExecutionResultAndLogs.logs result in
  {| executed_transactions := executed_transactions self;
     events := events self ++ VmExecutionLogs.events logs;
     storage_logs := storage_logs self ++ VmExecutionLogs.storage_logs logs;
     user_l2_to_l1_logs := user_l2_to_l1_logs self ++ VmExecutionLogs.user_l2_to_l1_logs logs;
     system_l2_to_l1_logs := system_l2_to_l1_logs self ++ VmExecutionLogs.system_l2_to_l1_logs logs;
     new_factory_deps := new_factory_deps self;
     l1_gas_count := BlockGasCount.add (l1_gas_count self) gas;
     block_execution_metrics := VmExecutionMetrics.add (block_execution_metrics self) execution_metrics;
     txs_encoding_size := txs_encoding_size self;
     payload_encoding_size := payload_encoding_size self;
     timestamp := timestamp self;
     number := number self;
     prev_block_hash := prev_block_hash self;
     virtual_blocks := virtual_blocks self;
     protocol_version := protocol_version self |}.

Section updates.
Context `{TxLib, KeeperLib}.

(** [.map(|bytecode| (hash_bytecode(bytecode), bytecode)).collect::<HashMap<_, _>>()] *)
Definition tx_factory_deps (factory_deps : list (list byte)) : exec (gmap H256 (list byte)) :=
  foldM (λ m bytecode, hash ← hash_bytecode bytecode; Ret (<[hash := bytecode]> m)) ∅ factory_deps.
Definition known_bytecodes (deps : gmap H256 (list byte)) (known : list H256) (m : gmap H256 (list byte))
    : exec (gmap H256 (list byte)) :=
  foldM (λ m bytecode_hash, bytecode ← expect (deps !! bytecode_hash); Ret (<[bytecode_hash := bytecode]> m)) m known.

Definition extend_from_executed_transaction (self : t) (tx : Transaction.t) (tx_execution_result : VmResult)
    (tx_l1_gas_this_tx : BlockGasCount.t) (execution_metrics : VmExecutionMetrics.t)
    (compressed_bytecodes : list CompressedBytecodeInfo.t) (call_traces : list CallTrace.t) : exec t :=
  let logs := VmExecutionResultAndLogs.logs tx_execution_result in
  let result := VmExecutionResultAndLogs.result tx_execution_result in
  let refunds := VmExecutionResultAndLogs.refunds tx_execution_result in
  let saved_factory_deps := extract_bytecodes_marked_as_known (VmExecutionLogs.events logs) in
  let execution_status := if ExecutionResult.is_failed result then StatusFailure else StatusSuccess in
  revert_reason ← match result with
    | ExecutionResult.Success _ => Ret None
    | ExecutionResult.Revert output => Ret (Some (VmRevertReason.to_string hex_encode output))
    | ExecutionResult.Halted _ => Panic
    end;
  tx_deps ← tx_factory_deps (Execute.factory_deps (Transaction.execute tx));
  deps ← known_bytecodes tx_deps saved_factory_deps (new_factory_deps self);
  encoding_size ← bootloader_encoding_size tx;
  hash ← transaction_hash tx;
  let executed := {|
    TransactionExecutionResult.hash := hash;
    TransactionExecutionResult.transaction := tx;
    TransactionExecutionResult.execution_info := execution_metrics;
    TransactionExecutionResult.execution_status := execution_status;
    TransactionExecutionResult.refunded_gas := Refunds.gas_refunded refunds;
    TransactionExecutionResult.operator_suggested_refund := Refunds.operator_suggested_refund refunds;
    TransactionExecutionResult.compressed_bytecodes := compressed_bytecodes;
    TransactionExecutionResult.call_traces := call_traces;
    TransactionExecutionResult.revert_reason := revert_reason |} in
  Ret {| executed_transactions := executed_transactions self ++ [executed];
         events := events self ++ VmExecutionLogs.events logs;
         storage_logs := storage_logs self ++ VmExecutionLogs.storage_logs logs;
         user_l2_to_l1_logs := user_l2_to_l1_logs self ++ VmExecutionLogs.user_l2_to_l1_logs logs;
         system_l2_to_l1_logs := system_l2_to_l1_logs self ++ VmExecutionLogs.system_l2_to_l1_logs logs;
         new_factory_deps := deps;
         l1_gas_count := BlockGasCount.add (l1_gas_count self) tx_l1_gas_this_tx;
         block_execution_metrics := VmExecutionMetrics.add (block_execution_metrics self) execution_metrics;
         txs_encoding_size := wrap 64 (txs_encoding_size self + encoding_size);
         payload_encoding_size := wrap 64 (payload_encoding_size self + payload_len tx);
         timestamp := timestamp self;
         number := number self;
         prev_block_hash := prev_block_hash self;
         virtual_blocks := virtual_blocks self;
         protocol_version := protocol_version self |}.

Definition get_l2_block_hash (self : t) : H256 :=
  L2BlockHasher.finalize
    (foldl (λ digest tx, L2BlockHasher.push_tx_hash digest (TransactionExecutionResult.hash tx))
       (L2BlockHasher.new (number self) (timestamp self) (prev_block_hash self)) (executed_transactions self))
    (protocol_version self).

Definition get_env (self : t) : L2BlockEnv.t :=
  L2BlockEnv.mk (number self) (timestamp self) (prev_block_hash self) (virtual_blocks self).
End updates.
End L2BlockUpdates.

(** ** The sealed blocks of the open batch *)
Module L1BatchUpdates.
Record t := mk {
  number : L1BatchNumber;
  executed_transactions : list TxResult;
  priority_ops_onchain_data : list PriorityOpOnchainData.t;
  block_execution_metrics : VmExecutionMetrics.t;
  l1_gas_count : BlockGasCount.t;
  txs_encoding_size : Z;
  finished : option FinishedL1Batch.t;
}.

Definition new (number : L1BatchNumber) : t :=
  {| number := number;
     executed_transactions := [];
     priority_ops_onchain_data := [];
     block_execution_metrics := VmExecutionMetrics.default;
     l1_gas_count := new_block_gas_count;
     txs_encoding_size := 0;
     finished := None |}.

Definition onchain_data (tx : TxResult) : option PriorityOpOnchainData.t :=
  match Transaction.common_data (TransactionExecutionResult.transaction tx) with
  | L1 data => Some (PriorityOpOnchainData.of_l1 data)
  | _ => None
  end.

Definition extend_from_sealed_l2_block (self : t) (l2_block_updates : L2BlockUpdates.t) : t :=
  {| number := number self;
     executed_transactions := executed_transactions self ++ L2BlockUpdates.executed_transactions l2_block_updates;
     priority_ops_onchain_data := priority_ops_onchain_data self
       ++ omap onchain_data (L2BlockUpdates.executed_transactions l2_block_updates);
     block_execution_metrics :=
       VmExecutionMetrics.add (block_execution_metrics self) (L2BlockUpdates.block_execution_metrics l2_block_updates);
     l1_gas_count := BlockGasCount.add (l1_gas_count self) (L2BlockUpdates.l1_gas_count l2_block_updates);
     txs_encoding_size := wrap 64 (txs_encoding_size self + L2BlockUpdates.txs_encoding_size l2_block_updates);
     finished := finished self |}.
Definition with_finished (self : t) (f : FinishedL1Batch.t) : t :=
  mk (number self) (executed_transactions self) (priority_ops_onchain_data self) (block_execution_metrics self)
     (l1_gas_count self) (txs_encoding_size self) (Some f).
End L1BatchUpdates.

(** ** [UpdatesManager] *)
Module L2BlockParams.
Record t := mk { timestamp : Z; virtual_blocks : Z }.
End L2BlockParams.

Module IoCursor.
Record t := mk {
  next_l2_block : L2BlockNumber;
  prev_l2_block_hash : H256;
  prev_l2_block_timestamp : Z;
  l1_batch : L1BatchNumber;
}.
End IoCursor.

(** [vm_interface/src/storage/view.rs] *)
Module StorageViewCache.
Record t := mk {
  read_storage_keys : gmap (Address * H256) H256;
  initial_writes : gmap (Address * H256) bool;
}.
End StorageViewCache.

Module UpdatesManager.
Record t := mk {
  batch_timestamp : Z;
  fee_account_address : Address;
  batch_fee_input : Types.BatchFeeInput;
  base_fee_per_gas : Z;
  base_system_contract_hashes : BaseSystemContractsHashes.t;
  protocol_version : ProtocolVersionId;
  storage_view_cache : option StorageViewCache.t;
  l1_batch : L1BatchUpdates.t;
  l2_block : L2BlockUpdates.t;
  storage_writes_deduplicator : StorageWritesDeduplicator.t;
}.

Definition new (l1_batch_env : L1BatchEnv.t) (system_env : SystemEnv.t) : exec t :=
  let protocol_version := SystemEnv.version system_env in
  let first := L1BatchEnv.first_l2_block l1_batch_env in
  base_fee_per_gas ← get_batch_base_fee l1_batch_env (vm_version protocol_version);
  Ret {| batch_timestamp := L1BatchEnv.timestamp l1_batch_env;
         fee_account_address := L1BatchEnv.fee_account l1_batch_env;
         batch_fee_input := L1BatchEnv.fee_input l1_batch_env;
         base_fee_per_gas := base_fee_per_gas;
         protocol_version := protocol_version;
         base_system_contract_hashes := BaseSystemContracts.hashes (SystemEnv.base_system_smart_contracts system_env);
         l1_batch := L1BatchUpdates.new (L1BatchEnv.number l1_batch_env);
         l2_block := L2BlockUpdates.new (L2BlockEnv.timestamp first) (L2BlockEnv.number first)
           (L2BlockEnv.prev_block_hash first) (L2BlockEnv.max_virtual_blocks_to_create first) protocol_version;
         storage_writes_deduplicator := StorageWritesDeduplicator.new;
         storage_view_cache := None |}.

Definition with_blocks (self : t) (batch : L1BatchUpdates.t) (block : L2BlockUpdates.t) (d : StorageWritesDeduplicator.t) : t :=
  mk (batch_timestamp self) (fee_account_address self) (batch_fee_input self) (base_fee_per_gas self)
     (base_system_contract_hashes self) (protocol_version self) (storage_view_cache self) batch block d.
Definition update_storage_view_cache (self : t) (cache : StorageViewCache.t) : t :=
  mk (batch_timestamp self) (fee_account_address self) (batch_fee_input self) (base_fee_per_gas self)
     (base_system_contract_hashes self) (protocol_version self) (Some cache) (l1_batch self) (l2_block self)
     (storage_writes_deduplicator self).

Definition pending_executed_transactions_len (self : t) : Z :=
  byte_len (L1BatchUpdates.executed_transactions (l1_batch self))
  + byte_len (L2BlockUpdates.executed_transactions (l2_block self)).
Definition pending_l1_gas_count (self : t) : BlockGasCount.t :=
  BlockGasCount.add (L1BatchUpdates.l1_gas_count (l1_batch self)) (L2BlockUpdates.l1_gas_count (l2_block self)).
Definition pending_execution_metrics (self : t) : VmExecutionMetrics.t :=
  VmExecutionMetrics.add (L1BatchUpdates.block_execution_metrics (l1_batch self))
    (L2BlockUpdates.block_execution_metrics (l2_block self)).
Definition pending_txs_encoding_size (self : t) : Z :=
  wrap 64 (L1BatchUpdates.txs_encoding_size (l1_batch self) + L2BlockUpdates.txs_encoding_size (l2_block self)).

Section manager.
Context `{TxLib, KeeperLib}.

Definition io_cursor (self : t) : IoCursor.t :=
  {| IoCursor.next_l2_block := wrap 32 (L2BlockUpdates.number (l2_block self) + 1);
     IoCursor.prev_l2_block_hash := L2BlockUpdates.get_l2_block_hash (l2_block self);
     IoCursor.prev_l2_block_timestamp := L2BlockUpdates.timestamp (l2_block self);
     IoCursor.l1_batch := L1BatchUpdates.number (l1_batch self) |}.

Definition extend_from_executed_transaction (self : t) (tx : Transaction.t) (tx_execution_result : VmResult)
    (compressed_bytecodes : list CompressedBytecodeInfo.t) (tx_l1_gas_this_tx : BlockGasCount.t)
    (execution_metrics : VmExecutionMetrics.t) (call_traces : list CallTrace.t) : exec t :=
  dedup ← StorageWritesDeduplicator.apply (storage_writes_deduplicator self)
    (VmExecutionLogs.storage_logs (VmExecutionResultAndLogs.logs tx_execution_result));
  block ← L2BlockUpdates.extend_from_executed_transaction (l2_block self) tx tx_execution_result tx_l1_gas_this_tx
    execution_metrics compressed_bytecodes call_traces;
  Ret (with_blocks self (l1_batch self) block dedup).

Definition finish_batch (self : t) (finished_batch : FinishedL1Batch.t) : exec t :=
  match L1BatchUpdates.finished (l1_batch self) with
  | Some _ => Panic
  | None =>
      let result := FinishedL1Batch.block_tip_execution_result finished_batch in
      batch_tip_metrics ← ExecutionMetricsForCriteria.new None result;
      dedup ← StorageWritesDeduplicator.apply (storage_writes_deduplicator self)
        (VmExecutionLogs.storage_logs (VmExecutionResultAndLogs.logs result));
      let block := L2BlockUpdates.extend_from_fictive_transaction (l2_block self) result
        (ExecutionMetricsForCriteria.l1_gas batch_tip_metrics)
        (ExecutionMetricsForCriteria.execution_metrics batch_tip_metrics) in
      Ret (with_blocks self (L1BatchUpdates.with_finished (l1_batch self) finished_batch) block dedup)
  end.

Definition push_l2_block (self : t) (l2_block_params : L2BlockParams.t) : t :=
  let new_l2_block_updates := L2BlockUpdates.new (L2BlockParams.timestamp l2_block_params)
    (wrap 32 (L2BlockUpdates.number (l2_block self) + 1)) (L2BlockUpdates.get_l2_block_hash (l2_block self))
    (L2BlockParams.virtual_blocks l2_block_params) (protocol_version self) in
  with_blocks self (L1BatchUpdates.extend_from_sealed_l2_block (l1_batch self) (l2_block self)) new_l2_block_updates
    (storage_writes_deduplicator self).
End manager.
End UpdatesManager.

(** ** Sealing a block *)
Module L2BlockSealCommand.
Record t := mk {
  l1_batch_number : L1BatchNumber;
  l2_block : L2BlockUpdates.t;
  first_tx_index : Z;
  fee_account_address : Address;
  fee_input : Types.BatchFeeInput;
  base_fee_per_gas : Z;
  base_system_contracts_hashes : BaseSystemContractsHashes.t;
  protocol_version : option ProtocolVersionId;
  l2_shared_bridge_addr : Address;
  pre_insert_txs : bool;
}.
End L2BlockSealCommand.

Definition seal_l2_block_command (self : UpdatesManager.t) (l2_shared_bridge_addr : Address) (pre_insert_txs : bool) : L2BlockSealCommand.t :=
  {| L2BlockSealCommand.l1_batch_number := L1BatchUpdates.number (UpdatesManager.l1_batch self);
     L2BlockSealCommand.l2_block := UpdatesManager.l2_block self;
     L2BlockSealCommand.first_tx_index := byte_len (L1BatchUpdates.executed_transactions (UpdatesManager.l1_batch self));
     L2BlockSealCommand.fee_account_address := UpdatesManager.fee_account_address self;
     L2BlockSealCommand.fee_input := UpdatesManager.batch_fee_input self;
     L2BlockSealCommand.base_fee_per_gas := UpdatesManager.base_fee_per_gas self;
     L2BlockSealCommand.base_system_contracts_hashes := UpdatesManager.base_system_contract_hashes self;
     L2BlockSealCommand.protocol_version := Some (UpdatesManager.protocol_version self);
     L2BlockSealCommand.l2_shared_bridge_addr := l2_shared_bridge_addr;
     L2BlockSealCommand.pre_insert_txs := pre_insert_txs |}.
