(* ===== verification/BatchExecutor.v ===== *)
(** * The batch executor ([node/via_state_keeper/src/batch_executor])

    A thread that keeps the virtual machine of one batch and answers commands, one at a
    time. The machine itself is the class [VmCore]; its snapshots are kept as
    [multivm/src/versions/vm_latest/{vm,implementation/snapshots}.rs] keep them. *)
From S2P Require Import Prelude Types Abi VmLimits Float Deduplicator FeeModel TxEncoding VmErrors SealCriteria VmInterface.
Local Open Scope Z_scope.

(** ** The virtual machine *)
Class VmCore (Storage C : Type) := {
  Snapshot : Type;
  vm_new : L1BatchEnv.t → SystemEnv.t → Storage → exec C;
  (** [inspect_transaction_with_bytecode_compression], with a call tracer if the flag is set:
      whether the bytecodes were published, the result and the traced calls. *)
  vm_inspect : bool → C → Transaction.t → bool → exec (bool * VmResult * list CallTrace.t * C);
  vm_last_tx_compressed_bytecodes : C → list CompressedBytecodeInfo.t;
  vm_gas_remaining : C → Z;
  vm_start_new_l2_block : C → L2BlockEnv.t → exec C;
  vm_finish_batch : C → exec (FinishedL1Batch.t * C);
  vm_snapshot : C → Snapshot;
  vm_rollback_to_snapshot : C → Snapshot → exec C;
}.

(** "Roll back VM state to the latest snapshot", after a transaction. *)
Class VmCoreLaws {Storage C} `{VmCore Storage C} : Prop := {
  rollback_to_snapshot_restores trace c tx compression r c' :
    vm_inspect trace c tx compression = Ret (r, c') → vm_rollback_to_snapshot c' (vm_snapshot c) = Ret c;
}.

Module Vm.
Record t {Storage C} `{VmCore Storage C} := mk { core : C; snapshots : list Snapshot }.
Arguments t Storage C {_}.
Arguments mk {Storage C _}.

Section vm.
Context {Storage C : Type} `{VmCore Storage C}.
Abbreviation vm := (t Storage C).

Definition make_snapshot (self : vm) : vm := mk (core self) (vm_snapshot (core self) :: snapshots self).
Definition rollback_to_the_latest_snapshot (self : vm) : exec vm :=
  match snapshots self with
  | [] => Panic
  | snapshot :: snapshots => core ← vm_rollback_to_snapshot (core self) snapshot; Ret (mk core snapshots)
  end.
Definition pop_snapshot_no_rollback (self : vm) : vm := mk (core self) (tail (snapshots self)).
Definition inspect (trace : bool) (self : vm) (tx : Transaction.t) (with_compression : bool)
    : exec (bool * VmResult * list CallTrace.t * vm) :=
  '(r, core) ← vm_inspect trace (core self) tx with_compression; Ret (r, mk core (snapshots self)).
Definition start_new_l2_block (self : vm) (env : L2BlockEnv.t) : exec vm :=
  core ← vm_start_new_l2_block (core self) env; Ret (mk core (snapshots self)).
End vm.
End Vm.

(** ** Results *)
Module TxExecutionResult.
Inductive t :=
| Success (tx_result : VmResult) (tx_metrics : ExecutionMetricsForCriteria.t)
    (compressed_bytecodes : list CompressedBytecodeInfo.t) (call_tracer_result : list CallTrace.t) (gas_remaining : Z)
| RejectedByVm (reason : Halt)
| BootloaderOutOfGasForTx.

Definition err (self : t) : option Halt :=
  match self with
  | Success _ _ _ _ _ => None
  | RejectedByVm rejection_reason => Some rejection_reason
  | BootloaderOutOfGasForTx => Some BootloaderOutOfGas
  end.
End TxExecutionResult.

Module TransactionOutput.
Record t := mk {
  tx_result : VmResult;
  compressed_bytecodes : list CompressedBytecodeInfo.t;
  calls : list CallTrace.t;
}.
End TransactionOutput.

(** ** [main_executor.rs] *)
Module CommandReceiver.
Record t := mk { save_call_traces : bool; optional_bytecode_compression : bool }.

Section executor.
Context {Storage C : Type} `{VmCore Storage C} `{KeeperLib}.
Abbreviation vm := (Vm.t Storage C).
Abbreviation M A := (prog vm string A).

Definition on_vm {A} (f : vm → exec (A * vm)) : M A := λ v, '(a, v) ← f v; Ret (inr a, v).
Definition on_vm_ (f : vm → exec vm) : M () := λ v, v ← f v; Ret (inr (), v).

Definition with_result (r : VmResult) (result : ExecutionResult.t) : VmResult :=
  VmExecutionResultAndLogs.mk result (VmExecutionResultAndLogs.logs r) (VmExecutionResultAndLogs.statistics r)
    (VmExecutionResultAndLogs.refunds r).

(** The call tracer is consumed by the machine, so that its result can be unwrapped. *)
Definition execute_tx_in_vm (self : t) (tx : Transaction.t) : M TransactionOutput.t :=
  '(published_bytecodes, tx_result, calls) ← on_vm (λ v, Vm.inspect (save_call_traces self) v tx true);
  if (published_bytecodes : bool) then
    v ← get;
    mret (TransactionOutput.mk tx_result (vm_last_tx_compressed_bytecodes (Vm.core v)) calls)
  else
    mret (TransactionOutput.mk (with_result tx_result (ExecutionResult.Halted FailedToPublishCompressedBytecodes)) [] []).

Definition execute_tx_in_vm_with_optional_compression (self : t) (tx : Transaction.t) : M TransactionOutput.t :=
  '(published_bytecodes, tx_result, calls) ← on_vm (λ v, Vm.inspect (save_call_traces self) v tx true);
  if (published_bytecodes : bool) then
    v ← get;
    mret (TransactionOutput.mk tx_result (vm_last_tx_compressed_bytecodes (Vm.core v)) calls)
  else
    _ ← on_vm_ Vm.rollback_to_the_latest_snapshot;
    _ ← on_vm_ (λ v, Ret (Vm.make_snapshot v));
    '(compression_result, tx_result, calls) ← on_vm (λ v, Vm.inspect (save_call_traces self) v tx false);
    if (compression_result : bool) then
      v ← get;
      mret (TransactionOutput.mk tx_result (vm_last_tx_compressed_bytecodes (Vm.core v)) calls)
    else fail "compression failed when it wasn't applied"%string.

Definition execute_tx (self : t) (tx : Transaction.t) : M TxExecutionResult.t :=
  _ ← on_vm_ (λ v, Ret (Vm.pop_snapshot_no_rollback v));
  _ ← on_vm_ (λ v, Ret (Vm.make_snapshot v));
  output ← (if optional_bytecode_compression self then execute_tx_in_vm_with_optional_compression self tx
            else execute_tx_in_vm self tx);
  match VmExecutionResultAndLogs.result (TransactionOutput.tx_result output) with
  | ExecutionResult.Halted BootloaderOutOfGas => mret TxExecutionResult.BootloaderOutOfGasForTx
  | ExecutionResult.Halted reason => mret (TxExecutionResult.RejectedByVm reason)
  | _ =>
      tx_metrics ← lift_exec (ExecutionMetricsForCriteria.new (Some tx) (TransactionOutput.tx_result output));
      v ← get;
      mret (TxExecutionResult.Success (TransactionOutput.tx_result output) tx_metrics
        (TransactionOutput.compressed_bytecodes output) (TransactionOutput.calls output) (vm_gas_remaining (Vm.core v)))
  end.

Definition rollback_last_tx : M () := on_vm_ Vm.rollback_to_the_latest_snapshot.
Definition start_next_l2_block (l2_block_env : L2BlockEnv.t) : M () := on_vm_ (λ v, Vm.start_new_l2_block v l2_block_env).

Definition finish_batch : M FinishedL1Batch.t :=
  result ← on_vm (λ v, '(result, core) ← vm_finish_batch (Vm.core v); Ret (result, Vm.mk core (Vm.snapshots v)));
  if ExecutionResult.is_failed (VmExecutionResultAndLogs.result (FinishedL1Batch.block_tip_execution_result result))
  then fail "VM must not fail when finalizing block"%string
  else mret result.
End executor.
End CommandReceiver.

(** ** The handle ([batch_executor/mod.rs])

    The handle sends a command and waits for the answer. When the thread has returned an
    error or panicked, this and every later command gives that error. *)
Module BatchExecutorHandle.
Inductive t {Storage C} `{VmCore Storage C} := Handle (vm : Vm.t Storage C) | Err (e : string).
Arguments t Storage C {_}.

Section handle.
Context {Storage C : Type} `{VmCore Storage C} `{KeeperLib}.
Context (executor : CommandReceiver.t).
Abbreviation handle := (t Storage C).
Abbreviation M A := (prog handle string A).

Definition panicked : string := "batch executor panicked".

Definition command {A} (cmd : prog (Vm.t Storage C) string A) : M A := λ h,
  match h with
  | Err e => Ret (inl e, Err e)
  | Handle vm =>
      match cmd vm with
      | Ret (inr a, vm) => Ret (inr a, Handle vm)
      | Ret (inl e, _) => Ret (inl e, Err e)
      | Panic => Ret (inl panicked, Err panicked)
      end
  end.

(** [MainBatchExecutor::init_batch]: the thread makes the machine. *)
Definition init_batch (storage : Storage) (l1_batch_params : L1BatchEnv.t) (system_env : SystemEnv.t) : handle :=
  match vm_new l1_batch_params system_env storage with
  | Ret core => Handle (Vm.mk core [])
  | Panic => Err panicked
  end.

Definition execute_tx (tx : Transaction.t) : M TxExecutionResult.t :=
  _ ← lift_exec (as_u64 (tx_gas_limit tx));
  command (CommandReceiver.execute_tx executor tx).
Definition start_next_l2_block (env : L2BlockEnv.t) : M () := command (CommandReceiver.start_next_l2_block env).
Definition rollback_last_tx : M () := command CommandReceiver.rollback_last_tx.
Definition finish_batch : M FinishedL1Batch.t := command CommandReceiver.finish_batch.
End handle.
End BatchExecutorHandle.

(** ** What the executor does to the machine *)
Module ExecutorSpec.
Section spec.
Context {Storage C : Type} `{VmCore Storage C} `{KeeperLib}.
Context (self : CommandReceiver.t).

(** Executing a transaction on the machine alone, without snapshots: with its bytecodes
    compressed, and once more from the same state without compression if that failed and
    compression is optional. *)
Definition attempt (c : C) (tx : Transaction.t) : exec ((string + TransactionOutput.t) * C) :=
  '((published, tx_result, calls), c1) ← vm_inspect (CommandReceiver.save_call_traces self) c tx true;
  if (published : bool) then Ret (inr (TransactionOutput.mk tx_result (vm_last_tx_compressed_bytecodes c1) calls), c1)
  else if CommandReceiver.optional_bytecode_compression self then
    '((published, tx_result, calls), c2) ← vm_inspect (CommandReceiver.save_call_traces self) c tx false;
    if (published : bool) then Ret (inr (TransactionOutput.mk tx_result (vm_last_tx_compressed_bytecodes c2) calls), c2)
    else Ret (inl "compression failed when it wasn't applied"%string, c2)
  else Ret (inr (TransactionOutput.mk (CommandReceiver.with_result tx_result (ExecutionResult.Halted FailedToPublishCompressedBytecodes)) [] []), c1).

Definition classify (tx : Transaction.t) (output : TransactionOutput.t) (c : C) : exec TxExecutionResult.t :=
  match VmExecutionResultAndLogs.result (TransactionOutput.tx_result output) with
  | ExecutionResult.Halted BootloaderOutOfGas => Ret TxExecutionResult.BootloaderOutOfGasForTx
  | ExecutionResult.Halted reason => Ret (TxExecutionResult.RejectedByVm reason)
  | _ =>
      tx_metrics ← ExecutionMetricsForCriteria.new (Some tx) (TransactionOutput.tx_result output);
      Ret (TxExecutionResult.Success (TransactionOutput.tx_result output) tx_metrics
        (TransactionOutput.compressed_bytecodes output) (TransactionOutput.calls output) (vm_gas_remaining c))
  end.

Definition run_tx (c : C) (tx : Transaction.t) : exec ((string + TxExecutionResult.t) * C) :=
  '(output, c) ← attempt c tx;
  match output with
  | inl e => Ret (inl e, c)
  | inr output => result ← classify tx output c; Ret (inr result, c)
  end.

Context `{!VmCoreLaws}.

Lemma attempt_inspects c tx output c' :
  attempt c tx = Ret (output, c') → ∃ trace compression r, vm_inspect trace c tx compression = Ret (r, c').
Proof.
  unfold attempt. intros Ha. apply bind_Ret_inv in Ha as ([[[p r] calls] c1] & Hi1 & Ha). destruct p; [simplify_eq; eauto|].
  destruct (CommandReceiver.optional_bytecode_compression self); [|simplify_eq; eauto].
  apply bind_Ret_inv in Ha as ([[[p2 r2] calls2] c2] & Hi2 & Ha). destruct p2; simplify_eq; eauto.
Qed.

Lemma run_tx_inspects c tx r c' :
  run_tx c tx = Ret (r, c') → ∃ trace compression r, vm_inspect trace c tx compression = Ret (r, c').
Proof.
  unfold run_tx. intros Hr. apply bind_Ret_inv in Hr as ([output c1] & Hi1 & Hr).
  assert (c1 = c') as ->. { destruct output; [by simplify_eq|]. by apply bind_Ret_inv in Hr as (? & _ & [= _ <-]). }
  by eapply attempt_inspects.
Qed.

(** The machine between two commands: no snapshot, or the one before the last transaction. *)
Definition one_snapshot (v : Vm.t Storage C) : Prop := (length (Vm.snapshots v) ≤ 1)%nat.

Lemma in_vm_attempts c tx :
  (if CommandReceiver.optional_bytecode_compression self then CommandReceiver.execute_tx_in_vm_with_optional_compression self tx
   else CommandReceiver.execute_tx_in_vm self tx) (Vm.mk c [vm_snapshot c]) =
  ('(r, c') ← attempt c tx; Ret (r, Vm.mk c' [vm_snapshot c])).
Proof.
  unfold attempt, CommandReceiver.execute_tx_in_vm_with_optional_compression, CommandReceiver.execute_tx_in_vm.
  unfold CommandReceiver.on_vm, CommandReceiver.on_vm_, Vm.inspect, mbind, prog_bind, exec_bind, Vm.rollback_to_the_latest_snapshot.
  destruct (CommandReceiver.optional_bytecode_compression self); cbn;
    destruct (vm_inspect _ c tx true) as [[[[[] r] calls] c1]|] eqn:E1; try done; cbn.
  rewrite (rollback_to_snapshot_restores _ _ _ _ _ _ E1). cbn.
  by destruct (vm_inspect _ c tx false) as [[[[[] r2] calls2] c2]|].
Qed.

(** A transaction runs on the machine as if there were no snapshots, and leaves the one
    before it as the only snapshot. *)
Lemma execute_tx_runs (v : Vm.t Storage C) tx :
  one_snapshot v →
  CommandReceiver.execute_tx self tx v =
    ('(r, c') ← run_tx (Vm.core v) tx; Ret (r, Vm.mk c' [vm_snapshot (Vm.core v)])).
Proof.
  destruct v as [c snaps]. intros Hv. unfold CommandReceiver.execute_tx, run_tx. cbn [Vm.core].
  rewrite (prog_bind_step _ _ _ () (Vm.mk c [])).
  2: { unfold one_snapshot in Hv. cbn in Hv. by destruct snaps as [|? [|??]]; cbn in *; [| |lia]. }
  rewrite (prog_bind_step _ _ _ () (Vm.mk c [vm_snapshot c])) by done.
  unfold mbind at 1, prog_bind at 1. rewrite in_vm_attempts.
  destruct (attempt c tx) as [[[e|output] c']|]; try done. cbn.
  unfold classify, mbind, prog_bind, exec_bind, lift_exec, get. cbn.
  destruct (VmExecutionResultAndLogs.result _) as [| |[]]; try done; by destruct ExecutionMetricsForCriteria.new.
Qed.

(** Rolling back after a transaction restores the machine. *)
Lemma rollback_last_tx_restores c tx r c' :
  run_tx c tx = Ret (r, c') →
  CommandReceiver.rollback_last_tx (Vm.mk c' [vm_snapshot c]) = Ret (inr (), Vm.mk c []).
Proof.
  intros (trace & compression & r' & Hi)%run_tx_inspects.
  unfold CommandReceiver.rollback_last_tx, CommandReceiver.on_vm_, Vm.rollback_to_the_latest_snapshot. cbn.
  by rewrite (rollback_to_snapshot_restores _ _ _ _ _ _ Hi).
Qed.

(** ** The machine as a function of what has been kept

    Blocks and transactions in the order they ran, without those rolled back. *)
Inductive vm_op := StartBlock (env : L2BlockEnv.t) | RunTx (tx : Transaction.t).

Definition apply_op (c : C) (op : vm_op) : exec C :=
  match op with
  | StartBlock env => vm_start_new_l2_block c env
  | RunTx tx => '(r, c') ← run_tx c tx; match r with inr _ => Ret c' | inl _ => Panic end
  end.
Definition replay (c : C) (ops : list vm_op) : exec C := foldM apply_op c ops.

Lemma replay_snoc c ops op : replay c (ops ++ [op]) = (c' ← replay c ops; apply_op c' op).
Proof.
  unfold replay. revert c. induction ops as [|o ops IH]; intros c; cbn.
  - by destruct (apply_op c op).
  - destruct (apply_op c o) as [c1|]; cbn; [apply IH|done].
Qed.

(** The handle of a machine that started at [c0] and has kept [ops]. *)
Definition handle_at (c0 : C) (ops : list vm_op) (h : BatchExecutorHandle.t Storage C) : Prop :=
  ∃ v, h = BatchExecutorHandle.Handle v ∧ one_snapshot v ∧ replay c0 ops = Ret (Vm.core v).

Lemma init_batch_at storage env sys c0 :
  vm_new env sys storage = Ret c0 → handle_at c0 [] (BatchExecutorHandle.init_batch storage env sys).
Proof. intros Hn. unfold BatchExecutorHandle.init_batch. rewrite Hn. eexists. split_and!; [done|unfold one_snapshot; cbn; lia|done]. Qed.

Lemma execute_tx_at c0 ops h tx r h' :
  handle_at c0 ops h → BatchExecutorHandle.execute_tx self tx h = Ret (inr r, h') →
  ∃ c c', replay c0 ops = Ret c ∧ run_tx c tx = Ret (inr r, c') ∧
    h' = BatchExecutorHandle.Handle (Vm.mk c' [vm_snapshot c]).
Proof.
  intros (v & -> & Hone & Hrep) He. unfold BatchExecutorHandle.execute_tx in He. inv_prog.
  unfold BatchExecutorHandle.command in *. rewrite execute_tx_runs in * by done.
  destruct (run_tx (Vm.core v) tx) as [[[e|r'] c']|] eqn:Er; simplify_eq/=. eauto.
Qed.

Lemma kept_tx_at c0 ops c tx r c' :
  replay c0 ops = Ret c → run_tx c tx = Ret (inr r, c') →
  handle_at c0 (ops ++ [RunTx tx]) (BatchExecutorHandle.Handle (Vm.mk c' [vm_snapshot c])).
Proof.
  intros Hrep Hrun. eexists. split_and!; [done|unfold one_snapshot; cbn; lia|]. rewrite replay_snoc, Hrep. cbn. by rewrite Hrun.
Qed.

Lemma rollback_at c0 ops c tx r c' :
  replay c0 ops = Ret c → run_tx c tx = Ret (inr r, c') →
  ∃ h, BatchExecutorHandle.rollback_last_tx (BatchExecutorHandle.Handle (Vm.mk c' [vm_snapshot c])) = Ret (inr (), h) ∧ handle_at c0 ops h.
Proof.
  intros Hrep Hrun. eexists. split.
  - unfold BatchExecutorHandle.rollback_last_tx, BatchExecutorHandle.command. by rewrite (rollback_last_tx_restores _ _ _ _ Hrun).
  - eexists. split_and!; [done|unfold one_snapshot; cbn; lia|done].
Qed.

Lemma start_block_at c0 ops h env h' :
  handle_at c0 ops h → BatchExecutorHandle.start_next_l2_block env h = Ret (inr (), h') →
  handle_at c0 (ops ++ [StartBlock env]) h'.
Proof.
  intros (v & -> & Hone & Hrep) He. unfold BatchExecutorHandle.start_next_l2_block, BatchExecutorHandle.command,
    CommandReceiver.start_next_l2_block, CommandReceiver.on_vm_, Vm.start_new_l2_block in He.
  destruct (vm_start_new_l2_block (Vm.core v) env) as [c'|] eqn:Es; simplify_eq/=.
  eexists. split_and!; [done|done|]. rewrite replay_snoc, Hrep. done.
Qed.

Lemma finish_at c0 ops h result h' :
  handle_at c0 ops h → BatchExecutorHandle.finish_batch h = Ret (inr result, h') →
  ∃ c c', replay c0 ops = Ret c ∧ vm_finish_batch c = Ret (result, c') ∧
    ExecutionResult.is_failed (VmExecutionResultAndLogs.result (FinishedL1Batch.block_tip_execution_result result)) = false.
Proof.
  intros (v & -> & Hone & Hrep) He. unfold BatchExecutorHandle.finish_batch, BatchExecutorHandle.command in He.
  destruct (CommandReceiver.finish_batch v) as [[[e|a] v']|] eqn:Ef; simplify_eq/=.
  unfold CommandReceiver.finish_batch in Ef. inv_prog. unfold CommandReceiver.on_vm in *.
  destruct (vm_finish_batch (Vm.core v)) as [[f c']|] eqn:Efin; simplify_eq/=.
  destruct (ExecutionResult.is_failed _) eqn:Efail; [done|]. inv_prog. do 2 eexists. split_and!; [done|done|]. done.
Qed.
End spec.
End ExecutorSpec.
