(* ===== verification/StateKeeper.v ===== *)
(** * The state keeper ([node/via_state_keeper/src/keeper.rs])

    The loop that takes transactions from its I/O, runs them in the batch executor, asks
    the sealer what to do with each, and seals L2 blocks and L1 batches. The I/O, the
    output handlers and the storage of the virtual machine are the interfaces of
    [io/{mod,output_handler}.rs] as classes; [MempoolIO] implements the first.

    The stop signal is a number of polls: the state keeper's loops ask for it before each
    iteration, and it is set once they have asked so often. Every such loop is a
    [while_running] whose fuel is that number, which is therefore enough. *)
From S2P Require Import Prelude Types Abi VmLimits Float Deduplicator FeeModel TxEncoding VmErrors SealCriteria VmInterface KeeperUpdates BatchExecutor.
Local Open Scope Z_scope.

(** ** Interfaces ([io/mod.rs], [io/output_handler.rs]) *)
Module L2BlockExecutionData.
Record t := mk {
  number : L2BlockNumber;
  timestamp : Z;
  prev_block_hash : H256;
  virtual_blocks : Z;
  txs : list Transaction.t;
}.
End L2BlockExecutionData.

Module PendingBatchData.
Record t := mk {
  l1_batch_env : L1BatchEnv.t;
  system_env : SystemEnv.t;
  pending_l2_blocks : list L2BlockExecutionData.t;
}.
End PendingBatchData.

Module L1BatchParams.
Record t := mk {
  protocol_version : ProtocolVersionId;
  validation_computational_gas_limit : Z;
  operator_address : Address;
  fee_input : Types.BatchFeeInput;
  first_l2_block : L2BlockParams.t;
}.
Definition into_env (self : t) (chain_id : Z) (contracts : BaseSystemContracts.t) (cursor : IoCursor.t)
    (previous_batch_hash : H256) : SystemEnv.t * L1BatchEnv.t :=
  l1_batch_params (IoCursor.l1_batch cursor) (operator_address self) (L2BlockParams.timestamp (first_l2_block self))
    previous_batch_hash (fee_input self) (IoCursor.next_l2_block cursor) (IoCursor.prev_l2_block_hash cursor) contracts
    (validation_computational_gas_limit self) (protocol_version self) (L2BlockParams.virtual_blocks (first_l2_block self)) chain_id.
End L1BatchParams.

(** [lib/types/src/protocol_upgrade.rs] *)
Module ProtocolUpgradeTx.
Record t := mk {
  execute : Execute.t;
  common_data : ProtocolUpgradeTxCommonData.t;
  received_timestamp_ms : Z;
}.
Definition into_transaction (tx : t) : Transaction.t :=
  Transaction.mk (ProtocolUpgrade (common_data tx)) (execute tx) (received_timestamp_ms tx) None.
End ProtocolUpgradeTx.

Class StateKeeperIO (I : Type) := {
  io_chain_id : I → Z;
  io_initialize : prog I string (IoCursor.t * option PendingBatchData.t);
  io_wait_for_new_batch_params : IoCursor.t → prog I string (option L1BatchParams.t);
  io_wait_for_new_l2_block_params : IoCursor.t → prog I string (option L2BlockParams.t);
  io_wait_for_next_tx : prog I string (option Transaction.t);
  io_rollback : Transaction.t → prog I string ();
  io_reject : Transaction.t → UnexecutableReason → prog I string ();
  io_load_base_system_contracts : ProtocolVersionId → IoCursor.t → prog I string BaseSystemContracts.t;
  io_load_batch_version_id : L1BatchNumber → prog I string ProtocolVersionId;
  io_load_upgrade_tx : ProtocolVersionId → prog I string (option ProtocolUpgradeTx.t);
  io_load_batch_state_hash : L1BatchNumber → prog I string H256;
  (** [IoSealCriteria] *)
  io_should_seal_l1_batch_unconditionally : UpdatesManager.t → prog I string bool;
  io_should_seal_l2_block : UpdatesManager.t → prog I string bool;
}.

Class StateKeeperOutputHandler (Out : Type) := {
  handler_initialize : IoCursor.t → prog Out string ();
  handler_handle_l2_block : UpdatesManager.t → prog Out string ();
  handler_handle_l1_batch : UpdatesManager.t → prog Out string ();
}.

(** [ReadStorageFactory] of [lib/state/src/storage_factory.rs]. It is given the stop
    receiver, which it may look at. *)
Class ReadStorageFactory (F Storage : Type) := {
  access_storage : L1BatchNumber → prog (nat * F) string (option Storage);
}.
(** What its documentation says: there is no storage only if the stop receiver receives the
    signal. Looking at the receiver does not take the signal back. *)
Class ReadStorageFactoryLaws {F Storage : Type} `{ReadStorageFactory F Storage} : Prop := {
  access_none number stop f stop' f' :
    access_storage number (stop, f) = Ret (inr (None : option Storage), (stop', f')) → stop' = O;
  access_polls number stop f r stop' f' :
    access_storage number (stop, f) = Ret (r, (stop', f')) → (stop' ≤ stop)%nat;
}.

Module OutputHandler.
Section handlers.
Context {Out : Type} `{StateKeeperOutputHandler Out}.

(** The handlers one after another, up to the first that fails. *)
Fixpoint each (op : prog Out string ()) (handlers : list Out) : exec ((string + ()) * list Out) :=
  match handlers with
  | [] => Ret (inr (), [])
  | handler :: handlers =>
      '(r, handler) ← op handler;
      match r with
      | inl e => Ret (inl e, handler :: handlers)
      | inr _ => '(r, handlers) ← each op handlers; Ret (r, handler :: handlers)
      end
  end.
Definition initialize (cursor : IoCursor.t) : prog (list Out) string () := each (handler_initialize cursor).
Definition handle_l2_block (updates_manager : UpdatesManager.t) : prog (list Out) string () := each (handler_handle_l2_block updates_manager).
Definition handle_l1_batch (updates_manager : UpdatesManager.t) : prog (list Out) string () := each (handler_handle_l1_batch updates_manager).
End handlers.
End OutputHandler.

(** [seal_criteria/conditional_sealer.rs] *)
Inductive ConditionalSealer :=
| SequencerSealer (config : StateKeeperConfig.t) (sealers : list SealCriterion)
| NoopSealer.
Definition SequencerSealer_new (config : StateKeeperConfig.t) : ConditionalSealer :=
  SequencerSealer config (default_sealers config).
Definition sealer_should_seal_l1_batch `{ZkEvmParams} (self : ConditionalSealer) (tx_count : Z) (block_data tx_data : SealData.t)
    (protocol_version : ProtocolVersionId) : exec SealResolution :=
  match self with
  | SequencerSealer config sealers => should_seal_l1_batch config sealers tx_count block_data tx_data protocol_version
  | NoopSealer => Ret NoSeal
  end.

Inductive Error := Canceled | Fatal (e : string).

(** ** [ZkSyncStateKeeper] *)
Module ZkSyncStateKeeper.
Record t {I Out F : Type} := mk {
  stop_receiver : nat;
  io : I;
  output_handler : list Out;
  batch_executor : F;
}.
Arguments t : clear implicits.

Section keeper.
Context `{TxLib, KeeperLib, ZkEvmParams} {I Out F Storage C : Type}.
Context `{StateKeeperIO I, StateKeeperOutputHandler Out, ReadStorageFactory F Storage, VmCore Storage C}.
Context (executor : CommandReceiver.t) (sealer : ConditionalSealer).

Abbreviation keeper := (t I Out F).
Abbreviation M A := (prog keeper Error A).
Abbreviation handle := (BatchExecutorHandle.t Storage C).

(** Calls of the parts; an [anyhow] error is fatal. *)
Definition fatal {A} (r : string + A) : Error + A := match r with inl e => inl (Fatal e) | inr a => inr a end.
Definition io_call {A} (op : prog I string A) : M A := λ s,
  '(r, i) ← op (io s); Ret (fatal r, mk _ _ _ (stop_receiver s) i (output_handler s) (batch_executor s)).
Definition output_call {A} (op : prog (list Out) string A) : M A := λ s,
  '(r, o) ← op (output_handler s); Ret (fatal r, mk _ _ _ (stop_receiver s) (io s) o (batch_executor s)).
Definition storage_call {A} (op : prog (nat * F) string A) : M A := λ s,
  '(r, (stop, f)) ← op (stop_receiver s, batch_executor s); Ret (fatal r, mk _ _ _ stop (io s) (output_handler s) f).
Definition executor_call {A} (op : prog handle string A) (h : handle) : M (A * handle) := λ s,
  '(r, h) ← op h; Ret (match r with inl e => inl (Fatal e) | inr a => inr (a, h) end, s).

Definition is_canceled : M bool := λ s,
  match stop_receiver s with
  | O => Ret (inr true, s)
  | S polls => Ret (inr false, mk _ _ _ polls (io s) (output_handler s) (batch_executor s))
  end.

(** [while !self.is_canceled() { .. } Err(Error::Canceled)]: the body goes on with new
    values of the local variables, or returns. *)
Fixpoint while_running {A B} (fuel : nat) (body : B → M (B + A)) (b : B) : M A :=
  match fuel with
  | O => fail Canceled
  | S fuel =>
      canceled ← is_canceled;
      if (canceled : bool) then fail Canceled
      else
        r ← body b;
        match r with
        | inl b => while_running fuel body b
        | inr a => mret a
        end
  end.
Definition while_not_canceled {A B} (body : B → M (B + A)) (b : B) : M A :=
  s ← get; while_running (S (stop_receiver s)) body b.
(** A loop that waits for a result. *)
Definition wait_for {A} (op : M (option A)) : M A :=
  while_not_canceled (λ _ : (), r ← op; mret (match r with Some a => inr a | None => inl () end)) ().

Definition wait_for_new_batch_params (cursor : IoCursor.t) : M L1BatchParams.t :=
  wait_for (io_call (io_wait_for_new_batch_params cursor)).

(** The [select!] asks for the stop signal once more. *)
Definition wait_for_new_batch_env (cursor : IoCursor.t) : M (SystemEnv.t * L1BatchEnv.t) :=
  params ← wait_for_new_batch_params cursor;
  contracts ← io_call (io_load_base_system_contracts (L1BatchParams.protocol_version params) cursor);
  canceled ← is_canceled;
  if (canceled : bool) then fail Canceled
  else
    previous_batch_hash ← io_call (io_load_batch_state_hash (wrap 32 (IoCursor.l1_batch cursor - 1)));
    s ← get;
    mret (L1BatchParams.into_env params (io_chain_id (io s)) contracts cursor previous_batch_hash).

Definition wait_for_new_l2_block_params (updates : UpdatesManager.t) : M L2BlockParams.t :=
  wait_for (io_call (io_wait_for_new_l2_block_params (UpdatesManager.io_cursor updates))).

Definition start_next_l2_block (params : L2BlockParams.t) (updates_manager : UpdatesManager.t) (batch_executor : handle)
    : M (handle * UpdatesManager.t) :=
  let updates_manager := UpdatesManager.push_l2_block updates_manager params in
  let block_env := L2BlockUpdates.get_env (UpdatesManager.l2_block updates_manager) in
  '(_, batch_executor) ← executor_call (BatchExecutorHandle.start_next_l2_block block_env) batch_executor;
  mret (batch_executor, updates_manager).

Definition seal_l2_block (updates_manager : UpdatesManager.t) : M () :=
  output_call (OutputHandler.handle_l2_block updates_manager).

(** [ErasedBatchExecutorImpl::init_batch] *)
Definition init_batch (l1_batch_env : L1BatchEnv.t) (system_env : SystemEnv.t) : M handle :=
  storage ← storage_call (access_storage (wrap 32 (L1BatchEnv.number l1_batch_env - 1)));
  match storage with
  | None => fail Canceled
  | Some storage => mret (BatchExecutorHandle.init_batch storage l1_batch_env system_env)
  end.

Definition load_upgrade_tx (protocol_version : ProtocolVersionId) : M (option ProtocolUpgradeTx.t) :=
  io_call (io_load_upgrade_tx protocol_version).

Definition load_protocol_upgrade_tx (pending_l2_blocks : list L2BlockExecutionData.t) (protocol_version : ProtocolVersionId)
    (l1_batch_number : L1BatchNumber) : M (option ProtocolUpgradeTx.t) :=
  let first_batch_in_shared_bridge := bool_decide (l1_batch_number = 1) && negb (is_pre_shared_bridge protocol_version) in
  previous_batch_protocol_version ← io_call (io_load_batch_version_id (wrap 32 (l1_batch_number - 1)));
  let version_changed := negb (bool_decide (protocol_version = previous_batch_protocol_version)) in
  protocol_upgrade_tx ← (if version_changed || first_batch_in_shared_bridge
                         then io_call (io_load_upgrade_tx protocol_version) else mret None);
  match pending_l2_blocks, protocol_upgrade_tx with
  | block :: _, Some _ =>
      first_tx_to_reexecute ← lift_exec (expect (head (L2BlockExecutionData.txs block)));
      lift_exec (assert_then (bool_decide (tx_format first_tx_to_reexecute = ProtocolUpgradeTransaction)) (Ret None))
  | _, _ => mret protocol_upgrade_tx
  end.

(** Adding a transaction that the executor ran to the open batch; the state keeper does so
    in three places. *)
Definition extend_updates (updates_manager : UpdatesManager.t) (tx : Transaction.t) (tx_result : VmResult)
    (tx_metrics : ExecutionMetricsForCriteria.t) (compressed_bytecodes : list CompressedBytecodeInfo.t)
    (calls : list CallTrace.t) : M UpdatesManager.t :=
  lift_exec (UpdatesManager.extend_from_executed_transaction updates_manager tx tx_result compressed_bytecodes
    (ExecutionMetricsForCriteria.l1_gas tx_metrics) (ExecutionMetricsForCriteria.execution_metrics tx_metrics) calls).

Definition reexecute_tx (open : handle * UpdatesManager.t) (tx : Transaction.t) : M (handle * UpdatesManager.t) :=
  let '(batch_executor, updates_manager) := open in
  '(result, batch_executor) ← executor_call (BatchExecutorHandle.execute_tx executor tx) batch_executor;
  match result with
  | TxExecutionResult.Success tx_result tx_metrics compressed_bytecodes call_tracer_result _ =>
      _ ← lift_exec (transaction_hash tx);
      updates_manager ← extend_updates updates_manager tx tx_result tx_metrics compressed_bytecodes call_tracer_result;
      mret (batch_executor, updates_manager)
  | _ => fail (Fatal "Re-executing stored tx failed. It means that transaction was executed successfully before, but failed after a restart.")
  end.

Definition reexecute_block (acc : nat * (handle * UpdatesManager.t)) (l2_block : L2BlockExecutionData.t)
    : M (nat * (handle * UpdatesManager.t)) :=
  let '(index, (batch_executor, updates_manager)) := acc in
  open ← (if decide (0 < index)%nat then
            start_next_l2_block (L2BlockParams.mk (L2BlockExecutionData.timestamp l2_block) (L2BlockExecutionData.virtual_blocks l2_block))
              updates_manager batch_executor
          else mret (batch_executor, updates_manager));
  open ← foldP reexecute_tx open (L2BlockExecutionData.txs l2_block);
  mret (S index, open).

Definition restore_state (batch_executor : handle) (updates_manager : UpdatesManager.t)
    (l2_blocks_to_reexecute : list L2BlockExecutionData.t) : M (handle * UpdatesManager.t) :=
  match l2_blocks_to_reexecute with
  | [] => mret (batch_executor, updates_manager)
  | _ =>
      '(_, (batch_executor, updates_manager)) ← foldP reexecute_block (O, (batch_executor, updates_manager)) l2_blocks_to_reexecute;
      new_l2_block_params ← wait_for_new_l2_block_params updates_manager;
      start_next_l2_block new_l2_block_params updates_manager batch_executor
  end.

(** What the sealer is shown of a transaction and of the batch with it. *)
Definition seal_data (updates_manager : UpdatesManager.t) (tx : Transaction.t) (tx_result : VmResult)
    (tx_metrics : ExecutionMetricsForCriteria.t) (gas_remaining : Z) : exec (SealData.t * SealData.t * UpdatesManager.t) :=
  let version := UpdatesManager.protocol_version updates_manager in
  let logs := VmExecutionLogs.storage_logs (VmExecutionResultAndLogs.logs tx_result) in
  encoding_len ← tx_encoding_len tx;
  '(dedup, block_writes_metrics) ← StorageWritesDeduplicator.apply_and_rollback
    (UpdatesManager.storage_writes_deduplicator updates_manager) logs;
  let block_writes_l1_gas := gas_count_from_writes block_writes_metrics version in
  tx_writes_metrics ← StorageWritesDeduplicator.apply_on_empty_state logs;
  let tx_writes_l1_gas := gas_count_from_writes tx_writes_metrics version in
  let tx_gas_excluding_writes := ExecutionMetricsForCriteria.l1_gas tx_metrics in
  let tx_data := {|
    SealData.execution_metrics := ExecutionMetricsForCriteria.execution_metrics tx_metrics;
    SealData.gas_count := BlockGasCount.add tx_gas_excluding_writes tx_writes_l1_gas;
    SealData.cumulative_size := encoding_len;
    SealData.writes_metrics := tx_writes_metrics;
    SealData.gas_remaining := gas_remaining |} in
  let block_data := {|
    SealData.execution_metrics := VmExecutionMetrics.add (ExecutionMetricsForCriteria.execution_metrics tx_metrics)
      (UpdatesManager.pending_execution_metrics updates_manager);
    SealData.gas_count := BlockGasCount.add (BlockGasCount.add tx_gas_excluding_writes block_writes_l1_gas)
      (UpdatesManager.pending_l1_gas_count updates_manager);
    SealData.cumulative_size := wrap 64 (encoding_len + UpdatesManager.pending_txs_encoding_size updates_manager);
    SealData.writes_metrics := block_writes_metrics;
    SealData.gas_remaining := gas_remaining |} in
  Ret (block_data, tx_data,
       UpdatesManager.with_blocks updates_manager (UpdatesManager.l1_batch updates_manager) (UpdatesManager.l2_block updates_manager) dedup).

Definition process_one_tx (batch_executor : handle) (updates_manager : UpdatesManager.t) (tx : Transaction.t)
    : M (SealResolution * TxExecutionResult.t * (handle * UpdatesManager.t)) :=
  '(exec_result, batch_executor) ← executor_call (BatchExecutorHandle.execute_tx executor tx) batch_executor;
  let is_first_tx := bool_decide (UpdatesManager.pending_executed_transactions_len updates_manager = 0) in
  match exec_result with
  | TxExecutionResult.BootloaderOutOfGasForTx =>
      let resolution := if is_first_tx then Unexecutable BootloaderOutOfGasReason else ExcludeAndSeal in
      mret (resolution, exec_result, (batch_executor, updates_manager))
  | TxExecutionResult.RejectedByVm NotEnoughGasProvided =>
      let resolution := if is_first_tx then Unexecutable NotEnoughGasProvidedReason else ExcludeAndSeal in
      mret (resolution, exec_result, (batch_executor, updates_manager))
  | TxExecutionResult.RejectedByVm reason =>
      mret (Unexecutable (HaltReason reason), exec_result, (batch_executor, updates_manager))
  | TxExecutionResult.Success tx_result tx_metrics _ _ gas_remaining =>
      '(block_data, tx_data, updates_manager) ← lift_exec (seal_data updates_manager tx tx_result tx_metrics gas_remaining);
      resolution ← lift_exec (sealer_should_seal_l1_batch sealer
        (UpdatesManager.pending_executed_transactions_len updates_manager + 1) block_data tx_data
        (UpdatesManager.protocol_version updates_manager));
      mret (resolution, exec_result, (batch_executor, updates_manager))
  end.

Definition process_upgrade_tx (batch_executor : handle) (updates_manager : UpdatesManager.t) (protocol_upgrade_tx : ProtocolUpgradeTx.t)
    : M (handle * UpdatesManager.t) :=
  if negb (bool_decide (UpdatesManager.pending_executed_transactions_len updates_manager = 0)) then lift_exec Panic
  else
    let tx := ProtocolUpgradeTx.into_transaction protocol_upgrade_tx in
    '(seal_resolution, exec_result, (batch_executor, updates_manager)) ← process_one_tx batch_executor updates_manager tx;
    match seal_resolution with
    | NoSeal | IncludeAndSeal =>
        match exec_result with
        | TxExecutionResult.Success tx_result tx_metrics compressed_bytecodes _ _ =>
            if ExecutionResult.is_failed (VmExecutionResultAndLogs.result tx_result) then fail (Fatal "Failed upgrade tx")
            else
              updates_manager ← extend_updates updates_manager tx tx_result tx_metrics compressed_bytecodes [];
              mret (batch_executor, updates_manager)
        | _ => fail (Fatal "Tx inclusion seal resolution must be a result of a successful tx execution")
        end
    | ExcludeAndSeal => fail (Fatal "first tx in batch cannot result into `ExcludeAndSeal`")
    | Unexecutable _ => fail (Fatal "Upgrade transaction is unexecutable")
    end.

(** What is done with a transaction by the resolution it got. *)
Definition apply_resolution (seal_resolution : SealResolution) (exec_result : TxExecutionResult.t)
    (batch_executor : handle) (updates_manager : UpdatesManager.t) (tx : Transaction.t) : M (handle * UpdatesManager.t) :=
  match seal_resolution with
  | NoSeal | IncludeAndSeal =>
      match exec_result with
      | TxExecutionResult.Success tx_result tx_metrics compressed_bytecodes call_tracer_result _ =>
          updates_manager ← extend_updates updates_manager tx tx_result tx_metrics compressed_bytecodes call_tracer_result;
          mret (batch_executor, updates_manager)
      | _ => lift_exec Panic
      end
  | ExcludeAndSeal =>
      '(_, batch_executor) ← executor_call BatchExecutorHandle.rollback_last_tx batch_executor;
      _ ← io_call (io_rollback tx);
      mret (batch_executor, updates_manager)
  | Unexecutable reason =>
      '(_, batch_executor) ← executor_call BatchExecutorHandle.rollback_last_tx batch_executor;
      _ ← io_call (io_reject tx reason);
      mret (batch_executor, updates_manager)
  end.

(** An iteration of the loop of [process_l1_batch]: [inr] when the batch is to be sealed. *)
Definition process_l1_batch_iteration (open : handle * UpdatesManager.t)
    : M ((handle * UpdatesManager.t) + (handle * UpdatesManager.t)) :=
  let '(batch_executor, updates_manager) := open in
  seal_batch ← io_call (io_should_seal_l1_batch_unconditionally updates_manager);
  if (seal_batch : bool) then mret (inr (batch_executor, updates_manager))
  else
    seal_block ← io_call (io_should_seal_l2_block updates_manager);
    '(batch_executor, updates_manager) ←
      (if (seal_block : bool) then
         _ ← seal_l2_block updates_manager;
         new_l2_block_params ← wait_for_new_l2_block_params updates_manager;
         start_next_l2_block new_l2_block_params updates_manager batch_executor
       else mret (batch_executor, updates_manager));
    tx ← io_call io_wait_for_next_tx;
    match tx with
    | None => mret (inl (batch_executor, updates_manager))
    | Some tx =>
        _ ← lift_exec (transaction_hash tx);
        '(seal_resolution, exec_result, (batch_executor, updates_manager)) ← process_one_tx batch_executor updates_manager tx;
        open ← apply_resolution seal_resolution exec_result batch_executor updates_manager tx;
        mret (if should_seal seal_resolution then inr open else inl open)
    end.

Definition process_l1_batch (batch_executor : handle) (updates_manager : UpdatesManager.t)
    (protocol_upgrade_tx : option ProtocolUpgradeTx.t) : M (handle * UpdatesManager.t) :=
  open ← match protocol_upgrade_tx with
         | Some tx => process_upgrade_tx batch_executor updates_manager tx
         | None => mret (batch_executor, updates_manager)
         end;
  while_not_canceled process_l1_batch_iteration open.

(** Sealing the batch: the open block if it has transactions, and an empty one after it for
    the end of the batch. *)
Definition seal_l1_batch (batch_executor : handle) (updates_manager : UpdatesManager.t) : M UpdatesManager.t :=
  '(batch_executor, updates_manager) ←
    (match L2BlockUpdates.executed_transactions (UpdatesManager.l2_block updates_manager) with
     | [] => mret (batch_executor, updates_manager)
     | _ =>
         _ ← seal_l2_block updates_manager;
         new_l2_block_params ← wait_for_new_l2_block_params updates_manager;
         start_next_l2_block new_l2_block_params updates_manager batch_executor
     end);
  '(finished_batch, _) ← executor_call BatchExecutorHandle.finish_batch batch_executor;
  updates_manager ← lift_exec (UpdatesManager.finish_batch updates_manager finished_batch);
  _ ← output_call (OutputHandler.handle_l1_batch updates_manager);
  mret updates_manager.

(** The body of the loop of [run_inner]; it never returns. *)
Definition run_iteration (locals : handle * UpdatesManager.t * option ProtocolUpgradeTx.t)
    : M ((handle * UpdatesManager.t * option ProtocolUpgradeTx.t) + Empty_set) :=
  let '(batch_executor, updates_manager, protocol_upgrade_tx) := locals in
  '(batch_executor, updates_manager) ← process_l1_batch batch_executor updates_manager protocol_upgrade_tx;
  let sealed_batch_protocol_version := UpdatesManager.protocol_version updates_manager in
  sealed ← seal_l1_batch batch_executor updates_manager;
  let cursor := UpdatesManager.io_cursor sealed in
  let next_cursor := IoCursor.mk (IoCursor.next_l2_block cursor) (IoCursor.prev_l2_block_hash cursor)
    (IoCursor.prev_l2_block_timestamp cursor) (wrap 32 (IoCursor.l1_batch cursor + 1)) in
  '(system_env, l1_batch_env) ← wait_for_new_batch_env next_cursor;
  updates_manager ← lift_exec (UpdatesManager.new l1_batch_env system_env);
  batch_executor ← init_batch l1_batch_env system_env;
  let version_changed := negb (bool_decide (SystemEnv.version system_env = sealed_batch_protocol_version)) in
  protocol_upgrade_tx ← (if version_changed then load_upgrade_tx (SystemEnv.version system_env) else mret None);
  mret (inl (batch_executor, updates_manager, protocol_upgrade_tx)).

(** The state to start with: the pending batch, or a new one. The check for a pending block
    is an argument of a log message of level [info], which is taken to be enabled. *)
Definition initialize : M (handle * UpdatesManager.t * option ProtocolUpgradeTx.t) :=
  '(cursor, pending_batch_params) ← io_call io_initialize;
  _ ← output_call (OutputHandler.initialize cursor);
  pending ← match pending_batch_params with
    | Some params =>
        match PendingBatchData.pending_l2_blocks params with
        | [] => fail (Fatal "expected at least one pending L2 block")
        | _ => mret params
        end
    | None =>
        '(system_env, l1_batch_env) ← wait_for_new_batch_env cursor;
        mret (PendingBatchData.mk l1_batch_env system_env [])
    end;
  let l1_batch_env := PendingBatchData.l1_batch_env pending in
  let system_env := PendingBatchData.system_env pending in
  let pending_l2_blocks := PendingBatchData.pending_l2_blocks pending in
  updates_manager ← lift_exec (UpdatesManager.new l1_batch_env system_env);
  protocol_upgrade_tx ← load_protocol_upgrade_tx pending_l2_blocks (SystemEnv.version system_env) (L1BatchEnv.number l1_batch_env);
  batch_executor ← init_batch l1_batch_env system_env;
  '(batch_executor, updates_manager) ← restore_state batch_executor updates_manager pending_l2_blocks;
  mret (batch_executor, updates_manager, protocol_upgrade_tx).

Definition run_inner : M Empty_set :=
  locals ← initialize;
  while_not_canceled run_iteration locals.

(** [run]: the result of the state keeper's task. *)
Definition run (self : keeper) : exec ((string + ()) * keeper) :=
  '(r, self) ← (run_inner self : exec ((Error + Empty_set) * keeper));
  Ret (match r with
       | inr never => match never in Empty_set return (string + ()) with end
       | inl (Fatal e) => inl e
       | inl Canceled => inr ()
       end, self).
End keeper.
End ZkSyncStateKeeper.

(** ** What every operation of the state keeper has

    A property that the state keeper's calls have and that its sequencing and its loops keep
    is one of the whole task. *)
Module KeeperShape.
Import ZkSyncStateKeeper.
Section shape.
Context `{TxLib, KeeperLib, ZkEvmParams} {I Out F Storage C : Type}.
Context `{StateKeeperIO I, StateKeeperOutputHandler Out, ReadStorageFactory F Storage, VmCore Storage C}.
Context (executor : CommandReceiver.t) (sealer : ConditionalSealer).
Abbreviation keeper := (t I Out F).
Abbreviation M A := (prog keeper Error A).
Abbreviation handle := (BatchExecutorHandle.t Storage C).

(** The calls of the I/O. *)
Inductive io_operation : ∀ A, prog I string A → Prop :=
| op_initialize : io_operation _ io_initialize
| op_new_batch_params cursor : io_operation _ (io_wait_for_new_batch_params cursor)
| op_new_l2_block_params cursor : io_operation _ (io_wait_for_new_l2_block_params cursor)
| op_next_tx : io_operation _ io_wait_for_next_tx
| op_rollback tx : io_operation _ (io_rollback tx)
| op_reject tx reason : io_operation _ (io_reject tx reason)
| op_contracts v cursor : io_operation _ (io_load_base_system_contracts v cursor)
| op_version n : io_operation _ (io_load_batch_version_id n)
| op_upgrade_tx v : io_operation _ (io_load_upgrade_tx v)
| op_state_hash n : io_operation _ (io_load_batch_state_hash n)
| op_seal_batch u : io_operation _ (io_should_seal_l1_batch_unconditionally u)
| op_seal_block u : io_operation _ (io_should_seal_l2_block u).

Record closed (Φ : ∀ A, M A → Prop) : Prop := {
  closed_ret A (a : A) : Φ _ (mret a);
  closed_get : Φ _ get;
  closed_fatal A e : Φ A (fail (Fatal e));
  closed_lift A (m : exec A) : Φ _ (lift_exec m);
  closed_bind A B (m : M A) (f : A → M B) : Φ _ m → (∀ a, Φ _ (f a)) → Φ _ (m ≫= f);
  closed_io A (op : prog I string A) : io_operation A op → Φ _ (io_call op);
  closed_output A (op : prog (list Out) string A) : Φ _ (output_call op);
  closed_executor A (op : prog handle string A) h : Φ _ (executor_call op h);
  closed_init_batch env sys : Φ handle (init_batch env sys);
  closed_if_canceled A (m : M A) : Φ _ m → Φ _ (canceled ← is_canceled; if (canceled : bool) then fail Canceled else m);
  closed_while A B (body : B → M (B + A)) b : (∀ b, Φ _ (body b)) → Φ _ (while_not_canceled body b);
}.

Context (Φ : ∀ A, M A → Prop) (Hc : closed Φ).
#[local] Arguments Φ {A}.

Ltac shape :=
  repeat first
  [ progress intros | apply (closed_ret _ Hc) | apply (closed_get _ Hc) | apply (closed_fatal _ Hc) | apply (closed_lift _ Hc)
  | apply (closed_io _ Hc); constructor | apply (closed_output _ Hc) | apply (closed_executor _ Hc) | apply (closed_init_batch _ Hc)
  | apply (closed_while _ Hc) | apply (closed_if_canceled _ Hc) | apply (closed_bind _ Hc); [|intros]
  | case_match; subst | progress cbn beta iota zeta ].

Lemma shape_foldP {A B} (f : A → B → M A) a l : (∀ a b, Φ (f a b)) → Φ (foldP f a l).
Proof. intros Hf. revert a. induction l as [|b l IH]; intros a; cbn [foldP]; [shape|]. apply (closed_bind _ Hc); auto. Qed.
Lemma shape_wait_for {A} (op : M (option A)) : Φ op → Φ (wait_for op).
Proof. intros Hop. unfold wait_for. apply (closed_while _ Hc). intros _. apply (closed_bind _ Hc); [done|]. shape. Qed.

Lemma shape_new_batch_env cursor : Φ (wait_for_new_batch_env cursor).
Proof. unfold wait_for_new_batch_env, wait_for_new_batch_params. apply (closed_bind _ Hc); [apply shape_wait_for; shape|]. shape. Qed.
Lemma shape_start_next params u (h : handle) : Φ (start_next_l2_block params u h).
Proof. unfold start_next_l2_block. shape. Qed.
Lemma shape_wait_block u : Φ (wait_for_new_l2_block_params u).
Proof. apply shape_wait_for. shape. Qed.
Lemma shape_next_block u (h : handle) : Φ (_ ← seal_l2_block u; params ← wait_for_new_l2_block_params u; start_next_l2_block params u h).
Proof.
  apply (closed_bind _ Hc); [unfold seal_l2_block; shape|]. intros _. apply (closed_bind _ Hc); [apply shape_wait_block|].
  intros. apply shape_start_next.
Qed.
Lemma shape_load_upgrade blocks v n : Φ (load_protocol_upgrade_tx blocks v n).
Proof. unfold load_protocol_upgrade_tx. shape. Qed.
Lemma shape_reexecute_tx hu tx : Φ (reexecute_tx executor hu tx).
Proof. unfold reexecute_tx, extend_updates. destruct hu. shape. Qed.
Lemma shape_restore_state h u blocks : Φ (restore_state executor h u blocks).
Proof.
  unfold restore_state. destruct blocks as [|b blocks]; [shape|]. apply (closed_bind _ Hc).
  - apply shape_foldP. intros [i [h' u']] b'. unfold reexecute_block. apply (closed_bind _ Hc).
    + case_match; [apply shape_start_next|shape].
    + intros hu. apply (closed_bind _ Hc); [apply shape_foldP; intros; apply shape_reexecute_tx|shape].
  - intros [i [h' u']]. apply (closed_bind _ Hc); [apply shape_wait_block|]. intros params. apply shape_start_next.
Qed.
Lemma shape_process_one_tx h u tx : Φ (process_one_tx executor sealer h u tx).
Proof. unfold process_one_tx. shape. Qed.
Lemma shape_process_upgrade h u tx : Φ (process_upgrade_tx executor sealer h u tx).
Proof.
  unfold process_upgrade_tx, extend_updates. case_match; [shape|]. apply (closed_bind _ Hc); [apply shape_process_one_tx|].
  intros [[res er] [h' u']]. shape.
Qed.
Lemma shape_iteration hu : Φ (process_l1_batch_iteration executor sealer hu).
Proof.
  destruct hu as [h u]. unfold process_l1_batch_iteration, apply_resolution, extend_updates.
  apply (closed_bind _ Hc); [shape|]. intros []; [shape|]. apply (closed_bind _ Hc); [shape|]. intros seal. apply (closed_bind _ Hc).
  { destruct seal; [|shape]. apply shape_next_block. }
  intros [h' u']. apply (closed_bind _ Hc); [shape|]. intros [tx|]; [|shape]. apply (closed_bind _ Hc); [shape|]. intros hash.
  apply (closed_bind _ Hc); [apply shape_process_one_tx|]. intros [[res er] [h2 u2]]. shape.
Qed.
Lemma shape_seal_l1_batch (h : handle) u : Φ (seal_l1_batch h u).
Proof. unfold seal_l1_batch. apply (closed_bind _ Hc); [case_match; [shape|apply shape_next_block]|]. intros [h' u']. shape. Qed.
Lemma shape_run_iteration locals : Φ (run_iteration executor sealer locals).
Proof.
  destruct locals as [[h u] tx]. unfold run_iteration, process_l1_batch, load_upgrade_tx. apply (closed_bind _ Hc).
  { apply (closed_bind _ Hc); [destruct tx; [apply shape_process_upgrade|shape]|]. intros hu. apply (closed_while _ Hc). intros hu'. apply shape_iteration. }
  intros [h' u']. apply (closed_bind _ Hc); [apply shape_seal_l1_batch|]. intros sealed. apply (closed_bind _ Hc); [apply shape_new_batch_env|].
  intros [sys env]. shape.
Qed.
Lemma shape_run_inner : Φ (run_inner executor sealer).
Proof.
  unfold run_inner, initialize. apply (closed_bind _ Hc).
  - apply (closed_bind _ Hc); [shape|]. intros [cursor pending]. apply (closed_bind _ Hc); [shape|]. intros _. apply (closed_bind _ Hc).
    { destruct pending; [shape|]. apply (closed_bind _ Hc); [apply shape_new_batch_env|shape]. }
    intros p. apply (closed_bind _ Hc); [shape|]. intros u. apply (closed_bind _ Hc); [apply shape_load_upgrade|]. intros tx.
    apply (closed_bind _ Hc); [shape|]. intros h. apply (closed_bind _ Hc); [apply shape_restore_state|]. intros [h' u']. shape.
  - intros locals. apply (closed_while _ Hc). intros l. apply shape_run_iteration.
Qed.
End shape.
End KeeperShape.

(** ** Invariants of the I/O

    What every call of the I/O keeps of its state, unless it fails, the state keeper keeps. *)
Module KeeperIO.
Import ZkSyncStateKeeper KeeperShape.
Section invariant.
Context `{TxLib, KeeperLib, ZkEvmParams} {I Out F Storage C : Type}.
Context `{StateKeeperIO I, StateKeeperOutputHandler Out, ReadStorageFactory F Storage, VmCore Storage C}.
Context (executor : CommandReceiver.t) (sealer : ConditionalSealer).
Abbreviation keeper := (t I Out F).
Abbreviation M A := (prog keeper Error A).

(** [J] between calls, [E] once one has failed. *)
Context (J E : I → Prop).
Definition outcome {A} (r : Error + A) (i : I) : Prop := match r with inr _ => J i | inl _ => E i end.
Definition keeps A (m : M A) : Prop := ∀ s r s', J (io s) → m s = Ret (r, s') → outcome r (io s').

Hypothesis failed : ∀ i, J i → E i.
Hypothesis calls : ∀ A (op : prog I string A), io_operation A op → ∀ i r i', J i → op i = Ret (r, i') → outcome (fatal r) i'.

Lemma keeps_same A (m : M A) : (∀ s r s', m s = Ret (r, s') → io s' = io s) → keeps A m.
Proof. intros Hm s r s' HJ Hr. rewrite (Hm _ _ _ Hr). destruct r; cbn; auto. Qed.
Lemma io_keeps_bind A B (m : M A) (f : A → M B) : keeps _ m → (∀ a, keeps _ (f a)) → keeps _ (m ≫= f).
Proof.
  intros Hm Hf s r s' HJ Hr. unfold mbind, prog_bind in Hr. destruct (m s) as [[[e|a] s1]|] eqn:Em; [| |done].
  - injection Hr as <- <-. exact (Hm _ _ _ HJ Em).
  - exact (Hf a _ _ _ (Hm _ _ _ HJ Em) Hr).
Qed.
Lemma keeps_io A (op : prog I string A) : io_operation A op → keeps _ (io_call op).
Proof.
  intros Hop s r s' HJ Hr. unfold io_call in Hr. destruct (op (io s)) as [[r1 i']|] eqn:Eop; [|done]. injection Hr as <- <-.
  by eapply calls.
Qed.
Lemma keeps_while A B fuel (body : B → M (B + A)) b : (∀ b, keeps _ (body b)) → keeps _ (while_running fuel body b).
Proof.
  intros Hb. revert b. induction fuel as [|fuel IH]; intros b; cbn [while_running]; [by apply keeps_same; intros ??? [= _ <-]|].
  apply io_keeps_bind; [apply keeps_same; intros s r s'; unfold is_canceled; by destruct (stop_receiver s); intros [= _ <-]|].
  intros []; [by apply keeps_same; intros ??? [= _ <-]|]. apply io_keeps_bind; [done|].
  intros [b'|a]; [apply IH|]. by apply keeps_same; intros ??? [= _ <-].
Qed.

Lemma keeps_closed : closed (Storage := Storage) (C := C) keeps.
Proof.
  split.
  - intros. apply keeps_same. by intros ??? [= _ <-].
  - apply keeps_same. by intros ??? [= _ <-].
  - intros. apply keeps_same. by intros ??? [= _ <-].
  - intros A m. apply keeps_same. intros s r s'. unfold lift_exec. destruct m; [|done]. by intros [= _ <-].
  - apply io_keeps_bind.
  - apply keeps_io.
  - intros A op. apply keeps_same. intros s r s'. unfold output_call. destruct (op _) as [[]|]; [|done]. by intros [= _ <-].
  - intros A op h. apply keeps_same. intros s r s'. unfold executor_call. destruct (op h) as [[[]]|]; [| |done]; by intros [= _ <-].
  - intros env sys. unfold init_batch. apply io_keeps_bind.
    + apply keeps_same. intros s r s'. unfold storage_call. destruct (access_storage _ _) as [[? []]|]; [|done]. by intros [= _ <-].
    + intros [|]; apply keeps_same; by intros ??? [= _ <-].
  - intros A m Hm. apply io_keeps_bind.
    + apply keeps_same; intros s r s'; unfold is_canceled; by destruct (stop_receiver s); intros [= _ <-].
    + intros []; [by apply keeps_same; intros ??? [= _ <-]|done].
  - intros A B body b Hb s. exact (keeps_while _ _ _ _ _ Hb s).
Qed.

Lemma run_keeps (s : keeper) r s' : J (io s) → run executor sealer s = Ret (r, s') → E (io s').
Proof.
  intros HJ Hr. unfold run in Hr. apply bind_Ret_inv in Hr as ([[e|[]] s1] & Hr & [= _ <-]).
  exact (shape_run_inner executor sealer keeps keeps_closed _ _ _ HJ Hr).
Qed.
End invariant.
End KeeperIO.

(** ** Stopping *)
Module KeeperStops.
Import ZkSyncStateKeeper.
Section stops.
Context `{TxLib, KeeperLib, ZkEvmParams} {I Out F Storage C : Type}.
Context `{StateKeeperIO I, StateKeeperOutputHandler Out, ReadStorageFactory F Storage, VmCore Storage C}.
Context (executor : CommandReceiver.t) (sealer : ConditionalSealer).
Abbreviation keeper := (t I Out F).
Abbreviation M A := (prog keeper Error A).

Context `{!ReadStorageFactoryLaws (F := F) (Storage := Storage)}.

(** An operation that stops only when the signal is set, and never takes it back. *)
Record orderly {A} (m : M A) : Prop := {
  orderly_polls s r s' : m s = Ret (r, s') → (stop_receiver s' ≤ stop_receiver s)%nat;
  orderly_canceled s s' : m s = Ret (inl Canceled, s') → stop_receiver s' = O;
}.

Lemma orderly_bind {A B} (m : M A) (f : A → M B) : orderly m → (∀ a, orderly (f a)) → orderly (m ≫= f).
Proof.
  intros [Hm Hmc] Hf. unfold mbind, prog_bind. split.
  - intros s r s' Hr. destruct (m s) as [[[e|a] s1]|] eqn:E; [|apply Hf in Hr|]; simplify_eq; apply Hm in E; lia.
  - intros s s' Hr. destruct (m s) as [[[e|a] s1]|] eqn:E; [|by eapply orderly_canceled|]; simplify_eq. by apply Hmc in E.
Qed.
Lemma orderly_ret {A} (a : A) : orderly (mret a : M A).
Proof. split; intros; cbv in *; simplify_eq; lia. Qed.
Lemma orderly_get : orderly (get : M keeper).
Proof. split; intros; cbv in *; simplify_eq; lia. Qed.
Lemma orderly_fatal {A} e : orderly (fail (Fatal e) : M A).
Proof. split; intros; cbv in *; simplify_eq; lia. Qed.
Lemma orderly_lift {A} (m : exec A) : orderly (lift_exec m : M A).
Proof. split; intros *; unfold lift_exec; destruct m; cbn; intros; simplify_eq; lia. Qed.
Lemma orderly_io {A} (op : prog I string A) : orderly (io_call op : M A).
Proof. split; intros *; unfold io_call; destruct (op (io _)) as [[[]?]|]; cbn; intros; simplify_eq; cbn; lia. Qed.
Lemma orderly_output {A} (op : prog (list Out) string A) : orderly (output_call op : M A).
Proof. split; intros *; unfold output_call; destruct (op (output_handler _)) as [[[]?]|]; cbn; intros; simplify_eq; cbn; lia. Qed.
Lemma orderly_executor {A} (op : prog (BatchExecutorHandle.t Storage C) string A) h : orderly (executor_call op h : M _).
Proof. split; intros *; unfold executor_call; destruct (op h) as [[[]?]|]; cbn; intros; simplify_eq; lia. Qed.

(** Asking for the signal and stopping if it is set. *)
Lemma orderly_if_canceled {A} (m : M A) : orderly m → orderly (canceled ← is_canceled; if (canceled : bool) then fail Canceled else m).
Proof.
  intros [Hm Hc]. split.
  - intros s r s' Hr. unfold mbind, prog_bind, is_canceled in Hr. destruct (stop_receiver s) eqn:E; [cbv in Hr; simplify_eq; lia|].
    apply Hm in Hr. cbn in Hr. lia.
  - intros s s' Hr. unfold mbind, prog_bind, is_canceled in Hr. destruct (stop_receiver s) eqn:E; [cbv in Hr; by simplify_eq|]. by apply Hc in Hr.
Qed.

Lemma while_running_polls {A B} (body : B → M (B + A)) fuel b s r s' :
  (∀ b, orderly (body b)) → while_running fuel body b s = Ret (r, s') → (stop_receiver s' ≤ stop_receiver s)%nat.
Proof.
  intros Hb. revert b s. induction fuel as [|fuel IH]; intros b s; cbn [while_running]; [intros [= _ <-]; lia|].
  unfold mbind, prog_bind, is_canceled. destruct (stop_receiver s) eqn:E; cbn; [intros [= _ <-]; lia|].
  destruct (body b _) as [[[e|[b'|a]] s1]|] eqn:Eb; try done; apply (orderly_polls _ (Hb b)) in Eb; cbn in Eb;
    [intros [= _ <-]; lia|intros Hr%IH; lia|intros [= _ <-]; lia].
Qed.
(** The signal ends the loop before its fuel does. *)
Lemma while_running_canceled {A B} (body : B → M (B + A)) fuel b s s' :
  (∀ b, orderly (body b)) → (stop_receiver s < fuel)%nat →
  while_running fuel body b s = Ret (inl Canceled, s') → stop_receiver s' = O.
Proof.
  intros Hb. revert b s. induction fuel as [|fuel IH]; intros b s Hf; [lia|]. cbn [while_running].
  unfold mbind, prog_bind, is_canceled. destruct (stop_receiver s) eqn:E; cbn; [by intros [= <-]|].
  destruct (body b _) as [[[e|[b'|a]] s1]|] eqn:Eb; try done; pose proof (orderly_polls _ (Hb b) _ _ _ Eb) as Hle; cbn in Hle.
  - intros [= -> <-]. by eapply (orderly_canceled _ (Hb b)).
  - apply IH. lia.
Qed.
Lemma orderly_while {A B} (body : B → M (B + A)) b : (∀ b, orderly (body b)) → orderly (while_not_canceled body b).
Proof.
  intros Hb. assert (Heq : ∀ s, while_not_canceled body b s = while_running (S (stop_receiver s)) body b s) by done. split.
  - intros s r s' Hr. rewrite Heq in Hr. by eapply while_running_polls.
  - intros s s' Hr. rewrite Heq in Hr. eapply while_running_canceled; [done| |exact Hr]. lia.
Qed.
Lemma orderly_init_batch env sys : orderly (init_batch env sys : M (BatchExecutorHandle.t Storage C)).
Proof.
  unfold init_batch. split; unfold mbind, prog_bind, storage_call.
  - intros s r s'. destruct (access_storage _ _) as [[r1 [stop f]]|] eqn:E; [|done]. apply access_polls in E.
    destruct r1 as [e|[st|]]; cbn; unfold mret, prog_ret, fail; intros; simplify_eq; done.
  - intros s s'. destruct (access_storage _ _) as [[[e|[st|]] [stop f]]|] eqn:E; cbn; unfold mret, prog_ret, fail; intros; simplify_eq.
    by apply access_none in E.
Qed.
Lemma orderly_run_inner : orderly (run_inner executor sealer : M Empty_set).
Proof.
  apply (KeeperShape.shape_run_inner executor sealer (@orderly)). split; intros;
    auto using @orderly_ret, @orderly_get, @orderly_fatal, @orderly_lift, @orderly_bind, @orderly_io, @orderly_output, @orderly_executor,
      orderly_init_batch, @orderly_if_canceled, @orderly_while.
Qed.
End stops.
End KeeperStops.
