(* ===== verification/KeeperChain.v ===== *)
(** * What the state keeper seals

    The outputs of a run of the state keeper are a chain: consecutive batches of
    consecutive blocks, each block with the hash of the one before it, each batch with
    the transactions of its blocks, and the result of each batch that of a virtual machine
    that ran these blocks and transactions and no other. The theorems are about the state
    keeper over any I/O and handlers, whose calls are recorded by the instances
    [recording_handler] and [recording_io]. *)
From S2P Require Import Prelude Types Abi VmLimits Float Deduplicator FeeModel TxEncoding VmErrors SealCriteria VmInterface KeeperUpdates BatchExecutor StateKeeper.
Local Open Scope Z_scope.

(** ** Recording what is handed over *)
Inductive output := SealedBlock (updates : UpdatesManager.t) | SealedBatch (updates : UpdatesManager.t).
Inductive io_event := Received (tx : Transaction.t) | RolledBack (tx : Transaction.t) | Rejected (tx : Transaction.t).

Section recording.
(** A call of the underlying part, with what a successful one adds to the record. *)
Definition recorded {S L A} (op : prog S string A) (entries : A → list L) : prog (S * list L) string A := λ '(s, log),
  '(r, s) ← op s; Ret (r, (s, log ++ match r with inr a => entries a | inl _ => [] end)).

#[export] Instance recording_handler {Out} `{StateKeeperOutputHandler Out} : StateKeeperOutputHandler (Out * list output) := {|
  handler_initialize cursor := recorded (handler_initialize cursor) (λ _, []);
  handler_handle_l2_block u := recorded (handler_handle_l2_block u) (λ _, [SealedBlock u]);
  handler_handle_l1_batch u := recorded (handler_handle_l1_batch u) (λ _, [SealedBatch u]);
|}.

#[export] Instance recording_io {I} `{StateKeeperIO I} : StateKeeperIO (I * list io_event) := {|
  io_chain_id i := io_chain_id i.1;
  io_initialize := recorded io_initialize (λ _, []);
  io_wait_for_new_batch_params cursor := recorded (io_wait_for_new_batch_params cursor) (λ _, []);
  io_wait_for_new_l2_block_params cursor := recorded (io_wait_for_new_l2_block_params cursor) (λ _, []);
  io_wait_for_next_tx := recorded io_wait_for_next_tx (λ tx, match tx with Some tx => [Received tx] | None => [] end);
  io_rollback tx := recorded (io_rollback tx) (λ _, [RolledBack tx]);
  io_reject tx reason := recorded (io_reject tx reason) (λ _, [Rejected tx]);
  io_load_base_system_contracts v cursor := recorded (io_load_base_system_contracts v cursor) (λ _, []);
  io_load_batch_version_id n := recorded (io_load_batch_version_id n) (λ _, []);
  io_load_upgrade_tx v := recorded (io_load_upgrade_tx v) (λ _, []);
  io_load_batch_state_hash n := recorded (io_load_batch_state_hash n) (λ _, []);
  io_should_seal_l1_batch_unconditionally u := recorded (io_should_seal_l1_batch_unconditionally u) (λ _, []);
  io_should_seal_l2_block u := recorded (io_should_seal_l2_block u) (λ _, []);
|}.
End recording.

(** "Regardless of which sealers are provided, we never want to seal an empty batch", and
    only a block with transactions is to be sealed; "we cannot create two L1 batches or L2
    blocks with the same timestamp (forbidden by the bootloader)". *)
Class StateKeeperIOLaws {I} `{StateKeeperIO I} : Prop := {
  empty_batch_not_sealed u i i' :
    io_should_seal_l1_batch_unconditionally u i = Ret (inr true, i') → UpdatesManager.pending_executed_transactions_len u ≠ 0;
  empty_block_not_sealed u i i' :
    (L2BlockUpdates.executed_transactions (UpdatesManager.l2_block u) = [] →
     L2BlockUpdates.payload_encoding_size (UpdatesManager.l2_block u) = 0) →
    io_should_seal_l2_block u i = Ret (inr true, i') → L2BlockUpdates.executed_transactions (UpdatesManager.l2_block u) ≠ [];
  batch_after_previous_block cursor i params i' :
    io_wait_for_new_batch_params cursor i = Ret (inr (Some params), i') →
    IoCursor.prev_l2_block_timestamp cursor < L2BlockParams.timestamp (L1BatchParams.first_l2_block params);
  block_after_previous_block cursor i params i' :
    io_wait_for_new_l2_block_params cursor i = Ret (inr (Some params), i') →
    IoCursor.prev_l2_block_timestamp cursor < L2BlockParams.timestamp params;
}.

(** ** The chain *)
Section chain.
Context `{TxLib, KeeperLib} {Storage C : Type} `{VmCore Storage C} (executor : CommandReceiver.t).
Import ExecutorSpec.

(** What the next output has to continue: the numbers of the batch and of the block, the
    hash of the previous block, the transactions of the batch's sealed blocks; and the
    machine of the batch, unless it has not been made yet: as it started, what it has run
    until the last sealed block, and whether there is one. *)
Record machine := Machine { started : C; ran : list vm_op; fresh : bool }.
Record link := Link {
  link_batch : L1BatchNumber;
  link_block : L2BlockNumber;
  link_hash : H256;
  link_txs : list TxResult;
  link_machine : option machine;
}.

Definition txs_of (b : L2BlockUpdates.t) : list TxResult := L2BlockUpdates.executed_transactions b.
(** What the machine runs of a block; the first block of a batch is opened with the machine. *)
Definition block_ops (fresh : bool) (b : L2BlockUpdates.t) : list vm_op :=
  (if fresh then [] else [StartBlock (L2BlockUpdates.get_env b)])
  ++ (RunTx ∘ TransactionExecutionResult.transaction <$> txs_of b).

Definition opened (st : link) (c0 : C) : link :=
  Link (link_batch st) (link_block st) (link_hash st) (link_txs st) (Some (Machine c0 [] true)).

(** The open batch and block continue the chain. *)
Record continues (st : link) (u : UpdatesManager.t) : Prop := {
  continues_batch : L1BatchUpdates.number (UpdatesManager.l1_batch u) = link_batch st;
  continues_block : L2BlockUpdates.number (UpdatesManager.l2_block u) = link_block st;
  continues_hash : L2BlockUpdates.prev_block_hash (UpdatesManager.l2_block u) = link_hash st;
  continues_txs : L1BatchUpdates.executed_transactions (UpdatesManager.l1_batch u) = link_txs st;
}.

Definition after_block (st : link) (u : UpdatesManager.t) : link :=
  let b := UpdatesManager.l2_block u in
  Link (link_batch st) (wrap 32 (link_block st + 1)) (L2BlockUpdates.get_l2_block_hash b) (link_txs st ++ txs_of b)
    ((λ m, Machine (started m) (ran m ++ block_ops (fresh m) b) false) <$> link_machine st).
Definition after_batch (st : link) (u : UpdatesManager.t) : link :=
  Link (wrap 32 (link_batch st + 1)) (wrap 32 (link_block st + 1))
    (L2BlockUpdates.get_l2_block_hash (UpdatesManager.l2_block u)) [] None.

(** The machine of the batch ran what the batch has so far. *)
Definition machine_ran (st : link) (u : UpdatesManager.t) (c : C) : Prop :=
  ∃ m, link_machine st = Some m ∧
    replay executor (started m) (ran m ++ block_ops (fresh m) (UpdatesManager.l2_block u)) = Ret c.

Inductive chain (st0 : link) : list output → link → Prop :=
| chain_nil : chain st0 [] st0
| chain_open log st env sys storage c0 :
    chain st0 log st → link_machine st = None → vm_new env sys storage = Ret c0 →
    L1BatchEnv.number env = link_batch st → L2BlockEnv.number (L1BatchEnv.first_l2_block env) = link_block st →
    L2BlockEnv.prev_block_hash (L1BatchEnv.first_l2_block env) = link_hash st →
    chain st0 log (opened st c0)
| chain_block log st u c :
    chain st0 log st → continues st u → machine_ran st u c →
    chain st0 (log ++ [SealedBlock u]) (after_block st u)
| chain_batch log st u c f c' :
    chain st0 log st → continues st u → txs_of (UpdatesManager.l2_block u) = [] →
    machine_ran st u c → vm_finish_batch c = Ret (f, c') →
    L1BatchUpdates.finished (UpdatesManager.l1_batch u) = Some f →
    chain st0 (log ++ [SealedBatch u]) (after_batch st u).
End chain.

(** ** What an operation of the state keeper does to the record *)
Module KeeperHoare.
Section hoare.
Context `{TxLib, KeeperLib, ZkEvmParams} {I Out F Storage C : Type}.
Context `{StateKeeperIO I, StateKeeperOutputHandler Out, ReadStorageFactory F Storage, VmCore Storage C}.
Context (executor : CommandReceiver.t) (sealer : ConditionalSealer).
Import ZkSyncStateKeeper.

Abbreviation keeper := (ZkSyncStateKeeper.t (I * list io_event) (Out * list output) F).
Abbreviation M A := (prog keeper Error A).
Abbreviation handle := (BatchExecutorHandle.t Storage C).

(** The records, and whether there is a handler to keep one. *)
Record view := View { v_out : list output; v_io : list io_event; v_handlers : bool }.
Definition view_of (s : keeper) : view :=
  View (match output_handler s with (_, log) :: _ => log | [] => [] end) (io s).2
       (match output_handler s with [] => false | _ => true end).

(** From [P], the operation ends in [Q] when it returns a value and in [E] when it fails. *)
Definition hoare {A} (P : view → Prop) (m : M A) (Q : A → view → Prop) (E : view → Prop) : Prop :=
  ∀ s, P (view_of s) →
    match m s with
    | Ret (inr a, s') => Q a (view_of s')
    | Ret (inl _, s') => E (view_of s')
    | Panic => True
    end.

Lemma hoare_ret {A} (P : view → Prop) (Q : A → view → Prop) E a : (∀ v, P v → Q a v) → hoare P (mret a) Q E.
Proof. intros HPQ s Hs. cbn. auto. Qed.
Lemma hoare_fail {A} (P : view → Prop) (Q : A → view → Prop) (E : view → Prop) e : (∀ v, P v → E v) → hoare P (fail e) Q E.
Proof. intros HPE s Hs. cbn. auto. Qed.
Lemma hoare_bind {A B} P (R : A → view → Prop) (m : M A) (f : A → M B) Q E :
  hoare P m R E → (∀ a, hoare (R a) (f a) Q E) → hoare P (m ≫= f) Q E.
Proof.
  intros Hm Hf s Hs. specialize (Hm s Hs). unfold mbind, prog_bind. destruct (m s) as [[[e|a] s']|]; [done| |done].
  by apply Hf.
Qed.
Lemma hoare_pre {A} (P P' : view → Prop) (m : M A) Q E : (∀ v, P v → P' v) → hoare P' m Q E → hoare P m Q E.
Proof. intros HP Hm s Hs. by apply Hm, HP. Qed.
Lemma hoare_post {A} P (m : M A) (Q Q' : A → view → Prop) E : (∀ a v, Q a v → Q' a v) → hoare P m Q E → hoare P m Q' E.
Proof. intros HQ Hm s Hs. specialize (Hm s Hs). repeat case_match; auto. Qed.
Lemma hoare_err {A} P (m : M A) Q (E E' : view → Prop) : (∀ v, E v → E' v) → hoare P m Q E → hoare P m Q E'.
Proof. intros HE Hm s Hs. specialize (Hm s Hs). repeat case_match; auto. Qed.
Lemma hoare_get {A} P (f : keeper → M A) Q E : (∀ s, hoare P (f s) Q E) → hoare P (s ← get; f s) Q E.
Proof. intros Hf s Hs. cbn. by apply Hf. Qed.
(** A computation that does not touch the state keeper. *)
Lemma hoare_lift {A} P (m : exec A) (Q : A → view → Prop) E : (∀ a v, m = Ret a → P v → Q a v) → hoare P (lift_exec m) Q E.
Proof. intros Hm s Hs. unfold lift_exec. destruct m; cbn; auto. Qed.
Lemma hoare_pure {A} (φ : Prop) P (m : M A) Q E : (φ → hoare P m Q E) → hoare (λ v, φ ∧ P v) m Q E.
Proof. intros Hm s [Hφ Hs]. by apply Hm. Qed.
Lemma hoare_exists {A X} (P : X → view → Prop) (m : M A) Q E : (∀ x, hoare (P x) m Q E) → hoare (λ v, ∃ x, P x v) m Q E.
Proof. intros Hm s [x Hs]. by apply (Hm x). Qed.

(** An operation that records nothing. *)
Definition silent {A} (m : M A) : Prop := ∀ P, hoare P m (λ _, P) P.

Lemma silent_hoare {A} P (m : M A) (Q : A → view → Prop) E :
  silent m → (∀ a v, P v → Q a v) → (∀ v, P v → E v) → hoare P m Q E.
Proof. intros Hm HQ HE. apply (hoare_err _ _ _ P); [done|]. apply (hoare_post _ _ (λ _, P)); [done|apply Hm]. Qed.
Lemma silent_bind {A B} (m : M A) (f : A → M B) : silent m → (∀ a, silent (f a)) → silent (m ≫= f).
Proof. intros Hm Hf P. by eapply hoare_bind; [apply Hm|intros a; apply Hf]. Qed.
Lemma silent_ret {A} (a : A) : silent (mret a).
Proof. intros P. by apply hoare_ret. Qed.
Lemma silent_fail {A} e : silent (fail e : M A).
Proof. intros P. by apply hoare_fail. Qed.
Lemma silent_get : silent (get : M keeper).
Proof. intros P s Hs. done. Qed.
Lemma silent_lift {A} (m : exec A) : silent (lift_exec m).
Proof. intros P. by apply hoare_lift. Qed.
Lemma silent_io {A} (op : prog I string A) : silent (io_call (recorded op (λ _, []))).
Proof.
  intros P [n [i log] out f] Hs. unfold io_call, recorded. cbn in *. destruct (op i) as [[[e|a] i']|]; cbn; [| |done].
  all: unfold view_of in *; cbn in *; by rewrite app_nil_r.
Qed.
Lemma silent_storage {A} (op : prog (nat * F) string A) : silent (storage_call op).
Proof. intros P s Hs. unfold storage_call. destruct (op _) as [[[e|a] [stop f']]|]; done. Qed.
Lemma silent_executor {A} (op : prog handle string A) h : silent (executor_call op h).
Proof. intros P s Hs. unfold executor_call. destruct (op h) as [[[e|a] h']|]; done. Qed.
Lemma silent_canceled : silent is_canceled.
Proof. intros P s Hs. unfold is_canceled. by destruct (stop_receiver s). Qed.

Lemma hoare_while {A B} (P : B → view → Prop) (E : view → Prop) (body : B → M (B + A)) Q fuel b :
  (∀ b v, P b v → E v) →
  (∀ b, hoare (P b) (body b) (λ r v, match r with inl b => P b v | inr a => Q a v end) E) →
  hoare (P b) (while_running fuel body b) Q E.
Proof.
  intros HE Hbody. revert b. induction fuel as [|fuel IH]; intros b; cbn [while_running]; [apply hoare_fail, HE|].
  eapply hoare_bind; [apply (silent_hoare _ _ (λ _, P b)); [apply silent_canceled|done|apply HE]|]. intros [].
  - apply hoare_fail, HE.
  - eapply hoare_bind; [apply Hbody|]. intros [b'|a]; [apply IH|]. by apply hoare_ret.
Qed.
Lemma hoare_while_not_canceled {A B} (P : B → view → Prop) (E : view → Prop) (body : B → M (B + A)) Q b :
  (∀ b v, P b v → E v) →
  (∀ b, hoare (P b) (body b) (λ r v, match r with inl b => P b v | inr a => Q a v end) E) →
  hoare (P b) (while_not_canceled body b) Q E.
Proof. intros HE Hb. apply hoare_get. intros s. by apply hoare_while. Qed.
Lemma hoare_foldP {A B} (P : list B → A → view → Prop) (f : A → B → M A) E before l a :
  (∀ before b a, hoare (P before a) (f a b) (P (before ++ [b])) E) → hoare (P before a) (foldP f a l) (P (before ++ l)) E.
Proof.
  intros Hf. revert before a. induction l as [|b l IH]; intros before a; cbn [foldP].
  - rewrite app_nil_r. by apply hoare_ret.
  - eapply hoare_bind; [apply Hf|]. intros a'. rewrite (cons_middle b before l), app_assoc. apply IH.
Qed.
Lemma silent_wait_for {A} (op : M (option A)) : silent op → silent (wait_for op).
Proof.
  intros Hop P. apply (hoare_while_not_canceled (λ _, P)); [done|]. intros b.
  eapply hoare_bind; [apply Hop|]. intros [a|]; by apply hoare_ret.
Qed.
End hoare.
End KeeperHoare.

(** ** The invariant *)
Module KeeperInvariant.
Import ExecutorSpec KeeperHoare ZkSyncStateKeeper.

Definition sealed_nonempty (o : output) : Prop :=
  match o with SealedBlock u => txs_of (UpdatesManager.l2_block u) ≠ [] | SealedBatch _ => True end.

Definition transactions_of (b : L2BlockUpdates.t) : list Transaction.t := TransactionExecutionResult.transaction <$> txs_of b.
Definition sealed_txs (log : list output) : list Transaction.t :=
  concat ((λ o, match o with SealedBlock u => transactions_of (UpdatesManager.l2_block u) | SealedBatch _ => [] end) <$> log).
(** The transactions received and neither rolled back nor rejected. *)
Definition keep (acc : list Transaction.t) (e : io_event) : list Transaction.t :=
  match e with Received tx => acc ++ [tx] | RolledBack _ | Rejected _ => take (length acc - 1) acc end.
Definition kept (events : list io_event) : list Transaction.t := foldl keep [] events.
Definition is_upgrade (tx : Transaction.t) : bool := match Transaction.common_data tx with ProtocolUpgrade _ => true | _ => false end.
(** Upgrade transactions do not come from the stream of transactions. *)
Definition user (l : list Transaction.t) : list Transaction.t := filter (λ tx, is_upgrade tx = false) l.

(** What the state keeper holds after the calls of its I/O: a transaction that is put back or
    rejected is the last it was given of those it holds. *)
Inductive holds : list io_event → list Transaction.t → Prop :=
| holds_nothing : holds [] []
| holds_received events held tx : holds events held → holds (events ++ [Received tx]) (held ++ [tx])
| holds_rolled_back events held tx : holds events (held ++ [tx]) → holds (events ++ [RolledBack tx]) held
| holds_rejected events held tx : holds events (held ++ [tx]) → holds (events ++ [Rejected tx]) held.

(** Only the last transaction received is put back or rejected. *)
Definition answered (events : list io_event) : Prop :=
  ∀ before e after, events = before ++ e :: after →
    match e with Received _ => True | RolledBack tx | Rejected tx => last (kept before) = Some tx end.

(** The times of the sealed blocks, a batch being sealed with an empty block. *)
Definition time_of (u : UpdatesManager.t) : Z := L2BlockUpdates.timestamp (UpdatesManager.l2_block u).
Definition output_time (o : output) : Z := match o with SealedBlock u | SealedBatch u => time_of u end.
Fixpoint increasing (t : Z) (l : list Z) : Prop :=
  match l with [] => True | x :: l => t < x ∧ increasing x l end.

Lemma increasing_snoc t l x : increasing t (l ++ [x]) ↔ increasing t l ∧ default t (last l) < x.
Proof.
  revert t. induction l as [|y l IH]; intros t; cbn [app increasing]; [cbn; tauto|]. rewrite IH, last_cons.
  destruct (last l); cbn; tauto.
Qed.
Lemma answered_nil : answered [].
Proof. intros before e after ?%eq_sym%app_nil. naive_solver. Qed.
Lemma answered_snoc events e :
  answered events → match e with Received _ => True | RolledBack tx | Rejected tx => last (kept events) = Some tx end →
  answered (events ++ [e]).
Proof.
  intros Ha He before e' after. induction after as [|x after _] using rev_ind; intros Heq.
  - apply app_inj_tail in Heq as [-> ->]. done.
  - rewrite app_comm_cons, app_assoc in Heq. apply app_inj_tail in Heq as [-> _]. by eapply Ha.
Qed.

Lemma kept_snoc events e : kept (events ++ [e]) = keep (kept events) e.
Proof. unfold kept. by rewrite foldl_app. Qed.
Lemma answered_holds events : answered events → holds events (kept events).
Proof.
  induction events as [|e events IH] using rev_ind; intros Ha; [constructor|].
  assert (Hs : holds events (kept events)).
  { apply IH. intros before e' after Heq. apply (Ha before e' (after ++ [e])). by rewrite Heq, <-app_assoc. }
  pose proof (Ha events e [] eq_refl) as He. rewrite kept_snoc. destruct e as [tx|tx|tx]; [by constructor| |].
  all: apply last_Some in He as [K HK]; rewrite HK in Hs |- *; cbn [keep]; rewrite length_app, Nat.add_sub, take_app_length; by constructor.
Qed.
Lemma sealed_txs_snoc log o : sealed_txs (log ++ [o]) = sealed_txs log ++ sealed_txs [o].
Proof. unfold sealed_txs. by rewrite fmap_app, concat_app. Qed.
Lemma sealed_txs_block u : sealed_txs [SealedBlock u] = transactions_of (UpdatesManager.l2_block u).
Proof. unfold sealed_txs. cbn. by rewrite app_nil_r. Qed.
Lemma user_app l1 l2 : user (l1 ++ l2) = user l1 ++ user l2.
Proof. apply filter_app. Qed.

Section invariant.
Context `{TxLib, KeeperLib, ZkEvmParams} {I Out F Storage C : Type}.
Context `{StateKeeperIO I, StateKeeperOutputHandler Out, ReadStorageFactory F Storage, VmCore Storage C}.
Context `{!StateKeeperIOLaws (I := I), !VmCoreLaws}.
Context (executor : CommandReceiver.t) (sealer : ConditionalSealer).
Context (st0 : link (C := C)) (t0 : Z).

Abbreviation keeper := (ZkSyncStateKeeper.t (I * list io_event) (Out * list output) F).
Abbreviation M A := (prog keeper Error A).
Abbreviation handle := (BatchExecutorHandle.t Storage C).
Abbreviation link := (link (C := C)).

(** The chain up to [st], after the blocks that were restored. *)
Record base (restored : list output) (st : link) (v : view) : Prop := {
  base_handlers : v_handlers v = true;
  base_chain : chain executor st0 (restored ++ v_out v) st;
  base_nonempty : Forall sealed_nonempty (v_out v);
  base_times : increasing t0 (output_time <$> v_out v);
  base_answered : answered (v_io v);
}.
(** The time of the last sealed block. *)
Definition now (v : view) : Z := default t0 (last (output_time <$> v_out v)).
(** What holds of the records whenever the state keeper stops. *)
Record settled (restored : list output) (v : view) : Prop := {
  settled_chain : ∃ st, base restored st v;
  settled_kept : user (sealed_txs (v_out v)) `prefix_of` user (kept (v_io v));
}.

(** The machine of the open batch, or one that failed as it was made. *)
Definition at_machine (st : link) (u : UpdatesManager.t) (h : handle) : Prop :=
  (∃ m, link_machine st = Some m ∧
    handle_at executor (started m) (ran m ++ block_ops (fresh m) (UpdatesManager.l2_block u)) h) ∨
  ((∃ e, h = BatchExecutorHandle.Err e) ∧ txs_of (UpdatesManager.l2_block u) = []).

(** Without transactions the open block has no payload. *)
Definition sized (u : UpdatesManager.t) : Prop :=
  txs_of (UpdatesManager.l2_block u) = [] → L2BlockUpdates.payload_encoding_size (UpdatesManager.l2_block u) = 0.

Lemma sized_snoc u l e : txs_of (UpdatesManager.l2_block u) = l ++ [e] → sized u.
Proof. intros Ht E. rewrite E in Ht. by destruct l. Qed.

Record open_at (restored : list output) (st : link) (u : UpdatesManager.t) (h : handle) : Prop := {
  open_continues : continues st u;
  open_sized : sized u;
  open_machine : at_machine st u h;
}.
Definition open (restored : list output) (hu : handle * UpdatesManager.t) (v : view) : Prop :=
  ∃ st, base restored st v ∧ open_at restored st hu.2 hu.1 ∧ now v < time_of hu.2 ∧
    user (kept (v_io v)) = user (sealed_txs (v_out v)) ++ user (transactions_of (UpdatesManager.l2_block hu.2)).

Lemma open_settled restored hu v : open restored hu v → settled restored v.
Proof. intros (st & Hb & _ & _ & Hk). split; [eauto|]. rewrite Hk. by apply prefix_app_r. Qed.

(** *** Calls *)
Lemma hoare_executor {A} P (op : prog handle string A) h E :
  (∀ v, P v → E v) → hoare P (executor_call op h : M _) (λ '(a, h') v, op h = Ret (inr a, h') ∧ P v) E.
Proof. intros HE s Hs. unfold executor_call. destruct (op h) as [[[e|a] h']|] eqn:Eop; cbn; auto. Qed.

(** Every command to a machine that failed fails. *)
Lemma hoare_command_dead {A} P (cmd : prog (Vm.t Storage C) string A) e Q (E : view → Prop) :
  (∀ v, P v → E v) → hoare P (executor_call (BatchExecutorHandle.command cmd) (BatchExecutorHandle.Err e) : M _) Q E.
Proof. intros HE s Hs. cbn. auto. Qed.
Lemma hoare_execute_dead P tx e Q (E : view → Prop) :
  (∀ v, P v → E v) → hoare P (executor_call (BatchExecutorHandle.execute_tx executor tx) (BatchExecutorHandle.Err e) : M _) Q E.
Proof.
  intros HE s Hs. unfold executor_call, BatchExecutorHandle.execute_tx, mbind, prog_bind, lift_exec.
  destruct (as_u64 _); cbn; auto.
Qed.

Lemma each_recorded (op : prog Out string ()) (entry : output) (o : Out) (log : list output) rest r handlers :
  OutputHandler.each (recorded op (λ _, [entry])) ((o, log) :: rest) = Ret (r, handlers) →
  ∃ o' rest' log', handlers = (o', log') :: rest' ∧
    (log' = log ++ [entry] ∨ log' = log ∧ ∃ e : string, r = inl e).
Proof.
  cbn. intros He. apply bind_Ret_inv in He as ([r1 [o1 log1]] & H1' & He). cbn in H1'.
  apply bind_Ret_inv in H1' as ([r1' o1'] & _ & [= <- <- <-]).
  destruct r1' as [e|[]]; [injection He as <- <-; eexists _, _, _; split; [done|]; rewrite app_nil_r; eauto|].
  apply bind_Ret_inv in He as ([r2 rest2] & _ & [= <- <-]). eexists _, _, _. split; [done|by left].
Qed.

Definition extend (entry : output) (v : view) : view := View (v_out v ++ [entry]) (v_io v) true.

Lemma hoare_output (op : prog Out string ()) (entry : output) (P E : view → Prop) :
  (∀ v, P v → v_handlers v = true) → (∀ v, P v → E v) → (∀ v, P v → E (extend entry v)) →
  hoare P (output_call (OutputHandler.each (recorded op (λ _, [entry]))) : M ()) (λ _ v', ∃ v, P v ∧ v' = extend entry v) E.
Proof.
  intros Hh HE HE' [n i out f] Hs. unfold output_call. cbn [output_handler].
  pose proof (Hh _ Hs) as Hne. destruct out as [|[o log] rest]; [done|].
  destruct (OutputHandler.each _ _) as [[r handlers]|] eqn:Ee; [|done]. cbn [mbind exec_bind].
  apply each_recorded in Ee as (o' & rest' & log' & -> & [->|[-> (e & ->)]]).
  - destruct r as [e|[]]; cbn; [apply (HE' _ Hs)|]. eexists. split; [apply Hs|done].
  - cbn. apply (HE _ Hs).
Qed.

(** An event of the I/O. *)
Definition happen (events : list io_event) (v : view) : view := View (v_out v) (v_io v ++ events) (v_handlers v).
Lemma hoare_event {A} (op : prog I string A) (events : A → list io_event) (P E : view → Prop) :
  (∀ v, P v → E v) →
  hoare P (io_call (recorded op events) : M A) (λ a v', ∃ v, P v ∧ v' = happen (events a) v) E.
Proof.
  intros HE [n [i log] out f] Hs. unfold io_call, recorded. cbn in *. destruct (op i) as [[[e|a] i']|]; cbn; [| |done].
  - rewrite app_nil_r. apply HE, Hs.
  - eexists. split; [exact Hs|done].
Qed.

(** *** Sealing a block and opening the next *)
Lemma base_extend_block restored (st : link) u v m c :
  base restored st v → continues st u → link_machine st = Some m →
  replay executor (started m) (ran m ++ block_ops (fresh m) (UpdatesManager.l2_block u)) = Ret c →
  txs_of (UpdatesManager.l2_block u) ≠ [] → now v < time_of u →
  base restored (after_block st u) (extend (SealedBlock u) v).
Proof.
  intros [Hh Hc Hn Hi Ha] Hcont Hm Hrep Hne Hnow. split; [done| | | |done].
  - cbn. rewrite app_assoc. eapply chain_block; [done|done|]. exists m. done.
  - cbn. apply Forall_app. by split; [|apply Forall_singleton].
  - cbn. rewrite fmap_app. by apply increasing_snoc.
Qed.
Lemma now_extend o v : now (extend o v) = output_time o.
Proof. unfold now. cbn. rewrite fmap_app. cbn. by rewrite last_snoc. Qed.

Lemma continues_push (st : link) u params :
  continues st u → continues (after_block st u) (UpdatesManager.push_l2_block u params).
Proof. intros [Hb Hn Hh Ht]. split; cbn; [done|by rewrite Hn|done|by rewrite Ht]. Qed.

Lemma block_ops_new u params : 
  block_ops false (UpdatesManager.l2_block (UpdatesManager.push_l2_block u params)) =
    [StartBlock (L2BlockUpdates.get_env (UpdatesManager.l2_block (UpdatesManager.push_l2_block u params)))].
Proof. done. Qed.

Lemma start_next_at (st : link) u h params h' m :
  link_machine st = Some m →
  handle_at executor (started m) (ran m ++ block_ops (fresh m) (UpdatesManager.l2_block u)) h →
  BatchExecutorHandle.start_next_l2_block
    (L2BlockUpdates.get_env (UpdatesManager.l2_block (UpdatesManager.push_l2_block u params))) h = Ret (inr (), h') →
  at_machine (after_block st u) (UpdatesManager.push_l2_block u params) h'.
Proof.
  intros Hm Hat Hs. left. unfold after_block. cbn [link_machine]. rewrite Hm. cbn. eexists. split; [done|]. cbn [started ran fresh].
  eapply start_block_at in Hs; [|done]. exact Hs.
Qed.

Lemma settled_base restored (st : link) v :
  base restored st v → user (sealed_txs (v_out v)) `prefix_of` user (kept (v_io v)) → settled restored v.
Proof. intros Hb Hk. split; [by exists st|done]. Qed.

(** Waiting for something, with what the I/O promises of it. *)
Lemma hoare_wait_for {A} (op : prog I string (option A)) (φ : A → Prop) (P E : view → Prop) :
  (∀ i a i', op i = Ret (inr (Some a), i') → φ a) → (∀ v, P v → E v) →
  hoare P (wait_for (io_call (recorded op (λ _, []))) : M _) (λ a v, φ a ∧ P v) E.
Proof.
  intros Hop HE. apply (hoare_while_not_canceled (λ _, P)); [done|]. intros b.
  eapply (hoare_bind _ (λ r v, (∀ a, r = Some a → φ a) ∧ P v)).
  - intros [n [i log] out f] Hs. unfold io_call, recorded. cbn in *. destruct (op i) as [[[e|a] i']|] eqn:Eop; cbn; [| |done].
    all: rewrite app_nil_r; unfold view_of in *; cbn in *.
    + by apply HE.
    + split; [|done]. intros a' ->. by eapply Hop.
  - intros [a|]; apply hoare_ret; intros v [Ha HP]; [|done]. split; [by apply Ha|done].
Qed.

(** Sealing the open block: the state keeper's output call, the wait, and the new block. *)
Lemma hoare_seal_block restored h u :
  txs_of (UpdatesManager.l2_block u) ≠ [] →
  hoare (open restored (h, u))
    (_ ← seal_l2_block u; params ← wait_for_new_l2_block_params u; start_next_l2_block params u h : M _)
    (λ hu v, txs_of (UpdatesManager.l2_block hu.2) = [] ∧ open restored hu v) (settled restored).
Proof.
  intros Hne. apply hoare_exists. intros st. cbn [fst snd].
  apply (hoare_pre _ (λ v, open_at restored st u h ∧ (base restored st v ∧ now v < time_of u ∧
    user (kept (v_io v)) = user (sealed_txs (v_out v)) ++ user (transactions_of (UpdatesManager.l2_block u))))); [naive_solver|].
  apply hoare_pure. intros [Hcont Hsized Hm]. destruct Hm as [(m & Hm & Hat)|[_ ?]]; [|done].
  pose proof Hat as (vm & _ & _ & Hrep).
  set (mid := λ v, base restored (after_block st u) v ∧ now v = time_of u ∧ user (kept (v_io v)) = user (sealed_txs (v_out v))).
  assert (Hext : ∀ v, base restored st v ∧ now v < time_of u ∧
      user (kept (v_io v)) = user (sealed_txs (v_out v)) ++ user (transactions_of (UpdatesManager.l2_block u)) →
    mid (extend (SealedBlock u) v)).
  { intros v (Hb & Ht & Hk). unfold mid. split_and!; [by eapply base_extend_block|by rewrite now_extend|]. unfold extend. cbn [v_out v_io].
    by rewrite sealed_txs_snoc, user_app, Hk, sealed_txs_block. }
  assert (Hmid : ∀ v, mid v → settled restored v).
  { intros v (Hb & _ & Hk). eapply settled_base; [done|]. by rewrite Hk. }
  eapply hoare_bind.
  { apply hoare_output; [by intros v [[] _]| |].
    - intros v (Hb & _ & Hk). eapply settled_base; [done|]. rewrite Hk. by apply prefix_app_r.
    - intros v Hv. exact (Hmid _ (Hext v Hv)). }
  intros []. apply (hoare_pre _ mid). { intros v (v1 & Hv1 & ->). exact (Hext v1 Hv1). }
  eapply hoare_bind; [apply hoare_wait_for; [apply block_after_previous_block|done]|].
  intros params. apply hoare_pure. intros Hlater. unfold start_next_l2_block.
  eapply hoare_bind; [by apply hoare_executor|]. intros [[] h'].
  apply hoare_pure. intros Hs. apply hoare_ret. intros v (Hb & Ht & Hk). split; [done|]. exists (after_block st u). split_and!; [done| | |].
  - split; [by apply continues_push|done|]. cbn. by eapply start_next_at.
  - rewrite Ht. exact Hlater.
  - cbn. rewrite Hk. by rewrite app_nil_r.
Qed.

(** *** Transactions *)
Lemma extend_updates_inv u tx r cb gas metrics calls u' :
  UpdatesManager.extend_from_executed_transaction u tx r cb gas metrics calls = Ret u' →
  UpdatesManager.l1_batch u' = UpdatesManager.l1_batch u ∧
  L2BlockUpdates.get_env (UpdatesManager.l2_block u') = L2BlockUpdates.get_env (UpdatesManager.l2_block u) ∧
  ∃ e, TransactionExecutionResult.transaction e = tx ∧
    txs_of (UpdatesManager.l2_block u') = txs_of (UpdatesManager.l2_block u) ++ [e].
Proof.
  unfold UpdatesManager.extend_from_executed_transaction, L2BlockUpdates.extend_from_executed_transaction. intros Hu.
  apply bind_Ret_inv in Hu as (d & _ & Hu). apply bind_Ret_inv in Hu as (b & Hb & [= <-]).
  repeat (apply bind_Ret_inv in Hb as (? & _ & Hb)). injection Hb as <-. cbn. split_and!; [done|done|]. eexists. split; [|done]. done.
Qed.

Lemma continues_same (st : link) u u' :
  UpdatesManager.l1_batch u' = UpdatesManager.l1_batch u →
  L2BlockUpdates.get_env (UpdatesManager.l2_block u') = L2BlockUpdates.get_env (UpdatesManager.l2_block u) →
  continues st u → continues st u'.
Proof.
  intros Hb [= Hn _ Hh _] [Cb Cn Ch Ct]. split; [by rewrite Hb|by rewrite Hn|by rewrite Hh|by rewrite Hb].
Qed.

Lemma block_ops_snoc b b' fresh e :
  L2BlockUpdates.get_env b' = L2BlockUpdates.get_env b → txs_of b' = txs_of b ++ [e] →
  block_ops fresh b' = block_ops fresh b ++ [RunTx (TransactionExecutionResult.transaction e)].
Proof. unfold block_ops. intros He Ht. rewrite He, Ht, fmap_app, app_assoc. done. Qed.

(** The machine has run a transaction that is not yet in the open block. *)
Definition tried (st : link) (u : UpdatesManager.t) (tx : Transaction.t) (h : handle) : Prop :=
  ∃ m c c' r, link_machine st = Some m ∧
    replay executor (started m) (ran m ++ block_ops (fresh m) (UpdatesManager.l2_block u)) = Ret c ∧
    run_tx executor c tx = Ret (inr r, c') ∧ h = BatchExecutorHandle.Handle (Vm.mk c' [vm_snapshot c]).

Lemma tried_execute (st : link) u h tx r h' :
  at_machine st u h → BatchExecutorHandle.execute_tx executor tx h = Ret (inr r, h') → tried st u tx h'.
Proof.
  intros [(m & Hm & Hat)|[(e & ->) _]] He.
  - destruct (execute_tx_at _ _ _ _ _ _ _ Hat He) as (c & c' & Hrep & Hrun & ->). by exists m, c, c', r.
  - unfold BatchExecutorHandle.execute_tx in He. inv_prog. done.
Qed.

Lemma tried_kept (st : link) u u' e h :
  tried st u (TransactionExecutionResult.transaction e) h →
  L2BlockUpdates.get_env (UpdatesManager.l2_block u') = L2BlockUpdates.get_env (UpdatesManager.l2_block u) →
  txs_of (UpdatesManager.l2_block u') = txs_of (UpdatesManager.l2_block u) ++ [e] → at_machine st u' h.
Proof.
  intros (m & c & c' & r & Hm & Hrep & Hrun & ->) He Ht. left. exists m. split; [done|].
  rewrite (block_ops_snoc _ _ _ _ He Ht), app_assoc. by eapply kept_tx_at.
Qed.

Lemma tried_rolled_back (st : link) u tx h h' r :
  tried st u tx h → BatchExecutorHandle.rollback_last_tx h = Ret (inr r, h') → at_machine st u h'.
Proof.
  intros (m & c & c' & r' & Hm & Hrep & Hrun & ->) Hb. left. exists m. split; [done|].
  destruct (rollback_at _ _ _ _ _ _ _ Hrep Hrun) as (h'' & Hb' & Hat). rewrite Hb in Hb'. by simplify_eq.
Qed.

Definition same_blocks (u u' : UpdatesManager.t) : Prop :=
  UpdatesManager.l1_batch u' = UpdatesManager.l1_batch u ∧ UpdatesManager.l2_block u' = UpdatesManager.l2_block u.

Lemma seal_data_blocks u tx r m g block txd u' : seal_data u tx r m g = Ret (block, txd, u') → same_blocks u u'.
Proof.
  unfold seal_data. intros Hs. apply bind_Ret_inv in Hs as (l & _ & Hs). apply bind_Ret_inv in Hs as ([d bm] & _ & Hs).
  apply bind_Ret_inv in Hs as (t & _ & [= _ _ <-]). done.
Qed.

Lemma hoare_process_one_tx P E h u tx :
  (∀ v : view, P v → E v) →
  hoare P (process_one_tx executor sealer h u tx : M _)
    (λ '(_, er, (h', u')) v, (BatchExecutorHandle.execute_tx executor tx h = Ret (inr er, h') ∧ same_blocks u u') ∧ P v) E.
Proof.
  intros HE. unfold process_one_tx. eapply hoare_bind; [by apply hoare_executor|]. intros [er h']. apply hoare_pure. intros He.
  destruct er as [r m cb calls g|reason|].
  - eapply hoare_bind; [apply (hoare_lift _ _ (λ '(_, _, u') v, same_blocks u u' ∧ P v))|].
    { intros [[block txd] u'] v Hs HP. split; [by eapply seal_data_blocks|done]. }
    intros [[block txd] u']. apply hoare_pure. intros Hsame.
    eapply hoare_bind; [apply (hoare_lift _ _ (λ _, P)); done|]. intros res. apply hoare_ret. done.
  - destruct reason; apply hoare_ret; done.
  - apply hoare_ret. done.
Qed.

(** A transaction has been received on top of an open batch. *)
Definition received (restored : list output) (st : link) (u : UpdatesManager.t) (tx : Transaction.t) (v : view) : Prop :=
  base restored st v ∧ now v < time_of u ∧ ∃ K, kept (v_io v) = K ++ [tx] ∧
    user K = user (sealed_txs (v_out v)) ++ user (transactions_of (UpdatesManager.l2_block u)).

Lemma received_settled restored (st : link) u tx v : received restored st u tx v → settled restored v.
Proof.
  intros (Hb & _ & K & HK & Hu). eapply settled_base; [done|]. rewrite HK, user_app, Hu. by do 2 apply prefix_app_r.
Qed.

Lemma received_open restored (st : link) u tx h u' h' v :
  received restored st u tx v → continues st u → sized u →
  UpdatesManager.l1_batch u' = UpdatesManager.l1_batch u →
  L2BlockUpdates.get_env (UpdatesManager.l2_block u') = L2BlockUpdates.get_env (UpdatesManager.l2_block u) →
  (∃ e, TransactionExecutionResult.transaction e = tx ∧ txs_of (UpdatesManager.l2_block u') = txs_of (UpdatesManager.l2_block u) ++ [e]) →
  tried st u tx h → h' = h → open restored (h', u') v.
Proof.
  intros (Hb & Hnow & K & HK & Hu) Hcont Hsized Hbatch Henv (e & <- & Ht) Htried ->. exists st. cbn [fst snd]. split_and!; [done| | |].
  - split; [by eapply continues_same|by eapply sized_snoc|by eapply tried_kept].
  - injection Henv as _ Ht' _ _. unfold time_of. by rewrite Ht'.
  - rewrite HK, user_app, Hu. unfold transactions_of. rewrite Ht, fmap_app, user_app, app_assoc. done.
Qed.

Lemma received_dropped restored (st : link) u tx h h' v e r :
  received restored st u tx v → continues st u → sized u →
  tried st u tx h → BatchExecutorHandle.rollback_last_tx h = Ret (inr r, h') →
  e = RolledBack tx ∨ e = Rejected tx → open restored (h', u) (happen [e] v).
Proof.
  intros (Hb & Hnow & K & HK & Hu) Hcont Hsized Htried Hroll He. exists st. cbn [fst snd]. split_and!.
  - destruct Hb. split; [done..|]. apply answered_snoc; [done|]. rewrite HK, last_snoc. by destruct He as [-> | ->].
  - split; [done|done|by eapply tried_rolled_back].
  - done.
  - unfold happen. cbn [v_io v_out]. rewrite kept_snoc, HK.
    assert (keep (K ++ [tx]) e = K) as ->; [|done].
    destruct He as [-> | ->]; cbn; rewrite length_app; cbn; rewrite Nat.add_sub, take_app_length; done.
Qed.

Lemma hoare_apply_resolution restored (st : link) res er h u tx :
  continues st u → sized u → tried st u tx h →
  hoare (received restored st u tx) (apply_resolution res er h u tx : M _) (open restored) (settled restored).
Proof.
  intros Hcont Hsized Htried. unfold apply_resolution.
  assert (Hinc : hoare (received restored st u tx)
    (match er with
     | TxExecutionResult.Success r m cb calls _ => u' ← extend_updates u tx r m cb calls; mret (h, u')
     | _ => lift_exec Panic end : M _) (open restored) (settled restored)).
  { destruct er as [r m cb calls g|reason|]; [|by apply hoare_lift|by apply hoare_lift].
    eapply hoare_bind; [apply (hoare_lift _ _ (λ u', open restored (h, u')))|intros u'; by apply hoare_ret].
    intros u' v Hx Hv. apply extend_updates_inv in Hx as (Hb & He & Ht). by eapply received_open. }
  destruct res as [| | |reason]; [done|done| |].
  - eapply hoare_bind; [by apply hoare_executor; intros v; apply received_settled|]. intros [r h']. apply hoare_pure. intros Hroll.
    eapply hoare_bind; [apply hoare_event; intros v; apply received_settled|]. intros []. apply hoare_ret.
    intros v' (v & Hv & ->). eapply received_dropped; eauto.
  - eapply hoare_bind; [by apply hoare_executor; intros v; apply received_settled|]. intros [r h']. apply hoare_pure. intros Hroll.
    eapply hoare_bind; [apply hoare_event; intros v; apply received_settled|]. intros []. apply hoare_ret.
    intros v' (v & Hv & ->). eapply received_dropped; eauto.
Qed.

(** A transaction that was received is run, and then included, put back or rejected. *)
Lemma hoare_process_received restored (st : link) h u tx :
  open_at restored st u h →
  hoare (received restored st u tx)
    (_ ← lift_exec (transaction_hash tx);
     '(seal_resolution, exec_result, (h, u)) ← process_one_tx executor sealer h u tx;
     hu ← apply_resolution seal_resolution exec_result h u tx;
     mret (if should_seal seal_resolution then inr hu else inl hu) : M _)
    (λ r v, open restored (match r with inl hu => hu | inr hu => hu end) v) (settled restored).
Proof.
  intros [Hcont Hsized Hm]. eapply hoare_bind; [apply (hoare_lift _ _ (λ _, received restored st u tx)); done|]. intros _hash.
  eapply hoare_bind; [by apply hoare_process_one_tx; intros v; apply received_settled|]. intros [[res er] [h' u']].
  apply hoare_pure. intros [He [Hb Hl]].
  apply (hoare_pre _ (received restored st u' tx)). { unfold received, time_of. by rewrite Hl. }
  eapply hoare_bind.
  { eapply hoare_apply_resolution.
    - by eapply continues_same; [| |done]; [done|by rewrite Hl].
    - unfold sized. by rewrite Hl.
    - unfold tried. rewrite Hl. by eapply tried_execute. }
  intros hu. apply hoare_ret. intros v Hv. by destruct (should_seal res).
Qed.

Lemma open_received restored (st : link) h u tx v :
  base restored st v → open_at restored st u h → now v < time_of u →
  user (kept (v_io v)) = user (sealed_txs (v_out v)) ++ user (transactions_of (UpdatesManager.l2_block u)) →
  received restored st u tx (happen [Received tx] v).
Proof.
  intros Hb _ Hnow Hk. split; [destruct Hb; split; [done..|]; by apply answered_snoc|]. split; [done|]. exists (kept (v_io v)). unfold happen. cbn [v_io v_out]. by rewrite kept_snoc.
Qed.

Lemma open_silent_io restored hu {A} (op : prog I string A) :
  hoare (open restored hu) (io_call (recorded op (λ _, [])) : M A) (λ _, open restored hu) (settled restored).
Proof. apply silent_hoare; [apply silent_io|done|apply open_settled]. Qed.

(** A call of the seal criteria, with what they promise. *)
Lemma hoare_should_seal_block restored h u :
  hoare (open restored (h, u)) (io_call (io_should_seal_l2_block u) : M bool)
    (λ b v, (b = true → txs_of (UpdatesManager.l2_block u) ≠ []) ∧ open restored (h, u) v) (settled restored).
Proof.
  intros [n [i log] out f] Hs. unfold io_call. cbn. destruct (io_should_seal_l2_block u i) as [[[e|b] i']|] eqn:Eop; cbn; [| |done].
  - rewrite app_nil_r. by eapply open_settled.
  - split; [|by rewrite app_nil_r]. intros ->. eapply empty_block_not_sealed; [|done]. by destruct Hs as (st & _ & [_ Hsized _] & _).
Qed.

Lemma hoare_iteration restored hu :
  hoare (open restored hu) (process_l1_batch_iteration executor sealer hu : M _)
    (λ r v, match r with inl hu => open restored hu v | inr hu => open restored hu v end) (settled restored).
Proof.
  destruct hu as [h u]. unfold process_l1_batch_iteration. eapply hoare_bind; [apply open_silent_io|]. intros [].
  { by apply hoare_ret. }
  eapply hoare_bind; [apply hoare_should_seal_block|]. intros seal. apply hoare_pure. intros Hseal.
  eapply hoare_bind.
  { instantiate (1 := open restored). destruct seal; [|by apply hoare_ret].
    eapply hoare_post; [|by apply hoare_seal_block, Hseal]. by intros hu v [_ Hv]. }
  intros [h' u']. apply hoare_exists. intros st. cbn [fst snd].
  apply (hoare_pre _ (λ v, open_at restored st u' h' ∧ (base restored st v ∧ now v < time_of u' ∧
    user (kept (v_io v)) = user (sealed_txs (v_out v)) ++ user (transactions_of (UpdatesManager.l2_block u'))))); [naive_solver|].
  apply hoare_pure. intros Hat. eapply hoare_bind.
  { apply hoare_event. intros v (Hb & _ & Hk). eapply settled_base; [done|]. rewrite Hk. by apply prefix_app_r. }
  intros [tx|]; cbn beta iota.
  - apply (hoare_pre _ (received restored st u' tx)). { intros v' (v & (Hb & Ht & Hk) & ->). by eapply open_received. }
    eapply hoare_post; [|by apply hoare_process_received]. intros [hu|hu] v Hv; done.
  - apply hoare_ret. intros v' (v & (Hb & Ht & Hk) & ->). exists st. cbn [fst snd]. unfold happen. rewrite app_nil_r. by destruct v.
Qed.

(** The upgrade transaction of a batch is not one of those received. *)
Lemma hoare_process_upgrade_tx restored h u tx :
  hoare (open restored (h, u)) (process_upgrade_tx executor sealer h u tx : M _) (open restored) (settled restored).
Proof.
  unfold process_upgrade_tx. destruct (negb _); [by apply hoare_lift|].
  eapply hoare_bind; [by apply hoare_process_one_tx; intros v; apply open_settled|]. intros [[res er] [h' u']].
  apply hoare_pure. intros [He [Hb Hl]].
  assert (Hinc : hoare (open restored (h, u))
    (match er with
     | TxExecutionResult.Success r m cb _ _ =>
         if ExecutionResult.is_failed (VmExecutionResultAndLogs.result r) then fail (Fatal "Failed upgrade tx")
         else u' ← extend_updates u' (ProtocolUpgradeTx.into_transaction tx) r m cb []; mret (h', u')
     | _ => fail (Fatal "Tx inclusion seal resolution must be a result of a successful tx execution") end : M _)
    (open restored) (settled restored)).
  { destruct er as [r m cb calls g|reason|]; [|apply hoare_fail, open_settled|apply hoare_fail, open_settled].
    destruct (ExecutionResult.is_failed _); [apply hoare_fail, open_settled|].
    eapply hoare_bind; [apply (hoare_lift _ _ (λ u'', open restored (h', u'')))|intros u''; by apply hoare_ret].
    intros u'' v Hx (st & Hbase & [Hcont Hsized Hm] & Hnow & Hk). apply extend_updates_inv in Hx as (Hb' & He' & e & Htx & Ht).
    rewrite Hb in Hb'. rewrite Hl in He', Ht. exists st. cbn [fst snd] in *. split_and!; [done| | |].
    - split; [by eapply continues_same|by eapply sized_snoc|]. eapply tried_kept; [|done|done]. rewrite Htx. by eapply tried_execute.
    - injection He' as _ Ht' _ _. unfold time_of. by rewrite Ht'.
    - unfold transactions_of in *. rewrite Ht, fmap_app, user_app, Hk. cbn. rewrite Htx. cbn. by rewrite app_nil_r. }
  destruct res as [| | |reason]; [done|done|apply hoare_fail, open_settled|apply hoare_fail, open_settled].
Qed.

Lemma hoare_process_l1_batch restored h u tx :
  hoare (open restored (h, u)) (process_l1_batch executor sealer h u tx : M _) (open restored) (settled restored).
Proof.
  unfold process_l1_batch. eapply hoare_bind.
  { instantiate (1 := open restored). destruct tx as [tx|]; [apply hoare_process_upgrade_tx|by apply hoare_ret]. }
  intros hu. apply (hoare_while_not_canceled (open restored)); [intros ??; apply open_settled|apply hoare_iteration].
Qed.

(** *** Sealing a batch *)
(** The batch has been sealed and the next one has no machine yet. *)
Definition closed (restored : list output) (u : UpdatesManager.t) (v : view) : Prop :=
  base restored (Link (wrap 32 (L1BatchUpdates.number (UpdatesManager.l1_batch u) + 1))
    (wrap 32 (L2BlockUpdates.number (UpdatesManager.l2_block u) + 1))
    (L2BlockUpdates.get_l2_block_hash (UpdatesManager.l2_block u)) [] None) v ∧ now v = time_of u ∧
  user (kept (v_io v)) = user (sealed_txs (v_out v)).

Lemma finish_batch_inv u f u' :
  UpdatesManager.finish_batch u f = Ret u' →
  L1BatchUpdates.finished (UpdatesManager.l1_batch u') = Some f ∧
  L1BatchUpdates.number (UpdatesManager.l1_batch u') = L1BatchUpdates.number (UpdatesManager.l1_batch u) ∧
  L1BatchUpdates.executed_transactions (UpdatesManager.l1_batch u') = L1BatchUpdates.executed_transactions (UpdatesManager.l1_batch u) ∧
  L2BlockUpdates.get_env (UpdatesManager.l2_block u') = L2BlockUpdates.get_env (UpdatesManager.l2_block u) ∧
  txs_of (UpdatesManager.l2_block u') = txs_of (UpdatesManager.l2_block u).
Proof.
  unfold UpdatesManager.finish_batch. destruct (L1BatchUpdates.finished _); [done|]. intros Hf.
  apply bind_Ret_inv in Hf as (m & _ & Hf). apply bind_Ret_inv in Hf as (d & _ & [= <-]). done.
Qed.

Lemma base_extend_batch restored (st : link) u f u' h r v :
  base restored st v → open_at restored st u h → txs_of (UpdatesManager.l2_block u) = [] →
  BatchExecutorHandle.finish_batch h = Ret (inr f, r) → UpdatesManager.finish_batch u f = Ret u' →
  now v < time_of u → user (kept (v_io v)) = user (sealed_txs (v_out v)) →
  closed restored u' (extend (SealedBatch u') v).
Proof.
  intros [Hh Hc Hn Hi Ha] [Hcont Hsized Hm] Hempty Hfin (Hf & Hnum & Htxs & Henv & Hblock)%finish_batch_inv Hnow Hk.
  destruct Hm as [(m & Hm & Hat)|[(e & ->) _]]; [|done].
  destruct (finish_at _ _ _ _ _ _ Hat Hfin) as (c & c' & Hrep & Hvm & _).
  assert (continues st u') as Hcont'.
  { destruct Hcont as [Cb Cn Ch Ct]. injection Henv as En _ Eh _. split; congruence. }
  split; [|split; [by rewrite now_extend|]].
  - split; [done| | | |done].
    + unfold extend. cbn [v_out]. rewrite app_assoc.
      assert (Link _ _ _ _ _ = after_batch st u') as ->.
      { unfold after_batch. destruct Hcont' as [Cb Cn Ch Ct]. by rewrite Cb, Cn. }
      eapply chain_batch; [done|done|by rewrite Hblock| |done|done]. exists m. split; [done|].
      unfold block_ops. rewrite Henv, Hblock. exact Hrep.
    + unfold extend. cbn [v_out]. apply Forall_app. split; [done|]. by apply Forall_singleton.
    + unfold extend. cbn [v_out]. rewrite fmap_app. apply increasing_snoc. split; [done|].
      injection Henv as _ Et _ _. unfold now, time_of in *. cbn. unfold time_of. by rewrite Et.
  - unfold extend. cbn [v_out v_io]. rewrite sealed_txs_snoc. cbn. by rewrite app_nil_r.
Qed.

Lemma closed_settled restored u v : closed restored u v → settled restored v.
Proof. intros (Hb & _ & Hk). eapply settled_base; [done|]. by rewrite Hk. Qed.

Lemma hoare_seal_l1_batch restored h u :
  hoare (open restored (h, u)) (seal_l1_batch h u : M _) (closed restored) (settled restored).
Proof.
  unfold seal_l1_batch. eapply hoare_bind.
  { instantiate (1 := λ hu v, txs_of (UpdatesManager.l2_block hu.2) = [] ∧ open restored hu v).
    destruct (L2BlockUpdates.executed_transactions _) eqn:Et; [by apply hoare_ret|].
    apply hoare_seal_block. unfold txs_of. by rewrite Et. }
  intros [h' u']. cbn [snd]. apply hoare_pure. intros Hempty.
  eapply hoare_bind; [by apply hoare_executor; intros v; apply open_settled|]. intros [f r]. apply hoare_pure. intros Hfin.
  eapply hoare_bind; [apply (hoare_lift _ _ (λ u'' v, UpdatesManager.finish_batch u' f = Ret u'' ∧ open restored (h', u') v)); done|].
  intros u''. apply hoare_pure. intros Hf.
  assert (Hnext : ∀ v, open restored (h', u') v → closed restored u'' (extend (SealedBatch u'') v)).
  { intros v (st & Hb & Hat & Hnow & Hk). cbn [fst snd] in *. eapply base_extend_batch; [done..|]. rewrite Hk.
    unfold transactions_of. rewrite Hempty. by rewrite app_nil_r. }
  eapply hoare_bind.
  { apply hoare_output; [by intros v (st & [] & _)|apply open_settled|]. intros v Hv. by eapply closed_settled, Hnext. }
  intros []. apply hoare_ret. intros v' (v & Hv & ->). by apply Hnext.
Qed.

(** *** Opening a batch *)
Record env_matches (batch : L1BatchNumber) (block : L2BlockNumber) (hash : H256) (env : L1BatchEnv.t) : Prop := {
  env_batch : L1BatchEnv.number env = batch;
  env_block : L2BlockEnv.number (L1BatchEnv.first_l2_block env) = block;
  env_hash : L2BlockEnv.prev_block_hash (L1BatchEnv.first_l2_block env) = hash;
}.

Definition env_time (env : L1BatchEnv.t) : Z := L2BlockEnv.timestamp (L1BatchEnv.first_l2_block env).

Lemma hoare_new_batch_env (P E : view → Prop) cursor :
  (∀ v, P v → E v) →
  hoare P (wait_for_new_batch_env cursor : M _)
    (λ '(_, env) v, env_matches (IoCursor.l1_batch cursor) (IoCursor.next_l2_block cursor) (IoCursor.prev_l2_block_hash cursor) env ∧
      (IoCursor.prev_l2_block_timestamp cursor < env_time env ∧ P v)) E.
Proof.
  intros HE. unfold wait_for_new_batch_env.
  eapply hoare_bind; [apply hoare_wait_for; [apply batch_after_previous_block|done]|]. intros params. apply hoare_pure. intros Hlater.
  eapply hoare_bind; [apply (silent_hoare _ _ (λ _, P)); [apply silent_io|done|done]|]. intros contracts.
  eapply hoare_bind; [apply (silent_hoare _ _ (λ _, P)); [apply silent_canceled|done|done]|]. intros [].
  { by apply hoare_fail. }
  eapply hoare_bind; [apply (silent_hoare _ _ (λ _, P)); [apply silent_io|done|done]|]. intros hash.
  apply hoare_get. intros s. unfold L1BatchParams.into_env, l1_batch_params. by apply hoare_ret.
Qed.

Lemma hoare_init_batch (P E : view → Prop) env sys :
  (∀ v, P v → E v) →
  hoare P (init_batch env sys : M handle) (λ h v, (∃ storage, h = BatchExecutorHandle.init_batch storage env sys) ∧ P v) E.
Proof.
  intros HE. unfold init_batch. eapply hoare_bind; [apply (silent_hoare _ _ (λ _, P)); [apply silent_storage|done|done]|].
  intros [storage|]; [|by apply hoare_fail]. apply hoare_ret. intros v Hv. eauto.
Qed.

Lemma open_new_at restored (st : link) env sys storage u v :
  base restored st v → link_machine st = None → link_txs st = [] →
  env_matches (link_batch st) (link_block st) (link_hash st) env → UpdatesManager.new env sys = Ret u →
  time_of u = env_time env ∧ txs_of (UpdatesManager.l2_block u) = [] ∧
  ∃ st', base restored st' v ∧ open_at restored st' u (BatchExecutorHandle.init_batch storage env sys).
Proof.
  intros Hb Hm Ht [Eb En Eh] Hu. unfold UpdatesManager.new in Hu. apply bind_Ret_inv in Hu as (fee & _ & [= <-]).
  split; [done|]. split; [done|].
  assert (Hcont : ∀ st' : link, link_batch st' = link_batch st → link_block st' = link_block st → link_hash st' = link_hash st →
    link_txs st' = link_txs st → ∀ u, UpdatesManager.l1_batch u = L1BatchUpdates.new (L1BatchEnv.number env) →
    L2BlockUpdates.number (UpdatesManager.l2_block u) = L2BlockEnv.number (L1BatchEnv.first_l2_block env) →
    L2BlockUpdates.prev_block_hash (UpdatesManager.l2_block u) = L2BlockEnv.prev_block_hash (L1BatchEnv.first_l2_block env) →
    continues st' u).
  { intros st' S1 S2 S3 S4 u U1 U2 U3. split; rewrite ?U1, ?U2, ?U3; cbn; congruence. }
  destruct (vm_new env sys storage) as [c0|] eqn:Evm.
  - exists (opened st c0). split.
    + destruct Hb. split; [done| |done|done|done]. by eapply chain_open.
    + split; [by apply Hcont|done|]. left. eexists. split; [done|]. cbn. by apply init_batch_at.
  - exists st. split; [done|]. split; [by apply Hcont|done|]. right. split; [|done].
    unfold BatchExecutorHandle.init_batch. rewrite Evm. eauto.
Qed.

Lemma open_new restored (st : link) env sys storage u v :
  base restored st v → link_machine st = None → link_txs st = [] →
  env_matches (link_batch st) (link_block st) (link_hash st) env → now v < env_time env → UpdatesManager.new env sys = Ret u →
  user (kept (v_io v)) = user (sealed_txs (v_out v)) →
  open restored (BatchExecutorHandle.init_batch storage env sys, u) v.
Proof.
  intros Hb Hm Ht He Hnow Hu Hk. destruct (open_new_at _ _ _ _ storage _ _ Hb Hm Ht He Hu) as (Htime & Hempty & st' & Hb' & Hat).
  exists st'. cbn [fst snd]. split_and!; [done|done|by rewrite Htime|]. unfold transactions_of. rewrite Hempty, Hk. by rewrite app_nil_r.
Qed.

Lemma hoare_run_iteration restored locals :
  hoare (open restored locals.1) (run_iteration executor sealer locals : M _)
    (λ r v, match r with inl locals => open restored locals.1 v | inr _ => True end) (settled restored).
Proof.
  destruct locals as [[h u] tx]. unfold run_iteration. cbn [fst].
  eapply hoare_bind; [apply hoare_process_l1_batch|]. intros [h' u'].
  eapply hoare_bind; [apply hoare_seal_l1_batch|]. intros sealed.
  eapply hoare_bind; [apply hoare_new_batch_env; intros v; apply closed_settled|]. intros [sys env].
  apply hoare_pure. intros Henv. apply hoare_pure. intros Htime.
  eapply hoare_bind; [apply (hoare_lift _ _ (λ u v, UpdatesManager.new env sys = Ret u ∧ closed restored sealed v)); done|].
  intros u2. apply hoare_pure. intros Hu2.
  eapply hoare_bind; [apply hoare_init_batch; intros v; apply closed_settled|]. intros h2. apply hoare_pure. intros [storage ->].
  eapply (hoare_bind _ (λ _, open restored (BatchExecutorHandle.init_batch storage env sys, u2))).
  { apply (hoare_pre _ (open restored (BatchExecutorHandle.init_batch storage env sys, u2))).
    - intros v (Hb & Ht & Hk). eapply open_new; [exact Hb|done|done|exact Henv| |done|done]. rewrite Ht. exact Htime.
    - case_match; [apply open_silent_io|by apply hoare_ret]. }
  intros tx2. by apply hoare_ret.
Qed.

(** *** Restoring the pending batch

    Its blocks continue the chain without being sealed again. *)
Definition restoring (before : list (list Transaction.t)) (t : Z) (hu : handle * UpdatesManager.t) (v : view) : Prop :=
  time_of hu.2 = t ∧ ∃ us st, (transactions_of ∘ UpdatesManager.l2_block <$> us) = before ∧
    base (SealedBlock <$> us) st v ∧ open_at (SealedBlock <$> us) st hu.2 hu.1 ∧ v_out v = [] ∧ v_io v = [].
(** How restoring fails: with nothing sealed. *)
Definition unsealed (v : view) : Prop := v_handlers v = true ∧ v_out v = [] ∧ answered (v_io v).

Lemma restoring_unsealed before t hu v : restoring before t hu v → unsealed v.
Proof. intros (_ & us & st & _ & [] & _ & Hv & _). done. Qed.

(** A block of the pending batch is closed and the next one opened. *)
Lemma hoare_restore_push before t h u params :
  hoare (restoring before t (h, u)) (start_next_l2_block params u h : M _)
    (λ hu v, (transactions_of (UpdatesManager.l2_block hu.2) = []) ∧
      restoring (before ++ [transactions_of (UpdatesManager.l2_block u)]) (L2BlockParams.timestamp params) hu v) unsealed.
Proof.
  unfold start_next_l2_block. eapply hoare_bind; [apply hoare_executor; intros v; apply restoring_unsealed|]. intros [[] h'].
  apply hoare_pure. intros Hs. apply hoare_ret. intros v (_ & us & st & Hus & Hb & [Hcont Hsized Hm] & Hv & Hio).
  split; [done|]. cbn [fst snd] in *. destruct Hm as [(m & Hm & Hat)|[(e & ->) _]]; [|done].
  split; [done|]. exists (us ++ [u]), (after_block st u). split_and!; [by rewrite fmap_app, Hus| | |done|done].
  - destruct Hb as [Hh Hc Hn Hi Ha]. split; [done| |done|done|done]. rewrite Hv, app_nil_r in *. rewrite fmap_app.
    pose proof Hat as (vm & _ & _ & Hrep). eapply chain_block; [done|done|]. by exists m.
  - split; [by apply continues_push|done|]. by eapply start_next_at.
Qed.

Lemma hoare_reexecute_tx before t b txs hu tx :
  hoare (λ v, transactions_of (UpdatesManager.l2_block hu.2) = b ++ txs ∧ restoring before t hu v)
    (reexecute_tx executor hu tx : M _)
    (λ hu v, transactions_of (UpdatesManager.l2_block hu.2) = b ++ txs ++ [tx] ∧ restoring before t hu v) unsealed.
Proof.
  destruct hu as [h u]. cbn [fst snd]. apply hoare_pure. intros Htxs. unfold reexecute_tx.
  eapply hoare_bind; [apply hoare_executor; intros v; apply restoring_unsealed|]. intros [er h']. apply hoare_pure. intros He.
  destruct er as [r m cb calls g|reason|]; [|apply hoare_fail, restoring_unsealed|apply hoare_fail, restoring_unsealed].
  eapply hoare_bind; [apply (hoare_lift _ _ (λ _, restoring before t (h, u))); done|]. intros hash.
  eapply hoare_bind; [|intros u'; apply (hoare_ret (λ v, transactions_of (UpdatesManager.l2_block u') = b ++ txs ++ [tx] ∧ restoring before t (h', u') v)); done].
  apply hoare_lift. intros u' v (Hb & Henv & e & <- & Ht)%extend_updates_inv (Htime & us & st & Hus & Hbase & [Hcont Hsized Hm] & Hv & Hio).
  split. { unfold transactions_of in *. rewrite Ht, fmap_app, Htxs. cbn. by rewrite app_assoc. }
  split. { cbn in *. injection Henv as _ Et _ _. unfold time_of in *. by rewrite Et. }
  exists us, st. split_and!; [done|done| |done|done]. cbn [fst snd] in *.
  split; [by eapply continues_same|by eapply sized_snoc|]. eapply tried_kept; [by eapply tried_execute|done|done].
Qed.

Lemma hoare_reexecute_txs before t hu txs :
  transactions_of (UpdatesManager.l2_block hu.2) = [] →
  hoare (restoring before t hu) (foldP (reexecute_tx executor) hu txs : M _)
    (λ hu v, transactions_of (UpdatesManager.l2_block hu.2) = txs ∧ restoring before t hu v) unsealed.
Proof.
  intros Hnil. apply (hoare_pre _ (λ v, transactions_of (UpdatesManager.l2_block hu.2) = [] ∧ restoring before t hu v)); [done|].
  apply (hoare_foldP (λ txs hu v, transactions_of (UpdatesManager.l2_block hu.2) = txs ∧ restoring before t hu v) _ _ []).
  intros done tx hu'. apply (hoare_reexecute_tx before t []).
Qed.

(** The time of the last of the pending blocks, the first of which has that of the batch. *)
Definition restored_time (t : Z) (bs : list L2BlockExecutionData.t) : Z :=
  default t (L2BlockExecutionData.timestamp <$> last (tail bs)).
Lemma restored_time_snoc t bs b :
  restored_time t (bs ++ [b]) = match bs with [] => t | _ => L2BlockExecutionData.timestamp b end.
Proof. unfold restored_time. destruct bs; [done|]. cbn [tail app]. by rewrite last_snoc. Qed.

Definition restored_blocks (t : Z) (bs : list L2BlockExecutionData.t) (acc : nat * (handle * UpdatesManager.t)) (v : view) : Prop :=
  acc.1 = length bs ∧ ∃ before, restoring before (restored_time t bs) acc.2 v ∧
    (bs = [] ∧ before = [] ∧ transactions_of (UpdatesManager.l2_block acc.2.2) = [] ∨
     bs ≠ [] ∧ before ++ [transactions_of (UpdatesManager.l2_block acc.2.2)] = L2BlockExecutionData.txs <$> bs).

Lemma hoare_reexecute_block t bs b acc :
  hoare (restored_blocks t bs acc) (reexecute_block executor acc b : M _) (restored_blocks t (bs ++ [b])) unsealed.
Proof.
  destruct acc as [index [h u]]. unfold restored_blocks at 1. cbn [fst snd]. apply hoare_pure. intros ->.
  apply hoare_exists. intros before. unfold reexecute_block.
  eapply (hoare_bind _ (λ hu v, transactions_of (UpdatesManager.l2_block hu.2) = [] ∧
    restoring (L2BlockExecutionData.txs <$> bs) (restored_time t (bs ++ [b])) hu v)).
  - apply (hoare_pre _ (λ v, (bs = [] ∧ before = [] ∧ transactions_of (UpdatesManager.l2_block u) = [] ∨
      bs ≠ [] ∧ before ++ [transactions_of (UpdatesManager.l2_block u)] = L2BlockExecutionData.txs <$> bs) ∧
      restoring before (restored_time t bs) (h, u) v)); [naive_solver|].
    apply hoare_pure. intros [(-> & -> & Ht)|[Hne Hbefore]].
    + cbn [length]. rewrite decide_False by lia. apply hoare_ret. done.
    + rewrite decide_True by (destruct bs; [done|cbn; lia]). rewrite <-Hbefore, restored_time_snoc.
      destruct bs; [done|]. apply hoare_restore_push.
  - intros [h1 u1]. apply hoare_pure. intros Ht. eapply hoare_bind; [by apply hoare_reexecute_txs|].
    intros hu. apply hoare_ret. intros v [Htxs Hr]. split; [cbn; rewrite length_app; cbn; lia|].
    eexists. split; [exact Hr|]. right. split; [by destruct bs|]. rewrite fmap_app. cbn. by rewrite Htxs.
Qed.

Lemma hoare_restore_state t h u bs :
  transactions_of (UpdatesManager.l2_block u) = [] →
  hoare (restoring [] t (h, u)) (restore_state executor h u bs : M _)
    (λ hu v, transactions_of (UpdatesManager.l2_block hu.2) = [] ∧ ∃ t', restoring (L2BlockExecutionData.txs <$> bs) t' hu v ∧
      match bs with [] => t' = t | _ => restored_time t bs < t' end) unsealed.
Proof.
  intros Hnil. unfold restore_state. destruct bs as [|b bs]; [apply hoare_ret; by eauto|].
  apply (hoare_pre _ (restored_blocks t [] (O, (h, u)))). { intros v Hv. split; [done|]. exists []. eauto. }
  eapply hoare_bind.
  { apply (hoare_foldP (restored_blocks t) _ _ []). intros done b' acc. apply hoare_reexecute_block. }
  intros [index [h' u']]. unfold restored_blocks. rewrite app_nil_l. apply hoare_pure. intros _. apply hoare_exists. intros before.
  cbn [fst snd].
  apply (hoare_pre _ (λ v, (before ++ [transactions_of (UpdatesManager.l2_block u')] = L2BlockExecutionData.txs <$> (b :: bs) ∧
    time_of u' = restored_time t (b :: bs)) ∧ restoring before (restored_time t (b :: bs)) (h', u') v)).
  { intros v (Hr & Hor). split; [|done]. destruct Hr as (Ht & _). naive_solver. }
  apply hoare_pure. intros [<- Ht].
  eapply hoare_bind; [apply hoare_wait_for; [apply block_after_previous_block|apply restoring_unsealed]|].
  intros params. apply hoare_pure. intros Hlater. eapply hoare_post; [|apply hoare_restore_push].
  intros hu v [Htxs Hr]. split; [done|]. eexists. split; [exact Hr|]. rewrite <-Ht. exact Hlater.
Qed.

(** *** The whole run *)
Definition pending_blocks (pending : option PendingBatchData.t) : list L2BlockExecutionData.t :=
  match pending with Some p => PendingBatchData.pending_l2_blocks p | None => [] end.

(** Where the chain starts: at the pending batch, or at the cursor. *)
Definition start_link (cursor : IoCursor.t) (pending : option PendingBatchData.t) : link :=
  match pending with
  | None => Link (IoCursor.l1_batch cursor) (IoCursor.next_l2_block cursor) (IoCursor.prev_l2_block_hash cursor) [] None
  | Some p =>
      let env := PendingBatchData.l1_batch_env p in
      Link (L1BatchEnv.number env) (L2BlockEnv.number (L1BatchEnv.first_l2_block env))
        (L2BlockEnv.prev_block_hash (L1BatchEnv.first_l2_block env)) [] None
  end.

(** The time of the last block before those that will be sealed. *)
Definition start_time (cursor : IoCursor.t) (pending : option PendingBatchData.t) : Z :=
  match pending with
  | None => IoCursor.prev_l2_block_timestamp cursor
  | Some p => restored_time (env_time (PendingBatchData.l1_batch_env p)) (PendingBatchData.pending_l2_blocks p)
  end.

(** Nothing has been recorded. *)
Definition pristine (v : view) : Prop := v_handlers v = true ∧ v_out v = [] ∧ v_io v = [].
Lemma pristine_unsealed v : pristine v → unsealed v.
Proof. intros (? & ? & Hio). split_and!; [done..|]. rewrite Hio. apply answered_nil. Qed.

Lemma silent_output_initialize cursor : silent (output_call (OutputHandler.initialize cursor) : M ()).
Proof.
  intros P [n i out f] Hs. unfold output_call, OutputHandler.initialize. cbn [output_handler].
  destruct out as [|[o log] rest]; [done|]. cbn.
  destruct (handler_initialize cursor o) as [[[e|[]] o']|]; cbn; [unfold view_of; cbn; by rewrite app_nil_r| |done].
  destruct (OutputHandler.each _ rest) as [[[e|[]] rest']|]; cbn; [| |done]; unfold view_of; cbn; by rewrite app_nil_r.
Qed.

Lemma silent_load_protocol_upgrade_tx blocks version n : silent (load_protocol_upgrade_tx blocks version n : M _).
Proof.
  unfold load_protocol_upgrade_tx. apply silent_bind; [apply silent_io|]. intros previous.
  apply silent_bind; [case_match; [apply silent_io|apply silent_ret]|]. intros [tx|]; destruct blocks; try apply silent_ret.
  apply silent_bind; [apply silent_lift|]. intros first. apply silent_lift.
Qed.

Lemma pristine_restoring env sys storage u v :
  pristine v → st0 = Link (L1BatchEnv.number env) (L2BlockEnv.number (L1BatchEnv.first_l2_block env))
        (L2BlockEnv.prev_block_hash (L1BatchEnv.first_l2_block env)) [] None →
  UpdatesManager.new env sys = Ret u →
  restoring [] (env_time env) (BatchExecutorHandle.init_batch storage env sys, u) v ∧ transactions_of (UpdatesManager.l2_block u) = [].
Proof.
  intros (Hh & Ho & Hi) Hst Hu.
  assert (Hb : base [] st0 v). { split; [done|rewrite Ho; constructor|by rewrite Ho..|rewrite Hi; apply answered_nil]. }
  destruct (open_new_at [] st0 env sys storage u v Hb) as (Ht & Hempty & st & Hb' & Hat); [by rewrite Hst..|by rewrite Hst|done|].
  split; [|unfold transactions_of; by rewrite Hempty]. split; [done|]. exists [], st. done.
Qed.

Definition initialized (blocks : list L2BlockExecutionData.t) (hu : handle * UpdatesManager.t) (v : view) : Prop :=
  ∃ us, (transactions_of ∘ UpdatesManager.l2_block <$> us) = (L2BlockExecutionData.txs <$> blocks) ∧ open (SealedBlock <$> us) hu v.

(** Making the executor and restoring the pending blocks. *)
Lemma hoare_open_initial env sys blocks :
  st0 = Link (L1BatchEnv.number env) (L2BlockEnv.number (L1BatchEnv.first_l2_block env))
        (L2BlockEnv.prev_block_hash (L1BatchEnv.first_l2_block env)) [] None →
  match blocks with [] => t0 < env_time env | _ => t0 = restored_time (env_time env) blocks end →
  hoare pristine
    (u ← lift_exec (UpdatesManager.new env sys);
     tx ← load_protocol_upgrade_tx blocks (SystemEnv.version sys) (L1BatchEnv.number env);
     h ← init_batch env sys;
     '(h, u) ← restore_state executor h u blocks;
     mret (h, u, tx) : M _)
    (λ locals, initialized blocks locals.1) unsealed.
Proof.
  intros Hst Ht0. eapply hoare_bind; [apply (hoare_lift _ _ (λ u v, UpdatesManager.new env sys = Ret u ∧ pristine v)); done|].
  intros u. apply hoare_pure. intros Hu.
  eapply hoare_bind; [apply (silent_hoare _ _ (λ _, pristine)); [apply silent_load_protocol_upgrade_tx|done|apply pristine_unsealed]|]. intros tx.
  eapply hoare_bind; [apply hoare_init_batch, pristine_unsealed|]. intros h. apply hoare_pure. intros [storage ->].
  apply (hoare_pre _ (λ v, transactions_of (UpdatesManager.l2_block u) = [] ∧
    restoring [] (env_time env) (BatchExecutorHandle.init_batch storage env sys, u) v)).
  { intros v Hv. by destruct (pristine_restoring env sys storage u v Hv Hst Hu). }
  apply hoare_pure. intros Hempty. eapply hoare_bind; [by apply hoare_restore_state|].
  intros [h' u']. apply hoare_ret. intros v (Ht & t' & (Htime & us & st & Hus & Hb & Hat & Ho & Hi) & Hlater). exists us. split; [done|].
  exists st. split_and!; [done|done| |]; cbn [fst snd] in *; unfold now; rewrite Ho.
  - cbn. rewrite Htime. destruct blocks; [by rewrite Hlater|by rewrite Ht0].
  - rewrite Hi, Ht. done.
Qed.

(** What the records say of the blocks restored and the blocks sealed. *)
Definition recorded_run (blocks : list L2BlockExecutionData.t) (v : view) : Prop :=
  ∃ us, settled (SealedBlock <$> us) v ∧
    (v_out v ≠ [] → (transactions_of ∘ UpdatesManager.l2_block <$> us) = (L2BlockExecutionData.txs <$> blocks)).

Lemma unsealed_recorded blocks v : unsealed v → recorded_run blocks v.
Proof.
  intros (Hh & Ho & Ha). exists []. split; [|by rewrite Ho]. split; [|rewrite Ho; apply prefix_nil].
  exists st0. split; [done|rewrite Ho; constructor|by rewrite Ho..|done].
Qed.
Lemma initialized_recorded blocks hu v : initialized blocks hu v → recorded_run blocks v.
Proof. intros (us & Hus & Ho). exists us. split; [by eapply open_settled|done]. Qed.

Lemma hoare_initialize_rest cursor pending :
  st0 = start_link cursor pending → t0 = start_time cursor pending →
  hoare pristine
    (_ ← output_call (OutputHandler.initialize cursor);
     pending ← match pending with
       | Some params =>
           match PendingBatchData.pending_l2_blocks params with
           | [] => fail (Fatal "expected at least one pending L2 block")
           | _ => mret params
           end
       | None =>
           '(system_env, l1_batch_env) ← wait_for_new_batch_env cursor;
           mret (PendingBatchData.mk l1_batch_env system_env [])
       end;
     let env := PendingBatchData.l1_batch_env pending in
     let sys := PendingBatchData.system_env pending in
     let blocks := PendingBatchData.pending_l2_blocks pending in
     u ← lift_exec (UpdatesManager.new env sys);
     tx ← load_protocol_upgrade_tx blocks (SystemEnv.version sys) (L1BatchEnv.number env);
     h ← init_batch env sys;
     '(h, u) ← restore_state executor h u blocks;
     mret (h, u, tx) : M _)
    (λ locals, initialized (pending_blocks pending) locals.1) unsealed.
Proof.
  intros Hst Ht. eapply hoare_bind.
  { apply (silent_hoare _ _ (λ _, pristine)); [apply silent_output_initialize|done|apply pristine_unsealed]. }
  intros []. eapply (hoare_bind _ (λ p v, (PendingBatchData.pending_l2_blocks p = pending_blocks pending ∧
    match PendingBatchData.pending_l2_blocks p with
    | [] => t0 < env_time (PendingBatchData.l1_batch_env p)
    | bs => t0 = restored_time (env_time (PendingBatchData.l1_batch_env p)) bs end ∧
    st0 = Link (L1BatchEnv.number (PendingBatchData.l1_batch_env p))
      (L2BlockEnv.number (L1BatchEnv.first_l2_block (PendingBatchData.l1_batch_env p)))
      (L2BlockEnv.prev_block_hash (L1BatchEnv.first_l2_block (PendingBatchData.l1_batch_env p))) [] None) ∧ pristine v)).
  - destruct pending as [p|].
    + destruct (PendingBatchData.pending_l2_blocks p) eqn:Ep; [apply hoare_fail, pristine_unsealed|].
      apply hoare_ret. intros v Hv. split; [|done]. rewrite Ep. cbn. split_and!; [done| |done]. rewrite Ht. cbn. by rewrite Ep.
    + eapply hoare_bind; [apply hoare_new_batch_env, pristine_unsealed|]. intros [sys env]. apply hoare_pure. intros [Eb En Eh].
      apply hoare_pure. intros Htime. apply hoare_ret. intros v Hv. split; [|done]. cbn. split_and!; [done|by rewrite Ht|].
      by rewrite Hst, Eb, En, Eh.
  - intros p. apply hoare_pure. intros (<- & Hp1 & Hp2). apply hoare_open_initial; [done|]. by destruct (PendingBatchData.pending_l2_blocks p).
Qed.

Lemma hoare_run_loop blocks locals :
  hoare (initialized blocks locals.1) (while_not_canceled (run_iteration executor sealer) locals : M _)
    (λ _, recorded_run blocks) (recorded_run blocks).
Proof.
  apply (hoare_while_not_canceled (λ locals, initialized blocks locals.1)); [intros ??; apply initialized_recorded|].
  intros locals'. apply hoare_exists. intros us. apply hoare_pure. intros Hus.
  eapply hoare_post; [|eapply hoare_err; [|apply hoare_run_iteration]].
  - intros [l|[]] v Hv. by exists us.
  - intros v Hv. by exists us.
Qed.

Lemma prog_bind_bind_step {S E A B D} (m : prog S E A) (f : A → prog S E B) (g : B → prog S E D) s a s1 :
  m s = Ret (inr a, s1) → ((m ≫= f) ≫= g) s = (f a ≫= g) s1.
Proof. intros Hm. unfold mbind, prog_bind. by rewrite Hm. Qed.

Lemma run_recorded (s : keeper) cursor pending i' r s' :
  st0 = start_link cursor pending → t0 = start_time cursor pending → pristine (view_of s) →
  io_initialize (io s).1 = Ret (inr (cursor, pending), i') → run executor sealer s = Ret (r, s') →
  recorded_run (pending_blocks pending) (view_of s').
Proof.
  intros Hst Ht Hp Hinit Hrun. unfold run in Hrun. apply bind_Ret_inv in Hrun as ([r1 s1] & Hrun & [= _ <-]).
  unfold run_inner, initialize in Hrun.
  assert (Hcall : ∃ s2 : keeper, io_call io_initialize s = Ret (inr (cursor, pending), s2) ∧ view_of s2 = view_of s).
  { destruct s as [n [i log] out f]. unfold io_call. cbn in *. rewrite Hinit. cbn. rewrite app_nil_r. by eexists. }
  destruct Hcall as (s2 & Hcall & Hview). erewrite prog_bind_bind_step in Hrun by exact Hcall. cbn beta iota zeta in Hrun.
  assert (Hrest := hoare_bind _ _ _ _ _ _ (hoare_err _ _ _ _ _ (unsealed_recorded _) (hoare_initialize_rest cursor pending Hst Ht))
    (hoare_run_loop (pending_blocks pending))).
  specialize (Hrest s2). rewrite Hview in Hrest. specialize (Hrest Hp).
  match type of Hrun with ?m = _ =>
    assert (Hm : match m with
                 | Ret (_, s') => recorded_run (pending_blocks pending) (view_of s')
                 | Panic => True end) end.
  { clear Hrun. by repeat case_match. }
  by rewrite Hrun in Hm.
Qed.
End invariant.
End KeeperInvariant.

(** ** Theorems *)
Module KeeperTheorems.
Import ExecutorSpec KeeperHoare KeeperInvariant ZkSyncStateKeeper.
Section theorems.
Context `{TxLib, KeeperLib, ZkEvmParams} {I Out F Storage C : Type}.
Context `{StateKeeperIO I, StateKeeperOutputHandler Out, ReadStorageFactory F Storage, VmCore Storage C}.
Context `{!StateKeeperIOLaws (I := I), !VmCoreLaws}.
Context (executor : CommandReceiver.t) (sealer : ConditionalSealer).
Abbreviation keeper := (ZkSyncStateKeeper.t (I * list io_event) (Out * list output) F).

(** C3 Whatever the I/O, the machine and the sealer do, and whenever the state keeper is
    stopped or fails, what it has handed to its output handlers continues the chain where
    the I/O said it stands - after the pending blocks, which it restores with the
    transactions they had: numbers are consecutive, each block has the hash of the one
    before, each batch has the transactions of its blocks and ends with an empty block,
    no other block is empty, and the result of each batch is what a new machine gives
    after running the batch's blocks and transactions and nothing else - those that were
    tried and put back or rejected have left no trace in it. *)
Theorem sealed_outputs_form_chain (s : keeper) cursor pending i' r s' :
  pristine (view_of s) → io_initialize (io s).1 = Ret (inr (cursor, pending), i') → run executor sealer s = Ret (r, s') →
  ∃ restored st,
    chain executor (start_link cursor pending) ((SealedBlock <$> restored) ++ v_out (view_of s')) st ∧
    Forall sealed_nonempty (v_out (view_of s')) ∧
    (v_out (view_of s') ≠ [] →
      (transactions_of ∘ UpdatesManager.l2_block <$> restored) = (L2BlockExecutionData.txs <$> pending_blocks pending)).
Proof.
  intros Hp Hi Hr. destruct (run_recorded executor sealer _ _ _ _ _ _ _ _ eq_refl eq_refl Hp Hi Hr) as (us & [(st & Hb) _] & Hus).
  exists us, st. by destruct Hb.
Qed.

(** C15 No transaction is lost, repeated or reordered on its way into blocks: whatever the
    state keeper puts back for a later batch or rejects is the transaction that it was
    given last, and at any time the transactions of the sealed blocks are, in order, the
    first of those it was given and did not give back. *)
Theorem sealed_transactions_received (s : keeper) cursor pending i' r s' :
  pristine (view_of s) → io_initialize (io s).1 = Ret (inr (cursor, pending), i') → run executor sealer s = Ret (r, s') →
  ∃ held, holds (v_io (view_of s')) held ∧ user (sealed_txs (v_out (view_of s'))) `prefix_of` user held.
Proof.
  intros Hp Hi Hr. destruct (run_recorded executor sealer _ _ _ _ _ _ _ _ eq_refl eq_refl Hp Hi Hr) as (us & [(st & Hb) Hk] & _).
  exists (kept (v_io (view_of s'))). split; [apply answered_holds, (base_answered _ _ _ _ _ _ Hb)|done].
Qed.

(** C25 No two blocks have the same time: the times of the blocks it seals, the empty ones at
    the ends of batches included, increase, from the last block that was sealed before. *)
Theorem sealed_times_increase (s : keeper) cursor pending i' r s' :
  pristine (view_of s) → io_initialize (io s).1 = Ret (inr (cursor, pending), i') → run executor sealer s = Ret (r, s') →
  increasing (start_time cursor pending) (output_time <$> v_out (view_of s')).
Proof.
  intros Hp Hi Hr. destruct (run_recorded executor sealer _ _ _ _ _ _ _ _ eq_refl eq_refl Hp Hi Hr) as (us & [(st & Hb) _] & _).
  by destruct Hb.
Qed.

(** C27 The state keeper runs until it is told to stop: its task ends without an error only
    when the stop signal is set. The factory of its storage may look at the signal too,
    and as its interface says gives no storage only when it is set. *)
Theorem keeper_stops_on_signal `{!ReadStorageFactoryLaws (F := F) (Storage := Storage)} (s s' : keeper) :
  run executor sealer s = Ret (inr (), s') → stop_receiver s' = O.
Proof.
  intros Hr. unfold run in Hr. apply bind_Ret_inv in Hr as ([[[|e]|[]] s1] & Hr & [=<-]).
  eapply KeeperStops.orderly_canceled; [|exact Hr]. by apply KeeperStops.orderly_run_inner.
Qed.

(** What the batch has used with the transaction is within the limits. *)
Definition within_limits config (u : UpdatesManager.t) (tx : Transaction.t) (res : SealResolution) (er : TxExecutionResult.t)
    (u' : UpdatesManager.t) : Prop :=
  ∃ tx_result tx_metrics bytecodes calls gas_remaining block_data tx_data,
    er = TxExecutionResult.Success tx_result tx_metrics bytecodes calls gas_remaining ∧
    seal_data u tx tx_result tx_metrics gas_remaining = Ret (block_data, tx_data, u') ∧
    batch_fits config block_data (UpdatesManager.protocol_version u) ∧
    gas_bootloader_batch_tip_overhead (vm_version (UpdatesManager.protocol_version u)) ≤ gas_remaining ∧
    (res = NoSeal → UpdatesManager.pending_executed_transactions_len u + 1 < StateKeeperConfig.transaction_slots config).

(** C21 A transaction enters the open batch only if the batch with it is within every limit:
    the sealer of the main node is shown the sum of what the batch has used and what the
    transaction uses, and it lets the transaction in only if that fits the L1 gas, the
    pubdata, the circuits and the bootloader's memory of a batch, with gas left for the
    batch's end, and goes on with the batch only if there is a slot for one more. *)
Theorem inclusion_within_limits config h u tx (s : keeper) res er h' u' s' :
  process_one_tx executor (SequencerSealer_new config) h u tx s = Ret (inr (res, er, (h', u')), s') → included res →
  within_limits config u tx res er u'.
Proof.
  unfold process_one_tx. intros Hp Hinc. apply prog_bind_inr in Hp as ([er' h1] & s1 & He & Hp).
  destruct er' as [r m cb calls g|reason|].
  - apply prog_bind_inr in Hp as ([[block txd] u1] & s2 & Hsd & Hp). apply lift_exec_inr in Hsd as [Hsd ->].
    apply prog_bind_inr in Hp as (res' & s3 & Hres & Hp). apply lift_exec_inr in Hres as [Hres ->]. apply mret_inr in Hp as [Hp ->].
    injection Hp as -> -> -> ->. pose proof (seal_data_blocks _ _ _ _ _ _ _ _ Hsd) as [Hb Hl].
    assert (Hv : UpdatesManager.protocol_version u1 = UpdatesManager.protocol_version u ∧ SealData.gas_remaining txd = g).
    { unfold seal_data in Hsd. inv_exec. repeat case_match; inv_exec. simplify_eq. done. }
    destruct Hv as [Hv Hg]. unfold UpdatesManager.pending_executed_transactions_len in Hres. rewrite Hb, Hl, Hv in Hres.
    destruct (included_batch_fits _ _ _ _ _ _ Hres Hinc) as (Hfits & _ & Htip & Hslots). rewrite Hg in Htip.
    do 7 eexists. split_and!; [done|done|done|done|done].
  - exfalso. destruct reason; apply mret_inr in Hp as [Hp _]; injection Hp as -> _ _ _; destruct Hinc as [?|?]; try done; by destruct (bool_decide _).
  - exfalso. apply mret_inr in Hp as [Hp _]. injection Hp as -> _ _ _. destruct Hinc as [?|?]; by destruct (bool_decide _).
Qed.
End theorems.
End KeeperTheorems.

(** ** A sample state keeper

    A queue of transactions, batches of two, a machine that remembers what it ran and a
    bootloader that runs out of gas for transactions with a large gas limit. *)
Module KeeperSamples.
Import ExecutorSpec KeeperHoare KeeperInvariant KeeperTheorems ZkSyncStateKeeper TxEncodingSamples.

#[local] Instance sample_keeper_lib : KeeperLib :=
  {| abi_decode_bytes := λ bs, Some bs; payload_len := λ _, 100; hex_encode := λ _, EmptyString |}.
#[local] Instance sample_params : ZkEvmParams := {| max_heap_page_size_in_words := λ _, 4096 |}.

Definition statistics : VmExecutionStatistics.t := VmExecutionStatistics.mk 10 400 70000 3000000000 60000 90 0 CircuitStatistic.default.
Definition succeeded (result : ExecutionResult.t) : VmResult :=
  VmExecutionResultAndLogs.mk result (VmExecutionLogs.mk [] [] [] [] 0) statistics (Refunds.mk 0 0).
Definition finished (ran : list (L2BlockEnv.t + Transaction.t)) : FinishedL1Batch.t :=
  FinishedL1Batch.mk (succeeded (ExecutionResult.Success [])) (CurrentExecutionState.mk [] [] [] [] [] [Z.of_nat (length ran)] []) None None None.

#[local] Instance sample_vm : VmCore () (list (L2BlockEnv.t + Transaction.t)) := {|
  Snapshot := list (L2BlockEnv.t + Transaction.t);
  vm_new _ _ _ := Ret [];
  vm_inspect _ ran tx _ :=
    Ret ((true, succeeded (if decide (1000000 < tx_gas_limit tx) then ExecutionResult.Halted BootloaderOutOfGas else ExecutionResult.Success []), []),
         ran ++ [inr tx]);
  vm_last_tx_compressed_bytecodes _ := [];
  vm_gas_remaining _ := 3000000000;
  vm_start_new_l2_block ran env := Ret (ran ++ [inl env]);
  vm_finish_batch ran := Ret (finished ran, ran);
  vm_snapshot ran := ran;
  vm_rollback_to_snapshot _ snapshot := Ret snapshot;
|}.
#[local] Instance sample_vm_laws : VmCoreLaws (Storage := ()).
Proof. split. intros trace c tx compression r c' [= <- <-]. done. Qed.

Definition fee_input : Types.BatchFeeInput := PubdataIndependent (PubdataIndependentBatchFeeModelInput.mk 25000000 500000000 1000000000).
Definition contracts : BaseSystemContracts.t := BaseSystemContracts.mk (SystemContractCode.mk [] 1) (SystemContractCode.mk [] 2).
Definition cursor : IoCursor.t := IoCursor.mk 5 77 1000 3.

#[local] Instance sample_io : StateKeeperIO (list Transaction.t) := {|
  io_chain_id _ := 270;
  io_initialize := mret (cursor, None);
  io_wait_for_new_batch_params c :=
    mret (Some (L1BatchParams.mk latest 300000 0xfee fee_input (L2BlockParams.mk (IoCursor.prev_l2_block_timestamp c + 1) 1)));
  io_wait_for_new_l2_block_params c := mret (Some (L2BlockParams.mk (IoCursor.prev_l2_block_timestamp c + 1) 1));
  io_wait_for_next_tx := λ queue, match queue with [] => Ret (inr None, []) | tx :: queue => Ret (inr (Some tx), queue) end;
  io_rollback tx := λ queue, Ret (inr (), tx :: queue);
  io_reject _ _ := mret ();
  io_load_base_system_contracts _ _ := mret contracts;
  io_load_batch_version_id _ := mret latest;
  io_load_upgrade_tx _ := mret None;
  io_load_batch_state_hash _ := mret 99;
  io_should_seal_l1_batch_unconditionally u := mret (bool_decide (1 < UpdatesManager.pending_executed_transactions_len u));
  io_should_seal_l2_block u := mret (match L2BlockUpdates.executed_transactions (UpdatesManager.l2_block u) with [] => false | _ => true end);
|}.
#[local] Instance sample_io_laws : StateKeeperIOLaws (I := list Transaction.t).
Proof.
  split.
  - intros u i i' Hs. cbn in Hs. injection Hs as Hs _. apply bool_decide_eq_true in Hs. lia.
  - intros u i i' _ Hs. cbn in Hs. intros E. by rewrite E in Hs.
  - intros c i params i' [= <- _]. cbn. lia.
  - intros c i params i' [= <- _]. cbn. lia.
Qed.
#[local] Instance sample_handler : StateKeeperOutputHandler () :=
  {| handler_initialize _ := mret (); handler_handle_l2_block _ := mret (); handler_handle_l1_batch _ := mret () |}.
(** It looks at the signal first. *)
#[local] Instance sample_storage : ReadStorageFactory () () := {|
  access_storage _ := λ '(stop, f), Ret (inr (match stop with O => None | S _ => Some () end), (Nat.pred stop, f));
|}.
#[local] Instance sample_storage_laws : ReadStorageFactoryLaws (F := ()) (Storage := ()).
Proof. split; [intros number [|stop] f stop' f'; cbn; by intros [= <- _]|intros number stop f r stop' f' [= _ <- _]; lia]. Qed.

Definition l2_tx (nonce gas_limit : Z) : Transaction.t :=
  Transaction.mk (L2 (L2TxCommonData.mk nonce (Fee.mk gas_limit 250000000 0 50000) 0xaa (replicate 65 "001"%byte) EIP712Transaction
    (Some (InputData.mk (1000 + nonce) [])) (PaymasterParams.mk 0 []))) (Execute.mk 0xcc [] 17 []) 1 None.

Definition sample_keeper : ZkSyncStateKeeper.t (list Transaction.t * list io_event) (() * list output) () :=
  mk _ _ _ 40 ([l2_tx 0 70000; l2_tx 1 2000000; l2_tx 2 70000], []) [((), [])] ().
Definition sample_executor : CommandReceiver.t := CommandReceiver.mk false false.
Definition sample_sealer : ConditionalSealer := SequencerSealer_new StateKeeperConfig.for_tests.
Definition final := match run sample_executor sample_sealer sample_keeper with Ret (_, s) => s | Panic => sample_keeper end.
Definition shape (o : output) : Z * Z * nat :=
  match o with
  | SealedBlock u => (L1BatchUpdates.number (UpdatesManager.l1_batch u), L2BlockUpdates.number (UpdatesManager.l2_block u), length (txs_of (UpdatesManager.l2_block u)))
  | SealedBatch u => (L1BatchUpdates.number (UpdatesManager.l1_batch u), 0, length (L1BatchUpdates.executed_transactions (UpdatesManager.l1_batch u)))
  end.

Lemma pristine_sample : pristine (view_of sample_keeper).
Proof. split_and!; reflexivity. Qed.
Lemma run_sample : ∃ r, run sample_executor sample_sealer sample_keeper = Ret (r, final).
Proof. eexists. vm_compute. reflexivity. Qed.

Lemma sealed_outputs_form_chain_witness :
  (shape <$> v_out (view_of final)) = [(3, 5, 1%nat); (3, 0, 1%nat); (4, 7, 1%nat)] ∧
  ∃ restored st, chain sample_executor (start_link cursor None) ((SealedBlock <$> restored) ++ v_out (view_of final)) st ∧
    Forall sealed_nonempty (v_out (view_of final)) ∧
    (v_out (view_of final) ≠ [] → (transactions_of ∘ UpdatesManager.l2_block <$> restored) = []).
Proof.
  split; [vm_compute; reflexivity|]. destruct run_sample as [r Hr]. revert Hr. generalize final. intros s Hr.
  refine (sealed_outputs_form_chain sample_executor sample_sealer sample_keeper cursor None _ r s pristine_sample eq_refl Hr).
Defined.

Lemma sealed_transactions_received_witness :
  v_io (view_of final) = [Received (l2_tx 0 70000); Received (l2_tx 1 2000000); RolledBack (l2_tx 1 2000000)] ++ drop 3 (v_io (view_of final)) ∧
  ∃ held, holds (v_io (view_of final)) held ∧ user (sealed_txs (v_out (view_of final))) `prefix_of` user held.
Proof.
  split; [vm_compute; reflexivity|]. destruct run_sample as [r Hr]. revert Hr. generalize final. intros s Hr.
  refine (sealed_transactions_received sample_executor sample_sealer sample_keeper cursor None _ r s pristine_sample eq_refl Hr).
Defined.

Lemma sealed_times_increase_witness :
  (output_time <$> v_out (view_of final)) = [1001; 1002; 1003] ∧ increasing 1000 (output_time <$> v_out (view_of final)).
Proof.
  split; [vm_compute; reflexivity|]. destruct run_sample as [r Hr]. revert Hr. generalize final. intros s Hr.
  refine (sealed_times_increase sample_executor sample_sealer sample_keeper cursor None _ r s pristine_sample eq_refl Hr).
Defined.

Lemma keeper_stops_on_signal_witness : stop_receiver final = O.
Proof.
  apply (keeper_stops_on_signal (Out := ()) (F := ()) sample_executor sample_sealer sample_keeper final).
  vm_compute. reflexivity.
Defined.

Definition env : L1BatchEnv.t := L1BatchEnv.mk (Some 99) 3 1001 fee_input 0xfee None (L2BlockEnv.mk 5 1001 77 1).
Definition system : SystemEnv.t := SystemEnv.mk false latest contracts (2 ^ 32 - 1) VerifyExecute 300000 270.
Definition first_try : exec ((Error + (SealResolution * TxExecutionResult.t * (BatchExecutorHandle.t () _ * UpdatesManager.t))) * _) :=
  u ← UpdatesManager.new env system;
  process_one_tx sample_executor sample_sealer (BatchExecutorHandle.init_batch () env system) u (l2_tx 0 70000) sample_keeper.
Definition first_updates : UpdatesManager.t := match UpdatesManager.new env system with Ret u => u
  | Panic => UpdatesManager.mk 0 0 fee_input 0 (BaseSystemContracts.hashes contracts) 0 None (L1BatchUpdates.new 0) (L2BlockUpdates.new 0 0 0 0 0) StorageWritesDeduplicator.new end.

Lemma inclusion_within_limits_witness :
  ∃ block_data, batch_fits StateKeeperConfig.for_tests block_data latest ∧ SealData.cumulative_size block_data = 28.
Proof.
  destruct (inclusion_within_limits (I := list Transaction.t) (Out := ()) (F := ()) sample_executor StateKeeperConfig.for_tests
    (BatchExecutorHandle.init_batch () env system) first_updates (l2_tx 0 70000) sample_keeper
    NoSeal (match first_try with Ret (inr (_, er, _), _) => er | _ => TxExecutionResult.BootloaderOutOfGasForTx end)
    (match first_try with Ret (inr (_, _, (h, _)), _) => h | _ => BatchExecutorHandle.init_batch () env system end)
    (match first_try with Ret (inr (_, _, (_, u)), _) => u | _ => first_updates end) sample_keeper)
    as (r & m & cb & calls & g & block & txd & Her & Hsd & Hfits & _); [vm_compute; reflexivity|by left|].
  exists block. split; [exact Hfits|]. vm_compute in Her. injection Her as <- <- <- <- <-. vm_compute in Hsd. injection Hsd as <- _. reflexivity.
Defined.
End KeeperSamples.
