(* ===== verification/KeeperDal.v ===== *)
(** * What the state keeper reads from the database

    The statements of [lib/dal] that the I/O of the state keeper uses, as the class
    [KeeperDal]; the cursor and the pending batch to start from ([io/common/mod.rs] of
    [node/via_state_keeper]), and the parameters of batches that are in the database
    ([lib/vm_utils/src/storage.rs]). *)
From S2P Require Import Prelude Types Abi VmLimits FeeModel TxEncoding VmErrors SealCriteria VmInterface KeeperUpdates BatchExecutor StateKeeper.
Local Open Scope Z_scope.

(** [lib/types/src/block.rs], without the fields nobody here reads: the gas limits and the
    bloom filter of the block. *)
Module L2BlockHeader.
Record t := mk {
  number : L2BlockNumber;
  timestamp : Z;
  hash : H256;
  l1_tx_count : Z;
  l2_tx_count : Z;
  fee_account_address : Address;
  base_fee_per_gas : Z;
  batch_fee_input : Types.BatchFeeInput;
  base_system_contracts_hashes : BaseSystemContractsHashes.t;
  protocol_version : option ProtocolVersionId;
  virtual_blocks : Z;
}.
End L2BlockHeader.

(** [lib/types/src/snapshots.rs], without the progress of a recovery. *)
Module SnapshotRecoveryStatus.
Record t := mk {
  l1_batch_number : L1BatchNumber;
  l1_batch_root_hash : H256;
  l1_batch_timestamp : Z;
  l2_block_number : L2BlockNumber;
  l2_block_hash : H256;
  l2_block_timestamp : Z;
  protocol_version : ProtocolVersionId;
}.
End SnapshotRecoveryStatus.

(** A statement may fail, and others may write to the database between two of them. *)
Class KeeperDal (D : Type) := {
  (** [blocks_dal] and [blocks_web3_dal] *)
  get_sealed_l1_batch_number : prog D string (option L1BatchNumber);
  get_earliest_l1_batch_number : prog D string (option L1BatchNumber);
  get_last_sealed_l2_block_header : prog D string (option L2BlockHeader.t);
  get_l2_block_header : L2BlockNumber → prog D string (option L2BlockHeader.t);
  get_l2_block_range_of_l1_batch : L1BatchNumber → prog D string (option (L2BlockNumber * L2BlockNumber));
  get_l2_block_hash : L2BlockNumber → prog D string (option H256);
  get_l1_batch_state_root_and_timestamp : L1BatchNumber → prog D string (option (H256 * Z));
  get_batch_protocol_version_id : L1BatchNumber → prog D string (option ProtocolVersionId);
  (** [snapshot_recovery_dal], [factory_deps_dal] *)
  get_applied_snapshot_status : prog D string (option SnapshotRecoveryStatus.t);
  get_base_system_contracts : H256 → H256 → prog D string BaseSystemContracts.t;
  (** [transactions_dal] *)
  get_l2_blocks_to_reexecute : prog D string (list L2BlockExecutionData.t);
  mark_tx_as_rejected : H256 → string → prog D string ();
  (** [protocol_versions_dal] *)
  protocol_version_id_by_timestamp : Z → prog D string ProtocolVersionId;
  load_base_system_contracts_by_version_id : ProtocolVersionId → prog D string (option BaseSystemContracts.t);
  get_protocol_upgrade_tx : ProtocolVersionId → prog D string (option ProtocolUpgradeTx.t);
  (** [L2BlockSealProcess::clear_pending_l2_block] *)
  clear_pending_l2_block : L2BlockNumber → prog D string ();
}.

Section common.
Context {D : Type} `{KeeperDal D}.
Abbreviation M A := (prog D string A).

(** ** [io/common/mod.rs] *)
(** [IoCursor::new] *)
Definition IoCursor_new : M IoCursor.t :=
  last_sealed_l1_batch_number ← get_sealed_l1_batch_number;
  last_l2_block_header ← get_last_sealed_l2_block_header;
  match last_sealed_l1_batch_number, last_l2_block_header with
  | Some l1_batch_number, Some header =>
      mret {| IoCursor.next_l2_block := wrap 32 (L2BlockHeader.number header + 1);
              IoCursor.prev_l2_block_hash := L2BlockHeader.hash header;
              IoCursor.prev_l2_block_timestamp := L2BlockHeader.timestamp header;
              IoCursor.l1_batch := wrap 32 (l1_batch_number + 1) |}
  | _, _ =>
      status ← get_applied_snapshot_status;
      snapshot_recovery ← ok_or "Postgres contains neither blocks nor snapshot recovery info" status;
      let l1_batch := wrap 32 (default (SnapshotRecoveryStatus.l1_batch_number snapshot_recovery) last_sealed_l1_batch_number + 1) in
      mret (match last_l2_block_header with
            | Some header =>
                {| IoCursor.next_l2_block := wrap 32 (L2BlockHeader.number header + 1);
                   IoCursor.prev_l2_block_hash := L2BlockHeader.hash header;
                   IoCursor.prev_l2_block_timestamp := L2BlockHeader.timestamp header;
                   IoCursor.l1_batch := l1_batch |}
            | None =>
                {| IoCursor.next_l2_block := wrap 32 (SnapshotRecoveryStatus.l2_block_number snapshot_recovery + 1);
                   IoCursor.prev_l2_block_hash := SnapshotRecoveryStatus.l2_block_hash snapshot_recovery;
                   IoCursor.prev_l2_block_timestamp := SnapshotRecoveryStatus.l2_block_timestamp snapshot_recovery;
                   IoCursor.l1_batch := l1_batch |}
            end)
  end.

Definition load_pending_batch (system_env : SystemEnv.t) (l1_batch_env : L1BatchEnv.t) : M PendingBatchData.t :=
  pending_l2_blocks ← get_l2_blocks_to_reexecute;
  first_pending_l2_block ← ok_or "no pending L2 blocks; was environment loaded for a correct L1 batch number?" (head pending_l2_blocks);
  if decide (L2BlockExecutionData.number first_pending_l2_block = L2BlockEnv.number (L1BatchEnv.first_l2_block l1_batch_env))
  then mret (PendingBatchData.mk l1_batch_env system_env pending_l2_blocks)
  else fail "Invalid `L1BatchEnv` supplied: its L1 batch is not pending".
End common.

(** ** [lib/vm_utils/src/storage.rs] *)
Module FirstL2BlockInBatch.
Record t := mk { header : L2BlockHeader.t; l1_batch_number : L1BatchNumber }.
End FirstL2BlockInBatch.

Module L1BatchParamsProvider.
Record t := mk { snapshot : option SnapshotRecoveryStatus.t }.
Definition new : t := mk None.

Section provider.
Context {D : Type} `{KeeperDal D}.
Abbreviation M A := (prog D string A).

Definition initialize (self : t) : M t :=
  earliest ← get_earliest_l1_batch_number;
  match earliest with
  | Some _ => mret self
  | None =>
      status ← get_applied_snapshot_status;
      snapshot ← ok_or "Storage is not initialized, it doesn't have batches or snapshot recovery status" status;
      mret (mk (Some snapshot))
  end.

(** The loop asks again and again; [patience] is the number of times it is let to, and one
    that never gets an answer ends in this failure. *)
Definition still_waiting : string := "the state root is not known yet".
Fixpoint wait_for_l1_batch_params_unchecked (patience : nat) (number : L1BatchNumber) : M (H256 * Z) :=
  match patience with
  | O => fail still_waiting
  | S patience =>
      data ← get_l1_batch_state_root_and_timestamp number;
      match data with
      | Some (root_hash, timestamp) => mret (root_hash, timestamp)
      | None => wait_for_l1_batch_params_unchecked patience number
      end
  end.

Definition wait_for_l1_batch_params (patience : nat) (self : t) (number : L1BatchNumber) : M (H256 * Z) :=
  let check first_l1_batch :=
    if decide (first_l1_batch ≤ number) then wait_for_l1_batch_params_unchecked patience number
    else fail "Cannot wait a hash of a pruned L1 batch" in
  match snapshot self with
  | Some snapshot =>
      if decide (number = SnapshotRecoveryStatus.l1_batch_number snapshot)
      then mret (SnapshotRecoveryStatus.l1_batch_root_hash snapshot, SnapshotRecoveryStatus.l1_batch_timestamp snapshot)
      else check (wrap 32 (SnapshotRecoveryStatus.l1_batch_number snapshot + 1))
  | None => check 0
  end.

Definition load_l1_batch_protocol_version (self : t) (l1_batch_number : L1BatchNumber) : M (option ProtocolVersionId) :=
  match snapshot self with
  | Some snapshot =>
      if decide (l1_batch_number = SnapshotRecoveryStatus.l1_batch_number snapshot)
      then mret (Some (SnapshotRecoveryStatus.protocol_version snapshot))
      else if decide (SnapshotRecoveryStatus.l1_batch_number snapshot < l1_batch_number)
      then get_batch_protocol_version_id l1_batch_number
      else fail "Requested protocol version for pruned L1 batch"
  | None => get_batch_protocol_version_id l1_batch_number
  end.

Definition load_number_of_first_l2_block_in_batch (self : t) (l1_batch_number : L1BatchNumber) : M (option L2BlockNumber) :=
  let from_previous :=
    range ← get_l2_block_range_of_l1_batch (wrap 32 (l1_batch_number - 1));
    mret ((λ r : L2BlockNumber * L2BlockNumber, wrap 32 (r.2 + 1)) <$> range) in
  if decide (l1_batch_number = 0) then mret (Some 0)
  else
    match snapshot self with
    | Some snapshot =>
        if decide (SnapshotRecoveryStatus.l1_batch_number snapshot < l1_batch_number) then
          if decide (l1_batch_number = wrap 32 (SnapshotRecoveryStatus.l1_batch_number snapshot + 1))
          then mret (Some (wrap 32 (SnapshotRecoveryStatus.l2_block_number snapshot + 1)))
          else from_previous
        else fail "Cannot load L2 blocks for pruned L1 batch"
    | None => from_previous
    end.

Definition load_first_l2_block_in_batch (self : t) (l1_batch_number : L1BatchNumber) : M (option FirstL2BlockInBatch.t) :=
  l2_block_number ← load_number_of_first_l2_block_in_batch self l1_batch_number;
  match l2_block_number with
  | Some number =>
      header ← get_l2_block_header number;
      mret ((λ header, FirstL2BlockInBatch.mk header l1_batch_number) <$> header)
  | None => mret None
  end.

Definition load_l1_batch_params (patience : nat) (self : t) (first_l2_block_in_batch : FirstL2BlockInBatch.t)
    (validation_computational_gas_limit chain_id : Z) : M (SystemEnv.t * L1BatchEnv.t) :=
  let header := FirstL2BlockInBatch.header first_l2_block_in_batch in
  let l1_batch_number := FirstL2BlockInBatch.l1_batch_number first_l2_block_in_batch in
  if decide (0 < l1_batch_number) then
    let l1_batch_timestamp := L2BlockHeader.timestamp header in
    '(prev_l1_batch_hash, prev_l1_batch_timestamp) ← wait_for_l1_batch_params patience self (wrap 32 (l1_batch_number - 1));
    if decide (prev_l1_batch_timestamp < l1_batch_timestamp) then
      let prev_l2_block_number := wrap 32 (L2BlockHeader.number header - 1) in
      let from_snapshot := snapshot self ≫= λ snapshot,
        if decide (SnapshotRecoveryStatus.l2_block_number snapshot = prev_l2_block_number)
        then Some (SnapshotRecoveryStatus.l2_block_hash snapshot) else None in
      prev_l2_block_hash ← match from_snapshot with
        | Some hash => mret hash
        | None => hash ← get_l2_block_hash prev_l2_block_number; ok_or "previous L2 block disappeared from storage" hash
        end;
      let contract_hashes := L2BlockHeader.base_system_contracts_hashes header in
      base_system_contracts ← get_base_system_contracts (BaseSystemContractsHashes.bootloader contract_hashes)
        (BaseSystemContractsHashes.default_aa contract_hashes);
      protocol_version ← ok_or "`protocol_version` must be set for L2 block" (L2BlockHeader.protocol_version header);
      mret (l1_batch_params l1_batch_number (L2BlockHeader.fee_account_address header) l1_batch_timestamp prev_l1_batch_hash
        (L2BlockHeader.batch_fee_input header) (L2BlockHeader.number header) prev_l2_block_hash base_system_contracts
        validation_computational_gas_limit protocol_version (L2BlockHeader.virtual_blocks header) chain_id)
    else fail "Invalid params for L1 batch: Timestamp of previous L1 batch >= provisional L1 batch timestamp"
  else fail "Loading params for genesis L1 batch not supported".
End provider.
End L1BatchParamsProvider.
