(* ===== verification/MempoolIO.v ===== *)
(** * The I/O of the main node's state keeper ([node/via_state_keeper/src/io/mempool.rs])

    Transactions come from the mempool, parameters of batches and blocks from the clock
    and the fee model. The mempool is shared with the task that fills it from the database
    ([mempool_actor.rs]), which may use it before each of this task's uses; the clock, the
    patience of timeouts and the fee model are an environment that is asked time and again. *)
From S2P Require Import Prelude Types BTreeSet Mempool Abi VmLimits Float FeeModel TxEncoding VmErrors SealCriteria VmInterface KeeperUpdates BatchExecutor StateKeeper KeeperChain KeeperDal.
Local Open Scope Z_scope.

(** ** Timeouts and payload ([seal_criteria/mod.rs]) *)
Module TimeoutSealer.
Record t := mk { block_commit_deadline_ms : Z; l2_block_commit_deadline_ms : Z }.
Definition new (config : StateKeeperConfig.t) : t :=
  mk (StateKeeperConfig.block_commit_deadline_ms config) (StateKeeperConfig.l2_block_commit_deadline_ms config).
End TimeoutSealer.

Module L2BlockMaxPayloadSizeSealer.
Record t := mk { max_payload_size : Z }.
Definition new (config : StateKeeperConfig.t) : t := mk (StateKeeperConfig.l2_block_max_payload_size config).
Definition should_seal_l2_block (self : t) (manager : UpdatesManager.t) : bool :=
  bool_decide (max_payload_size self ≤ L2BlockUpdates.payload_encoding_size (UpdatesManager.l2_block manager)).
End L2BlockMaxPayloadSizeSealer.

(** [zksync_utils::time::millis_since] at the given time; the difference is a [u128]. *)
Definition millis_since (now_ms since : Z) : Z := wrap 64 (wrap 128 (now_ms - since * 1000)).

(** [UnexecutableReason]'s [Display]. *)
Definition unexecutable_to_string (hex_encode : list byte → string) (self : UnexecutableReason) : string :=
  match self with
  | HaltReason halt => halt_to_string hex_encode halt
  | TxEncodingSize => "Transaction encoding size is too big"
  | LargeEncodingSize => "Transaction encoding size is too big"
  | PubdataLimit => "Pubdata limit reached"
  | ProofWillFail => "Proof will fail"
  | TooMuchGas => "Too much gas"
  | OutOfGasForBatchTip => "Out of gas for batch tip"
  | BootloaderOutOfGasReason => "Bootloader out of gas"
  | NotEnoughGasProvidedReason => "Not enough gas provided"
  end.

(** [io/common/mod.rs]; times in milliseconds. *)
Definition poll_iters (delay_interval max_wait : Z) : exec nat :=
  assert_then (bool_decide (0 < delay_interval))
    (Ret (Z.to_nat (Z.max (wrap 64 (wrap 64 (max_wait + delay_interval) - 1) / delay_interval) 1))).

(** [keeper.rs] *)
Definition POLL_WAIT_DURATION : Z := 1000.

(** [mempool_actor.rs] *)
Definition l2_tx_filter (fee_input : string + Types.BatchFeeInput) (vm_version : VmVersion) : exec (string + L2TxFilter.t) :=
  match fee_input with
  | inl e => Ret (inl e)
  | inr fee_input =>
      '(base_fee, gas_per_pubdata) ← derive_base_fee_and_gas_per_pubdata fee_input vm_version;
      Ret (inr (L2TxFilter.mk fee_input base_fee (wrap 32 gas_per_pubdata)))
  end.

(** What the task of [mempool_actor.rs] does to the mempool. *)
Inductive actor_call :=
| ActorInsert (transactions : list Transaction.t) (nonces : gmap Address Nonce)
| ActorInfo.
Definition actor_step (mempool : MempoolStore.t) (call : actor_call) : exec MempoolStore.t :=
  match call with
  | ActorInsert transactions nonces => MempoolStore.insert mempool transactions nonces
  | ActorInfo => Ret (MempoolStore.get_mempool_info mempool).1
  end.

(** The environment, by the number of times it was asked: the system time in milliseconds,
    how often a loop under a timeout goes on, what the other task does to the mempool, and
    what the fee model says. *)
Module World.
Record t := mk {
  clock : nat → Z;
  patience : nat → nat;
  actor : nat → list actor_call;
  batch_fee_input : nat → string + Types.BatchFeeInput;
}.
End World.

(** The fields of [MempoolIO] that do not change. *)
Module MempoolIOSettings.
Record t := mk {
  timeout_sealer : TimeoutSealer.t;
  l2_block_max_payload_size_sealer : L2BlockMaxPayloadSizeSealer.t;
  fee_account : Address;
  validation_computational_gas_limit : Z;
  max_allowed_tx_gas_limit : U256;
  delay_interval : Z;
  chain_id : Z;
  world : World.t;
}.
End MempoolIOSettings.

Module MempoolIO.
Import MempoolIOSettings.

(** The others. *)
Record t {settings : MempoolIOSettings.t} {D : Type} := mk {
  mempool : MempoolStore.t;
  pool : D;
  filter : L2TxFilter.t;
  l1_batch_params_provider : L1BatchParamsProvider.t;
  asked : nat;
}.
Arguments t : clear implicits.
Arguments mk {settings D}.

Section io.
Context (settings : MempoolIOSettings.t) {D : Type}.
Definition with_mempool (m : MempoolStore.t) (s : t settings D) : t settings D := mk m (pool s) (filter s) (l1_batch_params_provider s) (asked s).
Definition with_pool (d : D) (s : t settings D) : t settings D := mk (mempool s) d (filter s) (l1_batch_params_provider s) (asked s).
Definition with_filter (f : L2TxFilter.t) (s : t settings D) : t settings D := mk (mempool s) (pool s) f (l1_batch_params_provider s) (asked s).
Definition with_provider (p : L1BatchParamsProvider.t) (s : t settings D) : t settings D := mk (mempool s) (pool s) (filter s) p (asked s).
Definition with_asked (n : nat) (s : t settings D) : t settings D := mk (mempool s) (pool s) (filter s) (l1_batch_params_provider s) n.

Context `{KeeperLib} `{KeeperDal D}.
Abbreviation M A := (prog (t settings D) string A).

(** Asking the environment. *)
Definition ask {X} (f : World.t → nat → X) : M X :=
  s ← get; _ ← put (with_asked (S (asked s)) s); mret (f (world settings) (asked s)).
Definition on_pool {A} (op : prog D string A) : M A := λ s,
  '(r, d) ← op (pool s); Ret (r, with_pool d s).
(** [MempoolGuard]'s methods ([types.rs]): one has the mempool, after the other task. *)
Definition on_mempool {A} (op : MempoolStore.t → exec (MempoolStore.t * A)) : M A :=
  calls ← ask World.actor;
  s ← get;
  m ← lift_exec (foldM actor_step (mempool s) calls);
  '(m, a) ← lift_exec (op m);
  _ ← put (with_mempool m s);
  mret a.

(** *** [IoSealCriteria] *)
Definition should_seal_l1_batch_unconditionally (manager : UpdatesManager.t) : M bool :=
  if decide (UpdatesManager.pending_executed_transactions_len manager = 0) then mret false
  else
    now ← ask World.clock;
    mret (bool_decide (TimeoutSealer.block_commit_deadline_ms (timeout_sealer settings)
                       < millis_since now (UpdatesManager.batch_timestamp manager))).

(** [TimeoutSealer::should_seal_l2_block] *)
Definition timeout_should_seal_l2_block (manager : UpdatesManager.t) : M bool :=
  let block := UpdatesManager.l2_block manager in
  match L2BlockUpdates.executed_transactions block with
  | [] => mret false
  | _ =>
      now ← ask World.clock;
      mret (bool_decide (TimeoutSealer.l2_block_commit_deadline_ms (timeout_sealer settings)
                         < millis_since now (L2BlockUpdates.timestamp block)))
  end.
Definition should_seal_l2_block (manager : UpdatesManager.t) : M bool :=
  timeout ← timeout_should_seal_l2_block manager;
  if (timeout : bool) then mret true
  else mret (L2BlockMaxPayloadSizeSealer.should_seal_l2_block (l2_block_max_payload_size_sealer settings) manager).

(** *** [StateKeeperIO] *)
Definition filter_of (fee_input : Types.BatchFeeInput) (version : ProtocolVersionId) : exec L2TxFilter.t :=
  '(base_fee, gas_per_pubdata) ← derive_base_fee_and_gas_per_pubdata fee_input (vm_version version);
  Ret (L2TxFilter.mk fee_input base_fee (wrap 32 gas_per_pubdata)).

Definition initialize : M (IoCursor.t * option PendingBatchData.t) :=
  cursor ← on_pool IoCursor_new;
  s ← get;
  provider ← on_pool (L1BatchParamsProvider.initialize (l1_batch_params_provider s));
  s ← get;
  _ ← put (with_provider provider s);
  _ ← on_pool (clear_pending_l2_block (wrap 32 (IoCursor.next_l2_block cursor - 1)));
  pending_l2_block_header ← on_pool (L1BatchParamsProvider.load_first_l2_block_in_batch provider (IoCursor.l1_batch cursor));
  match pending_l2_block_header with
  | None => mret (cursor, None)
  | Some pending_l2_block_header =>
      patience ← ask World.patience;
      '(system_env, l1_batch_env) ← on_pool (L1BatchParamsProvider.load_l1_batch_params patience provider pending_l2_block_header
        (validation_computational_gas_limit settings) (chain_id settings));
      pending_batch_data ← on_pool (load_pending_batch system_env l1_batch_env);
      filter ← lift_exec (filter_of (L1BatchEnv.fee_input (PendingBatchData.l1_batch_env pending_batch_data))
        (SystemEnv.version (PendingBatchData.system_env pending_batch_data)));
      s ← get;
      _ ← put (with_filter filter s);
      mret (cursor, Some pending_batch_data)
  end.

(** [sleep_past] under a timeout, which ends it after any number of sleeps. *)
Definition current_timestamp : M Z := now ← ask World.clock; mret (wrap 64 (now / 1000)).
Fixpoint sleep_until_past (patience : nat) (timestamp : Z) : M (option Z) :=
  match patience with
  | O => mret None
  | S patience =>
      now ← current_timestamp;
      if decide (timestamp < now) then mret (Some now) else sleep_until_past patience timestamp
  end.
Definition sleep_past (timestamp : Z) : M (option Z) :=
  now ← current_timestamp;
  if decide (timestamp < now) then mret (Some now)
  else patience ← ask World.patience; sleep_until_past patience timestamp.

(** One turn of [wait_for_new_batch_params]: to go on, or to return. *)
Definition try_new_batch_params (cursor : IoCursor.t) : M (option (option L1BatchParams.t)) :=
  timestamp ← sleep_past (IoCursor.prev_l2_block_timestamp cursor);
  match timestamp with
  | None => mret (Some None)
  | Some timestamp =>
      protocol_version ← on_pool (protocol_version_id_by_timestamp timestamp);
      fee_input ← ask World.batch_fee_input;
      filter ← lift_exec (l2_tx_filter fee_input (vm_version protocol_version));
      filter ← of_result filter;
      s ← get;
      _ ← put (with_filter filter s);
      has_next ← on_mempool (λ m, Ret (m, MempoolStore.has_next m filter));
      if (has_next : bool) then
        mret (Some (Some (L1BatchParams.mk protocol_version (validation_computational_gas_limit settings) (fee_account settings)
          (L2TxFilter.fee_input filter) (L2BlockParams.mk timestamp 1))))
      else mret None
  end.
Fixpoint poll_new_batch_params (iters : nat) (cursor : IoCursor.t) : M (option L1BatchParams.t) :=
  match iters with
  | O => mret None
  | S iters =>
      r ← try_new_batch_params cursor;
      match r with Some result => mret result | None => poll_new_batch_params iters cursor end
  end.
Definition wait_for_new_batch_params (cursor : IoCursor.t) : M (option L1BatchParams.t) :=
  iters ← lift_exec (poll_iters (delay_interval settings) POLL_WAIT_DURATION);
  poll_new_batch_params iters cursor.

Definition wait_for_new_l2_block_params (cursor : IoCursor.t) : M (option L2BlockParams.t) :=
  timestamp ← sleep_past (IoCursor.prev_l2_block_timestamp cursor);
  mret ((λ timestamp, L2BlockParams.mk timestamp 1) <$> timestamp).

Definition rollback (tx : Transaction.t) : M () :=
  _ ← on_mempool (λ m, m ← MempoolStore.rollback m tx; Ret (m, ()));
  on_mempool (λ m, m ← MempoolStore.insert m [tx] ∅; Ret (m, ())).

Definition reject (rejected : Transaction.t) (reason : UnexecutableReason) : M () :=
  if is_l1 rejected then fail (String.append "L1 transactions should not be rejected: " (unexecutable_to_string hex_encode reason))
  else
    _ ← on_mempool (λ m, m ← MempoolStore.rollback m rejected; Ret (m, ()));
    hash ← lift_exec (transaction_hash rejected);
    on_pool (mark_tx_as_rejected hash (String.append "rejected: " (unexecutable_to_string hex_encode reason))).

(** The loop of [wait_for_next_tx], which the time it may take ends after any number of turns. *)
Fixpoint poll_next_tx (patience : nat) : M (option Transaction.t) :=
  match patience with
  | O => mret None
  | S patience =>
      s ← get;
      maybe_tx ← on_mempool (λ m, MempoolStore.next_transaction m (filter s));
      match maybe_tx with
      | Some tx =>
          if decide (max_allowed_tx_gas_limit settings < tx_gas_limit tx) then
            _ ← lift_exec (transaction_hash tx);
            _ ← reject tx (HaltReason TooBigGasLimit);
            poll_next_tx patience
          else mret (Some tx)
      | None => poll_next_tx patience
      end
  end.
Definition wait_for_next_tx : M (option Transaction.t) := patience ← ask World.patience; poll_next_tx patience.

Definition load_base_system_contracts (protocol_version : ProtocolVersionId) (_ : IoCursor.t) : M BaseSystemContracts.t :=
  contracts ← on_pool (load_base_system_contracts_by_version_id protocol_version);
  ok_or "no base system contracts persisted for protocol version" contracts.
Definition load_batch_version_id (number : L1BatchNumber) : M ProtocolVersionId :=
  s ← get;
  version ← on_pool (L1BatchParamsProvider.load_l1_batch_protocol_version (l1_batch_params_provider s) number);
  ok_or "L1 batch misses protocol version" version.
Definition load_upgrade_tx (version_id : ProtocolVersionId) : M (option ProtocolUpgradeTx.t) :=
  on_pool (get_protocol_upgrade_tx version_id).
Definition load_batch_state_hash (l1_batch_number : L1BatchNumber) : M H256 :=
  patience ← ask World.patience;
  s ← get;
  '(batch_state_hash, _) ← on_pool (L1BatchParamsProvider.wait_for_l1_batch_params patience (l1_batch_params_provider s) l1_batch_number);
  mret batch_state_hash.

#[export] Instance state_keeper_io : StateKeeperIO (t settings D) := {|
  io_chain_id _ := chain_id settings;
  io_initialize := initialize;
  io_wait_for_new_batch_params := wait_for_new_batch_params;
  io_wait_for_new_l2_block_params := wait_for_new_l2_block_params;
  io_wait_for_next_tx := wait_for_next_tx;
  io_rollback := rollback;
  io_reject := reject;
  io_load_base_system_contracts := load_base_system_contracts;
  io_load_batch_version_id := load_batch_version_id;
  io_load_upgrade_tx := load_upgrade_tx;
  io_load_batch_state_hash := load_batch_state_hash;
  io_should_seal_l1_batch_unconditionally := should_seal_l1_batch_unconditionally;
  io_should_seal_l2_block := should_seal_l2_block;
|}.
End io.

(** [MempoolIO::new] *)
Definition new_settings (config : StateKeeperConfig.t) (fee_account : Address) (delay_interval chain_id : Z) (world : World.t)
    : MempoolIOSettings.t := {|
  timeout_sealer := TimeoutSealer.new config;
  l2_block_max_payload_size_sealer := L2BlockMaxPayloadSizeSealer.new config;
  fee_account := fee_account;
  validation_computational_gas_limit := StateKeeperConfig.validation_computational_gas_limit config;
  max_allowed_tx_gas_limit := StateKeeperConfig.max_allowed_l2_tx_gas_limit config;
  delay_interval := delay_interval;
  chain_id := chain_id;
  world := world;
|}.
Definition new {D} (mempool : MempoolStore.t) (pool : D) (settings : MempoolIOSettings.t) : t settings D := {|
  mempool := mempool;
  pool := pool;
  filter := L2TxFilter.mk (Types.L1Pegged (L1PeggedBatchFeeModelInput.mk 0 0)) 0 0;
  l1_batch_params_provider := L1BatchParamsProvider.new;
  asked := 0;
|}.
End MempoolIO.

(** ** What the state keeper relies on *)
Module MempoolIOLaws.
Import MempoolIOSettings MempoolIO.

(** The configured size of a block is not zero. *)
Class PositivePayload (settings : MempoolIOSettings.t) : Prop := {
  max_payload_positive : 0 < L2BlockMaxPayloadSizeSealer.max_payload_size (l2_block_max_payload_size_sealer settings);
}.

Section laws.
Context `{KeeperLib} (settings : MempoolIOSettings.t) {D : Type} `{KeeperDal D}.
Abbreviation M A := (prog (t settings D) string A).

Lemma sleep_until_past_later patience timestamp s now s' :
  (sleep_until_past settings patience timestamp : M _) s = Ret (inr (Some now), s') → timestamp < now.
Proof.
  revert s. induction patience as [|patience IH]; intros s Hr; cbn in Hr; [done|].
  apply prog_bind_inr in Hr as (now' & s1 & _ & Hr). case_decide; [|by eapply IH].
  apply mret_inr in Hr as [[= ->] _]. done.
Qed.
Lemma sleep_past_later timestamp s now s' :
  (sleep_past settings timestamp : M _) s = Ret (inr (Some now), s') → timestamp < now.
Proof.
  unfold sleep_past. intros Hr. apply prog_bind_inr in Hr as (now' & s1 & _ & Hr).
  case_decide; [by apply mret_inr in Hr as [[= ->] _]|].
  apply prog_bind_inr in Hr as (patience & s2 & _ & Hr). by eapply sleep_until_past_later.
Qed.

Lemma try_new_batch_params_later cursor s params s' :
  (try_new_batch_params settings cursor : M _) s = Ret (inr (Some (Some params)), s') →
  IoCursor.prev_l2_block_timestamp cursor < L2BlockParams.timestamp (L1BatchParams.first_l2_block params).
Proof.
  unfold try_new_batch_params. intros Hr. apply prog_bind_inr in Hr as ([now|] & s1 & Hsleep & Hr); [|by apply mret_inr in Hr as [? _]].
  apply sleep_past_later in Hsleep. repeat (apply prog_bind_inr in Hr as (? & ? & _ & Hr)). case_match; [|by apply mret_inr in Hr as [? _]].
  by apply mret_inr in Hr as [[= ->] _].
Qed.
Lemma poll_new_batch_params_later iters cursor s params s' :
  (poll_new_batch_params settings iters cursor : M _) s = Ret (inr (Some params), s') →
  IoCursor.prev_l2_block_timestamp cursor < L2BlockParams.timestamp (L1BatchParams.first_l2_block params).
Proof.
  revert s. induction iters as [|iters IH]; intros s Hr; cbn in Hr; [done|].
  apply prog_bind_inr in Hr as ([r|] & s1 & Htry & Hr); [|by eapply IH]. apply mret_inr in Hr as [<- _]. by eapply try_new_batch_params_later.
Qed.

#[export] Instance mempool_io_laws `{!PositivePayload settings} : StateKeeperIOLaws (I := t settings D).
Proof.
  split.
  - intros u i i' Hs. cbn in Hs. unfold should_seal_l1_batch_unconditionally in Hs. by case_decide; [apply mret_inr in Hs as [? _]|].
  - intros u i i' Hpayload Hs Hempty. cbn in Hs. unfold should_seal_l2_block, timeout_should_seal_l2_block in Hs. rewrite Hempty in Hs.
    apply prog_bind_inr in Hs as (b & s1 & Hb & Hs). apply mret_inr in Hb as [-> ->]. apply mret_inr in Hs as [Hs _].
    symmetry in Hs. apply bool_decide_eq_true in Hs. rewrite Hpayload in Hs by done. pose proof max_payload_positive. lia.
  - intros cursor i params i' Hp. cbn in Hp. unfold wait_for_new_batch_params in Hp.
    apply prog_bind_inr in Hp as (iters & s1 & _ & Hp). by eapply poll_new_batch_params_later.
  - intros cursor i params i' Hp. cbn in Hp. unfold wait_for_new_l2_block_params in Hp.
    apply prog_bind_inr in Hp as ([now|] & s1 & Hsleep & Hp); apply mret_inr in Hp as [[= ->] _]. by apply sleep_past_later in Hsleep.
Qed.
End laws.
End MempoolIOLaws.
