(* ===== verification/KeeperMempool.v ===== *)
(** * The state keeper over the mempool

    What the state keeper and its I/O over the mempool give together: priority operations
    are executed in the order of their ids and without gaps, whatever the task that fills
    the mempool does in the meantime and however batches are sealed. *)
From S2P Require Import Prelude Types BTreeSet Mempool Abi VmLimits Float FeeModel TxEncoding VmErrors SealCriteria VmInterface KeeperUpdates BatchExecutor StateKeeper KeeperChain KeeperDal MempoolIO.
Local Open Scope Z_scope.

(** ** Priority operations in the mempool *)
Definition priority_id (tx : Transaction.t) : option PriorityOpId :=
  match Transaction.common_data tx with L1 data => Some (L1TxCommonData.serial_id data) | _ => None end.

Module PriorityIds.
Import MempoolStore.

Definition keyed (m : MempoolStore.t) : Prop := ∀ i tx, l1_transactions m !! i = Some tx → L1Tx.serial_id tx = i.
(** Nothing happens to priority operations but that some arrive. *)
Definition idle (m m' : MempoolStore.t) : Prop := next_priority_id m' = next_priority_id m ∧ (keyed m → keyed m').

#[export] Instance idle_preorder : PreOrder idle.
Proof. split; [done|]. intros m1 m2 m3 [E1 K1] [E2 K2]. split; [congruence|auto]. Qed.

Lemma idle_insert_one nonces m tx m' : insert_one nonces m tx = Ret m' → idle m m'.
Proof.
  unfold insert_one. destruct (Transaction.common_data tx) as [data|data|data]; [intros [= <-]|intros [= <-]|done].
  - split; [done|]. intros Hk i tx' Hi. cbn in Hi. apply lookup_insert_Some in Hi as [[<- <-]|[_ Hi]]; [done|by apply Hk].
  - unfold insert_l2_transaction. destruct (AccountTransactions.insert _ _). done.
Qed.
Lemma idle_insert m txs nonces m' : MempoolStore.insert m txs nonces = Ret m' → idle m m'.
Proof.
  unfold MempoolStore.insert. revert m. induction txs as [|tx txs IH]; intros m Hi; cbn in Hi; [by injection Hi as <-|].
  apply bind_Ret_inv in Hi as (m1 & H1 & Hi). etrans; [by eapply idle_insert_one|by apply IH].
Qed.
Lemma idle_info m : idle m (get_mempool_info m).1.
Proof. unfold get_mempool_info, gc. by case_decide. Qed.
Lemma idle_actor m calls m' : foldM actor_step m calls = Ret m' → idle m m'.
Proof.
  revert m. induction calls as [|call calls IH]; intros m Hc; cbn in Hc; [by injection Hc as <-|].
  apply bind_Ret_inv in Hc as (m1 & H1 & Hc). etrans; [|by apply IH].
  destruct call; cbn in H1; [by eapply idle_insert|]. injection H1 as <-. apply idle_info.
Qed.

(** The priority operation that is taken is the next one; taking anything else changes nothing. *)
Lemma next_transaction_ids m f m' o :
  keyed m → next_transaction m f = Ret (m', o) →
  keyed m' ∧
  match o ≫= priority_id with
  | Some i => i = next_priority_id m ∧ next_priority_id m' = next_id 64 (next_priority_id m)
  | None => next_priority_id m' = next_priority_id m
  end.
Proof.
  intros Hk. unfold next_transaction. destruct (l1_transactions m !! next_priority_id m) as [tx|] eqn:E.
  - intros [= <- <-]. split; [|by rewrite <-(Hk _ _ E)]. intros i tx' Hi. cbn in Hi. apply lookup_delete_Some in Hi as [_ Hi]. by apply Hk.
  - destruct (BTreeSet.rfind _ _) as [p|]; [|by intros [= <- <-]]. destruct (BTreeSet.split_off _ _) as [queue split].
    intros Hn. apply bind_Ret_inv in Hn as ([[accs removed] stashed] & _ & Hn). apply bind_Ret_inv in Hn as (txs & _ & Hn).
    apply bind_Ret_inv in Hn as ([[txs' tx] score] & _ & Hn). apply bind_Ret_inv in Hn as (sz & _ & [= <- <-]). done.
Qed.

Lemma rollback_ids m tx m' :
  rollback m tx = Ret m' →
  (keyed m → keyed m') ∧
  next_priority_id m' = match priority_id tx with Some i => Z.min (next_priority_id m) i | None => next_priority_id m end.
Proof.
  unfold rollback, priority_id. destruct (Transaction.common_data tx) as [data|data|data]; [by intros [= <-]| |done].
  intros Hr. apply bind_Ret_inv in Hr as (txs & _ & Hr). apply bind_Ret_inv in Hr as ([txs' score] & _ & [= <-]). done.
Qed.
End PriorityIds.

(** ** The calls of the I/O *)
Module MempoolIds.
Import MempoolIO PriorityIds.
Section calls.
Context `{KeeperLib} (settings : MempoolIOSettings.t) {D : Type} `{KeeperDal D}.
Abbreviation M A := (prog (t settings D) string A).

Definition idles {A} (m : M A) : Prop := ∀ s r s', m s = Ret (r, s') → idle (mempool s) (mempool s').

Lemma idles_bind {A B} (m : M A) (f : A → M B) : idles m → (∀ a, idles (f a)) → idles (m ≫= f).
Proof.
  intros Hm Hf s r s' Hr. unfold mbind, prog_bind in Hr. destruct (m s) as [[[e|a] s1]|] eqn:Em; [| |done].
  - injection Hr as _ <-. by eapply Hm.
  - etrans; [by eapply Hm|by eapply Hf].
Qed.
Lemma idles_ret {A} (a : A) : idles (mret a).
Proof. by intros s r s' [= _ <-]. Qed.
Lemma idles_get : idles get.
Proof. by intros s r s' [= _ <-]. Qed.
Lemma idles_fail {A} e : idles (fail e : M A).
Proof. by intros s r s' [= _ <-]. Qed.
Lemma idles_lift {A} (m : exec A) : idles (lift_exec m).
Proof. intros s r s'. unfold lift_exec. destruct m; [|done]. by intros [= _ <-]. Qed.
Lemma idles_of_result {A} (x : string + A) : idles (of_result x).
Proof. by intros s r s' [= _ <-]. Qed.
Lemma idles_ok_or {A} e (o : option A) : idles (ok_or e o).
Proof. unfold ok_or. destruct o; [apply idles_ret|apply idles_fail]. Qed.
Lemma idles_ask {X} (f : World.t → nat → X) : idles (ask settings f).
Proof. by intros s r s' [= _ <-]. Qed.
Lemma idles_on_pool {A} (op : prog D string A) : idles (on_pool settings op).
Proof. intros s r s'. unfold on_pool. destruct (op (pool s)) as [[]|]; [|done]. by intros [= _ <-]. Qed.
Lemma idles_update {A} (g : t settings D → t settings D) (m : M A) :
  (∀ s, mempool (g s) = mempool s) → idles m → idles (s ← get; _ ← put (g s); m).
Proof. intros Hg Hm s r s' Hr. apply Hm in Hr. by rewrite Hg in Hr. Qed.

(** The use of the mempool, after the other task's. *)
Lemma on_mempool_inv {A} (op : MempoolStore.t → exec (MempoolStore.t * A)) s r s' :
  (on_mempool settings op : M A) s = Ret (r, s') →
  ∃ m1 m2 a, r = inr a ∧ idle (mempool s) m1 ∧ op m1 = Ret (m2, a) ∧ mempool s' = m2.
Proof.
  unfold on_mempool, ask, mbind, prog_bind, get, put, mret, prog_ret, lift_exec. cbn.
  destruct (foldM actor_step (mempool s) _) as [m1|] eqn:Ea; cbn; [|done].
  destruct (op m1) as [[m2 a]|] eqn:Eop; cbn; [|done]. intros [= <- <-].
  exists m1, m2, a. split_and!; [done|by eapply idle_actor|done|done].
Qed.
Lemma idles_on_mempool {A} (op : MempoolStore.t → exec (MempoolStore.t * A)) :
  (∀ m m' a, op m = Ret (m', a) → idle m m') → idles (on_mempool settings op).
Proof.
  intros Hop s r s' (m1 & m2 & a & -> & H1 & H2 & ->)%on_mempool_inv. etrans; [exact H1|by eapply Hop].
Qed.

Ltac idles :=
  repeat first
  [ progress intros | match goal with |- idles (get ≫= (λ _, put _ ≫= _)) => apply idles_update; [done|] end | apply idles_ret | apply idles_get | apply idles_fail | apply idles_lift | apply idles_of_result | apply idles_ok_or
  | apply idles_ask | apply idles_on_pool | match goal with |- idles (_ ≫= _) => apply idles_bind; [|intros] end | case_match | progress cbn beta iota zeta ].

Lemma idles_initialize : idles (initialize settings).
Proof. unfold initialize. idles. Qed.
Lemma idles_sleep_until_past patience timestamp : idles (sleep_until_past settings patience timestamp).
Proof. induction patience as [|patience IH]; cbn; unfold current_timestamp; idles. apply IH. Qed.
Lemma idles_sleep_past timestamp : idles (sleep_past settings timestamp).
Proof. unfold sleep_past, current_timestamp. idles. apply idles_sleep_until_past. Qed.
Lemma idles_poll_new_batch_params iters cursor : idles (poll_new_batch_params settings iters cursor).
Proof.
  induction iters as [|iters IH]; cbn; [idles|]. apply idles_bind; [|idles; apply IH].
  unfold try_new_batch_params. apply idles_bind; [apply idles_sleep_past|]. idles.
  apply idles_on_mempool. by intros m m' b [= <- _].
Qed.
Lemma idles_new_batch_params cursor : idles (wait_for_new_batch_params settings cursor).
Proof. unfold wait_for_new_batch_params. idles. apply idles_poll_new_batch_params. Qed.
Lemma idles_new_l2_block_params cursor : idles (wait_for_new_l2_block_params settings cursor).
Proof. unfold wait_for_new_l2_block_params. apply idles_bind; [apply idles_sleep_past|idles]. Qed.
Lemma idles_reject tx reason : idles (reject settings tx reason).
Proof.
  unfold reject. case_match eqn:El1; [idles|]. apply idles_bind; [|idles]. apply idles_on_mempool.
  intros m m' a Hm. apply bind_Ret_inv in Hm as (m1 & Hr & [= <- _]). apply rollback_ids in Hr as [Hk Hn]. split; [|done].
  rewrite Hn. unfold priority_id. unfold is_l1 in El1. by destruct (Transaction.common_data tx).
Qed.
Lemma reject_l2 tx reason s s' : (reject settings tx reason : M ()) s = Ret (inr (), s') → priority_id tx = None.
Proof. unfold reject, priority_id, is_l1. by destruct (Transaction.common_data tx). Qed.

Lemma idles_contracts v cursor : idles (load_base_system_contracts settings v cursor).
Proof. unfold load_base_system_contracts. idles. Qed.
Lemma idles_version n : idles (load_batch_version_id settings n).
Proof. unfold load_batch_version_id. idles. Qed.
Lemma idles_upgrade_tx v : idles (load_upgrade_tx settings v).
Proof. unfold load_upgrade_tx. idles. Qed.
Lemma idles_state_hash n : idles (load_batch_state_hash settings n).
Proof. unfold load_batch_state_hash. idles. Qed.
Lemma idles_seal_batch u : idles (should_seal_l1_batch_unconditionally settings u).
Proof. unfold should_seal_l1_batch_unconditionally. idles. Qed.
Lemma idles_seal_block u : idles (should_seal_l2_block settings u).
Proof. unfold should_seal_l2_block, timeout_should_seal_l2_block. idles. Qed.

(** The state of the mempool after a transaction was handed over. *)
Definition handed_over (m m' : MempoolStore.t) (o : option Transaction.t) : Prop :=
  keyed m' ∧
  match o ≫= priority_id with
  | Some i => i = MempoolStore.next_priority_id m ∧ MempoolStore.next_priority_id m' = next_id 64 (MempoolStore.next_priority_id m)
  | None => MempoolStore.next_priority_id m' = MempoolStore.next_priority_id m
  end.

Lemma next_tx_ids s o s' :
  keyed (mempool s) → (wait_for_next_tx settings : M _) s = Ret (inr o, s') → handed_over (mempool s) (mempool s') o.
Proof.
  intros Hk Hr. unfold wait_for_next_tx in Hr. apply prog_bind_inr in Hr as (patience & s1 & Ha & Hr). injection Ha as _ <-.
  revert Hr Hk. change (mempool s) with (mempool (with_asked settings (S (asked s)) s)). generalize (with_asked settings (S (asked s)) s).
  clear s. induction patience as [|patience IH]; intros s Hr Hk; cbn in Hr; [injection Hr as <- <-; by split|].
  apply prog_bind_inr in Hr as (s0 & s0' & Hget & Hr). injection Hget as <- <-.
  apply prog_bind_inr in Hr as (o1 & s1 & H1 & Hr). apply on_mempool_inv in H1 as (m1 & m2 & a & [= ->] & [Hn1 Hk1] & Hnext & Hm2).
  apply next_transaction_ids in Hnext as [Hk2 Hnext]; [|by apply Hk1]. rewrite Hn1 in Hnext. subst m2.
  destruct a as [tx|]; cbn in Hnext; [case_decide|].
  - apply prog_bind_inr in Hr as (hash & s2 & Hh & Hr). apply lift_exec_inr in Hh as [_ ->].
    apply prog_bind_inr in Hr as ([] & s3 & Hrej & Hr). rewrite (reject_l2 _ _ _ _ Hrej) in Hnext. apply idles_reject in Hrej as [Hn3 Hk3].
    apply IH in Hr; [|by apply Hk3]. unfold handed_over in *. by rewrite Hn3, Hnext in Hr.
  - apply mret_inr in Hr as [-> ->]. by split.
  - apply IH in Hr; [|done]. unfold handed_over in *. by rewrite Hnext in Hr.
Qed.

Lemma io_rollback_ids tx s s' :
  keyed (mempool s) → (rollback settings tx : M ()) s = Ret (inr (), s') →
  keyed (mempool s') ∧ MempoolStore.next_priority_id (mempool s') =
    match priority_id tx with Some i => Z.min (MempoolStore.next_priority_id (mempool s)) i | None => MempoolStore.next_priority_id (mempool s) end.
Proof.
  intros Hk Hr. unfold rollback in Hr. apply prog_bind_inr in Hr as ([] & s1 & H1 & H2).
  apply on_mempool_inv in H1 as (m1 & m2 & a & _ & [Hn1 Hk1] & Hr & Hs1). apply bind_Ret_inv in Hr as (m3 & Hr & [= -> _]).
  apply rollback_ids in Hr as [Hk2 Hn2].
  apply on_mempool_inv in H2 as (m4 & m5 & a' & _ & [Hn4 Hk4] & Hi & Hs'). apply bind_Ret_inv in Hi as (m6 & Hi & [= -> _]).
  apply idle_insert in Hi as [Hn6 Hk6]. subst. split; [by auto|]. rewrite Hn6, Hn4, Hn2. by rewrite Hn1.
Qed.
End calls.
End MempoolIds.

(** ** Priority operations in blocks *)
Module KeeperPriority.
Import ExecutorSpec ZkSyncStateKeeper KeeperShape KeeperHoare KeeperInvariant MempoolIO MempoolIOLaws PriorityIds MempoolIds.

Definition priority_ids (l : list Transaction.t) : list PriorityOpId := omap priority_id l.
Definition arrived (events : list io_event) : list Transaction.t :=
  omap (λ e, match e with Received tx => Some tx | _ => None end) events.

Lemma priority_ids_snoc l tx : priority_ids (l ++ [tx]) = priority_ids l ++ match priority_id tx with Some i => [i] | None => [] end.
Proof. unfold priority_ids. rewrite omap_app. cbn. by destruct (priority_id tx). Qed.
Lemma priority_ids_user l : priority_ids (user l) = priority_ids l.
Proof.
  unfold priority_ids, user. induction l as [|tx l IH]; [done|]. rewrite filter_cons. case_decide as Hu; cbn; rewrite IH; [done|].
  unfold is_upgrade, priority_id in *. by destruct (Transaction.common_data tx).
Qed.
Lemma priority_ids_prefix l1 l2 : l1 `prefix_of` l2 → priority_ids l1 `prefix_of` priority_ids l2.
Proof. intros [k ->]. unfold priority_ids. rewrite omap_app. by apply prefix_app_r. Qed.
Lemma kept_arrived events : (length (priority_ids (kept events)) ≤ length (priority_ids (arrived events)))%nat.
Proof.
  induction events as [|e events IH] using rev_ind; [done|]. rewrite kept_snoc. unfold arrived. rewrite omap_app. fold (arrived events).
  destruct e as [tx|tx|tx]; cbn.
  - rewrite !priority_ids_snoc, !length_app. lia.
  - rewrite app_nil_r. rewrite <-(take_drop (length (kept events) - 1) (kept events)) in IH. unfold priority_ids in *.
    rewrite omap_app, length_app in IH. lia.
  - rewrite app_nil_r. rewrite <-(take_drop (length (kept events) - 1) (kept events)) in IH. unfold priority_ids in *.
    rewrite omap_app, length_app in IH. lia.
Qed.
Lemma answered_init events e : answered (events ++ [e]) →
  answered events ∧ match e with Received _ => True | RolledBack tx | Rejected tx => last (kept events) = Some tx end.
Proof.
  intros Ha. split; [|exact (Ha events e [] eq_refl)]. intros before e' after ->. apply (Ha before e' (after ++ [e])). by rewrite <-app_assoc.
Qed.

(** Consecutive ids, from [n] on. *)
Definition consecutive (n : PriorityOpId) (ids : list PriorityOpId) : Prop := ids = seqZ n (Z.of_nat (length ids)).
Lemma consecutive_snoc n ids i : consecutive n ids → i = n + Z.of_nat (length ids) → consecutive n (ids ++ [i]).
Proof.
  unfold consecutive. intros Hids ->. rewrite length_app. cbn. rewrite Nat2Z.inj_add, seqZ_app by lia. rewrite <-Hids. f_equal.
Qed.
Lemma consecutive_prefix n ids ids' : consecutive n ids' → ids `prefix_of` ids' → consecutive n ids.
Proof.
  unfold consecutive. intros Hids' [k Hk]. rewrite Hk, length_app, Nat2Z.inj_add, seqZ_app in Hids' by lia.
  apply app_inj_1 in Hids' as [? _]; [done|]. rewrite length_seqZ. lia.
Qed.

Section priority.
Context `{TxLib, KeeperLib, ZkEvmParams} (settings : MempoolIOSettings.t) {D Out F Storage C : Type}.
Context `{KeeperDal D, StateKeeperOutputHandler Out, ReadStorageFactory F Storage, VmCore Storage C}.
Context (n : PriorityOpId).

(** The ids of the operations received and kept are consecutive; the next one is the mempool's. *)
Definition small (events : list io_event) : Prop := n + Z.of_nat (length (priority_ids (arrived events))) < 2 ^ 64.
Definition in_order (events : list io_event) : Prop := consecutive n (priority_ids (kept events)).
Definition ids_kept (i : t settings D * list io_event) : Prop :=
  keyed (mempool i.1) ∧ (answered i.2 → small i.2 → in_order i.2 ∧
    MempoolStore.next_priority_id (mempool i.1) = n + Z.of_nat (length (priority_ids (kept i.2)))).
Definition ids_ordered (i : t settings D * list io_event) : Prop := answered i.2 → small i.2 → in_order i.2.

Lemma small_init events e : small (events ++ [e]) → small events.
Proof. unfold small, arrived, priority_ids. rewrite !omap_app, length_app. lia. Qed.

Lemma ids_idle i i' events : idle (mempool i) (mempool i') → ids_kept (i, events) → ids_kept (i', events).
Proof. intros [Hn Hk] [Hkeyed Hids]. split; [by apply Hk|]. cbn [fst snd] in *. by rewrite Hn. Qed.

Lemma ids_received i i' events tx :
  0 ≤ n → ids_kept (i, events) → handed_over (mempool i) (mempool i') (Some tx) → ids_kept (i', events ++ [Received tx]).
Proof.
  intros Hn0 [Hkeyed Hids] [Hk' Hover]. split; [done|]. cbn in Hover. cbn [fst snd] in *. intros [Ha _]%answered_init Hs. pose proof (small_init _ _ Hs) as Hs'.
  destruct (Hids Ha Hs') as [Hord Hn]. unfold in_order in *. rewrite kept_snoc. cbn [keep]. rewrite priority_ids_snoc.
  destruct (priority_id tx) as [id|] eqn:Eid; [|by rewrite app_nil_r, Hover].
  destruct Hover as [-> Hnext]. split; [by apply consecutive_snoc|]. rewrite Hnext, Hn, length_app. cbn.
  pose proof (kept_arrived events). unfold small, arrived in Hs. rewrite omap_app in Hs. cbn in Hs. fold (arrived events) in Hs.
  rewrite priority_ids_snoc, Eid, length_app in Hs. cbn in Hs. unfold next_id. rewrite wrap_small; [lia|]. split; lia.
Qed.

Lemma ids_dropped i i' events e tx :
  ids_kept (i, events) → e = RolledBack tx ∨ e = Rejected tx → keyed (mempool i') →
  MempoolStore.next_priority_id (mempool i') = match priority_id tx with
    | Some id => Z.min (MempoolStore.next_priority_id (mempool i)) id
    | None => MempoolStore.next_priority_id (mempool i) end →
  ids_kept (i', events ++ [e]).
Proof.
  intros [Hkeyed Hids] He Hk' Hn'. split; [done|]. cbn [fst snd] in *. intros [Ha Hlast]%answered_init Hs. apply small_init in Hs.
  destruct (Hids Ha Hs) as [Hord Hn]. assert (last (kept events) = Some tx) as [K HK]%last_Some by (by destruct He as [-> | ->]).
  unfold in_order in *. rewrite kept_snoc. assert (keep (kept events) e = K) as ->.
  { rewrite HK. destruct He as [-> | ->]; cbn; rewrite length_app; cbn; by rewrite Nat.add_sub, take_app_length. }
  rewrite HK, priority_ids_snoc in Hord, Hn. pose proof (consecutive_prefix _ _ _ Hord (prefix_app_r _ _ _ (reflexivity _))) as HordK.
  split; [done|]. rewrite Hn', Hn. destruct (priority_id tx) as [id|]; [|by rewrite app_nil_r].
  assert (id = n + Z.of_nat (length (priority_ids K))) as ->.
  { unfold consecutive in Hord, HordK. rewrite length_app in Hord. cbn in Hord. rewrite Nat2Z.inj_add, seqZ_app, <-HordK in Hord by lia.
    apply app_inv_head in Hord. cbn in Hord. by injection Hord. }
  rewrite length_app. cbn. lia.
Qed.

Lemma recorded_inv {A} (op : prog (t settings D) string A) (entries : A → list io_event) i log r i' :
  recorded op entries (i, log) = Ret (r, i') →
  ∃ i1, op i = Ret (r, i1) ∧ i' = (i1, log ++ match r with inr a => entries a | inl _ => [] end).
Proof. cbn. intros Hr. apply bind_Ret_inv in Hr as ([r1 i1] & H1' & [= <- <-]). eauto. Qed.

Lemma ids_kept_ordered i : ids_kept i → ids_ordered i.
Proof. intros [_ Hids] Ha Hs. by destruct (Hids Ha Hs). Qed.

(** A call that leaves priority operations alone. *)
Lemma ids_idles {A} (op : prog (t settings D) string A) i r i' :
  idles settings op → ids_kept i → recorded op (λ _, []) i = Ret (r, i') → KeeperIO.outcome ids_kept ids_ordered (fatal r) i'.
Proof.
  destruct i as [i log]. intros Hop Hi (i1 & Ho & ->)%recorded_inv. assert (log ++ match r with inr _ => [] | inl _ => [] end = log) as ->.
  { destruct r; by rewrite app_nil_r. }
  apply Hop in Ho. apply (ids_idle _ _ _ Ho) in Hi. destruct r; cbn; [by apply ids_kept_ordered|done].
Qed.

Lemma ids_calls A (op : prog (t settings D * list io_event) string A) : 0 ≤ n → io_operation A op → ∀ i r i',
  ids_kept i → op i = Ret (r, i') → KeeperIO.outcome ids_kept ids_ordered (fatal r) i'.
Proof.
  intros Hn0 [] i r i' Hi Hr;
    try (eapply ids_idles; [|exact Hi|exact Hr];
      first [ apply idles_initialize | apply idles_new_batch_params | apply idles_new_l2_block_params
            | apply idles_contracts | apply idles_version | apply idles_upgrade_tx | apply idles_state_hash
            | apply idles_seal_batch | apply idles_seal_block ]).
  all: destruct i as [i log]; cbn [io_wait_for_next_tx io_rollback io_reject recording_io] in Hr;
    apply recorded_inv in Hr as (i1 & Ho & ->); destruct r as [e|a]; cbn;
    [rewrite app_nil_r; exact (ids_kept_ordered _ Hi)|].
  - apply next_tx_ids in Ho; [|apply Hi]. destruct a as [tx|]; [by eapply ids_received|]. rewrite app_nil_r.
    destruct Ho as [Hk Hn]. eapply ids_idle; [|exact Hi]. by split.
  - destruct a. apply io_rollback_ids in Ho as [Hk Hn]; [|apply Hi]. eapply ids_dropped; eauto.
  - destruct a. pose proof (reject_l2 _ _ _ _ _ Ho) as Hl2. apply idles_reject in Ho as [Hn Hk].
    eapply ids_dropped; [exact Hi|by right|by apply Hk, Hi|by rewrite Hl2].
Qed.

Context `{!PositivePayload settings, !VmCoreLaws}.
Context (executor : CommandReceiver.t) (sealer : ConditionalSealer).
Abbreviation keeper := (ZkSyncStateKeeper.t (t settings D * list io_event) (Out * list output) F).

(** C6 Priority operations are executed in the order of their ids and without gaps: the
    operations in the blocks that the state keeper seals over a mempool that starts with id
    [n] have the ids [n], [n + 1], and so on - whenever they arrive in the mempool, whatever
    is excluded from a batch and put back, and whatever the sealer and the machine do. *)
Theorem priority_operations_in_order (s : keeper) capacity cursor pending i' r s' :
  pristine (view_of s) → mempool (io s).1 = MempoolStore.new n capacity → 0 ≤ n →
  io_initialize (io s).1 = Ret (inr (cursor, pending), i') → run executor sealer s = Ret (r, s') →
  n + Z.of_nat (length (priority_ids (arrived (v_io (view_of s'))))) < 2 ^ 64 →
  consecutive n (priority_ids (sealed_txs (v_out (view_of s')))).
Proof.
  intros Hp Hm Hn0 Hi Hr Hsmall.
  assert (Hkept : ids_ordered (io s')).
  { eapply (KeeperIO.run_keeps executor sealer ids_kept ids_ordered); [apply ids_kept_ordered| | |exact Hr].
    - intros A op Hop i0 r0 i0'. by apply ids_calls.
    - destruct Hp as (_ & _ & Hlog). unfold view_of in Hlog. cbn in Hlog. split; [by rewrite Hm|]. rewrite Hlog, Hm. intros _ _. split; [done|]. cbn. lia. }
  destruct (run_recorded executor sealer _ _ _ _ _ _ _ _ eq_refl eq_refl Hp Hi Hr) as (us & [(st & Hb) Hprefix] & _).
  eapply consecutive_prefix; [apply Hkept; [apply (base_answered _ _ _ _ _ _ Hb)|exact Hsmall]|].
  rewrite <-(priority_ids_user (sealed_txs _)). etrans; [by apply priority_ids_prefix|]. by rewrite priority_ids_user.
Qed.
End priority.
End KeeperPriority.

(** ** A sample run

    Two priority operations and an L2 transaction arrive while the state keeper works; a
    transaction with a large gas limit is too much for a batch that has one already. *)
Module KeeperMempoolSamples.
Import ExecutorSpec ZkSyncStateKeeper KeeperHoare KeeperInvariant MempoolIO MempoolIOLaws KeeperPriority TxEncodingSamples.
#[local] Existing Instance KeeperSamples.sample_keeper_lib.
#[local] Existing Instance KeeperSamples.sample_params.
#[local] Existing Instance KeeperSamples.sample_handler.
#[local] Existing Instance KeeperSamples.sample_storage.

Definition txs_in (ran : list (L2BlockEnv.t + Transaction.t)) : nat := length (omap (λ x, match x with inr tx => Some tx | inl _ => None end) ran).
#[local] Instance crowded_vm : VmCore () (list (L2BlockEnv.t + Transaction.t)) := {|
  Snapshot := list (L2BlockEnv.t + Transaction.t);
  vm_new _ _ _ := Ret [];
  vm_inspect _ ran tx _ :=
    Ret ((true, KeeperSamples.succeeded (if decide (1000000 < tx_gas_limit tx ∧ (0 < txs_in ran)%nat) then ExecutionResult.Halted BootloaderOutOfGas
                                         else ExecutionResult.Success []), []), ran ++ [inr tx]);
  vm_last_tx_compressed_bytecodes _ := [];
  vm_gas_remaining _ := 3000000000;
  vm_start_new_l2_block ran env := Ret (ran ++ [inl env]);
  vm_finish_batch ran := Ret (KeeperSamples.finished ran, ran);
  vm_snapshot ran := ran;
  vm_rollback_to_snapshot _ snapshot := Ret snapshot;
|}.
#[local] Instance crowded_vm_laws : VmCoreLaws (Storage := ()).
Proof. split. intros trace c tx compression r c' [= <- <-]. done. Qed.

(** A database after block 4 of batch 2. *)
Definition header (number : L2BlockNumber) : L2BlockHeader.t :=
  L2BlockHeader.mk number (996 + number) 77 0 1 0xfee 0 KeeperSamples.fee_input (BaseSystemContracts.hashes KeeperSamples.contracts) (Some latest) 1.
#[local] Instance sample_dal : KeeperDal () := {|
  get_sealed_l1_batch_number := mret (Some 2);
  get_earliest_l1_batch_number := mret (Some 0);
  get_last_sealed_l2_block_header := mret (Some (header 4));
  get_l2_block_header number := mret (if decide (number ≤ 4) then Some (header number) else None);
  get_l2_block_range_of_l1_batch number := mret (Some (number, 4));
  get_l2_block_hash number := mret (Some 77);
  get_l1_batch_state_root_and_timestamp number := mret (Some (99, 990));
  get_batch_protocol_version_id number := mret (Some latest);
  get_applied_snapshot_status := mret None;
  get_base_system_contracts _ _ := mret KeeperSamples.contracts;
  get_l2_blocks_to_reexecute := mret [];
  mark_tx_as_rejected _ _ := mret ();
  protocol_version_id_by_timestamp _ := mret latest;
  load_base_system_contracts_by_version_id _ := mret (Some KeeperSamples.contracts);
  get_protocol_upgrade_tx _ := mret None;
  clear_pending_l2_block _ := mret ();
|}.

Definition operation (id gas_limit : Z) : Transaction.t :=
  Transaction.mk (L1 (L1TxCommonData.mk 0xbb id 0 0 250000000 gas_limit 800 Common Deque (2000 + id) 500 0xbb 3)) (Execute.mk 0xcc [] 17 []) 1 None.

Definition transfer (account gas_limit time : Z) : Transaction.t :=
  Transaction.mk (L2 (L2TxCommonData.mk 0 (Fee.mk gas_limit 250000000 0 50000) account (replicate 65 "001"%byte) EIP712Transaction
    (Some (InputData.mk (1000 + account) [])) (PaymasterParams.mk 0 []))) (Execute.mk 0xcc [] 17 []) time None.

Definition settings_with (actor : nat → list actor_call) : MempoolIOSettings.t :=
  new_settings StateKeeperConfig.for_tests 0xfee 100 270 {|
    World.clock k := 1001000 + 100 * Z.of_nat k;
    World.patience _ := 3%nat;
    World.actor := actor;
    World.batch_fee_input _ := inr KeeperSamples.fee_input |}.
Definition keeper_with (actor : nat → list actor_call) (capacity : Z)
    : ZkSyncStateKeeper.t (t (settings_with actor) () * list io_event) (() * list output) () :=
  ZkSyncStateKeeper.mk _ _ _ 40 (new (MempoolStore.new 7 capacity) () (settings_with actor), []) [((), [])] ().

(** Operation 8 arrives before operation 7 and is too much for the first batch. *)
Definition arrivals (k : nat) : list actor_call :=
  if decide (k = 5)%nat then [ActorInsert [operation 8 2000000; transfer 0xaa 70000 1] ∅]
  else if decide (k = 12)%nat then [ActorInfo; ActorInsert [operation 7 70000] ∅] else [].
#[local] Instance sample_payload : PositivePayload (settings_with arrivals).
Proof. split. reflexivity. Qed.

Definition final :=
  match run KeeperSamples.sample_executor KeeperSamples.sample_sealer (keeper_with arrivals 1000) with
  | Ret (_, s) => s | Panic => keeper_with arrivals 1000 end.
Definition event_id (e : io_event) : string * option PriorityOpId :=
  match e with
  | Received tx => ("received", priority_id tx)
  | RolledBack tx => ("rolled back", priority_id tx)
  | Rejected tx => ("rejected", priority_id tx)
  end.

Lemma run_arrivals :
  ∃ r, run KeeperSamples.sample_executor KeeperSamples.sample_sealer (keeper_with arrivals 1000) = Ret (r, final).
Proof.
  assert (match run KeeperSamples.sample_executor KeeperSamples.sample_sealer (keeper_with arrivals 1000) with
          | Ret _ => true | Panic => false end = true) as Hret by (vm_compute; reflexivity).
  unfold final. destruct (run _ _ _) as [[r s]|]; [by exists r|discriminate Hret].
Qed.
Lemma initialize_arrivals :
  ∃ i', io_initialize (io (keeper_with arrivals 1000)).1 = Ret (inr (IoCursor.mk 5 77 1000 3, None), i').
Proof.
  assert (match io_initialize (io (keeper_with arrivals 1000)).1 with
          | Ret (inr a, _) => Some a | _ => None end = Some (IoCursor.mk 5 77 1000 3, None)) as Hi by (vm_compute; reflexivity).
  destruct (io_initialize _) as [[[e|a] i']|]; try discriminate Hi. injection Hi as ->. by exists i'.
Qed.

Lemma priority_operations_in_order_witness :
  (event_id <$> v_io (view_of final)) =
    [("received", None); ("received", Some 7); ("received", Some 8); ("rolled back", Some 8); ("received", Some 8)] ∧
  priority_ids (sealed_txs (v_out (view_of final))) = [7; 8] ∧
  consecutive 7 (priority_ids (sealed_txs (v_out (view_of final)))).
Proof.
  split; [vm_compute; reflexivity|]. split; [vm_compute; reflexivity|].
  destruct run_arrivals as [r Hr]. destruct initialize_arrivals as [i' Hi].
  assert (7 + Z.of_nat (length (priority_ids (arrived (v_io (view_of final))))) < 2 ^ 64) as Hsmall by (vm_compute; reflexivity).
  revert Hr Hsmall. generalize final. intros s Hr Hsmall.
  eapply (priority_operations_in_order _ 7 _ _ (keeper_with arrivals 1000) 1000); [|reflexivity|lia|exact Hi|exact Hr|exact Hsmall]. split_and!; reflexivity.
Defined.

(** Between the taking of a transaction and its return to the mempool, the other task may
    collect garbage; the account of the transaction is gone when the state keeper returns
    the transaction for the next batch, and the state keeper panics. *)
Definition collecting (k : nat) : list actor_call :=
  if decide (k = 5)%nat then [ActorInsert [operation 7 70000; transfer 0xaa 2000000 1; transfer 0xab 70000 2] ∅] else [ActorInfo].
Theorem collected_account_stops_keeper :
  run KeeperSamples.sample_executor KeeperSamples.sample_sealer (keeper_with collecting 1) = Panic ∧
  run KeeperSamples.sample_executor KeeperSamples.sample_sealer (keeper_with collecting 1000) ≠ Panic.
Proof.
  assert (∀ capacity, match run KeeperSamples.sample_executor KeeperSamples.sample_sealer (keeper_with collecting capacity) with
                      | Ret _ => true | Panic => false end = bool_decide (capacity = 1000) → capacity = 1 ∨ capacity = 1000 →
    run KeeperSamples.sample_executor KeeperSamples.sample_sealer (keeper_with collecting capacity) = Panic ↔ capacity = 1) as Hruns.
  { intros capacity Hret Hcases. destruct (run _ _ _); case_bool_decide; naive_solver lia. }
  split; [apply Hruns; [vm_compute; reflexivity|auto..]|].
  intros Hpanic. apply Hruns in Hpanic; [lia|vm_compute; reflexivity|auto].
Qed.
End KeeperMempoolSamples.
