(* ===== verification/KeeperDb.v ===== *)
(** * The tables of the state keeper

    The tables of Postgres that the state keeper reads and writes, and the statements of
    [lib/dal] on them: [blocks_dal.rs], [transactions_dal.rs], [storage_logs_dal.rs],
    [storage_logs_dedup_dal.rs], [factory_deps_dal.rs], [tokens_dal.rs], [events_dal.rs],
    [protocol_versions_dal.rs] and [snapshot_recovery_dal.rs], with the unique keys of the
    migrations. A statement that fails leaves the tables as they were. The columns
    [created_at] and [updated_at], and those nobody here reads of the headers of blocks
    ([gas_limit], [gas_per_pubdata_limit], [logs_bloom]) are left out. *)
From S2P Require Import Prelude Types Abi Sql VmLimits Float Deduplicator FeeModel TxEncoding VmErrors StateDiffs SealCriteria VmInterface KeeperUpdates BatchExecutor StateKeeper KeeperDal.
Local Open Scope Z_scope.

(** [StorageKey::raw_hashed_key]: the Blake2s hash of the address and the key. *)
Class StorageKeyHash := { raw_hashed_key : Address → H256 → H256 }.
Definition hashed_key `{StorageKeyHash} (key : StorageKey) : H256 := raw_hashed_key key.1 key.2.

Definition ACCOUNT_CODE_STORAGE_ADDRESS : Address := 0x8002.
Definition get_code_key (account : Address) : StorageKey := (ACCOUNT_CODE_STORAGE_ADDRESS, account).
Definition FAILED_CONTRACT_DEPLOYMENT_BYTECODE_HASH : H256 := 0.

(** What Postgres reads for a field of the text format of [COPY], nothing when the text is
    not one field of one row. *)
Class CopyText := { copy_field : string → option string }.

(** ** Rows *)
(** [miniblocks]; the fee input is kept as its prices. *)
Module MiniblockRow.
Record t := mk {
  number : Z;
  timestamp : Z;
  hash : H256;
  l1_tx_count : Z;
  l2_tx_count : Z;
  fee_account_address : Address;
  base_fee_per_gas : Z;
  l1_gas_price : Z;
  l2_fair_gas_price : Z;
  base_system_contracts_hashes : BaseSystemContractsHashes.t;
  protocol_version : option Z;
  virtual_blocks : Z;
  fair_pubdata_price : option Z;
  l1_batch_number : option Z;
}.
End MiniblockRow.

(** [lib/types/src/writes.rs] *)
Module TreeWrite.
Record t := mk { address : Address; key : H256; value : H256; leaf_index : Z }.
End TreeWrite.

(** [l1_batches]; [hash] is written by the metadata calculator. *)
Module L1BatchRow.
Record t := mk {
  number : Z;
  timestamp : Z;
  l1_tx_count : Z;
  l2_tx_count : Z;
  l2_to_l1_messages : list (list byte);
  priority_ops_onchain_data : list PriorityOpOnchainData.t;
  predicted_gas : BlockGasCount.t;
  initial_bootloader_heap_content : list (Z * U256);
  used_contract_hashes : list U256;
  base_system_contracts_hashes : BaseSystemContractsHashes.t;
  protocol_version : option Z;
  system_logs : list SystemL2ToL1Log;
  storage_refunds : list Z;
  pubdata_costs : list Z;
  pubdata_input : option (list byte);
  predicted_circuits_by_type : CircuitStatistic.t;
  hash : option H256;
  tree_writes : option (list TreeWrite.t);
}.
End L1BatchRow.

(** [transactions]; the columns of the transaction itself are kept as the transaction. *)
Module TransactionRow.
Record t := mk {
  hash : H256;
  transaction : Transaction.t;
  miniblock_number : option Z;
  index_in_block : option Z;
  l1_batch_number : option Z;
  l1_batch_tx_index : option Z;
  error : option string;
  execution_info : option VmExecutionMetrics.t;
  refunded_gas : Z;
  effective_gas_price : option Z;
  in_mempool : bool;
}.
End TransactionRow.

Module StorageLogRow.
Record t := mk { hashed_key : H256; key : StorageKey; value : H256; operation_number : Z; miniblock_number : Z }.
Definition primary_key (r : t) : H256 * Z * Z := (hashed_key r, miniblock_number r, operation_number r).
End StorageLogRow.

Module FactoryDepRow.
Record t := mk { bytecode_hash : H256; bytecode : list byte; miniblock_number : Z }.
End FactoryDepRow.

Module TokenInfo.
Record t := mk { l1_address : Address; l2_address : Address; name : string; symbol : string; decimals : Z }.
End TokenInfo.
Module TokenRow.
Record t := mk { info : TokenInfo.t; well_known : bool }.
Definition l1_address (r : t) : Address := TokenInfo.l1_address (info r).
Definition l2_address (r : t) : Address := TokenInfo.l2_address (info r).
End TokenRow.

(** [lib/types/src/tx/mod.rs] *)
Module IncludedTxLocation.
Record t := mk { tx_hash : H256; tx_index_in_l2_block : Z; tx_initiator_address : Address }.
End IncludedTxLocation.

Module EventRow.
Record t := mk {
  miniblock_number : Z;
  location : IncludedTxLocation.t;
  event_index_in_block : Z;
  event_index_in_tx : Z;
  address : Address;
  topics : list H256;
  value : list byte;
}.
Definition primary_key (r : t) : Z * Z := (miniblock_number r, event_index_in_block r).
End EventRow.

Module L2ToL1LogRow.
Record t := mk {
  miniblock_number : Z;
  log_index_in_miniblock : Z;
  log_index_in_tx : Z;
  tx_hash : H256;
  tx_index_in_miniblock : Z;
  log : L2ToL1Log.t;
}.
Definition primary_key (r : t) : Z * Z := (miniblock_number r, log_index_in_miniblock r).
End L2ToL1LogRow.

Module ProtectiveReadRow.
Record t := mk { l1_batch_number : Z; key : StorageKey }.
Definition primary_key (r : t) : StorageKey * Z := (key r, l1_batch_number r).
End ProtectiveReadRow.

Module InitialWriteRow.
Record t := mk { hashed_key : H256; index : Z; l1_batch_number : Z }.
End InitialWriteRow.

Module ProtocolVersionRow.
Record t := mk {
  id : Z;
  timestamp : Z;
  bootloader_code_hash : H256;
  default_account_code_hash : H256;
  upgrade_tx_hash : option H256;
}.
End ProtocolVersionRow.

Module KeeperDb.
Record t := mk {
  miniblocks : list MiniblockRow.t;
  l1_batches : list L1BatchRow.t;
  transactions : list TransactionRow.t;
  call_traces : list (H256 * CallTrace.t);
  storage_logs : list StorageLogRow.t;
  factory_deps : list FactoryDepRow.t;
  tokens : list TokenRow.t;
  events : list EventRow.t;
  l2_to_l1_logs : list L2ToL1LogRow.t;
  protective_reads : list ProtectiveReadRow.t;
  initial_writes : list InitialWriteRow.t;
  protocol_versions : list ProtocolVersionRow.t;
  snapshot_recovery : option SnapshotRecoveryStatus.t;
}.
Definition set_miniblocks (x : list MiniblockRow.t) (db : t) : t :=
  mk x (l1_batches db) (transactions db) (call_traces db) (storage_logs db) (factory_deps db) (tokens db) (events db)
    (l2_to_l1_logs db) (protective_reads db) (initial_writes db) (protocol_versions db) (snapshot_recovery db).
Definition set_l1_batches (x : list L1BatchRow.t) (db : t) : t :=
  mk (miniblocks db) x (transactions db) (call_traces db) (storage_logs db) (factory_deps db) (tokens db) (events db)
    (l2_to_l1_logs db) (protective_reads db) (initial_writes db) (protocol_versions db) (snapshot_recovery db).
Definition set_transactions (x : list TransactionRow.t) (db : t) : t :=
  mk (miniblocks db) (l1_batches db) x (call_traces db) (storage_logs db) (factory_deps db) (tokens db) (events db)
    (l2_to_l1_logs db) (protective_reads db) (initial_writes db) (protocol_versions db) (snapshot_recovery db).
Definition set_call_traces (x : list (H256 * CallTrace.t)) (db : t) : t :=
  mk (miniblocks db) (l1_batches db) (transactions db) x (storage_logs db) (factory_deps db) (tokens db) (events db)
    (l2_to_l1_logs db) (protective_reads db) (initial_writes db) (protocol_versions db) (snapshot_recovery db).
Definition set_storage_logs (x : list StorageLogRow.t) (db : t) : t :=
  mk (miniblocks db) (l1_batches db) (transactions db) (call_traces db) x (factory_deps db) (tokens db) (events db)
    (l2_to_l1_logs db) (protective_reads db) (initial_writes db) (protocol_versions db) (snapshot_recovery db).
Definition set_factory_deps (x : list FactoryDepRow.t) (db : t) : t :=
  mk (miniblocks db) (l1_batches db) (transactions db) (call_traces db) (storage_logs db) x (tokens db) (events db)
    (l2_to_l1_logs db) (protective_reads db) (initial_writes db) (protocol_versions db) (snapshot_recovery db).
Definition set_tokens (x : list TokenRow.t) (db : t) : t :=
  mk (miniblocks db) (l1_batches db) (transactions db) (call_traces db) (storage_logs db) (factory_deps db) x (events db)
    (l2_to_l1_logs db) (protective_reads db) (initial_writes db) (protocol_versions db) (snapshot_recovery db).
Definition set_events (x : list EventRow.t) (db : t) : t :=
  mk (miniblocks db) (l1_batches db) (transactions db) (call_traces db) (storage_logs db) (factory_deps db) (tokens db) x
    (l2_to_l1_logs db) (protective_reads db) (initial_writes db) (protocol_versions db) (snapshot_recovery db).
Definition set_l2_to_l1_logs (x : list L2ToL1LogRow.t) (db : t) : t :=
  mk (miniblocks db) (l1_batches db) (transactions db) (call_traces db) (storage_logs db) (factory_deps db) (tokens db) (events db)
    x (protective_reads db) (initial_writes db) (protocol_versions db) (snapshot_recovery db).
Definition set_protective_reads (x : list ProtectiveReadRow.t) (db : t) : t :=
  mk (miniblocks db) (l1_batches db) (transactions db) (call_traces db) (storage_logs db) (factory_deps db) (tokens db) (events db)
    (l2_to_l1_logs db) x (initial_writes db) (protocol_versions db) (snapshot_recovery db).
Definition set_initial_writes (x : list InitialWriteRow.t) (db : t) : t :=
  mk (miniblocks db) (l1_batches db) (transactions db) (call_traces db) (storage_logs db) (factory_deps db) (tokens db) (events db)
    (l2_to_l1_logs db) (protective_reads db) x (protocol_versions db) (snapshot_recovery db).
End KeeperDb.
Import KeeperDb.

Abbreviation Q A := (prog KeeperDb.t string A).
Definition query {A} (f : KeeperDb.t → A) : Q A := λ db, Ret (inr (f db), db).
Definition execute (f : KeeperDb.t → string + KeeperDb.t) : Q () := λ db,
  match f db with inl e => Ret (inl e, db) | inr db' => Ret (inr (), db') end.
(** A transaction that is dropped unless it is committed. *)
Definition atomically {A} (body : Q A) : Q A := λ db,
  match body db with Ret (inl e, _) => Ret (inl e, db) | r => r end.

(** [MAX(number)] of [miniblocks], or the block of the snapshot. *)
Definition last_block_number (db : KeeperDb.t) : option Z :=
  match sql_max (MiniblockRow.number <$> miniblocks db) with
  | Some n => Some n
  | None => SnapshotRecoveryStatus.l2_block_number <$> snapshot_recovery db
  end.

(** [ProtocolVersionId::try_from] *)
Definition protocol_version_from (v : Z) : option ProtocolVersionId := if decide (0 ≤ v ≤ 25) then Some v else None.

(** ** [blocks_dal.rs] *)
Module BlocksDal.
Definition get_sealed_l1_batch_number : Q (option L1BatchNumber) :=
  query (λ db, wrap 32 <$> sql_max (L1BatchRow.number <$> l1_batches db)).
Definition get_earliest_l1_batch_number : Q (option L1BatchNumber) :=
  query (λ db, wrap 32 <$> sql_min (L1BatchRow.number <$> l1_batches db)).

Definition insert_l1_batch (row : L1BatchRow.t) : Q () :=
  execute (λ db, match insert_unique L1BatchRow.number [row] (l1_batches db) with
                 | inl e => inl e | inr rows => inr (set_l1_batches rows db) end).

Definition miniblock_row (h : L2BlockHeader.t) : MiniblockRow.t := {|
  MiniblockRow.number := L2BlockHeader.number h;
  MiniblockRow.timestamp := to_signed 64 (L2BlockHeader.timestamp h);
  MiniblockRow.hash := L2BlockHeader.hash h;
  MiniblockRow.l1_tx_count := L2BlockHeader.l1_tx_count h;
  MiniblockRow.l2_tx_count := L2BlockHeader.l2_tx_count h;
  MiniblockRow.fee_account_address := L2BlockHeader.fee_account_address h;
  MiniblockRow.base_fee_per_gas := L2BlockHeader.base_fee_per_gas h;
  MiniblockRow.l1_gas_price := to_signed 64 (BatchFeeInput.l1_gas_price (L2BlockHeader.batch_fee_input h));
  MiniblockRow.l2_fair_gas_price := to_signed 64 (BatchFeeInput.fair_l2_gas_price (L2BlockHeader.batch_fee_input h));
  MiniblockRow.base_system_contracts_hashes := L2BlockHeader.base_system_contracts_hashes h;
  MiniblockRow.protocol_version := L2BlockHeader.protocol_version h;
  MiniblockRow.virtual_blocks := L2BlockHeader.virtual_blocks h;
  MiniblockRow.fair_pubdata_price := Some (to_signed 64 (BatchFeeInput.fair_pubdata_price (L2BlockHeader.batch_fee_input h)));
  MiniblockRow.l1_batch_number := None;
|}.
Definition insert_l2_block (h : L2BlockHeader.t) : Q () :=
  execute (λ db, match insert_unique MiniblockRow.number [miniblock_row h] (miniblocks db) with
                 | inl e => inl e | inr rows => inr (set_miniblocks rows db) end).

(** [From<StorageL2BlockHeader>] *)
Definition header_from (row : MiniblockRow.t) : exec L2BlockHeader.t :=
  protocol_version ← match MiniblockRow.protocol_version row with
    | Some v => v ← expect (protocol_version_from (wrap 16 v)); Ret (Some v)
    | None => Ret None
    end;
  let l1_gas_price := wrap 64 (MiniblockRow.l1_gas_price row) in
  let fair_l2_gas_price := wrap 64 (MiniblockRow.l2_fair_gas_price row) in
  let pegged := Types.L1Pegged (L1PeggedBatchFeeModelInput.mk fair_l2_gas_price l1_gas_price) in
  fee_input ← match protocol_version with
    | Some v =>
        if is_post_1_4_1 v then
          price ← expect (MiniblockRow.fair_pubdata_price row);
          Ret (Types.PubdataIndependent (PubdataIndependentBatchFeeModelInput.mk fair_l2_gas_price (wrap 64 price) l1_gas_price))
        else Ret pegged
    | None => Ret pegged
    end;
  Ret {| L2BlockHeader.number := wrap 32 (MiniblockRow.number row);
         L2BlockHeader.timestamp := wrap 64 (MiniblockRow.timestamp row);
         L2BlockHeader.hash := MiniblockRow.hash row;
         L2BlockHeader.l1_tx_count := wrap 16 (MiniblockRow.l1_tx_count row);
         L2BlockHeader.l2_tx_count := wrap 16 (MiniblockRow.l2_tx_count row);
         L2BlockHeader.fee_account_address := MiniblockRow.fee_account_address row;
         L2BlockHeader.base_fee_per_gas := MiniblockRow.base_fee_per_gas row;
         L2BlockHeader.batch_fee_input := fee_input;
         L2BlockHeader.base_system_contracts_hashes := MiniblockRow.base_system_contracts_hashes row;
         L2BlockHeader.protocol_version := protocol_version;
         L2BlockHeader.virtual_blocks := wrap 32 (MiniblockRow.virtual_blocks row) |}.

Definition block_row (db : KeeperDb.t) (number : Z) : option MiniblockRow.t :=
  snd <$> list_find (λ r, MiniblockRow.number r = number) (miniblocks db).
Definition header_of_row (row : option MiniblockRow.t) : Q (option L2BlockHeader.t) :=
  match row with Some row => header ← lift_exec (header_from row); mret (Some header) | None => mret None end.
Definition get_last_sealed_l2_block_header : Q (option L2BlockHeader.t) :=
  row ← query (λ db, sql_max (MiniblockRow.number <$> miniblocks db) ≫= block_row db);
  header_of_row row.
Definition get_l2_block_header (number : L2BlockNumber) : Q (option L2BlockHeader.t) :=
  row ← query (λ db, block_row db number);
  header_of_row row.

Definition mark_l2_blocks_as_executed_in_l1_batch (l1_batch_number : L1BatchNumber) : Q () :=
  execute (λ db, inr (set_miniblocks (update_where (λ r, bool_decide (MiniblockRow.l1_batch_number r = None))
    (λ r, MiniblockRow.mk (MiniblockRow.number r) (MiniblockRow.timestamp r) (MiniblockRow.hash r) (MiniblockRow.l1_tx_count r)
       (MiniblockRow.l2_tx_count r) (MiniblockRow.fee_account_address r) (MiniblockRow.base_fee_per_gas r) (MiniblockRow.l1_gas_price r)
       (MiniblockRow.l2_fair_gas_price r) (MiniblockRow.base_system_contracts_hashes r) (MiniblockRow.protocol_version r)
       (MiniblockRow.virtual_blocks r) (MiniblockRow.fair_pubdata_price r) (Some (to_signed 32 l1_batch_number)))
    (miniblocks db)) db)).

Definition batch_row (db : KeeperDb.t) (number : Z) : option L1BatchRow.t :=
  snd <$> list_find (λ r, L1BatchRow.number r = number) (l1_batches db).
Definition get_l1_batch_state_root_and_timestamp (number : L1BatchNumber) : Q (option (H256 * Z)) :=
  query (λ db, row ← batch_row db number; hash ← L1BatchRow.hash row; Some (hash, wrap 64 (L1BatchRow.timestamp row))).
Definition get_l2_block_range_of_l1_batch (l1_batch_number : L1BatchNumber) : Q (option (L2BlockNumber * L2BlockNumber)) :=
  query (λ db,
    let numbers := MiniblockRow.number <$> filter (λ r, MiniblockRow.l1_batch_number r = Some l1_batch_number) (miniblocks db) in
    min ← sql_min numbers; max ← sql_max numbers; Some (wrap 32 min, wrap 32 max)).
(** [blocks_web3_dal.rs] *)
Definition get_l2_block_hash (number : L2BlockNumber) : Q (option H256) :=
  query (λ db, MiniblockRow.hash <$> block_row db number).
Definition get_batch_protocol_version_id (l1_batch_number : L1BatchNumber) : Q (option ProtocolVersionId) :=
  version ← query (λ db, batch_row db l1_batch_number ≫= L1BatchRow.protocol_version);
  match version with
  | Some v => v ← ok_or "invalid protocol version" (protocol_version_from v); mret (Some v)
  | None => mret None
  end.
Definition set_tree_writes (l1_batch_number : L1BatchNumber) (tree_writes : list TreeWrite.t) : Q () :=
  execute (λ db, inr (set_l1_batches (update_where (λ r, bool_decide (L1BatchRow.number r = l1_batch_number))
    (λ r, L1BatchRow.mk (L1BatchRow.number r) (L1BatchRow.timestamp r) (L1BatchRow.l1_tx_count r) (L1BatchRow.l2_tx_count r)
       (L1BatchRow.l2_to_l1_messages r) (L1BatchRow.priority_ops_onchain_data r) (L1BatchRow.predicted_gas r)
       (L1BatchRow.initial_bootloader_heap_content r) (L1BatchRow.used_contract_hashes r) (L1BatchRow.base_system_contracts_hashes r)
       (L1BatchRow.protocol_version r) (L1BatchRow.system_logs r) (L1BatchRow.storage_refunds r) (L1BatchRow.pubdata_costs r)
       (L1BatchRow.pubdata_input r) (L1BatchRow.predicted_circuits_by_type r) (L1BatchRow.hash r) (Some tree_writes))
    (l1_batches db)) db)).
End BlocksDal.

(** ** [transactions_dal.rs] *)
Module TransactionsDal.
Import TransactionRow.

(** The transaction as it is read back from its columns, which include the hash and the
    time it was received. *)
Definition stored_transaction (hash : H256) (tx : Transaction.t) (received_timestamp_ms : Z) : Transaction.t :=
  match Transaction.common_data tx with
  | L2 data =>
      let input := default [] (InputData.data <$> L2TxCommonData.input data) in
      Transaction.mk (L2 (L2TxCommonData.mk (L2TxCommonData.nonce data) (L2TxCommonData.fee data) (L2TxCommonData.initiator_address data)
          (L2TxCommonData.signature data) (L2TxCommonData.transaction_type data) (Some (InputData.mk hash input))
          (L2TxCommonData.paymaster_params data)))
        (Transaction.execute tx) received_timestamp_ms (Some input)
  | common_data => Transaction.mk common_data (Transaction.execute tx) received_timestamp_ms None
  end.

Definition mark_txs_as_executed_in_l1_batch (l1_batch_number : L1BatchNumber) (results : list TxResult) : Q () :=
  let index r := list_find (λ res, TransactionExecutionResult.hash res = hash r) results in
  execute (λ db, inr (set_transactions (
    (λ r, match index r with
          | Some (i, _) => mk (hash r) (transaction r) (miniblock_number r) (index_in_block r) (Some l1_batch_number)
              (Some (Z.of_nat i)) (error r) (execution_info r) (refunded_gas r) (effective_gas_price r) (in_mempool r)
          | None => r
          end) <$> transactions db) db)).

(** [NULLIF(error, '')] *)
Definition map_transaction_error (res : TxResult) : option string :=
  match TransactionExecutionResult.execution_status res with
  | StatusSuccess => None
  | StatusFailure => Some "Bootloader-based tx failed"%string
  end.

(** [Fee::get_effective_gas_price] *)
Definition get_effective_gas_price (fee : Fee.t) (block_base_fee_per_gas : U256) : exec U256 :=
  assert_then (bool_decide (block_base_fee_per_gas ≤ Fee.max_fee_per_gas fee))
    (assert_then (bool_decide (Fee.max_priority_fee_per_gas fee ≤ Fee.max_fee_per_gas fee)) (Ret block_base_fee_per_gas)).

(** What is written of an executed transaction, for those of one kind, with their indices
    in the block. *)
Module Executed.
Record t := mk { index : Z; result : TxResult; price : U256 }.
End Executed.
Inductive tx_kind := L2Kind | L1Kind | UpgradeKind.
#[export] Instance tx_kind_eq_dec : EqDecision tx_kind.
Proof. solve_decision. Defined.
Definition kind_of (tx : Transaction.t) : tx_kind :=
  match Transaction.common_data tx with L1 _ => L1Kind | L2 _ => L2Kind | ProtocolUpgrade _ => UpgradeKind end.
Definition effective_price (block_base_fee_per_gas : U256) (tx : Transaction.t) : exec U256 :=
  match Transaction.common_data tx with
  | L2 data => get_effective_gas_price (L2TxCommonData.fee data) block_base_fee_per_gas
  | L1 data => Ret (L1TxCommonData.max_fee_per_gas data)
  | ProtocolUpgrade data => Ret (ProtocolUpgradeTxCommonData.max_fee_per_gas data)
  end.
Definition enumerate {A} (l : list A) : list (Z * A) := imap (λ i a, (Z.of_nat i, a)) l.
Definition executed_of_kind (kind : tx_kind) (block_base_fee_per_gas : U256) (results : list TxResult) : Q (list Executed.t) :=
  foldP (λ acc '(index, res),
    let tx := TransactionExecutionResult.transaction res in
    if decide (kind_of tx = kind) then
      if decide (TransactionExecutionResult.refunded_gas res < 2 ^ 63) then
        price ← lift_exec (effective_price block_base_fee_per_gas tx);
        mret (acc ++ [Executed.mk index res price])
      else fail "refunded_gas: out of range integral type conversion attempted"%string
    else mret acc) [] (enumerate results).

(** The row of an executed transaction: its key and time are those of the row it updates. *)
Definition executed_row (l2_block_number : Z) (e : Executed.t) (hash : H256) (transaction : Transaction.t) (row : option t) : t :=
  let res := Executed.result e in {|
  hash := hash;
  transaction := transaction;
  miniblock_number := Some (to_signed 32 l2_block_number);
  index_in_block := Some (Executed.index e);
  l1_batch_number := row ≫= l1_batch_number;
  l1_batch_tx_index := row ≫= l1_batch_tx_index;
  error := map_transaction_error res;
  execution_info := Some (TransactionExecutionResult.execution_info res);
  refunded_gas := TransactionExecutionResult.refunded_gas res;
  effective_gas_price := Some (Executed.price e);
  in_mempool := false;
|}.

(** [WHERE initiator_address = .. AND nonce = ..]; only L2 transactions have a nonce. *)
Definition same_nonce (tx tx' : Transaction.t) : bool :=
  bool_decide (Transaction.initiator_account tx = Transaction.initiator_account tx')
  && match Transaction.nonce tx, Transaction.nonce tx' with Some n, Some n' => bool_decide (n = n') | _, _ => false end.

(** "It's possible that tx has been replaced, but the original was executed in memory, so we
    have to update all fields for tx from fields stored in memory." *)
Definition update_l2_row (l2_block_number : Z) (executed : list Executed.t) (r : t) : t :=
  match list_find (λ e, same_nonce (TransactionExecutionResult.transaction (Executed.result e)) (transaction r) = true) executed with
  | Some (_, e) =>
      let res := Executed.result e in
      let hash := TransactionExecutionResult.hash res in
      executed_row l2_block_number e hash
        (stored_transaction hash (TransactionExecutionResult.transaction res) (Transaction.received_timestamp_ms (transaction r))) (Some r)
  | None => r
  end.
Definition update_row_by_hash (l2_block_number : Z) (executed : list Executed.t) (r : t) : t :=
  match list_find (λ e, TransactionExecutionResult.hash (Executed.result e) = hash r) executed with
  | Some (_, e) => executed_row l2_block_number e (hash r) (transaction r) (Some r)
  | None => r
  end.
(** [UNIQUE (initiator_address, nonce)] *)
Definition nonce_key (r : t) : option (Address * Z) :=
  match Transaction.nonce (transaction r) with Some n => Some (Transaction.initiator_account (transaction r), n) | None => None end.
Definition store_transactions (f : list t → list t) : Q () :=
  execute (λ db, let rows := f (transactions db) in
    if decide (NoDup (hash <$> rows) ∧ NoDup (omap nonce_key rows)) then inr (set_transactions rows db) else inl unique_violation).

Definition update_executed_l2_transactions (l2_block_number : Z) (block_base_fee_per_gas : U256) (results : list TxResult) : Q () :=
  executed ← executed_of_kind L2Kind block_base_fee_per_gas results;
  store_transactions (fmap (update_l2_row l2_block_number executed)).
(** What the next two share. *)
Definition update_executed_transactions (kind : tx_kind) (l2_block_number : Z) (results : list TxResult) : Q () :=
  executed ← executed_of_kind kind 0 results;
  store_transactions (fmap (update_row_by_hash l2_block_number executed)).
Definition update_executed_l1_transactions : Z → list TxResult → Q () := update_executed_transactions L1Kind.
Definition update_executed_upgrade_transactions : Z → list TxResult → Q () := update_executed_transactions UpgradeKind.

(** What the next three share, at the time [now]. *)
Definition insert_executed_transactions (now : Z) (kind : tx_kind) (l2_block_number : Z) (block_base_fee_per_gas : U256)
    (results : list TxResult) : Q () :=
  executed ← executed_of_kind kind block_base_fee_per_gas results;
  store_transactions (λ rows, rows ++ ((λ e,
    let hash := TransactionExecutionResult.hash (Executed.result e) in
    executed_row l2_block_number e hash (stored_transaction hash (TransactionExecutionResult.transaction (Executed.result e)) now) None)
    <$> executed)).
Definition insert_executed_l2_transactions (now : Z) : Z → U256 → list TxResult → Q () := insert_executed_transactions now L2Kind.
Definition insert_executed_l1_transactions (now l2_block_number : Z) : list TxResult → Q () := insert_executed_transactions now L1Kind l2_block_number 0.
Definition insert_executed_upgrade_transactions (now l2_block_number : Z) : list TxResult → Q () :=
  insert_executed_transactions now UpgradeKind l2_block_number 0.

(** [TransactionExecutionResult::call_trace] *)
Definition BOOTLOADER_ADDRESS : Address := 0x8001.
Definition call_trace (res : TxResult) : exec (option CallTrace.t) :=
  match TransactionExecutionResult.call_traces res with
  | [] => Ret None
  | calls =>
      let tx := TransactionExecutionResult.transaction res in
      assert_then (bool_decide (tx_gas_limit tx < 2 ^ 64))
        (Ret (Some (CallTrace.mk (CallTypeCall Normal) 0 BOOTLOADER_ADDRESS (tx_gas_limit tx) (tx_gas_limit tx)
           (wrap 64 (tx_gas_limit tx - TransactionExecutionResult.refunded_gas res)) (Execute.value (Transaction.execute tx))
           (Execute.calldata (Transaction.execute tx)) [] None (TransactionExecutionResult.revert_reason res) calls)))
  end.
Definition call_trace_rows (results : list TxResult) : exec (list (H256 * CallTrace.t)) :=
  foldM (λ acc res, trace ← call_trace res;
    Ret (acc ++ match trace with Some call => [(TransactionExecutionResult.hash res, call)] | None => [] end)) [] results.
Definition insert_call_traces (rows : list (H256 * CallTrace.t)) : Q () :=
  execute (λ db, if decide (Forall (λ r, r.1 ∈ (hash <$> transactions db)) rows) then
                   match insert_unique fst rows (call_traces db) with
                   | inl e => inl e | inr traces => inr (set_call_traces traces db) end
                 else inl "insert or update on table call_traces violates foreign key constraint"%string).

(** [DELETE FROM transactions], which takes the call traces along. *)
Definition delete_transactions (p : t → bool) (db : KeeperDb.t) : KeeperDb.t :=
  let deleted := hash <$> filter (λ r, p r = true) (transactions db) in
  set_call_traces (delete_where (λ c, bool_decide (c.1 ∈ deleted)) (call_traces db))
    (set_transactions (delete_where p (transactions db)) db).
Definition remove_old_transactions (results : list TxResult) : Q () :=
  execute (λ db, inr (delete_transactions (λ r,
    existsb (λ res, bool_decide (TransactionExecutionResult.hash res = hash r)
                    || same_nonce (TransactionExecutionResult.transaction res) (transaction r)) results) db)).

Definition mark_txs_as_executed_in_l2_block (now : Z) (l2_block_number : L2BlockNumber) (results : list TxResult)
    (block_base_fee_per_gas : U256) (insert_txs : bool) : Q () :=
  atomically (
    traces ← lift_exec (call_trace_rows results);
    _ ← (if insert_txs then
           _ ← remove_old_transactions results;
           _ ← insert_executed_l2_transactions now l2_block_number block_base_fee_per_gas results;
           _ ← insert_executed_l1_transactions now l2_block_number results;
           insert_executed_upgrade_transactions now l2_block_number results
         else
           _ ← update_executed_l2_transactions l2_block_number block_base_fee_per_gas results;
           _ ← update_executed_l1_transactions l2_block_number results;
           update_executed_upgrade_transactions l2_block_number results);
    match traces with [] => mret () | _ => insert_call_traces traces end).

Definition mark_tx_as_rejected (transaction_hash : H256) (error : string) : Q () :=
  execute (λ db, inr (set_transactions (update_where (λ r, bool_decide (hash r = transaction_hash))
    (λ r, mk (hash r) (transaction r) (miniblock_number r) (index_in_block r) (l1_batch_number r) (l1_batch_tx_index r)
       (Some error) (execution_info r) (refunded_gas r) (effective_gas_price r) (in_mempool r))
    (transactions db)) db)).

(** The two statements of [reset_transactions_state], which are not in a transaction. *)
Definition in_block_after (l2_block_number : L2BlockNumber) (r : t) : bool :=
  match miniblock_number r with Some n => bool_decide (l2_block_number < n) | None => false end.
Definition reset_row (r : t) : t :=
  mk (hash r) (transaction r) None None None (l1_batch_tx_index r) None None (refunded_gas r) (effective_gas_price r) (in_mempool r).
Definition reset_marks (l2_block_number : L2BlockNumber) : Q (list H256) :=
  hashes ← query (λ db, hash <$> filter (λ r, in_block_after l2_block_number r = true) (transactions db));
  _ ← execute (λ db, inr (set_transactions (update_where (in_block_after l2_block_number) reset_row (transactions db)) db));
  mret hashes.
Definition delete_call_traces (tx_hashes : list H256) : Q () :=
  execute (λ db, inr (set_call_traces (delete_where (λ c, bool_decide (c.1 ∈ tx_hashes)) (call_traces db)) db)).
Definition reset_transactions_state (l2_block_number : L2BlockNumber) : Q () :=
  tx_hashes ← reset_marks l2_block_number;
  delete_call_traces tx_hashes.

(** *** The mempool's statements *)
Definition is_priority (tx : Transaction.t) : bool := match Transaction.common_data tx with L2 _ => false | _ => true end.
Definition waiting (r : t) : bool := bool_decide (miniblock_number r = None) && bool_decide (error r = None).
Definition remove_stuck_txs (now stuck_tx_timeout : Z) : Q () :=
  execute (λ db, inr (delete_transactions (λ r, waiting r && negb (is_priority (transaction r))
    && bool_decide (Transaction.received_timestamp_ms (transaction r) < now - stuck_tx_timeout)) db)).
Definition with_in_mempool (b : bool) (r : t) : t :=
  mk (hash r) (transaction r) (miniblock_number r) (index_in_block r) (l1_batch_number r) (l1_batch_tx_index r) (error r)
    (execution_info r) (refunded_gas r) (effective_gas_price r) b.
Definition initiated_by (accounts : list Address) (r : t) : bool :=
  bool_decide (Transaction.initiator_account (transaction r) ∈ accounts).

Definition unstash (stashed_accounts : list Address) : Q () :=
  execute (λ db, inr (set_transactions (update_where (λ r, in_mempool r && initiated_by stashed_accounts r)
    (with_in_mempool false) (transactions db)) db)).
Definition delete_purged (purged_accounts : list Address) : Q () :=
  execute (λ db, inr (delete_transactions (λ r, in_mempool r && initiated_by purged_accounts r) db)).
(** Whether the filter selects the row; priority operations come first, by their ids. *)
Definition for_mempool (gas_per_pubdata fee_per_gas : Z) (r : t) : bool :=
  waiting r && negb (in_mempool r) &&
  match Transaction.common_data (transaction r) with
  | L1 _ => true
  | L2 data => bool_decide (fee_per_gas ≤ Fee.max_fee_per_gas (L2TxCommonData.fee data))
               && bool_decide (gas_per_pubdata ≤ Fee.gas_per_pubdata_limit (L2TxCommonData.fee data))
  | ProtocolUpgrade _ => false
  end.
Definition priority_op_id (r : t) : Z :=
  match Transaction.common_data (transaction r) with L1 data => L1TxCommonData.serial_id data | _ => 0 end.
Definition mempool_order (rows : list t) : list t :=
  order_by priority_op_id (filter (λ r, is_priority (transaction r) = true) rows)
  ++ order_by (Transaction.received_timestamp_ms ∘ transaction) (filter (λ r, is_priority (transaction r) = false) rows).
Definition take_for_mempool (gas_per_pubdata fee_per_gas : Z) (limit : nat) : Q (list Transaction.t) :=
  rows ← query (λ db, take limit (mempool_order (filter (λ r, for_mempool gas_per_pubdata fee_per_gas r = true) (transactions db))));
  _ ← execute (λ db, inr (set_transactions (update_where (λ r, bool_decide (hash r ∈ (hash <$> rows))) (with_in_mempool true)
    (transactions db)) db));
  mret (transaction <$> order_by hash rows).
Definition sync_mempool (stashed_accounts purged_accounts : list Address) (gas_per_pubdata fee_per_gas : Z) (limit : nat)
    : Q (list Transaction.t) :=
  _ ← unstash stashed_accounts;
  _ ← delete_purged purged_accounts;
  take_for_mempool gas_per_pubdata fee_per_gas limit.
Definition reset_mempool : Q () :=
  execute (λ db, inr (set_transactions (update_where in_mempool (with_in_mempool false) (transactions db)) db)).
Definition sealed_operation (last : option Z) (r : t) : bool :=
  match Transaction.common_data (transaction r), miniblock_number r, last with
  | L1 _, Some n, Some m => bool_decide (n ≤ m)
  | _, _, _ => false
  end.
Definition next_priority_id : Q PriorityOpId :=
  query (λ db,
    let last := sql_max (MiniblockRow.number <$> miniblocks db) in
    let ids := priority_op_id <$> filter (λ r, sealed_operation last r = true) (transactions db) in
    default 0 ((λ v, wrap 64 (v + 1)) <$> sql_max ids)).

(** *** Blocks to execute again *)
Definition get_tx_by_hash (h : H256) : Q (option Transaction.t) :=
  query (λ db, (transaction ∘ snd) <$> list_find (λ r, hash r = h) (transactions db)).

(** Itertools' [group_by] on consecutive elements. *)
Definition group_by {A K} `{EqDecision K} (key : A → K) (l : list A) : list (K * list A) :=
  foldr (λ a groups, match groups with
    | (k, group) :: rest => if decide (k = key a) then (k, a :: group) :: rest else (key a, [a]) :: groups
    | [] => [(key a, [a])]
    end) [] l.

Definition prev_block_hash (db : KeeperDb.t) (number : Z) : Q H256 :=
  match BlocksDal.block_row db number with
  | Some row => mret (MiniblockRow.hash row)
  | None =>
      ok_or "no rows returned by a query that expected to return at least one row"
        (snapshot ← snapshot_recovery db;
         if decide (SnapshotRecoveryStatus.l2_block_number snapshot = number)
         then Some (SnapshotRecoveryStatus.l2_block_hash snapshot) else None)
  end.
Definition blocks_of (rows : list t) : list (Z * list Transaction.t) :=
  (λ g : Z * list t, (wrap 32 g.1, transaction <$> g.2)) <$> group_by (λ r, default 0 (miniblock_number r)) rows.
Definition execution_data (db : KeeperDb.t) (block : (Z * list Transaction.t) * MiniblockRow.t) : Q L2BlockExecutionData.t :=
  let '((number, txs), row) := block in
  hash ← prev_block_hash db (wrap 32 (number - 1));
  mret (L2BlockExecutionData.mk number (wrap 64 (MiniblockRow.timestamp row)) hash (wrap 32 (MiniblockRow.virtual_blocks row)) txs).
Definition map_transactions_to_execution_data (rows : list t) : Q (list L2BlockExecutionData.t) :=
  let by_block := blocks_of rows in
  match by_block, last by_block with
  | (from_l2_block, _) :: _, Some (to_l2_block, _) =>
      db ← get;
      let l2_block_data := order_by MiniblockRow.number
        (filter (λ r, from_l2_block ≤ MiniblockRow.number r ≤ to_l2_block) (miniblocks db)) in
      if decide (length l2_block_data = length by_block) then
        foldP (λ acc block, data ← execution_data db block; mret (acc ++ [data])) [] (zip by_block l2_block_data)
      else fail "not enough miniblock data retrieved"%string
  | _, _ => mret []
  end.
Definition get_l2_blocks_to_reexecute : Q (list L2BlockExecutionData.t) :=
  rows ← query (λ db, order_by2 (default 0 ∘ miniblock_number) (default 0 ∘ index_in_block)
    (filter (λ r, miniblock_number r ≠ None ∧ l1_batch_number r = None) (transactions db)));
  map_transactions_to_execution_data rows.
End TransactionsDal.

(** ** [storage_logs_dal.rs] *)
Module StorageLogsDal.
Section dal.
Context `{StorageKeyHash}.
Definition log_rows (block_number : L2BlockNumber) (logs : list (StorageKey * H256)) : list StorageLogRow.t :=
  imap (λ i '(key, value), StorageLogRow.mk (hashed_key key) key value (Z.of_nat i) block_number) logs.
Definition insert_storage_logs (block_number : L2BlockNumber) (logs : list (StorageKey * H256)) : Q () :=
  execute (λ db, match insert_unique StorageLogRow.primary_key (log_rows block_number logs) (storage_logs db) with
                 | inl e => inl e | inr rows => inr (set_storage_logs rows db) end).
Definition roll_back_storage_logs (block_number : L2BlockNumber) : Q () :=
  execute (λ db, inr (set_storage_logs (delete_where (λ r, bool_decide (block_number < StorageLogRow.miniblock_number r))
    (storage_logs db)) db)).

(** The latest of the logs of a key, by the numbers of the block and of the operation. *)
Definition later (r r' : StorageLogRow.t) : bool :=
  bool_decide (StorageLogRow.miniblock_number r < StorageLogRow.miniblock_number r' ∨
    StorageLogRow.miniblock_number r = StorageLogRow.miniblock_number r' ∧ StorageLogRow.operation_number r < StorageLogRow.operation_number r').
Definition latest_log (rows : list StorageLogRow.t) : option StorageLogRow.t :=
  foldl (λ acc r, match acc with Some best => if later best r then Some r else acc | None => Some r end) None rows.
(** [filter_deployed_contracts] for one address; [at_l2_block] is not given by the code modelled here. *)
Definition deployed_at (db : KeeperDb.t) (address : Address) : option L2BlockNumber :=
  last ← last_block_number db;
  row ← latest_log (filter (λ r, StorageLogRow.hashed_key r = hashed_key (get_code_key address) ∧
                                 StorageLogRow.miniblock_number r ≤ last ∧ StorageLogRow.miniblock_number r ≤ 2 ^ 32 - 1) (storage_logs db));
  if decide (StorageLogRow.value row = FAILED_CONTRACT_DEPLOYMENT_BYTECODE_HASH) then None
  else Some (wrap 32 (StorageLogRow.miniblock_number row)).
Definition get_l1_batches_and_indices_for_initial_writes (hashed_keys : list H256) : Q (gmap H256 (L1BatchNumber * Z)) :=
  query (λ db, list_to_map ((λ r, (InitialWriteRow.hashed_key r, (wrap 32 (InitialWriteRow.l1_batch_number r), InitialWriteRow.index r)))
    <$> filter (λ r, InitialWriteRow.hashed_key r ∈ hashed_keys) (initial_writes db))).
End dal.
End StorageLogsDal.

(** ** [storage_logs_dedup_dal.rs] *)
Module StorageLogsDedupDal.
Definition insert_protective_reads (l1_batch_number : L1BatchNumber) (read_logs : list StorageLog.t) : Q () :=
  execute (λ db, match insert_unique ProtectiveReadRow.primary_key
                         ((λ log, ProtectiveReadRow.mk l1_batch_number (StorageLog.key log)) <$> read_logs) (protective_reads db) with
                 | inl e => inl e | inr rows => inr (set_protective_reads rows db) end).
Definition max_enumeration_index : Q (option Z) := query (λ db, sql_max (InitialWriteRow.index <$> initial_writes db)).
Definition insert_initial_writes (l1_batch_number : L1BatchNumber) (written_hashed_keys : list H256) : Q () :=
  last ← max_enumeration_index;
  let last_index := default 0 last in
  execute (λ db, match insert_unique InitialWriteRow.hashed_key
                         (imap (λ i key, InitialWriteRow.mk key (last_index + 1 + Z.of_nat i) l1_batch_number) written_hashed_keys)
                         (initial_writes db) with
                 | inl e => inl e | inr rows => inr (set_initial_writes rows db) end).
Definition max_enumeration_index_by_l1_batch (l1_batch_number : L1BatchNumber) : Q (option Z) :=
  query (λ db,
    batch ← sql_max (InitialWriteRow.l1_batch_number <$> filter (λ r, InitialWriteRow.l1_batch_number r ≤ l1_batch_number) (initial_writes db));
    sql_max (InitialWriteRow.index <$> filter (λ r, InitialWriteRow.l1_batch_number r = batch) (initial_writes db))).
Definition filter_written_slots (hashed_keys : list H256) : Q (list H256) :=
  query (λ db, filter (λ key, key ∈ hashed_keys) (InitialWriteRow.hashed_key <$> initial_writes db)).
End StorageLogsDedupDal.

(** ** [factory_deps_dal.rs] *)
Module FactoryDepsDal.
Definition insert_factory_deps (block_number : L2BlockNumber) (factory_deps : gmap H256 (list byte)) : Q () :=
  execute (λ db, let known := FactoryDepRow.bytecode_hash <$> KeeperDb.factory_deps db in
    inr (set_factory_deps (KeeperDb.factory_deps db ++
      ((λ d : H256 * list byte, FactoryDepRow.mk d.1 d.2 block_number) <$> filter (λ d, d.1 ∉ known) (map_to_list factory_deps))) db)).
Definition roll_back_factory_deps (block_number : L2BlockNumber) : Q () :=
  execute (λ db, inr (set_factory_deps (delete_where (λ r, bool_decide (block_number < FactoryDepRow.miniblock_number r))
    (factory_deps db)) db)).

Definition get_sealed_factory_dep (hash : H256) : Q (option (list byte)) :=
  query (λ db,
    last ← last_block_number db;
    (FactoryDepRow.bytecode ∘ snd) <$> list_find (λ r, FactoryDepRow.bytecode_hash r = hash ∧ FactoryDepRow.miniblock_number r ≤ last)
      (factory_deps db)).
(** [bytes_to_be_words] *)
Fixpoint words (n : nat) (bs : list byte) : list U256 :=
  match n with O => [] | S n => from_be_bytes (take 32 bs) :: words n (drop 32 bs) end.
Definition bytes_to_be_words (bs : list byte) : exec (list U256) :=
  assert_then (bool_decide (length bs mod 32 = 0)%nat) (Ret (words (length bs / 32) bs)).
Definition get_base_system_contracts (bootloader_hash default_aa_hash : H256) : Q BaseSystemContracts.t :=
  bootloader ← get_sealed_factory_dep bootloader_hash;
  bootloader ← ok_or "bootloader code should be present in the database" bootloader;
  bootloader_code ← lift_exec (bytes_to_be_words bootloader);
  default_aa ← get_sealed_factory_dep default_aa_hash;
  default_aa ← ok_or "default account code should be present in the database" default_aa;
  default_aa_code ← lift_exec (bytes_to_be_words default_aa);
  mret (BaseSystemContracts.mk (SystemContractCode.mk bootloader_code bootloader_hash) (SystemContractCode.mk default_aa_code default_aa_hash)).
End FactoryDepsDal.

(** ** [tokens_dal.rs] *)
Module TokensDal.
Section dal.
Context `{StorageKeyHash, CopyText}.
(** The names are written into the text of [COPY] as they are. *)
Definition token_row (token : TokenInfo.t) : option TokenRow.t :=
  name ← copy_field (TokenInfo.name token);
  symbol ← copy_field (TokenInfo.symbol token);
  Some (TokenRow.mk (TokenInfo.mk (TokenInfo.l1_address token) (TokenInfo.l2_address token) name symbol (TokenInfo.decimals token)) false).
Definition add_tokens (tokens : list TokenInfo.t) : Q () :=
  execute (λ db, match mapM token_row tokens with
    | None => inl "invalid COPY data"%string
    | Some rows =>
        match insert_unique TokenRow.l1_address rows (KeeperDb.tokens db), insert_unique TokenRow.l2_address rows (KeeperDb.tokens db) with
        | inr rows, inr _ => inr (set_tokens rows db)
        | _, _ => inl unique_violation
        end
    end).

Definition to_be_removed (db : KeeperDb.t) (block_number : L2BlockNumber) (r : TokenRow.t) : bool :=
  let address := TokenRow.l2_address r in
  if decide (address = 0) then false
  else match StorageLogsDal.deployed_at db address with
       | Some deployed_at => bool_decide (block_number < deployed_at)
       | None => true
       end.
Definition roll_back_tokens (block_number : L2BlockNumber) : Q () :=
  removed ← query (λ db, TokenRow.l2_address <$> filter (λ r, to_be_removed db block_number r = true) (tokens db));
  execute (λ db, inr (set_tokens (delete_where (λ r, bool_decide (TokenRow.l2_address r ∈ removed)) (tokens db)) db)).
End dal.
End TokensDal.

(** ** [events_dal.rs] *)
Module EventsDal.
(** The entries of a block with their locations, the indices of the entries in the block and in
    the transaction. *)
Definition indexed {A} (entries : list (IncludedTxLocation.t * list A)) : list (IncludedTxLocation.t * (Z * A)) :=
  entries ≫= λ '(location, l), (λ e, (location, e)) <$> TransactionsDal.enumerate l.
Definition event_rows (block_number : L2BlockNumber) (all_block_events : list (IncludedTxLocation.t * list VmEvent.t)) : list EventRow.t :=
  imap (λ i '(location, (index_in_tx, event)),
    EventRow.mk block_number location (Z.of_nat i) index_in_tx (VmEvent.address event) (take 4 (VmEvent.indexed_topics event))
      (VmEvent.value event)) (indexed all_block_events).
Definition save_events (block_number : L2BlockNumber) (all_block_events : list (IncludedTxLocation.t * list VmEvent.t)) : Q () :=
  execute (λ db, match insert_unique EventRow.primary_key (event_rows block_number all_block_events) (events db) with
                 | inl e => inl e | inr rows => inr (set_events rows db) end).
Definition roll_back_events (block_number : L2BlockNumber) : Q () :=
  execute (λ db, inr (set_events (delete_where (λ r, bool_decide (block_number < EventRow.miniblock_number r)) (events db)) db)).

Definition log_rows (block_number : L2BlockNumber) (all_block_logs : list (IncludedTxLocation.t * list UserL2ToL1Log)) : list L2ToL1LogRow.t :=
  imap (λ i '(location, (index_in_tx, UserLog log)),
    L2ToL1LogRow.mk block_number (Z.of_nat i) index_in_tx (IncludedTxLocation.tx_hash location)
      (IncludedTxLocation.tx_index_in_l2_block location) log) (indexed all_block_logs).
Definition save_user_l2_to_l1_logs (block_number : L2BlockNumber) (all_block_logs : list (IncludedTxLocation.t * list UserL2ToL1Log)) : Q () :=
  execute (λ db, match insert_unique L2ToL1LogRow.primary_key (log_rows block_number all_block_logs) (l2_to_l1_logs db) with
                 | inl e => inl e | inr rows => inr (set_l2_to_l1_logs rows db) end).
Definition roll_back_l2_to_l1_logs (block_number : L2BlockNumber) : Q () :=
  execute (λ db, inr (set_l2_to_l1_logs (delete_where (λ r, bool_decide (block_number < L2ToL1LogRow.miniblock_number r))
    (l2_to_l1_logs db)) db)).
End EventsDal.

(** ** [protocol_versions_dal.rs] *)
Module ProtocolVersionsDal.
Definition version_row (db : KeeperDb.t) (id : Z) : option ProtocolVersionRow.t :=
  snd <$> list_find (λ r, ProtocolVersionRow.id r = id) (protocol_versions db).
Definition protocol_version_id_by_timestamp (current_timestamp : Z) : Q ProtocolVersionId :=
  id ← query (λ db, sql_max (ProtocolVersionRow.id <$>
    filter (λ r, ProtocolVersionRow.timestamp r ≤ to_signed 64 current_timestamp) (protocol_versions db)));
  id ← ok_or "no rows returned by a query that expected to return at least one row" id;
  ok_or "invalid protocol version" (protocol_version_from (wrap 16 id)).
Definition load_base_system_contracts_by_version_id (version_id : ProtocolVersionId) : Q (option BaseSystemContracts.t) :=
  row ← query (λ db, version_row db version_id);
  match row with
  | Some row =>
      contracts ← FactoryDepsDal.get_base_system_contracts (ProtocolVersionRow.bootloader_code_hash row)
        (ProtocolVersionRow.default_account_code_hash row);
      mret (Some contracts)
  | None => mret None
  end.
Definition get_protocol_upgrade_tx (protocol_version_id : ProtocolVersionId) : Q (option ProtocolUpgradeTx.t) :=
  hash ← query (λ db, version_row db protocol_version_id ≫= ProtocolVersionRow.upgrade_tx_hash);
  match hash with
  | Some upgrade_tx_hash =>
      tx ← TransactionsDal.get_tx_by_hash upgrade_tx_hash;
      tx ← ok_or "upgrade transaction is not present in storage" tx;
      match Transaction.common_data tx with
      | ProtocolUpgrade data => mret (Some (ProtocolUpgradeTx.mk (Transaction.execute tx) data (Transaction.received_timestamp_ms tx)))
      | _ => fail "tx.common_data is not a protocol upgrade"%string
      end
  | None => mret None
  end.
End ProtocolVersionsDal.

(** ** [snapshot_recovery_dal.rs] *)
Definition get_applied_snapshot_status : Q (option SnapshotRecoveryStatus.t) := query snapshot_recovery.
