(* ===== verification/MempoolFetcher.v ===== *)
(** * The task that fills the mempool

    [node/via_state_keeper/src/mempool_actor.rs]: at every iteration the accounts that the
    mempool has dropped are reported to the database, new transactions are taken from it,
    and go to the mempool with the nonces of their accounts. *)
From S2P Require Import Prelude Types BTreeSet Mempool Abi Sql VmLimits Float Deduplicator FeeModel TxEncoding VmErrors StateDiffs SealCriteria VmInterface KeeperUpdates BatchExecutor StateKeeper KeeperDal MempoolIO KeeperDb.
Local Open Scope Z_scope.
Import KeeperDb TransactionsDal.

(** ** Nonces ([lib/types/src/storage/mod.rs], [storage_web3_dal.rs]) *)
Definition NONCE_HOLDER_ADDRESS : Address := 0x8003.
Definition get_address_mapping_key `{TxLib} (address : Address) (position : H256) : H256 :=
  keccak256 (to_be_bytes 32 address ++ to_be_bytes 32 position).
Definition get_nonce_key `{TxLib} (account : Address) : StorageKey := (NONCE_HOLDER_ADDRESS, get_address_mapping_key account 0).
Definition h256_to_u32 (value : H256) : Z := wrap 32 value.

Section fetcher.
Context `{LT : TxLib, LS : StorageKeyHash}.

Definition get_storage_values (hashed_keys : list H256) (l2_block_number : L2BlockNumber) : Q (gmap H256 (option H256)) :=
  query (λ db, list_to_map ((λ key, (key, StorageLogRow.value <$> StorageLogsDal.latest_log
    (filter (λ r, StorageLogRow.hashed_key r = key ∧ StorageLogRow.miniblock_number r ≤ l2_block_number) (storage_logs db)))) <$> hashed_keys)).
Definition get_sealed_l2_block_number : Q (option L2BlockNumber) :=
  query (λ db, wrap 32 <$> sql_max (MiniblockRow.number <$> miniblocks db)).
Definition get_values (hashed_keys : list H256) : Q (gmap H256 H256) :=
  l2_block_number ← get_sealed_l2_block_number;
  match l2_block_number with
  | None => fail "no sealed l2 blocks"%string
  | Some l2_block_number =>
      storage_map ← get_storage_values hashed_keys l2_block_number;
      mret (default 0 <$> storage_map)
  end.
Definition get_transaction_nonces (transactions : list Transaction.t) : Q (gmap Address Nonce) :=
  let keys := (λ tx, let address := Transaction.initiator_account tx in (hashed_key (get_nonce_key address), address)) <$> transactions in
  let address_by_nonce_key : gmap H256 Address := list_to_map (reverse keys) in
  nonce_values ← get_values keys.*1;
  lift_exec (foldM (λ nonces '(nonce_key, nonce_value),
      address ← expect (address_by_nonce_key !! nonce_key);
      Ret (<[address := h256_to_u32 nonce_value]> nonces)) (∅ : gmap Address Nonce) (map_to_list nonce_values)).

(** [blocks_dal.rs]; [ProtocolVersionId::last_potentially_undefined] is version 9. *)
Definition last_potentially_undefined : ProtocolVersionId := 9.
Definition pending_protocol_version : Q ProtocolVersionId :=
  last_l2_block ← BlocksDal.get_last_sealed_l2_block_header;
  match last_l2_block with
  | Some last_l2_block => mret (default last_potentially_undefined (L2BlockHeader.protocol_version last_l2_block))
  | None =>
      snapshot ← get_applied_snapshot_status;
      snapshot_recovery ← ok_or "storage contains neither L2 blocks, nor snapshot recovery info"%string snapshot;
      mret (SnapshotRecoveryStatus.protocol_version snapshot_recovery)
  end.
End fetcher.

(** ** The task *)
Module MempoolFetcher.
Record t := mk { mempool : MempoolStore.t; pool : KeeperDb.t; sync_batch_size : nat; stuck_tx_timeout : option Z }.
Abbreviation M A := (prog t string A).
(** [config] has the timeout in seconds. *)
Definition new (mempool : MempoolStore.t) (pool : KeeperDb.t) (sync_batch_size : nat) (remove_stuck_txs : bool) (stuck_tx_timeout : Z) : t :=
  mk mempool pool sync_batch_size (if remove_stuck_txs then Some (stuck_tx_timeout * 1000) else None).
Definition with_mempool (self : t) (mempool : MempoolStore.t) : t := mk mempool (pool self) (sync_batch_size self) (stuck_tx_timeout self).
Definition with_pool (self : t) (pool : KeeperDb.t) : t := mk (mempool self) pool (sync_batch_size self) (stuck_tx_timeout self).
Definition on_pool {A} (op : Q A) : M A := λ self, '(r, pool) ← op (pool self); Ret (r, with_pool self pool).

Section task.
Context `{LT : TxLib, LS : StorageKeyHash}.
(** What the fee provider answers, and what the state keeper does to the mempool before the
    transactions are there. *)
Implicit Types (fee : string + Types.BatchFeeInput) (meanwhile : MempoolStore.t → MempoolStore.t).

(** An iteration of [run]: whether it has taken all the transactions there are. *)
Definition fetch fee meanwhile : M bool :=
  self ← get;
  let '(mempool, mempool_info) := MempoolStore.get_mempool_info (mempool self) in
  _ ← put (with_mempool self mempool);
  protocol_version ← on_pool pending_protocol_version;
  l2_tx_filter ← lift_exec (l2_tx_filter fee (vm_version protocol_version));
  l2_tx_filter ← of_result l2_tx_filter;
  transactions ← on_pool (sync_mempool (MempoolInfo.stashed_accounts mempool_info) (MempoolInfo.purged_accounts mempool_info)
    (L2TxFilter.gas_per_pubdata l2_tx_filter) (L2TxFilter.fee_per_gas l2_tx_filter) (sync_batch_size self));
  nonces ← on_pool (get_transaction_nonces transactions);
  self ← get;
  mempool ← lift_exec (MempoolStore.insert (meanwhile (MempoolFetcher.mempool self)) transactions nonces);
  _ ← put (with_mempool self mempool);
  mret (bool_decide (length transactions < sync_batch_size self)%nat).
(** Until the stop signal comes. *)
Definition run (now : Z) (iterations : list ((string + Types.BatchFeeInput) * (MempoolStore.t → MempoolStore.t))) : M () :=
  self ← get;
  _ ← match stuck_tx_timeout self with Some timeout => on_pool (remove_stuck_txs now timeout) | None => mret () end;
  _ ← on_pool reset_mempool;
  foldP (λ _ '(fee, meanwhile), _ ← fetch fee meanwhile; mret ()) () iterations.
End task.
End MempoolFetcher.

(** ** What an iteration does *)
Module FetcherLaws.
Import MempoolFetcher.
Section laws.
Context `{LT : TxLib, LS : StorageKeyHash}.
Implicit Types (fee : string + Types.BatchFeeInput) (meanwhile : MempoolStore.t → MempoolStore.t) (db : KeeperDb.t).

(** *** What the mempool is to have *)
(** A row that waits for a block, and a transaction that the mempool takes at these fees:
    a priority operation whatever it pays, another one if it offers them, an upgrade never. *)
Definition pending (row : TransactionRow.t) : Prop := TransactionRow.miniblock_number row = None ∧ TransactionRow.error row = None.
Definition affordable (fee_per_gas gas_per_pubdata : Z) (tx : Transaction.t) : Prop :=
  match Transaction.common_data tx with
  | L1 _ => True
  | L2 data => fee_per_gas ≤ Fee.max_fee_per_gas (L2TxCommonData.fee data) ∧ gas_per_pubdata ≤ Fee.gas_per_pubdata_limit (L2TxCommonData.fee data)
  | ProtocolUpgrade _ => False
  end.
Definition is_l1 (tx : Transaction.t) : Prop := match Transaction.common_data tx with L1 _ => True | _ => False end.

(** [txs] are handed over at these fees, at most [limit] of them, and the marks of the rows
    follow. *)
Record handed_over (fee_per_gas gas_per_pubdata : Z) (limit : nat) (before after : list TransactionRow.t) (txs : list Transaction.t) : Prop := {
  handed_limit : (length txs ≤ limit)%nat;
  handed_rows : ∀ tx, tx ∈ txs → affordable fee_per_gas gas_per_pubdata tx ∧
    ∃ row, row ∈ after ∧ TransactionRow.transaction row = tx ∧ pending row ∧ TransactionRow.in_mempool row = true;
  handed_marks : ∀ row, row ∈ after → TransactionRow.in_mempool row = true →
    row ∈ before ∨ ∃ row', row' ∈ after ∧ TransactionRow.hash row' = TransactionRow.hash row ∧ TransactionRow.transaction row' ∈ txs;
  handed_all : (length txs < limit)%nat → ∀ row, row ∈ after → pending row → affordable fee_per_gas gas_per_pubdata (TransactionRow.transaction row) →
    TransactionRow.in_mempool row = true;
  handed_priority : ∀ tx, tx ∈ txs → ¬ is_l1 tx → ∀ row, row ∈ after → pending row → is_l1 (TransactionRow.transaction row) →
    TransactionRow.in_mempool row = true;
}.

Lemma for_mempool_spec gas_per_pubdata fee_per_gas r :
  for_mempool gas_per_pubdata fee_per_gas r = true ↔
  pending r ∧ TransactionRow.in_mempool r = false ∧ affordable fee_per_gas gas_per_pubdata (TransactionRow.transaction r).
Proof.
  unfold for_mempool, waiting, pending, affordable. rewrite !andb_true_iff, negb_true_iff, !bool_decide_eq_true.
  destruct (Transaction.common_data _); rewrite ?andb_true_iff, ?bool_decide_eq_true; naive_solver.
Qed.

Lemma mempool_order_perm rows : mempool_order rows ≡ₚ rows.
Proof.
  unfold mempool_order, order_by. rewrite !merge_sort_Permutation. induction rows as [|r rows IH]; [done|].
  rewrite !filter_cons. destruct (is_priority (TransactionRow.transaction r)).
  - rewrite decide_True, decide_False by done. cbn. by rewrite IH.
  - rewrite decide_False, decide_True, <-Permutation_middle by done. by rewrite IH.
Qed.
Lemma taken_rows gas_per_pubdata fee_per_gas limit db txs db' :
  take_for_mempool gas_per_pubdata fee_per_gas limit db = Ret (inr txs, db') →
  ∃ rows, rows = take limit (mempool_order (filter (λ r, for_mempool gas_per_pubdata fee_per_gas r = true) (transactions db))) ∧
    txs = TransactionRow.transaction <$> order_by TransactionRow.hash rows ∧
    transactions db' = update_where (λ r, bool_decide (TransactionRow.hash r ∈ (TransactionRow.hash <$> rows))) (with_in_mempool true) (transactions db).
Proof. unfold take_for_mempool. intros [= <- <-]. eauto. Qed.

(** A row of the table afterwards is a row from before, marked if it has been taken. *)
Lemma taken_row {rows before : list TransactionRow.t} {row} :
  row ∈ update_where (λ r, bool_decide (TransactionRow.hash r ∈ (TransactionRow.hash <$> rows))) (with_in_mempool true) before →
  ∃ r, r ∈ before ∧ (TransactionRow.hash r ∈ (TransactionRow.hash <$> rows) ∧ row = with_in_mempool true r ∨
    (TransactionRow.hash r ∉ (TransactionRow.hash <$> rows)) ∧ row = r).
Proof. intros (r & -> & Hr)%list_elem_of_fmap. exists r. split; [done|]. case_bool_decide; naive_solver. Qed.
(** A row that the filter selects and the limit leaves out is unmarked. *)
Lemma taken_pending {rows before : list TransactionRow.t} {row} fee_per_gas gas_per_pubdata :
  (∀ r, r ∈ before → for_mempool gas_per_pubdata fee_per_gas r = true → affordable fee_per_gas gas_per_pubdata (TransactionRow.transaction r) →
     TransactionRow.transaction r = TransactionRow.transaction row → r ∈ rows) →
  row ∈ update_where (λ r, bool_decide (TransactionRow.hash r ∈ (TransactionRow.hash <$> rows))) (with_in_mempool true) before →
  pending row → affordable fee_per_gas gas_per_pubdata (TransactionRow.transaction row) → TransactionRow.in_mempool row = true.
Proof.
  intros Hall (r & Hr & [[_ ->]|[Hn ->]])%taken_row Hp Ha; [done|]. destruct (TransactionRow.in_mempool r) eqn:Em; [done|].
  destruct Hn. apply list_elem_of_fmap. exists r. split; [done|]. apply Hall; try done. by apply for_mempool_spec.
Qed.
(** The priority operations come first. *)
Lemma taken_priority limit rows r r' :
  r ∈ take limit (mempool_order rows) → is_priority (TransactionRow.transaction r) = false →
  r' ∈ rows → is_priority (TransactionRow.transaction r') = true → r' ∈ take limit (mempool_order rows).
Proof.
  unfold mempool_order. set (first := order_by _ _). set (second := order_by _ _). intros Hr Hp Hr' Hp'.
  assert (Hfirst : r' ∈ first) by (unfold first, order_by; rewrite merge_sort_Permutation; by apply list_elem_of_filter).
  assert (Hnot : r ∉ first) by (unfold first, order_by; rewrite merge_sort_Permutation; intros [? _]%list_elem_of_filter; congruence).
  rewrite take_app in Hr |- *. apply elem_of_app in Hr as [Hr|Hr]; [by apply (subseteq_take limit) in Hr|].
  apply elem_of_app. left. destruct (decide (length first ≤ limit)%nat) as [Hl|Hl]; [by rewrite take_ge|].
  replace (limit - length first)%nat with 0%nat in Hr by lia. by apply elem_of_nil in Hr.
Qed.

(** What [take_for_mempool] takes, for any table before that has all its marked rows. *)
Lemma taken_handed_over gas_per_pubdata fee_per_gas limit before db txs db' :
  (∀ row, row ∈ transactions db → TransactionRow.in_mempool row = true → row ∈ before) →
  take_for_mempool gas_per_pubdata fee_per_gas limit db = Ret (inr txs, db') →
  handed_over fee_per_gas gas_per_pubdata limit before (transactions db') txs.
Proof.
  intros Hbefore (rows & Erows & -> & ->)%taken_rows. set (wanted := filter (λ r, for_mempool gas_per_pubdata fee_per_gas r = true) (transactions db)) in *.
  assert (Hrows : ∀ r, r ∈ rows → r ∈ transactions db ∧ pending r ∧ affordable fee_per_gas gas_per_pubdata (TransactionRow.transaction r)).
  { intros r Hr. rewrite Erows in Hr. apply subseteq_take in Hr. rewrite mempool_order_perm in Hr.
    apply list_elem_of_filter in Hr as [(? & _ & ?)%for_mempool_spec ?]. done. }
  assert (Htxs : ∀ tx, tx ∈ (TransactionRow.transaction <$> order_by TransactionRow.hash rows) ↔ ∃ r, tx = TransactionRow.transaction r ∧ r ∈ rows).
  { intros tx. rewrite list_elem_of_fmap. by setoid_rewrite merge_sort_Permutation. }
  assert (Hlen : length (TransactionRow.transaction <$> order_by TransactionRow.hash rows) = length rows).
  { rewrite length_fmap. unfold order_by. by rewrite merge_sort_Permutation. }
  split.
  - rewrite Hlen, Erows, length_take. lia.
  - intros tx (r & -> & Hr)%Htxs. destruct (Hrows r Hr) as (Hin & Hp & Ha). split; [done|]. exists (with_in_mempool true r).
    split_and!; try done. apply list_elem_of_fmap. exists r. split; [|done]. rewrite bool_decide_eq_true_2; [done|]. apply list_elem_of_fmap. by exists r.
  - intros row (r & Hr & [[Hh ->]|[_ ->]])%taken_row Hm; [|by left; apply Hbefore]. right. apply list_elem_of_fmap in Hh as (r' & Eh & Hr').
    exists (with_in_mempool true r'). split_and!; [|done|apply Htxs; by exists r']. apply list_elem_of_fmap. exists r'. split; [|by apply Hrows].
    rewrite bool_decide_eq_true_2; [done|]. apply list_elem_of_fmap. by exists r'.
  - intros Hl row Hrow. eapply taken_pending; [|done]. intros r Hr Hf _ _. rewrite Hlen, Erows, length_take in Hl.
    rewrite Erows, take_ge by lia. rewrite mempool_order_perm. by apply list_elem_of_filter.
  - intros tx (r & -> & Hr)%Htxs Hl1 row Hrow Hp Hrl1. eapply (taken_pending fee_per_gas gas_per_pubdata); [|exact Hrow|exact Hp|].
    + intros r' Hr' Hf _ Et. rewrite Erows in Hr |- *. destruct (Hrows r) as (_ & _ & Ha); [by rewrite Erows|]. eapply taken_priority; try done.
      * unfold is_priority, is_l1, affordable in *. by destruct (Transaction.common_data (TransactionRow.transaction r)).
      * by apply list_elem_of_filter.
      * rewrite Et. unfold is_priority, is_l1 in *. by destruct (Transaction.common_data (TransactionRow.transaction row)).
    + unfold affordable, is_l1 in *. by destruct (Transaction.common_data (TransactionRow.transaction row)).
Qed.

(** *** Nothing panics *)
Lemma insert_returns mempool txs nonces :
  Forall (λ tx, match Transaction.common_data tx with ProtocolUpgrade _ => False | _ => True end) txs →
  ∃ mempool', MempoolStore.insert mempool txs nonces = Ret mempool'.
Proof.
  intros Htxs. revert mempool. unfold MempoolStore.insert. induction Htxs as [|tx txs Htx Htxs IH]; intros mempool; cbn [foldM]; [by eexists|].
  assert (∃ m1, MempoolStore.insert_one nonces mempool tx = Ret m1) as [m1 ->] by (unfold MempoolStore.insert_one; destruct (Transaction.common_data tx); by eauto).
  apply IH.
Qed.
Lemma values_return keys db :
  (∃ e, get_values keys db = Ret (inl e, db)) ∨ (∃ values, get_values keys db = Ret (inr values, db) ∧ ∀ key v, values !! key = Some v → key ∈ keys).
Proof.
  unfold get_values. rewrite (prog_bind_step _ _ _ _ _ eq_refl). destruct (_ <$> sql_max _) as [n|]; [|by left; eexists].
  right. eexists. split; [reflexivity|]. intros key v. rewrite lookup_fmap. intros (o & Ho & _)%fmap_Some.
  apply elem_of_list_to_map_2, list_elem_of_fmap in Ho as (k & [= -> _] & Hk). done.
Qed.
Lemma nonces_return txs db : ∃ r, get_transaction_nonces txs db = Ret (r, db).
Proof.
  unfold get_transaction_nonces. cbn zeta. set (keys := _ <$> txs). set (addresses := list_to_map (reverse keys) : gmap H256 Address).
  destruct (values_return keys.*1 db) as [[e E]|(values & E & Hv)].
  { unfold mbind, prog_bind. rewrite E. by eexists. }
  rewrite (prog_bind_step _ _ _ _ _ E). clear E.
  assert (Hl : Forall (λ kv, is_Some (addresses !! kv.1)) (map_to_list values)).
  { apply Forall_forall. intros [key v] Hk%elem_of_map_to_list%Hv. apply not_eq_None_Some. intros Hn%not_elem_of_list_to_map_2. apply Hn.
    cbn in *. by rewrite fmap_reverse, elem_of_reverse. }
  clear Hv. revert Hl. generalize (map_to_list values) as l, (∅ : gmap Address Nonce) as acc.
  induction l as [|[key v] l IH]; intros acc Hl; cbn [foldM]; [by eexists|]. apply Forall_cons in Hl as [[a Ha] Hl]. cbn in Ha.
  rewrite Ha. cbn. by apply IH.
Qed.

Lemma last_header_keeps db r db' : BlocksDal.get_last_sealed_l2_block_header db = Ret (r, db') → db' = db.
Proof.
  unfold BlocksDal.get_last_sealed_l2_block_header. rewrite (prog_bind_step (query _) _ _ _ _ eq_refl).
  match goal with |- BlocksDal.header_of_row ?o db = _ → _ => destruct o as [row|] end; [|by intros [= _ <-]].
  cbn. destruct (BlocksDal.header_from row) as [h|]; [|done]. by intros [= _ <-].
Qed.
Lemma version_keeps db r db' : pending_protocol_version db = Ret (r, db') → db' = db.
Proof.
  unfold pending_protocol_version. destruct (BlocksDal.get_last_sealed_l2_block_header db) as [[[e|h] db1]|] eqn:E.
  - pose proof (last_header_keeps _ _ _ E) as ->. unfold mbind, prog_bind. rewrite E. by intros [= _ <-].
  - pose proof (last_header_keeps _ _ _ E) as ->. rewrite (prog_bind_step _ _ _ _ _ E). destruct h as [h|]; [by intros [= _ <-]|].
    rewrite (prog_bind_step get_applied_snapshot_status _ _ _ _ eq_refl). destruct (snapshot_recovery db); by intros [= _ <-].
  - unfold mbind, prog_bind. by rewrite E.
Qed.
(** What is taken after the mempool's report. *)
Lemma sync_hands_over stashed purged gas_per_pubdata fee_per_gas limit db :
  ∃ txs db', sync_mempool stashed purged gas_per_pubdata fee_per_gas limit db = Ret (inr txs, db') ∧
    handed_over fee_per_gas gas_per_pubdata limit (transactions db) (transactions db') txs.
Proof.
  unfold sync_mempool. rewrite (prog_bind_step (unstash stashed) _ _ () _ eq_refl), (prog_bind_step (delete_purged purged) _ _ () _ eq_refl).
  match goal with |- context [take_for_mempool _ _ _ ?d] => set (db1 := d) end.
  destruct (take_for_mempool _ _ limit db1) as [[[e|txs] db']|] eqn:E; [done| |done]. exists txs, db'. split; [done|].
  eapply taken_handed_over; [|done]. intros row [_ (r & -> & Hr)%list_elem_of_fmap]%list_elem_of_filter Hm.
  by destruct (TransactionRow.in_mempool r && _).
Qed.
Lemma handed_no_upgrade fee_per_gas gas_per_pubdata limit before after txs : handed_over fee_per_gas gas_per_pubdata limit before after txs →
  Forall (λ tx, match Transaction.common_data tx with ProtocolUpgrade _ => False | _ => True end) txs.
Proof.
  intros H. apply Forall_forall. intros tx [Ha _]%(handed_rows _ _ _ _ _ _ H). unfold affordable in Ha. by destruct (Transaction.common_data tx).
Qed.
Lemma fetcher_pool_step {A} (op : Q A) s r db : op (pool s) = Ret (r, db) → on_pool op s = Ret (r, with_pool s db).
Proof. intros E. unfold on_pool. by rewrite E. Qed.

(** C26 An iteration of the task that fills the mempool never panics, whatever the mempool and
    the tables hold, if reading the header of the last block does not panic and neither does
    deriving the fees from what the fee provider answers. If it succeeds, the fees are those
    derived from the provider's answer for the protocol version of the last block, and the
    mempool gets at most [sync_batch_size] transactions with the nonces read for them: each
    has a row that waits for a block and is marked, and it is a priority operation or
    offers both fees - never an upgrade, which the mempool does not take. Nothing else has
    become marked. If they are fewer than asked for, which the result tells, every
    transaction that waits for a block and is a priority operation or offers the fees is
    marked; and no other transaction is taken while a priority operation is left behind. *)
Theorem fetch_fills_mempool fee meanwhile s :
  pending_protocol_version (pool s) ≠ Panic →
  (∀ version db', pending_protocol_version (pool s) = Ret (inr version, db') → l2_tx_filter fee (vm_version version) ≠ Panic) →
  ∃ r s', fetch fee meanwhile s = Ret (r, s') ∧
    ∀ loaded, r = inr loaded → ∃ fee_input version base_fee gas_per_pubdata txs nonces,
      fee = inr fee_input ∧ pending_protocol_version (pool s) = Ret (inr version, pool s) ∧
      derive_base_fee_and_gas_per_pubdata fee_input (vm_version version) = Ret (base_fee, gas_per_pubdata) ∧
      handed_over base_fee (wrap 32 gas_per_pubdata) (sync_batch_size s) (transactions (pool s)) (transactions (pool s')) txs ∧
      get_transaction_nonces txs (pool s') = Ret (inr nonces, pool s') ∧
      MempoolStore.insert (meanwhile (MempoolStore.get_mempool_info (mempool s)).1) txs nonces = Ret (mempool s') ∧
      loaded = bool_decide (length txs < sync_batch_size s)%nat.
Proof.
  intros Hv Hfee. unfold fetch. rewrite (prog_bind_step get _ _ _ _ eq_refl).
  destruct (MempoolStore.get_mempool_info (mempool s)) as [mempool1 info]. rewrite (prog_bind_step (put _) _ _ _ _ eq_refl).
  set (s1 := with_mempool s mempool1). cbn [fst].
  destruct (pending_protocol_version (pool s)) as [[[e|version] db1]|] eqn:Ev; [| |done]; pose proof (version_keeps _ _ _ Ev) as ->.
  { exists (inl e), s1. split; [|done]. unfold mbind, prog_bind. rewrite (fetcher_pool_step _ s1 _ _ Ev). by destruct s. }
  rewrite (prog_bind_step _ _ _ _ _ (fetcher_pool_step _ s1 _ _ Ev)). specialize (Hfee version _ eq_refl).
  destruct (l2_tx_filter fee (vm_version version)) as [[e|filter]|] eqn:Ef; [| |done].
  { eexists (inl e), _. by split; [reflexivity|]. }
  destruct fee as [e|fee_input]; [done|]. cbn in Ef. destruct (derive_base_fee_and_gas_per_pubdata fee_input (vm_version version)) as [[base_fee gas_per_pubdata]|] eqn:Ed;
    [|done]. injection Ef as <-. set (filter := L2TxFilter.mk _ _ _).
  rewrite (prog_bind_step (lift_exec (Ret (inr filter))) _ _ (inr filter) (with_pool s1 (pool s))), (prog_bind_step (of_result (inr filter)) _ _ filter (with_pool s1 (pool s))) by done.
  destruct (sync_hands_over (MempoolInfo.stashed_accounts info) (MempoolInfo.purged_accounts info) (wrap 32 gas_per_pubdata) base_fee (sync_batch_size s) (pool s))
    as (txs & db' & Es & Hover).
  set (s2 := with_pool s1 (pool s)). rewrite (prog_bind_step _ _ _ _ _ (fetcher_pool_step _ s2 _ _ Es)).
  destruct (nonces_return txs db') as [[e|nonces] En].
  { eexists (inl e), _. split; [|done]. unfold mbind, prog_bind. rewrite (fetcher_pool_step _ (with_pool s2 db') _ _ En). reflexivity. }
  rewrite (prog_bind_step _ _ _ _ _ (fetcher_pool_step _ (with_pool s2 db') _ _ En)), (prog_bind_step get _ _ _ _ eq_refl).
  destruct (insert_returns (meanwhile mempool1) txs nonces (handed_no_upgrade _ _ _ _ _ _ Hover)) as [mempool2 Ei].
  rewrite (prog_bind_step (lift_exec _) _ _ mempool2 (with_pool s2 db')); [|by unfold lift_exec; cbn; rewrite Ei].
  rewrite (prog_bind_step (put _) _ _ _ _ eq_refl).
  eexists (inr _), _. split; [reflexivity|]. intros loaded [= <-]. by exists fee_input, version, base_fee, gas_per_pubdata, txs, nonces.
Qed.
End laws.
End FetcherLaws.
