(* ===== verification/Persistence.v ===== *)
(** * Writing blocks and batches to the database

    The output handlers of the state keeper of [io/persistence.rs] and the sealing of
    blocks and batches of [io/seal_logic/{mod,l2_block_seal_subtasks}.rs]. The data of a
    block are written by six subtasks, each a statement or a transaction of its own, on
    connections of their own and in any order; the header of the block is written last.
    A block without a header is a pending one, which is removed before the node starts
    again. A batch is written in one transaction, with its last, empty block. *)
From S2P Require Import Prelude Types Abi Sql VmLimits Float Deduplicator FeeModel TxEncoding VmErrors StateDiffs SealCriteria VmInterface KeeperUpdates BatchExecutor StateKeeper KeeperDal KeeperDb.
Local Open Scope Z_scope.

(** [ethabi::decode(&[String, String, Uint(8)], ..)] *)
Class TokenAbi := { abi_decode_token : list byte → option (string * string * U256) }.

Definition CONTRACT_DEPLOYER_ADDRESS : Address := 0x8006.
Definition DEPLOY_EVENT_SIGNATURE : H256 := 0x290afdae231a3fc0bbae8b1af63698b0a1d79b21ad17df0342dfb952fe74f8e5.
Definition h256_to_account_address (value : H256) : Address := value mod 2 ^ 160.

(** ** [L2BlockSealCommand] *)
Module SealCommand.
Import L2BlockSealCommand.
Section command.
Context `{TxLib, KeeperLib, TokenAbi, StorageKeyHash, CopyText}.
Implicit Types self : L2BlockSealCommand.t.

Definition number self : L2BlockNumber := L2BlockUpdates.number (l2_block self).
Definition executed self : list TxResult := L2BlockUpdates.executed_transactions (l2_block self).
Definition is_l2_block_fictive self : bool := match executed self with [] => true | _ => false end.

Definition ensure_valid_l2_block self (is_fictive : bool) : string + () :=
  if negb (Bool.eqb is_fictive (is_l2_block_fictive self)) then
    inl (if is_fictive then "fictive L2 block must not have transactions" else "non-fictive L2 block must have at least one transaction")%string
  else
    let next_tx_index := wrap 64 (first_tx_index self + byte_len (executed self)) in
    let '(from, to) := if is_fictive then (next_tx_index, wrap 64 (next_tx_index + 1)) else (first_tx_index self, next_tx_index) in
    if decide (Forall (λ event, from ≤ (VmEvent.location event).2 < to) (L2BlockUpdates.events (l2_block self)))
    then inr () else inl "event transaction index is outside of the expected range"%string.

Definition extract_deduplicated_write_logs self : exec (list (StorageKey * H256)) :=
  deduplicator ← StorageWritesDeduplicator.apply StorageWritesDeduplicator.new
    (filter (λ log, StorageLog.is_write (StorageLogWithPreviousValue.log log) = true) (L2BlockUpdates.storage_logs (l2_block self)));
  Ret ((λ d : StorageKey * ModifiedSlot.t, (d.1, ModifiedSlot.value d.2)) <$>
       map_to_list (StorageWritesDeduplicator.modified_key_values deduplicator)).

(** An index below the first one wraps around and is out of range. *)
Definition transaction self (index : Z) : exec Transaction.t :=
  res ← expect (if decide (first_tx_index self ≤ index) then executed self !! Z.to_nat (index - first_tx_index self) else None);
  Ret (TransactionExecutionResult.transaction res).

Definition location_of self (is_fictive : bool) (tx_index : Z) : exec IncludedTxLocation.t :=
  '(tx_hash, tx_initiator_address) ← (if is_fictive then assert_then (bool_decide (tx_index = first_tx_index self)) (Ret (0, 0))
    else tx ← transaction self tx_index; hash ← transaction_hash tx; Ret (hash, Transaction.initiator_account tx));
  Ret (IncludedTxLocation.mk tx_hash (wrap 32 (tx_index - wrap 32 (first_tx_index self))) tx_initiator_address).
Definition group_by_tx_location {A} self (entries : list A) (is_fictive : bool) (tx_location : A → Z)
    : exec (list (IncludedTxLocation.t * list A)) :=
  mapM (λ '(tx_index, entries), location ← location_of self is_fictive tx_index; Ret (location, entries))
    (TransactionsDal.group_by tx_location entries).
Definition extract_events self (is_fictive : bool) : exec (list (IncludedTxLocation.t * list VmEvent.t)) :=
  group_by_tx_location self (L2BlockUpdates.events (l2_block self)) is_fictive (λ event, (VmEvent.location event).2).
Definition extract_user_l2_to_l1_logs self (is_fictive : bool) : exec (list (IncludedTxLocation.t * list UserL2ToL1Log)) :=
  group_by_tx_location self (L2BlockUpdates.user_l2_to_l1_logs (l2_block self)) is_fictive
    (λ '(UserLog log), L2ToL1Log.tx_number_in_block log).

(** *** Tokens ([l2_block_seal_subtasks.rs]) *)
Definition BRIDGE_INITIALIZATION_SIGNATURE_OLD : H256 :=
  keccak256 (String.list_byte_of_string "BridgeInitialization(address,string,string,uint8)").
Definition BRIDGE_INITIALIZATION_SIGNATURE_NEW : H256 :=
  keccak256 (String.list_byte_of_string "BridgeInitialize(address,string,string,uint8)").

Definition token_initialized (l2_token_address : Address) (event : VmEvent.t) : exec bool :=
  if decide (VmEvent.address event = l2_token_address) then
    topic ← expect (VmEvent.indexed_topics event !! 0%nat);
    Ret (bool_decide (topic = BRIDGE_INITIALIZATION_SIGNATURE_NEW ∨ topic = BRIDGE_INITIALIZATION_SIGNATURE_OLD))
  else Ret false.
Fixpoint find_event (p : VmEvent.t → exec bool) (events : list VmEvent.t) : exec (option VmEvent.t) :=
  match events with
  | [] => Ret None
  | event :: events => found ← p event; if (found : bool) then Ret (Some event) else find_event p events
  end.
Definition token_info (l2_token_address : Address) (event : VmEvent.t) : exec TokenInfo.t :=
  topic ← expect (VmEvent.indexed_topics event !! 1%nat);
  '(name, symbol, decimals) ← expect (abi_decode_token (VmEvent.value event));
  assert_then (bool_decide (decimals < 2 ^ 32))
    (Ret (TokenInfo.mk (h256_to_account_address topic) l2_token_address name symbol (wrap 8 decimals))).
Definition extract_added_token_info_from_addresses (all_generated_events : list VmEvent.t) (deployed_tokens : list Address)
    : exec (list TokenInfo.t) :=
  foldM (λ acc l2_token_address,
    event ← find_event (token_initialized l2_token_address) all_generated_events;
    match event with
    | Some event => info ← token_info l2_token_address event; Ret (acc ++ [info])
    | None => Ret acc
    end) [] deployed_tokens.
(** The address of a token that the bridge has deployed; the event has four topics. *)
Definition deployed_token (l2_shared_bridge_addr : Address) (event : VmEvent.t) : option Address :=
  match VmEvent.indexed_topics event with
  | [topic0; topic1; _; topic3] =>
      if decide (VmEvent.address event = CONTRACT_DEPLOYER_ADDRESS ∧ topic0 = DEPLOY_EVENT_SIGNATURE ∧
                 h256_to_account_address topic1 = l2_shared_bridge_addr) then Some (h256_to_account_address topic3) else None
  | _ => None
  end.
Definition extract_added_tokens (l2_shared_bridge_addr : Address) (all_generated_events : list VmEvent.t) : exec (list TokenInfo.t) :=
  extract_added_token_info_from_addresses all_generated_events (omap (deployed_token l2_shared_bridge_addr) all_generated_events).
End command.
End SealCommand.

(** ** Subtasks *)
Inductive Subtask :=
| MarkTransactionsInL2Block
| InsertStorageLogs
| InsertFactoryDeps
| InsertTokens
| InsertEvents
| InsertL2ToL1Logs.
#[export] Instance subtask_eq_dec : EqDecision Subtask.
Proof. solve_decision. Defined.
Definition all_subtasks : list Subtask :=
  [MarkTransactionsInL2Block; InsertStorageLogs; InsertFactoryDeps; InsertTokens; InsertEvents; InsertL2ToL1Logs].

Section subtasks.
Context `{TxLib, KeeperLib, TokenAbi, StorageKeyHash, CopyText}.
Import L2BlockSealCommand SealCommand.

(** [L2BlockSealSubtask::run]; [now] is the time of the database. *)
Definition subtask_run (now : Z) (subtask : Subtask) (command : L2BlockSealCommand.t) : Q () :=
  let block := l2_block command in
  let is_fictive := is_l2_block_fictive command in
  match subtask with
  | MarkTransactionsInL2Block =>
      TransactionsDal.mark_txs_as_executed_in_l2_block now (number command) (executed command) (base_fee_per_gas command) (pre_insert_txs command)
  | InsertStorageLogs =>
      write_logs ← lift_exec (extract_deduplicated_write_logs command);
      StorageLogsDal.insert_storage_logs (number command) write_logs
  | InsertFactoryDeps =>
      if decide (L2BlockUpdates.new_factory_deps block = ∅) then mret ()
      else FactoryDepsDal.insert_factory_deps (number command) (L2BlockUpdates.new_factory_deps block)
  | InsertTokens =>
      added_tokens ← lift_exec (extract_added_tokens (l2_shared_bridge_addr command) (L2BlockUpdates.events block));
      match added_tokens with [] => mret () | _ => TokensDal.add_tokens added_tokens end
  | InsertEvents =>
      l2_block_events ← lift_exec (extract_events command is_fictive);
      EventsDal.save_events (number command) l2_block_events
  | InsertL2ToL1Logs =>
      user_l2_to_l1_logs ← lift_exec (extract_user_l2_to_l1_logs command is_fictive);
      match user_l2_to_l1_logs with [] => mret () | _ => EventsDal.save_user_l2_to_l1_logs (number command) user_l2_to_l1_logs end
  end.

(** [L2BlockSealSubtask::rollback] *)
Definition subtask_rollback (subtask : Subtask) (last_sealed_l2_block : L2BlockNumber) : Q () :=
  match subtask with
  | MarkTransactionsInL2Block => TransactionsDal.reset_transactions_state last_sealed_l2_block
  | InsertStorageLogs => StorageLogsDal.roll_back_storage_logs last_sealed_l2_block
  | InsertFactoryDeps => FactoryDepsDal.roll_back_factory_deps last_sealed_l2_block
  | InsertTokens => TokensDal.roll_back_tokens last_sealed_l2_block
  | InsertEvents => EventsDal.roll_back_events last_sealed_l2_block
  | InsertL2ToL1Logs => EventsDal.roll_back_l2_to_l1_logs last_sealed_l2_block
  end.

(** [L2BlockSealProcess::run_subtasks] with [SealStrategy::Sequential]. *)
Definition run_subtasks (now : Z) (command : L2BlockSealCommand.t) : Q () :=
  foldP (λ _ subtask, subtask_run now subtask command) () all_subtasks.
Definition clear_pending_l2_block (last_sealed_l2_block : L2BlockNumber) : Q () :=
  foldP (λ _ subtask, subtask_rollback subtask last_sealed_l2_block) () all_subtasks.

(** ** Sealing a block ([seal_logic/mod.rs]) *)
Definition l1_l2_tx_count (executed_transactions : list TxResult) : Z * Z :=
  let is_l1 res := match Transaction.common_data (TransactionExecutionResult.transaction res) with L1 _ => true | _ => false end in
  (byte_len (filter (λ res, is_l1 res = true) executed_transactions), byte_len (filter (λ res, is_l1 res = false) executed_transactions)).

Definition l2_block_header (command : L2BlockSealCommand.t) : L2BlockHeader.t :=
  let block := l2_block command in
  let '(l1_tx_count, l2_tx_count) := l1_l2_tx_count (executed command) in {|
  L2BlockHeader.number := L2BlockUpdates.number block;
  L2BlockHeader.timestamp := L2BlockUpdates.timestamp block;
  L2BlockHeader.hash := L2BlockUpdates.get_l2_block_hash block;
  L2BlockHeader.l1_tx_count := wrap 16 l1_tx_count;
  L2BlockHeader.l2_tx_count := wrap 16 l2_tx_count;
  L2BlockHeader.fee_account_address := fee_account_address command;
  L2BlockHeader.base_fee_per_gas := base_fee_per_gas command;
  L2BlockHeader.batch_fee_input := fee_input command;
  L2BlockHeader.base_system_contracts_hashes := base_system_contracts_hashes command;
  L2BlockHeader.protocol_version := protocol_version command;
  L2BlockHeader.virtual_blocks := L2BlockUpdates.virtual_blocks block;
|}.
(** [L2BlockSealCommand::seal_inner] with [SealStrategy::Sequential]. *)
Definition seal_inner (now : Z) (command : L2BlockSealCommand.t) (is_fictive : bool) : Q () :=
  _ ← of_result (ensure_valid_l2_block command is_fictive);
  _ ← run_subtasks now command;
  BlocksDal.insert_l2_block (l2_block_header command).

(** ** Sealing a batch *)
Definition is_write (log : StorageLog.t) : Prop := StorageLog.is_write log = true.
Definition l1_batch_row (self : UpdatesManager.t) (finished_batch : FinishedL1Batch.t) (l2_to_l1_messages : list (list byte)) : L1BatchRow.t :=
  let batch := UpdatesManager.l1_batch self in
  let state := FinishedL1Batch.final_execution_state finished_batch in
  let '(l1_tx_count, l2_tx_count) := l1_l2_tx_count (L1BatchUpdates.executed_transactions batch) in {|
  L1BatchRow.number := L1BatchUpdates.number batch;
  L1BatchRow.timestamp := to_signed 64 (UpdatesManager.batch_timestamp self);
  L1BatchRow.l1_tx_count := wrap 16 l1_tx_count;
  L1BatchRow.l2_tx_count := wrap 16 l2_tx_count;
  L1BatchRow.l2_to_l1_messages := l2_to_l1_messages;
  L1BatchRow.priority_ops_onchain_data := L1BatchUpdates.priority_ops_onchain_data batch;
  L1BatchRow.predicted_gas := UpdatesManager.pending_l1_gas_count self;
  L1BatchRow.initial_bootloader_heap_content := default [] (FinishedL1Batch.final_bootloader_memory finished_batch);
  L1BatchRow.used_contract_hashes := CurrentExecutionState.used_contract_hashes state;
  L1BatchRow.base_system_contracts_hashes := UpdatesManager.base_system_contract_hashes self;
  L1BatchRow.protocol_version := Some (UpdatesManager.protocol_version self);
  L1BatchRow.system_logs := CurrentExecutionState.system_logs state;
  L1BatchRow.storage_refunds := CurrentExecutionState.storage_refunds state;
  L1BatchRow.pubdata_costs := CurrentExecutionState.pubdata_costs state;
  L1BatchRow.pubdata_input := FinishedL1Batch.pubdata_input finished_batch;
  L1BatchRow.predicted_circuits_by_type := VmExecutionMetrics.circuit_statistic (UpdatesManager.pending_execution_metrics self);
  L1BatchRow.hash := None;
  L1BatchRow.tree_writes := None;
|}.

(** The keys that are written for the first time, and the number of all writes. *)
Definition filter_initial_writes (finished_batch : FinishedL1Batch.t) : Q (list H256 * Z) :=
  match FinishedL1Batch.state_diffs finished_batch with
  | Some state_diffs =>
      mret ((λ diff, raw_hashed_key (StateDiffRecord.address diff) (StateDiffRecord.key diff))
              <$> filter (λ diff, StateDiffRecord.is_write_initial diff = true) state_diffs, byte_len state_diffs)
  | None =>
      let keys := (λ log, hashed_key (StorageLog.key log)) <$> filter is_write
        (CurrentExecutionState.deduplicated_storage_logs (FinishedL1Batch.final_execution_state finished_batch)) in
      non_initial_writes ← StorageLogsDedupDal.filter_written_slots keys;
      mret (filter (λ key, key ∉ non_initial_writes) keys, byte_len keys)
  end.

(** The transaction of [UpdatesManager::seal_l1_batch]; the number of writes is checked
    after it is committed. *)
Definition seal_l1_batch_transaction (now : Z) (self : UpdatesManager.t) (finished_batch : FinishedL1Batch.t)
    (l2_shared_bridge_addr : Address) (insert_protective_reads : bool) : Q Z :=
  let batch := UpdatesManager.l1_batch self in
  let state := FinishedL1Batch.final_execution_state finished_batch in
  atomically (
    _ ← seal_inner now (seal_l2_block_command self l2_shared_bridge_addr false) true;
    l2_to_l1_messages ← lift_exec (VmEvent.extract_long_l2_to_l1_messages (CurrentExecutionState.events state));
    _ ← BlocksDal.insert_l1_batch (l1_batch_row self finished_batch l2_to_l1_messages);
    _ ← BlocksDal.mark_l2_blocks_as_executed_in_l1_batch (L1BatchUpdates.number batch);
    _ ← TransactionsDal.mark_txs_as_executed_in_l1_batch (L1BatchUpdates.number batch) (L1BatchUpdates.executed_transactions batch);
    _ ← (if insert_protective_reads then
           StorageLogsDedupDal.insert_protective_reads (L1BatchUpdates.number batch)
             (filter (λ log, StorageLog.is_write log = false) (CurrentExecutionState.deduplicated_storage_logs state))
         else mret ());
    '(initial_writes, all_writes_len) ← filter_initial_writes finished_batch;
    _ ← StorageLogsDedupDal.insert_initial_writes (L1BatchUpdates.number batch) initial_writes;
    mret all_writes_len).
Definition seal_l1_batch (now : Z) (self : UpdatesManager.t) (l2_shared_bridge_addr : Address) (insert_protective_reads : bool) : Q () :=
  finished_batch ← ok_or "L1 batch is not actually finished" (L1BatchUpdates.finished (UpdatesManager.l1_batch self));
  all_writes_len ← seal_l1_batch_transaction now self finished_batch l2_shared_bridge_addr insert_protective_reads;
  let writes_metrics := StorageWritesDeduplicator.metrics (UpdatesManager.storage_writes_deduplicator self) in
  if decide (all_writes_len = wrap 64 (DeduplicatedWritesMetrics.initial_storage_writes writes_metrics
                                       + DeduplicatedWritesMetrics.repeated_storage_writes writes_metrics))
  then mret () else fail "Results of in-flight and common deduplications are mismatched"%string.
End subtasks.

(** ** The output handlers ([io/persistence.rs]) *)

(** A turn of the sealer's task: the subtasks whose statements took effect, in their order,
    and the time of the database. Unless they are all of them, one has failed or the node
    has lost its connection, and the task returns the error. *)
Module Turn.
Record t := mk { now : Z; order : list Subtask }.
Definition sequential : t := mk 0 all_subtasks.
Definition complete (self : t) : bool := bool_decide (order self ≡ₚ all_subtasks).
End Turn.

(** [StateKeeperPersistence] with the task at the other end of its channel and the database
    of both. [commands] are those in the channel, and [sealing] is the one that the task has
    received, which has left the channel, and not sealed yet; [interludes] says how many
    steps the task makes at the beginning of each call of the handler, and [turns] how it
    seals. The receiver of the last command's completion is not kept: it answers once
    nothing is outstanding, and fails when the task has stopped before. *)
Module StateKeeperPersistence.
Record t := mk {
  pool : KeeperDb.t;
  l2_shared_bridge_addr : Address;
  pre_insert_txs : bool;
  insert_protective_reads : bool;
  is_sync : bool;
  command_capacity : nat;
  commands : list L2BlockSealCommand.t;
  sealing : option L2BlockSealCommand.t;
  sealer_stopped : bool;
  turns : list Turn.t;
  interludes : list nat;
}.
Definition new (pool : KeeperDb.t) (l2_shared_bridge_addr : Address) (command_capacity : nat) (turns : list Turn.t) (interludes : list nat) : t :=
  mk pool l2_shared_bridge_addr false true (bool_decide (command_capacity = 0%nat)) (max command_capacity 1) [] None false turns interludes.
Definition with_tx_insertion (self : t) : t :=
  mk (pool self) (l2_shared_bridge_addr self) true (insert_protective_reads self) (is_sync self) (command_capacity self)
     (commands self) (sealing self) (sealer_stopped self) (turns self) (interludes self).
Definition without_protective_reads (self : t) : t :=
  mk (pool self) (l2_shared_bridge_addr self) (pre_insert_txs self) false (is_sync self) (command_capacity self)
     (commands self) (sealing self) (sealer_stopped self) (turns self) (interludes self).
Definition with_pool (self : t) (pool : KeeperDb.t) : t :=
  mk pool (l2_shared_bridge_addr self) (pre_insert_txs self) (insert_protective_reads self) (is_sync self) (command_capacity self)
     (commands self) (sealing self) (sealer_stopped self) (turns self) (interludes self).
Definition with_commands (self : t) (commands : list L2BlockSealCommand.t) (sealing : option L2BlockSealCommand.t) : t :=
  mk (pool self) (l2_shared_bridge_addr self) (pre_insert_txs self) (insert_protective_reads self) (is_sync self) (command_capacity self)
     commands sealing (sealer_stopped self) (turns self) (interludes self).
Definition with_interludes (self : t) (interludes : list nat) : t :=
  mk (pool self) (l2_shared_bridge_addr self) (pre_insert_txs self) (insert_protective_reads self) (is_sync self) (command_capacity self)
     (commands self) (sealing self) (sealer_stopped self) (turns self) interludes.

Section persistence.
Context `{TxLib, KeeperLib, TokenAbi, StorageKeyHash, CopyText}.

Definition on_pool {A} (op : Q A) : prog t string A := λ self,
  '(r, pool) ← op (pool self); Ret (r, with_pool self pool).

(** [L2BlockSealCommand::seal]: the subtasks run at the same time, the first error is
    returned and the others are dropped; the header is inserted after all of them. *)
Definition seal (turn : Turn.t) (command : L2BlockSealCommand.t) : Q () :=
  _ ← of_result (SealCommand.ensure_valid_l2_block command false);
  _ ← foldP (λ _ subtask, subtask_run (Turn.now turn) subtask command) () (Turn.order turn);
  if Turn.complete turn then BlocksDal.insert_l2_block (l2_block_header command)
  else fail "a subtask failed"%string.

(** The two steps of an iteration of [L2BlockSealerTask::run]: it receives a command, whose
    place in the channel is free from then on, and seals it. An error ends the task. *)
Definition next_command (self : t) : t :=
  match commands self with
  | command :: rest => with_commands self rest (Some command)
  | [] => self
  end.
Definition sealer_step (self : t) : exec t :=
  if sealer_stopped self then Ret self else
  match sealing self with
  | None => Ret (next_command self)
  | Some command =>
      let turn := default Turn.sequential (head (turns self)) in
      '(r, pool) ← (seal turn command (pool self) : exec ((string + ()) * KeeperDb.t));
      let stopped := match r with inl _ => true | inr _ => false end in
      Ret (mk pool (l2_shared_bridge_addr self) (pre_insert_txs self) (insert_protective_reads self) (is_sync self)
             (command_capacity self) (commands self) (if stopped then Some command else None) stopped (tail (turns self)) (interludes self))
  end.
Fixpoint sealer_run (steps : nat) (self : t) : exec t :=
  match steps with O => Ret self | S n => self ← sealer_step self; sealer_run n self end.
(** The commands that are sent and not sealed, the steps until there are none, and the steps
    until the channel has room. *)
Definition outstanding (self : t) : list L2BlockSealCommand.t := option_list (sealing self) ++ commands self.
Definition steps_to_finish (self : t) : nat := length (option_list (sealing self)) + 2 * length (commands self).
Definition steps_to_room (self : t) : nat :=
  if decide (length (commands self) < command_capacity self)%nat then 0 else length (option_list (sealing self)) + 1.

(** "L2 block sealer unexpectedly shut down" *)
Definition wait_for_all_commands (self : t) : exec t :=
  self ← sealer_run (steps_to_finish self) self;
  assert_then (bool_decide (outstanding self = [])) (Ret self).

(** The channel takes a command once it has room. *)
Definition submit_l2_block (command : L2BlockSealCommand.t) (self : t) : exec t :=
  self ← sealer_run (steps_to_room self) self;
  assert_then (negb (sealer_stopped self))
    (let self := with_commands self (commands self ++ [command]) (sealing self) in
     if is_sync self then wait_for_all_commands self else Ret self).

(** The task's progress meanwhile. *)
Definition interlude (self : t) : exec t :=
  sealer_run (default O (head (interludes self))) (with_interludes self (tail (interludes self))).

Definition initialize (cursor : IoCursor.t) : prog t string () :=
  on_pool (clear_pending_l2_block (wrap 32 (IoCursor.next_l2_block cursor - 1))).
Definition handle_l2_block (updates_manager : UpdatesManager.t) : prog t string () := λ self,
  self ← interlude self;
  self ← submit_l2_block (seal_l2_block_command updates_manager (l2_shared_bridge_addr self) (pre_insert_txs self)) self;
  Ret (inr (), self).
Definition handle_l1_batch (now : Z) (updates_manager : UpdatesManager.t) : prog t string () := λ self,
  self ← wait_for_all_commands self;
  on_pool (seal_l1_batch now updates_manager (l2_shared_bridge_addr self) (insert_protective_reads self)) self.
End persistence.
End StateKeeperPersistence.

(** The time of the database is of no use to a batch, whose last block has no transactions. *)
#[export] Instance persistence_handler `{TxLib, KeeperLib, TokenAbi, StorageKeyHash, CopyText} :
    StateKeeperOutputHandler StateKeeperPersistence.t := {|
  handler_initialize := StateKeeperPersistence.initialize;
  handler_handle_l2_block := StateKeeperPersistence.handle_l2_block;
  handler_handle_l1_batch := StateKeeperPersistence.handle_l1_batch 0;
|}.

(** *** [TreeWritesPersistence] *)
Module TreeWritesPersistence.
Section handler.
Context `{StorageKeyHash}.

(** The next index is taken for a key that is written for the first time. *)
Definition diff_write (acc : Z * list TreeWrite.t) (diff : StateDiffRecord.t) : Z * list TreeWrite.t :=
  let '(next_index, writes) := acc in
  let write leaf_index := TreeWrite.mk (StateDiffRecord.address diff) (StateDiffRecord.key diff) (StateDiffRecord.final_value diff) leaf_index in
  if StateDiffRecord.is_write_initial diff then (wrap 64 (next_index + 1), writes ++ [write next_index])
  else (next_index, writes ++ [write (StateDiffRecord.enumeration_index diff)]).
Definition log_write (non_initial_writes : gmap H256 (L1BatchNumber * Z)) (acc : Z * list TreeWrite.t) (log : StorageLog.t)
    : Z * list TreeWrite.t :=
  let '(next_index, writes) := acc in
  let '(address, key) := StorageLog.key log in
  let write leaf_index := TreeWrite.mk address key (StorageLog.value log) leaf_index in
  match non_initial_writes !! hashed_key (StorageLog.key log) with
  | Some (_, leaf_index) => (next_index, writes ++ [write leaf_index])
  | None => (wrap 64 (next_index + 1), writes ++ [write next_index])
  end.
Definition tree_input (next_index : Z) (finished_batch : FinishedL1Batch.t) : Q (list TreeWrite.t) :=
  match FinishedL1Batch.state_diffs finished_batch with
  | Some state_diffs => mret (foldl diff_write (next_index, []) state_diffs).2
  | None =>
      let deduplicated_writes := filter is_write
        (CurrentExecutionState.deduplicated_storage_logs (FinishedL1Batch.final_execution_state finished_batch)) in
      non_initial_writes ← StorageLogsDal.get_l1_batches_and_indices_for_initial_writes
        ((hashed_key ∘ StorageLog.key) <$> deduplicated_writes);
      mret (foldl (log_write non_initial_writes) (next_index, []) deduplicated_writes).2
  end.
Definition handle_l1_batch (updates_manager : UpdatesManager.t) : Q () :=
  let batch := UpdatesManager.l1_batch updates_manager in
  finished_batch ← ok_or "L1 batch is not actually finished" (L1BatchUpdates.finished batch);
  last_index ← StorageLogsDedupDal.max_enumeration_index_by_l1_batch (wrap 32 (L1BatchUpdates.number batch - 1));
  writes ← tree_input (wrap 64 (default 0 last_index + 1)) finished_batch;
  BlocksDal.set_tree_writes (L1BatchUpdates.number batch) writes.
End handler.
End TreeWritesPersistence.

(** ** The database of the state keeper's I/O *)
#[export] Instance keeper_dal `{TxLib, KeeperLib, TokenAbi, StorageKeyHash, CopyText} : KeeperDal KeeperDb.t := {|
  get_sealed_l1_batch_number := BlocksDal.get_sealed_l1_batch_number;
  get_earliest_l1_batch_number := BlocksDal.get_earliest_l1_batch_number;
  get_last_sealed_l2_block_header := BlocksDal.get_last_sealed_l2_block_header;
  get_l2_block_header := BlocksDal.get_l2_block_header;
  get_l2_block_range_of_l1_batch := BlocksDal.get_l2_block_range_of_l1_batch;
  get_l2_block_hash := BlocksDal.get_l2_block_hash;
  get_l1_batch_state_root_and_timestamp := BlocksDal.get_l1_batch_state_root_and_timestamp;
  get_batch_protocol_version_id := BlocksDal.get_batch_protocol_version_id;
  KeeperDal.get_applied_snapshot_status := get_applied_snapshot_status;
  get_base_system_contracts := FactoryDepsDal.get_base_system_contracts;
  get_l2_blocks_to_reexecute := TransactionsDal.get_l2_blocks_to_reexecute;
  mark_tx_as_rejected := TransactionsDal.mark_tx_as_rejected;
  protocol_version_id_by_timestamp := ProtocolVersionsDal.protocol_version_id_by_timestamp;
  load_base_system_contracts_by_version_id := ProtocolVersionsDal.load_base_system_contracts_by_version_id;
  get_protocol_upgrade_tx := ProtocolVersionsDal.get_protocol_upgrade_tx;
  KeeperDal.clear_pending_l2_block := clear_pending_l2_block;
|}.
