(* ===== verification/PersistenceSpec.v ===== *)
(** * What the sealed chain is in the tables

    The tables that a chain of sealed blocks and batches stands for, when these are the
    tables of the database ([matches]), and when rolling back gives them ([pending]); what
    each subtask writes and what its rollback removes. Rows of transactions that are in no
    block are whatever the mempool makes of them, and batches have the columns that others
    write. *)
From S2P Require Import Prelude Types Abi Sql VmLimits Float Deduplicator FeeModel TxEncoding VmErrors StateDiffs SealCriteria VmInterface KeeperUpdates BatchExecutor StateKeeper KeeperDal KeeperDb Persistence.
Local Open Scope Z_scope.
Import KeeperDb L2BlockSealCommand SealCommand.

(** ** The chain *)
(** A transaction in a block, with the batch of the block and the index in it. *)
Module Mark.
Record t := mk {
  block : L2BlockNumber;
  index : Z;
  result : TxResult;
  price : U256;
  batch : option (Z * Z);
}.
Definition hash (m : t) : H256 := TransactionExecutionResult.hash (result m).
Definition transaction (m : t) : Transaction.t := TransactionExecutionResult.transaction (result m).
Definition set_batch (number : L1BatchNumber) (results : list TxResult) (m : t) : t :=
  match list_find (λ res, TransactionExecutionResult.hash res = hash m) results with
  | Some (i, _) => mk (block m) (index m) (result m) (price m) (Some (number, Z.of_nat i))
  | None => m
  end.
End Mark.

(** The tables of a chain; those of the transactions are given by the marks. *)
Module Chain.
Record t := mk { tables : KeeperDb.t; marks : list Mark.t }.
End Chain.

Definition returned {A} (m : exec (list A)) : list A := match m with Ret l => l | Panic => [] end.

(** Who has sent a transaction, and its nonce. *)
Definition nonce_of (tx : Transaction.t) : option (Address * Z) :=
  match Transaction.nonce tx with Some n => Some (Transaction.initiator_account tx, n) | None => None end.

Section spec.
Context `{LT : TxLib, LK : KeeperLib, LA : TokenAbi, LS : StorageKeyHash, LC : CopyText}.
Implicit Types (c : L2BlockSealCommand.t) (T : Chain.t) (db : KeeperDb.t).

(** *** The rows of a block *)
Definition write_rows c : list StorageLogRow.t :=
  StorageLogsDal.log_rows (number c) (returned (extract_deduplicated_write_logs c)).
Definition dep_rows (known : list FactoryDepRow.t) c : list FactoryDepRow.t :=
  (λ d : H256 * list byte, FactoryDepRow.mk d.1 d.2 (number c)) <$>
    filter (λ d, d.1 ∉ (FactoryDepRow.bytecode_hash <$> known)) (map_to_list (L2BlockUpdates.new_factory_deps (l2_block c))).
Definition token_rows c : list TokenRow.t :=
  default [] (mapM TokensDal.token_row (returned (extract_added_tokens (l2_shared_bridge_addr c) (L2BlockUpdates.events (l2_block c))))).
Definition event_rows c : list EventRow.t :=
  EventsDal.event_rows (number c) (returned (extract_events c (is_l2_block_fictive c))).
Definition l2_to_l1_log_rows c : list L2ToL1LogRow.t :=
  EventsDal.log_rows (number c) (returned (extract_user_l2_to_l1_logs c (is_l2_block_fictive c))).
Definition header_row c : MiniblockRow.t := BlocksDal.miniblock_row (l2_block_header c).
Definition price_of c (tx : Transaction.t) : U256 :=
  match TransactionsDal.effective_price (base_fee_per_gas c) tx with Ret price => price | Panic => 0 end.
Definition block_marks c : list Mark.t :=
  imap (λ i res, Mark.mk (number c) (Z.of_nat i) res (price_of c (TransactionExecutionResult.transaction res)) None) (executed c).

(** *** Sealing a block and a batch *)
Definition seal_block c T : Chain.t :=
  let db := Chain.tables T in
  Chain.mk (KeeperDb.mk (miniblocks db ++ [header_row c]) (l1_batches db) (transactions db) (call_traces db)
      (storage_logs db ++ write_rows c) (factory_deps db ++ dep_rows (factory_deps db) c) (tokens db ++ token_rows c)
      (events db ++ event_rows c) (l2_to_l1_logs db ++ l2_to_l1_log_rows c)
      (protective_reads db) (initial_writes db) (protocol_versions db) (snapshot_recovery db))
    (Chain.marks T ++ block_marks c).

Definition in_batch (number : L1BatchNumber) (r : MiniblockRow.t) : MiniblockRow.t :=
  if decide (MiniblockRow.l1_batch_number r = None) then
    MiniblockRow.mk (MiniblockRow.number r) (MiniblockRow.timestamp r) (MiniblockRow.hash r) (MiniblockRow.l1_tx_count r)
      (MiniblockRow.l2_tx_count r) (MiniblockRow.fee_account_address r) (MiniblockRow.base_fee_per_gas r) (MiniblockRow.l1_gas_price r)
      (MiniblockRow.l2_fair_gas_price r) (MiniblockRow.base_system_contracts_hashes r) (MiniblockRow.protocol_version r)
      (MiniblockRow.virtual_blocks r) (MiniblockRow.fair_pubdata_price r) (Some (to_signed 32 number))
  else r.
(** The keys a batch writes for the first time. *)
Definition initial_keys db (f : FinishedL1Batch.t) : list H256 :=
  match filter_initial_writes f db with Ret (inr (keys, _), _) => keys | _ => [] end.
Definition initial_write_rows db (batch : L1BatchNumber) (f : FinishedL1Batch.t) : list InitialWriteRow.t :=
  imap (λ i key, InitialWriteRow.mk key (default 0 (sql_max (InitialWriteRow.index <$> initial_writes db)) + 1 + Z.of_nat i) batch)
    (initial_keys db f).
Definition read_rows (protective : bool) (batch : L1BatchNumber) (f : FinishedL1Batch.t) : list ProtectiveReadRow.t :=
  if protective then
    (λ log, ProtectiveReadRow.mk batch (StorageLog.key log)) <$> filter (λ log, StorageLog.is_write log = false)
      (CurrentExecutionState.deduplicated_storage_logs (FinishedL1Batch.final_execution_state f))
  else [].
Definition batch_row (u : UpdatesManager.t) (f : FinishedL1Batch.t) : L1BatchRow.t :=
  l1_batch_row u f (returned (VmEvent.extract_long_l2_to_l1_messages
    (CurrentExecutionState.events (FinishedL1Batch.final_execution_state f)))).
Definition seal_batch (protective : bool) (u : UpdatesManager.t) (f : FinishedL1Batch.t) c T : Chain.t :=
  let batch := UpdatesManager.l1_batch u in
  let number := L1BatchUpdates.number batch in
  let T := seal_block c T in
  let db := Chain.tables T in
  Chain.mk (KeeperDb.mk (in_batch number <$> miniblocks db) (l1_batches db ++ [batch_row u f]) (transactions db) (call_traces db)
      (storage_logs db) (factory_deps db) (tokens db) (events db) (l2_to_l1_logs db)
      (protective_reads db ++ read_rows protective number f) (initial_writes db ++ initial_write_rows db number f)
      (protocol_versions db) (snapshot_recovery db))
    (Mark.set_batch number (L1BatchUpdates.executed_transactions batch) <$> Chain.marks T).

(** ** When the tables are those of the chain *)
(** The row of a transaction in a block. The time it was received is that of the row. *)
Record row_of_mark (r : TransactionRow.t) (m : Mark.t) : Prop := {
  row_hash : TransactionRow.hash r = Mark.hash m;
  row_transaction : TransactionRow.transaction r =
    TransactionsDal.stored_transaction (Mark.hash m) (Mark.transaction m) (Transaction.received_timestamp_ms (TransactionRow.transaction r));
  row_block : TransactionRow.miniblock_number r = Some (Mark.block m);
  row_index : TransactionRow.index_in_block r = Some (Mark.index m);
  row_batch : TransactionRow.l1_batch_number r = fst <$> Mark.batch m;
  row_batch_index b i : Mark.batch m = Some (b, i) → TransactionRow.l1_batch_tx_index r = Some i;
  row_error : TransactionRow.error r = TransactionsDal.map_transaction_error (Mark.result m);
  row_info : TransactionRow.execution_info r = Some (TransactionExecutionResult.execution_info (Mark.result m));
  row_refund : TransactionRow.refunded_gas r = TransactionExecutionResult.refunded_gas (Mark.result m);
  row_price : TransactionRow.effective_gas_price r = Some (Mark.price m);
  row_in_mempool : TransactionRow.in_mempool r = false;
}.

(** The transactions of the blocks up to [n] are those of the chain; a row in no block is
    in no batch. *)
Record transactions_match (n : Z) db (marks : list Mark.t) : Prop := {
  tm_sound r b : r ∈ transactions db → TransactionRow.miniblock_number r = Some b → b ≤ n → ∃ m, m ∈ marks ∧ row_of_mark r m;
  tm_complete m : m ∈ marks → ∃ r, r ∈ transactions db ∧ row_of_mark r m;
  tm_traces m t : m ∈ marks → TransactionsDal.call_trace (Mark.result m) = Ret (Some t) → (Mark.hash m, t) ∈ call_traces db;
  tm_open r : r ∈ transactions db → TransactionRow.miniblock_number r = None → TransactionRow.l1_batch_number r = None;
  tm_hashes : NoDup (TransactionRow.hash <$> transactions db);
  tm_nonces : NoDup (omap TransactionsDal.nonce_key (transactions db));
}.
(** No row is in a block after [n]. *)
Definition no_block_after (n : Z) db : Prop :=
  ∀ r b, r ∈ transactions db → TransactionRow.miniblock_number r = Some b → b ≤ n.

(** What a subtask writes is that of the chain up to the block [n]. *)
Definition agrees (s : Subtask) (n : Z) db T : Prop :=
  match s with
  | MarkTransactionsInL2Block => transactions_match n db (Chain.marks T) ∧ no_block_after n db
  | InsertStorageLogs => storage_logs db = storage_logs (Chain.tables T)
  | InsertFactoryDeps => factory_deps db = factory_deps (Chain.tables T)
  | InsertTokens => tokens db = tokens (Chain.tables T)
  | InsertEvents => events db = events (Chain.tables T)
  | InsertL2ToL1Logs => l2_to_l1_logs db = l2_to_l1_logs (Chain.tables T)
  end.
(** What is left of it without the blocks after [n] is. *)
Definition covers (s : Subtask) (n : Z) db T : Prop :=
  match s with
  | MarkTransactionsInL2Block => transactions_match n db (Chain.marks T)
  | InsertStorageLogs => delete_where (λ r, bool_decide (n < StorageLogRow.miniblock_number r)) (storage_logs db) = storage_logs (Chain.tables T)
  | InsertFactoryDeps => delete_where (λ r, bool_decide (n < FactoryDepRow.miniblock_number r)) (factory_deps db) = factory_deps (Chain.tables T)
  | InsertTokens => delete_where (TokensDal.to_be_removed (Chain.tables T) n) (tokens db) = tokens (Chain.tables T)
  | InsertEvents => delete_where (λ r, bool_decide (n < EventRow.miniblock_number r)) (events db) = events (Chain.tables T)
  | InsertL2ToL1Logs => delete_where (λ r, bool_decide (n < L2ToL1LogRow.miniblock_number r)) (l2_to_l1_logs db) = l2_to_l1_logs (Chain.tables T)
  end.

(** What the state keeper writes of a batch. *)
Definition sealed_part (r : L1BatchRow.t) : L1BatchRow.t :=
  L1BatchRow.mk (L1BatchRow.number r) (L1BatchRow.timestamp r) (L1BatchRow.l1_tx_count r) (L1BatchRow.l2_tx_count r)
    (L1BatchRow.l2_to_l1_messages r) (L1BatchRow.priority_ops_onchain_data r) (L1BatchRow.predicted_gas r)
    (L1BatchRow.initial_bootloader_heap_content r) (L1BatchRow.used_contract_hashes r) (L1BatchRow.base_system_contracts_hashes r)
    (L1BatchRow.protocol_version r) (L1BatchRow.system_logs r) (L1BatchRow.storage_refunds r) (L1BatchRow.pubdata_costs r)
    (L1BatchRow.pubdata_input r) (L1BatchRow.predicted_circuits_by_type r) None None.
Record headers_match db T : Prop := {
  hm_miniblocks : miniblocks db = miniblocks (Chain.tables T);
  hm_l1_batches : sealed_part <$> l1_batches db = sealed_part <$> l1_batches (Chain.tables T);
  hm_reads : protective_reads db = protective_reads (Chain.tables T);
  hm_writes : initial_writes db = initial_writes (Chain.tables T);
  hm_snapshot : snapshot_recovery db = snapshot_recovery (Chain.tables T);
}.
Definition matches (n : Z) db T : Prop := headers_match db T ∧ ∀ s, agrees s n db T.

(** ** Chains *)
(** The chain ends with the block [n]; its tokens have code, and its transactions are
    different. *)
Record chain_wf (n : Z) T : Prop := {
  wf_last : last_block_number (Chain.tables T) = Some n;
  wf_width : 0 ≤ n < 2 ^ 31;
  wf_miniblocks : Forall (λ r, MiniblockRow.number r ≤ n) (miniblocks (Chain.tables T));
  wf_storage_logs : Forall (λ r, StorageLogRow.miniblock_number r ≤ n) (storage_logs (Chain.tables T));
  wf_factory_deps : Forall (λ r, FactoryDepRow.miniblock_number r ≤ n) (factory_deps (Chain.tables T));
  wf_events : Forall (λ r, EventRow.miniblock_number r ≤ n) (events (Chain.tables T));
  wf_l2_to_l1_logs : Forall (λ r, L2ToL1LogRow.miniblock_number r ≤ n) (l2_to_l1_logs (Chain.tables T));
  wf_marks : Forall (λ m, Mark.block m ≤ n) (Chain.marks T);
  wf_tokens : Forall (λ r, TokensDal.to_be_removed (Chain.tables T) n r = false) (tokens (Chain.tables T));
  wf_hashes : NoDup (Mark.hash <$> Chain.marks T);
  wf_nonces : NoDup (omap (nonce_of ∘ Mark.transaction) (Chain.marks T));
}.
(** What the state keeper and the virtual machine give for the next block: its number, that
    its tokens have got their code in this block and no token loses it, and that no
    transaction is in the chain twice. *)
Record admissible (n : Z) c T : Prop := {
  adm_number : number c = n + 1;
  adm_width : n + 1 < 2 ^ 31;
  adm_new_tokens : Forall (λ r, TokensDal.to_be_removed (Chain.tables T) n r = true) (token_rows c);
  adm_tokens : Forall (λ r, TokensDal.to_be_removed (Chain.tables (seal_block c T)) (n + 1) r = false) (tokens (Chain.tables (seal_block c T)));
  adm_hashes : NoDup (Mark.hash <$> Chain.marks T ++ block_marks c);
  adm_nonces : NoDup (omap (nonce_of ∘ Mark.transaction) (Chain.marks T ++ block_marks c));
}.

(** ** Lemmas *)
Lemma log_rows_block n logs : Forall (λ r, StorageLogRow.miniblock_number r = n) (StorageLogsDal.log_rows n logs).
Proof. apply Forall_lookup. intros i r. unfold StorageLogsDal.log_rows. rewrite list_lookup_imap. intros ([key v] & _ & ->)%fmap_Some. done. Qed.
Lemma event_rows_block n l : Forall (λ r, EventRow.miniblock_number r = n) (EventsDal.event_rows n l).
Proof. apply Forall_lookup. intros i r. unfold EventsDal.event_rows. rewrite list_lookup_imap. intros ([key [i' v]] & _ & ->)%fmap_Some. done. Qed.
Lemma l2_to_l1_rows_block n l : Forall (λ r, L2ToL1LogRow.miniblock_number r = n) (EventsDal.log_rows n l).
Proof. apply Forall_lookup. intros i r. unfold EventsDal.log_rows. rewrite list_lookup_imap. intros ([key [i' [v]]] & _ & ->)%fmap_Some. done. Qed.
Lemma dep_rows_block known c : Forall (λ r, FactoryDepRow.miniblock_number r = number c) (dep_rows known c).
Proof. apply Forall_fmap, Forall_forall. by intros [] _. Qed.
Lemma block_marks_block c : Forall (λ m, Mark.block m = number c) (block_marks c).
Proof. apply Forall_lookup. intros i r. unfold block_marks. rewrite list_lookup_imap. intros (res & _ & ->)%fmap_Some. done. Qed.
Lemma elem_block_marks c m :
  m ∈ block_marks c ↔ ∃ i res, executed c !! i = Some res ∧
    m = Mark.mk (number c) (Z.of_nat i) res (price_of c (TransactionExecutionResult.transaction res)) None.
Proof.
  rewrite list_elem_of_lookup. unfold block_marks. setoid_rewrite list_lookup_imap. split.
  - intros (i & (res & E & ->)%fmap_Some). eauto.
  - intros (i & res & E & ->). exists i. by rewrite E.
Qed.

Lemma header_row_number c : MiniblockRow.number (header_row c) = number c.
Proof. unfold header_row, l2_block_header. by destruct (l1_l2_tx_count _). Qed.

Lemma chain_wf_seal_block n c T : chain_wf n T → admissible n c T → chain_wf (n + 1) (seal_block c T).
Proof.
  intros [] []. split; cbn [seal_block Chain.tables Chain.marks miniblocks storage_logs factory_deps events l2_to_l1_logs]; try done.
  - unfold last_block_number. cbn [miniblocks]. rewrite fmap_app. cbn [fmap list_fmap]. rewrite header_row_number, adm_number0.
    rewrite sql_max_app; [done|]. apply Forall_fmap. eapply Forall_impl; [done|]. cbn. lia.
  - lia.
  - apply Forall_app. split; [eapply Forall_impl; [done|]; cbn; lia|]. apply Forall_singleton. rewrite header_row_number. lia.
  - apply Forall_app. split; [eapply Forall_impl; [done|]; cbn; lia|]. eapply Forall_impl; [apply log_rows_block|]. cbn. lia.
  - apply Forall_app. split; [eapply Forall_impl; [done|]; cbn; lia|]. eapply Forall_impl; [apply dep_rows_block|]. cbn. lia.
  - apply Forall_app. split; [eapply Forall_impl; [done|]; cbn; lia|]. eapply Forall_impl; [apply event_rows_block|]. cbn. lia.
  - apply Forall_app. split; [eapply Forall_impl; [done|]; cbn; lia|]. eapply Forall_impl; [apply l2_to_l1_rows_block|]. cbn. lia.
  - apply Forall_app. split; [eapply Forall_impl; [done|]; cbn; lia|]. eapply Forall_impl; [apply block_marks_block|]. cbn. lia.
Qed.

(** Tables without rows after [n], and with such rows added. *)
Lemma delete_after {A} (block : A → Z) n l : Forall (λ r, block r ≤ n) l → delete_where (λ r, bool_decide (n < block r)) l = l.
Proof. intros Hl. apply delete_where_none. eapply Forall_impl; [done|]. cbn. intros r ?. apply bool_decide_eq_false_2. lia. Qed.
Lemma delete_added {A} (block : A → Z) n l l' :
  Forall (λ r, block r ≤ n) l → Forall (λ r, block r = n + 1) l' → delete_where (λ r, bool_decide (n < block r)) (l ++ l') = l.
Proof.
  intros Hl Hl'. rewrite delete_where_app, delete_after, delete_where_all, app_nil_r; [done| |done].
  eapply Forall_impl; [done|]. cbn. intros r ?. apply bool_decide_eq_true_2. lia.
Qed.

Lemma agrees_covers s n db T : chain_wf n T → agrees s n db T → covers s n db T.
Proof.
  intros [] Ha. destruct s; cbn in *; [by destruct Ha|rewrite Ha..]; try by apply delete_after. by apply delete_where_none.
Qed.
Lemma agrees_next_covers s n c db T :
  chain_wf n T → admissible n c T → agrees s (n + 1) db (seal_block c T) → covers s n db T.
Proof.
  intros [] [] Ha. destruct s; cbn in *; [|rewrite Ha..].
  - destruct Ha as [[Hs Hc Ht Ho Hh Hn] _]. split; try done.
    + intros r b Hr Hb Hle. destruct (Hs r b Hr Hb) as (m & Hm & Hrm); [lia|]. exists m. split; [|done].
      apply elem_of_app in Hm as [Hm|Hm]; [done|]. destruct Hrm. pose proof (block_marks_block c) as Hbl.
      rewrite Forall_forall in Hbl. specialize (Hbl _ Hm). cbn in Hbl. simplify_eq. lia.
    + intros m Hm. apply Hc, elem_of_app. by left.
    + intros m t Hm. apply Ht, elem_of_app. by left.
  - apply delete_added; [done|]. rewrite <-adm_number0. apply log_rows_block.
  - apply delete_added; [done|]. rewrite <-adm_number0. apply dep_rows_block.
  - rewrite delete_where_app, delete_where_none, delete_where_all, app_nil_r; done.
  - apply delete_added; [done|]. rewrite <-adm_number0. apply event_rows_block.
  - apply delete_added; [done|]. rewrite <-adm_number0. apply l2_to_l1_rows_block.
Qed.

(** *** What the subtasks write *)
Lemma execute_inr f db db' : execute f db = Ret (inr (), db') → f db = inr db'.
Proof. unfold execute. destruct (f db); naive_solver. Qed.

(** A subtask writes to its own tables. *)
Definition frame (s : Subtask) db db' : Prop :=
  miniblocks db' = miniblocks db ∧ l1_batches db' = l1_batches db ∧ protective_reads db' = protective_reads db ∧
  initial_writes db' = initial_writes db ∧ snapshot_recovery db' = snapshot_recovery db ∧
  (s ≠ MarkTransactionsInL2Block → transactions db' = transactions db ∧ call_traces db' = call_traces db) ∧
  (s ≠ InsertStorageLogs → storage_logs db' = storage_logs db) ∧ (s ≠ InsertFactoryDeps → factory_deps db' = factory_deps db) ∧
  (s ≠ InsertTokens → tokens db' = tokens db) ∧ (s ≠ InsertEvents → events db' = events db) ∧
  (s ≠ InsertL2ToL1Logs → l2_to_l1_logs db' = l2_to_l1_logs db).
Lemma frame_headers s db db' T : frame s db db' → headers_match db T → headers_match db' T.
Proof. intros (?&?&?&?&?&_) []. split; congruence. Qed.
Lemma transactions_match_same n db db' marks :
  transactions db' = transactions db → call_traces db' = call_traces db → transactions_match n db marks → transactions_match n db' marks.
Proof. intros Et Ec []. split; rewrite ?Et, ?Ec; done. Qed.
Lemma no_block_after_same n db db' : transactions db' = transactions db → no_block_after n db → no_block_after n db'.
Proof. intros Et Hn. unfold no_block_after. by rewrite Et. Qed.
Lemma frame_agrees s s' n db db' T : frame s db db' → s ≠ s' → agrees s' n db T → agrees s' n db' T.
Proof.
  intros (_&_&_&_&_&Hm&Hl&Hf&Ht&He&Hg) Hne. destruct s'; cbn; [|rewrite ?Hl, ?Hf, ?Ht, ?He, ?Hg by done; done..].
  destruct (Hm Hne) as [Et Ec]. intros [H1' H2']. split; [by eapply transactions_match_same|by eapply no_block_after_same].
Qed.
Lemma frame_covers s s' n db db' T : frame s db db' → s ≠ s' → covers s' n db T → covers s' n db' T.
Proof.
  intros (_&_&_&_&_&Hm&Hl&Hf&Ht&He&Hg) Hne. destruct s'; cbn; [|rewrite ?Hl, ?Hf, ?Ht, ?He, ?Hg by done; done..].
  destruct (Hm Hne) as [Et Ec]. by eapply transactions_match_same.
Qed.

(** Statements on the transactions and their call traces. *)
Definition on_transactions {A} (m : Q A) : Prop :=
  ∀ db r db', m db = Ret (r, db') → frame MarkTransactionsInL2Block db db'.
Lemma frame_refl s db : frame s db db.
Proof. done. Qed.
Lemma frame_trans s db1 db2 db3 : frame s db1 db2 → frame s db2 db3 → frame s db1 db3.
Proof.
  intros (?&?&?&?&?&H1&H2&H3&H4&H5&H6) (?&?&?&?&?&J1&J2&J3&J4&J5&J6).
  unfold frame. split_and!; try congruence; intros Hs; try (by rewrite J2, H2 || rewrite J3, H3 || rewrite J4, H4 || rewrite J5, H5 || rewrite J6, H6).
  destruct (H1 Hs), (J1 Hs). split; congruence.
Qed.
Lemma on_transactions_bind {A B} (m : Q A) (f : A → Q B) :
  on_transactions m → (∀ a, on_transactions (f a)) → on_transactions (m ≫= f).
Proof.
  intros Hm Hf db r db'. unfold mbind, prog_bind. destruct (m db) as [[[e|a] db1]|] eqn:E; [intros [= <- <-]; by apply Hm in E| |done].
  intros Hr. eapply frame_trans; [by eapply Hm|by eapply Hf].
Qed.
Lemma on_transactions_ret {A} (a : A) : on_transactions (mret a : Q A).
Proof. intros db r db' [= _ <-]. apply frame_refl. Qed.
Lemma on_transactions_fail {A} e : on_transactions (fail e : Q A).
Proof. intros db r db' [= _ <-]. apply frame_refl. Qed.
Lemma on_transactions_lift {A} (m : exec A) : on_transactions (lift_exec m : Q A).
Proof. intros db r db'. unfold lift_exec. destruct m; [|done]. intros [= _ <-]. apply frame_refl. Qed.
Lemma on_transactions_query {A} (f : KeeperDb.t → A) : on_transactions (query f).
Proof. intros db r db' [= _ <-]. apply frame_refl. Qed.
Lemma on_transactions_execute f :
  (∀ db db', f db = inr db' → frame MarkTransactionsInL2Block db db') → on_transactions (execute f).
Proof. intros Hf db r db'. unfold execute. destruct (f db) eqn:E; intros [= _ <-]; [apply frame_refl|eauto]. Qed.
Lemma on_transactions_foldP {A B} (f : A → B → Q A) a l : (∀ a b, on_transactions (f a b)) → on_transactions (foldP f a l).
Proof.
  intros Hf. revert a. induction l as [|b l IH]; intros a; cbn [foldP]; [apply on_transactions_ret|].
  by apply on_transactions_bind.
Qed.
Lemma on_transactions_atomically {A} (m : Q A) : on_transactions m → on_transactions (atomically m).
Proof.
  intros Hm db r db'. unfold atomically. destruct (m db) as [[[e|a] db1]|] eqn:E; intros Hr; simplify_eq; [apply frame_refl|by eapply Hm].
Qed.
Lemma on_transactions_executed_of_kind kind fee results : on_transactions (TransactionsDal.executed_of_kind kind fee results).
Proof.
  apply on_transactions_foldP. intros acc [i res]. cbn zeta.
  case_decide; [|apply on_transactions_ret]. case_decide; [|apply on_transactions_fail].
  apply on_transactions_bind; [apply on_transactions_lift|]. intros. apply on_transactions_ret.
Qed.
Lemma on_transactions_store f : on_transactions (TransactionsDal.store_transactions f).
Proof. apply on_transactions_execute. intros db db'. cbn. case_decide; [|done]. by intros [= <-]. Qed.

Lemma mark_frame now n results fee insert : on_transactions (TransactionsDal.mark_txs_as_executed_in_l2_block now n results fee insert).
Proof.
  apply on_transactions_atomically, on_transactions_bind; [apply on_transactions_lift|]. intros traces. apply on_transactions_bind.
  - destruct insert.
    + apply on_transactions_bind; [apply on_transactions_execute; by intros db db' [= <-]|]. intros _.
      apply on_transactions_bind; [|intros _; apply on_transactions_bind; [|intros _]];
        (apply on_transactions_bind; [apply on_transactions_executed_of_kind|intros; apply on_transactions_store]).
    + apply on_transactions_bind; [|intros _; apply on_transactions_bind; [|intros _]];
        (apply on_transactions_bind; [apply on_transactions_executed_of_kind|intros; apply on_transactions_store]).
  - intros _. destruct traces; [apply on_transactions_ret|]. apply on_transactions_execute. intros db db'. case_decide; [|done].
    destruct (insert_unique _ _ _); [done|]. by intros [= <-].
Qed.

Lemma insert_rows {A K} `{EqDecision K} (key : A → K) rows (table : KeeperDb.t → list A) (set : list A → KeeperDb.t → KeeperDb.t) db db' :
  execute (λ db, match insert_unique key rows (table db) with inl e => inl e | inr rows => inr (set rows db) end) db = Ret (inr (), db') →
  db' = set (table db ++ rows) db.
Proof.
  intros Hr%execute_inr. destruct (insert_unique _ _ _) as [e|t] eqn:E; [done|]. apply insert_unique_inr in E as ->. by injection Hr.
Qed.

(** The subtasks other than the marking of the transactions. *)
Definition written (s : Subtask) c db : KeeperDb.t :=
  match s with
  | MarkTransactionsInL2Block => db
  | InsertStorageLogs => set_storage_logs (storage_logs db ++ write_rows c) db
  | InsertFactoryDeps => set_factory_deps (factory_deps db ++ dep_rows (factory_deps db) c) db
  | InsertTokens => set_tokens (tokens db ++ token_rows c) db
  | InsertEvents => set_events (events db ++ event_rows c) db
  | InsertL2ToL1Logs => set_l2_to_l1_logs (l2_to_l1_logs db ++ l2_to_l1_log_rows c) db
  end.
Lemma set_same_rows {A} (table : KeeperDb.t → list A) (set : list A → KeeperDb.t → KeeperDb.t) db rows :
  set (table db) db = db → rows = [] → db = set (table db ++ rows) db.
Proof. intros Hset ->. by rewrite app_nil_r, Hset. Qed.
Lemma subtask_run_written now s c db db' :
  s ≠ MarkTransactionsInL2Block → subtask_run now s c db = Ret (inr (), db') → db' = written s c db.
Proof.
  intros Hs Hr. destruct s; [done| | | | |]; cbn [subtask_run written] in *; inv_prog; subst.
  - apply insert_rows in H0 as ->. unfold write_rows. by rewrite H.
  - case_decide as Hd.
    + injection Hr as <-. apply (set_same_rows factory_deps set_factory_deps); [by destruct db|]. unfold dep_rows. by rewrite Hd.
    + unfold FactoryDepsDal.insert_factory_deps in Hr. apply execute_inr in Hr. by injection Hr.
  - assert (Ht : token_rows c = default [] (mapM TokensDal.token_row x)) by (unfold token_rows; by rewrite H).
    rewrite Ht. destruct x as [|t x].
    { injection H0 as <-. by apply (set_same_rows tokens set_tokens); [destruct db|]. }
    unfold TokensDal.add_tokens in H0. apply execute_inr in H0. destruct (mapM _ _) as [rows|]; [|done]. destruct (insert_unique _ _ _) as [|rows'] eqn:Ei; [done|].
    destruct (insert_unique TokenRow.l2_address _ _); [done|]. apply insert_unique_inr in Ei as ->. by injection H0 as <-.
  - apply insert_rows in H0 as ->. unfold event_rows. by rewrite H.
  - assert (Ht : l2_to_l1_log_rows c = EventsDal.log_rows (number c) x) by (unfold l2_to_l1_log_rows; by rewrite H).
    rewrite Ht. destruct x as [|t x]; [|by apply insert_rows in H0 as ->].
    injection H0 as <-. by apply (set_same_rows l2_to_l1_logs set_l2_to_l1_logs); [destruct db|].
Qed.
Lemma subtask_frame now s c db db' : subtask_run now s c db = Ret (inr (), db') → frame s db db'.
Proof.
  intros Hr. destruct (decide (s = MarkTransactionsInL2Block)) as [->|Hs]; [by apply mark_frame in Hr|].
  apply subtask_run_written in Hr as ->; [|done]. unfold frame. by destruct s.
Qed.
Lemma subtask_agrees now s c n db db' T :
  s ≠ MarkTransactionsInL2Block → subtask_run now s c db = Ret (inr (), db') → agrees s n db T → agrees s (n + 1) db' (seal_block c T).
Proof.
  intros Hs Hr Ha. apply subtask_run_written in Hr as ->; [|done]. destruct s; [done|cbn in *; by rewrite Ha..].
Qed.

(** *** What the rollbacks remove *)
Lemma deployed_at_same n db T address :
  headers_match db T → last_block_number (Chain.tables T) = Some n → covers InsertStorageLogs n db T →
  StorageLogsDal.deployed_at db address = StorageLogsDal.deployed_at (Chain.tables T) address.
Proof.
  intros [Hm _ _ _ Hsn] Hl Hc. unfold StorageLogsDal.deployed_at.
  assert (Hl' : last_block_number db = Some n) by (unfold last_block_number in *; by rewrite Hm, Hsn).
  rewrite Hl, Hl'. cbn [mbind option_bind]. cbn in Hc. rewrite <-Hc. unfold delete_where. rewrite list_filter_filter.
  erewrite list_filter_iff; [done|]. cbn. intros r. rewrite bool_decide_eq_false. lia.
Qed.
Lemma to_be_removed_same n db T r :
  headers_match db T → last_block_number (Chain.tables T) = Some n → covers InsertStorageLogs n db T →
  TokensDal.to_be_removed db n r = TokensDal.to_be_removed (Chain.tables T) n r.
Proof. intros. unfold TokensDal.to_be_removed. case_decide; [done|]. by erewrite deployed_at_same. Qed.
Lemma removed_by_address (p : TokenRow.t → bool) l :
  (∀ r r', TokenRow.l2_address r = TokenRow.l2_address r' → p r = p r') →
  delete_where (λ r, bool_decide (TokenRow.l2_address r ∈ (TokenRow.l2_address <$> filter (λ r, p r = true) l))) l = delete_where p l.
Proof.
  intros Hp. apply delete_where_ext_in. intros r Hr. destruct (p r) eqn:Ep.
  - apply bool_decide_eq_true_2, list_elem_of_fmap. exists r. split; [done|]. by apply list_elem_of_filter.
  - apply bool_decide_eq_false_2. intros (r' & Er & [Ep' _]%list_elem_of_filter)%list_elem_of_fmap. rewrite (Hp r r') in Ep; congruence.
Qed.

(** The first statement of the rollback of the marks, and the second. *)
Lemma reset_marks_agrees n db T :
  chain_wf n T → transactions_match n db (Chain.marks T) →
  ∃ hashes db', TransactionsDal.reset_marks n db = Ret (inr hashes, db') ∧ frame MarkTransactionsInL2Block db db' ∧
    agrees MarkTransactionsInL2Block n db' T ∧ Forall (λ m, Mark.hash m ∉ hashes) (Chain.marks T).
Proof.
  intros [] [Hs Hc Ht Ho Hh Hn]. eexists _, _. split; [done|]. split; [done|].
  assert (Hkeep : ∀ m r, m ∈ Chain.marks T → row_of_mark r m → TransactionsDal.in_block_after n r = false).
  { intros m r Hm Hrm. unfold TransactionsDal.in_block_after. rewrite (row_block _ _ Hrm). apply bool_decide_eq_false_2.
    rewrite Forall_forall in wf_marks0. specialize (wf_marks0 _ Hm). cbn in wf_marks0. lia. }
  split; [split; [split|]|]; cbn [set_transactions transactions call_traces].
  - intros r' b (r & Hr & ->)%elem_of_update_where. destruct (TransactionsDal.in_block_after n r) eqn:E; [done|]. eauto.
  - intros m Hm. destruct (Hc m Hm) as (r & Hr & Hrm). exists r. split; [|done]. apply elem_of_update_where. exists r.
    by rewrite (Hkeep m r Hm Hrm).
  - done.
  - intros r' (r & Hr & ->)%elem_of_update_where. destruct (TransactionsDal.in_block_after n r); [done|]. eauto.
  - unfold update_where. rewrite <-list_fmap_compose. erewrite list_fmap_ext; [exact Hh|]. intros i r _. cbn. by case_match.
  - unfold update_where. rewrite omap_fmap_same; [done|]. intros r _. by case_match.
  - intros r' b (r & Hr & ->)%elem_of_update_where. destruct (TransactionsDal.in_block_after n r) eqn:E; [done|]. intros Hb.
    unfold TransactionsDal.in_block_after in E. rewrite Hb, bool_decide_eq_false in E. lia.
  - apply Forall_forall. intros m Hm (r' & Er & [E Hr']%list_elem_of_filter)%list_elem_of_fmap. destruct (Hc m Hm) as (r & Hr & Hrm).
    rewrite (unique_key_inj TransactionRow.hash (transactions db) r' r) in E; [|done..|by rewrite (row_hash _ _ Hrm)].
    by rewrite (Hkeep m r Hm Hrm) in E.
Qed.
Lemma delete_call_traces_agrees n db T hashes :
  Forall (λ m, Mark.hash m ∉ hashes) (Chain.marks T) → agrees MarkTransactionsInL2Block n db T →
  ∃ db', TransactionsDal.delete_call_traces hashes db = Ret (inr (), db') ∧ frame MarkTransactionsInL2Block db db' ∧
    agrees MarkTransactionsInL2Block n db' T.
Proof.
  intros Hd [[Hs Hc Ht Ho Hh Hn] Hb]. eexists. split; [done|]. split; [done|]. split; [split; try done|done].
  intros m t Hm Et. cbn. apply elem_of_delete_where. split; [|by apply Ht]. apply bool_decide_eq_false_2.
  rewrite Forall_forall in Hd. by apply Hd.
Qed.

Lemma subtask_rollback_agrees s n db T :
  chain_wf n T → headers_match db T → covers InsertStorageLogs n db T → covers s n db T →
  ∃ db', subtask_rollback s n db = Ret (inr (), db') ∧ frame s db db' ∧ agrees s n db' T.
Proof.
  intros Hwf Hm Hl Hc. destruct s; cbn [subtask_rollback].
  - destruct (reset_marks_agrees n db T Hwf Hc) as (hashes & db1 & E1 & F1 & A1 & Hd).
    destruct (delete_call_traces_agrees n db1 T hashes Hd A1) as (db2 & E2 & F2 & A2).
    exists db2. split; [|split; [by eapply frame_trans|done]]. unfold TransactionsDal.reset_transactions_state. by rewrite (prog_bind_step _ _ _ _ _ E1).
  - eexists. split; [done|]. split; [unfold frame; done|exact Hc].
  - eexists. split; [done|]. split; [unfold frame; done|exact Hc].
  - eexists. split; [done|]. split; [unfold frame; done|]. cbn in *. rewrite (removed_by_address (TokensDal.to_be_removed db n)).
    + rewrite <-Hc. apply delete_where_ext_in. intros r _. apply to_be_removed_same; [done|by destruct Hwf|done].
    + intros r r' E. unfold TokensDal.to_be_removed. by rewrite E.
  - eexists. split; [done|]. split; [unfold frame; done|exact Hc].
  - eexists. split; [done|]. split; [unfold frame; done|exact Hc].
Qed.
End spec.
