(* ===== verification/PersistenceMarks.v ===== *)
(** * The transactions of a sealed block

    The subtask that marks the transactions of a block, whether their rows are updated or
    inserted: the rows of the blocks before stay as they are, each transaction of the block
    has its row, and no other row is in the block. *)
From S2P Require Import Prelude Types Abi Sql VmLimits Float Deduplicator FeeModel TxEncoding VmErrors StateDiffs SealCriteria VmInterface KeeperUpdates BatchExecutor StateKeeper KeeperDal KeeperDb Persistence PersistenceSpec.
Local Open Scope Z_scope.
Import KeeperDb L2BlockSealCommand SealCommand TransactionsDal.

Section marks.
Context `{LT : TxLib, LK : KeeperLib, LA : TokenAbi, LS : StorageKeyHash, LC : CopyText}.
Implicit Types (c : L2BlockSealCommand.t) (T : Chain.t) (db : KeeperDb.t).

Abbreviation tx_of := TransactionExecutionResult.transaction.
Abbreviation hash_of := TransactionExecutionResult.hash.

(** The row that a transaction is to be marked in: that with its nonce, or with its hash. *)
Definition hits (r : TransactionRow.t) (res : TxResult) : bool :=
  match kind_of (tx_of res) with
  | L2Kind => same_nonce (tx_of res) (TransactionRow.transaction r)
  | _ => bool_decide (hash_of res = TransactionRow.hash r)
  end.
(** The transactions of the block wait in the table: an L2 transaction may have been replaced
    since. *)
Definition known c db : Prop :=
  pre_insert_txs c = true ∨
  ∀ res, res ∈ executed c → ∃ r, r ∈ transactions db ∧ TransactionRow.miniblock_number r = None ∧ hits r res = true ∧
    (kind_of (tx_of res) ≠ L2Kind →
     TransactionRow.transaction r = stored_transaction (hash_of res) (tx_of res) (Transaction.received_timestamp_ms (TransactionRow.transaction r))).

(** ** Transactions *)
Lemma received_stored h tx t : Transaction.received_timestamp_ms (stored_transaction h tx t) = t.
Proof. unfold stored_transaction. by destruct (Transaction.common_data tx). Qed.
Lemma nonce_of_stored h tx t : nonce_of (stored_transaction h tx t) = nonce_of tx.
Proof. unfold stored_transaction, nonce_of, Transaction.nonce, Transaction.initiator_account. by destruct (Transaction.common_data tx) eqn:E; cbn; rewrite ?E. Qed.
Lemma nonce_of_kind tx : nonce_of tx ≠ None ↔ kind_of tx = L2Kind.
Proof. unfold nonce_of, Transaction.nonce, kind_of. by destruct (Transaction.common_data tx). Qed.
Lemma same_nonce_spec tx tx' : same_nonce tx tx' = true ↔ ∃ k, nonce_of tx = Some k ∧ nonce_of tx' = Some k.
Proof.
  unfold same_nonce, nonce_of. destruct (Transaction.nonce tx) as [a|], (Transaction.nonce tx') as [b|];
    rewrite ?andb_false_r; [|split; [done|intros (k & ? & ?); done]..].
  rewrite andb_true_iff, !bool_decide_eq_true. split; [intros [-> ->]; eauto|intros (k & [= <-] & [= -> ->]); done].
Qed.
Lemma nonce_key_row r : nonce_key r = nonce_of (TransactionRow.transaction r).
Proof. done. Qed.

(** ** What is written of the executed transactions *)
Lemma elem_enumerate {A} (l : list A) i a : (i, a) ∈ enumerate l ↔ ∃ k, l !! k = Some a ∧ i = Z.of_nat k.
Proof.
  rewrite list_elem_of_lookup. unfold enumerate. setoid_rewrite list_lookup_imap. split.
  - intros (k & (a' & E & [= -> ->])%fmap_Some). eauto.
  - intros (k & E & ->). exists k. by rewrite E.
Qed.
Lemma executed_of_kind_spec kind fee results db l db' :
  executed_of_kind kind fee results db = Ret (inr l, db') →
  db' = db ∧
  (∀ e, e ∈ l → ∃ k, results !! k = Some (Executed.result e) ∧ Executed.index e = Z.of_nat k ∧
    kind_of (tx_of (Executed.result e)) = kind ∧ effective_price fee (tx_of (Executed.result e)) = Ret (Executed.price e)) ∧
  (∀ k res, results !! k = Some res → kind_of (tx_of res) = kind →
    ∃ p, effective_price fee (tx_of res) = Ret p ∧ Executed.mk (Z.of_nat k) res p ∈ l).
Proof.
  unfold executed_of_kind. intros Hr.
  assert (Hg : ∀ es acc, foldP (λ acc '(index, res),
      let tx := tx_of res in
      if decide (kind_of tx = kind) then
        if decide (TransactionExecutionResult.refunded_gas res < 2 ^ 63) then
          price ← lift_exec (effective_price fee tx); mret (acc ++ [Executed.mk index res price])
        else fail "refunded_gas: out of range integral type conversion attempted"%string
      else mret acc) acc es db = Ret (inr l, db') →
    db' = db ∧
    (∀ e, e ∈ l → e ∈ acc ∨ (Executed.index e, Executed.result e) ∈ es ∧ kind_of (tx_of (Executed.result e)) = kind ∧
      effective_price fee (tx_of (Executed.result e)) = Ret (Executed.price e)) ∧
    (∀ e, e ∈ acc → e ∈ l) ∧
    (∀ i res, (i, res) ∈ es → kind_of (tx_of res) = kind → ∃ p, effective_price fee (tx_of res) = Ret p ∧ Executed.mk i res p ∈ l)).
  { clear Hr. induction es as [|[i res] es IH]; intros acc Hr; cbn [foldP] in Hr.
    - injection Hr as <- <-. split; [done|]. split; [auto|]. split; [done|]. by intros i res ?%elem_of_nil.
    - apply prog_bind_inr in Hr as (acc' & db1 & Hs & Hr). cbn zeta in Hs. case_decide as Hk.
      + case_decide; [|done]. inv_prog. apply IH in Hr as (-> & Hr1 & Hr2 & Hr3). split; [done|]. split; [|split].
        * intros e [[?|He%list_elem_of_singleton]%elem_of_app|(? & ? & ?)]%Hr1; [by left| |right; split; [by right|done]].
          right. subst e. cbn. split; [left|done].
        * intros e He. apply Hr2, elem_of_app. by left.
        * intros i' res' [[= -> ->]|?]%elem_of_cons Hk'; [|eauto]. eexists. split; [done|]. apply Hr2, elem_of_app. right. by apply list_elem_of_singleton.
      + injection Hs as <- <-. apply IH in Hr as (-> & Hr1 & Hr2 & Hr3). split; [done|]. split; [|split; [done|]].
        * intros e [?|(? & ? & ?)]%Hr1; [by left|]. right. split; [by right|done].
        * intros i' res' [[= -> ->]|?]%elem_of_cons Hk'; [done|eauto]. }
  apply Hg in Hr as (-> & Hr1 & _ & Hr3). split; [done|]. split.
  - intros e [?%elem_of_nil|((k & Ek & Ei)%elem_enumerate & Hk & Hp)]%Hr1; [done|]. eauto.
  - intros k res Ek Hk. apply Hr3; [|done]. apply elem_enumerate. eauto.
Qed.

(** The marks of executed transactions. *)
Definition mark_of c (e : Executed.t) : Mark.t := Mark.mk (number c) (Executed.index e) (Executed.result e) (Executed.price e) None.
Definition in_block c (e : Executed.t) : Prop := mark_of c e ∈ block_marks c.

(** All transactions of a kind in the block. *)
Definition block_part c (kind : tx_kind) (l : list Executed.t) : Prop :=
  (∀ e, e ∈ l → in_block c e ∧ kind_of (tx_of (Executed.result e)) = kind) ∧
  (∀ m, m ∈ block_marks c → kind_of (Mark.transaction m) = kind → ∃ e, e ∈ l ∧ mark_of c e = m).

Lemma price_of_spec c kind fee tx p :
  effective_price fee tx = Ret p → kind_of tx = kind → (kind = L2Kind → fee = base_fee_per_gas c) → price_of c tx = p.
Proof.
  unfold price_of, effective_price, kind_of. destruct (Transaction.common_data tx); intros E <- Hfee; [by injection E| |by injection E].
  by rewrite <-Hfee, E.
Qed.
Lemma executed_in_block c kind fee db l db' :
  executed_of_kind kind fee (executed c) db = Ret (inr l, db') → (kind = L2Kind → fee = base_fee_per_gas c) →
  db' = db ∧ block_part c kind l.
Proof.
  intros (-> & Hl & Hl')%executed_of_kind_spec Hfee. split; [done|]. split.
  - intros e (k & Ek & Ei & Hk & Hp)%Hl. split; [|done]. apply elem_block_marks. exists k, (Executed.result e). split; [done|].
    unfold mark_of. rewrite Ei. by erewrite price_of_spec.
  - intros m (k & res & Ek & ->)%elem_block_marks Hk. cbn in Hk. destruct (Hl' k res Ek Hk) as (p & Hp & He). eexists. split; [done|].
    unfold mark_of. cbn. by erewrite price_of_spec.
Qed.

Section block.
Context (n : Z) (c : L2BlockSealCommand.t) (T : Chain.t).
Context (Hwf : chain_wf n T) (Hadm : admissible n c T).

(** Transactions of the chain and of the block are told apart by their hashes and nonces. *)
Lemma old_not_new m m' : m ∈ Chain.marks T → m' ∈ block_marks c → m ≠ m'.
Proof.
  intros Hm Hm' ->. destruct Hwf, Hadm. rewrite Forall_forall in wf_marks. apply wf_marks in Hm. cbn in Hm.
  pose proof (block_marks_block c) as Hb. rewrite Forall_forall in Hb. apply Hb in Hm'. cbn in Hm'. lia.
Qed.
Lemma all_marks_hash m m' : m ∈ Chain.marks T ++ block_marks c → m' ∈ Chain.marks T ++ block_marks c → Mark.hash m = Mark.hash m' → m = m'.
Proof. apply (unique_key_inj Mark.hash). apply Hadm. Qed.
Lemma all_marks_nonce m m' k :
  m ∈ Chain.marks T ++ block_marks c → m' ∈ Chain.marks T ++ block_marks c →
  nonce_of (Mark.transaction m) = Some k → nonce_of (Mark.transaction m') = Some k → m = m'.
Proof. intros. apply (unique_some_key_inj (nonce_of ∘ Mark.transaction) (Chain.marks T ++ block_marks c) _ _ k); [apply Hadm|done..]. Qed.
Lemma new_hits_not_old m m' r : m ∈ Chain.marks T → m' ∈ block_marks c → row_of_mark r m → hits r (Mark.result m') = false.
Proof.
  intros Hm Hm' Hr. apply not_true_iff_false. intros Hh. apply (old_not_new m m' Hm Hm'). unfold hits in Hh.
  assert (Hx : m ∈ Chain.marks T ++ block_marks c) by (apply elem_of_app; by left).
  assert (Hx' : m' ∈ Chain.marks T ++ block_marks c) by (apply elem_of_app; by right).
  destruct (kind_of (tx_of (Mark.result m'))).
  - apply same_nonce_spec in Hh as (k & Hk' & Hk). apply (all_marks_nonce _ _ k Hx Hx'); [|done].
    rewrite (row_transaction _ _ Hr), nonce_of_stored in Hk. done.
  - apply bool_decide_eq_true in Hh. apply (all_marks_hash _ _ Hx Hx'). by rewrite <-(row_hash _ _ Hr).
  - apply bool_decide_eq_true in Hh. apply (all_marks_hash _ _ Hx Hx'). by rewrite <-(row_hash _ _ Hr).
Qed.
Lemma new_marks_hash m m' : m ∈ block_marks c → m' ∈ block_marks c → Mark.hash m = Mark.hash m' → m = m'.
Proof. intros. apply all_marks_hash; [apply elem_of_app; by right..|done]. Qed.

(** The row that is written for a transaction of the block. *)
Lemma executed_row_mark e row tx :
  in_block c e → (∀ r, row = Some r → TransactionRow.l1_batch_number r = None) →
  tx = stored_transaction (hash_of (Executed.result e)) (tx_of (Executed.result e)) (Transaction.received_timestamp_ms tx) →
  row_of_mark (executed_row (number c) e (hash_of (Executed.result e)) tx row) (mark_of c e).
Proof.
  intros He Hrow Htx. split; cbn; try done.
  - f_equal. unfold to_signed. destruct Hadm. by rewrite decide_True by (cbn; lia).
  - destruct row; [|done]. cbn. auto.
Qed.

(** The rows after the subtask: those of the chain, those of the block, and those that were
    and are in no block. *)
Record new_rows db (rows : list TransactionRow.t) : Prop := {
  nr_sound r : r ∈ rows → r ∈ transactions db ∨ ∃ m, m ∈ block_marks c ∧ row_of_mark r m;
  nr_kept m r : m ∈ Chain.marks T → r ∈ transactions db → row_of_mark r m → r ∈ rows;
  nr_complete m : m ∈ block_marks c → ∃ r, r ∈ rows ∧ row_of_mark r m;
}.
Lemma new_rows_agree db db' :
  agrees MarkTransactionsInL2Block n db T → new_rows db (transactions db') →
  NoDup (TransactionRow.hash <$> transactions db') → NoDup (omap nonce_key (transactions db')) →
  (∀ m t, m ∈ Chain.marks T → (Mark.hash m, t) ∈ call_traces db → (Mark.hash m, t) ∈ call_traces db') →
  (∀ m t, m ∈ block_marks c → call_trace (Mark.result m) = Ret (Some t) → (Mark.hash m, t) ∈ call_traces db') →
  agrees MarkTransactionsInL2Block (n + 1) db' (seal_block c T).
Proof.
  intros [[Hs Hc Ht Ho _ _] Hafter] [Hsound Hkept Hcomplete] Hh Hn Htr Htr'. split; [split; try done|]; cbn [seal_block Chain.marks].
  - intros r b Hr Hb _. destruct (Hsound r Hr) as [Hr'|(m & Hm & Hrm)].
    + destruct (Hs r b Hr' Hb) as (m & Hm & Hrm); [by eapply Hafter|]. exists m. split; [|done]. apply elem_of_app. by left.
    + exists m. split; [|done]. apply elem_of_app. by right.
  - intros m [Hm|Hm]%elem_of_app; [|eauto]. destruct (Hc m Hm) as (r & Hr & Hrm). eauto.
  - intros m t [Hm|Hm]%elem_of_app E; [|eauto]. apply Htr; [done|by apply Ht].
  - intros r Hr Hb. destruct (Hsound r Hr) as [Hr'|(m & Hm & Hrm)]; [by apply Ho|]. by rewrite (row_block _ _ Hrm) in Hb.
  - intros r b Hr Hb. destruct (Hsound r Hr) as [Hr'|(m & Hm & Hrm)]; [pose proof (Hafter r b Hr' Hb); lia|].
    rewrite (row_block _ _ Hrm) in Hb. injection Hb as <-. pose proof (block_marks_block c) as Hbl. rewrite Forall_forall in Hbl.
    rewrite (Hbl _ Hm). destruct Hadm. lia.
Qed.

(** *** Rows that are updated *)
Section update.
Context (E2 E1 E0 : list Executed.t).
Context (HE2 : block_part c L2Kind E2) (HE1 : block_part c L1Kind E1) (HE0 : block_part c UpgradeKind E0).
Definition update_row (r : TransactionRow.t) : TransactionRow.t :=
  update_row_by_hash (number c) E0 (update_row_by_hash (number c) E1 (update_l2_row (number c) E2 r)).

Lemma by_hash_miss kind E r :
  block_part c kind E → (∀ m, m ∈ block_marks c → kind_of (Mark.transaction m) = kind → Mark.hash m ≠ TransactionRow.hash r) →
  update_row_by_hash (number c) E r = r.
Proof.
  intros [HE _] Hr. unfold update_row_by_hash. destruct (list_find _ _) as [[i e]|] eqn:Ef; [|done].
  apply list_find_Some in Ef as (He & Hh & _). apply list_elem_of_lookup_2, HE in He as [He Hk]. by destruct (Hr _ He Hk).
Qed.
Lemma by_hash_hit kind E r m :
  block_part c kind E → m ∈ block_marks c → kind_of (Mark.transaction m) = kind → Mark.hash m = TransactionRow.hash r →
  ∃ e, mark_of c e = m ∧ update_row_by_hash (number c) E r = executed_row (number c) e (Mark.hash m) (TransactionRow.transaction r) (Some r).
Proof.
  intros [HE HE'] Hm Hk Hh. destruct (HE' m Hm Hk) as (e & He & Em). unfold update_row_by_hash.
  destruct (list_find _ _) as [[i e']|] eqn:Ef.
  - apply list_find_Some in Ef as (He' & Hh' & _). apply list_elem_of_lookup_2, HE in He' as [He' Hk']. exists e'.
    split; [|by rewrite Hh]. apply new_marks_hash; [done|done|]. by rewrite Hh.
  - apply list_find_None in Ef. rewrite Forall_forall in Ef. destruct (Ef e He). by rewrite <-Hh, <-Em.
Qed.
Lemma by_nonce_miss r :
  (∀ m, m ∈ block_marks c → same_nonce (Mark.transaction m) (TransactionRow.transaction r) = false) → update_l2_row (number c) E2 r = r.
Proof.
  intros Hr. destruct HE2 as [HE _]. unfold update_l2_row. destruct (list_find _ _) as [[i e]|] eqn:Ef; [|done].
  apply list_find_Some in Ef as (He & Hh & _). apply list_elem_of_lookup_2, HE in He as [He Hk]. apply Hr in He. unfold Mark.transaction in He. cbn [mark_of Mark.result] in He. congruence.
Qed.
Lemma by_nonce_hit r m :
  m ∈ block_marks c → same_nonce (Mark.transaction m) (TransactionRow.transaction r) = true →
  ∃ e, mark_of c e = m ∧ update_l2_row (number c) E2 r = executed_row (number c) e (Mark.hash m)
    (stored_transaction (Mark.hash m) (Mark.transaction m) (Transaction.received_timestamp_ms (TransactionRow.transaction r))) (Some r).
Proof.
  intros Hm Hh. destruct HE2 as [HE HE']. pose proof Hh as (k & Hk & Hkr)%same_nonce_spec.
  destruct (HE' m Hm) as (e & He & Em); [apply nonce_of_kind; congruence|]. unfold update_l2_row.
  destruct (list_find _ _) as [[i e']|] eqn:Ef.
  - apply list_find_Some in Ef as (He' & Hh' & _). apply list_elem_of_lookup_2, HE in He' as [He' Hk']. exists e'.
    assert (Eq : mark_of c e' = m); [|by rewrite <-Eq]. apply same_nonce_spec in Hh' as (k' & Hk1 & Hk2).
    apply (all_marks_nonce _ _ k'); [apply elem_of_app; by right..|done|congruence].
  - apply list_find_None in Ef. rewrite Forall_forall in Ef. destruct (Ef e He). by rewrite <-Em in Hh.
Qed.

Lemma kinds_differ m m' k k' :
  m ∈ block_marks c → m' ∈ block_marks c → kind_of (Mark.transaction m) = k → kind_of (Mark.transaction m') = k' → k ≠ k' →
  Mark.hash m' ≠ Mark.hash m.
Proof. intros Hm Hm' Hk Hk' Hne Hh. apply new_marks_hash in Hh; [|done..]. subst. done. Qed.

Lemma update_row_miss r : (∀ m, m ∈ block_marks c → hits r (Mark.result m) = false) → update_row r = r.
Proof.
  intros Hr. unfold update_row. rewrite by_nonce_miss.
  - rewrite (by_hash_miss L1Kind E1), (by_hash_miss UpgradeKind E0); try done; intros m Hm Hk Hh; specialize (Hr m Hm); unfold hits, Mark.transaction in *;
      rewrite Hk, bool_decide_eq_false in Hr; done.
  - intros m Hm. apply not_true_iff_false. intros Hs. pose proof Hs as (k & Hk & _)%same_nonce_spec. specialize (Hr m Hm). unfold hits in Hr.
    assert (Hkind : kind_of (Mark.transaction m) = L2Kind) by (apply nonce_of_kind; congruence).
    unfold Mark.transaction in *. rewrite Hkind in Hr. congruence.
Qed.
Lemma update_row_hit r m :
  m ∈ block_marks c → TransactionRow.l1_batch_number r = None → hits r (Mark.result m) = true →
  (kind_of (Mark.transaction m) ≠ L2Kind → TransactionRow.transaction r =
     stored_transaction (Mark.hash m) (Mark.transaction m) (Transaction.received_timestamp_ms (TransactionRow.transaction r))) →
  row_of_mark (update_row r) m.
Proof.
  intros Hm Hb Hh Hp. unfold hits in Hh. fold (Mark.transaction m) in Hh. unfold update_row.
  destruct (kind_of (Mark.transaction m)) eqn:Hk.
  - destruct (by_nonce_hit r m Hm Hh) as (e & <- & ->).
    rewrite (by_hash_miss L1Kind E1), (by_hash_miss UpgradeKind E0); try done;
      [|intros m' Hm' Hk'; by apply (kinds_differ _ _ _ _ Hm Hm' Hk Hk')..].
    apply executed_row_mark; [done|by intros ? [= <-]|]. by rewrite received_stored.
  - apply bool_decide_eq_true in Hh. rewrite by_nonce_miss.
    + destruct (by_hash_hit L1Kind E1 r m) as (e & <- & ->); try done.
      rewrite (by_hash_miss UpgradeKind E0); try done; [|intros m' Hm' Hk'; by apply (kinds_differ _ _ _ _ Hm Hm' Hk Hk')].
      apply executed_row_mark; [done|by intros ? [= <-]|]. by apply Hp.
    + intros m' Hm'. apply not_true_iff_false. intros (k & _ & Hk')%same_nonce_spec. rewrite Hp, nonce_of_stored in Hk' by done.
      assert (kind_of (Mark.transaction m) = L2Kind) by (apply nonce_of_kind; congruence). congruence.
  - apply bool_decide_eq_true in Hh. rewrite by_nonce_miss.
    + rewrite (by_hash_miss L1Kind E1); try done; [|intros m' Hm' Hk'; rewrite <-Hh; by apply (kinds_differ _ _ _ _ Hm Hm' Hk Hk')].
      destruct (by_hash_hit UpgradeKind E0 r m) as (e & <- & ->); try done.
      apply executed_row_mark; [done|by intros ? [= <-]|]. by apply Hp.
    + intros m' Hm'. apply not_true_iff_false. intros (k & _ & Hk')%same_nonce_spec. rewrite Hp, nonce_of_stored in Hk' by done.
      assert (kind_of (Mark.transaction m) = L2Kind) by (apply nonce_of_kind; congruence). congruence.
Qed.

Lemma update_rows db :
  agrees MarkTransactionsInL2Block n db T →
  (∀ res, res ∈ executed c → ∃ r, r ∈ transactions db ∧ TransactionRow.miniblock_number r = None ∧ hits r res = true ∧
    (kind_of (tx_of res) ≠ L2Kind →
     TransactionRow.transaction r = stored_transaction (hash_of res) (tx_of res) (Transaction.received_timestamp_ms (TransactionRow.transaction r)))) →
  new_rows db (update_row <$> transactions db).
Proof.
  intros [Hm Hafter] Hknown.
  assert (Hknown' : ∀ m, m ∈ block_marks c → ∃ r, r ∈ transactions db ∧ row_of_mark (update_row r) m ∧ hits r (Mark.result m) = true ∧
    (kind_of (Mark.transaction m) ≠ L2Kind → TransactionRow.transaction r =
       stored_transaction (Mark.hash m) (Mark.transaction m) (Transaction.received_timestamp_ms (TransactionRow.transaction r)))).
  { intros m Hbm. pose proof Hbm as (k & res & Ek & Em)%elem_block_marks.
    destruct (Hknown res) as (r & Hr & Ho & Hh & Hp); [by eapply list_elem_of_lookup_2|]. exists r. split; [done|].
    assert (Er : Mark.result m = res) by by subst. unfold Mark.transaction, Mark.hash. rewrite Er. split; [|done].
    apply update_row_hit; [done|by apply (tm_open _ _ _ Hm)|by rewrite Er|]. unfold Mark.transaction, Mark.hash. by rewrite Er. }
  assert (Hold : ∀ m r, m ∈ Chain.marks T → row_of_mark r m → update_row r = r).
  { intros m r Hmk Hrm. apply update_row_miss. intros m' Hm'. by apply (new_hits_not_old m m'). }
  split.
  - intros r' (r & -> & Hr)%list_elem_of_fmap. destruct (TransactionRow.miniblock_number r) as [b|] eqn:Eb.
    + destruct (tm_sound _ _ _ Hm r b Hr Eb) as (m & Hmk & Hrm); [by eapply Hafter|]. left. by rewrite (Hold m r Hmk Hrm).
    + destruct (decide (Exists (λ m, hits r (Mark.result m) = true) (block_marks c))) as [(m & Hbm & Hh)%Exists_exists|Hno].
      * right. exists m. split; [done|]. destruct (Hknown' m Hbm) as (r1 & Hr1 & _ & Hh1 & Hp).
        apply update_row_hit; [done|by apply (tm_open _ _ _ Hm)|done|]. intros Hk.
        assert (r1 = r) as ->.
        { apply (unique_key_inj TransactionRow.hash _ _ _ (tm_hashes _ _ _ Hm)); [done|done|]. unfold hits in *. fold (Mark.transaction m) in *.
          destruct (kind_of (Mark.transaction m)); [done| |]; apply bool_decide_eq_true in Hh, Hh1; congruence. }
        by apply Hp.
      * left. rewrite update_row_miss; [done|]. intros m Hbm. apply not_true_iff_false. intros Hh. apply Hno, Exists_exists. eauto.
  - intros m r Hmk Hr Hrm. apply list_elem_of_fmap. exists r. by rewrite (Hold m r Hmk Hrm).
  - intros m (r & Hr & Hrm & _)%Hknown'. exists (update_row r). split; [|done]. apply list_elem_of_fmap. eauto.
Qed.
End update.

(** *** Rows that are inserted *)
Section insert.
Context (now : Z).
Definition insert_rows_of (E : list Executed.t) : list TransactionRow.t :=
  (λ e, executed_row (number c) e (hash_of (Executed.result e)) (stored_transaction (hash_of (Executed.result e)) (tx_of (Executed.result e)) now) None) <$> E.
Definition replaced (r : TransactionRow.t) : bool :=
  existsb (λ res, bool_decide (hash_of res = TransactionRow.hash r) || same_nonce (tx_of res) (TransactionRow.transaction r)) (executed c).

Lemma old_not_replaced m r : m ∈ Chain.marks T → row_of_mark r m → replaced r = false.
Proof.
  intros Hm Hr. apply not_true_iff_false. unfold replaced. rewrite existsb_exists. intros (res & Hres & Hx).
  apply list_elem_of_In, list_elem_of_lookup in Hres as (k & Ek).
  set (m' := Mark.mk (number c) (Z.of_nat k) res (price_of c (tx_of res)) None).
  assert (Hm' : m' ∈ block_marks c) by (apply elem_block_marks; eauto). apply (old_not_new m m' Hm Hm').
  assert (Hx1 : m ∈ Chain.marks T ++ block_marks c) by (apply elem_of_app; by left).
  assert (Hx2 : m' ∈ Chain.marks T ++ block_marks c) by (apply elem_of_app; by right).
  apply orb_true_iff in Hx as [Hx|Hx].
  - apply bool_decide_eq_true in Hx. apply (all_marks_hash _ _ Hx1 Hx2). by rewrite <-(row_hash _ _ Hr).
  - apply same_nonce_spec in Hx as (q & Hk' & Hk). apply (all_marks_nonce _ _ q Hx1 Hx2); [|done].
    rewrite (row_transaction _ _ Hr), nonce_of_stored in Hk. done.
Qed.

Lemma insert_rows_sound kind E r : block_part c kind E → r ∈ insert_rows_of E → ∃ m, m ∈ block_marks c ∧ row_of_mark r m.
Proof.
  intros [HE _] (e & -> & He)%list_elem_of_fmap. exists (mark_of c e). apply HE in He as [He _]. split; [done|].
  apply executed_row_mark; [done|done|]. by rewrite received_stored.
Qed.
Lemma insert_rows_complete kind E m :
  block_part c kind E → m ∈ block_marks c → kind_of (Mark.transaction m) = kind → ∃ r, r ∈ insert_rows_of E ∧ row_of_mark r m.
Proof.
  intros [HE HE'] Hm Hk. destruct (HE' m Hm Hk) as (e & He & <-). eexists. split; [apply list_elem_of_fmap; eauto|].
  apply executed_row_mark; [by apply HE|done|]. by rewrite received_stored.
Qed.
Lemma insert_rows_new E2 E1 E0 db :
  block_part c L2Kind E2 → block_part c L1Kind E1 → block_part c UpgradeKind E0 →
  new_rows db (((delete_where replaced (transactions db) ++ insert_rows_of E2) ++ insert_rows_of E1) ++ insert_rows_of E0).
Proof.
  intros HE2 HE1 HE0. split.
  - intros r [[[Hr|Hr]%elem_of_app|Hr]%elem_of_app|Hr]%elem_of_app; [|right; eapply insert_rows_sound; [|exact Hr]; eassumption..].
    left. by apply elem_of_delete_where in Hr as [_ ?].
  - intros m r Hm Hr Hrm. rewrite !elem_of_app. left. left. left. apply elem_of_delete_where. split; [|done]. by eapply old_not_replaced.
  - intros m Hm. destruct (kind_of (Mark.transaction m)) eqn:Hk;
      [destruct (insert_rows_complete _ E2 m HE2 Hm Hk) as (r & Hr & Hrm)|destruct (insert_rows_complete _ E1 m HE1 Hm Hk) as (r & Hr & Hrm)
      |destruct (insert_rows_complete _ E0 m HE0 Hm Hk) as (r & Hr & Hrm)]; exists r; rewrite !elem_of_app; auto.
Qed.
End insert.

(** ** The subtask *)
Lemma store_transactions_inr f db db' :
  store_transactions f db = Ret (inr (), db') →
  db' = set_transactions (f (transactions db)) db ∧ NoDup (TransactionRow.hash <$> transactions db') ∧ NoDup (omap nonce_key (transactions db')).
Proof. unfold store_transactions. intros Hr%execute_inr. cbn zeta in Hr. case_decide as Hd; [|done]. injection Hr as <-. by destruct Hd. Qed.
Lemma call_trace_rows_spec results traces res t :
  call_trace_rows results = Ret traces → res ∈ results → call_trace res = Ret (Some t) → (hash_of res, t) ∈ traces.
Proof.
  unfold call_trace_rows. assert (Hg : ∀ acc, foldM (λ acc res, trace ← call_trace res;
      Ret (acc ++ match trace with Some call => [(hash_of res, call)] | None => [] end)) acc results = Ret traces →
    (∀ x, x ∈ acc → x ∈ traces) ∧ (res ∈ results → call_trace res = Ret (Some t) → (hash_of res, t) ∈ traces)).
  { induction results as [|res' results IH]; intros acc Hr; cbn [foldM] in Hr.
    - injection Hr as <-. split; [done|]. by intros ?%elem_of_nil.
    - inv_exec. subst. apply IH in H0 as [Ha Hb]. split; [intros x Hx; apply Ha, elem_of_app; by left|].
      intros [->|Hres]%elem_of_cons Et; [|by apply Hb]. apply Ha, elem_of_app. right. rewrite Et in H. injection H as <-. by apply list_elem_of_singleton. }
  intros Hr. by apply (Hg []) in Hr as [_ Hr].
Qed.
Lemma atomically_inr {A} (m : Q A) db a db' : atomically m db = Ret (inr a, db') → m db = Ret (inr a, db').
Proof. unfold atomically. destruct (m db) as [[[]?]|]; naive_solver. Qed.

(** What the statements before the call traces write. *)
Definition rows_written (now : Z) : Q () :=
  if pre_insert_txs c then
    _ ← remove_old_transactions (executed c);
    _ ← insert_executed_l2_transactions now (number c) (base_fee_per_gas c) (executed c);
    _ ← insert_executed_l1_transactions now (number c) (executed c);
    insert_executed_upgrade_transactions now (number c) (executed c)
  else
    _ ← update_executed_l2_transactions (number c) (base_fee_per_gas c) (executed c);
    _ ← update_executed_l1_transactions (number c) (executed c);
    update_executed_upgrade_transactions (number c) (executed c).
Lemma rows_written_new now db db' :
  agrees MarkTransactionsInL2Block n db T → known c db → rows_written now db = Ret (inr (), db') →
  new_rows db (transactions db') ∧ NoDup (TransactionRow.hash <$> transactions db') ∧ NoDup (omap nonce_key (transactions db')) ∧
  (∀ m t, m ∈ Chain.marks T → (Mark.hash m, t) ∈ call_traces db → (Mark.hash m, t) ∈ call_traces db').
Proof.
  intros Ha Hknown. unfold rows_written, remove_old_transactions. destruct (pre_insert_txs c) eqn:Epre; intros Hr.
  - apply prog_bind_inr in Hr as ([] & db1 & Hr1 & Hr). apply execute_inr in Hr1. injection Hr1 as <-.
    apply prog_bind_inr in Hr as ([] & db2 & Hr2 & Hr). apply prog_bind_inr in Hr as ([] & db3 & Hr3 & Hr4).
    unfold insert_executed_l2_transactions, insert_executed_l1_transactions, insert_executed_upgrade_transactions, insert_executed_transactions in *.
    apply prog_bind_inr in Hr2 as (E2 & ? & [-> HE2]%executed_in_block & (-> & _ & _)%store_transactions_inr); [|done].
    apply prog_bind_inr in Hr3 as (E1 & ? & [-> HE1]%executed_in_block & (-> & _ & _)%store_transactions_inr); [|done].
    apply prog_bind_inr in Hr4 as (E0 & ? & [-> HE0]%executed_in_block & (-> & Hh & Hn)%store_transactions_inr); [|done].
    split; [by apply insert_rows_new|]. split; [done|]. split; [done|]. intros m t Hm Ht. cbn. apply elem_of_delete_where. split; [|done].
    apply bool_decide_eq_false_2. intros (r & Er & [Hrep Hr]%list_elem_of_filter)%list_elem_of_fmap. destruct Ha as [Ha _].
    destruct (tm_complete _ _ _ Ha m Hm) as (r' & Hr' & Hrm).
    assert (r = r') as -> by (apply (unique_key_inj TransactionRow.hash _ _ _ (tm_hashes _ _ _ Ha)); [done|done|]; by rewrite (row_hash _ _ Hrm)).
    pose proof (old_not_replaced m r' Hm Hrm) as Hno. unfold replaced in Hno. congruence.
  - destruct Hknown as [?|Hknown]; [congruence|].
    apply prog_bind_inr in Hr as ([] & db2 & Hr2 & Hr). apply prog_bind_inr in Hr as ([] & db3 & Hr3 & Hr4).
    unfold update_executed_l2_transactions, update_executed_l1_transactions, update_executed_upgrade_transactions, update_executed_transactions in *.
    apply prog_bind_inr in Hr2 as (E2 & ? & [-> HE2]%executed_in_block & (-> & _ & _)%store_transactions_inr); [|done].
    apply prog_bind_inr in Hr3 as (E1 & ? & [-> HE1]%executed_in_block & (-> & _ & _)%store_transactions_inr); [|done].
    apply prog_bind_inr in Hr4 as (E0 & ? & [-> HE0]%executed_in_block & (-> & Hh & Hn)%store_transactions_inr); [|done].
    split; [|done]. cbn [set_transactions transactions]. rewrite <-!list_fmap_compose. by apply update_rows.
Qed.

(** The marks of the block are added to those of the chain. *)
Lemma mark_agrees now db db' :
  agrees MarkTransactionsInL2Block n db T → known c db → subtask_run now MarkTransactionsInL2Block c db = Ret (inr (), db') →
  agrees MarkTransactionsInL2Block (n + 1) db' (seal_block c T).
Proof.
  intros Ha Hknown Hr. cbn [subtask_run] in Hr. apply atomically_inr in Hr.
  apply prog_bind_inr in Hr as (traces & db0 & [Htr ->]%lift_exec_inr & Hr). apply prog_bind_inr in Hr as ([] & db1 & Hr1 & Hr2).
  apply (rows_written_new now) in Hr1 as (Hrows & Hh & Hn & Hold); [|done..].
  assert (Hdb' : transactions db' = transactions db1 ∧ call_traces db' = call_traces db1 ++ traces).
  { destruct traces as [|t traces]; [injection Hr2 as <-; by rewrite app_nil_r|]. unfold insert_call_traces in Hr2. apply execute_inr in Hr2. case_decide; [|done].
    destruct (insert_unique _ _ _) as [|rows] eqn:Ei; [done|]. apply insert_unique_inr in Ei as ->. by injection Hr2 as <-. }
  destruct Hdb' as [Et Ec]. apply (new_rows_agree db); rewrite ?Et, ?Ec; try done.
  - intros m t Hm Hmt. apply elem_of_app. left. by apply Hold.
  - intros m t (k & res & Ek & ->)%elem_block_marks E. apply elem_of_app. right. eapply call_trace_rows_spec; [done| |done].
    by eapply list_elem_of_lookup_2.
Qed.
End block.
End marks.
