(* ===== verification/PersistenceCorrect.v ===== *)
(** * Sealing blocks and batches

    The subtasks of a block, in any order, and its header make the tables those of the chain
    with the block; so does the transaction of a batch with its empty last block. *)
From S2P Require Import Prelude Types Abi Sql VmLimits Float Deduplicator FeeModel TxEncoding VmErrors StateDiffs SealCriteria VmInterface KeeperUpdates BatchExecutor StateKeeper KeeperChain KeeperDal KeeperDb Persistence PersistenceSpec PersistenceMarks.
Local Open Scope Z_scope.
Import KeeperDb L2BlockSealCommand SealCommand.

Section sealing.
Context `{LT : TxLib, LK : KeeperLib, LA : TokenAbi, LS : StorageKeyHash, LC : CopyText}.
Implicit Types (c : L2BlockSealCommand.t) (T : Chain.t) (db : KeeperDb.t).

(** ** Sealing a block *)
Lemma subtask_agrees_next now s c n db db' T :
  chain_wf n T → admissible n c T → (s = MarkTransactionsInL2Block → known c db) → agrees s n db T →
  subtask_run now s c db = Ret (inr (), db') → agrees s (n + 1) db' (seal_block c T).
Proof.
  intros Hwf Hadm Hk Ha Hr. destruct (decide (s = MarkTransactionsInL2Block)) as [->|Hs]; [|by eapply subtask_agrees].
  eapply mark_agrees; eauto.
Qed.
(** One after another, each on its own tables. *)
Definition progress (done : list Subtask) (n : Z) c db T : Prop :=
  ∀ s, if decide (s ∈ done) then agrees s (n + 1) db (seal_block c T) else agrees s n db T.
Lemma known_frame s c db db' : s ≠ MarkTransactionsInL2Block → frame s db db' → known c db → known c db'.
Proof. intros Hs (_&_&_&_&_&Ht&_) [Hk|Hk]; [by left|right]. destruct (Ht Hs) as [-> _]. done. Qed.
Lemma progress_step now s done c n db db' T :
  chain_wf n T → admissible n c T → (s = MarkTransactionsInL2Block → known c db) → s ∉ done → progress done n c db T →
  subtask_run now s c db = Ret (inr (), db') → progress (s :: done) n c db' T.
Proof.
  intros Hwf Hadm Hk Hs Hp Hr s'. specialize (Hp s') as Hp'. destruct (decide (s' = s)) as [->|Hne].
  - rewrite decide_True by left. rewrite decide_False in Hp' by done. by eapply subtask_agrees_next.
  - apply subtask_frame in Hr. destruct (decide (s' ∈ done)).
    + rewrite decide_True by by right. by eapply frame_agrees.
    + rewrite decide_False; [by eapply frame_agrees|]. by intros [?|?]%elem_of_cons.
Qed.
Lemma all_subtasks_complete s : s ∈ all_subtasks.
Proof. unfold all_subtasks. destruct s; set_solver. Qed.
Lemma progress_all done n c db T : (∀ s, s ∈ done) → progress done n c db T → ∀ s, agrees s (n + 1) db (seal_block c T).
Proof. intros Hd Hp s. specialize (Hp s). by rewrite decide_True in Hp. Qed.
Lemma progress_none n c db T : progress [] n c db T ↔ ∀ s, agrees s n db T.
Proof. done. Qed.

Lemma run_order now order done c n db db' T :
  chain_wf n T → admissible n c T → (MarkTransactionsInL2Block ∈ order → known c db) → NoDup order → (∀ s, s ∈ order → s ∉ done) →
  headers_match db T → progress done n c db T → foldP (λ _ s, subtask_run now s c) () order db = Ret (inr (), db') →
  headers_match db' T ∧ progress (reverse order ++ done) n c db' T.
Proof.
  intros Hwf Hadm. revert done db. induction order as [|s order IH]; intros done db Hk Hnd Hdis Hh Hp Hr; cbn [foldP] in Hr.
  { by injection Hr as <-. }
  apply prog_bind_inr in Hr as ([] & db1 & Hr1 & Hr). apply NoDup_cons in Hnd as [Hs Hnd].
  pose proof (subtask_frame _ _ _ _ _ Hr1) as Hf. rewrite reverse_cons, <-app_assoc. apply (IH (s :: done) db1); try done.
  - intros Hmark. assert (s ≠ MarkTransactionsInL2Block) by by intros ->. eapply known_frame; [done..|]. apply Hk. by right.
  - intros s' Hs' [->|Hd]%elem_of_cons; [done|]. revert Hd. apply Hdis. by right.
  - by eapply frame_headers.
  - eapply progress_step; try done; [intros ->; apply Hk; left|]. apply Hdis. left.
Qed.

(** The headers are no subtask's. *)
Lemma same_rows_agree s n db db' T :
  transactions db' = transactions db → call_traces db' = call_traces db → storage_logs db' = storage_logs db →
  factory_deps db' = factory_deps db → tokens db' = tokens db → events db' = events db → l2_to_l1_logs db' = l2_to_l1_logs db →
  agrees s n db T → agrees s n db' T.
Proof.
  intros Et Ec El Ef Ek Ee Eg. destruct s; cbn; rewrite ?El, ?Ef, ?Ek, ?Ee, ?Eg; try done.
  intros [? ?]. split; [by eapply transactions_match_same|by eapply no_block_after_same].
Qed.
Lemma insert_header c n db db' T :
  headers_match db T → (∀ s, agrees s (n + 1) db (seal_block c T)) → BlocksDal.insert_l2_block (l2_block_header c) db = Ret (inr (), db') →
  matches (n + 1) db' (seal_block c T).
Proof.
  intros [Hm Hb Hr Hw Hs] Ha Hins. unfold BlocksDal.insert_l2_block in Hins. apply insert_rows in Hins as ->.
  split; [split; cbn; try done; by rewrite Hm|]. intros s. eapply (same_rows_agree s (n + 1) db); [done..|apply Ha].
Qed.

(** The subtasks one after another and the header, as in the transaction of a batch. *)
Lemma seal_inner_matches now c is_fictive n db db' T :
  chain_wf n T → admissible n c T → known c db → matches n db T →
  seal_inner now c is_fictive db = Ret (inr (), db') → matches (n + 1) db' (seal_block c T).
Proof.
  intros Hwf Hadm Hk [Hh Ha] Hr. unfold seal_inner in Hr.
  apply prog_bind_inr in Hr as ([] & ? & [_ ->]%of_result_inr & Hr). apply prog_bind_inr in Hr as ([] & db1 & Hrun & Hins).
  apply (run_order now all_subtasks [] c n) with (T := T) in Hrun as [Hh' Hp]; try done.
  - eapply insert_header; [done| |done]. eapply progress_all; [|done]. intros s. rewrite app_nil_r. apply elem_of_reverse, all_subtasks_complete.
  - unfold all_subtasks. repeat constructor; set_solver.
  - intros s _. apply not_elem_of_nil.
Qed.

(** ** Sealing a batch *)
(** The batch has transactions of the chain, and its last block is the next one. *)
Record admissible_batch (n : Z) (u : UpdatesManager.t) c T : Prop := {
  ab_block : admissible n c T;
  ab_txs : Forall (λ res, ∃ m, m ∈ Chain.marks T ∧ Mark.hash m = TransactionExecutionResult.hash res)
             (L1BatchUpdates.executed_transactions (UpdatesManager.l1_batch u));
}.

Lemma in_batch_number b r : MiniblockRow.number (in_batch b r) = MiniblockRow.number r.
Proof. unfold in_batch. by case_decide. Qed.
Lemma in_batch_numbers b (l : list MiniblockRow.t) : MiniblockRow.number <$> (in_batch b <$> l) = MiniblockRow.number <$> l.
Proof. rewrite <-list_fmap_compose. apply list_fmap_ext. intros. apply in_batch_number. Qed.
Lemma set_batch_same b results m :
  Mark.hash (Mark.set_batch b results m) = Mark.hash m ∧ Mark.transaction (Mark.set_batch b results m) = Mark.transaction m ∧
  Mark.block (Mark.set_batch b results m) = Mark.block m ∧ Mark.result (Mark.set_batch b results m) = Mark.result m.
Proof. unfold Mark.set_batch. by destruct (list_find _ _) as [[]|]. Qed.

Lemma to_be_removed_ext db db' n r :
  last_block_number db' = last_block_number db → storage_logs db' = storage_logs db → TokensDal.to_be_removed db' n r = TokensDal.to_be_removed db n r.
Proof. intros El Es. unfold TokensDal.to_be_removed, StorageLogsDal.deployed_at. by rewrite El, Es. Qed.

Lemma chain_wf_seal_batch protective u f n c T : chain_wf n (seal_block c T) → chain_wf n (seal_batch protective u f c T).
Proof.
  intros [Hl Hw Hm Hs Hf He Hg Hk Ht Hh Hn]. set (b := L1BatchUpdates.number (UpdatesManager.l1_batch u)).
  assert (Hlast : last_block_number (Chain.tables (seal_batch protective u f c T)) = Some n).
  { rewrite <-Hl. unfold last_block_number. cbn [seal_batch Chain.tables miniblocks snapshot_recovery]. by rewrite in_batch_numbers. }
  split; try done; cbn [seal_batch Chain.tables Chain.marks miniblocks tokens].
  - apply Forall_fmap. eapply Forall_impl; [done|]. cbn. intros r. by rewrite in_batch_number.
  - apply Forall_fmap. eapply Forall_impl; [done|]. cbn. intros m. by rewrite (proj1 (proj2 (proj2 (set_batch_same _ _ m)))).
  - eapply Forall_impl; [done|]. cbn beta. intros r <-. apply to_be_removed_ext; [etrans; [exact Hlast|done]|done].
  - rewrite <-list_fmap_compose. erewrite list_fmap_ext; [exact Hh|]. intros i m _. apply set_batch_same.
  - rewrite omap_fmap_same; [done|]. intros m _. cbn. f_equal. apply set_batch_same.
Qed.

(** *** The rows of the batch's transactions *)
Lemma set_batch_row b results r m :
  row_of_mark r m →
  row_of_mark (match list_find (λ res, TransactionExecutionResult.hash res = TransactionRow.hash r) results with
     | Some (i, _) => TransactionRow.mk (TransactionRow.hash r) (TransactionRow.transaction r) (TransactionRow.miniblock_number r)
         (TransactionRow.index_in_block r) (Some b) (Some (Z.of_nat i)) (TransactionRow.error r) (TransactionRow.execution_info r)
         (TransactionRow.refunded_gas r) (TransactionRow.effective_gas_price r) (TransactionRow.in_mempool r)
     | None => r end) (Mark.set_batch b results m).
Proof.
  intros []. unfold Mark.set_batch. rewrite row_hash. destruct (list_find _ _) as [[i res]|]; [|by split].
  split; cbn; try done. by intros b' i' [= <- <-].
Qed.
Lemma mark_batch_agrees b results n db T T' db' :
  Chain.marks T' = Mark.set_batch b results <$> Chain.marks T →
  Forall (λ res, ∃ m, m ∈ Chain.marks T ∧ Mark.hash m = TransactionExecutionResult.hash res) results →
  agrees MarkTransactionsInL2Block n db T →
  TransactionsDal.mark_txs_as_executed_in_l1_batch b results db = Ret (inr (), db') → agrees MarkTransactionsInL2Block n db' T'.
Proof.
  intros ET' Hres [[Hs Hc Ht Ho Hh Hn] Ha] Hr. unfold TransactionsDal.mark_txs_as_executed_in_l1_batch in Hr. apply execute_inr in Hr. injection Hr as <-. split; [split|]; cbn [set_transactions transactions call_traces].
  - intros r' x (r & -> & Hr)%list_elem_of_fmap Hx Hle. destruct (Hs r x Hr) as (m & Hm & Hrm); [by destruct (list_find _ _) as [[]|]|done|].
    exists (Mark.set_batch b results m). rewrite ET'. split; [apply list_elem_of_fmap; eauto|]. by apply set_batch_row.
  - rewrite ET'. intros m' (m & -> & Hm)%list_elem_of_fmap. destruct (Hc m Hm) as (r & Hr & Hrm).
    eexists. split; [apply list_elem_of_fmap; eauto|]. by apply set_batch_row.
  - rewrite ET'. intros m' t (m & -> & Hm)%list_elem_of_fmap. destruct (set_batch_same b results m) as (-> & _ & _ & ->). by apply Ht.
  - intros r' (r & -> & Hr)%list_elem_of_fmap Hx.
    assert (Hopen : TransactionRow.miniblock_number r = None) by by destruct (list_find _ _) as [[]|].
    destruct (list_find _ _) as [[i res]|] eqn:Ef; [|by apply Ho]. exfalso. apply list_find_Some in Ef as (Ei & Eh & _).
    rewrite Forall_forall in Hres. destruct (Hres res) as (m & Hm & Em); [by eapply list_elem_of_lookup_2|].
    destruct (Hc m Hm) as (r1 & Hr1 & Hrm). assert (r1 = r) as ->.
    { apply (unique_key_inj TransactionRow.hash _ _ _ Hh); [done|done|]. by rewrite (row_hash _ _ Hrm), Em. }
    by rewrite (row_block _ _ Hrm) in Hopen.
  - rewrite <-list_fmap_compose. erewrite list_fmap_ext; [exact Hh|]. intros i r _. cbn. by destruct (list_find _ _) as [[]|].
  - rewrite omap_fmap_same; [done|]. intros r _. by destruct (list_find _ _) as [[]|].
  - intros r' x (r & -> & Hr)%list_elem_of_fmap Hx. apply (Ha r x Hr). by destruct (list_find _ _) as [[]|].
Qed.

(** *** The transaction of a batch *)
Lemma fictive_empty c : ensure_valid_l2_block c true = inr () → executed c = [].
Proof. unfold ensure_valid_l2_block, is_l2_block_fictive. by destruct (executed c). Qed.
Lemma mark_l2_blocks_in_batch b db db' :
  BlocksDal.mark_l2_blocks_as_executed_in_l1_batch b db = Ret (inr (), db') → db' = set_miniblocks (in_batch b <$> miniblocks db) db.
Proof.
  unfold BlocksDal.mark_l2_blocks_as_executed_in_l1_batch. intros Hr%execute_inr. injection Hr as <-. f_equal. apply list_fmap_ext.
  intros i r _. unfold in_batch. by case_bool_decide; case_decide.
Qed.
Lemma filter_initial_writes_spec f db keys w db' :
  filter_initial_writes f db = Ret (inr (keys, w), db') → db' = db ∧ ∀ db1, initial_writes db1 = initial_writes db → keys = initial_keys db1 f.
Proof.
  unfold filter_initial_writes, initial_keys. intros Hr. destruct (FinishedL1Batch.state_diffs f) eqn:Ed.
  - injection Hr as <- <- <-. split; [done|]. intros db1 _. unfold filter_initial_writes. by rewrite Ed.
  - apply prog_bind_inr in Hr as (x & db1 & [= <- <-] & [= <- <- <-]). split; [done|]. intros db1 E. unfold filter_initial_writes.
    rewrite Ed. unfold StorageLogsDedupDal.filter_written_slots, query, mbind, prog_bind. by rewrite E.
Qed.
Lemma insert_initial_writes_spec b keys db db' :
  StorageLogsDedupDal.insert_initial_writes b keys db = Ret (inr (), db') →
  db' = set_initial_writes (initial_writes db ++ imap (λ i key,
    InitialWriteRow.mk key (default 0 (sql_max (InitialWriteRow.index <$> initial_writes db)) + 1 + Z.of_nat i) b) keys) db.
Proof.
  unfold StorageLogsDedupDal.insert_initial_writes. intros (x & db1 & [= <- <-] & Hr)%prog_bind_inr. by apply insert_rows in Hr as ->.
Qed.
Lemma protective_reads_spec (protective : bool) b f db db' :
  (if protective then StorageLogsDedupDal.insert_protective_reads b (filter (λ log, StorageLog.is_write log = false)
       (CurrentExecutionState.deduplicated_storage_logs (FinishedL1Batch.final_execution_state f)))
   else mret ()) db = Ret (inr (), db') →
  db' = set_protective_reads (protective_reads db ++ read_rows protective b f) db.
Proof.
  unfold read_rows, StorageLogsDedupDal.insert_protective_reads. destruct protective.
  - intros Hr. by apply insert_rows in Hr as ->.
  - intros [= <-]. by apply (set_same_rows protective_reads set_protective_reads); [destruct db|].
Qed.

Lemma batch_matches now u f addr protective n db w db' T :
  chain_wf n T → admissible_batch n u (seal_l2_block_command u addr false) T → matches n db T →
  seal_l1_batch_transaction now u f addr protective db = Ret (inr w, db') →
  matches (n + 1) db' (seal_batch protective u f (seal_l2_block_command u addr false) T).
Proof.
  intros Hwf [Hadm Htxs] Hm Hr. unfold seal_l1_batch_transaction in Hr. apply atomically_inr in Hr.
  set (c := seal_l2_block_command u addr false) in *. set (b := L1BatchUpdates.number (UpdatesManager.l1_batch u)) in *.
  apply prog_bind_inr in Hr as ([] & db1 & Hblock & Hr).
  assert (Hempty : executed c = []).
  { unfold seal_inner in Hblock. apply prog_bind_inr in Hblock as ([] & ? & [Hv _]%of_result_inr & _). by apply fictive_empty. }
  assert (Hm1 : matches (n + 1) db1 (seal_block c T)).
  { eapply seal_inner_matches; [done|done| |done|exact Hblock]. right. rewrite Hempty. by intros res ?%elem_of_nil. }
  destruct Hm1 as [[Hmb Hbt Hrd Hiw Hsn] Ha1].
  apply prog_bind_inr in Hr as (msgs & ? & [Hmsgs ->]%lift_exec_inr & Hr).
  apply prog_bind_inr in Hr as ([] & db2 & Hins & Hr). unfold BlocksDal.insert_l1_batch in Hins. apply insert_rows in Hins as ->.
  apply prog_bind_inr in Hr as ([] & db3 & ->%mark_l2_blocks_in_batch & Hr).
  apply prog_bind_inr in Hr as ([] & db4 & Hmark & Hr).
  apply prog_bind_inr in Hr as ([] & db5 & Hreads & Hr). apply protective_reads_spec in Hreads as ->.
  apply prog_bind_inr in Hr as ([keys len] & db6 & Hfil & Hr). apply filter_initial_writes_spec in Hfil as [-> Hkeys].
  apply prog_bind_inr in Hr as ([] & db7 & ->%insert_initial_writes_spec & [= <- <-]).
  pose proof Hmark as Hrows. unfold TransactionsDal.mark_txs_as_executed_in_l1_batch in Hmark. apply execute_inr in Hmark. injection Hmark as <-.
  split.
  - assert (Hk : keys = initial_keys (Chain.tables (seal_block c T)) f) by (apply Hkeys; cbn; by rewrite Hiw).
    split; cbn [seal_batch Chain.tables miniblocks l1_batches protective_reads initial_writes snapshot_recovery set_initial_writes set_protective_reads set_transactions set_miniblocks set_l1_batches].
    + by rewrite Hmb.
    + rewrite !fmap_app, Hbt. unfold PersistenceSpec.batch_row. by rewrite Hmsgs.
    + by rewrite Hrd.
    + unfold initial_write_rows. by rewrite Hiw, Hk.
    + done.
  - intros s. destruct (decide (s = MarkTransactionsInL2Block)) as [->|Hs].
    + eapply same_rows_agree; cycle 7.
      { eapply (mark_batch_agrees b _ _ _ (seal_block c T)); [done| | |exact Hrows].
        - eapply Forall_impl; [exact Htxs|]. intros res (m & Hmk & Em). exists m. split; [|done]. apply elem_of_app. by left.
        - eapply (same_rows_agree _ _ db1); [done..|apply Ha1]. }
      all: done.
    + specialize (Ha1 s). by destruct s.
Qed.
End sealing.
