(* ===== verification/PersistenceTree.v ===== *)
(** * The indices of the tree

    The writes that [TreeWritesPersistence] keeps for the Merkle tree have the enumeration
    indices of the table [initial_writes]. *)
From S2P Require Import Prelude Types Abi Sql VmLimits Float Deduplicator FeeModel TxEncoding VmErrors StateDiffs SealCriteria VmInterface KeeperUpdates BatchExecutor StateKeeper KeeperChain KeeperDal KeeperDb Persistence PersistenceSpec PersistenceMarks PersistenceCorrect.
Local Open Scope Z_scope.
Import KeeperDb L2BlockSealCommand SealCommand.

Section tree.
Context `{LT : TxLib, LK : KeeperLib, LA : TokenAbi, LS : StorageKeyHash, LC : CopyText}.
Implicit Types (db : KeeperDb.t) (u : UpdatesManager.t) (rows : list InitialWriteRow.t).

(** Later batches have greater indices. *)
Definition before (r r' : InitialWriteRow.t) : Prop :=
  InitialWriteRow.l1_batch_number r ≤ InitialWriteRow.l1_batch_number r' ∧ InitialWriteRow.index r < InitialWriteRow.index r'.
Record writes_wf (batch : Z) rows : Prop := {
  ww_ordered : StronglySorted before rows;
  ww_batch : Forall (λ r, InitialWriteRow.l1_batch_number r < batch) rows;
  ww_index : Forall (λ r, 0 ≤ InitialWriteRow.index r) rows;
}.
Definition last_index rows : Z := default 0 (sql_max (InitialWriteRow.index <$> rows)).
(** The write has the index of its slot. *)
Definition indexed rows (w : TreeWrite.t) : Prop :=
  ∃ r, r ∈ rows ∧ InitialWriteRow.hashed_key r = raw_hashed_key (TreeWrite.address w) (TreeWrite.key w) ∧ InitialWriteRow.index r = TreeWrite.leaf_index w.

(** ** The greatest index *)
Lemma sorted_last rows r : StronglySorted before (rows ++ [r]) → Forall (λ r', before r' r) rows.
Proof.
  induction rows as [|r' rows IH]; cbn; [constructor|]. intros [Hs Hf]%StronglySorted_inv. constructor; [|auto].
  rewrite Forall_app, Forall_singleton in Hf. apply Hf.
Qed.
Lemma max_index rows r : StronglySorted before (rows ++ [r]) → sql_max (InitialWriteRow.index <$> rows ++ [r]) = Some (InitialWriteRow.index r).
Proof.
  intros Hs%sorted_last. rewrite fmap_app. apply sql_max_app. apply Forall_fmap. eapply Forall_impl; [exact Hs|]. intros r' [_ ?]. cbn. lia.
Qed.
Lemma max_index_of_batch b rows new :
  writes_wf b rows → Forall (λ r, InitialWriteRow.l1_batch_number r = b) new →
  (batch ← sql_max (InitialWriteRow.l1_batch_number <$> filter (λ r, InitialWriteRow.l1_batch_number r ≤ b - 1) (rows ++ new));
   sql_max (InitialWriteRow.index <$> filter (λ r, InitialWriteRow.l1_batch_number r = batch) (rows ++ new)))
  = sql_max (InitialWriteRow.index <$> rows).
Proof.
  intros [Hs Hb _] Hn. rewrite filter_app, (list_filter_all_true _ rows), (list_filter_all_false _ new), app_nil_r.
  2:{ eapply Forall_impl; [exact Hn|]. cbn. lia. }
  2:{ eapply Forall_impl; [exact Hb|]. cbn. lia. }
  destruct rows as [|r rows _] using rev_ind; [done|]. pose proof (sorted_last _ _ Hs) as Hl. rewrite Forall_app, Forall_singleton in Hb.
  rewrite (fmap_app InitialWriteRow.l1_batch_number). cbn [fmap list_fmap]. rewrite sql_max_app.
  2:{ apply Forall_fmap. eapply Forall_impl; [exact Hl|]. intros r' [? _]. cbn. lia. }
  cbn [mbind option_bind]. rewrite (max_index _ _ Hs), !filter_app, (list_filter_all_false _ new), app_nil_r, (list_filter_all_true _ [r]).
  - rewrite fmap_app. apply sql_max_app, Forall_fmap, Forall_forall. intros r' [_ Hr']%list_elem_of_filter. rewrite Forall_forall in Hl.
    destruct (Hl r' Hr'). cbn. lia.
  - by apply Forall_singleton.
  - eapply Forall_impl; [exact Hn|]. cbn. lia.
Qed.

(** ** The rows of a batch *)
Definition new_rows (last : Z) (batch : Z) (keys : list H256) : list InitialWriteRow.t :=
  imap (λ i key, InitialWriteRow.mk key (last + 1 + Z.of_nat i) batch) keys.
Lemma new_rows_cons last batch key keys :
  new_rows last batch (key :: keys) = InitialWriteRow.mk key (last + 1) batch :: new_rows (last + 1) batch keys.
Proof. unfold new_rows. cbn. rewrite Z.add_0_r. f_equal. apply imap_ext. intros i k _. cbn. f_equal. lia. Qed.
Lemma new_rows_batch last batch keys : Forall (λ r, InitialWriteRow.l1_batch_number r = batch) (new_rows last batch keys).
Proof. revert last. induction keys as [|key keys IH]; intros last; [constructor|]. rewrite new_rows_cons. by constructor. Qed.
Lemma new_rows_index last batch keys : Forall (λ r, last < InitialWriteRow.index r) (new_rows last batch keys).
Proof.
  revert last. induction keys as [|key keys IH]; intros last; [constructor|]. rewrite new_rows_cons. constructor; [cbn; lia|].
  eapply Forall_impl; [apply IH|]. cbn. lia.
Qed.
Lemma last_index_bound b rows : writes_wf b rows → 0 ≤ last_index rows ∧ Forall (λ r, InitialWriteRow.index r ≤ last_index rows) rows.
Proof.
  intros [Hs _ Hi]. unfold last_index. destruct rows as [|r rows _] using rev_ind; [cbn; split; [lia|constructor]|]. rewrite (max_index _ _ Hs). cbn.
  rewrite !Forall_app, !Forall_singleton in *. split; [apply Hi|]. split; [|lia].
  eapply Forall_impl; [exact (sorted_last _ _ Hs)|]. intros r' [_ ?]. lia.
Qed.
Lemma new_rows_wf b rows keys : writes_wf b rows → writes_wf (b + 1) (rows ++ new_rows (last_index rows) b keys).
Proof.
  intros Hwf. pose proof (last_index_bound b rows Hwf) as [H0 Hle]. destruct Hwf as [Hs Hb Hi]. split.
  - apply StronglySorted_app_2; [|done|].
    + intros r r' Hr Hr'. pose proof (new_rows_batch (last_index rows) b keys) as Hnb. pose proof (new_rows_index (last_index rows) b keys) as Hni.
      rewrite Forall_forall in Hle, Hb, Hnb, Hni. specialize (Hle r Hr). specialize (Hb r Hr). specialize (Hnb r' Hr'). specialize (Hni r' Hr').
      cbn in *. split; lia.
    + generalize (last_index rows). induction keys as [|key keys IH]; intros last; [constructor|]. rewrite new_rows_cons. constructor; [apply IH|].
      eapply Forall_impl; [apply Forall_and; split; [apply new_rows_batch|apply new_rows_index]|]. cbn. intros r [? ?]. split; cbn; lia.
  - apply Forall_app. split; [eapply Forall_impl; [exact Hb|]; cbn; lia|]. eapply Forall_impl; [apply new_rows_batch|]. cbn. lia.
  - apply Forall_app. split; [done|]. eapply Forall_impl; [apply new_rows_index|]. cbn. lia.
Qed.

(** ** The writes of the tree *)
(** The write of a state diff. *)
Definition diff_key (diff : StateDiffRecord.t) : H256 := raw_hashed_key (StateDiffRecord.address diff) (StateDiffRecord.key diff).
Definition write_of_diff rows (diff : StateDiffRecord.t) (w : TreeWrite.t) : Prop :=
  TreeWrite.address w = StateDiffRecord.address diff ∧ TreeWrite.key w = StateDiffRecord.key diff ∧
  TreeWrite.value w = StateDiffRecord.final_value diff ∧
  if StateDiffRecord.is_write_initial diff then indexed rows w else TreeWrite.leaf_index w = StateDiffRecord.enumeration_index diff.
Lemma indexed_sub rows rows' w : rows ⊆ rows' → indexed rows w → indexed rows' w.
Proof. intros Hsub (r & Hr & ?). exists r. split; [by apply Hsub|done]. Qed.
Lemma diff_writes batch diffs last acc :
  let keys := diff_key <$> filter (λ diff, StateDiffRecord.is_write_initial diff = true) diffs in
  0 ≤ last → last + 1 + byte_len keys < 2 ^ 64 →
  ∃ ws, (foldl TreeWritesPersistence.diff_write (last + 1, acc) diffs).2 = acc ++ ws ∧
    Forall2 (write_of_diff (new_rows last batch keys)) diffs ws.
Proof.
  cbn zeta. revert last acc. induction diffs as [|diff diffs IH]; intros last acc H0 Hw.
  { exists []. by rewrite app_nil_r. }
  cbn [foldl TreeWritesPersistence.diff_write]. rewrite filter_cons in *. destruct (StateDiffRecord.is_write_initial diff) eqn:Ei.
  - rewrite decide_True in * by done. rewrite fmap_cons in *. unfold byte_len in Hw. cbn [length] in Hw.
    assert (Ewrap : wrap 64 (last + 1 + 1) = last + 1 + 1) by (unfold wrap; apply Z.mod_small; lia). rewrite Ewrap.
    destruct (IH (last + 1) (acc ++ [TreeWrite.mk (StateDiffRecord.address diff) (StateDiffRecord.key diff) (StateDiffRecord.final_value diff) (last + 1)]))
      as (ws & E & Hws); [lia|unfold byte_len; lia|].
    eexists (_ :: ws). rewrite E, <-app_assoc. split; [done|]. rewrite new_rows_cons. constructor.
    + split_and!; try done. rewrite Ei. eexists. split; [left|done].
    + eapply Forall2_impl; [exact Hws|]. intros d w (?&?&?&Hi). split_and!; try done. destruct (StateDiffRecord.is_write_initial d); [|done].
      eapply indexed_sub; [|done]. set_solver.
  - rewrite decide_False in * by (by rewrite ?Ei). destruct (IH last (acc ++ [TreeWrite.mk (StateDiffRecord.address diff) (StateDiffRecord.key diff)
      (StateDiffRecord.final_value diff) (StateDiffRecord.enumeration_index diff)])) as (ws & E & Hws); [done|done|].
    eexists (_ :: ws). rewrite E, <-app_assoc. split; [done|]. constructor; [|done]. split_and!; try done. by rewrite Ei.
Qed.

(** The write of a storage log, each of whose slots has a row. *)
Definition write_of_log rows (log : StorageLog.t) (w : TreeWrite.t) : Prop :=
  (TreeWrite.address w, TreeWrite.key w) = StorageLog.key log ∧ TreeWrite.value w = StorageLog.value log ∧ indexed rows w.
Definition index_map rows (keys : list H256) : gmap H256 (L1BatchNumber * Z) :=
  list_to_map ((λ r, (InitialWriteRow.hashed_key r, (wrap 32 (InitialWriteRow.l1_batch_number r), InitialWriteRow.index r)))
    <$> filter (λ r, InitialWriteRow.hashed_key r ∈ keys) rows).
Lemma index_map_lookup rows keys key :
  key ∈ keys → key ∈ (InitialWriteRow.hashed_key <$> rows) →
  ∃ b r, index_map rows keys !! key = Some (b, InitialWriteRow.index r) ∧ r ∈ rows ∧ InitialWriteRow.hashed_key r = key.
Proof.
  intros Hk Hrow. destruct (index_map rows keys !! key) as [[b i]|] eqn:E.
  - apply elem_of_list_to_map_2, list_elem_of_fmap in E as (r & [= -> -> ->] & [_ Hr]%list_elem_of_filter). eauto.
  - exfalso. apply list_elem_of_fmap in Hrow as (r & -> & Hr). apply not_elem_of_list_to_map_2 in E. apply E.
    rewrite <-list_fmap_compose. apply list_elem_of_fmap. exists r. split; [done|]. by apply list_elem_of_filter.
Qed.
Lemma log_writes rows keys logs next acc :
  Forall (λ log, hashed_key (StorageLog.key log) ∈ keys ∧ hashed_key (StorageLog.key log) ∈ (InitialWriteRow.hashed_key <$> rows)) logs →
  ∃ ws, (foldl (TreeWritesPersistence.log_write (index_map rows keys)) (next, acc) logs).2 = acc ++ ws ∧ Forall2 (write_of_log rows) logs ws.
Proof.
  intros Hl. revert next acc. induction Hl as [|log logs [Hk Hr] Hl IH]; intros next acc.
  { exists []. by rewrite app_nil_r. }
  cbn [foldl TreeWritesPersistence.log_write]. destruct (index_map_lookup rows keys _ Hk Hr) as (b & r & -> & Hin & Hkey).
  destruct (StorageLog.key log) as [address key] eqn:Ekey.
  destruct (IH next (acc ++ [TreeWrite.mk address key (StorageLog.value log) (InitialWriteRow.index r)])) as (ws & E & Hws).
  eexists (_ :: ws). rewrite E, <-app_assoc. split; [done|]. constructor; [|done]. split_and!; [done|done|]. by exists r.
Qed.

(** ** The two handlers of a batch *)
Lemma seal_inner_writes now c is_fictive db db' : seal_inner now c is_fictive db = Ret (inr (), db') → initial_writes db' = initial_writes db.
Proof.
  unfold seal_inner. intros ([] & ? & [_ ->]%of_result_inr & ([] & db1 & Hrun & Hins)%prog_bind_inr)%prog_bind_inr.
  unfold BlocksDal.insert_l2_block in Hins. apply insert_rows in Hins as ->. cbn. revert db Hrun. unfold run_subtasks. generalize all_subtasks as l.
  induction l as [|s l IH]; intros db Hr; cbn [foldP] in Hr; [by injection Hr as <-|].
  apply prog_bind_inr in Hr as ([] & db2 & (_&_&_&E&_)%subtask_frame & Hr). by rewrite (IH _ Hr).
Qed.
Lemma seal_batch_written now u f addr protective db w db' :
  let b := L1BatchUpdates.number (UpdatesManager.l1_batch u) in
  seal_l1_batch_transaction now u f addr protective db = Ret (inr w, db') →
  initial_writes db' = initial_writes db ++ new_rows (last_index (initial_writes db)) b (initial_keys db f) ∧
  ∃ r, r ∈ l1_batches db' ∧ L1BatchRow.number r = b.
Proof.
  cbn zeta. unfold seal_l1_batch_transaction. intros Hr%atomically_inr.
  apply prog_bind_inr in Hr as ([] & db1 & Ew%seal_inner_writes & Hr).
  apply prog_bind_inr in Hr as (msgs & ? & [Hmsgs ->]%lift_exec_inr & Hr).
  apply prog_bind_inr in Hr as ([] & db2 & Hins & Hr). unfold BlocksDal.insert_l1_batch in Hins. apply insert_rows in Hins as ->.
  apply prog_bind_inr in Hr as ([] & db3 & ->%mark_l2_blocks_in_batch & Hr).
  apply prog_bind_inr in Hr as ([] & db4 & Hmark & Hr). unfold TransactionsDal.mark_txs_as_executed_in_l1_batch in Hmark. apply execute_inr in Hmark. injection Hmark as <-.
  apply prog_bind_inr in Hr as ([] & db5 & Hreads & Hr). apply protective_reads_spec in Hreads as ->.
  apply prog_bind_inr in Hr as ([keys len] & db6 & Hfil & Hr). apply filter_initial_writes_spec in Hfil as [-> Hkeys].
  apply prog_bind_inr in Hr as ([] & db7 & ->%insert_initial_writes_spec & [= <- <-]). split.
  - cbn. rewrite Ew. f_equal. unfold new_rows, last_index. by rewrite (Hkeys db) by (cbn; by rewrite Ew).
  - exists (l1_batch_row u f msgs). split; [cbn; apply elem_of_app; right; left|].
    unfold l1_batch_row. by destruct (l1_l2_tx_count (L1BatchUpdates.executed_transactions (UpdatesManager.l1_batch u))).
Qed.
Lemma initial_keys_logs db f log :
  FinishedL1Batch.state_diffs f = None →
  log ∈ filter is_write (CurrentExecutionState.deduplicated_storage_logs (FinishedL1Batch.final_execution_state f)) →
  hashed_key (StorageLog.key log) ∈ (InitialWriteRow.hashed_key <$> initial_writes db) ∨ hashed_key (StorageLog.key log) ∈ initial_keys db f.
Proof.
  intros Ed Hlog. unfold initial_keys, filter_initial_writes. rewrite Ed. unfold StorageLogsDedupDal.filter_written_slots, query, mbind, prog_bind. cbn.
  destruct (decide (hashed_key (StorageLog.key log) ∈ (InitialWriteRow.hashed_key <$> initial_writes db))) as [|Hn]; [by left|right].
  apply list_elem_of_filter. split; [|apply list_elem_of_fmap; by exists log]. by intros [_ ?]%list_elem_of_filter.
Qed.
Lemma new_rows_keys last b keys : InitialWriteRow.hashed_key <$> new_rows last b keys = keys.
Proof. revert last. induction keys as [|key keys IH]; intros last; [done|]. rewrite new_rows_cons, fmap_cons, IH. done. Qed.
Lemma tree_input_writes b f db db' :
  let logs := filter is_write (CurrentExecutionState.deduplicated_storage_logs (FinishedL1Batch.final_execution_state f)) in
  writes_wf b (initial_writes db) → last_index (initial_writes db) + 1 + byte_len (initial_keys db f) < 2 ^ 64 →
  initial_writes db' = initial_writes db ++ new_rows (last_index (initial_writes db)) b (initial_keys db f) →
  ∃ ws, TreeWritesPersistence.tree_input (last_index (initial_writes db) + 1) f db' = Ret (inr ws, db') ∧
    match FinishedL1Batch.state_diffs f with
    | Some diffs => Forall2 (write_of_diff (initial_writes db')) diffs ws
    | None => Forall2 (write_of_log (initial_writes db')) logs ws
    end.
Proof.
  cbn zeta. intros Hwf Hsmall Ew. pose proof (last_index_bound _ _ Hwf) as [H0 _]. unfold TreeWritesPersistence.tree_input.
  destruct (FinishedL1Batch.state_diffs f) as [diffs|] eqn:Ed.
  - assert (Ek : initial_keys db f = diff_key <$> filter (λ diff, StateDiffRecord.is_write_initial diff = true) diffs).
    { unfold initial_keys, filter_initial_writes. by rewrite Ed. }
    rewrite Ek in *. destruct (diff_writes b diffs (last_index (initial_writes db)) [] H0 Hsmall) as (ws & -> & Hws). exists ws. split; [done|].
    eapply Forall2_impl; [exact Hws|]. intros d w (?&?&?&Hi). split_and!; try done. destruct (StateDiffRecord.is_write_initial d); [|done].
    eapply indexed_sub; [|done]. rewrite Ew. set_solver.
  - rewrite (prog_bind_step _ _ _ _ _ eq_refl).
    match goal with |- context [filter is_write ?l] => set (logs := filter is_write l) end.
    destruct (log_writes (initial_writes db') (hashed_key ∘ StorageLog.key <$> logs) logs (last_index (initial_writes db) + 1) []) as (ws & E & Hws).
    + apply Forall_forall. intros log Hlog. split; [apply list_elem_of_fmap; by exists log|]. rewrite Ew, fmap_app, elem_of_app, new_rows_keys.
      by apply initial_keys_logs.
    + exists ws. split; [|done]. unfold index_map in E. cbn [app] in E. by rewrite E.
Qed.

(** C19 The writes that are kept for the Merkle tree agree with the table of initial writes:
    after a batch is sealed, the handler of the tree's writes stores one write for each
    state diff - or for each deduplicated storage write, when the machine gives no diffs -
    in order, with its slot and value, and a slot that the batch has written first (in the
    latter case any slot) has the index it has in the table; an index that was given by the
    machine is kept. The indices of the table keep increasing over the batches. *)
Theorem tree_writes_indexed now u f addr protective db w db1 db2 :
  let b := L1BatchUpdates.number (UpdatesManager.l1_batch u) in
  let logs := filter is_write (CurrentExecutionState.deduplicated_storage_logs (FinishedL1Batch.final_execution_state f)) in
  L1BatchUpdates.finished (UpdatesManager.l1_batch u) = Some f → 0 < b < 2 ^ 32 → writes_wf b (initial_writes db) →
  last_index (initial_writes db) + 1 + byte_len (initial_keys db f) < 2 ^ 64 →
  seal_l1_batch_transaction now u f addr protective db = Ret (inr w, db1) →
  TreeWritesPersistence.handle_l1_batch u db1 = Ret (inr (), db2) →
  writes_wf (b + 1) (initial_writes db2) ∧
  ∃ row ws, row ∈ l1_batches db2 ∧ L1BatchRow.number row = b ∧ L1BatchRow.tree_writes row = Some ws ∧
    match FinishedL1Batch.state_diffs f with
    | Some diffs => Forall2 (write_of_diff (initial_writes db2)) diffs ws
    | None => Forall2 (write_of_log (initial_writes db2)) logs ws
    end.
Proof.
  cbn zeta. intros Hf Hb Hwf Hsmall [Ew (row & Hrow & Eb)]%seal_batch_written Hr. pose proof (last_index_bound _ _ Hwf) as [H0 _].
  unfold TreeWritesPersistence.handle_l1_batch in Hr. rewrite Hf in Hr.
  rewrite (prog_bind_step _ _ _ f db1), (prog_bind_step _ _ _ _ _ eq_refl) in Hr by done.
  assert (Eprev : wrap 32 (L1BatchUpdates.number (UpdatesManager.l1_batch u) - 1) = L1BatchUpdates.number (UpdatesManager.l1_batch u) - 1).
  { unfold wrap. apply Z.mod_small. lia. }
  rewrite Eprev, Ew, (max_index_of_batch _ _ _ Hwf (new_rows_batch _ _ _)) in Hr. fold (last_index (initial_writes db)) in Hr.
  assert (Enext : wrap 64 (last_index (initial_writes db) + 1) = last_index (initial_writes db) + 1).
  { unfold wrap, byte_len in *. apply Z.mod_small. lia. }
  rewrite Enext in Hr. destruct (tree_input_writes _ f db db1 Hwf Hsmall Ew) as (ws & E & Hws). rewrite (prog_bind_step _ _ _ _ _ E) in Hr.
  unfold BlocksDal.set_tree_writes in Hr. apply execute_inr in Hr. injection Hr as <-. split; [cbn; rewrite Ew; by apply new_rows_wf|].
  eexists _, ws. split; [cbn; apply list_elem_of_fmap; by exists row|]. by rewrite bool_decide_eq_true_2.
Qed.
End tree.
