(* ===== verification/PersistenceRuns.v ===== *)
(** * Runs of the persistence, with crashes

    The step relation of the handler, the sealer's task, the recovery and the others that
    write to the database, one statement or transaction per step, and the invariant that
    makes a crash after any step harmless. The steps have three conditions on what is not
    the handler's: a block that is handed over is the next one ([admissible]), the rows of
    its transactions are there when it is sealed ([known]), and others leave alone what the
    state keeper has written ([others]). *)
From S2P Require Import Prelude Types Abi Sql VmLimits Float Deduplicator FeeModel TxEncoding VmErrors StateDiffs SealCriteria VmInterface KeeperUpdates BatchExecutor StateKeeper KeeperChain KeeperDal KeeperDb Persistence PersistenceSpec PersistenceMarks PersistenceCorrect.
Local Open Scope Z_scope.
Import KeeperDb L2BlockSealCommand SealCommand.

Section runs.
Context `{LT : TxLib, LK : KeeperLib, LA : TokenAbi, LS : StorageKeyHash, LC : CopyText}.
Implicit Types (T : Chain.t) (db : KeeperDb.t) (u : UpdatesManager.t).
(** The handler's settings, and the chain with its last block to begin with. *)
Context (addr : Address) (pre_insert protective : bool) (T0 : Chain.t) (n0 : Z).

Definition command u : L2BlockSealCommand.t := seal_l2_block_command u addr pre_insert.
Definition last_command u : L2BlockSealCommand.t := seal_l2_block_command u addr false.

(** ** The chain of what has been sealed *)
Definition seal_output T (o : output) : Chain.t :=
  match o with
  | SealedBlock u => seal_block (command u) T
  | SealedBatch u =>
      match L1BatchUpdates.finished (UpdatesManager.l1_batch u) with
      | Some f => seal_batch protective u f (last_command u) T
      | None => T
      end
  end.
Definition chain_of (log : list output) : Chain.t := foldl seal_output T0 log.
(** A block of transactions, or the empty one that a batch ends with. *)
Definition last_block (log : list output) : Z := n0 + byte_len log.

(** ** States *)
Inductive Mode :=
| Sealing
| Down
(** The subtasks to roll back; the call traces to delete. *)
| Recovering (traces : option (list H256)) (rest : list Subtask).
Record state := State {
  s_db : KeeperDb.t;
  s_log : list output;
  s_queue : list UpdatesManager.t;
  s_done : list Subtask;
  s_mode : Mode;
}.

(** What others write: rows of transactions that are in no block, their call traces, and
    what a batch does not have from the state keeper. *)
Record others db db' : Prop := {
  o_miniblocks : miniblocks db' = miniblocks db;
  o_l1_batches : sealed_part <$> l1_batches db' = sealed_part <$> l1_batches db;
  o_reads : protective_reads db' = protective_reads db;
  o_writes : initial_writes db' = initial_writes db;
  o_snapshot : snapshot_recovery db' = snapshot_recovery db;
  o_storage_logs : storage_logs db' = storage_logs db;
  o_factory_deps : factory_deps db' = factory_deps db;
  o_tokens : tokens db' = tokens db;
  o_events : events db' = events db;
  o_l2_to_l1_logs : l2_to_l1_logs db' = l2_to_l1_logs db;
  o_marked r b : TransactionRow.miniblock_number r = Some b → r ∈ transactions db' ↔ r ∈ transactions db;
  o_open r : r ∈ transactions db' → TransactionRow.miniblock_number r = None → TransactionRow.l1_batch_number r = None;
  o_hashes : NoDup (TransactionRow.hash <$> transactions db');
  o_nonces : NoDup (omap TransactionsDal.nonce_key (transactions db'));
  o_traces r b t : r ∈ transactions db → TransactionRow.miniblock_number r = Some b →
    (TransactionRow.hash r, t) ∈ call_traces db → (TransactionRow.hash r, t) ∈ call_traces db';
}.

Inductive step : state → state → Prop :=
(** [handle_l2_block] sends the next block of the chain. *)
| step_submit db log queue done u :
    admissible (last_block log + byte_len queue) (command u) (chain_of (log ++ (SealedBlock <$> queue))) →
    step (State db log queue done Sealing) (State db log (queue ++ [u]) done Sealing)
(** A subtask of the first block in the channel; whose transactions are still in the table. *)
| step_subtask db log u queue done s now db' :
    ensure_valid_l2_block (command u) false = inr () → s ∉ done → (s = MarkTransactionsInL2Block → known (command u) db) →
    subtask_run now s (command u) db = Ret (inr (), db') →
    step (State db log (u :: queue) done Sealing) (State db' log (u :: queue) (s :: done) Sealing)
| step_header db log u queue done db' :
    (∀ s, s ∈ done) → BlocksDal.insert_l2_block (l2_block_header (command u)) db = Ret (inr (), db') →
    step (State db log (u :: queue) done Sealing) (State db' (log ++ [SealedBlock u]) queue [] Sealing)
(** [handle_l1_batch], once the channel is empty. *)
| step_batch db log u f now w db' :
    L1BatchUpdates.finished (UpdatesManager.l1_batch u) = Some f →
    admissible_batch (last_block log) u (last_command u) (chain_of log) →
    seal_l1_batch_transaction now u f addr protective db = Ret (inr w, db') →
    step (State db log [] [] Sealing) (State db' (log ++ [SealedBatch u]) [] [] Sealing)
| step_others db log queue done mode db' :
    others db db' → step (State db log queue done mode) (State db' log queue done mode)
(** The node stops: an error, a panic, or the power. *)
| step_crash db log queue done mode :
    step (State db log queue done mode) (State db log [] [] Down)
| step_restart db log :
    step (State db log [] [] Down) (State db log [] [] (Recovering None all_subtasks))
| step_reset db log rest hashes db' :
    TransactionsDal.reset_marks (last_block log) db = Ret (inr hashes, db') →
    step (State db log [] [] (Recovering None (MarkTransactionsInL2Block :: rest))) (State db' log [] [] (Recovering (Some hashes) rest))
| step_traces db log rest hashes db' :
    TransactionsDal.delete_call_traces hashes db = Ret (inr (), db') →
    step (State db log [] [] (Recovering (Some hashes) rest)) (State db' log [] [] (Recovering None rest))
| step_rollback db log s rest db' :
    s ≠ MarkTransactionsInL2Block → subtask_rollback s (last_block log) db = Ret (inr (), db') →
    step (State db log [] [] (Recovering None (s :: rest))) (State db' log [] [] (Recovering None rest))
| step_recovered db log :
    step (State db log [] [] (Recovering None [])) (State db log [] [] Sealing).

(** ** The invariant *)
(** The blocks in the channel are the next ones. *)
Fixpoint next_blocks (n : Z) T (queue : list UpdatesManager.t) : Prop :=
  match queue with
  | [] => True
  | u :: queue => admissible n (command u) T ∧ next_blocks (n + 1) (seal_block (command u) T) queue
  end.
Definition mode_inv (st : state) (n : Z) T : Prop :=
  match s_mode st with
  | Sealing =>
      match s_queue st with
      | [] => s_done st = [] ∧ ∀ s, agrees s n (s_db st) T
      | u :: _ => progress (s_done st) n (command u) (s_db st) T
      end
  | Down => ∀ s, covers s n (s_db st) T
  | Recovering traces rest =>
      NoDup rest ∧
      (∀ s, (if decide (s ∈ rest) then covers s n (s_db st) T else agrees s n (s_db st) T)) ∧
      (∀ hashes, traces = Some hashes → (MarkTransactionsInL2Block ∉ rest) ∧ Forall (λ m, Mark.hash m ∉ hashes) (Chain.marks T))
  end.
Record inv (st : state) : Prop := {
  inv_wf : chain_wf (last_block (s_log st)) (chain_of (s_log st));
  inv_headers : headers_match (s_db st) (chain_of (s_log st));
  inv_queue : next_blocks (last_block (s_log st)) (chain_of (s_log st)) (s_queue st);
  inv_mode : mode_inv st (last_block (s_log st)) (chain_of (s_log st));
}.

(** *** What others write *)
Lemma others_headers db db' T : others db db' → headers_match db T → headers_match db' T.
Proof. intros [] []. split; congruence. Qed.
Lemma others_transactions n db db' marks : others db db' → transactions_match n db marks → transactions_match n db' marks.
Proof.
  intros Ho [Hs Hc Ht _ _ _]. destruct Ho. split; try done.
  - intros r b Hr Hb. apply (Hs r b); [|done]. by apply (o_marked0 r b).
  - intros m Hm. destruct (Hc m Hm) as (r & Hr & Hrm). exists r. split; [|done]. eapply (o_marked0 r); [apply (row_block _ _ Hrm)|done].
  - intros m t Hm Et. destruct (Hc m Hm) as (r & Hr & Hrm). specialize (Ht m t Hm Et). rewrite <-(row_hash _ _ Hrm) in *.
    by eapply o_traces0; [|apply (row_block _ _ Hrm)|].
Qed.
Lemma others_agrees s n db db' T : others db db' → agrees s n db T → agrees s n db' T.
Proof.
  intros Ho. destruct s; cbn; try (destruct Ho; congruence). intros [Hm Hn]. split; [by eapply others_transactions|].
  intros r b Hr Hb. eapply Hn; [|done]. by apply (o_marked _ _ Ho r b).
Qed.
Lemma others_covers s n db db' T : others db db' → covers s n db T → covers s n db' T.
Proof.
  intros Ho. pose proof Ho as []. destruct s; cbn; rewrite ?o_storage_logs0, ?o_factory_deps0, ?o_tokens0, ?o_events0, ?o_l2_to_l1_logs0; try done.
  by apply others_transactions.
Qed.

(** *** The chain *)
Lemma chain_of_snoc log o : chain_of (log ++ [o]) = seal_output (chain_of log) o.
Proof. unfold chain_of. by rewrite foldl_app. Qed.
Lemma last_block_snoc log o : last_block (log ++ [o]) = last_block log + 1.
Proof. unfold last_block, byte_len. rewrite length_app. cbn. lia. Qed.
Lemma next_blocks_snoc log queue u :
  next_blocks (last_block log) (chain_of log) queue →
  admissible (last_block log + byte_len queue) (command u) (chain_of (log ++ (SealedBlock <$> queue))) →
  next_blocks (last_block log) (chain_of log) (queue ++ [u]).
Proof.
  revert log. induction queue as [|v queue IH]; intros log; cbn [next_blocks app].
  - intros _. unfold byte_len. cbn. rewrite app_nil_r, Z.add_0_r. done.
  - intros [Hv Hq] Hu. split; [done|]. specialize (IH (log ++ [SealedBlock v])). rewrite chain_of_snoc, last_block_snoc in IH. apply IH; [done|].
    cbn in Hu. rewrite <-app_assoc. cbn. replace (last_block log + 1 + byte_len queue) with (last_block log + byte_len (v :: queue)); [done|].
    unfold byte_len. cbn. lia.
Qed.

(** Whatever the mode, without the pending blocks the tables are those of the chain. *)
Lemma inv_covers st s : inv st → covers s (last_block (s_log st)) (s_db st) (chain_of (s_log st)).
Proof.
  intros [Hwf Hh Hq Hm]. unfold mode_inv in Hm. destruct (s_mode st) as [| |traces rest].
  - destruct (s_queue st) as [|u queue]; [destruct Hm as [_ Hm]; by apply agrees_covers|]. destruct Hq as [Hadm _]. specialize (Hm s).
    destruct (decide _); [by eapply agrees_next_covers|by apply agrees_covers].
  - apply Hm.
  - destruct Hm as (_ & Hm & _). specialize (Hm s). destruct (decide _); [done|by apply agrees_covers].
Qed.

(** *** Preservation *)
Lemma subtask_step now s u queue done db db' n T :
  chain_wf n T → admissible n (command u) T → s ∉ done → (s = MarkTransactionsInL2Block → known (command u) db) →
  mode_inv (State db [] (u :: queue) done Sealing) n T → subtask_run now s (command u) db = Ret (inr (), db') →
  mode_inv (State db' [] (u :: queue) (s :: done) Sealing) n T.
Proof. intros. eapply progress_step; done. Qed.
Lemma rollback_step s rest n db db' T :
  chain_wf n T → headers_match db T → mode_inv (State db [] [] [] (Recovering None (s :: rest))) n T →
  frame s db db' → agrees s n db' T → mode_inv (State db' [] [] [] (Recovering None rest)) n T.
Proof.
  intros Hwf Hh (Hnd & Hm & _) Hf Ha. apply NoDup_cons in Hnd as [Hs Hnd]. split; [done|]. split; [|done]. cbn in *. intros s'. specialize (Hm s').
  destruct (decide (s' = s)) as [->|Hne]; [by rewrite decide_False|]. destruct (decide (s' ∈ rest)).
  - rewrite decide_True in Hm by by right. by eapply frame_covers.
  - rewrite decide_False in Hm by by intros [?|?]%elem_of_cons. by eapply frame_agrees.
Qed.

Lemma inv_step st st' : inv st → step st st' → inv st'.
Proof.
  intros Hinv Hstep. pose proof (λ s, inv_covers st s Hinv) as Hcov. destruct Hinv as [Hwf Hh Hq Hm].
  destruct Hstep; cbn [s_db s_log s_queue s_done s_mode] in *.
  - split; cbn [s_db s_log s_queue]; [done|done|by apply next_blocks_snoc|].
    unfold mode_inv in *. cbn in *. destruct queue as [|v queue]; [|done]. destruct Hm as [-> Hm]. exact Hm.
  - destruct Hq as [Hadm Hq]. split; cbn; [done|eapply frame_headers; [by eapply subtask_frame|done]|done|].
    eapply progress_step; done.
  - destruct Hq as [Hadm Hq]. assert (Hag := progress_all _ _ _ _ _ H Hm). pose proof (insert_header _ _ _ _ _ Hh Hag H0) as [Hh' Ha'].
    split; cbn [s_db s_log s_queue]; rewrite ?chain_of_snoc, ?last_block_snoc; [by apply chain_wf_seal_block|done|done|].
    unfold mode_inv. cbn. destruct queue; [done|]. intros s. apply Ha'.
  - destruct Hm as [_ Hm]. assert (Hmat : matches (last_block log) db (chain_of log)) by done.
    pose proof (batch_matches _ _ _ _ _ _ _ _ _ _ Hwf H0 Hmat H1) as [Hh' Ha'].
    split; cbn [s_db s_log s_queue]; rewrite ?chain_of_snoc, ?last_block_snoc; unfold seal_output; rewrite H; [|done|done|done].
    apply chain_wf_seal_batch, chain_wf_seal_block; [done|apply H0].
  - split; cbn; [done|by eapply others_headers|done|]. unfold mode_inv in *. cbn in *. destruct mode as [| |traces rest].
    + destruct queue; [destruct Hm as [-> Hm]; split; [done|]; intros s; by eapply others_agrees|]. intros s. specialize (Hm s).
      destruct (decide _); by eapply others_agrees.
    + intros s. by eapply others_covers.
    + destruct Hm as (Hnd & Hm & Ht). split; [done|]. split; [|done]. intros s. specialize (Hm s). destruct (decide _); [by eapply others_covers|by eapply others_agrees].
  - by split.
  - split; try done. cbn. split; [|split; [|done]].
    + unfold all_subtasks. repeat constructor; set_solver.
    + intros s. rewrite decide_True by apply all_subtasks_complete. apply Hm.
  - destruct (reset_marks_agrees _ _ _ Hwf (Hcov MarkTransactionsInL2Block)) as (hashes' & db1 & E & Hf & Ha & Hd).
    rewrite E in H. injection H as <- <-. pose proof (rollback_step _ _ _ _ _ _ Hwf Hh Hm Hf Ha) as (Hnd & Hm' & _).
    split; cbn; [done|by eapply frame_headers|done|]. split; [done|]. split; [done|]. intros hashes [= <-]. split; [|done].
    destruct Hm as [Hnd' _]. by apply NoDup_cons in Hnd' as [? _].
  - destruct Hm as (Hnd & Hm & Ht). destruct (Ht hashes eq_refl) as [Hno Hd].
    destruct (delete_call_traces_agrees (last_block log) db (chain_of log) hashes Hd) as (db1 & E & Hf & Ha).
    { specialize (Hm MarkTransactionsInL2Block). by rewrite decide_False in Hm. }
    rewrite E in H. injection H as <-. split; cbn; [done|by eapply frame_headers|done|]. split; [done|]. split; [|done].
    intros s. specialize (Hm s). cbn in Hm. destruct (decide (s = MarkTransactionsInL2Block)) as [->|Hs]; [by rewrite decide_False|].
    destruct (decide (s ∈ rest)); [by eapply frame_covers|by eapply frame_agrees].
  - destruct (subtask_rollback_agrees s _ _ _ Hwf Hh (Hcov InsertStorageLogs) (Hcov s)) as (db1 & E & Hf & Ha).
    rewrite E in H0. injection H0 as <-. split; cbn; [done|by eapply frame_headers|done|]. by eapply rollback_step.
  - destruct Hm as (_ & Hm & _). by split.
Qed.

(** ** Recovery *)
Lemma rollback_all n rest db T :
  chain_wf n T → NoDup rest → headers_match db T →
  (∀ s, (if decide (s ∈ rest) then covers s n db T else agrees s n db T)) →
  ∃ db', foldP (λ _ s, subtask_rollback s n) () rest db = Ret (inr (), db') ∧ matches n db' T ∧ l1_batches db' = l1_batches db.
Proof.
  intros Hwf. revert db. induction rest as [|s rest IH]; intros db Hnd Hh Hm.
  { exists db. split; [done|]. split; [|done]. split; [done|]. intros s. specialize (Hm s). by rewrite decide_False in Hm by apply not_elem_of_nil. }
  assert (Hcov : ∀ s, covers s n db T).
  { intros s'. specialize (Hm s'). destruct (decide _); [done|by apply agrees_covers]. }
  destruct (subtask_rollback_agrees s n db T Hwf Hh (Hcov _) (Hcov s)) as (db1 & E & Hf & Ha).
  assert (Hmode : mode_inv (State db [] [] [] (Recovering None (s :: rest))) n T) by by split.
  destruct (rollback_step s rest n db db1 T Hwf Hh Hmode Hf Ha) as (Hnd' & Hm' & _).
  destruct (IH db1 Hnd') as (db' & Er & Hmat & Hb); [by eapply frame_headers|done|]. exists db'.
  split; [cbn [foldP]; by rewrite (prog_bind_step _ _ _ _ _ E)|]. split; [done|]. destruct Hf as (_ & Hf & _). congruence.
Qed.
Lemma clear_pending_matches n db T :
  chain_wf n T → headers_match db T → (∀ s, covers s n db T) →
  ∃ db', clear_pending_l2_block n db = Ret (inr (), db') ∧ matches n db' T ∧ l1_batches db' = l1_batches db.
Proof.
  intros Hwf Hh Hc. apply rollback_all; [done| |done|].
  - unfold all_subtasks. repeat constructor; set_solver.
  - intros s. by rewrite decide_True by apply all_subtasks_complete.
Qed.

(** The tables are those of the chain to begin with. *)
Definition initial db : state := State db [] [] [] Sealing.
Lemma inv_initial db : chain_wf n0 T0 → matches n0 db T0 → inv (initial db).
Proof. intros Hwf [Hh Ha]. unfold initial. split; cbn; unfold last_block, byte_len; cbn; rewrite ?Z.add_0_r; done. Qed.
Lemma inv_reachable db st : chain_wf n0 T0 → matches n0 db T0 → rtc step (initial db) st → inv st.
Proof. intros Hwf Hm Hr. pose proof (inv_initial db Hwf Hm) as Hi. induction Hr; [done|]. eauto using inv_step. Qed.

(** C5 A crash loses nothing that has been sealed and leaves nothing of a block that has not,
    call traces apart. Blocks are handed over while earlier ones are written, the subtasks of
    a block take effect in any order before its header, others write to the tables meanwhile,
    and the node may stop after any statement - of the recovery too, any number of times:
    removing the pending data then succeeds and leaves the tables of the blocks and batches
    whose headers are in the database. The headers, the state keeper's columns of the
    batches, protective reads, initial writes, storage logs, factory dependencies, tokens,
    events and logs are exactly theirs; the transactions that are marked as being in a block
    are exactly theirs, with the results of the execution; and the call traces of these
    are there - others' may have been left by a recovery that was interrupted. It is assumed
    of the run that every block handed over continues the chain ([admissible]: the next
    number, transactions and nonces that are in no block of the chain, tokens deployed in
    their block), that the transactions of a block are still in their table when they are
    marked ([known]; unless the handler inserts them itself), and that others write only
    transactions that are in no block and what a batch does not have from the state keeper
    ([others]). *)
Theorem crash_recovers_sealed db st :
  chain_wf n0 T0 → matches n0 db T0 → rtc step (initial db) st →
  ∃ db', clear_pending_l2_block (last_block (s_log st)) (s_db st) = Ret (inr (), db') ∧
    matches (last_block (s_log st)) db' (chain_of (s_log st)).
Proof.
  intros Hwf Hm Hr. pose proof (inv_reachable db st Hwf Hm Hr) as Hinv.
  destruct (clear_pending_matches _ _ _ (inv_wf _ Hinv) (inv_headers _ Hinv) (λ s, inv_covers st s Hinv)) as (db' & ? & ? & _). by exists db'.
Qed.
End runs.
