(* ===== verification/PersistenceHandler.v ===== *)
(** * The handler and the sealer's task

    Every call of [StateKeeperPersistence] and every iteration of [L2BlockSealerTask], those
    that end in an error included, is a sequence of the steps of [PersistenceRuns]; so what
    has been handed over is the sealed chain, the few blocks of the channel and the one that
    the task is sealing. *)
From S2P Require Import Prelude Types Abi Sql VmLimits Float Deduplicator FeeModel TxEncoding VmErrors StateDiffs SealCriteria VmInterface KeeperUpdates BatchExecutor StateKeeper KeeperChain KeeperDal KeeperDb Persistence PersistenceSpec PersistenceMarks PersistenceCorrect PersistenceRuns.
Local Open Scope Z_scope.
Import KeeperDb L2BlockSealCommand SealCommand TransactionsDal.

Section waiting.
Context `{LT : TxLib, LK : KeeperLib, LA : TokenAbi, LS : StorageKeyHash, LC : CopyText}.
Implicit Types (c : L2BlockSealCommand.t) (T : Chain.t) (db : KeeperDb.t).

Abbreviation tx_of := TransactionExecutionResult.transaction.
Abbreviation hash_of := TransactionExecutionResult.hash.

(** ** The transactions of the blocks that wait *)
(** No transaction is in both. *)
Definition distinct c c' : Prop :=
  ∀ res res', res ∈ executed c → res' ∈ executed c' →
    hash_of res ≠ hash_of res' ∧ ∀ k, nonce_of (tx_of res) = Some k → nonce_of (tx_of res') ≠ Some k.

Lemma mark_updates now c db db' :
  pre_insert_txs c = false → subtask_run now MarkTransactionsInL2Block c db = Ret (inr (), db') →
  ∃ E2 E1 E0, block_part c L2Kind E2 ∧ block_part c L1Kind E1 ∧ block_part c UpgradeKind E0 ∧
    transactions db' = update_row c E2 E1 E0 <$> transactions db.
Proof.
  intros Epre Hr. cbn [subtask_run] in Hr. unfold mark_txs_as_executed_in_l2_block in Hr. rewrite Epre in Hr. apply atomically_inr in Hr.
  apply prog_bind_inr in Hr as (traces & db0 & [Htr ->]%lift_exec_inr & Hr). apply prog_bind_inr in Hr as ([] & db1 & Hr1 & Hr2).
  assert (transactions db' = transactions db1) as ->.
  { destruct traces as [|t traces]; [by injection Hr2 as <-|]. unfold insert_call_traces in Hr2. apply execute_inr in Hr2. case_decide; [|done].
    destruct (insert_unique _ _ _) as [|rows] eqn:Ei; [done|]. by injection Hr2 as <-. }
  apply prog_bind_inr in Hr1 as ([] & db2 & Hr & Hr1). apply prog_bind_inr in Hr1 as ([] & db3 & Hr3 & Hr4).
  unfold update_executed_l2_transactions, update_executed_l1_transactions, update_executed_upgrade_transactions, update_executed_transactions in *.
  apply prog_bind_inr in Hr as (E2 & ? & [-> HE2]%executed_in_block & (-> & _ & _)%store_transactions_inr); [|done].
  apply prog_bind_inr in Hr3 as (E1 & ? & [-> HE1]%executed_in_block & (-> & _ & _)%store_transactions_inr); [|done].
  apply prog_bind_inr in Hr4 as (E0 & ? & [-> HE0]%executed_in_block & (-> & Hh & Hn)%store_transactions_inr); [|done].
  exists E2, E1, E0. split_and!; try done. cbn [set_transactions transactions]. by rewrite <-!list_fmap_compose.
Qed.

(** A row that waits for another block is not touched. *)
Lemma other_row_missed c c' db r res res' :
  NoDup (TransactionRow.hash <$> transactions db) → pre_insert_txs c = false → known c db → distinct c c' →
  r ∈ transactions db → res' ∈ executed c' → hits r res' = true →
  (kind_of (tx_of res') ≠ L2Kind →
    TransactionRow.transaction r = stored_transaction (hash_of res') (tx_of res') (Transaction.received_timestamp_ms (TransactionRow.transaction r))) →
  res ∈ executed c → hits r res = false.
Proof.
  intros Hnd Epre [?|Hk] Hd Hr Hres' Hh' Hst' Hres; [congruence|]. apply not_true_iff_false. intros Hh.
  destruct (Hd res res' Hres Hres') as [Hne Hnn]. destruct (Hk res Hres) as (r0 & Hr0 & _ & Hh0 & Hst0). unfold hits in *.
  destruct (decide (kind_of (tx_of res) = L2Kind)) as [Ek|Ek].
  - rewrite Ek in Hh. apply same_nonce_spec in Hh as (k & E1 & E2). destruct (decide (kind_of (tx_of res') = L2Kind)) as [Ek'|Ek'].
    + rewrite Ek' in Hh'. apply same_nonce_spec in Hh' as (k' & E1' & E2'). apply (Hnn k); congruence.
    + apply Ek', nonce_of_kind. rewrite (Hst' Ek'), nonce_of_stored in E2. congruence.
  - assert (r0 = r) as ->.
    { apply (unique_key_inj TransactionRow.hash _ _ _ Hnd); [done|done|].
      destruct (kind_of (tx_of res)); [done|..]; apply bool_decide_eq_true in Hh, Hh0; congruence. }
    assert (Eh : hash_of res = TransactionRow.hash r) by (destruct (kind_of (tx_of res)); [done|..]; by apply bool_decide_eq_true in Hh).
    destruct (decide (kind_of (tx_of res') = L2Kind)) as [Ek'|Ek'].
    + rewrite Ek' in Hh'. apply same_nonce_spec in Hh' as (k' & E1' & E2'). apply Ek, nonce_of_kind. rewrite (Hst0 Ek), nonce_of_stored in E2'. congruence.
    + apply Hne. destruct (kind_of (tx_of res')); [done|..]; apply bool_decide_eq_true in Hh'; congruence.
Qed.
Lemma known_marked now c c' db db' :
  NoDup (TransactionRow.hash <$> transactions db) → pre_insert_txs c' = pre_insert_txs c → known c db → distinct c c' →
  subtask_run now MarkTransactionsInL2Block c db = Ret (inr (), db') → known c' db → known c' db'.
Proof.
  intros Hnd Epre Hk Hd Hr [?|Hk']; [by left|]. destruct (pre_insert_txs c) eqn:Ec; [by left|]. right. intros res' Hres'.
  destruct (Hk' res' Hres') as (r & Hin & Hopen & Hh & Hst). exists r. split; [|done].
  destruct (mark_updates now c db db' Ec Hr) as (E2 & E1 & E0 & HE2 & HE1 & HE0 & ->). apply list_elem_of_fmap. exists r. split; [|done].
  symmetry. apply update_row_miss; [done..|]. intros m (k & res & Ek & ->)%elem_block_marks. cbn.
  eapply (other_row_missed c c' db r res res'); try done. by eapply list_elem_of_lookup_2.
Qed.
Lemma known_subtask now s c c' db db' :
  NoDup (TransactionRow.hash <$> transactions db) → pre_insert_txs c' = pre_insert_txs c →
  (s = MarkTransactionsInL2Block → known c db) → distinct c c' →
  subtask_run now s c db = Ret (inr (), db') → known c' db → known c' db'.
Proof.
  intros Hnd Epre Hk Hd Hr. destruct (decide (s = MarkTransactionsInL2Block)) as [->|Hs]; [eapply known_marked; try done; by apply Hk|].
  eapply known_frame; [done|by eapply subtask_frame].
Qed.
End waiting.

Section handler.
Context `{LT : TxLib, LK : KeeperLib, LA : TokenAbi, LS : StorageKeyHash, LC : CopyText}.
Implicit Types (T : Chain.t) (db : KeeperDb.t) (u : UpdatesManager.t) (p : StateKeeperPersistence.t).
Context (addr : Address) (pre_insert protective : bool) (T0 : Chain.t) (n0 : Z).
Abbreviation chain_of := (chain_of addr pre_insert protective T0).
Abbreviation last_block := (last_block n0).
Abbreviation command := (command addr pre_insert).
Abbreviation last_command := (last_command addr).
Abbreviation next_blocks := (next_blocks addr pre_insert).
Abbreviation inv := (inv addr pre_insert protective T0 n0).
Abbreviation step := (step addr pre_insert protective T0 n0).

(** ** The simulation *)
(** What has been handed over. *)
Definition handed (st : state) : list output := s_log st ++ (SealedBlock <$> s_queue st).
(** The handler and the task, in a state of the steps; the transactions of the blocks that are
    outstanding, and of those to come, wait in their table as long as the task runs. *)
Record sims (extra : list UpdatesManager.t) p (st : state) : Prop := {
  sim_pool : StateKeeperPersistence.pool p = s_db st;
  sim_commands : StateKeeperPersistence.outstanding p = command <$> s_queue st;
  sim_addr : StateKeeperPersistence.l2_shared_bridge_addr p = addr;
  sim_insert : StateKeeperPersistence.pre_insert_txs p = pre_insert;
  sim_reads : StateKeeperPersistence.insert_protective_reads p = protective;
  sim_mode : s_mode st = Sealing;
  sim_done : StateKeeperPersistence.sealer_stopped p = false → s_done st = [];
  sim_next : next_blocks (last_block (s_log st)) (chain_of (s_log st)) (s_queue st ++ extra);
  sim_known : StateKeeperPersistence.sealer_stopped p = false → Forall (λ u, known (command u) (s_db st)) (s_queue st ++ extra);
  sim_turns : Forall (λ turn, NoDup (Turn.order turn)) (StateKeeperPersistence.turns p);
}.

(** ** The subtasks of a block *)
(** What fails changes nothing. *)
Definition all_or_nothing {A} (op : Q A) : Prop := ∀ db e db', op db = Ret (inl e, db') → db' = db.
Lemma atomically_all {A} (op : Q A) : all_or_nothing (atomically op).
Proof. intros db e db'. unfold atomically. destruct (op db) as [[[]?]|]; by intros [= _ <-]. Qed.
Lemma execute_all f : all_or_nothing (execute f).
Proof. intros db e db'. unfold execute. destruct (f db); by intros [= _ <-]. Qed.
Lemma ret_all {A} (a : A) : all_or_nothing (mret a : Q A).
Proof. by intros db e db'. Qed.
Lemma lift_bind_all {A B} (m : exec A) (f : A → Q B) : (∀ a, all_or_nothing (f a)) → all_or_nothing (lift_exec m ≫= f).
Proof. intros Hf db e db'. destruct m as [a|]; [|done]. rewrite (prog_bind_step _ _ _ a db) by done. apply Hf. Qed.
Lemma subtask_all now s c : all_or_nothing (subtask_run now s c).
Proof.
  destruct s; cbn [subtask_run]; [apply atomically_all|apply lift_bind_all; intros; apply execute_all| |apply lift_bind_all; intros..|].
  - case_decide; [apply ret_all|apply execute_all].
  - destruct a; [apply ret_all|apply execute_all].
  - apply execute_all.
  - apply lift_bind_all. intros []; [apply ret_all|apply execute_all].
Qed.
Lemma inv_hashes st : inv st → s_mode st = Sealing → NoDup (TransactionRow.hash <$> transactions (s_db st)).
Proof.
  intros [_ _ _ Hm] Emode. unfold mode_inv in Hm. rewrite Emode in Hm. destruct (s_queue st).
  - destruct Hm as [_ Hm]. destruct (Hm MarkTransactionsInL2Block) as [[] _]. done.
  - specialize (Hm MarkTransactionsInL2Block). destruct (decide _); destruct Hm as [[] _]; done.
Qed.
(** In any order, up to the one that fails. *)
Lemma order_steps now log u queue order done db r db' :
  ensure_valid_l2_block (command u) false = inr () → NoDup order → (∀ s, s ∈ order → s ∉ done) →
  (MarkTransactionsInL2Block ∈ order → known (command u) db) → inv (State db log (u :: queue) done Sealing) →
  foldP (λ _ s, subtask_run now s (command u)) () order db = Ret (r, db') →
  ∃ done', rtc step (State db log (u :: queue) done Sealing) (State db' log (u :: queue) done' Sealing) ∧
    match r with
    | inr _ => done' = reverse order ++ done ∧
        ∀ c', pre_insert_txs c' = pre_insert → distinct (command u) c' → known c' db → known c' db'
    | inl _ => True
    end.
Proof.
  intros Hv. revert done db. induction order as [|s order IH]; intros done db Hnd Hdis Hk Hinv Hr; cbn [foldP] in Hr.
  { injection Hr as <- <-. by exists done. }
  apply NoDup_cons in Hnd as [Hs Hnd]. destruct (subtask_run now s (command u) db) as [[[e|[]] db1]|] eqn:E1.
  - unfold mbind, prog_bind in Hr. rewrite E1 in Hr. injection Hr as <- <-. apply subtask_all in E1 as ->. by exists done.
  - rewrite (prog_bind_step _ _ _ _ _ E1) in Hr.
    assert (Hks : s = MarkTransactionsInL2Block → known (command u) db) by (intros ->; apply Hk; left).
    assert (Hstep : step (State db log (u :: queue) done Sealing) (State db1 log (u :: queue) (s :: done) Sealing)).
    { by apply (step_subtask addr pre_insert protective T0 n0 db log u queue done s now db1); [|apply Hdis; left|..]. }
    destruct (IH (s :: done) db1) as (done' & Hsteps & Hres); try done.
    + intros s' Hs' [->|Hd]%elem_of_cons; [done|]. revert Hd. apply Hdis. by right.
    + intros Hmark. assert (s ≠ MarkTransactionsInL2Block) by by intros ->. eapply known_frame; [done|by eapply subtask_frame|]. apply Hk. by right.
    + by eapply inv_step.
    + exists done'. split; [by eapply rtc_l|]. destruct r as [|[]]; [done|]. destruct Hres as [-> Hres].
      split; [by rewrite reverse_cons, <-app_assoc|]. intros c' Epre Hd Hc'. apply Hres; [done|done|].
      exact (known_subtask now s (command u) c' db db1 (inv_hashes _ Hinv eq_refl) Epre Hks Hd E1 Hc').
  - unfold mbind, prog_bind in Hr. by rewrite E1 in Hr.
Qed.
Lemma next_blocks_distinct n T u queue :
  next_blocks n T (u :: queue) → Forall (λ v, distinct (command u) (command v)) queue.
Proof.
  intros [_ Hq]. cut (∀ queue n T', block_marks (command u) ⊆ Chain.marks T' → next_blocks n T' queue → Forall (λ v, distinct (command u) (command v)) queue).
  { intros Hg. eapply Hg; [|exact Hq]. cbn. set_solver. }
  clear. intros queue. induction queue as [|v queue IH]; intros n T' Hsub; cbn [next_blocks]; [constructor|]. intros [[_ _ _ _ Hh Hn] Hq]. constructor.
  - intros res res' (i & Ei)%list_elem_of_lookup (j & Ej)%list_elem_of_lookup.
    set (m := Mark.mk (number (command u)) (Z.of_nat i) res (price_of (command u) (TransactionExecutionResult.transaction res)) None).
    set (m' := Mark.mk (number (command v)) (Z.of_nat j) res' (price_of (command v) (TransactionExecutionResult.transaction res')) None).
    assert (Hm : m ∈ Chain.marks T') by (apply Hsub, elem_block_marks; eauto).
    assert (Hm' : m' ∈ block_marks (command v)) by (apply elem_block_marks; eauto).
    rewrite fmap_app in Hh. apply NoDup_app in Hh as (_ & Hh & _). rewrite omap_app in Hn. apply NoDup_app in Hn as (_ & Hn & _). split.
    + intros E. apply (Hh (Mark.hash m)); apply list_elem_of_fmap; [by exists m|]. by exists m'.
    + intros k E E'. apply (Hn k); apply list_elem_of_omap; [by exists m|]. by exists m'.
  - eapply IH; [|exact Hq]. cbn. set_solver.
Qed.

(** ** The channel *)
Definition capacity p : bool * nat := (StateKeeperPersistence.is_sync p, StateKeeperPersistence.command_capacity p).
(** What a step of the task does to it, as long as the task goes on. *)
Lemma sealer_step_channel p p' :
  StateKeeperPersistence.sealer_step p = Ret p' →
  capacity p' = capacity p ∧ (length (StateKeeperPersistence.commands p') ≤ length (StateKeeperPersistence.commands p))%nat ∧
  (StateKeeperPersistence.sealer_stopped p' = false → StateKeeperPersistence.sealer_stopped p = false ∧
    match StateKeeperPersistence.sealing p with
    | Some _ => StateKeeperPersistence.sealing p' = None ∧ StateKeeperPersistence.commands p' = StateKeeperPersistence.commands p
    | None => StateKeeperPersistence.commands p' = tail (StateKeeperPersistence.commands p) ∧
        StateKeeperPersistence.sealing p' = head (StateKeeperPersistence.commands p)
    end).
Proof.
  destruct p as [pool addr' ins reads sync cap cmds sealing stopped turns inter]. unfold StateKeeperPersistence.sealer_step. cbn.
  destruct stopped; [by intros [= <-]|]. destruct sealing as [command|].
  - intros ([[e|[]] db'] & _ & [= <-])%bind_Ret_inv; done.
  - intros [= <-]. unfold StateKeeperPersistence.next_command. cbn. destruct cmds as [|c cmds]; [done|]. cbn. split_and!; [done|lia|done].
Qed.
Lemma sealer_run_channel k p p' :
  StateKeeperPersistence.sealer_run k p = Ret p' →
  capacity p' = capacity p ∧ (length (StateKeeperPersistence.commands p') ≤ length (StateKeeperPersistence.commands p))%nat ∧
  (StateKeeperPersistence.sealer_stopped p' = false → StateKeeperPersistence.sealer_stopped p = false).
Proof.
  revert p. induction k as [|k IH]; intros p; cbn [StateKeeperPersistence.sealer_run]; [by intros [= <-]|].
  intros (p1 & (Hc1 & Hl1 & Hs1)%sealer_step_channel & (Hc & Hl & Hs)%IH)%bind_Ret_inv. split_and!; [by etrans|lia|]. intros Hst. by apply Hs1, Hs.
Qed.
(** The steps to make room are enough, and so are those to finish. *)
Lemma sealer_run_room p p' :
  StateKeeperPersistence.sealer_run (StateKeeperPersistence.steps_to_room p) p = Ret p' → StateKeeperPersistence.sealer_stopped p' = false →
  (length (StateKeeperPersistence.commands p) ≤ StateKeeperPersistence.command_capacity p)%nat → (0 < StateKeeperPersistence.command_capacity p)%nat →
  (length (StateKeeperPersistence.commands p') < StateKeeperPersistence.command_capacity p)%nat.
Proof.
  unfold StateKeeperPersistence.steps_to_room. case_decide; [by intros [= <-]|]. intros Hr Hst Hle Hpos.
  assert (Hfull : length (tail (StateKeeperPersistence.commands p)) = (length (StateKeeperPersistence.commands p) - 1)%nat) by (destruct (StateKeeperPersistence.commands p); cbn; lia).
  destruct (StateKeeperPersistence.sealing p) as [c|] eqn:Es; cbn [option_list length Nat.add StateKeeperPersistence.sealer_run] in Hr.
  - apply bind_Ret_inv in Hr as (p1 & (_ & _ & H1)%sealer_step_channel & (p2 & (_ & _ & H2)%sealer_step_channel & [= ->])%bind_Ret_inv).
    destruct (H2 Hst) as [Hst1 Hm2]. destruct (H1 Hst1) as [_ Hm1]. rewrite Es in Hm1. destruct Hm1 as [Es1 Ec1]. rewrite Es1, Ec1 in Hm2.
    destruct Hm2 as [-> _]. lia.
  - apply bind_Ret_inv in Hr as (p1 & (_ & _ & H1)%sealer_step_channel & [= ->]). destruct (H1 Hst) as [_ Hm1]. rewrite Es in Hm1. destruct Hm1 as [-> _]. lia.
Qed.
Lemma sealer_run_finishes p p' :
  StateKeeperPersistence.sealer_run (StateKeeperPersistence.steps_to_finish p) p = Ret p' → StateKeeperPersistence.sealer_stopped p' = false →
  StateKeeperPersistence.outstanding p' = [].
Proof.
  remember (StateKeeperPersistence.steps_to_finish p) as k eqn:Ek. revert p Ek. unfold StateKeeperPersistence.steps_to_finish, StateKeeperPersistence.outstanding.
  induction k as [|k IH]; intros p Ek Hr Hst; cbn [StateKeeperPersistence.sealer_run] in Hr.
  - injection Hr as <-. destruct (StateKeeperPersistence.sealing p), (StateKeeperPersistence.commands p); cbn in *; done || lia.
  - apply bind_Ret_inv in Hr as (p1 & (_ & _ & H1)%sealer_step_channel & Hr). pose proof (sealer_run_channel _ _ _ Hr) as (_ & _ & Hs).
    destruct (H1 (Hs Hst)) as [_ Hm]. apply (IH p1); [|done|done]. destruct (StateKeeperPersistence.sealing p).
    + destruct Hm as [-> ->]. cbn in *. lia.
    + destruct Hm as [-> ->]. destruct (StateKeeperPersistence.commands p); cbn in *; lia.
Qed.
(** The channel has no more than its capacity; without one nothing is outstanding between the
    calls. *)
Record within p : Prop := {
  within_capacity : (length (StateKeeperPersistence.commands p) ≤ StateKeeperPersistence.command_capacity p)%nat;
  within_sync : StateKeeperPersistence.is_sync p = true → StateKeeperPersistence.outstanding p = [];
}.
Lemma within_step p p' : within p → StateKeeperPersistence.sealer_step p = Ret p' → within p'.
Proof.
  intros [Hc Hs] Hr. pose proof (sealer_step_channel _ _ Hr) as ([= Ey Ec] & Hl & _). split; [lia|]. rewrite Ey. intros Hsync. specialize (Hs Hsync).
  destruct p as [pool addr' ins reads sync cap cmds sealing stopped turns inter]. unfold StateKeeperPersistence.outstanding in *. cbn in *.
  apply app_eq_nil in Hs as [Hs ->]. destruct sealing; [done|]. unfold StateKeeperPersistence.sealer_step in Hr. cbn in Hr.
  destruct stopped; by injection Hr as <-.
Qed.

(** ** The sealer's task *)
Lemma seal_steps turn log u queue db r db' :
  inv (State db log (u :: queue) [] Sealing) → known (command u) db → NoDup (Turn.order turn) →
  StateKeeperPersistence.seal turn (command u) db = Ret (r, db') →
  match r with
  | inl _ => ∃ done', rtc step (State db log (u :: queue) [] Sealing) (State db' log (u :: queue) done' Sealing)
  | inr _ => rtc step (State db log (u :: queue) [] Sealing) (State db' (log ++ [SealedBlock u]) queue [] Sealing) ∧
      ∀ c', pre_insert_txs c' = pre_insert → distinct (command u) c' → known c' db → known c' db'
  end.
Proof.
  intros Hinv Hk Hnd Hr. unfold StateKeeperPersistence.seal in Hr.
  destruct (ensure_valid_l2_block (command u) false) as [e|[]] eqn:Hv; [injection Hr as <- <-; by exists []|].
  rewrite (prog_bind_step _ _ _ () db) in Hr by done.
  destruct (foldP (λ _ s, subtask_run (Turn.now turn) s (command u)) () (Turn.order turn) db) as [[r1 db1]|] eqn:Hf; [|unfold mbind, prog_bind in Hr; by rewrite Hf in Hr].
  destruct (order_steps (Turn.now turn) log u queue (Turn.order turn) [] db r1 db1) as (done' & Hsteps & Hres); try done.
  { intros s _. apply not_elem_of_nil. }
  destruct r1 as [e|[]].
  { unfold mbind, prog_bind in Hr. rewrite Hf in Hr. injection Hr as <- <-. by exists done'. }
  rewrite (prog_bind_step _ _ _ _ _ Hf) in Hr. destruct Hres as [-> Hkeep]. rewrite app_nil_r in Hsteps.
  unfold Turn.complete in Hr. case_bool_decide as Hp; [|injection Hr as <- <-; eauto].
  destruct r as [e|[]]; [unfold BlocksDal.insert_l2_block in Hr; apply execute_all in Hr as ->; eauto|]. split.
  - eapply rtc_r; [done|]. apply step_header; [|done]. intros s. rewrite elem_of_reverse, Hp. apply all_subtasks_complete.
  - intros c' Epre Hd Hc'. specialize (Hkeep c' Epre Hd Hc'). unfold BlocksDal.insert_l2_block in Hr. by apply insert_rows in Hr as ->.
Qed.
Lemma sealer_step_steps extra p st p' :
  inv st → sims extra p st → StateKeeperPersistence.sealer_step p = Ret p' →
  ∃ st', rtc step st st' ∧ sims extra p' st' ∧ handed st' = handed st.
Proof.
  intros Hinv Hsim. pose proof Hsim as [Hpool Hcmd Haddr Hins Hreads Hmode Hdone Hnext Hknown Hturns].
  destruct p as [pool addr' ins reads sync cap cmds sealing stopped turns inter]. destruct st as [db log queue done mode].
  unfold StateKeeperPersistence.sealer_step, StateKeeperPersistence.outstanding in *. cbn in *. subst.
  destruct stopped; [by intros [= <-]; exists (State db log queue done Sealing)|]. rewrite (Hdone eq_refl) in *.
  destruct sealing as [c|].
  2: { intros [= <-]. exists (State db log queue [] Sealing). split_and!; try done. unfold StateKeeperPersistence.next_command. cbn.
    destruct cmds as [|c cmds]; [done|]. by split. }
  destruct queue as [|u queue]; [done|]. injection Hcmd as -> Hcmd.
  set (turn := default Turn.sequential (head turns)). intros Hr.
  apply bind_Ret_inv in Hr as ([r db'] & Hseal & [= <-]). apply seal_steps with (log := log) (queue := queue) in Hseal; [|done|..].
  - assert (Hturns' : Forall (λ turn, NoDup (Turn.order turn)) (tail turns)) by by destruct Hturns.
    destruct r as [e|[]].
    + destruct Hseal as [done' Hsteps]. exists (State db' log (u :: queue) done' Sealing). split_and!; try done. split; try done.
      unfold StateKeeperPersistence.outstanding. cbn. by rewrite Hcmd.
    + destruct Hseal as [Hsteps Hkeep]. exists (State db' (log ++ [SealedBlock u]) queue [] Sealing). split_and!; try done.
      * split; try done; cbn [s_log s_queue s_db] in *.
        -- rewrite chain_of_snoc, last_block_snoc. apply Hnext.
        -- intros _. specialize (Hknown eq_refl) as [_ Hknown']%Forall_cons. apply next_blocks_distinct in Hnext.
           eapply Forall_impl; [apply Forall_and; split; [exact Hnext|exact Hknown']|]. cbn beta. intros v [Hd Hv]. by apply Hkeep.
      * unfold handed. cbn. by rewrite <-app_assoc.
  - specialize (Hknown eq_refl). by apply Forall_cons in Hknown as [? _].
  - subst turn. destruct Hturns; [|done]. cbn. unfold all_subtasks. repeat constructor; set_solver.
Qed.
Lemma inv_steps st st' : inv st → rtc step st st' → inv st'.
Proof. intros Hi Hr. induction Hr; [done|]. eauto using inv_step. Qed.
Lemma handler_run_steps extra k p st p' :
  inv st → sims extra p st → StateKeeperPersistence.sealer_run k p = Ret p' →
  ∃ st', rtc step st st' ∧ sims extra p' st' ∧ handed st' = handed st.
Proof.
  revert p st. induction k as [|k IH]; intros p st Hinv Hsim; cbn [StateKeeperPersistence.sealer_run]; [by intros [= <-]; exists st|].
  intros (p1 & H1 & Hr)%bind_Ret_inv. destruct (sealer_step_steps extra p st p1 Hinv Hsim H1) as (st1 & Hs1 & Hsim1 & Hh1).
  destruct (IH p1 st1 (inv_steps _ _ Hinv Hs1) Hsim1 Hr) as (st' & Hs & Hsim' & Hh). exists st'. split_and!; [by etrans|done|by etrans].
Qed.

(** ** The handler *)
Lemma last_block_handed st : last_block (handed st) = last_block (s_log st) + byte_len (s_queue st).
Proof. unfold handed, PersistenceRuns.last_block, byte_len. rewrite length_app, length_fmap. lia. Qed.
Lemma sims_expect u p st :
  inv st → sims [] p st → admissible (last_block (handed st)) (command u) (chain_of (handed st)) → known (command u) (s_db st) → sims [u] p st.
Proof.
  intros [_ _ Hq _] [] Hadm Hk. rewrite last_block_handed in Hadm. split; try done.
  - by apply next_blocks_snoc.
  - intros Hst. specialize (sim_known0 Hst). rewrite app_nil_r in sim_known0. apply Forall_app. split; [done|]. by apply Forall_singleton.
Qed.
Lemma sims_submit u p st :
  sims [u] p st → admissible (last_block (handed st)) (command u) (chain_of (handed st)) →
  let st' := State (s_db st) (s_log st) (s_queue st ++ [u]) (s_done st) Sealing in
  step st st' ∧ sims [] (StateKeeperPersistence.with_commands p (StateKeeperPersistence.commands p ++ [command u]) (StateKeeperPersistence.sealing p)) st' ∧
  handed st' = handed st ++ [SealedBlock u].
Proof.
  intros [] Hadm. rewrite last_block_handed in Hadm. destruct st as [db log queue done mode]. cbn in *. subst mode. split_and!.
  - by apply step_submit.
  - split; cbn; rewrite ?app_nil_r; try done. unfold StateKeeperPersistence.outstanding in *. cbn. by rewrite app_assoc, sim_commands0, fmap_app.
  - unfold handed. cbn. by rewrite fmap_app, app_assoc.
Qed.

Lemma wait_steps extra p st p' :
  inv st → sims extra p st → StateKeeperPersistence.wait_for_all_commands p = Ret p' →
  ∃ st', rtc step st st' ∧ sims extra p' st' ∧ handed st' = handed st ∧ capacity p' = capacity p ∧
    StateKeeperPersistence.outstanding p' = [] ∧ s_queue st' = [].
Proof.
  intros Hinv Hsim (p1 & Hrun & Hnil)%bind_Ret_inv. unfold assert_then in Hnil. case_bool_decide as Hq; [|done]. injection Hnil as ->.
  pose proof (sealer_run_channel _ _ _ Hrun) as (Hc & _). destruct (handler_run_steps extra _ p st p' Hinv Hsim Hrun) as (st' & Hs & Hsim' & Hh).
  exists st'. split_and!; try done. rewrite (sim_commands _ _ _ Hsim') in Hq. by apply fmap_nil_inv in Hq.
Qed.
Lemma within_outstanding p : (0 < StateKeeperPersistence.command_capacity p)%nat → StateKeeperPersistence.outstanding p = [] → within p.
Proof. intros Hpos Hn. split; [|done]. apply app_eq_nil in Hn as [_ ->]. cbn. lia. Qed.
Lemma submit_steps u p st p' :
  inv st → sims [u] p st → within p → admissible (last_block (handed st)) (command u) (chain_of (handed st)) →
  (0 < StateKeeperPersistence.command_capacity p)%nat →
  StateKeeperPersistence.submit_l2_block (command u) p = Ret p' →
  ∃ st', rtc step st st' ∧ sims [] p' st' ∧ handed st' = handed st ++ [SealedBlock u] ∧ capacity p' = capacity p ∧ within p'.
Proof.
  intros Hinv Hsim [Hcap _] Hadm Hpos (p1 & Hrun & Hsub)%bind_Ret_inv.
  destruct (handler_run_steps [u] _ p st p1 Hinv Hsim Hrun) as (st1 & Hs1 & Hsim1 & Hh1). pose proof (sealer_run_channel _ _ _ Hrun) as (Hc1 & _).
  unfold assert_then in Hsub. destruct (StateKeeperPersistence.sealer_stopped p1) eqn:Est; [done|]. cbn [negb] in Hsub.
  pose proof (sealer_run_room _ _ Hrun Est Hcap Hpos) as Hroom. rewrite <-Hh1 in Hadm |- *. destruct (sims_submit u p1 st1 Hsim1 Hadm) as (Hs2 & Hsim2 & Hh2).
  assert (Hs12 : rtc step st (State (s_db st1) (s_log st1) (s_queue st1 ++ [u]) (s_done st1) Sealing)) by by eapply rtc_r.
  cbn [StateKeeperPersistence.with_commands StateKeeperPersistence.is_sync] in Hsub. pose proof Hc1 as [= _ Ecap].
  destruct (StateKeeperPersistence.is_sync p1) eqn:Esync.
  - destruct (wait_steps [] _ _ p' (inv_steps _ _ Hinv Hs12) Hsim2 Hsub) as (st3 & Hs3 & Hsim3 & Hh3 & Hc3 & Hout & _).
    exists st3. split_and!; [by etrans|done|congruence|by rewrite Hc3, <-Hc1|]. apply within_outstanding; [|done]. injection Hc3 as _ ->. cbn. lia.
  - injection Hsub as <-. eexists. split_and!; [exact Hs12|exact Hsim2|exact Hh2|exact Hc1|]. split; cbn; [rewrite length_app; cbn; lia|congruence].
Qed.
Lemma within_run k p p' : within p → StateKeeperPersistence.sealer_run k p = Ret p' → within p'.
Proof.
  revert p. induction k as [|k IH]; intros p Hw; cbn [StateKeeperPersistence.sealer_run]; [by intros [= <-]|].
  intros (p1 & H1 & Hr)%bind_Ret_inv. eauto using within_step.
Qed.
Lemma handle_block_steps u p st r p' :
  inv st → sims [] p st → within p → admissible (last_block (handed st)) (command u) (chain_of (handed st)) → known (command u) (s_db st) →
  (0 < StateKeeperPersistence.command_capacity p)%nat →
  StateKeeperPersistence.handle_l2_block u p = Ret (r, p') →
  ∃ st', rtc step st st' ∧ sims [] p' st' ∧ handed st' = handed st ++ [SealedBlock u] ∧ capacity p' = capacity p ∧ within p'.
Proof.
  intros Hinv Hsim Hw Hadm Hk Hcap (p1 & H1 & (p2 & Hsub & [= <- <-])%bind_Ret_inv)%bind_Ret_inv.
  set (q := StateKeeperPersistence.with_interludes p (tail (StateKeeperPersistence.interludes p))) in *.
  assert (Hsim1 : sims [u] q st) by by destruct (sims_expect u p st Hinv Hsim Hadm Hk).
  assert (Hw1 : within p1) by (eapply (within_run _ q); [by destruct Hw|done]).
  destruct (handler_run_steps [u] _ _ st p1 Hinv Hsim1 H1) as (st1 & Hs1 & Hsim2 & Hh1). pose proof (sealer_run_channel _ _ _ H1) as ([= Ey Ec] & _).
  rewrite (sim_addr _ _ _ Hsim2), (sim_insert _ _ _ Hsim2) in Hsub. fold (command u) in Hsub. rewrite <-Hh1 in *. cbn in Ey, Ec.
  destruct (submit_steps u p1 st1 p2 (inv_steps _ _ Hinv Hs1) Hsim2 Hw1 Hadm) as (st' & Hs & Hsim' & Hh & Hc & Hl); [by rewrite Ec|done|].
  exists st'. unfold capacity in *. rewrite Ey, Ec in *. split; [by etrans|done].
Qed.
Lemma handle_batch_steps now u p st p' :
  inv st → sims [] p st →
  (∀ f, L1BatchUpdates.finished (UpdatesManager.l1_batch u) = Some f →
    admissible_batch (last_block (handed st)) u (last_command u) (chain_of (handed st))) →
  StateKeeperPersistence.handle_l1_batch now u p = Ret (inr (), p') →
  ∃ st', rtc step st st' ∧ sims [] p' st' ∧ handed st' = handed st ++ [SealedBatch u] ∧
    capacity p' = capacity p ∧ StateKeeperPersistence.outstanding p' = [].
Proof.
  intros Hinv Hsim Hadm (p1 & Hwait & Hr)%bind_Ret_inv. destruct (wait_steps [] p st p1 Hinv Hsim Hwait) as (st1 & Hs1 & Hsim1 & Hh1 & Hc1 & Hout & Hq).
  pose proof (inv_steps _ _ Hinv Hs1) as [_ _ _ Hm]. destruct st1 as [db log queue done mode]. cbn in Hq. subst queue.
  pose proof (sim_mode _ _ _ Hsim1) as Em. cbn in Em. subst mode. cbn in Hm. destruct Hm as [-> _]. rewrite <-Hh1 in *.
  replace (handed (State db log [] [] Sealing)) with log in * by (unfold handed; cbn; by rewrite app_nil_r).
  apply bind_Ret_inv in Hr as ([r db'] & Hseal & [= -> <-]).
  rewrite (sim_pool _ _ _ Hsim1), (sim_addr _ _ _ Hsim1), (sim_reads _ _ _ Hsim1) in Hseal. cbn [s_db] in Hseal.
  unfold seal_l1_batch in Hseal. destruct (L1BatchUpdates.finished (UpdatesManager.l1_batch u)) as [f|] eqn:Ef; [|done].
  apply prog_bind_inr in Hseal as (f' & ? & [= <- <-] & (w & db1 & Htx & Hw)%prog_bind_inr). cbn zeta in Hw. case_decide; [|done]. injection Hw as <-.
  exists (State db1 (log ++ [SealedBatch u]) [] [] Sealing). split_and!; [|destruct Hsim1; by split|unfold handed; cbn; by rewrite app_nil_r|exact Hc1|done].
  eapply rtc_r; [exact Hs1|]. by apply (step_batch addr pre_insert protective T0 n0 db log u f now w db1); [|apply (Hadm f)|].
Qed.

(** ** Runs of the handler *)
(** What the handler has been given and where it is: its calls that have returned, the
    progress of the task and the statements of others. A block that is handed over is the
    next one of the chain, and the rows of its transactions wait in the table when it is
    handed over and until it is sealed: nobody deletes them. *)
Inductive handled (p0 : StateKeeperPersistence.t) : list output → StateKeeperPersistence.t → Prop :=
| handled_start : handled p0 [] p0
| handled_block outs p u p' :
    handled p0 outs p → admissible (last_block outs) (command u) (chain_of outs) → known (command u) (StateKeeperPersistence.pool p) →
    StateKeeperPersistence.handle_l2_block u p = Ret (inr (), p') → handled p0 (outs ++ [SealedBlock u]) p'
| handled_batch outs p u now p' :
    handled p0 outs p → admissible_batch (last_block outs) u (last_command u) (chain_of outs) →
    StateKeeperPersistence.handle_l1_batch now u p = Ret (inr (), p') → handled p0 (outs ++ [SealedBatch u]) p'
| handled_task outs p p' :
    handled p0 outs p → StateKeeperPersistence.sealer_step p = Ret p' → handled p0 outs p'
| handled_others outs p db :
    handled p0 outs p → others (StateKeeperPersistence.pool p) db → Forall (λ c, known c db) (StateKeeperPersistence.outstanding p) →
    handled p0 outs (StateKeeperPersistence.with_pool p db).
(** The handler as the node starts it. *)
Definition started db (command_capacity : nat) (turns : list Turn.t) (interludes : list nat) : StateKeeperPersistence.t :=
  let p := StateKeeperPersistence.new db addr command_capacity turns interludes in
  let p := if pre_insert then StateKeeperPersistence.with_tx_insertion p else p in
  if protective then p else StateKeeperPersistence.without_protective_reads p.

Lemma handled_steps db command_capacity turns interludes outs p :
  chain_wf n0 T0 → matches n0 db T0 → Forall (λ turn, NoDup (Turn.order turn)) turns →
  handled (started db command_capacity turns interludes) outs p →
  ∃ st, rtc step (initial db) st ∧ sims [] p st ∧ handed st = outs ∧
    capacity p = (bool_decide (command_capacity = 0%nat), max command_capacity 1) ∧ within p.
Proof.
  intros Hwf Hm Ht Hrun.
  assert (Hpos : ∀ p, capacity p = (bool_decide (command_capacity = 0%nat), max command_capacity 1) → (0 < StateKeeperPersistence.command_capacity p)%nat).
  { intros q [= _ ->]. lia. }
  assert (Hi : ∀ st, rtc step (initial db) st → inv st) by (intros st; by apply inv_reachable).
  induction Hrun as [|outs p u p' _ (st & Hs & Hsim & <- & Hc & Hw) Hadm Hk Hr|outs p u now p' _ (st & Hs & Hsim & <- & Hc & Hw) Hadm Hr
    |outs p p' _ (st & Hs & Hsim & <- & Hc & Hw) Hr|outs p db' _ (st & Hs & Hsim & <- & Hc & Hw) Ho Hk].
  - exists (initial db). split; [done|]. split; [|split; [done|split; [by unfold started; destruct pre_insert, protective|]]].
    + split; try done; unfold started; by case_match; case_match.
    + apply within_outstanding; unfold started; case_match; case_match; cbn; done || lia.
  - rewrite (sim_pool _ _ _ Hsim) in Hk.
    destruct (handle_block_steps u p st (inr ()) p' (Hi _ Hs) Hsim Hw Hadm Hk (Hpos p Hc) Hr) as (st' & Hs' & Hsim' & Hh & Hc' & Hw').
    exists st'. split_and!; [by etrans|done|done|congruence|done].
  - destruct (handle_batch_steps now u p st p' (Hi _ Hs) Hsim (λ _ _, Hadm) Hr) as (st' & Hs' & Hsim' & Hh & Hc' & Hout).
    exists st'. split_and!; [by etrans|done|done|congruence|]. apply within_outstanding; [apply Hpos; congruence|done].
  - destruct (sealer_step_steps [] p st p' (Hi _ Hs) Hsim Hr) as (st' & Hs' & Hsim' & Hh). pose proof (sealer_step_channel _ _ Hr) as (Hc' & _).
    exists st'. split_and!; [by etrans|done|done|congruence|by eapply within_step].
  - rewrite (sim_pool _ _ _ Hsim) in Ho. exists (State db' (s_log st) (s_queue st) (s_done st) (s_mode st)). split_and!; try done.
    + eapply rtc_r; [exact Hs|]. destruct st. by apply step_others.
    + pose proof (sim_commands _ _ _ Hsim) as Ec. rewrite Ec in Hk. destruct Hsim. split; cbn; try done. rewrite app_nil_r. intros _. by apply Forall_fmap in Hk.
    + by destruct Hw.
Qed.

(** C7 What the state keeper has handed over is durable but for the blocks in the channel and
    the one that the sealer's task has received from it: whatever the calls of the handler
    that have returned, the steps of the task - the subtasks of a block in any order, an
    error after any of them - and the statements of others, should the node stop, then
    removing the pending data succeeds and leaves the rows of all that was handed over
    except at most [command_capacity + 1] of the last blocks; with a capacity of 0, where
    the handler waits for each block, nothing is lost, and a batch never is. It is assumed
    that the blocks continue the chain ([admissible]: the next number, transactions that are
    in no block of the chain, tokens deployed in their block), that others write only what
    is not the state keeper's ([others]), and that the transactions of a block stay in their
    table until it is sealed ([known]). *)
Theorem handled_outputs_durable db command_capacity turns interludes outs p :
  chain_wf n0 T0 → matches n0 db T0 → Forall (λ turn, NoDup (Turn.order turn)) turns →
  handled (started db command_capacity turns interludes) outs p →
  ∃ sealed pending db', outs = sealed ++ (SealedBlock <$> pending) ∧
    (length pending ≤ if decide (command_capacity = 0) then 0 else command_capacity + 1)%nat ∧
    clear_pending_l2_block (last_block sealed) (StateKeeperPersistence.pool p) = Ret (inr (), db') ∧
    matches (last_block sealed) db' (chain_of sealed).
Proof.
  intros Hwf Hm Ht Hrun. destruct (handled_steps _ _ _ _ _ _ Hwf Hm Ht Hrun) as (st & Hs & Hsim & <- & Hcp & [Hcap Hsync]).
  pose proof (f_equal fst Hcp) as Ey. pose proof (f_equal snd Hcp) as Ec. unfold capacity in Ey, Ec. cbn [fst snd] in Ey, Ec.
  pose proof (inv_reachable _ _ _ _ _ _ _ Hwf Hm Hs) as Hinv.
  destruct (clear_pending_matches addr pre_insert _ _ _ (inv_wf _ _ _ _ _ _ Hinv) (inv_headers _ _ _ _ _ _ Hinv)
    (λ s, inv_covers _ _ _ _ _ st s Hinv)) as (db' & Hc & Hm' & _).
  exists (s_log st), (s_queue st), db'. rewrite (sim_pool _ _ _ Hsim). split_and!; try done.
  rewrite <-(length_fmap command), <-(sim_commands _ _ _ Hsim). destruct (decide (command_capacity = 0%nat)) as [H0|H0].
  - rewrite Hsync; [done|]. by rewrite Ey, bool_decide_eq_true_2.
  - unfold StateKeeperPersistence.outstanding. rewrite length_app. rewrite Ec in Hcap. destruct (StateKeeperPersistence.sealing p); cbn; lia.
Qed.
End handler.
