(* ===== verification/PersistenceRestart.v ===== *)
(** * Starting again

    What the state keeper reads when it starts on the tables of a chain: where the chain
    ends, and the blocks after the last batch with their transactions. *)
From S2P Require Import Prelude Types Abi Sql VmLimits Float Deduplicator FeeModel TxEncoding VmErrors StateDiffs SealCriteria VmInterface KeeperUpdates BatchExecutor StateKeeper KeeperChain KeeperDal KeeperDb Persistence PersistenceSpec PersistenceMarks PersistenceCorrect PersistenceRuns.
Local Open Scope Z_scope.
Import KeeperDb L2BlockSealCommand SealCommand.

(** ** Lists *)
Section lists.
Context {A K : Type} `{EqDecision K} (key : A → K).

(** A group starts with another key than the rows before it have. *)
Lemma group_by_app k l rest :
  l ≠ [] → Forall (λ x, key x = k) l → (∀ g, head (TransactionsDal.group_by key rest) = Some g → g.1 ≠ k) →
  TransactionsDal.group_by key (l ++ rest) = (k, l) :: TransactionsDal.group_by key rest.
Proof.
  intros Hne Hl Hrest. induction Hl as [|x l Hx Hl IH]; [done|]. destruct l as [|y l].
  - cbn. fold (TransactionsDal.group_by key rest). destruct (TransactionsDal.group_by key rest) as [|[k' g] groups]; [by rewrite Hx|].
    rewrite decide_False; [by rewrite Hx|]. rewrite Hx. by apply (Hrest (k', g)).
  - change (TransactionsDal.group_by key ((x :: y :: l) ++ rest)) with
      (match TransactionsDal.group_by key ((y :: l) ++ rest) with
       | (k, group) :: rest' => if decide (k = key x) then (k, x :: group) :: rest' else (key x, [x]) :: TransactionsDal.group_by key ((y :: l) ++ rest)
       | [] => [(key x, [x])] end).
    rewrite IH by done. by rewrite decide_True.
Qed.
Lemma group_by_concat ks ls :
  Forall2 (λ k l, l ≠ [] ∧ Forall (λ x, key x = k) l) ks ls → NoDup ks → TransactionsDal.group_by key (concat ls) = zip ks ls.
Proof.
  intros Hkl. induction Hkl as [|k l ks ls [Hne Hl] Hkl IH]; intros Hnd; [done|]. apply NoDup_cons in Hnd as [Hk Hnd].
  cbn [concat zip zip_with]. rewrite (group_by_app k l); [by rewrite IH|done|done|]. rewrite IH by done. intros [k' l'] Hg Hk'. cbn in Hk'. subst k'.
  apply Hk. destruct Hkl; [done|]. cbn in Hg. injection Hg as -> _. left.
Qed.
Lemma Forall2_concat_inv_r {B} (R : A → B → Prop) l (ks : list (list B)) :
  Forall2 R l (concat ks) → ∃ ls, l = concat ls ∧ Forall2 (Forall2 R) ls ks.
Proof.
  revert l. induction ks as [|k ks IH]; intros l; cbn [concat].
  - intros ->%Forall2_nil_inv_r. by exists [].
  - intros (l1 & l2 & Hl1 & (ls & -> & Hls)%IH & ->)%Forall2_app_inv_r. exists (l1 :: ls). by split; [|constructor].
Qed.
Lemma StronglySorted_app_iff (R : relation A) l1 l2 :
  StronglySorted R l1 → StronglySorted R l2 → (∀ x y, x ∈ l1 → y ∈ l2 → R x y) → StronglySorted R (l1 ++ l2).
Proof.
  induction 1 as [|x l1 Hs IH Hx]; intros Hs2 H12; [done|]. cbn. constructor.
  - apply IH; [done|]. intros. apply H12; [by right|done].
  - apply Forall_app. split; [done|]. apply Forall_forall. intros y Hy. apply H12; [left|done].
Qed.
End lists.

Lemma elem_of_concat {A} (x : A) ls : x ∈ concat ls ↔ ∃ l, x ∈ l ∧ l ∈ ls.
Proof.
  induction ls as [|l ls IH]; cbn; [rewrite elem_of_nil; split; [done|]; by intros (l & _ & ?%elem_of_nil)|].
  rewrite elem_of_app, IH. setoid_rewrite elem_of_cons. naive_solver.
Qed.
Lemma NoDup_key_filter {A K} (key : A → K) (P : A → Prop) `{∀ x, Decision (P x)} l : NoDup (key <$> l) → NoDup (key <$> filter P l).
Proof.
  induction l as [|x l IH]; [done|]. rewrite fmap_cons. intros [Hx Hl]%NoDup_cons. rewrite filter_cons. case_decide; [|by apply IH].
  rewrite fmap_cons.
  apply NoDup_cons. split; [|by apply IH]. intros (y & Ey & [_ Hy]%list_elem_of_filter)%list_elem_of_fmap. apply Hx, list_elem_of_fmap. eauto.
Qed.
Lemma foldP_collect {S E A B} (f : A → prog S E B) acc l ds (s : S) :
  Forall2 (λ a d, f a s = Ret (inr d, s)) l ds → foldP (λ acc a, d ← f a; mret (acc ++ [d])) acc l s = Ret (inr (acc ++ ds), s).
Proof.
  intros Hl. revert acc. induction Hl as [|a d l ds Ha Hl IH]; intros acc; cbn [foldP]; [by rewrite app_nil_r|].
  rewrite (prog_bind_step _ _ _ (acc ++ [d]) s); [by rewrite IH, <-app_assoc|]. by rewrite (prog_bind_step _ _ _ _ _ Ha).
Qed.

Lemma zip_blocks {A B C} (f : A → Z) (g : list B → list C) us ls :
  Forall (λ u, wrap 32 (f u) = f u) us →
  (λ x : Z * list B, (wrap 32 x.1, g x.2)) <$> zip (f <$> us) ls = zip_with (λ u l, (f u, g l)) us ls.
Proof. intros Hf. revert ls. induction Hf as [|u us Hu Hf IH]; intros [|l ls]; [done..|]. cbn. rewrite Hu. f_equal. apply IH. Qed.

Lemma find_by_key {A K} `{EqDecision K} (key : A → K) l x :
  NoDup (key <$> l) → x ∈ l → snd <$> list_find (λ r, key r = key x) l = Some x.
Proof.
  intros Hnd Hx. destruct (list_find _ l) as [[i y]|] eqn:E.
  - apply list_find_Some in E as (Ei & Ek & _). cbn. f_equal. apply (unique_key_inj key l); [done|by eapply list_elem_of_lookup_2|done|done].
  - apply list_find_None in E. rewrite Forall_forall in E. by destruct (E x Hx).
Qed.

Lemma zip_with_head {A B C} (f : A → B → C) us ls u :
  head us = Some u → length us = length ls → ∃ l, head (zip_with f us ls) = Some (f u l).
Proof. intros Hu Hlen. destruct us as [|u' us], ls as [|l' ls]; try done. cbn in *. injection Hu as <-. eauto. Qed.
Lemma zip_with_last {A B C} (f : A → B → C) us ls v :
  last us = Some v → length us = length ls → ∃ l, last (zip_with f us ls) = Some (f v l).
Proof.
  intros Hv Hlen. rewrite last_lookup in Hv. rewrite last_lookup, length_zip_with_l_eq by done.
  destruct (lookup_lt_is_Some_2 ls (pred (length us))) as [l Hl]; [apply lookup_lt_Some in Hv; lia|].
  exists l. by rewrite lookup_zip_with, Hv, Hl.
Qed.

Section restart.
Context `{LT : TxLib, LK : KeeperLib, LA : TokenAbi, LS : StorageKeyHash, LC : CopyText}.
Implicit Types (T : Chain.t) (db : KeeperDb.t) (u : UpdatesManager.t).

(** ** The rows of marks *)
(** Marks in the order of their blocks and of the transactions in a block. *)
Definition mark_before (m m' : Mark.t) : Prop :=
  Mark.block m < Mark.block m' ∨ Mark.block m = Mark.block m' ∧ Mark.index m < Mark.index m'.
Lemma rows_in_order (rows : list TransactionRow.t) (marks : list Mark.t) :
  (∀ r, r ∈ rows → ∃ m, m ∈ marks ∧ row_of_mark r m) → (∀ m, m ∈ marks → ∃ r, r ∈ rows ∧ row_of_mark r m) →
  NoDup (TransactionRow.hash <$> rows) → NoDup (Mark.hash <$> marks) → StronglySorted mark_before marks →
  Forall2 row_of_mark (order_by2 (default 0 ∘ TransactionRow.miniblock_number) (default 0 ∘ TransactionRow.index_in_block) rows) marks.
Proof.
  intros Hsound Hcomplete Hrows Hmarks Hsorted.
  assert (∃ l, Forall2 (λ r m, r ∈ rows ∧ row_of_mark r m) l marks) as (l & Hl).
  { clear - Hcomplete. induction marks as [|m marks IH]; [by exists []|]. destruct IH as (l & Hl); [intros; apply Hcomplete; by right|].
    destruct (Hcomplete m) as (r & Hr); [left|]. exists (r :: l). by constructor. }
  assert (Hlm : Forall2 row_of_mark l marks) by (eapply Forall2_impl; [done|]; naive_solver).
  assert (Hhash : TransactionRow.hash <$> l = Mark.hash <$> marks).
  { clear - Hlm. induction Hlm as [|r m l marks []]; [done|]. cbn. congruence. }
  rewrite (order_by2_unique _ _ rows l); [done| |].
  - clear - Hlm Hsorted. revert Hsorted. induction Hlm as [|r m l marks Hr Hlm IH]; intros Hs; [constructor|].
    apply StronglySorted_inv in Hs as [Hs Hm]. constructor; [by apply IH|]. rewrite Forall_forall in Hm. apply Forall_forall. intros r' Hr'.
    apply list_elem_of_lookup in Hr' as (i & Ei). destruct (Forall2_lookup_l _ _ _ _ _ Hlm Ei) as (m' & Em' & Hr').
    specialize (Hm m' (list_elem_of_lookup_2 _ _ _ Em')). unfold mark_before, lex_le in *. cbn.
    rewrite (row_block _ _ Hr), (row_block _ _ Hr'), (row_index _ _ Hr), (row_index _ _ Hr'). cbn. lia.
  - apply NoDup_Permutation; [by apply NoDup_fmap_1 in Hrows|apply (NoDup_fmap_1 TransactionRow.hash); by rewrite Hhash|].
    intros r. split.
    + intros Hr. destruct (Hsound r Hr) as (m & (i & Ei)%list_elem_of_lookup & Hrm). destruct (Forall2_lookup_r _ _ _ _ _ Hl Ei) as (r' & Er' & Hr' & Hrm').
      rewrite (unique_key_inj TransactionRow.hash rows r r'); [by eapply list_elem_of_lookup_2|done..|]. by rewrite (row_hash _ _ Hrm), (row_hash _ _ Hrm').
    + intros (i & Ei)%list_elem_of_lookup. by destruct (Forall2_lookup_l _ _ _ _ _ Hl Ei) as (m & _ & ? & _).
Qed.

(** ** The blocks after the last batch *)
Definition pending_step (acc : list UpdatesManager.t) (o : output) : list UpdatesManager.t :=
  match o with SealedBlock u => acc ++ [u] | SealedBatch _ => [] end.
Definition pending_of (log : list output) : list UpdatesManager.t := foldl pending_step [] log.
Lemma pending_of_snoc log o : pending_of (log ++ [o]) = pending_step (pending_of log) o.
Proof. unfold pending_of. by rewrite foldl_app. Qed.

Abbreviation block_of u := (UpdatesManager.l2_block u).
Definition hash_of_block u : H256 := L2BlockUpdates.get_l2_block_hash (block_of u).
(** Blocks from the one with the hash [h] to the one with the hash [h']. *)
Fixpoint blocks_linked (h : H256) (us : list UpdatesManager.t) (h' : H256) : Prop :=
  match us with
  | [] => h = h'
  | u :: us => L2BlockUpdates.prev_block_hash (block_of u) = h ∧ blocks_linked (hash_of_block u) us h'
  end.
Lemma blocks_linked_snoc h us h' u :
  blocks_linked h us h' → L2BlockUpdates.prev_block_hash (block_of u) = h' → blocks_linked h (us ++ [u]) (hash_of_block u).
Proof. revert h. induction us as [|v us IH]; intros h; cbn; [by intros -> ->|]. intros [-> Hus] Hu. split; [done|by apply IH]. Qed.

(** The hash of a block, or of the block of the snapshot. *)
Definition hash_at db (k : Z) : option H256 :=
  match BlocksDal.block_row db k with
  | Some row => Some (MiniblockRow.hash row)
  | None =>
      snapshot ← snapshot_recovery db;
      if decide (SnapshotRecoveryStatus.l2_block_number snapshot = k) then Some (SnapshotRecoveryStatus.l2_block_hash snapshot) else None
  end.
Lemma prev_block_hash_at db k h s : hash_at db k = Some h → TransactionsDal.prev_block_hash db k s = Ret (inr h, s).
Proof.
  unfold hash_at, TransactionsDal.prev_block_hash. destruct (BlocksDal.block_row db k); [by intros [= <-]|]. intros E. by rewrite E.
Qed.
Lemma header_row_hash u addr pre : MiniblockRow.hash (header_row (seal_l2_block_command u addr pre)) = hash_of_block u.
Proof. unfold header_row, l2_block_header. by destruct (l1_l2_tx_count _). Qed.

Lemma list_find_app_r {X} (P : X → Prop) `{∀ x, Decision (P x)} l1 l2 :
  Forall (λ x, ¬ P x) l1 → snd <$> list_find P (l1 ++ l2) = snd <$> list_find P l2.
Proof. induction 1 as [|x l1 Hx Hl IH]; [done|]. cbn. rewrite decide_False by done. rewrite <-IH. by destruct (list_find P (l1 ++ l2)) as [[]|]. Qed.
Lemma block_row_new rows row :
  Forall (λ r, MiniblockRow.number r < MiniblockRow.number row) rows →
  snd <$> list_find (λ r, MiniblockRow.number r = MiniblockRow.number row) (rows ++ [row]) = Some row.
Proof.
  intros Hr. rewrite list_find_app_r; [cbn; by rewrite decide_True|]. eapply Forall_impl; [done|]. cbn. lia.
Qed.
Lemma block_row_old k rows row :
  k ≠ MiniblockRow.number row →
  snd <$> list_find (λ r, MiniblockRow.number r = k) (rows ++ [row]) = snd <$> list_find (λ r, MiniblockRow.number r = k) rows.
Proof.
  intros Hk. induction rows as [|r rows IH]; cbn; [by rewrite decide_False|]. case_decide; [done|]. 
  destruct (list_find _ (rows ++ [row])) as [[]|], (list_find _ rows) as [[]|]; cbn in *; congruence.
Qed.

Lemma blocks_linked_lookup h us h' j v u :
  blocks_linked h us h' → us !! j = Some v → us !! S j = Some u → L2BlockUpdates.prev_block_hash (block_of u) = hash_of_block v.
Proof.
  revert h j. induction us as [|w us IH]; intros h j; [done|]. intros [_ Hl] Hj Hu. destruct j as [|j]; cbn in *.
  - injection Hj as <-. destruct us as [|x us]; [done|]. cbn in Hu. injection Hu as <-. by destruct Hl.
  - by eapply IH.
Qed.

Lemma in_batch_hash b r : MiniblockRow.hash (in_batch b r) = MiniblockRow.hash r.
Proof. unfold in_batch. by case_decide. Qed.
Lemma block_row_in_batch b k rows :
  snd <$> list_find (λ r, MiniblockRow.number r = k) (in_batch b <$> rows) =
  in_batch b <$> (snd <$> list_find (λ r, MiniblockRow.number r = k) rows).
Proof.
  induction rows as [|r rows IH]; [done|]. cbn. rewrite in_batch_number. case_decide; [done|].
  destruct (list_find _ (in_batch b <$> rows)) as [[]|], (list_find _ rows) as [[]|]; cbn in *; congruence.
Qed.
Lemma hash_at_rows db db' k :
  snapshot_recovery db' = snapshot_recovery db →
  (MiniblockRow.hash <$> BlocksDal.block_row db' k) = (MiniblockRow.hash <$> BlocksDal.block_row db k) → hash_at db' k = hash_at db k.
Proof.
  intros Es Eh. unfold hash_at. rewrite Es. destruct (BlocksDal.block_row db' k), (BlocksDal.block_row db k); cbn in Eh; simplify_eq; done || by rewrite Eh.
Qed.
Lemma hash_at_sealed c T k : k ≠ number c → hash_at (Chain.tables (seal_block c T)) k = hash_at (Chain.tables T) k.
Proof. intros Hk. apply hash_at_rows; [done|]. unfold BlocksDal.block_row. cbn [seal_block Chain.tables miniblocks]. by rewrite block_row_old by by rewrite header_row_number. Qed.
Lemma hash_at_new n c T :
  Forall (λ r, MiniblockRow.number r ≤ n) (miniblocks (Chain.tables T)) → number c = n + 1 →
  hash_at (Chain.tables (seal_block c T)) (n + 1) = Some (MiniblockRow.hash (header_row c)).
Proof.
  intros Hwf Hn. unfold hash_at, BlocksDal.block_row. cbn [seal_block Chain.tables miniblocks].
  rewrite <-Hn, <-(header_row_number c), block_row_new; [done|]. eapply Forall_impl; [exact Hwf|]. intros r Hr. rewrite header_row_number. cbn beta in Hr. lia.
Qed.
Lemma hash_at_batch protective u f c T k : hash_at (Chain.tables (seal_batch protective u f c T)) k = hash_at (Chain.tables (seal_block c T)) k.
Proof.
  apply hash_at_rows; [done|]. unfold BlocksDal.block_row. cbn [seal_batch Chain.tables miniblocks]. rewrite block_row_in_batch.
  destruct (list_find _ _) as [[]|]; [|done]. cbn. by rewrite in_batch_hash.
Qed.

Section chain.
Context {Storage C : Type} `{VM : VmCore Storage C} (executor : CommandReceiver.t).
Context (addr : Address) (pre_insert protective : bool) (T0 : Chain.t) (n0 : Z) (st0 : link (C := C)).
Abbreviation chain_of := (chain_of addr pre_insert protective T0).
Abbreviation last_block := (last_block n0).
Abbreviation command := (command addr pre_insert).

(** The tables to begin with end with a batch. *)
Record starts : Prop := {
  starts_wf : chain_wf n0 T0;
  starts_batched : Forall (λ m, Mark.batch m ≠ None) (Chain.marks T0);
  starts_block : link_block st0 = n0 + 1;
  starts_hash : hash_at (Chain.tables T0) n0 = Some (link_hash st0);
  starts_txs : link_txs st0 = [];
}.
(** What the chain says of the blocks after the last batch. *)
Record pending_blocks (log : list output) (st : link (C := C)) : Prop := {
  pb_block : link_block st = last_block log + 1;
  pb_first : 0 ≤ last_block log - byte_len (pending_of log);
  pb_below : Forall (λ r, MiniblockRow.number r ≤ last_block log) (miniblocks (Chain.tables (chain_of log)));
  pb_marks : filter (λ m, Mark.batch m = None) (Chain.marks (chain_of log)) = concat ((block_marks ∘ command) <$> pending_of log);
  pb_rows : ∃ old, miniblocks (Chain.tables (chain_of log)) = old ++ ((header_row ∘ command) <$> pending_of log) ∧
    Forall (λ r, MiniblockRow.number r ≤ last_block log - byte_len (pending_of log)) old;
  pb_numbers i u : pending_of log !! i = Some u → number (command u) = last_block log - byte_len (pending_of log) + 1 + Z.of_nat i;
  pb_hash : ∃ h, hash_at (Chain.tables (chain_of log)) (last_block log - byte_len (pending_of log)) = Some h ∧
    blocks_linked h (pending_of log) (link_hash st);
  pb_last : hash_at (Chain.tables (chain_of log)) (last_block log) = Some (link_hash st);
  pb_txs : link_txs st = concat ((executed ∘ command) <$> pending_of log);
}.

Lemma pending_blocks_start : starts → pending_blocks [] st0.
Proof.
  intros []. assert (E : last_block [] = n0) by (unfold PersistenceRuns.last_block, byte_len; cbn; lia).
  assert (E' : last_block [] - byte_len (pending_of []) = n0) by (unfold PersistenceRuns.last_block, byte_len; cbn; lia).
  split; rewrite ?E', ?E; try done.
  - destruct starts_wf0. lia.
  - apply starts_wf0.
  - apply list_filter_all_false. done.
  - exists (miniblocks (Chain.tables T0)). split; [by rewrite app_nil_r|apply starts_wf0].
  - exists (link_hash st0). split; [by rewrite ?E', ?E|done].
Qed.

Lemma pending_blocks_step_block log st u :
  0 ≤ last_block log < 2 ^ 31 - 1 → pending_blocks log st → continues st u →
  pending_blocks (log ++ [SealedBlock u]) (after_block st u).
Proof.
  intros Hw [Hb Hpos Hwf Hm (old & Hr & Hold) Hn (h & Hh & Hl) Hlast Ht] [_ Hcb Hch _].
  assert (Hnum : number (command u) = last_block log + 1) by (rewrite <-Hb, <-Hcb; done).
  assert (En : last_block (log ++ [SealedBlock u]) - byte_len (pending_of log ++ [u]) = last_block log - byte_len (pending_of log)).
  { rewrite last_block_snoc. unfold byte_len. rewrite length_app. cbn. lia. }
  split; rewrite ?chain_of_snoc, ?last_block_snoc, ?pending_of_snoc; cbn [pending_step seal_output after_block link_block link_hash link_txs];
    rewrite ?last_block_snoc in En; rewrite ?En.
  - rewrite Hb. unfold wrap. rewrite Z.mod_small; lia.
  - done.
  - cbn [seal_block Chain.tables miniblocks]. apply Forall_app. split; [eapply Forall_impl; [exact Hwf|]; cbn; lia|].
    apply Forall_singleton. rewrite header_row_number. lia.
  - cbn [seal_block Chain.marks]. rewrite filter_app, Hm, fmap_app, concat_app. f_equal. cbn. rewrite app_nil_r. apply list_filter_all_true.
    apply Forall_forall. intros m (i & res & _ & ->)%elem_block_marks. done.
  - exists old. split; [|done]. cbn [seal_block Chain.tables miniblocks]. by rewrite Hr, fmap_app, app_assoc.
  - intros i v [Hi|[Hi Hv]]%lookup_app_Some; [by apply Hn|]. apply list_lookup_singleton_Some in Hv as [Hz <-]. rewrite Hnum. unfold byte_len in *. lia.
  - exists h. split; [|by eapply blocks_linked_snoc]. rewrite hash_at_sealed; [done|]. rewrite Hnum. unfold byte_len. lia.
  - rewrite (hash_at_new _ _ _ Hwf Hnum). exact (f_equal Some (header_row_hash u addr pre_insert)).
  - rewrite Ht, fmap_app, concat_app. cbn. by rewrite app_nil_r.
Qed.

Lemma set_batch_open b results m :
  Mark.batch (Mark.set_batch b results m) = None → Mark.batch m = None ∧ Forall (λ res, TransactionExecutionResult.hash res ≠ Mark.hash m) results.
Proof. unfold Mark.set_batch. destruct (list_find _ _) as [[]|] eqn:E; [done|]. intros. split; [done|]. by apply list_find_None in E. Qed.
Lemma pending_blocks_step_batch log st u f :
  0 ≤ last_block log < 2 ^ 31 - 1 → pending_blocks log st → continues st u →
  txs_of (block_of u) = [] → L1BatchUpdates.finished (UpdatesManager.l1_batch u) = Some f →
  pending_blocks (log ++ [SealedBatch u]) (after_batch st u).
Proof.
  intros Hw [Hb _ Hwf Hm _ Hn _ Hlast Ht] [Hcn Hcb Hch Hct] Hempty Hf.
  assert (Hnum : number (last_command addr u) = last_block log + 1) by (rewrite <-Hb, <-Hcb; done).
  assert (Hno : block_marks (last_command addr u) = []) by (unfold block_marks; by rewrite (Hempty : executed (last_command addr u) = [])).
  assert (E : last_block (log ++ [SealedBatch u]) - byte_len (pending_of (log ++ [SealedBatch u])) = last_block log + 1).
  { rewrite last_block_snoc, pending_of_snoc. unfold byte_len. cbn. lia. }
  assert (Hhash : hash_at (Chain.tables (chain_of (log ++ [SealedBatch u]))) (last_block log + 1) = Some (hash_of_block u)).
  { rewrite chain_of_snoc. cbn [seal_output]. rewrite Hf, hash_at_batch, (hash_at_new _ _ _ Hwf Hnum). exact (f_equal Some (header_row_hash u addr false)). }
  assert (Hbelow : Forall (λ r, MiniblockRow.number r ≤ last_block log + 1) (miniblocks (Chain.tables (chain_of (log ++ [SealedBatch u]))))).
  { rewrite chain_of_snoc. cbn [seal_output]. rewrite Hf. cbn [seal_batch seal_block Chain.tables miniblocks]. apply Forall_fmap, Forall_app. split.
    - eapply Forall_impl; [exact Hwf|]. intros r Hr. cbn in *. rewrite in_batch_number. lia.
    - apply Forall_singleton. cbn. rewrite in_batch_number, header_row_number. lia. }
  split; rewrite ?E, ?last_block_snoc; try done; cbn [after_batch link_block link_hash link_txs].
  - rewrite Hb. unfold wrap. rewrite Z.mod_small; lia.
  - lia.
  - rewrite chain_of_snoc, pending_of_snoc. cbn [seal_output pending_step]. rewrite Hf. cbn [seal_batch seal_block Chain.marks fmap list_fmap concat].
    rewrite Hno, app_nil_r. apply list_filter_all_false, Forall_fmap, Forall_forall. intros m Hmk [Ho Hres]%set_batch_open.
    assert (Hin : m ∈ filter (λ m, Mark.batch m = None) (Chain.marks (chain_of log))) by by apply list_elem_of_filter.
    rewrite Hm in Hin. apply elem_of_concat in Hin as (ms & Hin & (v & -> & Hv)%list_elem_of_fmap).
    apply elem_block_marks in Hin as (i & res & Ei & ->). rewrite Forall_forall in Hres. apply (Hres res); [|done].
    rewrite Hct, Ht. apply elem_of_concat. exists (executed (command v)). split; [by eapply list_elem_of_lookup_2|].
    apply list_elem_of_fmap. eauto.
  - eexists. split; [by rewrite pending_of_snoc; cbn; rewrite app_nil_r|]. exact Hbelow.
  - intros i v. by rewrite pending_of_snoc.
  - exists (hash_of_block u). split; [exact Hhash|]. by rewrite pending_of_snoc.
  - by rewrite pending_of_snoc.
Qed.

Lemma last_block_app log log' : last_block (log ++ log') = last_block log + byte_len log'.
Proof. unfold PersistenceRuns.last_block, byte_len. rewrite length_app. lia. Qed.
Lemma chain_pending log st :
  starts → chain executor st0 log st → last_block log < 2 ^ 31 → pending_blocks log st.
Proof.
  intros Hs Hc. assert (Hpos : ∀ log, 0 ≤ last_block log).
  { intros l. unfold PersistenceRuns.last_block, byte_len. destruct Hs as [[]]. lia. }
  induction Hc as [|log st env sys storage c0 Hc IH|log st u c Hc IH Hcont Hmach|log st u c f c' Hc IH Hcont Hempty Hmach Hfin Hf]; intros Hw.
  - by apply pending_blocks_start.
  - destruct IH; [done|]. by split.
  - rewrite last_block_snoc in Hw. specialize (Hpos log). apply pending_blocks_step_block; [lia|apply IH; lia|done].
  - rewrite last_block_snoc in Hw. specialize (Hpos log). eapply pending_blocks_step_batch; [lia|apply IH; lia|done..].
Qed.

(** *** Their transactions *)
(** The data a block is executed again with: those of the block, and its transactions as they
    are read back. *)
Record reexecuted (u : UpdatesManager.t) (d : L2BlockExecutionData.t) : Prop := {
  re_number : L2BlockExecutionData.number d = L2BlockUpdates.number (block_of u);
  re_timestamp : L2BlockExecutionData.timestamp d = L2BlockUpdates.timestamp (block_of u);
  re_prev_hash : L2BlockExecutionData.prev_block_hash d = L2BlockUpdates.prev_block_hash (block_of u);
  re_virtual : L2BlockExecutionData.virtual_blocks d = L2BlockUpdates.virtual_blocks (block_of u);
  re_txs : Forall2 (λ res tx, ∃ t, tx = TransactionsDal.stored_transaction (TransactionExecutionResult.hash res)
      (TransactionExecutionResult.transaction res) t) (txs_of (block_of u)) (L2BlockExecutionData.txs d);
}.
(** The widths of a block's fields. *)
Definition block_typed (u : UpdatesManager.t) : Prop :=
  in_width 64 (L2BlockUpdates.timestamp (block_of u)) ∧ in_width 32 (L2BlockUpdates.virtual_blocks (block_of u)).

Section reexecute.
Context (log : list output) (st : link (C := C)) (db : KeeperDb.t).
Context (Hpb : pending_blocks log st) (Hwf : chain_wf (last_block log) (chain_of log)) (Hm : matches (last_block log) db (chain_of log)).
Abbreviation us := (pending_of log).

Lemma pending_number i j u v : us !! i = Some u → us !! j = Some v → (i < j)%nat → number (command u) < number (command v).
Proof. intros Hi Hj Hij. rewrite (pb_numbers _ _ Hpb i u Hi), (pb_numbers _ _ Hpb j v Hj). lia. Qed.
Lemma block_marks_sorted u : StronglySorted mark_before (block_marks (command u)).
Proof.
  unfold block_marks. generalize (executed (command u)). intros results.
  assert (Hg : ∀ k, StronglySorted mark_before (imap (λ i res, Mark.mk (number (command u)) (Z.of_nat (k + i)) res
    (price_of (command u) (TransactionExecutionResult.transaction res)) None) results)).
  { induction results as [|res results IH]; intros k; cbn [imap]; constructor.
    - specialize (IH (S k)). erewrite imap_ext; [exact IH|]. intros i x _. cbn. f_equal. lia.
    - apply Forall_lookup. intros i m. rewrite list_lookup_imap. intros (x & _ & ->)%fmap_Some. right. cbn. split; [done|]. lia. }
  apply (Hg O).
Qed.
Lemma open_marks_sorted : StronglySorted mark_before (concat ((block_marks ∘ command) <$> us)).
Proof.
  pose proof pending_number as Hlt. revert Hlt. generalize us. intros l. induction l as [|u l IH]; intros Hlt; cbn; [constructor|].
  apply StronglySorted_app_iff; [apply block_marks_sorted| |].
  - apply IH. intros i j v w Hi Hj Hij. by apply (Hlt (S i) (S j)); [| |lia].
  - intros m m' Hmu (ms & Hms & (v & -> & (j & Hv)%list_elem_of_lookup)%list_elem_of_fmap)%elem_of_concat. left.
    pose proof (block_marks_block (command u)) as Hb. pose proof (block_marks_block (command v)) as Hb'. rewrite Forall_forall in Hb, Hb'.
    rewrite (Hb _ Hmu), (Hb' _ Hms). by apply (Hlt O (S j)); [| |lia].
Qed.

Definition open_rows : list TransactionRow.t :=
  order_by2 (default 0 ∘ TransactionRow.miniblock_number) (default 0 ∘ TransactionRow.index_in_block)
    (filter (λ r, TransactionRow.miniblock_number r ≠ None ∧ TransactionRow.l1_batch_number r = None) (transactions db)).
Lemma open_rows_marks : Forall2 row_of_mark open_rows (concat ((block_marks ∘ command) <$> us)).
Proof.
  destruct Hm as [_ Ha]. destruct (Ha MarkTransactionsInL2Block) as [Ht Hafter]. apply rows_in_order.
  - intros r [[Hb Hl] Hr]%list_elem_of_filter. destruct (TransactionRow.miniblock_number r) as [b|] eqn:Eb; [|done].
    destruct (tm_sound _ _ _ Ht r b Hr Eb) as (m & Hmk & Hrm); [by eapply Hafter|]. exists m. split; [|done]. rewrite <-(pb_marks _ _ Hpb).
    apply list_elem_of_filter. split; [|done]. rewrite (row_batch _ _ Hrm) in Hl. by destruct (Mark.batch m).
  - rewrite <-(pb_marks _ _ Hpb). intros m [Hopen Hmk]%list_elem_of_filter. destruct (tm_complete _ _ _ Ht m Hmk) as (r & Hr & Hrm).
    exists r. split; [|done]. apply list_elem_of_filter. split; [|done]. rewrite (row_block _ _ Hrm), (row_batch _ _ Hrm), Hopen. done.
  - apply NoDup_key_filter, Ht.
  - rewrite <-(pb_marks _ _ Hpb). apply NoDup_key_filter, Hwf.
  - apply open_marks_sorted.
Qed.

Lemma pending_numbers_nodup : NoDup ((number ∘ command) <$> us).
Proof.
  apply NoDup_alt. intros i j x. rewrite !list_lookup_fmap. intros (u & Hi & ->)%fmap_Some (v & Hj & Euv)%fmap_Some. cbn in Euv.
  rewrite (pb_numbers _ _ Hpb i u Hi), (pb_numbers _ _ Hpb j v Hj) in Euv. lia.
Qed.
(** The rows of the blocks, and their headers. *)
Lemma rows_by_block :
  Forall (λ u, txs_of (block_of u) ≠ []) us →
  ∃ ls, TransactionsDal.blocks_of open_rows = zip_with (λ u l, (number (command u), TransactionRow.transaction <$> l)) us ls ∧
    Forall2 (λ u l, Forall2 row_of_mark l (block_marks (command u))) us ls.
Proof.
  intros Hne. destruct (Forall2_concat_inv_r _ _ _ open_rows_marks) as (ls & El & Hls).
  assert (Hls' : Forall2 (λ u l, Forall2 row_of_mark l (block_marks (command u))) us ls).
  { rewrite Forall2_fmap_r in Hls. revert Hls. generalize us. clear. intros l Hls. by induction Hls; constructor. }
  exists ls. split; [|done]. unfold TransactionsDal.blocks_of. rewrite El.
  rewrite (group_by_concat _ ((number ∘ command) <$> us) ls).
  - apply zip_blocks, Forall_lookup. intros i u Hi. unfold wrap. rewrite Z.mod_small; [done|]. cbn. rewrite (pb_numbers _ _ Hpb i u Hi).
    apply lookup_lt_Some in Hi. pose proof (pb_first _ _ Hpb). destruct Hwf. unfold byte_len in *. lia.
  - apply Forall2_fmap_l. clear El Hls. revert Hls' Hne. generalize us. intros us' Hls' Hne.
    induction Hls' as [|u l us' ls' Hl Hls' IH]; [done|]. apply Forall_cons in Hne as [Hu Hne].
    constructor; [|by apply IH]. split.
    + intros ->. apply Forall2_nil_inv_l in Hl. apply Hu. unfold block_marks in Hl. cbn in Hl. by destruct (executed (command u)) eqn:E.
    + clear - Hl. pose proof (block_marks_block (command u)) as Hb. induction Hl as [|r m l ms Hr Hl IH]; constructor.
      * rewrite (row_block _ _ Hr). by apply Forall_cons in Hb as [-> _].
      * apply IH. by apply Forall_cons in Hb as [_ ?].
  - apply pending_numbers_nodup.
Qed.

Lemma pending_prev_hash i u : us !! i = Some u → hash_at db (number (command u) - 1) = Some (L2BlockUpdates.prev_block_hash (block_of u)).
Proof.
  intros Hi. destruct Hm as [[Hmb _ _ _ Hsn] _]. rewrite (hash_at_rows (Chain.tables (chain_of log)) db); [|done|by unfold BlocksDal.block_row; rewrite Hmb].
  destruct (pb_hash _ _ Hpb) as (h & Hh & Hl). destruct i as [|j].
  - rewrite (pb_numbers _ _ Hpb O u Hi). replace (_ + 1 + _ - 1) with (last_block log - byte_len us) by lia. rewrite Hh.
    destruct us as [|x us']; [done|]. cbn in Hi. injection Hi as <-. destruct Hl as [-> _]. done.
  - destruct (lookup_lt_is_Some_2 us j) as [v Hv]; [apply lookup_lt_Some in Hi; lia|].
    rewrite (blocks_linked_lookup _ _ _ _ _ _ Hl Hv Hi). destruct (pb_rows _ _ Hpb) as (old & Hr & Hold).
    unfold hash_at, BlocksDal.block_row. rewrite Hr. rewrite (pb_numbers _ _ Hpb (S j) u Hi).
    replace (_ + 1 + _ - 1) with (MiniblockRow.number (header_row (command v))) by (rewrite header_row_number, (pb_numbers _ _ Hpb j v Hv); lia).
    rewrite list_find_app_r, (find_by_key MiniblockRow.number); [exact (f_equal Some (header_row_hash v addr pre_insert))| | |].
    + rewrite <-list_fmap_compose. erewrite list_fmap_ext; [apply pending_numbers_nodup|]. intros k w _. done.
    + apply list_elem_of_fmap. exists v. split; [done|]. by eapply list_elem_of_lookup_2.
    + eapply Forall_impl; [exact Hold|]. intros r Hr'. cbn in Hr'. rewrite header_row_number, (pb_numbers _ _ Hpb j v Hv). lia.
Qed.

Lemma wrap_signed w z : 0 < w → in_width w z → wrap w (to_signed w z) = z.
Proof.
  intros Hw Hz. unfold wrap, to_signed, in_width in *. case_decide; [by apply Z.mod_small|].
  replace (z - 2 ^ w) with (z + (-1) * 2 ^ w) by lia. rewrite Z.mod_add by lia. by apply Z.mod_small.
Qed.
Lemma header_row_fields u :
  MiniblockRow.timestamp (header_row (command u)) = to_signed 64 (L2BlockUpdates.timestamp (block_of u)) ∧
  MiniblockRow.virtual_blocks (header_row (command u)) = L2BlockUpdates.virtual_blocks (block_of u).
Proof. unfold header_row, l2_block_header. by destruct (l1_l2_tx_count _). Qed.
Lemma execution_data_pending i u l :
  us !! i = Some u → block_typed u →
  TransactionsDal.execution_data db ((number (command u), TransactionRow.transaction <$> l), header_row (command u)) db =
  Ret (inr (L2BlockExecutionData.mk (number (command u)) (L2BlockUpdates.timestamp (block_of u)) (L2BlockUpdates.prev_block_hash (block_of u))
    (L2BlockUpdates.virtual_blocks (block_of u)) (TransactionRow.transaction <$> l)), db).
Proof.
  intros Hi [Ht Hv]. unfold TransactionsDal.execution_data. pose proof (pending_prev_hash i u Hi) as Hh.
  assert (Hw : wrap 32 (number (command u) - 1) = number (command u) - 1).
  { unfold wrap. apply Z.mod_small. rewrite (pb_numbers _ _ Hpb i u Hi). apply lookup_lt_Some in Hi. pose proof (pb_first _ _ Hpb).
    destruct Hwf. unfold byte_len in *. lia. }
  rewrite (prog_bind_step _ _ _ _ _ (prev_block_hash_at db _ _ db (eq_trans (f_equal _ Hw) Hh))).
  destruct (header_row_fields u) as [-> ->]. rewrite wrap_signed by done. unfold wrap. by rewrite Z.mod_small.
Qed.

(** The headers between the first and the last of these blocks are theirs. *)
Lemma pending_headers u v :
  head us = Some u → last us = Some v →
  order_by MiniblockRow.number (filter (λ r, number (command u) ≤ MiniblockRow.number r ≤ number (command v)) (miniblocks db)) =
  (header_row ∘ command) <$> us.
Proof.
  intros Hu Hv. destruct Hm as [[Hmb _ _ _ _] _]. destruct (pb_rows _ _ Hpb) as (old & Hr & Hold). rewrite Hmb, Hr, filter_app.
  rewrite head_lookup in Hu. rewrite last_lookup in Hv. assert (Hnu := pb_numbers _ _ Hpb _ _ Hu). assert (Hnv := pb_numbers _ _ Hpb _ _ Hv).
  rewrite list_filter_all_false by (eapply Forall_impl; [exact Hold|]; cbn beta; intros r Hr'; lia).
  rewrite list_filter_all_true.
  - apply order_by_sorted. cbn [app]. pose proof pending_number as Hlt. revert Hlt. generalize us. clear. intros l Hlt.
    induction l as [|w l IH]; cbn [fmap list_fmap]; [constructor|].
    constructor; [apply IH; intros i j v' w' Hi Hj Hij; apply (Hlt (S i) (S j)); [done|done|lia]|].
    apply Forall_fmap, Forall_lookup. intros j x Hj. cbn. exact (Hlt O (S j) w x eq_refl Hj ltac:(lia)).
  - apply Forall_fmap, Forall_lookup. intros i w Hi. unfold compose. rewrite header_row_number, Hnu, Hnv, (pb_numbers _ _ Hpb i w Hi).
    apply lookup_lt_Some in Hi. unfold byte_len. lia.
Qed.

Lemma row_of_marks_txs u l :
  Forall2 row_of_mark l (block_marks (command u)) →
  Forall2 (λ res tx, ∃ t, tx = TransactionsDal.stored_transaction (TransactionExecutionResult.hash res) (TransactionExecutionResult.transaction res) t)
    (txs_of (block_of u)) (TransactionRow.transaction <$> l).
Proof.
  intros Hl. apply Forall2_same_length_lookup. split.
  - rewrite length_fmap, (Forall2_length _ _ _ Hl). unfold block_marks. by rewrite length_imap.
  - intros i res tx Hres. rewrite list_lookup_fmap. intros (r & Hr & ->)%fmap_Some.
    destruct (Forall2_lookup_l _ _ _ _ _ Hl Hr) as (m & Hmk & Hrm). unfold block_marks in Hmk. rewrite list_lookup_imap in Hmk.
    apply fmap_Some in Hmk as (res' & Hres' & ->). assert (res' = res) as -> by (unfold txs_of in Hres; change (executed (command u)) with (L2BlockUpdates.executed_transactions (block_of u)) in Hres'; congruence).
    exists (Transaction.received_timestamp_ms (TransactionRow.transaction r)). apply (row_transaction _ _ Hrm).
Qed.

Lemma pending_reexecuted :
  Forall (λ u, txs_of (block_of u) ≠ []) us → Forall block_typed us →
  ∃ blocks, TransactionsDal.get_l2_blocks_to_reexecute db = Ret (inr blocks, db) ∧ Forall2 reexecuted us blocks.
Proof.
  intros Hne Hty. destruct (rows_by_block Hne) as (ls & Hby & Hls).
  exists (zip_with (λ u l, L2BlockExecutionData.mk (number (command u)) (L2BlockUpdates.timestamp (block_of u))
    (L2BlockUpdates.prev_block_hash (block_of u)) (L2BlockUpdates.virtual_blocks (block_of u)) (TransactionRow.transaction <$> l)) us ls).
  split.
  - unfold TransactionsDal.get_l2_blocks_to_reexecute. rewrite (prog_bind_step _ _ _ open_rows db) by done.
    unfold TransactionsDal.map_transactions_to_execution_data. rewrite Hby. cbn zeta. clear Hby.
    destruct (head us) as [u|] eqn:Hu; [|by rewrite head_None in Hu; rewrite Hu].
    destruct (last us) as [v|] eqn:Hv; [|by apply last_None in Hv; rewrite Hv in Hu].
    set (f := λ u l, (number (command u), TransactionRow.transaction <$> l)).
    destruct (zip_with_head f us ls u Hu (Forall2_length _ _ _ Hls)) as (lu & Ehead).
    destruct (zip_with_last f us ls v Hv (Forall2_length _ _ _ Hls)) as (lv & Elast).
    destruct (zip_with f us ls) as [|[from x] rest] eqn:Ezip; [done|]. injection Ehead as -> ->. unfold f at 1 in Elast. rewrite Elast, <-Ezip.
    rewrite (prog_bind_step _ _ _ db db) by done. rewrite (pending_headers u v Hu Hv), decide_True.
    + match goal with |- _ = Ret (inr ?ds, _) => apply (foldP_collect (TransactionsDal.execution_data db) [] _ ds) end.
      apply Forall2_same_length_lookup. split.
      * pose proof (Forall2_length _ _ _ Hls). rewrite !length_zip_with, length_fmap. lia.
      * intros i x d. rewrite !lookup_zip_with, list_lookup_fmap. destruct (us !! i) as [w|] eqn:Hi; [|done].
        destruct (ls !! i) as [l|]; [|done]. cbn. intros [= <-] [= <-]. eapply execution_data_pending; [exact Hi|].
        rewrite Forall_lookup in Hty. by eapply Hty.
    + by rewrite length_fmap, length_zip_with_l_eq by apply (Forall2_length _ _ _ Hls).
  - apply Forall2_same_length_lookup. split; [by rewrite length_zip_with_l_eq by apply (Forall2_length _ _ _ Hls)|].
    intros i w d Hi. rewrite lookup_zip_with, Hi. cbn. destruct (ls !! i) as [l|] eqn:El; [|done]. cbn. intros [= <-]. split; try done.
    apply row_of_marks_txs. by destruct (Forall2_lookup_l _ _ _ _ _ Hls Hi) as (l' & El' & ?); simplify_eq.
Qed.
End reexecute.
End chain.
End restart.
