(* ===== verification/PersistenceResume.v ===== *)
(** * Resuming the chain

    The start of the main node's state keeper ([MempoolIO::initialize]) on what a crash has
    left of a chain: the pending data are removed, the cursor continues the chain, and the
    pending batch has the blocks after the last sealed batch. *)
From S2P Require Import Prelude Types BTreeSet Mempool Abi Sql VmLimits Float Deduplicator FeeModel TxEncoding VmErrors StateDiffs SealCriteria VmInterface KeeperUpdates BatchExecutor StateKeeper KeeperChain KeeperDal MempoolIO KeeperDb Persistence PersistenceSpec PersistenceMarks PersistenceCorrect PersistenceRuns PersistenceRestart.
Local Open Scope Z_scope.
Import KeeperDb L2BlockSealCommand SealCommand.

Section resume.
Context `{LT : TxLib, LK : KeeperLib, LA : TokenAbi, LS : StorageKeyHash, LC : CopyText}.
Implicit Types (T : Chain.t) (db : KeeperDb.t) (u : UpdatesManager.t).
Context {Storage C : Type} `{VM : VmCore Storage C} (executor : CommandReceiver.t).
Context (addr : Address) (pre_insert protective : bool) (T0 : Chain.t) (n0 : Z) (st0 : link (C := C)) (t0 : Z).
Abbreviation chain_of := (chain_of addr pre_insert protective T0).
Abbreviation last_block := (last_block n0).
Abbreviation command := (command addr pre_insert).
Abbreviation last_command := (last_command addr).
Abbreviation block_of u := (UpdatesManager.l2_block u).
Abbreviation numbers rows := (MiniblockRow.number <$> rows).

(** The widths of the fields of what is sealed, and a protocol version there is. *)
Definition updates_of (o : output) : UpdatesManager.t := match o with SealedBlock u | SealedBatch u => u end.
Definition output_typed (o : output) : Prop :=
  block_typed (updates_of o) ∧ 0 ≤ UpdatesManager.protocol_version (updates_of o) ≤ 25.

Definition last_time (log : list output) : Z := default t0 (last (KeeperInvariant.output_time <$> log)).
(** The last block and the last batch of the chain, in its tables. *)
Record resume_point (log : list output) (st : link (C := C)) : Prop := {
  rp_row : ∃ row h, BlocksDal.block_row (Chain.tables (chain_of log)) (last_block log) = Some row ∧ BlocksDal.header_from row = Ret h ∧
    MiniblockRow.hash row = link_hash st ∧ wrap 64 (MiniblockRow.timestamp row) = last_time log;
  rp_batch : sql_max (L1BatchRow.number <$> l1_batches (Chain.tables (chain_of log))) = Some (link_batch st - 1);
  rp_batches : Forall (λ r, L1BatchRow.number r ≤ link_batch st - 1) (l1_batches (Chain.tables (chain_of log)));
  rp_bound : 0 < link_batch st ≤ link_batch st0 + byte_len log;
  rp_range : sql_max (numbers (filter (λ r, MiniblockRow.l1_batch_number r = Some (link_batch st - 1)) (miniblocks (Chain.tables (chain_of log))))) =
    Some (last_block log - byte_len (pending_of log));
}.
(** What the tables and the chain begin with. *)
Record resume_start : Prop := {
  rs_starts : starts T0 n0 st0;
  rs_point : resume_point [] st0;
}.

Lemma header_row_readable u pre :
  0 ≤ UpdatesManager.protocol_version u ≤ 25 → ∃ h, BlocksDal.header_from (header_row (seal_l2_block_command u addr pre)) = Ret h.
Proof.
  intros Hv. assert (Hw : wrap 16 (UpdatesManager.protocol_version u) = UpdatesManager.protocol_version u) by (unfold wrap; rewrite Z.mod_small; lia).
  unfold BlocksDal.header_from, header_row, l2_block_header. cbn. rewrite Hw. unfold protocol_version_from. rewrite decide_True by lia. cbn.
  destruct (is_post_1_4_1 _); cbn; eauto.
Qed.
Lemma header_from_in_batch b r : BlocksDal.header_from (in_batch b r) = BlocksDal.header_from r.
Proof. unfold in_batch. by case_decide. Qed.

Lemma resume_step_block log st u :
  0 ≤ last_block log < 2 ^ 31 - 1 → pending_blocks addr pre_insert protective T0 n0 log st → resume_point log st → continues st u →
  output_typed (SealedBlock u) → resume_point (log ++ [SealedBlock u]) (after_block st u).
Proof.
  intros Hw Hpb [_ Hb Hbs Hbound Hrange] [_ Hcb _ _] [[Ht _] Hv].
  assert (Hnum : number (command u) = last_block log + 1) by (rewrite <-(pb_block _ _ _ _ _ _ _ Hpb), <-Hcb; done).
  split; rewrite ?chain_of_snoc, ?last_block_snoc, ?pending_of_snoc; cbn [seal_output after_block link_batch link_hash pending_step]; try done.
  - exists (header_row (command u)). destruct (header_row_readable u pre_insert Hv) as [h Hh]. exists h.
    split; [|split; [done|split; [apply header_row_hash|]]].
    + unfold BlocksDal.block_row. cbn [seal_block Chain.tables miniblocks]. rewrite <-Hnum, <-(header_row_number (command u)), block_row_new; [done|].
      eapply Forall_impl; [exact (pb_below _ _ _ _ _ _ _ Hpb)|]. intros r Hr. rewrite header_row_number. cbn beta in Hr. lia.
    + destruct (header_row_fields addr pre_insert u) as [-> _]. unfold last_time. rewrite fmap_app. cbn. rewrite last_snoc. cbn. by apply wrap_signed.
  - unfold byte_len in *. rewrite length_app. lia.
  - cbn [seal_block Chain.tables miniblocks]. rewrite filter_app, fmap_app. rewrite (list_filter_all_false _ [header_row _]).
    + rewrite app_nil_r, Hrange. f_equal. unfold byte_len. rewrite length_app. cbn. lia.
    + apply Forall_singleton. done.
Qed.

Lemma resume_step_batch log st u f :
  0 ≤ last_block log < 2 ^ 31 - 1 → link_batch st0 + byte_len log < 2 ^ 31 - 1 →
  pending_blocks addr pre_insert protective T0 n0 log st → resume_point log st → continues st u →
  L1BatchUpdates.finished (UpdatesManager.l1_batch u) = Some f → output_typed (SealedBatch u) →
  resume_point (log ++ [SealedBatch u]) (after_batch st u).
Proof.
  intros Hw Hwb Hpb [_ Hb Hbs Hbound Hrange] [Hcn Hcb _ _] Hf [[Ht _] Hv].
  assert (Hnum : number (last_command u) = last_block log + 1) by (rewrite <-(pb_block _ _ _ _ _ _ _ Hpb), <-Hcb; done).
  assert (Hnext : wrap 32 (link_batch st + 1) = link_batch st + 1) by (unfold wrap; rewrite Z.mod_small; lia).
  pose proof (pb_below _ _ _ _ _ _ _ Hpb) as Hbelow.
  split; rewrite ?chain_of_snoc, ?last_block_snoc, ?pending_of_snoc; cbn [seal_output after_batch link_batch link_hash pending_step];
    rewrite ?Hf, ?Hnext; cbn [seal_batch seal_block Chain.tables miniblocks l1_batches].
  - exists (in_batch (L1BatchUpdates.number (UpdatesManager.l1_batch u)) (header_row (last_command u))).
    destruct (header_row_readable u false Hv) as [h Hh]. exists h. rewrite header_from_in_batch.
    split; [|split; [done|split; [rewrite in_batch_hash; exact (header_row_hash u addr false)|]]].
    + unfold BlocksDal.block_row. cbn [miniblocks]. rewrite block_row_in_batch.
      rewrite <-Hnum, <-(header_row_number (last_command u)), block_row_new; [done|].
      eapply Forall_impl; [exact Hbelow|]. intros r Hr. rewrite header_row_number. cbn beta in Hr. lia.
    + unfold last_time. rewrite fmap_app. cbn [fmap list_fmap]. rewrite last_snoc. unfold in_batch.
      rewrite decide_True by done. cbn. by apply wrap_signed.
  - rewrite fmap_app. cbn [fmap list_fmap]. rewrite sql_max_app.
    + cbn. by rewrite Hcn, Z.add_simpl_r.
    + apply Forall_fmap. eapply Forall_impl; [exact Hbs|]. cbn. rewrite Hcn. lia.
  - apply Forall_app. split; [eapply Forall_impl; [exact Hbs|]; cbn; lia|]. apply Forall_singleton. cbn. lia.
  - unfold byte_len in *. rewrite length_app. cbn. lia.
  - rewrite fmap_app, filter_app, fmap_app. cbn [fmap list_fmap]. rewrite (list_filter_all_true _ [_]).
    + cbn [fmap list_fmap]. rewrite sql_max_app.
      * rewrite in_batch_number, header_row_number, Hnum. f_equal. unfold byte_len. cbn. lia.
      * apply Forall_fmap, Forall_forall. intros r [_ (r0 & -> & Hr0)%list_elem_of_fmap]%list_elem_of_filter. cbn.
        rewrite !in_batch_number, header_row_number, Hnum. rewrite Forall_forall in Hbelow. specialize (Hbelow r0 Hr0). cbn in Hbelow. lia.
    + apply Forall_singleton. unfold in_batch. rewrite decide_True by done. cbn. f_equal. rewrite Hcn. unfold to_signed.
      rewrite decide_True by (cbn; lia). lia.
Qed.

Lemma chain_resumes log st :
  resume_start → Forall output_typed log → chain executor st0 log st → last_block log < 2 ^ 31 → link_batch st0 + byte_len log < 2 ^ 31 →
  pending_blocks addr pre_insert protective T0 n0 log st ∧ resume_point log st.
Proof.
  intros [Hs Hp] Hty Hc. assert (Hpos : ∀ log, 0 ≤ last_block log).
  { intros l. unfold PersistenceRuns.last_block, byte_len. destruct Hs as [[]]. lia. }
  induction Hc as [|log st env sys storage c0 Hc IH|log st u c Hc IH Hcont Hmach|log st u c f c' Hc IH Hcont Hempty Hmach Hfin Hf]; intros Hw Hwb.
  - split; [by apply pending_blocks_start|done].
  - destruct (IH Hty Hw Hwb) as [[] []]. by split; split.
  - apply Forall_app in Hty as [Hty [Hu _]%Forall_cons]. rewrite last_block_snoc in Hw. unfold byte_len in *. rewrite length_app in Hwb. cbn in Hwb.
    specialize (Hpos log). destruct IH as [Hpb Hrp]; [done|lia..|]. split; [by apply pending_blocks_step_block; [lia|..]|].
    apply resume_step_block; [lia|exact Hpb|exact Hrp|exact Hcont|exact Hu].
  - apply Forall_app in Hty as [Hty [Hu _]%Forall_cons]. rewrite last_block_snoc in Hw. unfold byte_len in *. rewrite length_app in Hwb. cbn in Hwb.
    specialize (Hpos log). destruct IH as [Hpb Hrp]; [done|lia..|]. split; [by eapply pending_blocks_step_batch; [lia|..]|].
    eapply resume_step_batch; try done; unfold byte_len; lia.
Qed.

(** A fee input of the kind that the protocol version has. *)
Definition fee_typed u : Prop :=
  20 ≤ UpdatesManager.protocol_version u ∧
  ∃ input, UpdatesManager.batch_fee_input u = Types.PubdataIndependent input ∧
    in_width 64 (PubdataIndependentBatchFeeModelInput.fair_l2_gas_price input) ∧
    in_width 64 (PubdataIndependentBatchFeeModelInput.fair_pubdata_price input) ∧
    in_width 64 (PubdataIndependentBatchFeeModelInput.l1_gas_price input).
(** The header of a block as it is read back. *)
Record header_of u (h : L2BlockHeader.t) : Prop := {
  ho_number : L2BlockHeader.number h = L2BlockUpdates.number (block_of u);
  ho_timestamp : L2BlockHeader.timestamp h = L2BlockUpdates.timestamp (block_of u);
  ho_fee_account : L2BlockHeader.fee_account_address h = UpdatesManager.fee_account_address u;
  ho_fee_input : L2BlockHeader.batch_fee_input h = UpdatesManager.batch_fee_input u;
  ho_contracts : L2BlockHeader.base_system_contracts_hashes h = UpdatesManager.base_system_contract_hashes u;
  ho_version : L2BlockHeader.protocol_version h = Some (UpdatesManager.protocol_version u);
  ho_virtual : L2BlockHeader.virtual_blocks h = L2BlockUpdates.virtual_blocks (block_of u);
}.
Lemma header_row_roundtrip u pre :
  output_typed (SealedBlock u) → fee_typed u → in_width 32 (L2BlockUpdates.number (block_of u)) →
  ∃ h, BlocksDal.header_from (header_row (seal_l2_block_command u addr pre)) = Ret h ∧ header_of u h.
Proof.
  intros [[Ht Hvb] Hv] (H20 & input & Hfee & Hf1 & Hf2 & Hf3) Hn. cbn in Ht, Hvb, Hv.
  assert (Hw : wrap 16 (UpdatesManager.protocol_version u) = UpdatesManager.protocol_version u) by (unfold wrap; rewrite Z.mod_small; lia).
  unfold BlocksDal.header_from, header_row, l2_block_header. cbn. rewrite Hw. unfold protocol_version_from. rewrite decide_True by lia. cbn.
  unfold is_post_1_4_1. rewrite bool_decide_eq_true_2 by lia. cbn. eexists. split; [done|]. rewrite Hfee.
  split; cbn; try done; [by apply Z.mod_small|by apply wrap_signed| |by apply Z.mod_small].
  rewrite Hfee, !wrap_signed by done. by destruct input.
Qed.

(** ** The cursor *)
Lemma header_from_fields row h :
  BlocksDal.header_from row = Ret h →
  L2BlockHeader.number h = wrap 32 (MiniblockRow.number row) ∧ L2BlockHeader.hash h = MiniblockRow.hash row ∧
  L2BlockHeader.timestamp h = wrap 64 (MiniblockRow.timestamp row).
Proof. unfold BlocksDal.header_from. intros Hr. apply bind_Ret_inv in Hr as (v & _ & Hr). apply bind_Ret_inv in Hr as (fee & _ & [= <-]). done. Qed.
Lemma block_row_number db k row : BlocksDal.block_row db k = Some row → MiniblockRow.number row = k.
Proof. unfold BlocksDal.block_row. destruct (list_find _ _) as [[i r]|] eqn:E; [|done]. apply list_find_Some in E as (_ & En & _). by intros [= <-]. Qed.
Lemma headers_block_row db T k : headers_match db T → BlocksDal.block_row db k = BlocksDal.block_row (Chain.tables T) k.
Proof. intros [Hm _ _ _ _]. unfold BlocksDal.block_row. by rewrite Hm. Qed.
Lemma headers_batch_numbers db T :
  headers_match db T → L1BatchRow.number <$> l1_batches db = L1BatchRow.number <$> l1_batches (Chain.tables T).
Proof.
  intros [_ Hb _ _ _]. assert (He : ∀ l : list L1BatchRow.t, L1BatchRow.number <$> l = L1BatchRow.number <$> (sealed_part <$> l)).
  { intros l. rewrite <-list_fmap_compose. by apply list_fmap_ext. }
  by rewrite He, Hb, <-He.
Qed.

Section point.
Context (log : list output) (st : link (C := C)).
Context (Hpb : pending_blocks addr pre_insert protective T0 n0 log st) (Hrp : resume_point log st).
Context (Hwf : chain_wf (last_block log) (chain_of log)) (Hwb : link_batch st0 + byte_len log < 2 ^ 31 - 1).

Definition cursor_of : IoCursor.t := IoCursor.mk (last_block log + 1) (link_hash st) (last_time log) (link_batch st).

Lemma last_block_row db :
  headers_match db (chain_of log) → sql_max (MiniblockRow.number <$> miniblocks db) = Some (last_block log).
Proof.
  intros Hh. destruct (rp_row _ _ Hrp) as (row & h & Hrow & _). rewrite (hm_miniblocks _ _ Hh). pose proof (wf_last _ _ Hwf) as Hl.
  unfold last_block_number in Hl. destruct (sql_max _) eqn:E; [by injection Hl as ->|]. exfalso.
  unfold BlocksDal.block_row in Hrow. by destruct (miniblocks (Chain.tables (chain_of log))).
Qed.
Lemma last_header db :
  headers_match db (chain_of log) → ∃ h, BlocksDal.get_last_sealed_l2_block_header db = Ret (inr (Some h), db) ∧
    L2BlockHeader.number h = last_block log ∧ L2BlockHeader.hash h = link_hash st ∧ L2BlockHeader.timestamp h = last_time log.
Proof.
  intros Hh. destruct (rp_row _ _ Hrp) as (row & h & Hrow & Hread & Hhash & Htime). exists h.
  destruct (header_from_fields row h Hread) as (-> & -> & ->). rewrite (block_row_number _ _ _ Hrow), Hhash, Htime. split; [|split; [|done]].
  - unfold BlocksDal.get_last_sealed_l2_block_header. rewrite (prog_bind_step _ _ _ (Some row) db).
    + unfold BlocksDal.header_of_row. rewrite Hread. done.
    + unfold query. rewrite (last_block_row db Hh). cbn. by rewrite (headers_block_row _ _ _ Hh), Hrow.
  - unfold wrap. apply Z.mod_small. destruct Hwf. lia.
Qed.
Lemma last_batch db :
  headers_match db (chain_of log) → BlocksDal.get_sealed_l1_batch_number db = Ret (inr (Some (link_batch st - 1)), db).
Proof.
  intros Hh. unfold BlocksDal.get_sealed_l1_batch_number, query. rewrite (headers_batch_numbers _ _ Hh), (rp_batch _ _ Hrp). cbn.
  pose proof (rp_bound _ _ Hrp). unfold wrap. rewrite Z.mod_small; [done|lia].
Qed.

Lemma resume_cursor db : headers_match db (chain_of log) → IoCursor_new db = Ret (inr cursor_of, db).
Proof.
  intros Hh. destruct (last_header db Hh) as (h & Hget & Hn & Hhash & Ht). unfold IoCursor_new, cursor_of.
  rewrite (prog_bind_step _ _ _ _ _ (last_batch db Hh)), (prog_bind_step _ _ _ _ _ Hget). rewrite Hn, Hhash, Ht.
  unfold wrap. pose proof (rp_bound _ _ Hrp). rewrite !Z.mod_small; [by rewrite Z.sub_add|lia|destruct Hwf; lia].
Qed.

(** ** The pending batch *)
Abbreviation us := (pending_of log).
Definition first_number : Z := last_block log - byte_len us + 1.

Lemma sql_max_in l k : sql_max l = Some k → k ∈ l.
Proof.
  destruct l as [|x l]; [done|]. cbn. intros [= <-]. induction l as [|y l IH]; cbn; [left|].
  destruct (Z.max_spec y (foldr Z.max x l)) as [[_ ->]|[_ ->]]; [|right; left].
  apply elem_of_cons in IH as [->|IH]; [left|right; by right].
Qed.
Lemma sql_min_is_Some l k : sql_max l = Some k → ∃ k', sql_min l = Some k'.
Proof. destruct l; [done|]. cbn. eauto. Qed.
Lemma range_of_last_batch db :
  headers_match db (chain_of log) →
  ∃ first, BlocksDal.get_l2_block_range_of_l1_batch (link_batch st - 1) db = Ret (inr (Some (first, first_number - 1)), db).
Proof.
  intros Hh. unfold BlocksDal.get_l2_block_range_of_l1_batch, query. rewrite (hm_miniblocks _ _ Hh). pose proof (rp_range _ _ Hrp) as Hr.
  destruct (sql_min_is_Some _ _ Hr) as [k Hk]. exists (wrap 32 k). rewrite Hk, Hr. cbn [mbind option_bind].
  assert (E : wrap 32 (last_block log - byte_len us) = first_number - 1); [|by rewrite E]. unfold first_number, wrap.
  rewrite Z.mod_small; [lia|]. pose proof (pb_first _ _ _ _ _ _ _ Hpb). destruct Hwf. unfold byte_len in *. lia.
Qed.
Lemma earliest_batch db :
  headers_match db (chain_of log) → ∃ k, BlocksDal.get_earliest_l1_batch_number db = Ret (inr (Some k), db).
Proof.
  intros Hh. unfold BlocksDal.get_earliest_l1_batch_number, query. rewrite (headers_batch_numbers _ _ Hh).
  destruct (sql_min_is_Some _ _ (rp_batch _ _ Hrp)) as [k ->]. cbn. eauto.
Qed.

(** The header of the first pending block, if there is one. *)
Lemma first_block_row db :
  headers_match db (chain_of log) → BlocksDal.block_row db first_number = (λ u, header_row (command u)) <$> (us !! 0%nat).
Proof.
  intros Hh. rewrite (headers_block_row _ _ _ Hh). unfold BlocksDal.block_row. destruct (pb_rows _ _ _ _ _ _ _ Hpb) as (old & Hr & Hold).
  rewrite Hr, list_find_app_r by (eapply Forall_impl; [exact Hold|]; unfold first_number; cbn; lia).
  pose proof (pb_numbers _ _ _ _ _ _ _ Hpb O) as Hn. destruct us as [|u us'] eqn:Eus; [done|]. cbn [lookup list_lookup fmap option_fmap option_map list_fmap].
  unfold compose at 1. cbn [list_find]. rewrite decide_True; [done|]. rewrite header_row_number, (Hn u eq_refl). unfold first_number. rewrite Eus. lia.
Qed.

Lemma batch_nonzero : 0 < link_batch st < 2 ^ 31 - 1.
Proof. pose proof (rp_bound _ _ Hrp). lia. Qed.
Lemma first_number_bound : 0 < first_number ≤ 2 ^ 31.
Proof. unfold first_number. pose proof (pb_first _ _ _ _ _ _ _ Hpb). destruct Hwf. unfold byte_len in *. lia. Qed.
Lemma load_first_block_number db :
  headers_match db (chain_of log) →
  L1BatchParamsProvider.load_number_of_first_l2_block_in_batch L1BatchParamsProvider.new (link_batch st) db = Ret (inr (Some first_number), db).
Proof.
  intros Hh. unfold L1BatchParamsProvider.load_number_of_first_l2_block_in_batch. pose proof batch_nonzero. rewrite decide_False by lia.
  assert (E : wrap 32 (link_batch st - 1) = link_batch st - 1) by (unfold wrap; rewrite Z.mod_small; lia). cbn [L1BatchParamsProvider.new L1BatchParamsProvider.snapshot].
  rewrite E. destruct (range_of_last_batch db Hh) as [first Hr]. rewrite (prog_bind_step _ _ _ _ _ Hr). cbn [fmap option_fmap option_map snd].
  pose proof first_number_bound. rewrite Z.sub_add. unfold wrap. rewrite Z.mod_small; [done|lia].
Qed.
Lemma load_first_block db :
  headers_match db (chain_of log) →
  L1BatchParamsProvider.load_first_l2_block_in_batch L1BatchParamsProvider.new (link_batch st) db =
  (header ← BlocksDal.header_of_row ((λ u, header_row (command u)) <$> (us !! 0%nat));
   mret ((λ header, FirstL2BlockInBatch.mk header (link_batch st)) <$> header)) db.
Proof.
  intros Hh. unfold L1BatchParamsProvider.load_first_l2_block_in_batch. rewrite (prog_bind_step _ _ _ _ _ (load_first_block_number db Hh)).
  cbn [get_l2_block_header keeper_dal]. unfold BlocksDal.get_l2_block_header, mbind, prog_bind, query. by rewrite (first_block_row db Hh).
Qed.

(** The hash of the block before it. *)
Lemma first_prev_hash db u :
  headers_match db (chain_of log) → us !! 0%nat = Some u →
  BlocksDal.get_l2_block_hash (first_number - 1) db = Ret (inr (Some (L2BlockUpdates.prev_block_hash (block_of u))), db).
Proof.
  intros Hh Hu. unfold BlocksDal.get_l2_block_hash, query. rewrite (headers_block_row _ _ _ Hh).
  destruct (pb_hash _ _ _ _ _ _ _ Hpb) as (h & Hat & Hl). pose proof (sql_max_in _ _ (rp_range _ _ Hrp)) as (r & Er & [_ Hr]%list_elem_of_filter)%list_elem_of_fmap.
  assert (Eu : L2BlockUpdates.prev_block_hash (block_of u) = h) by (destruct us; [done|]; injection Hu as ->; by destruct Hl). rewrite Eu.
  replace (first_number - 1) with (last_block log - byte_len us) by (unfold first_number; lia). unfold hash_at in Hat.
  destruct (BlocksDal.block_row (Chain.tables (chain_of log)) _) as [row|] eqn:Erow; [by injection Hat as <-|]. exfalso.
  unfold BlocksDal.block_row in Erow. destruct (list_find _ _) eqn:Ef; [done|]. apply list_find_None in Ef. rewrite Forall_forall in Ef. by destruct (Ef r Hr).
Qed.

Lemma load_params db u h patience gas_limit chain_id root ts contracts :
  headers_match db (chain_of log) → us !! 0%nat = Some u → header_of u h → number (command u) = first_number →
  BlocksDal.get_l1_batch_state_root_and_timestamp (link_batch st - 1) db = Ret (inr (Some (root, ts)), db) →
  ts < L2BlockUpdates.timestamp (block_of u) →
  FactoryDepsDal.get_base_system_contracts (BaseSystemContractsHashes.bootloader (UpdatesManager.base_system_contract_hashes u))
    (BaseSystemContractsHashes.default_aa (UpdatesManager.base_system_contract_hashes u)) db = Ret (inr contracts, db) →
  L1BatchParamsProvider.load_l1_batch_params (S patience) L1BatchParamsProvider.new (FirstL2BlockInBatch.mk h (link_batch st)) gas_limit chain_id db =
  Ret (inr (l1_batch_params (link_batch st) (UpdatesManager.fee_account_address u) (L2BlockUpdates.timestamp (block_of u)) root
    (UpdatesManager.batch_fee_input u) (L2BlockUpdates.number (block_of u)) (L2BlockUpdates.prev_block_hash (block_of u)) contracts gas_limit
    (UpdatesManager.protocol_version u) (L2BlockUpdates.virtual_blocks (block_of u)) chain_id), db).
Proof.
  intros Hh Hu [Hn Ht Hfa Hfi Hc Hv Hvb] Hnum Hroot Hts Hcon. unfold L1BatchParamsProvider.load_l1_batch_params.
  cbn [FirstL2BlockInBatch.header FirstL2BlockInBatch.l1_batch_number]. pose proof batch_nonzero. pose proof first_number_bound. rewrite decide_True by lia.
  assert (E : wrap 32 (link_batch st - 1) = link_batch st - 1) by (unfold wrap; rewrite Z.mod_small; lia).
  rewrite (prog_bind_step _ _ _ (root, ts) db).
  2:{ unfold L1BatchParamsProvider.wait_for_l1_batch_params. cbn [L1BatchParamsProvider.new L1BatchParamsProvider.snapshot]. rewrite E, decide_True by lia.
      cbn [L1BatchParamsProvider.wait_for_l1_batch_params_unchecked]. by rewrite (prog_bind_step _ _ _ _ _ Hroot). }
  rewrite Ht, decide_True by done. cbn [L1BatchParamsProvider.new L1BatchParamsProvider.snapshot mbind option_bind].
  change (number (command u)) with (L2BlockUpdates.number (block_of u)) in Hnum.
  assert (E' : wrap 32 (L2BlockHeader.number h - 1) = first_number - 1) by (rewrite Hn, Hnum; unfold wrap; rewrite Z.mod_small; lia).
  rewrite E'. rewrite (prog_bind_step _ _ _ (L2BlockUpdates.prev_block_hash (block_of u)) db).
  2:{ cbn [KeeperDal.get_l2_block_hash keeper_dal]. by rewrite (prog_bind_step _ _ _ _ _ (first_prev_hash db u Hh Hu)). }
  rewrite Hc. cbn [KeeperDal.get_base_system_contracts keeper_dal]. rewrite (prog_bind_step _ _ _ _ _ Hcon). rewrite Hv.
  by rewrite Hfa, Hfi, Hvb, Hn.
Qed.

Lemma system_contracts_same db T a b contracts :
  headers_match db T → factory_deps db = factory_deps (Chain.tables T) →
  FactoryDepsDal.get_base_system_contracts a b (Chain.tables T) = Ret (inr contracts, Chain.tables T) →
  FactoryDepsDal.get_base_system_contracts a b db = Ret (inr contracts, db).
Proof.
  intros [Hm _ _ _ Hs] Hf. assert (Hdep : ∀ hash, ∃ d, FactoryDepsDal.get_sealed_factory_dep hash (Chain.tables T) = Ret (inr d, Chain.tables T) ∧
    FactoryDepsDal.get_sealed_factory_dep hash db = Ret (inr d, db)).
  { intros hash. eexists. split; [done|]. unfold FactoryDepsDal.get_sealed_factory_dep, query, last_block_number. by rewrite Hm, Hs, Hf. }
  destruct (Hdep a) as (da & Ea & Ea'), (Hdep b) as (d & Eb & Eb'). unfold FactoryDepsDal.get_base_system_contracts. intros Hr.
  rewrite (prog_bind_step _ _ _ _ _ Ea) in Hr. rewrite (prog_bind_step _ _ _ _ _ Ea').
  apply prog_bind_inr in Hr as (x & ? & [Ex ->]%ok_or_inr & Hr). rewrite (prog_bind_step _ _ _ x db) by by apply ok_or_Some.
  apply prog_bind_inr in Hr as (wx & ? & [Ewx ->]%lift_exec_inr & Hr). rewrite (prog_bind_step _ _ _ wx db) by by apply lift_exec_inr.
  rewrite (prog_bind_step _ _ _ _ _ Eb) in Hr. rewrite (prog_bind_step _ _ _ _ _ Eb').
  apply prog_bind_inr in Hr as (y & ? & [Ey ->]%ok_or_inr & Hr). rewrite (prog_bind_step _ _ _ y db) by by apply ok_or_Some.
  apply prog_bind_inr in Hr as (wy & ? & [Ewy ->]%lift_exec_inr & Hr). rewrite (prog_bind_step _ _ _ wy db) by by apply lift_exec_inr.
  by injection Hr as <-.
Qed.
End point.

(** ** The start *)
Lemma on_pool_step {A} (settings : MempoolIOSettings.t) (op : Q A) (io : MempoolIO.t settings KeeperDb.t) a db' :
  op (MempoolIO.pool io) = Ret (inr a, db') → MempoolIO.on_pool settings op io = Ret (inr a, MempoolIO.with_pool settings db' io).
Proof. intros E. unfold MempoolIO.on_pool. by rewrite E. Qed.

(** What the other components have done by the time the pending batch is read: the root of the
    batch before is known, and the code of the system contracts is in a sealed block. *)
Definition open_batch_readable (settings : MempoolIOSettings.t) (io : MempoolIO.t settings KeeperDb.t) T (batch : Z) u : Prop :=
  fee_typed u ∧
  (∃ root ts, BlocksDal.get_l1_batch_state_root_and_timestamp (batch - 1) (MempoolIO.pool io) = Ret (inr (Some (root, ts)), MempoolIO.pool io) ∧
    ts < L2BlockUpdates.timestamp (block_of u)) ∧
  (∃ contracts, FactoryDepsDal.get_base_system_contracts (BaseSystemContractsHashes.bootloader (UpdatesManager.base_system_contract_hashes u))
    (BaseSystemContractsHashes.default_aa (UpdatesManager.base_system_contract_hashes u)) (Chain.tables T) = Ret (inr contracts, Chain.tables T)) ∧
  (∃ filter, MempoolIO.filter_of (UpdatesManager.batch_fee_input u) (UpdatesManager.protocol_version u) = Ret filter) ∧
  (0 < World.patience (MempoolIOSettings.world settings) (MempoolIO.asked io))%nat.

(** The batch that was open: its blocks, and the environment it was opened with. *)
Definition pending_batch_of (us : list UpdatesManager.t) (batch : Z) (data : option PendingBatchData.t) : Prop :=
  match us, data with
  | [], None => True
  | u :: _, Some data =>
      Forall2 reexecuted us (PendingBatchData.pending_l2_blocks data) ∧
      let env := PendingBatchData.l1_batch_env data in
      L1BatchEnv.number env = batch ∧ L1BatchEnv.timestamp env = L2BlockUpdates.timestamp (block_of u) ∧
      L1BatchEnv.fee_account env = UpdatesManager.fee_account_address u ∧ L1BatchEnv.fee_input env = UpdatesManager.batch_fee_input u ∧
      L1BatchEnv.first_l2_block env = L2BlockUpdates.get_env (block_of u) ∧
      SystemEnv.version (PendingBatchData.system_env data) = UpdatesManager.protocol_version u
  | _, _ => False
  end.

Lemma pending_of_log log u : u ∈ pending_of log → SealedBlock u ∈ log.
Proof.
  induction log as [|o log IH] using rev_ind; [by intros ?%elem_of_nil|]. rewrite pending_of_snoc, elem_of_app. destruct o as [v|v]; cbn.
  - intros [?| ->%list_elem_of_singleton]%elem_of_app; [auto|]. right. left.
  - by intros ?%elem_of_nil.
Qed.
Lemma state_root_same db db' b x :
  l1_batches db' = l1_batches db → BlocksDal.get_l1_batch_state_root_and_timestamp b db = Ret (inr x, db) →
  BlocksDal.get_l1_batch_state_root_and_timestamp b db' = Ret (inr x, db').
Proof. unfold BlocksDal.get_l1_batch_state_root_and_timestamp, query, BlocksDal.batch_row. intros ->. by intros [= <-]. Qed.

Lemma load_pending log (st : link (C := C)) db sys env u :
  pending_blocks addr pre_insert protective T0 n0 log st → chain_wf (last_block log) (chain_of log) → matches (last_block log) db (chain_of log) →
  Forall output_typed log → Forall KeeperInvariant.sealed_nonempty log → pending_of log !! 0%nat = Some u →
  L2BlockEnv.number (L1BatchEnv.first_l2_block env) = L2BlockUpdates.number (block_of u) →
  ∃ blocks, load_pending_batch sys env db = Ret (inr (PendingBatchData.mk env sys blocks), db) ∧ Forall2 reexecuted (pending_of log) blocks.
Proof.
  intros Hpb Hwf Hm Hty Hne Hu Henv. rewrite Forall_forall in Hty, Hne.
  destruct (pending_reexecuted addr pre_insert protective T0 n0 log st db Hpb Hwf Hm) as (blocks & Hget & Hre).
  { apply Forall_forall. intros v Hv%pending_of_log. exact (Hne _ Hv). }
  { apply Forall_forall. intros v Hv%pending_of_log. apply (Hty _ Hv). }
  exists blocks. split; [|done]. unfold load_pending_batch. cbn [KeeperDal.get_l2_blocks_to_reexecute keeper_dal]. rewrite (prog_bind_step _ _ _ _ _ Hget).
  destruct Hre as [|v d us' ds Hd Hre]; [done|]. injection Hu as ->. rewrite (prog_bind_step _ _ _ d db) by done.
  rewrite decide_True; [done|]. by rewrite (re_number _ _ Hd), Henv.
Qed.
Lemma initialize_resumes (settings : MempoolIOSettings.t) (io : MempoolIO.t settings KeeperDb.t) log st db' :
  pending_blocks addr pre_insert protective T0 n0 log st → resume_point log st → chain_wf (last_block log) (chain_of log) →
  link_batch st0 + byte_len log < 2 ^ 31 - 1 → Forall output_typed log → Forall KeeperInvariant.sealed_nonempty log →
  MempoolIO.l1_batch_params_provider io = L1BatchParamsProvider.new → headers_match (MempoolIO.pool io) (chain_of log) →
  clear_pending_l2_block (last_block log) (MempoolIO.pool io) = Ret (inr (), db') → matches (last_block log) db' (chain_of log) →
  l1_batches db' = l1_batches (MempoolIO.pool io) →
  (∀ u, pending_of log !! 0%nat = Some u → open_batch_readable settings io (chain_of log) (link_batch st) u) →
  ∃ data io', MempoolIO.initialize settings io = Ret (inr (cursor_of log st, data), io') ∧ MempoolIO.pool io' = db' ∧
    pending_batch_of (pending_of log) (link_batch st) data.
Proof.
  intros Hpb Hrp Hwf Hwb Hty Hne Hprov Hh Hclear Hm Hbat Hready. unfold MempoolIO.initialize.
  rewrite (prog_bind_step _ _ _ _ _ (on_pool_step settings _ io _ _ (resume_cursor log st Hrp Hwf Hwb _ Hh))).
  destruct io as [mempool pool filter provider asked]. cbn [MempoolIO.with_pool MempoolIO.pool MempoolIO.l1_batch_params_provider MempoolIO.asked] in *. subst provider.
  set (io1 := MempoolIO.mk mempool db' filter L1BatchParamsProvider.new asked : MempoolIO.t settings KeeperDb.t).
  rewrite (prog_bind_step get _ _ _ _ eq_refl). cbn [MempoolIO.with_pool MempoolIO.mempool MempoolIO.pool MempoolIO.filter MempoolIO.l1_batch_params_provider MempoolIO.asked].
  destruct (earliest_batch log st Hrp pool Hh) as [k Hk].
  assert (Hinit : L1BatchParamsProvider.initialize L1BatchParamsProvider.new pool = Ret (inr L1BatchParamsProvider.new, pool)).
  { unfold L1BatchParamsProvider.initialize. cbn [KeeperDal.get_earliest_l1_batch_number keeper_dal]. by rewrite (prog_bind_step _ _ _ _ _ Hk). }
  rewrite (prog_bind_step _ _ _ _ _ (on_pool_step settings _ (MempoolIO.mk mempool pool filter L1BatchParamsProvider.new asked) _ _ Hinit)).
  rewrite (prog_bind_step get _ _ _ _ eq_refl), (prog_bind_step (put _) _ _ _ _ eq_refl).
  assert (En : wrap 32 (IoCursor.next_l2_block (cursor_of log st) - 1) = last_block log).
  { cbn. rewrite Z.add_simpl_r. unfold wrap. rewrite Z.mod_small; [done|destruct Hwf; lia]. }
  rewrite En. rewrite (prog_bind_step _ _ _ () io1).
  2:{ unfold MempoolIO.on_pool. cbn [KeeperDal.clear_pending_l2_block keeper_dal MempoolIO.with_provider MempoolIO.with_pool MempoolIO.pool]. by rewrite Hclear. }
  pose proof Hm as [Hh' _]. pose proof (load_first_block log st Hpb Hrp Hwf Hwb db' Hh') as Hload. cbn [IoCursor.l1_batch cursor_of].
  destruct (pending_of log) as [|u us] eqn:Eus.
  - rewrite (prog_bind_step _ _ _ _ _ (on_pool_step settings _ io1 None db' Hload)). by exists None, io1.
  - assert (Hu : pending_of log !! 0%nat = Some u) by by rewrite Eus.
    destruct (Hready u eq_refl) as (Hfee & (root & ts & Hroot & Hts) & (contracts & Hcon) & (flt & Hflt) & Hpat).
    cbn [MempoolIO.pool MempoolIO.asked] in *.
    assert (Hnum : number (command u) = first_number log).
    { rewrite (pb_numbers _ _ _ _ _ _ _ Hpb 0%nat u Hu). unfold first_number. rewrite Eus. lia. }
    assert (Hout : output_typed (SealedBlock u)).
    { rewrite Forall_forall in Hty. apply Hty, pending_of_log. rewrite Eus. left. }
    destruct (header_row_roundtrip u pre_insert Hout Hfee) as (h & Hrow & Hho).
    { change (number (command u) = first_number log) in Hnum. pose proof (first_number_bound log st Hpb Hwf). unfold in_width.
      change (L2BlockUpdates.number (block_of u)) with (number (command u)). lia. }
    cbn [fmap option_fmap option_map lookup list_lookup] in Hload.
    assert (Hload' : L1BatchParamsProvider.load_first_l2_block_in_batch L1BatchParamsProvider.new (link_batch st) db' =
      Ret (inr (Some (FirstL2BlockInBatch.mk h (link_batch st))), db')).
    { rewrite Hload. unfold BlocksDal.header_of_row. unfold PersistenceRuns.command. rewrite Hrow. done. }
    rewrite (prog_bind_step _ _ _ _ _ (on_pool_step settings _ io1 _ db' Hload')).
    rewrite (prog_bind_step (MempoolIO.ask settings World.patience) _ _ _ _ eq_refl). cbn [MempoolIO.asked MempoolIO.with_pool io1].
    destruct (World.patience _ asked) as [|patience]; [lia|].
    set (io2 := MempoolIO.with_asked settings (S asked) io1).
    pose proof (load_params log st Hpb Hrp Hwf Hwb db' u h patience (MempoolIOSettings.validation_computational_gas_limit settings)
      (MempoolIOSettings.chain_id settings) root ts contracts Hh' Hu Hho Hnum (state_root_same _ _ _ _ Hbat Hroot) Hts
      (system_contracts_same _ _ _ _ _ Hh' (proj2 Hm InsertFactoryDeps) Hcon)) as Hparams.
    rewrite (prog_bind_step _ _ _ _ _ (on_pool_step settings _ io2 _ db' Hparams)). cbn [l1_batch_params].
    match goal with |- context [load_pending_batch ?sys ?env] => destruct (load_pending log st db' sys env u Hpb Hwf Hm Hty Hne Hu eq_refl) as (blocks & Hpend & Hre) end.
    rewrite (prog_bind_step _ _ _ _ _ (on_pool_step settings _ io2 _ db' Hpend)). cbn [PendingBatchData.l1_batch_env PendingBatchData.system_env L1BatchEnv.fee_input SystemEnv.version].
    rewrite (prog_bind_step _ _ _ flt io2) by by apply lift_exec_inr. rewrite Eus in Hre. by eexists (Some _), _.
Qed.

(** C10 After a run of the persistence with any crashes, the state keeper starts where the
    sealed chain ends: its cursor has the next block after the last header, with that block's
    hash and time, and the next batch after the last one; the pending data are gone; and if
    the last batch was open, its blocks are given back in order with their transactions,
    times and links, and so is the environment the batch was opened with. The run is one of
    [step]: the transactions of a block are in their table when they are marked - one that
    has been deleted stops the restart - and others leave alone what the state keeper has
    written. What was sealed is a chain of the state keeper with fields of their widths and
    a transaction in every block that does not end a batch; and for the open batch the root
    of the batch before it, which is older, has been written and is waited for, the code of
    its system contracts is in a sealed block, and its fees can be derived
    ([open_batch_readable]). *)
Theorem restart_resumes_chain (settings : MempoolIOSettings.t) (io : MempoolIO.t settings KeeperDb.t) db0 stt st :
  resume_start → matches n0 db0 T0 → rtc (step addr pre_insert protective T0 n0) (initial db0) stt →
  chain executor st0 (s_log stt) st → Forall output_typed (s_log stt) → Forall KeeperInvariant.sealed_nonempty (s_log stt) →
  link_batch st0 + byte_len (s_log stt) < 2 ^ 31 - 1 →
  MempoolIO.l1_batch_params_provider io = L1BatchParamsProvider.new → MempoolIO.pool io = s_db stt →
  (∀ u, pending_of (s_log stt) !! 0%nat = Some u → open_batch_readable settings io (chain_of (s_log stt)) (link_batch st) u) →
  ∃ data io', MempoolIO.initialize settings io = Ret (inr (cursor_of (s_log stt) st, data), io') ∧
    matches (last_block (s_log stt)) (MempoolIO.pool io') (chain_of (s_log stt)) ∧
    pending_batch_of (pending_of (s_log stt)) (link_batch st) data.
Proof.
  intros Hrs Hm Hr Hc Hty Hne Hwb Hprov Hpool Hready. pose proof (starts_wf _ _ _ (rs_starts Hrs)) as Hwf0.
  pose proof (inv_reachable _ _ _ _ _ _ _ Hwf0 Hm Hr) as Hinv. pose proof (inv_wf _ _ _ _ _ _ Hinv) as Hwf.
  destruct (chain_resumes _ _ Hrs Hty Hc) as [Hpb Hrp]; [apply Hwf|lia|].
  pose proof (inv_headers _ _ _ _ _ _ Hinv) as Hh.
  destruct (clear_pending_matches addr pre_insert _ _ _ Hwf Hh (λ s, inv_covers _ _ _ _ _ stt s Hinv)) as (db' & Hclear & Hm' & Hb). rewrite <-Hpool in Hh, Hclear, Hb.
  destruct (initialize_resumes settings io _ _ db' Hpb Hrp Hwf Hwb Hty Hne Hprov Hh Hclear Hm' Hb Hready) as (data & io' & Hi & <- & Hd).
  by exists data, io'.
Qed.
End resume.
