(* ===== verification/PersistenceSamples.v ===== *)
(** * Sample runs of the persistence

    The state keeper's sample run seals a block, a batch and another block; the handler
    writes them, and the node stops within the second block. *)
From S2P Require Import Prelude Types BTreeSet Mempool Abi Sql VmLimits Float Deduplicator FeeModel TxEncoding VmErrors StateDiffs SealCriteria VmInterface KeeperUpdates BatchExecutor StateKeeper KeeperChain KeeperDal MempoolIO KeeperMempool KeeperDb Persistence PersistenceSpec PersistenceMarks PersistenceCorrect PersistenceTree PersistenceRuns PersistenceHandler PersistenceRestart PersistenceResume.
Local Open Scope Z_scope.
Import KeeperDb L2BlockSealCommand SealCommand.

Module PersistenceSamples.
Import ExecutorSpec KeeperHoare KeeperInvariant TxEncodingSamples.
#[local] Existing Instance KeeperSamples.sample_keeper_lib.
#[local] Existing Instance KeeperSamples.sample_params.
#[local] Existing Instance KeeperSamples.sample_vm.
#[local] Existing Instance KeeperSamples.sample_vm_laws.
#[local] Existing Instance KeeperSamples.sample_io.
#[local] Existing Instance KeeperSamples.sample_io_laws.
#[local] Existing Instance KeeperSamples.sample_handler.
#[local] Existing Instance KeeperSamples.sample_storage.
#[local] Instance sample_abi : TokenAbi := {| abi_decode_token _ := Some ("Token"%string, "TKN"%string, 18) |}.
#[local] Instance sample_key_hash : StorageKeyHash := {| raw_hashed_key address key := address * 2 ^ 256 + key |}.
#[local] Instance sample_copy : CopyText := {| copy_field := Some |}.

Ltac computed := refine (bool_decide_eq_true_1 _ _); vm_compute; reflexivity.

(** ** What the sample run has sealed *)
Definition bridge : Address := 0xb1.
Definition outputs : list output := Eval vm_compute in v_out (view_of KeeperSamples.final).
Definition no_updates : UpdatesManager.t := KeeperSamples.first_updates.
Definition nth_updates (k : nat) : UpdatesManager.t := default no_updates (updates_of <$> outputs !! k).
Definition u5 : UpdatesManager.t := Eval vm_compute in nth_updates 0.
Definition u6 : UpdatesManager.t := Eval vm_compute in nth_updates 1.
Definition u7 : UpdatesManager.t := Eval vm_compute in nth_updates 2.
Lemma outputs_are : outputs = [SealedBlock u5; SealedBatch u6; SealedBlock u7].
Proof. reflexivity. Qed.

(** ** The tables, after block 4 of batch 2 *)
Definition block4 : MiniblockRow.t :=
  MiniblockRow.mk 4 1000 77 0 1 0xfee 250000000 1000000000 25000000 (BaseSystemContracts.hashes KeeperSamples.contracts) (Some latest) 1 (Some 500000000) (Some 2).
Definition batch2 : L1BatchRow.t :=
  L1BatchRow.mk 2 999 0 1 [] [] (BlockGasCount.mk 0 0 0) [] [] (BaseSystemContracts.hashes KeeperSamples.contracts) (Some latest) [] [] [] None
    CircuitStatistic.default (Some 99) None.
Definition waiting (nonce : Z) : TransactionRow.t :=
  TransactionRow.mk (1000 + nonce) (KeeperSamples.l2_tx nonce 70000) None None None None None None 0 None true.
Definition db0 : KeeperDb.t :=
  KeeperDb.mk [block4] [batch2] [waiting 0; waiting 2] [] []
    [FactoryDepRow.mk 1 (replicate 32 "001"%byte) 0; FactoryDepRow.mk 2 (replicate 32 "002"%byte) 0] [] [] [] [] [] [] None.
Definition chain0 : Chain.t := Chain.mk db0 [].

Lemma chain0_wf : chain_wf 4 chain0.
Proof. split; computed. Qed.
Lemma chain0_matches : matches 4 db0 chain0.
Proof.
  split; [split; reflexivity|]. intros []; try reflexivity. split; [split|]; cbn.
  - intros r b [->|[->|[]%elem_of_nil]%elem_of_cons]%elem_of_cons; discriminate.
  - by intros m ?%elem_of_nil.
  - by intros m t ?%elem_of_nil.
  - by intros r [->|[->|[]%elem_of_nil]%elem_of_cons]%elem_of_cons.
  - computed.
  - computed.
  - intros r b [->|[->|[]%elem_of_nil]%elem_of_cons]%elem_of_cons; discriminate.
Qed.

Abbreviation chain_of := (PersistenceRuns.chain_of bridge false true chain0).
Lemma next5 : admissible 4 (command bridge false u5) chain0.
Proof. split; computed. Qed.
Lemma next6 : admissible_batch 5 u6 (last_command bridge u6) (chain_of [SealedBlock u5]).
Proof.
  split; [split; computed|]. constructor; [|constructor]. eexists. split; [left|]. reflexivity.
Qed.
Lemma next7 : admissible 6 (command bridge false u7) (chain_of [SealedBlock u5; SealedBatch u6]).
Proof. split; computed. Qed.

(** ** The handler *)
(** The second turn of the task ends after two of the subtasks. *)
Definition turns : list Turn.t := [Turn.mk 5 (reverse all_subtasks); Turn.mk 6 [InsertEvents; MarkTransactionsInL2Block]].
Definition p0 : StateKeeperPersistence.t := started bridge false true db0 1 turns [].
Definition result {A} (op : exec (A * StateKeeperPersistence.t)) : StateKeeperPersistence.t := match op with Ret (_, p) => p | Panic => p0 end.
Definition p1 : StateKeeperPersistence.t := Eval vm_compute in result (StateKeeperPersistence.handle_l2_block u5 p0).
Definition p2 : StateKeeperPersistence.t := Eval vm_compute in result (StateKeeperPersistence.handle_l1_batch 7 u6 p1).
Definition p3 : StateKeeperPersistence.t := Eval vm_compute in result (StateKeeperPersistence.handle_l2_block u7 p2).
Definition stepped (p : StateKeeperPersistence.t) : StateKeeperPersistence.t :=
  match StateKeeperPersistence.sealer_step p with Ret p => p | Panic => p0 end.
(** The task receives the third block, and fails to seal it. *)
Definition p3' : StateKeeperPersistence.t := Eval vm_compute in stepped p3.
Definition p4 : StateKeeperPersistence.t := Eval vm_compute in stepped p3'.
Definition marked (db : KeeperDb.t) : list (H256 * option Z) := (λ r, (TransactionRow.hash r, TransactionRow.miniblock_number r)) <$> transactions db.

Lemma known5 : known (command bridge false u5) db0.
Proof.
  right. intros res [->|[]%elem_of_nil]%elem_of_cons. exists (waiting 0). split; [left|]. split_and!; [reflexivity|reflexivity|]. by intros [].
Qed.
Lemma known7 : known (command bridge false u7) (StateKeeperPersistence.pool p2).
Proof.
  right. intros res [->|[]%elem_of_nil]%elem_of_cons. exists (waiting 2). split; [right; left|]. split_and!; [reflexivity|reflexivity|]. by intros [].
Qed.
Lemma handled_all : handled bridge false true chain0 4 p0 outputs p4.
Proof.
  apply (handled_task _ _ _ _ _ _ _ p3'); [|vm_compute; reflexivity]. apply (handled_task _ _ _ _ _ _ _ p3); [|vm_compute; reflexivity].
  apply (handled_block _ _ _ _ _ _ [SealedBlock u5; SealedBatch u6] p2); [|exact next7|exact known7|vm_compute; reflexivity].
  apply (handled_batch _ _ _ _ _ _ [SealedBlock u5] p1 u6 7); [|exact next6|vm_compute; reflexivity].
  apply (handled_block _ _ _ _ _ _ [] p0); [|exact next5|exact known5|vm_compute; reflexivity]. apply handled_start.
Qed.
Lemma turns_ok : Forall (λ turn, NoDup (Turn.order turn)) turns.
Proof. computed. Qed.

Lemma handled_outputs_durable_witness :
  marked (StateKeeperPersistence.pool p4) = [(1000, Some 5); (1002, Some 7)] ∧
  ∃ sealed pending db', outputs = sealed ++ (SealedBlock <$> pending) ∧ (length pending ≤ 2)%nat ∧
    clear_pending_l2_block (last_block 4 sealed) (StateKeeperPersistence.pool p4) = Ret (inr (), db') ∧
    matches (last_block 4 sealed) db' (chain_of sealed).
Proof.
  split; [vm_compute; reflexivity|].
  exact (handled_outputs_durable bridge false true chain0 4 db0 1 turns [] outputs p4 chain0_wf chain0_matches turns_ok handled_all).
Defined.

(** ** Runs with crashes *)
Abbreviation step := (PersistenceRuns.step bridge false true chain0 4).
Definition written {A} (db : KeeperDb.t) (op : Q A) : KeeperDb.t := match op db with Ret (_, db') => db' | Panic => db end.
Definition d5 : KeeperDb.t := Eval vm_compute in written db0 (StateKeeperPersistence.seal (Turn.mk 5 (reverse all_subtasks)) (command bridge false u5)).
Definition d6 : KeeperDb.t := Eval vm_compute in StateKeeperPersistence.pool p2.
Definition d7 : KeeperDb.t := Eval vm_compute in written d6 (StateKeeperPersistence.seal Turn.sequential (command bridge false u7)).
Definition f6 : FinishedL1Batch.t := Eval vm_compute in default (KeeperSamples.finished []) (L1BatchUpdates.finished (UpdatesManager.l1_batch u6)).
Definition two : list output := [SealedBlock u5; SealedBatch u6].

Lemma initial_inv : inv bridge false true chain0 4 (initial db0).
Proof. exact (inv_initial _ _ _ _ _ _ chain0_wf chain0_matches). Qed.
Lemma run_two : rtc step (initial db0) (State d6 two [] [] Sealing).
Proof.
  assert (Hs1 : step (initial db0) (State db0 [] [u5] [] Sealing)) by exact (step_submit bridge false true chain0 4 db0 [] [] [] u5 next5).
  eapply rtc_l; [exact Hs1|]. eapply rtc_r.
  - refine (proj1 (seal_steps bridge false true chain0 4 (Turn.mk 5 (reverse all_subtasks)) [] u5 [] db0 (inr ()) d5 _ known5 _ _)).
    + exact (inv_step _ _ _ _ _ _ _ initial_inv Hs1).
    + computed.
    + vm_compute. reflexivity.
  - refine (step_batch bridge false true chain0 4 d5 [SealedBlock u5] u6 f6 7 0 d6 _ next6 _); vm_compute; reflexivity.
Qed.
Lemma submit_third : step (State d6 two [] [] Sealing) (State d6 two [u7] [] Sealing).
Proof. exact (step_submit bridge false true chain0 4 d6 two [] [] u7 next7). Qed.

(** Two subtasks of block 7, a crash, and a crash in the recovery. *)
Definition crashed : state := State (written (StateKeeperPersistence.pool p4) (TransactionsDal.reset_marks 6)) two [] [] Down.
Lemma run_crashed : rtc step (initial db0) crashed.
Proof.
  etrans; [exact run_two|]. eapply rtc_l; [exact submit_third|].
  eapply rtc_l; [apply (step_subtask bridge false true chain0 4 d6 two u7 [] [] InsertEvents 6 d6)|];
    [reflexivity|apply not_elem_of_nil|discriminate|vm_compute; reflexivity|].
  eapply rtc_l; [apply (step_subtask bridge false true chain0 4 d6 two u7 [] [InsertEvents] MarkTransactionsInL2Block 6 (StateKeeperPersistence.pool p4))|];
    [reflexivity|by intros [?|?%elem_of_nil]%elem_of_cons|intros _; exact known7|vm_compute; reflexivity|].
  eapply rtc_l; [apply step_crash|]. eapply rtc_l; [apply step_restart|].
  eapply rtc_l; [apply (step_reset bridge false true chain0 4 _ two (tail all_subtasks) [1002])|]; [vm_compute; reflexivity|].
  apply rtc_once, step_crash.
Qed.
Lemma crash_recovers_sealed_witness :
  marked (s_db crashed) = [(1000, Some 5); (1002, None)] ∧
  ∃ db', clear_pending_l2_block 6 (s_db crashed) = Ret (inr (), db') ∧ matches 6 db' (chain_of two).
Proof.
  split; [vm_compute; reflexivity|].
  exact (crash_recovers_sealed bridge false true chain0 4 db0 crashed chain0_wf chain0_matches run_crashed).
Defined.

(** ** The restart *)
(** The metadata calculator writes the root of batch 3. *)
Definition with_root (r : L1BatchRow.t) : L1BatchRow.t :=
  L1BatchRow.mk (L1BatchRow.number r) (L1BatchRow.timestamp r) (L1BatchRow.l1_tx_count r) (L1BatchRow.l2_tx_count r)
    (L1BatchRow.l2_to_l1_messages r) (L1BatchRow.priority_ops_onchain_data r) (L1BatchRow.predicted_gas r)
    (L1BatchRow.initial_bootloader_heap_content r) (L1BatchRow.used_contract_hashes r) (L1BatchRow.base_system_contracts_hashes r)
    (L1BatchRow.protocol_version r) (L1BatchRow.system_logs r) (L1BatchRow.storage_refunds r) (L1BatchRow.pubdata_costs r)
    (L1BatchRow.pubdata_input r) (L1BatchRow.predicted_circuits_by_type r) (Some 99) (L1BatchRow.tree_writes r).
Definition d8 : KeeperDb.t := Eval vm_compute in set_l1_batches (with_root <$> l1_batches d7) d7.
Lemma root_written : others d7 d8.
Proof. split; try done; [intros r [->|[->|[]%elem_of_nil]%elem_of_cons]%elem_of_cons; done|computed|computed]. Qed.
Definition restarted : state := State d8 outputs [] [] Down.
Lemma run_restarted : rtc step (initial db0) restarted.
Proof.
  etrans; [exact run_two|]. eapply rtc_l; [exact submit_third|]. eapply rtc_r; [|exact (step_others _ _ _ _ _ d7 outputs [] [] Down d8 root_written)].
  eapply rtc_r; [|apply (step_crash _ _ _ _ _ d7 outputs [] [] Sealing)].
  refine (proj1 (seal_steps bridge false true chain0 4 Turn.sequential two u7 [] d6 (inr ()) d7 _ known7 _ _)).
  - apply (inv_step _ _ _ _ _ (State d6 two [] [] Sealing)); [|exact submit_third].
    exact (inv_reachable _ _ _ _ _ _ _ chain0_wf chain0_matches run_two).
  - computed.
  - vm_compute. reflexivity.
Qed.
Definition link0 : link (C := list (L2BlockEnv.t + Transaction.t)) := start_link KeeperSamples.cursor None.
Definition env4 : L1BatchEnv.t := L1BatchEnv.mk (Some 99) 4 1003 KeeperSamples.fee_input 0xfee None
  (L2BlockEnv.mk 7 1003 (L2BlockUpdates.get_l2_block_hash (UpdatesManager.l2_block u6)) 1).
Definition link3 : link (C := list (L2BlockEnv.t + Transaction.t)) := Eval vm_compute in
  after_block (opened (after_batch (after_block (opened link0 []) u5) u6) []) u7.
Definition replayed (st : link (C := list (L2BlockEnv.t + Transaction.t))) (u : UpdatesManager.t) : list (L2BlockEnv.t + Transaction.t) :=
  match link_machine st with
  | Some m => match replay KeeperSamples.sample_executor (KeeperChain.started m) (ran m ++ block_ops (fresh m) (UpdatesManager.l2_block u)) with Ret c => c | Panic => [] end
  | None => []
  end.
Lemma outputs_chain : chain KeeperSamples.sample_executor link0 outputs link3.
Proof.
  set (st1 := opened link0 []). set (st2 := after_batch (after_block st1 u5) u6). set (st3 := opened st2 []).
  assert (Hran : ∀ st u, link_machine st ≠ None → match link_machine st with
      | Some m => replay KeeperSamples.sample_executor (KeeperChain.started m) (ran m ++ block_ops (fresh m) (UpdatesManager.l2_block u)) = Ret (replayed st u)
      | None => True end → machine_ran KeeperSamples.sample_executor st u (replayed st u)).
  { intros st u Hm Hr. unfold machine_ran. destruct (link_machine st) as [m|]; [by exists m|done]. }
  refine (chain_block _ _ two st3 u7 (replayed st3 u7) _ _ _); [|split; reflexivity|apply Hran; [done|vm_compute; reflexivity]].
  refine (chain_open _ _ two st2 env4 KeeperSamples.system () [] _ _ _ _ _ _); try reflexivity.
  refine (chain_batch _ _ [SealedBlock u5] (after_block st1 u5) u6 (replayed (after_block st1 u5) u6) f6 (replayed (after_block st1 u5) u6) _ _ _ _ _ _);
    [|split; reflexivity|reflexivity|apply Hran; [done|vm_compute; reflexivity]|vm_compute; reflexivity|reflexivity].
  refine (chain_block _ _ [] st1 u5 (replayed st1 u5) _ _ _); [|split; reflexivity|apply Hran; [done|vm_compute; reflexivity]].
  refine (chain_open _ _ [] link0 KeeperSamples.env KeeperSamples.system () [] _ _ _ _ _ _); try reflexivity. apply chain_nil.
Qed.
Lemma start0 : resume_start bridge false true chain0 4 link0 1000.
Proof.
  split; split; try reflexivity; try computed; [exact chain0_wf|].
  exists block4. eexists. split_and!; vm_compute; reflexivity.
Qed.
Definition settings : MempoolIOSettings.t := KeeperMempoolSamples.settings_with (λ _, []).
Definition io : MempoolIO.t settings KeeperDb.t := MempoolIO.new (MempoolStore.new 7 1000) (s_db restarted) settings.
Lemma readable7 : open_batch_readable settings io (chain_of outputs) (link_batch link3) u7.
Proof.
  split_and!.
  - split; [vm_compute; discriminate|]. eexists. split; [reflexivity|]. split_and!; computed.
  - exists 99. eexists. split; vm_compute; reflexivity.
  - eexists. vm_compute. reflexivity.
  - eexists. vm_compute. reflexivity.
  - vm_compute. lia.
Qed.
Definition resumed (r : exec ((string + (IoCursor.t * option PendingBatchData.t)) * MempoolIO.t settings KeeperDb.t)) : option (Z * Z * list (Z * nat)) :=
  match r with
  | Ret (inr (cursor, Some data), _) =>
      Some (IoCursor.next_l2_block cursor, IoCursor.l1_batch cursor,
        (λ d, (L2BlockExecutionData.number d, length (L2BlockExecutionData.txs d))) <$> PendingBatchData.pending_l2_blocks data)
  | _ => None
  end.
Lemma restart_resumes_chain_witness :
  resumed (MempoolIO.initialize settings io) = Some (8, 4, [(7, 1%nat)]) ∧
  ∃ data io', MempoolIO.initialize settings io = Ret (inr (cursor_of 4 1000 outputs link3, data), io') ∧
    matches 7 (MempoolIO.pool io') (chain_of outputs) ∧ pending_batch_of [u7] 4 data.
Proof.
  split; [vm_compute; reflexivity|].
  refine (restart_resumes_chain KeeperSamples.sample_executor bridge false true chain0 4 link0 1000 settings io db0 restarted link3
    start0 chain0_matches run_restarted outputs_chain _ _ _ eq_refl eq_refl _).
  - repeat apply Forall_cons_2; [split; [split; computed|computed]..|constructor].
  - repeat constructor; discriminate.
  - computed.
  - intros u [= <-]. exact readable7.
Defined.

(** ** The writes of the tree *)
Definition diff (key enumeration_index value : Z) : StateDiffRecord.t := StateDiffRecord.mk 0xcc key [] enumeration_index 0 value.
(** Slots 1 and 3 are written first; slot 2 has the index 7. *)
Definition f_tree : FinishedL1Batch.t :=
  FinishedL1Batch.mk (KeeperSamples.succeeded (ExecutionResult.Success [])) (CurrentExecutionState.mk [] [] [] [] [] [] []) None None
    (Some [diff 1 0 11; diff 2 7 12; diff 3 0 13]).
Definition u_tree : UpdatesManager.t :=
  UpdatesManager.with_blocks u6 (L1BatchUpdates.with_finished (UpdatesManager.l1_batch u6) f_tree) (UpdatesManager.l2_block u6)
    (UpdatesManager.storage_writes_deduplicator u6).
Definition d_tree : KeeperDb.t := Eval vm_compute in set_initial_writes [InitialWriteRow.mk (raw_hashed_key 0xcc 2) 7 2] d5.
Definition d_sealed : KeeperDb.t := Eval vm_compute in written d_tree (seal_l1_batch_transaction 7 u_tree f_tree bridge true).
Definition d_indexed : KeeperDb.t := Eval vm_compute in written d_sealed (TreeWritesPersistence.handle_l1_batch u_tree).
Lemma tree_writes_indexed_witness :
  (λ r, TreeWrite.leaf_index <$> default [] (L1BatchRow.tree_writes r)) <$> l1_batches d_indexed = [[]; [8; 7; 9]] ∧
  writes_wf 4 (initial_writes d_indexed) ∧
  ∃ row ws, row ∈ l1_batches d_indexed ∧ L1BatchRow.number row = 3 ∧ L1BatchRow.tree_writes row = Some ws ∧
    Forall2 (write_of_diff (initial_writes d_indexed)) [diff 1 0 11; diff 2 7 12; diff 3 0 13] ws.
Proof.
  split; [vm_compute; reflexivity|].
  refine (tree_writes_indexed 7 u_tree f_tree bridge true d_tree 3 d_sealed d_indexed eq_refl _ _ _ _ _);
    [computed|split; repeat constructor; computed|computed|vm_compute; reflexivity|vm_compute; reflexivity].
Defined.
End PersistenceSamples.
