(* ===== verification/PersistenceFlaws.v ===== *)
(** * What the persistence does not survive

    Two runs after which the node cannot go on: a crash between the two statements that
    unmark the transactions of a pending block, and a transaction whose row is deleted
    while the state keeper executes it. *)
From S2P Require Import Prelude Types BTreeSet Mempool Abi Sql VmLimits Float Deduplicator FeeModel TxEncoding VmErrors StateDiffs SealCriteria VmInterface KeeperUpdates BatchExecutor StateKeeper KeeperChain KeeperDal MempoolIO KeeperMempool KeeperDb MempoolFetcher Persistence PersistenceSpec PersistenceMarks PersistenceCorrect PersistenceRuns PersistenceHandler PersistenceRestart PersistenceResume PersistenceSamples.
Local Open Scope Z_scope.
Import KeeperDb L2BlockSealCommand SealCommand TransactionsDal.

Section traces.
Context `{LT : TxLib, LK : KeeperLib, LA : TokenAbi, LS : StorageKeyHash, LC : CopyText}.
Implicit Types (c : L2BlockSealCommand.t) (db : KeeperDb.t).

(** The transaction has a call trace from an execution before. *)
Definition traced_before (res : TxResult) db : Prop := TransactionExecutionResult.hash res ∈ (call_traces db).*1.

Lemma reset_rows n db : filter (λ r, in_block_after n r = true) (update_where (in_block_after n) reset_row (transactions db)) = [].
Proof.
  apply list_filter_all_false, Forall_fmap, Forall_forall. intros r _. cbn. destruct (in_block_after n r) eqn:E; [done|]. by rewrite E.
Qed.
Lemma store_traces f db db' : store_transactions f db = Ret (inr (), db') → call_traces db' = call_traces db.
Proof. by intros (-> & _ & _)%store_transactions_inr. Qed.
Lemma update_traces now c db db' :
  pre_insert_txs c = false → rows_written c now db = Ret (inr (), db') → call_traces db' = call_traces db.
Proof.
  intros Epre. unfold rows_written, update_executed_l2_transactions, update_executed_l1_transactions, update_executed_upgrade_transactions, update_executed_transactions. rewrite Epre.
  intros Hr. apply prog_bind_inr in Hr as ([] & db2 & Hr2 & Hr). apply prog_bind_inr in Hr as ([] & db3 & Hr3 & Hr4).
  apply prog_bind_inr in Hr2 as (E2 & ? & [-> _]%executed_in_block & Hr2%store_traces); [|done].
  apply prog_bind_inr in Hr3 as (E1 & ? & [-> _]%executed_in_block & Hr3%store_traces); [|done].
  apply prog_bind_inr in Hr4 as (E0 & ? & [-> _]%executed_in_block & Hr4%store_traces); [|done]. congruence.
Qed.
(** A call trace that is left from before the crash stands in the way of the next. *)
Lemma stale_trace_fails now c db db' res t :
  pre_insert_txs c = false → res ∈ executed c → call_trace res = Ret (Some t) → traced_before res db →
  subtask_run now MarkTransactionsInL2Block c db ≠ Ret (inr (), db').
Proof.
  intros Epre Hres Ht Hstale Hr. cbn [subtask_run] in Hr. apply atomically_inr in Hr.
  apply prog_bind_inr in Hr as (traces & db0 & [Htr ->]%lift_exec_inr & Hr). apply prog_bind_inr in Hr as ([] & db1 & Hr1 & Hr2).
  apply update_traces in Hr1 as E1; [|done]. pose proof (call_trace_rows_spec _ _ _ _ Htr Hres Ht) as Hin.
  destruct traces as [|tr traces]; [by apply elem_of_nil in Hin|]. unfold insert_call_traces in Hr2. apply execute_inr in Hr2. case_decide; [|done].
  unfold insert_unique in Hr2. case_decide as Hu; [|done]. destruct Hu as [_ Hu]. rewrite Forall_forall in Hu. apply (Hu _ Hin). cbn.
  by rewrite E1.
Qed.

(** C35 The recovery unmarks the transactions of a pending block and then deletes their call
    traces, in two statements. Should the node stop between them, no later recovery finds
    the transactions, their traces stay, and no block with one of those transactions - if
    it is executed with a trace again - can ever be sealed. *)
Theorem interrupted_reset_blocks_sealing n db hashes db1 c res t :
  reset_marks n db = Ret (inr hashes, db1) →
  pre_insert_txs c = false → res ∈ executed c → call_trace res = Ret (Some t) → traced_before res db →
  ∃ db2, reset_transactions_state n db1 = Ret (inr (), db2) ∧ traced_before res db2 ∧
    ∀ now db3, subtask_run now MarkTransactionsInL2Block c db2 ≠ Ret (inr (), db3).
Proof.
  intros Hr Epre Hres Ht Hstale. injection Hr as <- <-.
  assert (Hkept : ∃ db2, reset_transactions_state n (set_transactions (update_where (in_block_after n) reset_row (transactions db)) db) = Ret (inr (), db2) ∧
    call_traces db2 = call_traces db).
  { eexists. split; [reflexivity|]. cbn. rewrite reset_rows. apply delete_where_none, Forall_forall. intros tr _. by apply bool_decide_eq_false_2, not_elem_of_nil. }
  destruct Hkept as (db2 & E & Ec). exists db2. unfold traced_before in *. rewrite Ec. split_and!; [done|done|]. intros now db3.
  eapply stale_trace_fails; [done..|]. unfold traced_before. by rewrite Ec.
Qed.
End traces.

(** ** Samples *)
Module PersistenceFlawSamples.
Import TxEncodingSamples PersistenceSamples.
#[local] Existing Instance KeeperSamples.sample_keeper_lib.
#[local] Existing Instance PersistenceSamples.sample_abi.
#[local] Existing Instance PersistenceSamples.sample_key_hash.
#[local] Existing Instance PersistenceSamples.sample_copy.

(** ** A transaction that is deleted while it is executed *)
(** A mempool with room for one transaction, and two of different accounts. *)
Definition stranger : TransactionRow.t :=
  TransactionRow.mk 2187 (KeeperMempoolSamples.transfer 0xbb 70000 5) None None None None None None 0 None false.
Definition start : MempoolFetcher.t :=
  MempoolFetcher.mk (MempoolStore.new 7 1) (set_transactions [with_in_mempool false (waiting 0); stranger] db0) 10 None.
Definition fee : string + Types.BatchFeeInput := inr KeeperSamples.fee_input.
Definition fetched (s : MempoolFetcher.t) : MempoolFetcher.t :=
  match MempoolFetcher.fetch fee (λ m, m) s with Ret (_, s) => s | Panic => s end.
(** The state keeper takes a transaction. *)
Definition filter5 : L2TxFilter.t := L2TxFilter.mk KeeperSamples.fee_input 0 0.
Definition taken (s : MempoolFetcher.t) : option (Address * option Nonce) * MempoolFetcher.t :=
  match MempoolStore.next_transaction (MempoolFetcher.mempool s) filter5 with
  | Ret (m, tx) => ((λ tx, (Transaction.initiator_account tx, Transaction.nonce tx)) <$> tx, MempoolFetcher.with_mempool s m)
  | Panic => (None, s)
  end.
Definition purged : KeeperDb.t := Eval vm_compute in MempoolFetcher.pool (fetched (taken (fetched start)).2).
Definition sealed_without : KeeperDb.t :=
  Eval vm_compute in written purged (StateKeeperPersistence.seal Turn.sequential (command bridge false u5)).
Definition io_without : MempoolIO.t settings KeeperDb.t := MempoolIO.new (MempoolStore.new 7 1000) sealed_without settings.
Definition start_error (r : exec ((string + (IoCursor.t * option PendingBatchData.t)) * MempoolIO.t settings KeeperDb.t)) : option string :=
  match r with Ret (inl e, _) => Some e | _ => None end.

(** Nothing keeps the row of a transaction that is being executed. The state keeper takes the
    only transaction of its account from a full mempool; the mempool collects the account,
    and the next iteration of the task that fills the mempool deletes the transaction's
    row. The block is sealed all the same, with the transaction in its header and no row,
    and the state keeper does not start again. *)
Theorem purged_transaction_stops_restart :
  (taken (fetched start)).1 = Some (0xaa, Some 0) ∧ marked (MempoolFetcher.pool (fetched start)) = [(1000, None); (2187, None)] ∧ marked purged = [(2187, None)] ∧
  StateKeeperPersistence.seal Turn.sequential (command bridge false u5) purged = Ret (inr (), sealed_without) ∧
  (λ r, (MiniblockRow.number r, MiniblockRow.l2_tx_count r)) <$> miniblocks sealed_without = [(4, 1); (5, 1)] ∧ marked sealed_without = [(2187, None)] ∧
  start_error (MempoolIO.initialize settings io_without) =
    Some "no pending L2 blocks; was environment loaded for a correct L1 batch number?"%string.
Proof. split_and!; vm_compute; reflexivity. Qed.

(** The first of the two iterations. *)
Lemma fetch_fills_mempool_witness :
  TransactionRow.in_mempool <$> transactions (MempoolFetcher.pool start) = [false; false] ∧
  ∃ r s', MempoolFetcher.fetch fee (λ m, m) start = Ret (r, s') ∧
    ∀ loaded, r = inr loaded → ∃ fee_input version base_fee gas_per_pubdata txs nonces,
      fee = inr fee_input ∧ pending_protocol_version (MempoolFetcher.pool start) = Ret (inr version, MempoolFetcher.pool start) ∧
      FeeModel.derive_base_fee_and_gas_per_pubdata fee_input (vm_version version) = Ret (base_fee, gas_per_pubdata) ∧
      FetcherLaws.handed_over base_fee (wrap 32 gas_per_pubdata) 10 (transactions (MempoolFetcher.pool start)) (transactions (MempoolFetcher.pool s')) txs ∧
      get_transaction_nonces txs (MempoolFetcher.pool s') = Ret (inr nonces, MempoolFetcher.pool s') ∧
      MempoolStore.insert (MempoolStore.get_mempool_info (MempoolFetcher.mempool start)).1 txs nonces = Ret (MempoolFetcher.mempool s') ∧
      loaded = bool_decide (length txs < 10)%nat.
Proof.
  split; [reflexivity|]. apply (FetcherLaws.fetch_fills_mempool fee (λ m, m) start).
  - vm_compute. discriminate.
  - intros version db' Hv. assert (version = latest) as -> by (revert Hv; vm_compute; by intros [= <- _]). vm_compute. discriminate.
Defined.

(** ** A crash in the recovery, with call traces *)
Definition call : CallTrace.t := CallTrace.mk (CallTypeCall Normal) 0xaa 0xcc 70000 70000 60000 17 [] [] None None [].
Definition traced (res : TxResult) : TxResult :=
  TransactionExecutionResult.mk (TransactionExecutionResult.transaction res) (TransactionExecutionResult.hash res)
    (TransactionExecutionResult.execution_info res) (TransactionExecutionResult.execution_status res) (TransactionExecutionResult.refunded_gas res)
    (TransactionExecutionResult.operator_suggested_refund res) (TransactionExecutionResult.compressed_bytecodes res) [call] None.
Definition c5 : L2BlockSealCommand.t :=
  let c := command bridge false u5 in
  let b := l2_block c in
  L2BlockSealCommand.mk (l1_batch_number c)
    (L2BlockUpdates.mk (traced <$> L2BlockUpdates.executed_transactions b) (L2BlockUpdates.events b) (L2BlockUpdates.storage_logs b)
      (L2BlockUpdates.user_l2_to_l1_logs b) (L2BlockUpdates.system_l2_to_l1_logs b) (L2BlockUpdates.new_factory_deps b) (L2BlockUpdates.l1_gas_count b)
      (L2BlockUpdates.block_execution_metrics b) (L2BlockUpdates.txs_encoding_size b) (L2BlockUpdates.payload_encoding_size b)
      (L2BlockUpdates.timestamp b) (L2BlockUpdates.number b) (L2BlockUpdates.prev_block_hash b) (L2BlockUpdates.virtual_blocks b)
      (L2BlockUpdates.protocol_version b))
    (first_tx_index c) (fee_account_address c) (fee_input c) (base_fee_per_gas c) (base_system_contracts_hashes c)
    (L2BlockSealCommand.protocol_version c) (l2_shared_bridge_addr c) (pre_insert_txs c).
Definition res5 : TxResult := default (traced (TransactionExecutionResult.mk (KeeperSamples.l2_tx 0 0) 0 VmExecutionMetrics.default StatusSuccess 0 0 [] [] None))
  (executed c5 !! 0%nat).
Definition trace5 : CallTrace.t := match call_trace res5 with Ret (Some t) => t | _ => call end.
Definition marked5 : KeeperDb.t := Eval vm_compute in written db0 (subtask_run 0 MarkTransactionsInL2Block c5).
Definition unmarked5 : KeeperDb.t := Eval vm_compute in written marked5 (reset_marks 4).

Lemma interrupted_reset_blocks_sealing_witness :
  subtask_run 0 MarkTransactionsInL2Block c5 db0 = Ret (inr (), marked5) ∧ marked unmarked5 = marked db0 ∧
  ∃ db2, reset_transactions_state 4 unmarked5 = Ret (inr (), db2) ∧ traced_before res5 db2 ∧
    ∀ now db3, subtask_run now MarkTransactionsInL2Block c5 db2 ≠ Ret (inr (), db3).
Proof.
  split; [vm_compute; reflexivity|]. split; [vm_compute; reflexivity|].
  apply (interrupted_reset_blocks_sealing 4 marked5 [1000] unmarked5 c5 res5 trace5).
  - vm_compute. reflexivity.
  - reflexivity.
  - vm_compute. left.
  - vm_compute. reflexivity.
  - vm_compute. left.
Defined.
End PersistenceFlawSamples.
